(* ===== verification/_CoqProject ===== *)
-Q . S2P
Prelude.v
Bytes.v
Order.v
Hash.v
Float64.v
Error.v
Machine.v
Atomic.v
Limits.v
Cancel.v
Session.v
Source.v
Reader.v
Varint.v
Schema.v
Lexical.v
Scan.v
Arena.v
ArenaIntern.v
Component.v
ScanSound.v
ScanComplete.v
Index.v
RdfLists.v
RdfListsTheorems.v
ArenaSound.v
ArenaFreeze.v
ArenaTheorems.v
Decimal.v
Records.v
Codec.v
CodecTheorems.v
Publish.v
PublishSound.v
PublishTheorems.v
Encode.v
Tokenizer.v
Functional.v
Utf8.v
Grammar.v
ParseResult.v
Denotes.v
Consumes.v
Refines.v
Parses.v
ParsesDocument.v
Lexemes.v
TokenizerTheorems.v
FunctionalTheorems.v
Shapes.v
ParseFrame.v
ParseTheorems.v
CanonicalTree.v
AlphaOrder.v
BlankGraph.v
AnonymousRows.v
Charged.v
TreeSound.v
Renaming.v
BlankArcs.v
Neighborhoods.v
Permutations.v
AlphaSound.v
AlphaInvariant.v
BlankComponents.v
ComponentsSound.v
IdentitiesSound.v
ScopingSound.v
AnonymousTheorems.v
Wire.v
WireTable.v
WireFraming.v
WireRows.v
WireRefs.v
WireColumns.v
WireValidate.v
WireRowsSound.v
WireFooter.v
WireColumnsSound.v
WireFile.v
