(* ===== verification/Prelude.v ===== *)
(** * pyowl-core native kernel: a verification library

    pyowl-core is an OWL 2 ontology library whose native backend is the Rust
    crate of [native/src].  The crate reads ontology sources, turns structural
    values into canonical rows, stores them in an arena, validates the PYOCORE
    wire format, and publishes attested snapshots.  This library models the
    parts of it that carry its guarantees as executable Rocq definitions and
    proves what they promise.

    ** How the code is modelled

    Bytes and words are [Z] in range, slices are lists, and every arithmetic
    operation is written with its width: [checked_add] and friends return an
    option, [usize_add] and friends panic on overflow as the release profile
    (overflow checks on, 64-bit [usize]) does.  A run ends in an [outcome]: a
    value, an error with its code, message and payload, or a panic ([Error]).
    Operations that keep state are in the monad [M S] of [Machine]; the outside
    ([World]: clock, cancellation by other threads, pending signals, whether
    the allocator grants a fallible reservation) is a stream of observations
    that theorems quantify over.  [wp], [wpe], [wpx], [wpp] and [runs] are its
    program logics: no panic and a postcondition; the same with a postcondition
    for errors ([Atomic]); panics only under a condition; success.

    Loops are structural where the data is, and otherwise recurse on a bound
    that is proved sufficient, running out of it being a [Panic]: [scan_fuel]
    is the nesting limit plus two; [encode_u64] and the tag reader take ten
    rounds; [decode_fuel] is the number of triples plus one, because a walk
    never visits a cell twice; [refinement_fuel] is the number of labels plus
    two, which the code refuses to exceed; a walk to the root of a union-find
    tree passes every label once at most; the candidate orders are as many as
    the product of the factorials of the classes; 39 and 20 digits suffice for
    128-bit and [usize] numbers.

    ** Parts and files

    - Foundations.  [Prelude] (automation, machine integers, slices), [Bytes]
      (words, byte order, UTF-8), [Order] (sorting and deduplication),
      [Float64], [Machine], [Atomic].
    - [Hash]: [hash.rs].  The streaming digest is the SHA-256 of FIPS 180-4,
      stated on its own in its Module [Fips180]; CRC32C detects short bursts.
    - [Error], [Limits], [Cancel], [Session], [Source]: [error.rs], [limits.rs],
      [cancel.rs], [session.rs], [source.rs].  Configurations decode exactly
      when they are encodings of valid ledgers; budgets are charged atomically;
      a cancelled operation stops within one polling stride of the work it had
      reached.
    - [Reader]: [wire/reader.rs], with the relation [reads] of a reader to the
      bytes it accepts.
    - [Varint], [Schema], [Lexical], [Scan], [Component], [ScanSound],
      [ScanComplete]: [model/canonical.rs].  [Component] is the abstract syntax
      of rows; the scanner accepts exactly the encodings of well-formed
      components, and finds a tag anywhere in them.
    - [Encode]: [canonical.rs].  What the writer builds is what the scanner
      accepts, and sets are canonicalised.
    - [Arena], [ArenaIntern], [ArenaSound], [ArenaFreeze], [ArenaTheorems]:
      [builder.rs] and [model/ids.rs], [tables.rs], [arena.rs].
      Builders stay consistent, identifiers identify contents, refused requests
      change nothing, and publication is canonical: it depends on what was
      interned and not on the order or the hash functions.
    - [Index]: [index/mod.rs].  The index is the partition of the axioms by tag.
    - [RdfLists], [RdfListsTheorems]: [ingestion/rdf_lists.rs].
      Decoding a collection answers for the graph, error or not, ends, and
      collections share no cells.
    - [Decimal], [Records], [Codec], [CodecTheorems]:
      [publication/records.rs] and [publication/codec.rs].  [Codec] (the class)
      is the contract of a writer; the four manifests fulfil it.
    - [Publish], [PublishSound], [PublishTheorems]:
      [publication/mod.rs].  [consistent] is the specification of a snapshot.
      The sample is the repository's fixture; its digests are the vectors that
      the repository publishes.
    - [Tokenizer], [Functional], [ParseResult]: [parse/functional.rs] and the part
      of [parse/mod.rs] that answers a request; the recursion of the parser is
      bounded by the tokens, each of which is taken once.  [Lexemes] and
      [Grammar] are the reference lexer and grammar, written over text and
      tokens without offsets, sessions or nodes.  [Utf8], [TokenizerTheorems]:
      the tokenizer computes the reference tokens.
      [Denotes] (nodes and the components they denote), [Consumes] (what a
      reader uses up), [Refines] (the refinement and its rules), [Parses],
      [ParsesDocument], [FunctionalTheorems]: the parser reads
      what the grammar reads.  [Shapes]: what
      the grammar reads has the shape of the schema.  [ParseFrame], [ParseTheorems]: the answer is the frame of the denoted
      document.
    - [CanonicalTree], [AlphaOrder], [BlankGraph], [AnonymousRows]:
      [parse/anonymous.rs] with the document fingerprint of
      [parse/retained.rs], in the order of the computation: rows as trees; the
      colours and the canonical order of one component; the arcs of a document
      and its components; scopes, identities and the scoped rows.  [Charged]
      relates an operation to the function it computes but for what it
      charges; [TreeSound] does so for rows, [Neighborhoods] for refinement,
      [BlankArcs] for the arcs.  [Renaming] is what replacing individuals means
      for components.  [Permutations], [AlphaSound]: the order found is least among those of the stable classes.
      [AlphaInvariant]: isomorphic arcs give equal graphs, and
      refinement ends.  [BlankComponents], [ComponentsSound]: the components are the connected ones.
      [IdentitiesSound]: manifests and identities.  [ScopingSound]: the whole
      operation, from rows to scoped rows.  [AnonymousTheorems]: the theorems,
      with the vectors of the unit tests.
    - [Wire], [WireRows], [WireColumns], [WireValidate]: [wire/mod.rs], the
      framing, the rows, the encoded columns and the whole validation.
      [WireTable], [WireFraming], [WireRefs], [WireRowsSound],
      [WireFooter], [WireColumnsSound] and [WireFile]
      relate them to the specification of a file: the validator accepts nothing
      else, and panics only for a row offset next to 2^64.

    The parts meet through their specifications: [Encode] and [Wire] use the
    scanner through [Component]; [Functional] uses the writer through
    [Denotes] and [ParseResult] the scanner through [ScanComplete]; the trees of [TreeSound] are those of
    scanned components; [Arena] and [Index] through the soundness of
    [scan_canonical]; [Publish] uses the arena through its checked lookups and
    [Codec] through the contract of its writers.

    ** Not modelled

    - [model/components.rs], [component_index.rs], [encoded_columns.rs],
      [index/retained.rs], [index/signature.rs]: the recursive component storage
      and the indexes over it.
    - [ingestion/rdfxml.rs], [turtle.rs], [owlxml.rs],
      [rdf_class_expressions.rs], [v1_adapter.rs], [v2_adapter.rs]: the RDF and
      XML front ends above the collection decoder.
    - [parse/retained.rs], except the document fingerprint, and
      [parse_retained]: the retained facades.  The spellings of
      language tags are modelled with the parser, but are not part of the
      document that the reference grammar reads.
    - [publication/handle.rs], [facade_v2.rs], [typed_v2.rs],
      [typed_builder_v2.rs], [bindings/], [lib.rs]: Python owners, paged facades
      and argument conversion, whose behaviour is that of PyO3.
    - [comparator.rs], [process_allocator_test.rs], fixtures and tests, built only
      with test features.
    - Vector capacities: the allocator's choice is an observation of the world.
      Sizes of Rust types that are charged to budgets are those of a 64-bit
      target. *)

From stdpp Require Export base list numbers gmap sorting strings.
From Stdlib Require Export ZArith Lia.
#[global] Set Default Goal Selector "!".
#[global] Open Scope Z_scope.

(** ** Automation *)

Create HintDb kernel discriminated.
Create HintDb bytes discriminated.

(** [bool_to_prop] turns boolean tests in hypotheses into propositions. *)
Ltac bool_to_prop :=
  repeat match goal with
  | H : (_ && _) = true |- _ => apply andb_true_iff in H; destruct H
  | H : (_ || _) = false |- _ => apply orb_false_iff in H; destruct H
  | H : negb _ = true |- _ => apply negb_true_iff in H
  | H : negb _ = false |- _ => apply negb_false_iff in H
  | H : (_ <? _) = true |- _ => apply Z.ltb_lt in H
  | H : (_ <? _) = false |- _ => apply Z.ltb_ge in H
  | H : (_ <=? _) = true |- _ => apply Z.leb_le in H
  | H : (_ <=? _) = false |- _ => apply Z.leb_gt in H
  | H : (_ =? _) = true |- _ => apply Z.eqb_eq in H
  | H : (_ =? _) = false |- _ => apply Z.eqb_neq in H
  end.

(** Split the visible conjunctions only. *)
Ltac splits := repeat match goal with |- _ /\ _ => split end.

(** ** Machine integers

    A w-bit unsigned integer is a [Z] in range.  [usize] is the 64-bit one:
    the native module is built for 64-bit targets. *)

Definition U8_MAX : Z := 0xff.
Definition U16_MAX : Z := 0xffff.
Definition U32_MAX : Z := 0xffffffff.
Definition U64_MAX : Z := 0xffffffffffffffff.
Definition USIZE_MAX : Z := U64_MAX.

Definition is_u8 (z : Z) : Prop := 0 <= z <= U8_MAX.
Definition is_u16 (z : Z) : Prop := 0 <= z <= U16_MAX.
Definition is_u32 (z : Z) : Prop := 0 <= z <= U32_MAX.
Definition is_u64 (z : Z) : Prop := 0 <= z <= U64_MAX.
Definition is_usize (z : Z) : Prop := 0 <= z <= USIZE_MAX.

#[export] Hint Unfold is_u8 is_u16 is_u32 is_u64 is_usize
  U8_MAX U16_MAX U32_MAX U64_MAX USIZE_MAX : kernel.

(** [ulia] is [lia] with the machine ranges unfolded. *)
Ltac unfold_ranges :=
  unfold is_u8, is_u16, is_u32, is_u64, is_usize, USIZE_MAX,
    U8_MAX, U16_MAX, U32_MAX, U64_MAX in *.
Ltac ulia := unfold_ranges; lia.

(** Rust's [checked_add], [checked_mul] and the wrapping operations. *)
Definition checked_add (max a b : Z) : option Z :=
  if a + b <=? max then Some (a + b) else None.
Definition checked_mul (max a b : Z) : option Z :=
  if a * b <=? max then Some (a * b) else None.
Definition saturating_add (max a b : Z) : Z := Z.min max (a + b).
Definition saturating_mul (max a b : Z) : Z := Z.min max (a * b).
Definition try_from (max a : Z) : option Z :=
  if a <=? max then Some a else None.
Definition wrapping_add64 (a b : Z) : Z := (a + b) mod 2 ^ 64.
Definition wrapping_mul64 (a b : Z) : Z := (a * b) mod 2 ^ 64.

#[global] Arguments checked_add : simpl never.
#[global] Arguments checked_mul : simpl never.
#[global] Arguments try_from : simpl never.

Lemma checked_add_Some max a b c :
  checked_add max a b = Some c <-> c = a + b /\ a + b <= max.
Proof. unfold checked_add. case_match; bool_to_prop; naive_solver lia. Qed.

Lemma checked_mul_Some max a b c :
  checked_mul max a b = Some c <-> c = a * b /\ a * b <= max.
Proof. unfold checked_mul. case_match; bool_to_prop; naive_solver lia. Qed.

Lemma try_from_Some max a b :
  try_from max a = Some b <-> b = a /\ a <= max.
Proof. unfold try_from. case_match; bool_to_prop; naive_solver lia. Qed.

Lemma checked_add_ok max a b : a + b <= max -> checked_add max a b = Some (a + b).
Proof. intros. by apply checked_add_Some. Qed.
Lemma checked_mul_ok max a b : a * b <= max -> checked_mul max a b = Some (a * b).
Proof. intros. by apply checked_mul_Some. Qed.
Lemma try_from_ok max a : a <= max -> try_from max a = Some a.
Proof. intros. by apply try_from_Some. Qed.

(** Successful conversions leave the value. *)
Ltac conversions :=
  repeat match goal with
  | H : try_from _ _ = Some _ |- _ => apply try_from_Some in H as [-> _]
  end.

(** ** Slices

    Rust slices are lists; lengths and offsets are [Z]. *)

Notation len l := (Z.of_nat (length l)).

Section Slices.
Context {A : Type}.
Implicit Types (l : list A) (a b i : Z).

(** [data.get(a..b)] *)
Definition get_range l a b : option (list A) :=
  if (0 <=? a) && (a <=? b) && (b <=? len l)
  then Some (take (Z.to_nat (b - a)) (drop (Z.to_nat a) l)) else None.

(** [data.get(a..)] *)
Definition get_from l a : option (list A) := get_range l a (len l).

(** [data.get(i)] *)
Definition get_at l i : option A :=
  if (0 <=? i) && (i <? len l) then l !! Z.to_nat i else None.

(** The sub-slice of [l] from [a] of length [n], as an equation. *)
Definition sub_slice l a b (x : list A) : Prop :=
  exists p q, l = p ++ x ++ q /\ len p = a /\ len p + len x = b.

Lemma get_range_Some l a b x :
  get_range l a b = Some x <-> 0 <= a /\ sub_slice l a b x.
Proof.
  unfold get_range, sub_slice. split.
  - case_match eqn:E; [|done]. intros [= <-]. bool_to_prop. split; [done|].
    exists (take (Z.to_nat a) l), (drop (Z.to_nat b) l).
    rewrite !length_take, length_drop. split; [|lia].
    replace (Z.to_nat b) with (Z.to_nat a + Z.to_nat (b - a))%nat by lia.
    rewrite <- drop_drop, take_drop. by rewrite take_drop.
  - intros (Ha & p & q & -> & Hp & Hx).
    rewrite !length_app. case_match eqn:E.
    + f_equal. rewrite (drop_app_length' p) by lia.
      by rewrite (take_app_length' x) by lia.
    + exfalso. apply not_true_iff_false in E. apply E.
      repeat (apply andb_true_iff; split); apply Z.leb_le; lia.
Qed.

(** The range of a list that is written as prefix, range and suffix. *)
Lemma get_range_mid p x q a b :
  len p = a -> len x = b - a -> get_range (p ++ x ++ q) a b = Some x.
Proof. intros. apply get_range_Some. split; [lia|]. exists p, q. repeat split; lia. Qed.

Lemma get_range_end p x a b :
  len p = a -> len x = b - a -> get_range (p ++ x) a b = Some x.
Proof. intros. rewrite <- (app_nil_r x) at 1. by apply get_range_mid. Qed.

(** A list whose length is known splits there. *)
Lemma split_at l n : 0 <= n <= len l -> exists x y, l = x ++ y /\ len x = n.
Proof.
  intros. exists (take (Z.to_nat n) l), (drop (Z.to_nat n) l).
  rewrite take_drop, length_take. split; [done|lia].
Qed.

Lemma get_range_length l a b x :
  get_range l a b = Some x -> len x = b - a /\ 0 <= a <= b /\ b <= len l.
Proof.
  rewrite get_range_Some. intros (?&p&q&->&?&?). rewrite !length_app. lia.
Qed.

Lemma get_range_None l a b :
  0 <= a -> get_range l a b = None <-> b < a \/ len l < b.
Proof.
  unfold get_range. intros Ha. case_match eqn:E.
  - bool_to_prop. split; [done|lia].
  - split; [intros _|done]. apply not_true_iff_false in E.
    destruct (Z.leb_spec 0 a), (Z.leb_spec a b), (Z.leb_spec b (len l)); naive_solver lia.
Qed.

Lemma get_range_is_Some l a b :
  0 <= a <= b -> b <= len l -> exists x, get_range l a b = Some x.
Proof.
  intros. destruct (get_range l a b) eqn:E; [eauto|].
  apply get_range_None in E; lia.
Qed.

Lemma get_range_app l a b c x y :
  get_range l a b = Some x -> get_range l b c = Some y ->
  get_range l a c = Some (x ++ y).
Proof.
  intros Hx Hy.
  pose proof (get_range_length _ _ _ _ Hx). pose proof (get_range_length _ _ _ _ Hy).
  apply get_range_Some in Hx as (?&p&q&->&?&?).
  apply get_range_Some in Hy as (?&p'&q'&E&?&?).
  apply get_range_Some. split; [done|].
  rewrite app_assoc in E. apply app_inj_1 in E as [<- ->].
  - exists p, q'. rewrite length_app. split; [by rewrite <- !app_assoc|]. lia.
  - apply Nat2Z.inj. rewrite length_app. lia.
Qed.

Lemma get_range_full l : get_range l 0 (len l) = Some l.
Proof.
  apply get_range_Some. split; [done|]. exists [], []. rewrite app_nil_r.
  repeat split; cbn [length]; lia.
Qed.

Lemma get_at_Some l i x :
  get_at l i = Some x <-> 0 <= i /\ l !! Z.to_nat i = Some x.
Proof.
  unfold get_at. split.
  - case_match eqn:E; [|done]. bool_to_prop. auto.
  - intros [? Hx]. pose proof (lookup_lt_Some _ _ _ Hx).
    case_match eqn:E; [done|]. exfalso. apply not_true_iff_false in E. apply E.
    apply andb_true_iff; split; [apply Z.leb_le|apply Z.ltb_lt]; lia.
Qed.

Lemma get_at_is_Some l i : 0 <= i < len l -> exists x, get_at l i = Some x.
Proof.
  intros. destruct (lookup_lt_is_Some_2 l (Z.to_nat i)) as [x Hx]; [lia|].
  exists x. apply get_at_Some. split; [lia|done].
Qed.

Lemma get_at_lt l i x : get_at l i = Some x -> 0 <= i < len l.
Proof. rewrite get_at_Some. intros [? Hx%lookup_lt_Some]. lia. Qed.

Lemma get_at_range l i x : get_at l i = Some x -> get_range l i (i + 1) = Some [x].
Proof.
  intros H. pose proof (get_at_lt _ _ _ H). apply get_at_Some in H as [? H].
  apply get_range_Some. split; [done|].
  apply list_elem_of_split_length in H as (p & q & -> & Hp).
  exists p, q. cbn. split; [done|]. lia.
Qed.

Lemma get_range_at l a b x i :
  get_range l a b = Some x -> 0 <= i < b - a -> get_at x i = get_at l (a + i).
Proof.
  intros Hx ?. pose proof (get_range_length _ _ _ _ Hx).
  apply get_range_Some in Hx as (?&p&q&->&?&?).
  destruct (get_at_is_Some x i) as [y Hy]; [lia|]. rewrite Hy. symmetry.
  apply get_at_Some in Hy as [? Hy]. apply get_at_Some. split; [lia|].
  rewrite lookup_app_r by lia. rewrite lookup_app_l by lia. rewrite <- Hy. f_equal. lia.
Qed.
End Slices.

(** Appending above the last element keeps a list sorted. *)
Lemma sorted_snoc {A} (R : relation A) `{!Transitive R} l x :
  StronglySorted R l -> (forall y, last l = Some y -> R y x) -> StronglySorted R (l ++ [x]).
Proof.
  intros Hl Hx. apply StronglySorted_app. split; [|split; [done|by repeat constructor]].
  intros y z Hy ->%list_elem_of_singleton. destruct l as [|p l _] using rev_ind.
  { by apply not_elem_of_nil in Hy. }
  rewrite last_snoc in Hx. specialize (Hx p eq_refl).
  apply elem_of_app in Hy as [Hy|Hy]; [|by apply list_elem_of_singleton in Hy as ->].
  transitivity p; [|done]. apply StronglySorted_app in Hl as [Hl _]. apply Hl; [done|by apply list_elem_of_singleton].
Qed.

#[global] Arguments get_range : simpl never.
#[global] Arguments get_from : simpl never.
#[global] Arguments get_at : simpl never.

(** ** Bits *)

(** Disjoint bits: or is addition. *)
Lemma lor_shiftl_add a b s : 0 <= s -> 0 <= a < 2 ^ s -> Z.lor a (Z.shiftl b s) = a + b * 2 ^ s.
Proof.
  intros Hs Ha. rewrite <- Z.shiftl_mul_pow2 by done.
  assert (Z.land a (Z.shiftl b s) = 0) as H.
  { apply Z.bits_inj'. intros n Hn. rewrite Z.land_spec, Z.bits_0.
    destruct (Z.lt_ge_cases n s).
    - by rewrite Z.shiftl_spec_low, andb_false_r.
    - rewrite <- (Z.mod_small a (2 ^ s)) by done.
      by rewrite Z.mod_pow2_bits_high by lia. }
  rewrite Z.add_nocarry_lxor by done. symmetry. by apply Z.lxor_lor.
Qed.

Lemma land_mask a n m : 0 <= n -> m = Z.ones n -> Z.land a m = a mod 2 ^ n.
Proof. intros Hn ->. by apply Z.land_ones. Qed.

Lemma pow2_128 n : 0 <= n -> 2 ^ (7 * n) = 128 ^ n.
Proof. intros. rewrite Z.pow_mul_r by lia. done. Qed.

(** ** Sums *)

Definition sum (l : list Z) : Z := foldr Z.add 0 l.

Lemma sum_app x y : sum (x ++ y) = sum x + sum y.
Proof. unfold sum. induction x as [|a x IH]; cbn [app foldr]; [lia|]. rewrite IH. lia. Qed.
