(* ===== verification/Bytes.v ===== *)
(** * Bytes, little-endian words, byte-string order and UTF-8

    The pieces of Rust's [core] the kernel leans on: [u8] slices with their
    lexicographic order, [from_le_bytes]/[to_le_bytes], [str::from_utf8] and
    [str::chars], and the ASCII classification methods. *)

From S2P Require Import Prelude.
From Stdlib Require Import Ascii.
From Stdlib Require String.
Export String.StringSyntax.
Notation string := String.string.

Notation bytes := (list Z).

(** Every element is a [u8]. *)
Definition is_bytes (l : bytes) : Prop := Forall is_u8 l.

Definition is_bytesb (l : bytes) : bool :=
  forallb (fun b => (0 <=? b) && (b <=? U8_MAX)) l.

Lemma is_bytesb_true l : is_bytesb l = true -> is_bytes l.
Proof.
  unfold is_bytesb, is_bytes. rewrite forallb_forall, Forall_forall.
  intros H x Hx%list_elem_of_In. apply H in Hx. bool_to_prop. ulia.
Qed.

Lemma is_bytes_app x y : is_bytes (x ++ y) <-> is_bytes x /\ is_bytes y.
Proof. apply Forall_app. Qed.

Lemma is_bytes_range l a b x : is_bytes l -> get_range l a b = Some x -> is_bytes x.
Proof.
  intros H (?&p&q&->&_)%get_range_Some. by apply is_bytes_app in H as [_ [? _]%is_bytes_app].
Qed.

Lemma is_bytes_at l i x : is_bytes l -> get_at l i = Some x -> is_u8 x.
Proof.
  intros H [_ Hx]%get_at_Some. apply Forall_lookup_1 with (2 := Hx) in H. done.
Qed.

#[export] Hint Resolve is_bytes_range is_bytes_at : bytes.

(** A Rust byte-string literal. *)
Definition byte_of_ascii (a : ascii) : Z := Z.of_N (N_of_ascii a).
Definition str (s : string) : bytes := map byte_of_ascii (String.list_ascii_of_string s).

Lemma is_bytes_str s : is_bytes (str s).
Proof.
  unfold str, is_bytes. apply Forall_forall. intros x Hx.
  apply list_elem_of_In, in_map_iff in Hx as (a & <- & _).
  unfold byte_of_ascii. pose proof (N_ascii_bounded a). ulia.
Qed.

Lemma str_inj s t : str s = str t -> s = t.
Proof.
  unfold str. intros H.
  assert (forall x y, map byte_of_ascii x = map byte_of_ascii y -> x = y) as Hmap.
  { induction x as [|a x IH]; destruct y as [|b y]; cbn; try discriminate; [done|].
    intros [= Hab Hxy]. f_equal; [|by apply IH].
    unfold byte_of_ascii in Hab. apply N2Z.inj in Hab.
    rewrite <- (ascii_N_embedding a), <- (ascii_N_embedding b). by f_equal. }
  apply Hmap in H. rewrite <- (String.string_of_list_ascii_of_string s), H.
  apply String.string_of_list_ascii_of_string.
Qed.

(** ** Little-endian words *)

Fixpoint to_le_bytes (n : nat) (z : Z) : bytes :=
  match n with O => [] | S n => z mod 256 :: to_le_bytes n (z / 256) end.

Fixpoint from_le_bytes (l : bytes) : Z :=
  match l with [] => 0 | b :: l => b + 256 * from_le_bytes l end.

Definition to_be_bytes (n : nat) (z : Z) : bytes := rev (to_le_bytes n z).
Definition from_be_bytes (l : bytes) : Z := from_le_bytes (rev l).

Lemma length_to_le_bytes n z : length (to_le_bytes n z) = n.
Proof. revert z. induction n as [|n IH]; intros z; cbn; [done|]. by rewrite IH. Qed.

Lemma is_bytes_to_le n z : is_bytes (to_le_bytes n z).
Proof.
  revert z. induction n as [|n IH]; intros z; cbn; constructor; [|apply IH].
  pose proof (Z.mod_pos_bound z 256). ulia.
Qed.

Lemma from_le_bytes_bound l :
  is_bytes l -> 0 <= from_le_bytes l < 256 ^ len l.
Proof.
  induction l as [|b l IH]; cbn [from_le_bytes length]; intros Hl; [done|].
  apply Forall_cons in Hl as [Hb Hl]. specialize (IH Hl).
  rewrite Nat2Z.inj_succ, Z.pow_succ_r by lia. ulia.
Qed.

Lemma from_to_le n z : 0 <= z < 256 ^ Z.of_nat n -> from_le_bytes (to_le_bytes n z) = z.
Proof.
  revert z. induction n as [|n IH]; intros z.
  - change (256 ^ Z.of_nat 0) with 1. cbn. lia.
  - rewrite Nat2Z.inj_succ, Z.pow_succ_r by lia. intros Hz. cbn [to_le_bytes from_le_bytes].
    rewrite IH; [pose proof (Z.div_mod z 256); lia|].
    split; [apply Z.div_pos; lia|apply Z.div_lt_upper_bound; lia].
Qed.

Lemma to_from_le l : is_bytes l -> to_le_bytes (length l) (from_le_bytes l) = l.
Proof.
  induction l as [|b l IH]; cbn [from_le_bytes length to_le_bytes]; intros Hl; [done|].
  apply Forall_cons in Hl as [Hb Hl]. f_equal.
  - rewrite Z.mul_comm, Z.mod_add by lia. apply Z.mod_small. ulia.
  - rewrite Z.mul_comm, Z.div_add by lia. rewrite (Z.div_small b) by ulia. by apply IH.
Qed.

Lemma from_le_bytes_inj x y :
  is_bytes x -> is_bytes y -> length x = length y ->
  from_le_bytes x = from_le_bytes y -> x = y.
Proof.
  intros Hx Hy Hl H. rewrite <- (to_from_le x), <- (to_from_le y) by done. by rewrite Hl, H.
Qed.

(** ** The lexicographic order of byte strings *)

Fixpoint bytes_compare (x y : bytes) : comparison :=
  match x, y with
  | [], [] => Eq
  | [], _ :: _ => Lt
  | _ :: _, [] => Gt
  | a :: x, b :: y =>
      match a ?= b with Eq => bytes_compare x y | c => c end
  end.

Definition bytes_ltb x y : bool := match bytes_compare x y with Lt => true | _ => false end.
Definition bytes_leb x y : bool := match bytes_compare x y with Gt => false | _ => true end.
Definition bytes_eqb x y : bool := match bytes_compare x y with Eq => true | _ => false end.
Definition bytes_lt x y : Prop := bytes_ltb x y = true.
Definition bytes_le x y : Prop := bytes_leb x y = true.

Lemma bytes_compare_eq x y : bytes_compare x y = Eq <-> x = y.
Proof.
  revert y. induction x as [|a x IH]; destruct y as [|b y]; cbn; try done.
  destruct (Z.compare_spec a b); try (split; [done|intros [=]; lia]).
  rewrite IH. split; [by intros ->; subst|by intros [= _ ->]].
Qed.

Lemma bytes_compare_antisym x y : bytes_compare y x = CompOpp (bytes_compare x y).
Proof.
  revert y. induction x as [|a x IH]; destruct y as [|b y]; cbn; try done.
  rewrite (Z.compare_antisym a b). destruct (a ?= b); cbn; [apply IH|done|done].
Qed.

Lemma bytes_compare_lt_trans x y z :
  bytes_compare x y = Lt -> bytes_compare y z = Lt -> bytes_compare x z = Lt.
Proof.
  revert y z. induction x as [|a x IH]; destruct y as [|b y], z as [|c z]; cbn; try done.
  destruct (Z.compare_spec a b), (Z.compare_spec b c); try done; subst; intros ??.
  - rewrite Z.compare_refl. by eapply IH.
  - by rewrite (proj2 (Z.compare_lt_iff b c)).
  - by rewrite (proj2 (Z.compare_lt_iff a c)).
  - by rewrite (proj2 (Z.compare_lt_iff a c)) by lia.
Qed.

Lemma bytes_eqb_eq x y : bytes_eqb x y = true <-> x = y.
Proof.
  unfold bytes_eqb. rewrite <- bytes_compare_eq. by destruct (bytes_compare x y).
Qed.

Lemma bytes_eqb_neq x y : bytes_eqb x y = false <-> x <> y.
Proof. rewrite <- bytes_eqb_eq. by destruct (bytes_eqb x y). Qed.

Lemma bytes_eqb_refl x : bytes_eqb x x = true.
Proof. by apply bytes_eqb_eq. Qed.

Lemma bytes_leb_ltb x y : bytes_leb x y = negb (bytes_ltb y x).
Proof.
  unfold bytes_leb, bytes_ltb. rewrite (bytes_compare_antisym x y).
  by destruct (bytes_compare x y).
Qed.

Lemma bytes_leb_false x y : bytes_leb x y = false -> bytes_lt y x.
Proof. rewrite bytes_leb_ltb. intros H. by apply negb_false_iff in H. Qed.

#[export] Instance bytes_lt_strict : StrictOrder bytes_lt.
Proof.
  unfold bytes_lt, bytes_ltb. split.
  - intros x. unfold complement. rewrite (proj2 (bytes_compare_eq x x) eq_refl). done.
  - intros x y z. destruct (bytes_compare x y) eqn:E, (bytes_compare y z) eqn:F; try done.
    by rewrite (bytes_compare_lt_trans _ _ _ E F).
Qed.

#[export] Instance bytes_le_trans : Transitive bytes_le.
Proof.
  unfold bytes_le, bytes_leb. intros x y z.
  destruct (bytes_compare x y) eqn:E, (bytes_compare y z) eqn:F; try done; intros _ _.
  - apply bytes_compare_eq in E as ->. by rewrite F.
  - apply bytes_compare_eq in E as ->. by rewrite F.
  - apply bytes_compare_eq in F as ->. by rewrite E.
  - by rewrite (bytes_compare_lt_trans _ _ _ E F).
Qed.

#[export] Instance bytes_le_total : Total bytes_le.
Proof.
  unfold bytes_le, bytes_leb. intros x y. rewrite (bytes_compare_antisym x y).
  destruct (bytes_compare x y); auto.
Qed.

#[export] Instance bytes_le_antisymm : AntiSymm eq bytes_le.
Proof.
  unfold bytes_le, bytes_leb. intros x y. rewrite (bytes_compare_antisym x y), <- bytes_compare_eq.
  by destruct (bytes_compare x y).
Qed.

#[export] Instance bytes_le_dec x y : Decision (bytes_le x y).
Proof. unfold bytes_le. apply _. Defined.

Lemma bytes_lt_le x y : bytes_lt x y <-> bytes_le x y /\ x <> y.
Proof.
  unfold bytes_lt, bytes_le, bytes_ltb, bytes_leb. rewrite <- (bytes_compare_eq x y).
  destruct (bytes_compare x y); naive_solver.
Qed.

(** ** ASCII classes *)

Definition in_range (lo hi b : Z) : bool := (lo <=? b) && (b <=? hi).
Definition is_ascii_uppercase (b : Z) : bool := in_range 65 90 b.
Definition is_ascii_lowercase (b : Z) : bool := in_range 97 122 b.
Definition is_ascii_digit (b : Z) : bool := in_range 48 57 b.
Definition is_ascii_alphabetic (b : Z) : bool := is_ascii_uppercase b || is_ascii_lowercase b.
Definition is_ascii_alphanumeric (b : Z) : bool := is_ascii_alphabetic b || is_ascii_digit b.
Definition is_ascii_hexdigit (b : Z) : bool :=
  is_ascii_digit b || in_range 65 70 b || in_range 97 102 b.
Definition is_ascii (l : bytes) : bool := forallb (fun b => b <=? 127) l.

(** ** UTF-8

    [utf8_chars] is [str::from_utf8] followed by [str::chars]: the scalar
    values of a well-formed sequence, nothing for an ill-formed one (no
    surrogates, no overlong forms, at most U+10FFFF). *)

Definition cont (b : Z) : bool := in_range 0x80 0xbf b.

Fixpoint utf8_chars (l : bytes) : option (list Z) :=
  match l with
  | [] => Some []
  | a :: l1 =>
    if in_range 0 0x7f a then cons a <$> utf8_chars l1
    else match l1 with
    | [] => None
    | b :: l2 =>
      if in_range 0xc2 0xdf a then
        if cont b then cons ((a - 0xc0) * 64 + (b - 0x80)) <$> utf8_chars l2 else None
      else match l2 with
      | [] => None
      | c :: l3 =>
        if (a =? 0xe0) && in_range 0xa0 0xbf b
           || in_range 0xe1 0xec a && cont b
           || (a =? 0xed) && in_range 0x80 0x9f b
           || in_range 0xee 0xef a && cont b then
          if cont c then
            cons ((a - 0xe0) * 4096 + (b - 0x80) * 64 + (c - 0x80)) <$> utf8_chars l3
          else None
        else match l3 with
        | [] => None
        | d :: l4 =>
          if (a =? 0xf0) && in_range 0x90 0xbf b
             || in_range 0xf1 0xf3 a && cont b
             || (a =? 0xf4) && in_range 0x80 0x8f b then
            if cont c && cont d then
              cons ((a - 0xf0) * 262144 + (b - 0x80) * 4096 + (c - 0x80) * 64 + (d - 0x80))
                <$> utf8_chars l4
            else None
          else None
        end
      end
    end
  end.

Definition is_utf8 (l : bytes) : bool :=
  match utf8_chars l with Some _ => true | None => false end.

Lemma utf8_chars_ascii l :
  is_bytes l -> is_ascii l = true -> utf8_chars l = Some l.
Proof.
  induction l as [|b l IH]; cbn; intros Hl Ha; [done|].
  apply Forall_cons in Hl as [Hb Hl]. bool_to_prop.
  rewrite IH by done. unfold in_range.
  rewrite (proj2 (Z.leb_le 0 b)) by ulia. rewrite (proj2 (Z.leb_le b 127)) by ulia. done.
Qed.

Example utf8_euro : utf8_chars [0xe2; 0x82; 0xac] = Some [0x20ac].
Proof. reflexivity. Qed.
Example utf8_surrogate : is_utf8 [0xed; 0xa0; 0x80] = false.
Proof. reflexivity. Qed.

(** Every byte string of length [n * k] is a sequence of [k] n-byte words. *)
Definition words_bytes (n : nat) (vs : list Z) : bytes := concat (map (to_le_bytes n) vs).

Lemma words_exist n k l :
  is_bytes l -> length l = (n * k)%nat ->
  exists vs, length vs = k /\ Forall (fun v => 0 <= v < 256 ^ Z.of_nat n) vs /\
             l = words_bytes n vs.
Proof.
  revert l. induction k as [|k IH]; intros l Hl Hlen.
  - exists []. rewrite Nat.mul_0_r in Hlen. by apply nil_length_inv in Hlen as ->.
  - destruct (split_at l (Z.of_nat n)) as (x & y & -> & Hx); [lia|].
    apply is_bytes_app in Hl as [Hbx Hby]. rewrite length_app in Hlen.
    destruct (IH y Hby) as (vs & <- & Hvs & ->); [lia|].
    apply Nat2Z.inj in Hx. pose proof (from_le_bytes_bound x Hbx). rewrite Hx in *.
    exists (from_le_bytes x :: vs). split; [done|]. split; [by constructor|].
    unfold words_bytes. cbn [map concat]. f_equal.
    rewrite <- (to_from_le x) at 1 by done. by rewrite Hx.
Qed.

Lemma length_words_bytes n vs : length (words_bytes n vs) = (n * length vs)%nat.
Proof.
  unfold words_bytes. induction vs as [|v vs IH]; cbn [map concat length]; [lia|].
  rewrite length_app, length_to_le_bytes, IH. lia.
Qed.

(** A decidable property of all bytes holds when it holds of each of them. *)
Lemma forall_u8 (P : Z -> bool) :
  forallb P (map Z.of_nat (List.seq 0 256)) = true -> forall b, is_u8 b -> P b = true.
Proof.
  rewrite forallb_forall. intros H b Hb. apply H, in_map_iff. exists (Z.to_nat b).
  split; [ulia|]. apply in_seq. ulia.
Qed.

(** A byte is its seven payload bits and its continuation bit. *)
Lemma byte_payload b : is_u8 b -> Z.land b 0x7f = b mod 128.
Proof. intros. change 0x7f with (Z.ones 7). by rewrite Z.land_ones. Qed.

Lemma byte_continues b : is_u8 b -> (Z.land b 0x80 =? 0) = (b <? 128).
Proof.
  intros Hb. apply Bool.eqb_prop. revert b Hb.
  apply (forall_u8 (fun b => Bool.eqb (Z.land b 0x80 =? 0) (b <? 128))). vm_compute. reflexivity.
Qed.
