(* ===== verification/Order.v ===== *)
(** * Total orders, sorting by a key, and deduplication

    Rust's [Ord]: the order of a type is a three-way comparison.  Sorting a
    table by a key that distinguishes its entries has one possible result, so
    [sort_unstable_by] is modelled by a merge sort: [sort_by_perm] is why the
    published tables do not depend on the order of insertion. *)

From S2P Require Import Prelude Bytes.

Class Ord (A : Type) := {
  cmp : A -> A -> comparison;
  cmp_eq x y : cmp x y = Eq <-> x = y;
  cmp_antisym x y : cmp y x = CompOpp (cmp x y);
  cmp_lt_trans x y z : cmp x y = Lt -> cmp y z = Lt -> cmp x z = Lt
}.

Definition ord_le `{Ord A} (x y : A) : Prop := cmp x y <> Gt.
Definition ord_lt `{Ord A} (x y : A) : Prop := cmp x y = Lt.

Section OrdLaws.
Context `{Ord A}.
Implicit Types x y z : A.

Lemma cmp_refl x : cmp x x = Eq.
Proof. by apply cmp_eq. Qed.

#[export] Instance ord_eq_dec : EqDecision A.
Proof.
  intros x y. destruct (cmp x y) eqn:E; [left; by apply cmp_eq|right..];
    intros ->; by rewrite cmp_refl in E.
Defined.

#[export] Instance ord_le_dec : RelDecision (ord_le (A:=A)).
Proof. intros x y. unfold ord_le. destruct (cmp x y); [left|left|right]; naive_solver. Defined.

Lemma ord_le_lt x y : ord_le x y <-> ord_lt x y \/ x = y.
Proof. unfold ord_le, ord_lt. rewrite <- cmp_eq. destruct (cmp x y); naive_solver. Qed.

#[export] Instance ord_lt_trans : Transitive (ord_lt (A:=A)).
Proof. intros x y z. apply cmp_lt_trans. Qed.

#[export] Instance ord_lt_irrefl : Irreflexive (ord_lt (A:=A)).
Proof. intros x. unfold complement, ord_lt. by rewrite cmp_refl. Qed.

#[export] Instance ord_le_trans : Transitive (ord_le (A:=A)).
Proof.
  intros x y z [Hxy| ->]%ord_le_lt [Hyz| ->]%ord_le_lt; apply ord_le_lt; auto.
  left. by transitivity y.
Qed.

#[export] Instance ord_le_total : Total (ord_le (A:=A)).
Proof. intros x y. unfold ord_le. rewrite (cmp_antisym x y). destruct (cmp x y); auto. Qed.

#[export] Instance ord_le_antisymm : AntiSymm eq (ord_le (A:=A)).
Proof.
  intros x y Hxy Hyx. apply cmp_eq. unfold ord_le in *. rewrite (cmp_antisym x y) in Hyx.
  by destruct (cmp x y).
Qed.

End OrdLaws.

#[export] Program Instance Z_ord : Ord Z := {| cmp := Z.compare |}.
Next Obligation. intros. apply Z.compare_eq_iff. Qed.
Next Obligation. intros. apply Z.compare_antisym. Qed.
Next Obligation. intros x y z. rewrite !Z.compare_lt_iff. lia. Qed.

#[export] Program Instance bytes_ord : Ord bytes := {| cmp := bytes_compare |}.
Next Obligation. apply bytes_compare_eq. Qed.
Next Obligation. apply bytes_compare_antisym. Qed.
Next Obligation. apply bytes_compare_lt_trans. Qed.

(** Tuples compare their first components first. *)
Definition pair_compare `{Ord A, Ord B} (x y : A * B) : comparison :=
  match cmp x.1 y.1 with Eq => cmp x.2 y.2 | c => c end.

#[export] Program Instance pair_ord `{Ord A, Ord B} : Ord (A * B) := {| cmp := pair_compare |}.
Next Obligation.
  intros A HA B HB [a b] [c d]. unfold pair_compare. cbn. split.
  - destruct (cmp a c) eqn:E; [|done..]. apply cmp_eq in E as ->. by intros ->%cmp_eq.
  - intros [= -> ->]. by rewrite !cmp_refl.
Qed.
Next Obligation.
  intros A HA B HB [a b] [c d]. unfold pair_compare. cbn. rewrite (cmp_antisym a c).
  destruct (cmp a c); cbn; [apply cmp_antisym|done..].
Qed.
Next Obligation.
  intros A HA B HB [a b] [c d] [e f]. unfold pair_compare. cbn.
  destruct (cmp a c) eqn:E, (cmp c e) eqn:F; try done; intros E' F'.
  - apply cmp_eq in E as ->, F as ->. rewrite cmp_refl. by eapply cmp_lt_trans.
  - apply cmp_eq in E as ->. by rewrite F.
  - apply cmp_eq in F as ->. by rewrite E.
  - by rewrite (cmp_lt_trans _ _ _ E F).
Qed.

(** ** Sorting by a key *)

Section SortBy.
Context {D : Type} `{Ord A} (key : D -> A).

Definition key_le (x y : D) : Prop := ord_le (key x) (key y).

#[export] Instance key_le_dec : RelDecision key_le.
Proof. intros x y. unfold key_le. apply _. Defined.

#[local] Instance key_le_trans : Transitive key_le.
Proof. intros x y z. unfold key_le. apply ord_le_trans. Qed.

#[local] Instance key_le_total : Total key_le.
Proof. intros x y. apply ord_le_total. Qed.

(** [items.sort_unstable_by_key(key)] *)
Definition sort_by (items : list D) : list D := merge_sort key_le items.

Lemma sort_by_perm items : sort_by items ≡ₚ items.
Proof. apply merge_sort_Permutation. Qed.

Lemma length_sort_by items : length (sort_by items) = length items.
Proof. by rewrite sort_by_perm. Qed.

Lemma In_sort_by items x : In x (sort_by items) <-> In x items.
Proof. by rewrite <- !list_elem_of_In, sort_by_perm. Qed.

Lemma sort_by_sorted items : StronglySorted ord_le (map key (sort_by items)).
Proof.
  assert (StronglySorted key_le (sort_by items)) as Hs.
  { unfold sort_by. apply Sorted_StronglySorted; [apply _|]. apply Sorted_merge_sort, key_le_total. }
  induction Hs as [|x l Hl IH Hx]; cbn; constructor; [done|]. by apply Forall_map.
Qed.

Lemma strictly_sorted items :
  StronglySorted key_le items -> NoDup (map key items) -> StronglySorted ord_lt (map key items).
Proof.
  induction 1 as [|x items Hs IH Hx]; cbn; intros Hn; [constructor|].
  apply NoDup_cons in Hn as [Hnx Hn]. constructor; [by apply IH|].
  apply Forall_map. rewrite List.Forall_forall in *. intros y Hy. cbn.
  destruct (proj1 (ord_le_lt _ _) (Hx y Hy)) as [Hlt|E]; [done|].
  destruct Hnx. rewrite E. by apply list_elem_of_In, in_map.
Qed.

(** Sorting entries with distinct keys puts their keys in strictly ascending order. *)
Lemma sort_by_ascending items :
  NoDup (map key items) -> StronglySorted ord_lt (map key (sort_by items)).
Proof.
  intros Hn. apply strictly_sorted.
  - unfold sort_by. apply Sorted_StronglySorted; [apply _|]. apply Sorted_merge_sort, key_le_total.
  - unfold sort_by. by rewrite merge_sort_Permutation.
Qed.

End SortBy.

(** Tables in strictly ascending order of a key are determined by their entries. *)
Lemma keyed_ascending_unique `{Ord A} {D} (key : D -> A) (x y : list D) :
  StronglySorted ord_lt (map key x) -> StronglySorted ord_lt (map key y) ->
  (forall a, In a x <-> In a y) -> x = y.
Proof.
  revert y. induction x as [|a x IH]; intros [|b y] Hx Hy E.
  - done.
  - destruct (E b) as [_ []]. by left.
  - destruct (E a) as [[] _]. by left.
  - apply StronglySorted_inv in Hx as [Hx Hax], Hy as [Hy Hby]. rewrite List.Forall_forall in Hax, Hby.
    assert (forall c, In c x -> ord_lt (key a) (key c)) as Hax' by (intros c Hc; by apply Hax, in_map).
    assert (forall c, In c y -> ord_lt (key b) (key c)) as Hby' by (intros c Hc; by apply Hby, in_map).
    assert (a = b) as ->.
    { destruct (proj1 (E a) (or_introl eq_refl)) as [|Ha]; [done|].
      destruct (proj2 (E b) (or_introl eq_refl)) as [|Hb]; [done|].
      destruct (ord_lt_irrefl (key a)). transitivity (key b); [by apply Hax'|by apply Hby']. }
    f_equal. apply IH; [done..|]. intros c. split; intros Hc.
    + destruct (proj1 (E c) (or_intror Hc)) as [<-|]; [|done]. by apply Hax', ord_lt_irrefl in Hc.
    + destruct (proj2 (E c) (or_intror Hc)) as [<-|]; [|done]. by apply Hby', ord_lt_irrefl in Hc.
Qed.

Lemma ascending_unique `{Ord A} (x y : list A) :
  StronglySorted ord_lt x -> StronglySorted ord_lt y -> (forall a, In a x <-> In a y) -> x = y.
Proof. rewrite <- (map_id x), <- (map_id y) at 1. apply (keyed_ascending_unique (fun a => a)). Qed.

Lemma ascending_at `{Ord A} (l : list A) i j a b :
  StronglySorted ord_lt l -> get_at l i = Some a -> get_at l j = Some b -> ord_lt a b <-> i < j.
Proof.
  intros Hs [Hi Ha]%get_at_Some [Hj Hb]%get_at_Some.
  assert (forall (m n : nat) x y, (m < n)%nat -> l !! m = Some x -> l !! n = Some y -> ord_lt x y) as Hlt.
  { clear -Hs. induction Hs as [|z l Hs IH Hz]; [done|]. intros [|m] [|n] x y Hmn Hx Hy; try lia.
    - injection Hx as <-. rewrite Forall_lookup in Hz. by apply (Hz n).
    - apply (IH m n); [lia|done..]. }
  split.
  - intros Hab. destruct (Z.lt_trichotomy i j) as [|[->|Hji]]; [done| |].
    + rewrite Ha in Hb. injection Hb as ->. by apply ord_lt_irrefl in Hab.
    + destruct (ord_lt_irrefl a). transitivity b; [done|]. apply (Hlt (Z.to_nat j) (Z.to_nat i)); [lia|done..].
  - intros Hij. apply (Hlt (Z.to_nat i) (Z.to_nat j)); [lia|done..].
Qed.

Lemma ascending_NoDup `{Ord A} (x : list A) : StronglySorted ord_lt x -> NoDup x.
Proof.
  induction 1 as [|a x _ IH Ha]; constructor; [|done]. rewrite List.Forall_forall in Ha.
  intros Hin%list_elem_of_In%Ha. by apply ord_lt_irrefl in Hin.
Qed.

(** Sorting an ascending list changes nothing. *)
Lemma sort_by_id `{Ord A} (x : list A) : StronglySorted ord_lt x -> sort_by (fun a => a) x = x.
Proof.
  intros Hx. apply ascending_unique; [|done|intros a; apply In_sort_by].
  rewrite <- (map_id (sort_by _ x)). apply (sort_by_ascending (fun a => a)). rewrite map_id. by apply ascending_NoDup.
Qed.

(** ** [Vec::dedup] *)

Section Dedup.
Context `{EqDecision A}.

Fixpoint vec_dedup_from (kept : A) (items : list A) : list A :=
  match items with
  | [] => []
  | x :: items => if decide (x = kept) then vec_dedup_from kept items else x :: vec_dedup_from x items
  end.
Definition vec_dedup (items : list A) : list A :=
  match items with [] => [] | x :: items => x :: vec_dedup_from x items end.

End Dedup.

Lemma vec_dedup_from_spec `{Ord A} {D} `{EqDecision D} (key : D -> A) kept items :
  (forall x y, In x (kept :: items) -> In y (kept :: items) -> key x = key y -> x = y) ->
  StronglySorted ord_le (map key (kept :: items)) ->
  StronglySorted ord_lt (map key (kept :: vec_dedup_from kept items)) /\
  forall x, In x (kept :: vec_dedup_from kept items) <-> In x (kept :: items).
Proof.
  revert kept. induction items as [|a items IH]; intros kept Hinj Hs; cbn [vec_dedup_from].
  - split; [by repeat constructor|done].
  - pose proof Hs as [Hs' Hk]%StronglySorted_inv. case_decide as E.
    + subst a. destruct (IH kept) as [IH1 IH2]; [|done|].
      { intros x y Hx Hy. apply Hinj; by right. }
      split; [done|]. intros x. rewrite IH2. cbn. naive_solver.
    + destruct (IH a) as [IH1 IH2]; [|done|].
      { intros x y Hx Hy. apply Hinj; by right. }
      assert (ord_lt (key kept) (key a)) as Hlt.
      { cbn in Hk. apply Forall_inv in Hk. apply ord_le_lt in Hk as [|Hk]; [done|].
        destruct E. symmetry. apply Hinj; [by left|by right; left|done]. }
      split.
      * cbn [map] in *. constructor; [done|]. constructor; [done|].
        apply StronglySorted_inv in IH1 as [_ Ha]. eapply List.Forall_impl; [|exact Ha].
        intros y. by transitivity (key a).
      * intros x. specialize (IH2 x). cbn in IH2 |- *. naive_solver.
Qed.

(** Removing adjacent duplicates of a sorted list leaves each member once. *)
Lemma vec_dedup_spec `{Ord A} {D} `{EqDecision D} (key : D -> A) items :
  (forall x y, In x items -> In y items -> key x = key y -> x = y) ->
  StronglySorted ord_le (map key items) ->
  StronglySorted ord_lt (map key (vec_dedup items)) /\ forall x, In x (vec_dedup items) <-> In x items.
Proof. destruct items as [|a items]; [by repeat constructor|]. apply vec_dedup_from_spec. Qed.

Lemma vec_dedup_strict `{EqDecision A} (items : list A) : NoDup items -> vec_dedup items = items.
Proof.
  destruct items as [|a items]; [done|]. cbn. intros Hn. f_equal.
  revert a Hn. induction items as [|b items IH]; intros a Hn; [done|]. cbn.
  apply NoDup_cons in Hn as [Ha Hn]. case_decide as E.
  - subst. destruct Ha. by left.
  - f_equal. by apply IH.
Qed.

(** ** Sorting commutes with mapping *)

Section SortMap.
Context {A B Q : Type} `{Ord Q} (key : B -> Q) (f : A -> B).
Notation le := (key_le key).
Notation le' := (key_le (fun a => key (f a))).

Lemma list_merge_map x y : list_merge le (map f x) (map f y) = map f (list_merge le' x y).
Proof.
  revert y. induction x as [|a x IH]; [by intros []|]. induction y as [|b y IHy]; [done|]. cbn.
  change (decide (le (f a) (f b))) with (decide (le' a b)).
  destruct (decide (le' a b)); cbn; f_equal; [apply (IH (b :: y))|apply IHy].
Qed.

Lemma merge_list_to_stack_map st x :
  merge_list_to_stack le (map (option_map (map f)) st) (map f x) =
  map (option_map (map f)) (merge_list_to_stack le' st x).
Proof.
  revert x. induction st as [|[y|] st IH]; intros x; cbn; [done| |done]. f_equal. rewrite list_merge_map. apply IH.
Qed.

Lemma merge_stack_map st : merge_stack le (map (option_map (map f)) st) = map f (merge_stack le' st).
Proof.
  induction st as [|[y|] st IH]; cbn; [done| |done]. by rewrite IH, list_merge_map.
Qed.

Lemma sort_by_map_key l : sort_by key (map f l) = map f (sort_by (fun a => key (f a)) l).
Proof.
  unfold sort_by, merge_sort. change (@nil (option (list B))) with (map (option_map (map f)) (@nil (option (list A)))).
  generalize (@nil (option (list A))). induction l as [|a l IH]; intros st; cbn; [apply merge_stack_map|].
  change [f a] with (map f [a]). by rewrite merge_list_to_stack_map, IH.
Qed.
End SortMap.
