(* ===== verification/Hash.v ===== *)
(** * Streaming SHA-256 and CRC32C ([native/src/hash.rs])

    The hasher with its block buffer and the checksum, as the code has them;
    SHA-256 as FIPS 180-4 defines it, stated on its own; and the theorems that
    the one computes the other and that the checksum detects bursts. *)

From S2P Require Import Prelude Bytes.

(** ** u32 arithmetic *)

Definition wrapping_add32 (a b : Z) : Z := Z.land (a + b) U32_MAX.
Definition rotate_right32 (x n : Z) : Z :=
  Z.lor (Z.shiftr x n) (Z.land (Z.shiftl x (32 - n)) U32_MAX).
Definition not32 (x : Z) : Z := Z.lxor x U32_MAX.

(** ** The hasher *)

Record Sha256 := mkSha256 {
  state : list Z;        (* [u32; 8] *)
  block : bytes;         (* [u8; 64] *)
  block_len : nat;
  hashed_bytes : Z       (* u64 *)
}.

Definition INITIAL_STATE : list Z :=
  [ 0x6a09e667; 0xbb67ae85; 0x3c6ef372; 0xa54ff53a;
    0x510e527f; 0x9b05688c; 0x1f83d9ab; 0x5be0cd19 ].

(** [Sha256::new] *)
Definition Sha256_new : Sha256 :=
  {| state := INITIAL_STATE; block := replicate 64 0; block_len := 0; hashed_bytes := 0 |}.

Definition K : list Z :=
  [
    0x428a_2f98; 0x7137_4491; 0xb5c0_fbcf; 0xe9b5_dba5; 0x3956_c25b; 0x59f1_11f1; 0x923f_82a4; 0xab1c_5ed5;
    0xd807_aa98; 0x1283_5b01; 0x2431_85be; 0x550c_7dc3; 0x72be_5d74; 0x80de_b1fe; 0x9bdc_06a7; 0xc19b_f174;
    0xe49b_69c1; 0xefbe_4786; 0x0fc1_9dc6; 0x240c_a1cc; 0x2de9_2c6f; 0x4a74_84aa; 0x5cb0_a9dc; 0x76f9_88da;
    0x983e_5152; 0xa831_c66d; 0xb003_27c8; 0xbf59_7fc7; 0xc6e0_0bf3; 0xd5a7_9147; 0x06ca_6351; 0x1429_2967;
    0x27b7_0a85; 0x2e1b_2138; 0x4d2c_6dfc; 0x5338_0d13; 0x650a_7354; 0x766a_0abb; 0x81c2_c92e; 0x9272_2c85;
    0xa2bf_e8a1; 0xa81a_664b; 0xc24b_8b70; 0xc76c_51a3; 0xd192_e819; 0xd699_0624; 0xf40e_3585; 0x106a_a070;
    0x19a4_c116; 0x1e37_6c08; 0x2748_774c; 0x34b0_bcb5; 0x391c_0cb3; 0x4ed8_aa4a; 0x5b9c_ca4f; 0x682e_6ff3;
    0x748f_82ee; 0x78a5_636f; 0x84c8_7814; 0x8cc7_0208; 0x90be_fffa; 0xa450_6ceb; 0xbef9_a3f7; 0xc671_78f2 ].

(** [block.chunks_exact(4)] as big-endian words. *)
Fixpoint block_words (n : nat) (block : bytes) : list Z :=
  match n with
  | O => []
  | S n => from_be_bytes (take 4 block) :: block_words n (drop 4 block)
  end.

(** One step of the schedule loop: [words[index]] from the words before it. *)
Definition schedule_word (words : list Z) (index : nat) : Z :=
  let w (i : nat) := words !!! i in
  let s0 := Z.lxor (Z.lxor (rotate_right32 (w (index - 15)%nat) 7)
                           (rotate_right32 (w (index - 15)%nat) 18))
                   (Z.shiftr (w (index - 15)%nat) 3) in
  let s1 := Z.lxor (Z.lxor (rotate_right32 (w (index - 2)%nat) 17)
                           (rotate_right32 (w (index - 2)%nat) 19))
                   (Z.shiftr (w (index - 2)%nat) 10) in
  wrapping_add32 (wrapping_add32 (wrapping_add32 (w (index - 16)%nat) s0)
                                 (w (index - 7)%nat)) s1.

Fixpoint schedule (n : nat) (index : nat) (words : list Z) : list Z :=
  match n with
  | O => words
  | S n => schedule n (S index) (words ++ [schedule_word words index])
  end.

(** One round on the working variables [a..h]. *)
Definition round (v : Z * Z * Z * Z * Z * Z * Z * Z) (kw : Z * Z)
    : Z * Z * Z * Z * Z * Z * Z * Z :=
  let '(a, b, c, d, e, f, g, h) := v in
  let '(k, w) := kw in
  let choice := Z.lxor (Z.land e f) (Z.land (not32 e) g) in
  let majority := Z.lxor (Z.lxor (Z.land a b) (Z.land a c)) (Z.land b c) in
  let upper_a := Z.lxor (Z.lxor (rotate_right32 a 2) (rotate_right32 a 13)) (rotate_right32 a 22) in
  let upper_e := Z.lxor (Z.lxor (rotate_right32 e 6) (rotate_right32 e 11)) (rotate_right32 e 25) in
  let first := wrapping_add32 (wrapping_add32 (wrapping_add32 (wrapping_add32 h upper_e) choice) k) w in
  let second := wrapping_add32 upper_a majority in
  (wrapping_add32 first second, a, b, c, wrapping_add32 d first, e, f, g).

(** [Sha256::compress], on the chaining state. *)
Definition compress (state : list Z) (block : bytes) : list Z :=
  let words := schedule 48 16 (block_words 16 block) in
  match state with
  | [a; b; c; d; e; f; g; h] =>
      let '(a', b', c', d', e', f', g', h') :=
        foldl round (a, b, c, d, e, f, g, h) (zip K words) in
      zip_with wrapping_add32 state [a'; b'; c'; d'; e'; f'; g'; h']
  | _ => state
  end.

(** [target[at..at + source.len()].copy_from_slice(source)] *)
Definition copy_into (target : bytes) (at_ : nat) (source : bytes) : bytes :=
  take at_ target ++ source ++ drop (at_ + length source) target.

(** [data.chunks_exact(64)] and its [remainder()]. *)
Fixpoint chunks_exact64 (fuel : nat) (data : bytes) : list bytes :=
  match fuel with
  | O => []
  | S fuel =>
      if (64 <=? length data)%nat then take 64 data :: chunks_exact64 fuel (drop 64 data) else []
  end.
Definition chunks64 (data : bytes) : list bytes := chunks_exact64 (length data) data.
Definition remainder64 (data : bytes) : bytes := drop (64 * (length data / 64)) data.

(** The tail of [Sha256::update]: whole chunks, then the remainder. *)
Definition absorb (h : Sha256) (data : bytes) : Sha256 :=
  {| state := foldl compress (state h) (chunks64 data);
     block := copy_into (block h) 0 (remainder64 data);
     block_len := length (remainder64 data);
     hashed_bytes := hashed_bytes h |}.

(** [Sha256::update] *)
Definition update (h : Sha256) (data : bytes) : Sha256 :=
  let h := {| state := state h; block := block h; block_len := block_len h;
              hashed_bytes := wrapping_add64 (hashed_bytes h) (len data) |} in
  if (block_len h =? 0)%nat then absorb h data else
  let take_ := Nat.min (64 - block_len h) (length data) in
  let block' := copy_into (block h) (block_len h) (take take_ data) in
  let block_len' := (block_len h + take_)%nat in
  if (block_len' =? 64)%nat then
    absorb {| state := compress (state h) block'; block := block'; block_len := 0;
              hashed_bytes := hashed_bytes h |} (drop take_ data)
  else {| state := state h; block := block'; block_len := block_len';
          hashed_bytes := hashed_bytes h |}.

(** [Sha256::finish] *)
Definition finish (h : Sha256) : bytes :=
  let bit_length := wrapping_mul64 (hashed_bytes h) 8 in
  let block1 := copy_into (block h) (block_len h) [0x80] in
  let block_len1 := S (block_len h) in
  let '(state1, block2) :=
    if (56 <? block_len1)%nat then
      (compress (state h) (copy_into block1 block_len1 (replicate (64 - block_len1) 0)),
       replicate 64 0)
    else (state h, copy_into block1 block_len1 (replicate (56 - block_len1) 0)) in
  let block3 := copy_into block2 56 (to_be_bytes 8 bit_length) in
  concat (map (to_be_bytes 4) (compress state1 block3)).

(** [sha256] *)
Definition sha256 (data : bytes) : bytes := finish (update Sha256_new data).

(** ** CRC32C *)

Definition CRC32C_POLYNOMIAL : Z := 0x82f63b78.

Definition crc_bit (crc : Z) : Z :=
  Z.lxor (Z.shiftr crc 1) (if Z.odd crc then CRC32C_POLYNOMIAL else 0).
(** [for _ in 0..8] *)
Definition crc_shift (crc : Z) : Z := Nat.iter 8 crc_bit crc.
Definition crc_byte (crc byte : Z) : Z := crc_shift (Z.lxor crc byte).

(** [crc32c] *)
Definition crc32c (data : bytes) : Z := Z.lxor (foldl crc_byte U32_MAX data) U32_MAX.

Example sha256_empty :
  sha256 [] =
  [0xe3; 0xb0; 0xc4; 0x42; 0x98; 0xfc; 0x1c; 0x14; 0x9a; 0xfb; 0xf4; 0xc8; 0x99; 0x6f; 0xb9; 0x24;
   0x27; 0xae; 0x41; 0xe4; 0x64; 0x9b; 0x93; 0x4c; 0xa4; 0x95; 0x99; 0x1b; 0x78; 0x52; 0xb8; 0x55].
Proof. vm_compute. reflexivity. Qed.

Example sha256_abc :
  sha256 (str "abc") =
  [0xba; 0x78; 0x16; 0xbf; 0x8f; 0x01; 0xcf; 0xea; 0x41; 0x41; 0x40; 0xde; 0x5d; 0xae; 0x22; 0x23;
   0xb0; 0x03; 0x61; 0xa3; 0x96; 0x17; 0x7a; 0x9c; 0xb4; 0x10; 0xff; 0x61; 0xf2; 0x00; 0x15; 0xad].
Proof. vm_compute. reflexivity. Qed.

Example crc32c_check : crc32c (str "123456789") = 0xe3069283.
Proof. vm_compute. reflexivity. Qed.

(** ** SHA-256 as FIPS 180-4 defines it

    The standard's functions, constants, padding and computation, written from
    the standard alone: nothing below refers to the code.  Words are integers
    below [2 ^ 32]; messages are of whole bytes. *)

(** A 32-bit word. *)
Definition is_word32 (x : Z) : Prop := 0 <= x < 2 ^ 32.

Module Fips180.

(** *** Functions on 32-bit words (sections 3.2 and 4.1.2) *)

Definition SHR (n x : Z) : Z := x / 2 ^ n.
Definition ROTR (n x : Z) : Z := x / 2 ^ n + x mod 2 ^ n * 2 ^ (32 - n).
Definition complement (x : Z) : Z := 2 ^ 32 - 1 - x.

Definition Ch (x y z : Z) : Z := Z.lxor (Z.land x y) (Z.land (complement x) z).
Definition Maj (x y z : Z) : Z := Z.lxor (Z.lxor (Z.land x y) (Z.land x z)) (Z.land y z).
Definition Sigma0 (x : Z) : Z := Z.lxor (Z.lxor (ROTR 2 x) (ROTR 13 x)) (ROTR 22 x).
Definition Sigma1 (x : Z) : Z := Z.lxor (Z.lxor (ROTR 6 x) (ROTR 11 x)) (ROTR 25 x).
Definition sigma0 (x : Z) : Z := Z.lxor (Z.lxor (ROTR 7 x) (ROTR 18 x)) (SHR 3 x).
Definition sigma1 (x : Z) : Z := Z.lxor (Z.lxor (ROTR 17 x) (ROTR 19 x)) (SHR 10 x).

(** *** Constants (sections 4.2.2 and 5.3.3)

    The first 32 bits of the fractional part of [sqrt p] are the last 32 bits
    of the integer part of [sqrt p * 2 ^ 32 = sqrt (p * 2 ^ 64)], and likewise
    for cube roots. *)

Definition is_prime (n : Z) : bool := forallb (fun d => negb (n mod d =? 0)) (seqZ 2 (n - 2)).
(** The first [k] primes, for [k] up to 64. *)
Definition first_primes (k : nat) : list Z := take k (List.filter is_prime (seqZ 2 310)).

(** The integer cube root, bit by bit from the [k]-th on. *)
Fixpoint cube_root_from (k : nat) (n r : Z) : Z :=
  match k with
  | O => r
  | S k => cube_root_from k n (if (r + 2 ^ Z.of_nat k) ^ 3 <=? n then r + 2 ^ Z.of_nat k else r)
  end.
Definition cube_root (n : Z) : Z := cube_root_from 40 n 0.

Definition initial_hash : list Z := map (fun p => Z.sqrt (p * 2 ^ 64) mod 2 ^ 32) (first_primes 8).
Definition constants : list Z := map (fun p => cube_root (p * 2 ^ 96) mod 2 ^ 32) (first_primes 64).

(** *** Padding and parsing (sections 5.1.1 and 5.2.1)

    For a message of whole bytes: a one bit, the least number of zero bits
    that leaves 64 bits of the last block, and the length in bits. *)

Definition zeros (n : nat) : nat := Z.to_nat ((56 - (Z.of_nat n + 1)) mod 64).
Definition pad (message : bytes) : bytes :=
  message ++ [0x80] ++ replicate (zeros (length message)) 0 ++ to_be_bytes 8 (8 * len message).

(** The [i]-th piece of [n] bytes. *)
Definition piece (n : nat) (data : bytes) (i : nat) : bytes := take n (drop (n * i) data).
Definition blocks (data : bytes) : list bytes := map (piece 64 data) (seq 0 (length data / 64)).

(** *** The computation of the digest (section 6.2.2) *)

Definition next_word (W : list Z) (t : nat) : Z :=
  (sigma1 (W !!! (t - 2)%nat) + W !!! (t - 7)%nat + sigma0 (W !!! (t - 15)%nat) + W !!! (t - 16)%nat)
    mod 2 ^ 32.
Definition message_schedule (block : bytes) : list Z :=
  foldl (fun W t => W ++ [next_word W t])
    (map (fun t => from_be_bytes (piece 4 block t)) (seq 0 16)) (seq 16 48).

Definition step (v : list Z) (kw : Z * Z) : list Z :=
  match v with
  | [a; b; c; d; e; f; g; h] =>
      let T1 := (h + Sigma1 e + Ch e f g + kw.1 + kw.2) mod 2 ^ 32 in
      let T2 := (Sigma0 a + Maj a b c) mod 2 ^ 32 in
      [(T1 + T2) mod 2 ^ 32; a; b; c; (d + T1) mod 2 ^ 32; e; f; g]
  | _ => v
  end.
Definition hash_block (H : list Z) (block : bytes) : list Z :=
  zip_with (fun x y => (x + y) mod 2 ^ 32) (foldl step H (zip constants (message_schedule block))) H.

Definition digest (message : bytes) : bytes :=
  concat (map (to_be_bytes 4) (foldl hash_block initial_hash (blocks (pad message)))).

(** The constants really are the roots' bits. *)
Lemma cube_root_from_spec k n r :
  0 <= r -> r ^ 3 <= n -> n < (r + 2 ^ Z.of_nat k) ^ 3 ->
  (cube_root_from k n r) ^ 3 <= n < (cube_root_from k n r + 1) ^ 3.
Proof.
  revert r. induction k as [|k IH]; intros r Hr Hlo Hhi; cbn [cube_root_from]; [done|].
  assert (2 ^ Z.of_nat (S k) = 2 ^ Z.of_nat k + 2 ^ Z.of_nat k) as Hpow
    by (rewrite Nat2Z.inj_succ, Z.pow_succ_r by lia; lia).
  pose proof (Z.pow_pos_nonneg 2 (Z.of_nat k)) as Hpos. rewrite Hpow, Z.add_assoc in Hhi.
  destruct (Z.leb_spec ((r + 2 ^ Z.of_nat k) ^ 3) n); apply IH; lia.
Qed.

(** [cube_root] is the integer cube root. *)
Lemma cube_root_spec n : 0 <= n < 2 ^ 120 -> cube_root n ^ 3 <= n < (cube_root n + 1) ^ 3.
Proof. intros [Hlo Hhi]. by apply (cube_root_from_spec 40 n 0). Qed.

Lemma first_primes_complete : length (first_primes 64) = 64%nat.
Proof. reflexivity. Qed.
End Fips180.

(** ** The one-shot form of the digest

    What [finish] computes when the whole message is at hand: the padded
    message cut into blocks, chained with the code's own compression.  The
    theorem below shows that this is the digest of the standard. *)

Definition sha256_padding (n : nat) : bytes :=
  0x80 :: replicate (Z.to_nat ((55 - Z.of_nat n) mod 64)) 0 ++
  to_be_bytes 8 (wrapping_mul64 (Z.of_nat n mod 2 ^ 64) 8).

Definition sha256_spec (message : bytes) : bytes :=
  concat (map (to_be_bytes 4)
    (foldl compress INITIAL_STATE (chunks64 (message ++ sha256_padding (length message))))).

Lemma chunks_exact64_fuel f g data :
  (length data <= f)%nat -> (length data <= g)%nat ->
  chunks_exact64 f data = chunks_exact64 g data.
Proof.
  revert g data. induction f as [|f IH]; intros [|g] data Hf Hg; cbn [chunks_exact64]; try done.
  - destruct (Nat.leb_spec 64 (length data)); [lia|done].
  - destruct (Nat.leb_spec 64 (length data)); [lia|done].
  - destruct (Nat.leb_spec 64 (length data)); [|done].
    f_equal. apply IH; rewrite length_drop; lia.
Qed.

Lemma chunks_exact64_S f data :
  chunks_exact64 (S f) data =
  if (64 <=? length data)%nat then take 64 data :: chunks_exact64 f (drop 64 data) else [].
Proof. done. Qed.

Lemma chunks64_small data : (length data < 64)%nat -> chunks64 data = [].
Proof.
  intros H. unfold chunks64. destruct (length data) eqn:E; [done|]. cbn [chunks_exact64].
  rewrite E. destruct (Nat.leb_spec 64 (S n)); [lia|done].
Qed.

Lemma chunks64_cons x data : length x = 64%nat -> chunks64 (x ++ data) = x :: chunks64 data.
Proof.
  intros H. unfold chunks64.
  replace (length (x ++ data)) with (S (63 + length data)) by (rewrite length_app; lia).
  rewrite chunks_exact64_S, length_app, H.
  destruct (Nat.leb_spec 64 (64 + length data)); [|lia].
  rewrite take_app_length', drop_app_length' by done. f_equal.
  apply chunks_exact64_fuel; lia.
Qed.

Lemma chunks64_single x : length x = 64%nat -> chunks64 x = [x].
Proof.
  intros H. rewrite <- (app_nil_r x) at 1. rewrite chunks64_cons by done.
  by rewrite chunks64_small by (cbn; lia).
Qed.

Lemma chunks64_app q x data :
  length x = (64 * q)%nat -> chunks64 (x ++ data) = chunks64 x ++ chunks64 data.
Proof.
  revert x. induction q as [|q IH]; intros x Hx.
  - rewrite Nat.mul_0_r in Hx. by apply nil_length_inv in Hx as ->.
  - destruct (split_at x 64) as (a & b & -> & Ha); [lia|]. rewrite length_app in Hx.
    rewrite <- app_assoc, (chunks64_cons a (b ++ data)), (chunks64_cons a b) by lia.
    rewrite IH by lia. done.
Qed.

(** A message is its whole blocks followed by fewer than 64 bytes. *)
Lemma blocks_and_rest m :
  exists q f r, m = f ++ r /\ length f = (64 * q)%nat /\ (length r < 64)%nat /\
    length r = (length m mod 64)%nat /\ remainder64 m = r /\ chunks64 m = chunks64 f.
Proof.
  pose proof (Nat.div_mod_eq (length m) 64). pose proof (Nat.mod_upper_bound (length m) 64).
  exists (length m / 64)%nat, (take (64 * (length m / 64)) m), (remainder64 m).
  assert (length (take (64 * (length m / 64)) m) = (64 * (length m / 64))%nat) as Hf
    by (rewrite length_take; lia).
  assert (length (remainder64 m) = (length m mod 64)%nat) as Hr
    by (unfold remainder64; rewrite length_drop; lia).
  split_and!; try done; try lia.
  - unfold remainder64. by rewrite take_drop.
  - rewrite <- (take_drop (64 * (length m / 64)) m) at 1.
    rewrite (chunks64_app (length m / 64)) by done.
    fold (remainder64 m). rewrite (chunks64_small (remainder64 m)) by lia. by rewrite app_nil_r.
Qed.

Lemma remainder64_app q f r :
  length f = (64 * q)%nat -> (length r < 64)%nat -> remainder64 (f ++ r) = r.
Proof.
  intros Hf Hr. unfold remainder64. rewrite length_app.
  assert ((length f + length r) / 64 = q)%nat as ->
    by (symmetry; apply (Nat.div_unique _ 64 q (length r)); lia).
  apply drop_app_length'. lia.
Qed.

Lemma take_copy_into k target n s :
  (n + length s <= length target)%nat -> k = (n + length s)%nat ->
  take k (copy_into target n s) = take n target ++ s.
Proof.
  intros H ->. unfold copy_into. rewrite app_assoc. apply take_app_length'.
  rewrite length_app, length_take. lia.
Qed.

Lemma length_copy_into target n s :
  (n + length s <= length target)%nat -> length (copy_into target n s) = length target.
Proof.
  intros H. unfold copy_into. rewrite !length_app, length_take, length_drop. lia.
Qed.

(** The hasher has absorbed [m]. *)
Record absorbed (h : Sha256) (m : bytes) : Prop := {
  absorbed_state : state h = foldl compress INITIAL_STATE (chunks64 m);
  absorbed_block : length (block h) = 64%nat;
  absorbed_len : block_len h = (length m mod 64)%nat;
  absorbed_rest : take (block_len h) (block h) = remainder64 m;
  absorbed_count : hashed_bytes h = len m mod 2 ^ 64
}.

Lemma absorbed_new : absorbed Sha256_new [].
Proof. by constructor. Qed.

Lemma absorb_absorbed h q m data :
  state h = foldl compress INITIAL_STATE (chunks64 m) -> length (block h) = 64%nat ->
  length m = (64 * q)%nat -> hashed_bytes h = len (m ++ data) mod 2 ^ 64 ->
  absorbed (absorb h data) (m ++ data).
Proof.
  intros Hs Hb Hm Hc. destruct (blocks_and_rest data) as (p & f & r & -> & Hf & Hr & Hl & Hrem & Hch).
  assert (remainder64 (m ++ f ++ r) = r) as Hrem'.
  { rewrite app_assoc. apply (remainder64_app (q + p)); [rewrite length_app; lia|done]. }
  constructor; cbn [absorb state block block_len hashed_bytes].
  - by rewrite (chunks64_app q m), foldl_app, Hs by done.
  - rewrite length_copy_into; [done|]. rewrite Hrem, Hb. lia.
  - rewrite Hrem, Hl, !length_app, Hm, (Nat.mul_comm 64 q), (Nat.add_comm (q * 64)).
    by rewrite Nat.Div0.mod_add.
  - rewrite Hrem', Hrem, take_copy_into by (rewrite ?Hb; lia). done.
  - done.
Qed.

Lemma update_absorbed h m data : absorbed h m -> absorbed (update h data) (m ++ data).
Proof.
  intros [Hs Hb Hl Hr Hc]. destruct (blocks_and_rest m) as (q & f & r & -> & Hf & Hrl & Hrm & Hrem & Hch).
  rewrite Hrem in Hr. rewrite <- Hrm in Hl.
  assert (wrapping_add64 (hashed_bytes h) (len data) = len ((f ++ r) ++ data) mod 2 ^ 64) as Hcount.
  { unfold wrapping_add64. rewrite Hc, Zplus_mod_idemp_l, (length_app (f ++ r)). f_equal. lia. }
  unfold update. cbn [state block block_len hashed_bytes].
  destruct (Nat.eqb_spec (block_len h) 0) as [E|E].
  { apply (absorb_absorbed _ q); try done. rewrite length_app. lia. }
  destruct (Nat.eqb_spec (block_len h + (64 - block_len h) `min` length data) 64) as [E64|E64].
  - set (t := ((64 - block_len h) `min` length data)%nat) in *.
    assert (copy_into (block h) (block_len h) (take t data) = r ++ take t data) as Hblock.
    { rewrite <- (take_ge (copy_into _ _ _) 64).
      - rewrite take_copy_into; [by rewrite Hr| |]; rewrite length_take; lia.
      - rewrite length_copy_into; [lia|]. rewrite length_take, Hb. lia. }
    replace ((f ++ r) ++ data) with (((f ++ r) ++ take t data) ++ drop t data)
      by (by rewrite <- app_assoc, take_drop).
    apply (absorb_absorbed _ (S q)); cbn [state block hashed_bytes].
    + rewrite <- (app_assoc f), (chunks64_app q f), foldl_app by done.
      rewrite (chunks64_single (r ++ take t data)) by (rewrite length_app, length_take; lia).
      rewrite Hblock, Hs, Hch. done.
    + rewrite length_copy_into; [done|]. rewrite length_take, Hb. lia.
    + rewrite !length_app, length_take. lia.
    + by rewrite <- app_assoc, take_drop.
  - assert ((64 - block_len h) `min` length data = length data)%nat as -> by lia.
    rewrite (take_ge data) by lia.
    constructor; cbn [state block block_len hashed_bytes]; [| | | |done].
    + rewrite <- app_assoc, (chunks64_app q f), (chunks64_small (r ++ data)), app_nil_r.
      * by rewrite Hs, Hch.
      * rewrite length_app. lia.
      * done.
    + rewrite length_copy_into; [done|]. lia.
    + rewrite !length_app, Hf. apply (Nat.mod_unique _ 64 q); lia.
    + rewrite take_copy_into by lia. rewrite Hr, <- app_assoc.
      symmetry. apply (remainder64_app q); [done|]. rewrite length_app. lia.
Qed.

(** [finish] pads the absorbed message and chains its last one or two blocks. *)
Lemma padded_rest q (f r : bytes) :
  length f = (64 * q)%nat -> (length r < 64)%nat ->
  chunks64 ((f ++ r) ++ sha256_padding (length (f ++ r))) =
  chunks64 f ++ chunks64 (r ++ sha256_padding (length (f ++ r))).
Proof. intros Hf Hr. by rewrite <- app_assoc, (chunks64_app q). Qed.

Lemma padding_zeros q (f r : bytes) :
  length f = (64 * q)%nat -> (length r < 64)%nat ->
  Z.to_nat ((55 - len (f ++ r)) mod 64) =
  if (length r <=? 55)%nat then (55 - length r)%nat else (119 - length r)%nat.
Proof.
  intros Hf Hr. rewrite length_app, Hf.
  replace (55 - Z.of_nat (64 * q + length r)) with (55 - len r + (- Z.of_nat q) * 64) by lia.
  rewrite Z.mod_add by lia. destruct (Nat.leb_spec (length r) 55).
  - rewrite Z.mod_small by lia. lia.
  - rewrite <- (Z.mod_add _ 1), Z.mod_small by lia. lia.
Qed.

Lemma copy_into_end (target : bytes) n s k :
  (n + length s = length target)%nat -> n = k -> copy_into target n s = take k target ++ s.
Proof.
  intros H ->. unfold copy_into. rewrite (drop_ge target) by lia. by rewrite app_nil_r.
Qed.

Lemma finish_absorbed h m : absorbed h m -> finish h = sha256_spec m.
Proof.
  intros [Hs Hb Hl Hr Hc]. destruct (blocks_and_rest m) as (q & f & r & -> & Hf & Hrl & Hrm & Hrem & Hch).
  rewrite Hrem in Hr. rewrite <- Hrm in Hl.
  unfold finish, sha256_spec. rewrite (padded_rest q) by done. rewrite foldl_app.
  rewrite <- Hch, <- Hs. unfold sha256_padding. rewrite (padding_zeros q) by done.
  rewrite Hc. set (tail := to_be_bytes 8 _).
  assert (length tail = 8%nat) as Ht
    by (unfold tail, to_be_bytes; by rewrite length_rev, length_to_le_bytes).
  assert (take (S (block_len h)) (copy_into (block h) (block_len h) [0x80]) = r ++ [0x80]) as H1.
  { rewrite take_copy_into by (cbn; lia). by rewrite Hr. }
  assert (length (copy_into (block h) (block_len h) [0x80]) = 64%nat) as H2
    by (rewrite length_copy_into; [done|cbn; lia]).
  destruct (Nat.leb_spec (length r) 55), (Nat.ltb_spec 56 (S (block_len h))); try lia; cbn zeta.
  - set (b2 := copy_into (copy_into (block h) (block_len h) [0x80]) _ _).
    assert (take 56 b2 = r ++ 0x80 :: replicate (55 - length r) 0) as H3.
    { unfold b2. rewrite take_copy_into, H1 by (rewrite ?length_replicate; lia).
      rewrite <- app_assoc, Hl. reflexivity. }
    rewrite (copy_into_end b2 56 tail 56), H3.
    2: { unfold b2. rewrite length_copy_into; rewrite ?length_replicate; lia. }
    2: done.
    rewrite <- app_assoc. rewrite (chunks64_single (r ++ _)); [done|].
    rewrite length_app. cbn [length app]. rewrite length_app, length_replicate. lia.
  - rewrite (copy_into_end _ (S (block_len h)) _ (S (block_len h))), H1 by
      (rewrite ?length_replicate; lia).
    rewrite (copy_into_end _ 56 tail 56) by (rewrite ?length_replicate; lia).
    replace (119 - length r)%nat with (64 - S (length r) + 56)%nat by lia.
    rewrite replicate_add, Hl.
    replace (r ++ 0x80 :: (replicate (64 - S (length r)) 0 ++ replicate 56 0) ++ tail)
      with (((r ++ [0x80]) ++ replicate (64 - S (length r)) 0) ++ (replicate 56 0 ++ tail))
      by (by rewrite <- !app_assoc).
    rewrite chunks64_cons, (chunks64_single (_ ++ tail)); [done| |].
    + rewrite length_app, length_replicate. lia.
    + rewrite !length_app, length_replicate. cbn [length]. lia.
Qed.

(** However a message is cut into pieces, the hasher absorbs it. *)
Lemma streaming_absorbed pieces : absorbed (foldl update Sha256_new pieces) (concat pieces).
Proof.
  assert (forall h m, absorbed h m ->
    absorbed (foldl update h pieces) (m ++ concat pieces)) as Hfold.
  { induction pieces as [|p pieces IH]; intros h m Hm; cbn [foldl concat].
    - by rewrite app_nil_r.
    - rewrite app_assoc. apply IH. by apply update_absorbed. }
  apply (Hfold _ []), absorbed_new.
Qed.

Lemma sha256_is_spec data : sha256 data = sha256_spec data.
Proof. exact (finish_absorbed _ _ (update_absorbed _ [] data absorbed_new)). Qed.

(** *** The kernel's compression is FIPS 180-4's *)

Lemma constants_match : K = Fips180.constants /\ INITIAL_STATE = Fips180.initial_hash.
Proof. split; vm_compute; reflexivity. Qed.
Lemma is_word32_mod x : is_word32 (x mod 2 ^ 32).
Proof. apply Z.mod_pos_bound. done. Qed.

Lemma wrapping_add32_mod a b : wrapping_add32 a b = (a + b) mod 2 ^ 32.
Proof. unfold wrapping_add32. by rewrite <- (Z.land_ones _ 32). Qed.

Lemma wrapping_add32_nest a b c : wrapping_add32 (wrapping_add32 a b) c = wrapping_add32 a (b + c).
Proof. rewrite !wrapping_add32_mod, Zplus_mod_idemp_l. f_equal. lia. Qed.

Lemma word32_bits_high x i : is_word32 x -> 32 <= i -> Z.testbit x i = false.
Proof.
  intros Hx Hi. destruct (Z.eq_dec x 0) as [->|H0]; [apply Z.bits_0|].
  apply Z.bits_above_log2; [apply Hx|]. unfold is_word32 in Hx.
  assert (Z.log2 x < 32) by (apply Z.log2_lt_pow2; lia). lia.
Qed.

Lemma rotate_right32_ROTR x n :
  is_word32 x -> 0 < n < 32 -> rotate_right32 x n = Fips180.ROTR n x.
Proof.
  intros Hx Hn. unfold rotate_right32, Fips180.ROTR.
  change U32_MAX with (Z.ones 32).
  rewrite Z.land_ones, Z.shiftl_mul_pow2, Z.shiftr_div_pow2 by lia.
  replace (2 ^ 32) with (2 ^ n * 2 ^ (32 - n)) by (rewrite <- Z.pow_add_r by lia; f_equal; lia).
  rewrite Z.mul_mod_distr_r by lia.
  rewrite <- Z.add_lor_land.
  assert (Z.land (x / 2 ^ n) (x mod 2 ^ n * 2 ^ (32 - n)) = 0) as ->; [|lia].
  apply Z.bits_inj'. intros i Hi. rewrite Z.land_spec, Z.bits_0.
  destruct (Z.lt_ge_cases i (32 - n)); [by rewrite Z.mul_pow2_bits_low, andb_false_r|].
  rewrite Z.div_pow2_bits by lia. rewrite (word32_bits_high x) by (done || lia). done.
Qed.

Lemma not32_complement x : is_word32 x -> not32 x = Fips180.complement x.
Proof.
  intros Hx. unfold not32, Fips180.complement. change (2 ^ 32 - 1) with U32_MAX.
  assert (Z.land (Z.lxor x U32_MAX) x = 0) as H0.
  { apply Z.bits_inj'. intros i Hi. rewrite Z.land_spec, Z.lxor_spec, Z.bits_0.
    change U32_MAX with (Z.ones 32). destruct (Z.lt_ge_cases i 32).
    - rewrite Z.ones_spec_low by lia. by destruct (Z.testbit x i).
    - rewrite (word32_bits_high x i) by done. by rewrite andb_false_r. }
  apply Z.add_nocarry_lxor in H0.
  rewrite Z.lxor_assoc, (Z.lxor_comm U32_MAX), <- Z.lxor_assoc, Z.lxor_nilpotent, Z.lxor_0_l in H0. lia.
Qed.

(** A list of results of additions is a list of words. *)
Ltac words32 :=
  repeat (apply Forall_cons_2; [first [assumption|apply is_word32_mod]|]); apply Forall_nil_2.

Lemma word32_at W i : Forall is_word32 W -> is_word32 (W !!! i).
Proof.
  intros HW. rewrite list_lookup_total_alt. destruct (W !! i) as [x|] eqn:E; cbn; [|done].
  by eapply Forall_lookup_1.
Qed.

Lemma schedule_word_next W t :
  Forall is_word32 W -> schedule_word W t = Fips180.next_word W t.
Proof.
  intros HW. unfold schedule_word, Fips180.next_word. cbn zeta.
  rewrite !wrapping_add32_nest, wrapping_add32_mod.
  rewrite !rotate_right32_ROTR by (by first [apply word32_at|lia]).
  rewrite !Z.shiftr_div_pow2 by lia.
  fold (Fips180.SHR 3 (W !!! (t - 15)%nat)) (Fips180.SHR 10 (W !!! (t - 2)%nat)).
  fold (Fips180.sigma0 (W !!! (t - 15)%nat)) (Fips180.sigma1 (W !!! (t - 2)%nat)).
  f_equal. lia.
Qed.

Lemma next_word_word32 W t : is_word32 (Fips180.next_word W t).
Proof. apply is_word32_mod. Qed.

Lemma schedule_foldl n t W :
  Forall is_word32 W ->
  schedule n t W = foldl (fun W t => W ++ [Fips180.next_word W t]) W (seq t n) /\
  Forall is_word32 (schedule n t W).
Proof.
  revert t W. induction n as [|n IH]; intros t W HW; cbn [schedule seq foldl]; [done|].
  rewrite schedule_word_next by done. apply IH. apply Forall_app. split; [done|].
  words32.
Qed.

Lemma block_words_pieces n data :
  block_words n data = map (fun t => from_be_bytes (Fips180.piece 4 data t)) (seq 0 n).
Proof.
  revert data. induction n as [|n IH]; intros data; cbn [block_words seq map]; [done|]. f_equal.
  rewrite IH, <- seq_shift, map_map. apply map_ext. intros t. unfold Fips180.piece.
  rewrite drop_drop. do 3 f_equal. lia.
Qed.

Lemma piece_bytes n data i : is_bytes data -> is_bytes (Fips180.piece n data i).
Proof. intros H. by apply Forall_take, Forall_drop. Qed.

Lemma words_word32 n data : is_bytes data -> Forall is_word32 (block_words n data).
Proof.
  intros Hd. rewrite block_words_pieces. apply Forall_forall. intros x (t & <- & _)%list_elem_of_In%in_map_iff.
  pose proof (piece_bytes 4 data t Hd) as Hp.
  pose proof (from_le_bytes_bound (rev (Fips180.piece 4 data t)) ltac:(by apply Forall_rev)) as Hb.
  assert (length (Fips180.piece 4 data t) <= 4)%nat by (unfold Fips180.piece; rewrite length_take; lia).
  rewrite length_rev in Hb. unfold is_word32, from_be_bytes.
  pose proof (Z.pow_le_mono_r 256 (len (Fips180.piece 4 data t)) 4). lia.
Qed.

(** The code's eight variables against the standard's list. *)
Definition variables (v : Z * Z * Z * Z * Z * Z * Z * Z) : list Z :=
  let '(a, b, c, d, e, f, g, h) := v in [a; b; c; d; e; f; g; h].

Lemma round_step v kw :
  Forall is_word32 (variables v) ->
  variables (round v kw) = Fips180.step (variables v) kw /\ Forall is_word32 (variables (round v kw)).
Proof.
  destruct v as [[[[[[[a b] c] d] e] f] g] h], kw as [k w]. intros Hv. cbn [variables] in Hv.
  repeat match type of Hv with Forall _ (_ :: _) => apply Forall_cons in Hv as [? Hv] end.
  split.
  - cbn [round variables Fips180.step fst snd]. rewrite !wrapping_add32_nest, !wrapping_add32_mod.
    rewrite !rotate_right32_ROTR, not32_complement by (done || lia).
    fold (Fips180.Ch e f g) (Fips180.Maj a b c) (Fips180.Sigma0 a) (Fips180.Sigma1 e).
    rewrite Zplus_mod_idemp_l, !Z.add_assoc. done.
  - cbn [round variables]. rewrite !wrapping_add32_mod. words32.
Qed.

Lemma rounds_steps kws v :
  Forall is_word32 (variables v) ->
  variables (foldl round v kws) = foldl Fips180.step (variables v) kws /\
  Forall is_word32 (variables (foldl round v kws)).
Proof.
  revert v. induction kws as [|kw kws IH]; intros v Hv; cbn [foldl]; [done|].
  destruct (round_step v kw Hv) as [<- Hr]. by apply IH.
Qed.

(** A chaining value: eight words. *)
Definition is_hash (H : list Z) : Prop := length H = 8%nat /\ Forall is_word32 H.

(** [Sha256::compress] is the standard's computation on one block. *)
Lemma compress_hash_block H data :
  is_hash H -> is_bytes data ->
  compress H data = Fips180.hash_block H data /\ is_hash (compress H data).
Proof.
  intros [Hlen Hw] Hd. do 8 (destruct H as [|? H]; [done|]). destruct H; [|done].
  unfold compress, Fips180.hash_block, Fips180.message_schedule.
  destruct (schedule_foldl 48 16 _ (words_word32 16 data Hd)) as [-> _]. rewrite block_words_pieces.
  rewrite (proj1 constants_match). set (kws := zip _ _).
  match goal with |- context [foldl round ?v kws] =>
    destruct (rounds_steps kws v Hw) as [Hs _]; cbn [variables] in Hs; rewrite <- Hs;
    destruct (foldl round v kws) as [[[[[[[? ?] ?] ?] ?] ?] ?] ?] end.
  cbn [variables zip_with]. rewrite !wrapping_add32_mod. split.
  - repeat (apply (f_equal2 cons); [by rewrite Z.add_comm|]). done.
  - split; [done|]. words32.
Qed.

Lemma compress_blocks ds H :
  is_hash H -> Forall is_bytes ds -> foldl compress H ds = foldl Fips180.hash_block H ds.
Proof.
  revert H. induction ds as [|d ds IH]; intros H HH Hds; cbn [foldl]; [done|].
  apply Forall_cons in Hds as [Hd Hds]. destruct (compress_hash_block H d HH Hd) as [<- Hn].
  by apply IH.
Qed.

(** *** The padding is the standard's, and so are the blocks *)

Lemma chunks64_blocks q data :
  length data = (64 * q)%nat -> chunks64 data = Fips180.blocks data.
Proof.
  intros Hl. unfold Fips180.blocks. replace (length data / 64)%nat with q
    by (rewrite Hl, (Nat.mul_comm 64), Nat.div_mul; lia).
  revert data Hl. induction q as [|q IH]; intros data Hl; [by apply chunks64_small; lia|].
  destruct (split_at data 64) as (x & rest & -> & Hx); [lia|]. assert (length x = 64%nat) as Hx' by lia. rewrite length_app in Hl.
  rewrite chunks64_cons, IH by lia. cbn [seq map]. f_equal.
  - unfold Fips180.piece. rewrite Nat.mul_0_r, drop_0. by rewrite take_app_length'.
  - rewrite <- seq_shift, map_map. apply map_ext. intros i. unfold Fips180.piece. f_equal.
    rewrite Nat.mul_succ_r, Nat.add_comm, <- drop_drop. by rewrite drop_app_length'.
Qed.

Lemma padding_standard m :
  8 * len m < 2 ^ 64 -> m ++ sha256_padding (length m) = Fips180.pad m.
Proof.
  intros Hm. unfold sha256_padding, Fips180.pad, Fips180.zeros, wrapping_mul64. f_equal. cbn [app]. f_equal.
  f_equal; [do 2 f_equal; f_equal; lia|]. f_equal.
  rewrite !Z.mod_small by (rewrite ?Z.mod_small; lia). lia.
Qed.

Lemma length_pad m : exists q, length (Fips180.pad m) = (64 * q)%nat.
Proof.
  unfold Fips180.pad, Fips180.zeros. rewrite !length_app, length_replicate.
  unfold to_be_bytes. rewrite length_rev, length_to_le_bytes. cbn [length].
  exists (Z.to_nat ((len m + 1 + (56 - (len m + 1)) mod 64 + 8) / 64)).
  Z.div_mod_to_equations. lia.
Qed.

Lemma pad_bytes m : is_bytes m -> is_bytes (Fips180.pad m).
Proof.
  intros Hm. unfold Fips180.pad. rewrite !is_bytes_app. split_and!; [done| | |].
  - constructor; [ulia|constructor].
  - apply Forall_replicate. ulia.
  - apply Forall_rev, is_bytes_to_le.
Qed.

Lemma sha256_spec_digest m :
  is_bytes m -> 8 * len m < 2 ^ 64 -> sha256_spec m = Fips180.digest m.
Proof.
  intros Hb Hl. unfold sha256_spec, Fips180.digest. rewrite padding_standard by done.
  destruct (length_pad m) as [q Hq]. rewrite (chunks64_blocks q) by done.
  rewrite compress_blocks, (proj2 constants_match); [done|..].
  - split; [done|]. unfold INITIAL_STATE. repeat (apply Forall_cons_2; [by split|]). apply Forall_nil_2.
  - apply Forall_forall. intros x (i & <- & _)%list_elem_of_In%in_map_iff.
    by apply piece_bytes, pad_bytes.
Qed.

(** C20: Streaming SHA-256 is the SHA-256 of FIPS 180-4 for every message of
    fewer than [2 ^ 64] bits: however the message is cut into pieces for
    [update], [finish] returns the digest the standard defines for the whole
    message, and so does the one-shot [sha256].  The standard is stated on its
    own: its constants as bits of the roots of primes, its functions, padding,
    message schedule and rounds without reference to the code. *)
Theorem streaming_sha256_is_sha256 (pieces : list bytes) :
  is_bytes (concat pieces) -> 8 * len (concat pieces) < 2 ^ 64 ->
  finish (foldl update Sha256_new pieces) = Fips180.digest (concat pieces) /\
  sha256 (concat pieces) = Fips180.digest (concat pieces).
Proof.
  intros Hb Hl. rewrite sha256_is_spec, <- sha256_spec_digest by done.
  split; [|done]. apply finish_absorbed, streaming_absorbed.
Qed.

(** The published digest of "abc", fed in two pieces. *)
Lemma streaming_sha256_is_sha256_witness :
  finish (foldl update Sha256_new [str "a"; str "bc"]) = Fips180.digest (concat [str "a"; str "bc"]) /\
  Fips180.digest (concat [str "a"; str "bc"]) =
  [0xba; 0x78; 0x16; 0xbf; 0x8f; 0x01; 0xcf; 0xea; 0x41; 0x41; 0x40; 0xde; 0x5d; 0xae; 0x22; 0x23;
   0xb0; 0x03; 0x61; 0xa3; 0x96; 0x17; 0x7a; 0x9c; 0xb4; 0x10; 0xff; 0x61; 0xf2; 0x00; 0x15; 0xad].
Proof.
  split; [|vm_compute; reflexivity].
  refine (proj1 (streaming_sha256_is_sha256 [str "a"; str "bc"] _ _)).
  - apply is_bytesb_true. vm_compute. reflexivity.
  - vm_compute. reflexivity.
Defined.

(** ** CRC32C detects bursts

    One step of the register is linear over xor and injective, and feeding
    zero-extended bytes only shifts them in; so four changed bytes change the
    register, and equal suffixes keep it changed. *)

Lemma lxor_word32 a b : is_word32 a -> is_word32 b -> is_word32 (Z.lxor a b).
Proof.
  intros Ha Hb. assert (0 <= Z.lxor a b) as H0 by (apply Z.lxor_nonneg; unfold is_word32 in *; lia).
  split; [done|].
  assert (Z.shiftr (Z.lxor a b) 32 = 0) as H.
  { rewrite Z.shiftr_lxor, !Z.shiftr_div_pow2 by lia.
    rewrite !Z.div_small by (unfold is_word32 in *; lia). done. }
  rewrite Z.shiftr_div_pow2 in H by lia. apply Z.div_small_iff in H; lia.
Qed.

Lemma lxor_cancel a b c : Z.lxor a b = Z.lxor a c -> b = c.
Proof.
  intros H. apply (f_equal (Z.lxor a)) in H.
  by rewrite <- !Z.lxor_assoc, Z.lxor_nilpotent, !Z.lxor_0_l in H.
Qed.

Lemma crc_bit_lxor a b : crc_bit (Z.lxor a b) = Z.lxor (crc_bit a) (crc_bit b).
Proof.
  unfold crc_bit. rewrite Z.shiftr_lxor.
  assert (Z.odd (Z.lxor a b) = xorb (Z.odd a) (Z.odd b)) as ->
    by (rewrite <- !Z.bit0_odd; apply Z.lxor_spec).
  rewrite !Z.lxor_assoc. f_equal.
  rewrite (Z.lxor_comm _ (Z.lxor (Z.shiftr b 1) _)), Z.lxor_assoc. f_equal.
  by destruct (Z.odd a), (Z.odd b).
Qed.

Lemma crc_bit_double a : crc_bit (2 * a) = a.
Proof.
  unfold crc_bit. rewrite Z.odd_mul. cbn [Z.odd andb]. rewrite Z.lxor_0_r, Z.shiftr_div_pow2 by lia.
  rewrite Z.mul_comm. by apply Z.div_mul.
Qed.

Lemma crc_bit_word32 a : is_word32 a -> is_word32 (crc_bit a).
Proof.
  intros Ha. unfold crc_bit. apply lxor_word32.
  - rewrite <- Z.div2_spec, Z.div2_div. unfold is_word32 in *.
    Z.div_mod_to_equations. lia.
  - by destruct (Z.odd a).
Qed.

Lemma crc_bit_zero a : is_word32 a -> crc_bit a = 0 -> a = 0.
Proof.
  unfold crc_bit, is_word32. intros Ha H. apply Z.lxor_eq in H.
  rewrite <- Z.div2_spec, Z.div2_div in H. unfold CRC32C_POLYNOMIAL in H.
  pose proof (Zmod_odd a). destruct (Z.odd a); Z.div_mod_to_equations; lia.
Qed.

#[local] Opaque crc_bit.

Lemma crc_shift_lxor a b : crc_shift (Z.lxor a b) = Z.lxor (crc_shift a) (crc_shift b).
Proof. unfold crc_shift. cbn [Nat.iter nat_rect]. by rewrite !crc_bit_lxor. Qed.

Lemma crc_shift_byte a : crc_shift (256 * a) = a.
Proof.
  unfold crc_shift. cbn [Nat.iter nat_rect].
  replace (256 * a) with (2 * (2 * (2 * (2 * (2 * (2 * (2 * (2 * a)))))))) by lia.
  by rewrite !crc_bit_double.
Qed.

Lemma crc_shift_word32 a : is_word32 a -> is_word32 (crc_shift a).
Proof. intros H. unfold crc_shift. cbn [Nat.iter nat_rect]. by do 8 apply crc_bit_word32. Qed.

Lemma crc_shift_inj a b : is_word32 a -> is_word32 b -> crc_shift a = crc_shift b -> a = b.
Proof.
  intros Ha Hb H. apply Z.lxor_eq. pose proof (lxor_word32 _ _ Ha Hb) as Hab.
  assert (crc_shift (Z.lxor a b) = 0) as H0.
  { rewrite crc_shift_lxor, H. apply Z.lxor_nilpotent. }
  unfold crc_shift in H0. cbn [Nat.iter nat_rect] in H0.
  do 8 (apply crc_bit_zero in H0; [|repeat apply crc_bit_word32; done]). done.
Qed.

#[local] Opaque crc_shift.

Lemma u8_word32 b : is_u8 b -> is_word32 b.
Proof. unfold is_word32. ulia. Qed.

Lemma crc_byte_word32 c b : is_word32 c -> is_u8 b -> is_word32 (crc_byte c b).
Proof. intros. apply crc_shift_word32, lxor_word32; [done|by apply u8_word32]. Qed.

Lemma crc_bytes_word32 l c : is_word32 c -> is_bytes l -> is_word32 (foldl crc_byte c l).
Proof.
  revert c. induction l as [|b l IH]; intros c Hc Hl; cbn [foldl]; [done|].
  apply Forall_cons in Hl as [? ?]. apply IH; [|done]. by apply crc_byte_word32.
Qed.

Lemma crc_bytes_inj l c d :
  is_word32 c -> is_word32 d -> is_bytes l ->
  foldl crc_byte c l = foldl crc_byte d l -> c = d.
Proof.
  revert c d. induction l as [|b l IH]; intros c d Hc Hd Hl; cbn [foldl]; [done|].
  apply Forall_cons in Hl as [Hb Hl]. intros H.
  apply IH in H; [|by apply crc_byte_word32|by apply crc_byte_word32|done].
  apply crc_shift_inj in H; try (apply lxor_word32; [done|by apply u8_word32]).
  rewrite !(Z.lxor_comm _ b) in H. by apply lxor_cancel in H.
Qed.

Lemma byte_high_lxor b v : is_u8 b -> b + 256 * v = Z.lxor b (256 * v).
Proof.
  intros Hb. apply Z.add_nocarry_lxor. apply Z.bits_inj'. intros n Hn.
  rewrite Z.land_spec, Z.bits_0. change 256 with (2 ^ 8). rewrite Z.mul_comm.
  destruct (Z.lt_ge_cases n 8).
  - by rewrite Z.mul_pow2_bits_low, andb_false_r.
  - rewrite (Z.bits_above_log2 b); [done|ulia|].
    pose proof (Z.log2_le_mono b 255) as Hlog. change (Z.log2 255) with 7 in Hlog. ulia.
Qed.

(** Feeding a byte string is shifting its little-endian value through. *)
Lemma crc_bytes_shift l c :
  is_bytes l ->
  foldl crc_byte c l = Nat.iter (length l) crc_shift (Z.lxor c (from_le_bytes l)).
Proof.
  revert c. induction l as [|b l IH]; intros c Hl; cbn [foldl length].
  - by rewrite Z.lxor_0_r.
  - apply Forall_cons in Hl as [Hb Hl]. rewrite IH, Nat.iter_succ_r by done. f_equal.
    cbn [from_le_bytes]. rewrite byte_high_lxor, <- Z.lxor_assoc, crc_shift_lxor by done.
    by rewrite crc_shift_byte.
Qed.

(** Inputs that agree outside a window of at most four bytes and have the same
    checksum agree inside it. *)
Lemma crc32c_window (x w v y : bytes) :
  is_bytes x -> is_bytes w -> is_bytes v -> is_bytes y ->
  length w = length v -> (length w <= 4)%nat ->
  crc32c (x ++ w ++ y) = crc32c (x ++ v ++ y) -> w = v.
Proof.
  intros Hx Hw Hv Hy Hlen H4 H. apply (from_le_bytes_inj w v); try done.
  unfold crc32c in H. rewrite !foldl_app, !(Z.lxor_comm _ U32_MAX) in H.
  apply lxor_cancel in H.
  assert (is_word32 (foldl crc_byte U32_MAX x)) as Hc by (by apply crc_bytes_word32).
  apply crc_bytes_inj in H; [|by apply crc_bytes_word32|by apply crc_bytes_word32|done].
  assert (forall l, is_bytes l -> (length l <= 4)%nat -> is_word32 (from_le_bytes l)) as Hle.
  { intros l Hl Hl4. pose proof (from_le_bytes_bound l Hl).
    pose proof (Z.pow_le_mono_r 256 (len l) 4). unfold is_word32. lia. }
  generalize dependent (foldl crc_byte U32_MAX x). intros c H Hc.
  rewrite !crc_bytes_shift in H by done. rewrite <- Hlen in H.
  assert (forall n a b, is_word32 a -> is_word32 b ->
    Nat.iter n crc_shift a = Nat.iter n crc_shift b -> a = b) as Hinj.
  { induction n as [|n IH]; intros a b Ha Hb; [done|].
    rewrite !Nat.iter_succ_r. intros E. apply crc_shift_inj; [done|done|].
    apply IH; [by apply crc_shift_word32|by apply crc_shift_word32|done]. }
  apply Hinj in H; [by apply lxor_cancel in H| |]; apply lxor_word32; try done; apply Hle; by rewrite <- ?Hlen.
Qed.

(** C26: CRC32C detects every burst of at most four bytes: two inputs that differ
    only inside a window of at most four bytes have different checksums. *)
Theorem crc32c_detects_bursts (x w v y : bytes) :
  is_bytes x -> is_bytes w -> is_bytes v -> is_bytes y ->
  length w = length v -> (length w <= 4)%nat -> w <> v ->
  crc32c (x ++ w ++ y) <> crc32c (x ++ v ++ y).
Proof.
  intros Hx Hw Hv Hy Hlen H4 Hne H. by apply Hne, (crc32c_window x w v y).
Qed.

#[local] Transparent crc_bit crc_shift.

Lemma crc32c_detects_bursts_witness :
  crc32c (str "header" ++ [0; 1; 2; 3] ++ str "payload") <>
  crc32c (str "header" ++ [0; 1; 2; 4] ++ str "payload").
Proof.
  apply (crc32c_detects_bursts (str "header") [0; 1; 2; 3] [0; 1; 2; 4] (str "payload"));
    try (apply is_bytesb_true; vm_compute; reflexivity); [reflexivity|cbn; lia|discriminate].
Defined.

(** A SHA-256 digest is 32 bytes. *)
Lemma length_compress s b : length s = 8%nat -> length (compress s b) = 8%nat.
Proof.
  intros Hs. do 9 (destruct s as [|? s]; try discriminate). cbn [compress].
  destruct (foldl round _ _) as [[[[[[[? ?] ?] ?] ?] ?] ?] ?]. done.
Qed.

Lemma digest_words l : 
  length (concat (map (to_be_bytes 4) l)) = (4 * length l)%nat /\
  is_bytes (concat (map (to_be_bytes 4) l)).
Proof.
  induction l as [|x l [IH1 IH2]]; cbn [map concat length]; [by split; [|constructor]|].
  rewrite length_app, IH1. unfold to_be_bytes. rewrite length_rev, length_to_le_bytes.
  split; [lia|]. apply is_bytes_app. split; [|done].
  apply Forall_rev, is_bytes_to_le.
Qed.

Lemma sha256_digest data : length (sha256 data) = 32%nat /\ is_bytes (sha256 data).
Proof.
  unfold sha256. rewrite (finish_absorbed _ _ (update_absorbed _ [] data absorbed_new)).
  unfold sha256_spec. split; [|apply digest_words]. rewrite (proj1 (digest_words _)).
  assert (forall l s, length s = 8%nat -> length (foldl compress s l) = 8%nat) as Hfold.
  { induction l as [|b l IH]; intros s Hs; cbn [foldl]; [done|]. by apply IH, length_compress. }
  by rewrite Hfold.
Qed.

Lemma length_sha256 data : length (sha256 data) = 32%nat.
Proof. apply sha256_digest. Qed.

Lemma length_sha256_spec data : length (sha256_spec data) = 32%nat.
Proof. rewrite <- sha256_is_spec. apply length_sha256. Qed.

(** A CRC is a 32-bit word. *)
Lemma crc32c_word32 data : is_bytes data -> is_word32 (crc32c data).
Proof. intros H. apply lxor_word32; [by apply crc_bytes_word32|done]. Qed.
