(* ===== verification/Float64.v ===== *)
(** * IEEE-754 binary64, as far as the kernel observes it

    The kernel only converts durations to [f64] seconds and looks at the bits
    of the result.  Values are the standard library's [spec_float]s. *)

From S2P Require Import Prelude.
From Stdlib Require Import SpecFloat.

Notation f64 := spec_float.

Definition F64_PREC : Z := 53.
Definition F64_EMAX : Z := 1024.

Definition f64_of_Z (z : Z) : f64 := binary_normalize F64_PREC F64_EMAX z 0 false.
Definition f64_add (x y : f64) : f64 := SFadd F64_PREC F64_EMAX x y.
Definition f64_div (x y : f64) : f64 := SFdiv F64_PREC F64_EMAX x y.

Definition sign_bit (s : bool) : Z := if s then Z.shiftl 1 63 else 0.

(** [f64::to_bits] *)
Definition to_bits (x : f64) : Z :=
  match x with
  | S754_zero s => sign_bit s
  | S754_infinity s => sign_bit s + Z.shiftl 0x7ff 52
  | S754_nan => Z.shiftl 0x7ff 52 + Z.shiftl 1 51
  | S754_finite s m e =>
      sign_bit s +
      if 2 ^ 52 <=? Zpos m then Z.shiftl (e + 1075) 52 + (Zpos m - 2 ^ 52) else Zpos m
  end.

(** [Duration::as_secs_f64], of a duration in nanoseconds. *)
Definition NANOS_PER_SEC : Z := 1000000000.
Definition as_secs_f64 (nanos : Z) : f64 :=
  f64_add (f64_of_Z (nanos / NANOS_PER_SEC))
          (f64_div (f64_of_Z (nanos mod NANOS_PER_SEC)) (f64_of_Z NANOS_PER_SEC)).

Example one_and_a_half_seconds : to_bits (as_secs_f64 1500000000) = 0x3ff8000000000000.
Proof. reflexivity. Qed.
Example one_nanosecond : to_bits (as_secs_f64 1) = 0x3e112e0be826d695.
Proof. vm_compute. reflexivity. Qed.
