(* ===== verification/Error.v ===== *)
(** * Stable, sanitised errors ([native/src/error.rs])

    The error values every native operation returns, and [outcome], the
    result of running Rust code: a value, an error, or a panic.  Panics are a
    value of the model, so that "this code never panics" is a theorem. *)

From S2P Require Import Prelude Bytes Float64.

Inductive NativeNumber :=
  | Integer (value : Z)
  | FloatBits (bits : Z).

Definition NativeNumber_integer (value : Z) : NativeNumber := Integer value.
Definition NativeNumber_float (value : f64) : NativeNumber := FloatBits (to_bits value).

Record NativeLimitDetails := {
  component_count : option Z;
  largest_component_labels : option Z;
  largest_component_arcs : option Z;
  refinement_rounds : option Z;
  work_term : option string
}.

Definition NativeLimitDetails_default : NativeLimitDetails :=
  {| component_count := None; largest_component_labels := None;
     largest_component_arcs := None; refinement_rounds := None; work_term := None |}.

Record NativeResourceLimit := {
  limit_name : string;
  observed : NativeNumber;
  allowed : NativeNumber;
  details : NativeLimitDetails
}.

Inductive NativeErrorPayload :=
  | PayloadNone
  | ResourceLimit (limit : NativeResourceLimit)
  | Opaque (kind : string) (data : bytes).

Record NativeError := mkNativeError {
  code : string;
  message : string;
  payload : NativeErrorPayload
}.

Definition new (code message : string) : NativeError :=
  {| code := code; message := message; payload := PayloadNone |}.
Definition protocol (message : string) : NativeError := new "NATIVE_PROTOCOL" message.
Definition corrupt (message : string) : NativeError := new "NATIVE_WIRE_CORRUPTION" message.
Definition version (message : string) : NativeError := new "NATIVE_WIRE_VERSION" message.
Definition limit (message : string) : NativeError := new "NATIVE_WIRE_LIMIT" message.

Definition resource_limit_with_details (limit : string) (observed allowed : NativeNumber)
    (details : NativeLimitDetails) (message : string) : NativeError :=
  {| code := "NATIVE_WIRE_LIMIT"; message := message;
     payload := ResourceLimit {| limit_name := limit; observed := observed;
                                 allowed := allowed; details := details |} |}.

Definition resource_limit (limit : string) (observed allowed : NativeNumber)
    (message : string) : NativeError :=
  resource_limit_with_details limit observed allowed NativeLimitDetails_default message.

Definition with_opaque_payload (e : NativeError) (kind : string) (data : bytes) : NativeError :=
  {| code := code e; message := message e; payload := Opaque kind data |}.

Definition cancelled : NativeError := new "NATIVE_CANCELLED" "native operation cancelled".

Definition deadline_limit (observed_seconds allowed_seconds : f64) : NativeError :=
  let error := resource_limit "deadline_seconds" (NativeNumber_float observed_seconds)
    (NativeNumber_float allowed_seconds) "native operation deadline exceeded" in
  {| code := "NATIVE_DEADLINE"; message := message error; payload := payload error |}.

Definition panic : NativeError := new "NATIVE_PANIC" "native backend panic was contained".

(** ** Running Rust code *)

Inductive outcome (A : Type) : Type :=
  | Ok (a : A)
  | Err (e : NativeError)
  | Panic.
Arguments Ok {A} a.
Arguments Err {A} e.
Arguments Panic {A}.

Definition outcome_bind {A B} (m : outcome A) (f : A -> outcome B) : outcome B :=
  match m with Ok a => f a | Err e => Err e | Panic => Panic end.

(** [o.ok_or_else(|| e)], [o.map_err(|_| e)] and indexing that panics. *)
Definition ok_or {A} (o : option A) (e : NativeError) : outcome A :=
  match o with Some a => Ok a | None => Err e end.
Definition or_panic {A} (o : option A) : outcome A :=
  match o with Some a => Ok a | None => Panic end.
(** [if c { return Err(e) }] *)
Definition fail_if (c : bool) (e : NativeError) : outcome unit :=
  if c then Err e else Ok tt.
