(* ===== verification/Machine.v ===== *)
(** * The machine the kernel runs on

    What native code observes of the outside world (clock, cancellation by
    other threads, pending Python signals, the allocator), the state-and-error
    monad its operations are written in, its loops, and a weakest-precondition
    calculus.  [wp m Q s] says that running [m] from [s] does not panic and
    that every successful result satisfies [Q]. *)

From S2P Require Import Prelude Bytes Error.

(** ** The outside world *)

Record Observation := {
  obs_cancelled : bool;       (* another thread has cancelled the operation *)
  obs_now : Z;                (* [Instant::now()], in nanoseconds *)
  obs_signal : option Z;      (* a pending Python signal exception *)
  obs_alloc : bool;           (* the allocator grants a fallible reservation *)
  obs_full : bool             (* a vector is at its capacity, which the allocator chose *)
}.

(** Observations are indexed by the number of looks taken so far. *)
Record World := mkWorld { observations : N -> Observation; tick : N }.

Definition look (w : World) : Observation * World :=
  (observations w (tick w), {| observations := observations w; tick := N.succ (tick w) |}).

(** A world in which nothing interferes. *)
Definition calm_observation : Observation :=
  {| obs_cancelled := false; obs_now := 0; obs_signal := None; obs_alloc := true;
     obs_full := true |}.
Definition calm_world : World := {| observations := fun _ => calm_observation; tick := 0 |}.

Definition is_calm (w : World) : Prop :=
  forall n, obs_cancelled (observations w n) = false /\
            obs_signal (observations w n) = None /\ obs_alloc (observations w n) = true.

Lemma calm_world_calm : is_calm calm_world.
Proof. by intros n. Qed.

Lemma is_calm_look w : is_calm w -> is_calm (snd (look w)).
Proof. done. Qed.

(** ** The monads *)

#[export] Instance outcome_ret : MRet outcome := fun A a => Ok a.
#[export] Instance outcome_mbind : MBind outcome := fun A B f m => outcome_bind m f.

Definition M (S A : Type) : Type := S -> outcome A * S.

#[export] Instance M_ret {S} : MRet (M S) := fun A a s => (Ok a, s).
#[export] Instance M_bind {S} : MBind (M S) := fun A B f m s =>
  match m s with
  | (Ok a, s') => f a s'
  | (Err e, s') => (Err e, s')
  | (Panic, s') => (Panic, s')
  end.

Definition lift {S A} (o : outcome A) : M S A := fun s => (o, s).
Definition get {S} : M S S := fun s => (Ok s, s).
Definition put {S} (s : S) : M S unit := fun _ => (Ok tt, s).
Definition throw {S A} (e : NativeError) : M S A := lift (Err e).
(** [if c { return Err(e) }] *)
Definition ensure_not {S} (c : bool) (e : NativeError) : M S unit := lift (fail_if c e).

(** Run an operation on a component of the state ([&mut self.field]). *)
Definition zoom {S T A} (proj : S -> T) (upd : T -> S -> S) (m : M T A) : M S A :=
  fun s => let '(r, t) := m (proj s) in (r, upd t s).

(** A fallible reservation; the world decides. *)
Definition try_reserve (message : string) : M World unit := fun w =>
  let '(o, w') := look w in
  (if obs_alloc o then Ok tt else Err (limit message), w').

(** [values.len() == values.capacity()] *)
Definition at_capacity : M World bool := fun w => let '(o, w') := look w in (Ok (obs_full o), w').

(** ** Loops: [for index in start..start + n] with loop-carried variables, and
    [for item in items]. *)

Section Loops.
Context {S X Y : Type}.

Fixpoint for_range (body : Z -> X -> M S X) (start : Z) (n : nat) (x : X) : M S X :=
  match n with
  | O => mret x
  | Datatypes.S n => x' ← body start x; for_range body (start + 1) n x'
  end.

Fixpoint for_each (body : Y -> X -> M S X) (items : list Y) (x : X) : M S X :=
  match items with
  | [] => mret x
  | y :: items => x' ← body y x; for_each body items x'
  end.
End Loops.

(** [while cond(x) { x = body(x)? }] in at most [n] rounds; a loop that needs
    more would not be the one of the source, and panics. *)
Fixpoint while_loop {S X} (n : nat) (cond : X -> bool) (body : X -> M S X) (x : X) : M S X :=
  if cond x then
    match n with
    | O => lift Panic
    | Datatypes.S n => x' ← body x; while_loop n cond body x'
    end
  else mret x.

(** The same loops for code without state. *)
Section PureLoops.
Context {X Y : Type}.

Fixpoint ofor_range (body : Z -> X -> outcome X) (start : Z) (n : nat) (x : X) : outcome X :=
  match n with
  | O => Ok x
  | S n => x' ← body start x; ofor_range body (start + 1) n x'
  end.

Fixpoint ofor_each (body : Y -> X -> outcome X) (items : list Y) (x : X) : outcome X :=
  match items with
  | [] => Ok x
  | y :: items => x' ← body y x; ofor_each body items x'
  end.
End PureLoops.

(** ** Weakest preconditions *)

Definition owp {A} (m : outcome A) (Q : A -> Prop) : Prop :=
  match m with Ok a => Q a | Err _ => True | Panic => False end.

Definition wp {S A} (m : M S A) (Q : A -> S -> Prop) (s : S) : Prop :=
  match m s with (Ok a, s') => Q a s' | (Err _, _) => True | (Panic, _) => False end.

Section OutcomeRules.
Context {A B : Type}.
Implicit Types (m : outcome A).

Lemma owp_bind m (f : A -> outcome B) Q :
  owp m (fun a => owp (f a) Q) -> owp (m ≫= f) Q.
Proof. by destruct m. Qed.

Lemma owp_mono m (P Q : A -> Prop) : (forall a, P a -> Q a) -> owp m P -> owp m Q.
Proof. destruct m; cbn; auto. Qed.

Lemma owp_Ok m Q a : owp m Q -> m = Ok a -> Q a.
Proof. by intros H ->. Qed.

Lemma owp_no_panic m Q : owp m Q -> m <> Panic.
Proof. by intros H ->. Qed.

Lemma owp_intro m Q : m <> Panic -> (forall a, m = Ok a -> Q a) -> owp m Q.
Proof. destruct m; cbn; auto. Qed.

Lemma owp_conj m (P Q : A -> Prop) : owp m P -> owp m Q -> owp m (fun a => P a /\ Q a).
Proof. destruct m; cbn; auto. Qed.

Lemma owp_eq m (Q : A -> Prop) : owp m (fun a => m = Ok a -> Q a) -> owp m Q.
Proof. destruct m; cbn; auto. Qed.

Lemma owp_ok_or (o : option A) e Q : (forall a, o = Some a -> Q a) -> owp (ok_or o e) Q.
Proof. destruct o; cbn; auto. Qed.

Lemma owp_or_panic (o : option A) a Q : o = Some a -> Q a -> owp (or_panic o) Q.
Proof. by intros ->. Qed.

Lemma owp_fail_if c e Q : (c = false -> Q tt) -> owp (fail_if c e) Q.
Proof. destruct c; cbn; auto. Qed.

Lemma outcome_bind_Ok m (f : A -> outcome B) b :
  m ≫= f = Ok b <-> exists a, m = Ok a /\ f a = Ok b.
Proof. destruct m; cbn; naive_solver. Qed.
End OutcomeRules.

Section MachineRules.
Context {S : Type}.
Implicit Types (s : S).

Lemma wp_ret {A} (a : A) Q s : Q a s -> wp (mret a) Q s.
Proof. done. Qed.

Lemma wp_bind {A B} (m : M S A) (f : A -> M S B) Q s :
  wp m (fun a => wp (f a) Q) s -> wp (m ≫= f) Q s.
Proof. unfold wp, mbind, M_bind. by destruct (m s) as [[a|e|] s']. Qed.

Lemma wp_mono {A} (m : M S A) (P Q : A -> S -> Prop) s :
  wp m P s -> (forall a s', P a s' -> Q a s') -> wp m Q s.
Proof. unfold wp. destruct (m s) as [[a|e|] s']; auto. Qed.

Lemma wp_conj {A} (m : M S A) (P Q : A -> S -> Prop) s :
  wp m P s -> wp m Q s -> wp m (fun a s' => P a s' /\ Q a s') s.
Proof. unfold wp. destruct (m s) as [[a|e|] s']; auto. Qed.

Lemma wp_Ok {A} (m : M S A) Q s a s' : wp m Q s -> m s = (Ok a, s') -> Q a s'.
Proof. unfold wp. by intros H E; rewrite E in H. Qed.

Lemma wp_no_panic {A} (m : M S A) Q s : wp m Q s -> fst (m s) <> Panic.
Proof. unfold wp. by destruct (m s) as [[a|e|] s']. Qed.

Lemma wp_lift {A} (o : outcome A) Q s : owp o (fun a => Q a s) -> wp (lift o) Q s.
Proof. by destruct o. Qed.

Lemma wp_get Q s : Q s s -> wp get Q s.
Proof. done. Qed.

Lemma wp_put Q s s' : Q tt s' -> wp (put s') Q s.
Proof. done. Qed.

Lemma wp_throw {A} e (Q : A -> S -> Prop) s : wp (throw e) Q s.
Proof. done. Qed.

Lemma wp_ensure_not c e Q s : (c = false -> Q tt s) -> wp (ensure_not c e) Q s.
Proof. destruct c; cbn; auto. Qed.

Lemma wp_zoom {T A} (proj : S -> T) upd (m : M T A) Q s :
  wp m (fun a t => Q a (upd t s)) (proj s) -> wp (zoom proj upd m) Q s.
Proof. unfold wp, zoom. by destruct (m (proj s)) as [[a|e|] t]. Qed.

(** Invariant rules for the loops. *)
Lemma wp_for_range {X} (body : Z -> X -> M S X) (I : Z -> X -> S -> Prop) n start x s :
  I start x s ->
  (forall i x s, start <= i < start + Z.of_nat n -> I i x s ->
     wp (body i x) (fun x' s' => I (i + 1) x' s') s) ->
  wp (for_range body start n x) (fun x' s' => I (start + Z.of_nat n) x' s') s.
Proof.
  revert start x s. induction n as [|n IH]; intros start x s H0 Hbody; cbn [for_range].
  - apply wp_ret. by rewrite Z.add_0_r.
  - apply wp_bind. eapply wp_mono; [apply Hbody; [lia|done]|]. intros x' s' HI.
    eapply wp_mono; [apply IH; [done|]|].
    + intros i y t Hi. apply Hbody. lia.
    + intros y t. by replace (start + Z.of_nat (Datatypes.S n)) with (start + 1 + Z.of_nat n) by lia.
Qed.

Lemma wp_for_each {X Y} (body : Y -> X -> M S X) (I : list Y -> X -> S -> Prop) items x s :
  I items x s ->
  (forall y rest x s, I (y :: rest) x s -> wp (body y x) (fun x' s' => I rest x' s') s) ->
  wp (for_each body items x) (fun x' s' => I [] x' s') s.
Proof.
  revert x s. induction items as [|y items IH]; intros x s H0 Hbody; cbn [for_each].
  - by apply wp_ret.
  - apply wp_bind. eapply wp_mono; [by apply Hbody|]. intros x' s' HI. by apply IH.
Qed.
End MachineRules.

Lemma owp_for_range {X} (body : Z -> X -> outcome X) (I : Z -> X -> Prop) n start x :
  I start x ->
  (forall i x, start <= i < start + Z.of_nat n -> I i x -> owp (body i x) (I (i + 1))) ->
  owp (ofor_range body start n x) (I (start + Z.of_nat n)).
Proof.
  revert start x. induction n as [|n IH]; intros start x H0 Hbody; cbn [ofor_range].
  - cbn. by rewrite Z.add_0_r.
  - apply owp_bind. eapply owp_mono; [|apply Hbody; [lia|done]]. intros x' HI. cbn.
    eapply owp_mono; [|apply IH; [done|]].
    + intros y. by replace (start + Z.of_nat (S n)) with (start + 1 + Z.of_nat n) by lia.
    + intros i y Hi. apply Hbody. lia.
Qed.

Lemma owp_for_each {X Y} (body : Y -> X -> outcome X) (I : list Y -> X -> Prop) items x :
  I items x ->
  (forall y rest x, I (y :: rest) x -> owp (body y x) (I rest)) ->
  owp (ofor_each body items x) (I []).
Proof.
  revert x. induction items as [|y items IH]; intros x H0 Hbody; cbn [ofor_each]; [done|].
  apply owp_bind. eapply owp_mono; [|by apply Hbody]. intros x' HI. by apply IH.
Qed.

Lemma wp_try_reserve msg (Q : unit -> World -> Prop) w :
  Q tt (snd (look w)) -> wp (try_reserve msg) Q w.
Proof. intros H. unfold wp, try_reserve, look in *. cbn in *. by destruct (obs_alloc _). Qed.

(** [step] applies the structural rule for the head of the program. *)
Ltac step :=
  lazymatch goal with
  | |- wp (_ ≫= _) _ _ => apply wp_bind
  | |- wp (mret _) _ _ => apply wp_ret
  | |- wp (lift _) _ _ => apply wp_lift
  | |- wp get _ _ => apply wp_get
  | |- wp (put _) _ _ => apply wp_put
  | |- wp (throw _) _ _ => apply wp_throw
  | |- wp (ensure_not _ _) _ _ => apply wp_ensure_not; intros ?
  | |- wp (zoom _ _ _) _ _ => apply wp_zoom
  | |- wp (try_reserve _) _ _ => apply wp_try_reserve
  | |- wp (if true then _ else _) _ _ => cbv iota
  | |- wp (if false then _ else _) _ _ => cbv iota
  | |- wp (if ?c then _ else _) _ _ => destruct c eqn:?
  | |- wp (match ?o with _ => _ end) _ _ => destruct o eqn:?
  | |- wp (let '(_, _) := ?p in _) _ _ => destruct p eqn:?
  | |- owp (_ ≫= _) _ => apply owp_bind
  | |- owp (mret _) _ => cbn [owp mret outcome_ret]
  | |- owp (Ok _) _ => cbn [owp]
  | |- owp (Err _) _ => exact I
  | |- owp (ok_or _ _) _ => apply owp_ok_or; intros ? ?
  | |- owp (fail_if _ _) _ => apply owp_fail_if; intros ?
  | |- owp (if ?c then _ else _) _ => destruct c eqn:?
  | |- owp (match ?o with _ => _ end) _ => destruct o eqn:?
  end.

(** [unfold_monad] exposes the state passing, for proofs about exact results. *)
Ltac unfold_monad :=
  unfold mbind, mret, M_bind, M_ret, outcome_mbind, outcome_ret, outcome_bind,
    lift, get, put, throw, ensure_not, zoom, fail_if in *.

(** ** Arithmetic that panics on overflow ([overflow-checks] are on) *)

Definition usize_add (a b : Z) : outcome Z := or_panic (checked_add USIZE_MAX a b).
Definition usize_mul (a b : Z) : outcome Z := or_panic (checked_mul USIZE_MAX a b).
Definition usize_sub (a b : Z) : outcome Z := if b <=? a then Ok (a - b) else Panic.
(** [slice[i]] and [&slice[a..b]] *)
Definition index_at {A} (l : list A) (i : Z) : outcome A := or_panic (get_at l i).
Definition index_range {A} (l : list A) (a b : Z) : outcome (list A) := or_panic (get_range l a b).

Lemma owp_usize_add a b (Q : Z -> Prop) :
  a + b <= USIZE_MAX -> Q (a + b) -> owp (usize_add a b) Q.
Proof. intros H HQ. apply (owp_or_panic _ (a + b)); [by apply checked_add_Some|done]. Qed.

Lemma owp_usize_mul a b (Q : Z -> Prop) :
  a * b <= USIZE_MAX -> Q (a * b) -> owp (usize_mul a b) Q.
Proof. intros H HQ. apply (owp_or_panic _ (a * b)); [by apply checked_mul_Some|done]. Qed.

Lemma owp_usize_sub a b (Q : Z -> Prop) : b <= a -> Q (a - b) -> owp (usize_sub a b) Q.
Proof. intros H HQ. unfold usize_sub. by rewrite (proj2 (Z.leb_le b a)). Qed.

Lemma owp_index_at {A} (l : list A) i (Q : A -> Prop) :
  0 <= i < len l -> (forall x, get_at l i = Some x -> Q x) -> owp (index_at l i) Q.
Proof.
  intros H HQ. destruct (get_at_is_Some l i H) as [x Hx]. unfold index_at. rewrite Hx. by apply HQ.
Qed.

Lemma owp_index_range {A} (l : list A) a b (Q : list A -> Prop) :
  0 <= a <= b -> b <= len l -> (forall x, get_range l a b = Some x -> Q x) ->
  owp (index_range l a b) Q.
Proof.
  intros H Hl HQ. destruct (get_range_is_Some l a b H Hl) as [x Hx].
  unfold index_range. rewrite Hx. by apply HQ.
Qed.

(** ** Panics under a condition

    [wpp P m Q s] is [wp m Q s] except that [m] may panic, and does so only
    when [P] holds. *)

Definition wpp {S A} (P : Prop) (m : M S A) (Q : A -> S -> Prop) (s : S) : Prop :=
  match m s with (Ok a, s') => Q a s' | (Err _, _) => True | (Panic, _) => P end.

Section PanicRules.
Context {S : Type} (P : Prop).
Implicit Types (s : S).

Lemma wpp_of_wp {A} (m : M S A) Q s : wp m Q s -> wpp P m Q s.
Proof. unfold wp, wpp. by destruct (m s) as [[a|e|] s']. Qed.

Lemma wpp_ret {A} (a : A) Q s : Q a s -> wpp P (mret a) Q s.
Proof. done. Qed.

Lemma wpp_bind {A B} (m : M S A) (f : A -> M S B) Q s :
  wpp P m (fun a => wpp P (f a) Q) s -> wpp P (m ≫= f) Q s.
Proof. unfold wpp, mbind, M_bind. by destruct (m s) as [[a|e|] s']. Qed.

Lemma wpp_mono {A} (m : M S A) (R Q : A -> S -> Prop) s :
  wpp P m R s -> (forall a s', R a s' -> Q a s') -> wpp P m Q s.
Proof. unfold wpp. destruct (m s) as [[a|e|] s']; auto. Qed.

Lemma wpp_weaken {A} (P' : Prop) (m : M S A) Q s : wpp P' m Q s -> (P' -> P) -> wpp P m Q s.
Proof. unfold wpp. destruct (m s) as [[a|e|] s']; auto. Qed.

Lemma wpp_zoom {T A} (proj : S -> T) upd (m : M T A) Q s :
  wpp P m (fun a t => Q a (upd t s)) (proj s) -> wpp P (zoom proj upd m) Q s.
Proof. unfold wpp, zoom. by destruct (m (proj s)) as [[a|e|] t]. Qed.

Lemma wpp_usize_add a b (Q : Z -> S -> Prop) s :
  (a + b <= USIZE_MAX -> Q (a + b) s) -> (USIZE_MAX < a + b -> P) ->
  wpp P (lift (usize_add a b)) Q s.
Proof.
  intros HQ HP. unfold wpp, lift, usize_add, checked_add, or_panic.
  destruct (Z.leb_spec (a + b) USIZE_MAX); auto.
Qed.

Lemma wpp_for_range {X} (body : Z -> X -> M S X) (I : Z -> X -> S -> Prop) n start x s :
  I start x s ->
  (forall i x s, start <= i < start + Z.of_nat n -> I i x s ->
     wpp P (body i x) (fun x' s' => I (i + 1) x' s') s) ->
  wpp P (for_range body start n x) (fun x' s' => I (start + Z.of_nat n) x' s') s.
Proof.
  revert start x s. induction n as [|n IH]; intros start x s H0 Hbody; cbn [for_range].
  - apply wpp_ret. by rewrite Z.add_0_r.
  - apply wpp_bind. eapply wpp_mono; [apply Hbody; [lia|done]|]. intros x' s' HI.
    eapply wpp_mono; [apply IH; [done|]|].
    + intros i y t Hi. apply Hbody. lia.
    + intros y t. by replace (start + Z.of_nat (Datatypes.S n)) with (start + 1 + Z.of_nat n) by lia.
Qed.

Lemma wpp_for_each {X Y} (body : Y -> X -> M S X) (I : list Y -> X -> S -> Prop) items x s :
  I items x s ->
  (forall y rest x s, I (y :: rest) x s -> wpp P (body y x) (fun x' s' => I rest x' s') s) ->
  wpp P (for_each body items x) (fun x' s' => I [] x' s') s.
Proof.
  revert x s. induction items as [|y items IH]; intros x s H0 Hbody; cbn [for_each].
  - by apply wpp_ret.
  - apply wpp_bind. eapply wpp_mono; [by apply Hbody|]. intros x' s' HI. by apply IH.
Qed.
End PanicRules.

(** ** Successful runs: [runs m Q s] says that [m] returns a value satisfying [Q]. *)

Definition oruns {A} (m : outcome A) (Q : A -> Prop) : Prop :=
  match m with Ok a => Q a | _ => False end.
Definition runs {S A} (m : M S A) (Q : A -> S -> Prop) (s : S) : Prop :=
  match m s with (Ok a, s') => Q a s' | _ => False end.

Section Runs.
Context {S : Type}.
Implicit Types (s : S).

Lemma oruns_bind {A B} (m : outcome A) (f : A -> outcome B) Q :
  oruns m (fun a => oruns (f a) Q) -> oruns (m ≫= f) Q.
Proof. by destruct m. Qed.

Lemma oruns_Ok {A} (m : outcome A) (a : A) (Q : A -> Prop) : m = Ok a -> Q a -> oruns m Q.
Proof. by intros ->. Qed.

Lemma oruns_mono {A} (m : outcome A) (P Q : A -> Prop) : oruns m P -> (forall a, P a -> Q a) -> oruns m Q.
Proof. destruct m; cbn; auto. Qed.

Lemma oruns_ok_or {A} (o : option A) e a Q : o = Some a -> Q a -> oruns (ok_or o e) Q.
Proof. by intros ->. Qed.

Lemma oruns_or_panic {A} (o : option A) a Q : o = Some a -> Q a -> oruns (or_panic o) Q.
Proof. by intros ->. Qed.

Lemma oruns_fail_if c e Q : c = false -> Q tt -> oruns (fail_if c e) Q.
Proof. by intros ->. Qed.

Lemma runs_ret {A} (a : A) Q s : Q a s -> runs (mret a) Q s.
Proof. done. Qed.

Lemma runs_bind {A B} (m : M S A) (f : A -> M S B) Q s :
  runs m (fun a => runs (f a) Q) s -> runs (m ≫= f) Q s.
Proof. unfold runs, mbind, M_bind. by destruct (m s) as [[a|e|] s']. Qed.

Lemma runs_mono {A} (m : M S A) (P Q : A -> S -> Prop) s :
  runs m P s -> (forall a s', P a s' -> Q a s') -> runs m Q s.
Proof. unfold runs. destruct (m s) as [[a|e|] s']; auto. Qed.

Lemma runs_lift {A} (o : outcome A) Q s : oruns o (fun a => Q a s) -> runs (lift o) Q s.
Proof. by destruct o. Qed.

Lemma runs_get (Q : S -> S -> Prop) s : Q s s -> runs get Q s.
Proof. done. Qed.

Lemma runs_put (Q : unit -> S -> Prop) s s' : Q tt s' -> runs (put s') Q s.
Proof. done. Qed.

Lemma runs_ensure_not c e Q s : c = false -> Q tt s -> runs (ensure_not c e) Q s.
Proof. by intros ->. Qed.

Lemma runs_zoom {T A} (proj : S -> T) upd (m : M T A) Q s :
  runs m (fun a t => Q a (upd t s)) (proj s) -> runs (zoom proj upd m) Q s.
Proof. unfold runs, zoom. by destruct (m (proj s)) as [[a|e|] t]. Qed.

Lemma runs_eq {A} (m : M S A) a s s' :
  runs m (fun a' t => a' = a /\ t = s') s <-> m s = (Ok a, s').
Proof.
  unfold runs. destruct (m s) as [[x|e|] t]; [|done|done].
  split; [by intros [-> ->]|by intros [= -> ->]].
Qed.

Lemma runs_for_range {X} (body : Z -> X -> M S X) (I : Z -> X -> S -> Prop) n start x s :
  I start x s ->
  (forall i x s, start <= i < start + Z.of_nat n -> I i x s ->
     runs (body i x) (fun x' s' => I (i + 1) x' s') s) ->
  runs (for_range body start n x) (fun x' s' => I (start + Z.of_nat n) x' s') s.
Proof.
  revert start x s. induction n as [|n IH]; intros start x s H0 Hbody; cbn [for_range].
  - apply runs_ret. by rewrite Z.add_0_r.
  - apply runs_bind. eapply runs_mono; [apply Hbody; [lia|done]|]. intros x' s' HI.
    eapply runs_mono; [apply IH; [done|]|].
    + intros i y t Hi. apply Hbody. lia.
    + intros y t. by replace (start + Z.of_nat (Datatypes.S n)) with (start + 1 + Z.of_nat n) by lia.
Qed.
End Runs.

(** [run] applies the structural rule for the head of a successful run. *)
Ltac run :=
  lazymatch goal with
  | |- runs (_ ≫= _) _ _ => apply runs_bind
  | |- runs (mret _) _ _ => apply runs_ret
  | |- runs (lift _) _ _ => apply runs_lift
  | |- runs get _ _ => apply runs_get
  | |- runs (put _) _ _ => apply runs_put
  | |- runs (ensure_not _ _) _ _ => apply runs_ensure_not
  | |- runs (zoom _ _ _) _ _ => apply runs_zoom
  | |- oruns (_ ≫= _) _ => apply oruns_bind
  | |- oruns (mret _) _ => cbn [oruns mret outcome_ret]
  | |- oruns (Ok _) _ => cbn [oruns]
  | |- oruns (fail_if _ _) _ => apply oruns_fail_if
  | |- oruns (ok_or _ _) _ => eapply oruns_ok_or
  | |- oruns (or_panic _) _ => eapply oruns_or_panic
  end.
