(* ===== verification/Atomic.v ===== *)
(** * Postconditions for errors

    [wpe m Q E s]: running [m] from [s] does not panic, a value satisfies [Q]
    and an error leaves a state that satisfies [E].  Atomicity, "an error
    changes nothing", is a statement of this form. *)

From S2P Require Import Prelude Bytes Error Machine.

Definition wpe {S A} (m : M S A) (Q : A -> S -> Prop) (E : S -> Prop) (s : S) : Prop :=
  match m s with (Ok a, s') => Q a s' | (Err _, s') => E s' | (Panic, _) => False end.

Section Rules.
Context {S : Type}.
Implicit Types (s : S) (E : S -> Prop).

Lemma wp_of_wpe {A} (m : M S A) Q E s : wpe m Q E s -> wp m Q s.
Proof. unfold wpe, wp. by destruct (m s) as [[a|e|] s']. Qed.

Lemma wpe_of_wp {A} (m : M S A) Q s : wp m Q s -> wpe m Q (fun _ => True) s.
Proof. unfold wpe, wp. by destruct (m s) as [[a|e|] s']. Qed.

Lemma wpe_ret {A} (a : A) Q E s : Q a s -> wpe (mret a) Q E s.
Proof. done. Qed.

Lemma wpe_bind {A B} (m : M S A) (f : A -> M S B) Q E s :
  wpe m (fun a s' => wpe (f a) Q E s') E s -> wpe (m ≫= f) Q E s.
Proof. unfold wpe, mbind, M_bind. by destruct (m s) as [[a|e|] s']. Qed.

Lemma wpe_mono {A} (m : M S A) (P Q : A -> S -> Prop) (F E : S -> Prop) s :
  wpe m P F s -> (forall a s', P a s' -> Q a s') -> (forall s', F s' -> E s') -> wpe m Q E s.
Proof. unfold wpe. destruct (m s) as [[a|e|] s']; auto. Qed.

Lemma wpe_lift {A} (o : outcome A) Q E s : E s -> owp o (fun a => Q a s) -> wpe (lift o) Q E s.
Proof. by destruct o. Qed.

Lemma wpe_get (Q : S -> S -> Prop) E s : Q s s -> wpe get Q E s.
Proof. done. Qed.

Lemma wpe_put (Q : unit -> S -> Prop) E s s' : Q tt s' -> wpe (put s') Q E s.
Proof. done. Qed.

Lemma wpe_ensure_not c e Q E s : E s -> (c = false -> Q tt s) -> wpe (ensure_not c e) Q E s.
Proof. destruct c; cbn; auto. Qed.

Lemma wpe_zoom {T A} (proj : S -> T) upd (m : M T A) Q E s :
  wpe m (fun a t => Q a (upd t s)) (fun t => E (upd t s)) (proj s) -> wpe (zoom proj upd m) Q E s.
Proof. unfold wpe, zoom. by destruct (m (proj s)) as [[a|e|] t]. Qed.

Lemma wpe_Ok {A} (m : M S A) Q E s a s' : wpe m Q E s -> m s = (Ok a, s') -> Q a s'.
Proof. unfold wpe. intros H E0. by rewrite E0 in H. Qed.

Lemma wpe_Err {A} (m : M S A) Q E s e s' : wpe m Q E s -> m s = (Err e, s') -> E s'.
Proof. unfold wpe. intros H E0. by rewrite E0 in H. Qed.

Lemma wpe_no_panic {A} (m : M S A) Q E s : wpe m Q E s -> fst (m s) <> Panic.
Proof. unfold wpe. by destruct (m s) as [[a|e|] s']. Qed.
End Rules.

Lemma wpe_try_reserve msg (Q : unit -> World -> Prop) E w :
  Q tt (snd (look w)) -> E (snd (look w)) -> wpe (try_reserve msg) Q E w.
Proof. unfold wpe, try_reserve, look. cbn. by destruct (obs_alloc _). Qed.

(** [estep] applies the structural rule for the head of the program. *)
Ltac estep :=
  lazymatch goal with
  | |- wpe (_ ≫= _) _ _ _ => apply wpe_bind
  | |- wpe (mret _) _ _ _ => apply wpe_ret
  | |- wpe (lift _) _ _ _ => apply wpe_lift
  | |- wpe get _ _ _ => apply wpe_get
  | |- wpe (put _) _ _ _ => apply wpe_put
  | |- wpe (ensure_not _ _) _ _ _ => apply wpe_ensure_not; [|intros ?]
  | |- wpe (zoom _ _ _) _ _ _ => apply wpe_zoom
  | |- wpe (if true then _ else _) _ _ _ => cbv iota
  | |- wpe (if false then _ else _) _ _ _ => cbv iota
  | |- wpe (if ?c then _ else _) _ _ _ => destruct c eqn:?
  | |- _ => step
  end.

(** ** Which errors

    [wpx m Q E s] is [wpe] with a postcondition that sees the error, and
    [fails_with P m] says that every error of [m] satisfies [P]. *)

Definition wpx {S A} (m : M S A) (Q : A -> S -> Prop) (E : NativeError -> S -> Prop) (s : S) : Prop :=
  match m s with (Ok a, s') => Q a s' | (Err e, s') => E e s' | (Panic, _) => False end.

Definition ofails_with {A} (P : NativeError -> Prop) (m : outcome A) : Prop :=
  match m with Err e => P e | _ => True end.
Definition fails_with {S A} (P : NativeError -> Prop) (m : M S A) : Prop := forall s, ofails_with P (fst (m s)).

Section ErrorRules.
Context {S : Type}.
Implicit Types (s : S) (E : NativeError -> S -> Prop).

Lemma wpx_ret {A} (a : A) Q E s : Q a s -> wpx (mret a) Q E s.
Proof. done. Qed.

Lemma wpx_bind {A B} (m : M S A) (f : A -> M S B) Q E s :
  wpx m (fun a s' => wpx (f a) Q E s') E s -> wpx (m ≫= f) Q E s.
Proof. unfold wpx, mbind, M_bind. by destruct (m s) as [[a|e|] s']. Qed.

Lemma wpx_mono {A} (m : M S A) (P Q : A -> S -> Prop) F E s :
  wpx m P F s -> (forall a s', P a s' -> Q a s') -> (forall e s', F e s' -> E e s') -> wpx m Q E s.
Proof. unfold wpx. destruct (m s) as [[a|e|] s']; auto. Qed.

Lemma wpx_lift {A} (o : outcome A) Q E s :
  match o with Ok a => Q a s | Err e => E e s | Panic => False end -> wpx (lift o) Q E s.
Proof. done. Qed.

Lemma wpx_get (Q : S -> S -> Prop) E s : Q s s -> wpx get Q E s.
Proof. done. Qed.

Lemma wpx_put (Q : unit -> S -> Prop) E s s' : Q tt s' -> wpx (put s') Q E s.
Proof. done. Qed.

Lemma wpx_throw {A} e (Q : A -> S -> Prop) E s : E e s -> wpx (throw e) Q E s.
Proof. done. Qed.

Lemma wpx_ensure_not c e Q E s : (c = true -> E e s) -> (c = false -> Q tt s) -> wpx (ensure_not c e) Q E s.
Proof. destruct c; cbn; auto. Qed.

Lemma wpx_zoom {T A} (proj : S -> T) upd (m : M T A) Q E s :
  wpx m (fun a t => Q a (upd t s)) (fun e t => E e (upd t s)) (proj s) -> wpx (zoom proj upd m) Q E s.
Proof. unfold wpx, zoom. by destruct (m (proj s)) as [[a|e|] t]. Qed.

Lemma wp_of_wpx {A} (m : M S A) Q E s : wpx m Q E s -> wp m Q s.
Proof. unfold wpx, wp. by destruct (m s) as [[a|e|] s']. Qed.

(** A computation of which the errors and the successes are known apart. *)
Lemma wpx_of_wpe {A} (P : NativeError -> Prop) (m : M S A) Q (F : S -> Prop) E s :
  wpe m Q F s -> fails_with P m -> (forall e s', P e -> F s' -> E e s') -> wpx m Q E s.
Proof.
  unfold wpe, wpx, fails_with, ofails_with. intros Hm Hf HE. specialize (Hf s).
  destruct (m s) as [[a|e|] s']; auto.
Qed.

Lemma wpx_for_each {X Y} (body : Y -> X -> M S X) (I : list Y -> X -> S -> Prop) E items x s :
  I items x s ->
  (forall y rest x s, I (y :: rest) x s -> wpx (body y x) (fun x' s' => I rest x' s') E s) ->
  wpx (for_each body items x) (fun x' s' => I [] x' s') E s.
Proof.
  revert x s. induction items as [|y items IH]; intros x s H0 Hbody; cbn [for_each].
  - by apply wpx_ret.
  - apply wpx_bind. eapply wpx_mono; [by apply Hbody| |done]. intros x' s' HI. by apply IH.
Qed.

Lemma fails_bind {A B} P (m : M S A) (f : A -> M S B) :
  fails_with P m -> (forall a, fails_with P (f a)) -> fails_with P (m ≫= f).
Proof.
  intros Hm Hf s. specialize (Hm s). unfold mbind, M_bind. destruct (m s) as [[a|e|] s']; [apply Hf|done|done].
Qed.

Lemma fails_ret {A} P (a : A) : fails_with P (mret a : M S A).
Proof. done. Qed.
Lemma fails_get P : fails_with P (get : M S S).
Proof. done. Qed.
Lemma fails_put P s : fails_with P (put s : M S unit).
Proof. done. Qed.
Lemma fails_lift {A} P (o : outcome A) : ofails_with P o -> fails_with P (lift o : M S A).
Proof. by intros H s. Qed.
Lemma fails_throw {A} (P : NativeError -> Prop) e : P e -> fails_with P (throw e : M S A).
Proof. by intros H s. Qed.
Lemma fails_ensure_not (P : NativeError -> Prop) c e : P e -> fails_with P (ensure_not c e : M S unit).
Proof. intros H s. by destruct c. Qed.
Lemma fails_zoom {T A} P (proj : S -> T) upd (m : M T A) : fails_with P m -> fails_with P (zoom proj upd m).
Proof. intros H s. unfold zoom. specialize (H (proj s)). by destruct (m (proj s)) as [r t]. Qed.
End ErrorRules.

Lemma ofails_ok_or {A} (P : NativeError -> Prop) (o : option A) e : P e -> ofails_with P (ok_or o e).
Proof. by destruct o. Qed.

Lemma fails_try_reserve (P : NativeError -> Prop) msg : P (limit msg) -> fails_with P (try_reserve msg).
Proof. intros H w. unfold try_reserve. destruct (look w) as [o w']. by destruct (obs_alloc o). Qed.

Lemma ofails_bind {A B} P (m : outcome A) (f : A -> outcome B) :
  ofails_with P m -> (forall a, ofails_with P (f a)) -> ofails_with P (m ≫= f).
Proof. intros Hm Hf. destruct m; [apply Hf|done|done]. Qed.
Lemma ofails_fail_if (P : NativeError -> Prop) c e : P e -> ofails_with P (fail_if c e).
Proof. by destruct c. Qed.
Lemma fails_for_range {S X} P (body : Z -> X -> M S X) n :
  (forall i x, fails_with P (body i x)) -> forall start x, fails_with P (for_range body start n x).
Proof. intros Hb. induction n as [|n IH]; intros start x; [by intros s|]. cbn [for_range]. apply fails_bind; auto. Qed.

Lemma fails_for_each {S X Y} P (body : Y -> X -> M S X) items x :
  (forall y x, fails_with P (body y x)) -> fails_with P (for_each body items x).
Proof.
  intros H. revert x. induction items as [|y items IH]; intros x; cbn [for_each]; [apply fails_ret|].
  by apply fails_bind.
Qed.

Lemma ofails_for_each {X Y} P (body : Y -> X -> outcome X) items x :
  (forall y x, ofails_with P (body y x)) -> ofails_with P (ofor_each body items x).
Proof.
  intros H. revert x. induction items as [|y items IH]; intros x; cbn [ofor_each]; [done|].
  specialize (H y x). unfold mbind, outcome_mbind. destruct (body y x); cbn [outcome_bind]; [apply IH|done|done].
Qed.

(** [xstep] is [estep] for [wpx]; [fstep] walks through a program whose errors
    are all of one kind. *)
Ltac xstep :=
  lazymatch goal with
  | |- wpx (_ ≫= _) _ _ _ => apply wpx_bind
  | |- wpx (mret _) _ _ _ => apply wpx_ret
  | |- wpx (lift _) _ _ _ => apply wpx_lift
  | |- wpx get _ _ _ => apply wpx_get
  | |- wpx (put _) _ _ _ => apply wpx_put
  | |- wpx (throw _) _ _ _ => apply wpx_throw
  | |- wpx (ensure_not _ _) _ _ _ => apply wpx_ensure_not; intros ?
  | |- wpx (zoom _ _ _) _ _ _ => apply wpx_zoom
  | |- wpx (if ?c then _ else _) _ _ _ => destruct c eqn:?
  | |- wpx (match ?o with _ => _ end) _ _ _ => destruct o eqn:?
  end.

Ltac fstep :=
  lazymatch goal with
  | |- fails_with _ (_ ≫= _) => apply fails_bind; [|intros ?]
  | |- fails_with _ (mret _) => apply fails_ret
  | |- fails_with _ get => apply fails_get
  | |- fails_with _ (put _) => apply fails_put
  | |- fails_with _ (lift (ok_or _ _)) => apply fails_lift, ofails_ok_or
  | |- fails_with _ (throw _) => apply fails_throw
  | |- fails_with _ (ensure_not _ _) => apply fails_ensure_not
  | |- fails_with _ (zoom _ _ _) => apply fails_zoom
  | |- fails_with _ (try_reserve _) => apply fails_try_reserve
  | |- fails_with _ (if ?c then _ else _) => destruct c
  | |- fails_with _ (match ?o with _ => _ end) => destruct o
  end.
