(* ===== verification/Limits.v ===== *)
(** * Checked resource configuration ([native/src/limits.rs])

    [LimitKey], the 37-entry [Limits] ledger decoded from the [PYNCONF]
    configuration, the size checks, and the monotonic [MemoryBudget]. *)

From S2P Require Import Prelude Bytes Error Machine.

(** [#[repr(usize)] enum LimitKey] *)
Inductive LimitKey :=
  | MaxSourceBytes | MaxDocuments | MaxTotalSourceBytes | MaxAxioms | MaxTerms
  | MaxNestingDepth | MaxRdfListLength | MaxLiteralBytes | MaxIriBytes | MaxPrefixes
  | MaxImportDepth | MaxRedirects | MaxDiagnostics | MaxMemoryBytes | DeadlineNanoseconds
  | MaxTriples | MaxStrings | MaxAnnotations | MaxRuleAtoms | MaxSequenceArity
  | MaxCatalogRewrites | MaxResolverAttempts | MaxConcurrentFetches | MaxSourceMapEntries
  | MaxOriginEntries | MaxOverlayDepth | MaxDeltaEntries | MaxCompositeMembers
  | MaxIndexRows | MaxIndexBytes | MaxWireRows | MaxWireBytes | MaxTemporaryBytes
  | MaxDiskCacheBytes | MaxDecompressedBytes | MaxCanonicalWork | CancellationCheckInterval.

(** [key as usize] *)
Definition LimitKey_index (key : LimitKey) : Z :=
  match key with
  | MaxSourceBytes => 0 | MaxDocuments => 1 | MaxTotalSourceBytes => 2 | MaxAxioms => 3
  | MaxTerms => 4 | MaxNestingDepth => 5 | MaxRdfListLength => 6 | MaxLiteralBytes => 7
  | MaxIriBytes => 8 | MaxPrefixes => 9 | MaxImportDepth => 10 | MaxRedirects => 11
  | MaxDiagnostics => 12 | MaxMemoryBytes => 13 | DeadlineNanoseconds => 14
  | MaxTriples => 15 | MaxStrings => 16 | MaxAnnotations => 17 | MaxRuleAtoms => 18
  | MaxSequenceArity => 19 | MaxCatalogRewrites => 20 | MaxResolverAttempts => 21
  | MaxConcurrentFetches => 22 | MaxSourceMapEntries => 23 | MaxOriginEntries => 24
  | MaxOverlayDepth => 25 | MaxDeltaEntries => 26 | MaxCompositeMembers => 27
  | MaxIndexRows => 28 | MaxIndexBytes => 29 | MaxWireRows => 30 | MaxWireBytes => 31
  | MaxTemporaryBytes => 32 | MaxDiskCacheBytes => 33 | MaxDecompressedBytes => 34
  | MaxCanonicalWork => 35 | CancellationCheckInterval => 36
  end.

(** [LimitKey::name] *)
Definition LimitKey_name (key : LimitKey) : string :=
  match key with
  | MaxSourceBytes => "max_source_bytes"
  | MaxDocuments => "max_documents"
  | MaxTotalSourceBytes => "max_total_source_bytes"
  | MaxAxioms => "max_axioms"
  | MaxTerms => "max_terms"
  | MaxNestingDepth => "max_nesting_depth"
  | MaxRdfListLength => "max_rdf_list_length"
  | MaxLiteralBytes => "max_literal_bytes"
  | MaxIriBytes => "max_iri_bytes"
  | MaxPrefixes => "max_prefixes"
  | MaxImportDepth => "max_import_depth"
  | MaxRedirects => "max_redirects"
  | MaxDiagnostics => "max_diagnostics"
  | MaxMemoryBytes => "max_memory_bytes"
  | DeadlineNanoseconds => "deadline_seconds"
  | MaxTriples => "max_triples"
  | MaxStrings => "max_strings"
  | MaxAnnotations => "max_annotations"
  | MaxRuleAtoms => "max_rule_atoms"
  | MaxSequenceArity => "max_sequence_arity"
  | MaxCatalogRewrites => "max_catalog_rewrites"
  | MaxResolverAttempts => "max_resolver_attempts"
  | MaxConcurrentFetches => "max_concurrent_fetches"
  | MaxSourceMapEntries => "max_source_map_entries"
  | MaxOriginEntries => "max_origin_entries"
  | MaxOverlayDepth => "max_overlay_depth"
  | MaxDeltaEntries => "max_delta_entries"
  | MaxCompositeMembers => "max_composite_members"
  | MaxIndexRows => "max_index_rows"
  | MaxIndexBytes => "max_index_bytes"
  | MaxWireRows => "max_wire_rows"
  | MaxWireBytes => "max_wire_bytes"
  | MaxTemporaryBytes => "max_temporary_bytes"
  | MaxDiskCacheBytes => "max_disk_cache_bytes"
  | MaxDecompressedBytes => "max_decompressed_bytes"
  | MaxCanonicalWork => "max_canonical_work"
  | CancellationCheckInterval => "cancellation_check_interval"
  end.

Definition CONFIG_MAGIC : bytes := str "PYNCONF" ++ [0].
Definition CONFIG_SCHEMA : Z := 1.
Definition CONFIG_BYTES : Z := 312.
Definition LIMIT_COUNT : nat := 37.
Definition VERIFY_FILE_DIGEST : Z := 1.

Record Limits := mkLimits {
  values : list Z;                       (* [u64; LIMIT_COUNT] *)
  max_source_bytes : Z;
  max_total_source_bytes : Z;
  max_wire_bytes : Z;
  max_wire_rows : Z;
  max_memory_bytes : option Z;
  max_terms : Z;
  max_literal_bytes : Z;
  max_iri_bytes : Z;
  max_strings : Z;
  max_rule_atoms : Z;
  max_sequence_arity : Z;
  max_documents : Z;
  max_axioms : Z;
  max_annotations : Z;
  max_source_map_entries : Z;
  max_origin_entries : Z;
  max_composite_members : Z;
  max_nesting_depth : Z;                 (* u32 *)
  max_canonical_work : Z;
  cancellation_stride : Z;               (* u32 *)
  deadline : option Z;                   (* Duration, nanoseconds *)
  verify_file_digest : bool
}.

(** [values[key as usize]] *)
Definition ledger (values : list Z) (key : LimitKey) : Z :=
  values !!! Z.to_nat (LimitKey_index key).

(** [(x != 0).then_some(x)] *)
Definition nonzero (x : Z) : option Z := if x =? 0 then None else Some x.

(** [Limits::from_values] *)
Definition from_values (values : list Z) (flags : Z) : Limits :=
  let value := ledger values in
  {| values := values;
     max_source_bytes := value MaxSourceBytes;
     max_total_source_bytes := value MaxTotalSourceBytes;
     max_wire_bytes := value MaxWireBytes;
     max_wire_rows := value MaxWireRows;
     max_memory_bytes := nonzero (value MaxMemoryBytes);
     max_terms := value MaxTerms;
     max_literal_bytes := value MaxLiteralBytes;
     max_iri_bytes := value MaxIriBytes;
     max_strings := value MaxStrings;
     max_rule_atoms := value MaxRuleAtoms;
     max_sequence_arity := value MaxSequenceArity;
     max_documents := value MaxDocuments;
     max_axioms := value MaxAxioms;
     max_annotations := value MaxAnnotations;
     max_source_map_entries := value MaxSourceMapEntries;
     max_origin_entries := value MaxOriginEntries;
     max_composite_members := value MaxCompositeMembers;
     max_nesting_depth := Z.min (value MaxNestingDepth) U32_MAX;
     max_canonical_work := value MaxCanonicalWork;
     cancellation_stride := Z.min (value CancellationCheckInterval) U32_MAX;
     deadline := nonzero (value DeadlineNanoseconds);
     verify_file_digest := negb (Z.land flags VERIFY_FILE_DIGEST =? 0) |}.

(** [impl Default for Limits] *)
Definition default_values : list Z :=
  [ 2 * 1024 * 1024 * 1024; 1000; 8 * 1024 * 1024 * 1024; 100000000; 500000000; 512;
    10000000; 64 * 1024 * 1024; 1024 * 1024; 1000000; 128; 5; 10000; 0; 0; 100000000;
    500000000; 100000000; 10000000; 10000000; 128; 10000; 8; 100000000; 100000000; 32;
    10000000; 1024; 500000000; 16 * 1024 * 1024 * 1024; 500000000;
    16 * 1024 * 1024 * 1024; 16 * 1024 * 1024 * 1024; 64 * 1024 * 1024 * 1024;
    8 * 1024 * 1024 * 1024; 1000000000; 4096 ].
Definition Limits_default : Limits := from_values default_values VERIFY_FILE_DIGEST.

(** [Limits::value] *)
Definition value (limits : Limits) (key : LimitKey) : Z :=
  match key with
  | MaxSourceBytes => max_source_bytes limits
  | MaxDocuments => max_documents limits
  | MaxTotalSourceBytes => max_total_source_bytes limits
  | MaxAxioms => max_axioms limits
  | MaxTerms => max_terms limits
  | MaxNestingDepth => max_nesting_depth limits
  | MaxLiteralBytes => max_literal_bytes limits
  | MaxIriBytes => max_iri_bytes limits
  | MaxMemoryBytes => default 0 (max_memory_bytes limits)
  | MaxStrings => max_strings limits
  | MaxAnnotations => max_annotations limits
  | MaxRuleAtoms => max_rule_atoms limits
  | MaxSequenceArity => max_sequence_arity limits
  | MaxSourceMapEntries => max_source_map_entries limits
  | MaxOriginEntries => max_origin_entries limits
  | MaxCompositeMembers => max_composite_members limits
  | MaxWireRows => max_wire_rows limits
  | MaxWireBytes => max_wire_bytes limits
  | MaxCanonicalWork => max_canonical_work limits
  | CancellationCheckInterval => cancellation_stride limits
  | key => ledger (values limits) key
  end.

(** [Limits::resource_limit] *)
Definition Limits_resource_limit (limits : Limits) (key : LimitKey) (observed : Z)
    (message : string) : NativeError :=
  resource_limit (LimitKey_name key) (Integer observed) (Integer (value limits key)) message.

(** [option.is_some_and(|maximum| value > maximum)] *)
Definition exceeds (maximum : option Z) (value : Z) : bool :=
  match maximum with Some maximum => maximum <? value | None => false end.

(** The error of a crossed [max_memory_bytes]; a limit that vanished between
    the test and the report would be a protocol error. *)
Definition memory_limit_error (maximum : option Z) (observed : Z) (message : string)
    : NativeError :=
  match maximum with
  | Some maximum =>
      resource_limit "max_memory_bytes" (Integer observed) (Integer maximum) message
  | None => protocol "native memory limit disappeared"
  end.

(** [read_u16], [read_u32], [read_u64]: [offset + n] overflows (and panics,
    overflow checks are on in every profile) before the range is tested. *)
Definition read_word (n : nat) (data : bytes) (offset : Z) : outcome Z :=
  stop ← or_panic (checked_add USIZE_MAX offset (Z.of_nat n));
  word ← ok_or (get_range data offset stop) (protocol "truncated native limits configuration");
  mret (from_le_bytes word).
Definition read_u16 := read_word 2.
Definition read_u32 := read_word 4.
Definition read_u64 := read_word 8.

(** The body of the ledger loop of [Limits::decode]. *)
Definition decode_value (data : bytes) (index : Z) (values : list Z) : outcome (list Z) :=
  value ← read_u64 data (16 + index * 8);
  fail_if (negb ((index =? 13) || (index =? 14)) && (value =? 0))
    (protocol "native limits must be positive");;
  mret (values ++ [value]).

(** [Limits::decode] *)
Definition decode (data : bytes) : outcome Limits :=
  if len data =? 0 then mret Limits_default else
  fail_if (negb (len data =? CONFIG_BYTES) ||
           negb (bool_decide (get_range data 0 8 = Some CONFIG_MAGIC)))
    (protocol "invalid native limits framing");;
  schema ← read_u16 data 8;
  flags ← read_u16 data 10;
  reserved ← read_u32 data 12;
  fail_if (negb (schema =? CONFIG_SCHEMA) || negb (reserved =? 0) ||
           negb (Z.land flags (U16_MAX - VERIFY_FILE_DIGEST) =? 0))
    (protocol "unsupported native limits configuration");;
  values ← ofor_range (decode_value data) 0 LIMIT_COUNT [];
  mret (from_values values flags).

(** [Limits::check_source_size] *)
Definition check_source_size (limits : Limits) (size : Z) : outcome unit :=
  size ← ok_or (try_from U64_MAX size) (limit "native input length exceeds u64");
  fail_if (max_wire_bytes limits <? size)
    (Limits_resource_limit limits MaxWireBytes size "native input exceeds max_wire_bytes");;
  fail_if (exceeds (max_memory_bytes limits) size)
    (memory_limit_error (max_memory_bytes limits) size "native input exceeds max_memory_bytes").

(** [Limits::check_output_size]: [u64::try_from(total).map_or(true, ...)]. *)
Definition check_output_size (limits : Limits) (input output : Z) : outcome unit :=
  total ← ok_or (checked_add USIZE_MAX input output)
            (limit "native memory accounting overflow");
  if match max_memory_bytes limits with
     | Some maximum =>
         match try_from U64_MAX total with Some value => maximum <? value | None => true end
     | None => false
     end
  then
    observed ← ok_or (try_from U64_MAX total) (limit "native memory accounting exceeds u64");
    Err (memory_limit_error (max_memory_bytes limits) observed
           "native operation exceeds max_memory_bytes")
  else mret tt.

#[global] Arguments exceeds : simpl never.
#[global] Arguments value : simpl never.
#[global] Arguments ledger : simpl never.

(** ** The memory budget *)

Record MemoryBudget := mkMemoryBudget { maximum : option Z; used : Z }.

(** [MemoryBudget::new] *)
Definition MemoryBudget_new (limits : Limits) (input : Z) : outcome MemoryBudget :=
  used ← ok_or (try_from U64_MAX input) (limit "native memory accounting exceeds u64");
  fail_if (exceeds (max_memory_bytes limits) used)
    (memory_limit_error (max_memory_bytes limits) used "native input exceeds max_memory_bytes");;
  mret {| maximum := max_memory_bytes limits; used := used |}.

(** [MemoryBudget::reserve::<T>]; [size_of_T] is [size_of::<T>()]. *)
Definition reserve (size_of_T count : Z) : M MemoryBudget unit :=
  bytes ← lift (ok_or (checked_mul USIZE_MAX count size_of_T)
                  (limit "native allocation accounting overflow"));
  bytes ← lift (ok_or (try_from U64_MAX bytes) (limit "native allocation exceeds u64"));
  self ← get;
  next ← lift (ok_or (checked_add U64_MAX (used self) bytes)
                 (limit "native memory accounting overflow"));
  ensure_not (exceeds (maximum self) next)
    (memory_limit_error (maximum self) next "native operation exceeds max_memory_bytes");;
  put {| maximum := maximum self; used := next |}.

(** ** The configuration format *)

(** The bytes of a ledger: magic, schema, flags, four reserved bytes, 37 words. *)
Definition encode_config (schema flags reserved : Z) (vs : list Z) : bytes :=
  CONFIG_MAGIC ++ to_le_bytes 2 schema ++ to_le_bytes 2 flags ++ to_le_bytes 4 reserved ++
  words_bytes 8 vs.

(** Every limit but the optional memory and deadline ones is positive. *)
Fixpoint positive_from (index : Z) (vs : list Z) : bool :=
  match vs with
  | [] => true
  | v :: vs => negb (negb ((index =? 13) || (index =? 14)) && (v =? 0)) && positive_from (index + 1) vs
  end.

(** [vs] with the optional [flags] is a configuration the decoder must accept. *)
Record valid_config (flags : Z) (vs : list Z) : Prop := {
  config_flags : flags = 0 \/ flags = VERIFY_FILE_DIGEST;
  config_length : length vs = LIMIT_COUNT;
  config_words : Forall is_u64 vs;
  config_positive : positive_from 0 vs = true
}.

Lemma read_word_mid n p v q :
  len p + Z.of_nat n <= USIZE_MAX -> 0 <= v < 256 ^ Z.of_nat n ->
  read_word n (p ++ to_le_bytes n v ++ q) (len p) = Ok v.
Proof.
  intros Hp Hv. unfold read_word.
  rewrite (proj2 (checked_add_Some _ _ _ _) (conj eq_refl Hp)). cbn.
  rewrite get_range_mid by (rewrite ?length_to_le_bytes; lia). cbn. by rewrite from_to_le.
Qed.

Lemma decode_value_mid pre v q start acc :
  len pre = 16 + start * 8 -> len pre + 8 <= USIZE_MAX -> is_u64 v ->
  decode_value (pre ++ to_le_bytes 8 v ++ q) start acc =
  if negb ((start =? 13) || (start =? 14)) && (v =? 0)
  then Err (protocol "native limits must be positive") else Ok (acc ++ [v]).
Proof.
  intros Hpre Hp Hv. unfold decode_value, read_u64. rewrite <- Hpre, read_word_mid.
  - cbn. by destruct (negb _ && _).
  - lia.
  - change (256 ^ Z.of_nat 8) with (2 ^ 64). ulia.
Qed.

Lemma decode_values pre vs start acc :
  0 <= start -> len pre = 16 + start * 8 -> start + len vs <= 37 ->
  Forall is_u64 vs ->
  ofor_range (decode_value (pre ++ words_bytes 8 vs)) start (length vs) acc =
  if positive_from start vs then Ok (acc ++ vs)
  else Err (protocol "native limits must be positive").
Proof.
  revert pre start acc. induction vs as [|v vs IH]; intros pre start acc H0 Hpre Hn Hvs.
  { cbn. by rewrite app_nil_r. }
  apply Forall_cons in Hvs as [Hv Hvs]. cbn [length ofor_range positive_from] in *.
  assert (words_bytes 8 (v :: vs) = to_le_bytes 8 v ++ words_bytes 8 vs) as -> by done.
  rewrite decode_value_mid by (done || ulia).
  destruct (negb _ && (v =? 0)); [done|]. cbn [negb andb mbind outcome_mbind outcome_bind].
  rewrite app_assoc, IH; try done.
  - by rewrite <- app_assoc.
  - lia.
  - rewrite length_app, length_to_le_bytes. lia.
  - lia.
Qed.

Lemma encode_config_length schema flags reserved vs :
  len (encode_config schema flags reserved vs) = 16 + 8 * len vs.
Proof.
  unfold encode_config. rewrite !length_app, !length_to_le_bytes, length_words_bytes.
  change (length CONFIG_MAGIC) with 8%nat. lia.
Qed.

(** What the decoder does with any well-framed configuration. *)
Lemma decode_encoded schema flags reserved vs :
  is_u16 schema -> is_u16 flags -> is_u32 reserved ->
  length vs = LIMIT_COUNT -> Forall is_u64 vs ->
  decode (encode_config schema flags reserved vs) =
  if negb (schema =? CONFIG_SCHEMA) || negb (reserved =? 0) ||
     negb (Z.land flags (U16_MAX - VERIFY_FILE_DIGEST) =? 0)
  then Err (protocol "unsupported native limits configuration")
  else if positive_from 0 vs then Ok (from_values vs flags)
  else Err (protocol "native limits must be positive").
Proof.
  intros Hs Hf Hr Hn Hvs. unfold decode. rewrite encode_config_length, Hn.
  change (16 + 8 * Z.of_nat LIMIT_COUNT) with CONFIG_BYTES. cbn [Z.eqb CONFIG_BYTES].
  set (data := encode_config _ _ _ _).
  assert (get_range data 0 8 = Some CONFIG_MAGIC) as ->
    by (apply (get_range_mid [] CONFIG_MAGIC); done).
  rewrite bool_decide_eq_true_2 by done.
  cbn [Pos.eqb negb orb fail_if mbind outcome_mbind outcome_bind].
  assert (read_u16 data 8 = Ok schema) as ->.
  { apply (read_word_mid 2 CONFIG_MAGIC); [done|]. change (256 ^ Z.of_nat 2) with (2 ^ 16). ulia. }
  cbn [mbind outcome_mbind outcome_bind].
  assert (read_u16 data 10 = Ok flags) as ->.
  { unfold data, encode_config. rewrite app_assoc.
    apply (read_word_mid 2 (CONFIG_MAGIC ++ to_le_bytes 2 schema)); [done|].
    change (256 ^ Z.of_nat 2) with (2 ^ 16). ulia. }
  cbn [mbind outcome_mbind outcome_bind].
  assert (read_u32 data 12 = Ok reserved) as ->.
  { unfold data, encode_config. rewrite !app_assoc, <- app_assoc.
    apply (read_word_mid 4 ((CONFIG_MAGIC ++ to_le_bytes 2 schema) ++ to_le_bytes 2 flags));
      [done|]. change (256 ^ Z.of_nat 4) with (2 ^ 32). ulia. }
  cbn [mbind outcome_mbind outcome_bind].
  destruct (_ || _ || _); [done|]. cbn [fail_if mbind outcome_mbind outcome_bind].
  assert (data = (((CONFIG_MAGIC ++ to_le_bytes 2 schema) ++ to_le_bytes 2 flags) ++
                  to_le_bytes 4 reserved) ++ words_bytes 8 vs) as ->.
  { unfold data, encode_config. by rewrite !app_assoc. }
  rewrite <- Hn, decode_values; [by destruct (positive_from 0 vs)|done|done| |done].
  rewrite Hn. done.
Qed.

(** Every 312-byte input with the right magic is such a configuration. *)
Lemma config_bytes_exist data :
  is_bytes data -> len data = CONFIG_BYTES -> get_range data 0 8 = Some CONFIG_MAGIC ->
  exists schema flags reserved (vs : list Z),
    is_u16 schema /\ is_u16 flags /\ is_u32 reserved /\ length vs = LIMIT_COUNT /\
    Forall is_u64 vs /\ data = encode_config schema flags reserved vs.
Proof.
  intros Hb Hl Hm. apply get_range_Some in Hm as (_ & p & q & -> & Hp & _).
  apply (f_equal Z.to_nat) in Hp. rewrite Nat2Z.id in Hp. apply nil_length_inv in Hp as ->.
  cbn [app] in *. apply is_bytes_app in Hb as [_ Hb].
  rewrite length_app in Hl. change (length CONFIG_MAGIC) with 8%nat in Hl.
  unfold CONFIG_BYTES in Hl.
  destruct (split_at q 2) as (s & q1 & -> & Hs); [lia|].
  destruct (split_at q1 2) as (f & q2 & -> & Hf); [rewrite length_app in Hl; lia|].
  destruct (split_at q2 4) as (r & q3 & -> & Hr); [rewrite !length_app in Hl; lia|].
  rewrite !is_bytes_app in Hb. destruct Hb as (Hbs & Hbf & Hbr & Hb).
  destruct (words_exist 8 37 q3 Hb) as (vs & Hn & Hvs & ->); [rewrite !length_app in Hl; lia|].
  pose proof (from_le_bytes_bound s Hbs). pose proof (from_le_bytes_bound f Hbf).
  pose proof (from_le_bytes_bound r Hbr). rewrite Hs, Hf, Hr in *.
  exists (from_le_bytes s), (from_le_bytes f), (from_le_bytes r), vs.
  split; [ulia|]. split; [ulia|]. split; [ulia|]. split; [done|]. split.
  { eapply Forall_impl; [exact Hvs|]. cbn. intros v. ulia. }
  unfold encode_config. f_equal.
  rewrite <- (to_from_le s) at 1 by done. rewrite <- (to_from_le f) at 1 by done.
  rewrite <- (to_from_le r) at 1 by done.
  by replace (length s) with 2%nat by lia; replace (length f) with 2%nat by lia;
     replace (length r) with 4%nat by lia.
Qed.

Lemma config_flags_cases flags :
  is_u16 flags ->
  Z.land flags (U16_MAX - VERIFY_FILE_DIGEST) = 0 <-> flags = 0 \/ flags = VERIFY_FILE_DIGEST.
Proof.
  intros Hf. split; [|by intros [->| ->]].
  intros H. apply (f_equal (fun z => Z.shiftr z 1)) in H.
  rewrite Z.shiftr_land, Z.shiftr_0_l in H.
  change (Z.shiftr (U16_MAX - VERIFY_FILE_DIGEST) 1) with (Z.ones 15) in H.
  rewrite Z.land_ones, Z.shiftr_div_pow2 in H by lia.
  change (2 ^ 1) with 2 in H. pose proof (Z.div_mod flags 2).
  rewrite Z.mod_small in H; unfold VERIFY_FILE_DIGEST.
  - pose proof (Z.mod_pos_bound flags 2). lia.
  - split; [apply Z.div_pos; ulia|apply Z.div_lt_upper_bound; ulia].
Qed.

(** Configurations and ledgers correspond exactly. *)
Lemma decode_config_Ok data limits :
  is_bytes data ->
  decode data = Ok limits <->
  (data = [] /\ limits = Limits_default) \/
  exists flags vs, valid_config flags vs /\
    data = encode_config CONFIG_SCHEMA flags 0 vs /\ limits = from_values vs flags.
Proof.
  intros Hb. split.
  - intros H. destruct (decide (data = [])) as [->|Hne]; [left; by injection H as <-|right].
    assert (len data = CONFIG_BYTES /\ get_range data 0 8 = Some CONFIG_MAGIC) as [Hl Hm].
    { unfold decode in H. destruct (Z.eqb_spec (len data) 0) as [E|_].
      { destruct data; [done|]. cbn [length] in E. lia. }
      destruct (Z.eqb_spec (len data) CONFIG_BYTES); [|done].
      case_bool_decide; [done|]. by cbn in H. }
    destruct (config_bytes_exist _ Hb Hl Hm) as (s & f & r & vs & Hs & Hf & Hr & Hn & Hvs & ->).
    rewrite decode_encoded in H by done.
    destruct (Z.eqb_spec s CONFIG_SCHEMA) as [->|]; [|done].
    destruct (Z.eqb_spec r 0) as [->|]; [|done].
    destruct (Z.eqb_spec (Z.land f (U16_MAX - VERIFY_FILE_DIGEST)) 0) as [Hz|]; [|done].
    cbn [negb orb] in H. destruct (positive_from 0 vs) eqn:Hp; [|done].
    injection H as <-. exists f, vs. repeat split; try done. by apply config_flags_cases.
  - intros [[-> ->]|(flags & vs & [Hf Hn Hvs Hp] & -> & ->)]; [done|].
    assert (is_u16 flags) by (destruct Hf as [-> | ->]; unfold VERIFY_FILE_DIGEST; ulia).
    rewrite decode_encoded by (done || (unfold CONFIG_SCHEMA; ulia)).
    rewrite (proj2 (config_flags_cases flags ltac:(done)) Hf), Hp. done.
Qed.


Definition sample_ledger : list Z :=
  [1; 2; 3; 4; 5; 6; 7; 8; 9; 10; 11; 12; 13; 0; 0; 16; 17; 18; 19; 20; 21; 22; 23; 24; 25; 26;
   27; 28; 29; 30; 31; 32; 33; 34; 35; 36; 37].


(** ** The memory budget *)

Definition budget_ok (b : MemoryBudget) : Prop :=
  is_u64 (used b) /\ exceeds (maximum b) (used b) = false.

(** The reservation fits in the address space, in the counter and in the limit. *)
Definition reservation_fits (b : MemoryBudget) (bytes : Z) : Prop :=
  bytes <= USIZE_MAX /\ used b + bytes <= U64_MAX /\
  exceeds (maximum b) (used b + bytes) = false.

Lemma budget_new_ok limits input :
  is_usize input ->
  owp (MemoryBudget_new limits input)
    (fun b => budget_ok b /\ used b = input /\ maximum b = max_memory_bytes limits).
Proof.
  intros Hi. unfold MemoryBudget_new. step. step.
  apply try_from_Some in H as [-> ?]. step. step. repeat split; cbn; ulia || done.
Qed.

Lemma reserve_cases size_of_T count b :
  0 <= size_of_T -> 0 <= count -> budget_ok b ->
  match reserve size_of_T count b with
  | (Ok _, b') => reservation_fits b (count * size_of_T) /\ maximum b' = maximum b /\
                  used b' = used b + count * size_of_T /\ budget_ok b'
  | (Err e, b') => ~ reservation_fits b (count * size_of_T) /\ b' = b /\
                   code e = "NATIVE_WIRE_LIMIT"%string
  | (Panic, _) => False
  end.
Proof.
  intros Hs Hc [Hu Hm]. unfold reserve, reservation_fits. unfold_monad.
  assert (0 <= count * size_of_T) by nia.
  destruct (checked_mul _ _ _) as [n|] eqn:E; cbn.
  2: { unfold checked_mul in E. case_match; [done|]. bool_to_prop. split_and!; try done. lia. }
  apply checked_mul_Some in E as [-> Hn].
  rewrite (proj2 (try_from_Some U64_MAX _ _) (conj eq_refl Hn)). cbn.
  destruct (checked_add _ _ _) as [n|] eqn:E; cbn.
  2: { unfold checked_add in E. case_match; [done|]. bool_to_prop. split_and!; try done. lia. }
  apply checked_add_Some in E as [-> Hn'].
  destruct (exceeds (maximum b) (used b + _)) eqn:Hx; cbn.
  - split; [by intros (?&?&?)|]. split; [done|]. unfold memory_limit_error.
    by destruct (maximum b).
  - repeat split; cbn; try done; ulia.
Qed.

(** A reservation is atomic and never overshoots: it succeeds exactly when
    the bytes fit, then charges exactly them and keeps the budget within its
    maximum; otherwise it reports a limit error and leaves the budget as it
    was.  It never panics. *)
Theorem reserve_is_atomic size_of_T count b :
  0 <= size_of_T -> 0 <= count -> budget_ok b ->
  match reserve size_of_T count b with
  | (Ok _, b') => reservation_fits b (count * size_of_T) /\ maximum b' = maximum b /\
                  used b' = used b + count * size_of_T /\ budget_ok b'
  | (Err e, b') => ~ reservation_fits b (count * size_of_T) /\ b' = b /\
                   code e = "NATIVE_WIRE_LIMIT"%string
  | (Panic, _) => False
  end.
Proof. apply reserve_cases. Qed.

Lemma reserve_is_atomic_witness :
  exists b, reserve 8 1 {| maximum := Some 100; used := 90 |} = (Ok tt, b) /\ used b = 98.
Proof.
  pose proof (reserve_is_atomic 8 1 {| maximum := Some 100; used := 90 |} ltac:(discriminate)
                ltac:(discriminate) ltac:(split; [vm_compute; split; discriminate|reflexivity])) as H.
  destruct (reserve 8 1 _) as [[[]|e|] b] eqn:E.
  - exists b. split; [reflexivity|]. apply H.
  - vm_compute in E. discriminate E.
  - destruct H.
Defined.

Lemma wp_reserve size_of_T count b (Q : unit -> MemoryBudget -> Prop) :
  0 <= size_of_T -> 0 <= count -> budget_ok b ->
  (forall b', budget_ok b' -> maximum b' = maximum b ->
     used b' = used b + count * size_of_T -> Q tt b') ->
  wp (reserve size_of_T count) Q b.
Proof.
  intros Hs Hc [Hu Hm] HQ. assert (0 <= count * size_of_T) as Hn by nia. unfold reserve. repeat step.
  all: try (apply checked_mul_Some in H as [-> ?]; apply try_from_Some in H0 as [-> ?];
            apply checked_add_Some in H1 as [-> ?]).
  apply HQ; cbn; [split; cbn; [ulia|done]|done|done].
Qed.
