(* ===== verification/Cancel.v ===== *)
(** * Cancellation, deadlines and the polling guard ([native/src/cancel.rs])

    [SharedCancel] is the state behind the [Arc] of a [Cancellation]; other
    threads may set its flag too, which the world shows as [obs_cancelled].
    [Guard] polls it, the Python signal handlers and its own deadline every
    [stride] units of work.  The model is that of the default build, with the
    [extension-module] feature.  The Python constructor of [_Cancellation],
    which converts its [f64] argument, is outside the model. *)

From S2P Require Import Prelude Bytes Float64 Error Machine.

(** An [Instant] is a number of nanoseconds; Unix stores its seconds in an [i64]. *)
Definition INSTANT_MAX : Z := (2 ^ 63 - 1) * NANOS_PER_SEC + (NANOS_PER_SEC - 1).

Definition now : M World Z := fun w => let '(o, w') := look w in (Ok (obs_now o), w').

(** [Instant::elapsed] saturates at zero. *)
Definition elapsed (started : Z) : M World Z := n ← now; mret (Z.max 0 (n - started)).

Record SharedCancel := mkSharedCancel {
  cancelled_flag : bool;
  started : Z;
  duration : option Z;
  shared_deadline : option Z
}.

(** What a cancellation operation works on: the world and the shared state. *)
Record CancelCtx := mkCancelCtx { c_world : World; c_shared : SharedCancel }.
Notation on_c_world m :=
  (zoom c_world (fun w c => {| c_world := w; c_shared := c_shared c |}) m).

(** [Cancellation::with_duration] *)
Definition with_duration (duration : option Z) : M World SharedCancel :=
  started ← now;
  mret {| cancelled_flag := false; started := started; duration := duration;
          shared_deadline := value ← duration; checked_add INSTANT_MAX started value |}.

(** [self.inner.cancelled.load(Acquire)] and [swap(true, AcqRel)] *)
Definition load_cancelled : M CancelCtx bool := fun c =>
  let '(o, w') := look (c_world c) in
  (Ok (cancelled_flag (c_shared c) || obs_cancelled o),
   {| c_world := w'; c_shared := c_shared c |}).

Definition swap_cancelled : M CancelCtx bool := fun c =>
  let '(o, w') := look (c_world c) in
  (Ok (cancelled_flag (c_shared c) || obs_cancelled o),
   {| c_world := w';
      c_shared := {| cancelled_flag := true; started := started (c_shared c);
                     duration := duration (c_shared c);
                     shared_deadline := shared_deadline (c_shared c) |} |}).

(** [Cancellation::cancel]: whether this call is the one that cancelled. *)
Definition cancel : M CancelCtx bool := previous ← swap_cancelled; mret (negb previous).

(** [deadline.is_some_and(|deadline| Instant::now() >= deadline)] *)
Definition passed (deadline : option Z) : M World bool :=
  match deadline with
  | None => mret false
  | Some deadline => n ← now; mret (deadline <=? n)
  end.

(** [Cancellation::is_cancelled] *)
Definition is_cancelled : M CancelCtx bool :=
  flag ← load_cancelled;
  if flag : bool then mret true else
  c ← get; on_c_world (passed (shared_deadline (c_shared c))).

(** [Cancellation::checkpoint] *)
Definition checkpoint : M CancelCtx unit :=
  flag ← load_cancelled;
  if flag : bool then throw cancelled else
  c ← get;
  expired ← on_c_world (passed (shared_deadline (c_shared c)));
  if expired : bool then
    allowed ← lift (ok_or (duration (c_shared c))
                      (protocol "native deadline duration disappeared"));
    spent ← on_c_world (elapsed (started (c_shared c)));
    throw (deadline_limit (as_secs_f64 spent) (as_secs_f64 allowed))
  else mret tt.

(** ** The guard *)

(** [Arc<Mutex<Option<PyErr>>>]; an exception is an opaque number. *)
Record InterruptSlot := mkInterruptSlot { poisoned : bool; retained : option Z }.

(** [take_interrupt] *)
Definition take_interrupt : M InterruptSlot (option Z) := fun slot =>
  if poisoned slot then (Err panic, slot)
  else (Ok (retained slot), {| poisoned := false; retained := None |}).

Record Guard := mkGuard {
  cancellation : SharedCancel;
  guard_started : Z;
  guard_deadline : option Z;
  interrupt : option InterruptSlot;
  stride : Z;
  next : Z
}.

(** What guarded code works on: the world and its guard. *)
Record Ctx := mkCtx { world : World; guard : Guard }.

Notation on_world m :=
  (zoom world (fun w c => {| world := w; guard := guard c |}) m).

Definition set_cancellation (s : SharedCancel) (g : Guard) : Guard :=
  {| cancellation := s; guard_started := guard_started g; guard_deadline := guard_deadline g;
     interrupt := interrupt g; stride := stride g; next := next g |}.
Definition set_interrupt (i : option InterruptSlot) (g : Guard) : Guard :=
  {| cancellation := cancellation g; guard_started := guard_started g;
     guard_deadline := guard_deadline g; interrupt := i; stride := stride g; next := next g |}.
Definition set_next (n : Z) (g : Guard) : Guard :=
  {| cancellation := cancellation g; guard_started := guard_started g;
     guard_deadline := guard_deadline g; interrupt := interrupt g; stride := stride g;
     next := n |}.

Notation on_cancellation m :=
  (zoom (fun c => {| c_world := world c; c_shared := cancellation (guard c) |})
        (fun cc c => {| world := c_world cc; guard := set_cancellation (c_shared cc) (guard c) |})
        m).
Definition modify_guard (f : Guard -> Guard) : M Ctx unit :=
  c ← get; put {| world := world c; guard := f (guard c) |}.

(** [Guard::new] and [Guard::with_interrupt] *)
Definition Guard_new (cancellation : SharedCancel) (deadline : option Z) (stride : Z)
    : M World Guard :=
  started ← now;
  mret {| cancellation := cancellation; guard_started := started; guard_deadline := deadline;
          interrupt := None; stride := stride; next := stride |}.
Definition Guard_with_interrupt (cancellation : SharedCancel) (deadline : option Z) (stride : Z)
    (interrupt : InterruptSlot) : M World Guard :=
  guard ← Guard_new cancellation deadline stride;
  mret (set_interrupt (Some interrupt) guard).

(** [Python::attach(|py| py.check_signals())]: the exception, if any. *)
Definition check_signals : M World (option Z) := fun w =>
  let '(o, w') := look w in (Ok (obs_signal o), w').

(** The [if let Some(interrupt) = &self.interrupt] block of [Guard::check]. *)
Definition check_interrupt : M Ctx unit :=
  c ← get;
  match interrupt (guard c) with
  | None => mret tt
  | Some slot =>
      signal ← on_world check_signals;
      match signal with
      | None => mret tt
      | Some error =>
          if poisoned slot then throw panic else
          (match retained slot with
           | None => modify_guard
               (set_interrupt (Some {| poisoned := false; retained := Some error |}))
           | Some _ => mret tt
           end;;
           throw cancelled)
      end
  end.

(** The guard's own deadline: [self.started.elapsed() >= deadline]. *)
Definition check_deadline : M Ctx unit :=
  c ← get;
  match guard_deadline (guard c) with
  | None => mret tt
  | Some allowed =>
      spent ← on_world (elapsed (guard_started (guard c)));
      if allowed <=? spent then
        spent ← on_world (elapsed (guard_started (guard c)));
        throw (deadline_limit (as_secs_f64 spent) (as_secs_f64 allowed))
      else mret tt
  end.

(** [Guard::check] *)
Definition check (work : Z) (force : bool) : M Ctx unit :=
  c ← get;
  if negb force && (work <? next (guard c)) then mret tt else
  (if force then mret tt else
     n ← lift (ok_or (checked_add U64_MAX work (stride (guard c)))
                 (limit "native work counter overflow"));
     modify_guard (set_next n));;
  on_cancellation checkpoint;;
  check_interrupt;;
  check_deadline.

(** ** What a check does *)

(** The outcome of a due poll, as a function of what it observes. *)
Lemma check_skips work c :
  work < next (guard c) -> check work false c = (Ok tt, c).
Proof. intros H. unfold check. unfold_monad. cbn. by rewrite (proj2 (Z.ltb_lt _ _) H). Qed.

(** A guard whose counters are machine words and which is not poisoned. *)
Definition guard_ok (g : Guard) : Prop := is_u32 (stride g) /\ 0 <= next g <= U64_MAX.

Lemma wp_now (Q : Z -> World -> Prop) w :
  Q (obs_now (observations w (tick w))) (snd (look w)) -> wp now Q w.
Proof. done. Qed.

Lemma wp_passed d (Q : bool -> World -> Prop) w :
  (forall b w', Q b w') -> wp (passed d) Q w.
Proof. intros H. unfold passed. step; repeat step; [apply wp_now; step|]; apply H. Qed.

Lemma wp_elapsed d (Q : Z -> World -> Prop) w : (forall b w', Q b w') -> wp (elapsed d) Q w.
Proof. intros H. unfold elapsed. step. apply wp_now. step. apply H. Qed.

(** A successful checkpoint saw no cancellation and leaves the shared state alone. *)
Lemma wp_checkpoint (Q : unit -> CancelCtx -> Prop) c :
  (forall w, cancelled_flag (c_shared c) = false ->
     obs_cancelled (observations (c_world c) (tick (c_world c))) = false ->
     Q tt {| c_world := w; c_shared := c_shared c |}) ->
  wp checkpoint Q c.
Proof.
  intros H. unfold checkpoint. step. unfold wp at 1, load_cancelled, look. cbn -[wp].
  destruct (_ || _) eqn:E; [done|]. apply orb_false_iff in E as [E1 E2].
  step. step. step. step. apply wp_passed. intros [] w'; cbn -[wp].
  - step. step. step. step. step. apply wp_elapsed. done.
  - step. by apply H.
Qed.

Lemma wp_check_interrupt (Q : unit -> Ctx -> Prop) c :
  (forall w, Q tt {| world := w; guard := guard c |}) -> wp check_interrupt Q c.
Proof.
  intros H. unfold check_interrupt. step. step. step; repeat step; [|by destruct c; apply H].
  unfold wp at 1, check_signals, look. cbn -[wp].
  destruct (obs_signal _); [|apply H].
  destruct (poisoned _); [done|]. step. destruct (retained _); [done|].
  unfold modify_guard. step. step. done.
Qed.

Lemma wp_check_deadline (Q : unit -> Ctx -> Prop) c :
  (forall w, Q tt {| world := w; guard := guard c |}) -> wp check_deadline Q c.
Proof.
  intros H. unfold check_deadline. step. step. step; repeat step; [|by destruct c; apply H].
  apply wp_elapsed. intros. step; [|step; apply H].
  step. step. apply wp_elapsed. done.
Qed.

(** A due, successful poll: nothing was cancelled, and only [next] moved. *)
Lemma wp_check work force (Q : unit -> Ctx -> Prop) c :
  (force = false -> work < next (guard c) -> Q tt c) ->
  (forall w,
     force = true \/ (next (guard c) <= work /\ work + stride (guard c) <= U64_MAX) ->
     cancelled_flag (cancellation (guard c)) = false ->
     obs_cancelled (observations (world c) (tick (world c))) = false ->
     Q tt {| world := w; guard := if force then guard c
                                  else set_next (work + stride (guard c)) (guard c) |}) ->
  wp (check work force) Q c.
Proof.
  intros Hskip Hpoll. unfold check. step. step.
  destruct (negb force && (work <? next (guard c))) eqn:E.
  { step. bool_to_prop. apply Hskip; [by destruct force|done]. }
  assert (force = true \/ next (guard c) <= work) as Hdue.
  { destruct force; [by left|right]. cbn in E. bool_to_prop. lia. }
  clear E. step. destruct force.
  - step. step. step. apply wp_checkpoint. cbn -[wp]. intros w H1 H2.
    step. apply wp_check_interrupt. intros w2. apply wp_check_deadline. intros w3. cbn -[wp].
    destruct c as [cw []]. by apply Hpoll; auto.
  - destruct Hdue as [|Hdue]; [done|].
    step. step. step. apply checked_add_Some in H as [-> Hmax].
    unfold modify_guard. step. step. step. step. step.
    apply wp_checkpoint. cbn -[wp]. intros w H1 H2.
    step. apply wp_check_interrupt. intros w2. apply wp_check_deadline. intros w3. cbn -[wp].
    destruct c as [cw []]. by apply Hpoll; auto.
Qed.

(** In a calm world with no deadline, a check only advances [next]. *)
Definition quiet (g : Guard) : Prop :=
  cancelled_flag (cancellation g) = false /\ shared_deadline (cancellation g) = None /\
  guard_deadline g = None.

Lemma check_calm work c :
  is_calm (world c) -> quiet (guard c) -> work + stride (guard c) <= U64_MAX ->
  exists w, is_calm w /\
    check work false c =
      (Ok tt, {| world := w; guard := if work <? next (guard c) then guard c
                                      else set_next (work + stride (guard c)) (guard c) |}).
Proof.
  intros Hcalm (H1 & H2 & H3) Hmax.
  destruct c as [w [[fl st du de] gs gd it sd nx]]. cbn in *. subst.
  unfold check, checkpoint, check_interrupt, check_deadline, modify_guard, load_cancelled, passed,
    check_signals.
  unfold_monad. cbn. destruct (work <? nx) eqn:E; [eexists; split; [exact Hcalm|reflexivity]|]. cbn.
  rewrite (proj2 (checked_add_Some _ _ _ _) (conj eq_refl Hmax)). cbn.
  destruct (Hcalm (tick w)) as [-> _]. cbn.
  destruct it; cbn; [|eexists; split; [|reflexivity]; exact Hcalm].
  destruct (Hcalm (N.succ (tick w))) as [_ [-> _]]. cbn. eexists. split; [|reflexivity]. exact Hcalm.
Qed.

Lemma check_calm_forced work c :
  is_calm (world c) -> quiet (guard c) ->
  exists w, is_calm w /\ check work true c = (Ok tt, {| world := w; guard := guard c |}).
Proof.
  intros Hcalm (H1 & H2 & H3).
  destruct c as [w [[fl st du de] gs gd it sd nx]]. cbn in *. subst.
  unfold check, checkpoint, check_interrupt, check_deadline, load_cancelled, passed,
    check_signals.
  unfold_monad. cbn. destruct (Hcalm (tick w)) as [-> _]. cbn.
  destruct it; cbn; [|eexists; split; [|reflexivity]; exact Hcalm].
  destruct (Hcalm (N.succ (tick w))) as [_ [-> _]]. cbn. eexists. split; [|reflexivity]. exact Hcalm.
Qed.

(** Whether the operation is cancelled as far as the next look can tell. *)
Definition cancellation_visible (c : Ctx) : Prop :=
  cancelled_flag (cancellation (guard c)) = true \/
  obs_cancelled (observations (world c) (tick (world c))) = true.

Lemma check_due_cancelled work force c :
  force = true \/ next (guard c) <= work /\ work + stride (guard c) <= U64_MAX ->
  cancellation_visible c ->
  fst (check work force c) = Err cancelled.
Proof.
  intros Hdue Hc. unfold check, checkpoint, load_cancelled, modify_guard. unfold_monad.
  assert ((cancelled_flag (cancellation (guard c)) ||
           obs_cancelled (observations (world c) (tick (world c)))) = true) as Hflag.
  { apply orb_true_iff. exact Hc. }
  destruct force; cbn; [by rewrite Hflag|]. destruct Hdue as [|[Hdue Hmax]]; [done|].
  rewrite (proj2 (Z.ltb_ge _ _) Hdue). cbn.
  rewrite (proj2 (checked_add_Some _ _ _ _) (conj eq_refl Hmax)). cbn. by rewrite Hflag.
Qed.

(** A poll that is due (forced, or at least [stride] units of work after the
    previous one) reports a visible cancellation, and reports nothing else. *)
Theorem due_check_reports_cancellation work force c :
  force = true \/ next (guard c) <= work /\ work + stride (guard c) <= U64_MAX ->
  cancellation_visible c ->
  fst (check work force c) = Err cancelled.
Proof. apply check_due_cancelled. Qed.

Definition sample_cancelled : SharedCancel :=
  {| cancelled_flag := true; started := 0; duration := None; shared_deadline := None |}.
Definition sample_token : SharedCancel :=
  {| cancelled_flag := false; started := 0; duration := None; shared_deadline := None |}.
Definition sample_guard (s : SharedCancel) : Guard :=
  {| cancellation := s; guard_started := 0; guard_deadline := None; interrupt := None;
     stride := 4; next := 4 |}.

Lemma due_check_reports_cancellation_witness :
  fst (check 7 false {| world := calm_world; guard := sample_guard sample_cancelled |})
  = Err cancelled.
Proof.
  apply (due_check_reports_cancellation 7 false
           {| world := calm_world; guard := sample_guard sample_cancelled |}).
  - right. split; vm_compute; discriminate.
  - left. reflexivity.
Defined.

Lemma check_success work force c :
  wp (check work force) (fun _ c' =>
    (force = false /\ work < next (guard c) /\ c' = c) \/
    (~ cancellation_visible c /\
     guard c' = if force then guard c else set_next (work + stride (guard c)) (guard c))) c.
Proof.
  apply wp_check; [by left|]. intros w _ H1 H2. right. split; [|done].
  unfold cancellation_visible. rewrite H1, H2. naive_solver.
Qed.

(** A check never panics, and a successful one either was not due and
    changed nothing, or polled: nothing was cancelled, and of the guard only
    the next polling point moved, to exactly [stride] units further. *)
Theorem check_success_means_polled work force c :
  fst (check work force c) <> Panic /\
  forall c', check work force c = (Ok tt, c') ->
    (force = false /\ work < next (guard c) /\ c' = c) \/
    (~ cancellation_visible c /\
     guard c' = if force then guard c else set_next (work + stride (guard c)) (guard c)).
Proof.
  pose proof (check_success work force c) as H.
  split; [by apply wp_no_panic in H|]. intros c' E. by apply (wp_Ok _ _ _ _ _ H E).
Qed.

(** A run of unforced checks, at the given amounts of work. *)
Fixpoint run_checks (works : list Z) : M Ctx unit :=
  match works with
  | [] => mret tt
  | work :: works => check work false;; run_checks works
  end.

(** Once the cancellation shows, the checks that a run survives were not due. *)
Lemma cancelled_run works c c' :
  cancellation_visible c -> run_checks works c = (Ok tt, c') ->
  c' = c /\ Forall (fun work => work < next (guard c)) works.
Proof.
  intros Hc. induction works as [|work works IH]; cbn [run_checks]; intros H.
  { injection H as <-. done. }
  unfold mbind, M_bind in H. destruct (check work false c) as [[[]|e|] c1] eqn:E; try done.
  apply (wp_Ok _ _ _ _ _ (check_success work false c)) in E as [(_ & Hlt & ->)|[Hn _]]; [|done].
  destruct (IH H). auto.
Qed.

(** The next poll of a guard is one stride after some amount of work in [L]. *)
Definition polls_after (L : list Z) (g : Guard) : Prop :=
  exists last, In last L /\ next g = last + stride g.

(** A run that succeeds polled last at one of its amounts of work. *)
Lemma run_polls works L c c' :
  polls_after L (guard c) -> run_checks works c = (Ok tt, c') ->
  polls_after (L ++ works) (guard c') /\ stride (guard c') = stride (guard c).
Proof.
  revert L c. induction works as [|work works IH]; cbn [run_checks]; intros L c HL H.
  { injection H as <-. by rewrite app_nil_r. }
  unfold mbind, M_bind in H. destruct (check work false c) as [[[]|e|] c1] eqn:E; try done.
  rewrite cons_middle, app_assoc. destruct HL as (last & Hin & Hnext).
  apply (wp_Ok _ _ _ _ _ (check_success work false c)) in E as [(_ & _ & ->)|[_ Eg]].
  - apply IH; [|done]. exists last. split; [|done]. apply in_or_app. by left.
  - destruct (IH (L ++ [work]) c1) as [H1 ->]; [|done|].
    + exists work. rewrite Eg. split; [|done]. apply in_or_app. right. by left.
    + by rewrite Eg.
Qed.

(** The guards that the code builds for a stride. *)
Inductive built_guard (stride_ : Z) (g : Guard) : Prop :=
  | built_new token deadline w w' :
      Guard_new token deadline stride_ w = (Ok g, w') -> built_guard stride_ g
  | built_with_interrupt token deadline slot w w' :
      Guard_with_interrupt token deadline stride_ slot w = (Ok g, w') -> built_guard stride_ g.

(** An operation gets cancelled between two checks: by a call of [cancel], or
    by another thread, whose flag every later look then shows. *)
Inductive gets_cancelled (c : Ctx) : Ctx -> Prop :=
  | cancelled_by_call first c' : on_cancellation cancel c = (Ok first, c') -> gets_cancelled c c'
  | cancelled_elsewhere :
      (forall k, (tick (world c) <= k)%N -> obs_cancelled (observations (world c) k) = true) ->
      gets_cancelled c c.

Lemma built_guard_polls stride_ g : built_guard stride_ g -> polls_after [0] g /\ stride g = stride_.
Proof. intros [token deadline w w' [= <- _]|token deadline slot w w' [= <- _]]; (split; [exists 0; split; [by left|]|]); done. Qed.

Lemma gets_cancelled_visible c c' :
  gets_cancelled c c' ->
  cancellation_visible c' /\ next (guard c') = next (guard c) /\ stride (guard c') = stride (guard c).
Proof. intros [first c1 [= _ <-]|H]; (split; [|done]); [by left|right; apply H; reflexivity]. Qed.


(** Polls at 4 and 9, a cancellation, and two more checks below 9 + 4. *)
Definition sample_polled : Ctx :=
  snd (run_checks [4; 9] {| world := calm_world; guard := sample_guard sample_token |}).
Definition sample_stopped : Ctx := snd (on_cancellation cancel sample_polled).


(** Cancelling is idempotent and exactly one caller is told it cancelled:
    after a [cancel] the flag is set for good, and the next [cancel] returns
    [false], whatever the other threads do. *)
Theorem cancel_is_idempotent c :
  exists first c1 c2,
    cancel c = (Ok first, c1) /\ cancelled_flag (c_shared c1) = true /\
    cancel c1 = (Ok false, c2) /\ c_shared c2 = c_shared c1 /\
    (first = true <->
     cancelled_flag (c_shared c) = false /\
     obs_cancelled (observations (c_world c) (tick (c_world c))) = false).
Proof.
  unfold cancel, swap_cancelled. unfold_monad. cbn. do 3 eexists. split_and!; try done.
  rewrite negb_true_iff. apply orb_false_iff.
Qed.
