(* ===== verification/Session.v ===== *)
(** * The bounded work session ([native/src/session.rs])

    A [Session] ties a guard, the limits, a memory budget, the temporary-bytes
    ceiling and the work counter of one native operation together.  The
    allocation probe of the [test-hooks] feature is absent from the default
    build, where [allocation_checkpoint] always succeeds. *)

From S2P Require Import Prelude Bytes Error Machine Atomic Limits Cancel.

Record Session := mkSession {
  s_ctx : Ctx;                     (* the world and [guard: &mut Guard] *)
  limits : Limits;
  memory : MemoryBudget;
  temporary_bytes : Z;
  work : Z
}.

Notation on_ctx m :=
  (zoom s_ctx (fun x s => {| s_ctx := x; limits := limits s; memory := memory s;
                             temporary_bytes := temporary_bytes s; work := work s |}) m).
Notation on_memory m :=
  (zoom memory (fun x s => {| s_ctx := s_ctx s; limits := limits s; memory := x;
                              temporary_bytes := temporary_bytes s; work := work s |}) m).
Definition set_temporary_bytes (n : Z) : M Session unit :=
  s ← get; put {| s_ctx := s_ctx s; limits := limits s; memory := memory s;
                  temporary_bytes := n; work := work s |}.
Definition set_work (n : Z) : M Session unit :=
  s ← get; put {| s_ctx := s_ctx s; limits := limits s; memory := memory s;
                  temporary_bytes := temporary_bytes s; work := n |}.

(** [Session::new] *)
Definition Session_new (ctx : Ctx) (limits : Limits) (input_bytes : Z) : outcome Session :=
  memory ← MemoryBudget_new limits input_bytes;
  mret {| s_ctx := ctx; limits := limits; memory := memory; temporary_bytes := 0; work := 0 |}.

(** [Session::allocation_checkpoint], without [test-hooks] *)
Definition allocation_checkpoint (bytes : Z) : M Session unit := mret tt.

(** [Session::accounted_bytes] *)
Definition accounted_bytes (s : Session) : Z := used (memory s).

(** [Session::step] *)
Definition step_work (amount : Z) : M Session unit :=
  s ← get;
  total ← lift (ok_or (checked_add U64_MAX (work s) amount)
                  (limit "native session work counter overflow"));
  set_work total;;
  on_ctx (check total false).

(** [Session::reserve_bytes] *)
Definition reserve_bytes (bytes : Z) : M Session unit :=
  allocation_checkpoint bytes;;
  on_memory (reserve 1 bytes).

(** [Session::reserve_temporary_bytes] *)
Definition reserve_temporary_bytes (bytes : Z) : M Session unit :=
  bytes ← lift (ok_or (try_from U64_MAX bytes)
                  (limit "native temporary allocation exceeds u64"));
  s ← get;
  following ← lift (ok_or (checked_add U64_MAX (temporary_bytes s) bytes)
                      (limit "native temporary memory accounting overflow"));
  ensure_not (value (limits s) MaxTemporaryBytes <? following)
    (Limits_resource_limit (limits s) MaxTemporaryBytes following
       "native operation exceeds max_temporary_bytes");;
  bytes ← lift (ok_or (try_from USIZE_MAX bytes)
                  (limit "native temporary allocation exceeds usize"));
  allocation_checkpoint bytes;;
  on_memory (reserve 1 bytes);;
  set_temporary_bytes following.

(** [Session::finish] *)
Definition finish : M Session unit :=
  s ← get; on_ctx (check (work s) true).

(** ** Properties *)

(** The budgets of a session are within their limits. *)
Record session_ok (s : Session) : Prop := {
  session_budget : budget_ok (memory s);
  session_maximum : maximum (memory s) = max_memory_bytes (limits s);
  session_temporary : 0 <= temporary_bytes s <= U64_MAX;
  session_temporary_limit :
    temporary_bytes s <= Z.max 0 (value (limits s) MaxTemporaryBytes);
  session_temporary_live : temporary_bytes s <= used (memory s)
}.

Lemma session_new_ok ctx l input :
  is_usize input -> owp (Session_new ctx l input) (fun s => session_ok s /\ accounted_bytes s = input).
Proof.
  intros Hi. unfold Session_new. step. eapply owp_mono; [|by apply budget_new_ok].
  intros b ([Hb Hx] & Hu & Hm). step. split; [|done]. constructor; cbn; try done; try ulia.
Qed.

Lemma wp_on_memory_reserve n s (Q : unit -> Session -> Prop) :
  0 <= n -> budget_ok (memory s) ->
  (forall b, budget_ok b -> maximum b = maximum (memory s) -> used b = used (memory s) + n ->
     Q tt {| s_ctx := s_ctx s; limits := limits s; memory := b;
             temporary_bytes := temporary_bytes s; work := work s |}) ->
  wp (on_memory (reserve 1 n)) Q s.
Proof.
  intros Hn Hb HQ. step. apply wp_reserve; [lia|done|done|].
  intros b' H1 H2 H3. apply HQ; [done|done|lia].
Qed.

Lemma wp_reserve_bytes n s (Q : unit -> Session -> Prop) :
  0 <= n -> session_ok s ->
  (forall s', session_ok s' -> accounted_bytes s' = accounted_bytes s + n -> Q tt s') ->
  wp (reserve_bytes n) Q s.
Proof.
  intros Hn [Hb Hm Ht Htl Htm] HQ. unfold reserve_bytes, allocation_checkpoint. step. step.
  apply wp_on_memory_reserve; [done|done|]. intros b H1 H2 H3. apply HQ.
  - constructor; cbn; try done; [by rewrite H2|lia].
  - unfold accounted_bytes. cbn. lia.
Qed.

(** The conditions of a temporary reservation. *)
Definition temporary_fits (s : Session) (bytes : Z) : Prop :=
  temporary_bytes s + bytes <= U64_MAX /\
  temporary_bytes s + bytes <= value (limits s) MaxTemporaryBytes /\
  reservation_fits (memory s) bytes.

Lemma reserve_temporary_cases bytes s :
  is_usize bytes -> session_ok s ->
  match reserve_temporary_bytes bytes s with
  | (Ok _, s') => temporary_fits s bytes /\ session_ok s' /\
                  temporary_bytes s' = temporary_bytes s + bytes /\
                  accounted_bytes s' = accounted_bytes s + bytes
  | (Err e, s') => ~ temporary_fits s bytes /\ s' = s /\ code e = "NATIVE_WIRE_LIMIT"%string
  | (Panic, _) => False
  end.
Proof.
  intros Hb Hs. unfold reserve_temporary_bytes, temporary_fits, allocation_checkpoint.
  unfold set_temporary_bytes. unfold_monad.
  rewrite (proj2 (try_from_Some U64_MAX bytes bytes)) by ulia. cbn.
  destruct (checked_add _ _ _) as [n|] eqn:E; cbn.
  2: { unfold checked_add in E. case_match; [done|]. bool_to_prop. split_and!; try done. lia. }
  apply checked_add_Some in E as [-> Hn].
  destruct (value (limits s) MaxTemporaryBytes <? temporary_bytes s + bytes) eqn:E.
  { cbn. bool_to_prop. split_and!; try done. lia. }
  bool_to_prop. rewrite (proj2 (try_from_Some USIZE_MAX bytes bytes)) by ulia. cbn.
  destruct Hs as [Hbud Hmax Ht Htl Htm].
  pose proof (reserve_cases 1 bytes (memory s) ltac:(lia) ltac:(ulia) Hbud) as Hr.
  rewrite Z.mul_1_r in Hr.
  destruct (reserve 1 bytes (memory s)) as [[[]|e|] b']; cbn.
  - destruct Hr as (Hf & Hm & Hu & Hbud'). split_and!; try done.
    constructor; cbn; try done; try congruence; ulia.
  - destruct Hr as (Hf & -> & He). split_and!; [by intros (_&_&?)|by destruct s|done].
  - done.
Qed.

(** A temporary reservation charges the temporary ceiling and the live
    memory budget together or not at all: it succeeds exactly when both have
    room, and on failure neither budget moves. *)
Theorem reserve_temporary_is_atomic bytes s :
  is_usize bytes -> session_ok s ->
  match reserve_temporary_bytes bytes s with
  | (Ok _, s') => temporary_fits s bytes /\ session_ok s' /\
                  temporary_bytes s' = temporary_bytes s + bytes /\
                  accounted_bytes s' = accounted_bytes s + bytes
  | (Err e, s') => ~ temporary_fits s bytes /\ s' = s /\ code e = "NATIVE_WIRE_LIMIT"%string
  | (Panic, _) => False
  end.
Proof. apply reserve_temporary_cases. Qed.

Definition sample_session : Session :=
  {| s_ctx := {| world := calm_world;
                 guard := {| cancellation := {| cancelled_flag := false; started := 0;
                                                duration := None; shared_deadline := None |};
                             guard_started := 0; guard_deadline := None; interrupt := None;
                             stride := 4096; next := 4096 |} |};
     limits := Limits_default;
     memory := {| maximum := None; used := 3 |};
     temporary_bytes := 0; work := 0 |}.

Lemma sample_session_ok : session_ok sample_session.
Proof. constructor; cbn; try done; split; done. Qed.

Lemma reserve_temporary_is_atomic_witness :
  exists s, reserve_temporary_bytes 5 sample_session = (Ok tt, s) /\
    temporary_bytes s = 5 /\ accounted_bytes s = 8.
Proof.
  pose proof (reserve_temporary_is_atomic 5 sample_session
                ltac:(split; vm_compute; discriminate) sample_session_ok) as H.
  destruct (reserve_temporary_bytes 5 sample_session) as [[[]|e|] s] eqn:E.
  - exists s. split; [reflexivity|]. destruct H as (_ & _ & Ht & Ha).
    split; [exact Ht|exact Ha].
  - vm_compute in E. discriminate E.
  - destruct H.
Defined.

Lemma wp_reserve_temporary bytes s (Q : unit -> Session -> Prop) :
  is_usize bytes -> session_ok s ->
  (forall s', session_ok s' -> accounted_bytes s' = accounted_bytes s + bytes -> Q tt s') ->
  wp (reserve_temporary_bytes bytes) Q s.
Proof.
  intros Hb Hs HQ. pose proof (reserve_temporary_cases bytes s Hb Hs) as H. unfold wp.
  destruct (reserve_temporary_bytes bytes s) as [[[]|e|] s']; [|done|done].
  destruct H as (_ & ? & _ & ?). by apply HQ.
Qed.

(** ** Running on: what every session operation leaves alone *)

Definition continues (s s' : Session) : Prop := session_ok s' /\ limits s' = limits s.

Lemma continues_refl s : session_ok s -> continues s s.
Proof. done. Qed.

Lemma continues_trans s s' s'' : continues s s' -> continues s' s'' -> continues s s''.
Proof. intros [_ E] [H E']. split; [done|congruence]. Qed.

#[export] Hint Resolve continues_refl continues_trans : kernel.

Lemma wp_on_ctx_check work force s (Q : unit -> Session -> Prop) :
  session_ok s -> (forall s', continues s s' -> Q tt s') -> wp (on_ctx (check work force)) Q s.
Proof.
  intros [] HQ. step. apply wp_check; intros; apply HQ; (split; [by constructor|done]).
Qed.

Lemma wp_step_work amount s (Q : unit -> Session -> Prop) :
  session_ok s -> (forall s', continues s s' -> Q tt s') -> wp (step_work amount) Q s.
Proof.
  intros Hs HQ. unfold step_work. do 4 step. unfold set_work. do 4 step.
  apply wp_on_ctx_check; [by destruct Hs; constructor|]. intros s' [Hs' E]. by apply HQ.
Qed.

Lemma wp_session_finish s (Q : unit -> Session -> Prop) :
  session_ok s -> (forall s', continues s s' -> Q tt s') -> wp finish Q s.
Proof. intros Hs HQ. unfold finish. do 2 step. by apply wp_on_ctx_check. Qed.

Lemma wp_reserve_continues n s (Q : unit -> Session -> Prop) :
  0 <= n -> session_ok s -> (forall s', continues s s' -> Q tt s') -> wp (reserve_bytes n) Q s.
Proof.
  intros Hn [Hb Hm Ht Htl Htm] HQ. unfold reserve_bytes, allocation_checkpoint. step. step.
  apply wp_on_memory_reserve; [done|done|]. intros b H1 H2 H3. apply HQ.
  split; [|done]. constructor; cbn; try done; [by rewrite H2|lia].
Qed.

(** A fallible reservation inside a session. *)
Notation on_session_world m :=
  (zoom (fun s => world (s_ctx s))
        (fun w s => {| s_ctx := {| world := w; guard := guard (s_ctx s) |}; limits := limits s;
                       memory := memory s; temporary_bytes := temporary_bytes s; work := work s |}) m).

Lemma wp_session_try_reserve msg s (Q : unit -> Session -> Prop) :
  session_ok s -> (forall s', continues s s' -> Q tt s') -> wp (on_session_world (try_reserve msg)) Q s.
Proof. intros [] HQ. do 2 step. apply HQ. split; [by constructor|done]. Qed.

(** ** The errors of a session: resources, interruption, broken protocol *)

Definition operational (e : NativeError) : Prop :=
  In (code e) ["NATIVE_WIRE_LIMIT"; "NATIVE_CANCELLED"; "NATIVE_DEADLINE"; "NATIVE_PROTOCOL"; "NATIVE_PANIC"]%string.

Lemma operational_memory maximum n msg : operational (memory_limit_error maximum n msg).
Proof. destruct maximum; cbn; tauto. Qed.

Ltac operational :=
  repeat fstep; try done; try apply operational_memory; try (cbn; tauto).

Lemma fails_check amount force : fails_with operational (check amount force).
Proof.
  unfold check, checkpoint, check_interrupt, check_deadline, load_cancelled, passed, check_signals, elapsed, now,
    modify_guard.
  operational.
Qed.

Lemma fails_step_work amount : fails_with operational (step_work amount).
Proof. unfold step_work, set_work. operational; apply fails_check. Qed.

Lemma fails_finish : fails_with operational finish.
Proof. unfold finish. operational; apply fails_check. Qed.

Lemma fails_reserve_bytes n : fails_with operational (reserve_bytes n).
Proof. unfold reserve_bytes, allocation_checkpoint, reserve. operational. Qed.
