(* ===== verification/Source.v ===== *)
(** * Framing of coarse parser requests ([native/src/source.rs]) *)

From S2P Require Import Prelude Bytes Error Machine Limits.

Definition SOURCE_MAGIC : bytes := str "PYNFSS1" ++ [0].
Definition SOURCE_HEADER_BYTES : Z := 20.
Definition SOURCE_SCHEMA : Z := 1.
Definition ALLOW_SWRL : Z := 1.

Record SourceRequest := mkSourceRequest { source : bytes; allow_swrl : bool }.

(** [SourceRequest::decode] *)
Definition SourceRequest_decode (data : bytes) (limits : Limits) : outcome SourceRequest :=
  fail_if ((len data <? SOURCE_HEADER_BYTES) ||
           negb (bool_decide (get_range data 0 8 = Some SOURCE_MAGIC)))
    (protocol "invalid native parser request framing");;
  schema ← index_range data 8 10;
  flags ← index_range data 10 12;
  length_ ← index_range data 12 20;
  let schema := from_le_bytes schema in
  let flags := from_le_bytes flags in
  let length_ := from_le_bytes length_ in
  fail_if (negb (schema =? SOURCE_SCHEMA) || negb (Z.land flags (U16_MAX - ALLOW_SWRL) =? 0))
    (protocol "unsupported native parser request");;
  length_ ← ok_or (try_from USIZE_MAX length_) (limit "native parser source exceeds address space");
  rest ← usize_sub (len data) SOURCE_HEADER_BYTES;
  fail_if (negb (length_ =? rest)) (protocol "native parser source length mismatch");;
  observed ← ok_or (try_from U64_MAX length_) (limit "native source length exceeds u64");
  fail_if (value limits MaxSourceBytes <? observed)
    (Limits_resource_limit limits MaxSourceBytes observed "native source exceeds max_source_bytes");;
  source ← index_range data SOURCE_HEADER_BYTES (len data);
  mret {| source := source; allow_swrl := negb (Z.land flags ALLOW_SWRL =? 0) |}.

(** The frame of a request. *)
Definition encode_request (schema flags length_ : Z) (source : bytes) : bytes :=
  SOURCE_MAGIC ++ to_le_bytes 2 schema ++ to_le_bytes 2 flags ++ to_le_bytes 8 length_ ++ source.

Definition request_frame (request : SourceRequest) : bytes :=
  encode_request SOURCE_SCHEMA (Z.b2z (allow_swrl request)) (len (source request)) (source request).

Definition source_too_large (limits : Limits) (observed : Z) : NativeError :=
  Limits_resource_limit limits MaxSourceBytes observed "native source exceeds max_source_bytes".

(** Decoding any well-framed request. *)
Lemma decode_request_frame schema flags n src limits :
  is_u16 schema -> is_u16 flags -> is_u64 n -> len src <= U64_MAX ->
  SourceRequest_decode (encode_request schema flags n src) limits =
  if negb (schema =? SOURCE_SCHEMA) || negb (Z.land flags (U16_MAX - ALLOW_SWRL) =? 0)
  then Err (protocol "unsupported native parser request")
  else if negb (n =? len src) then Err (protocol "native parser source length mismatch")
  else if value limits MaxSourceBytes <? n
  then Err (source_too_large limits n)
  else Ok {| source := src; allow_swrl := negb (Z.land flags ALLOW_SWRL =? 0) |}.
Proof.
  intros Hs Hf Hn Hl. unfold SourceRequest_decode, encode_request.
  set (data := SOURCE_MAGIC ++ _).
  assert (len data = 20 + len src) as Hlen.
  { unfold data. rewrite !length_app, !length_to_le_bytes. change (length SOURCE_MAGIC) with 8%nat. lia. }
  assert (get_range data 0 8 = Some SOURCE_MAGIC) as H0 by (by apply (get_range_mid [])).
  assert (get_range data 8 10 = Some (to_le_bytes 2 schema)) as H8.
  { apply get_range_mid; [done|]. by rewrite length_to_le_bytes. }
  assert (get_range data 10 12 = Some (to_le_bytes 2 flags)) as H10.
  { unfold data. rewrite (app_assoc SOURCE_MAGIC).
    apply get_range_mid; [|by rewrite length_to_le_bytes].
    by rewrite length_app, length_to_le_bytes. }
  assert (get_range data 12 20 = Some (to_le_bytes 8 n)) as H12.
  { unfold data. rewrite (app_assoc SOURCE_MAGIC), (app_assoc (SOURCE_MAGIC ++ _)).
    apply get_range_mid; [|by rewrite length_to_le_bytes].
    by rewrite !length_app, !length_to_le_bytes. }
  assert (get_range data 20 (len data) = Some src) as H20.
  { rewrite Hlen. unfold data. do 3 rewrite app_assoc.
    apply get_range_end; [|lia]. by rewrite !length_app, !length_to_le_bytes. }
  unfold index_range, SOURCE_HEADER_BYTES, mret, mbind, outcome_ret, outcome_mbind. cbn [outcome_bind].
  rewrite H0, H8, H10, H12, H20, bool_decide_true by done.
  rewrite (proj2 (Z.ltb_ge _ _)) by lia. unfold_monad. cbn [orb negb or_panic].
  rewrite !from_to_le by (change (256 ^ Z.of_nat 2) with (U16_MAX + 1);
    change (256 ^ Z.of_nat 8) with (U64_MAX + 1); ulia).
  destruct (negb (schema =? SOURCE_SCHEMA) || _); [done|].
  rewrite (proj2 (try_from_Some _ _ _)) by (split; [reflexivity|ulia]). cbn [ok_or].
  unfold usize_sub. rewrite (proj2 (Z.leb_le _ _)) by lia.
  replace (len data - 20) with (len src) by lia.
  destruct (Z.eqb_spec n (len src)) as [->|]; cbn [negb]; [|done].
  rewrite (proj2 (try_from_Some _ _ _)) by (split; [reflexivity|ulia]). cbn [ok_or].
  by destruct (value limits MaxSourceBytes <? len src).
Qed.

(** Every input of at least twenty bytes with the magic is such a frame. *)
Lemma request_frame_exists data :
  is_bytes data -> SOURCE_HEADER_BYTES <= len data -> get_range data 0 8 = Some SOURCE_MAGIC ->
  exists schema flags n src, is_u16 schema /\ is_u16 flags /\ is_u64 n /\
    data = encode_request schema flags n src.
Proof.
  intros Hb Hl Hm. apply get_range_Some in Hm as (_ & p & q & -> & Hp & _).
  apply (f_equal Z.to_nat) in Hp. rewrite Nat2Z.id in Hp. apply nil_length_inv in Hp as ->.
  cbn [app] in *. apply is_bytes_app in Hb as [_ Hb].
  rewrite length_app in Hl. change (length SOURCE_MAGIC) with 8%nat in Hl.
  unfold SOURCE_HEADER_BYTES in Hl.
  destruct (split_at q 2) as (s & q1 & -> & Hs); [lia|].
  destruct (split_at q1 2) as (f & q2 & -> & Hf); [rewrite length_app in Hl; lia|].
  destruct (split_at q2 8) as (r & src & -> & Hr); [rewrite !length_app in Hl; lia|].
  rewrite !is_bytes_app in Hb. destruct Hb as (Hbs & Hbf & Hbr & Hb).
  exists (from_le_bytes s), (from_le_bytes f), (from_le_bytes r), src.
  pose proof (from_le_bytes_bound s Hbs). pose proof (from_le_bytes_bound f Hbf).
  pose proof (from_le_bytes_bound r Hbr). rewrite Hs, Hf, Hr in *.
  split; [ulia|]. split; [ulia|]. split; [ulia|].
  unfold encode_request. f_equal.
  rewrite <- (to_from_le s) at 1 by done. rewrite <- (to_from_le f) at 1 by done.
  rewrite <- (to_from_le r) at 1 by done.
  by replace (length s) with 2%nat by lia; replace (length f) with 2%nat by lia;
     replace (length r) with 8%nat by lia.
Qed.

(** A parser request is accepted exactly when it is the frame of a source
    within [max_source_bytes]: the decoded request is the framed one, every
    other input is an error, and no input panics. *)
Theorem source_request_roundtrip data limits :
  is_bytes data -> len data <= USIZE_MAX ->
  (forall request, SourceRequest_decode data limits = Ok request <->
     data = request_frame request /\ len (source request) <= value limits MaxSourceBytes) /\
  SourceRequest_decode data limits <> Panic.
Proof.
  intros Hb Hu. split.
  - intros request. split.
    + intros H.
      assert (SOURCE_HEADER_BYTES <= len data /\ get_range data 0 8 = Some SOURCE_MAGIC) as [Hl Hm].
      { unfold SourceRequest_decode in H.
        destruct (Z.ltb_spec (len data) SOURCE_HEADER_BYTES); [done|].
        case_bool_decide; [done|]. by cbn in H. }
      destruct (request_frame_exists _ Hb Hl Hm) as (s & f & n & src & Hs & Hf & Hn & ->).
      assert (len src <= U64_MAX) by (unfold encode_request in Hu; rewrite !length_app in Hu; ulia).
      rewrite decode_request_frame in H by done.
      destruct (Z.eqb_spec s SOURCE_SCHEMA) as [->|]; [|done].
      destruct (Z.eqb_spec (Z.land f (U16_MAX - ALLOW_SWRL)) 0) as [Hz|]; [|done].
      destruct (Z.eqb_spec n (len src)) as [->|]; [|done]. cbn [negb orb] in H.
      destruct (Z.ltb_spec (value limits MaxSourceBytes) (len src)); [done|].
      injection H as <-. cbn [source]. split; [|done].
      unfold request_frame. cbn [source allow_swrl]. f_equal.
      apply config_flags_cases in Hz; [|done]. by destruct Hz as [-> | ->].
    + intros [-> Hl]. unfold request_frame in *.
      assert (len (source request) <= U64_MAX)
        by (unfold encode_request in Hu; rewrite !length_app in Hu; ulia).
      rewrite decode_request_frame by (destruct (allow_swrl request); cbn; ulia || easy).
      destruct request as [src []]; cbn [source allow_swrl Z.b2z negb] in *;
        rewrite !Z.eqb_refl, (proj2 (Z.ltb_ge (value _ _) _)) by lia; reflexivity.
  - destruct (Z.ltb_spec (len data) SOURCE_HEADER_BYTES) as [|Hl].
    { unfold SourceRequest_decode. rewrite (proj2 (Z.ltb_lt _ _)) by done. discriminate. }
    destruct (decide (get_range data 0 8 = Some SOURCE_MAGIC)) as [Hm|Hm].
    2: { unfold SourceRequest_decode. rewrite bool_decide_false, orb_true_r by done.
         discriminate. }
    destruct (request_frame_exists _ Hb Hl Hm) as (s & f & n & src & Hs & Hf & Hn & ->).
    rewrite decode_request_frame; try done.
    + by repeat case_match.
    + unfold encode_request in Hu. rewrite !length_app in Hu. ulia.
Qed.

Lemma source_request_roundtrip_witness :
  SourceRequest_decode (request_frame (mkSourceRequest (str "Ontology()") true)) Limits_default =
  Ok (mkSourceRequest (str "Ontology()") true).
Proof.
  apply (proj1 (source_request_roundtrip
    (request_frame (mkSourceRequest (str "Ontology()") true)) Limits_default
    ltac:(apply is_bytesb_true; vm_compute; reflexivity) ltac:(vm_compute; discriminate))).
  split; [reflexivity|vm_compute; discriminate].
Defined.
