(* ===== verification/Reader.v ===== *)
(** * Little-endian readers ([native/src/wire/reader.rs])

    A cursor over a byte slice.  Two relations describe what a parser built
    from the readers does: [reads p x v] says that it accepts the bytes [x]
    wherever the cursor stands before them and yields [v]; [wp] with
    [advanced] says which bytes a successful run has consumed. *)

From S2P Require Import Prelude Bytes Error Machine.

Record Reader := mkReader { r_data : bytes; r_offset : Z }.

(** [Reader::new] *)
Definition Reader_new (data : bytes) : Reader := {| r_data := data; r_offset := 0 |}.

(** [Reader::remaining] *)
Definition Reader_remaining : M Reader Z :=
  r ← get; lift (usize_sub (len (r_data r)) (r_offset r)).

(** [Reader::take] *)
Definition Reader_take (size : Z) : M Reader bytes :=
  r ← get;
  end_ ← lift (ok_or (checked_add USIZE_MAX (r_offset r) size) (corrupt "wire row offset overflow"));
  result ← lift (ok_or (get_range (r_data r) (r_offset r) end_) (corrupt "truncated wire row"));
  put {| r_data := r_data r; r_offset := end_ |};;
  mret result.

(** [Reader::u8] *)
Definition Reader_u8 : M Reader Z := value ← Reader_take 1; lift (index_at value 0).

(** [Reader::boolean] *)
Definition Reader_boolean : M Reader bool :=
  value ← Reader_u8;
  if value =? 0 then mret false else
  if value =? 1 then mret true else
  throw (corrupt "invalid wire boolean").

(** [Reader::u16], [Reader::u32], [Reader::u64]; [take] returned as many
    bytes as [from_le_bytes] indexes. *)
Definition Reader_u16 : M Reader Z := value ← Reader_take 2; mret (from_le_bytes value).
Definition Reader_u32 : M Reader Z := value ← Reader_take 4; mret (from_le_bytes value).
Definition Reader_u64 : M Reader Z := value ← Reader_take 8; mret (from_le_bytes value).

(** [Reader::finish] *)
Definition Reader_finish : M Reader unit :=
  remaining ← Reader_remaining;
  if remaining =? 0 then mret tt else throw (corrupt "wire row has trailing bytes").

(** Run a parser on a reader of its own. *)
Definition with_reader {A} (r : Reader) (m : M Reader A) : outcome A := fst (m r).

(** [u16_at], [u32_at], [u64_at] *)
Definition scalar_at (m : M Reader Z) (data : bytes) (offset : Z) : outcome Z :=
  tail ← ok_or (get_from data offset) (corrupt "wire scalar offset exceeds bounds");
  with_reader (Reader_new tail) m.
Definition u16_at : bytes -> Z -> outcome Z := scalar_at Reader_u16.
Definition u32_at : bytes -> Z -> outcome Z := scalar_at Reader_u32.
Definition u64_at : bytes -> Z -> outcome Z := scalar_at Reader_u64.

(** ** What a reader does *)

(** The cursor is inside its slice, whose length is an address. *)
Definition reader_ok (r : Reader) : Prop :=
  is_bytes (r_data r) /\ 0 <= r_offset r <= len (r_data r) /\ len (r_data r) <= USIZE_MAX.

(** Between [r] and [r'] the bytes [x] were consumed. *)
Definition advanced (r : Reader) (x : bytes) (r' : Reader) : Prop :=
  reader_ok r' /\ r_data r' = r_data r /\ get_range (r_data r) (r_offset r) (r_offset r') = Some x.

Lemma reader_new_ok data : is_bytes data -> len data <= USIZE_MAX -> reader_ok (Reader_new data).
Proof. intros. split; [done|]. cbn. lia. Qed.

Lemma advanced_refl r : reader_ok r -> advanced r [] r.
Proof.
  intros (Hb & Ho & Hl). split; [done|]. split; [done|].
  destruct (get_range_is_Some (r_data r) (r_offset r) (r_offset r)) as [x Hx]; [lia|lia|].
  pose proof (get_range_length _ _ _ _ Hx) as [Hlen _].
  destruct x; [done|]. cbn [length] in Hlen. lia.
Qed.

Lemma advanced_trans r x r' y r'' :
  advanced r x r' -> advanced r' y r'' -> advanced r (x ++ y) r''.
Proof.
  intros (H1 & E1 & G1) (H2 & E2 & G2). split; [done|]. split; [congruence|].
  eapply get_range_app; [done|]. by rewrite <- E1.
Qed.

Lemma advanced_ok r x r' : advanced r x r' -> reader_ok r'.
Proof. by intros [? _]. Qed.

(** Everything consumed from a fresh reader up to its end is its slice. *)
Lemma advanced_all data x r : advanced (Reader_new data) x r -> r_offset r = len data -> x = data.
Proof.
  intros (_ & Hd & Hx) Ho. cbn in Hx. rewrite Ho, get_range_full in Hx. by simplify_eq.
Qed.

#[export] Hint Resolve advanced_refl advanced_trans advanced_ok reader_new_ok : kernel.

Lemma wp_take size (Q : bytes -> Reader -> Prop) r :
  reader_ok r -> 0 <= size ->
  (forall x r', advanced r x r' -> is_bytes x -> len x = size -> Q x r') ->
  wp (Reader_take size) Q r.
Proof.
  intros (Hb & Ho & Hl) Hs HQ. unfold Reader_take. repeat step.
  apply checked_add_Some in H as [-> ?]. pose proof (get_range_length _ _ _ _ H0).
  apply HQ; [|by eauto with bytes|lia].
  unfold advanced, reader_ok. cbn [r_data r_offset]. split_and!; try done; lia.
Qed.

Lemma wp_remaining (Q : Z -> Reader -> Prop) r :
  reader_ok r -> Q (len (r_data r) - r_offset r) r -> wp Reader_remaining Q r.
Proof.
  intros (Hb & Ho & Hl) HQ. unfold Reader_remaining. repeat step.
  apply owp_usize_sub; [lia|done].
Qed.

Lemma wp_u8 (Q : Z -> Reader -> Prop) r :
  reader_ok r -> (forall v r', advanced r [v] r' -> is_u8 v -> Q v r') -> wp Reader_u8 Q r.
Proof.
  intros Hr HQ. unfold Reader_u8. step. apply wp_take; [done|lia|]. intros x r' Hx Hb Hlen.
  destruct x as [|v [|]]; cbn [length] in Hlen; try lia. step. apply owp_index_at; [cbn; lia|].
  intros v' [_ Hv]%get_at_Some. change (Some v = Some v') in Hv. simplify_eq. apply HQ; [done|by apply Forall_inv in Hb].
Qed.

Lemma wp_boolean (Q : bool -> Reader -> Prop) r :
  reader_ok r -> (forall b r', advanced r [Z.b2z b] r' -> Q b r') -> wp Reader_boolean Q r.
Proof.
  intros Hr HQ. unfold Reader_boolean. step. apply wp_u8; [done|]. intros v r' Hv _.
  repeat step; try done; bool_to_prop; subst.
  - by apply (HQ false).
  - by apply (HQ true).
Qed.

Lemma wp_word n (Q : Z -> Reader -> Prop) r :
  reader_ok r -> 
  (forall v r', advanced r (to_le_bytes n v) r' -> 0 <= v < 256 ^ Z.of_nat n -> Q v r') ->
  wp (value ← Reader_take (Z.of_nat n); mret (from_le_bytes value)) Q r.
Proof.
  intros Hr HQ. step. apply wp_take; [done|lia|]. intros x r' Hx Hb Hlen. step.
  assert (length x = n) as <- by lia. apply HQ; [by rewrite to_from_le|by apply from_le_bytes_bound].
Qed.

Lemma wp_u16 (Q : Z -> Reader -> Prop) r :
  reader_ok r -> (forall v r', advanced r (to_le_bytes 2 v) r' -> is_u16 v -> Q v r') ->
  wp Reader_u16 Q r.
Proof.
  intros Hr HQ. apply (wp_word 2); [done|]. intros v r' Ha Hv. apply HQ; [done|].
  change (256 ^ Z.of_nat 2) with (U16_MAX + 1) in Hv. ulia.
Qed.

Lemma wp_u32 (Q : Z -> Reader -> Prop) r :
  reader_ok r -> (forall v r', advanced r (to_le_bytes 4 v) r' -> is_u32 v -> Q v r') ->
  wp Reader_u32 Q r.
Proof.
  intros Hr HQ. apply (wp_word 4); [done|]. intros v r' Ha Hv. apply HQ; [done|].
  change (256 ^ Z.of_nat 4) with (U32_MAX + 1) in Hv. ulia.
Qed.

Lemma wp_u64 (Q : Z -> Reader -> Prop) r :
  reader_ok r -> (forall v r', advanced r (to_le_bytes 8 v) r' -> is_u64 v -> Q v r') ->
  wp Reader_u64 Q r.
Proof.
  intros Hr HQ. apply (wp_word 8); [done|]. intros v r' Ha Hv. apply HQ; [done|].
  change (256 ^ Z.of_nat 8) with (U64_MAX + 1) in Hv. ulia.
Qed.

Lemma wp_finish (Q : unit -> Reader -> Prop) r :
  reader_ok r -> (r_offset r = len (r_data r) -> Q tt r) -> wp Reader_finish Q r.
Proof.
  intros Hr HQ. unfold Reader_finish. step. apply wp_remaining; [done|].
  repeat step; bool_to_prop. apply HQ. lia.
Qed.

Lemma owp_with_reader {A} (m : M Reader A) (Q : A -> Prop) r :
  wp m (fun a _ => Q a) r -> owp (with_reader r m) Q.
Proof. unfold wp, with_reader. by destruct (m r) as [[a|e|] r']. Qed.

Lemma owp_scalar_at n (m : M Reader Z) data offset (Q : Z -> Prop) :
  (forall r P, reader_ok r ->
     (forall v r', advanced r (to_le_bytes n v) r' -> 0 <= v < 256 ^ Z.of_nat n -> P v r') -> wp m P r) ->
  is_bytes data -> len data <= USIZE_MAX -> 0 <= offset ->
  (forall v, get_range data offset (offset + Z.of_nat n) = Some (to_le_bytes n v) ->
     0 <= v < 256 ^ Z.of_nat n -> Q v) ->
  owp (scalar_at m data offset) Q.
Proof.
  intros Hm Hb Hl Ho HQ. unfold scalar_at. repeat step.
  pose proof H as (Hlen & _ & _)%get_range_length.
  apply owp_with_reader, Hm; [apply reader_new_ok; [by eauto with bytes|lia]|].
  intros v r' (_ & _ & Hx) Hv. apply HQ; [|done]. cbn in Hx.
  pose proof Hx as (Hn & _ & _)%get_range_length. rewrite length_to_le_bytes in Hn.
  replace (r_offset r') with (Z.of_nat n) in Hx by lia.
  apply get_range_Some in H as (_ & p & q & -> & Hp & Hpa).
  apply get_range_Some in Hx as (_ & p' & q' & -> & Hp' & Hx).
  apply get_range_Some. split; [done|]. exists (p ++ p'), (q' ++ q).
  rewrite !length_app, <- !app_assoc. split_and!; [done|lia|lia].
Qed.

Lemma owp_u16_at data offset (Q : Z -> Prop) :
  is_bytes data -> len data <= USIZE_MAX -> 0 <= offset ->
  (forall v, get_range data offset (offset + 2) = Some (to_le_bytes 2 v) -> is_u16 v -> Q v) ->
  owp (u16_at data offset) Q.
Proof.
  intros Hb Hl Ho HQ. apply (owp_scalar_at 2); [|done..|].
  - intros r P Hr HP. by apply (wp_word 2).
  - intros v Hv Hv'. apply HQ; [done|]. change (256 ^ Z.of_nat 2) with (U16_MAX + 1) in Hv'. ulia.
Qed.

Lemma owp_u32_at data offset (Q : Z -> Prop) :
  is_bytes data -> len data <= USIZE_MAX -> 0 <= offset ->
  (forall v, get_range data offset (offset + 4) = Some (to_le_bytes 4 v) -> is_u32 v -> Q v) ->
  owp (u32_at data offset) Q.
Proof.
  intros Hb Hl Ho HQ. apply (owp_scalar_at 4); [|done..|].
  - intros r P Hr HP. by apply (wp_word 4).
  - intros v Hv Hv'. apply HQ; [done|]. change (256 ^ Z.of_nat 4) with (U32_MAX + 1) in Hv'. ulia.
Qed.

Lemma owp_u64_at data offset (Q : Z -> Prop) :
  is_bytes data -> len data <= USIZE_MAX -> 0 <= offset ->
  (forall v, get_range data offset (offset + 8) = Some (to_le_bytes 8 v) -> is_u64 v -> Q v) ->
  owp (u64_at data offset) Q.
Proof.
  intros Hb Hl Ho HQ. apply (owp_scalar_at 8); [|done..|].
  - intros r P Hr HP. by apply (wp_word 8).
  - intros v Hv Hv'. apply HQ; [done|]. change (256 ^ Z.of_nat 8) with (U64_MAX + 1) in Hv'. ulia.
Qed.

(** ** Parsing an encoding

    [reads m x v]: wherever the cursor stands before the bytes [x], [m]
    consumes exactly them and returns [v]. *)

Definition reads {A} (m : M Reader A) (x : bytes) (v : A) : Prop :=
  forall p q, len (p ++ x ++ q) <= USIZE_MAX ->
    m (mkReader (p ++ x ++ q) (len p)) = (Ok v, mkReader (p ++ x ++ q) (len p + len x)).

Lemma reads_ret {A} (v : A) : reads (mret v) [] v.
Proof. intros p q Hl. cbn [length]. by rewrite Z.add_0_r. Qed.

Lemma reads_bind {A B} (m : M Reader A) (f : A -> M Reader B) x y v w :
  reads m x v -> reads (f v) y w -> reads (m ≫= f) (x ++ y) w.
Proof.
  intros Hm Hf p q Hl. unfold mbind, M_bind. rewrite <- app_assoc in *.
  rewrite Hm by done.
  replace (p ++ x ++ y ++ q) with ((p ++ x) ++ y ++ q) in * by (by rewrite <- app_assoc).
  replace (len p + len x) with (len (p ++ x)) by (rewrite length_app; lia).
  rewrite Hf by done. do 2 f_equal. rewrite !length_app. lia.
Qed.

Lemma reads_lift {A} (o : outcome A) v : o = Ok v -> reads (lift o) [] v.
Proof. intros ->. apply reads_ret. Qed.

Lemma reads_ensure_not c e : c = false -> reads (ensure_not c e) [] tt.
Proof. intros ->. apply reads_ret. Qed.

Lemma reads_take n x : len x = n -> reads (Reader_take n) x x.
Proof.
  intros <- p q Hl. unfold Reader_take. unfold_monad. cbn [r_data r_offset].
  rewrite !length_app in Hl. rewrite (proj2 (checked_add_Some _ _ _ _)) by (split; [reflexivity|lia]).
  cbn [ok_or]. rewrite get_range_mid; [done|lia|lia].
Qed.

Lemma reads_u8 v : reads Reader_u8 [v] v.
Proof.
  unfold Reader_u8. rewrite <- (app_nil_r [v]).
  eapply reads_bind; [by apply reads_take|]. by apply reads_lift.
Qed.

Lemma reads_boolean b : reads Reader_boolean [Z.b2z b] b.
Proof.
  unfold Reader_boolean. rewrite <- (app_nil_r [_]).
  eapply reads_bind; [apply reads_u8|]. destruct b; apply reads_ret.
Qed.

Lemma reads_word n v :
  0 <= v < 256 ^ Z.of_nat n ->
  reads (value ← Reader_take (Z.of_nat n); mret (from_le_bytes value)) (to_le_bytes n v) v.
Proof.
  intros Hv. rewrite <- (app_nil_r (to_le_bytes n v)).
  eapply reads_bind; [apply reads_take; by rewrite length_to_le_bytes|].
  rewrite from_to_le by done. apply reads_ret.
Qed.

Lemma reads_u16 v : is_u16 v -> reads Reader_u16 (to_le_bytes 2 v) v.
Proof. intros. apply (reads_word 2). change (256 ^ Z.of_nat 2) with (U16_MAX + 1). ulia. Qed.
Lemma reads_u32 v : is_u32 v -> reads Reader_u32 (to_le_bytes 4 v) v.
Proof. intros. apply (reads_word 4). change (256 ^ Z.of_nat 4) with (U32_MAX + 1). ulia. Qed.
Lemma reads_u64 v : is_u64 v -> reads Reader_u64 (to_le_bytes 8 v) v.
Proof. intros. apply (reads_word 8). change (256 ^ Z.of_nat 8) with (U64_MAX + 1). ulia. Qed.

(** A parser that reads [x] accepts the row [x] and then [finish]es. *)
Lemma reads_row {A} (m : M Reader A) x v :
  reads m x v -> len x <= USIZE_MAX ->
  m (Reader_new x) = (Ok v, mkReader x (len x)).
Proof.
  intros Hm Hl. specialize (Hm [] []). cbn [app length] in Hm. rewrite app_nil_r in Hm.
  by apply Hm.
Qed.

Lemma finish_at_end x : Reader_finish (mkReader x (len x)) = (Ok tt, mkReader x (len x)).
Proof.
  unfold Reader_finish, Reader_remaining, usize_sub. unfold_monad. cbn [r_data r_offset].
  rewrite (proj2 (Z.leb_le _ _)) by lia. by rewrite Z.sub_diag.
Qed.

#[export] Hint Resolve reads_ret reads_take reads_u8 reads_boolean reads_u16 reads_u32 reads_u64 : bytes.

(** The value of a word in the middle of a slice. *)
Lemma scalar_at_mid n p v q offset (m : M Reader Z) :
  reads m (to_le_bytes n v) v -> len (p ++ to_le_bytes n v ++ q) <= USIZE_MAX ->
  offset = len p -> scalar_at m (p ++ to_le_bytes n v ++ q) offset = Ok v.
Proof.
  intros Hm Hl ->. unfold scalar_at, get_from.
  rewrite (get_range_end p (to_le_bytes n v ++ q)); [|done|rewrite !length_app; lia].
  cbn [ok_or]. unfold with_reader. unfold_monad. 
  pose proof (Hm [] q) as H. cbn [app length] in H. unfold Reader_new.
  change (Z.of_nat 0) with 0 in H. rewrite H; [done|]. rewrite !length_app in *. lia.
Qed.

(** [reads_to_end m x v]: standing before the bytes [x] that end the slice,
    [m] consumes them and returns [v]. *)
Definition reads_to_end {A} (m : M Reader A) (x : bytes) (v : A) : Prop :=
  forall p, len (p ++ x) <= USIZE_MAX ->
    m (mkReader (p ++ x) (len p)) = (Ok v, mkReader (p ++ x) (len (p ++ x))).

Lemma reads_to_end_bind {A B} (m : M Reader A) (f : A -> M Reader B) x y v w :
  reads m x v -> reads_to_end (f v) y w -> reads_to_end (m ≫= f) (x ++ y) w.
Proof.
  intros Hm Hf p Hl. unfold mbind, M_bind. rewrite Hm by done.
  replace (p ++ x ++ y) with ((p ++ x) ++ y) in * by (by rewrite <- app_assoc).
  replace (len p + len x) with (len (p ++ x)) by (rewrite length_app; lia). by apply Hf.
Qed.

Lemma reads_to_end_finish : reads_to_end Reader_finish [] tt.
Proof. intros p Hl. rewrite app_nil_r in *. apply finish_at_end. Qed.

Lemma reads_to_end_row {A} (m : M Reader A) x v :
  reads_to_end m x v -> len x <= USIZE_MAX -> with_reader (Reader_new x) m = Ok v.
Proof. intros Hm Hl. unfold with_reader. pose proof (Hm [] Hl) as H. cbn [app length] in H.
  change (Z.of_nat 0) with 0 in H. unfold Reader_new. by rewrite H. Qed.
