(* ===== verification/Varint.v ===== *)
(** * Canonical variable-length integers and frames

    The minimal base-128 encoding shared by the writer ([encode_u64],
    [encode_usize], [encode_frame] of [native/src/canonical.rs]) and the
    scanner ([scan_bounded_varint], [scan_any_varint], [scan_frame] of
    [native/src/model/canonical.rs]).  [varint] is the specification both are
    related to: the writer produces it, and the scanner accepts exactly it. *)

From S2P Require Import Prelude Bytes Error Machine.

(** ** The writer *)

(** [encode_u64]: ten rounds suffice for 64 bits. *)
Fixpoint encode_u64_loop (fuel : nat) (value : Z) : bytes :=
  match fuel with
  | O => []
  | S fuel =>
      let byte := Z.land value 0x7f in
      let value := Z.shiftr value 7 in
      if value =? 0 then [byte] else Z.lor byte 0x80 :: encode_u64_loop fuel value
  end.
Definition encode_u64 (value : Z) : bytes := encode_u64_loop 10 value.

(** [encode_usize] *)
Definition encode_usize (value : Z) : bytes := encode_u64 (default U64_MAX (try_from U64_MAX value)).

(** [encode_frame]: the bytes appended to [output]. *)
Definition encode_frame (value : bytes) : M World bytes :=
  _ ← lift (ok_or (checked_add USIZE_MAX (len value) 10) (limit "native canonical frame size overflow"));
  try_reserve "native canonical frame allocation failed";;
  mret (encode_usize (len value) ++ value).

(** ** The scanner *)

(** [data[cursor]] and the loop of [scan_bounded_varint]; [n] is [end - cursor]. *)
Fixpoint bounded_loop (n : nat) (data : bytes) (start cursor value shift : Z) : outcome (Z * Z) :=
  match n with
  | O => Err (corrupt "truncated canonical varint")
  | S n =>
      byte ← index_at data cursor;
      let cursor := cursor + 1 in
      let payload := Z.land byte 0x7f in
      fail_if ((10 <? cursor - start) || ((shift =? 63) && (1 <? payload)))
        (corrupt "canonical count varint is too large");;
      shifted ← (if shift <? 64 then Ok (Z.land (Z.shiftl payload shift) U64_MAX) else Panic);
      let value := Z.lor value shifted in
      if Z.land byte 0x80 =? 0 then
        fail_if ((1 <? cursor - start) && (byte =? 0)) (corrupt "canonical varint is nonminimal");;
        mret (value, cursor)
      else bounded_loop n data start cursor value (shift + 7)
  end.

(** [scan_bounded_varint] *)
Definition scan_bounded_varint (data : bytes) (offset end_ : Z) : outcome (Z * Z) :=
  bounded_loop (Z.to_nat (end_ - offset)) data offset offset 0 0.

(** The loop of [scan_any_varint]. *)
Fixpoint any_loop (n : nat) (data : bytes) (start cursor : Z) : outcome Z :=
  match n with
  | O => Err (corrupt "truncated canonical integer")
  | S n =>
      byte ← index_at data cursor;
      let cursor := cursor + 1 in
      if Z.land byte 0x80 =? 0 then
        fail_if ((1 <? cursor - start) && (byte =? 0)) (corrupt "canonical integer is nonminimal");;
        mret cursor
      else
        fail_if (142858 <=? cursor - start) (corrupt "canonical integer is unreasonably long");;
        any_loop n data start cursor
  end.

(** [scan_any_varint] *)
Definition scan_any_varint (data : bytes) (offset end_ : Z) : outcome Z :=
  any_loop (Z.to_nat (end_ - offset)) data offset offset.

(** [scan_frame] *)
Definition scan_frame (data : bytes) (offset end_ : Z) : outcome (Z * Z * Z) :=
  '(length_, start) ← scan_bounded_varint data offset end_;
  length_ ← ok_or (try_from USIZE_MAX length_) (corrupt "canonical frame length exceeds address space");
  frame_end ← ok_or (checked_add USIZE_MAX start length_) (corrupt "canonical frame length overflow");
  fail_if ((end_ <? frame_end) || (len data <? frame_end))
    (corrupt "truncated canonical framed component");;
  mret (start, frame_end, frame_end).

(** ** The specification *)

Fixpoint varint_digits (n : nat) (z : Z) : bytes :=
  match n with
  | O => []
  | S n => if z <? 128 then [z] else z mod 128 + 128 :: varint_digits n (z / 128)
  end.

(** The minimal base-128 representation, least significant digit first. *)
Definition varint (z : Z) : bytes := varint_digits (S (Z.to_nat (Z.log2 z))) z.

(** A length-prefixed byte string. *)
Definition frame (x : bytes) : bytes := varint (len x) ++ x.

Fixpoint varint_value (l : bytes) : Z :=
  match l with [] => 0 | b :: l => b mod 128 + 128 * varint_value l end.

Lemma log2_div128 z : 128 <= z -> Z.log2 (z / 128) = Z.log2 z - 7.
Proof.
  intros H. change 128 with (2 ^ 7). rewrite <- Z.shiftr_div_pow2 by lia.
  rewrite Z.log2_shiftr by lia. pose proof (Z.log2_le_mono 128 z). change (Z.log2 128) with 7 in *. lia.
Qed.

Lemma varint_digits_fuel n m z :
  0 <= z -> (Z.to_nat (Z.log2 z) < n)%nat -> (Z.to_nat (Z.log2 z) < m)%nat ->
  varint_digits n z = varint_digits m z.
Proof.
  revert m z. induction n as [|n IH]; intros [|m] z Hz Hn Hm; try lia. cbn [varint_digits].
  destruct (Z.ltb_spec z 128); [done|]. f_equal.
  pose proof (log2_div128 z). pose proof (Z.log2_le_mono 128 z). change (Z.log2 128) with 7 in *.
  apply IH; [apply Z.div_pos; lia|lia|lia].
Qed.

Lemma varint_unfold z :
  0 <= z -> varint z = if z <? 128 then [z] else z mod 128 + 128 :: varint (z / 128).
Proof.
  intros Hz. unfold varint at 1. cbn [varint_digits]. destruct (Z.ltb_spec z 128); [done|].
  f_equal. pose proof (log2_div128 z). pose proof (Z.log2_le_mono 128 z).
  change (Z.log2 128) with 7 in *.
  apply varint_digits_fuel; [apply Z.div_pos; lia|lia|lia].
Qed.

Lemma varint_small z : 0 <= z < 128 -> varint z = [z].
Proof. intros. rewrite varint_unfold by lia. by rewrite (proj2 (Z.ltb_lt z 128)) by lia. Qed.

Lemma varint_large z : 128 <= z -> varint z = z mod 128 + 128 :: varint (z / 128).
Proof. intros. rewrite varint_unfold by lia. by rewrite (proj2 (Z.ltb_ge z 128)) by lia. Qed.

(** Induction on the digits of a number. *)
Lemma varint_ind (P : Z -> Prop) :
  (forall z, 0 <= z < 128 -> P z) ->
  (forall z, 128 <= z -> P (z / 128) -> P z) ->
  forall z, 0 <= z -> P z.
Proof.
  intros H0 HS z Hz. pattern z. apply (Zlt_0_ind P); [|done]. clear z Hz. intros z IH Hz.
  destruct (Z.lt_ge_cases z 128); [by apply H0|]. apply HS; [done|]. apply IH.
  Z.div_mod_to_equations. lia.
Qed.

Lemma is_bytes_varint z : 0 <= z -> is_bytes (varint z).
Proof.
  revert z. apply varint_ind; intros z Hz.
  - rewrite varint_small by done. constructor; [ulia|constructor].
  - intros IH. rewrite varint_large by done. constructor; [|done].
    pose proof (Z.mod_pos_bound z 128). ulia.
Qed.

Lemma varint_length_pos z : 0 <= z -> 0 < len (varint z).
Proof. intros. rewrite varint_unfold by done. case_match; cbn [length]; lia. Qed.

(** A number with [n] digits is below [128 ^ n]. *)
Lemma varint_bound z : 0 <= z -> z < 128 ^ len (varint z).
Proof.
  revert z. apply varint_ind; intros z Hz.
  - rewrite varint_small by done. cbn. lia.
  - intros IH. rewrite varint_large by done. cbn [length].
    rewrite Nat2Z.inj_succ, Z.pow_succ_r by lia. pose proof (Z.div_mod z 128).
    pose proof (Z.mod_pos_bound z 128). lia.
Qed.

Lemma varint_length_le z n : 0 <= z -> 0 < n -> z < 128 ^ n -> len (varint z) <= n.
Proof.
  intros Hz. revert n. pattern z. revert z Hz. apply varint_ind; intros z Hz.
  - intros n. rewrite varint_small by done. cbn [length]. lia.
  - intros IH n Hn Hb. rewrite varint_large by done. cbn [length].
    destruct (Z.eq_dec n 1) as [->|]; [lia|].
    specialize (IH (n - 1) ltac:(lia)). rewrite Nat2Z.inj_succ.
    enough (z / 128 < 128 ^ (n - 1)) by lia.
    apply Z.div_lt_upper_bound; [lia|]. rewrite <- Z.pow_succ_r by lia.
    by replace (Z.succ (n - 1)) with n by lia.
Qed.

Lemma varint_u64_length z : is_u64 z -> len (varint z) <= 10.
Proof. intros. apply varint_length_le; [ulia|lia|ulia]. Qed.

Lemma varint_value_varint z : 0 <= z -> varint_value (varint z) = z.
Proof.
  revert z. apply varint_ind; intros z Hz.
  - rewrite varint_small by done. cbn [varint_value]. rewrite Z.mod_small by lia. lia.
  - intros IH. rewrite varint_large by done. cbn [varint_value]. rewrite IH.
    rewrite <- Z.add_mod_idemp_r by lia. rewrite Z.mod_same, Z.add_0_r, Z.mod_mod by lia.
    pose proof (Z.div_mod z 128). lia.
Qed.

Lemma varint_inj a b : 0 <= a -> 0 <= b -> varint a = varint b -> a = b.
Proof. intros Ha Hb E. rewrite <- (varint_value_varint a), <- (varint_value_varint b) by done. by rewrite E. Qed.

(** Minimality: continued digits, then a last one that is not a superfluous zero. *)
Lemma varint_value_nonneg l : is_bytes l -> 0 <= varint_value l.
Proof.
  induction l as [|b l IH]; cbn [varint_value]; intros Hl; [done|].
  apply Forall_cons in Hl as [Hb Hl]. pose proof (Z.mod_pos_bound b 128). specialize (IH Hl). lia.
Qed.

Lemma varint_value_app l b : varint_value (l ++ [b]) = varint_value l + 128 ^ len l * (b mod 128).
Proof.
  induction l as [|a l IH]; cbn [varint_value app length].
  - change (128 ^ Z.of_nat 0) with 1. lia.
  - rewrite IH, Nat2Z.inj_succ, Z.pow_succ_r by lia. lia.
Qed.

Lemma varint_value_bound l : is_bytes l -> 0 <= varint_value l < 128 ^ len l.
Proof.
  intros Hl. split; [by apply varint_value_nonneg|].
  induction l as [|b l IH]; cbn [varint_value length]; [done|].
  apply Forall_cons in Hl as [Hb Hl]. specialize (IH Hl).
  rewrite Nat2Z.inj_succ, Z.pow_succ_r by lia. pose proof (Z.mod_pos_bound b 128). lia.
Qed.

Lemma varint_of_digits l b :
  Forall (fun d => 128 <= d <= 255) l -> 0 <= b < 128 -> (l = [] \/ b <> 0) ->
  varint (varint_value (l ++ [b])) = l ++ [b].
Proof.
  intros Hl Hb Hz. induction l as [|d l IH]; cbn [app varint_value].
  - rewrite Z.mul_0_r, Z.add_0_r, Z.mod_small, varint_small by lia. done.
  - apply Forall_cons in Hl as [Hd Hl]. specialize (IH Hl).
    assert (is_bytes (l ++ [b])) as Hbytes.
    { apply is_bytes_app. split; [|constructor; [ulia|constructor]].
      eapply Forall_impl; [exact Hl|]. cbn. ulia. }
    pose proof (varint_value_nonneg _ Hbytes). pose proof (Z.mod_pos_bound d 128).
    assert (1 <= varint_value (l ++ [b])) as H1.
    { rewrite varint_value_app, (Z.mod_small b) by lia.
      pose proof (varint_value_nonneg l). destruct Hz as [|Hz]; [done|].
      assert (is_bytes l) by (by apply is_bytes_app in Hbytes as [? _]).
      assert (0 < 128 ^ len l) by (apply Z.pow_pos_nonneg; lia). specialize (H1 H2). nia. }
    rewrite varint_large by lia.
    assert ((d mod 128 + 128 * varint_value (l ++ [b])) mod 128 = d mod 128) as ->.
    { rewrite Z.mul_comm, Z.mod_add, Z.mod_mod by lia. done. }
    rewrite (Z.mul_comm 128), Z.div_add, Z.div_small, Z.add_0_l by lia.
    rewrite IH by (by destruct Hz; [|right]). f_equal.
    rewrite (Z.mod_eq d 128) by lia. Z.div_mod_to_equations. lia.
Qed.

(** ** The writer produces the specification *)

Lemma encode_u64_loop_S n v :
  encode_u64_loop (S n) v =
  if Z.shiftr v 7 =? 0 then [Z.land v 0x7f]
  else Z.lor (Z.land v 0x7f) 0x80 :: encode_u64_loop n (Z.shiftr v 7).
Proof. done. Qed.

Lemma encode_u64_loop_varint n v :
  0 <= v < 128 ^ Z.of_nat (S n) -> encode_u64_loop (S n) v = varint v.
Proof.
  revert v. induction n as [|n IH]; intros v Hv; rewrite encode_u64_loop_S.
  all: rewrite (land_mask v 7) by done; change (2 ^ 7) with 128.
  all: rewrite Z.shiftr_div_pow2 by done; change (2 ^ 7) with 128.
  - change (128 ^ Z.of_nat 1) with 128 in Hv.
    rewrite Z.div_small, Z.mod_small, varint_small by lia. done.
  - rewrite varint_unfold by lia. destruct (Z.ltb_spec v 128).
    + by rewrite Z.div_small, Z.mod_small by lia.
    + assert (1 <= v / 128) by (apply Z.div_le_lower_bound; lia).
      rewrite (proj2 (Z.eqb_neq _ _)) by lia. rewrite IH.
      * f_equal. rewrite (lor_shiftl_add _ 1 7); [lia|done|]. apply Z.mod_pos_bound. lia.
      * split; [lia|]. apply Z.div_lt_upper_bound; [lia|].
        rewrite <- Z.pow_succ_r by lia. replace (Z.succ (Z.of_nat (S n))) with (Z.of_nat (S (S n))) by lia. lia.
Qed.

Lemma encode_u64_varint v : is_u64 v -> encode_u64 v = varint v.
Proof. intros. apply encode_u64_loop_varint. change (128 ^ Z.of_nat 10) with (2 ^ 70). ulia. Qed.

Lemma encode_usize_varint v : is_usize v -> encode_usize v = varint v.
Proof.
  intros Hv. unfold encode_usize. rewrite (proj2 (try_from_Some _ _ v)) by (split; [done|ulia]).
  by apply encode_u64_varint.
Qed.

(** ** The scanner accepts exactly the specification *)

Lemma bounded_loop_sound n data start cursor l value shift :
  is_bytes data -> get_range data start cursor = Some l ->
  Forall (fun d => 128 <= d <= 255) l -> len l <= 10 ->
  cursor + Z.of_nat n <= len data -> value = varint_value l -> shift = 7 * len l ->
  owp (bounded_loop n data start cursor value shift) (fun '(v, next) =>
    get_range data start next = Some (varint v) /\ is_u64 v /\ cursor < next <= cursor + Z.of_nat n).
Proof.
  intros Hb. revert cursor l value shift.
  induction n as [|n IH]; intros cursor l value shift Hl Hd H10 Hn -> ->; cbn [bounded_loop]; [done|].
  pose proof (get_range_length _ _ _ _ Hl) as (Hlen & Hc & Hcl).
  step. apply owp_index_at; [lia|]. intros byte Hbyte.
  assert (is_u8 byte) as Hu8 by eauto with bytes.
  assert (get_range data start (cursor + 1) = Some (l ++ [byte])) as Hl'
    by (eapply get_range_app; [done|by apply get_at_range]).
  rewrite byte_payload, byte_continues by done. pose proof (Z.mod_pos_bound byte 128 ltac:(lia)).
  assert (is_bytes l) as Hbl by eauto with bytes.
  pose proof (varint_value_bound l Hbl) as Hval.
  step. step. bool_to_prop. step.
  destruct (Z.ltb_spec (7 * len l) 64) as [H64|]; [|exfalso; lia]. cbn [owp].
  assert (len l <= 9) as H9 by lia.
  assert (0 <= byte mod 128 * 128 ^ len l < 2 ^ 64 - 128 ^ len l + 1) as Hsum.
  { rewrite <- !pow2_128 in * by lia.
    apply andb_false_iff in H1. destruct (Z.eq_dec (len l) 9) as [E|E].
    - rewrite E in *. destruct H1; bool_to_prop; lia.
    - assert (2 ^ (7 * len l) <= 2 ^ 56) by (apply Z.pow_le_mono_r; lia). nia. }
  rewrite Z.shiftl_mul_pow2 by lia. rewrite pow2_128 by lia.
  rewrite (land_mask _ 64) by done.
  assert (0 < 128 ^ len l) by (apply Z.pow_pos_nonneg; lia).
  rewrite (Z.mod_small (_ * _)) by lia.
  rewrite <- pow2_128, <- Z.shiftl_mul_pow2, lor_shiftl_add by (rewrite ?pow2_128 by lia; lia).
  rewrite pow2_128 by lia. rewrite (Z.mul_comm (byte mod 128)), <- varint_value_app.
  destruct (Z.ltb_spec byte 128).
  - assert (is_u64 (varint_value (l ++ [byte]))) as Hv.
    { rewrite varint_value_app. rewrite (Z.mul_comm (128 ^ _)). ulia. }
    step. step. cbn [owp mret outcome_ret]. split; [|split; [exact Hv|lia]].
    rewrite Hl', varint_of_digits; [done|done|ulia|].
    apply andb_false_iff in H4. destruct H4; bool_to_prop; [left|by right].
    destruct l; [done|]. cbn [length] in *. lia.
  - eapply owp_mono; [|apply (IH (cursor + 1) (l ++ [byte])); [exact Hl'| | |lia|done|]].
    + intros [v next] (? & ? & ?). split_and!; try done; lia.
    + apply Forall_app. split; [done|]. constructor; [ulia|constructor].
    + rewrite length_app. cbn [length]. lia.
    + rewrite length_app. cbn [length]. lia.
Qed.

Lemma scan_bounded_varint_sound data offset end_ (Q : Z * Z -> Prop) :
  is_bytes data -> 0 <= offset -> end_ <= len data ->
  (forall v next, get_range data offset next = Some (varint v) -> is_u64 v ->
     offset < next <= end_ -> Q (v, next)) ->
  owp (scan_bounded_varint data offset end_) Q.
Proof.
  intros Hb Ho He HQ. unfold scan_bounded_varint.
  destruct (Z.lt_ge_cases offset end_) as [Hlt|Hge].
  2: { replace (Z.to_nat (end_ - offset)) with O by lia. done. }
  destruct (get_range_is_Some data offset offset) as [x Hx]; [lia|lia|].
  pose proof (get_range_length _ _ _ _ Hx) as [Hlen _].
  destruct x; [|cbn [length] in Hlen; lia].
  eapply owp_mono; [|eapply (bounded_loop_sound _ _ _ _ []); try done; cbn [length]; lia].
  intros [v next] (Hv & Hu & Hn). apply HQ; [done|done|lia].
Qed.

(** One round of the loop, when no check fails. *)
Lemma bounded_loop_step n data start cursor byte k value shift :
  get_at data cursor = Some byte -> is_u8 byte -> cursor = start + k -> 0 <= k <= 9 ->
  0 <= value < 128 ^ k -> shift = 7 * k -> value + 128 ^ k * (byte mod 128) <= U64_MAX ->
  (k = 0 \/ byte <> 0) ->
  bounded_loop (S n) data start cursor value shift =
  if byte <? 128 then Ok (value + 128 ^ k * (byte mod 128), cursor + 1)
  else bounded_loop n data start (cursor + 1) (value + 128 ^ k * (byte mod 128)) (shift + 7).
Proof.
  intros Hat Hb -> Hk Hv -> Hmax Hz. cbn [bounded_loop]. unfold index_at. rewrite Hat.
  cbn [or_panic]. unfold mbind, mret, outcome_mbind, outcome_ret, fail_if. cbn [outcome_bind].
  rewrite byte_payload, byte_continues by done.
  pose proof (Z.mod_pos_bound byte 128 ltac:(lia)).
  assert (0 < 128 ^ k) by (apply Z.pow_pos_nonneg; lia).
  assert ((10 <? start + k + 1 - start) || ((7 * k =? 63) && (1 <? byte mod 128)) = false) as ->.
  { apply orb_false_iff. split; [lia|]. destruct (Z.eqb_spec (7 * k) 63) as [E|]; [|done].
    assert (k = 9) as -> by lia. change (128 ^ 9) with (2 ^ 63) in *. cbn [andb]. ulia. }
  rewrite (proj2 (Z.ltb_lt (7 * k) 64)) by lia. cbn [outcome_bind].
  rewrite (land_mask _ 64), Z.shiftl_mul_pow2, pow2_128 by lia || done.
  rewrite (Z.mod_small (_ * _)) by ulia.
  rewrite <- pow2_128, <- Z.shiftl_mul_pow2, lor_shiftl_add by (rewrite ?pow2_128 by lia; lia).
  rewrite pow2_128, (Z.mul_comm (byte mod 128)) by lia.
  destruct (byte <? 128); [|done].
  destruct Hz as [-> | Hz].
  - rewrite (proj2 (Z.ltb_ge 1 _)) by lia. done.
  - rewrite (proj2 (Z.eqb_neq byte 0)) by done. by rewrite andb_false_r.
Qed.

(** The scanner reads every canonical integer. *)
Lemma bounded_loop_complete data start v : 0 <= v -> forall n cursor k value,
  get_range data cursor (cursor + len (varint v)) = Some (varint v) ->
  cursor = start + k -> 0 <= k <= 9 -> 0 <= value < 128 ^ k -> (k = 0 \/ v <> 0) ->
  value + 128 ^ k * v <= U64_MAX -> (length (varint v) <= n)%nat ->
  bounded_loop n data start cursor value (7 * k) =
  Ok (value + 128 ^ k * v, cursor + len (varint v)).
Proof.
  revert v. refine (varint_ind _ _ _); intros v Hv.
  - intros n cursor k value Hr Hc Hk Hval Hz Hmax Hn. rewrite varint_small in * by done.
    destruct n as [|n]; [cbn [length] in Hn; lia|]. cbn [length] in *.
    assert (get_at data cursor = Some v) as Hat.
    { rewrite <- (Z.add_0_r cursor). by rewrite <- (get_range_at _ _ _ _ 0 Hr) by lia. }
    rewrite (bounded_loop_step _ _ _ _ v k) by (rewrite ?Z.mod_small by lia; ulia || done).
    rewrite (proj2 (Z.ltb_lt v 128)), Z.mod_small by lia. done.
  - intros IH n cursor k value Hr Hc Hk Hval Hz Hmax Hn. rewrite varint_large in * by done.
    destruct n as [|n]; [cbn [length] in Hn; lia|]. cbn [length] in *.
    set (b := v mod 128 + 128) in *. pose proof (Z.mod_pos_bound v 128 ltac:(lia)).
    assert (b mod 128 = v mod 128) as Hbm.
    { unfold b. rewrite <- Z.add_mod_idemp_r, Z.mod_same, Z.add_0_r, Z.mod_mod by lia. done. }
    pose proof (Z.div_mod v 128 ltac:(lia)) as Hdm.
    assert (0 < 128 ^ k) by (apply Z.pow_pos_nonneg; lia).
    assert (128 ^ (k + 1) = 128 * 128 ^ k) as Hpow by (rewrite Z.pow_add_r by lia; lia).
    assert (1 <= v / 128) by (apply Z.div_le_lower_bound; lia).
    assert (k <> 9) as Hk9.
    { intros ->. change (128 ^ 9) with (2 ^ 63) in *. ulia. }
    assert (get_at data cursor = Some b) as Hat.
    { rewrite <- (Z.add_0_r cursor). by rewrite <- (get_range_at _ _ _ _ 0 Hr) by lia. }
    rewrite (bounded_loop_step _ _ _ _ b k); try done; rewrite ?Hbm; try (unfold b; ulia); try nia.
    rewrite (proj2 (Z.ltb_ge b 128)) by lia.
    replace (7 * k + 7) with (7 * (k + 1)) by lia.
    rewrite IH; [f_equal; f_equal; [nia|lia]| |lia|lia|nia|right; lia|nia|lia].
    apply get_range_Some in Hr as (Hc0 & p & q & -> & Hp & Hq).
    apply get_range_Some. split; [lia|]. exists (p ++ [b]), q.
    rewrite length_app, <- app_assoc. cbn [length app]. split_and!; [done|lia|lia].
Qed.

Lemma scan_bounded_varint_complete data offset end_ v :
  is_u64 v -> get_range data offset (offset + len (varint v)) = Some (varint v) ->
  offset + len (varint v) <= end_ ->
  scan_bounded_varint data offset end_ = Ok (v, offset + len (varint v)).
Proof.
  intros Hv Hr He. unfold scan_bounded_varint.
  rewrite (bounded_loop_complete data offset v ltac:(ulia) _ offset 0 0);
    try done; try lia; change (128 ^ 0) with 1; try ulia.
  do 2 f_equal. lia.
Qed.

(** ** Integers of any size *)

Lemma any_loop_sound n data start cursor l :
  is_bytes data -> get_range data start cursor = Some l ->
  Forall (fun d => 128 <= d <= 255) l -> len l < 142858 ->
  cursor + Z.of_nat n <= len data ->
  owp (any_loop n data start cursor) (fun next => exists z, 0 <= z /\
    get_range data start next = Some (varint z) /\ len (varint z) <= 142858 /\
    cursor < next <= cursor + Z.of_nat n).
Proof.
  intros Hb. revert cursor l. induction n as [|n IH]; intros cursor l Hl Hd Hlim Hn; cbn [any_loop]; [done|].
  pose proof (get_range_length _ _ _ _ Hl) as (Hlen & Hc & Hcl).
  step. apply owp_index_at; [lia|]. intros byte Hbyte.
  assert (is_u8 byte) as Hu8 by eauto with bytes.
  assert (get_range data start (cursor + 1) = Some (l ++ [byte])) as Hl'
    by (eapply get_range_app; [done|by apply get_at_range]).
  rewrite byte_continues by done. destruct (Z.ltb_spec byte 128).
  - step. step. cbn [owp mret outcome_ret]. exists (varint_value (l ++ [byte])).
    assert (varint (varint_value (l ++ [byte])) = l ++ [byte]) as E.
    { apply varint_of_digits; [done|ulia|]. apply andb_false_iff in H0.
      destruct H0; bool_to_prop; [left|by right]. destruct l; [done|]. cbn [length] in *. lia. }
    rewrite E, length_app. cbn [length]. split_and!; try done; try lia.
    apply varint_value_nonneg. eauto with bytes.
  - step. step. bool_to_prop. eapply owp_mono; [|apply (IH (cursor + 1) (l ++ [byte])); [exact Hl'| | |lia]].
    + intros next (z & ? & ? & ? & ? & ?). exists z. split_and!; try done; lia.
    + apply Forall_app. split; [done|]. constructor; [ulia|constructor].
    + rewrite length_app. cbn [length]. lia.
Qed.

Lemma scan_any_varint_sound data offset end_ (Q : Z -> Prop) :
  is_bytes data -> 0 <= offset -> end_ <= len data ->
  (forall z next, 0 <= z -> get_range data offset next = Some (varint z) ->
     len (varint z) <= 142858 -> offset < next <= end_ -> Q next) ->
  owp (scan_any_varint data offset end_) Q.
Proof.
  intros Hb Ho He HQ. unfold scan_any_varint.
  destruct (Z.lt_ge_cases offset end_) as [Hlt|Hge].
  2: { replace (Z.to_nat (end_ - offset)) with O by lia. done. }
  destruct (get_range_is_Some data offset offset) as [x Hx]; [lia|lia|].
  pose proof (get_range_length _ _ _ _ Hx) as [Hlen _].
  destruct x; [|cbn [length] in Hlen; lia].
  eapply owp_mono; [|eapply (any_loop_sound _ _ _ _ []); try done; cbn [length]; lia].
  intros next (z & Hz & Hr & Hl & Hn). apply (HQ z); [done|done|done|lia].
Qed.

Lemma any_loop_complete data start z : 0 <= z -> forall n cursor k,
  get_range data cursor (cursor + len (varint z)) = Some (varint z) ->
  cursor = start + k -> 0 <= k -> k + len (varint z) <= 142858 -> (k = 0 \/ z <> 0) ->
  (length (varint z) <= n)%nat ->
  any_loop n data start cursor = Ok (cursor + len (varint z)).
Proof.
  revert z. refine (varint_ind _ _ _); intros z Hz.
  - intros n cursor k Hr -> Hk Hlim Hnz Hn. rewrite varint_small in * by done.
    destruct n as [|n]; [cbn [length] in Hn; lia|]. cbn [length] in *.
    assert (get_at data (start + k) = Some z) as Hat.
    { rewrite <- (Z.add_0_r (start + k)). by rewrite <- (get_range_at _ _ _ _ 0 Hr) by lia. }
    cbn [any_loop]. unfold index_at. rewrite Hat. cbn [or_panic].
    unfold mbind, mret, outcome_mbind, outcome_ret, fail_if. cbn [outcome_bind].
    rewrite byte_continues, (proj2 (Z.ltb_lt z 128)) by ulia.
    assert ((1 <? start + k + 1 - start) && (z =? 0) = false) as ->; [|done].
    apply andb_false_iff. destruct Hnz as [-> |]; [left; lia|right; lia].
  - intros IH n cursor k Hr -> Hk Hlim Hnz Hn. rewrite varint_large in * by done.
    destruct n as [|n]; [cbn [length] in Hn; lia|]. cbn [length] in *.
    set (b := z mod 128 + 128) in *. pose proof (Z.mod_pos_bound z 128 ltac:(lia)).
    assert (1 <= z / 128) by (apply Z.div_le_lower_bound; lia).
    assert (get_at data (start + k) = Some b) as Hat.
    { rewrite <- (Z.add_0_r (start + k)). by rewrite <- (get_range_at _ _ _ _ 0 Hr) by lia. }
    cbn [any_loop]. unfold index_at. rewrite Hat. cbn [or_panic].
    unfold mbind, mret, outcome_mbind, outcome_ret, fail_if. cbn [outcome_bind].
    rewrite byte_continues, (proj2 (Z.ltb_ge b 128)) by (unfold b; ulia).
    pose proof (varint_length_pos (z / 128) ltac:(lia)).
    rewrite (proj2 (Z.leb_gt 142858 _)) by lia. cbn [outcome_bind].
    rewrite (IH n (start + k + 1) (k + 1)); [f_equal; lia| |lia|lia|lia|right; lia|lia].
    apply get_range_Some in Hr as (Hc0 & p & q & -> & Hp & Hq).
    apply get_range_Some. split; [lia|]. exists (p ++ [b]), q.
    rewrite length_app, <- app_assoc. cbn [length app]. split_and!; [done|lia|lia].
Qed.

Lemma scan_any_varint_complete data offset end_ z :
  0 <= z -> len (varint z) <= 142858 ->
  get_range data offset (offset + len (varint z)) = Some (varint z) ->
  offset + len (varint z) <= end_ ->
  scan_any_varint data offset end_ = Ok (offset + len (varint z)).
Proof.
  intros Hz Hl Hr He. unfold scan_any_varint.
  by apply (any_loop_complete data offset z Hz _ offset 0); try done; lia.
Qed.

(** ** Frames *)

Lemma length_frame x : len (frame x) = len (varint (len x)) + len x.
Proof. unfold frame. rewrite length_app. lia. Qed.

Lemma is_bytes_frame x : is_bytes x -> is_bytes (frame x).
Proof. intros. apply is_bytes_app. split; [apply is_bytes_varint; lia|done]. Qed.

(** Varints and frames are prefix codes. *)
Lemma varint_app_inj a b p q :
  0 <= a -> 0 <= b -> varint a ++ p = varint b ++ q -> a = b /\ p = q.
Proof.
  intros Ha. revert b p q. pattern a. revert a Ha. refine (varint_ind _ _ _).
  - intros a Ha b p q Hb E. rewrite varint_small in E by done.
    destruct (Z.lt_ge_cases b 128).
    + rewrite (varint_small b) in E by lia. by simplify_eq.
    + rewrite varint_large in E by lia. simplify_eq. pose proof (Z.mod_pos_bound b 128 ltac:(lia)). lia.
  - intros a Ha IH b p q Hb E. rewrite varint_large in E by done.
    destruct (Z.lt_ge_cases b 128).
    + rewrite (varint_small b) in E by lia. simplify_eq. pose proof (Z.mod_pos_bound a 128 ltac:(lia)). lia.
    + rewrite (varint_large b) in E by done. cbn [app] in E. simplify_eq.
      apply IH in H1 as [Hd ->]; [|apply Z.div_pos; lia]. split; [|done].
      rewrite (Z.div_mod a 128), (Z.div_mod b 128) by lia. lia.
Qed.

Lemma frame_app_inj x y p q : frame x ++ p = frame y ++ q -> x = y /\ p = q.
Proof.
  unfold frame. rewrite <- !app_assoc. intros E. apply varint_app_inj in E as [Hl E]; [|lia|lia].
  apply app_inj_1 in E; [done|lia].
Qed.

Lemma scan_frame_sound data offset end_ (Q : Z * Z * Z -> Prop) :
  is_bytes data -> len data <= USIZE_MAX -> 0 <= offset -> end_ <= len data ->
  (forall start stop x, get_range data start stop = Some x ->
     get_range data offset stop = Some (frame x) -> offset < start <= stop -> stop <= end_ ->
     Q (start, stop, stop)) ->
  owp (scan_frame data offset end_) Q.
Proof.
  intros Hb Hl Ho He HQ. unfold scan_frame. step. apply scan_bounded_varint_sound; [done..|].
  intros v next Hv Hu Hn. step. step. apply try_from_Some in H as [-> _]. step. step.
  apply checked_add_Some in H as [-> Hmax]. step. step. bool_to_prop.
  cbn [owp mret outcome_ret].
  destruct (get_range_is_Some data next (next + v)) as [x Hx]; [ulia|lia|].
  apply (HQ _ _ x); [done| |ulia|lia].
  unfold frame. pose proof (get_range_length _ _ _ _ Hx) as [-> _].
  replace (next + v - next) with v by lia. by eapply get_range_app.
Qed.

Lemma scan_frame_complete data offset end_ x :
  len data <= USIZE_MAX -> end_ <= len data -> 0 <= offset ->
  get_range data offset (offset + len (frame x)) = Some (frame x) ->
  offset + len (frame x) <= end_ ->
  scan_frame data offset end_ =
    Ok (offset + len (varint (len x)), offset + len (frame x), offset + len (frame x)).
Proof.
  intros Hl He Ho Hr Hend. rewrite length_frame in *.
  assert (get_range data offset (offset + len (varint (len x))) = Some (varint (len x))) as Hv.
  { apply get_range_Some in Hr as (_ & p & q & -> & Hp & Hq). apply get_range_Some.
    split; [lia|]. exists p, (x ++ q). unfold frame. rewrite <- !app_assoc. split_and!; [done|lia|lia]. }
  pose proof (get_range_length _ _ _ _ Hr) as (_ & _ & ?).
  unfold scan_frame. rewrite (scan_bounded_varint_complete _ _ _ (len x)) by (done || ulia).
  unfold mbind, mret, outcome_mbind, outcome_ret, fail_if. cbn [outcome_bind].
  rewrite (proj2 (try_from_Some _ _ (len x))) by (split; [done|ulia]). cbn [ok_or].
  cbn [outcome_bind].
  rewrite (proj2 (checked_add_Some _ _ _ (offset + len (varint (len x)) + len x))) by (split; [done|ulia]).
  cbn [ok_or outcome_bind].
  assert ((end_ <? offset + len (varint (len x)) + len x) ||
          (len data <? offset + len (varint (len x)) + len x) = false) as ->.
  { apply orb_false_iff. lia. }
  cbn [outcome_bind]. rewrite <- Z.add_assoc. done.
Qed.

(** The scanner and the writer of canonical integers are inverse: the scanner
    returns [v] with the next offset exactly when the bytes between the offsets
    are the ones the writer emits for [v] (so non-minimal, oversized and
    truncated encodings are all rejected), and it never panics. *)
Theorem varint_scanner_inverts_writer data offset end_ v next :
  is_bytes data -> 0 <= offset -> end_ <= len data ->
  (scan_bounded_varint data offset end_ = Ok (v, next) <->
   is_u64 v /\ get_range data offset next = Some (encode_u64 v) /\ next <= end_) /\
  scan_bounded_varint data offset end_ <> Panic.
Proof.
  intros Hb Ho He.
  pose proof (scan_bounded_varint_sound data offset end_ (fun '(v, next) =>
    is_u64 v /\ get_range data offset next = Some (encode_u64 v) /\ next <= end_) Hb Ho He) as Hs.
  specialize (Hs ltac:(intros; cbv beta iota; rewrite encode_u64_varint by done; split; [done|split; [done|lia]])).
  split; [split|by eapply owp_no_panic].
  - intros E. by rewrite E in Hs.
  - intros (Hv & Hr & Hn). rewrite encode_u64_varint in Hr by done.
    pose proof (get_range_length _ _ _ _ Hr) as (Hlen & _).
    replace next with (offset + len (varint v)) in * by lia.
    by apply scan_bounded_varint_complete.
Qed.

Lemma varint_scanner_inverts_writer_witness :
  scan_bounded_varint [7; 0xac; 0x02; 9] 1 4 = Ok (300, 3).
Proof.
  apply (proj1 (varint_scanner_inverts_writer [7; 0xac; 0x02; 9] 1 4 300 3
    ltac:(apply is_bytesb_true; reflexivity) ltac:(lia) ltac:(cbn; lia))).
  split; [vm_compute; split; discriminate|]. split; [vm_compute; reflexivity|lia].
Defined.
