(* ===== verification/Schema.v ===== *)
(** * The frozen component schema ([native/src/model/canonical.rs])

    The tags of the canonical model, their categories and field ledgers, and
    the structural roles a nested node can play. *)

From S2P Require Import Prelude Bytes.

Inductive Category :=
  | CIri | CEntity | CAnonymous | CLiteral | CAnnotation | CTerm | CAxiom | CSwrl.

#[export] Instance Category_eq_dec : EqDecision Category.
Proof. solve_decision. Defined.

Record Spec := mkSpec { fields : Z; spec_category : Category }.

Inductive EntityKind :=
  | KClass | KDatatype | KObjectProperty | KDataProperty | KAnnotationProperty | KNamedIndividual.

#[export] Instance EntityKind_eq_dec : EqDecision EntityKind.
Proof. solve_decision. Defined.

(** What the scanner remembers of a node it has read. *)
Record NodeMeta := mkNodeMeta {
  tag : Z;
  category : Category;
  entity_kind : option EntityKind;
  iri : option bytes;
  encoded : bytes
}.

Inductive NodeRule :=
  | RIri | REntity | RClass | RDatatype | RObjectProperty | RDataProperty | RAnnotationProperty
  | RLiteral | RAnnotation | RFacetRestriction | RDataRange | RClassExpression
  | RObjectPropertyExpression | RSubObjectPropertyExpression | RIndividual | RAnnotationSubject
  | RAnnotationValue | RIndividualArgument | RDataArgument | RAtom.

Inductive ScalarRule :=
  | SText | SBytesExact (size : Z) | SBytesNonempty | SInteger | SEntityKind | SOptionalText.

Inductive FieldRule :=
  | FScalar (rule : ScalarRule)
  | FNode (rule : NodeRule)
  | FSet (node : NodeRule) (minimum : Z) (forbidden_tag : option Z)
  | FSequence (node : NodeRule) (minimum : Z).

Inductive FieldValue :=
  | VNull
  | VText (text : bytes)
  | VBytes
  | VInteger
  | VEntityKind (kind : EntityKind)
  | VNode (meta : NodeMeta)
  | VCollection (count : Z).

(** [scalar], [node], [set], [flattened_set], [sequence] *)
Definition scalar (rule : ScalarRule) : FieldRule := FScalar rule.
Definition node (rule : NodeRule) : FieldRule := FNode rule.
Definition set_ (node : NodeRule) (minimum : Z) : FieldRule := FSet node minimum None.
Definition flattened_set (node : NodeRule) (minimum tag : Z) : FieldRule := FSet node minimum (Some tag).
Definition sequence (node : NodeRule) (minimum : Z) : FieldRule := FSequence node minimum.

(** [spec] *)
Definition spec (tag : Z) : option Spec :=
  match tag with
  | 1 => Some (mkSpec 1 CIri)
  | 2 => Some (mkSpec 2 CEntity)
  | 3 => Some (mkSpec 2 CAnonymous)
  | 4 => Some (mkSpec 3 CLiteral)
  | 5 => Some (mkSpec 3 CAnnotation)
  | 10 => Some (mkSpec 1 CTerm)
  | 11 => Some (mkSpec 1 CTerm)
  | 20 => Some (mkSpec 2 CTerm)
  | 21 | 22 | 23 | 24 | 30 | 31 | 32 | 33 | 37 => Some (mkSpec 1 CTerm)
  | 25 | 34 | 35 | 36 | 41 | 42 | 43 => Some (mkSpec 2 CTerm)
  | 38 | 39 | 40 | 44 | 45 | 46 => Some (mkSpec 3 CTerm)
  | 60 | 62 | 63 | 71 | 72 | 76 | 77 | 78 | 79 | 80 | 81 | 82 | 91 | 92 | 95 | 110 | 111 =>
      Some (mkSpec 2 CAxiom)
  | 61 | 64 | 70 | 73 | 74 | 75 | 90 | 93 | 94 | 100 | 112 | 121 | 122 | 123 =>
      Some (mkSpec 3 CAxiom)
  | 101 | 113 | 114 | 115 | 116 | 120 => Some (mkSpec 4 CAxiom)
  | 140 => Some (mkSpec 1 CSwrl)
  | 141 | 142 | 145 | 146 | 147 => Some (mkSpec 2 CSwrl)
  | 143 | 144 | 148 => Some (mkSpec 3 CSwrl)
  | _ => None
  end.

(** [field_rule] *)
Definition field_rule (tag index : Z) : option FieldRule :=
  match tag, index with
  | 1, 0 => Some (scalar SText)
  | 2, 0 => Some (scalar SEntityKind)
  | 2, 1 => Some (node RIri)
  | 3, 0 => Some (scalar (SBytesExact 32))
  | 3, 1 => Some (scalar SBytesNonempty)
  | 4, 0 => Some (scalar SText)
  | 4, 1 => Some (node RDatatype)
  | 4, 2 => Some (scalar SOptionalText)
  | 5, 0 => Some (node RAnnotationProperty)
  | 5, 1 => Some (node RAnnotationValue)
  | 5, 2 => Some (set_ RAnnotation 0)
  | 10, 0 => Some (node RObjectProperty)
  | 11, 0 => Some (sequence RObjectPropertyExpression 2)
  | 20, 0 => Some (node RIri)
  | 20, 1 => Some (node RLiteral)
  | 21, 0 => Some (flattened_set RDataRange 2 21)
  | 22, 0 => Some (flattened_set RDataRange 2 22)
  | 23, 0 => Some (node RDataRange)
  | 24, 0 => Some (set_ RLiteral 1)
  | 25, 0 => Some (node RDatatype)
  | 25, 1 => Some (set_ RFacetRestriction 1)
  | 30, 0 => Some (flattened_set RClassExpression 2 30)
  | 31, 0 => Some (flattened_set RClassExpression 2 31)
  | 32, 0 => Some (node RClassExpression)
  | 33, 0 => Some (set_ RIndividual 1)
  | (34 | 35), 0 => Some (node RObjectPropertyExpression)
  | (34 | 35), 1 => Some (node RClassExpression)
  | 36, 0 => Some (node RObjectPropertyExpression)
  | 36, 1 => Some (node RIndividual)
  | 37, 0 => Some (node RObjectPropertyExpression)
  | (38 | 39 | 40), 0 => Some (scalar SInteger)
  | (38 | 39 | 40), 1 => Some (node RObjectPropertyExpression)
  | (38 | 39 | 40), 2 => Some (node RClassExpression)
  | (41 | 42), 0 => Some (sequence RDataProperty 1)
  | (41 | 42), 1 => Some (node RDataRange)
  | 43, 0 => Some (node RDataProperty)
  | 43, 1 => Some (node RLiteral)
  | (44 | 45 | 46), 0 => Some (scalar SInteger)
  | (44 | 45 | 46), 1 => Some (node RDataProperty)
  | (44 | 45 | 46), 2 => Some (node RDataRange)
  | 60, 0 => Some (node REntity)
  | 60, 1 => Some (set_ RAnnotation 0)
  | 61, (0 | 1) => Some (node RClassExpression)
  | 61, 2 => Some (set_ RAnnotation 0)
  | (62 | 63), 0 => Some (set_ RClassExpression 2)
  | (62 | 63), 1 => Some (set_ RAnnotation 0)
  | 64, 0 => Some (node RClass)
  | 64, 1 => Some (set_ RClassExpression 2)
  | 64, 2 => Some (set_ RAnnotation 0)
  | 70, 0 => Some (node RSubObjectPropertyExpression)
  | 70, 1 => Some (node RObjectPropertyExpression)
  | 70, 2 => Some (set_ RAnnotation 0)
  | (71 | 72), 0 => Some (set_ RObjectPropertyExpression 2)
  | (71 | 72), 1 => Some (set_ RAnnotation 0)
  | 73, (0 | 1) => Some (node RObjectPropertyExpression)
  | 73, 2 => Some (set_ RAnnotation 0)
  | (74 | 75), 0 => Some (node RObjectPropertyExpression)
  | (74 | 75), 1 => Some (node RClassExpression)
  | (74 | 75), 2 => Some (set_ RAnnotation 0)
  | (76 | 77 | 78 | 79 | 80 | 81 | 82), 0 => Some (node RObjectPropertyExpression)
  | (76 | 77 | 78 | 79 | 80 | 81 | 82), 1 => Some (set_ RAnnotation 0)
  | 90, (0 | 1) => Some (node RDataProperty)
  | 90, 2 => Some (set_ RAnnotation 0)
  | (91 | 92), 0 => Some (set_ RDataProperty 2)
  | (91 | 92), 1 => Some (set_ RAnnotation 0)
  | 93, 0 => Some (node RDataProperty)
  | 93, 1 => Some (node RClassExpression)
  | 93, 2 => Some (set_ RAnnotation 0)
  | 94, 0 => Some (node RDataProperty)
  | 94, 1 => Some (node RDataRange)
  | 94, 2 => Some (set_ RAnnotation 0)
  | 95, 0 => Some (node RDataProperty)
  | 95, 1 => Some (set_ RAnnotation 0)
  | 100, 0 => Some (node RDatatype)
  | 100, 1 => Some (node RDataRange)
  | 100, 2 => Some (set_ RAnnotation 0)
  | 101, 0 => Some (node RClassExpression)
  | 101, 1 => Some (set_ RObjectPropertyExpression 0)
  | 101, 2 => Some (set_ RDataProperty 0)
  | 101, 3 => Some (set_ RAnnotation 0)
  | (110 | 111), 0 => Some (set_ RIndividual 2)
  | (110 | 111), 1 => Some (set_ RAnnotation 0)
  | 112, 0 => Some (node RClassExpression)
  | 112, 1 => Some (node RIndividual)
  | 112, 2 => Some (set_ RAnnotation 0)
  | (113 | 114), 0 => Some (node RObjectPropertyExpression)
  | (113 | 114), (1 | 2) => Some (node RIndividual)
  | (113 | 114), 3 => Some (set_ RAnnotation 0)
  | (115 | 116), 0 => Some (node RDataProperty)
  | (115 | 116), 1 => Some (node RIndividual)
  | (115 | 116), 2 => Some (node RLiteral)
  | (115 | 116), 3 => Some (set_ RAnnotation 0)
  | 120, 0 => Some (node RAnnotationProperty)
  | 120, 1 => Some (node RAnnotationSubject)
  | 120, 2 => Some (node RAnnotationValue)
  | 120, 3 => Some (set_ RAnnotation 0)
  | 121, (0 | 1) => Some (node RAnnotationProperty)
  | 121, 2 => Some (set_ RAnnotation 0)
  | (122 | 123), 0 => Some (node RAnnotationProperty)
  | (122 | 123), 1 => Some (node RIri)
  | (122 | 123), 2 => Some (set_ RAnnotation 0)
  | 140, 0 => Some (node RIri)
  | 141, 0 => Some (node RClassExpression)
  | 141, 1 => Some (node RIndividualArgument)
  | 142, 0 => Some (node RDataRange)
  | 142, 1 => Some (node RDataArgument)
  | 143, 0 => Some (node RObjectPropertyExpression)
  | 143, (1 | 2) => Some (node RIndividualArgument)
  | 144, 0 => Some (node RDataProperty)
  | 144, 1 => Some (node RIndividualArgument)
  | 144, 2 => Some (node RDataArgument)
  | 145, 0 => Some (node RIri)
  | 145, 1 => Some (sequence RDataArgument 0)
  | (146 | 147), (0 | 1) => Some (node RIndividualArgument)
  | 148, (0 | 1) => Some (set_ RAtom 0)
  | 148, 2 => Some (set_ RAnnotation 0)
  | _, _ => None
  end.

(** [canonical_field_count] *)
Definition canonical_field_count (tag : Z) : option Z := fields <$> spec tag.

(** [EntityKind::decode] *)
Definition EntityKind_decode (value : bytes) : option EntityKind :=
  if bytes_eqb value (str "class") then Some KClass else
  if bytes_eqb value (str "datatype") then Some KDatatype else
  if bytes_eqb value (str "object_property") then Some KObjectProperty else
  if bytes_eqb value (str "data_property") then Some KDataProperty else
  if bytes_eqb value (str "annotation_property") then Some KAnnotationProperty else
  if bytes_eqb value (str "named_individual") then Some KNamedIndividual else
  None.

(** [NodeRule::accepts] *)
Definition accepts (rule : NodeRule) (value : NodeMeta) : bool :=
  let entity kind := (tag value =? 2) && bool_decide (entity_kind value = Some kind) in
  match rule with
  | RIri => tag value =? 1
  | REntity => (tag value =? 2) && bool_decide (is_Some (entity_kind value))
  | RClass => entity KClass
  | RDatatype => entity KDatatype
  | RObjectProperty => entity KObjectProperty
  | RDataProperty => entity KDataProperty
  | RAnnotationProperty => entity KAnnotationProperty
  | RLiteral => tag value =? 4
  | RAnnotation => tag value =? 5
  | RFacetRestriction => tag value =? 20
  | RDataRange => entity KDatatype || in_range 21 25 (tag value)
  | RClassExpression => entity KClass || in_range 30 46 (tag value)
  | RObjectPropertyExpression => entity KObjectProperty || (tag value =? 10)
  | RSubObjectPropertyExpression =>
      entity KObjectProperty || ((tag value =? 10) || (tag value =? 11))
  | RIndividual => entity KNamedIndividual || (tag value =? 3)
  | RAnnotationSubject => (tag value =? 1) || (tag value =? 3)
  | RAnnotationValue => (tag value =? 1) || (tag value =? 3) || (tag value =? 4)
  | RIndividualArgument => entity KNamedIndividual || ((tag value =? 3) || (tag value =? 140))
  | RDataArgument => (tag value =? 4) || (tag value =? 140)
  | RAtom => in_range 141 147 (tag value)
  end.

(** ** The ledger is complete *)

Definition EntityKind_name (kind : EntityKind) : bytes :=
  match kind with
  | KClass => str "class"
  | KDatatype => str "datatype"
  | KObjectProperty => str "object_property"
  | KDataProperty => str "data_property"
  | KAnnotationProperty => str "annotation_property"
  | KNamedIndividual => str "named_individual"
  end.

Lemma EntityKind_decode_name kind : EntityKind_decode (EntityKind_name kind) = Some kind.
Proof. by destruct kind. Qed.

Lemma EntityKind_decode_Some value kind :
  EntityKind_decode value = Some kind <-> value = EntityKind_name kind.
Proof.
  split; [|intros ->; apply EntityKind_decode_name].
  unfold EntityKind_decode.
  repeat (case_match eqn:E; [intros [= <-]; by apply bytes_eqb_eq in E|clear E]). done.
Qed.

(** Every tag the schema knows is one of these. *)
Lemma spec_range t s : spec t = Some s -> 1 <= t <= 148.
Proof. unfold spec. repeat case_match; try done; lia. Qed.

Definition is_some {A} (o : option A) : bool := match o with Some _ => true | None => false end.

(** The ledger of one tag: between one and four fields, a rule for exactly
    them, and as many rules as the specification announces. *)
Definition ledger_ok (t : Z) : bool :=
  match spec t with
  | Some s =>
      (1 <=? fields s) && (fields s <=? 4) &&
      forallb (fun i => Bool.eqb (is_some (field_rule t i)) (i <? fields s)) [0; 1; 2; 3]
  | None => forallb (fun i => negb (is_some (field_rule t i))) [0; 1; 2; 3]
  end.

Lemma ledgers_ok : forallb ledger_ok (map Z.of_nat (List.seq 0 149)) = true.
Proof. vm_compute. reflexivity. Qed.

Lemma field_rule_index t i r : field_rule t i = Some r -> 0 <= i <= 3.
Proof.
  intros H. destruct (decide (0 <= i <= 3)) as [|Hn]; [done|]. exfalso.
  assert (i <> 0 /\ i <> 1 /\ i <> 2 /\ i <> 3) as (? & ? & ? & ?) by lia.
  unfold field_rule in H. repeat case_match; try done.
Qed.

Lemma field_rule_ledger t s i :
  spec t = Some s -> 1 <= fields s <= 4 /\ (is_Some (field_rule t i) <-> 0 <= i < fields s).
Proof.
  intros Hs. pose proof (spec_range _ _ Hs) as Ht.
  pose proof ledgers_ok as H. rewrite forallb_forall in H.
  specialize (H t). unfold ledger_ok in H. rewrite Hs in H.
  assert (In t (map Z.of_nat (List.seq 0 149))) as Hin.
  { apply in_map_iff. exists (Z.to_nat t). split; [lia|]. apply in_seq. lia. }
  specialize (H Hin). bool_to_prop. split; [lia|].
  destruct (decide (0 <= i <= 3)) as [Hi|Hi].
  - rewrite forallb_forall in H0. specialize (H0 i).
    assert (In i [0; 1; 2; 3]) as Hi4 by (cbn; lia). apply H0, Bool.eqb_prop in Hi4.
    unfold is_some in Hi4. destruct (field_rule t i); split; intros Hx.
    + symmetry in Hi4. bool_to_prop. lia.
    + by eexists.
    + by destruct Hx.
    + symmetry in Hi4. bool_to_prop. lia.
  - split; [intros [r Hr]; by apply field_rule_index in Hr|lia].
Qed.

Lemma field_rule_Some t s i :
  spec t = Some s -> 0 <= i < fields s -> exists r, field_rule t i = Some r.
Proof. intros Hs Hi. by apply (field_rule_ledger t s i Hs) in Hi. Qed.

(** The component schema is closed: every known tag announces between one
    and four fields and has a rule for exactly those field indices, so the
    scanner's "ledger is incomplete" error is unreachable; an unknown tag has
    no fields at all. *)
Theorem schema_ledger_is_complete (t i : Z) :
  match spec t with
  | Some s => 1 <= fields s <= 4 /\ (is_Some (field_rule t i) <-> 0 <= i < fields s)
  | None => field_rule t i = None
  end.
Proof.
  destruct (spec t) as [s|] eqn:Hs; [by apply field_rule_ledger|].
  destruct (field_rule t i) as [r|] eqn:Hr; [|done]. exfalso.
  unfold spec in Hs. unfold field_rule in Hr. repeat case_match; done.
Qed.
