(* ===== verification/Lexical.v ===== *)
(** * IRIs and language tags ([validate_iri], [valid_language] of
      [native/src/model/canonical.rs])

    [validate_iri] is characterised by the grammar [valid_iri]: a scheme, a
    colon, no forbidden scalar, and well-formed percent escapes. *)

From S2P Require Import Prelude Bytes Error Machine.

(** ** IRIs *)

(** [bytes.iter().position(|byte| *byte == b)] *)
Fixpoint position (b : Z) (l : bytes) : option Z :=
  match l with
  | [] => None
  | a :: l => if a =? b then Some 0 else Z.succ <$> position b l
  end.

Definition COLON : Z := 58.
Definition PERCENT : Z := 37.

(** [byte.is_ascii_alphanumeric() || matches!(byte, b'+' | b'-' | b'.')] *)
Definition scheme_byte (b : Z) : bool :=
  is_ascii_alphanumeric b || ((b =? 43) || (b =? 45) || (b =? 46)).

(** The three disjuncts of the scheme check, evaluated left to right. *)
Definition invalid_scheme (bytes : bytes) (colon : Z) : outcome bool :=
  if colon =? 0 then mret true else
  first ← index_at bytes 0;
  if negb (is_ascii_alphabetic first) then mret true else
  rest ← index_range bytes 1 colon;
  mret (negb (forallb scheme_byte rest)).

(** The condition on one scalar value. *)
Definition forbidden_scalar (codepoint : Z) : bool :=
  (codepoint <=? 0x20)
  || existsb (Z.eqb codepoint) [60; 62; 34; 123; 125; 124; 92; 94; 96]
  || in_range 0x7f 0x9f codepoint
  || in_range 0xfdd0 0xfdef codepoint
  || ((Z.land codepoint 0xffff =? 0xfffe) || (Z.land codepoint 0xffff =? 0xffff)).

(** The percent-escape loop; [n] bounds the rounds, [index] only grows. *)
Fixpoint percent_loop (n : nat) (bytes : bytes) (index : Z) : outcome unit :=
  if index <? len bytes then
    match n with
    | O => Panic
    | S n =>
        byte ← index_at bytes index;
        if byte =? PERCENT then
          invalid ← (if len bytes <=? index + 2 then mret true else
                     first ← index_at bytes (index + 1);
                     if negb (is_ascii_hexdigit first) then mret true else
                     second ← index_at bytes (index + 2);
                     mret (negb (is_ascii_hexdigit second)));
          fail_if invalid (corrupt "IRI contains an invalid percent escape");;
          percent_loop n bytes (index + 3)
        else percent_loop n bytes (index + 1)
    end
  else mret tt.

(** [value.chars()]: a [&str] is well-formed UTF-8. *)
Definition chars (value : bytes) : outcome (list Z) := or_panic (utf8_chars value).

(** [validate_iri] *)
Definition validate_iri (value : bytes) : outcome unit :=
  colon ← ok_or (position COLON value) (corrupt "IRI is not absolute");
  invalid ← invalid_scheme value colon;
  fail_if invalid (corrupt "IRI has an invalid scheme");;
  characters ← chars value;
  _ ← ofor_each (fun character (_ : unit) =>
        fail_if (forbidden_scalar character) (corrupt "IRI contains a forbidden scalar")) characters tt;
  percent_loop (length value) value 0.

(** ** Language tags *)

Definition DASH : Z := 45.

(** [value.split('-')] *)
Fixpoint split_dash (l : bytes) : list bytes :=
  match l with
  | [] => [[]]
  | b :: l =>
      if b =? DASH then [] :: split_dash l else
      match split_dash l with p :: ps => (b :: p) :: ps | [] => [[b]] end
  end.

(** The parts with the offsets ([part.as_ptr() - value.as_ptr()]). *)
Fixpoint with_offsets (start : Z) (parts : list bytes) : list (Z * bytes) :=
  match parts with
  | [] => []
  | p :: ps => (start, p) :: with_offsets (start + len p + 1) ps
  end.

(** [trim_end_matches('-')] *)
Fixpoint drop_dashes (l : bytes) : bytes :=
  match l with b :: l' => if b =? DASH then drop_dashes l' else l | [] => [] end.
Definition trim_end_dashes (l : bytes) : bytes := rev (drop_dashes (rev l)).

(** [value[start..stop]], where both are offsets of parts. *)
Definition part_range (value : bytes) (start stop : Z) : bytes :=
  take (Z.to_nat (stop - start)) (drop (Z.to_nat start) value).

(** [value[start..offset].trim_end_matches('-').split('-')] *)
Definition earlier_parts (value : bytes) (start offset : Z) : list bytes :=
  split_dash (trim_end_dashes (part_range value start offset)).

Definition all_lower (p : bytes) : bool := forallb is_ascii_lowercase p.
Definition all_digits (p : bytes) : bool := forallb is_ascii_digit p.
Definition len_in (lo hi : Z) (p : bytes) : bool := in_range lo hi (len p).

Definition is_extlang (p : bytes) : bool := (len p =? 3) && all_lower p.
Definition is_script (p : bytes) : bool := (len p =? 4) && all_lower p.
Definition is_region (p : bytes) : bool :=
  ((len p =? 2) && all_lower p) || ((len p =? 3) && all_digits p).
Definition is_variant (p : bytes) : bool :=
  len_in 5 8 p || ((len p =? 4) && match p with b :: _ => is_ascii_digit b | [] => false end).
Definition is_singleton (p : bytes) : bool := (len p =? 1) && negb (bytes_eqb p (str "x")).

(** [while parts.peek().is_some_and(test) { count += 1; parts.next() }], with
    at most [n] rounds. *)
Fixpoint skip_while (n : nat) (test : bytes -> bool) (parts : list (Z * bytes)) : Z * list (Z * bytes) :=
  match n, parts with
  | S n, (o, p) :: ps =>
      if test p then let '(count, rest) := skip_while n test ps in (count + 1, rest)
      else (0, parts)
  | _, _ => (0, parts)
  end.

(** [if parts.peek().is_some_and(test) { parts.next(); }] *)
Definition skip_if (test : bytes -> bool) (parts : list (Z * bytes)) : list (Z * bytes) :=
  match parts with (o, p) :: ps => if test p then ps else parts | [] => [] end.

(** [parts.peek().map_or(value.len(), ...)] *)
Definition peek_offset (value : bytes) (parts : list (Z * bytes)) : Z :=
  match parts with (o, _) :: _ => o | [] => len value end.

(** The variant loop; [None] is [return false]. *)
Fixpoint variants_loop (value : bytes) (variants_start : Z) (parts : list (Z * bytes))
    : option (list (Z * bytes)) :=
  match parts with
  | (offset, p) :: ps =>
      if is_variant p then
        if existsb (bytes_eqb p) (earlier_parts value variants_start offset) then None
        else variants_loop value variants_start ps
      else Some parts
  | [] => Some []
  end.

(** The extension loop; every round consumes at least the singleton. *)
Fixpoint extensions_loop (n : nat) (value : bytes) (extensions_start : Z)
    (parts : list (Z * bytes)) : option (list (Z * bytes)) :=
  match n, parts with
  | S n, (offset, p) :: ps =>
      if is_singleton p then
        if existsb (fun previous => (len previous =? 1) && bytes_eqb previous p)
             (earlier_parts value extensions_start offset) then None else
        let '(count, rest) := skip_while (length ps) (len_in 2 8) ps in
        if count =? 0 then None else extensions_loop n value extensions_start rest
      else Some parts
  | _, _ => Some parts
  end.

Definition GRANDFATHERED : list bytes :=
  map str
    ["art-lojban"; "cel-gaulish"; "en-gb-oed"; "i-ami"; "i-bnn"; "i-default"; "i-enochian";
     "i-hak"; "i-klingon"; "i-lux"; "i-mingo"; "i-navajo"; "i-pwn"; "i-tao"; "i-tay"; "i-tsu";
     "no-bok"; "no-nyn"; "sgn-be-fr"; "sgn-be-nl"; "sgn-ch-de"; "zh-guoyu"; "zh-hakka"; "zh-min";
     "zh-min-nan"; "zh-xiang"]%string.

(** [value.contains("--")] *)
Fixpoint contains_double_dash (l : bytes) : bool :=
  match l with
  | a :: l' => ((a =? DASH) && match l' with b :: _ => b =? DASH | [] => false end) ||
               contains_double_dash l'
  | [] => false
  end.

(** The character-level rejections at the top of [valid_language]. *)
Definition language_characters_invalid (value : bytes) : bool :=
  match value with [] => true | _ => false end
  || existsb (fun b => is_ascii_uppercase b || negb (is_ascii_alphanumeric b || (b =? DASH))) value
  || match value with b :: _ => b =? DASH | [] => false end
  || match rev value with b :: _ => b =? DASH | [] => false end
  || contains_double_dash value.

(** The part after the first language subtag. *)
Definition valid_language_rest (value first : bytes) (parts : list (Z * bytes)) : bool :=
  let parts := if (len first =? 2) || (len first =? 3)
               then snd (skip_while 3 is_extlang parts) else parts in
  let parts := skip_if is_script parts in
  let parts := skip_if is_region parts in
  match variants_loop value (peek_offset value parts) parts with
  | None => false
  | Some parts =>
      match extensions_loop (length parts) value (peek_offset value parts) parts with
      | None => false
      | Some parts =>
          match parts with
          | (_, p) :: ps =>
              if bytes_eqb p (str "x") then
                let '(count, rest) := skip_while (length ps) (len_in 1 8) ps in
                if count =? 0 then false else match rest with [] => true | _ => false end
              else false
          | [] => true
          end
      end
  end.

(** [valid_language] *)
Definition valid_language (value : bytes) : bool :=
  if language_characters_invalid value then false else
  if existsb (bytes_eqb value) GRANDFATHERED then true else
  match with_offsets 0 (split_dash value) with
  | [] => false
  | (_, first) :: parts =>
      if bytes_eqb first (str "x") then
        forallb (fun '(_, p) => len_in 1 8 p) parts && negb (len parts =? 0)
      else if negb (all_lower first) || negb (len_in 2 8 first) then false
      else valid_language_rest value first parts
  end.

Example language_en : valid_language (str "en") = true.
Proof. vm_compute. reflexivity. Qed.
Example language_full : valid_language (str "zh-cmn-hans-cn-1996-boont-u-co-phonebk-x-priv") = true.
Proof. vm_compute. reflexivity. Qed.
Example language_duplicate_variant : valid_language (str "de-1996-1996") = false.
Proof. vm_compute. reflexivity. Qed.
Example language_duplicate_singleton : valid_language (str "en-a-bb-a-cc") = false.
Proof. vm_compute. reflexivity. Qed.
Example language_upper : valid_language (str "en-US") = false.
Proof. vm_compute. reflexivity. Qed.

(** ** What [validate_iri] accepts *)

(** Every percent sign starts an escape of two hexadecimal digits. *)
Fixpoint percent_escaped (l : bytes) : bool :=
  match l with
  | [] => true
  | b :: l =>
      if b =? PERCENT then
        match l with
        | h :: h' :: l => is_ascii_hexdigit h && is_ascii_hexdigit h' && percent_escaped l
        | _ => false
        end
      else percent_escaped l
  end.

Definition is_scheme (l : bytes) : bool :=
  match l with a :: l => is_ascii_alphabetic a && forallb scheme_byte l | [] => false end.

(** The grammar of an absolute IRI. *)
Record valid_iri (value : bytes) : Prop := {
  iri_scheme : exists scheme rest, value = scheme ++ COLON :: rest /\ is_scheme scheme = true;
  iri_scalars : exists cs, utf8_chars value = Some cs /\ Forall (fun c => forbidden_scalar c = false) cs;
  iri_escapes : percent_escaped value = true
}.

Lemma position_Some b l i :
  position b l = Some i -> exists p q, l = p ++ b :: q /\ len p = i /\ Forall (fun a => a <> b) p.
Proof.
  revert i. induction l as [|a l IH]; intros i; cbn [position]; [done|].
  destruct (Z.eqb_spec a b) as [->|Hne].
  - intros [= <-]. by exists [], l.
  - intros (j & Hj & ->)%fmap_Some. destruct (IH j Hj) as (p & q & -> & Hp & Hall).
    exists (a :: p), q. cbn [length]. split_and!; [done|lia|by constructor].
Qed.

Lemma position_app b p q : Forall (fun a => a <> b) p -> position b (p ++ b :: q) = Some (len p).
Proof.
  induction p as [|a p IH]; cbn [position app length]; intros Hp.
  - by rewrite Z.eqb_refl.
  - apply Forall_cons in Hp as [Ha Hp]. rewrite (proj2 (Z.eqb_neq a b)) by done.
    rewrite IH by done. cbn. f_equal. lia.
Qed.

Lemma position_None b l : position b l = None -> Forall (fun a => a <> b) l.
Proof.
  induction l as [|a l IH]; cbn [position]; [constructor|].
  destruct (Z.eqb_spec a b); [done|]. intros H%fmap_None. constructor; auto.
Qed.

Lemma scheme_no_colon l : is_scheme l = true -> Forall (fun a => a <> COLON) l.
Proof.
  destruct l as [|a l]; cbn [is_scheme]; [done|]. intros H. bool_to_prop.
  constructor.
  - intros ->. discriminate.
  - rewrite forallb_forall in H0. apply Forall_forall. intros b Hb ->.
    apply list_elem_of_In, H0 in Hb. discriminate.
Qed.

(** The scheme check is the scheme grammar. *)
Lemma invalid_scheme_spec p q :
  Forall (fun a => a <> COLON) p ->
  invalid_scheme (p ++ COLON :: q) (len p) = Ok (negb (is_scheme p)).
Proof.
  intros _. unfold invalid_scheme. destruct p as [|a p]; [done|]. cbn [length app is_scheme].
  rewrite (proj2 (Z.eqb_neq _ 0)) by lia. unfold index_at, index_range.
  rewrite (proj2 (get_at_Some (a :: p ++ COLON :: q) 0 a)) by (split; [done|reflexivity]).
  cbn [or_panic]. unfold mbind, mret, outcome_mbind, outcome_ret. cbn [outcome_bind].
  destruct (is_ascii_alphabetic a); [|done]. cbn [negb andb].
  change (a :: p ++ COLON :: q) with ([a] ++ p ++ COLON :: q).
  rewrite (get_range_mid [a] p); [done|done|]. cbn [length]. lia.
Qed.

Lemma get_at_app {A} (p q : list A) x k : k = len p -> get_at (p ++ x :: q) k = Some x.
Proof.
  intros ->. apply get_at_Some. split; [lia|].
  rewrite lookup_app_r by lia. by replace (Z.to_nat (len p) - length p)%nat with O by lia.
Qed.

(** The escape loop is the escape grammar, whatever was read before. *)
Lemma percent_loop_spec n p l :
  (length l <= n)%nat ->
  percent_loop n (p ++ l) (len p) =
  if percent_escaped l then Ok tt else Err (corrupt "IRI contains an invalid percent escape").
Proof.
  revert p l. induction n as [n IH] using lt_wf_ind. intros p l Hn.
  destruct l as [|b l].
  { destruct n; cbn [percent_loop]; rewrite app_nil_r, Z.ltb_irrefl; done. }
  destruct n as [|n]; [cbn [length] in Hn; lia|]. cbn [percent_loop percent_escaped].
  rewrite (proj2 (Z.ltb_lt _ _)) by (rewrite length_app; cbn [length]; lia).
  unfold index_at, mbind, mret, outcome_mbind, outcome_ret.
  rewrite get_at_app by done. cbn [or_panic outcome_bind].
  assert (forall x k, (length x <= n)%nat -> percent_loop n ((p ++ b :: k) ++ x) (len (p ++ b :: k)) =
    if percent_escaped x then Ok tt else Err (corrupt "IRI contains an invalid percent escape")) as IH'.
  { intros x k Hx. apply IH; [lia|done]. }
  destruct (b =? PERCENT).
  - destruct l as [|h [|h' l]]; cbn [length] in *;
      rewrite ?length_app; cbn [length];
      [rewrite (proj2 (Z.leb_le _ _)) by lia; done..|].
    rewrite (proj2 (Z.leb_gt _ _)) by lia.
    replace (p ++ b :: h :: h' :: l) with ((p ++ [b]) ++ h :: h' :: l) by (by rewrite <- app_assoc).
    rewrite (get_at_app (p ++ [b])) by (rewrite length_app; cbn [length]; lia).
    cbn [or_panic outcome_bind].
    replace ((p ++ [b]) ++ h :: h' :: l) with ((p ++ [b; h]) ++ h' :: l) by (by rewrite <- !app_assoc).
    rewrite (get_at_app (p ++ [b; h])) by (rewrite length_app; cbn [length]; lia).
    cbn [or_panic outcome_bind].
    replace ((p ++ [b; h]) ++ h' :: l) with ((p ++ b :: [h; h']) ++ l) by (by rewrite <- !app_assoc).
    destruct (is_ascii_hexdigit h); cbn [negb andb fail_if outcome_bind]; [|done].
    destruct (is_ascii_hexdigit h'); cbn [negb andb fail_if outcome_bind]; [|done].
    rewrite <- (IH' l [h; h']) by lia. f_equal. rewrite length_app. cbn [length]. lia.
  - specialize (IH' l []). rewrite <- app_assoc in IH'. cbn [app] in IH'.
    rewrite <- IH' by (cbn [length] in *; lia). f_equal. rewrite length_app. cbn [length]. lia.
Qed.

Lemma scalars_loop cs :
  ofor_each (fun character (_ : unit) =>
    fail_if (forbidden_scalar character) (corrupt "IRI contains a forbidden scalar")) cs tt =
  if forallb (fun c => negb (forbidden_scalar c)) cs then Ok tt
  else Err (corrupt "IRI contains a forbidden scalar").
Proof.
  induction cs as [|c cs IH]; cbn [ofor_each forallb]; [done|].
  unfold mbind, outcome_mbind. destruct (forbidden_scalar c); cbn [fail_if outcome_bind negb andb]; done.
Qed.

Lemma validate_iri_cases value :
  is_utf8 value = true ->
  (validate_iri value = Ok tt <-> valid_iri value) /\ validate_iri value <> Panic.
Proof.
  unfold is_utf8. destruct (utf8_chars value) as [cs|] eqn:Hcs; [|done]. intros _.
  unfold validate_iri. destruct (position COLON value) as [colon|] eqn:Hpos; cbn [ok_or].
  2: { split; [|done]. split; [done|]. intros [(s & r & -> & Hs) _ _].
       rewrite position_app in Hpos by (by apply scheme_no_colon). done. }
  apply position_Some in Hpos as (p & q & -> & <- & Hp).
  unfold mbind, outcome_mbind. cbn [outcome_bind].
  rewrite invalid_scheme_spec by done. cbn [outcome_bind].
  assert (forall s r, p ++ COLON :: q = s ++ COLON :: r -> is_scheme s = true -> s = p) as Huniq.
  { intros s r E Hs. pose proof (position_app COLON s r (scheme_no_colon _ Hs)) as H1.
    rewrite <- E, (position_app COLON p q Hp) in H1. injection H1 as H1.
    by apply app_inj_1 in E as [<- _]; [|lia]. }
  destruct (is_scheme p) eqn:Hs; cbn [negb fail_if outcome_bind].
  2: { split; [|done]. split; [done|]. intros [(s & r & E & Hs') _ _].
       rewrite (Huniq _ _ E Hs') in Hs'. congruence. }
  unfold chars. rewrite Hcs. cbn [or_panic outcome_bind]. rewrite scalars_loop.
  destruct (forallb _ cs) eqn:Hall; cbn [outcome_bind].
  2: { split; [|done]. split; [done|]. intros [_ (cs' & Hcs' & Hf) _]. simplify_eq.
       apply not_true_iff_false in Hall. destruct Hall. apply forallb_forall. intros c Hc.
       apply list_elem_of_In in Hc. rewrite Forall_forall in Hf. by rewrite Hf. }
  pose proof (percent_loop_spec (length (p ++ COLON :: q)) [] (p ++ COLON :: q) (le_n _)) as Hpct.
  cbn [app length] in Hpct. change (Z.of_nat 0) with 0 in Hpct. rewrite Hpct.
  destruct (percent_escaped (p ++ COLON :: q)) eqn:Hesc.
  - split; [|done]. split; [intros _|done]. constructor; [by exists p, q| |done].
    exists cs. split; [done|]. apply Forall_forall. intros c Hc.
    rewrite forallb_forall in Hall. apply list_elem_of_In, Hall in Hc. by bool_to_prop.
  - split; [|done]. split; [done|]. intros [_ _ H]. congruence.
Qed.

Lemma owp_validate_iri value (Q : unit -> Prop) :
  is_utf8 value = true -> (valid_iri value -> Q tt) -> owp (validate_iri value) Q.
Proof.
  intros Hu HQ. destruct (validate_iri_cases value Hu) as [[H1 H2] H3].
  destruct (validate_iri value) as [[]| |]; cbn; auto.
Qed.


