(* ===== verification/Scan.v ===== *)
(** * The bounds-first canonical scanner ([native/src/model/canonical.rs])

    [scan_canonical] walks one canonical row in place: it checks every
    varint, frame, marker, structural role, set order, arity and resource
    bound, and reports the category of the row.  The Rust function recurses
    through [scan_node]; here the per-field code takes the recursive call as
    an argument, and [scan_node] ties the knot with fuel.  Running out of fuel
    is a [Panic]: that [max_depth + 2] suffices is part of what is proved. *)

From S2P Require Import Prelude Bytes Error Machine Limits Varint Schema Lexical.

Record ScanBudget := mkScanBudget {
  max_depth : Z;                   (* u32 *)
  scan_max_terms : Z;
  scan_max_sequence_arity : Z;
  scan_max_iri_bytes : Z;
  scan_max_literal_bytes : Z;
  scan_max_rule_atoms : Z;
  scan_max_canonical_work : Z;
  terms : Z
}.

(** [ScanBudget::from_limits] *)
Definition from_limits (limits : Limits) : ScanBudget :=
  {| max_depth := Z.min (max_nesting_depth limits) 1024;
     scan_max_terms := max_terms limits;
     scan_max_sequence_arity := max_sequence_arity limits;
     scan_max_iri_bytes := max_iri_bytes limits;
     scan_max_literal_bytes := max_literal_bytes limits;
     scan_max_rule_atoms := max_rule_atoms limits;
     scan_max_canonical_work := max_canonical_work limits;
     terms := 0 |}.

Definition with_terms (b : ScanBudget) (n : Z) : ScanBudget :=
  {| max_depth := max_depth b; scan_max_terms := scan_max_terms b;
     scan_max_sequence_arity := scan_max_sequence_arity b;
     scan_max_iri_bytes := scan_max_iri_bytes b;
     scan_max_literal_bytes := scan_max_literal_bytes b;
     scan_max_rule_atoms := scan_max_rule_atoms b;
     scan_max_canonical_work := scan_max_canonical_work b; terms := n |}.

(** What a scan updates: the budget and the [found] flag. *)
Record ScanState := mkScanState { budget : ScanBudget; found : bool }.

Definition scan_limit (name : string) (observed allowed : Z) (message : string) : NativeError :=
  resource_limit name (NativeNumber_integer observed) (NativeNumber_integer allowed) message.

(** [ScanBudget::enter] *)
Definition enter (depth : Z) : M ScanState unit :=
  s ← get;
  let b := budget s in
  n ← lift (ok_or (checked_add U64_MAX (terms b) 1) (limit "canonical term counter overflow"));
  put {| budget := with_terms b n; found := found s |};;
  ensure_not (max_depth b <? depth)
    (scan_limit "max_nesting_depth" depth (max_depth b) "canonical model row exceeds max_nesting_depth");;
  ensure_not (scan_max_terms b <? n)
    (scan_limit "max_terms" n (scan_max_terms b) "canonical model row exceeds max_terms").

(** ** Local validation *)

(** [required_value]; [values] always has four slots. *)
Definition required_value (values : list (option FieldValue)) (index : nat) : outcome FieldValue :=
  slot ← or_panic (values !! index);
  ok_or slot (protocol "canonical field ledger is incomplete").

Definition RDF_PLAIN_LITERAL : bytes :=
  str "http://www.w3.org/1999/02/22-rdf-syntax-ns#PlainLiteral".
Definition RDF_LANG_STRING : bytes :=
  str "http://www.w3.org/1999/02/22-rdf-syntax-ns#langString".

(** [let FieldValue::Text(x) = value else { return Err(e) }] and the like. *)
Definition as_text (value : FieldValue) (e : NativeError) : outcome bytes :=
  match value with VText text => Ok text | _ => Err e end.
Definition as_node (value : FieldValue) (e : NativeError) : outcome NodeMeta :=
  match value with VNode meta => Ok meta | _ => Err e end.
Definition as_kind (value : FieldValue) (e : NativeError) : outcome EntityKind :=
  match value with VEntityKind kind => Ok kind | _ => Err e end.
Definition as_collection (value : FieldValue) (e : NativeError) : outcome Z :=
  match value with VCollection count => Ok count | _ => Err e end.

(** [validate_literal] *)
Definition validate_literal (values : list (option FieldValue)) (b : ScanBudget) : outcome unit :=
  lexical ← required_value values 0;
  lexical ← as_text lexical (protocol "literal lexical ledger mismatch");
  fail_if (scan_max_literal_bytes b <? len lexical)
    (scan_limit "max_literal_bytes" (len lexical) (scan_max_literal_bytes b)
       "canonical literal exceeds max_literal_bytes");;
  datatype ← required_value values 1;
  datatype ← as_node datatype (protocol "literal datatype ledger mismatch");
  iri ← ok_or (iri datatype) (protocol "literal datatype has no IRI");
  fail_if (bytes_eqb iri RDF_LANG_STRING)
    (corrupt "rdf:langString is not a canonical literal datatype");;
  language ← required_value values 2;
  match language with
  | VNull => mret tt
  | VText language =>
      fail_if (negb (bytes_eqb iri RDF_PLAIN_LITERAL) || negb (valid_language language))
        (corrupt "literal language/datatype relationship is invalid")
  | _ => Err (protocol "literal language ledger mismatch")
  end.

Definition with_iri (meta : NodeMeta) (kind : option EntityKind) (text : option bytes) : NodeMeta :=
  {| tag := tag meta; category := category meta; entity_kind := kind; iri := text;
     encoded := encoded meta |}.

(** [validate_local], by tag: the updated metadata. *)
Definition validate_local (meta : NodeMeta) (values : list (option FieldValue)) (b : ScanBudget)
    : outcome NodeMeta :=
  if tag meta =? 1 then
    v ← required_value values 0;
    text ← as_text v (protocol "IRI field ledger mismatch");
    fail_if (scan_max_iri_bytes b <? len text)
      (scan_limit "max_iri_bytes" (len text) (scan_max_iri_bytes b)
         "canonical IRI exceeds max_iri_bytes");;
    validate_iri text;;
    mret (with_iri meta (entity_kind meta) (Some text))
  else if tag meta =? 2 then
    v ← required_value values 0;
    kind ← as_kind v (protocol "entity kind ledger mismatch");
    w ← required_value values 1;
    child ← as_node w (protocol "entity IRI ledger mismatch");
    mret (with_iri meta (Some kind) (iri child))
  else if tag meta =? 4 then
    validate_literal values b;; mret meta
  else if tag meta =? 73 then
    v ← required_value values 0;
    first ← as_node v (protocol "inverse property ledger mismatch");
    w ← required_value values 1;
    second ← as_node w (protocol "inverse property ledger mismatch");
    fail_if (bytes_ltb (encoded second) (encoded first))
      (corrupt "inverse object properties are not canonically ordered");;
    mret meta
  else if tag meta =? 101 then
    v ← required_value values 1;
    objects ← as_collection v (protocol "HasKey ledger mismatch");
    w ← required_value values 2;
    data ← as_collection w (protocol "HasKey ledger mismatch");
    fail_if ((objects =? 0) && (data =? 0)) (corrupt "HasKey has no properties");;
    mret meta
  else if tag meta =? 148 then
    v ← required_value values 0;
    body ← as_collection v (protocol "SWRL rule ledger mismatch");
    w ← required_value values 1;
    head ← as_collection w (protocol "SWRL rule ledger mismatch");
    fail_if ((scan_max_rule_atoms b <? body) || (scan_max_rule_atoms b <? head))
      (scan_limit "max_rule_atoms" (Z.max body head) (scan_max_rule_atoms b)
         "SWRL rule exceeds max_rule_atoms");;
    mret meta
  else mret meta.

(** ** Fields *)

(** [scan_scalar]: the rule's guarded arms, in order. *)
Definition scan_scalar (rule : ScalarRule) (marker : Z) (data : bytes) (offset end_ : Z)
    : outcome (FieldValue * Z) :=
  let text :=
    '(start, frame_end, after) ← scan_frame data offset end_;
    payload ← ok_or (get_range data start frame_end) (corrupt "invalid canonical scalar frame");
    fail_if (negb (is_utf8 payload)) (corrupt "canonical text is not UTF-8");;
    mret (VText payload, after) in
  let bytes_ :=
    '(start, frame_end, after) ← scan_frame data offset end_;
    payload ← ok_or (get_range data start frame_end) (corrupt "invalid canonical bytes frame");
    fail_if (match rule with SBytesNonempty => len payload =? 0 | _ => false end)
      (corrupt "canonical bytes field must be nonempty");;
    fail_if (match rule with SBytesExact expected => negb (len payload =? expected) | _ => false end)
      (corrupt "canonical bytes field has an invalid width");;
    mret (VBytes, after) in
  let wrong := Err (corrupt "canonical scalar field has the wrong marker") in
  match rule with
  | SOptionalText => if marker =? 0 then mret (VNull, offset) else
                     if marker =? 2 then text else wrong
  | SText => if marker =? 2 then text else wrong
  | SBytesExact _ | SBytesNonempty => if marker =? 3 then bytes_ else wrong
  | SInteger =>
      if marker =? 4 then after ← scan_any_varint data offset end_; mret (VInteger, after) else wrong
  | SEntityKind =>
      if marker =? 5 then
        '(start, frame_end, after) ← scan_frame data offset end_;
        payload ← ok_or (get_range data start frame_end) (corrupt "invalid canonical enum frame");
        entity ← ok_or (EntityKind_decode payload) (corrupt "unknown canonical entity kind");
        mret (VEntityKind entity, after)
      else wrong
  end.

Section ScanNode.
(** The row, and the tag [canonical_contains_tag] looks for. *)
Context (data : bytes) (target_tag : option Z).
(** The recursive call: [scan_node(data, start, end, budget, depth, ...)]. *)
Context (scan_child : Z -> Z -> Z -> M ScanState (NodeMeta * Z)).

(** The call with [depth.checked_add(1)]. *)
Definition scan_nested (start frame_end depth : Z) : M ScanState (NodeMeta * Z) :=
  depth ← lift (ok_or (checked_add U32_MAX depth 1) (limit "canonical depth overflow"));
  scan_child start frame_end depth.

(** [FieldRule::Node] *)
Definition scan_node_field (rule : NodeRule) (marker offset end_ depth : Z)
    : M ScanState (FieldValue * Z) :=
  ensure_not (negb (marker =? 1)) (corrupt "canonical node field has the wrong marker");;
  '(start, frame_end, after) ← lift (scan_frame data offset end_);
  '(child, consumed) ← scan_nested start frame_end depth;
  ensure_not (negb (consumed =? frame_end)) (corrupt "canonical nested node has trailing bytes");;
  ensure_not (negb (accepts rule child)) (corrupt "canonical node has an invalid structural role");;
  mret (VNode child, after).

(** The bounds on the number of members of a collection. *)
Definition check_arity (kind : string) (minimum count offset end_ : Z)
    (few too_many : string) : M ScanState unit :=
  ensure_not (count <? minimum) (corrupt few);;
  s ← get;
  ensure_not (scan_max_sequence_arity (budget s) <? count)
    (scan_limit "max_sequence_arity" count (scan_max_sequence_arity (budget s)) kind);;
  available ← lift (usize_sub end_ offset);
  ensure_not (available <? count) (corrupt too_many).

(** One member of [FieldRule::Set]; the loop carries [previous] and [offset]. *)
Definition scan_set_member (rule : NodeRule) (forbidden_tag : option Z) (end_ depth : Z)
    (_ : Z) (loop : option bytes * Z) : M ScanState (option bytes * Z) :=
  let '(previous, offset) := loop in
  '(start, frame_end, after) ← lift (scan_frame data offset end_);
  current ← lift (ok_or (get_range data start frame_end) (corrupt "invalid canonical set frame"));
  ensure_not (match previous with Some value => bytes_leb current value | None => false end)
    (corrupt "canonical set members are not strictly ordered");;
  '(child, consumed) ← scan_nested start frame_end depth;
  ensure_not (negb (consumed =? frame_end)) (corrupt "canonical set member has trailing bytes");;
  ensure_not (negb (accepts rule child) || bool_decide (forbidden_tag = Some (tag child)))
    (corrupt "canonical set member has an invalid structural role");;
  mret (Some current, after).

(** [FieldRule::Set] *)
Definition scan_set_field (rule : NodeRule) (minimum : Z) (forbidden_tag : option Z)
    (marker offset end_ depth : Z) : M ScanState (FieldValue * Z) :=
  ensure_not (negb (marker =? 6)) (corrupt "canonical set field has the wrong marker");;
  '(count, offset) ← lift (scan_bounded_varint data offset end_);
  check_arity "canonical set arity exceeds max_sequence_arity" minimum count offset end_
    "canonical set has too few members" "canonical set arity exceeds remaining input";;
  '(_, offset) ← for_range (scan_set_member rule forbidden_tag end_ depth) 0 (Z.to_nat count)
    (None, offset);
  mret (VCollection count, offset).

(** One member of [FieldRule::Sequence]. *)
Definition scan_sequence_member (rule : NodeRule) (end_ depth : Z) (_ offset : Z)
    : M ScanState Z :=
  item_marker ← lift (ok_or (get_at data offset) (corrupt "truncated canonical sequence"));
  let offset := offset + 1 in
  ensure_not (negb (item_marker =? 1)) (corrupt "canonical sequence member has the wrong marker");;
  '(start, frame_end, after) ← lift (scan_frame data offset end_);
  '(child, consumed) ← scan_nested start frame_end depth;
  ensure_not (negb (consumed =? frame_end) || negb (accepts rule child))
    (corrupt "canonical sequence member has an invalid structural role");;
  mret after.

(** [FieldRule::Sequence] *)
Definition scan_sequence_field (rule : NodeRule) (minimum : Z) (marker offset end_ depth : Z)
    : M ScanState (FieldValue * Z) :=
  ensure_not (negb (marker =? 7)) (corrupt "canonical sequence field has the wrong marker");;
  '(count, offset) ← lift (scan_bounded_varint data offset end_);
  check_arity "canonical sequence arity exceeds max_sequence_arity" minimum count offset end_
    "canonical sequence has too few members" "canonical sequence arity exceeds remaining input";;
  offset ← for_range (scan_sequence_member rule end_ depth) 0 (Z.to_nat count) offset;
  mret (VCollection count, offset).

(** One round of the field loop, which carries [values] and [offset]. *)
Definition scan_field (node_tag end_ depth : Z) (field_index : Z)
    (loop : list (option FieldValue) * Z) : M ScanState (list (option FieldValue) * Z) :=
  let '(values, offset) := loop in
  rule ← lift (ok_or (field_rule node_tag field_index) (protocol "canonical field ledger is incomplete"));
  marker ← lift (ok_or (get_at data offset) (corrupt "truncated canonical model component"));
  let offset := offset + 1 in
  '(value, offset) ←
    match rule with
    | FScalar rule => lift (scan_scalar rule marker data offset end_)
    | FNode rule => scan_node_field rule marker offset end_ depth
    | FSet rule minimum forbidden_tag =>
        scan_set_field rule minimum forbidden_tag marker offset end_ depth
    | FSequence rule minimum => scan_sequence_field rule minimum marker offset end_ depth
    end;
  _ ← lift (index_at values field_index);
  mret (<[Z.to_nat field_index := Some value]> values, offset).

Definition mark_found (node_tag : Z) : M ScanState unit :=
  s ← get;
  if bool_decide (target_tag = Some node_tag)
  then put {| budget := budget s; found := true |} else mret tt.

(** The body of [scan_node]. *)
Definition scan_node_body (offset end_ depth : Z) : M ScanState (NodeMeta * Z) :=
  enter depth;;
  let node_start := offset in
  '(node_tag, offset) ← lift (scan_bounded_varint data offset end_);
  mark_found node_tag;;
  spec ← lift (ok_or (spec node_tag) (corrupt "unknown canonical model tag"));
  '(values, offset) ← for_range (scan_field node_tag end_ depth) 0 (Z.to_nat (fields spec))
    (replicate 4 None, offset);
  encoded ← lift (ok_or (get_range data node_start offset)
                    (corrupt "canonical node range exceeds bounds"));
  s ← get;
  meta ← lift (validate_local
    {| tag := node_tag; category := spec_category spec; entity_kind := None; iri := None;
       encoded := encoded |} values (budget s));
  mret (meta, offset).
End ScanNode.

(** [scan_node] *)
Fixpoint scan_node (fuel : nat) (data : bytes) (target_tag : option Z) (offset end_ depth : Z)
    : M ScanState (NodeMeta * Z) :=
  match fuel with
  | O => lift Panic
  | S fuel => scan_node_body data target_tag (scan_node fuel data target_tag) offset end_ depth
  end.

(** Every level of nesting enters the budget, which stops at [max_depth]. *)
Definition scan_fuel (b : ScanBudget) : nat := S (S (Z.to_nat (max_depth b))).

(** The scan of the whole row, from a fresh [found]. *)
Definition scan_row (data : bytes) (target_tag : option Z) : M ScanState (Category * bool) :=
  s ← get;
  '(meta, offset) ← scan_node (scan_fuel (budget s)) data target_tag 0 (len data) 0;
  ensure_not (negb (offset =? len data)) (corrupt "canonical model row has trailing bytes");;
  s ← get;
  mret (category meta, found s).

(** [scan_canonical_observing] *)
Definition scan_canonical_observing (data : bytes) (target_tag : option Z)
    : M ScanBudget (Category * bool) :=
  b ← get;
  size ← lift (ok_or (try_from U64_MAX (len data)) (limit "canonical model row size exceeds u64"));
  ensure_not (scan_max_canonical_work b <? size)
    (scan_limit "max_canonical_work" size (scan_max_canonical_work b)
       "canonical model row exceeds max_canonical_work");;
  zoom (fun b => mkScanState b false) (fun s _ => budget s) (scan_row data target_tag).

(** [scan_canonical] *)
Definition scan_canonical (data : bytes) : M ScanBudget Category :=
  '(category, _) ← scan_canonical_observing data None; mret category.

(** [canonical_contains_tag] *)
Definition canonical_contains_tag (data : bytes) (target_tag : Z) : M ScanBudget bool :=
  '(_, found) ← scan_canonical_observing data (Some target_tag); mret found.
