(* ===== verification/Arena.v ===== *)
(** * The retained arena ([native/src/model/ids.rs], [tables.rs], [arena.rs] and
      [native/src/builder.rs])

    [NativeArenaBuilder] interns canonical rows, sequences of row identifiers,
    document scopes and anonymous identities behind hash buckets, and [freeze]
    publishes them as sorted immutable tables.  The three bucketed tables have
    the same shape, [Interner]; the hash functions are fields of the builder,
    as in the code, where the tests replace them by colliding ones. *)

From S2P Require Import Prelude Bytes Order Error Machine Limits Schema Scan.

(** ** Identifiers *)

Definition id_space_exhausted (label : string) : NativeError :=
  limit (String.append label " id space exhausted").

(** [try_from_index] and [checked_next] of the four identifier types *)
Definition try_from_index (label : string) (index : Z) : outcome Z :=
  ok_or (try_from U32_MAX index) (id_space_exhausted label).
Definition checked_next (label : string) (id : Z) : outcome Z :=
  ok_or (checked_add U32_MAX id 1) (id_space_exhausted label).

Definition CanonicalRowId : string := "native canonical row".
Definition SequenceId : string := "native sequence".
Definition DocumentId : string := "native document".
Definition AnonymousId : string := "native anonymous individual".

(** ** Published tables *)

Inductive SequenceKind := Ordered | CanonicalSet.

Definition kind_rank (kind : SequenceKind) : Z := match kind with Ordered => 0 | CanonicalSet => 1 end.

#[export] Program Instance SequenceKind_ord : Ord SequenceKind :=
  {| cmp x y := cmp (kind_rank x) (kind_rank y) |}.
Next Obligation. by intros [] []. Qed.
Next Obligation. by intros [] []. Qed.
Next Obligation. by intros [] [] []. Qed.

Record FrozenCanonicalRow := mkFrozenRow { frozen_category : Category; frozen_bytes : bytes }.
Record FrozenSequence := mkFrozenSequence { frozen_kind : SequenceKind; frozen_elements : list Z }.
Record FrozenDocument := mkFrozenDocument { frozen_scope : bytes }.
Record FrozenAnonymousIdentity := mkFrozenAnonymous {
  frozen_document : Z;
  frozen_document_scope : bytes;
  frozen_local_key : bytes
}.

(** The counters of one kind of interned value. *)
Record KindCounters := mkKindCounters { requests : Z; hits : Z; unique : Z }.

Record ArenaCounters := mkArenaCounters {
  row_counters : KindCounters;
  sequence_counters : KindCounters;
  document_counters : KindCounters;
  anonymous_counters : KindCounters;
  peak_accounted_bytes : Z;
  retained_bytes : Z
}.

Definition KindCounters_default : KindCounters := {| requests := 0; hits := 0; unique := 0 |}.
Definition ArenaCounters_default : ArenaCounters :=
  {| row_counters := KindCounters_default; sequence_counters := KindCounters_default;
     document_counters := KindCounters_default; anonymous_counters := KindCounters_default;
     peak_accounted_bytes := 0; retained_bytes := 0 |}.

Record ArenaTables := mkArenaTables {
  canonical_rows : list FrozenCanonicalRow;
  sequences : list FrozenSequence;
  documents : list FrozenDocument;
  anonymous : list FrozenAnonymousIdentity
}.

Record NativeArena := mkNativeArena { tables : ArenaTables; arena_counters : ArenaCounters }.

(** [ArenaTables::canonical_row], [ArenaTables::document] *)
Definition canonical_row_at (t : ArenaTables) (identifier : Z) : outcome FrozenCanonicalRow :=
  ok_or (get_at (canonical_rows t) identifier) (protocol "native canonical row id is out of bounds").
Definition document_at (t : ArenaTables) (identifier : Z) : outcome FrozenDocument :=
  ok_or (get_at (documents t) identifier) (protocol "native document id is out of bounds").

(** [ModelArena::try_push] of the foundational arena *)
Definition ModelArena_try_push (row : Category * bytes) (rows : list (Category * bytes))
    : M World (list (Category * bytes)) :=
  try_reserve "native model arena allocation failed";; mret (rows ++ [row]).

(** ** The builder *)

Record BuilderLimits := mkBuilderLimits {
  max_rows : Z;
  max_sequences : Z;
  builder_max_documents : Z;
  max_anonymous : Z;
  builder_max_sequence_arity : Z;
  max_local_key_bytes : Z;
  builder_max_memory_bytes : option Z
}.

(** [BuilderLimits::from_native] *)
Definition from_native (limits : Limits) : BuilderLimits :=
  {| max_rows := max_terms limits;
     max_sequences := max_terms limits;
     builder_max_documents := max_documents limits;
     max_anonymous := max_terms limits;
     builder_max_sequence_arity := max_sequence_arity limits;
     max_local_key_bytes := max_canonical_work limits;
     builder_max_memory_bytes := max_memory_bytes limits |}.

Record AllocationBudget := mkAllocationBudget {
  budget_maximum : option Z; budget_used : Z; budget_peak : Z
}.

Definition AllocationBudget_new (maximum : option Z) : AllocationBudget :=
  {| budget_maximum := maximum; budget_used := 0; budget_peak := 0 |}.

(** [AllocationBudget::plan] *)
Definition plan (b : AllocationBudget) (additional : Z) : outcome Z :=
  additional ← ok_or (try_from U64_MAX additional) (limit "native arena allocation exceeds u64");
  next ← ok_or (checked_add U64_MAX (budget_used b) additional)
           (limit "native arena memory accounting overflow");
  fail_if (exceeds (budget_maximum b) next)
    (match budget_maximum b with
     | Some maximum =>
         resource_limit "max_memory_bytes" (NativeNumber_integer next) (NativeNumber_integer maximum)
           "native arena allocation exceeds max_memory_bytes"
     | None => protocol "native arena memory limit disappeared"
     end);;
  mret next.

(** [AllocationBudget::commit] *)
Definition commit (next : Z) (b : AllocationBudget) : AllocationBudget :=
  {| budget_maximum := budget_maximum b; budget_used := next; budget_peak := Z.max (budget_peak b) next |}.

Record DraftCanonicalRow := mkDraftRow { row_identifier : Z; row_category : Category; row_bytes : bytes }.
Record DraftSequence := mkDraftSequence {
  seq_identifier : Z; seq_kind : SequenceKind; seq_elements : list Z
}.
Record DraftDocument := mkDraftDocument { doc_identifier : Z; doc_scope : bytes }.
Record DraftAnonymousIdentity := mkDraftAnonymous {
  anon_identifier : Z; anon_document : Z; anon_scope : bytes; anon_key : bytes
}.

(** [size_of] of the table entries on a 64-bit target. *)
Definition DRAFT_ROW_BYTES : Z := 32.
Definition DRAFT_SEQUENCE_BYTES : Z := 32.
Definition DRAFT_DOCUMENT_BYTES : Z := 36.
Definition DRAFT_ANONYMOUS_BYTES : Z := 64.
Definition ID_BYTES : Z := 4.
Definition FROZEN_ROW_BYTES : Z := 24.
Definition FROZEN_SEQUENCE_BYTES : Z := 24.
Definition FROZEN_DOCUMENT_BYTES : Z := 32.
Definition FROZEN_ANONYMOUS_BYTES : Z := 56.

(** A table with its hash buckets: the [Vec] and the [HashMap] beside it. *)
Record Interner (D : Type) := mkInterner { items : list D; buckets : gmap Z (list Z) }.
Arguments mkInterner {D} _ _.
Arguments items {D} _.
Arguments buckets {D} _.

Definition Interner_empty {D} : Interner D := {| items := []; buckets := ∅ |}.

Record NativeArenaBuilder := mkBuilder {
  scan_limits : Limits;
  builder_limits : BuilderLimits;
  budget : AllocationBudget;
  rows : Interner DraftCanonicalRow;
  draft_sequences : Interner DraftSequence;
  draft_documents : list DraftDocument;
  draft_anonymous : Interner DraftAnonymousIdentity;
  counters : ArenaCounters;
  row_bucketer : bytes -> Z;
  sequence_bucketer : SequenceKind -> list Z -> Z;
  anonymous_bucketer : bytes -> bytes -> Z
}.

(** FNV-1a over bytes: [bucket_bytes], [bucket_sequence], [bucket_anonymous] *)
Definition fnv_prime : Z := 0x100000001b3.
Definition fnv (seed : Z) (value : bytes) : Z :=
  foldl (fun hash byte => wrapping_mul64 (Z.lxor hash byte) fnv_prime) seed value.
Definition bucket_bytes (value : bytes) : Z := fnv 0xcbf29ce484222325 value.
Definition bucket_sequence (kind : SequenceKind) (elements : list Z) : Z :=
  foldl (fun hash identifier => fnv hash (to_le_bytes 4 identifier))
    (match kind with Ordered => 0x4f52444552454401 | CanonicalSet => 0x5345545f43414e01 end) elements.
Definition bucket_anonymous (document_scope local_key : bytes) : Z :=
  fnv (bucket_bytes document_scope) local_key.

(** [NativeArenaBuilder::with_configuration] and [NativeArenaBuilder::new] *)
Definition with_configuration (limits : Limits) (blimits : BuilderLimits) (row : bytes -> Z)
    (sequence : SequenceKind -> list Z -> Z) (anon : bytes -> bytes -> Z) : NativeArenaBuilder :=
  {| scan_limits := limits; builder_limits := blimits;
     budget := AllocationBudget_new (builder_max_memory_bytes blimits);
     rows := Interner_empty; draft_sequences := Interner_empty; draft_documents := [];
     draft_anonymous := Interner_empty; counters := ArenaCounters_default;
     row_bucketer := row; sequence_bucketer := sequence; anonymous_bucketer := anon |}.
Definition NativeArenaBuilder_new (limits : Limits) : NativeArenaBuilder :=
  with_configuration limits (from_native limits) bucket_bytes bucket_sequence bucket_anonymous.

(** ** The state of an interning operation *)

Record ArenaState := mkArenaState { arena_world : World; builder : NativeArenaBuilder }.

Notation on_arena_world m :=
  (zoom arena_world (fun w s => {| arena_world := w; builder := builder s |}) m).
Notation on_builder m :=
  (zoom builder (fun b s => {| arena_world := arena_world s; builder := b |}) m).

Definition set_budget (v : AllocationBudget) (b : NativeArenaBuilder) : NativeArenaBuilder :=
  {| scan_limits := scan_limits b; builder_limits := builder_limits b; budget := v; rows := rows b;
     draft_sequences := draft_sequences b; draft_documents := draft_documents b;
     draft_anonymous := draft_anonymous b; counters := counters b; row_bucketer := row_bucketer b;
     sequence_bucketer := sequence_bucketer b; anonymous_bucketer := anonymous_bucketer b |}.
Definition set_rows (v : Interner DraftCanonicalRow) (b : NativeArenaBuilder) : NativeArenaBuilder :=
  {| scan_limits := scan_limits b; builder_limits := builder_limits b; budget := budget b; rows := v;
     draft_sequences := draft_sequences b; draft_documents := draft_documents b;
     draft_anonymous := draft_anonymous b; counters := counters b; row_bucketer := row_bucketer b;
     sequence_bucketer := sequence_bucketer b; anonymous_bucketer := anonymous_bucketer b |}.
Definition set_sequences (v : Interner DraftSequence) (b : NativeArenaBuilder) : NativeArenaBuilder :=
  {| scan_limits := scan_limits b; builder_limits := builder_limits b; budget := budget b; rows := rows b;
     draft_sequences := v; draft_documents := draft_documents b;
     draft_anonymous := draft_anonymous b; counters := counters b; row_bucketer := row_bucketer b;
     sequence_bucketer := sequence_bucketer b; anonymous_bucketer := anonymous_bucketer b |}.
Definition set_documents (v : list DraftDocument) (b : NativeArenaBuilder) : NativeArenaBuilder :=
  {| scan_limits := scan_limits b; builder_limits := builder_limits b; budget := budget b; rows := rows b;
     draft_sequences := draft_sequences b; draft_documents := v;
     draft_anonymous := draft_anonymous b; counters := counters b; row_bucketer := row_bucketer b;
     sequence_bucketer := sequence_bucketer b; anonymous_bucketer := anonymous_bucketer b |}.
Definition set_anonymous (v : Interner DraftAnonymousIdentity) (b : NativeArenaBuilder)
    : NativeArenaBuilder :=
  {| scan_limits := scan_limits b; builder_limits := builder_limits b; budget := budget b; rows := rows b;
     draft_sequences := draft_sequences b; draft_documents := draft_documents b;
     draft_anonymous := v; counters := counters b; row_bucketer := row_bucketer b;
     sequence_bucketer := sequence_bucketer b; anonymous_bucketer := anonymous_bucketer b |}.
Definition set_counters (v : ArenaCounters) (b : NativeArenaBuilder) : NativeArenaBuilder :=
  {| scan_limits := scan_limits b; builder_limits := builder_limits b; budget := budget b; rows := rows b;
     draft_sequences := draft_sequences b; draft_documents := draft_documents b;
     draft_anonymous := draft_anonymous b; counters := v; row_bucketer := row_bucketer b;
     sequence_bucketer := sequence_bucketer b; anonymous_bucketer := anonymous_bucketer b |}.

(** One of the four groups of counters. *)
Inductive Kind := KRows | KSequences | KDocuments | KAnonymous.

#[export] Instance Kind_eq_dec : EqDecision Kind.
Proof. solve_decision. Defined.

Definition kind_counters (k : Kind) (c : ArenaCounters) : KindCounters :=
  match k with
  | KRows => row_counters c | KSequences => sequence_counters c
  | KDocuments => document_counters c | KAnonymous => anonymous_counters c
  end.
Definition set_kind_counters (k : Kind) (v : KindCounters) (c : ArenaCounters) : ArenaCounters :=
  {| row_counters := match k with KRows => v | _ => row_counters c end;
     sequence_counters := match k with KSequences => v | _ => sequence_counters c end;
     document_counters := match k with KDocuments => v | _ => document_counters c end;
     anonymous_counters := match k with KAnonymous => v | _ => anonymous_counters c end;
     peak_accounted_bytes := peak_accounted_bytes c; retained_bytes := retained_bytes c |}.

Notation on_counters k m :=
  (zoom (fun b => kind_counters k (counters b)) (fun v b => set_counters (set_kind_counters k v (counters b)) b) m).

(** [bump] *)
Definition bump_counter (counter : Z) (message : string) : outcome Z :=
  ok_or (checked_add U64_MAX counter 1) (limit message).
Definition bump_requests (message : string) : M KindCounters unit :=
  c ← get; n ← lift (bump_counter (requests c) message);
  put {| requests := n; hits := hits c; unique := unique c |}.
Definition bump_hits (message : string) : M KindCounters unit :=
  c ← get; n ← lift (bump_counter (hits c) message);
  put {| requests := requests c; hits := n; unique := unique c |}.
Definition bump_unique (message : string) : M KindCounters unit :=
  c ← get; n ← lift (bump_counter (unique c) message);
  put {| requests := requests c; hits := hits c; unique := n |}.

(** ** Checks *)

(** [check_next_count] *)
Definition check_next_count (current maximum : Z) (limit_name message : string) : outcome unit :=
  next ← ok_or (checked_add USIZE_MAX current 1) (limit "native arena count overflow");
  observed ← ok_or (try_from U64_MAX next) (limit "native arena count exceeds u64");
  fail_if (maximum <? observed)
    (resource_limit limit_name (NativeNumber_integer observed) (NativeNumber_integer maximum) message).

(** [checked_allocation_bytes::<T>], [checked_size_sum], [add_retained] *)
Definition allocation_overflow : NativeError := limit "native arena allocation size overflow".
Definition checked_allocation_bytes (size_of_T count : Z) : outcome Z :=
  ok_or (checked_mul USIZE_MAX count size_of_T) allocation_overflow.
Definition checked_size_sum (values : list Z) : outcome Z :=
  ofor_each (fun value total => ok_or (checked_add USIZE_MAX total value) allocation_overflow) values 0.
Definition add_retained (total additional : Z) : outcome Z :=
  additional ← ok_or (try_from U64_MAX additional) (limit "native retained size exceeds u64");
  ok_or (checked_add U64_MAX total additional) (limit "native retained size overflow").

(** ** Interning *)

Section Interning.
Context {D : Type} (identifier : D -> Z).

(** [row_draft], [sequence_draft], [document_draft] and [anonymous_draft] *)
Definition draft (missing inconsistent : string) (entries : list D) (id : Z) : outcome D :=
  d ← ok_or (get_at entries id) (protocol missing);
  fail_if (negb (identifier d =? id)) (protocol inconsistent);;
  mret d.

(** The loop over the identifiers of one bucket. *)
Fixpoint find_in_bucket (lookup : Z -> outcome D) (matches : D -> bool) (bucket : list Z)
    : outcome (option Z) :=
  match bucket with
  | [] => Ok None
  | id :: bucket =>
      retained ← lookup id;
      if matches retained then Ok (Some id) else find_in_bucket lookup matches bucket
  end.

Definition find_interned (lookup : Z -> outcome D) (matches : D -> bool) (key : Z) (t : Interner D)
    : outcome (option Z) :=
  match buckets t !! key with
  | Some bucket => find_in_bucket lookup matches bucket
  | None => Ok None
  end.

(** The reservations for one more entry: the table, the map or its bucket, and
    the new bucket. *)
Definition reserve_entry (key : Z) (t : Interner D) (table_failed map_failed bucket_failed disappeared : string)
    : M World unit :=
  let new_bucket := bool_decide (buckets t !! key = None) in
  try_reserve table_failed;;
  (if new_bucket then try_reserve map_failed
   else lift (ok_or (buckets t !! key) (protocol disappeared));; try_reserve bucket_failed);;
  if new_bucket then try_reserve bucket_failed else mret tt.

(** Push the entry and file its identifier in its bucket. *)
Definition push_interned (d : D) (key id : Z) (disappeared : string) : M (Interner D) unit :=
  t ← get;
  put {| items := items t ++ [d]; buckets := buckets t |};;
  if bool_decide (buckets t !! key = None) then
    put {| items := items t ++ [d]; buckets := <[key := [id]]> (buckets t) |}
  else
    bucket ← lift (ok_or (buckets t !! key) (protocol disappeared));
    put {| items := items t ++ [d]; buckets := <[key := bucket ++ [id]]> (buckets t) |}.

End Interning.

Definition row_draft (b : NativeArenaBuilder) : Z -> outcome DraftCanonicalRow :=
  draft row_identifier "native canonical row id is out of bounds"
    "native canonical row identifier is inconsistent" (items (rows b)).
Definition sequence_draft (b : NativeArenaBuilder) : Z -> outcome DraftSequence :=
  draft seq_identifier "native sequence id is out of bounds"
    "native sequence identifier is inconsistent" (items (draft_sequences b)).
Definition document_draft (b : NativeArenaBuilder) : Z -> outcome DraftDocument :=
  draft doc_identifier "native document id is out of bounds"
    "native document identifier is inconsistent" (draft_documents b).
Definition anonymous_draft (b : NativeArenaBuilder) : Z -> outcome DraftAnonymousIdentity :=
  draft anon_identifier "native anonymous id is out of bounds"
    "native anonymous identifier is inconsistent" (items (draft_anonymous b)).

Notation on_rows m := (zoom rows set_rows m).
Notation on_sequences m := (zoom draft_sequences set_sequences m).
Notation on_documents m := (zoom draft_documents set_documents m).
Notation on_anonymous m := (zoom draft_anonymous set_anonymous m).

Definition commit_budget (next : Z) : M NativeArenaBuilder unit :=
  b ← get; put (set_budget (commit next (budget b)) b).

(** [NativeArenaBuilder::intern_canonical_row] *)
Definition intern_canonical_row (data : bytes) : M ArenaState Z :=
  s ← get;
  let self := builder s in
  category ← lift (fst (scan_canonical data (from_limits (scan_limits self))));
  on_builder (on_counters KRows (bump_requests "native row request counter overflow"));;
  let bucket_key := row_bucketer self data in
  found ← lift (find_interned (row_draft self) (fun d => bytes_eqb (row_bytes d) data) bucket_key (rows self));
  match found with
  | Some identifier =>
      on_builder (on_counters KRows (bump_hits "native row hit counter overflow"));;
      mret identifier
  | None =>
      lift (check_next_count (len (items (rows self))) (max_rows (builder_limits self)) "max_terms"
              "native canonical row count exceeds limits");;
      identifier ← lift (try_from_index CanonicalRowId (len (items (rows self))));
      additional ← lift (checked_size_sum [len data; DRAFT_ROW_BYTES; ID_BYTES]);
      next_budget ← lift (plan (budget self) additional);
      on_arena_world (try_reserve "native canonical row allocation failed");;
      on_arena_world (reserve_entry bucket_key (rows self) "native canonical row table allocation failed"
        "native row interner allocation failed" "native row interner bucket allocation failed"
        "native row interner bucket disappeared");;
      on_builder (on_rows (push_interned
        {| row_identifier := identifier; row_category := category; row_bytes := data |}
        bucket_key identifier "native row interner bucket disappeared"));;
      on_builder (commit_budget next_budget);;
      on_builder (on_counters KRows (bump_unique "native unique row counter overflow"));;
      mret identifier
  end.

(** The members of a sequence as they are stored: a canonical set is sorted by
    the bytes of its rows, which [self.rows[..]] looks up, without duplicates. *)
Definition canonical_elements (b : NativeArenaBuilder) (kind : SequenceKind) (elements : list Z)
    : outcome (list Z) :=
  match kind with
  | Ordered => mret elements
  | CanonicalSet =>
      keyed ← mapM (fun id => row ← index_at (items (rows b)) id; mret (row_bytes row, id)) elements;
      mret (vec_dedup (map snd (sort_by fst keyed)))
  end.

(** [NativeArenaBuilder::intern_sequence] *)
Definition intern_sequence (kind : SequenceKind) (elements : list Z) : M ArenaState Z :=
  s ← get;
  let self := builder s in
  arity ← lift (ok_or (try_from U64_MAX (len elements)) (limit "native sequence arity exceeds u64"));
  ensure_not (builder_max_sequence_arity (builder_limits self) <? arity)
    (resource_limit "max_sequence_arity" (NativeNumber_integer arity)
       (NativeNumber_integer (builder_max_sequence_arity (builder_limits self)))
       "native sequence arity exceeds limits");;
  lift (mapM (row_draft self) elements);;
  on_builder (on_counters KSequences (bump_requests "native sequence request counter overflow"));;
  element_bytes ← lift (checked_allocation_bytes ID_BYTES (len elements));
  lift (plan (budget self) element_bytes);;
  on_arena_world (try_reserve "native sequence member allocation failed");;
  canonical ← lift (canonical_elements self kind elements);
  let bucket_key := sequence_bucketer self kind canonical in
  found ← lift (find_interned (sequence_draft self)
    (fun d => bool_decide (seq_kind d = kind) && bool_decide (seq_elements d = canonical))
    bucket_key (draft_sequences self));
  match found with
  | Some identifier =>
      on_builder (on_counters KSequences (bump_hits "native sequence hit counter overflow"));;
      mret identifier
  | None =>
      lift (check_next_count (len (items (draft_sequences self))) (max_sequences (builder_limits self))
              "max_terms" "native sequence count exceeds limits");;
      identifier ← lift (try_from_index SequenceId (len (items (draft_sequences self))));
      additional ← lift (checked_size_sum [element_bytes; DRAFT_SEQUENCE_BYTES; ID_BYTES]);
      next_budget ← lift (plan (budget self) additional);
      on_arena_world (reserve_entry bucket_key (draft_sequences self)
        "native sequence table allocation failed" "native sequence interner allocation failed"
        "native sequence interner bucket allocation failed" "native sequence interner bucket disappeared");;
      on_builder (on_sequences (push_interned
        {| seq_identifier := identifier; seq_kind := kind; seq_elements := canonical |}
        bucket_key identifier "native sequence interner bucket disappeared"));;
      on_builder (commit_budget next_budget);;
      on_builder (on_counters KSequences (bump_unique "native unique sequence counter overflow"));;
      mret identifier
  end.

(** [NativeArenaBuilder::intern_document_scope] *)
Definition intern_document_scope (document_scope : bytes) : M ArenaState Z :=
  s ← get;
  let self := builder s in
  on_builder (on_counters KDocuments (bump_requests "native document request counter overflow"));;
  match List.find (fun d => bytes_eqb (doc_scope d) document_scope) (draft_documents self) with
  | Some retained =>
      on_builder (on_counters KDocuments (bump_hits "native document hit counter overflow"));;
      mret (doc_identifier retained)
  | None =>
      lift (check_next_count (len (draft_documents self)) (builder_max_documents (builder_limits self))
              "max_documents" "native document count exceeds limits");;
      identifier ← lift (try_from_index DocumentId (len (draft_documents self)));
      next_budget ← lift (plan (budget self) DRAFT_DOCUMENT_BYTES);
      on_arena_world (try_reserve "native document table allocation failed");;
      on_builder (on_documents (fun l =>
        (Ok tt, l ++ [{| doc_identifier := identifier; doc_scope := document_scope |}])));;
      on_builder (commit_budget next_budget);;
      on_builder (on_counters KDocuments (bump_unique "native unique document counter overflow"));;
      mret identifier
  end.

(** [NativeArenaBuilder::intern_anonymous] *)
Definition intern_anonymous (document : Z) (local_key : bytes) : M ArenaState Z :=
  s ← get;
  let self := builder s in
  ensure_not (match local_key with [] => true | _ => false end)
    (protocol "native anonymous local key must be nonempty");;
  local_size ← lift (ok_or (try_from U64_MAX (len local_key))
                       (limit "native anonymous local key exceeds u64"));
  ensure_not (max_local_key_bytes (builder_limits self) <? local_size)
    (resource_limit "max_canonical_work" (NativeNumber_integer local_size)
       (NativeNumber_integer (max_local_key_bytes (builder_limits self)))
       "native anonymous local key exceeds limits");;
  retained ← lift (document_draft self document);
  let document_scope := doc_scope retained in
  on_builder (on_counters KAnonymous (bump_requests "native anonymous request counter overflow"));;
  let bucket_key := anonymous_bucketer self document_scope local_key in
  found ← lift (find_interned (anonymous_draft self)
    (fun d => bytes_eqb (anon_scope d) document_scope && bytes_eqb (anon_key d) local_key)
    bucket_key (draft_anonymous self));
  match found with
  | Some identifier =>
      on_builder (on_counters KAnonymous (bump_hits "native anonymous hit counter overflow"));;
      mret identifier
  | None =>
      lift (check_next_count (len (items (draft_anonymous self))) (max_anonymous (builder_limits self))
              "max_terms" "native anonymous count exceeds limits");;
      identifier ← lift (try_from_index AnonymousId (len (items (draft_anonymous self))));
      additional ← lift (checked_size_sum [len local_key; DRAFT_ANONYMOUS_BYTES; ID_BYTES]);
      next_budget ← lift (plan (budget self) additional);
      on_arena_world (try_reserve "native anonymous local-key allocation failed");;
      on_arena_world (reserve_entry bucket_key (draft_anonymous self)
        "native anonymous table allocation failed" "native anonymous interner allocation failed"
        "native anonymous interner bucket allocation failed" "native anonymous interner bucket disappeared");;
      on_builder (on_anonymous (push_interned
        {| anon_identifier := identifier; anon_document := document; anon_scope := document_scope;
           anon_key := local_key |}
        bucket_key identifier "native anonymous interner bucket disappeared"));;
      on_builder (commit_budget next_budget);;
      on_builder (on_counters KAnonymous (bump_unique "native unique anonymous counter overflow"));;
      mret identifier
  end.

(** ** Publication *)

(** [vec[i] = v] *)
Definition index_set {A} (l : list A) (i : Z) (v : A) : outcome (list A) :=
  if (0 <=? i) && (i <? len l) then Ok (<[Z.to_nat i := v]> l) else Panic.

(** The table of new identifiers: at the old identifier of each entry, its
    position in the sorted table. *)
Definition remap_entry {D} (identifier : D -> Z) (label : string) (d : D) (loop : list Z * Z)
    : outcome (list Z * Z) :=
  let '(remap, new_index) := loop in
  new_identifier ← try_from_index label new_index;
  remap ← index_set remap (identifier d) new_identifier;
  mret (remap, new_index + 1).
Definition build_remap {D} (identifier : D -> Z) (label : string) (sorted : list D) : outcome (list Z) :=
  loop ← ofor_each (remap_entry identifier label) sorted (replicate (length sorted) 0, 0);
  mret (fst loop).

Definition remap_id (remap : list Z) (message : string) (id : Z) : outcome Z :=
  ok_or (get_at remap id) (protocol message).

Definition remap_sequence (row_remap : list Z) (d : DraftSequence) : outcome DraftSequence :=
  elements ← mapM (remap_id row_remap "native sequence row remap is out of bounds") (seq_elements d);
  mret {| seq_identifier := seq_identifier d; seq_kind := seq_kind d;
          seq_elements := match seq_kind d with
                          | Ordered => elements
                          | CanonicalSet => vec_dedup (sort_by (fun id => id) elements)
                          end |}.

Definition remap_anonymous (document_remap : list Z) (d : DraftAnonymousIdentity)
    : outcome DraftAnonymousIdentity :=
  document ← remap_id document_remap "native anonymous document remap is out of bounds" (anon_document d);
  mret {| anon_identifier := anon_identifier d; anon_document := document; anon_scope := anon_scope d;
          anon_key := anon_key d |}.

(** The bytes retained by the published entries. *)
Definition retained_rows (entries : list DraftCanonicalRow) (total : Z) : outcome Z :=
  ofor_each (fun d total => add_retained total (len (row_bytes d))) entries total.
Definition retained_sequences (entries : list DraftSequence) (total : Z) : outcome Z :=
  ofor_each (fun d total =>
    n ← checked_allocation_bytes ID_BYTES (len (seq_elements d)); add_retained total n) entries total.
Definition retained_anonymous (entries : list DraftAnonymousIdentity) (total : Z) : outcome Z :=
  ofor_each (fun d total => add_retained total (len (anon_key d))) entries total.

Definition freeze_row (d : DraftCanonicalRow) : FrozenCanonicalRow :=
  {| frozen_category := row_category d; frozen_bytes := row_bytes d |}.
Definition freeze_sequence (d : DraftSequence) : FrozenSequence :=
  {| frozen_kind := seq_kind d; frozen_elements := seq_elements d |}.
Definition freeze_document (d : DraftDocument) : FrozenDocument := {| frozen_scope := doc_scope d |}.
Definition freeze_anonymous (d : DraftAnonymousIdentity) : FrozenAnonymousIdentity :=
  {| frozen_document := anon_document d; frozen_document_scope := anon_scope d;
     frozen_local_key := anon_key d |}.

Definition sequence_key (d : DraftSequence) : SequenceKind * bytes := (seq_kind d, seq_elements d).
Definition anonymous_key (d : DraftAnonymousIdentity) : bytes * bytes := (anon_scope d, anon_key d).

(** [NativeArenaBuilder::freeze] *)
Definition freeze (self : NativeArenaBuilder) : M World NativeArena :=
  let rows := sort_by row_bytes (items (rows self)) in
  row_remap_bytes ← lift (checked_allocation_bytes ID_BYTES (len rows));
  next_budget ← lift (plan (budget self) row_remap_bytes);
  try_reserve "native row remap allocation failed";;
  row_remap ← lift (build_remap row_identifier CanonicalRowId rows);
  let budget1 := commit next_budget (budget self) in
  sequences ← lift (mapM (remap_sequence row_remap) (items (draft_sequences self)));
  let sequences := sort_by sequence_key sequences in
  let documents := sort_by doc_scope (draft_documents self) in
  document_remap_bytes ← lift (checked_allocation_bytes ID_BYTES (len documents));
  next_budget ← lift (plan budget1 document_remap_bytes);
  try_reserve "native document remap allocation failed";;
  document_remap ← lift (build_remap doc_identifier DocumentId documents);
  let budget2 := commit next_budget budget1 in
  anonymous ← lift (mapM (remap_anonymous document_remap) (items (draft_anonymous self)));
  let anonymous := sort_by anonymous_key anonymous in
  rows_metadata ← lift (checked_allocation_bytes FROZEN_ROW_BYTES (len rows));
  sequences_metadata ← lift (checked_allocation_bytes FROZEN_SEQUENCE_BYTES (len sequences));
  documents_metadata ← lift (checked_allocation_bytes FROZEN_DOCUMENT_BYTES (len documents));
  anonymous_metadata ← lift (checked_allocation_bytes FROZEN_ANONYMOUS_BYTES (len anonymous));
  frozen_metadata ← lift (checked_size_sum
    [rows_metadata; sequences_metadata; documents_metadata; anonymous_metadata]);
  next_budget ← lift (plan budget2 frozen_metadata);
  try_reserve "native frozen row table allocation failed";;
  retained ← lift (retained_rows rows 0);
  try_reserve "native frozen sequence table allocation failed";;
  retained ← lift (retained_sequences sequences retained);
  try_reserve "native frozen document table allocation failed";;
  try_reserve "native frozen anonymous table allocation failed";;
  retained ← lift (retained_anonymous anonymous retained);
  retained ← lift (add_retained retained frozen_metadata);
  let budget3 := commit next_budget budget2 in
  mret {| tables := {| canonical_rows := map freeze_row rows;
                       sequences := map freeze_sequence sequences;
                       documents := map freeze_document documents;
                       anonymous := map freeze_anonymous anonymous |};
          arena_counters :=
            {| row_counters := row_counters (counters self);
               sequence_counters := sequence_counters (counters self);
               document_counters := document_counters (counters self);
               anonymous_counters := anonymous_counters (counters self);
               peak_accounted_bytes := budget_peak budget3; retained_bytes := retained |} |}.

(** Two rows, a canonical set given twice in different orders, and the
    published arena. *)
Definition iri_row (name : string) : bytes :=
  [1; 2; Z.of_nat (String.length name)] ++ str name.
Definition sample_arena : M ArenaState (Z * Z * Z * Z) :=
  b ← intern_canonical_row (iri_row "urn:b");
  a ← intern_canonical_row (iri_row "urn:a");
  s ← intern_sequence CanonicalSet [b; a; b];
  t ← intern_sequence CanonicalSet [a; b];
  mret (b, a, s, t).

Example sample_arena_interns :
  fst (sample_arena {| arena_world := calm_world; builder := NativeArenaBuilder_new Limits_default |}) =
  Ok (0, 1, 0, 0).
Proof. vm_compute. reflexivity. Qed.
