(* ===== verification/ArenaIntern.v ===== *)
(** * What interning does to a table

    A bucketed table holds distinct contents under their positions, and every
    bucket lists exactly the entries with its hash.  Then looking a content up
    finds it exactly when it is there, whatever the hash function does, and
    pushing a new one keeps the invariant. *)

From S2P Require Import Prelude Bytes Order Error Machine Atomic Arena.

(** Entries with distinct keys are found at one position only. *)
Lemma get_at_key_inj {D A} (key : D -> A) l i j x y :
  NoDup (map key l) -> get_at l i = Some x -> get_at l j = Some y -> key x = key y -> i = j.
Proof.
  intros Hn [Hi Hx]%get_at_Some [Hj Hy]%get_at_Some E.
  assert (Z.to_nat i = Z.to_nat j); [|lia]. apply (NoDup_lookup _ _ _ (key x) Hn).
  - change (map key l) with (key <$> l). by rewrite list_lookup_fmap, Hx.
  - change (map key l) with (key <$> l). by rewrite list_lookup_fmap, Hy, E.
Qed.

Lemma mapM_lookup_inj {D A} (key : D -> A) l x y keys :
  NoDup (map key l) ->
  mapM (fun id => key <$> get_at l id) x = Some keys -> mapM (fun id => key <$> get_at l id) y = Some keys -> x = y.
Proof.
  intros Hn. rewrite !mapM_Some. revert y keys. induction x as [|a x IH]; intros y keys Hx Hy.
  - apply Forall2_nil_inv_l in Hx as ->. by apply Forall2_nil_inv_r in Hy.
  - apply Forall2_cons_inv_l in Hx as (m & ms & Ha & Hx & ->).
    apply Forall2_cons_inv_r in Hy as (b & y' & Hb & Hy & ->). f_equal; [|by eapply IH].
    apply fmap_Some in Ha as (r & Ha & ->), Hb as (r' & Hb & E).
    by apply (get_at_key_inj key _ _ _ _ _ Hn Ha Hb).
Qed.

Section InternerSpec.
Context {D C : Type} (identifier : D -> Z) (content : D -> C) (key : C -> Z).

Record interner_ok (t : Interner D) : Prop := {
  interner_identifiers : forall i d, get_at (items t) i = Some d -> identifier d = i;
  interner_distinct : NoDup (map content (items t));
  interner_buckets : forall k id,
    In id (default [] (buckets t !! k)) <-> exists d, get_at (items t) id = Some d /\ key (content d) = k;
  interner_size : len (items t) <= U32_MAX + 1
}.

(** [l'] is [l] with content [c] interned at [id]. *)
Definition interned (l l' : list D) (c : C) (id : Z) : Prop :=
  exists d, get_at l' id = Some d /\ content d = c /\
    (l' = l \/ (l' = l ++ [d] /\ ~ In c (map content l))).

Lemma interner_empty_ok : interner_ok Interner_empty.
Proof.
  constructor; cbn.
  - intros i d H%get_at_lt. cbn in H. lia.
  - constructor.
  - intros k id. rewrite lookup_empty. cbn. split; [done|]. intros (d & H%get_at_lt & _). cbn in H. lia.
  - ulia.
Qed.

Lemma In_get_at (l : list D) d : In d l -> exists i, get_at l i = Some d.
Proof.
  intros (i & Hi)%list_elem_of_In%list_elem_of_lookup. exists (Z.of_nat i).
  apply get_at_Some. split; [lia|]. by rewrite Nat2Z.id.
Qed.

Lemma get_at_In (l : list D) i d : get_at l i = Some d -> In d l.
Proof. intros [_ Hd]%get_at_Some. by apply list_elem_of_lookup_2, list_elem_of_In in Hd. Qed.

Lemma owp_draft missing inconsistent l id (Q : D -> Prop) :
  (forall i d, get_at l i = Some d -> identifier d = i) ->
  (forall d, get_at l id = Some d -> Q d) -> owp (draft identifier missing inconsistent l id) Q.
Proof. intros Hid HQ. unfold draft. step. step. step. step. step. by apply HQ. Qed.

Lemma draft_found missing inconsistent l id d :
  (forall i d, get_at l i = Some d -> identifier d = i) ->
  get_at l id = Some d -> draft identifier missing inconsistent l id = Ok d.
Proof.
  intros Hid Hd. unfold draft. rewrite Hd. unfold_monad. cbn. by rewrite (Hid _ _ Hd), Z.eqb_refl.
Qed.

(** The bucket loop visits entries of the table only. *)
Lemma find_in_bucket_spec lookup matches (l : list D) c bucket :
  (forall id d, get_at l id = Some d -> lookup id = Ok d) ->
  (forall id, In id bucket -> exists d, get_at l id = Some d) ->
  (forall d, In d l -> matches d = true <-> content d = c) ->
  exists r, find_in_bucket lookup matches bucket = Ok r /\
    match r with
    | Some id => exists d, get_at l id = Some d /\ content d = c
    | None => forall id d, In id bucket -> get_at l id = Some d -> content d <> c
    end.
Proof.
  intros Hlook Hall Hm. induction bucket as [|id bucket IH]; cbn [find_in_bucket].
  - exists None. split; [done|]. by intros ? ? [].
  - destruct (Hall id) as [d Hd]; [by left|]. rewrite (Hlook _ _ Hd). unfold_monad. cbn.
    pose proof (Hm d) as Hmd.
    pose proof (get_at_In _ _ _ Hd) as Hin.
    destruct (matches d) eqn:E.
    + exists (Some id). split; [done|]. exists d. split; [done|]. by apply Hmd.
    + destruct IH as (r & Hr & Hspec); [intros x Hx; apply Hall; by right|].
      exists r. split; [done|]. destruct r as [x|]; [done|].
      intros x d' [<-|Hx] Hd'; [|by eapply Hspec].
      replace d' with d by congruence. intros Hc. by apply Hmd in Hc; [|done].
Qed.

Lemma find_interned_spec missing inconsistent matches t c :
  interner_ok t ->
  (forall d, In d (items t) -> matches d = true <-> content d = c) ->
  exists r, find_interned (draft identifier missing inconsistent (items t)) matches (key c) t = Ok r /\
    match r with
    | Some id => exists d, get_at (items t) id = Some d /\ content d = c
    | None => ~ In c (map content (items t))
    end.
Proof.
  intros [Hid _ Hb _] Hm. unfold find_interned. specialize (Hb (key c)).
  assert (forall (r : option Z), (r = None -> forall id d, In id (default [] (buckets t !! key c)) ->
            get_at (items t) id = Some d -> content d <> c) ->
          r = None -> ~ In c (map content (items t))) as Habsent.
  { intros r Hr ->. intros (d & Hc & (i & Hi)%In_get_at)%in_map_iff.
    apply (Hr eq_refl i d); [|done|done]. apply Hb. exists d. split; [done|]. by rewrite Hc. }
  destruct (buckets t !! key c) as [bucket|].
  - destruct (find_in_bucket_spec (draft identifier missing inconsistent (items t)) matches (items t) c bucket)
      as (r & Hr & Hspec); [by intros; apply draft_found| |done|].
    { intros id Hin. apply Hb in Hin as (d & Hd & _). by exists d. }
    exists r. split; [done|]. destruct r; [done|]. by apply (Habsent None).
  - exists None. split; [done|]. by apply (Habsent None).
Qed.

Lemma get_at_snoc (l : list D) d i x :
  get_at (l ++ [d]) i = Some x <-> get_at l i = Some x \/ (i = len l /\ x = d).
Proof.
  rewrite !get_at_Some. split.
  - intros [Hi H]. apply lookup_app_Some in H as [H|[Hge H]]; [by left|].
    destruct (Z.to_nat i - length l)%nat eqn:E; [|done]. injection H as ->. right. split; [lia|done].
  - intros [[Hi H]|[-> ->]].
    + split; [done|]. by apply lookup_app_l_Some.
    + split; [lia|]. rewrite Nat2Z.id, lookup_app_r, Nat.sub_diag by lia. done.
Qed.

Lemma push_interned_spec t d disappeared :
  interner_ok t -> identifier d = len (items t) -> len (items t) <= U32_MAX ->
  ~ In (content d) (map content (items t)) ->
  exists t', push_interned d (key (content d)) (len (items t)) disappeared t = (Ok tt, t') /\
    items t' = items t ++ [d] /\ interner_ok t'.
Proof.
  intros [Hid Hn Hb Hsize] Hd Hl Hfresh. set (k := key (content d)) in *.
  exists {| items := items t ++ [d];
            buckets := <[k := default [] (buckets t !! k) ++ [len (items t)]]> (buckets t) |}.
  split; [|split; [done|]].
  - unfold push_interned. unfold_monad. case_bool_decide as E.
    + by rewrite E.
    + cbn. by destruct (buckets t !! k).
  - constructor; cbn [items buckets].
    + intros i x [Hx|[-> ->]]%get_at_snoc; [by apply Hid|done].
    + rewrite map_app. apply NoDup_app. split; [done|]. split; [|apply NoDup_singleton].
      intros x Hx%list_elem_of_In ->%list_elem_of_singleton. done.
    + intros k' id. destruct (decide (k' = k)) as [->|Hk].
      * rewrite lookup_insert. rewrite decide_True by done. cbn. rewrite in_app_iff, Hb. cbn. split.
        -- intros [(x & Hx & Hxk)|[<-|[]]]; [exists x; split; [|done]; apply get_at_snoc; by left|].
           exists d. split; [|done]. apply get_at_snoc. by right.
        -- intros (x & [Hx|[-> ->]]%get_at_snoc & Hxk); [left; by exists x|right; by left].
      * rewrite lookup_insert_ne by done. rewrite Hb. split.
        -- intros (x & Hx & Hxk). exists x. split; [|done]. apply get_at_snoc. by left.
        -- intros (x & [Hx|[-> ->]]%get_at_snoc & Hxk); [by exists x|by destruct Hk].
    + rewrite length_app. cbn. ulia.
Qed.

Lemma interned_present l c id d : get_at l id = Some d -> content d = c -> interned l l c id.
Proof. intros. exists d. split; [done|]. split; [done|]. by left. Qed.

Lemma interned_fresh l d :
  ~ In (content d) (map content l) -> interned l (l ++ [d]) (content d) (len l).
Proof.
  intros H. exists d. split; [apply get_at_snoc; by right|]. split; [done|]. by right.
Qed.

Lemma interned_extends l l' c id i x : interned l l' c id -> get_at l i = Some x -> get_at l' i = Some x.
Proof. intros (d & _ & _ & [->|[-> _]]) Hx; [done|]. apply get_at_snoc. by left. Qed.

(** The contents after interning are the old ones and the interned one. *)
Lemma interned_contents l l' c id x :
  interned l l' c id -> In x (map content l') <-> x = c \/ In x (map content l).
Proof.
  intros (d & Hd & <- & [->|[-> _]]).
  - split; [by right|]. intros [->|]; [|done]. apply in_map.
    by eapply get_at_In.
  - rewrite map_app, in_app_iff. cbn. naive_solver.
Qed.

End InternerSpec.

Lemma wpe_reserve_entry {D} key (t : Interner D) m1 m2 m3 m4 (Q : unit -> World -> Prop) (E : World -> Prop) w :
  (forall w', Q tt w') -> (forall w', E w') -> wpe (reserve_entry key t m1 m2 m3 m4) Q E w.
Proof.
  intros HQ HE. unfold reserve_entry. estep. apply wpe_try_reserve; [|done]. case_bool_decide as Hk.
  - estep. apply wpe_try_reserve; [|done]. apply wpe_try_reserve; [apply HQ|done].
  - estep. estep. estep; [done|]. step. apply wpe_try_reserve; [estep; apply HQ|done].
Qed.
