(* ===== verification/Component.v ===== *)
(** * Canonical components: the abstract syntax behind canonical rows

    A row of the wire model denotes a [component]: a tag and its fields, with
    nested components.  [encode] writes it in the canonical form, and
    [well_formed] says when it obeys the schema, the set order, the local
    rules of its tag and the resource limits.  The scanner and the writer are
    both related to this specification. *)

From S2P Require Import Prelude Bytes Varint Schema Lexical Scan.

Inductive component := Component (ctag : Z) (parts : list part)
with part :=
  | PNull
  | PText (text : bytes)
  | PBytes (data : bytes)
  | PInteger (value : Z)
  | PKind (kind : EntityKind)
  | PComponent (c : component)
  | PSet (members : list component)
  | PSequence (members : list component).

Definition ctag (c : component) : Z := let 'Component t _ := c in t.
Definition parts (c : component) : list part := let 'Component _ ps := c in ps.

(** ** The canonical encoding *)

Fixpoint encode (c : component) : bytes :=
  match c with Component t ps => varint t ++ concat (map encode_part ps) end
with encode_part (p : part) : bytes :=
  match p with
  | PNull => [0]
  | PText text => 2 :: frame text
  | PBytes data => 3 :: frame data
  | PInteger value => 4 :: varint value
  | PKind kind => 5 :: frame (EntityKind_name kind)
  | PComponent c => 1 :: frame (encode c)
  | PSet cs => 6 :: varint (len cs) ++ concat (map (fun c => frame (encode c)) cs)
  | PSequence cs => 7 :: varint (len cs) ++ concat (map (fun c => 1 :: frame (encode c)) cs)
  end.

(** The number of components, this one included. *)
Fixpoint size (c : component) : Z :=
  match c with Component _ ps => 1 + sum (map part_size ps) end
with part_size (p : part) : Z :=
  match p with
  | PComponent c => size c
  | PSet cs | PSequence cs => sum (map size cs)
  | _ => 0
  end.

(** Whether some component of the tree has the tag. *)
Fixpoint has_tag (t : Z) (c : component) : bool :=
  match c with Component t' ps => (t =? t') || existsb (part_has_tag t) ps end
with part_has_tag (t : Z) (p : part) : bool :=
  match p with
  | PComponent c => has_tag t c
  | PSet cs | PSequence cs => existsb (has_tag t) cs
  | _ => false
  end.

(** ** What a parent can see of a component *)

Definition iri_text (c : component) : option bytes :=
  match c with
  | Component t [PText v] => if t =? 1 then Some v else None
  | _ => None
  end.

Definition component_kind (c : component) : option EntityKind :=
  match c with
  | Component t [PKind k; _] => if t =? 2 then Some k else None
  | _ => None
  end.

Definition component_iri (c : component) : option bytes :=
  match c with
  | Component t [_; PComponent c'] => if t =? 2 then iri_text c' else None
  | _ => iri_text c
  end.

Definition component_category (c : component) : Category :=
  match spec (ctag c) with Some s => spec_category s | None => CIri end.

Definition component_meta (c : component) : NodeMeta :=
  {| tag := ctag c; category := component_category c; entity_kind := component_kind c;
     iri := component_iri c; encoded := encode c |}.

(** ** Well-formed components *)

(** Rows in strictly ascending byte order. *)
Definition ascending (rows : list bytes) : Prop := StronglySorted bytes_lt rows.

Section WellFormed.
(** The limits that apply, from a scan budget. *)
Context (b : ScanBudget).

(** A nested component in the role [rule]. *)
Definition plays (wf : component -> Prop) (rule : NodeRule) (c : component) : Prop :=
  wf c /\ accepts rule (component_meta c) = true.

Definition arity_ok (minimum : Z) (cs : list component) : Prop :=
  minimum <= len cs <= scan_max_sequence_arity b.

(** A field that obeys its rule; [wf] is well-formedness of what it nests. *)
Definition fits (wf : component -> Prop) (rule : FieldRule) (p : part) : Prop :=
  match rule, p with
  | FScalar SText, PText text => is_utf8 text = true
  | FScalar SOptionalText, PNull => True
  | FScalar SOptionalText, PText text => is_utf8 text = true
  | FScalar (SBytesExact n), PBytes data => len data = n
  | FScalar SBytesNonempty, PBytes data => data <> []
  | FScalar SInteger, PInteger value => 0 <= value /\ len (varint value) <= 142858
  | FScalar SEntityKind, PKind _ => True
  | FNode rule, PComponent c => plays wf rule c
  | FSet rule minimum forbidden, PSet cs =>
      arity_ok minimum cs /\ ascending (map encode cs) /\
      Forall (fun c => plays wf rule c /\ forbidden <> Some (ctag c)) cs
  | FSequence rule minimum, PSequence cs => arity_ok minimum cs /\ Forall (plays wf rule) cs
  | _, _ => False
  end.

(** The rule of a literal: its datatype is not [rdf:langString], and a
    language tag is valid and only on [rdf:PlainLiteral]. *)
Definition literal_ok (lexical : bytes) (datatype : component) (language : part) : Prop :=
  len lexical <= scan_max_literal_bytes b /\
  exists iri, component_iri datatype = Some iri /\ iri <> RDF_LANG_STRING /\
    match language with
    | PText l => iri = RDF_PLAIN_LITERAL /\ valid_language l = true
    | _ => True
    end.

(** The rules between the fields of one component. *)
Definition local_ok (t : Z) (ps : list part) : Prop :=
  match ps with
  | [PText v] => t = 1 -> len v <= scan_max_iri_bytes b /\ valid_iri v
  | [PText lexical; PComponent datatype; language] => t = 4 -> literal_ok lexical datatype language
  | [PComponent first; PComponent second; _] => t = 73 -> bytes_le (encode first) (encode second)
  | [_; PSet objects; PSet data; _] => t = 101 -> ~ (objects = [] /\ data = [])
  | [PSet body; PSet head; _] =>
      t = 148 -> len body <= scan_max_rule_atoms b /\ len head <= scan_max_rule_atoms b
  | _ => True
  end.

(** Well-formed with at most [n] levels of nesting. *)
Fixpoint well_formed (n : nat) (c : component) : Prop :=
  match n with
  | O => False
  | S n =>
      exists s, spec (ctag c) = Some s /\ len (parts c) = fields s /\
        (forall i p, parts c !! i = Some p ->
           exists rule, field_rule (ctag c) (Z.of_nat i) = Some rule /\ fits (well_formed n) rule p) /\
        local_ok (ctag c) (parts c)
  end.
End WellFormed.
