(* ===== verification/ScanSound.v ===== *)
(** * The scanner accepts only well-formed components

    Every successful scan of [scan_node] has read the encoding of a component
    that obeys the schema and the budget, and no scan panics. *)

From S2P Require Import Prelude Bytes Error Machine Varint Schema Lexical Scan Component.

(** ** Budgets and states *)

(** A budget as [from_limits] makes it. *)
Record scan_budget_ok (b : ScanBudget) : Prop := {
  budget_depth : 0 <= max_depth b < U32_MAX;
  budget_terms : 0 <= terms b;
  budget_max_terms : scan_max_terms b <= U64_MAX
}.

(** The state with [n] terms counted. *)
Definition counted (b : ScanBudget) (n : Z) (f : bool) : ScanState :=
  {| budget := with_terms b n; found := f |}.

Definition tag_found (target : option Z) (c : component) : bool :=
  match target with Some t => has_tag t c | None => false end.
Definition part_found (target : option Z) (p : part) : bool :=
  match target with Some t => part_has_tag t p | None => false end.

(** The value the scanner keeps of a field. *)
Definition value_of (p : part) : FieldValue :=
  match p with
  | PNull => VNull
  | PText text => VText text
  | PBytes _ => VBytes
  | PInteger _ => VInteger
  | PKind kind => VEntityKind kind
  | PComponent c => VNode (component_meta c)
  | PSet cs | PSequence cs => VCollection (len cs)
  end.

Lemma size_pos c : 1 <= size c.
Proof.
  revert c. fix IH 1. intros [t ps]. cbn [size].
  enough (0 <= sum (map part_size ps)) by lia.
  assert (forall cs, 0 <= sum (map size cs)) as Hcs.
  { fix IHl 1. intros [|c cs]; cbn [map sum foldr]; [done|].
    specialize (IH c). specialize (IHl cs). fold (sum (map size cs)). lia. }
  induction ps as [|p ps IHps]; cbn [map sum foldr]; [done|]. fold (sum (map part_size ps)).
  enough (0 <= part_size p) by lia.
  destruct p; cbn [part_size]; try lia; [|apply Hcs|apply Hcs].
  specialize (IH c). lia.
Qed.


Lemma existsb_snoc {A} (f : A -> bool) l x : existsb f (l ++ [x]) = existsb f l || f x.
Proof. rewrite existsb_app. cbn [existsb]. by rewrite orb_false_r. Qed.

Lemma concat_snoc {A} (l : list (list A)) x : concat (l ++ [x]) = concat l ++ x.
Proof. rewrite concat_app. cbn [concat]. by rewrite app_nil_r. Qed.

Lemma map_snoc {A B} (f : A -> B) l x : map f (l ++ [x]) = map f l ++ [f x].
Proof. apply map_app. Qed.

(** Extending a strictly ascending list at its end. *)
Lemma ascending_snoc l x :
  ascending l -> (forall y, last l = Some y -> bytes_lt y x) -> ascending (l ++ [x]).
Proof.
  intros Hl Hlast. apply StronglySorted_app. split_and!; [|done|by repeat constructor].
  intros y z Hy Hz. apply list_elem_of_singleton in Hz as ->.
  destruct l as [|w l] using rev_ind; [by inversion Hy|]. clear IHl.
  rewrite last_snoc in Hlast. specialize (Hlast w eq_refl).
  apply elem_of_app in Hy as [Hy|Hy%list_elem_of_singleton]; [|by subst].
  apply StronglySorted_app in Hl as (Hl & _ & _).
  etrans; [|done]. apply Hl; [done|]. by apply list_elem_of_singleton.
Qed.

(** ** The local rules *)

Section Local.
Context (b : ScanBudget).

(** The fields obey the ledger of the tag. *)
Definition parts_fit (k : nat) (t : Z) (ps : list part) : Prop :=
  forall i p, ps !! i = Some p ->
    exists rule, field_rule t (Z.of_nat i) = Some rule /\ fits b (well_formed b k) rule p.

(** The slots of the scanner once all fields are read. *)
Definition slots (ps : list part) : list (option FieldValue) :=
  map (fun p => Some (value_of p)) ps ++ replicate (4 - length ps) None.

Definition initial_meta (t : Z) (s : Spec) (ps : list part) : NodeMeta :=
  {| tag := t; category := spec_category s; entity_kind := None; iri := None;
     encoded := encode (Component t ps) |}.

(** An IRI component is its text. *)
Lemma iri_component_shape k c :
  well_formed b k c -> ctag c = 1 -> exists v, c = Component 1 [PText v] /\ is_utf8 v = true.
Proof.
  destruct k as [|k]; [done|]. destruct c as [t ps]. cbn [ctag parts well_formed].
  intros (s & Hs & Hlen & Hfit & _) ->. injection Hs as <-. cbn [fields] in Hlen.
  destruct ps as [|p [|]]; cbn [length] in Hlen; try lia.
  destruct (Hfit O p eq_refl) as (r & Hr & Hf). injection Hr as <-.
  destruct p; cbn in Hf; try done. by exists text.
Qed.

(** The first field of a component of a given tag, by the ledger. *)
Ltac shape Hfit i :=
  match goal with
  | Hfit : parts_fit _ ?t ?ps |- _ =>
      let r := fresh "r" in let Hr := fresh "Hr" in let Hf := fresh "Hf" in
      destruct (Hfit i _ eq_refl) as (r & Hr & Hf); injection Hr as <-;
      match type of Hf with fits _ _ _ ?p => destruct p; cbn [fits scalar node set_] in Hf; try done end
  end.

Ltac shape_parts ps Hlen :=
  cbn [fields] in Hlen; repeat (destruct ps as [|? ps]; cbn [length] in Hlen; try lia).

Lemma component_meta_plain t s ps :
  spec t = Some s -> t <> 1 -> t <> 2 -> component_meta (Component t ps) = initial_meta t s ps.
Proof.
  intros Hs H1 H2. unfold component_meta, initial_meta, component_category. cbn [ctag]. rewrite Hs.
  f_equal.
  - destruct ps as [|[] [|? []]]; try done. cbn [component_kind]. by rewrite (proj2 (Z.eqb_neq t 2)).
  - assert (iri_text (Component t ps) = None) as Hi.
    { destruct ps as [|[] []]; try done. cbn [iri_text]. by rewrite (proj2 (Z.eqb_neq t 1)). }
    destruct ps as [|? [|[] []]]; try done. cbn [component_iri]. by rewrite (proj2 (Z.eqb_neq t 2)).
Qed.

Lemma local_ok_plain t ps :
  t <> 1 -> t <> 4 -> t <> 73 -> t <> 101 -> t <> 148 -> local_ok b t ps.
Proof. intros. unfold local_ok. repeat case_match; try done; lia. Qed.

(** What [validate_local] decides for fields that fit. *)
Definition local_decided (t : Z) (s : Spec) (ps : list part) (b' : ScanBudget) : Prop :=
  match validate_local (initial_meta t s ps) (slots ps) b' with
  | Ok m => local_ok b t ps /\ m = component_meta (Component t ps)
  | Err _ => ~ local_ok b t ps
  | Panic => False
  end.

Lemma local_iri k s ps n :
  spec 1 = Some s -> len ps = fields s -> parts_fit k 1 ps ->
  local_decided 1 s ps (with_terms b n).
Proof.
  intros [= <-] Hlen Hfit. shape_parts ps Hlen. shape Hfit O.
  unfold local_decided, validate_local. cbn [tag initial_meta slots map app].
  unfold required_value. unfold_monad. cbn [lookup list_lookup or_panic outcome_bind value_of as_text ok_or].
  cbn [with_terms scan_max_iri_bytes Z.eqb Pos.eqb].
  destruct (Z.ltb_spec (scan_max_iri_bytes b) (len text)) as [Hlt|Hle]; cbn [outcome_bind].
  { intros H. cbn [local_ok] in H. destruct (H eq_refl). lia. }
  destruct (validate_iri_cases text Hf) as [[H1 H2] H3].
  destruct (validate_iri text) as [[]|e|]; cbn [outcome_bind]; [| |done].
  - split; [|done]. cbn [local_ok]. intros _. split; [lia|by apply H1].
  - intros H. cbn [local_ok] in H. destruct (H eq_refl) as [_ Hv]. apply H2 in Hv. done.
Qed.

Ltac open_local :=
  unfold local_decided, validate_local; cbn [tag initial_meta slots map app];
  unfold required_value; unfold_monad;
  cbn [lookup list_lookup or_panic outcome_bind value_of as_text as_node as_kind as_collection ok_or
    with_terms scan_max_iri_bytes scan_max_literal_bytes scan_max_rule_atoms Z.eqb Pos.eqb].

Lemma local_entity k s ps n :
  spec 2 = Some s -> len ps = fields s -> parts_fit k 2 ps ->
  local_decided 2 s ps (with_terms b n).
Proof.
  intros [= <-] Hlen Hfit. shape_parts ps Hlen. shape Hfit O. shape Hfit 1%nat. open_local.
  split; [by apply local_ok_plain|].
  destruct Hf0 as [Hwf Hiri]. apply Z.eqb_eq in Hiri. cbn [tag component_meta] in Hiri.
  destruct (iri_component_shape _ _ Hwf Hiri) as (v & -> & _). done.
Qed.

Lemma accepts_datatype k c :
  well_formed b k c -> accepts RDatatype (component_meta c) = true ->
  exists v, component_iri c = Some v.
Proof.
  intros Hwf Ha. cbn [accepts tag component_meta] in Ha. bool_to_prop.
  destruct k as [|k]; [done|]. destruct c as [t ps]. cbn [ctag parts well_formed] in *. subst t.
  destruct Hwf as (s & [= <-] & Hlen & Hfit & _).
  assert (parts_fit k 2 ps) as Hp by exact Hfit. clear Hfit.
  shape_parts ps Hlen. shape Hp O. shape Hp 1%nat.
  destruct Hf0 as [Hwf Hiri]. apply Z.eqb_eq in Hiri. cbn [tag component_meta] in Hiri.
  destruct (iri_component_shape _ _ Hwf Hiri) as (v & -> & _). by exists v.
Qed.

Lemma local_literal k s ps n :
  spec 4 = Some s -> len ps = fields s -> parts_fit k 4 ps ->
  local_decided 4 s ps (with_terms b n).
Proof.
  intros Hs Hlen Hfit. pose proof (component_meta_plain 4 s ps Hs ltac:(done) ltac:(done)) as Hmeta.
  injection Hs as <-. shape_parts ps Hlen. shape Hfit O. shape Hfit 1%nat.
  destruct Hf0 as [Hwf Hdt]. destruct (accepts_datatype _ _ Hwf Hdt) as [iri Hiri].
  unfold local_decided, validate_local. cbn [tag initial_meta Z.eqb Pos.eqb]. unfold validate_literal.
  cbn [slots map app].
  unfold required_value. unfold_monad.
  cbn [lookup list_lookup or_panic outcome_bind value_of as_text as_node ok_or
    with_terms scan_max_literal_bytes Z.eqb Pos.eqb Schema.iri component_meta].
  rewrite Hiri. cbn [ok_or].
  destruct (Z.ltb_spec (scan_max_literal_bytes b) (len text)) as [Hlt|Hle]; cbn [outcome_bind].
  { intros H. cbn [local_ok] in H. destruct (H eq_refl). lia. }
  destruct (bytes_eqb iri RDF_LANG_STRING) eqn:Elang; cbn [outcome_bind].
  { apply bytes_eqb_eq in Elang. intros H. cbn [local_ok] in H.
    destruct (H eq_refl) as (_ & iri' & Hi & Hne & _). congruence. }
  apply bytes_eqb_neq in Elang.
  shape Hfit 2%nat; cbn [value_of outcome_bind].
  - split; [|done]. cbn [local_ok]. intros _. split; [lia|]. by exists iri.
  - destruct (bytes_eqb iri RDF_PLAIN_LITERAL) eqn:Eplain; cbn [negb orb outcome_bind].
    + apply bytes_eqb_eq in Eplain.
      destruct (valid_language text0) eqn:Evalid; cbn [negb orb outcome_bind].
      * split; [|done]. cbn [local_ok]. intros _. split; [lia|]. by exists iri.
      * intros H. cbn [local_ok] in H. destruct (H eq_refl) as (_ & iri' & Hi & _ & _ & Hl). congruence.
    + apply bytes_eqb_neq in Eplain. intros H. cbn [local_ok] in H.
      destruct (H eq_refl) as (_ & iri' & Hi & _ & Hp & _). congruence.
Qed.

Lemma local_inverse k s ps n :
  spec 73 = Some s -> len ps = fields s -> parts_fit k 73 ps ->
  local_decided 73 s ps (with_terms b n).
Proof.
  intros Hs Hlen Hfit. pose proof (component_meta_plain 73 s ps Hs ltac:(done) ltac:(done)) as Hmeta.
  injection Hs as <-. shape_parts ps Hlen. shape Hfit O. shape Hfit 1%nat. open_local.
  cbn [encoded component_meta].
  destruct (bytes_ltb (encode c0) (encode c)) eqn:E; cbn [outcome_bind].
  - intros H. cbn [local_ok] in H. specialize (H eq_refl). unfold bytes_le in H.
    rewrite bytes_leb_ltb, E in H. done.
  - split; [|done]. cbn [local_ok]. intros _. unfold bytes_le. by rewrite bytes_leb_ltb, E.
Qed.

Lemma local_has_key k s ps n :
  spec 101 = Some s -> len ps = fields s -> parts_fit k 101 ps ->
  local_decided 101 s ps (with_terms b n).
Proof.
  intros Hs Hlen Hfit. pose proof (component_meta_plain 101 s ps Hs ltac:(done) ltac:(done)) as Hmeta.
  injection Hs as <-. shape_parts ps Hlen.
  shape Hfit O. shape Hfit 1%nat. shape Hfit 2%nat. open_local.
  destruct ((len members =? 0) && (len members0 =? 0)) eqn:E; cbn [outcome_bind].
  - bool_to_prop. intros Hok. apply (Hok eq_refl). destruct members, members0; cbn [length] in *; done || lia.
  - split; [|done]. cbn [local_ok]. intros _ [-> ->]. done.
Qed.

Lemma local_rule k s ps n :
  spec 148 = Some s -> len ps = fields s -> parts_fit k 148 ps ->
  local_decided 148 s ps (with_terms b n).
Proof.
  intros Hs Hlen Hfit. pose proof (component_meta_plain 148 s ps Hs ltac:(done) ltac:(done)) as Hmeta.
  injection Hs as <-. shape_parts ps Hlen.
  shape Hfit O. shape Hfit 1%nat. shape Hfit 2%nat. open_local.
  destruct ((scan_max_rule_atoms b <? len members) || (scan_max_rule_atoms b <? len members0)) eqn:E;
    cbn [outcome_bind].
  - apply orb_true_iff in E. intros Hok. destruct (Hok eq_refl). destruct E; bool_to_prop; lia.
  - bool_to_prop. split; [|done]. cbn [local_ok]. intros _. lia.
Qed.

(** [validate_local] decides the local rules, and completes the metadata. *)
Lemma validate_local_decides k t s ps n :
  spec t = Some s -> len ps = fields s -> parts_fit k t ps ->
  local_decided t s ps (with_terms b n).
Proof.
  intros Hs Hlen Hfit.
  destruct (Z.eq_dec t 1) as [->|H1]; [by eapply local_iri|].
  destruct (Z.eq_dec t 2) as [->|H2]; [by eapply local_entity|].
  destruct (Z.eq_dec t 4) as [->|H4]; [by eapply local_literal|].
  destruct (Z.eq_dec t 73) as [->|H73]; [by eapply local_inverse|].
  destruct (Z.eq_dec t 101) as [->|H101]; [by eapply local_has_key|].
  destruct (Z.eq_dec t 148) as [->|H148]; [by eapply local_rule|].
  unfold local_decided, validate_local. cbn [tag initial_meta].
  rewrite !(proj2 (Z.eqb_neq t _)) by done.
  split; [by apply local_ok_plain|]. by rewrite (component_meta_plain t s ps).
Qed.
End Local.

Lemma slots_snoc ps p :
  (length ps < 4)%nat -> <[length ps := Some (value_of p)]> (slots ps) = slots (ps ++ [p]).
Proof.
  intros H. unfold slots. rewrite insert_app_r_alt by (rewrite length_map; lia).
  rewrite length_map, Nat.sub_diag, map_app, <- app_assoc, length_app. f_equal. cbn [length].
  replace (4 - length ps)%nat with (S (4 - (length ps + 1)))%nat by lia. done.
Qed.

Section Sound.
Context (data : bytes) (target : option Z) (b : ScanBudget).
Hypothesis data_bytes : is_bytes data.
Hypothesis data_size : len data <= USIZE_MAX.
Hypothesis b_ok : scan_budget_ok b.

Notation st := (counted b).
Notation cfound := (tag_found target).
Notation pfound := (part_found target).

(** A nested scan from [start] has read a component. *)
Definition scanned (k : nat) (start n : Z) (f : bool) (r : NodeMeta * Z) (s : ScanState) : Prop :=
  exists c, get_range data start (snd r) = Some (encode c) /\ fst r = component_meta c /\
    well_formed b k c /\ s = st (n + size c) (f || cfound c) /\ n + size c <= scan_max_terms b.

Definition child_sound (k : nat) (depth : Z) (rec : Z -> Z -> Z -> M ScanState (NodeMeta * Z)) : Prop :=
  forall start stop n f, 0 <= start -> stop <= len data ->
    wp (rec start stop depth) (scanned k start n f) (st n f).

Lemma wp_enter depth n f (Q : unit -> ScanState -> Prop) :
  (depth <= max_depth b -> n + 1 <= scan_max_terms b -> Q tt (st (n + 1) f)) ->
  wp (enter depth) Q (st n f).
Proof.
  intros HQ. unfold enter. repeat step. apply checked_add_Some in H as [-> _].
  cbn [budget counted with_terms max_depth scan_max_terms terms found] in *. bool_to_prop.
  apply HQ; lia.
Qed.

Lemma wp_mark_found t n f (Q : unit -> ScanState -> Prop) :
  Q tt (st n (f || bool_decide (target = Some t))) -> wp (mark_found target t) Q (st n f).
Proof.
  intros HQ. unfold mark_found. step. step. case_bool_decide.
  - rewrite orb_true_r in HQ. by step.
  - rewrite orb_false_r in HQ. by step.
Qed.

Lemma wp_check_arity kind few many minimum count offset stop n f (Q : unit -> ScanState -> Prop) :
  offset <= stop ->
  (minimum <= count <= scan_max_sequence_arity b -> count <= stop - offset -> Q tt (st n f)) ->
  wp (check_arity kind minimum count offset stop few many) Q (st n f).
Proof.
  intros Ho HQ. unfold check_arity. repeat step. apply owp_usize_sub; [done|]. step.
  cbn [budget counted with_terms scan_max_sequence_arity] in *. bool_to_prop.
  apply HQ; lia.
Qed.

(** A field scan from the marker at [start] has read a part that fits. *)
Definition part_scanned (k : nat) (rule : FieldRule) (start n : Z) (f : bool)
    (r : FieldValue * Z) (s : ScanState) : Prop :=
  exists p, get_range data start (snd r) = Some (encode_part p) /\ fst r = value_of p /\
    fits b (well_formed b k) rule p /\ s = st (n + part_size p) (f || pfound p) /\
    n + part_size p <= scan_max_terms b.

Lemma get_range_cons start stop m x :
  get_at data start = Some m -> get_range data (start + 1) stop = Some x ->
  get_range data start stop = Some (m :: x).
Proof. intros Hm%get_at_range Hx. change (m :: x) with ([m] ++ x). by eapply get_range_app. Qed.

Lemma scan_scalar_sound k rule marker start stop n f :
  get_at data start = Some marker -> stop <= len data -> n <= scan_max_terms b ->
  wp (lift (scan_scalar rule marker data (start + 1) stop))
     (part_scanned k (FScalar rule) start n f) (st n f).
Proof.
  intros Hm Hs Hn. pose proof (get_at_lt _ _ _ Hm).
  assert (forall p next, get_range data (start + 1) next = Some (drop 1 (encode_part p)) ->
    encode_part p = marker :: drop 1 (encode_part p) -> part_size p = 0 -> (forall t, part_has_tag t p = false) ->
    fits b (well_formed b k) (FScalar rule) p ->
    part_scanned k (FScalar rule) start n f (value_of p, next) (st n f)) as Hpart.
  { intros p next Hr He Hsz Hf Hfit. exists p. cbn [fst snd].
    assert (pfound p = false) as Hpf by (unfold part_found; by destruct target).
    rewrite Hsz, Hpf, orb_false_r, Z.add_0_r.
    split_and!; try done. rewrite He. by eapply get_range_cons. }
  assert (forall A (g : Z * Z * Z -> outcome A) Q,
    (forall fs fe x, get_range data fs fe = Some x -> get_range data (start + 1) fe = Some (frame x) ->
       owp (g (fs, fe, fe)) Q) ->
    owp (scan_frame data (start + 1) stop ≫= g) Q) as Hframe.
  { intros A g Q HQ. step. apply scan_frame_sound; try done; [lia|].
    intros fs fe x Hx Hfr _ _. by apply (HQ fs fe x). }
  step. unfold scan_scalar.
  destruct rule; repeat (case_match; bool_to_prop; subst; try done);
    try (apply Hframe; intros fs fe x Hx Hfr; rewrite Hx; repeat step; bool_to_prop);
    try match goal with H : Some _ = Some _ |- _ => injection H as <- end.
  - by apply (Hpart (PText x)).
  - by apply (Hpart (PBytes x)).
  - apply (Hpart (PBytes x)); try done. intros ->. done.
  - step. apply scan_any_varint_sound; try done; [lia|]. intros z next Hz Hr Hl _. step.
    by apply (Hpart (PInteger z)).
  - apply EntityKind_decode_Some in H1 as ->. by apply (Hpart (PKind a0)).
  - apply (Hpart PNull); try done. cbn [encode_part drop].
    apply get_range_Some. split; [lia|].
    destruct (get_range_is_Some data (start + 1) (start + 1)) as [x Hx]; [lia|lia|].
    pose proof (get_range_length _ _ _ _ Hx) as [Hlen _].
    destruct x; [|cbn [length] in Hlen; lia]. by apply get_range_Some in Hx as [_ ?].
  - by apply (Hpart (PText x)).
Qed.

(** The nested call, one level down. *)
Lemma wp_scan_nested rec k start stop depth n f (Q : NodeMeta * Z -> ScanState -> Prop) :
  child_sound k (depth + 1) rec -> depth < U32_MAX -> 0 <= start -> stop <= len data ->
  (forall r s, scanned k start n f r s -> Q r s) ->
  wp (scan_nested rec start stop depth) Q (st n f).
Proof.
  intros Hrec Hd Hs Hl HQ. unfold scan_nested. repeat step. apply checked_add_Some in H as [-> _].
  eapply wp_mono; [by apply Hrec|]. intros [meta next] s. apply HQ.
Qed.

Lemma scan_node_field_sound rec k rule marker start stop depth n f :
  child_sound k (depth + 1) rec -> depth < U32_MAX ->
  get_at data start = Some marker -> stop <= len data -> n <= scan_max_terms b ->
  wp (scan_node_field data rec rule marker (start + 1) stop depth)
     (part_scanned k (FNode rule) start n f) (st n f).
Proof.
  intros Hrec Hd Hm Hs Hn. pose proof (get_at_lt _ _ _ Hm). unfold scan_node_field.
  repeat step. bool_to_prop. subst. apply scan_frame_sound; try done; [lia|].
  intros fs fe x Hx Hfr ? ?. step. apply (wp_scan_nested _ k); [done|done|lia|lia|].
  intros [child consumed] s (c & Hc & Hmeta & Hwf & -> & Hmax). cbn [fst snd] in *.
  repeat step. bool_to_prop. subst. exists (PComponent c).
  assert (x = encode c) as -> by congruence.
  split_and!; try done. by eapply get_range_cons.
Qed.
Lemma existsb_found cs : existsb cfound cs = match target with Some t => existsb (has_tag t) cs | None => false end.
Proof. unfold tag_found. destruct target; [done|]. by induction cs. Qed.

(** What a member loop has read: [enc] is how one member is written. *)
Definition members_read (enc : component -> bytes) (start n : Z) (f : bool)
    (cs : list component) (offset : Z) (s : ScanState) : Prop :=
  get_range data start offset = Some (concat (map enc cs)) /\
  s = st (n + sum (map size cs)) (f || existsb cfound cs) /\
  n + sum (map size cs) <= scan_max_terms b.

Lemma members_read_nil enc start n f :
  0 <= start <= len data -> n <= scan_max_terms b -> members_read enc start n f [] start (st n f).
Proof.
  intros Hs Hn. unfold members_read. cbn [map sum foldr existsb concat].
  rewrite Z.add_0_r, orb_false_r. splits; [|done|done].
  destruct (get_range_is_Some data start start) as [x Hx]; [lia|lia|].
  pose proof (get_range_length _ _ _ _ Hx) as [Hlen _]. destruct x; [done|cbn [length] in Hlen; lia].
Qed.

Lemma members_read_snoc enc k start n f cs offset s c next s' f' n' :
  members_read enc start n f cs offset s -> s = st n' f' ->
  get_range data offset next = Some (enc c) -> well_formed b k c ->
  s' = st (n' + size c) (f' || cfound c) -> n' + size c <= scan_max_terms b ->
  members_read enc start n f (cs ++ [c]) next s'.
Proof.
  intros (Hr & -> & Hn) E Hc Hwf -> Hmax. injection E as <- <-. unfold members_read.
  rewrite !map_app, sum_app. cbn [map sum foldr] in *. rewrite existsb_snoc, concat_snoc, Z.add_0_r.
  splits; [by eapply get_range_app| |lia]. rewrite orb_assoc. by rewrite <- Z.add_assoc.
Qed.

Definition set_invariant (k : nat) (rule : NodeRule) (forbidden : option Z) (start n : Z) (f : bool)
    (i : Z) (loop : option bytes * Z) (s : ScanState) : Prop :=
  exists cs, len cs = i /\ members_read (fun c => frame (encode c)) start n f cs (snd loop) s /\
    fst loop = last (map encode cs) /\ ascending (map encode cs) /\
    Forall (fun c => plays (well_formed b k) rule c /\ forbidden <> Some (ctag c)) cs.

Lemma scan_set_field_sound rec k rule minimum forbidden marker start stop depth n f :
  child_sound k (depth + 1) rec -> depth < U32_MAX ->
  get_at data start = Some marker -> stop <= len data -> n <= scan_max_terms b ->
  wp (scan_set_field data rec rule minimum forbidden marker (start + 1) stop depth)
     (part_scanned k (FSet rule minimum forbidden) start n f) (st n f).
Proof.
  intros Hrec Hd Hm Hs Hn. pose proof (get_at_lt _ _ _ Hm). unfold scan_set_field.
  do 3 step. bool_to_prop. subst. step. apply scan_bounded_varint_sound; try done; [lia|].
  intros count offset Hcount Hu Ho. step. apply wp_check_arity; [lia|]. intros Harity _. step.
  eapply wp_mono; [apply (wp_for_range _ (set_invariant k rule forbidden offset n f))|].
  - exists []. splits; try done; [|constructor]. apply members_read_nil; [cbn; lia|done].
  - intros i [previous o] s _ (cs & Hi & Hread & Hprev & Hasc & Hall). cbn [fst snd] in *.
    pose proof Hread as (Hr & Hst & Hmax). pose proof (get_range_length _ _ _ _ Hr) as (_ & ? & ?).
    unfold scan_set_member. do 2 step. apply scan_frame_sound; try done; [lia|].
    intros fs fe x Hx Hfr ? ?. cbv beta iota. do 2 step. rewrite Hx. apply owp_ok_or. intros ? [= <-].
    do 2 step. step. rewrite Hst. apply (wp_scan_nested _ k); [done|done|lia|lia|].
    intros [child consumed] s' (c & Hc & Hmeta & Hwf & Hs' & Hmax'). cbn [fst snd] in *.
    do 2 step. bool_to_prop. subst consumed. do 2 step. bool_to_prop. step.
    assert (x = encode c) as -> by congruence. exists (cs ++ [c]). cbn [fst snd].
    splits.
    + rewrite length_app. cbn [length]. lia.
    + by eapply members_read_snoc.
    + by rewrite map_snoc, last_snoc.
    + rewrite map_snoc. apply ascending_snoc; [done|]. intros y Hy.
      apply bytes_leb_false. by rewrite Hprev, Hy in *.
    + apply Forall_app. split; [done|]. repeat constructor; [done|by subst|].
      subst child. by case_bool_decide.
  - intros [previous o] s (cs & Hi & (Hr & Hst & Hmax) & Hprev & Hasc & Hall). cbn [fst snd] in *.
    step. exists (PSet cs). cbn [fst snd value_of encode_part part_size fits].
    assert (len cs = count) as Hlen by ulia. unfold arity_ok. rewrite Hlen.
    splits; try done; try lia.
    + eapply get_range_cons; [done|]. by eapply get_range_app.
    + subst s. by rewrite existsb_found.
Qed.

Definition sequence_invariant (k : nat) (rule : NodeRule) (start n : Z) (f : bool)
    (i offset : Z) (s : ScanState) : Prop :=
  exists cs, len cs = i /\ members_read (fun c => 1 :: frame (encode c)) start n f cs offset s /\
    Forall (plays (well_formed b k) rule) cs.

Lemma scan_sequence_field_sound rec k rule minimum marker start stop depth n f :
  child_sound k (depth + 1) rec -> depth < U32_MAX ->
  get_at data start = Some marker -> stop <= len data -> n <= scan_max_terms b ->
  wp (scan_sequence_field data rec rule minimum marker (start + 1) stop depth)
     (part_scanned k (FSequence rule minimum) start n f) (st n f).
Proof.
  intros Hrec Hd Hm Hs Hn. pose proof (get_at_lt _ _ _ Hm). unfold scan_sequence_field.
  do 3 step. bool_to_prop. subst. step. apply scan_bounded_varint_sound; try done; [lia|].
  intros count offset Hcount Hu Ho. step. apply wp_check_arity; [lia|]. intros Harity _. step.
  eapply wp_mono; [apply (wp_for_range _ (sequence_invariant k rule offset n f))|].
  - exists []. splits; try done. apply members_read_nil; [lia|done].
  - intros i o s _ (cs & Hi & Hread & Hall).
    pose proof Hread as (Hr & Hst & Hmax). pose proof (get_range_length _ _ _ _ Hr) as (_ & ? & ?).
    unfold scan_sequence_member. do 2 step. apply owp_ok_or. intros item_marker Hitem.
    pose proof (get_at_lt _ _ _ Hitem).
    do 2 step. bool_to_prop. subst item_marker. do 2 step. apply scan_frame_sound; try done; [lia|].
    intros fs fe x Hx Hfr ? ?. cbv beta iota. step. rewrite Hst.
    apply (wp_scan_nested _ k); [done|done|lia|lia|].
    intros [child consumed] s' (c & Hc & Hmeta & Hwf & Hs' & Hmax'). cbn [fst snd] in *.
    do 2 step. bool_to_prop. subst consumed. step.
    assert (x = encode c) as -> by congruence. exists (cs ++ [c]). splits.
    + rewrite length_app. cbn [length]. lia.
    + eapply members_read_snoc; try done. by eapply get_range_cons.
    + apply Forall_app. split; [done|]. constructor; [|constructor]. split; [done|by subst].
  - intros o s (cs & Hi & (Hr & Hst & Hmax) & Hall).
    step. exists (PSequence cs). cbn [fst snd value_of encode_part part_size fits].
    assert (len cs = count) as Hlen by ulia. unfold arity_ok. rewrite Hlen.
    splits; try done; try lia.
    + eapply get_range_cons; [done|]. by eapply get_range_app.
    + subst s. by rewrite existsb_found.
Qed.

Lemma wp_scan_rule rec k rule marker start stop depth n f :
  child_sound k (depth + 1) rec -> depth < U32_MAX ->
  get_at data start = Some marker -> stop <= len data -> n <= scan_max_terms b ->
  wp (match rule with
      | FScalar rule => lift (scan_scalar rule marker data (start + 1) stop)
      | FNode rule => scan_node_field data rec rule marker (start + 1) stop depth
      | FSet rule minimum forbidden_tag =>
          scan_set_field data rec rule minimum forbidden_tag marker (start + 1) stop depth
      | FSequence rule minimum =>
          scan_sequence_field data rec rule minimum marker (start + 1) stop depth
      end) (part_scanned k rule start n f) (st n f).
Proof.
  intros. destruct rule.
  - by apply scan_scalar_sound.
  - by apply scan_node_field_sound.
  - by apply scan_set_field_sound.
  - by apply scan_sequence_field_sound.
Qed.

(** After [i] fields, the first [i] slots hold the parts read so far. *)
Definition fields_invariant (k : nat) (t start n : Z) (f : bool) (i : Z)
    (loop : list (option FieldValue) * Z) (s : ScanState) : Prop :=
  exists ps, len ps = i /\ fst loop = slots ps /\
    get_range data start (snd loop) = Some (concat (map encode_part ps)) /\
    parts_fit b k t ps /\
    s = st (n + sum (map part_size ps)) (f || existsb pfound ps) /\
    n + sum (map part_size ps) <= scan_max_terms b.

Lemma fields_loop_sound rec k t s start stop depth n f :
  child_sound k (depth + 1) rec -> depth < U32_MAX -> spec t = Some s ->
  0 <= start <= len data -> stop <= len data -> n <= scan_max_terms b ->
  wp (for_range (scan_field data rec t stop depth) 0 (Z.to_nat (fields s)) (replicate 4 None, start))
     (fields_invariant k t start n f (fields s)) (st n f).
Proof.
  intros Hrec Hd Hs Hstart Hstop Hn. pose proof (field_rule_ledger t s 0 Hs) as [Hcount _].
  eapply wp_mono; [apply (wp_for_range _ (fields_invariant k t start n f))|].
  - exists []. cbn [map sum foldr existsb concat length fst snd].
    rewrite Z.add_0_r, orb_false_r. splits; try done.
    destruct (get_range_is_Some data start start) as [x Hx]; [lia|lia|].
    pose proof (get_range_length _ _ _ _ Hx) as [Hlen _]. destruct x; [done|cbn [length] in Hlen; lia].
  - intros i [values o] s0 Hi (ps & Hlen & Hvals & Hr & Hfit & -> & Hmax). cbn [fst snd] in *.
    pose proof (get_range_length _ _ _ _ Hr) as (_ & ? & ?).
    unfold scan_field. do 2 step. apply owp_ok_or. intros rule Hrule.
    do 2 step. apply owp_ok_or. intros marker Hmarker.
    step. eapply wp_mono; [by apply (wp_scan_rule _ k)|].
    intros [value next] s' (p & Hp & Hval & Hpf & -> & Hmax'). cbn [fst snd] in *.
    do 2 step. assert (length ps < 4)%nat by lia. subst values.
    apply owp_index_at.
    { unfold slots. rewrite length_app, length_map, length_replicate. lia. }
    intros _ _. step. exists (ps ++ [p]). cbn [fst snd].
    rewrite map_snoc, existsb_snoc, concat_snoc, map_snoc, sum_app, length_app. cbn [length sum foldr].
    splits; try lia.
    + subst value. rewrite <- slots_snoc by done. by replace (Z.to_nat i) with (length ps) by lia.
    + by eapply get_range_app.
    + intros j q Hq. apply lookup_app_Some in Hq as [Hq|[Hj Hq]]; [by apply Hfit|].
      apply list_lookup_singleton_Some in Hq as [Hj0 <-].
      replace (Z.of_nat j) with i by lia. by exists rule.
    + f_equal; [lia|]. by rewrite orb_assoc.
  - cbn beta. replace (0 + Z.of_nat (Z.to_nat (fields s))) with (fields s) by lia. done.
Qed.

Lemma node_found t ps f :
  f || bool_decide (target = Some t) || existsb pfound ps = f || cfound (Component t ps).
Proof.
  rewrite <- orb_assoc. f_equal. unfold tag_found, part_found. cbn [has_tag].
  destruct target as [t'|]; [|by induction ps].
  f_equal. case_bool_decide; simplify_eq; [by rewrite Z.eqb_refl|].
  symmetry. apply Z.eqb_neq. congruence.
Qed.

(** The invariant of the recursion: [k] levels are left below [depth]. *)
Lemma scan_node_sound k depth :
  0 <= depth -> depth + Z.of_nat k = max_depth b + 1 -> 
  child_sound k depth (fun offset stop depth => scan_node (S k) data target offset stop depth).
Proof.
  destruct b_ok as [Hdepth _ _].
  revert depth. induction k as [|k IH]; intros depth Hd0 Hd start stop n f Hstart Hstop.
  - cbn [scan_node]. unfold scan_node_body. step. apply wp_enter. lia.
  - change (scan_node (S (S k)) data target start stop depth)
      with (scan_node_body data target (scan_node (S k) data target) start stop depth).
    unfold scan_node_body. step. apply wp_enter. intros Hmax Hn.
    do 2 step. apply scan_bounded_varint_sound; try done. intros t o Ht Hu Ho. cbv beta iota.
    step. apply wp_mark_found. do 2 step. apply owp_ok_or. intros s Hs.
    step. eapply wp_mono.
    { apply (fields_loop_sound _ k t s o stop depth); try done; try lia.
      apply IH; lia. }
    intros [values next] s' (ps & Hlen & Hvals & Hr & Hfit & -> & Hmax'). cbn [fst snd] in *. subst values.
    assert (get_range data start next = Some (encode (Component t ps))) as Henc
      by (cbn [encode]; by eapply get_range_app).
    do 2 step. rewrite Henc. apply owp_ok_or. intros ? [= <-]. do 3 step.
    cbn [budget counted]. 
    pose proof (validate_local_decides b k t s ps (n + 1 + sum (map part_size ps)) Hs Hlen Hfit) as Hloc.
    unfold local_decided, initial_meta in Hloc.
    destruct (validate_local _ _ _) as [m| |]; [|done|done].
    destruct Hloc as [Hlocal ->]. step. step. exists (Component t ps). cbn [fst snd].
    splits.
    + done.
    + done.
    + cbn [well_formed ctag parts]. by exists s.
    + rewrite <- node_found. cbn [size]. f_equal. lia.
    + cbn [size]. lia.
Qed.

(** A row that scans is the encoding of a well-formed component within the
    limits; the budget is charged its size, and nothing panics. *)
Lemma wp_scan_canonical (Q : Category * bool -> ScanBudget -> Prop) :
  terms b <= scan_max_terms b ->
  (forall c, data = encode c -> well_formed b (S (Z.to_nat (max_depth b))) c ->
     len data <= scan_max_canonical_work b -> terms b + size c <= scan_max_terms b ->
     Q (component_category c, cfound c) (with_terms b (terms b + size c))) ->
  wp (scan_canonical_observing data target) Q b.
Proof.
  intros Hterms HQ. destruct b_ok as [Hdepth _ _]. unfold scan_canonical_observing.
  do 3 step. apply owp_ok_or. intros ? [-> _]%try_from_Some. do 2 step. bool_to_prop.
  step. unfold scan_row. do 2 step. step. cbn [budget].
  replace (mkScanState b false) with (st (terms b) false) by (unfold counted; by destruct b).
  eapply wp_mono.
  { apply (scan_node_sound (S (Z.to_nat (max_depth b))) 0); lia. }
  intros [meta next] s (c & Hr & Hmeta & Hwf & -> & Hmax). cbn [fst snd] in *.
  do 2 step. bool_to_prop. subst next. do 3 step. rewrite get_range_full in Hr.
  injection Hr as Hr. subst meta. cbn [category component_meta found counted orb budget].
  by apply HQ.
Qed.
End Sound.
