(* ===== verification/ScanComplete.v ===== *)
(** * The scanner accepts every well-formed component

    The converse of [ScanSound]: the encoding of a component that obeys the
    schema and fits the budget scans to its metadata. *)

From S2P Require Import Prelude Bytes Error Machine Limits Varint Schema Lexical Scan Component ScanSound.

(** A sub-slice of a known slice. *)
Lemma get_range_sub {A} (l : list A) a b p x q c :
  get_range l a b = Some (p ++ x ++ q) -> c = a + len p -> get_range l c (c + len x) = Some x.
Proof.
  intros (Ha & u & v & -> & Hu & Hv)%get_range_Some ->. apply get_range_Some. split; [lia|].
  exists (u ++ p), (q ++ v). rewrite length_app, <- !app_assoc. splits; [done|lia|lia].
Qed.

Lemma get_range_head {A} (l : list A) a b m x :
  get_range l a b = Some (m :: x) -> get_at l a = Some m /\ get_range l (a + 1) b = Some x.
Proof.
  intros (Ha & u & v & -> & Hu & Hv)%get_range_Some. split.
  - apply get_at_Some. split; [done|]. rewrite lookup_app_r by lia.
    by replace (Z.to_nat a - length u)%nat with O by lia.
  - apply get_range_Some. split; [lia|]. exists (u ++ [m]), v.
    rewrite length_app, <- app_assoc. cbn [length app] in *. splits; [done|lia|lia].
Qed.

Section Complete.
Context (data : bytes) (target : option Z) (b : ScanBudget).
Hypothesis data_size : len data <= USIZE_MAX.
Hypothesis b_ok : scan_budget_ok b.

Notation st := (counted b).
Notation cfound := (tag_found target).
Notation pfound := (part_found target).

(** The bytes [x] stand at [a], inside the bound [stop]. *)
Definition stands (a stop : Z) (x : bytes) : Prop :=
  get_range data a (a + len x) = Some x /\ a + len x <= stop /\ stop <= len data.

Lemma stands_app a stop x y : stands a stop (x ++ y) -> stands a stop x /\ stands (a + len x) stop y.
Proof.
  intros (Hr & Hle & Hs). rewrite length_app in *. splits.
  - split; [|lia]. eapply (get_range_sub data a _ [] x y); [exact Hr|cbn; lia].
  - split; [|lia]. eapply (get_range_sub data a _ x y []); [|lia].
    rewrite app_nil_r. exact Hr.
Qed.

Lemma stands_cons a stop m x :
  stands a stop (m :: x) -> get_at data a = Some m /\ stands (a + 1) stop x.
Proof.
  intros (Hr & Hle & Hs). cbn [length] in *. apply get_range_head in Hr as [Hm Hr]. split; [done|].
  split; [|lia]. by replace (a + 1 + len x) with (a + Z.of_nat (S (length x))) by lia.
Qed.

Lemma stands_nonneg a stop x : stands a stop x -> 0 <= a.
Proof. intros (Hr & _). apply get_range_length in Hr. lia. Qed.

Lemma runs_bounded a stop v (Q : Z * Z -> Prop) :
  stands a stop (varint v) -> is_u64 v -> Q (v, a + len (varint v)) ->
  oruns (scan_bounded_varint data a stop) Q.
Proof.
  intros (Hr & Hle & Hs) Hv HQ. eapply oruns_Ok; [|done].
  by apply scan_bounded_varint_complete.
Qed.

(** Scanning a frame exposes its content. *)
Lemma runs_frame a stop x (Q : Z * Z * Z -> Prop) :
  stands a stop (frame x) ->
  (forall s, get_range data s (a + len (frame x)) = Some x -> s + len x = a + len (frame x) ->
     0 <= s -> Q (s, a + len (frame x), a + len (frame x))) ->
  oruns (scan_frame data a stop) Q.
Proof.
  intros Hst HQ. pose proof (stands_nonneg _ _ _ Hst). pose proof Hst as (Hr & Hle & Hs).
  pose proof (length_frame x). eapply oruns_Ok; [by apply scan_frame_complete|].
  apply HQ; [|lia|lia]. unfold frame in Hst. apply stands_app in Hst as [_ (Hx & _ & _)].
  by replace (a + len (frame x)) with (a + len (varint (len x)) + len x) by lia.
Qed.

Definition child_complete (k : nat) (depth : Z) (rec : Z -> Z -> Z -> M ScanState (NodeMeta * Z)) : Prop :=
  forall c start stop n f, well_formed b k c -> stands start stop (encode c) ->
    n + size c <= scan_max_terms b ->
    rec start stop depth (st n f) =
      (Ok (component_meta c, start + len (encode c)), st (n + size c) (f || cfound c)).

Lemma runs_enter depth n f (Q : unit -> ScanState -> Prop) :
  depth <= max_depth b -> n + 1 <= scan_max_terms b -> Q tt (st (n + 1) f) ->
  runs (enter depth) Q (st n f).
Proof.
  intros Hd Hn HQ. destruct b_ok as [_ _ Hmax]. unfold enter. run. run.
  do 2 run. apply (oruns_ok_or _ _ (n + 1)); [by apply checked_add_Some; cbn; lia|].
  do 2 run. run. run; [cbn; lia|]. run; [cbn; lia|]. done.
Qed.

Lemma runs_mark_found t n f (Q : unit -> ScanState -> Prop) :
  Q tt (st n (f || bool_decide (target = Some t))) -> runs (mark_found target t) Q (st n f).
Proof.
  intros HQ. unfold mark_found. run. run. case_bool_decide.
  - rewrite orb_true_r in HQ. by run.
  - rewrite orb_false_r in HQ. by run.
Qed.

Lemma runs_check_arity kind few many minimum count offset stop n f (Q : unit -> ScanState -> Prop) :
  minimum <= count <= scan_max_sequence_arity b -> offset <= stop -> count <= stop - offset ->
  Q tt (st n f) -> runs (check_arity kind minimum count offset stop few many) Q (st n f).
Proof.
  intros Hc Ho Ha HQ. unfold check_arity. run. run; [lia|]. run. run. run. run; [cbn; lia|].
  run. run. unfold usize_sub. rewrite (proj2 (Z.leb_le _ _)) by done. run. run; [lia|]. done.
Qed.

Lemma runs_nested rec k c start stop depth n f (Q : NodeMeta * Z -> ScanState -> Prop) :
  child_complete k (depth + 1) rec -> depth < U32_MAX -> well_formed b k c ->
  stands start stop (encode c) -> n + size c <= scan_max_terms b ->
  Q (component_meta c, start + len (encode c)) (st (n + size c) (f || cfound c)) ->
  runs (scan_nested rec start stop depth) Q (st n f).
Proof.
  intros Hrec Hd Hwf Hst Hn HQ. unfold scan_nested. run. run.
  apply (oruns_ok_or _ _ (depth + 1)); [by apply checked_add_Some; ulia|].
  unfold runs. by rewrite (Hrec c).
Qed.

(** What scanning the part [p] at [start] yields. *)
Definition part_run (start n : Z) (f : bool) (p : part) (r : FieldValue * Z) (s : ScanState) : Prop :=
  r = (value_of p, start + len (encode_part p)) /\
  s = st (n + part_size p) (f || pfound p).

Lemma part_run_simple start n f p next s :
  part_size p = 0 -> (forall t, part_has_tag t p = false) ->
  next = start + len (encode_part p) -> s = st n f -> part_run start n f p (value_of p, next) s.
Proof.
  intros Hs Hf -> ->. split; [done|]. rewrite Hs, Z.add_0_r. f_equal.
  unfold part_found. destruct target; [rewrite Hf|]; by rewrite orb_false_r.
Qed.

Lemma scan_scalar_complete k rule p marker start stop n f :
  fits b (well_formed b k) (FScalar rule) p -> stands start stop (encode_part p) ->
  get_at data start = Some marker ->
  runs (lift (scan_scalar rule marker data (start + 1) stop)) (part_run start n f p) (st n f).
Proof.
  intros Hfit Hst Hm. run. unfold scan_scalar.
  assert (forall m x, encode_part p = m :: x -> marker = m /\ stands (start + 1) stop x) as Hhead.
  { intros m x E. rewrite E in Hst. apply stands_cons in Hst as [Hm' ?]. split; [congruence|done]. }
  assert (forall A (g : Z * Z * Z -> outcome A) x Q, stands (start + 1) stop (frame x) ->
    (forall s, get_range data s (start + 1 + len (frame x)) = Some x ->
       oruns (g (s, start + 1 + len (frame x), start + 1 + len (frame x))) Q) ->
    oruns (scan_frame data (start + 1) stop ≫= g) Q) as Hframe.
  { intros A g x Q Hx HQ. run. apply (runs_frame _ _ x); [done|]. intros s Hs _ _. by apply HQ. }
  destruct rule, p; cbn [fits] in Hfit; try done;
    destruct (Hhead _ _ eq_refl) as [-> Hs]; cbn [Z.eqb Pos.eqb];
    try (eapply Hframe; [exact Hs|]; intros s Hx; cbv beta iota; run; run; [exact Hx|]).
  - run. run; [by rewrite Hfit|]. run. apply (part_run_simple _ _ _ (PText text)); try done. cbn [encode_part length]. lia.
  - run. run; [done|]. run. run; [by rewrite Hfit, Z.eqb_refl|]. run.
    apply (part_run_simple _ _ _ (PBytes data0)); try done. cbn [encode_part length]. lia.
  - run. run; [apply Z.eqb_neq; destruct data0; [done|cbn [length]; lia]|]. run. run; [done|]. run.
    apply (part_run_simple _ _ _ (PBytes data0)); try done. cbn [encode_part length]. lia.
  - run. destruct Hs as (Hr & Hle & Hl). destruct Hfit as [Hz Hlen].
    eapply oruns_Ok; [by apply (scan_any_varint_complete _ _ _ value)|].
    run. apply (part_run_simple _ _ _ (PInteger value)); try done. cbn [encode_part length]. lia.
  - run. run; [by apply EntityKind_decode_name|]. run.
    apply (part_run_simple _ _ _ (PKind kind)); try done. cbn [encode_part length]. lia.
  - run. apply (part_run_simple _ _ _ PNull); done.
  - run. run; [by rewrite Hfit|]. run. apply (part_run_simple _ _ _ (PText text)); try done. cbn [encode_part length]. lia.
Qed.

Lemma scan_node_field_complete rec k rule c marker start stop depth n f :
  child_complete k (depth + 1) rec -> depth < U32_MAX ->
  plays (well_formed b k) rule c -> stands start stop (encode_part (PComponent c)) ->
  get_at data start = Some marker -> n + size c <= scan_max_terms b ->
  runs (scan_node_field data rec rule marker (start + 1) stop depth)
    (part_run start n f (PComponent c)) (st n f).
Proof.
  intros Hrec Hd [Hwf Ha] Hst Hm Hn. cbn [encode_part] in Hst. apply stands_cons in Hst as [Hm' Hst].
  assert (marker = 1) as -> by congruence. unfold scan_node_field. run. run; [done|]. run. run.
  eapply runs_frame; [done|]. intros s Hs Hend Hs0. cbv beta iota. run.
  pose proof Hst as (_ & Hle & Hl).
  eapply runs_nested; try done.
  - split; [|lia]. by rewrite Hend.
  - rewrite Hend. run. run; [by rewrite Z.eqb_refl|]. run. run; [by rewrite Ha|]. run.
    split; [|done]. cbn [value_of encode_part length]. f_equal. lia.
Qed.

(** ** Members of collections *)

Lemma sum_sizes_nonneg cs : 0 <= sum (map size cs).
Proof.
  unfold sum. induction cs as [|c cs IH]; cbn [map foldr]; [done|].
  pose proof (size_pos c). lia.
Qed.

Lemma part_size_nonneg p : 0 <= part_size p.
Proof.
  destruct p; cbn [part_size]; try done; try apply sum_sizes_nonneg.
  pose proof (size_pos c). lia.
Qed.

Lemma sum_parts_nonneg ps : 0 <= sum (map part_size ps).
Proof.
  unfold sum. induction ps as [|p ps IH]; cbn [map foldr]; [done|].
  pose proof (part_size_nonneg p). lia.
Qed.

(** The state of a member loop that has read [cs]. *)
Definition members_state (n : Z) (f : bool) (cs : list component) : ScanState :=
  st (n + sum (map size cs)) (f || existsb cfound cs).

Lemma members_state_snoc n f cs c :
  st (n + sum (map size cs) + size c) ((f || existsb cfound cs) || cfound c) =
  members_state n f (cs ++ [c]).
Proof.
  unfold members_state. rewrite map_snoc, sum_app, existsb_snoc, orb_assoc.
  f_equal. unfold sum. cbn [foldr]. lia.
Qed.

(** The next member stands after the ones read. *)
Lemma member_stands (enc : component -> bytes) o stop cs i c :
  stands o stop (concat (map enc cs)) -> cs !! i = Some c ->
  take (S i) cs = take i cs ++ [c] /\
  stands (o + len (concat (map enc (take i cs)))) stop (enc c) /\
  sum (map size (take i cs)) + size c <= sum (map size cs) /\
  len (concat (map enc (take (S i) cs))) = len (concat (map enc (take i cs))) + len (enc c).
Proof.
  intros Hst Hc. assert (take (S i) cs = take i cs ++ [c]) as Htake by by apply take_S_r.
  pose proof (take_drop_middle cs i c Hc) as Hcs. splits; [done| | |].
  - rewrite <- Hcs, map_app, concat_app in Hst. cbn [map concat] in Hst.
    apply stands_app in Hst as [_ Hst]. by apply stands_app in Hst as [Hst _].
  - rewrite <- Hcs at 2. rewrite map_app, sum_app. cbn [map sum foldr].
    pose proof (sum_sizes_nonneg (drop (S i) cs)). unfold sum in *. lia.
  - rewrite Htake, map_snoc, concat_snoc, length_app. lia.
Qed.

Lemma members_fill (enc : component -> bytes) cs :
  (forall c, 1 <= len (enc c)) -> len cs <= len (concat (map enc cs)).
Proof.
  intros Hpos. induction cs as [|c cs IH]; cbn [map concat length]; [lia|].
  rewrite length_app. specialize (Hpos c). lia.
Qed.

Lemma frame_nonempty x : 1 <= len (frame x).
Proof. rewrite length_frame. pose proof (varint_length_pos (len x)). lia. Qed.

Lemma found_members cs :
  existsb cfound cs = match target with Some t => existsb (has_tag t) cs | None => false end.
Proof. apply existsb_found. Qed.

(** The shared frame of both collection scans. *)
Lemma collection_stands m start stop (enc : component -> bytes) cs :
  stands start stop (m :: varint (len cs) ++ concat (map enc cs)) ->
  (forall c, 1 <= len (enc c)) ->
  get_at data start = Some m /\ stands (start + 1) stop (varint (len cs)) /\ is_u64 (len cs) /\
  stands (start + 1 + len (varint (len cs))) stop (concat (map enc cs)) /\
  start + 1 + len (varint (len cs)) + len cs <= stop.
Proof.
  intros Hst Hpos. apply stands_cons in Hst as [Hm Hst]. apply stands_app in Hst as [Hv Hst].
  pose proof (members_fill enc cs Hpos). pose proof Hst as (_ & Hle & Hl).
  pose proof (stands_nonneg _ _ _ Hv).
  splits; try done; [ulia|lia].
Qed.

Definition set_progress (o n : Z) (f : bool) (cs : list component) (i : Z)
    (loop : option bytes * Z) (s : ScanState) : Prop :=
  let read := take (Z.to_nat i) cs in
  loop = (last (map encode read), o + len (concat (map (fun c => frame (encode c)) read))) /\
  s = members_state n f read.

Lemma ascending_next rows i x :
  ascending rows -> rows !! i = Some x ->
  match last (take i rows) with Some value => bytes_leb x value | None => false end = false.
Proof.
  intros Hasc Hx. destruct (last (take i rows)) as [y|] eqn:Hy; [|done].
  rewrite <- (take_drop_middle rows i x Hx) in Hasc.
  apply StronglySorted_app in Hasc as (Hall & _ & _).
  assert (bytes_lt y x) as Hlt.
  { apply Hall; [|constructor]. rewrite last_lookup in Hy. by eapply list_elem_of_lookup_2. }
  unfold bytes_lt in Hlt. by rewrite bytes_leb_ltb, Hlt.
Qed.

Lemma scan_set_field_complete rec k rule minimum forbidden cs marker start stop depth n f :
  child_complete k (depth + 1) rec -> depth < U32_MAX ->
  fits b (well_formed b k) (FSet rule minimum forbidden) (PSet cs) ->
  stands start stop (encode_part (PSet cs)) ->
  get_at data start = Some marker -> n + part_size (PSet cs) <= scan_max_terms b ->
  runs (scan_set_field data rec rule minimum forbidden marker (start + 1) stop depth)
    (part_run start n f (PSet cs)) (st n f).
Proof.
  intros Hrec Hd (Harity & Hasc & Hall) Hst Hm Hn. cbn [encode_part part_size] in *.
  apply collection_stands in Hst as (Hm' & Hv & Hu & Hcs & Hfill); [|intros; apply frame_nonempty].
  assert (marker = 6) as -> by congruence. unfold scan_set_field. run. run; [done|]. run. run.
  eapply runs_bounded; [done|done|]. cbv beta iota.
  set (o := start + 1 + len (varint (len cs))) in *.
  run. apply runs_check_arity; [done|lia|lia|]. run.
  eapply runs_mono; [apply (runs_for_range _ (set_progress o n f cs))|].
  - unfold set_progress, members_state. cbn [Z.to_nat take map concat length last existsb sum foldr].
    rewrite !Z.add_0_r, orb_false_r. done.
  - intros i loop s Hi [-> ->]. destruct (lookup_lt_is_Some_2 cs (Z.to_nat i)) as [c Hc]; [lia|].
    destruct (member_stands (fun c => frame (encode c)) _ _ _ _ _ Hcs Hc) as (Htake & Hst & Hsize & Hlen).
    destruct (proj1 (Forall_lookup _ _) Hall _ _ Hc) as [[Hwf Ha] Hforb].
    unfold scan_set_member. run. run. eapply runs_frame; [done|]. intros s Hs Hend Hs0.
    cbv beta iota. run. run. run; [done|]. run.
    pose proof Hst as (_ & Hle & Hl).
    run; [rewrite <- firstn_map; apply ascending_next; [done|];
         change (map encode cs) with (encode <$> cs); by rewrite list_lookup_fmap, Hc|].
    run. eapply runs_nested; try done; [split; [by rewrite Hend|lia]|lia|].
    rewrite Hend. run. run; [by rewrite Z.eqb_refl|]. run. run.
    { rewrite Ha. cbn [negb orb tag component_meta]. by rewrite bool_decide_false. }
    run. unfold set_progress. replace (Z.to_nat (i + 1)) with (S (Z.to_nat i)) by lia. cbv zeta.
    split; [|rewrite Htake; apply members_state_snoc].
    f_equal; [by rewrite Htake, map_snoc, last_snoc|lia].
  - intros loop s [-> ->]. cbv zeta beta iota. rewrite Z.add_0_l, Z2Nat.id by lia. 
    rewrite Nat2Z.id, firstn_all. run. split; [cbn [value_of encode_part length]|].
    + f_equal. rewrite length_app. lia.
    + unfold members_state. by rewrite found_members.
Qed.

Definition sequence_progress (o n : Z) (f : bool) (cs : list component) (i offset : Z)
    (s : ScanState) : Prop :=
  let read := take (Z.to_nat i) cs in
  offset = o + len (concat (map (fun c => 1 :: frame (encode c)) read)) /\
  s = members_state n f read.

Lemma scan_sequence_field_complete rec k rule minimum cs marker start stop depth n f :
  child_complete k (depth + 1) rec -> depth < U32_MAX ->
  fits b (well_formed b k) (FSequence rule minimum) (PSequence cs) ->
  stands start stop (encode_part (PSequence cs)) ->
  get_at data start = Some marker -> n + part_size (PSequence cs) <= scan_max_terms b ->
  runs (scan_sequence_field data rec rule minimum marker (start + 1) stop depth)
    (part_run start n f (PSequence cs)) (st n f).
Proof.
  intros Hrec Hd (Harity & Hall) Hst Hm Hn. cbn [encode_part part_size] in *.
  apply collection_stands in Hst as (Hm' & Hv & Hu & Hcs & Hfill); [|intros; cbn [length]; lia].
  assert (marker = 7) as -> by congruence. unfold scan_sequence_field. run. run; [done|]. run. run.
  eapply runs_bounded; [done|done|]. cbv beta iota.
  set (o := start + 1 + len (varint (len cs))) in *.
  run. apply runs_check_arity; [done|lia|lia|]. run.
  eapply runs_mono; [apply (runs_for_range _ (sequence_progress o n f cs))|].
  - unfold sequence_progress, members_state. cbn [Z.to_nat take map concat length existsb sum foldr].
    rewrite !Z.add_0_r, orb_false_r. done.
  - intros i offset s Hi [-> ->]. destruct (lookup_lt_is_Some_2 cs (Z.to_nat i)) as [c Hc]; [lia|].
    destruct (member_stands (fun c => 1 :: frame (encode c)) _ _ _ _ _ Hcs Hc) as (Htake & Hst & Hsize & Hlen).
    destruct (proj1 (Forall_lookup _ _) Hall _ _ Hc) as [Hwf Ha].
    apply stands_cons in Hst as [Hmark Hst].
    unfold scan_sequence_member. run. run. run; [exact Hmark|]. cbv zeta. run. run; [done|]. run. run.
    eapply runs_frame; [done|]. intros s Hs Hend Hs0.
    cbv beta iota. run. pose proof Hst as (_ & Hle & Hl).
    eapply runs_nested; try done; [split; [by rewrite Hend|lia]|lia|].
    rewrite Hend. run. run; [by rewrite Z.eqb_refl, Ha|].
    run. unfold sequence_progress. replace (Z.to_nat (i + 1)) with (S (Z.to_nat i)) by lia. cbv zeta.
    split; [|rewrite Htake; apply members_state_snoc].
    rewrite Hlen. cbn [length]. lia.
  - intros offset s [-> ->]. rewrite Z.add_0_l, Nat2Z.id, Nat2Z.id, firstn_all.
    run. split; [cbn [value_of encode_part length]|].
    + f_equal. rewrite length_app. lia.
    + unfold members_state. by rewrite found_members.
Qed.

(** ** All the fields, and the node *)

Lemma runs_scan_rule rec k rule p marker start stop depth n f :
  child_complete k (depth + 1) rec -> depth < U32_MAX ->
  fits b (well_formed b k) rule p -> stands start stop (encode_part p) ->
  get_at data start = Some marker -> n + part_size p <= scan_max_terms b ->
  runs (match rule with
      | FScalar rule => lift (scan_scalar rule marker data (start + 1) stop)
      | FNode rule => scan_node_field data rec rule marker (start + 1) stop depth
      | FSet rule minimum forbidden_tag =>
          scan_set_field data rec rule minimum forbidden_tag marker (start + 1) stop depth
      | FSequence rule minimum =>
          scan_sequence_field data rec rule minimum marker (start + 1) stop depth
      end) (part_run start n f p) (st n f).
Proof.
  intros Hrec Hd Hfit Hst Hm Hn. destruct rule.
  - by eapply scan_scalar_complete.
  - destruct p; try done. by eapply scan_node_field_complete.
  - destruct p; try done. by eapply scan_set_field_complete.
  - destruct p; try done. by eapply scan_sequence_field_complete.
Qed.

Definition fields_progress (o n : Z) (f : bool) (ps : list part) (i : Z)
    (loop : list (option FieldValue) * Z) (s : ScanState) : Prop :=
  let read := take (Z.to_nat i) ps in
  loop = (slots read, o + len (concat (map encode_part read))) /\
  s = st (n + sum (map part_size read)) (f || existsb pfound read).

Lemma part_head p : exists m x, encode_part p = m :: x.
Proof. destruct p; cbn [encode_part]; eauto. Qed.

Lemma fields_loop_complete rec k t s ps start stop depth n f :
  child_complete k (depth + 1) rec -> depth < U32_MAX -> spec t = Some s ->
  len ps = fields s -> parts_fit b k t ps ->
  stands start stop (concat (map encode_part ps)) ->
  n + sum (map part_size ps) <= scan_max_terms b ->
  runs (for_range (scan_field data rec t stop depth) 0 (Z.to_nat (fields s)) (replicate 4 None, start))
    (fields_progress start n f ps (fields s)) (st n f).
Proof.
  intros Hrec Hd Hs Hlen Hfit Hst Hn. pose proof (field_rule_ledger t s 0 Hs) as [Hcount _].
  eapply runs_mono; [apply (runs_for_range _ (fields_progress start n f ps))|].
  - unfold fields_progress. cbn [Z.to_nat take map concat length existsb sum foldr].
    rewrite !Z.add_0_r, orb_false_r. done.
  - intros i loop s0 Hi [-> ->]. destruct (lookup_lt_is_Some_2 ps (Z.to_nat i)) as [p Hp]; [lia|].
    assert (take (S (Z.to_nat i)) ps = take (Z.to_nat i) ps ++ [p]) as Htake by (by apply take_S_r).
    destruct (Hfit _ _ Hp) as (rule & Hrule & Hf). rewrite Z2Nat.id in Hrule by lia.
    pose proof (take_drop_middle ps _ p Hp) as Hps.
    assert (stands (start + len (concat (map encode_part (take (Z.to_nat i) ps)))) stop (encode_part p)) as Hstp.
    { rewrite <- Hps, map_app, concat_app in Hst. cbn [map concat] in Hst.
      apply stands_app in Hst as [_ Hst]. by apply stands_app in Hst as [Hst _]. }
    assert (sum (map part_size (take (Z.to_nat i) ps)) + part_size p <= sum (map part_size ps)) as Hsum.
    { rewrite <- Hps at 2. rewrite map_app, sum_app. cbn [map]. unfold sum at 3. cbn [foldr].
      pose proof (sum_parts_nonneg (drop (S (Z.to_nat i)) ps)). unfold sum in *. lia. }
    destruct (part_head p) as (m & x & Em). pose proof Hstp as Hm.
    rewrite Em in Hm. apply stands_cons in Hm as [Hm _].
    unfold scan_field. cbv zeta. run. run. run; [exact Hrule|]. run. run. run; [exact Hm|]. run.
    eapply runs_mono; [eapply runs_scan_rule; try done; lia|].
    intros r s' [-> ->]. cbv beta iota. run. run.
    assert (length (take (Z.to_nat i) ps) = Z.to_nat i) as Hti by (rewrite length_take; lia).
    assert (length (slots (take (Z.to_nat i) ps)) = 4%nat) as Hslots.
    { unfold slots. rewrite length_app, length_map, length_replicate. lia. }
    destruct (get_at_is_Some (slots (take (Z.to_nat i) ps)) i) as [v Hv]; [lia|].
    eapply (oruns_or_panic _ v); [exact Hv|]. run. unfold fields_progress. cbv zeta.
    replace (Z.to_nat (i + 1)) with (S (Z.to_nat i)) by lia. rewrite Htake.
    rewrite map_snoc, concat_snoc, existsb_snoc, map_snoc, sum_app, length_app. cbn [sum foldr].
    split.
    + rewrite <- (slots_snoc (take (Z.to_nat i) ps) p) by (rewrite Hti; lia). rewrite Hti. f_equal. lia.
    + rewrite orb_assoc. f_equal. lia.
  - cbn beta. by replace (0 + Z.of_nat (Z.to_nat (fields s))) with (fields s) by lia.
Qed.

Lemma spec_u64 t s : spec t = Some s -> is_u64 t.
Proof. intros H%spec_range. ulia. Qed.

Lemma scan_node_complete k depth :
  0 <= depth -> depth + Z.of_nat k = max_depth b + 1 ->
  child_complete k depth (fun offset stop depth => scan_node (S k) data target offset stop depth).
Proof.
  destruct b_ok as [Hdepth _ _].
  revert depth. induction k as [|k IH]; intros depth Hd0 Hd c start stop n f Hwf Hst Hn; [done|].
  change (scan_node (S (S k)) data target start stop depth)
    with (scan_node_body data target (scan_node (S k) data target) start stop depth).
  destruct c as [t ps]. cbn [well_formed ctag parts] in Hwf.
  destruct Hwf as (s & Hs & Hlen & Hfit & Hlocal). cbn [encode size] in *.
  pose proof (sum_parts_nonneg ps). pose proof Hst as (Henc & Hle & Hl).
  apply stands_app in Hst as [Ht Hps]. apply runs_eq.
  unfold scan_node_body. run. apply runs_enter; [lia|lia|]. cbv zeta. run. run.
  eapply runs_bounded; [done|by eapply spec_u64|]. cbv beta iota.
  run. apply runs_mark_found. run. run. run; [done|]. run.
  eapply runs_mono; [eapply (fields_loop_complete _ k); try done; try lia; apply IH; lia|].
  intros loop s' [-> ->]. cbv beta iota zeta.
  assert (take (Z.to_nat (fields s)) ps = ps) as -> by (rewrite <- Hlen, Nat2Z.id; apply firstn_all).
  run. run. replace (start + len (varint t) + len (concat (map encode_part ps)))
    with (start + len (varint t ++ concat (map encode_part ps))) by (rewrite length_app; lia).
  run; [exact Henc|]. run. run. run. run. cbn [budget counted].
  pose proof (validate_local_decides b k t s ps (n + 1 + sum (map part_size ps)) Hs Hlen Hfit) as Hloc.
  unfold local_decided, initial_meta in Hloc. cbn [encode] in Hloc.
  destruct (validate_local _ _ _) as [m| |]; [|done|done].
  destruct Hloc as [_ ->]. run. run. split; [done|].
  rewrite node_found. f_equal. lia.
Qed.

Lemma scan_canonical_complete c :
  terms b + size c <= scan_max_terms b -> data = encode c ->
  well_formed b (S (Z.to_nat (max_depth b))) c -> len data <= scan_max_canonical_work b ->
  scan_canonical_observing data target b =
    (Ok (component_category c, cfound c), with_terms b (terms b + size c)).
Proof.
  intros Hsize Hdata Hwf Hwork. destruct b_ok as [Hdepth _ _]. apply runs_eq.
  unfold scan_canonical_observing. run. run. run. run.
  apply (oruns_ok_or _ _ (len data)); [apply try_from_Some; split; [done|ulia]|].
  run. run; [lia|]. run. unfold scan_row. run. run. run. cbn [budget].
  replace (mkScanState b false) with (counted b (terms b) false) by (unfold counted; by destruct b).
  assert (stands 0 (len data) (encode c)) as Hst.
  { rewrite <- Hdata. split; [apply get_range_full|lia]. }
  pose proof (scan_node_complete (S (Z.to_nat (max_depth b))) 0 ltac:(lia) ltac:(lia) c 0 (len data)
    (terms b) false Hwf Hst Hsize) as Hnode.
  rewrite <- Hdata in Hnode. change (0 + len data) with (len data) in Hnode. apply runs_eq in Hnode.
  eapply runs_mono; [exact Hnode|]. intros r s [-> ->]. cbv beta iota.
  run. run; [by rewrite Z.eqb_refl|]. run. run. run. done.
Qed.
End Complete.

(** ** What the scanner decides *)

(** A budget straight from limits. *)
Lemma from_limits_ok limits :
  0 <= max_nesting_depth limits -> max_terms limits <= U64_MAX -> scan_budget_ok (from_limits limits).
Proof. intros. constructor; cbn [from_limits max_depth terms scan_max_terms]; ulia. Qed.

(** The rows a budget admits, with the components they denote. *)
Record canonical_row (b : ScanBudget) (data : bytes) (c : component) : Prop := {
  row_encoding : data = encode c;
  row_well_formed : well_formed b (S (Z.to_nat (max_depth b))) c;
  row_work : len data <= scan_max_canonical_work b;
  row_terms : terms b + size c <= scan_max_terms b
}.

Lemma scan_canonical_decides data target b :
  is_bytes data -> len data <= USIZE_MAX -> scan_budget_ok b -> terms b <= scan_max_terms b ->
  fst (scan_canonical_observing data target b) <> Panic /\
  forall r b', scan_canonical_observing data target b = (Ok r, b') <->
    exists c, canonical_row b data c /\ r = (component_category c, tag_found target c) /\
      b' = with_terms b (terms b + size c).
Proof.
  intros Hb Hl Hok Ht. split.
  - apply (wp_no_panic _ (fun _ _ => True)). by apply wp_scan_canonical.
  - intros r b'. split.
    + intros E. refine (wp_Ok _ (fun r b' => exists c, canonical_row b data c /\
        r = (component_category c, tag_found target c) /\ b' = with_terms b (terms b + size c)) _ _ _ _ E).
      apply wp_scan_canonical; try done. intros c ????. exists c. split; [by constructor|done].
    + intros (c & [H1 H2 H3 H4] & -> & ->). by apply scan_canonical_complete.
Qed.

(** ** The encoding is unambiguous *)

Section Injective.
Context (b : ScanBudget).

Definition encode_injective (k : nat) : Prop := forall c d,
  well_formed b k c -> well_formed b k d -> encode c = encode d -> c = d.

(** A sequence of items written by a prefix code is determined by its bytes. *)
Lemma concat_inj {A} (P : A -> Prop) (enc : A -> bytes) (xs ys : list A) p q :
  (forall x y p q, P x -> P y -> enc x ++ p = enc y ++ q -> x = y /\ p = q) ->
  Forall P xs -> Forall P ys -> length xs = length ys ->
  concat (map enc xs) ++ p = concat (map enc ys) ++ q -> xs = ys /\ p = q.
Proof.
  intros Henc. revert ys. induction xs as [|x xs IH]; intros [|y ys]; cbn [length map concat app];
    intros Hx Hy Hl E; try done.
  apply Forall_cons in Hx as [Hx Hxs]. apply Forall_cons in Hy as [Hy Hys].
  rewrite <- !app_assoc in E. apply Henc in E as [-> E]; [|done|done].
  apply IH in E as [-> ->]; try done. by injection Hl.
Qed.

Lemma members_inj k (enc : component -> bytes) xs ys p q :
  encode_injective k ->
  (forall c d p q, enc c ++ p = enc d ++ q -> encode c = encode d /\ p = q) ->
  Forall (well_formed b k) xs -> Forall (well_formed b k) ys ->
  varint (len xs) ++ concat (map enc xs) ++ p = varint (len ys) ++ concat (map enc ys) ++ q ->
  xs = ys /\ p = q.
Proof.
  intros Hinj Henc Hx Hy E. apply varint_app_inj in E as [Hl E]; [|lia|lia].
  eapply (concat_inj (well_formed b k)); [|exact Hx|exact Hy|lia|exact E].
  intros c d p' q' Hc Hd E'. apply Henc in E' as [E' ->]. split; [|done]. by apply Hinj.
Qed.

Lemma part_inj k rule p p' x y :
  encode_injective k -> fits b (well_formed b k) rule p -> fits b (well_formed b k) rule p' ->
  encode_part p ++ x = encode_part p' ++ y -> p = p' /\ x = y.
Proof.
  intros Hinj Hp Hp' E.
  assert (forall c d u v, frame (encode c) ++ u = frame (encode d) ++ v -> encode c = encode d /\ u = v)
    as Hframe by (intros ???? ?%frame_app_inj; done).
  destruct rule as [[]| | |], p, p'; cbn [fits] in Hp, Hp'; try done; cbn [encode_part app] in E;
    try discriminate; injection E as E; rewrite <- ?app_assoc in E;
    try (apply frame_app_inj in E as [E ->]; subst; done).
  - apply varint_app_inj in E as [-> ->]; [done|lia|lia].
  - apply frame_app_inj in E as [E ->]. split; [|done].
    pose proof (EntityKind_decode_name kind) as H1. rewrite E, EntityKind_decode_name in H1. congruence.
  - by subst.
  - apply Hframe in E as [E ->]. destruct Hp as [Hp _], Hp' as [Hp' _]. split; [|done].
    f_equal. by apply Hinj.
  - destruct Hp as (_ & _ & Hp), Hp' as (_ & _ & Hp').
    eapply (members_inj k) in E as [-> ->]; try done.
    + eapply Forall_impl; [exact Hp|]. by intros c [[? _] _].
    + eapply Forall_impl; [exact Hp'|]. by intros c [[? _] _].
  - destruct Hp as (_ & Hp), Hp' as (_ & Hp').
    eapply (members_inj k) in E as [-> ->]; try done.
    + intros c d u v E'. cbn [app] in E'. injection E' as E'. by apply Hframe.
    + eapply Forall_impl; [exact Hp|]. by intros c [? _].
    + eapply Forall_impl; [exact Hp'|]. by intros c [? _].
Qed.

Lemma parts_inj k t ps ps' i :
  encode_injective k ->
  (forall j p, ps !! j = Some p -> exists rule, field_rule t (Z.of_nat (i + j)) = Some rule /\
     fits b (well_formed b k) rule p) ->
  (forall j p, ps' !! j = Some p -> exists rule, field_rule t (Z.of_nat (i + j)) = Some rule /\
     fits b (well_formed b k) rule p) ->
  length ps = length ps' -> concat (map encode_part ps) = concat (map encode_part ps') -> ps = ps'.
Proof.
  intros Hinj. revert ps' i. induction ps as [|p ps IH]; intros [|p' ps'] i Hf Hf' Hl E; try done.
  cbn [map concat] in E. destruct (Hf O p eq_refl) as (r & Hr & Hp).
  destruct (Hf' O p' eq_refl) as (r' & Hr' & Hp'). rewrite Hr in Hr'. injection Hr' as <-.
  eapply part_inj in E as [-> E]; try done. f_equal.
  apply (IH ps' (S i)); [| |by injection Hl|done].
  - intros j q Hq. destruct (Hf (S j) q Hq) as (r' & ? & ?). exists r'.
    by replace (S i + j)%nat with (i + S j)%nat by lia.
  - intros j q Hq. destruct (Hf' (S j) q Hq) as (r' & ? & ?). exists r'.
    by replace (S i + j)%nat with (i + S j)%nat by lia.
Qed.

Lemma encode_inj k : encode_injective k.
Proof.
  induction k as [|k IH]; intros [t ps] [t' ps'] Hc Hd E; [done|].
  cbn [well_formed ctag parts encode] in *.
  destruct Hc as (s & Hs & Hlen & Hfit & _), Hd as (s' & Hs' & Hlen' & Hfit' & _).
  pose proof (spec_range _ _ Hs). pose proof (spec_range _ _ Hs').
  apply varint_app_inj in E as [-> E]; [|lia|lia]. rewrite Hs in Hs'. injection Hs' as <-.
  f_equal. apply (parts_inj k t' ps ps' 0); try done. lia.
Qed.
End Injective.

(** ** The two entry points *)

Lemma scan_canonical_cases data b category :
  is_bytes data -> len data <= USIZE_MAX -> scan_budget_ok b -> terms b <= scan_max_terms b ->
  fst (scan_canonical data b) <> Panic /\
  (fst (scan_canonical data b) = Ok category <->
   exists c, canonical_row b data c /\ component_category c = category).
Proof.
  intros Hb Hl Hok Ht. destruct (scan_canonical_decides data None b Hb Hl Hok Ht) as [Hp Hd].
  unfold scan_canonical, mbind, M_bind.
  destruct (scan_canonical_observing data None b) as [[[cat f]|e|] b'] eqn:E; cbn [fst mret M_ret] in *.
  - split; [done|]. destruct (proj1 (Hd _ _) eq_refl) as (c & Hc & Hr & _). split.
    + intros [= <-]. exists c. split; [done|]. by injection Hr.
    + intros (d & Hrow & <-).
      assert ((Ok (cat, f), b') = (Ok (component_category d, false), with_terms b (terms b + size d))) as E'
        by (apply Hd; by exists d).
      congruence.
  - split; [done|]. split; [done|]. intros (d & Hrow & <-). exfalso.
    assert ((Err e, b') = (Ok (component_category d, false), with_terms b (terms b + size d)))
      as [=] by (apply Hd; by exists d).
  - done.
Qed.

Lemma canonical_contains_tag_cases data t b answer :
  is_bytes data -> len data <= USIZE_MAX -> scan_budget_ok b -> terms b <= scan_max_terms b ->
  fst (canonical_contains_tag data t b) = Ok answer <->
  exists c, canonical_row b data c /\ has_tag t c = answer.
Proof.
  intros Hb Hl Hok Ht. destruct (scan_canonical_decides data (Some t) b Hb Hl Hok Ht) as [Hp Hd].
  unfold canonical_contains_tag, mbind, M_bind.
  destruct (scan_canonical_observing data (Some t) b) as [[[cat f]|e|] b'] eqn:E; cbn [fst mret M_ret] in *.
  - destruct (proj1 (Hd _ _) eq_refl) as (c & Hc & Hr & _). split.
    + intros [= <-]. exists c. split; [done|]. by injection Hr.
    + intros (d & Hrow & <-).
      assert ((Ok (cat, f), b') = (Ok (component_category d, has_tag t d), with_terms b (terms b + size d))) as E'
        by (apply Hd; by exists d).
      congruence.
  - split; [done|]. intros (d & Hrow & <-). exfalso.
    assert ((Err e, b') = (Ok (component_category d, has_tag t d), with_terms b (terms b + size d)))
      as [=] by (apply Hd; by exists d).
  - done.
Qed.

(** C2: The scanner decides the canonical language: under given limits a row is
    accepted, with its category, exactly when it is the encoding of a
    well-formed component (schema, roles, strict set order, local rules, nesting,
    arity and size limits); no row makes it panic or exhaust its recursion. *)
Theorem scanner_accepts_exactly_canonical_rows data limits category :
  is_bytes data -> len data <= USIZE_MAX ->
  0 <= max_nesting_depth limits -> 0 <= max_terms limits <= U64_MAX ->
  fst (scan_canonical data (from_limits limits)) <> Panic /\
  (fst (scan_canonical data (from_limits limits)) = Ok category <->
   exists c, canonical_row (from_limits limits) data c /\ component_category c = category).
Proof.
  intros Hb Hl Hd Ht. apply scan_canonical_cases; try done; [apply from_limits_ok; lia|cbn; lia].
Qed.

(** A subclass axiom between two named classes. *)
Definition sample_class (name : string) : component :=
  Component 2 [PKind KClass; PComponent (Component 1 [PText (str name)])].
Definition sample_axiom : component :=
  Component 61 [PComponent (sample_class "urn:a"); PComponent (sample_class "urn:b"); PSet []].

Lemma scanner_accepts_exactly_canonical_rows_witness :
  exists c, canonical_row (from_limits Limits_default) (encode sample_axiom) c /\
    component_category c = CAxiom.
Proof.
  apply (proj2 (scanner_accepts_exactly_canonical_rows (encode sample_axiom) Limits_default CAxiom
    ltac:(apply is_bytesb_true; vm_compute; reflexivity) ltac:(vm_compute; discriminate)
    ltac:(vm_compute; discriminate) ltac:(split; vm_compute; discriminate))).
  vm_compute. reflexivity.
Defined.

(** C21: [canonical_contains_tag] answers exactly whether some node of the row's
    component, at any depth, has the tag. *)
Theorem contains_tag_answers_for_the_whole_tree data limits t answer :
  is_bytes data -> len data <= USIZE_MAX ->
  0 <= max_nesting_depth limits -> 0 <= max_terms limits <= U64_MAX ->
  fst (canonical_contains_tag data t (from_limits limits)) = Ok answer <->
  exists c, canonical_row (from_limits limits) data c /\ has_tag t c = answer.
Proof.
  intros Hb Hl Hd Ht. apply canonical_contains_tag_cases; try done; [apply from_limits_ok; lia|cbn; lia].
Qed.

Lemma contains_tag_answers_for_the_whole_tree_witness :
  (exists c, canonical_row (from_limits Limits_default) (encode sample_axiom) c /\ has_tag 2 c = true) /\
  (exists c, canonical_row (from_limits Limits_default) (encode sample_axiom) c /\ has_tag 32 c = false).
Proof.
  split;
    [apply (proj1 (contains_tag_answers_for_the_whole_tree (encode sample_axiom) Limits_default 2 true
      ltac:(apply is_bytesb_true; vm_compute; reflexivity) ltac:(vm_compute; discriminate)
      ltac:(vm_compute; discriminate) ltac:(split; vm_compute; discriminate)))
    |apply (proj1 (contains_tag_answers_for_the_whole_tree (encode sample_axiom) Limits_default 32 false
      ltac:(apply is_bytesb_true; vm_compute; reflexivity) ltac:(vm_compute; discriminate)
      ltac:(vm_compute; discriminate) ltac:(split; vm_compute; discriminate)))];
    vm_compute; reflexivity.
Defined.

(** The canonical encoding is unambiguous: two canonical rows of the same
    bytes denote the same component, so byte equality of rows (the basis of
    interning, set order and digests) is equality of models. *)
Theorem canonical_encoding_is_unambiguous b data c d :
  canonical_row b data c -> canonical_row b data d -> c = d.
Proof. intros [Ec Hc _ _] [Ed Hd _ _]. apply (encode_inj _ _ _ _ Hc Hd). congruence. Qed.

Definition sample_iri_row : component := Component 1 [PText (str "urn:a")].

Lemma sample_iri_canonical :
  canonical_row (from_limits Limits_default) (encode sample_iri_row) sample_iri_row.
Proof.
  constructor; [done| |by vm_compute|by vm_compute].
  exists (mkSpec 1 CIri). split; [reflexivity|]. split; [reflexivity|]. split.
  - intros [|i] p; [|destruct i; discriminate]. intros [= <-].
    exists (FScalar SText). split; reflexivity.
  - intros _. split; [vm_compute; discriminate|].
    apply (proj1 (validate_iri_cases (str "urn:a") eq_refl)). vm_compute. reflexivity.
Qed.

(** The component the scanner finds in the row of an IRI is that IRI. *)
Lemma canonical_encoding_is_unambiguous_witness :
  exists c, canonical_row (from_limits Limits_default) (encode sample_iri_row) c /\ c = sample_iri_row.
Proof.
  destruct (scan_canonical_cases (encode sample_iri_row) (from_limits Limits_default) CIri) as [_ [H _]].
  - apply is_bytesb_true. vm_compute. reflexivity.
  - vm_compute. discriminate.
  - apply from_limits_ok; vm_compute; discriminate.
  - vm_compute. discriminate.
  - destruct H as (c & Hc & _); [vm_compute; reflexivity|]. exists c. split; [exact Hc|].
    exact (canonical_encoding_is_unambiguous _ _ _ _ Hc sample_iri_canonical).
Defined.
