(* ===== verification/Index.v ===== *)
(** * The axiom-type index ([native/src/index/mod.rs])

    [build] groups the rows of a framed list of canonical axioms by their root
    tag: a request that succeeds returns, tag by tag in ascending order, the
    ordinals of the rows with that tag in ascending order. *)

From S2P Require Import Prelude Bytes Error Machine Limits Cancel Session Varint Schema Scan Component ScanSound ScanComplete.

Definition SOURCE_MAGIC : bytes := str "PYNIDXS1".
Definition REQUEST_MAGIC : bytes := str "PYNIDXQ1".
Definition RESULT_MAGIC : bytes := str "PYNIDXR1".
Definition SCHEMA : Z := 1.
Definition HEADER_BYTES : Z := 20.

(** [decode_limits] *)
Definition decode_limits (request : bytes) : outcome Limits :=
  fail_if (negb (len request =? 8 + CONFIG_BYTES) ||
           negb (bool_decide (get_range request 0 8 = Some REQUEST_MAGIC)))
    (protocol "invalid native index request framing");;
  config ← index_range request 8 (len request);
  decode config.

(** [read_u16], [read_u64] *)
Definition truncated_source : NativeError := protocol "truncated native index source".
Definition read_u16 (data : bytes) (offset : Z) : outcome Z :=
  value ← ok_or (get_range data offset (saturating_add USIZE_MAX offset 2)) truncated_source;
  low ← index_at value 0; high ← index_at value 1;
  mret (from_le_bytes [low; high]).
Definition read_u64 (data : bytes) (offset : Z) : outcome Z :=
  value ← ok_or (get_range data offset (saturating_add USIZE_MAX offset 8)) truncated_source;
  fail_if (negb (len value =? 8)) truncated_source;;
  mret (from_le_bytes value).

(** The loop of [root_tag] over the first [n] bytes. *)
Fixpoint root_tag_loop (data : bytes) (n : nat) (index value : Z) : outcome Z :=
  match n, data with
  | S n, byte :: data =>
      shift ← ok_or (try_from U32_MAX (saturating_mul USIZE_MAX index 7))
                (protocol "native index tag shift overflow");
      fail_if ((index =? 9) && (1 <? byte)) (corrupt "canonical model tag exceeds u64");;
      shifted ← (if shift <? 64 then Ok (Z.land (Z.shiftl (Z.land byte 0x7f) shift) U64_MAX) else Panic);
      let value := Z.lor value shifted in
      if Z.land byte 0x80 =? 0 then Ok value else root_tag_loop data n (index + 1) value
  | _, _ => Err (corrupt "truncated canonical model tag")
  end.
Definition root_tag (data : bytes) : outcome Z := root_tag_loop data 10 0 0.

(** [BTreeMap<u64, Vec<u64>>]: tags in ascending order with their postings. *)
Notation groups := (list (Z * list Z)).

(** [groups.entry(tag).or_default().push(ordinal)] *)
Fixpoint entry_push (tag ordinal : Z) (g : groups) : groups :=
  match g with
  | [] => [(tag, [ordinal])]
  | (t, posting) :: rest =>
      if tag <? t then (tag, [ordinal]) :: g
      else if tag =? t then (t, posting ++ [ordinal]) :: rest
      else (t, posting) :: entry_push tag ordinal rest
  end.

(** One row: [scan_canonical] charges the budget shared by all rows. *)
Definition build_row (data : bytes) (ordinal : Z) (loop : groups * ScanBudget * Z)
    : M Session (groups * ScanBudget * Z) :=
  let '(g, budget, offset) := loop in
  step_work 1;;
  length_ ← lift (read_u64 data offset);
  length_ ← lift (ok_or (try_from USIZE_MAX length_) (limit "native index row exceeds address space"));
  offset ← lift (ok_or (checked_add USIZE_MAX offset 8) (protocol "native index source offset overflow"));
  end_ ← lift (ok_or (checked_add USIZE_MAX offset length_) (protocol "native index row length overflow"));
  row ← lift (ok_or (get_range data offset end_) (protocol "truncated native index row"));
  let '(scanned, budget) := scan_canonical row budget in
  category ← lift scanned;
  ensure_not (negb (bool_decide (category = CAxiom)))
    (protocol "native axiom-type index received a non-axiom row");;
  tag ← lift (root_tag row);
  on_session_world (try_reserve "native index posting allocation failed");;
  mret (entry_push tag ordinal g, budget, end_).

(** The result: one entry per tag. *)
Definition encode_group (group : Z * list Z) (output : bytes) : outcome bytes :=
  let '(tag, ordinals) := group in
  n ← ok_or (try_from U64_MAX (len ordinals)) (limit "native index posting count exceeds u64");
  mret (output ++ to_le_bytes 8 tag ++ to_le_bytes 8 n ++ concat (map (to_le_bytes 8) ordinals)).

(** [encode] *)
Definition encode_index (g : groups) : M Session bytes :=
  rows ← lift (ofor_each (fun group total => ok_or (checked_add USIZE_MAX total (len (snd group)))
                  (limit "native index result row count overflow")) g 0);
  size ← lift (ok_or (size ← checked_add USIZE_MAX HEADER_BYTES (saturating_mul USIZE_MAX (len g) 16);
                      checked_add USIZE_MAX size (saturating_mul USIZE_MAX rows 8))
                 (limit "native index result size overflow"));
  size_u64 ← lift (ok_or (try_from U64_MAX size) (limit "native index result size exceeds u64"));
  s ← get;
  ensure_not (value (limits s) MaxIndexBytes <? size_u64)
    (Limits_resource_limit (limits s) MaxIndexBytes size_u64 "native index result exceeds max_index_bytes");;
  reserve_bytes size;;
  on_session_world (try_reserve "native index result allocation failed");;
  count ← lift (ok_or (try_from U64_MAX (len g)) (limit "native index group count exceeds u64"));
  output ← lift (ofor_each encode_group g
    (RESULT_MAGIC ++ to_le_bytes 2 SCHEMA ++ to_le_bytes 2 0 ++ to_le_bytes 8 count));
  finish;;
  mret output.

(** [build] *)
Definition build (data : bytes) : M Session bytes :=
  ensure_not ((len data <? HEADER_BYTES) || negb (bool_decide (get_range data 0 8 = Some SOURCE_MAGIC)))
    (protocol "invalid native index source framing");;
  schema ← lift (read_u16 data 8);
  reserved ← lift (read_u16 data 10);
  count ← lift (read_u64 data 12);
  ensure_not (negb (schema =? SCHEMA) || negb (reserved =? 0)) (protocol "unsupported native index source");;
  s ← get;
  ensure_not (value (limits s) MaxIndexRows <? count)
    (Limits_resource_limit (limits s) MaxIndexRows count "native index exceeds max_index_rows");;
  source_bytes ← lift (ok_or (try_from U64_MAX (len data)) (limit "native index source size exceeds u64"));
  ensure_not (value (limits s) MaxIndexBytes <? source_bytes)
    (Limits_resource_limit (limits s) MaxIndexBytes source_bytes
       "native index source exceeds max_index_bytes");;
  capacity ← lift (ok_or (try_from USIZE_MAX count) (limit "native index row count exceeds address space"));
  reserve_bytes (saturating_mul USIZE_MAX capacity 8);;
  s ← get;
  '(g, _, offset) ← for_range (build_row data) 0 (Z.to_nat count) ([], from_limits (limits s), HEADER_BYTES);
  ensure_not (negb (offset =? len data)) (protocol "native index source contains trailing bytes");;
  encode_index g.

(** ** Specification *)

(** A source that lists rows, and a result that lists groups. *)
Definition index_row (row : bytes) : bytes := to_le_bytes 8 (len row) ++ row.
Definition index_source (rows : list bytes) : bytes :=
  SOURCE_MAGIC ++ to_le_bytes 2 SCHEMA ++ to_le_bytes 2 0 ++ to_le_bytes 8 (len rows) ++ concat (map index_row rows).
Definition index_group (group : Z * list Z) : bytes :=
  to_le_bytes 8 (fst group) ++ to_le_bytes 8 (len (snd group)) ++ concat (map (to_le_bytes 8) (snd group)).
Definition index_result (g : groups) : bytes :=
  RESULT_MAGIC ++ to_le_bytes 2 SCHEMA ++ to_le_bytes 2 0 ++ to_le_bytes 8 (len g) ++ concat (map index_group g).

(** The ordinals, from [start], of the occurrences of [t]. *)
Fixpoint ordinals (t start : Z) (tags : list Z) : list Z :=
  match tags with
  | [] => []
  | x :: tags => if x =? t then start :: ordinals t (start + 1) tags else ordinals t (start + 1) tags
  end.

(** The posting of a tag, empty when there is none. *)
Fixpoint posting (g : groups) (t : Z) : list Z :=
  match g with [] => [] | (t', os) :: g => if t' =? t then os else posting g t end.

(** The groups of [tags]: ascending tags, no empty group, and every posting is
    the list of the ordinals of its tag. *)
Record partition_of (tags : list Z) (g : groups) : Prop := {
  tags_ascend : StronglySorted Z.lt (map fst g);
  postings_nonempty : Forall (fun group => snd group <> []) g;
  postings_complete t : posting g t = ordinals t 0 tags
}.

Lemma ordinals_snoc t start tags x :
  ordinals t start (tags ++ [x]) = ordinals t start tags ++ (if x =? t then [start + len tags] else []).
Proof.
  revert start. induction tags as [|y tags IH]; intros start; cbn [app ordinals length].
  - rewrite Z.add_0_r. by case_match.
  - rewrite IH. replace (start + 1 + len tags) with (start + Z.of_nat (S (length tags))) by lia.
    by destruct (y =? t).
Qed.

Lemma entry_push_tags tag o g x : In x (map fst (entry_push tag o g)) <-> x = tag \/ In x (map fst g).
Proof.
  induction g as [|[t os] g IH]; cbn [entry_push map fst In]; [naive_solver|].
  repeat case_match; bool_to_prop; cbn [map fst In]; [naive_solver|subst; naive_solver|]. rewrite IH. naive_solver.
Qed.

Lemma entry_push_ascends tag o g :
  StronglySorted Z.lt (map fst g) -> StronglySorted Z.lt (map fst (entry_push tag o g)).
Proof.
  induction g as [|[t os] g IH]; cbn [entry_push map fst]; [by repeat constructor|].
  intros [Hg Ht]%StronglySorted_inv. repeat case_match; bool_to_prop; cbn [map fst].
  - constructor; [by constructor|]. constructor; [done|]. eapply List.Forall_impl; [|exact Ht]. cbn. lia.
  - by constructor.
  - constructor; [by apply IH|]. apply List.Forall_forall. intros x [->|Hx]%entry_push_tags; [lia|].
    by eapply List.Forall_forall in Ht.
Qed.

Lemma posting_absent g t : Forall (fun x => t < x) (map fst g) -> posting g t = [].
Proof.
  induction g as [|[t' os] g IH]; cbn [posting map fst]; [done|]. intros [Ht Hg]%Forall_cons.
  rewrite (proj2 (Z.eqb_neq t' t)) by lia. by apply IH.
Qed.

Lemma posting_entry_push tag o g t :
  StronglySorted Z.lt (map fst g) ->
  posting (entry_push tag o g) t = posting g t ++ (if tag =? t then [o] else []).
Proof.
  induction g as [|[t' os] g IH]; cbn [entry_push posting map fst]; [done|].
  intros [Hg Ht]%StronglySorted_inv.
  destruct (Z.ltb_spec tag t') as [Hlt|Hge]; [|destruct (Z.eqb_spec tag t') as [->|Hne]]; cbn [posting].
  - destruct (Z.eqb_spec tag t) as [->|_]; [|by rewrite app_nil_r].
    rewrite (proj2 (Z.eqb_neq t' t)) by lia. rewrite posting_absent; [done|].
    eapply List.Forall_impl; [|exact Ht]. cbn. lia.
  - destruct (Z.eqb_spec t' t); [done|by rewrite app_nil_r].
  - rewrite IH by done. destruct (Z.eqb_spec t' t); [|done].
    rewrite (proj2 (Z.eqb_neq tag t)) by lia. by rewrite app_nil_r.
Qed.

Lemma entry_push_nonempty tag o g :
  Forall (fun group => snd group <> []) g -> Forall (fun group => snd group <> []) (entry_push tag o g).
Proof.
  induction g as [|[t os] g IH]; cbn [entry_push]; [by repeat constructor|].
  intros [Ht Hg]%Forall_cons. repeat case_match.
  - by repeat constructor.
  - constructor; [by destruct os|done].
  - constructor; auto.
Qed.

(** Pushing the ordinal of the next row keeps the partition. *)
Lemma partition_snoc tags g tag :
  partition_of tags g -> partition_of (tags ++ [tag]) (entry_push tag (len tags) g).
Proof.
  intros [Ha Hn Hp]. constructor; [by apply entry_push_ascends|by apply entry_push_nonempty|].
  intros t. by rewrite posting_entry_push, ordinals_snoc, Hp.
Qed.

Lemma partition_nil : partition_of [] [].
Proof. constructor; [constructor|constructor|done]. Qed.

(** ** The tag of a row *)

Lemma root_tag_loop_step n byte data index value :
  0 <= index <= 9 -> is_u8 byte -> (index = 9 -> byte mod 128 + (if byte <? 128 then 0 else 128) <= 1) ->
  0 <= value < 128 ^ index -> value + 128 ^ index * (byte mod 128) <= U64_MAX ->
  root_tag_loop (byte :: data) (S n) index value =
  if byte <? 128 then Ok (value + 128 ^ index * (byte mod 128))
  else root_tag_loop data n (index + 1) (value + 128 ^ index * (byte mod 128)).
Proof.
  intros Hi Hb H9 Hv Hmax. cbn [root_tag_loop].
  assert (saturating_mul USIZE_MAX index 7 = 7 * index) as -> by (unfold saturating_mul; ulia).
  rewrite try_from_ok by ulia. cbn [ok_or mbind outcome_mbind outcome_bind].
  assert ((index =? 9) && (1 <? byte) = false) as ->.
  { destruct (Z.eqb_spec index 9) as [E|]; [|done]. apply Z.ltb_ge. specialize (H9 E).
    destruct (Z.ltb_spec byte 128); [|pose proof (Z.mod_pos_bound byte 128); lia].
    rewrite Z.mod_small in H9 by ulia. lia. }
  cbn [fail_if]. rewrite (proj2 (Z.ltb_lt _ 64)) by lia. cbn [outcome_bind].
  rewrite byte_payload, byte_continues by done.
  pose proof (Z.mod_pos_bound byte 128 ltac:(lia)). rewrite <- pow2_128 in * by lia.
  change U64_MAX with (Z.ones 64). rewrite Z.land_ones by lia.
  rewrite Z.mod_small.
  2: { rewrite Z.shiftl_mul_pow2 by lia. change (2 ^ 64) with (U64_MAX + 1). nia. }
  cbn [mbind outcome_mbind outcome_bind]. rewrite lor_shiftl_add by lia. by rewrite (Z.mul_comm (byte mod 128)).
Qed.

Lemma root_tag_loop_varint t : 0 <= t -> forall n index value rest,
  0 <= index -> index + Z.of_nat n = 10 -> 0 <= value < 128 ^ index -> value + 128 ^ index * t <= U64_MAX -> index = 0 \/ 0 < t ->
  root_tag_loop (varint t ++ rest) n index value = Ok (value + 128 ^ index * t).
Proof.
  revert t. apply (varint_ind (fun t => forall n index value rest,
    0 <= index -> index + Z.of_nat n = 10 -> 0 <= value < 128 ^ index -> value + 128 ^ index * t <= U64_MAX -> index = 0 \/ 0 < t ->
    root_tag_loop (varint t ++ rest) n index value = Ok (value + 128 ^ index * t))).
  - intros t Ht n index value rest Hi Hn Hv Hmax Hpos. rewrite varint_small by done. cbn [app].
    assert (0 <= index <= 9) by (destruct n; [|lia]; replace index with 10 in * by lia;
      change (128 ^ 10) with (64 * 2 ^ 64) in *; ulia).
    destruct n as [|n]; [lia|]. rewrite root_tag_loop_step; [|done|ulia|..]; rewrite ?Z.mod_small by lia; try done.
    + by rewrite (proj2 (Z.ltb_lt _ _)) by lia.
    + intros ->. rewrite (proj2 (Z.ltb_lt _ _)) by lia. change (128 ^ 9) with (2 ^ 63) in *. ulia.
  - intros t Ht IH n index value rest Hi Hn Hv Hmax Hpos. rewrite varint_large by done. cbn [app].
    assert (0 <= index <= 8).
    { destruct (Z.le_gt_cases index 8); [lia|]. exfalso.
      assert (128 ^ 9 <= 128 ^ index) by (apply Z.pow_le_mono_r; lia). change (128 ^ 9) with (2 ^ 63) in *. ulia. }
    pose proof (Z.mod_pos_bound t 128). pose proof (Z.div_mod t 128).
    assert ((t mod 128 + 128) mod 128 = t mod 128) as Em
      by (rewrite <- Z.add_mod_idemp_r, Z.mod_same, Z.add_0_r, Z.mod_mod by lia; lia).
    assert (128 ^ (index + 1) = 128 ^ index * 128) as Ep by (rewrite Z.pow_add_r by lia; done).
    destruct n as [|n]; [lia|]. rewrite root_tag_loop_step; [|lia|ulia|lia|done|rewrite Em; nia].
    rewrite Em, (proj2 (Z.ltb_ge _ _)) by lia. rewrite IH; [f_equal; nia|lia|lia|nia|nia|right; apply Z.div_str_pos; lia].
Qed.

Lemma root_tag_varint t rest : is_u64 t -> root_tag (varint t ++ rest) = Ok t.
Proof. intros Ht. unfold root_tag. rewrite root_tag_loop_varint; try ulia; rewrite Z.pow_0_r; f_equal; ulia. Qed.

(** ** What [build] returns *)

Lemma owp_read_u16 data offset (Q : Z -> Prop) :
  is_bytes data -> 0 <= offset -> offset + 2 <= USIZE_MAX ->
  (forall v, get_range data offset (offset + 2) = Some (to_le_bytes 2 v) -> is_u16 v -> Q v) ->
  owp (read_u16 data offset) Q.
Proof.
  intros Hb Ho Hm HQ. unfold read_u16. do 2 step.
  assert (saturating_add USIZE_MAX offset 2 = offset + 2) as E by (unfold saturating_add; lia). rewrite E in *.
  pose proof H as [Hlen _]%get_range_length. pose proof (is_bytes_range _ _ _ _ Hb H) as Hba.
  destruct a as [|x [|y [|]]]; cbn [length] in Hlen; try lia. cbn.
  pose proof (from_le_bytes_bound _ Hba) as Hv. change (256 ^ len [x; y]) with (U16_MAX + 1) in Hv. apply HQ.
  - rewrite H. f_equal. symmetry. apply (to_from_le [x; y] Hba).
  - cbn [from_le_bytes] in Hv. ulia.
Qed.

Lemma owp_read_u64 data offset (Q : Z -> Prop) :
  is_bytes data -> 0 <= offset ->
  (forall v, get_range data offset (offset + 8) = Some (to_le_bytes 8 v) -> is_u64 v -> Q v) ->
  owp (read_u64 data offset) Q.
Proof.
  intros Hb Ho HQ. unfold read_u64. do 4 step. bool_to_prop.
  pose proof H as [Hlen _]%get_range_length. pose proof (is_bytes_range _ _ _ _ Hb H) as Hba.
  assert (length a = 8%nat) as Ha by lia. pose proof (to_from_le a Hba) as Ea. rewrite Ha in Ea. step.
  apply HQ.
  - rewrite Ea, <- H. f_equal. lia.
  - pose proof (from_le_bytes_bound a Hba) as Hv. rewrite Ha in Hv. change (256 ^ Z.of_nat 8) with (U64_MAX + 1) in Hv. ulia.
Qed.

Lemma wp_scan_row row b (Q : Category -> ScanBudget -> Prop) :
  is_bytes row -> len row <= USIZE_MAX -> scan_budget_ok b -> terms b <= scan_max_terms b ->
  (forall c, canonical_row b row c -> Q (component_category c) (with_terms b (terms b + size c))) ->
  wp (scan_canonical row) Q b.
Proof.
  intros Hb Hl Hok Ht HQ. unfold scan_canonical. step. apply wp_scan_canonical; [done..|].
  intros c ????. step. apply HQ. by constructor.
Qed.

(** The rows of an accepted source denote axioms within the limits. *)
Definition axiom_within (b : ScanBudget) (c : component) : Prop :=
  component_category c = CAxiom /\ well_formed b (S (Z.to_nat (max_depth b))) c /\
  len (encode c) <= scan_max_canonical_work b.

Record indexed (b : ScanBudget) (data : bytes) (cs : list component) (loop : groups * ScanBudget * Z) : Prop := {
  indexed_axioms : Forall (axiom_within b) cs;
  indexed_rows : get_range data HEADER_BYTES (snd loop) = Some (concat (map index_row (map encode cs)));
  indexed_groups : partition_of (map ctag cs) (fst (fst loop));
  indexed_budget : snd (fst loop) = with_terms b (sum (map size cs));
  indexed_terms : sum (map size cs) <= scan_max_terms b
}.

Lemma wp_build_row data limits0 cs loop s (Q : groups * ScanBudget * Z -> Session -> Prop) :
  is_bytes data -> len data <= USIZE_MAX -> scan_budget_ok (from_limits limits0) -> session_ok s ->
  indexed (from_limits limits0) data cs loop ->
  (forall c loop' s', continues s s' -> indexed (from_limits limits0) data (cs ++ [c]) loop' -> Q loop' s') ->
  wp (build_row data (len cs) loop) Q s.
Proof.
  intros Hb Hl Hok Hs [Hax Hrows Hg Hbud Hterms] HQ. destruct loop as [[g b] offset]. cbn [fst snd] in *.
  pose proof Hrows as (_ & Hoff & Hoff')%get_range_length. unfold HEADER_BYTES in Hoff.
  unfold build_row. step. apply wp_step_work; [done|]. intros s1 Hs1.
  do 2 step. apply owp_read_u64; [done|lia|]. intros n Hn Hn'. do 3 step. apply try_from_Some in H as [-> _].
  do 3 step. apply checked_add_Some in H as [-> _]. do 3 step. apply checked_add_Some in H as [-> _].
  do 3 step. rename a into row.
  pose proof H as (Hrow & _ & Hend)%get_range_length. pose proof (is_bytes_range _ _ _ _ Hb H) as Hbr.
  assert (wp (scan_canonical row) (fun category b' => exists c, canonical_row b row c /\
    category = component_category c /\ b' = with_terms b (terms b + size c)) b) as Hscan.
  { apply wp_scan_row; [done|lia|subst b|by subst b|by eauto].
    destruct Hok; constructor; [done|cbn; apply (sum_sizes_nonneg data)|done]. }
  unfold wp in Hscan. destruct (scan_canonical row b) as [[category|e|] b']; [|done|done].
  destruct Hscan as (c & [Henc Hwf Hwork Hfit] & -> & ->).
  do 4 step. bool_to_prop. case_bool_decide as Hcat; [|done]. do 2 step.
  assert (is_u64 (ctag c)) as Htag by (cbn [well_formed] in Hwf; destruct Hwf as (sp & Hsp & _); by eapply spec_u64).
  assert (root_tag row = Ok (ctag c)) as ->.
  { rewrite Henc. destruct c. by apply root_tag_varint. }
  do 3 step. apply wp_session_try_reserve; [apply Hs1|]. intros s2 Hs2. step.
  apply (HQ c); [by eauto with kernel|]. subst b. cbn [with_terms terms scan_max_terms] in *.
  constructor; cbn [fst snd].
  - apply Forall_app. split; [done|]. constructor; [|constructor]. split; [done|].
    split; [exact Hwf|by rewrite <- Henc].
  - rewrite !map_app, concat_app. cbn [map concat]. rewrite app_nil_r, <- Henc.
    eapply get_range_app; [done|]. unfold index_row. eapply get_range_app; [|exact H].
    by replace (len row) with n by lia.
  - rewrite map_app. cbn [map]. replace (len cs) with (len (map ctag cs)) by (by rewrite length_map).
    by apply partition_snoc.
  - rewrite map_app, sum_app. cbn [map sum foldr]. rewrite Z.add_0_r. done.
  - rewrite map_app, sum_app. cbn [map sum foldr]. lia.
Qed.

(** The result of the groups, appended group by group. *)
Lemma owp_encode_groups g output (Q : bytes -> Prop) :
  Q (output ++ concat (map index_group g)) -> owp (ofor_each encode_group g output) Q.
Proof.
  revert output. induction g as [|[t os] g IH]; intros output HQ; cbn [ofor_each map concat] in *.
  - by rewrite app_nil_r in HQ.
  - step. unfold encode_group at 1. do 2 step. apply try_from_Some in H as [-> _]. step.
    apply IH. by rewrite <- !app_assoc.
Qed.

Lemma owp_sizes g total : 0 <= total ->
  owp (ofor_each (fun (group : Z * list Z) total => ok_or (checked_add USIZE_MAX total (len (snd group)))
    (limit "native index result row count overflow")) g total) (fun n => 0 <= n).
Proof.
  revert total. induction g as [|x g IH]; intros total Ht; cbn [ofor_each]; [done|].
  do 2 step. apply checked_add_Some in H as [-> _]. apply IH. lia.
Qed.

Lemma wp_encode_index g s (Q : bytes -> Session -> Prop) :
  session_ok s -> (forall s', continues s s' -> Q (index_result g) s') -> wp (encode_index g) Q s.
Proof.
  intros Hs HQ. unfold encode_index. do 2 step. eapply owp_mono; [|by apply owp_sizes]. intros n Hn.
  do 3 step. rename a into total.
  assert (0 <= total) as Htotal.
  { destruct (checked_add USIZE_MAX HEADER_BYTES _) as [x|] eqn:E; [|discriminate].
    apply checked_add_Some in E as [-> _]. cbn in H. apply checked_add_Some in H as [-> _].
    unfold saturating_mul, HEADER_BYTES. ulia. }
  do 3 step. apply try_from_Some in H0 as [-> _]. do 4 step. step.
  apply wp_reserve_continues; [done|done|]. intros s1 Hs1. step.
  apply wp_session_try_reserve; [apply Hs1|]. intros s2 Hs2. do 3 step. apply try_from_Some in H1 as [-> _].
  do 2 step. apply owp_encode_groups. step. apply wp_session_finish; [apply Hs2|]. intros s3 Hs3. step.
  unfold index_result in HQ. rewrite <- !app_assoc. apply HQ. by eauto with kernel.
Qed.

(** The rows and the result of a successful request. *)
Definition indexes (l : Limits) (data out : bytes) : Prop :=
  exists cs g, data = index_source (map encode cs) /\ Forall (axiom_within (from_limits l)) cs /\
    sum (map size cs) <= max_terms l /\ len cs <= value l MaxIndexRows /\
    partition_of (map ctag cs) g /\ out = index_result g.

Lemma wp_build data s (Q : bytes -> Session -> Prop) :
  is_bytes data -> len data <= USIZE_MAX -> session_ok s ->
  0 <= max_nesting_depth (limits s) -> max_terms (limits s) <= U64_MAX -> 0 <= max_terms (limits s) ->
  (forall out s', continues s s' -> indexes (limits s) data out -> Q out s') -> wp (build data) Q s.
Proof.
  intros Hb Hl Hs Hd Ht Ht0 HQ. unfold build. do 2 step. bool_to_prop.
  case_bool_decide as Hmagic; [|done]. unfold HEADER_BYTES in *.
  do 2 step. apply owp_read_u16; [done|lia|ulia|]. intros schema Hschema _.
  do 2 step. apply owp_read_u16; [done|lia|ulia|]. intros reserved Hreserved _.
  do 2 step. apply owp_read_u64; [done|lia|]. intros count Hcount Hcount'.
  do 2 step. bool_to_prop. subst schema reserved. do 4 step. do 3 step. conversions.
  do 2 step. do 3 step. conversions. bool_to_prop.
  step. apply wp_reserve_continues; [unfold saturating_mul; ulia|done|]. intros s1 Hs1. do 2 step. step.
  assert (limits s1 = limits s) as El by apply Hs1. rewrite El.
  eapply wp_mono.
  { apply (wp_for_range _ (fun i loop s' => continues s1 s' /\
      exists cs, len cs = i /\ indexed (from_limits (limits s)) data cs loop)).
    - split; [apply continues_refl; apply Hs1|]. exists []. split; [done|].
      constructor; cbn [fst snd map concat]; [by constructor| |apply partition_nil|done|done].
      unfold HEADER_BYTES. destruct (get_range_is_Some data 20 20) as [x Hx]; [lia|lia|].
      pose proof Hx as [Hlen _]%get_range_length. destruct x; [done|cbn [length] in Hlen; lia].
    - intros i loop s2 Hi (Hs2 & cs & <- & Hcs). apply (wp_build_row data (limits s) cs); try done.
      + apply from_limits_ok; lia.
      + apply Hs2.
      + intros c loop' s3 Hs3 Hloop. split; [by eauto with kernel|]. exists (cs ++ [c]).
        split; [rewrite length_app; cbn [length]; lia|done]. }
  intros [[g b] offset] s2 (Hs2 & cs & Hn & [Hax Hrows Hg _ Hterms]). cbn [fst snd] in *.
  do 2 step. bool_to_prop. subst offset. apply wp_encode_index; [apply Hs2|]. intros s3 Hs3.
  apply HQ; [by eauto 6 with kernel|]. exists cs, g. splits; try done; [|ulia].
  pose proof (get_range_app _ _ _ _ _ _ Hmagic Hschema) as Hpre.
  pose proof (get_range_app _ _ _ _ _ _ Hpre Hreserved) as Hpre2.
  pose proof (get_range_app _ _ _ _ _ _ Hpre2 Hcount) as Hpre3.
  pose proof (get_range_app _ _ _ _ _ _ Hpre3 Hrows) as Hall.
  rewrite get_range_full in Hall. apply (inj Some) in Hall. rewrite Hall. unfold index_source.
  rewrite <- !app_assoc, length_map. repeat f_equal. ulia.
Qed.

(** C33: A successful index request lists a frame of canonical axiom rows, all
    within the limits, and its result groups them: ascending tags, no empty
    group, and under each tag exactly the ordinals of the rows whose root has
    that tag, in ascending order.  No request panics. *)
Theorem build_returns_the_axiom_partition data s :
  is_bytes data -> len data <= USIZE_MAX -> session_ok s ->
  0 <= max_nesting_depth (limits s) -> 0 <= max_terms (limits s) <= U64_MAX ->
  match build data s with
  | (Ok out, _) => indexes (limits s) data out
  | (Err _, _) => True
  | (Panic, _) => False
  end.
Proof.
  intros Hb Hl Hs Hd Ht. pose proof (wp_build data s (fun out _ => indexes (limits s) data out)) as H.
  apply H; try done; lia.
Qed.

(** Three axioms of two kinds. *)
Definition sample_rows : list component :=
  [sample_axiom; Component 60 [PComponent (sample_class "urn:c"); PSet []]; sample_axiom].

Lemma build_returns_the_axiom_partition_witness :
  exists out, fst (build (index_source (map encode sample_rows)) sample_session) = Ok out /\
    indexes Limits_default (index_source (map encode sample_rows)) out.
Proof.
  pose proof (build_returns_the_axiom_partition (index_source (map encode sample_rows)) sample_session
    ltac:(apply is_bytesb_true; vm_compute; reflexivity) ltac:(vm_compute; discriminate) sample_session_ok
    ltac:(vm_compute; discriminate) ltac:(split; vm_compute; discriminate)) as H.
  destruct (build (index_source (map encode sample_rows)) sample_session) as [[out|e|] s] eqn:E.
  - exists out. split; [reflexivity|exact H].
  - apply (f_equal fst) in E. vm_compute in E. discriminate E.
  - destruct H.
Defined.
