(* ===== verification/RdfLists.v ===== *)
(** * RDF collections ([native/src/ingestion/rdf_lists.rs])

    [RdfListDecoder] walks the [rdf:first]/[rdf:rest] cells of a graph and
    keeps a ledger of which collection owns which cell, so that two collections
    of one graph cannot share a tail.  The sizes that are charged to the
    session are those of a 64-bit target. *)

From S2P Require Import Prelude Bytes Order Error Machine Atomic Limits Cancel Session.

Definition RDF_FIRST : bytes := str "http://www.w3.org/1999/02/22-rdf-syntax-ns#first".
Definition RDF_REST : bytes := str "http://www.w3.org/1999/02/22-rdf-syntax-ns#rest".
Definition RDF_NIL : bytes := str "http://www.w3.org/1999/02/22-rdf-syntax-ns#nil".
Definition RDF_TYPE : bytes := str "http://www.w3.org/1999/02/22-rdf-syntax-ns#type".
Definition RDF_LIST : bytes := str "http://www.w3.org/1999/02/22-rdf-syntax-ns#List".

Inductive RdfResource := ResourceIri (iri : bytes) | ResourceBlank (label : bytes).
Inductive RdfTerm := TermIri (iri : bytes) | TermBlank (label : bytes) | TermLiteral (lexical : bytes).

Record RdfTriple := mkTriple { subject : RdfResource; predicate : bytes; object : RdfTerm }.

#[export] Instance RdfResource_eq_dec : EqDecision RdfResource.
Proof. solve_decision. Defined.
#[export] Instance RdfTerm_eq_dec : EqDecision RdfTerm.
Proof. solve_decision. Defined.

Record DecodedRdfList := mkDecoded { list_items : list RdfTerm; cells : list bytes; consumed : list Z }.

Record RdfListDecoder := mkDecoder {
  triples : list RdfTriple;
  by_blank_subject : gmap bytes (list Z);
  owners : gmap bytes bytes
}.

(** [size_of] of [&str], [Vec<usize>], [RdfTerm] and [usize]. *)
Definition STR_BYTES : Z := 16.
Definition VEC_BYTES : Z := 24.
Definition TERM_BYTES : Z := 24.
Definition USIZE_BYTES : Z := 8.

Definition unsupported (message : string) : NativeError := new "NATIVE_RDF_MAPPING_UNSUPPORTED" message.
Definition cardinality (message : string) : NativeError := new "NATIVE_RDF_MAPPING_CARDINALITY" message.

(** [enforce_length] *)
Definition enforce_length (value_ : Z) : M Session unit :=
  value_ ← lift (ok_or (try_from U64_MAX value_) (limit "native RDF list length exceeds u64"));
  s ← get;
  ensure_not (value (limits s) MaxRdfListLength <? value_)
    (Limits_resource_limit (limits s) MaxRdfListLength value_ "native RDF list exceeds max_rdf_list_length");;
  ensure_not (value (limits s) MaxSequenceArity <? value_)
    (Limits_resource_limit (limits s) MaxSequenceArity value_ "native RDF list exceeds max_sequence_arity").

Definition list_allocation_failed : string := "native RDF list allocation failed".
Definition accounting_overflow : NativeError := limit "native RDF list allocation accounting overflow".

(** [reserve_item] *)
Definition reserve_item (size_of_T : Z) : M Session unit :=
  full ← on_session_world at_capacity;
  if full : bool then
    reserve_bytes size_of_T;; on_session_world (try_reserve list_allocation_failed)
  else mret tt.

(** [reserve_hash_item] *)
Definition reserve_hash_item (size_of_T : Z) : M Session unit :=
  bytes ← lift (ok_or (checked_add USIZE_MAX size_of_T USIZE_BYTES) accounting_overflow);
  reserve_bytes bytes;;
  on_session_world (try_reserve list_allocation_failed).

(** [reserve_hash_map_additional], [reserve_hash_map_item] *)
Definition reserve_hash_map_additional (size_of_K size_of_V additional : Z) : M Session unit :=
  if additional =? 0 then mret tt else
  bytes ← lift (ok_or (n ← checked_add USIZE_MAX size_of_K size_of_V;
                       n ← checked_add USIZE_MAX n USIZE_BYTES;
                       checked_mul USIZE_MAX n additional) accounting_overflow);
  reserve_bytes bytes;;
  on_session_world (try_reserve list_allocation_failed).
Definition reserve_hash_map_item (size_of_K size_of_V : Z) : M Session unit :=
  reserve_hash_map_additional size_of_K size_of_V 1.

(** ** Construction *)

(** One round of the loop of [RdfListDecoder::new]. *)
Definition index_triple (triple : RdfTriple) (loop : Z * gmap bytes (list Z))
    : M Session (Z * gmap bytes (list Z)) :=
  let '(index, by_blank_subject) := loop in
  step_work 1;;
  match subject triple with
  | ResourceIri _ => mret (index + 1, by_blank_subject)
  | ResourceBlank subject =>
      by_blank_subject ←
        (if decide (by_blank_subject !! subject = None) then
           reserve_hash_map_item STR_BYTES VEC_BYTES;; mret (<[subject := []]> by_blank_subject)
         else mret by_blank_subject);
      indexes ← lift (ok_or (by_blank_subject !! subject)
        (protocol "native RDF list subject index changed during construction"));
      reserve_item USIZE_BYTES;;
      mret (index + 1, <[subject := indexes ++ [index]]> by_blank_subject)
  end.

(** [RdfListDecoder::new] *)
Definition RdfListDecoder_new (triples : list RdfTriple) : M Session RdfListDecoder :=
  '(_, by_blank_subject) ← for_each index_triple triples (0, ∅);
  mret {| triples := triples; by_blank_subject := by_blank_subject; owners := ∅ |}.

(** ** Decoding *)

(** [RdfListDecoder::blank_subject_indexes] *)
Definition blank_subject_indexes (d : RdfListDecoder) (subject : bytes) : list Z :=
  default [] (by_blank_subject d !! subject).

Definition index_exceeds_graph : NativeError := protocol "native RDF list subject index exceeds graph".

(** [RdfListDecoder::unique_edge] *)
Definition select_edge (d : RdfListDecoder) (edge : bytes) (malformed : string) (index : Z)
    (selected : option Z) : M Session (option Z) :=
  step_work 1;;
  triple ← lift (ok_or (get_at (triples d) index) index_exceeds_graph);
  if decide (predicate triple = edge) then
    match selected with Some _ => throw (cardinality malformed) | None => mret (Some index) end
  else mret selected.
Definition unique_edge (d : RdfListDecoder) (subject edge : bytes) (malformed : string) : M Session Z :=
  selected ← for_each (select_edge d edge malformed) (blank_subject_indexes d subject) None;
  lift (ok_or selected (cardinality "native incomplete RDF collection cell")).

(** [RdfListDecoder::consume_list_markers] *)
Definition consume_marker (d : RdfListDecoder) (index : Z) (consumed : list Z) : M Session (list Z) :=
  step_work 1;;
  triple ← lift (ok_or (get_at (triples d) index) index_exceeds_graph);
  if decide (predicate triple = RDF_TYPE /\ object triple = TermIri RDF_LIST) then
    reserve_item USIZE_BYTES;; mret (consumed ++ [index])
  else mret consumed.
Definition consume_list_markers (d : RdfListDecoder) (subject : bytes) (consumed : list Z)
    : M Session (list Z) :=
  for_each (consume_marker d) (blank_subject_indexes d subject) consumed.

(** [owners.get(cell).is_some_and(|existing| *existing != root)] *)
Definition owned_by_another (owners : gmap bytes bytes) (cell root : bytes) : bool :=
  match owners !! cell with Some existing => bool_decide (existing <> root) | None => false end.

(** [RdfListDecoder::claim] *)
Definition claim (d : RdfListDecoder) (cell root : bytes) (pending : gmap bytes bytes)
    : M Session (gmap bytes bytes) :=
  step_work 1;;
  ensure_not (owned_by_another (owners d) cell root) (unsupported "native shared RDF collection tail");;
  step_work 1;;
  ensure_not (owned_by_another pending cell root) (unsupported "native shared RDF collection tail");;
  if decide (owners d !! cell = None /\ pending !! cell = None) then
    reserve_hash_map_item STR_BYTES STR_BYTES;; mret (<[cell := root]> pending)
  else mret pending.

(** The local variables of the loop of [decode]. *)
Record Walk := mkWalk {
  pending_owners : gmap bytes bytes;
  visited : list bytes;
  visited_set : gset bytes;
  items : list RdfTerm;
  walk_consumed : list Z;
  current : bytes
}.

Definition Walk_start (root : bytes) : Walk :=
  {| pending_owners := ∅; visited := []; visited_set := ∅; items := []; walk_consumed := []; current := root |}.

(** One round: the cell [current], and where its tail leads. *)
Definition decode_cell (d : RdfListDecoder) (root : bytes) (w : Walk) : M Session (Walk * bool) :=
  next_length ← lift (ok_or (checked_add USIZE_MAX (len (items w)) 1) (limit "native RDF list length overflow"));
  enforce_length next_length;;
  step_work 1;;
  ensure_not (bool_decide (current w ∈ visited_set w)) (unsupported "native cyclic RDF collection");;
  reserve_hash_item STR_BYTES;;
  ensure_not (bool_decide (current w ∈ visited_set w))
    (protocol "native RDF list cycle index changed during insertion");;
  reserve_item STR_BYTES;;
  pending ← claim d (current w) root (pending_owners w);
  consumed ← consume_list_markers d (current w) (walk_consumed w);
  first ← unique_edge d (current w) RDF_FIRST "native forked RDF first edge";
  rest ← unique_edge d (current w) RDF_REST "native forked RDF rest edge";
  reserve_item TERM_BYTES;;
  item ← lift (index_at (triples d) first);
  reserve_item USIZE_BYTES;;
  reserve_item USIZE_BYTES;;
  tail ← lift (index_at (triples d) rest);
  let visit (next : bytes) :=
    {| pending_owners := pending; visited := visited w ++ [current w];
       visited_set := {[ current w ]} ∪ visited_set w; items := items w ++ [object item];
       walk_consumed := consumed ++ [first; rest]; current := next |} in
  match object tail with
  | TermBlank label => mret (visit label, false)
  | TermIri iri =>
      if decide (iri = RDF_NIL) then mret (visit (current w), true)
      else throw (unsupported "native RDF collection tail must be blank or rdf:nil")
  | TermLiteral _ => throw (unsupported "native RDF collection tail must be blank or rdf:nil")
  end.

(** The [loop]: every round visits another blank subject of the graph, so that
    [decode_fuel] rounds suffice; running out of them would be a [Panic]. *)
Fixpoint decode_walk (fuel : nat) (d : RdfListDecoder) (root : bytes) (w : Walk) : M Session Walk :=
  match fuel with
  | O => lift Panic
  | S fuel =>
      '(w, done) ← decode_cell d root w;
      if done : bool then mret w else decode_walk fuel d root w
  end.
Definition decode_fuel (d : RdfListDecoder) : nat := S (length (triples d)).

(** [RdfListDecoder::decode], which works on the decoder and the session. *)
Record DecoderState := mkDecoderState { list_session : Session; decoder : RdfListDecoder }.

Notation on_list_session m :=
  (zoom list_session (fun x s => {| list_session := x; decoder := decoder s |}) m).

Definition extend_owners (pending : gmap bytes bytes) : M DecoderState unit :=
  s ← get;
  put {| list_session := list_session s;
         decoder := {| triples := triples (decoder s); by_blank_subject := by_blank_subject (decoder s);
                       owners := pending ∪ owners (decoder s) |} |}.

Definition decode_blank (root : bytes) : M DecoderState DecodedRdfList :=
  s ← get;
  w ← on_list_session (decode_walk (decode_fuel (decoder s)) (decoder s) root (Walk_start root));
  on_list_session finish;;
  on_list_session (reserve_hash_map_additional STR_BYTES STR_BYTES (Z.of_nat (size (pending_owners w))));;
  extend_owners (pending_owners w);;
  mret {| list_items := items w; cells := visited w;
          consumed := vec_dedup (sort_by (fun i => i) (walk_consumed w)) |}.

Definition RdfListDecoder_decode (head : RdfTerm) : M DecoderState DecodedRdfList :=
  on_list_session finish;;
  match head with
  | TermBlank root => decode_blank root
  | TermIri iri =>
      if decide (iri = RDF_NIL) then mret {| list_items := []; cells := []; consumed := [] |}
      else throw (unsupported "native RDF collection head must be blank or rdf:nil")
  | TermLiteral _ => throw (unsupported "native RDF collection head must be blank or rdf:nil")
  end.

(** Two triples that form a one-element collection, and a cyclic one. *)
Definition sample_graph (tail : RdfTerm) : list RdfTriple :=
  [{| subject := ResourceBlank (str "c"); predicate := RDF_FIRST; object := TermIri (str "urn:a") |};
   {| subject := ResourceBlank (str "c"); predicate := RDF_REST; object := tail |}].
Definition sample_decode (tail : RdfTerm) : outcome DecodedRdfList :=
  match RdfListDecoder_new (sample_graph tail) sample_session with
  | (Ok d, s) => fst (RdfListDecoder_decode (TermBlank (str "c")) {| list_session := s; decoder := d |})
  | (Err e, _) => Err e
  | (Panic, _) => Panic
  end.

Example sample_list_decodes :
  sample_decode (TermIri RDF_NIL) =
  Ok {| list_items := [TermIri (str "urn:a")]; cells := [str "c"]; consumed := [0; 1] |}.
Proof. vm_compute. reflexivity. Qed.
Example sample_cycle_fails :
  sample_decode (TermBlank (str "c")) = Err (unsupported "native cyclic RDF collection").
Proof. vm_compute. reflexivity. Qed.
