(* ===== verification/RdfListsTheorems.v ===== *)
(** * What the collection decoder answers

    A collection is a path of cells, each with exactly one [rdf:first] and
    one [rdf:rest] edge, that ends in [rdf:nil].  [decode] returns it, and
    reports a mapping error only when there is none, or when another
    collection owns one of its cells. *)

From S2P Require Import Prelude Bytes Order Error Machine Atomic Limits Cancel Session RdfLists.

(** ** Collections of a graph *)

Section Graph.
Context (g : list RdfTriple).

(** The only triple with that blank subject and that predicate. *)
Definition the_edge (b p : bytes) (i : Z) (o : RdfTerm) : Prop :=
  get_at g i = Some {| subject := ResourceBlank b; predicate := p; object := o |} /\
  forall j o', get_at g j = Some {| subject := ResourceBlank b; predicate := p; object := o' |} -> j = i.

Inductive segment : RdfTerm -> list RdfTerm -> list bytes -> RdfTerm -> Prop :=
  | segment_nil t : segment t [] [] t
  | segment_cell b i item j rest items cells t :
      the_edge b RDF_FIRST i item -> the_edge b RDF_REST j rest -> segment rest items cells t ->
      segment (TermBlank b) (item :: items) (b :: cells) t.

Definition is_list (head : RdfTerm) (items : list RdfTerm) (cells : list bytes) : Prop :=
  segment head items cells (TermIri RDF_NIL).

(** The triples that belong to the cells. *)
Definition belongs (cs : list bytes) (i : Z) : Prop :=
  exists b t, In b cs /\ get_at g i = Some t /\ subject t = ResourceBlank b /\
    (predicate t = RDF_FIRST \/ predicate t = RDF_REST \/ predicate t = RDF_TYPE /\ object t = TermIri RDF_LIST).

Lemma the_edge_det b p i o i' o' : the_edge b p i o -> the_edge b p i' o' -> i' = i /\ o' = o.
Proof. intros [Hi Hu] [Hi' _]. pose proof (Hu _ _ Hi') as ->. split; [done|congruence]. Qed.

Lemma segment_app a xs cs b ys ds c : segment a xs cs b -> segment b ys ds c -> segment a (xs ++ ys) (cs ++ ds) c.
Proof. induction 1; intros Hs; [done|]. cbn. econstructor; eauto. Qed.

Lemma segment_snoc a xs cs b i item j rest :
  segment a xs cs (TermBlank b) -> the_edge b RDF_FIRST i item -> the_edge b RDF_REST j rest ->
  segment a (xs ++ [item]) (cs ++ [b]) rest.
Proof. intros Hs Hf Hr. eapply segment_app; [done|]. econstructor; [done|done|constructor]. Qed.

(** A collection goes on where a segment from its head ends. *)
Lemma list_after_segment a xs cs b items cells :
  segment a xs cs b -> is_list a items cells ->
  exists ys ds, items = xs ++ ys /\ cells = cs ++ ds /\ is_list b ys ds.
Proof.
  intros Hs. revert items cells. induction Hs as [|b i item j rest xs cs t Hf Hr _ IH]; intros items cells Hl.
  - by exists items, cells.
  - unfold is_list in Hl. inversion Hl as [|? i' item' j' rest' items' cells' ? Hf' Hr' Hl']; subst.
    destruct (the_edge_det _ _ _ _ _ _ Hf Hf') as [_ ->]. destruct (the_edge_det _ _ _ _ _ _ Hr Hr') as [_ ->].
    destruct (IH _ _ Hl') as (ys & ds & -> & -> & Hd). by exists ys, ds.
Qed.

Lemma is_list_det a xs cs ys ds : is_list a xs cs -> is_list a ys ds -> ys = xs /\ ds = cs.
Proof.
  intros Hx Hy. destruct (list_after_segment _ _ _ _ _ _ Hx Hy) as (zs & es & -> & -> & Hn).
  inversion Hn; subst. by rewrite !app_nil_r.
Qed.

Lemma segment_split a xs cs c ds b :
  segment a xs (cs ++ c :: ds) b ->
  exists ys zs, xs = ys ++ zs /\ segment a ys cs (TermBlank c) /\ segment (TermBlank c) zs (c :: ds) b.
Proof.
  revert a xs. induction cs as [|x cs IH]; intros a xs Hs; cbn [app] in Hs.
  - pose proof Hs as Hs'. inversion Hs'; subst. eexists [], _. split; [done|]. split; [constructor|exact Hs].
  - inversion Hs as [|? i item j rest items cells ? Hf Hr Hl]; subst.
    destruct (IH _ _ Hl) as (ys & zs & -> & Hy & Hz). exists (item :: ys), zs. split; [done|].
    split; [by econstructor|done].
Qed.

(** No collection comes back to a cell. *)
Lemma no_return a xs cs c items cells :
  segment a xs cs (TermBlank c) -> In c cs -> ~ is_list a items cells.
Proof.
  intros Hs (p & q & ->)%in_split Hl.
  destruct (segment_split _ _ _ _ _ _ Hs) as (ys & zs & -> & Hy & Hz).
  destruct (list_after_segment _ _ _ _ _ _ Hy Hl) as (ys' & ds' & _ & _ & Hl1).
  destruct (list_after_segment _ _ _ _ _ _ Hz Hl1) as (ys2 & ds2 & _ & -> & Hl2).
  destruct (is_list_det _ _ _ _ _ Hl1 Hl2) as [_ E]. apply (f_equal length) in E.
  rewrite length_app in E. cbn [length] in E. lia.
Qed.

Lemma is_list_cell b items cells :
  is_list (TermBlank b) items cells ->
  exists i item j rest items' cells', the_edge b RDF_FIRST i item /\ the_edge b RDF_REST j rest /\
    is_list rest items' cells' /\ items = item :: items' /\ cells = b :: cells'.
Proof. intros Hl. 
  unfold is_list in Hl. inversion Hl as [|? i item j rest items' cells' ? Hf Hr Hl']; subst.
  by exists i, item, j, rest, items', cells'.
Qed.

(** A cell of a segment is the blank subject of a triple. *)
Lemma segment_subjects a xs cs b c :
  segment a xs cs b -> In c cs -> In c (map (fun t => match subject t with ResourceBlank x | ResourceIri x => x end) g).
Proof.
  induction 1 as [|x i item j rest items cells t [Hf _] _ _ IH]; [done|]. intros [->|Hc]; [|by apply IH].
  apply get_at_Some in Hf as [_ Hf]. apply in_map_iff. eexists. split; [|apply list_elem_of_In; by eapply list_elem_of_lookup_2].
  done.
Qed.

Lemma segment_length a xs cs b : segment a xs cs b -> NoDup cs -> (length cs <= length g)%nat.
Proof.
  intros Hs Hn. rewrite <- (length_map (fun t => match subject t with ResourceBlank x | ResourceIri x => x end) g).
  apply submseteq_length, NoDup_submseteq; [done|]. intros c Hc%list_elem_of_In. apply list_elem_of_In.
  by eapply segment_subjects.
Qed.
End Graph.

(** ** The subject index *)

(** The index lists, for every blank node, the positions of its triples. *)
Record decoder_ok (d : RdfListDecoder) : Prop := {
  indexes_distinct b : NoDup (blank_subject_indexes d b);
  indexes_exact b i : In i (blank_subject_indexes d b) <->
    exists t, get_at (triples d) i = Some t /\ subject t = ResourceBlank b
}.

(** An error is operational, or [P] explains it. *)
Definition fails (P : Prop) (e : NativeError) (_ : Session) : Prop := operational e \/ P.

Section Operations.
Implicit Types (P : Prop) (s : Session).

Lemma wpx_operation {A} (m : M Session A) (Q : A -> Session -> Prop) P s :
  wp m Q s -> fails_with operational m -> wpx m Q (fails P) s.
Proof. intros Hm Hf. eapply wpx_of_wpe; [by apply wpe_of_wp|done|]. by left. Qed.

Lemma wpx_step_work n (Q : unit -> Session -> Prop) P s :
  session_ok s -> (forall s', continues s s' -> Q tt s') -> wpx (step_work n) Q (fails P) s.
Proof. intros. apply wpx_operation; [by apply wp_step_work|apply fails_step_work]. Qed.

Lemma wp_at_capacity s (Q : bool -> Session -> Prop) :
  session_ok s -> (forall b s', continues s s' -> Q b s') -> wp (on_session_world at_capacity) Q s.
Proof.
  intros Hs HQ. step. unfold wp, at_capacity, look. cbn -[wp]. apply HQ. split; [|done].
  by destruct Hs; constructor.
Qed.

Lemma fails_at_capacity : fails_with operational at_capacity.
Proof. intros w. unfold at_capacity. by destruct (look w). Qed.

Lemma wpx_reserve_item n (Q : unit -> Session -> Prop) P s :
  0 <= n -> session_ok s -> (forall s', continues s s' -> Q tt s') -> wpx (reserve_item n) Q (fails P) s.
Proof.
  intros Hn Hs HQ. apply wpx_operation; unfold reserve_item.
  - step. apply wp_at_capacity; [done|]. intros full s1 Hs1. step; [|step; by apply HQ].
    step. apply wp_reserve_continues; [done|apply Hs1|]. intros s2 Hs2.
    apply wp_session_try_reserve; [apply Hs2|]. intros s3 Hs3. apply HQ. by eauto with kernel.
  - operational; first [apply fails_reserve_bytes|apply fails_at_capacity].
Qed.

Lemma wpx_reserve_hash_item n (Q : unit -> Session -> Prop) P s :
  0 <= n -> session_ok s -> (forall s', continues s s' -> Q tt s') -> wpx (reserve_hash_item n) Q (fails P) s.
Proof.
  intros Hn Hs HQ. apply wpx_operation; unfold reserve_hash_item.
  - do 3 step. apply checked_add_Some in H as [-> _]. step. unfold USIZE_BYTES.
    apply wp_reserve_continues; [lia|done|]. intros s2 Hs2.
    apply wp_session_try_reserve; [apply Hs2|]. intros s3 Hs3. apply HQ. by eauto with kernel.
  - operational; apply fails_reserve_bytes.
Qed.

Lemma wpx_reserve_map k v n (Q : unit -> Session -> Prop) P s :
  0 <= k -> 0 <= v -> 0 <= n -> session_ok s -> (forall s', continues s s' -> Q tt s') ->
  wpx (reserve_hash_map_additional k v n) Q (fails P) s.
Proof.
  intros Hk Hv Hn Hs HQ. apply wpx_operation; unfold reserve_hash_map_additional.
  - step; [step; by apply HQ; auto with kernel|]. do 3 step. rename a into bytes.
    assert (0 <= bytes) as Hb.
    { destruct (checked_add _ k v) as [x|] eqn:E1; [|discriminate]. apply checked_add_Some in E1 as [-> _]. cbn in H.
      destruct (checked_add _ (k + v) _) as [x|] eqn:E2; [|discriminate]. apply checked_add_Some in E2 as [-> _].
      cbn in H. apply checked_mul_Some in H as [-> _]. unfold USIZE_BYTES. lia. }
    step. apply wp_reserve_continues; [done|done|]. intros s2 Hs2.
    apply wp_session_try_reserve; [apply Hs2|]. intros s3 Hs3. apply HQ. by eauto with kernel.
  - operational; apply fails_reserve_bytes.
Qed.

(** A refusal that the mapping explains. *)
Lemma wpx_refuse c e (Q : unit -> Session -> Prop) P s :
  (c = true -> P) -> (c = false -> Q tt s) -> wpx (ensure_not c e) Q (fails P) s.
Proof. intros HP HQ. xstep; [right; auto|auto]. Qed.

(** A check that cannot fail, or whose failure is operational. *)
Lemma wpx_check c e (Q : unit -> Session -> Prop) P s :
  operational e -> (c = false -> Q tt s) -> wpx (ensure_not c e) Q (fails P) s.
Proof. intros He HQ. xstep; [by left|auto]. Qed.

Lemma wpx_ok_or {A} (o : option A) e (Q : A -> Session -> Prop) P s :
  operational e -> (forall a, o = Some a -> Q a s) -> wpx (lift (ok_or o e)) Q (fails P) s.
Proof. intros He HQ. xstep. destruct o; cbn; [by apply HQ|by left]. Qed.

Lemma wpx_enforce_length n (Q : unit -> Session -> Prop) P s :
  (n <= value (limits s) MaxRdfListLength -> Q tt s) -> wpx (enforce_length n) Q (fails P) s.
Proof.
  intros HQ. unfold enforce_length. xstep. apply wpx_ok_or; [cbn; tauto|]. intros x [-> _]%try_from_Some.
  do 2 xstep. xstep. apply wpx_check; [cbn; tauto|]. intros Hl. bool_to_prop.
  apply wpx_check; [cbn; tauto|]. intros _. by apply HQ.
Qed.
End Operations.

(** ** One cell *)

Section Decoder.
Context (d : RdfListDecoder) (d_ok : decoder_ok d).
Notation g := (triples d).

Lemma owned_false owners cell root :
  owned_by_another owners cell root = false <-> owners !! cell = None \/ owners !! cell = Some root.
Proof.
  unfold owned_by_another. destruct (owners !! cell) as [x|]; [|naive_solver].
  rewrite bool_decide_eq_false. destruct (decide (x = root)); naive_solver.
Qed.

(** The ledger as it will be once the pending claims are merged into it. *)
Definition claimed (root : bytes) (cs : list bytes) (pending : gmap bytes bytes) : Prop :=
  (forall c r, pending !! c = Some r -> r = root) /\
  forall c, (pending ∪ owners d) !! c = if decide (c ∈ cs) then Some root else owners d !! c.

Lemma claimed_nil root : claimed root [] ∅.
Proof. split; [done|]. intros c. rewrite left_id_L by apply _. done. Qed.

Lemma wpx_claim (root cell : bytes) (pending : gmap bytes bytes) (cs : list bytes) (Q : gmap bytes bytes -> Session -> Prop) (P : Prop) s :
  session_ok s -> claimed root cs pending ->
  (owned_by_another (owners d) cell root = true -> P) ->
  (forall pending' s', continues s s' -> claimed root (cs ++ [cell]) pending' ->
     owned_by_another (owners d) cell root = false -> Q pending' s') ->
  wpx (claim d cell root pending) Q (fails P) s.
Proof.
  intros Hs [Hroot Hlook] HP HQ. unfold claim. xstep. apply wpx_step_work; [done|]. intros s1 Hs1. xstep.
  apply wpx_refuse; [done|]. intros Hown. xstep. apply wpx_step_work; [apply Hs1|]. intros s2 Hs2. xstep.
  assert (owned_by_another pending cell root = false) as Hpend.
  { apply owned_false. destruct (pending !! cell) as [r|] eqn:E; [|by left]. right. by apply Hroot in E as ->. }
  apply wpx_refuse; [congruence|]. intros _.
  assert (forall c, (if decide (c ∈ cs ++ [cell]) then Some root else owners d !! c) =
    if decide (c = cell) then Some root else if decide (c ∈ cs) then Some root else owners d !! c) as Hcase.
  { intros c. destruct (decide (c ∈ cs ++ [cell])) as [E|E]; rewrite elem_of_app, list_elem_of_singleton in E;
      repeat case_decide; naive_solver. }
  destruct (decide (owners d !! cell = None /\ pending !! cell = None)) as [[Ho Hp]|Hn].
  - xstep. apply wpx_reserve_map; [done..|apply Hs2|]. intros s3 Hs3. xstep.
    apply HQ; [by eauto with kernel| |done]. split.
    + intros c r. rewrite lookup_insert. case_decide; [intros ?; congruence|apply Hroot].
    + intros c. rewrite Hcase, <- insert_union_l, lookup_insert. specialize (Hlook c).
      destruct (decide (cell = c)), (decide (c = cell)); congruence.
  - xstep. apply HQ; [by eauto with kernel| |done]. split; [done|]. intros c. rewrite Hcase, Hlook.
    destruct (decide (c = cell)) as [->|]; [|done]. specialize (Hlook cell). apply owned_false in Hpend, Hown.
    case_decide; [done|]. destruct Hown as [Hown|]; [|done].
    rewrite Hown in Hlook. destruct Hn. split; [done|]. rewrite lookup_union in Hlook.
    destruct (pending !! cell); [|done]. by destruct (owners d !! cell).
Qed.

(** Among the indexes seen, [selected] is the only one with the predicate. *)
Definition selects (b p : bytes) (seen : list Z) (selected : option Z) : Prop :=
  match selected with
  | None => forall j t, In j seen -> get_at g j = Some t -> predicate t <> p
  | Some i => In i seen /\ (exists t, get_at g i = Some t /\ predicate t = p) /\
      forall j t, In j seen -> get_at g j = Some t -> predicate t = p -> j = i
  end.

Lemma edge_triple b p i t :
  In i (blank_subject_indexes d b) -> get_at g i = Some t -> predicate t = p ->
  get_at g i = Some {| subject := ResourceBlank b; predicate := p; object := object t |}.
Proof.
  intros Hi Ht <-. apply (indexes_exact _ d_ok) in Hi as (t' & Ht' & Hs). assert (t' = t) as -> by congruence. rewrite Ht. f_equal.
  destruct t. cbn in *. by subst.
Qed.

Lemma edge_index b p i o :
  get_at g i = Some {| subject := ResourceBlank b; predicate := p; object := o |} ->
  In i (blank_subject_indexes d b).
Proof. intros H. apply (indexes_exact _ d_ok). by eexists. Qed.

Lemma wpx_unique_edge (b p : bytes) (malformed : string) (Q : Z -> Session -> Prop) (P : Prop) s :
  session_ok s -> (~ (exists i o, the_edge g b p i o) -> P) ->
  (forall i o s', continues s s' -> the_edge g b p i o -> Q i s') ->
  wpx (unique_edge d b p malformed) Q (fails P) s.
Proof.
  intros Hs HP HQ. unfold unique_edge. xstep. eapply wpx_mono; [|intros ?? H; exact H|done].
  eapply wpx_mono.
  - apply (wpx_for_each (select_edge d p malformed) (fun rest selected s' => continues s s' /\
      exists seen, blank_subject_indexes d b = seen ++ rest /\ selects b p seen selected) (fails P)).
    + split; [by auto with kernel|]. exists []. split; [done|]. by intros j t [].
    + intros i rest selected s1 (Hs1 & seen & Hseen & Hsel). unfold select_edge. xstep.
      apply wpx_step_work; [apply Hs1|]. intros s2 Hs2. xstep.
      apply wpx_ok_or; [cbn; tauto|]. intros t Ht.
      assert (In i (blank_subject_indexes d b)) as Hi by (rewrite Hseen; apply in_or_app; right; by left).
      destruct (decide (predicate t = p)) as [Hp|Hp].
      * destruct selected as [k|].
        -- xstep. right. apply HP. intros (j & o & Hj & Hu). destruct Hsel as (Hk & (t' & Ht' & Hp') & _).
           assert (In k (blank_subject_indexes d b)) as Hk' by (rewrite Hseen; apply in_or_app; by left).
           pose proof (Hu _ _ (edge_triple _ _ _ _ Hi Ht Hp)). pose proof (Hu _ _ (edge_triple _ _ _ _ Hk' Ht' Hp')).
           pose proof (indexes_distinct _ d_ok b) as Hn. rewrite Hseen in Hn. apply NoDup_app in Hn as (_ & Hn & _).
           apply (Hn k); [by apply list_elem_of_In|]. subst. by left.
        -- xstep. split; [by eauto with kernel|]. exists (seen ++ [i]). rewrite <- app_assoc. split; [done|].
           cbn. split; [apply in_or_app; right; by left|]. split; [by exists t|].
           intros j t' [Hj|[->|[]]]%in_app_or Ht' Hp'; [|done]. by destruct (Hsel _ _ Hj Ht').
      * xstep. split; [by eauto with kernel|]. exists (seen ++ [i]). rewrite <- app_assoc. split; [done|].
        destruct selected as [k|]; cbn in *.
        -- destruct Hsel as (Hk & Ht' & Hu). split; [apply in_or_app; by left|]. split; [done|].
           intros j t' [Hj|[->|[]]]%in_app_or ??; [by eapply Hu|]. by simplify_eq.
        -- intros j t' [Hj|[->|[]]]%in_app_or ?; [by eapply Hsel|]. by simplify_eq.
  - intros selected s' (Hs' & seen & Hseen & Hsel). rewrite app_nil_r in Hseen. subst seen. xstep.
    destruct selected as [i|]; cbn.
    + destruct Hsel as (Hi & (t & Ht & Hp) & Hu). apply (HQ i (object t)); [done|].
      split; [by eapply edge_triple|]. intros j o Hj. eapply Hu; [by eapply edge_index|done|done].
    + right. apply HP. intros (i & o & Hi & _). by apply (Hsel i _ (edge_index _ _ _ _ Hi) Hi).
  - done.
Qed.

Definition marks (b : bytes) (i : Z) : Prop :=
  exists t, get_at g i = Some t /\ subject t = ResourceBlank b /\ predicate t = RDF_TYPE /\ object t = TermIri RDF_LIST.

Lemma wpx_consume_list_markers (b : bytes) (taken : list Z) (Q : list Z -> Session -> Prop) (P : Prop) s :
  session_ok s ->
  (forall taken' s', continues s s' -> (forall i, In i taken' <-> In i taken \/ marks b i) -> Q taken' s') ->
  wpx (consume_list_markers d b taken) Q (fails P) s.
Proof.
  intros Hs HQ. unfold consume_list_markers. eapply wpx_mono.
  - apply (wpx_for_each (consume_marker d) (fun rest taken' s' => continues s s' /\
      exists seen, blank_subject_indexes d b = seen ++ rest /\
      forall i, In i taken' <-> In i taken \/ In i seen /\ marks b i) (fails P)).
    + split; [by auto with kernel|]. exists []. split; [done|]. cbn. tauto.
    + intros i rest taken' s1 (Hs1 & seen & Hseen & Htaken). unfold consume_marker. xstep.
      apply wpx_step_work; [apply Hs1|]. intros s2 Hs2. xstep.
      apply wpx_ok_or; [cbn; tauto|]. intros t Ht.
      assert (In i (blank_subject_indexes d b)) as Hi by (rewrite Hseen; apply in_or_app; right; by left).
      apply (indexes_exact _ d_ok) in Hi as (t' & Ht' & Hsub). assert (t' = t) as -> by congruence.
      destruct (decide (predicate t = RDF_TYPE /\ object t = TermIri RDF_LIST)) as [[Hp Ho]|Hn].
      * xstep. apply wpx_reserve_item; [done|apply Hs2|]. intros s3 Hs3. xstep. split; [by eauto with kernel|].
        exists (seen ++ [i]). rewrite <- app_assoc. split; [done|]. intros j. rewrite !in_app_iff, Htaken. cbn.
        assert (marks b i) by (by exists t). intuition (subst; auto).
      * xstep. split; [by eauto with kernel|]. exists (seen ++ [i]). rewrite <- app_assoc. split; [done|].
        intros j. rewrite in_app_iff, Htaken. cbn.
        assert (~ marks b i) by (intros (t' & ? & _ & ? & ?); simplify_eq; by apply Hn). intuition (subst; tauto).
  - intros taken' s' (Hs' & seen & Hseen & Htaken). rewrite app_nil_r in Hseen. subst seen. apply HQ; [done|].
    intros i. rewrite Htaken. split; [tauto|]. intros [|Hm]; [by left|right]. split; [|done].
    destruct Hm as (t & Ht & Hsub & _). apply (indexes_exact _ d_ok). by exists t.
  - done.
Qed.

(** ** The walk *)

(** The walk from [root] has come to [tail]. *)
Record walked (maximum : Z) (root : bytes) (w : Walk) (tail : RdfTerm) : Prop := {
  walked_path : segment g (TermBlank root) (items w) (visited w) tail;
  walked_set : visited_set w = list_to_set (visited w);
  walked_distinct : NoDup (visited w);
  walked_claims : claimed root (visited w) (pending_owners w);
  walked_consumed i : In i (walk_consumed w) <-> belongs g (visited w) i;
  walked_owned : Forall (fun c => owned_by_another (owners d) c root = false) (visited w);
  walked_length : len (items w) <= Z.max 0 maximum
}.

(** A collection whose cells are free or already owned by its head. *)
Definition decodable (root : bytes) : Prop :=
  exists xs cs, is_list g (TermBlank root) xs cs /\ Forall (fun c => owned_by_another (owners d) c root = false) cs.

Lemma decodable_after maximum root w :
  walked maximum root w (TermBlank (current w)) -> decodable root ->
  ~ In (current w) (visited w) /\ owned_by_another (owners d) (current w) root = false /\
  exists i item j rest xs cs, the_edge g (current w) RDF_FIRST i item /\
    the_edge g (current w) RDF_REST j rest /\ is_list g rest xs cs.
Proof.
  intros Hw (xs & cs & Hl & Ho). split; [|].
  { intros Hin. eapply (no_return g); [apply Hw|done|exact Hl]. }
  destruct (list_after_segment _ _ _ _ _ _ _ (walked_path _ _ _ _ Hw) Hl) as (ys & ds & -> & -> & Hc).
  apply is_list_cell in Hc as (i & item & j & rest & ys' & ds' & Hf & Hr & Hl' & -> & ->).
  apply Forall_app in Ho as [_ [Ho _]%Forall_cons]. split; [done|]. by exists i, item, j, rest, ys', ds'.
Qed.

Lemma belongs_snoc cs b i j item rest k :
  the_edge g b RDF_FIRST i item -> the_edge g b RDF_REST j rest ->
  belongs g (cs ++ [b]) k <-> belongs g cs k \/ marks b k \/ k = i \/ k = j.
Proof.
  intros [Hi Hiu] [Hj Hju]. unfold belongs, marks. split.
  - intros (c & t & [Hc|[->|[]]]%in_app_or & Ht & Hs & Hp); [left; by exists c, t|right].
    destruct t as [ts tp to]. cbn in *. subst ts. destruct Hp as [->|[->|[-> ->]]].
    + right; left. by apply (Hiu _ to).
    + right; right. by apply (Hju _ to).
    + left. by eexists.
  - assert (In b (cs ++ [b])) by (apply in_or_app; right; by left).
    intros [(c & t & Hc & Hm)|[(t & Ht & Hs & Hm)|[->| ->]]].
    + exists c, t. split; [|done]. apply in_or_app. by left.
    + exists b, t. split; [done|]. split; [done|]. split; [done|]. by right; right.
    + eexists b, _. split; [done|]. split; [exact Hi|]. cbn. tauto.
    + eexists b, _. split; [done|]. split; [exact Hj|]. cbn. tauto.
Qed.

Lemma segment_lengths a xs cs b : segment g a xs cs b -> length xs = length cs.
Proof. induction 1; cbn; congruence. Qed.

(** What the edges of the current cell say about the collections through it. *)
Lemma decodable_edges maximum root w i item j rest :
  walked maximum root w (TermBlank (current w)) -> decodable root ->
  the_edge g (current w) RDF_FIRST i item -> the_edge g (current w) RDF_REST j rest ->
  rest = TermIri RDF_NIL \/ exists label, rest = TermBlank label.
Proof.
  intros Hw Hd _ Hr. destruct (decodable_after _ _ _ Hw Hd) as (_ & _ & i' & item' & j' & rest' & xs & cs & _ & Hr' & Hl).
  destruct (the_edge_det _ _ _ _ _ _ _ Hr Hr') as [_ ->]. unfold is_list in Hl.
  inversion Hl; subst; [by left|right; by eexists].
Qed.

(** Taking one more cell. *)
Lemma walked_next maximum root w i item j rest taken pending next :
  walked maximum root w (TermBlank (current w)) -> len (items w) + 1 <= maximum ->
  ~ In (current w) (visited w) -> owned_by_another (owners d) (current w) root = false ->
  claimed root (visited w ++ [current w]) pending ->
  (forall k, In k taken <-> In k (walk_consumed w) \/ marks (current w) k) ->
  the_edge g (current w) RDF_FIRST i item -> the_edge g (current w) RDF_REST j rest ->
  walked maximum root
    {| pending_owners := pending; visited := visited w ++ [current w];
       visited_set := {[ current w ]} ∪ visited_set w; items := items w ++ [item];
       walk_consumed := taken ++ [i; j]; current := next |} rest.
Proof.
  intros [Hpath Hset Hdist Hclaim Htaken Howned Hlen] Hmax Hfresh Hown Hclaim' Htaken' Hf Hr.
  constructor; cbn [pending_owners visited visited_set items walk_consumed current].
  - by eapply segment_snoc.
  - rewrite list_to_set_app_L, Hset. cbn. set_solver.
  - apply NoDup_app. split; [done|]. split; [|by apply NoDup_singleton].
    intros c Hc ->%list_elem_of_singleton. apply Hfresh. by apply list_elem_of_In.
  - done.
  - intros k. rewrite (belongs_snoc _ _ _ _ _ _ _ Hf Hr), in_app_iff, Htaken', Htaken. cbn. intuition.
  - apply Forall_app. by rewrite Forall_singleton.
  - rewrite length_app. cbn [length]. lia.
Qed.

Lemma wpx_decode_cell root w (Q : Walk * bool -> Session -> Prop) s :
  session_ok s -> walked (value (limits s) MaxRdfListLength) root w (TermBlank (current w)) ->
  (forall w' done s', continues s s' -> length (visited w') = S (length (visited w)) ->
     walked (value (limits s) MaxRdfListLength) root w'
       (if done : bool then TermIri RDF_NIL else TermBlank (current w')) -> Q (w', done) s') ->
  wpx (decode_cell d root w) Q (fails (~ decodable root)) s.
Proof.
  intros Hs Hw HQ. pose proof (decodable_after _ _ _ Hw) as Hdec.
  unfold decode_cell. xstep. apply wpx_ok_or; [cbn; tauto|]. intros n [-> _]%checked_add_Some. xstep.
  apply wpx_enforce_length. intros Hn. xstep. apply wpx_step_work; [done|]. intros s1 Hs1. xstep.
  assert (current w ∈ visited_set w <-> In (current w) (visited w)) as Hin
    by (by rewrite (walked_set _ _ _ _ Hw), elem_of_list_to_set, list_elem_of_In).
  apply wpx_refuse; [intros Hc%bool_decide_eq_true_1 Hd; apply Hdec in Hd as [Hd _]; tauto|].
  intros Hfresh%bool_decide_eq_false_1. rewrite Hin in Hfresh. xstep.
  apply wpx_reserve_hash_item; [done|apply Hs1|]. intros s2 Hs2. xstep.
  apply wpx_check; [cbn; tauto|]. intros _. xstep. apply wpx_reserve_item; [done|apply Hs2|]. intros s3 Hs3. xstep.
  apply (wpx_claim root (current w) (pending_owners w) (visited w)); [apply Hs3|apply Hw| |].
  { intros Ho Hd. apply Hdec in Hd as (_ & Hd & _). congruence. }
  intros pending s4 Hs4 Hclaim' Hown. xstep. apply wpx_consume_list_markers; [apply Hs4|]. intros taken s5 Hs5 Htaken'. xstep.
  apply wpx_unique_edge; [apply Hs5| |].
  { intros Hno Hd. apply Hdec in Hd as (_ & _ & i & item & _ & _ & _ & _ & Hf & _). apply Hno. by exists i, item. }
  intros i item s6 Hs6 Hf. xstep. apply wpx_unique_edge; [apply Hs6| |].
  { intros Hno Hd. apply Hdec in Hd as (_ & _ & _ & _ & j & rest & _ & _ & _ & Hr & _). apply Hno. by exists j, rest. }
  intros j rest s7 Hs7 Hr. xstep. apply wpx_reserve_item; [done|apply Hs7|]. intros s8 Hs8. do 2 xstep.
  unfold index_at. rewrite (proj1 Hf). cbn [or_panic]. xstep.
  apply wpx_reserve_item; [done|apply Hs8|]. intros s9 Hs9. xstep.
  apply wpx_reserve_item; [done|apply Hs9|]. intros s10 Hs10. do 2 xstep. rewrite (proj1 Hr). cbn [or_panic object].
  assert (continues s s10) as Hcont by (eauto 12 with kernel).
  pose proof (fun next => walked_next _ _ _ _ _ _ _ _ _ next Hw Hn Hfresh Hown Hclaim' Htaken' Hf Hr) as Hnext.
  assert (length (visited w ++ [current w]) = S (length (visited w))) as Hlen' by (rewrite length_app; cbn; lia).
  pose proof (fun Hd => decodable_edges _ _ _ _ _ _ _ Hw Hd Hf Hr) as Htail.
  destruct rest as [iri|label|lexical]; [destruct (decide (iri = RDF_NIL)) as [->|Hnil]|..]; xstep.
  1, 3: by apply HQ.
  all: right; intros Hd; destruct (Htail Hd) as [|[? ?]]; congruence.
Qed.

Lemma wpx_decode_walk fuel root w (Q : Walk -> Session -> Prop) s :
  session_ok s -> walked (value (limits s) MaxRdfListLength) root w (TermBlank (current w)) ->
  (S (length g) <= fuel + length (visited w))%nat ->
  (forall w' s', continues s s' -> walked (value (limits s) MaxRdfListLength) root w' (TermIri RDF_NIL) -> Q w' s') ->
  wpx (decode_walk fuel d root w) Q (fails (~ decodable root)) s.
Proof.
  revert w s. induction fuel as [|fuel IH]; intros w s Hs Hw Hfuel HQ; cbn [decode_walk].
  - exfalso. pose proof (segment_length _ _ _ _ _ (walked_path _ _ _ _ Hw) (walked_distinct _ _ _ _ Hw)). lia.
  - xstep. apply wpx_decode_cell; [done|done|]. intros w' done s1 Hs1 Hlen Hw'. destruct done; [by xstep; apply HQ|].
    assert (limits s1 = limits s) as El by apply Hs1.
    apply IH; [apply Hs1|by rewrite El|lia|]. intros w2 s2 Hs2. rewrite El. apply HQ. by eauto with kernel.
Qed.
End Decoder.

(** ** Whole decodes *)

Definition head_label (head : RdfTerm) : bytes := match head with TermBlank b => b | _ => [] end.

(** The collection at [head], in full, and the triples it owns. *)
Record collection (g : list RdfTriple) (head : RdfTerm) (r : DecodedRdfList) : Prop := {
  collection_list : is_list g head (list_items r) (cells r);
  collection_triples i : In i (consumed r) <-> belongs g (cells r) i;
  collection_sorted : StronglySorted Z.lt (consumed r)
}.

Lemma ascending_Z (l : list Z) : StronglySorted Z.lt l <-> StronglySorted ord_lt l.
Proof.
  split; intros Hs; induction Hs as [|x l _ IH Hx]; constructor; try done;
    (eapply List.Forall_impl; [|exact Hx]); intros y; apply Z.compare_lt_iff.
Qed.

Lemma walked_collection d maximum root w :
  walked d maximum root w (TermIri RDF_NIL) ->
  collection (triples d) (TermBlank root)
    {| list_items := items w; cells := visited w; consumed := vec_dedup (sort_by (fun i => i) (walk_consumed w)) |}.
Proof.
  intros [Hpath _ _ _ Htaken _ _].
  destruct (vec_dedup_spec (fun i : Z => i) (sort_by (fun i => i) (walk_consumed w)) ltac:(auto)
    (sort_by_sorted (fun i : Z => i) _)) as [Hsort Hin].
  constructor; cbn [list_items cells consumed]; [done| |].
  - intros i. by rewrite Hin, In_sort_by, Htaken.
  - rewrite map_id in Hsort. by apply ascending_Z.
Qed.

(** What [decode] does to the ledger. *)
Definition ledger_after (d : RdfListDecoder) (head : RdfTerm) (cs : list bytes) (d' : RdfListDecoder) : Prop :=
  triples d' = triples d /\ by_blank_subject d' = by_blank_subject d /\
  Forall (fun c => owned_by_another (owners d) c (head_label head) = false) cs /\
  forall c, owners d' !! c = if decide (c ∈ cs) then Some (head_label head) else owners d !! c.

(** A collection whose cells no other collection owns. *)
Definition available (d : RdfListDecoder) (head : RdfTerm) : Prop :=
  exists xs cs, is_list (triples d) head xs cs /\
    Forall (fun c => owned_by_another (owners d) c (head_label head) = false) cs.

Definition decode_answer (maximum : Z) (head : RdfTerm) (d : RdfListDecoder) (r : DecodedRdfList)
    (st : DecoderState) : Prop :=
  collection (triples d) head r /\ len (list_items r) <= Z.max 0 maximum /\
  ledger_after d head (cells r) (decoder st).
Definition decode_refusal (head : RdfTerm) (d : RdfListDecoder) (e : NativeError) (st : DecoderState) : Prop :=
  decoder st = d /\ (operational e \/ ~ available d head).

Lemma walked_start d maximum root : walked d maximum root (Walk_start root) (TermBlank root).
Proof.
  constructor; cbn [Walk_start items visited visited_set pending_owners walk_consumed].
  - constructor.
  - done.
  - constructor.
  - apply claimed_nil.
  - intros i. split; [done|]. by intros (b & t & [] & _).
  - constructor.
  - cbn. lia.
Qed.

(** Session operations at the end of a decode. *)
Lemma wpx_on_list_session {A} (m : M Session A) (Q : A -> DecoderState -> Prop) (P : Prop) d s :
  wpx m (fun a s' => Q a {| list_session := s'; decoder := d |}) (fails P) s ->
  wpx (on_list_session m) Q (fun e st => decoder st = d /\ (operational e \/ P)) {| list_session := s; decoder := d |}.
Proof. intros H. xstep. eapply wpx_mono; [exact H|done|]. intros e s' He. by split. Qed.

Lemma wpx_finish (Q : unit -> Session -> Prop) (P : Prop) s :
  session_ok s -> (forall s', continues s s' -> Q tt s') -> wpx finish Q (fails P) s.
Proof. intros. apply wpx_operation; [by apply wp_session_finish|apply fails_finish]. Qed.

Lemma wpx_decode_blank root d s :
  decoder_ok d -> session_ok s ->
  wpx (decode_blank root) (decode_answer (value (limits s) MaxRdfListLength) (TermBlank root) d) (decode_refusal (TermBlank root) d)
    {| list_session := s; decoder := d |}.
Proof.
  intros Hd Hs. unfold decode_blank. do 3 xstep. cbn [decoder].
  apply wpx_on_list_session. cbn [list_session].
  apply wpx_decode_walk; [done|done|apply walked_start|cbn; unfold decode_fuel; lia|].
  intros w s1 Hs1 Hw. xstep. apply wpx_on_list_session.
  apply wpx_finish; [apply Hs1|]. intros s2 Hs2. xstep. apply wpx_on_list_session.
  apply wpx_reserve_map; [done|done|lia|apply Hs2|]. intros s3 Hs3. unfold extend_owners. do 4 xstep.
  split; [by eapply walked_collection|]. split; [apply Hw|]. cbn [cells decoder list_session].
  split; [done|]. split; [done|]. split; [apply Hw|]. intros c. apply (walked_claims _ _ _ _ _ Hw).
Qed.

Lemma wpx_decode head d s :
  decoder_ok d -> session_ok s ->
  wpx (RdfListDecoder_decode head) (decode_answer (value (limits s) MaxRdfListLength) head d) (decode_refusal head d)
    {| list_session := s; decoder := d |}.
Proof.
  intros Hd Hs. unfold RdfListDecoder_decode. xstep. apply wpx_on_list_session.
  apply wpx_finish; [done|]. intros s1 Hs1. assert (limits s1 = limits s) as El by apply Hs1.
  assert (forall x, decode_refusal (TermLiteral x) d (unsupported "native RDF collection head must be blank or rdf:nil")
    {| list_session := s1; decoder := d |}) as Hlit.
  { intros x. split; [done|]. right. intros (xs & cs & Hl & _). inversion Hl. }
  destruct head as [iri|root|lexical].
  - destruct (decide (iri = RDF_NIL)) as [->|Hnil]; xstep.
    + split; [|split; [cbn; lia|]].
      * constructor; cbn; [constructor| |constructor]. intros i. split; [done|]. by intros (b & t & [] & _).
      * split; [done|]. split; [done|]. split; [constructor|]. done.
    + split; [done|]. right. intros (xs & cs & Hl & _). inversion Hl. congruence.
  - rewrite <- El. apply wpx_decode_blank; [done|apply Hs1].
  - xstep. apply Hlit.
Qed.

(** ** Construction *)

Lemma decoder_ok_snoc ts index t o :
  decoder_ok {| triples := ts; by_blank_subject := index; owners := o |} ->
  decoder_ok {| triples := ts ++ [t]; owners := o;
    by_blank_subject := match subject t with
                        | ResourceIri _ => index
                        | ResourceBlank b => <[b := default [] (index !! b) ++ [len ts]]> index
                        end |}.
Proof.
  intros Hok.
  assert (forall b, blank_subject_indexes {| triples := ts ++ [t]; owners := o;
      by_blank_subject := match subject t with
                          | ResourceIri _ => index
                          | ResourceBlank b => <[b := default [] (index !! b) ++ [len ts]]> index
                          end |} b =
    default [] (index !! b) ++ (if decide (subject t = ResourceBlank b) then [len ts] else [])) as Hidx.
  { intros b. unfold blank_subject_indexes. cbn. destruct (subject t) as [x|x].
    - rewrite decide_False by done. by rewrite app_nil_r.
    - rewrite lookup_insert. destruct (decide (x = b)) as [->|Hne].
      + by rewrite decide_True.
      + rewrite decide_False by congruence. by rewrite app_nil_r. }
  assert (forall b i, In i (default [] (index !! b)) <-> exists t, get_at ts i = Some t /\ subject t = ResourceBlank b)
    as Hex by apply (indexes_exact _ Hok).
  constructor; intros b; rewrite Hidx.
  - pose proof (indexes_distinct _ Hok b) as Hn. unfold blank_subject_indexes in Hn. cbn in Hn.
    case_decide; [|by rewrite app_nil_r]. apply NoDup_app. split; [done|]. split; [|by apply NoDup_singleton].
    intros i Hi ->%list_elem_of_singleton. apply list_elem_of_In, Hex in Hi as (t' & Ht'%get_at_lt & _). lia.
  - intros i. rewrite in_app_iff, Hex. cbn [triples]. split.
    + intros [(t' & Ht' & Hs)|Hi].
      * exists t'. split; [|done]. apply get_at_Some in Ht' as [? Ht']. apply get_at_Some. split; [done|].
        by apply lookup_app_l_Some.
      * case_decide; [|done]. destruct Hi as [<-|[]]. exists t. split; [|done]. apply get_at_Some. split; [lia|].
        rewrite Nat2Z.id. by apply list_lookup_middle.
    + intros (t' & [Hi Ht']%get_at_Some & Hs). apply lookup_app_Some in Ht' as [Ht'|[Hge Ht']].
      * left. exists t'. split; [|done]. by apply get_at_Some.
      * apply list_lookup_singleton_Some in Ht' as [Hk <-]. right. rewrite decide_True by done. left. lia.
Qed.

Lemma wp_new ts s (Q : RdfListDecoder -> Session -> Prop) :
  session_ok s ->
  (forall d s', continues s s' -> decoder_ok d -> triples d = ts -> owners d = ∅ -> Q d s') ->
  wp (RdfListDecoder_new ts) Q s.
Proof.
  intros Hs HQ. unfold RdfListDecoder_new. step. eapply wp_mono.
  - apply (wp_for_each index_triple (fun rest loop s' => continues s s' /\ exists seen,
      ts = seen ++ rest /\ fst loop = len seen /\
      decoder_ok {| triples := seen; by_blank_subject := snd loop; owners := ∅ |})).
    + split; [by auto with kernel|]. exists []. split; [done|]. split; [done|].
      constructor; [intros b; constructor|]. intros b i. split; [done|]. by intros (t & [? ?]%get_at_Some & _).
    + intros t rest [k m] s1 (Hs1 & seen & -> & Hk & Hok). cbn [fst snd] in *. subst k. unfold index_triple.
      step. apply wp_step_work; [apply Hs1|]. intros s2 Hs2. pose proof (decoder_ok_snoc _ _ t _ Hok) as Hok'.
      assert (forall s3 m', continues s s3 ->
        decoder_ok {| triples := seen ++ [t]; by_blank_subject := m'; owners := ∅ |} ->
        continues s s3 /\ exists seen', seen ++ t :: rest = seen' ++ rest /\ len seen + 1 = len seen' /\
          decoder_ok {| triples := seen'; by_blank_subject := m'; owners := ∅ |}) as Hnext.
      { intros s3 m' Hs3 Hm. split; [done|]. exists (seen ++ [t]). rewrite <- app_assoc, length_app. cbn [length].
        split; [done|]. split; [lia|done]. }
      destruct (subject t) as [x|b]; [step; apply Hnext; [by eauto with kernel|done]|].
      step. eapply (wp_mono _ (fun m' s3 => continues s s3 /\ m' !! b = Some (default [] (m !! b)) /\
        forall v, <[b := v]> m' = <[b := v]> m)).
      { destruct (decide (m !! b = None)) as [En|En].
        - step. apply (wp_of_wpx _ _ (fails True)). apply wpx_reserve_map; [done..|apply Hs2|]. intros s3 Hs3. step.
          split; [by eauto with kernel|]. rewrite lookup_insert, En. rewrite decide_True by done. split; [done|].
          intros v. rewrite insert_insert. by rewrite decide_True.
        - step. split; [by eauto with kernel|]. destruct (m !! b); [|done]. by split. }
      intros m' s3 (Hs3 & Hm' & Hins). do 2 step. rewrite Hm'. step. cbn in H. simplify_eq. step.
      apply (wp_of_wpx _ _ (fails True)), wpx_reserve_item; [done|apply Hs3|]. intros s4 Hs4. step.
      rewrite Hins. apply Hnext; [by eauto with kernel|done].
  - intros [k m] s1 (Hs1 & seen & Hseen & _ & Hok). rewrite app_nil_r in Hseen. subst seen. step.
    by apply HQ.
Qed.

(** * Collection decoders in use

    A decoder is built for a graph and decodes one collection after another.
    Every answer is that of the graph, the ledger only grows, and two decoded
    collections never share a cell. *)

(** ** Decoders in use *)

(** A decoder is built for a graph, and decodes collections one after another,
    with any session each time and whatever the outcome. *)
Inductive decoder_step (d : RdfListDecoder) : RdfListDecoder -> Prop :=
  | decoder_decodes head s r st : session_ok s ->
      RdfListDecoder_decode head {| list_session := s; decoder := d |} = (r, st) -> decoder_step d (decoder st).
Inductive decoder_of (ts : list RdfTriple) : RdfListDecoder -> Prop :=
  | decoder_built s d s' : session_ok s -> RdfListDecoder_new ts s = (Ok d, s') -> decoder_of ts d
  | decoder_moved d d' : decoder_of ts d -> decoder_step d d' -> decoder_of ts d'.

Lemma decode_cases head d s :
  decoder_ok d -> session_ok s ->
  match RdfListDecoder_decode head {| list_session := s; decoder := d |} with
  | (Ok r, st) => decode_answer (value (limits s) MaxRdfListLength) head d r st
  | (Err e, st) => decode_refusal head d e st
  | (Panic, _) => False
  end.
Proof. intros Hd Hs. apply (wpx_decode head d s Hd Hs). Qed.

(** One step keeps the graph, the index, and who owns what. *)
Lemma decoder_step_keeps d d' :
  decoder_ok d -> decoder_step d d' ->
  triples d' = triples d /\ decoder_ok d' /\ forall c r, owners d !! c = Some r -> owners d' !! c = Some r.
Proof.
  intros Hd [head s r st Hs E]. pose proof (decode_cases head d s Hd Hs) as H. rewrite E in H.
  destruct r as [r|e|]; [|by destruct H as [-> _]|done].
  destruct H as (_ & _ & Ht & Hi & Hown & Hlook). split; [done|]. split.
  - destruct Hd as [H1 H2]. constructor; unfold blank_subject_indexes in *; by rewrite Hi, ?Ht.
  - intros c b Hc. rewrite Hlook. case_decide as Hin; [|done]. eapply Forall_forall in Hown; [|exact Hin].
    apply owned_false in Hown. destruct Hown; congruence.
Qed.

Lemma decoder_of_ok ts d : decoder_of ts d -> decoder_ok d /\ triples d = ts.
Proof.
  induction 1 as [s d s' Hs E|d d' _ [Hd <-] Hstep].
  - refine (wp_Ok _ (fun d _ => decoder_ok d /\ triples d = ts) _ _ _ _ E). by apply wp_new.
  - by destruct (decoder_step_keeps _ _ Hd Hstep) as (-> & ? & _).
Qed.

(** ** The errors of a decode *)

(** The errors that say the graph is malformed. *)
Definition mapping_error (e : NativeError) : Prop :=
  code e = "NATIVE_RDF_MAPPING_UNSUPPORTED"%string \/ code e = "NATIVE_RDF_MAPPING_CARDINALITY"%string.

Lemma operational_not_mapping e : operational e -> ~ mapping_error e.
Proof. unfold operational, mapping_error. cbn. intuition congruence. Qed.

Definition decode_error (e : NativeError) : Prop := operational e \/ mapping_error e.

Lemma operational_decode {S A} (m : M S A) : fails_with operational m -> fails_with decode_error m.
Proof. intros H s. specialize (H s). destruct (fst (m s)); [done|by left|done]. Qed.

Ltac decode_errors :=
  repeat first [fstep
               | match goal with |- fails_with _ (for_each _ _ _) => apply fails_for_each; intros ? ? end
               | match goal with |- fails_with _ (lift (index_at ?l ?i)) => apply fails_lift; unfold index_at; by destruct (get_at l i) end];
  try solve [done | left; cbn; tauto | right; left; reflexivity | right; right; reflexivity
            | apply operational_decode; first [apply fails_step_work | apply fails_finish
                | apply fails_reserve_bytes | apply fails_at_capacity]].

Lemma decode_errors_item n : fails_with decode_error (reserve_item n).
Proof. unfold reserve_item. decode_errors. Qed.
Lemma decode_errors_hash_item n : fails_with decode_error (reserve_hash_item n).
Proof. unfold reserve_hash_item. decode_errors. Qed.
Lemma decode_errors_map k v n : fails_with decode_error (reserve_hash_map_additional k v n).
Proof. unfold reserve_hash_map_additional. decode_errors. Qed.
Lemma decode_errors_length n : fails_with decode_error (enforce_length n).
Proof. unfold enforce_length. decode_errors. Qed.
Lemma decode_errors_edge d b p msg : fails_with decode_error (unique_edge d b p msg).
Proof. unfold unique_edge, select_edge. decode_errors. Qed.
Lemma decode_errors_markers d b taken : fails_with decode_error (consume_list_markers d b taken).
Proof. unfold consume_list_markers, consume_marker. decode_errors. all: apply decode_errors_item. Qed.
Lemma decode_errors_claim d c root pending : fails_with decode_error (claim d c root pending).
Proof. unfold claim. decode_errors. all: apply decode_errors_map. Qed.

Lemma decode_errors_cell d root w : fails_with decode_error (decode_cell d root w).
Proof.
  unfold decode_cell. decode_errors.
  all: first [apply decode_errors_length | apply decode_errors_hash_item | apply decode_errors_item
             | apply decode_errors_claim | apply decode_errors_markers | apply decode_errors_edge].
Qed.

Lemma decode_errors_walk fuel d root w : fails_with decode_error (decode_walk fuel d root w).
Proof.
  revert w. induction fuel as [|fuel IH]; intros w; cbn [decode_walk]; [by intros s|].
  apply fails_bind; [apply decode_errors_cell|]. intros [w' []]; [apply fails_ret|apply IH].
Qed.

(** Every error of a decode is a mapping error or a session's. *)
Lemma decode_error_classes head : fails_with decode_error (RdfListDecoder_decode head).
Proof.
  unfold RdfListDecoder_decode, decode_blank, extend_owners. decode_errors.
  - apply decode_errors_walk.
  - apply decode_errors_map.
Qed.

(** C9: Decoding a collection head returns the collection of the graph at that
    head, item by item and cell by cell, with exactly the triples it owns, and
    records it in the ledger.  Every error is either a session's, that is a
    limit, an interruption or a broken session protocol, or a mapping error,
    and a mapping error is reported only when the head has no well-formed
    collection or another collection owns one of its cells; no failure changes
    the ledger.  The traversal always ends. *)
Theorem decode_answers_for_the_graph ts d head s :
  decoder_of ts d -> session_ok s ->
  match RdfListDecoder_decode head {| list_session := s; decoder := d |} with
  | (Ok r, st) => collection ts head r /\ len (list_items r) <= Z.max 0 (value (limits s) MaxRdfListLength) /\
                  ledger_after d head (cells r) (decoder st)
  | (Err e, st) => decoder st = d /\
                   ((operational e /\ ~ mapping_error e) \/ (mapping_error e /\ ~ available d head))
  | (Panic, _) => False
  end.
Proof.
  intros [Hd Ht]%decoder_of_ok Hs. pose proof (decode_cases head d s Hd Hs) as H. subst ts.
  pose proof (decode_error_classes head {| list_session := s; decoder := d |}) as He.
  destruct (RdfListDecoder_decode _ _) as [[r|e|] st]; [exact H| |exact H]. cbn in He.
  destruct H as [-> Hr]. split; [done|]. pose proof (operational_not_mapping e) as Hn.
  destruct He as [He|He]; [left|right]; (split; [done|]); [by apply Hn|].
  destruct Hr as [Ho|Hr]; [by destruct (Hn Ho)|done].
Qed.

Lemma collection_head g head r c :
  collection g head r -> In c (cells r) -> head = TermBlank (head_label head).
Proof. destruct r as [xs cs ts]. intros [Hl _ _] Hc. cbn in *. by inversion Hl; subst. Qed.

Lemma collection_unique g head r r' : collection g head r -> collection g head r' -> r = r'.
Proof.
  intros [Hl Ht Hs] [Hl' Ht' Hs']. destruct (is_list_det _ _ _ _ _ _ Hl Hl') as [Ei Ec].
  destruct r as [xs cs ts], r' as [xs' cs' ts']. cbn in *. subst. f_equal.
  apply ascending_unique.
  - exact (proj1 (ascending_Z _) Hs).
  - exact (proj1 (ascending_Z _) Hs').
  - intros x. by rewrite Ht, Ht'.
Qed.

Lemma decoder_steps_keep d d' :
  rtc decoder_step d d' -> decoder_ok d ->
  triples d' = triples d /\ decoder_ok d' /\ forall c r, owners d !! c = Some r -> owners d' !! c = Some r.
Proof.
  induction 1 as [d|d d1 d2 Hstep _ IH]; intros Hd; [done|].
  destruct (decoder_step_keeps _ _ Hd Hstep) as (Ht & Hd1 & Ho). destruct (IH Hd1) as (-> & ? & Ho').
  split; [done|]. split; [done|]. auto.
Qed.

(** C32: Two collections decoded from one graph by one decoder share no cell,
    whatever was decoded between them, unless they are the same collection. *)
Theorem decoded_collections_share_no_cells ts d head1 s1 r1 st1 d2 head2 s2 r2 st2 c :
  decoder_of ts d -> session_ok s1 ->
  RdfListDecoder_decode head1 {| list_session := s1; decoder := d |} = (Ok r1, st1) ->
  rtc decoder_step (decoder st1) d2 -> session_ok s2 ->
  RdfListDecoder_decode head2 {| list_session := s2; decoder := d2 |} = (Ok r2, st2) ->
  In c (cells r1) -> In c (cells r2) -> head1 = head2 /\ r1 = r2.
Proof.
  intros [Hd Ht]%decoder_of_ok Hs1 E1 Hsteps Hs2 E2 Hc1 Hc2.
  pose proof (decode_cases head1 d s1 Hd Hs1) as H1. rewrite E1 in H1.
  destruct H1 as (Hcoll1 & _ & Hledger1).
  assert (decoder_step d (decoder st1)) as Hstep
    by exact (decoder_decodes d head1 s1 _ st1 Hs1 E1).
  destruct (decoder_step_keeps _ _ Hd Hstep) as (Ht1 & Hd1 & _).
  destruct (decoder_steps_keep _ _ Hsteps Hd1) as (Ht2 & Hd2 & Howners).
  pose proof (decode_cases head2 d2 s2 Hd2 Hs2) as H2. rewrite E2 in H2.
  destruct H2 as (Hcoll2 & _ & _ & _ & Hfree & _). rewrite Ht2, Ht1 in Hcoll2.
  assert (owners d2 !! c = Some (head_label head1)) as Hown.
  { apply Howners. destruct Hledger1 as (_ & _ & _ & ->). case_decide as Hn; [done|]. destruct Hn. by apply list_elem_of_In. }
  apply list_elem_of_In in Hc2 as Hc2'. eapply Forall_forall in Hfree; [|exact Hc2'].
  apply owned_false in Hfree. assert (head1 = head2) as <-.
  { rewrite (collection_head _ _ _ _ Hcoll1 Hc1), (collection_head _ _ _ _ Hcoll2 Hc2).
    destruct Hfree; congruence. }
  split; [done|]. by eapply collection_unique.
Qed.

(** Two collections that share the tail [c], one cell each before it. *)
Definition cell (b item : string) (tail : RdfTerm) : list RdfTriple :=
  [{| subject := ResourceBlank (str b); predicate := RDF_FIRST; object := TermIri (str item) |};
   {| subject := ResourceBlank (str b); predicate := RDF_REST; object := tail |}].
Definition shared_graph : list RdfTriple :=
  cell "c" "urn:c" (TermIri RDF_NIL) ++ cell "a" "urn:a" (TermBlank (str "c")) ++ cell "b" "urn:b" (TermBlank (str "c")).

Definition shared_decoder : RdfListDecoder :=
  match RdfListDecoder_new shared_graph sample_session with
  | (Ok d, _) => d
  | _ => {| triples := []; by_blank_subject := ∅; owners := ∅ |}
  end.
Lemma shared_decoder_built : decoder_of shared_graph shared_decoder.
Proof.
  unfold shared_decoder. destruct (RdfListDecoder_new shared_graph sample_session) as [[d|e|] s] eqn:E.
  - exact (decoder_built _ _ _ _ sample_session_ok E).
  - apply (f_equal (fun r => match fst r with Ok _ => true | _ => false end)) in E. vm_compute in E. discriminate E.
  - apply (f_equal (fun r => match fst r with Ok _ => true | _ => false end)) in E. vm_compute in E. discriminate E.
Qed.

Definition decode_in (d : RdfListDecoder) (head : string) : outcome DecodedRdfList * DecoderState :=
  RdfListDecoder_decode (TermBlank (str head)) {| list_session := sample_session; decoder := d |}.

(** The first collection is decoded; the other one is refused. *)
Lemma decode_answers_for_the_graph_witness :
  (exists r, fst (decode_in shared_decoder "a") = Ok r /\ collection shared_graph (TermBlank (str "a")) r) /\
  ~ available (decoder (snd (decode_in shared_decoder "a"))) (TermBlank (str "b")).
Proof.
  split.
  - pose proof (decode_answers_for_the_graph shared_graph shared_decoder (TermBlank (str "a")) sample_session
      shared_decoder_built sample_session_ok) as H.
    unfold decode_in. destruct (RdfListDecoder_decode _ _) as [[r|e|] st] eqn:E.
    + exists r. split; [reflexivity|exact (proj1 H)].
    + apply (f_equal (fun r => match fst r with Ok _ => true | _ => false end)) in E. vm_compute in E. discriminate E.
    + destruct H.
  - pose proof (decode_answers_for_the_graph shared_graph (decoder (snd (decode_in shared_decoder "a")))
      (TermBlank (str "b")) sample_session
      (decoder_moved _ _ _ shared_decoder_built (decoder_decodes _ _ _ _ _ sample_session_ok (surjective_pairing _)))
      sample_session_ok) as H.
    destruct (RdfListDecoder_decode (TermBlank (str "b")) _) as [[r|e|] st] eqn:E.
    + apply (f_equal (fun r => match fst r with Ok _ => true | _ => false end)) in E. vm_compute in E. discriminate E.
    + destruct (proj2 H) as [[_ Hn]|[_ Hr]]; [|exact Hr]. destruct Hn. left.
      apply (f_equal (fun r => match fst r with Err e => Some (code e) | _ => None end)) in E.
      vm_compute in E. injection E as E. symmetry. exact E.
    + destruct H.
Defined.

Definition first_cells (run : outcome DecodedRdfList * DecoderState) : list bytes :=
  match fst run with Ok r => cells r | _ => [] end.

(** Decoding the same head twice. *)
Lemma decoded_collections_share_no_cells_witness :
  exists r r', fst (decode_in shared_decoder "a") = Ok r /\
    fst (decode_in (decoder (snd (decode_in shared_decoder "a"))) "a") = Ok r' /\ r = r'.
Proof.
  destruct (decode_in shared_decoder "a") as [[r|e|] st] eqn:E.
  2, 3: apply (f_equal (fun r => match fst r with Ok _ => true | _ => false end)) in E; vm_compute in E; discriminate E.
  destruct (decode_in (decoder st) "a") as [[r'|e|] st'] eqn:E'.
  2, 3: exfalso; apply (f_equal snd) in E; cbn [snd] in E; subst st;
    apply (f_equal (fun r => match fst r with Ok _ => true | _ => false end)) in E'; vm_compute in E'; discriminate E'.
  exists r, r'. split; [reflexivity|]. split; [cbn [snd]; rewrite E'; reflexivity|].
  apply (decoded_collections_share_no_cells shared_graph shared_decoder (TermBlank (str "a")) sample_session r st
    (decoder st) (TermBlank (str "a")) sample_session r' st' (str "c")).
  - exact shared_decoder_built.
  - exact sample_session_ok.
  - exact E.
  - apply rtc_refl.
  - exact sample_session_ok.
  - exact E'.
  - assert (first_cells (decode_in shared_decoder "a") = [str "a"; str "c"]) as H by (vm_compute; reflexivity).
    rewrite E in H. cbn [first_cells fst] in H. rewrite H. right. left. reflexivity.
  - assert (first_cells (decode_in (decoder (snd (decode_in shared_decoder "a"))) "a") = [str "a"; str "c"]) as H
      by (vm_compute; reflexivity).
    rewrite E in H. cbn [snd] in H. rewrite E' in H. cbn [first_cells fst] in H. rewrite H. right. left. reflexivity.
Defined.
