(* ===== verification/ArenaSound.v ===== *)
(** * Interning keeps the arena consistent

    The invariant of [NativeArenaBuilder], and what each interning operation
    does from a builder that satisfies it: it returns the identifier of exactly
    the requested content, or leaves every table as it was. *)

From S2P Require Import Prelude Bytes Order Error Machine Atomic Limits Schema Scan ScanSound Component ScanComplete Arena ArenaIntern.

(** ** The invariant *)

(** The bytes of the rows a sequence refers to. *)
Definition resolve (entries : list DraftCanonicalRow) (elements : list Z) : option (list bytes) :=
  mapM (fun id => row_bytes <$> get_at entries id) elements.

Definition sequence_ok (entries : list DraftCanonicalRow) (d : DraftSequence) : Prop :=
  exists members, resolve entries (seq_elements d) = Some members /\
    (seq_kind d = CanonicalSet -> StronglySorted ord_lt members).

(** [n] entries exist; a request is either a hit, a new entry or a failure. *)
Definition counted (n : Z) (c : KindCounters) : Prop :=
  unique c = n /\ 0 <= hits c /\ hits c + unique c <= requests c <= U64_MAX.
(** The same while a request is being served. *)
Definition counting (n : Z) (c : KindCounters) : Prop :=
  unique c = n /\ 0 <= hits c /\ hits c + unique c + 1 <= requests c <= U64_MAX.

Definition table_size (k : Kind) (b : NativeArenaBuilder) : Z :=
  match k with
  | KRows => len (items (rows b)) | KSequences => len (items (draft_sequences b))
  | KDocuments => len (draft_documents b) | KAnonymous => len (items (draft_anonymous b))
  end.

Definition sequence_hash (b : NativeArenaBuilder) (k : SequenceKind * bytes) : Z := sequence_bucketer b k.1 k.2.
Definition anonymous_hash (b : NativeArenaBuilder) (k : bytes * bytes) : Z := anonymous_bucketer b k.1 k.2.

Record documents_ok (entries : list DraftDocument) : Prop := {
  document_identifiers : forall i d, get_at entries i = Some d -> doc_identifier d = i;
  document_scopes : NoDup (map doc_scope entries);
  document_size : len entries <= U32_MAX + 1
}.

Definition scan_limits_ok (limits : Limits) : Prop :=
  0 <= max_nesting_depth limits /\ 0 <= max_terms limits <= U64_MAX.

(** The charged bytes are within the limit and below the recorded peak. *)
Definition arena_budget_ok (g : AllocationBudget) : Prop :=
  0 <= budget_used g <= U64_MAX /\ budget_used g <= budget_peak g /\
  exceeds (budget_maximum g) (budget_used g) = false.

Record builder_ok (b : NativeArenaBuilder) : Prop := {
  ok_budget : arena_budget_ok (budget b);
  ok_limits : scan_limits_ok (scan_limits b);
  ok_rows : interner_ok row_identifier row_bytes (row_bucketer b) (rows b);
  ok_scanned : forall d, In d (items (rows b)) ->
    fst (scan_canonical (row_bytes d) (from_limits (scan_limits b))) = Ok (row_category d);
  ok_sequences : interner_ok seq_identifier sequence_key (sequence_hash b) (draft_sequences b);
  ok_elements : forall d, In d (items (draft_sequences b)) -> sequence_ok (items (rows b)) d;
  ok_documents : documents_ok (draft_documents b);
  ok_anonymous : interner_ok anon_identifier anonymous_key (anonymous_hash b) (draft_anonymous b);
  ok_scopes : forall d, In d (items (draft_anonymous b)) ->
    exists doc, get_at (draft_documents b) (anon_document d) = Some doc /\ doc_scope doc = anon_scope d;
  ok_counters : forall k, counted (table_size k b) (kind_counters k (counters b))
}.

(** A fresh builder satisfies it, whatever its hash functions are. *)
Lemma with_configuration_ok limits blimits f g h :
  scan_limits_ok limits -> exceeds (builder_max_memory_bytes blimits) 0 = false ->
  builder_ok (with_configuration limits blimits f g h).
Proof.
  intros Hl Hm. constructor; cbn; try done; try apply interner_empty_ok.
  - constructor; [|constructor|cbn; ulia]. intros i d H%get_at_lt. cbn in H. lia.
  - intros []; cbn; unfold counted; cbn; ulia.
Qed.

(** ** Counters *)

Lemma counting_counted n c : counting n c -> counted n c.
Proof. unfold counting, counted. ulia. Qed.

Lemma wpe_bump_requests msg n c (Q : unit -> KindCounters -> Prop) E :
  counted n c -> E c -> (forall c', counting n c' -> Q tt c') -> wpe (bump_requests msg) Q E c.
Proof.
  intros (Hu & Hh & Hr & Hmax) HE HQ. unfold bump_requests, bump_counter. estep. estep. estep. estep; [done|].
  step. apply checked_add_Some in H as [-> Hle]. estep. apply HQ. unfold counting. cbn. ulia.
Qed.

Lemma wpe_bump_hits msg n c (Q : unit -> KindCounters -> Prop) E :
  counting n c -> 0 <= n -> (forall c', counted n c' -> Q tt c') -> wpe (bump_hits msg) Q E c.
Proof.
  intros (Hu & Hh & Hr & Hmax) Hn HQ. unfold bump_hits, bump_counter, wpe. unfold_monad.
  rewrite checked_add_ok by ulia. cbn. apply HQ. unfold counted. cbn. ulia.
Qed.

Lemma wpe_bump_unique msg n c (Q : unit -> KindCounters -> Prop) E :
  counting n c -> (forall c', counted (n + 1) c' -> Q tt c') -> wpe (bump_unique msg) Q E c.
Proof.
  intros (Hu & Hh & Hr & Hmax) HQ. unfold bump_unique, bump_counter, wpe. unfold_monad.
  rewrite checked_add_ok by ulia. cbn. apply HQ. unfold counted. cbn. ulia.
Qed.

Lemma kind_counters_set k v c : kind_counters k (set_kind_counters k v c) = v.
Proof. by destruct k. Qed.

Lemma kind_counters_other k k' v c : k' <> k -> kind_counters k' (set_kind_counters k v c) = kind_counters k' c.
Proof. by destruct k, k'. Qed.

Lemma builder_ok_counters b k v :
  builder_ok b -> counted (table_size k b) v ->
  builder_ok (set_counters (set_kind_counters k v (counters b)) b).
Proof.
  intros [] Hv. constructor; cbn; try done. intros k'. destruct (decide (k' = k)) as [->|Hne].
  - rewrite kind_counters_set. by destruct k.
  - rewrite kind_counters_other by done. specialize (ok_counters0 k'). by destruct k'.
Qed.

(** An operation that fails leaves everything but the counters alone. *)
Definition unchanged (b : NativeArenaBuilder) (s : ArenaState) : Prop :=
  builder_ok (builder s) /\ exists c, builder s = set_counters c b.

Lemma unchanged_refl s : builder_ok (builder s) -> unchanged (builder s) s.
Proof. intros H. split; [done|]. exists (counters (builder s)). by destruct (builder s). Qed.

Lemma unchanged_counting b k v w :
  builder_ok b -> counting (table_size k b) v ->
  unchanged b {| arena_world := w; builder := set_counters (set_kind_counters k v (counters b)) b |}.
Proof.
  intros Hb Hv. split; [|by eexists]. apply builder_ok_counters; [done|by apply counting_counted].
Qed.

(** ** Growing the tables *)

Lemma mapM_mono {A B} (f g : A -> option B) l k :
  (forall x y, f x = Some y -> g x = Some y) -> mapM f l = Some k -> mapM g l = Some k.
Proof.
  intros Hfg. rewrite !mapM_Some. induction 1; constructor; auto.
Qed.

Lemma resolve_grows entries entries' elements members :
  (forall i d, get_at entries i = Some d -> get_at entries' i = Some d) ->
  resolve entries elements = Some members -> resolve entries' elements = Some members.
Proof.
  intros Hg. apply mapM_mono. intros id x. rewrite !fmap_Some. intros (d & Hd & ->).
  exists d. split; [by apply Hg|done].
Qed.

(** The builder after an entry was interned in one of its tables: [unique]
    counts it, and the budget is charged. *)
Definition grown (k : Kind) (b : NativeArenaBuilder) (b' : NativeArenaBuilder) : Prop :=
  scan_limits b' = scan_limits b /\ builder_limits b' = builder_limits b /\
  row_bucketer b' = row_bucketer b /\ sequence_bucketer b' = sequence_bucketer b /\
  anonymous_bucketer b' = anonymous_bucketer b /\
  (k <> KRows -> rows b' = rows b) /\ (k <> KSequences -> draft_sequences b' = draft_sequences b) /\
  (k <> KDocuments -> draft_documents b' = draft_documents b) /\
  (k <> KAnonymous -> draft_anonymous b' = draft_anonymous b) /\
  forall k', k' <> k -> kind_counters k' (counters b') = kind_counters k' (counters b).

Lemma get_at_grows {D} (l : list D) d i x : get_at l i = Some x -> get_at (l ++ [d]) i = Some x.
Proof. intros H. apply get_at_snoc. by left. Qed.

Lemma grown_counters k b b' :
  builder_ok b -> grown k b b' -> counted (table_size k b') (kind_counters k (counters b')) ->
  forall k', counted (table_size k' b') (kind_counters k' (counters b')).
Proof.
  intros [] (_ & _ & _ & _ & _ & Hr & Hs & Hd & Ha & Hc) Hk k'.
  destruct (decide (k' = k)) as [->|Hne]; [done|]. rewrite Hc by done.
  replace (table_size k' b') with (table_size k' b); [done|].
  destruct k'; cbn; [rewrite Hr|rewrite Hs|rewrite Hd|rewrite Ha]; done.
Qed.

Lemma row_pushed b b' d :
  builder_ok b -> arena_budget_ok (budget b') -> grown KRows b b' -> items (rows b') = items (rows b) ++ [d] ->
  interner_ok row_identifier row_bytes (row_bucketer b) (rows b') ->
  fst (scan_canonical (row_bytes d) (from_limits (scan_limits b))) = Ok (row_category d) ->
  counted (table_size KRows b') (row_counters (counters b')) -> builder_ok b'.
Proof.
  intros Hb Hbud Hg Hitems Ht Hscan Hc. pose proof (grown_counters _ _ _ Hb Hg Hc) as Hcounted.
  destruct Hb, Hg as (El & _ & Er & Es & Ea & _ & Hs & Hd & Han & _).
  specialize (Hs ltac:(done)). specialize (Hd ltac:(done)). specialize (Han ltac:(done)).
  unfold sequence_hash, anonymous_hash in *. constructor; unfold sequence_hash, anonymous_hash;
    rewrite ?El, ?Er, ?Es, ?Ea, ?Hs, ?Hd, ?Han; try done.
  - rewrite Hitems. intros x [Hx|[<-|[]]]%in_app_iff; auto.
  - intros x Hx. destruct (ok_elements0 x Hx) as (members & Hm & Hset). exists members. split; [|done].
    eapply resolve_grows; [|exact Hm]. intros i y. rewrite Hitems. apply get_at_grows.
Qed.

Lemma sequence_pushed b b' d :
  builder_ok b -> arena_budget_ok (budget b') -> grown KSequences b b' -> items (draft_sequences b') = items (draft_sequences b) ++ [d] ->
  interner_ok seq_identifier sequence_key (sequence_hash b) (draft_sequences b') ->
  sequence_ok (items (rows b)) d ->
  counted (table_size KSequences b') (sequence_counters (counters b')) -> builder_ok b'.
Proof.
  intros Hb Hbud Hg Hitems Ht Hd Hc. pose proof (grown_counters _ _ _ Hb Hg Hc) as Hcounted.
  destruct Hb, Hg as (El & _ & Er & Es & Ea & Hr & _ & Hdoc & Han & _).
  specialize (Hr ltac:(done)). specialize (Hdoc ltac:(done)). specialize (Han ltac:(done)).
  unfold sequence_hash, anonymous_hash in *. constructor; unfold sequence_hash, anonymous_hash;
    rewrite ?El, ?Er, ?Es, ?Ea, ?Hr, ?Hdoc, ?Han; try done.
  rewrite Hitems. intros x [Hx|[<-|[]]]%in_app_iff; auto.
Qed.

Lemma document_pushed b b' scope :
  builder_ok b -> arena_budget_ok (budget b') -> grown KDocuments b b' -> len (draft_documents b) <= U32_MAX ->
  draft_documents b' = draft_documents b ++ [mkDraftDocument (len (draft_documents b)) scope] ->
  ~ In scope (map doc_scope (draft_documents b)) ->
  counted (table_size KDocuments b') (document_counters (counters b')) -> builder_ok b'.
Proof.
  intros Hb Hbud Hg Hlen Hitems Hfresh Hc. pose proof (grown_counters _ _ _ Hb Hg Hc) as Hcounted.
  destruct Hb, Hg as (El & _ & Er & Es & Ea & Hr & Hs & _ & Han & _).
  specialize (Hr ltac:(done)). specialize (Hs ltac:(done)). specialize (Han ltac:(done)).
  unfold sequence_hash, anonymous_hash in *. constructor; unfold sequence_hash, anonymous_hash;
    rewrite ?El, ?Er, ?Es, ?Ea, ?Hr, ?Hs, ?Han, ?Hitems; try done.
  - destruct ok_documents0. constructor.
    + intros i x [Hx|[-> ->]]%get_at_snoc; auto.
    + rewrite map_app. apply NoDup_app. split; [done|]. split; [|apply NoDup_singleton].
      by intros x Hx%list_elem_of_In ->%list_elem_of_singleton.
    + rewrite length_app. cbn. ulia.
  - intros x Hx. destruct (ok_scopes0 x Hx) as (doc & Hdoc & E). exists doc. split; [by apply get_at_grows|done].
Qed.

Lemma anonymous_pushed b b' d :
  builder_ok b -> arena_budget_ok (budget b') -> grown KAnonymous b b' -> items (draft_anonymous b') = items (draft_anonymous b) ++ [d] ->
  interner_ok anon_identifier anonymous_key (anonymous_hash b) (draft_anonymous b') ->
  (exists doc, get_at (draft_documents b) (anon_document d) = Some doc /\ doc_scope doc = anon_scope d) ->
  counted (table_size KAnonymous b') (anonymous_counters (counters b')) -> builder_ok b'.
Proof.
  intros Hb Hbud Hg Hitems Ht Hd Hc. pose proof (grown_counters _ _ _ Hb Hg Hc) as Hcounted.
  destruct Hb, Hg as (El & _ & Er & Es & Ea & Hr & Hs & Hdoc & _).
  specialize (Hr ltac:(done)). specialize (Hs ltac:(done)). specialize (Hdoc ltac:(done)).
  unfold sequence_hash, anonymous_hash in *. constructor; unfold sequence_hash, anonymous_hash;
    rewrite ?El, ?Er, ?Es, ?Ea, ?Hr, ?Hs, ?Hdoc; try done.
  rewrite Hitems. intros x [Hx|[<-|[]]]%in_app_iff; auto.
Qed.

(** ** The checks before an entry is pushed *)

Lemma owp_check_next_count current maximum name message (Q : unit -> Prop) :
  Q tt -> owp (check_next_count current maximum name message) Q.
Proof. intros HQ. unfold check_next_count. repeat step. done. Qed.

Lemma owp_try_from_index label i (Q : Z -> Prop) :
  (i <= U32_MAX -> Q i) -> owp (try_from_index label i) Q.
Proof. intros HQ. unfold try_from_index. step. apply try_from_Some in H as [-> ?]. by apply HQ. Qed.

Lemma owp_checked_size_sum values (Q : Z -> Prop) :
  Forall (fun v => 0 <= v) values -> (forall n, 0 <= n -> Q n) -> owp (checked_size_sum values) Q.
Proof.
  intros Hv HQ. unfold checked_size_sum. eapply owp_mono; cycle 1.
  - apply (owp_for_each _ (fun rest total => 0 <= total /\ Forall (fun v => 0 <= v) rest)); [done|].
    intros y rest x [Hx Hy]. apply Forall_cons in Hy as [Hy Hrest]. step.
    apply checked_add_Some in H as [-> _]. split; [lia|done].
  - intros n [Hn _]. by apply HQ.
Qed.

(** The size of an entry: its bytes, the draft and its identifier. *)
Lemma owp_entry_size n draft_bytes (Q : Z -> Prop) :
  0 <= n -> 0 <= draft_bytes -> (forall m, 0 <= m -> Q m) ->
  owp (checked_size_sum [n; draft_bytes; ID_BYTES]) Q.
Proof. intros Hn Hd. apply owp_checked_size_sum. rewrite !Forall_cons. by split_and!. Qed.

Lemma owp_checked_allocation_bytes size count (Q : Z -> Prop) :
  0 <= size -> 0 <= count -> (forall n, 0 <= n -> Q n) -> owp (checked_allocation_bytes size count) Q.
Proof.
  intros Hs Hc HQ. unfold checked_allocation_bytes. step. apply checked_mul_Some in H as [-> _]. apply HQ. nia.
Qed.

Lemma owp_plan g additional (Q : Z -> Prop) :
  arena_budget_ok g -> 0 <= additional ->
  (forall next, arena_budget_ok (commit next g) -> Q next) -> owp (plan g additional) Q.
Proof.
  intros ([Hu _] & Hp & _) Ha HQ. unfold plan. repeat step.
  apply try_from_Some in H as [-> _]. apply checked_add_Some in H0 as [-> Hle]. apply HQ.
  unfold arena_budget_ok, commit. cbn. repeat split; try done; lia.
Qed.

(** A fresh entry: reserve, push, charge and count. *)
Lemma wpe_on_counters k (m : M KindCounters unit) (Q : unit -> NativeArenaBuilder -> Prop) E b :
  wpe m (fun _ v => Q tt (set_counters (set_kind_counters k v (counters b)) b))
        (fun v => E (set_counters (set_kind_counters k v (counters b)) b)) (kind_counters k (counters b)) ->
  wpe (on_counters k m) Q E b.
Proof. intros H. apply wpe_zoom. eapply wpe_mono; [exact H| |done]. by intros []. Qed.

Lemma wpe_arena_world (m : M World unit) (Q : unit -> ArenaState -> Prop) E s :
  wpe m (fun _ w => Q tt {| arena_world := w; builder := builder s |})
        (fun w => E {| arena_world := w; builder := builder s |}) (arena_world s) ->
  wpe (on_arena_world m) Q E s.
Proof. intros H. apply wpe_zoom. eapply wpe_mono; [exact H| |done]. by intros []. Qed.

Lemma unchanged_at b v k w :
  builder_ok b -> counted (table_size k b) v ->
  unchanged b {| arena_world := w; builder := set_counters (set_kind_counters k v (counters b)) b |}.
Proof. intros Hb Hv. split; [by apply builder_ok_counters|by eexists]. Qed.

Lemma grown_counters_refl k b v : grown k b (set_counters (set_kind_counters k v (counters b)) b).
Proof. unfold grown. cbn. splits; try done. intros k' Hk. by apply kind_counters_other. Qed.

(** The builder of the goal has grown in one table only. *)
Ltac assert_grown k b :=
  match goal with
  | |- context [{| arena_world := _; builder := ?b' |}] =>
      assert (grown k b b') as Hg
        by (unfold grown; cbn; splits; try done; intros []; done)
  end.

(** ** Interning rows *)

(** Serving a request: count it first; it fails without a trace or goes on. *)
Lemma wpe_request k msg (m : M ArenaState Z) s (Q : Z -> ArenaState -> Prop) :
  builder_ok (builder s) ->
  (forall v, counting (table_size k (builder s)) v ->
     let b := set_counters (set_kind_counters k v (counters (builder s))) (builder s) in
     wpe m Q (unchanged (builder s)) {| arena_world := arena_world s; builder := b |}) ->
  wpe (on_builder (on_counters k (bump_requests msg));; m) Q (unchanged (builder s)) s.
Proof.
  intros Hok Hm. estep. apply wpe_zoom, wpe_on_counters.
  apply (wpe_bump_requests _ (table_size k (builder s))).
  - by apply ok_counters.
  - apply unchanged_at; [done|]. by apply ok_counters.
  - intros v Hv. by apply Hm.
Qed.

Lemma kind_set_set k v v' c :
  set_kind_counters k v (set_kind_counters k v' c) = set_kind_counters k v c.
Proof. by destruct k, c. Qed.

(** A hit counts itself and changes nothing else. *)
Lemma wpe_hit k msg id b v w (Q : Z -> ArenaState -> Prop) E :
  counting (table_size k b) v ->
  (forall v', counted (table_size k b) v' ->
     Q id {| arena_world := w; builder := set_counters (set_kind_counters k v' (counters b)) b |}) ->
  wpe (on_builder (on_counters k (bump_hits msg));; mret id) Q E
    {| arena_world := w; builder := set_counters (set_kind_counters k v (counters b)) b |}.
Proof.
  intros Hv HQ. estep. apply wpe_zoom, wpe_on_counters. cbn. rewrite kind_counters_set.
  apply (wpe_bump_hits _ (table_size k b)); [done|destruct k; cbn; lia|].
  intros v' Hv'. specialize (HQ v' Hv'). by rewrite kind_set_set.
Qed.

(** The last steps of a miss: charge the budget and count the new entry. *)
Lemma wpe_publish k msg next id n v w b (Q : Z -> ArenaState -> Prop) E :
  kind_counters k (counters b) = v -> counting n v ->
  (forall v', counted (n + 1) v' ->
     Q id {| arena_world := w;
             builder := set_counters (set_kind_counters k v' (counters b)) (set_budget (commit next (budget b)) b) |}) ->
  wpe (on_builder (commit_budget next);; on_builder (on_counters k (bump_unique msg));; mret id) Q E
    {| arena_world := w; builder := b |}.
Proof.
  intros Hk Hv HQ. estep. apply wpe_zoom. unfold commit_budget. estep. estep. estep.
  estep. apply wpe_zoom, wpe_on_counters. cbn. rewrite Hk.
  apply (wpe_bump_unique _ n); [done|]. intros v' Hv'. by apply HQ.
Qed.

(** The builder once entry [t'] was filed and counted. *)
Definition published {D} (k : Kind) (upd : Interner D -> NativeArenaBuilder -> NativeArenaBuilder)
    (t' : Interner D) (next : Z) (v v' : KindCounters) (b : NativeArenaBuilder) : NativeArenaBuilder :=
  let pushed := upd t' (set_counters (set_kind_counters k v (counters b)) b) in
  set_counters (set_kind_counters k v' (counters pushed)) (set_budget (commit next (budget pushed)) pushed).

(** The reservations and the pushes of a miss. *)
Lemma wpe_push_entry {D C} k (proj : NativeArenaBuilder -> Interner D) upd
    (identifier : D -> Z) (content : D -> C) (key : C -> Z) d h id next m1 m2 m3 m4 m5 m6 v w b
    (Q : Z -> ArenaState -> Prop) :
  builder_ok b -> counting (table_size k b) v ->
  (forall c, proj (set_counters c b) = proj b) ->
  (forall t c, kind_counters k (counters (upd t (set_counters c b))) = kind_counters k c) ->
  interner_ok identifier content key (proj b) -> identifier d = id -> id = len (items (proj b)) ->
  id <= U32_MAX -> ~ In (content d) (map content (items (proj b))) -> h = key (content d) ->
  (forall w' t' v', items t' = items (proj b) ++ [d] -> interner_ok identifier content key t' ->
     counted (table_size k b + 1) v' ->
     Q id {| arena_world := w'; builder := published k upd t' next v v' b |}) ->
  wpe (on_arena_world (reserve_entry h (proj b) m1 m2 m3 m4);;
       on_builder (zoom proj upd (push_interned d h id m5));;
       on_builder (commit_budget next);; on_builder (on_counters k (bump_unique m6));; mret id) Q (unchanged b)
    {| arena_world := w; builder := set_counters (set_kind_counters k v (counters b)) b |}.
Proof.
  intros Hb Hv Hproj Hkind Ht Hd -> Hid Hfresh -> HQ.
  estep. apply wpe_arena_world, wpe_reserve_entry; [|intros; by apply unchanged_counting].
  intros w'. estep. apply wpe_zoom, wpe_zoom. cbn [builder]. rewrite Hproj.
  destruct (push_interned_spec identifier content key (proj b) d m5 Ht Hd Hid Hfresh) as (t' & Hpush & Hitems & Ht').
  unfold wpe at 1. rewrite Hpush. apply (wpe_publish k _ _ _ (table_size k b) v); [|done|].
  - cbn. by rewrite Hkind, kind_counters_set.
  - intros v' Hv'. by apply (HQ w' t' v').
Qed.

Lemma scan_row_no_panic limits data :
  is_bytes data -> len data <= USIZE_MAX -> scan_limits_ok limits ->
  fst (scan_canonical data (from_limits limits)) <> Panic.
Proof.
  intros Hb Hl [Hd Ht]. apply (scan_canonical_cases data (from_limits limits) CIri); try done.
  - apply from_limits_ok; lia.
  - cbn. lia.
Qed.

Definition row_interned (data : bytes) (b : NativeArenaBuilder) (id : Z) (s : ArenaState) : Prop :=
  builder_ok (builder s) /\ grown KRows b (builder s) /\
  interned row_bytes (items (rows b)) (items (rows (builder s))) data id.

Lemma wpe_intern_canonical_row data s :
  builder_ok (builder s) -> is_bytes data -> len data <= USIZE_MAX ->
  wpe (intern_canonical_row data) (row_interned data (builder s)) (unchanged (builder s)) s.
Proof.
  intros Hok Hb Hl. pose proof Hok as [Hbud Hlim Hrows Hscan _ _ _ _ _]. unfold intern_canonical_row.
  estep. estep. estep. estep; [by apply unchanged_refl|].
  apply owp_intro; [by apply scan_row_no_panic|]. intros category Hcat.
  apply wpe_request; [done|]. intros v Hv. cbv zeta. estep. estep; [by apply unchanged_counting|].
  destruct (find_interned_spec row_identifier row_bytes (row_bucketer (builder s))
    "native canonical row id is out of bounds" "native canonical row identifier is inconsistent"
    (fun d => bytes_eqb (row_bytes d) data) (rows (builder s)) data Hrows) as (found & Hfound & Hspec).
  { intros d _. apply bytes_eqb_eq. }
  unfold row_draft. rewrite Hfound. cbn [owp]. destruct found as [id|].
  - apply wpe_hit; [done|]. intros v' Hv'. destruct Hspec as (d & Hd & Hdata).
    split; [by apply builder_ok_counters|]. split; [apply grown_counters_refl|].
    by eapply interned_present.
  - estep. estep; [by apply unchanged_counting|]. apply owp_check_next_count.
    estep. estep; [by apply unchanged_counting|]. apply owp_try_from_index. intros Hid.
    estep. estep; [by apply unchanged_counting|].
    apply owp_entry_size; [lia|done|]. intros n Hn.
    estep. estep; [by apply unchanged_counting|]. apply owp_plan; [done..|]. intros next Hnext.
    estep. apply wpe_arena_world, wpe_try_reserve; [|by apply unchanged_counting].
    apply (wpe_push_entry KRows _ _ row_identifier row_bytes (row_bucketer (builder s))); try done.
    intros w' t' v' Hitems Ht' Hv'. assert_grown KRows (builder s).
    split; [|split; [exact Hg|cbn; rewrite Hitems; by apply (interned_fresh row_bytes)]].
    eapply (row_pushed (builder s)); try done. unfold published. cbn. by rewrite Hitems, length_app, Nat2Z.inj_add.
Qed.

(** ** Interning sequences *)

(** The bytes of a row that exists. *)
Definition bytes_of (entries : list DraftCanonicalRow) (id : Z) : bytes :=
  default [] (row_bytes <$> get_at entries id).

Lemma resolve_Some entries elements members :
  resolve entries elements = Some members <->
  (forall id, In id elements -> exists d, get_at entries id = Some d) /\ members = map (bytes_of entries) elements.
Proof.
  unfold resolve. rewrite mapM_Some. revert members. induction elements as [|id elements IH]; intros members.
  - split; [intros ->%Forall2_nil_inv_l; by split|intros [_ ->]; constructor].
  - split.
    + intros (m & ms & Hm & Hms & ->)%Forall2_cons_inv_l. apply IH in Hms as [Hall ->].
      apply fmap_Some in Hm as (d & Hd & ->). split; [intros x [<-|Hx]; [by exists d|by apply Hall]|].
      cbn. unfold bytes_of at 2. by rewrite Hd.
    + intros [Hall ->]. cbn. constructor.
      * destruct (Hall id) as [d Hd]; [by left|]. unfold bytes_of. by rewrite Hd.
      * apply IH. split; [|done]. intros x Hx. apply Hall. by right.
Qed.

Lemma bytes_of_inj entries x y :
  NoDup (map row_bytes entries) -> (exists d, get_at entries x = Some d) -> (exists d, get_at entries y = Some d) ->
  bytes_of entries x = bytes_of entries y -> x = y.
Proof.
  intros Hn [d Hd] [e He]. unfold bytes_of. rewrite Hd, He. by apply (get_at_key_inj row_bytes entries _ _ _ _ Hn).
Qed.

(** What a sequence of the given kind stands for. *)
Definition canonical_members (kind : SequenceKind) (members : list bytes) : list bytes :=
  match kind with Ordered => members | CanonicalSet => vec_dedup (sort_by (fun m => m) members) end.

Lemma canonical_members_ascending members :
  StronglySorted ord_lt (canonical_members CanonicalSet members) /\
  forall m, In m (canonical_members CanonicalSet members) <-> In m members.
Proof.
  cbn. destruct (vec_dedup_spec (fun m : bytes => m) (sort_by (fun m => m) members)) as [H1 H2]; [done| |].
  - apply sort_by_sorted.
  - rewrite map_id in H1. split; [done|]. intros m. by rewrite H2, In_sort_by.
Qed.

Lemma canonical_elements_spec b kind elements members :
  NoDup (map row_bytes (items (rows b))) -> resolve (items (rows b)) elements = Some members ->
  exists canonical, canonical_elements b kind elements = Ok canonical /\
    resolve (items (rows b)) canonical = Some (canonical_members kind members).
Proof.
  intros Hn [Hall ->]%resolve_Some. set (entries := items (rows b)) in *. set (key := bytes_of entries) in *.
  destruct kind; cbn [canonical_elements canonical_members]; fold entries.
  { exists elements. split; [done|]. by apply resolve_Some. }
  assert (mapM (fun id => row ← index_at entries id; mret (row_bytes row, id)) elements =
          Ok (map (fun id => (key id, id)) elements)) as ->.
  { clear Hn. induction elements as [|id elements IH]; [done|]. cbn.
    destruct (Hall id) as [d Hd]; [by left|]. unfold index_at. rewrite Hd. cbn. cbn in IH.
    unfold mbind, outcome_mbind in *. unfold index_at in IH. rewrite IH; [|intros x Hx; apply Hall; by right]. cbn.
    unfold key at 2, bytes_of. by rewrite Hd. }
  set (keyed := map (fun id => (key id, id)) elements).
  set (sorted := map snd (sort_by fst keyed)).
  assert (forall id, In id sorted <-> In id elements) as Hin.
  { intros id. unfold sorted. rewrite in_map_iff. setoid_rewrite In_sort_by. unfold keyed. split.
    - intros ([k x] & <- & (y & [= <- <-] & Hy)%in_map_iff). done.
    - intros Hid. exists (key id, id). split; [done|]. by apply (in_map (fun id => (key id, id))). }
  assert (map key sorted = map fst (sort_by fst keyed)) as Hkeys.
  { unfold sorted. rewrite map_map. apply map_ext_in. intros [k x] Hx%In_sort_by.
    unfold keyed in Hx. by apply in_map_iff in Hx as (y & [= <- <-] & _). }
  destruct (vec_dedup_spec key sorted) as [Hasc Hmem].
  { intros x y Hx%Hin Hy%Hin. apply (bytes_of_inj entries); auto. }
  { rewrite Hkeys. apply sort_by_sorted. }
  exists (vec_dedup sorted). split; [done|]. apply resolve_Some. split.
  { intros id Hid%Hmem%Hin. by apply Hall. }
  destruct (canonical_members_ascending (map key elements)) as [Hasc' Hmem'].
  apply ascending_unique; [done|done|]. intros m. rewrite (Hmem' m), !in_map_iff.
  setoid_rewrite Hmem. by setoid_rewrite Hin.
Qed.

Lemma lookups_resolve b elements :
  builder_ok b -> owp (mapM (row_draft b) elements) (fun _ => exists members, resolve (items (rows b)) elements = Some members).
Proof.
  intros Hb. assert (forall l, owp (mapM (row_draft b) l) (fun _ =>
    forall id, In id l -> exists d, get_at (items (rows b)) id = Some d)) as H.
  { intros l. induction l as [|id l IH]; [by intros ? []|]. cbn [mapM]. apply owp_bind.
    apply owp_draft; [apply (ok_rows b Hb)|]. intros d Hd. apply owp_bind. eapply owp_mono; [|exact IH].
    intros ds Hds. intros x [<-|Hx]; [by exists d|by apply Hds]. }
  eapply owp_mono; [|apply H]. intros ds Hall. exists (map (bytes_of (items (rows b))) elements). by apply resolve_Some.
Qed.

(** The entry at [id] stands for the requested sequence, and no other does. *)
Definition sequence_interned (kind : SequenceKind) (elements : list Z) (b : NativeArenaBuilder) (id : Z)
    (s : ArenaState) : Prop :=
  builder_ok (builder s) /\ grown KSequences b (builder s) /\
  exists members canonical, resolve (items (rows b)) elements = Some members /\
    resolve (items (rows b)) canonical = Some (canonical_members kind members) /\
    interned sequence_key (items (draft_sequences b)) (items (draft_sequences (builder s))) (kind, canonical) id.

Lemma wpe_intern_sequence kind elements s :
  builder_ok (builder s) ->
  wpe (intern_sequence kind elements) (sequence_interned kind elements (builder s)) (unchanged (builder s)) s.
Proof.
  intros Hok. pose proof Hok as [Hbud _ Hrows _ Hseq _ _ _ _]. unfold intern_sequence.
  estep. estep. estep. estep; [by apply unchanged_refl|]. step. clear H.
  estep. estep; [by apply unchanged_refl|]. estep. estep; [by apply unchanged_refl|].
  eapply owp_mono; [|by apply lookups_resolve]. cbn beta. intros _ [members Hmem].
  apply wpe_request; [done|]. intros v Hv. cbv zeta.
  estep. estep; [by apply unchanged_counting|]. apply owp_checked_allocation_bytes; [done|lia|]. intros n Hn.
  estep. estep; [by apply unchanged_counting|]. apply owp_plan; [done..|]. intros _ _.
  estep. apply wpe_arena_world, wpe_try_reserve; [|by apply unchanged_counting].
  destruct (canonical_elements_spec (builder s) kind elements members (interner_distinct _ _ _ _ Hrows) Hmem)
    as (canonical & Hcan & Hres).
  estep. estep; [by apply unchanged_counting|]. rewrite Hcan. cbn [owp].
  destruct (find_interned_spec seq_identifier sequence_key (sequence_hash (builder s))
    "native sequence id is out of bounds" "native sequence identifier is inconsistent"
    (fun d => bool_decide (seq_kind d = kind) && bool_decide (seq_elements d = canonical))
    (draft_sequences (builder s)) (kind, canonical) Hseq) as (found & Hfound & Hspec).
  { intros d _. rewrite andb_true_iff, !bool_decide_eq_true. unfold sequence_key. naive_solver. }
  unfold sequence_hash in Hfound. cbn [fst snd] in Hfound.
  estep. estep; [by apply unchanged_counting|]. unfold sequence_draft. rewrite Hfound. cbn [owp].
  destruct found as [id|].
  - apply wpe_hit; [done|]. intros v' Hv'. destruct Hspec as (d & Hd & Hkey).
    split; [by apply builder_ok_counters|]. split; [apply grown_counters_refl|].
    exists members, canonical. split; [done|]. split; [done|]. by eapply interned_present.
  - estep. estep; [by apply unchanged_counting|]. apply owp_check_next_count.
    estep. estep; [by apply unchanged_counting|]. apply owp_try_from_index. intros Hid.
    estep. estep; [by apply unchanged_counting|]. apply owp_entry_size; [lia|done|]. intros m Hm.
    estep. estep; [by apply unchanged_counting|]. apply owp_plan; [done..|]. intros next Hnext.
    apply (wpe_push_entry KSequences _ _ seq_identifier sequence_key (sequence_hash (builder s))); try done.
    intros w' t' v' Hitems Ht' Hv'. assert_grown KSequences (builder s).
    split; [|split; [exact Hg|exists members, canonical; split; [done|split; [done|]]]].
    + eapply (sequence_pushed (builder s)); try done.
      * exists (canonical_members kind members). split; [done|]. cbn. intros ->. apply canonical_members_ascending.
      * unfold published. cbn. by rewrite Hitems, length_app, Nat2Z.inj_add.
    + cbn. rewrite Hitems. by apply (interned_fresh sequence_key).
Qed.

(** ** Documents and anonymous identities *)

Definition document_interned (scope : bytes) (b : NativeArenaBuilder) (id : Z) (s : ArenaState) : Prop :=
  builder_ok (builder s) /\ grown KDocuments b (builder s) /\
  interned doc_scope (draft_documents b) (draft_documents (builder s)) scope id.

Lemma wpe_intern_document_scope scope s :
  builder_ok (builder s) ->
  wpe (intern_document_scope scope) (document_interned scope (builder s)) (unchanged (builder s)) s.
Proof.
  intros Hok. pose proof Hok as [Hbud _ _ _ _ _ [Hid Hn Hsize] _ _]. unfold intern_document_scope.
  estep. estep. apply wpe_request; [done|]. intros v Hv. cbv zeta.
  destruct (List.find _ _) as [d|] eqn:Hfind.
  - apply List.find_some in Hfind as [(i & Hi)%In_get_at Hd]. apply bytes_eqb_eq in Hd. rewrite (Hid _ _ Hi).
    apply wpe_hit; [done|]. intros v' Hv'. split; [by apply builder_ok_counters|].
    split; [apply grown_counters_refl|]. by eapply interned_present.
  - assert (~ In scope (map doc_scope (draft_documents (builder s)))) as Hfresh.
    { intros (d & Hd & Hin)%in_map_iff. apply (List.find_none _ _ Hfind) in Hin.
      cbn in Hin. by rewrite Hd, bytes_eqb_refl in Hin. }
    estep. estep; [by apply unchanged_counting|]. apply owp_check_next_count.
    estep. estep; [by apply unchanged_counting|]. apply owp_try_from_index. intros Hlen.
    estep. estep; [by apply unchanged_counting|]. apply owp_plan; [done..|]. intros next Hnext.
    estep. apply wpe_arena_world, wpe_try_reserve; [|by apply unchanged_counting].
    estep. apply wpe_zoom, wpe_zoom. unfold wpe at 1.
    apply (wpe_publish KDocuments _ _ _ (table_size KDocuments (builder s)) v); [done..|].
    intros v' Hv'. assert_grown KDocuments (builder s).
    split; [|split; [exact Hg|by apply (interned_fresh doc_scope _ (mkDraftDocument _ scope))]].
    eapply (document_pushed (builder s)); try done. cbn. by rewrite length_app, Nat2Z.inj_add.
Qed.

Definition anonymous_interned (document : Z) (key : bytes) (b : NativeArenaBuilder) (id : Z) (s : ArenaState)
    : Prop :=
  builder_ok (builder s) /\ grown KAnonymous b (builder s) /\
  exists doc, get_at (draft_documents b) document = Some doc /\
    interned anonymous_key (items (draft_anonymous b)) (items (draft_anonymous (builder s))) (doc_scope doc, key) id.

Lemma wpe_intern_anonymous document key s :
  builder_ok (builder s) ->
  wpe (intern_anonymous document key) (anonymous_interned document key (builder s)) (unchanged (builder s)) s.
Proof.
  intros Hok. pose proof Hok as [Hbud _ _ _ _ _ Hdoc Han _]. unfold intern_anonymous.
  estep. estep. estep. estep; [by apply unchanged_refl|]. clear H. estep. estep; [by apply unchanged_refl|]. step.
  clear H. estep. estep; [by apply unchanged_refl|]. clear H. estep. estep; [by apply unchanged_refl|].
  apply owp_draft; [apply Hdoc|]. intros doc Hd.
  apply wpe_request; [done|]. intros v Hv. cbv zeta.
  destruct (find_interned_spec anon_identifier anonymous_key (anonymous_hash (builder s))
    "native anonymous id is out of bounds" "native anonymous identifier is inconsistent"
    (fun d => bytes_eqb (anon_scope d) (doc_scope doc) && bytes_eqb (anon_key d) key)
    (draft_anonymous (builder s)) (doc_scope doc, key) Han) as (found & Hfound & Hspec).
  { intros d _. rewrite andb_true_iff, !bytes_eqb_eq. unfold anonymous_key. split; [by intros [-> ->]|by intros [= -> ->]]. }
  unfold anonymous_hash in Hfound. cbn [fst snd] in Hfound.
  estep. estep; [by apply unchanged_counting|]. unfold anonymous_draft. rewrite Hfound. cbn [owp].
  destruct found as [id|].
  - apply wpe_hit; [done|]. intros v' Hv'. destruct Hspec as (d & Hat & Hkey).
    split; [by apply builder_ok_counters|]. split; [apply grown_counters_refl|].
    exists doc. split; [done|]. by eapply interned_present.
  - estep. estep; [by apply unchanged_counting|]. apply owp_check_next_count.
    estep. estep; [by apply unchanged_counting|]. apply owp_try_from_index. intros Hid.
    estep. estep; [by apply unchanged_counting|]. apply owp_entry_size; [lia|done|]. intros m Hm.
    estep. estep; [by apply unchanged_counting|]. apply owp_plan; [done..|]. intros next Hnext.
    estep. apply wpe_arena_world, wpe_try_reserve; [|by apply unchanged_counting].
    apply (wpe_push_entry KAnonymous _ _ anon_identifier anonymous_key (anonymous_hash (builder s))); try done.
    intros w' t' v' Hitems Ht' Hv'. assert_grown KAnonymous (builder s).
    split; [|split; [exact Hg|exists doc; split; [done|]]].
    + eapply (anonymous_pushed (builder s)); try done; [by exists doc|].
      unfold published. cbn. by rewrite Hitems, length_app, Nat2Z.inj_add.
    + cbn. rewrite Hitems. by apply (interned_fresh anonymous_key).
Qed.
