(* ===== verification/ArenaFreeze.v ===== *)
(** * Publication is canonical

    [freeze] sorts the tables and renumbers the identifiers.  The published
    tables denote exactly what was interned, in one order: they do not depend
    on the order of insertion or on the hash functions. *)

From S2P Require Import Prelude Bytes Order Error Machine Atomic Limits Schema Scan ScanSound Component ScanComplete Arena ArenaIntern ArenaSound.

(** ** Renumbering *)

Lemma get_at_map {A B} (f : A -> B) l i : get_at (map f l) i = f <$> get_at l i.
Proof.
  unfold get_at. rewrite length_map. case_match; [|done].
  change (map f l) with (f <$> l). by rewrite list_lookup_fmap.
Qed.

Lemma get_at_set {A} (l : list A) i j v :
  0 <= i < len l -> get_at (<[Z.to_nat i := v]> l) j = if decide (j = i) then Some v else get_at l j.
Proof.
  intros Hi. unfold get_at. rewrite length_insert. case_decide as E.
  - subst. rewrite (proj2 (Z.leb_le 0 i)), (proj2 (Z.ltb_lt i _)) by lia. cbn.
    apply list_lookup_insert_eq. lia.
  - destruct (Z.leb_spec 0 j); [|done]. cbn. destruct (Z.ltb_spec j (len l)); [|done].
    apply list_lookup_insert_ne. lia.
Qed.

Section Remap.
Context {D : Type} (identifier : D -> Z) (label : string) (l sorted : list D).
Hypothesis identifiers : forall i d, get_at l i = Some d -> identifier d = i.
Hypothesis sorted_perm : sorted ≡ₚ l.
Hypothesis size : len l <= U32_MAX + 1.

Lemma remap_loop pre post remap :
  sorted = pre ++ post -> len remap = len l ->
  (forall i d, get_at pre i = Some d -> get_at remap (identifier d) = Some i) ->
  exists remap' n, ofor_each (remap_entry identifier label) post (remap, len pre) = Ok (remap', n) /\
    len remap' = len l /\
    forall i d, get_at sorted i = Some d -> get_at remap' (identifier d) = Some i.
Proof.
  revert pre remap. induction post as [|d post IH]; intros pre remap Hsorted Hlen Hpre.
  - exists remap, (len pre). rewrite app_nil_r in Hsorted. by subst pre.
  - assert (length sorted = length l) as Hsize by (by rewrite sorted_perm).
    assert (exists i, get_at l i = Some d) as [i Hi].
    { apply In_get_at, list_elem_of_In. rewrite <- sorted_perm, Hsorted. apply elem_of_app. right. by left. }
    pose proof (identifiers _ _ Hi) as Hid. pose proof (get_at_lt _ _ _ Hi) as Hin.
    cbn [ofor_each remap_entry]. unfold try_from_index.
    rewrite try_from_ok by (rewrite Hsorted, length_app in Hsize; cbn in Hsize; lia). cbn.
    unfold index_set. rewrite Hid, Hlen, (proj2 (Z.leb_le 0 i)), (proj2 (Z.ltb_lt i _)) by lia. cbn.
    replace (len pre + 1) with (len (pre ++ [d])) by (rewrite length_app; cbn; lia).
    apply IH; [by rewrite <- app_assoc|by rewrite length_insert|].
    intros j e [He|[-> ->]]%get_at_snoc; rewrite get_at_set by lia.
    + case_decide as E; [|by apply Hpre]. exfalso.
      assert (NoDup sorted) as Hn.
      { rewrite sorted_perm. apply NoDup_ListNoDup, (NoDup_map_inv identifier), NoDup_ListNoDup.
        apply NoDup_alt. intros a b x Ha Hb. change (map identifier l) with (identifier <$> l) in Ha, Hb.
        rewrite list_lookup_fmap in Ha, Hb. apply fmap_Some in Ha as (y & Ha & ->), Hb as (z & Hb & Hyz).
        assert (get_at l (Z.of_nat a) = Some y) as Ha' by (apply get_at_Some; rewrite Nat2Z.id; split; [lia|done]).
        assert (get_at l (Z.of_nat b) = Some z) as Hb' by (apply get_at_Some; rewrite Nat2Z.id; split; [lia|done]).
        apply identifiers in Ha', Hb'. lia. }
      assert (e = d) as ->.
      { assert (In e l) as (k & Hk)%In_get_at.
        { apply list_elem_of_In. rewrite <- sorted_perm, Hsorted. apply elem_of_app. left.
          by eapply list_elem_of_In, get_at_In. }
        pose proof (identifiers _ _ Hk) as Hek. rewrite Hek in E. rewrite E in Hk. congruence. }
      rewrite Hsorted in Hn. apply NoDup_app in Hn as (_ & Hn & _).
      apply (Hn d); [by eapply list_elem_of_In, get_at_In|by left].
    + by rewrite decide_True.
Qed.

(** The renumbering sends the old identifier of every entry to its new place. *)
Lemma build_remap_spec :
  exists remap, build_remap identifier label sorted = Ok remap /\
    forall id d, get_at l id = Some d -> exists i, get_at remap id = Some i /\ get_at sorted i = Some d.
Proof.
  destruct (remap_loop [] sorted (replicate (length sorted) 0)) as (remap & n & Hrun & _ & Hspec).
  - done.
  - by rewrite length_replicate, sorted_perm.
  - intros i d H%get_at_lt. cbn in H. lia.
  - exists remap. split; [unfold build_remap; change 0 with (len (@nil D)) at 2; by rewrite Hrun|]. intros id d Hd.
    assert (In d sorted) as (i & Hi)%In_get_at.
    { apply list_elem_of_In. rewrite sorted_perm. by eapply list_elem_of_In, get_at_In. }
    exists i. split; [|done]. rewrite <- (identifiers _ _ Hd). by apply Hspec.
Qed.
End Remap.

(** ** What the published tables say *)

(** The bytes of the published rows a published sequence refers to. *)
Definition frozen_resolve (t : ArenaTables) (elements : list Z) : option (list bytes) :=
  mapM (fun id => frozen_bytes <$> get_at (canonical_rows t) id) elements.

Definition holds_row (b : NativeArenaBuilder) (category : Category) (data : bytes) : Prop :=
  exists d, In d (items (rows b)) /\ row_category d = category /\ row_bytes d = data.
Definition holds_sequence (b : NativeArenaBuilder) (kind : SequenceKind) (members : list bytes) : Prop :=
  exists d, In d (items (draft_sequences b)) /\ seq_kind d = kind /\
    resolve (items (rows b)) (seq_elements d) = Some members.
Definition holds_document (b : NativeArenaBuilder) (scope : bytes) : Prop :=
  In scope (map doc_scope (draft_documents b)).
Definition holds_anonymous (b : NativeArenaBuilder) (scope key : bytes) : Prop :=
  In (scope, key) (map anonymous_key (items (draft_anonymous b))).

Definition frozen_sequence_key (s : FrozenSequence) : SequenceKind * bytes := (frozen_kind s, frozen_elements s).
Definition frozen_anonymous_key (a : FrozenAnonymousIdentity) : bytes * bytes :=
  (frozen_document_scope a, frozen_local_key a).

(** Tables that publish exactly what the builder holds, in canonical order. *)
Record publishes (b : NativeArenaBuilder) (t : ArenaTables) : Prop := {
  rows_ascend : StronglySorted ord_lt (map frozen_bytes (canonical_rows t));
  rows_published r : In r (canonical_rows t) <-> holds_row b (frozen_category r) (frozen_bytes r);
  sequences_ascend : StronglySorted ord_lt (map frozen_sequence_key (sequences t));
  sequences_published kind members :
    (exists s, In s (sequences t) /\ frozen_kind s = kind /\ frozen_resolve t (frozen_elements s) = Some members) <->
    holds_sequence b kind members;
  sequences_resolve s : In s (sequences t) -> exists members, frozen_resolve t (frozen_elements s) = Some members;
  documents_ascend : StronglySorted ord_lt (map frozen_scope (documents t));
  documents_published scope : In scope (map frozen_scope (documents t)) <-> holds_document b scope;
  anonymous_ascend : StronglySorted ord_lt (map frozen_anonymous_key (anonymous t));
  anonymous_published scope key :
    In (scope, key) (map frozen_anonymous_key (anonymous t)) <-> holds_anonymous b scope key;
  anonymous_documents a : In a (anonymous t) ->
    exists doc, get_at (documents t) (frozen_document a) = Some doc /\ frozen_scope doc = frozen_document_scope a
}.

(** ** Renumbered sequences *)

Section Renumber.
Context (entries sorted : list DraftCanonicalRow) (remap : list Z).
Hypothesis entries_distinct : NoDup (map row_bytes entries).
Hypothesis sorted_perm : sorted ≡ₚ entries.
Hypothesis ascending : StronglySorted ord_lt (map row_bytes sorted).
Hypothesis remap_spec : forall id d, get_at entries id = Some d ->
  exists i, get_at remap id = Some i /\ get_at sorted i = Some d.

Definition new_id (id : Z) : Z := default 0 (get_at remap id).

Lemma new_id_spec id d : get_at entries id = Some d ->
  get_at remap id = Some (new_id id) /\ get_at sorted (new_id id) = Some d.
Proof. intros (i & Hi & Hd)%remap_spec. unfold new_id. by rewrite Hi. Qed.

Lemma remap_ids message elements members :
  resolve entries elements = Some members ->
  mapM (remap_id remap message) elements = Ok (map new_id elements) /\
  resolve sorted (map new_id elements) = Some members.
Proof.
  intros [Hall ->]%resolve_Some. split.
  - induction elements as [|id elements IH]; [done|]. cbn.
    destruct (Hall id) as [d Hd]; [by left|]. unfold remap_id. rewrite (proj1 (new_id_spec _ _ Hd)). cbn.
    unfold mbind, outcome_mbind in *. unfold remap_id in IH. rewrite IH; [done|]. intros x Hx. apply Hall. by right.
  - apply resolve_Some. split.
    + intros i (id & <- & Hid)%in_map_iff. destruct (Hall id Hid) as [d Hd]. exists d. by apply new_id_spec.
    + rewrite map_map. apply map_ext_in. intros id Hid. destruct (Hall id Hid) as [d Hd].
      unfold bytes_of. by rewrite Hd, (proj2 (new_id_spec _ _ Hd)).
Qed.

(** Identifiers of sorted rows compare like the rows. *)
Lemma ids_ascend ids members :
  resolve sorted ids = Some members -> StronglySorted ord_lt members -> StronglySorted ord_lt ids.
Proof.
  intros [Hall ->]%resolve_Some Hs. induction ids as [|id ids IH]; [constructor|].
  apply StronglySorted_inv in Hs as [Hs Hid]. constructor.
  - apply IH; [|done]. intros x Hx. apply Hall. by right.
  - rewrite List.Forall_forall in *. intros x Hx.
    destruct (Hall id) as [d Hd]; [by left|]. destruct (Hall x) as [e He]; [by right|].
    specialize (Hid (bytes_of sorted x) (in_map _ _ _ Hx)). unfold bytes_of in Hid. rewrite Hd, He in Hid. cbn in Hid.
    apply Z.compare_lt_iff. apply (ascending_at (map row_bytes sorted) id x (row_bytes d) (row_bytes e)); [done| | |done].
    + by rewrite get_at_map, Hd.
    + by rewrite get_at_map, He.
Qed.

Lemma remap_sequence_spec d :
  sequence_ok entries d ->
  exists d', remap_sequence remap d = Ok d' /\ seq_kind d' = seq_kind d /\
    seq_elements d' = map new_id (seq_elements d) /\
    forall members, resolve entries (seq_elements d) = Some members -> resolve sorted (seq_elements d') = Some members.
Proof.
  intros (members & Hres & Hset).
  destruct (remap_ids "native sequence row remap is out of bounds" _ _ Hres) as [Hmap Hres'].
  exists {| seq_identifier := seq_identifier d; seq_kind := seq_kind d; seq_elements := map new_id (seq_elements d) |}.
  split; [|split; [done|split; [done|]]].
  - unfold remap_sequence. rewrite Hmap. cbn. destruct (seq_kind d); [done|].
    pose proof (ids_ascend _ _ Hres' (Hset eq_refl)) as Hasc.
    by rewrite sort_by_id, vec_dedup_strict by (try done; by apply ascending_NoDup).
  - intros m Hm. rewrite Hres in Hm. by injection Hm as <-.
Qed.

Lemma new_id_inj x y :
  (exists d, get_at entries x = Some d) -> (exists d, get_at entries y = Some d) -> new_id x = new_id y -> x = y.
Proof.
  intros [d Hd] [e He] E. apply (bytes_of_inj entries); [done|by eexists|by eexists|]. unfold bytes_of.
  rewrite Hd, He. apply new_id_spec in Hd as [_ Hd], He as [_ He]. rewrite E in Hd. congruence.
Qed.

Lemma map_new_id_inj x y members members' :
  resolve entries x = Some members -> resolve entries y = Some members' -> map new_id x = map new_id y -> x = y.
Proof.
  intros [Hx _]%resolve_Some [Hy _]%resolve_Some. revert y Hy.
  induction x as [|a x IH]; intros [|b y] Hy; try done. cbn. intros [= Hab E]. f_equal.
  - apply new_id_inj; [apply Hx; by left|apply Hy; by left|done].
  - apply IH; [|intros i Hi; apply Hy; by right|done]. intros i Hi. apply Hx. by right.
Qed.

(** All sequences are renumbered, and stay distinct. *)
Lemma remap_sequences_spec drafts :
  (forall d, In d drafts -> sequence_ok entries d) -> NoDup (map sequence_key drafts) ->
  exists drafts', mapM (remap_sequence remap) drafts = Ok drafts' /\ NoDup (map sequence_key drafts') /\
    (forall kind members,
      (exists d, In d drafts' /\ seq_kind d = kind /\ resolve sorted (seq_elements d) = Some members) <->
      (exists d, In d drafts /\ seq_kind d = kind /\ resolve entries (seq_elements d) = Some members)) /\
    forall d, In d drafts' -> exists members, resolve sorted (seq_elements d) = Some members.
Proof.
  intros Hok Hn.
  assert (exists drafts', mapM (remap_sequence remap) drafts = Ok drafts' /\
    map sequence_key drafts' = map (fun d => (seq_kind d, map new_id (seq_elements d))) drafts) as (drafts' & Hmap & Hkeys).
  { clear Hn. induction drafts as [|d drafts IH]; [by exists []|].
    destruct (remap_sequence_spec d) as (d' & Hd & Hkind & Hel & _); [apply Hok; by left|].
    destruct IH as (ds & Hds & Hkeys); [intros x Hx; apply Hok; by right|].
    exists (d' :: ds). split.
    - cbn. rewrite Hd. cbn. unfold mbind, outcome_mbind in *. by rewrite Hds.
    - cbn. rewrite Hkeys. unfold sequence_key at 1. by rewrite Hkind, Hel. }
  exists drafts'. split; [done|].
  assert (forall d, In d drafts -> exists members, resolve entries (seq_elements d) = Some members) as Hres.
  { intros d Hd. destruct (Hok d Hd) as (m & Hm & _). by exists m. }
  split.
  - rewrite Hkeys. clear -Hn Hres entries_distinct remap_spec. induction drafts as [|d drafts IH]; [constructor|].
    cbn in *. apply NoDup_cons in Hn as [Hd Hn]. constructor; [|apply IH; auto].
    intros (e & [= Hk He] & Hin)%list_elem_of_In%in_map_iff. apply Hd, list_elem_of_In, in_map_iff.
    exists e. split; [|done]. unfold sequence_key. f_equal; [done|].
    destruct (Hres e) as [m Hm]; [by right|]. destruct (Hres d) as [m' Hm']; [by left|].
    by eapply map_new_id_inj.
  - assert (forall d', In d' drafts' -> exists d members, In d drafts /\ seq_kind d = seq_kind d' /\
      resolve entries (seq_elements d) = Some members /\ resolve sorted (seq_elements d') = Some members) as Hback.
    { intros d' Hd'. assert (In (sequence_key d') (map sequence_key drafts')) as Hin by by apply in_map.
      rewrite Hkeys in Hin. apply in_map_iff in Hin as (d & [= Hk He] & Hd).
      destruct (Hres d Hd) as [m Hm]. exists d, m. rewrite <- He. by destruct (remap_ids "" _ _ Hm) as [_ Hr]. }
    split; [|intros d Hd; destruct (Hback d Hd) as (_ & m & _ & _ & _ & Hm); by exists m].
    intros kind members. split.
    + intros (d' & Hd' & <- & Hm). destruct (Hback d' Hd') as (d & m & Hd & Hk & Hm1 & Hm2).
      rewrite Hm in Hm2. injection Hm2 as <-. by exists d.
    + intros (d & Hd & <- & Hm). destruct (remap_ids "" _ _ Hm) as [_ Hr].
      assert (In (seq_kind d, map new_id (seq_elements d)) (map sequence_key drafts')) as Hin.
      { rewrite Hkeys. apply in_map_iff. by exists d. }
      apply in_map_iff in Hin as (d' & [= Hk He] & Hd'). exists d'. split; [done|]. split; [done|]. by rewrite He.
Qed.
End Renumber.

(** ** The published tables *)

Lemma frozen_resolve_rows sorted t elements :
  canonical_rows t = map freeze_row sorted -> frozen_resolve t elements = resolve sorted elements.
Proof.
  intros E. unfold frozen_resolve, resolve. apply mapM_ext. intros id. rewrite E, get_at_map.
  by destruct (get_at sorted id).
Qed.

Lemma remap_anonymous_spec entries sorted remap drafts :
  (forall id d, get_at entries id = Some d -> exists i, get_at remap id = Some i /\ get_at sorted i = Some d) ->
  (forall a, In a drafts -> exists doc, get_at entries (anon_document a) = Some doc /\ doc_scope doc = anon_scope a) ->
  exists drafts', mapM (remap_anonymous remap) drafts = Ok drafts' /\
    map anonymous_key drafts' = map anonymous_key drafts /\
    forall a, In a drafts' -> exists doc, get_at sorted (anon_document a) = Some doc /\ doc_scope doc = anon_scope a.
Proof.
  intros Hremap. induction drafts as [|a drafts IH]; intros Hok; [by exists []|].
  destruct (Hok a) as (doc & Hdoc & Hscope); [by left|]. destruct (Hremap _ _ Hdoc) as (i & Hi & Hnew).
  destruct IH as (drafts' & Hmap & Hkeys & Hall); [intros x Hx; apply Hok; by right|].
  set (a' := {| anon_identifier := anon_identifier a; anon_document := i; anon_scope := anon_scope a;
                anon_key := anon_key a |}).
  assert (remap_anonymous remap a = Ok a') as Ha by (unfold remap_anonymous, remap_id; by rewrite Hi).
  exists (a' :: drafts'). split; [|split].
  - cbn. rewrite Ha. cbn. unfold mbind, outcome_mbind in *. by rewrite Hmap.
  - cbn. by rewrite Hkeys.
  - intros x [<-|Hx]; [by exists doc|by apply Hall].
Qed.

Lemma published_tables b seqs docs anons (sorted := sort_by row_bytes (items (rows b))) :
  builder_ok b ->
  NoDup (map sequence_key seqs) ->
  (forall kind members,
    (exists d, In d seqs /\ seq_kind d = kind /\ resolve sorted (seq_elements d) = Some members) <->
    holds_sequence b kind members) ->
  (forall d, In d seqs -> exists members, resolve sorted (seq_elements d) = Some members) ->
  docs = sort_by doc_scope (draft_documents b) ->
  map anonymous_key anons = map anonymous_key (items (draft_anonymous b)) ->
  (forall a, In a anons -> exists doc, get_at docs (anon_document a) = Some doc /\ doc_scope doc = anon_scope a) ->
  publishes b {| canonical_rows := map freeze_row sorted;
                 sequences := map freeze_sequence (sort_by sequence_key seqs);
                 documents := map freeze_document docs;
                 anonymous := map freeze_anonymous (sort_by anonymous_key anons) |}.
Proof.
  intros [_ _ Hrows _ Hseq _ [_ Hscopes _] Han _ _] Hn Hseqs Hresolve -> Hkeys Hdocs.
  match goal with |- publishes _ ?t => assert (forall l, frozen_resolve t l = resolve sorted l) as Hfr
    by (intros; by apply frozen_resolve_rows) end.
  constructor; cbn [canonical_rows sequences documents anonymous].
  - rewrite map_map. apply sort_by_ascending, Hrows.
  - intros [c bs]. unfold holds_row. rewrite in_map_iff. cbn. split.
    + intros (d & [= <- <-] & Hd%In_sort_by). by exists d.
    + intros (d & Hd & <- & <-). exists d. split; [done|]. by apply In_sort_by.
  - rewrite map_map. by apply (sort_by_ascending sequence_key).
  - intros kind members. rewrite <- Hseqs. split.
    + intros (s & (d & <- & Hd%In_sort_by)%in_map_iff & Hk & Hm). exists d. split; [done|]. split; [done|].
      by rewrite <- Hfr.
    + intros (d & Hd & Hk & Hm). exists (freeze_sequence d). split; [by apply in_map, In_sort_by|]. split; [done|].
      by rewrite Hfr.
  - intros s (d & <- & Hd%In_sort_by)%in_map_iff. destruct (Hresolve d Hd) as [m Hm].
    exists m. by rewrite Hfr.
  - rewrite map_map. by apply (sort_by_ascending doc_scope).
  - intros scope. unfold holds_document. rewrite map_map. cbn. rewrite !in_map_iff. by setoid_rewrite In_sort_by.
  - rewrite map_map. apply (sort_by_ascending anonymous_key). rewrite Hkeys. apply Han.
  - intros scope key. unfold holds_anonymous. rewrite <- Hkeys, map_map, !in_map_iff. by setoid_rewrite In_sort_by.
  - intros x (a & <- & Ha%In_sort_by)%in_map_iff. destruct (Hdocs a Ha) as (doc & Hdoc & Hscope).
    exists (freeze_document doc). cbn. by rewrite get_at_map, Hdoc.
Qed.

Lemma owp_add_retained total n (Q : Z -> Prop) : (forall m, Q m) -> owp (add_retained total n) Q.
Proof. intros HQ. unfold add_retained. repeat step. apply HQ. Qed.

Lemma owp_fold_any {D} (body : D -> Z -> outcome Z) entries total (Q : Z -> Prop) :
  (forall d n, owp (body d n) (fun _ => True)) -> (forall n, Q n) -> owp (ofor_each body entries total) Q.
Proof.
  intros Hbody HQ. eapply owp_mono; [intros n _; apply HQ|].
  apply (owp_for_each _ (fun _ _ => True)); [done|]. intros d rest x _. apply Hbody.
Qed.

Lemma owp_size_sum_any values (Q : Z -> Prop) : (forall n, Q n) -> owp (checked_size_sum values) Q.
Proof. apply owp_fold_any. intros d n. by step. Qed.

Lemma owp_retained_rows entries total (Q : Z -> Prop) : (forall n, Q n) -> owp (retained_rows entries total) Q.
Proof. apply owp_fold_any. intros d n. by apply owp_add_retained. Qed.

Lemma owp_retained_sequences entries total (Q : Z -> Prop) :
  (forall n, Q n) -> owp (retained_sequences entries total) Q.
Proof.
  apply owp_fold_any. intros d n. unfold checked_allocation_bytes. step. step. by apply owp_add_retained.
Qed.

Lemma owp_retained_anonymous entries total (Q : Z -> Prop) :
  (forall n, Q n) -> owp (retained_anonymous entries total) Q.
Proof. apply owp_fold_any. intros d n. by apply owp_add_retained. Qed.

Lemma wp_plan_any g n (Q : Z -> World -> Prop) w :
  (forall next, Q next w) -> wp (lift (plan g n)) Q w.
Proof. intros HQ. apply wp_lift. unfold plan. repeat step. apply HQ. Qed.

Lemma wp_allocation_any size count (Q : Z -> World -> Prop) w :
  (forall n, Q n w) -> wp (lift (checked_allocation_bytes size count)) Q w.
Proof. intros HQ. apply wp_lift. unfold checked_allocation_bytes. step. apply HQ. Qed.

(** [freeze] does not panic, and what it returns publishes the builder. *)
Lemma wp_freeze b w :
  builder_ok b -> wp (freeze b) (fun a _ => publishes b (tables a)) w.
Proof.
  intros Hb. pose proof Hb as [_ _ Hrows _ Hseq Hel [Hdid Hdn Hdsize] _ Hsc _]. unfold freeze.
  set (sorted := sort_by row_bytes (items (rows b))).
  step. apply wp_allocation_any. intros n1. step. apply wp_plan_any. intros n2. step. step.
  destruct (build_remap_spec row_identifier CanonicalRowId (items (rows b)) sorted) as (row_remap & Hrun & Hremap);
    [apply Hrows|apply sort_by_perm|apply Hrows|].
  step. step. rewrite Hrun. cbn [owp].
  destruct (remap_sequences_spec (items (rows b)) sorted row_remap) with (drafts := items (draft_sequences b))
    as (seqs & Hseqs & Hn & Hsame & Hresolve); [apply Hrows|apply sort_by_ascending, Hrows|done|done|apply Hseq|].
  step. step. rewrite Hseqs. cbn [owp].
  step. apply wp_allocation_any. intros n3. step. apply wp_plan_any. intros n4. step. step.
  set (docs := sort_by doc_scope (draft_documents b)).
  destruct (build_remap_spec doc_identifier DocumentId (draft_documents b) docs) as (doc_remap & Hrun' & Hremap');
    [done|apply sort_by_perm|done|].
  step. step. rewrite Hrun'. cbn [owp].
  destruct (remap_anonymous_spec (draft_documents b) docs doc_remap (items (draft_anonymous b)))
    as (anons & Hanons & Hkeys & Hdocs); [done|done|].
  step. step. rewrite Hanons. cbn [owp].
  do 4 (step; apply wp_allocation_any; intros ?).
  step. step. apply owp_size_sum_any. intros metadata. step. apply wp_plan_any. intros last.
  step. step. step. step. apply owp_retained_rows. intros r1.
  step. step. step. step. apply owp_retained_sequences. intros r2.
  step. step. step. step. step. step. apply owp_retained_anonymous. intros r3.
  step. step. apply owp_add_retained. intros r4. step. by apply published_tables.
Qed.

(** ** The published tables are determined by the contents *)

(** Two builders hold the same rows, sequences, scopes and identities. *)
Record same_content (b b' : NativeArenaBuilder) : Prop := {
  same_limits : scan_limits b = scan_limits b';
  same_rows data : In data (map row_bytes (items (rows b))) <-> In data (map row_bytes (items (rows b')));
  same_sequences kind members : holds_sequence b kind members <-> holds_sequence b' kind members;
  same_documents scope : holds_document b scope <-> holds_document b' scope;
  same_anonymous scope key : holds_anonymous b scope key <-> holds_anonymous b' scope key
}.

Lemma same_content_sym b b' : same_content b b' -> same_content b' b.
Proof. intros []. constructor; intros; symmetry; auto. Qed.

Lemma same_content_rows b b' category data :
  builder_ok b -> builder_ok b' -> same_content b b' -> holds_row b category data -> holds_row b' category data.
Proof.
  intros Hb Hb' [El Hrows _ _ _] (d & Hd & <- & <-).
  assert (In (row_bytes d) (map row_bytes (items (rows b')))) as Hin by (apply Hrows; by apply in_map).
  apply in_map_iff in Hin as (d' & E & Hd'). exists d'. split; [done|]. split; [|done].
  apply (ok_scanned b Hb) in Hd. apply (ok_scanned b' Hb') in Hd'. rewrite E, <- El in Hd'. congruence.
Qed.

Lemma frozen_resolve_inj t x y members :
  NoDup (map frozen_bytes (canonical_rows t)) ->
  frozen_resolve t x = Some members -> frozen_resolve t y = Some members -> x = y.
Proof.
  apply mapM_lookup_inj.
Qed.

Lemma published_rows_incl b b' t t' r :
  builder_ok b -> builder_ok b' -> same_content b b' -> publishes b t -> publishes b' t' ->
  In r (canonical_rows t) -> In r (canonical_rows t').
Proof.
  intros Hb Hb' Hsame Ht Ht' Hr. apply (rows_published b' t' Ht'). apply (rows_published b t Ht) in Hr.
  by apply (same_content_rows b).
Qed.

Lemma published_sequences_incl b b' t t' s :
  same_content b b' -> publishes b t -> publishes b' t' -> canonical_rows t = canonical_rows t' ->
  In s (sequences t) -> In s (sequences t').
Proof.
  intros Hsame Ht Ht' Hrows Hs. destruct (sequences_resolve b t Ht s Hs) as [members Hm].
  destruct (proj2 (sequences_published b' t' Ht' (frozen_kind s) members)) as (s' & Hs' & Hk & Hm').
  { apply (same_sequences _ _ Hsame), (sequences_published b t Ht). by exists s. }
  assert (frozen_elements s = frozen_elements s') as E.
  { apply (frozen_resolve_inj t' _ _ members); [|by unfold frozen_resolve in *; rewrite <- Hrows|done].
    apply ascending_NoDup, (rows_ascend b' t' Ht'). }
  destruct s as [k e], s' as [k' e']. cbn in *. by subst.
Qed.

Lemma published_documents_incl b b' t t' d :
  same_content b b' -> publishes b t -> publishes b' t' -> In d (documents t) -> In d (documents t').
Proof.
  intros Hsame Ht Ht' Hd. assert (In (frozen_scope d) (map frozen_scope (documents t'))) as Hin.
  { apply (documents_published b' t' Ht'), (same_documents _ _ Hsame), (documents_published b t Ht). by apply in_map. }
  apply in_map_iff in Hin as ([scope] & E & Hd'). destruct d. cbn in E. by subst.
Qed.

Lemma published_anonymous_incl b b' t t' a :
  same_content b b' -> publishes b t -> publishes b' t' -> documents t = documents t' ->
  In a (anonymous t) -> In a (anonymous t').
Proof.
  intros Hsame Ht Ht' Hdocs Ha.
  assert (In (frozen_anonymous_key a) (map frozen_anonymous_key (anonymous t'))) as Hin.
  { apply (anonymous_published b' t' Ht'), (same_anonymous _ _ Hsame), (anonymous_published b t Ht). by apply (in_map frozen_anonymous_key). }
  apply in_map_iff in Hin as (a' & [= Es Ek] & Ha').
  destruct (anonymous_documents b t Ht a Ha) as (doc & Hd & Hs).
  destruct (anonymous_documents b' t' Ht' a' Ha') as (doc' & Hd' & Hs'). rewrite <- Hdocs in Hd'.
  assert (frozen_document a = frozen_document a') as E.
  { apply (get_at_key_inj frozen_scope _ _ _ _ _ (ascending_NoDup _ (documents_ascend b t Ht)) Hd Hd'). congruence. }
  destruct a, a'. cbn in *. by subst.
Qed.

(** Tables that publish builders with the same contents are equal. *)
Lemma publishes_unique b b' t t' :
  builder_ok b -> builder_ok b' -> same_content b b' -> publishes b t -> publishes b' t' -> t = t'.
Proof.
  intros Hb Hb' Hsame Ht Ht'. pose proof (same_content_sym _ _ Hsame) as Hsym.
  assert (canonical_rows t = canonical_rows t') as Hrows.
  { apply (keyed_ascending_unique frozen_bytes); [apply (rows_ascend b t Ht)|apply (rows_ascend b' t' Ht')|].
    intros r. split; [by apply (published_rows_incl b b')|by apply (published_rows_incl b' b)]. }
  assert (documents t = documents t') as Hdocs.
  { apply (keyed_ascending_unique frozen_scope); [apply (documents_ascend b t Ht)|apply (documents_ascend b' t' Ht')|].
    intros r. split; [by apply (published_documents_incl b b')|by apply (published_documents_incl b' b)]. }
  assert (sequences t = sequences t') as Hseqs.
  { apply (keyed_ascending_unique frozen_sequence_key); [apply (sequences_ascend b t Ht)|apply (sequences_ascend b' t' Ht')|].
    intros r. split; [by apply (published_sequences_incl b b')|by apply (published_sequences_incl b' b)]. }
  assert (anonymous t = anonymous t') as Han.
  { apply (keyed_ascending_unique frozen_anonymous_key); [apply (anonymous_ascend b t Ht)|apply (anonymous_ascend b' t' Ht')|].
    intros r. split; [by apply (published_anonymous_incl b b')|by apply (published_anonymous_incl b' b)]. }
  destruct t, t'. cbn in *. by subst.
Qed.
