(* ===== verification/ArenaTheorems.v ===== *)
(** * The arena as a whole

    Builders are reached from an empty one by interning requests, which may
    fail.  Every reachable builder is consistent, identifiers identify
    contents for good, failures leave no trace, and publication is canonical. *)

From S2P Require Import Prelude Bytes Order Error Machine Atomic Limits Schema Scan Arena ArenaIntern Component ScanComplete ArenaSound ArenaFreeze.

(** ** Requests and reachable builders *)

Inductive arena_op :=
  | InternRow (data : bytes)
  | InternSequence (kind : SequenceKind) (elements : list Z)
  | InternDocument (scope : bytes)
  | InternAnonymous (document : Z) (local_key : bytes).

Definition run_op (op : arena_op) : M ArenaState Z :=
  match op with
  | InternRow data => intern_canonical_row data
  | InternSequence kind elements => intern_sequence kind elements
  | InternDocument scope => intern_document_scope scope
  | InternAnonymous document local_key => intern_anonymous document local_key
  end.

(** The arguments are values of their Rust types. *)
Definition op_ok (op : arena_op) : Prop :=
  match op with InternRow data => is_bytes data /\ len data <= USIZE_MAX | _ => True end.

(** One request, in any world and with any outcome. *)
Inductive arena_step (b : NativeArenaBuilder) : NativeArenaBuilder -> Prop :=
  | served op w r s' : op_ok op -> run_op op {| arena_world := w; builder := b |} = (r, s') ->
      arena_step b (builder s').

(** A builder made by [with_configuration] (with any hash functions) and any requests. *)
Inductive reachable : NativeArenaBuilder -> Prop :=
  | reachable_new limits blimits f g h :
      scan_limits_ok limits -> exceeds (builder_max_memory_bytes blimits) 0 = false ->
      reachable (with_configuration limits blimits f g h)
  | reachable_step b b' : reachable b -> arena_step b b' -> reachable b'.

(** What a successful request does. *)
Definition op_result (op : arena_op) (b : NativeArenaBuilder) (id : Z) (s : ArenaState) : Prop :=
  match op with
  | InternRow data => row_interned data b id s
  | InternSequence kind elements => sequence_interned kind elements b id s
  | InternDocument scope => document_interned scope b id s
  | InternAnonymous document local_key => anonymous_interned document local_key b id s
  end.

Lemma wpe_run_op op s :
  builder_ok (builder s) -> op_ok op ->
  wpe (run_op op) (op_result op (builder s)) (unchanged (builder s)) s.
Proof.
  intros Hs Hop. destruct op.
  - destruct Hop. by apply wpe_intern_canonical_row.
  - by apply wpe_intern_sequence.
  - by apply wpe_intern_document_scope.
  - by apply wpe_intern_anonymous.
Qed.

(** ** Tables only grow *)

Definition tables_extend (b b' : NativeArenaBuilder) : Prop :=
  (forall i d, get_at (items (rows b)) i = Some d -> get_at (items (rows b')) i = Some d) /\
  (forall i d, get_at (items (draft_sequences b)) i = Some d -> get_at (items (draft_sequences b')) i = Some d) /\
  (forall i d, get_at (draft_documents b) i = Some d -> get_at (draft_documents b') i = Some d) /\
  (forall i d, get_at (items (draft_anonymous b)) i = Some d -> get_at (items (draft_anonymous b')) i = Some d).

#[export] Instance tables_extend_preorder : PreOrder tables_extend.
Proof. split; unfold tables_extend; [by intros b|intros b c d; naive_solver]. Qed.

Lemma op_result_ok op b id s :
  op_result op b id s -> builder_ok (builder s) /\ tables_extend b (builder s).
Proof.
  destruct op; cbn; intros (Hok & (_ & _ & _ & _ & _ & Hr & Hs & Hd & Ha & _) & Hint);
    (split; [done|]); unfold tables_extend.
  - rewrite Hs, Hd, Ha by done. split_and!; try done. intros i d. by eapply interned_extends.
  - destruct Hint as (? & ? & _ & _ & Hint). rewrite Hr, Hd, Ha by done. split_and!; try done.
    intros i d. by eapply interned_extends.
  - rewrite Hr, Hs, Ha by done. split_and!; try done. intros i d. by eapply interned_extends.
  - destruct Hint as (? & _ & Hint). rewrite Hr, Hs, Hd by done. split_and!; try done.
    intros i d. by eapply interned_extends.
Qed.

Lemma unchanged_ok b s : unchanged b s -> builder_ok (builder s) /\ tables_extend b (builder s).
Proof. intros (Hok & c & E). split; [done|]. rewrite E. by destruct b. Qed.

Lemma arena_step_ok b b' : builder_ok b -> arena_step b b' -> builder_ok b' /\ tables_extend b b'.
Proof.
  intros Hb [op w r s' Hop E]. pose proof (wpe_run_op op {| arena_world := w; builder := b |} Hb Hop) as H.
  unfold wpe in H. rewrite E in H. destruct r; [by eapply op_result_ok|by apply unchanged_ok|done].
Qed.

Lemma reachable_ok b : reachable b -> builder_ok b.
Proof. induction 1 as [|b b' _ IH Hs]; [by apply with_configuration_ok|]. by apply (arena_step_ok b). Qed.

Lemma arena_steps_ok b b' : builder_ok b -> rtc arena_step b b' -> builder_ok b' /\ tables_extend b b'.
Proof.
  intros Hb. induction 1 as [b|b c d Hstep _ IH]; [done|].
  destruct (arena_step_ok _ _ Hb Hstep) as [Hc Hbc]. destruct (IH Hc) as [Hd Hcd]. split; [done|]. by transitivity c.
Qed.

(** ** Identifiers *)

Lemma run_op_Ok op b id w s :
  builder_ok b -> op_ok op -> run_op op {| arena_world := w; builder := b |} = (Ok id, s) -> op_result op b id s.
Proof. intros Hb Hop E. exact (wpe_Ok _ _ _ _ _ _ (wpe_run_op op {| arena_world := w; builder := b |} Hb Hop) E). Qed.

Lemma resolve_inj entries x y members :
  NoDup (map row_bytes entries) ->
  resolve entries x = Some members -> resolve entries y = Some members -> x = y.
Proof. apply mapM_lookup_inj. Qed.

(** C28: Every builder reached by interning requests, successful or failed, is
    consistent: rows are distinct canonical rows with their scanned category,
    sequences refer to existing rows and canonical sets are strictly ascending,
    anonymous identities carry the scope of their document, buckets list
    exactly the entries with their hash, the budget is within its limit, and
    the counters account for every request. *)
Theorem reachable_builders_are_consistent b : reachable b -> builder_ok b.
Proof. apply reachable_ok. Qed.

(** C31: Interning is atomic: a request served by a reachable builder never
    panics; if it fails, the builder is consistent and nothing but its
    counters has changed. *)
Theorem failed_requests_change_nothing b op w :
  reachable b -> op_ok op ->
  match run_op op {| arena_world := w; builder := b |} with
  | (Ok _, s) => builder_ok (builder s) /\ tables_extend b (builder s)
  | (Err _, s) => unchanged b s
  | (Panic, _) => False
  end.
Proof.
  intros Hb%reachable_ok Hop. pose proof (wpe_run_op op {| arena_world := w; builder := b |} Hb Hop) as H.
  unfold wpe in H. destruct (run_op op _) as [[id|e|] s]; [by eapply op_result_ok|done|done].
Qed.

(** C30: Row identifiers identify rows for good: two requests to the same builder,
    any number of other requests apart, get the same identifier exactly when
    they ask for the same bytes, whatever the hash functions are. *)
Theorem row_identifiers_identify_rows b data id s b' data' id' s' w w' :
  reachable b -> op_ok (InternRow data) -> op_ok (InternRow data') ->
  intern_canonical_row data {| arena_world := w; builder := b |} = (Ok id, s) ->
  rtc arena_step (builder s) b' ->
  intern_canonical_row data' {| arena_world := w'; builder := b' |} = (Ok id', s') ->
  id = id' <-> data = data'.
Proof.
  intros Hb%reachable_ok Hd Hd' E Hsteps E'.
  pose proof (run_op_Ok (InternRow data) _ _ _ _ Hb Hd E) as H.
  destruct (op_result_ok _ _ _ _ H) as [Hs _]. destruct (arena_steps_ok _ _ Hs Hsteps) as [Hb' Hgrow].
  pose proof (run_op_Ok (InternRow data') _ _ _ _ Hb' Hd' E') as H'.
  destruct (op_result_ok _ _ _ _ H') as [Hs' Hgrow']. pose proof (transitivity Hgrow Hgrow') as [Hrows _].
  destruct H as (_ & _ & d & Hat%Hrows & <- & _). destruct H' as (_ & _ & d' & Hat' & <- & _). split.
  - intros ->. congruence.
  - apply (get_at_key_inj row_bytes _ _ _ _ _ (interner_distinct _ _ _ _ (ok_rows _ Hs')) Hat Hat').
Qed.

(** Sequence identifiers identify sequences up to their kind: two requests get
    the same identifier exactly when they have the same kind and their rows
    are the same in order (ordered sequences) or as a set (canonical sets). *)
Theorem sequence_identifiers_identify_sequences b k e m id s b' k' e' m' id' s' w w' :
  reachable b -> resolve (items (rows b)) e = Some m -> resolve (items (rows b')) e' = Some m' ->
  intern_sequence k e {| arena_world := w; builder := b |} = (Ok id, s) ->
  rtc arena_step (builder s) b' ->
  intern_sequence k' e' {| arena_world := w'; builder := b' |} = (Ok id', s') ->
  id = id' <-> k = k' /\ canonical_members k m = canonical_members k' m'.
Proof.
  intros Hb%reachable_ok Hm Hm' E Hsteps E'.
  pose proof (run_op_Ok (InternSequence k e) _ _ _ _ Hb I E) as H.
  destruct (op_result_ok _ _ _ _ H) as [Hs Hgrow0]. destruct (arena_steps_ok _ _ Hs Hsteps) as [Hb' Hgrow].
  pose proof (run_op_Ok (InternSequence k' e') _ _ _ _ Hb' I E') as H'.
  destruct (op_result_ok _ _ _ _ H') as [Hs' Hgrow']. pose proof (transitivity Hgrow Hgrow') as (_ & Hseqs & _).
  pose proof (transitivity Hgrow0 (transitivity Hgrow Hgrow')) as (Hrows & _).
  destruct H as (_ & _ & m1 & c & Hm1 & Hc & d & Hat%Hseqs & Hkey & _).
  destruct H' as (_ & _ & m1' & c' & Hm1' & Hc' & d' & Hat' & Hkey' & _).
  rewrite Hm in Hm1. injection Hm1 as <-. rewrite Hm' in Hm1'. injection Hm1' as <-.
  apply (resolve_grows _ _ _ _ Hrows) in Hc. destruct Hgrow' as (Hrows' & _).
  apply (resolve_grows _ _ _ _ Hrows') in Hc'. split.
  - intros ->. assert (d = d') as -> by congruence. rewrite Hkey in Hkey'. injection Hkey' as -> ->.
    split; [done|]. congruence.
  - intros [-> Em]. apply (get_at_key_inj sequence_key _ _ _ _ _ (interner_distinct _ _ _ _ (ok_sequences _ Hs')) Hat Hat').
    rewrite Hkey, Hkey'. f_equal. rewrite <- Em in Hc'.
    by apply (resolve_inj _ _ _ _ (interner_distinct _ _ _ _ (ok_rows _ Hs')) Hc Hc').
Qed.

(** C29: Publication is faithful: [freeze] never panics, and the tables it returns
    hold exactly the rows, sequences, scopes and identities of the builder, in
    ascending order, with every reference pointing at what it meant. *)
Theorem freeze_publishes_the_builder b w :
  reachable b ->
  match freeze b w with
  | (Ok a, _) => publishes b (tables a)
  | (Err _, _) => True
  | (Panic, _) => False
  end.
Proof. intros Hb%reachable_ok. apply wp_freeze, Hb. Qed.

(** C17: Publication is canonical: two builders that hold the same rows, sequences,
    scopes and identities publish equal tables, in whatever order and with
    whatever hash functions they were filled. *)
Theorem freeze_is_canonical b b' w w' a a' s s' :
  reachable b -> reachable b' -> same_content b b' ->
  freeze b w = (Ok a, s) -> freeze b' w' = (Ok a', s') -> tables a = tables a'.
Proof.
  intros Hb%reachable_ok Hb'%reachable_ok Hsame E E'.
  apply (publishes_unique b b'); [done..| |].
  - exact (wp_Ok _ _ _ _ _ (wp_freeze b w Hb) E).
  - exact (wp_Ok _ _ _ _ _ (wp_freeze b' w' Hb') E').
Qed.

(** * Sample arenas

    Concrete builders for which the hypotheses of the arena theorems hold: the
    same values interned in two orders, once with hash functions that always
    collide. *)

(** Serve requests in a calm world. *)
Definition serve (op : arena_op) (b : NativeArenaBuilder) : outcome Z * ArenaState :=
  run_op op {| arena_world := calm_world; builder := b |}.
Definition after (ops : list arena_op) (b : NativeArenaBuilder) : NativeArenaBuilder :=
  foldl (fun b op => builder (snd (serve op b))) b ops.

Lemma serve_step op b : op_ok op -> arena_step b (builder (snd (serve op b))).
Proof. intros H. eapply served; [exact H|]. apply surjective_pairing. Qed.

Lemma after_reachable ops b : Forall op_ok ops -> reachable b -> reachable (after ops b).
Proof.
  intros Hops. revert b. induction Hops as [|op ops Hop _ IH]; intros b Hb; [done|].
  apply IH. eapply reachable_step; [exact Hb|by apply serve_step].
Qed.

Lemma length_characters s : length (String.list_ascii_of_string s) = String.length s.
Proof. induction s; cbn; congruence. Qed.

Lemma iri_row_ok name : (String.length name <= 255)%nat -> op_ok (InternRow (iri_row name)).
Proof.
  intros H. split.
  - unfold iri_row. apply is_bytes_app. split; [|apply is_bytes_str]. repeat constructor; try ulia.
  - unfold iri_row, str. rewrite length_app, length_map, length_characters. cbn [length]. ulia.
Qed.

Definition forward : list arena_op :=
  [InternRow (iri_row "urn:a"); InternRow (iri_row "urn:b"); InternSequence CanonicalSet [0; 1; 0];
   InternSequence Ordered [1; 0]; InternDocument (replicate 32 1); InternDocument (replicate 32 2);
   InternAnonymous 0 [7]].
Definition backward : list arena_op :=
  [InternDocument (replicate 32 2); InternDocument (replicate 32 1); InternAnonymous 1 [7];
   InternRow (iri_row "urn:b"); InternRow (iri_row "urn:a"); InternSequence Ordered [0; 1];
   InternSequence CanonicalSet [1; 0]].

Lemma forward_ok : Forall op_ok forward.
Proof. repeat (apply List.Forall_cons; [first [apply iri_row_ok; cbn; lia|exact I]|]). apply List.Forall_nil. Qed.
Lemma backward_ok : Forall op_ok backward.
Proof. repeat (apply List.Forall_cons; [first [apply iri_row_ok; cbn; lia|exact I]|]). apply List.Forall_nil. Qed.

Definition empty_builder : NativeArenaBuilder := NativeArenaBuilder_new Limits_default.
Definition colliding_builder : NativeArenaBuilder :=
  with_configuration Limits_default (from_native Limits_default) (fun _ => 0) (fun _ _ => 0) (fun _ _ => 0).

Lemma default_limits_ok :
  scan_limits_ok Limits_default /\ exceeds (builder_max_memory_bytes (from_native Limits_default)) 0 = false.
Proof. split; [split; [|split]; vm_compute; discriminate|vm_compute; reflexivity]. Qed.

Lemma empty_reachable : reachable empty_builder.
Proof. apply reachable_new; apply default_limits_ok. Qed.
Lemma colliding_reachable : reachable colliding_builder.
Proof. apply reachable_new; apply default_limits_ok. Qed.

Lemma served_Ok op b id : fst (serve op b) = Ok id -> serve op b = (Ok id, snd (serve op b)).
Proof. intros <-. apply surjective_pairing. Qed.

Lemma reachable_builders_are_consistent_witness : builder_ok (after forward empty_builder).
Proof.
  apply reachable_builders_are_consistent. apply after_reachable; [exact forward_ok|exact empty_reachable].
Defined.

(** A builder that may hold one row only. *)
Definition small_builder : NativeArenaBuilder :=
  with_configuration Limits_default
    {| max_rows := 1; max_sequences := 1; builder_max_documents := 1; max_anonymous := 1;
       builder_max_sequence_arity := 1; max_local_key_bytes := 1; builder_max_memory_bytes := Some 1000 |}
    bucket_bytes bucket_sequence bucket_anonymous.

Lemma failed_requests_change_nothing_witness :
  let b := after [InternRow (iri_row "urn:a")] small_builder in
  unchanged b (snd (serve (InternRow (iri_row "urn:b")) b)).
Proof.
  cbv zeta. assert (reachable (after [InternRow (iri_row "urn:a")] small_builder)) as Hb.
  { apply after_reachable.
    - apply List.Forall_cons; [apply iri_row_ok; cbn; lia|apply List.Forall_nil].
    - apply reachable_new; [apply default_limits_ok|reflexivity]. }
  pose proof (failed_requests_change_nothing (after [InternRow (iri_row "urn:a")] small_builder)
    (InternRow (iri_row "urn:b")) calm_world Hb (iri_row_ok "urn:b" ltac:(cbn; lia))) as H.
  change (run_op (InternRow (iri_row "urn:b"))
    {| arena_world := calm_world; builder := after [InternRow (iri_row "urn:a")] small_builder |})
    with (serve (InternRow (iri_row "urn:b")) (after [InternRow (iri_row "urn:a")] small_builder)) in H.
  destruct (serve _ _) as [[id|e|] s] eqn:E.
  - assert (fst (serve (InternRow (iri_row "urn:b")) (after [InternRow (iri_row "urn:a")] small_builder)) = Ok id)
      as E' by (rewrite E; reflexivity).
    vm_compute in E'. discriminate E'.
  - exact H.
  - destruct H.
Defined.

(** Two rows, the second requested after both have been interned. *)
Lemma row_identifiers_identify_rows_witness : 0 = 1 <-> iri_row "urn:a" = iri_row "urn:b".
Proof.
  apply (row_identifiers_identify_rows empty_builder (iri_row "urn:a") 0
    (snd (serve (InternRow (iri_row "urn:a")) empty_builder))
    (after [InternRow (iri_row "urn:b")] (builder (snd (serve (InternRow (iri_row "urn:a")) empty_builder))))
    (iri_row "urn:b") 1 (snd (serve (InternRow (iri_row "urn:b"))
      (after [InternRow (iri_row "urn:b")] (builder (snd (serve (InternRow (iri_row "urn:a")) empty_builder))))))
    calm_world calm_world).
  - exact empty_reachable.
  - apply iri_row_ok. cbn. lia.
  - apply iri_row_ok. cbn. lia.
  - apply (served_Ok (InternRow (iri_row "urn:a"))). vm_compute. reflexivity.
  - apply rtc_once. apply serve_step, iri_row_ok. cbn. lia.
  - apply (served_Ok (InternRow (iri_row "urn:b"))). vm_compute. reflexivity.
Defined.

Definition two_rows : NativeArenaBuilder := after [InternRow (iri_row "urn:b"); InternRow (iri_row "urn:a")] empty_builder.
Definition with_set : NativeArenaBuilder := builder (snd (serve (InternSequence CanonicalSet [0; 1; 0]) two_rows)).

(** A canonical set given twice. *)
Lemma sequence_identifiers_identify_sequences_witness :
  canonical_members CanonicalSet [iri_row "urn:b"; iri_row "urn:a"; iri_row "urn:b"] =
  canonical_members CanonicalSet [iri_row "urn:a"; iri_row "urn:b"].
Proof.
  apply (sequence_identifiers_identify_sequences two_rows CanonicalSet [0; 1; 0]
    [iri_row "urn:b"; iri_row "urn:a"; iri_row "urn:b"] 0 (snd (serve (InternSequence CanonicalSet [0; 1; 0]) two_rows))
    with_set CanonicalSet [1; 0] [iri_row "urn:a"; iri_row "urn:b"] 0
    (snd (serve (InternSequence CanonicalSet [1; 0]) with_set)) calm_world calm_world).
  - apply after_reachable; [|exact empty_reachable].
    apply List.Forall_cons; [apply iri_row_ok; cbn; lia|].
    apply List.Forall_cons; [apply iri_row_ok; cbn; lia|apply List.Forall_nil].
  - vm_compute. reflexivity.
  - vm_compute. reflexivity.
  - apply (served_Ok (InternSequence CanonicalSet [0; 1; 0])). vm_compute. reflexivity.
  - apply rtc_refl.
  - apply (served_Ok (InternSequence CanonicalSet [1; 0])). vm_compute. reflexivity.
  - reflexivity.
Defined.

Lemma freeze_publishes_the_builder_witness :
  exists a, fst (freeze (after forward empty_builder) calm_world) = Ok a /\
    publishes (after forward empty_builder) (tables a).
Proof.
  pose proof (freeze_publishes_the_builder (after forward empty_builder) calm_world
    (after_reachable forward empty_builder forward_ok empty_reachable)) as H.
  destruct (freeze (after forward empty_builder) calm_world) as [[a|e|] w] eqn:E.
  - exists a. split; [reflexivity|exact H].
  - assert (fst (freeze (after forward empty_builder) calm_world) = Err e) as E' by (rewrite E; reflexivity).
    vm_compute in E'. discriminate E'.
  - destruct H.
Defined.

(** Contents listed in any order are the same contents. *)
Lemma same_content_of_lists b b' :
  scan_limits b = scan_limits b' ->
  map row_bytes (items (rows b)) ≡ₚ map row_bytes (items (rows b')) ->
  map (fun d => (seq_kind d, resolve (items (rows b)) (seq_elements d))) (items (draft_sequences b)) ≡ₚ
  map (fun d => (seq_kind d, resolve (items (rows b')) (seq_elements d))) (items (draft_sequences b')) ->
  map doc_scope (draft_documents b) ≡ₚ map doc_scope (draft_documents b') ->
  map anonymous_key (items (draft_anonymous b)) ≡ₚ map anonymous_key (items (draft_anonymous b')) ->
  same_content b b'.
Proof.
  intros El Hr Hs Hd Ha. constructor; unfold holds_document, holds_anonymous; [done|intros..].
  - by rewrite <- !list_elem_of_In, Hr.
  - assert (forall c, holds_sequence c kind members <-> In (kind, Some members)
      (map (fun d => (seq_kind d, resolve (items (rows c)) (seq_elements d))) (items (draft_sequences c)))) as H.
    { intros c. unfold holds_sequence. rewrite in_map_iff. split.
      - intros (d & Hin & <- & Hm). exists d. by rewrite Hm.
      - intros (d & [= <- Hm] & Hin). by exists d. }
    by rewrite !H, <- !list_elem_of_In, Hs.
  - by rewrite <- !list_elem_of_In, Hd.
  - by rewrite <- !list_elem_of_In, Ha.
Qed.

Lemma freeze_is_canonical_witness :
  exists a a', fst (freeze (after forward empty_builder) calm_world) = Ok a /\
    fst (freeze (after backward colliding_builder) calm_world) = Ok a' /\ tables a = tables a'.
Proof.
  destruct (freeze (after forward empty_builder) calm_world) as [[a|e|] w] eqn:E.
  2, 3: apply (f_equal fst) in E; vm_compute in E; discriminate E.
  destruct (freeze (after backward colliding_builder) calm_world) as [[a'|e'|] w'] eqn:E'.
  2, 3: apply (f_equal fst) in E'; vm_compute in E'; discriminate E'.
  exists a, a'. split; [reflexivity|]. split; [reflexivity|].
  apply (freeze_is_canonical (after forward empty_builder) (after backward colliding_builder)
    calm_world calm_world a a' w w').
  - apply after_reachable; [exact forward_ok|exact empty_reachable].
  - apply after_reachable; [exact backward_ok|exact colliding_reachable].
  - apply same_content_of_lists.
    + vm_compute. reflexivity.
    + vm_compute. apply Permutation_swap.
    + vm_compute. apply Permutation_swap.
    + vm_compute. apply Permutation_swap.
    + vm_compute. reflexivity.
  - exact E.
  - exact E'.
Defined.
