(* ===== verification/Decimal.v ===== *)
(** * Decimal text ([native/src/publication/codec.rs])

    Lengths and integers are written in decimal.  [decimal] is the
    specification: the digits of a number, most significant first, without
    leading zeros; [unsigned_decimal] fills a fixed buffer from its end. *)

From S2P Require Import Prelude Bytes Error Machine.

(** [b'0' + digit] *)
Definition digit_byte (digit : Z) : Z := 48 + digit.

(** The loop of [unsigned_decimal]: [offset] bytes of the buffer are free, and
    [written] are the bytes after them. *)
Fixpoint decimal_loop (offset : nat) (value : Z) (written : bytes) : outcome bytes :=
  match offset with
  | O => Panic
  | S offset =>
      let written := digit_byte (value mod 10) :: written in
      let value := value / 10 in
      if value =? 0 then Ok written else decimal_loop offset value written
  end.
Definition unsigned_decimal (value : Z) : outcome bytes := decimal_loop 39 value [].

(** [decimal_length]; 20 digits are enough for a [usize]. *)
Fixpoint length_loop (fuel : nat) (value length_ : Z) : outcome Z :=
  match fuel with
  | O => Panic
  | S fuel => if 10 <=? value then n ← usize_add length_ 1; length_loop fuel (value / 10) n else Ok length_
  end.
Definition decimal_length (value : Z) : outcome Z := length_loop 20 value 1.

(** ** Specification *)

Fixpoint decimal_digits (n : nat) (z : Z) : bytes :=
  match n with
  | O => []
  | S n => if z <? 10 then [digit_byte z] else decimal_digits n (z / 10) ++ [digit_byte (z mod 10)]
  end.
Definition decimal (z : Z) : bytes := decimal_digits (S (Z.to_nat (Z.log2 z))) z.

(** The number denoted by a string of digits. *)
Definition decimal_value (text : bytes) : Z := foldl (fun value byte => 10 * value + (byte - 48)) 0 text.

Definition is_digits (text : bytes) : Prop := Forall (fun b => 48 <= b <= 57) text.

(** Canonical: not empty, only digits, and no leading zero but in ["0"]. *)
Definition canonical_decimal (text : bytes) : Prop :=
  is_digits text /\ text <> [] /\ (hd 0 text = 48 -> text = [48]).

Lemma log2_div10 z : 10 <= z -> Z.log2 (z / 10) < Z.log2 z.
Proof.
  intros Hz. apply (Z.le_lt_trans _ (Z.log2 (z / 2))).
  - apply Z.log2_le_mono. Z.div_mod_to_equations. lia.
  - change (z / 2) with (z / 2 ^ 1). rewrite <- Z.shiftr_div_pow2, Z.log2_shiftr by lia.
    assert (1 <= Z.log2 z) by (apply Z.log2_le_pow2; lia). lia.
Qed.

Lemma decimal_digits_fuel n m z :
  (Z.to_nat (Z.log2 z) < n)%nat -> (Z.to_nat (Z.log2 z) < m)%nat -> decimal_digits n z = decimal_digits m z.
Proof.
  revert m z. induction n as [|n IH]; intros [|m] z Hn Hm; try lia. cbn [decimal_digits].
  destruct (Z.ltb_spec z 10); [done|]. pose proof (log2_div10 z ltac:(lia)). pose proof (Z.log2_nonneg (z / 10)).
  rewrite (IH m); [done|lia|lia].
Qed.

Lemma decimal_small z : 0 <= z < 10 -> decimal z = [digit_byte z].
Proof. intros. unfold decimal. cbn [decimal_digits]. by rewrite (proj2 (Z.ltb_lt z 10)) by lia. Qed.

Lemma decimal_large z : 10 <= z -> decimal z = decimal (z / 10) ++ [digit_byte (z mod 10)].
Proof.
  intros Hz. unfold decimal. cbn [decimal_digits]. rewrite (proj2 (Z.ltb_ge z 10)) by lia. f_equal.
  change (if z / 10 <? 10 then [digit_byte (z / 10)]
          else decimal_digits (Z.to_nat (Z.log2 (z / 10))) (z / 10 / 10) ++ [digit_byte (z / 10 mod 10)])
    with (decimal_digits (S (Z.to_nat (Z.log2 (z / 10)))) (z / 10)).
  pose proof (log2_div10 z Hz). pose proof (Z.log2_nonneg (z / 10)). apply decimal_digits_fuel; lia.
Qed.

(** Induction on the digits. *)
Lemma decimal_ind (P : Z -> Prop) :
  (forall z, 0 <= z < 10 -> P z) -> (forall z, 10 <= z -> P (z / 10) -> P z) -> forall z, 0 <= z -> P z.
Proof.
  intros H0 HS z Hz. pattern z. apply (Zlt_0_ind P); [|done]. clear z Hz. intros z IH Hz.
  destruct (Z.lt_ge_cases z 10); [by apply H0|]. apply HS; [done|]. apply IH. Z.div_mod_to_equations. lia.
Qed.

Lemma decimal_is_digits z : 0 <= z -> is_digits (decimal z).
Proof.
  revert z. apply decimal_ind; intros z Hz.
  - rewrite decimal_small by done. repeat constructor; unfold digit_byte; lia.
  - intros IH. rewrite decimal_large by done. apply Forall_app. split; [done|].
    pose proof (Z.mod_pos_bound z 10). repeat constructor; unfold digit_byte; lia.
Qed.

Lemma decimal_value_snoc text b : decimal_value (text ++ [b]) = 10 * decimal_value text + (b - 48).
Proof. unfold decimal_value. by rewrite foldl_app. Qed.

Lemma decimal_value_decimal z : 0 <= z -> decimal_value (decimal z) = z.
Proof.
  revert z. apply decimal_ind; intros z Hz.
  - rewrite decimal_small by done. cbn. unfold digit_byte. lia.
  - intros IH. rewrite decimal_large, decimal_value_snoc, IH by done. unfold digit_byte.
    pose proof (Z.div_mod z 10). lia.
Qed.

Lemma decimal_inj a b : 0 <= a -> 0 <= b -> decimal a = decimal b -> a = b.
Proof. intros Ha Hb E. by rewrite <- (decimal_value_decimal a), <- (decimal_value_decimal b), E. Qed.

Lemma decimal_canonical z : 0 <= z -> canonical_decimal (decimal z).
Proof.
  intros Hz. split; [by apply decimal_is_digits|]. revert z Hz. apply decimal_ind; intros z Hz.
  - rewrite decimal_small by done. unfold digit_byte. split; [done|]. cbn. by intros ->.
  - intros [Hn Hh]. rewrite decimal_large by done. destruct (decimal (z / 10)) as [|x l] eqn:E; [done|].
    split; [done|]. cbn [app hd]. intros ->. specialize (Hh eq_refl). injection Hh as ->.
    assert (0 < z / 10) by (apply Z.div_str_pos; lia).
    apply (f_equal decimal_value) in E. rewrite decimal_value_decimal in E by lia. cbn in E. lia.
Qed.

(** ** The code computes the specification *)

Lemma decimal_loop_spec n z written :
  0 <= z -> (0 < n)%nat -> z < 10 ^ Z.of_nat n -> decimal_loop n z written = Ok (decimal z ++ written).
Proof.
  intros Hz. revert n written. pattern z. revert z Hz. apply decimal_ind; intros z Hz.
  - intros [|n] written Hpos Hn; [lia|]. cbn [decimal_loop]. rewrite Z.div_small, Z.mod_small by lia.
    by rewrite decimal_small.
  - intros IH [|n] written Hpos Hn; [lia|]. cbn [decimal_loop]. rewrite Nat2Z.inj_succ, Z.pow_succ_r in Hn by lia.
    assert (0 < z / 10) by (apply Z.div_str_pos; lia). rewrite (proj2 (Z.eqb_neq _ _)) by lia.
    rewrite IH; [by rewrite (decimal_large z), <- app_assoc by done| |apply Z.div_lt_upper_bound; lia].
    destruct n; [change (10 ^ Z.of_nat 0) with 1 in Hn|]; lia.
Qed.

Lemma unsigned_decimal_spec z : 0 <= z < 10 ^ 39 -> unsigned_decimal z = Ok (decimal z).
Proof.
  intros Hz. unfold unsigned_decimal. rewrite decimal_loop_spec; [by rewrite app_nil_r|lia|lia|].
  change (Z.of_nat 39) with 39. lia.
Qed.

Lemma unsigned_decimal_u64 z : is_u64 z -> unsigned_decimal z = Ok (decimal z).
Proof. intros Hz. apply unsigned_decimal_spec. ulia. Qed.

Lemma decimal_length_pos z : 0 <= z -> 1 <= len (decimal z).
Proof. intros Hz. destruct (decimal_canonical z Hz) as (_ & Hn & _). destruct (decimal z); [done|cbn [length]; lia]. Qed.

Lemma length_loop_spec n z start :
  0 <= z -> (0 < n)%nat -> z < 10 ^ Z.of_nat n -> 0 <= start -> start + Z.of_nat n <= USIZE_MAX ->
  length_loop n z start = Ok (start + len (decimal z) - 1).
Proof.
  intros Hz. revert n start. pattern z. revert z Hz. apply decimal_ind; intros z Hz.
  - intros [|n] start Hpos Hn Hs Hmax; [lia|]. cbn [length_loop]. rewrite (proj2 (Z.leb_gt _ _)) by lia.
    rewrite decimal_small by done. cbn [length]. f_equal. lia.
  - intros IH [|n] start Hpos Hn Hs Hmax; [lia|]. cbn [length_loop]. rewrite (proj2 (Z.leb_le _ _)) by lia.
    rewrite Nat2Z.inj_succ, Z.pow_succ_r in Hn by lia. unfold usize_add. rewrite checked_add_ok by lia.
    cbn [or_panic mbind outcome_mbind outcome_bind]. rewrite IH; [| |apply Z.div_lt_upper_bound; lia|lia|lia].
    + rewrite (decimal_large z), length_app by done. cbn [length]. f_equal. lia.
    + destruct n; [change (10 ^ Z.of_nat 0) with 1 in Hn|]; lia.
Qed.

Lemma decimal_length_spec z : is_usize z -> decimal_length z = Ok (len (decimal z)).
Proof.
  intros Hz. unfold decimal_length. rewrite length_loop_spec; [f_equal; lia|ulia|lia| |lia|].
  - change (Z.of_nat 20) with 20. ulia.
  - ulia.
Qed.

(** Digits end where something else begins. *)
Lemma digits_app_inj a b x y p q :
  is_digits a -> is_digits b -> ~ 48 <= x <= 57 -> ~ 48 <= y <= 57 -> a ++ x :: p = b ++ y :: q ->
  a = b /\ x = y /\ p = q.
Proof.
  intros Ha. revert b. induction Ha as [|c a Hc Ha IH]; intros b Hb Hx Hy E.
  - destruct b as [|d b]; [by injection E|]. apply Forall_cons in Hb as [Hd _]. injection E as -> _. done.
  - destruct b as [|d b]; [injection E as -> _; done|]. apply Forall_cons in Hb as [_ Hb].
    injection E as -> E. destruct (IH b Hb Hx Hy E) as (-> & ? & ?). done.
Qed.

(** ** Comparing canonical numbers as text *)

Lemma decimal_value_nonneg text : is_digits text -> 0 <= decimal_value text.
Proof.
  induction text as [|b text IH] using rev_ind; intros Ht; [done|]. rewrite decimal_value_snoc.
  apply Forall_app in Ht as [Ht Hb]. apply Forall_inv in Hb. specialize (IH Ht). lia.
Qed.

Lemma foldl_value text value :
  foldl (fun value byte => 10 * value + (byte - 48)) value text = value * 10 ^ len text + decimal_value text.
Proof.
  induction text as [|b text IH] using rev_ind.
  - cbn. change (10 ^ 0) with 1. lia.
  - rewrite foldl_app, IH, decimal_value_snoc, length_app. cbn [foldl length].
    rewrite Nat2Z.inj_add, Z.pow_add_r by lia. change (10 ^ Z.of_nat 1) with 10. lia.
Qed.

Lemma decimal_value_cons b text : decimal_value (b :: text) = (b - 48) * 10 ^ len text + decimal_value text.
Proof. unfold decimal_value at 1. cbn [foldl]. rewrite foldl_value. lia. Qed.

Lemma decimal_value_bound text : is_digits text -> decimal_value text < 10 ^ len text.
Proof.
  induction 1 as [|b text Hb _ IH]; [done|]. rewrite decimal_value_cons. cbn [length].
  rewrite Nat2Z.inj_succ, Z.pow_succ_r by lia. nia.
Qed.

(** Of the same length, numbers compare as their texts do. *)
Lemma decimal_compare x y :
  is_digits x -> is_digits y -> length x = length y -> bytes_compare x y = (decimal_value x ?= decimal_value y).
Proof.
  intros Hx. revert y. induction Hx as [|a x Ha Hx IH]; intros [|b y] Hy Hl; try done.
  apply Forall_cons in Hy as [Hb Hy]. injection Hl as Hl. cbn [bytes_compare].
  rewrite !decimal_value_cons, Hl.
  pose proof (decimal_value_nonneg x Hx). pose proof (decimal_value_nonneg y Hy).
  pose proof (decimal_value_bound x Hx) as Bx. pose proof (decimal_value_bound y Hy). rewrite Hl in Bx.
  destruct (Z.compare_spec a b) as [->|Hlt|Hgt].
  - rewrite IH by done. by rewrite Z.add_compare_mono_l.
  - symmetry. apply Z.compare_lt_iff. nia.
  - symmetry. apply Z.compare_gt_iff. nia.
Qed.

(** A canonical positive number with more digits is larger. *)
Lemma decimal_value_lower b text :
  49 <= b <= 57 -> is_digits text -> 10 ^ len text <= decimal_value (b :: text).
Proof. intros Hb Ht. rewrite decimal_value_cons. pose proof (decimal_value_nonneg text Ht). nia. Qed.
