(* ===== verification/Records.v ===== *)
(** * The records of a snapshot publication ([native/src/publication/records.rs])

    Strings are their UTF-8 bytes, digests byte strings, and an [f64] its bit
    pattern.  A [PositiveIntegerV1] keeps the canonical decimal text of its
    producer and is compared as text. *)

From S2P Require Import Prelude Bytes Error Machine Decimal Arena.

(** [f64::to_bits] of the value. *)
Notation f64_bits := Z.

(** ** Positive integers of any size *)

Record PositiveIntegerV1 := mkPositive { positive_decimal : bytes }.

(** [value.to_string()] of a [u64] is its decimal text. *)
Definition to_string (value : Z) : bytes := decimal value.

(** [str::starts_with] of one character *)
Definition starts_with (c : Z) (text : bytes) : bool := match text with x :: _ => x =? c | [] => false end.
Definition is_empty (text : bytes) : bool := match text with [] => true | _ => false end.

(** [PositiveIntegerV1::from_decimal] *)
Definition from_decimal (value : bytes) : M World PositiveIntegerV1 :=
  ensure_not (4096 <? len value) (limit "native publication integer exceeds digit limits");;
  ensure_not (is_empty value || bytes_eqb value (str "0") || starts_with 48 value ||
              negb (forallb is_ascii_digit value))
    (protocol "native publication integer is not canonical positive decimal");;
  try_reserve "native publication integer allocation failed";;
  mret {| positive_decimal := value |}.

(** [PositiveIntegerV1::from_u64] *)
Definition from_u64 (value : Z) : M World PositiveIntegerV1 :=
  ensure_not (value =? 0) (protocol "native publication integer must be positive");;
  from_decimal (to_string value).

(** [PositiveIntegerV1::allows] *)
Definition allows (self : PositiveIntegerV1) (observed : Z) : bool :=
  let observed := to_string observed in
  (len observed <? len (positive_decimal self)) ||
  ((len (positive_decimal self) =? len observed) && bytes_leb observed (positive_decimal self)).

(** ** Enumerations and records *)

Record ApiVersion := mkApiVersion { api_major : Z; api_minor : Z }.

Record OntologyIdV1 := mkOntologyIdV1 {
  ontology_iri : option bytes;
  version_iri : option bytes
}.

Record FingerprintV1 := mkFingerprintV1 {
  fp_schema : PositiveIntegerV1;
  fp_digest : bytes
}.

Inductive DiagnosticSeverityV1 := Severity_Info | Severity_Warning | Severity_Error.
#[export] Instance DiagnosticSeverityV1_eq_dec : EqDecision DiagnosticSeverityV1.
Proof. solve_decision. Defined.
Definition DiagnosticSeverityV1_as_str (v : DiagnosticSeverityV1) : bytes :=
  str (match v with
       | Severity_Info => "info"
       | Severity_Warning => "warning"
       | Severity_Error => "error"
       end).
Lemma DiagnosticSeverityV1_as_str_inj v w : DiagnosticSeverityV1_as_str v = DiagnosticSeverityV1_as_str w -> v = w.
Proof. by destruct v, w. Qed.


Inductive DiagnosticScalarV1 := Scalar_Text (value : bytes) | Scalar_Integer (value : Z) | Scalar_Boolean (value : bool).

Record DiagnosticV1 := mkDiagnosticV1 {
  diag_code : bytes;
  diag_severity : DiagnosticSeverityV1;
  diag_message : bytes;
  diag_document_iri : option bytes;
  diag_byte_start : option Z;
  diag_byte_end : option Z;
  diag_line_start : option Z;
  diag_column_start : option Z;
  diag_line_end : option Z;
  diag_column_end : option Z;
  diag_import_chain : list bytes;
  diag_details : list (bytes * DiagnosticScalarV1)
}.

Inductive DigestKindV1 := DigestKind_ExactBytes | DigestKind_NormalizedText.
#[export] Instance DigestKindV1_eq_dec : EqDecision DigestKindV1.
Proof. solve_decision. Defined.
Definition DigestKindV1_as_str (v : DigestKindV1) : bytes :=
  str (match v with
       | DigestKind_ExactBytes => "exact-bytes"
       | DigestKind_NormalizedText => "normalized-text"
       end).
Lemma DigestKindV1_as_str_inj v w : DigestKindV1_as_str v = DigestKindV1_as_str w -> v = w.
Proof. by destruct v, w. Qed.


Inductive DocumentFormatV1 := Format_RdfXml | Format_Turtle | Format_OwlXml | Format_Functional.
#[export] Instance DocumentFormatV1_eq_dec : EqDecision DocumentFormatV1.
Proof. solve_decision. Defined.
Definition DocumentFormatV1_as_str (v : DocumentFormatV1) : bytes :=
  str (match v with
       | Format_RdfXml => "rdfxml"
       | Format_Turtle => "turtle"
       | Format_OwlXml => "owlxml"
       | Format_Functional => "functional"
       end).
Lemma DocumentFormatV1_as_str_inj v w : DocumentFormatV1_as_str v = DocumentFormatV1_as_str w -> v = w.
Proof. by destruct v, w. Qed.


Inductive DetectionBasisV1 := Basis_Explicit | Basis_MediaType | Basis_Content | Basis_Extension.
#[export] Instance DetectionBasisV1_eq_dec : EqDecision DetectionBasisV1.
Proof. solve_decision. Defined.
Definition DetectionBasisV1_as_str (v : DetectionBasisV1) : bytes :=
  str (match v with
       | Basis_Explicit => "explicit"
       | Basis_MediaType => "media-type"
       | Basis_Content => "content"
       | Basis_Extension => "extension"
       end).
Lemma DetectionBasisV1_as_str_inj v w : DetectionBasisV1_as_str v = DetectionBasisV1_as_str w -> v = w.
Proof. by destruct v, w. Qed.


Record DocumentProvenanceV1 := mkDocumentProvenanceV1 {
  prov_source_sha256 : bytes;
  prov_digest_kind : DigestKindV1;
  prov_byte_length : Z;
  prov_decoded_codepoint_length : Z;
  prov_document_iri : option bytes;
  prov_acquisition_locator : option bytes;
  prov_format : DocumentFormatV1;
  prov_detection_basis : DetectionBasisV1;
  prov_media_type : option bytes;
  prov_expected_sha256 : option bytes;
  prov_parser : bytes;
  prov_backend : bytes;
  prov_api_version : ApiVersion;
  prov_model_schema : Z
}.

Inductive ImportDocumentStatusV1 := DocumentStatus_Root | DocumentStatus_Resolved.
#[export] Instance ImportDocumentStatusV1_eq_dec : EqDecision ImportDocumentStatusV1.
Proof. solve_decision. Defined.
Definition ImportDocumentStatusV1_as_str (v : ImportDocumentStatusV1) : bytes :=
  str (match v with
       | DocumentStatus_Root => "root"
       | DocumentStatus_Resolved => "resolved"
       end).
Lemma ImportDocumentStatusV1_as_str_inj v w : ImportDocumentStatusV1_as_str v = ImportDocumentStatusV1_as_str w -> v = w.
Proof. by destruct v, w. Qed.


Record ImportDocumentV1 := mkImportDocumentV1 {
  idoc_document_key : bytes;
  idoc_ontology_id : OntologyIdV1;
  idoc_document_iri : option bytes;
  idoc_source_sha256 : bytes;
  idoc_document_fingerprint : FingerprintV1;
  idoc_format : DocumentFormatV1;
  idoc_status : ImportDocumentStatusV1
}.

Inductive ImportEdgeStatusV1 := EdgeStatus_Resolved | EdgeStatus_Unresolved | EdgeStatus_Ignored | EdgeStatus_Denied | EdgeStatus_Failed.
#[export] Instance ImportEdgeStatusV1_eq_dec : EqDecision ImportEdgeStatusV1.
Proof. solve_decision. Defined.
Definition ImportEdgeStatusV1_as_str (v : ImportEdgeStatusV1) : bytes :=
  str (match v with
       | EdgeStatus_Resolved => "resolved"
       | EdgeStatus_Unresolved => "unresolved"
       | EdgeStatus_Ignored => "ignored"
       | EdgeStatus_Denied => "denied"
       | EdgeStatus_Failed => "failed"
       end).
Lemma ImportEdgeStatusV1_as_str_inj v w : ImportEdgeStatusV1_as_str v = ImportEdgeStatusV1_as_str w -> v = w.
Proof. by destruct v, w. Qed.


Record ImportEdgeV1 := mkImportEdgeV1 {
  edge_importing_document_key : bytes;
  edge_import_iri : bytes;
  edge_status : ImportEdgeStatusV1;
  edge_resolved_document_key : option bytes;
  edge_resolver_name : option bytes;
  edge_sanitized_locator : option bytes;
  edge_diagnostic : option DiagnosticV1
}.

Inductive ImportPolicyV1 := Policy_Ignore | Policy_RecordUnresolved | Policy_ResolveLocal | Policy_ResolveStrict.
#[export] Instance ImportPolicyV1_eq_dec : EqDecision ImportPolicyV1.
Proof. solve_decision. Defined.
Definition ImportPolicyV1_as_str (v : ImportPolicyV1) : bytes :=
  str (match v with
       | Policy_Ignore => "ignore"
       | Policy_RecordUnresolved => "record_unresolved"
       | Policy_ResolveLocal => "resolve_local"
       | Policy_ResolveStrict => "resolve_strict"
       end).
Lemma ImportPolicyV1_as_str_inj v w : ImportPolicyV1_as_str v = ImportPolicyV1_as_str w -> v = w.
Proof. by destruct v, w. Qed.


Record ImportManifestV1 := mkImportManifestV1 {
  manifest_policy : ImportPolicyV1;
  manifest_offline : bool;
  manifest_resolver_configuration_fingerprint : bytes;
  manifest_documents : list ImportDocumentV1;
  manifest_edges : list ImportEdgeV1
}.

Record DocumentPublicationV1 := mkDocumentPublicationV1 {
  doc_document_key : bytes;
  doc_ontology_id : OntologyIdV1;
  doc_document_iri : option bytes;
  doc_direct_imports : list bytes;
  doc_provenance : DocumentProvenanceV1;
  doc_document_fingerprint : FingerprintV1;
  doc_diagnostics : list DiagnosticV1;
  doc_ontology_annotation_count : Z;
  doc_axiom_count : Z;
  doc_extension_count : Z;
  doc_source_map_entry_count : Z;
  doc_origin_entry_count : Z;
  doc_rdf_mapping_conformant : option bool;
  doc_rdf_mapping_report_sha256 : option bytes
}.

Inductive BackendPreferenceV1 := Backend_Auto | Backend_Python | Backend_Native.
#[export] Instance BackendPreferenceV1_eq_dec : EqDecision BackendPreferenceV1.
Proof. solve_decision. Defined.
Definition BackendPreferenceV1_as_str (v : BackendPreferenceV1) : bytes :=
  str (match v with
       | Backend_Auto => "auto"
       | Backend_Python => "python"
       | Backend_Native => "native"
       end).
Lemma BackendPreferenceV1_as_str_inj v w : BackendPreferenceV1_as_str v = BackendPreferenceV1_as_str w -> v = w.
Proof. by destruct v, w. Qed.


Inductive DeadlineSecondsV1 := Deadline_Integer (value : PositiveIntegerV1) | Deadline_Float (value : f64_bits).

Record ParseLimitsV1 := mkParseLimitsV1 {
  pl_max_source_bytes : PositiveIntegerV1;
  pl_max_documents : PositiveIntegerV1;
  pl_max_total_source_bytes : PositiveIntegerV1;
  pl_max_axioms : PositiveIntegerV1;
  pl_max_terms : PositiveIntegerV1;
  pl_max_nesting_depth : PositiveIntegerV1;
  pl_max_rdf_list_length : PositiveIntegerV1;
  pl_max_literal_bytes : PositiveIntegerV1;
  pl_max_iri_bytes : PositiveIntegerV1;
  pl_max_prefixes : PositiveIntegerV1;
  pl_max_import_depth : PositiveIntegerV1;
  pl_max_redirects : PositiveIntegerV1;
  pl_max_diagnostics : PositiveIntegerV1;
  pl_max_memory_bytes : option PositiveIntegerV1;
  pl_deadline_seconds : option DeadlineSecondsV1;
  pl_max_triples : PositiveIntegerV1;
  pl_max_strings : PositiveIntegerV1;
  pl_max_annotations : PositiveIntegerV1;
  pl_max_rule_atoms : PositiveIntegerV1;
  pl_max_sequence_arity : PositiveIntegerV1;
  pl_max_catalog_rewrites : PositiveIntegerV1;
  pl_max_resolver_attempts : PositiveIntegerV1;
  pl_max_concurrent_fetches : PositiveIntegerV1;
  pl_max_source_map_entries : PositiveIntegerV1;
  pl_max_origin_entries : PositiveIntegerV1;
  pl_max_overlay_depth : PositiveIntegerV1;
  pl_max_delta_entries : PositiveIntegerV1;
  pl_max_composite_members : PositiveIntegerV1;
  pl_max_index_rows : PositiveIntegerV1;
  pl_max_index_bytes : PositiveIntegerV1;
  pl_max_wire_rows : PositiveIntegerV1;
  pl_max_wire_bytes : PositiveIntegerV1;
  pl_max_temporary_bytes : PositiveIntegerV1;
  pl_max_disk_cache_bytes : PositiveIntegerV1;
  pl_max_decompressed_bytes : PositiveIntegerV1;
  pl_max_canonical_work : PositiveIntegerV1;
  pl_cancellation_check_interval : PositiveIntegerV1
}.

(** [ParseLimitsV1::default]: a limit that cannot be built would panic. *)
Definition expect {S A} (m : M S A) : M S A := fun s =>
  match m s with (Err _, s') => (Panic, s') | r => r end.
Definition positive (value : Z) : M World PositiveIntegerV1 := expect (from_u64 value).
Definition ParseLimitsV1_default : M World ParseLimitsV1 :=
  max_source_bytes ← positive (2 * 1024^3);
  max_documents ← positive (1000);
  max_total_source_bytes ← positive (8 * 1024^3);
  max_axioms ← positive (100000000);
  max_terms ← positive (500000000);
  max_nesting_depth ← positive (512);
  max_rdf_list_length ← positive (10000000);
  max_literal_bytes ← positive (64 * 1024^2);
  max_iri_bytes ← positive (1024 * 1024);
  max_prefixes ← positive (1000000);
  max_import_depth ← positive (128);
  max_redirects ← positive (5);
  max_diagnostics ← positive (10000);
  max_triples ← positive (100000000);
  max_strings ← positive (500000000);
  max_annotations ← positive (100000000);
  max_rule_atoms ← positive (10000000);
  max_sequence_arity ← positive (10000000);
  max_catalog_rewrites ← positive (128);
  max_resolver_attempts ← positive (10000);
  max_concurrent_fetches ← positive (8);
  max_source_map_entries ← positive (100000000);
  max_origin_entries ← positive (100000000);
  max_overlay_depth ← positive (32);
  max_delta_entries ← positive (10000000);
  max_composite_members ← positive (1024);
  max_index_rows ← positive (500000000);
  max_index_bytes ← positive (16 * 1024^3);
  max_wire_rows ← positive (500000000);
  max_wire_bytes ← positive (16 * 1024^3);
  max_temporary_bytes ← positive (16 * 1024^3);
  max_disk_cache_bytes ← positive (64 * 1024^3);
  max_decompressed_bytes ← positive (8 * 1024^3);
  max_canonical_work ← positive (1000000000);
  cancellation_check_interval ← positive (4096);
  mret {|
    pl_max_source_bytes := max_source_bytes;
    pl_max_documents := max_documents;
    pl_max_total_source_bytes := max_total_source_bytes;
    pl_max_axioms := max_axioms;
    pl_max_terms := max_terms;
    pl_max_nesting_depth := max_nesting_depth;
    pl_max_rdf_list_length := max_rdf_list_length;
    pl_max_literal_bytes := max_literal_bytes;
    pl_max_iri_bytes := max_iri_bytes;
    pl_max_prefixes := max_prefixes;
    pl_max_import_depth := max_import_depth;
    pl_max_redirects := max_redirects;
    pl_max_diagnostics := max_diagnostics;
    pl_max_memory_bytes := None;
    pl_deadline_seconds := None;
    pl_max_triples := max_triples;
    pl_max_strings := max_strings;
    pl_max_annotations := max_annotations;
    pl_max_rule_atoms := max_rule_atoms;
    pl_max_sequence_arity := max_sequence_arity;
    pl_max_catalog_rewrites := max_catalog_rewrites;
    pl_max_resolver_attempts := max_resolver_attempts;
    pl_max_concurrent_fetches := max_concurrent_fetches;
    pl_max_source_map_entries := max_source_map_entries;
    pl_max_origin_entries := max_origin_entries;
    pl_max_overlay_depth := max_overlay_depth;
    pl_max_delta_entries := max_delta_entries;
    pl_max_composite_members := max_composite_members;
    pl_max_index_rows := max_index_rows;
    pl_max_index_bytes := max_index_bytes;
    pl_max_wire_rows := max_wire_rows;
    pl_max_wire_bytes := max_wire_bytes;
    pl_max_temporary_bytes := max_temporary_bytes;
    pl_max_disk_cache_bytes := max_disk_cache_bytes;
    pl_max_decompressed_bytes := max_decompressed_bytes;
    pl_max_canonical_work := max_canonical_work;
    pl_cancellation_check_interval := cancellation_check_interval
  |}.

Record LoadOptionsV1 := mkLoadOptionsV1 {
  opt_format : option DocumentFormatV1;
  opt_imports : ImportPolicyV1;
  opt_backend : BackendPreferenceV1;
  opt_limits : ParseLimitsV1;
  opt_offline : bool;
  opt_preserve_source_map : bool;
  opt_collect_provenance : bool;
  opt_validate_owl2_dl : bool;
  opt_deterministic : bool
}.

Record LoadReportV1 := mkLoadReportV1 {
  report_backend : bytes;
  report_api_version : ApiVersion;
  report_model_schema : Z;
  report_document_count : Z;
  report_total_source_bytes : Z;
  report_effective_axiom_count : Z;
  report_resolution_attempts : Z;
  report_acquisition_cache_hits : Z;
  report_document_cache_hits : Z;
  report_timings : list (bytes * f64_bits);
  report_structural_fingerprint : FingerprintV1;
  report_logical_fingerprint : FingerprintV1;
  report_signature_fingerprint : FingerprintV1;
  report_owl2_dl_validated : bool;
  report_owl2_dl_conforms : option bool;
  report_owl2_dl_report_sha256 : option bytes
}.

Record NativeSnapshotAttestationV1 := mkNativeSnapshotAttestationV1 {
  att_version : Z;
  att_ledger_sha256 : bytes;
  att_root_table_sha256 : bytes;
  att_fingerprint_inputs_sha256 : bytes;
  att_source_manifest_sha256 : bytes;
  att_provenance_manifest_sha256 : bytes;
  att_diagnostics_manifest_sha256 : bytes;
  att_load_options_sha256 : bytes;
  att_report_sha256 : bytes;
  att_document_count : Z;
  att_import_edge_count : Z;
  att_diagnostic_count : Z;
  att_ontology_annotation_count : Z;
  att_stored_axiom_count : Z;
  att_effective_axiom_count : Z;
  att_extension_count : Z;
  att_total_source_bytes : Z;
  att_source_map_entry_count : Z;
  att_origin_entry_count : Z;
  att_rdf_mapping_report_count : Z;
  att_capability_bits : Z;
  att_api_version : ApiVersion;
  att_model_schema : Z;
  att_backend : bytes;
  att_root_document_key : bytes;
  att_owl2_dl_validated : bool;
  att_owl2_dl_conforms : option bool;
  att_owl2_dl_report_sha256 : option bytes
}.

Record DocumentMembersV1 := mkDocumentMembersV1 {
  members_ontology_annotations : list Z;
  members_axioms : list Z;
  members_extensions : list Z
}.

Record PublicationCountersV1 := mkPublicationCountersV1 {
  cnt_retained_metadata_bytes : Z;
  cnt_metadata_records : Z;
  cnt_arena_rows_copied : Z;
  cnt_membership_rows : Z
}.

Record PublicationDraftV1 := mkPublicationDraftV1 {
  draft_arena : NativeArena;
  draft_documents : list DocumentPublicationV1;
  draft_document_members : list DocumentMembersV1;
  draft_import_manifest : ImportManifestV1;
  draft_root_document_key : bytes;
  draft_load_options : LoadOptionsV1;
  draft_diagnostics : list DiagnosticV1;
  draft_report : LoadReportV1;
  draft_capability_bits : Z;
  draft_root_table_sha256 : bytes;
  draft_fingerprint_inputs_sha256 : bytes;
  draft_source_manifest_sha256 : bytes;
  draft_provenance_manifest_sha256 : bytes
}.

(** ** Comparing limits *)

(** A limit that [from_decimal] accepts: the canonical text of a positive number. *)
Definition positive_ok (p : PositiveIntegerV1) : Prop :=
  canonical_decimal (positive_decimal p) /\ hd 0 (positive_decimal p) <> 48 /\ len (positive_decimal p) <= 4096.

Definition positive_value (p : PositiveIntegerV1) : Z := decimal_value (positive_decimal p).

Lemma is_ascii_digit_range b : is_ascii_digit b = true <-> 48 <= b <= 57.
Proof. unfold is_ascii_digit, in_range. rewrite andb_true_iff, !Z.leb_le. done. Qed.

Lemma wp_from_decimal value (Q : PositiveIntegerV1 -> World -> Prop) w :
  (forall p w', positive_decimal p = value -> positive_ok p -> Q p w') -> wp (from_decimal value) Q w.
Proof.
  intros HQ. unfold from_decimal. do 4 step. bool_to_prop. do 2 step. step. apply HQ; [done|].
  assert (is_digits value) as Hd.
  { apply List.Forall_forall. intros b Hb. apply is_ascii_digit_range. by eapply forallb_forall. }
  unfold positive_ok, canonical_decimal. cbn [positive_decimal]. destruct value as [|b value]; [done|].
  cbn [starts_with hd] in *. bool_to_prop. splits; done.
Qed.

(** The numbers of a limit and of an observed value compare as their texts. *)
Lemma allows_value p observed : positive_ok p -> 0 <= observed -> allows p observed = (observed <=? positive_value p).
Proof.
  intros ([Hd [Hne _]] & Hhd & _) Ho. unfold allows, to_string, positive_value.
  destruct (decimal_canonical observed Ho) as (Hod & Hone & Hohd).
  rewrite <- (decimal_value_decimal observed) at 4 by done.
  set (x := positive_decimal p) in *. set (y := decimal observed) in *.
  pose proof (decimal_value_bound x Hd). pose proof (decimal_value_bound y Hod).
  pose proof (decimal_value_nonneg x Hd). pose proof (decimal_value_nonneg y Hod).
  assert (10 ^ (len x - 1) <= decimal_value x) as Hx.
  { destruct x as [|b x']; [done|]. apply Forall_cons in Hd as [Hb Hd']. cbn [hd length] in *.
    replace (Z.of_nat (S (length x')) - 1) with (len x') by lia. apply decimal_value_lower; [lia|done]. }
  destruct (Z.ltb_spec (len y) (len x)); cbn [orb].
  - symmetry. apply Z.leb_le. assert (10 ^ len y <= 10 ^ (len x - 1)) by (apply Z.pow_le_mono_r; lia). lia.
  - destruct (Z.eqb_spec (len x) (len y)) as [El|]; cbn [andb].
    + unfold bytes_leb. rewrite decimal_compare by (done || lia).
      destruct (Z.compare_spec (decimal_value y) (decimal_value x)); symmetry; [apply Z.leb_le|apply Z.leb_le|apply Z.leb_gt]; lia.
    + symmetry. apply Z.leb_gt. destruct y as [|b y']; [done|]. apply Forall_cons in Hod as [Hb Hod'].
      cbn [hd length] in *. assert (len x <= len y') by lia.
      assert (10 ^ len x <= 10 ^ len y') by (apply Z.pow_le_mono_r; lia).
      destruct (Z.eq_dec b 48) as [->|]; [specialize (Hohd eq_refl); injection Hohd as ->; cbn [length] in *; destruct x; [done|cbn [length] in *; lia]|].
      pose proof (decimal_value_lower b y' ltac:(lia) Hod'). lia.
Qed.

(** A limit of any number of digits allows an observed count exactly when
    the count is at most the number its text denotes. *)
Theorem allows_compares_numbers text p w w' observed :
  from_decimal text w = (Ok p, w') -> is_u64 observed ->
  allows p observed = true <-> observed <= decimal_value text.
Proof.
  intros E Ho. refine (wp_Ok _ (fun p _ => allows p observed = true <-> observed <= decimal_value text) _ _ _ _ E).
  apply wp_from_decimal. intros q _ <- Hq. rewrite allows_value by (done || ulia). apply Z.leb_le.
Qed.

Lemma allows_compares_numbers_witness :
  allows {| positive_decimal := str "18446744073709551616" |} U64_MAX = true <->
  U64_MAX <= decimal_value (str "18446744073709551616").
Proof.
  apply (allows_compares_numbers (str "18446744073709551616") _ calm_world (snd (look calm_world)) U64_MAX).
  - vm_compute. reflexivity.
  - split; vm_compute; discriminate.
Defined.

Example default_limits_exist :
  match fst (ParseLimitsV1_default calm_world) with Ok l => positive_decimal (pl_max_wire_bytes l) = str "17179869184" | _ => False end.
Proof. vm_compute. reflexivity. Qed.
