(* ===== verification/Codec.v ===== *)
(** * The attestation codec ([native/src/publication/codec.rs])

    Every value is written as a tagged, length-framed scalar behind a domain
    string, and digests are taken of the result.  Vectors grow through
    [try_reserve], so the writers run in the [World] monad. *)

From S2P Require Import Prelude Bytes Error Machine Hash Decimal Records.

Definition ATTESTATION_DOMAIN : bytes := str "pyowl-core:native-snapshot-publication-attestation:v1" ++ [0].
Definition DIAGNOSTIC_DOMAIN : bytes := str "pyowl-core:native-diagnostic:v1" ++ [0].
Definition DIAGNOSTICS_DOMAIN : bytes := str "pyowl-core:native-diagnostics-manifest:v1" ++ [0].
Definition LOAD_OPTIONS_DOMAIN : bytes := str "pyowl-core:native-load-options:v1" ++ [0].
Definition REPORT_DOMAIN : bytes := str "pyowl-core:native-load-report:v1" ++ [0].

(** ** Growing a vector *)

(** [encoding_limit], and [reserve]: the amounts never matter to the result. *)
Definition encoding_failed : string := "native publication encoding allocation failed".
Definition encoding_limit : NativeError := limit encoding_failed.
Definition reserve_encoding : M World unit := try_reserve encoding_failed.

(** [checked_add] of sizes, in sequence *)
Definition checked_sum (values : list Z) : M World Z :=
  lift (ofor_each (fun value total => ok_or (checked_add USIZE_MAX total value) encoding_limit) values 0).

(** [reserved], [owned], [append], [append_byte] *)
Definition reserved (capacity : Z) : M World bytes := reserve_encoding;; mret [].
Definition owned (value : bytes) : M World bytes := result ← reserved (len value); mret (result ++ value).
Definition append (target value : bytes) : M World bytes := reserve_encoding;; mret (target ++ value).
Definition append_byte (target : bytes) (value : Z) : M World bytes := reserve_encoding;; mret (target ++ [value]).

(** [append_decimal_usize] *)
Definition append_decimal_usize (target : bytes) (value : Z) : M World bytes :=
  digits ← lift (unsigned_decimal value); append target digits.

(** [append_frame] *)
Definition append_frame (target value : bytes) : M World bytes :=
  digits ← lift (decimal_length (len value));
  additional ← checked_sum [digits; 1; len value];
  reserve_encoding;;
  target ← append_decimal_usize target (len value);
  target ← append_byte target 58;
  append target value.

(** ** Scalars *)

(** [tagged_frame], [prefixed], [prefixed_terminated] *)
Definition tagged_frame (tag : Z) (value : bytes) : M World bytes :=
  digits ← lift (decimal_length (len value));
  capacity ← checked_sum [1; digits; 1; len value];
  result ← reserved capacity;
  result ← append_decimal_usize (result ++ [tag]) (len value);
  mret (result ++ [58] ++ value).
Definition prefixed (tag : Z) (value : bytes) : M World bytes :=
  capacity ← checked_sum [len value; 1];
  result ← reserved capacity;
  mret (result ++ [tag] ++ value).
Definition prefixed_terminated (tag : Z) (value : bytes) : M World bytes :=
  capacity ← checked_sum [len value; 2];
  result ← reserved capacity;
  mret (result ++ [tag] ++ value ++ [59]).

(** [scalar_sequence]; [framed_length] is its first loop. *)
Definition framed_length (values : list bytes) : M World Z :=
  lift (ofor_each (fun value body_length =>
    digits ← decimal_length (len value);
    ok_or (n ← checked_add USIZE_MAX body_length digits;
           n ← checked_add USIZE_MAX n 1;
           checked_add USIZE_MAX n (len value)) encoding_limit) values 0).
Definition scalar_sequence (values : list bytes) : M World bytes :=
  body_length ← framed_length values;
  digits ← lift (decimal_length body_length);
  capacity ← checked_sum [1; digits; 1; body_length];
  result ← reserved capacity;
  result ← append_decimal_usize (result ++ [113]) body_length;
  for_each (fun value result => append_frame result value) values (result ++ [58]).

(** [domain_sequence] *)
Definition domain_sequence (domain : bytes) (values : list bytes) : M World bytes :=
  sequence ← scalar_sequence values;
  capacity ← checked_sum [len domain; len sequence];
  result ← reserved capacity;
  mret (result ++ domain ++ sequence).

Definition scalar_none : M World bytes := owned (str "n").
Definition scalar_bool (value : bool) : M World bytes := owned (if value then str "b1" else str "b0").
Definition scalar_str (value : bytes) : M World bytes := tagged_frame 115 value.
Definition scalar_bytes (value : bytes) : M World bytes := tagged_frame 121 value.
Definition scalar_iri (value : bytes) : M World bytes := tagged_frame 114 value.
Definition scalar_u64 (value : Z) : M World bytes :=
  digits ← lift (unsigned_decimal value); prefixed_terminated 105 digits.
Definition scalar_positive (value : PositiveIntegerV1) : M World bytes :=
  prefixed_terminated 105 (positive_decimal value).
Definition scalar_i64 (value : Z) : M World bytes :=
  digits ← lift (unsigned_decimal (Z.abs value));
  if 0 <=? value then prefixed_terminated 105 digits else
  capacity ← checked_sum [len digits; 3];
  result ← reserved capacity;
  mret (result ++ str "i-" ++ digits ++ [59]).

(** [value.map_or_else(scalar_none, scalar)] *)
Definition scalar_optional {A} (scalar : A -> M World bytes) (value : option A) : M World bytes :=
  match value with Some value => scalar value | None => scalar_none end.
Definition scalar_optional_bool : option bool -> M World bytes := scalar_optional scalar_bool.
Definition scalar_optional_str : option bytes -> M World bytes := scalar_optional scalar_str.
Definition scalar_optional_iri : option bytes -> M World bytes := scalar_optional scalar_iri.
Definition scalar_optional_bytes : option bytes -> M World bytes := scalar_optional scalar_bytes.
Definition scalar_optional_u64 : option Z -> M World bytes := scalar_optional scalar_u64.
Definition scalar_optional_positive : option PositiveIntegerV1 -> M World bytes := scalar_optional scalar_positive.

(** ** Floats, in the notation of Python's [float.hex] *)

Definition hex_digit (n : Z) : Z := if n <? 10 then 48 + n else 87 + n.

(** [append_fraction_hex]: the 13 nibbles of the fraction. *)
Definition fraction_shifts : list Z := [48; 44; 40; 36; 32; 28; 24; 20; 16; 12; 8; 4; 0].
Definition append_fraction_hex (target : bytes) (fraction : Z) : M World bytes :=
  reserve_encoding;;
  mret (target ++ map (fun shift => hex_digit (Z.land (Z.shiftr fraction shift) 0xf)) fraction_shifts).

Definition is_finite (bits : f64_bits) : bool := negb (Z.land (Z.shiftr bits 52) 0x7ff =? 0x7ff).

(** [python_float_hex] *)
Definition python_float_hex (bits : f64_bits) : M World bytes :=
  ensure_not (negb (is_finite bits)) (protocol "native publication float must be finite");;
  let negative := negb (Z.shiftr bits 63 =? 0) in
  let exponent_bits := Z.land (Z.shiftr bits 52) 0x7ff in
  let fraction := Z.land bits (Z.ones 52) in
  result ← reserved 24;
  let result := result ++ (if negative then str "-" else []) in
  if exponent_bits =? 0 then
    if fraction =? 0 then mret (result ++ str "0x0.0p+0") else
    result ← append_fraction_hex (result ++ str "0x0.") fraction;
    mret (result ++ str "p-1022")
  else
    let exponent := exponent_bits - 1023 in
    result ← append_fraction_hex (result ++ str "0x1.") fraction;
    let result := result ++ str "p" ++ (if exponent <? 0 then str "-" else str "+") in
    digits ← lift (unsigned_decimal (Z.abs exponent));
    mret (result ++ digits).

Definition scalar_f64 (value : f64_bits) : M World bytes :=
  text ← python_float_hex value; prefixed_terminated 102 text.

(** ** Records *)

(** [let values = [a?, b?, ...]]: the scalars are written in order. *)
Fixpoint all (values : list (M World bytes)) : M World (list bytes) :=
  match values with
  | [] => mret []
  | value :: values => x ← value; xs ← all values; mret (x :: xs)
  end.

(** [for value in values { encoded.push(scalar(value)?) }] after [try_reserve_exact] *)
Definition scalars_of {A} (message : string) (scalar : A -> M World bytes) (values : list A)
    : M World (list bytes) :=
  try_reserve message;; all (map scalar values).

Definition scalar_api (version : ApiVersion) : M World bytes :=
  values ← all [scalar_u64 (api_major version); scalar_u64 (api_minor version)]; scalar_sequence values.

Definition scalar_fingerprint (value : FingerprintV1) : M World bytes :=
  values ← all [scalar_str (str "sha256"); scalar_positive (fp_schema value); scalar_bytes (fp_digest value)];
  sequence ← scalar_sequence values;
  prefixed 112 sequence.

Definition scalar_ontology_id (value : OntologyIdV1) : M World bytes :=
  values ← all [scalar_optional_iri (ontology_iri value); scalar_optional_iri (version_iri value)];
  sequence ← scalar_sequence values;
  prefixed 111 sequence.

Definition detail_scalar (value : DiagnosticScalarV1) : M World bytes :=
  match value with
  | Scalar_Text value => scalar_str value
  | Scalar_Integer value => scalar_i64 value
  | Scalar_Boolean value => scalar_bool value
  end.
Definition scalar_detail (detail : bytes * DiagnosticScalarV1) : M World bytes :=
  value ← detail_scalar (snd detail);
  key ← scalar_str (fst detail);
  scalar_sequence [key; value].

(** [diagnostic_bytes], [scalar_diagnostic] *)
Definition diagnostic_bytes (d : DiagnosticV1) : M World bytes :=
  chain ← scalars_of "native diagnostic chain allocation failed" scalar_str (diag_import_chain d);
  details ← scalars_of "native diagnostic detail allocation failed" scalar_detail (diag_details d);
  values ← all [
    scalar_str (diag_code d);
    scalar_str (DiagnosticSeverityV1_as_str (diag_severity d));
    scalar_str (diag_message d);
    scalar_optional_str (diag_document_iri d);
    scalar_optional_u64 (diag_byte_start d);
    scalar_optional_u64 (diag_byte_end d);
    scalar_optional_u64 (diag_line_start d);
    scalar_optional_u64 (diag_column_start d);
    scalar_optional_u64 (diag_line_end d);
    scalar_optional_u64 (diag_column_end d);
    scalar_sequence chain;
    scalar_sequence details];
  domain_sequence DIAGNOSTIC_DOMAIN values.
Definition scalar_diagnostic (value : DiagnosticV1) : M World bytes :=
  encoded ← diagnostic_bytes value; tagged_frame 100 encoded.

(** [attestation_bytes], [attestation_digest] *)
Definition attestation_bytes (a : NativeSnapshotAttestationV1) : M World bytes :=
  values ← all [
    scalar_u64 (att_version a);
    scalar_bytes (att_ledger_sha256 a);
    scalar_bytes (att_root_table_sha256 a);
    scalar_bytes (att_fingerprint_inputs_sha256 a);
    scalar_bytes (att_source_manifest_sha256 a);
    scalar_bytes (att_provenance_manifest_sha256 a);
    scalar_bytes (att_diagnostics_manifest_sha256 a);
    scalar_bytes (att_load_options_sha256 a);
    scalar_bytes (att_report_sha256 a);
    scalar_u64 (att_document_count a);
    scalar_u64 (att_import_edge_count a);
    scalar_u64 (att_diagnostic_count a);
    scalar_u64 (att_ontology_annotation_count a);
    scalar_u64 (att_stored_axiom_count a);
    scalar_u64 (att_effective_axiom_count a);
    scalar_u64 (att_extension_count a);
    scalar_u64 (att_total_source_bytes a);
    scalar_u64 (att_source_map_entry_count a);
    scalar_u64 (att_origin_entry_count a);
    scalar_u64 (att_rdf_mapping_report_count a);
    scalar_u64 (att_capability_bits a);
    scalar_api (att_api_version a);
    scalar_u64 (att_model_schema a);
    scalar_str (att_backend a);
    scalar_str (att_root_document_key a);
    scalar_bool (att_owl2_dl_validated a);
    scalar_optional_bool (att_owl2_dl_conforms a);
    scalar_optional_bytes (att_owl2_dl_report_sha256 a)];
  domain_sequence ATTESTATION_DOMAIN values.
Definition attestation_digest (a : NativeSnapshotAttestationV1) : M World bytes :=
  encoded ← attestation_bytes a; mret (sha256 encoded).

(** [parse_limits_scalar] *)
Definition parse_limits_scalar (limits : ParseLimitsV1) : M World bytes :=
  values ← all [
    scalar_positive (pl_max_source_bytes limits);
    scalar_positive (pl_max_documents limits);
    scalar_positive (pl_max_total_source_bytes limits);
    scalar_positive (pl_max_axioms limits);
    scalar_positive (pl_max_terms limits);
    scalar_positive (pl_max_nesting_depth limits);
    scalar_positive (pl_max_rdf_list_length limits);
    scalar_positive (pl_max_literal_bytes limits);
    scalar_positive (pl_max_iri_bytes limits);
    scalar_positive (pl_max_prefixes limits);
    scalar_positive (pl_max_import_depth limits);
    scalar_positive (pl_max_redirects limits);
    scalar_positive (pl_max_diagnostics limits);
    scalar_optional_positive (pl_max_memory_bytes limits);
    match pl_deadline_seconds limits with
    | None => scalar_none
    | Some (Deadline_Integer value) => scalar_positive value
    | Some (Deadline_Float value) => scalar_f64 value
    end;
    scalar_positive (pl_max_triples limits);
    scalar_positive (pl_max_strings limits);
    scalar_positive (pl_max_annotations limits);
    scalar_positive (pl_max_rule_atoms limits);
    scalar_positive (pl_max_sequence_arity limits);
    scalar_positive (pl_max_catalog_rewrites limits);
    scalar_positive (pl_max_resolver_attempts limits);
    scalar_positive (pl_max_concurrent_fetches limits);
    scalar_positive (pl_max_source_map_entries limits);
    scalar_positive (pl_max_origin_entries limits);
    scalar_positive (pl_max_overlay_depth limits);
    scalar_positive (pl_max_delta_entries limits);
    scalar_positive (pl_max_composite_members limits);
    scalar_positive (pl_max_index_rows limits);
    scalar_positive (pl_max_index_bytes limits);
    scalar_positive (pl_max_wire_rows limits);
    scalar_positive (pl_max_wire_bytes limits);
    scalar_positive (pl_max_temporary_bytes limits);
    scalar_positive (pl_max_disk_cache_bytes limits);
    scalar_positive (pl_max_decompressed_bytes limits);
    scalar_positive (pl_max_canonical_work limits);
    scalar_positive (pl_cancellation_check_interval limits)];
  scalar_sequence values.

(** [load_options_bytes], [load_options_digest] *)
Definition load_options_bytes (o : LoadOptionsV1) : M World bytes :=
  values ← all [
    match opt_format o with Some value => scalar_str (DocumentFormatV1_as_str value) | None => scalar_none end;
    scalar_str (ImportPolicyV1_as_str (opt_imports o));
    scalar_str (BackendPreferenceV1_as_str (opt_backend o));
    parse_limits_scalar (opt_limits o);
    scalar_bool (opt_offline o);
    scalar_bool (opt_preserve_source_map o);
    scalar_bool (opt_collect_provenance o);
    scalar_bool (opt_validate_owl2_dl o);
    scalar_bool (opt_deterministic o)];
  domain_sequence LOAD_OPTIONS_DOMAIN values.
Definition load_options_digest (o : LoadOptionsV1) : M World bytes :=
  encoded ← load_options_bytes o; mret (sha256 encoded).

(** [report_bytes], [report_digest] *)
Definition scalar_timing (timing : bytes * f64_bits) : M World bytes :=
  values ← all [scalar_str (fst timing); scalar_f64 (snd timing)]; scalar_sequence values.
Definition report_bytes (r : LoadReportV1) : M World bytes :=
  timing_values ← scalars_of "native publication timing encoding allocation failed" scalar_timing (report_timings r);
  values ← all [
    scalar_str (report_backend r);
    scalar_api (report_api_version r);
    scalar_u64 (report_model_schema r);
    scalar_u64 (report_document_count r);
    scalar_u64 (report_total_source_bytes r);
    scalar_u64 (report_effective_axiom_count r);
    scalar_u64 (report_resolution_attempts r);
    scalar_u64 (report_acquisition_cache_hits r);
    scalar_u64 (report_document_cache_hits r);
    scalar_sequence timing_values;
    scalar_fingerprint (report_structural_fingerprint r);
    scalar_fingerprint (report_logical_fingerprint r);
    scalar_fingerprint (report_signature_fingerprint r);
    scalar_bool (report_owl2_dl_validated r);
    scalar_optional_bool (report_owl2_dl_conforms r);
    scalar_optional_bytes (report_owl2_dl_report_sha256 r)];
  domain_sequence REPORT_DOMAIN values.
Definition report_digest (r : LoadReportV1) : M World bytes :=
  encoded ← report_bytes r; mret (sha256 encoded).

(** [diagnostics_bytes], [diagnostics_digest] *)
Definition scalar_diagnostics (values : list DiagnosticV1) : M World bytes :=
  values ← scalars_of "native diagnostic encoding allocation failed" scalar_diagnostic values;
  scalar_sequence values.
Definition append_document (document : DocumentPublicationV1) (body : bytes) : M World bytes :=
  key ← scalar_str (doc_document_key document);
  body ← append body key;
  values ← scalar_diagnostics (doc_diagnostics document);
  append body values.
Definition append_edge (edge : ImportEdgeV1) (body : bytes) : M World bytes :=
  key ← scalar_str (edge_importing_document_key edge);
  body ← append body key;
  iri ← scalar_str (edge_import_iri edge);
  body ← append body iri;
  value ← scalar_optional scalar_diagnostic (edge_diagnostic edge);
  append body value.
Definition diagnostics_bytes (diagnostics : list DiagnosticV1) (documents : list DocumentPublicationV1)
    (manifest : ImportManifestV1) : M World bytes :=
  body ← owned DIAGNOSTICS_DOMAIN;
  root ← scalar_diagnostics diagnostics;
  body ← append body root;
  body ← for_each append_document documents body;
  for_each append_edge (manifest_edges manifest) body.
Definition diagnostics_digest (diagnostics : list DiagnosticV1) (documents : list DocumentPublicationV1)
    (manifest : ImportManifestV1) : M World bytes :=
  encoded ← diagnostics_bytes diagnostics documents manifest; mret (sha256 encoded).

Example half_in_hex : fst (python_float_hex 0x3fe0000000000000 calm_world) = Ok (str "0x1.0000000000000p-1").
Proof. vm_compute. reflexivity. Qed.
Example sequence_of_two :
  fst ((values ← all [scalar_u64 7; scalar_none]; scalar_sequence values) calm_world) = Ok (str "q8:3:i7;1:n").
Proof. vm_compute. reflexivity. Qed.
