(* ===== verification/CodecTheorems.v ===== *)
(** * The encodings are trees, and unambiguous

    What the writers of [Codec] produce is the image of a tree of scalars.
    Frames begin with the decimal length of what follows them, so that no
    encoding is a prefix of another and trees can be read back: two records
    with the same encoding are the same. *)

From S2P Require Import Prelude Bytes Hash Error Machine Atomic Decimal Records Codec.

(** ** Trees of scalars *)

Inductive scalar :=
  | SNone
  | SBool (value : bool)
  | SInteger (text : bytes)
  | SFloat (text : bytes)
  | SText (value : bytes)
  | SBytes (value : bytes)
  | SIri (value : bytes)
  | SSequence (values : list scalar)
  | SFingerprint (values : list scalar)
  | SOntologyId (values : list scalar)
  | SDiagnostic (values : list scalar).

(** A frame: the length of a value, a colon and the value. *)
Definition frame (value : bytes) : bytes := decimal (len value) ++ 58 :: value.
Definition sequence_image (values : list bytes) : bytes := 113 :: frame (concat (map frame values)).
Definition terminated (tag : Z) (text : bytes) : bytes := tag :: text ++ [59].

Fixpoint image (s : scalar) : bytes :=
  match s with
  | SNone => str "n"
  | SBool value => if value then str "b1" else str "b0"
  | SInteger text => terminated 105 text
  | SFloat text => terminated 102 text
  | SText value => 115 :: frame value
  | SBytes value => 121 :: frame value
  | SIri value => 114 :: frame value
  | SSequence values => sequence_image (map image values)
  | SFingerprint values => 112 :: sequence_image (map image values)
  | SOntologyId values => 111 :: sequence_image (map image values)
  | SDiagnostic values => 100 :: frame (DIAGNOSTIC_DOMAIN ++ sequence_image (map image values))
  end.

Lemma framed_app_inj v w p q : frame v ++ p = frame w ++ q -> v = w /\ p = q.
Proof.
  unfold frame. rewrite <- !app_assoc, <- !app_comm_cons. intros E.
  apply digits_app_inj in E as (El & _ & E); [|by apply decimal_is_digits; lia|by apply decimal_is_digits; lia|lia|lia].
  apply decimal_inj in El; [|lia|lia]. apply app_inj_1 in E; [done|lia].
Qed.

Lemma frame_inj v w : frame v = frame w -> v = w.
Proof. intros E. apply (framed_app_inj v w [] []). by rewrite E. Qed.

Lemma frame_not_nil v : frame v <> [].
Proof. unfold frame. by destruct (decimal (len v)). Qed.

Lemma frames_inj vs ws : concat (map frame vs) = concat (map frame ws) -> vs = ws.
Proof.
  revert ws. induction vs as [|v vs IH]; intros [|w ws] E; cbn [map concat] in E; [done| | |].
  - symmetry in E. apply app_eq_nil in E as [E _]. by apply frame_not_nil in E.
  - apply app_eq_nil in E as [E _]. by apply frame_not_nil in E.
  - apply framed_app_inj in E as [-> E]. f_equal. by apply IH.
Qed.

Lemma sequence_image_inj vs ws : sequence_image vs = sequence_image ws -> vs = ws.
Proof. intros [= E]. by apply frames_inj, frame_inj. Qed.

Lemma terminated_inj tag v w : terminated tag v = terminated tag w -> v = w.
Proof. intros [= E]. by apply app_inv_tail in E. Qed.

Lemma cons_tail_inj (tag : Z) (v w : bytes) : tag :: v = tag :: w -> v = w.
Proof. by intros [= ->]. Qed.

(** Different trees have different images. *)
Lemma image_inj s t : image s = image t -> s = t.
Proof.
  revert s t. fix IH 1. intros s.
  assert (forall xs ys, Forall (fun s => forall t, image s = image t -> s = t) xs -> map image xs = map image ys -> xs = ys) as Hm.
  { clear. intros xs. induction xs as [|x xs IHx]; intros [|y ys] Hx E; try done.
    apply Forall_cons in Hx as [Hx Hxs]. injection E as E Es. f_equal; [by apply Hx|by apply IHx]. }
  assert (forall xs, Forall (fun s => forall t, image s = image t -> s = t) xs) as Hall.
  { fix IHl 1. intros [|x xs]; constructor; [exact (IH x)|exact (IHl xs)]. }
  destruct s as [|[]|?|?|?|?|?|vs|vs|vs|vs], t as [|[]|?|?|?|?|?|ws|ws|ws|ws]; intros E; try done; cbn [image] in E.
  1-2: by apply terminated_inj in E as ->.
  1-3: by apply cons_tail_inj, frame_inj in E as ->.
  - f_equal. apply (Hm vs ws (Hall vs)). by apply sequence_image_inj in E.
  - f_equal. apply (Hm vs ws (Hall vs)). by apply cons_tail_inj, sequence_image_inj in E.
  - f_equal. apply (Hm vs ws (Hall vs)). by apply cons_tail_inj, sequence_image_inj in E.
  - f_equal. apply (Hm vs ws (Hall vs)). apply cons_tail_inj, frame_inj, app_inv_head in E.
    by apply sequence_image_inj.
Qed.

Lemma images_inj xs ys : map image xs = map image ys -> xs = ys.
Proof.
  revert ys. induction xs as [|x xs IH]; intros [|y ys] E; try done.
  injection E as E Es. f_equal; [by apply image_inj|by apply IH].
Qed.

(** ** Writing

    [writes m t]: in every world [m] returns [t], which fits in memory, or
    reports a failed allocation or a float that is not finite. *)

Definition encoding_error (e : NativeError) : Prop :=
  code e = "NATIVE_WIRE_LIMIT"%string \/ e = protocol "native publication float must be finite".

Definition fits (value : bytes) : Prop := len value <= USIZE_MAX.

Definition writes (m : M World bytes) (t : bytes) : Prop :=
  forall w, wpx m (fun r _ => r = t /\ fits t) (fun e _ => encoding_error e) w.

Lemma limit_encoding msg : encoding_error (limit msg).
Proof. by left. Qed.
#[export] Hint Resolve limit_encoding : kernel.

Lemma writes_bind m (f : bytes -> M World bytes) t u :
  writes m t -> (fits t -> writes (f t) u) -> writes (m ≫= f) u.
Proof.
  intros Hm Hf w. apply wpx_bind. eapply wpx_mono; [apply Hm| |done]. intros r w' [-> Ht]. by apply Hf.
Qed.

Lemma writes_Ok m t w r w' : writes m t -> m w = (Ok r, w') -> r = t.
Proof. intros Hm E. specialize (Hm w). unfold wpx in Hm. rewrite E in Hm. by destruct Hm. Qed.

Lemma wpx_try_reserve msg (Q : unit -> World -> Prop) w :
  (forall w', Q tt w') -> wpx (try_reserve msg) Q (fun e _ => encoding_error e) w.
Proof. intros HQ. unfold wpx, try_reserve, look. destruct (obs_alloc _); [apply HQ|by left]. Qed.

Lemma wpx_reserve_encoding (Q : unit -> World -> Prop) w :
  (forall w', Q tt w') -> wpx reserve_encoding Q (fun e _ => encoding_error e) w.
Proof. apply wpx_try_reserve. Qed.

Lemma wpx_reserved n (Q : bytes -> World -> Prop) w :
  (forall w', Q [] w') -> wpx (reserved n) Q (fun e _ => encoding_error e) w.
Proof. intros HQ. apply wpx_bind, wpx_reserve_encoding. intros w'. by apply wpx_ret. Qed.

(** The checked sums bound what is written. *)
Lemma sum_loop values total (Q : Z -> Prop) :
  Forall (fun v => 0 <= v) values -> (total + sum values <= USIZE_MAX -> Q (total + sum values)) -> total <= USIZE_MAX ->
  match ofor_each (fun value total => ok_or (checked_add USIZE_MAX total value) encoding_limit) values total with
  | Ok n => Q n | Err e => encoding_error e | Panic => False end.
Proof.
  intros Hv. revert total. induction Hv as [|v values Hv0 Hv IH]; intros total HQ Ht; cbn [ofor_each sum foldr].
  - cbn in HQ. rewrite Z.add_0_r in HQ. by apply HQ.
  - unfold checked_add. destruct (Z.leb_spec (total + v) USIZE_MAX); cbn [ok_or mbind outcome_mbind outcome_bind]; [|by left].
    apply IH; [|done]. cbn [sum foldr] in HQ. fold (sum values) in HQ. by rewrite <- Z.add_assoc.
Qed.

Lemma wpx_checked_sum values (Q : Z -> World -> Prop) w :
  Forall (fun v => 0 <= v) values -> (sum values <= USIZE_MAX -> Q (sum values) w) ->
  wpx (checked_sum values) Q (fun e _ => encoding_error e) w.
Proof. intros Hv HQ. apply wpx_lift. apply (sum_loop values 0 (fun n => Q n w)); [done|done|ulia]. Qed.

Lemma wpx_decimal_length n (Q : Z -> World -> Prop) E w :
  is_usize n -> Q (len (decimal n)) w -> wpx (lift (decimal_length n)) Q E w.
Proof. intros Hn HQ. apply wpx_lift. by rewrite decimal_length_spec. Qed.

Lemma fits_usize v : fits v -> is_usize (len v).
Proof. unfold fits. ulia. Qed.
#[export] Hint Resolve fits_usize : kernel.

Lemma wpx_append_decimal target n (Q : bytes -> World -> Prop) w :
  is_usize n -> (forall w', Q (target ++ decimal n) w') ->
  wpx (append_decimal_usize target n) Q (fun e _ => encoding_error e) w.
Proof.
  intros Hn HQ. apply wpx_bind, wpx_lift. rewrite unsigned_decimal_u64 by done.
  apply wpx_bind, wpx_reserve_encoding. intros w'. by apply wpx_ret.
Qed.

Lemma length_framed v : len (frame v) = len (decimal (len v)) + 1 + len v.
Proof. unfold frame. rewrite length_app. cbn [length]. lia. Qed.

Lemma wpx_append_frame target v (Q : bytes -> World -> Prop) w :
  fits v -> (forall w', Q (target ++ frame v) w') -> wpx (append_frame target v) Q (fun e _ => encoding_error e) w.
Proof.
  intros Hv HQ. apply wpx_bind, wpx_decimal_length; [auto with kernel|].
  apply wpx_bind, wpx_checked_sum; [repeat constructor; lia|]. intros _.
  apply wpx_bind, wpx_reserve_encoding. intros w1.
  apply wpx_bind, wpx_append_decimal; [auto with kernel|]. intros w2.
  apply wpx_bind, wpx_bind, wpx_reserve_encoding. intros w3. apply wpx_ret.
  apply wpx_bind, wpx_reserve_encoding. intros w4. apply wpx_ret.
  unfold frame in HQ. rewrite <- !app_assoc. apply HQ.
Qed.

(** ** Scalars *)

Lemma writes_owned v : fits v -> writes (owned v) v.
Proof. intros Hv w. apply wpx_bind, wpx_reserved. intros w'. by apply wpx_ret. Qed.

Lemma writes_tagged_frame tag v : fits v -> writes (tagged_frame tag v) (tag :: frame v).
Proof.
  intros Hv w. apply wpx_bind, wpx_decimal_length; [auto with kernel|].
  apply wpx_bind, wpx_checked_sum; [repeat constructor; lia|]. cbn [sum foldr]. intros Hs.
  apply wpx_bind, wpx_reserved. intros w1.
  apply wpx_bind, wpx_append_decimal; [auto with kernel|]. intros w2. apply wpx_ret.
  unfold fits. cbn [length]. pose proof (length_framed v). split; [done|lia].
Qed.

Lemma writes_prefixed tag v : writes (prefixed tag v) (tag :: v).
Proof.
  intros w. apply wpx_bind, wpx_checked_sum; [repeat constructor; lia|]. cbn [sum foldr]. intros Hs.
  apply wpx_bind, wpx_reserved. intros w1. apply wpx_ret. unfold fits. cbn [length]. split; [done|lia].
Qed.

Lemma writes_terminated tag v : writes (prefixed_terminated tag v) (terminated tag v).
Proof.
  intros w. apply wpx_bind, wpx_checked_sum; [repeat constructor; lia|]. cbn [sum foldr]. intros Hs.
  apply wpx_bind, wpx_reserved. intros w1. apply wpx_ret.
  unfold fits, terminated. cbn [length]. rewrite length_app. cbn [length]. split; [done|lia].
Qed.

(** The tail of a sequence: the frames that are left. *)
Lemma framed_length_loop values total (Q : Z -> Prop) :
  Forall fits values -> 0 <= total <= USIZE_MAX ->
  (is_usize (total + len (concat (map frame values))) -> Q (total + len (concat (map frame values)))) ->
  match ofor_each (fun value body_length =>
          digits ← decimal_length (len value);
          ok_or (n ← checked_add USIZE_MAX body_length digits;
                 n ← checked_add USIZE_MAX n 1;
                 checked_add USIZE_MAX n (len value)) encoding_limit) values total with
  | Ok n => Q n | Err e => encoding_error e | Panic => False end.
Proof.
  intros Hv. revert total. induction Hv as [|v values Hv0 Hv IH]; intros total Ht HQ; cbn [ofor_each map concat].
  - cbn in HQ. rewrite Z.add_0_r in HQ. by apply HQ.
  - rewrite decimal_length_spec by auto with kernel. cbn [mbind outcome_mbind outcome_bind].
    cbn [map concat] in HQ. rewrite length_app, Nat2Z.inj_add, length_framed in HQ.
    destruct (checked_add USIZE_MAX total _ ≫= _) as [n|] eqn:E; cbn [ok_or]; [|by left].
    apply bind_Some in E as (n1 & [-> _]%checked_add_Some & E).
    apply bind_Some in E as (n2 & [-> _]%checked_add_Some & [-> Hn]%checked_add_Some).
    apply IH; [lia|]. intros Hu.
    replace (total + (len (decimal (len v)) + 1 + len v + len (concat (map frame values))))
      with (total + len (decimal (len v)) + 1 + len v + len (concat (map frame values))) in HQ by lia.
    by apply HQ.
Qed.

Lemma writes_sequence values : Forall fits values -> writes (scalar_sequence values) (sequence_image values).
Proof.
  intros Hv w. apply wpx_bind, wpx_lift.
  apply (framed_length_loop values 0 (fun n => wpx _ _ _ w)); [done|ulia|]. rewrite Z.add_0_l. intros Hb.
  apply wpx_bind, wpx_decimal_length; [done|].
  apply wpx_bind, wpx_checked_sum; [repeat constructor; lia|]. cbn [sum foldr]. intros Hs.
  apply wpx_bind, wpx_reserved. intros w1. apply wpx_bind, wpx_append_decimal; [done|]. intros w2.
  set (body := concat (map frame values)) in *.
  eapply wpx_mono; [eapply (wpx_for_each _ (fun rest r _ =>
    r ++ concat (map frame rest) = sequence_image values /\ Forall fits rest))| |by intros e w' He; exact He].
  - split; [|done]. fold body. unfold sequence_image. fold body. unfold frame. by rewrite <- !app_assoc.
  - intros v rest r w' [E Hr]. apply Forall_cons in Hr as [Hv0 Hr]. apply wpx_append_frame; [done|].
    intros w3. split; [|done]. by rewrite <- app_assoc.
  - intros r w' [E _]. rewrite app_nil_r in E. rewrite E. split; [done|].
    unfold fits, sequence_image. cbn [length]. pose proof (length_framed body). fold body. lia.
Qed.

Lemma writes_domain_sequence domain values :
  Forall fits values -> writes (domain_sequence domain values) (domain ++ sequence_image values).
Proof.
  intros Hv. eapply writes_bind; [by apply writes_sequence|]. intros _ w.
  apply wpx_bind, wpx_checked_sum; [repeat constructor; lia|]. cbn [sum foldr]. intros Hs.
  apply wpx_bind, wpx_reserved. intros w1. apply wpx_ret. unfold fits. rewrite length_app. split; [done|lia].
Qed.

(** ** Numbers *)

Definition signed_decimal (z : Z) : bytes := if 0 <=? z then decimal z else 45 :: decimal (- z).

Lemma signed_decimal_inj x y : signed_decimal x = signed_decimal y -> x = y.
Proof.
  unfold signed_decimal. destruct (Z.leb_spec 0 x) as [Hx|Hx], (Z.leb_spec 0 y) as [Hy|Hy]; intros E.
  - by apply decimal_inj.
  - pose proof (decimal_is_digits x Hx) as Hd. rewrite E in Hd. by apply Forall_inv in Hd as [].
  - pose proof (decimal_is_digits y Hy) as Hd. rewrite <- E in Hd. by apply Forall_inv in Hd as [].
  - injection E as E. apply decimal_inj in E; lia.
Qed.

Definition integer (z : Z) : scalar := SInteger (signed_decimal z).
Lemma integer_inj x y : integer x = integer y -> x = y.
Proof. intros [= E]. by apply signed_decimal_inj. Qed.

Definition positive_scalar (p : PositiveIntegerV1) : scalar := SInteger (positive_decimal p).
Lemma positive_scalar_inj p q : positive_scalar p = positive_scalar q -> p = q.
Proof. destruct p, q. by intros [= ->]. Qed.

Lemma wpx_unsigned_decimal n (Q : bytes -> World -> Prop) E w :
  is_u64 n -> Q (decimal n) w -> wpx (lift (unsigned_decimal n)) Q E w.
Proof. intros Hn HQ. apply wpx_lift. by rewrite unsigned_decimal_u64. Qed.

Lemma writes_u64 n : is_u64 n -> writes (scalar_u64 n) (image (integer n)).
Proof.
  intros Hn w. apply wpx_bind, wpx_unsigned_decimal; [done|]. cbn [image integer]. unfold signed_decimal.
  rewrite (proj2 (Z.leb_le _ _)) by ulia. apply writes_terminated.
Qed.

Definition is_i64 (z : Z) : Prop := - 2 ^ 63 <= z < 2 ^ 63.

Lemma writes_i64 n : is_i64 n -> writes (scalar_i64 n) (image (integer n)).
Proof.
  unfold is_i64. intros Hn w. apply wpx_bind, wpx_unsigned_decimal; [ulia|]. cbn [image integer]. unfold signed_decimal.
  destruct (Z.leb_spec 0 n) as [H0|H0].
  - rewrite Z.abs_eq by done. apply writes_terminated.
  - rewrite Z.abs_neq by lia. apply wpx_bind, wpx_checked_sum; [repeat constructor; lia|]. cbn [sum foldr]. intros Hs.
    apply wpx_bind, wpx_reserved. intros w1. apply wpx_ret. unfold fits, terminated. split; [done|].
    rewrite <- app_comm_cons. cbn [length]. rewrite length_app. cbn [length]. lia.
Qed.

(** ** Floats *)

Definition fraction_hex (fraction : Z) : bytes :=
  map (fun shift => hex_digit (Z.land (Z.shiftr fraction shift) 0xf)) fraction_shifts.

Definition float_hex (bits : f64_bits) : bytes :=
  let exponent_bits := Z.land (Z.shiftr bits 52) 0x7ff in
  let fraction := Z.land bits (Z.ones 52) in
  let exponent := exponent_bits - 1023 in
  (if Z.shiftr bits 63 =? 0 then [] else str "-") ++
  (if exponent_bits =? 0 then
     if fraction =? 0 then str "0x0.0p+0" else str "0x0." ++ fraction_hex fraction ++ str "p-1022"
   else str "0x1." ++ fraction_hex fraction ++ str "p" ++ (if exponent <? 0 then str "-" else str "+")
          ++ decimal (Z.abs exponent)).

Lemma hex_digit_inj a b : 0 <= a < 16 -> 0 <= b < 16 -> hex_digit a = hex_digit b -> a = b.
Proof. unfold hex_digit. intros Ha Hb. destruct (Z.ltb_spec a 10), (Z.ltb_spec b 10); lia. Qed.

(** The hexadecimal digits of a number, low digit last. *)
Fixpoint hex_digits (n : nat) (z : Z) : bytes :=
  match n with O => [] | S n => hex_digits n (z / 16) ++ [hex_digit (z mod 16)] end.

Lemma hex_digits_inj n x y :
  0 <= x < 16 ^ Z.of_nat n -> 0 <= y < 16 ^ Z.of_nat n -> hex_digits n x = hex_digits n y -> x = y.
Proof.
  revert x y. induction n as [|n IH]; intros x y Hx Hy E.
  - change (16 ^ Z.of_nat 0) with 1 in *. lia.
  - rewrite Nat2Z.inj_succ, Z.pow_succ_r in Hx, Hy by lia. cbn [hex_digits] in E.
    apply app_inj_2 in E as [E [= Ed]]; [|done].
    apply hex_digit_inj in Ed; [|apply Z.mod_pos_bound; lia|apply Z.mod_pos_bound; lia].
    apply IH in E; [|split; [apply Z.div_pos|apply Z.div_lt_upper_bound]; lia|split; [apply Z.div_pos|apply Z.div_lt_upper_bound]; lia].
    rewrite (Z.div_mod x 16), (Z.div_mod y 16) by lia. by rewrite E, Ed.
Qed.

Lemma fraction_hex_digits fraction : fraction_hex fraction = hex_digits 13 fraction.
Proof.
  unfold fraction_hex, fraction_shifts. cbn [map hex_digits app].
  repeat rewrite Z.shiftr_div_pow2 by lia. change 0xf with (Z.ones 4). rewrite !Z.land_ones, !Z.div_div by lia.
  rewrite Z.div_1_r. reflexivity.
Qed.

Lemma length_fraction_hex fraction : length (fraction_hex fraction) = 13%nat.
Proof. done. Qed.

Lemma fraction_hex_inj x y : 0 <= x < 2 ^ 52 -> 0 <= y < 2 ^ 52 -> fraction_hex x = fraction_hex y -> x = y.
Proof. rewrite !fraction_hex_digits. change (2 ^ 52) with (16 ^ Z.of_nat 13). apply hex_digits_inj. Qed.

(** The three fields of the bit pattern. *)
Lemma f64_fields bits :
  is_u64 bits ->
  let exponent_bits := Z.land (Z.shiftr bits 52) 0x7ff in
  let fraction := Z.land bits (Z.ones 52) in
  bits = Z.shiftr bits 63 * 2 ^ 63 + exponent_bits * 2 ^ 52 + fraction /\
  0 <= Z.shiftr bits 63 <= 1 /\ 0 <= exponent_bits < 2 ^ 11 /\ 0 <= fraction < 2 ^ 52.
Proof.
  intros Hb. cbv zeta. change 0x7ff with (Z.ones 11). rewrite !Z.land_ones, !Z.shiftr_div_pow2 by lia.
  change (2 ^ 52) with 4503599627370496. change (2 ^ 11) with 2048. change (2 ^ 63) with 9223372036854775808.
  unfold_ranges. Z.div_mod_to_equations. lia.
Qed.

Lemma float_magnitude_inj e f e' f' :
  0 <= e < 2 ^ 11 -> 0 <= f < 2 ^ 52 -> 0 <= e' < 2 ^ 11 -> 0 <= f' < 2 ^ 52 ->
  (if e =? 0 then if f =? 0 then str "0x0.0p+0" else str "0x0." ++ fraction_hex f ++ str "p-1022"
   else str "0x1." ++ fraction_hex f ++ str "p" ++ (if e - 1023 <? 0 then str "-" else str "+") ++ decimal (Z.abs (e - 1023))) =
  (if e' =? 0 then if f' =? 0 then str "0x0.0p+0" else str "0x0." ++ fraction_hex f' ++ str "p-1022"
   else str "0x1." ++ fraction_hex f' ++ str "p" ++ (if e' - 1023 <? 0 then str "-" else str "+") ++ decimal (Z.abs (e' - 1023))) ->
  e = e' /\ f = f'.
Proof.
  intros He Hf He' Hf'.
  destruct (Z.eqb_spec e 0) as [->|Hne], (Z.eqb_spec e' 0) as [->|Hne'].
  - destruct (Z.eqb_spec f 0) as [->|], (Z.eqb_spec f' 0) as [->|]; intros E; try done.
    apply app_inv_head, app_inj_1 in E as [E _]; [|done]. by apply fraction_hex_inj in E.
  - intros E. apply (f_equal (fun l => l !! 2%nat)) in E. assert (Some 48 = Some 49) as [=] by (destruct (f =? 0); exact E).
  - intros E. apply (f_equal (fun l => l !! 2%nat)) in E. assert (Some 49 = Some 48) as [=] by (destruct (f' =? 0); exact E).
  - intros E. apply app_inv_head, app_inj_1 in E as [Ef E]; [|done]. apply fraction_hex_inj in Ef; [|done|done].
    split; [|done]. apply app_inv_head in E.
    destruct (Z.ltb_spec (e - 1023) 0), (Z.ltb_spec (e' - 1023) 0); try done;
      apply app_inv_head, decimal_inj in E; lia.
Qed.

Lemma float_hex_inj x y : is_u64 x -> is_u64 y -> float_hex x = float_hex y -> x = y.
Proof.
  intros Hx Hy. destruct (f64_fields x Hx) as (Ex & Hsx & Hex & Hfx), (f64_fields y Hy) as (Ey & Hsy & Hey & Hfy).
  unfold float_hex. cbv zeta.
  set (ex := Z.land (Z.shiftr x 52) 0x7ff) in *. set (fx := Z.land x (Z.ones 52)) in *.
  set (ey := Z.land (Z.shiftr y 52) 0x7ff) in *. set (fy := Z.land y (Z.ones 52)) in *.
  intros E. enough (Z.shiftr x 63 = Z.shiftr y 63 /\ ex = ey /\ fx = fy) as (? & ? & ?) by congruence.
  destruct (Z.eqb_spec (Z.shiftr x 63) 0), (Z.eqb_spec (Z.shiftr y 63) 0).
  - split; [congruence|]. by apply float_magnitude_inj.
  - exfalso. apply (f_equal (fun l => l !! 0%nat)) in E. assert (Some 48 = Some 45) as [=] by (destruct (ex =? 0), (fx =? 0); exact E).
  - exfalso. apply (f_equal (fun l => l !! 0%nat)) in E. assert (Some 45 = Some 48) as [=] by (destruct (ey =? 0), (fy =? 0); exact E).
  - split; [lia|]. apply app_inv_head in E. by apply float_magnitude_inj.
Qed.

Lemma writes_f64 bits : is_u64 bits -> writes (scalar_f64 bits) (image (SFloat (float_hex bits))).
Proof.
  intros Hb w. apply wpx_bind.
  eapply (wpx_mono _ (fun r _ => r = float_hex bits)); [|intros r w' ->; by apply writes_terminated|by intros e w' He; exact He].
  destruct (f64_fields bits Hb) as (_ & Hs & He & Hf).
  unfold python_float_hex, float_hex. cbv zeta.
  apply wpx_bind, wpx_ensure_not; [by right|]. intros _. apply wpx_bind, wpx_reserved. intros w1. cbn [app].
  replace (if negb (Z.shiftr bits 63 =? 0) then str "-" else []) with (if Z.shiftr bits 63 =? 0 then [] else str "-")
    by by destruct (_ =? 0).
  set (e := Z.land (Z.shiftr bits 52) 0x7ff) in *. set (f := Z.land bits (Z.ones 52)) in *.
  set (sign := if _ =? 0 then [] else _).
  destruct (e =? 0); [destruct (f =? 0); [by apply wpx_ret|]|].
  - apply wpx_bind, wpx_bind, wpx_reserve_encoding. intros w2. apply wpx_ret, wpx_ret.
    unfold fraction_hex. by rewrite <- !app_assoc.
  - apply wpx_bind, wpx_bind, wpx_reserve_encoding. intros w2. apply wpx_ret.
    apply wpx_bind, wpx_unsigned_decimal; [unfold_ranges; lia|]. apply wpx_ret.
    unfold fraction_hex. by rewrite <- !app_assoc.
Qed.

(** * Publication encodings are unambiguous

    The trees of the publication records, the ranges of their fields, and the
    contract [Codec] of a writer: it never panics, fails only for memory or a
    float that is not finite, and two values that it encodes alike are equal. *)

Create HintDb codec discriminated.

(** ** Lists of writers *)

(** Success of a writer whose result may be too long to be framed. *)
Definition returns (m : M World bytes) (t : bytes) : Prop :=
  forall w, wpx m (fun r _ => r = t) (fun e _ => encoding_error e) w.

Lemma returns_writes m t : writes m t -> returns m t.
Proof. intros Hm w. eapply wpx_mono; [apply Hm|by intros r w' [-> _]|done]. Qed.

Lemma wpx_writes m t (Q : bytes -> World -> Prop) w :
  writes m t -> (forall w', fits t -> Q t w') -> wpx m Q (fun e _ => encoding_error e) w.
Proof. intros Hm HQ. eapply wpx_mono; [apply Hm| |done]. intros r w' [-> Ht]. by apply HQ. Qed.

Lemma wpx_all ms ts (Q : list bytes -> World -> Prop) w :
  Forall2 writes ms ts -> (forall w', Forall fits ts -> Q ts w') ->
  wpx (all ms) Q (fun e _ => encoding_error e) w.
Proof.
  intros Hm. revert Q w. induction Hm as [|m t ms ts Hm Hms IH]; intros Q w HQ; cbn [all].
  - apply wpx_ret. by apply HQ.
  - apply wpx_bind, (wpx_writes _ _ _ _ Hm). intros w' Ht. apply wpx_bind, IH. intros w'' Hts.
    apply wpx_ret. apply HQ. by constructor.
Qed.

Lemma writes_all ms ts (f : list bytes -> M World bytes) u :
  Forall2 writes ms ts -> (Forall fits ts -> writes (f ts) u) -> writes (xs ← all ms; f xs) u.
Proof. intros Hm Hf w. apply wpx_bind, (wpx_all _ ts); [done|]. intros w' Ht. by apply Hf. Qed.

Lemma writes_values (ms : list (M World bytes)) (ts : list scalar) :
  Forall2 writes ms (map image ts) -> writes (values ← all ms; scalar_sequence values) (image (SSequence ts)).
Proof. intros Hm. eapply writes_all; [done|]. apply writes_sequence. Qed.

Lemma writes_domain domain (ms : list (M World bytes)) (ts : list scalar) :
  Forall2 writes ms (map image ts) ->
  writes (values ← all ms; domain_sequence domain values) (domain ++ image (SSequence ts)).
Proof. intros Hm. eapply writes_all; [done|]. apply writes_domain_sequence. Qed.

(** A list of values that are written one by one, as [scalars_of] does. *)
Lemma wpx_scalars_of {A} msg (write : A -> M World bytes) (tree : A -> scalar) values (Q : list bytes -> World -> Prop) w :
  Forall (fun x => writes (write x) (image (tree x))) values ->
  (forall w', Forall fits (map image (map tree values)) -> Q (map image (map tree values)) w') ->
  wpx (scalars_of msg write values) Q (fun e _ => encoding_error e) w.
Proof.
  intros Hv HQ. apply wpx_bind, wpx_try_reserve. intros w'. apply (wpx_all _ (map image (map tree values))); [|done].
  clear HQ. induction Hv; cbn [map]; constructor; done.
Qed.

(** ** Scalars *)

Definition optional {A} (tree : A -> scalar) (value : option A) : scalar := from_option tree SNone value.
Definition option_all {A} (P : A -> Prop) (value : option A) : Prop := from_option P True value.

Lemma literal_fits v : (len v <=? USIZE_MAX) = true -> fits v.
Proof. apply Z.leb_le. Qed.

Ltac literal := apply literal_fits; vm_compute; reflexivity.

Lemma writes_none : writes scalar_none (image SNone).
Proof. apply writes_owned. literal. Qed.
Lemma writes_bool v : writes (scalar_bool v) (image (SBool v)).
Proof. destruct v; apply writes_owned; literal. Qed.
Lemma writes_str v : fits v -> writes (scalar_str v) (image (SText v)).
Proof. apply writes_tagged_frame. Qed.
Lemma writes_bytes v : fits v -> writes (scalar_bytes v) (image (SBytes v)).
Proof. apply writes_tagged_frame. Qed.
Lemma writes_iri v : fits v -> writes (scalar_iri v) (image (SIri v)).
Proof. apply writes_tagged_frame. Qed.
Lemma writes_positive p : writes (scalar_positive p) (image (positive_scalar p)).
Proof. apply writes_terminated. Qed.

Lemma writes_optional {A} (P : A -> Prop) (write : A -> M World bytes) tree value :
  (forall x, P x -> writes (write x) (image (tree x))) -> option_all P value ->
  writes (scalar_optional write value) (image (optional tree value)).
Proof. intros Hw Hv. destruct value as [x|]; [by apply Hw|apply writes_none]. Qed.

#[export] Hint Resolve writes_none writes_bool writes_str writes_bytes writes_iri writes_positive
  writes_u64 writes_i64 writes_f64 writes_optional : codec.

Lemma optional_inj {A} (tree : A -> scalar) (x y : option A) :
  (forall a b, tree a = tree b -> a = b) -> (forall a, tree a <> SNone) ->
  optional tree x = optional tree y -> x = y.
Proof.
  intros Hi Hn. destruct x as [a|], y as [b|]; cbn [optional from_option]; intros E; [|by apply Hn in E|symmetry in E; by apply Hn in E|done].
  f_equal. by apply Hi.
Qed.

Lemma map_inj {A B} (f : A -> B) (x y : list A) : (forall a b, f a = f b -> a = b) -> map f x = map f y -> x = y.
Proof.
  intros Hf. revert y. induction x as [|a x IH]; intros [|b y] E; try done.
  injection E as E Es. f_equal; [by apply Hf|by apply IH].
Qed.

(** The enumerations are short literals. *)
Lemma severity_fits v : fits (DiagnosticSeverityV1_as_str v).
Proof. destruct v; literal. Qed.
Lemma format_fits v : fits (DocumentFormatV1_as_str v).
Proof. destruct v; literal. Qed.
Lemma policy_fits v : fits (ImportPolicyV1_as_str v).
Proof. destruct v; literal. Qed.
Lemma backend_fits v : fits (BackendPreferenceV1_as_str v).
Proof. destruct v; literal. Qed.
#[export] Hint Resolve severity_fits format_fits policy_fits backend_fits : codec.

(** The types [u32], [[u8; 32]] and [f64]. *)
Definition is_digest (v : bytes) : Prop := len v = 32.
Lemma u32_u64 n : is_u32 n -> is_u64 n.
Proof. ulia. Qed.
Lemma digest_fits v : is_digest v -> fits v.
Proof. unfold is_digest, fits. ulia. Qed.
#[export] Hint Resolve u32_u64 digest_fits : codec.

Definition api_scalar (v : ApiVersion) : scalar := SSequence [integer (api_major v); integer (api_minor v)].
Definition api_typed (v : ApiVersion) : Prop := is_u32 (api_major v) /\ is_u32 (api_minor v).
Lemma writes_api v : api_typed v -> writes (scalar_api v) (image (api_scalar v)).
Proof. intros [? ?]. apply writes_values. repeat constructor; auto with codec. Qed.
Lemma api_scalar_inj v w : api_scalar v = api_scalar w -> v = w.
Proof. destruct v, w. intros [= E1 E2]. apply signed_decimal_inj in E1, E2. by subst. Qed.

Definition fingerprint_scalar (v : FingerprintV1) : scalar :=
  SFingerprint [SText (str "sha256"); positive_scalar (fp_schema v); SBytes (fp_digest v)].
Definition fingerprint_typed (v : FingerprintV1) : Prop := is_digest (fp_digest v).
Lemma writes_fingerprint v : fingerprint_typed v -> writes (scalar_fingerprint v) (image (fingerprint_scalar v)).
Proof.
  intros Hv. eapply writes_all with (ts := map image [SText (str "sha256"); positive_scalar (fp_schema v); SBytes (fp_digest v)]).
  - repeat constructor; auto with codec. apply writes_str. literal.
  - intros Hf. eapply writes_bind; [by apply writes_sequence|]. intros _. apply writes_prefixed.
Qed.
Lemma fingerprint_scalar_inj v w : fingerprint_scalar v = fingerprint_scalar w -> v = w.
Proof. destruct v as [[s] d], w as [[s'] d']. by intros [= -> ->]. Qed.

#[export] Hint Resolve writes_api writes_fingerprint : codec.

(** ** Diagnostics *)

Definition ontology_scalar (v : OntologyIdV1) : scalar :=
  SOntologyId [optional SIri (ontology_iri v); optional SIri (version_iri v)].
Lemma writes_ontology_id v :
  option_all fits (ontology_iri v) -> option_all fits (version_iri v) ->
  writes (scalar_ontology_id v) (image (ontology_scalar v)).
Proof.
  intros Ho Hv. eapply writes_all with (ts := map image [optional SIri (ontology_iri v); optional SIri (version_iri v)]).
  - repeat constructor; eapply writes_optional; eauto with codec.
  - intros Hf. eapply writes_bind; [by apply writes_sequence|]. intros _. apply writes_prefixed.
Qed.

Definition detail_value (v : DiagnosticScalarV1) : scalar :=
  match v with Scalar_Text v => SText v | Scalar_Integer v => integer v | Scalar_Boolean v => SBool v end.
Definition detail_tree (detail : bytes * DiagnosticScalarV1) : scalar :=
  SSequence [SText (fst detail); detail_value (snd detail)].
Definition detail_typed (detail : bytes * DiagnosticScalarV1) : Prop :=
  fits (fst detail) /\ match snd detail with Scalar_Text v => fits v | Scalar_Integer v => is_i64 v | Scalar_Boolean _ => True end.

Lemma writes_detail detail : detail_typed detail -> writes (scalar_detail detail) (image (detail_tree detail)).
Proof.
  destruct detail as [k v]. intros [Hk Hv]. cbn [fst snd] in *. eapply (writes_bind _ _ (image (detail_value v))).
  - destruct v; cbn [detail_scalar detail_value snd]; auto with codec.
  - intros Hfv. eapply writes_bind; [by apply writes_str|]. intros Hfk. by apply writes_sequence; repeat constructor.
Qed.

Lemma detail_tree_inj v w : detail_tree v = detail_tree w -> v = w.
Proof.
  destruct v as [k v], w as [k' w]. unfold detail_tree. cbn [fst snd]. intros E. injection E as -> E. f_equal.
  destruct v, w; try done; cbn [detail_value] in E; [by injection E as ->| |by injection E as ->].
  by apply integer_inj in E as ->.
Qed.

Definition diagnostic_values (d : DiagnosticV1) : list scalar :=
  [SText (diag_code d); SText (DiagnosticSeverityV1_as_str (diag_severity d)); SText (diag_message d);
   optional SText (diag_document_iri d); optional integer (diag_byte_start d); optional integer (diag_byte_end d);
   optional integer (diag_line_start d); optional integer (diag_column_start d);
   optional integer (diag_line_end d); optional integer (diag_column_end d);
   SSequence (map SText (diag_import_chain d)); SSequence (map detail_tree (diag_details d))].
Definition diagnostic_tree (d : DiagnosticV1) : scalar := SDiagnostic (diagnostic_values d).

Record diagnostic_typed (d : DiagnosticV1) : Prop := {
  dt_texts : Forall fits (diag_code d :: diag_message d :: diag_import_chain d);
  dt_iri : option_all fits (diag_document_iri d);
  dt_positions : Forall (option_all is_u64) [diag_byte_start d; diag_byte_end d; diag_line_start d;
                   diag_column_start d; diag_line_end d; diag_column_end d];
  dt_details : Forall detail_typed (diag_details d)
}.

Ltac typed_fields :=
  repeat match goal with H : Forall _ (_ :: _) |- _ => apply Forall_cons in H as [? H] end.

Lemma writes_diagnostic_bytes d :
  diagnostic_typed d -> writes (diagnostic_bytes d) (DIAGNOSTIC_DOMAIN ++ image (SSequence (diagnostic_values d))).
Proof.
  intros [Ht Hi Hp Hd] w. typed_fields.
  apply wpx_bind, (wpx_scalars_of _ _ SText).
  { eapply Forall_impl; [done|]. auto with codec. }
  intros w1 Hchain. apply wpx_bind, (wpx_scalars_of _ _ detail_tree).
  { eapply Forall_impl; [done|]. apply writes_detail. }
  intros w2 Hdetails. revert w2. apply (writes_domain _ _ (diagnostic_values d)).
  unfold diagnostic_values. cbn [map].
  repeat (apply Forall2_cons; split); [..|done];
    try (by apply writes_sequence); try (by eapply writes_optional; eauto with codec); auto with codec.
Qed.

Lemma writes_diagnostic d : diagnostic_typed d -> writes (scalar_diagnostic d) (image (diagnostic_tree d)).
Proof.
  intros Hd. eapply writes_bind; [by apply writes_diagnostic_bytes|]. intros Hf. by apply writes_tagged_frame.
Qed.
#[export] Hint Resolve writes_diagnostic : codec.

(** Reading the fields back, one by one. *)
Ltac same_field E :=
  first [ lazymatch type of E with ?x = ?x => clear E end | apply integer_inj in E | apply positive_scalar_inj in E | apply api_scalar_inj in E
        | apply fingerprint_scalar_inj in E
        | apply optional_inj in E; [|by intros ?? [=]|done]
        | apply optional_inj in E; [|apply integer_inj|done]
        | apply optional_inj in E; [|apply positive_scalar_inj|done]
        | injection E as E; apply map_inj in E; [|by intros ?? [=]]
        | injection E as E; apply map_inj in E; [|apply detail_tree_inj]
        | injection E as E ].
Ltac same_fields E :=
  match type of E with
  | _ :: _ = _ :: _ =>
      let E1 := fresh "E1" in let E2 := fresh "E2" in
      apply (f_equal (fun l => (hd SNone l, tl l))) in E; cbn [hd tl] in E;
      apply pair_equal_spec in E as [E1 E2]; same_field E1; same_fields E2
  | _ => idtac
  end.

Lemma diagnostic_values_inj d d' : diagnostic_values d = diagnostic_values d' -> d = d'.
Proof.
  destruct d, d'. unfold diagnostic_values. cbn. intros E. same_fields E. f_equal; try done.
  by apply DiagnosticSeverityV1_as_str_inj.
Qed.
Lemma diagnostic_tree_inj d d' : diagnostic_tree d = diagnostic_tree d' -> d = d'.
Proof.
  intros E. apply (f_equal (fun s => match s with SDiagnostic vs => vs | _ => [] end)) in E.
  by apply diagnostic_values_inj.
Qed.

(** ** The contract of a writer *)

(** [typed] restricts the fields to their types; [view] is what is written. *)
Class Codec {A B : Type} (write : A -> M World bytes) (typed : A -> Prop) (view : A -> B) : Prop := {
  codec_no_panic a w : typed a -> fst (write a w) <> Panic;
  codec_error a w e w' : typed a -> write a w = (Err e, w') -> encoding_error e;
  codec_unambiguous a a' w w' encoded u u' :
    typed a -> typed a' -> write a w = (Ok encoded, u) -> write a' w' = (Ok encoded, u') -> view a = view a'
}.

(** A writer of an image from which the view can be read back. *)
Lemma codec_of_image {A B} (write : A -> M World bytes) (typed : A -> Prop) (view : A -> B) (tree : A -> bytes) :
  (forall a, typed a -> returns (write a) (tree a)) ->
  (forall a a', typed a -> typed a' -> tree a = tree a' -> view a = view a') -> Codec write typed view.
Proof.
  intros Hw Hi. split.
  - intros a w Ha E. specialize (Hw a Ha w). unfold wpx in Hw. by destruct (write a w) as [[?|?|] ?].
  - intros a w e w' Ha E. specialize (Hw a Ha w). unfold wpx in Hw. by rewrite E in Hw.
  - intros a a' w w' encoded u u' Ha Ha' E E'. apply Hi; [done|done|].
    pose proof (Hw a Ha w) as H. pose proof (Hw a' Ha' w') as H'. unfold wpx in H, H'.
    rewrite E in H. rewrite E' in H'. congruence.
Qed.

(** ** Attestations *)

Definition attestation_values (a : NativeSnapshotAttestationV1) : list scalar :=
  [integer (att_version a);
   SBytes (att_ledger_sha256 a); SBytes (att_root_table_sha256 a); SBytes (att_fingerprint_inputs_sha256 a);
   SBytes (att_source_manifest_sha256 a); SBytes (att_provenance_manifest_sha256 a);
   SBytes (att_diagnostics_manifest_sha256 a); SBytes (att_load_options_sha256 a); SBytes (att_report_sha256 a);
   integer (att_document_count a); integer (att_import_edge_count a); integer (att_diagnostic_count a);
   integer (att_ontology_annotation_count a); integer (att_stored_axiom_count a);
   integer (att_effective_axiom_count a); integer (att_extension_count a); integer (att_total_source_bytes a);
   integer (att_source_map_entry_count a); integer (att_origin_entry_count a);
   integer (att_rdf_mapping_report_count a); integer (att_capability_bits a);
   api_scalar (att_api_version a); integer (att_model_schema a);
   SText (att_backend a); SText (att_root_document_key a);
   SBool (att_owl2_dl_validated a); optional SBool (att_owl2_dl_conforms a);
   optional SBytes (att_owl2_dl_report_sha256 a)].

Record attestation_typed (a : NativeSnapshotAttestationV1) : Prop := {
  at_digests : Forall is_digest [att_ledger_sha256 a; att_root_table_sha256 a; att_fingerprint_inputs_sha256 a;
    att_source_manifest_sha256 a; att_provenance_manifest_sha256 a; att_diagnostics_manifest_sha256 a;
    att_load_options_sha256 a; att_report_sha256 a];
  at_counts : Forall is_u64 [att_version a; att_document_count a; att_import_edge_count a; att_diagnostic_count a;
    att_ontology_annotation_count a; att_stored_axiom_count a; att_effective_axiom_count a; att_extension_count a;
    att_total_source_bytes a; att_source_map_entry_count a; att_origin_entry_count a;
    att_rdf_mapping_report_count a; att_capability_bits a; att_model_schema a];
  at_api : api_typed (att_api_version a);
  at_texts : Forall fits [att_backend a; att_root_document_key a];
  at_report : option_all is_digest (att_owl2_dl_report_sha256 a)
}.

Ltac write_field :=
  first [ solve [auto with codec] | solve [eapply writes_optional; [|eassumption]; auto with codec]
        | solve [eapply writes_optional; eauto with codec] | by apply writes_sequence ].

Lemma option_true {A} (v : option A) : option_all (fun _ => True) v.
Proof. by destruct v. Qed.
#[export] Hint Resolve option_true : codec.

Lemma writes_attestation_bytes a :
  attestation_typed a -> writes (attestation_bytes a) (ATTESTATION_DOMAIN ++ image (SSequence (attestation_values a))).
Proof.
  intros [Hd Hc Ha Ht Hr]. typed_fields. apply (writes_domain _ _ (attestation_values a)).
  unfold attestation_values. cbn [map]. repeat (apply Forall2_cons; split); [write_field..|done].
Qed.

Lemma attestation_values_inj a a' : attestation_values a = attestation_values a' -> a = a'.
Proof. destruct a, a'. unfold attestation_values. cbn. intros E. same_fields E. by f_equal. Qed.

#[export] Instance attestation_codec : Codec attestation_bytes attestation_typed id.
Proof.
  eapply codec_of_image; [intros a Ha; by apply returns_writes, writes_attestation_bytes|].
  intros a a' _ _ E. apply app_inv_head, image_inj in E.
  apply (f_equal (fun s => match s with SSequence vs => vs | _ => [] end)) in E. by apply attestation_values_inj.
Qed.

(** ** Load options *)

Definition deadline_scalar (v : DeadlineSecondsV1) : scalar :=
  match v with Deadline_Integer v => positive_scalar v | Deadline_Float v => SFloat (float_hex v) end.
Definition deadline_typed (v : DeadlineSecondsV1) : Prop :=
  match v with Deadline_Integer _ => True | Deadline_Float v => is_u64 v end.

Definition limits_values (l : ParseLimitsV1) : list scalar :=
  map positive_scalar [pl_max_source_bytes l; pl_max_documents l; pl_max_total_source_bytes l; pl_max_axioms l;
    pl_max_terms l; pl_max_nesting_depth l; pl_max_rdf_list_length l; pl_max_literal_bytes l; pl_max_iri_bytes l;
    pl_max_prefixes l; pl_max_import_depth l; pl_max_redirects l; pl_max_diagnostics l] ++
  [optional positive_scalar (pl_max_memory_bytes l); optional deadline_scalar (pl_deadline_seconds l)] ++
  map positive_scalar [pl_max_triples l; pl_max_strings l; pl_max_annotations l; pl_max_rule_atoms l;
    pl_max_sequence_arity l; pl_max_catalog_rewrites l; pl_max_resolver_attempts l; pl_max_concurrent_fetches l;
    pl_max_source_map_entries l; pl_max_origin_entries l; pl_max_overlay_depth l; pl_max_delta_entries l;
    pl_max_composite_members l; pl_max_index_rows l; pl_max_index_bytes l; pl_max_wire_rows l; pl_max_wire_bytes l;
    pl_max_temporary_bytes l; pl_max_disk_cache_bytes l; pl_max_decompressed_bytes l; pl_max_canonical_work l;
    pl_cancellation_check_interval l].
Definition limits_typed (l : ParseLimitsV1) : Prop := option_all deadline_typed (pl_deadline_seconds l).

Lemma writes_limits l : limits_typed l -> writes (parse_limits_scalar l) (image (SSequence (limits_values l))).
Proof.
  intros Hd. apply writes_values. unfold limits_values. cbn [map app].
  repeat (apply Forall2_cons; split); [first [write_field|idtac]..|done].
  destruct l as [? ? ? ? ? ? ? ? ? ? ? ? ? ? [[]|]]; cbn in *; auto with codec.
Qed.

Lemma positives_inj ps qs : map positive_scalar ps = map positive_scalar qs -> ps = qs.
Proof. apply map_inj, positive_scalar_inj. Qed.

Lemma deadline_inj v w :
  option_all deadline_typed v -> option_all deadline_typed w ->
  optional deadline_scalar v = optional deadline_scalar w -> v = w.
Proof.
  intros Hv Hw. destruct v as [[p|x]|], w as [[q|y]|]; cbn in *; intros E; try done.
  - by apply positive_scalar_inj in E as ->.
  - injection E as E. by apply float_hex_inj in E as ->.
Qed.

Lemma limits_values_inj l l' : limits_typed l -> limits_typed l' -> limits_values l = limits_values l' -> l = l'.
Proof.
  intros Hl Hl' E. unfold limits_values in E.
  apply app_inj_1 in E as [E1%positives_inj E]; [|done].
  apply (app_inj_1 [_; _] [_; _]) in E as [E2 E3%positives_inj]; [|done].
  apply (f_equal (fun l => (hd SNone l, hd SNone (tl l)))) in E2. cbn [hd tl] in E2.
  apply pair_equal_spec in E2 as [Em Ed]. apply optional_inj in Em; [|apply positive_scalar_inj|done].
  apply deadline_inj in Ed; [|done|done]. clear Hl Hl'. destruct l, l'. cbn in *. simplify_eq. done.
Qed.

Definition options_values (o : LoadOptionsV1) : list scalar :=
  [optional (fun f => SText (DocumentFormatV1_as_str f)) (opt_format o);
   SText (ImportPolicyV1_as_str (opt_imports o)); SText (BackendPreferenceV1_as_str (opt_backend o));
   SSequence (limits_values (opt_limits o));
   SBool (opt_offline o); SBool (opt_preserve_source_map o); SBool (opt_collect_provenance o);
   SBool (opt_validate_owl2_dl o); SBool (opt_deterministic o)].
Definition options_typed (o : LoadOptionsV1) : Prop := limits_typed (opt_limits o).

Lemma writes_load_options o :
  options_typed o -> writes (load_options_bytes o) (LOAD_OPTIONS_DOMAIN ++ image (SSequence (options_values o))).
Proof.
  intros Ho. apply (writes_domain _ _ (options_values o)). unfold options_values. cbn [map].
  repeat (apply Forall2_cons; split); [|write_field|write_field|by apply writes_limits|write_field..|done].
  destruct (opt_format o); cbn [optional from_option]; auto with codec.
Qed.

Lemma options_values_inj o o' : options_typed o -> options_typed o' -> options_values o = options_values o' -> o = o'.
Proof.
  intros Ho Ho' E. unfold options_values in E.
  apply (f_equal (fun l => (hd SNone l, (hd SNone (tl l), (hd SNone (tl (tl l)), (hd SNone (drop 3 l), drop 4 l)))))) in E.
  cbn [hd tl drop] in E. repeat (apply pair_equal_spec in E as [? E]).
  apply optional_inj in H; [|intros a b [= Eab]; by apply DocumentFormatV1_as_str_inj|done].
  assert (opt_imports o = opt_imports o') by (apply ImportPolicyV1_as_str_inj; congruence).
  assert (opt_backend o = opt_backend o') by (apply BackendPreferenceV1_as_str_inj; congruence).
  assert (opt_limits o = opt_limits o').
  { apply limits_values_inj; [done|done|].
    by apply (f_equal (fun s => match s with SSequence vs => vs | _ => [] end)) in H2. }
  clear H0 H1 H2 Ho Ho'. destruct o, o'. cbn in *. by simplify_eq.
Qed.

#[export] Instance load_options_codec : Codec load_options_bytes options_typed id.
Proof.
  eapply codec_of_image; [intros o Ho; by apply returns_writes, writes_load_options|].
  intros o o' Ho Ho' E. apply app_inv_head, image_inj in E.
  apply (f_equal (fun s => match s with SSequence vs => vs | _ => [] end)) in E. by apply options_values_inj.
Qed.

(** ** Load reports *)

Definition timing_tree (t : bytes * f64_bits) : scalar := SSequence [SText (fst t); SFloat (float_hex (snd t))].
Definition timing_typed (t : bytes * f64_bits) : Prop := fits (fst t) /\ is_u64 (snd t).

Lemma writes_timing t : timing_typed t -> writes (scalar_timing t) (image (timing_tree t)).
Proof.
  intros [? ?]. apply (writes_values _ [SText (fst t); SFloat (float_hex (snd t))]). cbn [map].
  repeat (apply Forall2_cons; split); [write_field..|done].
Qed.

Lemma timings_inj x y :
  Forall timing_typed x -> Forall timing_typed y -> map timing_tree x = map timing_tree y -> x = y.
Proof.
  intros Hx. revert y. induction Hx as [|[n v] x [_ Hv] Hx IH]; intros [|[m w] y] Hy E; try done.
  apply Forall_cons in Hy as [[_ Hw] Hy]. injection E as En Ev E. subst m.
  apply float_hex_inj in Ev; [|done|done]. cbn in Ev. subst. f_equal. by apply IH.
Qed.

Definition report_values (r : LoadReportV1) : list scalar :=
  [SText (report_backend r); api_scalar (report_api_version r); integer (report_model_schema r);
   integer (report_document_count r); integer (report_total_source_bytes r);
   integer (report_effective_axiom_count r); integer (report_resolution_attempts r);
   integer (report_acquisition_cache_hits r); integer (report_document_cache_hits r);
   SSequence (map timing_tree (report_timings r));
   fingerprint_scalar (report_structural_fingerprint r); fingerprint_scalar (report_logical_fingerprint r);
   fingerprint_scalar (report_signature_fingerprint r);
   SBool (report_owl2_dl_validated r); optional SBool (report_owl2_dl_conforms r);
   optional SBytes (report_owl2_dl_report_sha256 r)].

Record report_typed (r : LoadReportV1) : Prop := {
  rt_backend : fits (report_backend r);
  rt_api : api_typed (report_api_version r);
  rt_counts : Forall is_u64 [report_model_schema r; report_document_count r; report_total_source_bytes r;
    report_effective_axiom_count r; report_resolution_attempts r; report_acquisition_cache_hits r;
    report_document_cache_hits r];
  rt_timings : Forall timing_typed (report_timings r);
  rt_fingerprints : Forall fingerprint_typed [report_structural_fingerprint r; report_logical_fingerprint r;
    report_signature_fingerprint r];
  rt_report : option_all is_digest (report_owl2_dl_report_sha256 r)
}.

Lemma writes_report_bytes r :
  report_typed r -> writes (report_bytes r) (REPORT_DOMAIN ++ image (SSequence (report_values r))).
Proof.
  intros [Hb Ha Hc Ht Hf Hr] w. typed_fields. apply wpx_bind, (wpx_scalars_of _ _ timing_tree).
  { eapply Forall_impl; [done|]. apply writes_timing. }
  intros w1 Htimings. revert w1. apply (writes_domain _ _ (report_values r)). unfold report_values. cbn [map].
  repeat (apply Forall2_cons; split); [write_field..|done].
Qed.

Lemma report_values_inj r r' : report_typed r -> report_typed r' -> report_values r = report_values r' -> r = r'.
Proof.
  intros [_ _ _ Ht _ _] [_ _ _ Ht' _ _] E.
  assert (report_timings r = report_timings r') as Et.
  { apply timings_inj; [done|done|].
    apply (f_equal (fun l => match nth 9 l SNone with SSequence vs => vs | _ => [] end)) in E. exact E. }
  clear Ht Ht'. destruct r, r'. unfold report_values in E. cbn in *. subst. same_fields E. by f_equal.
Qed.

#[export] Instance report_codec : Codec report_bytes report_typed id.
Proof.
  eapply codec_of_image; [intros r Hr; by apply returns_writes, writes_report_bytes|].
  intros r r' Hr Hr' E. apply app_inv_head, image_inj in E.
  apply (f_equal (fun s => match s with SSequence vs => vs | _ => [] end)) in E. by apply report_values_inj.
Qed.

(** ** The diagnostics of a publication *)

(** The diagnostics of a snapshot, of its documents and of its import edges. *)
Definition manifest_input := (list DiagnosticV1 * list DocumentPublicationV1 * ImportManifestV1)%type.
Definition document_view (d : DocumentPublicationV1) : bytes * list DiagnosticV1 := (doc_document_key d, doc_diagnostics d).
Definition edge_view (e : ImportEdgeV1) : bytes * bytes * option DiagnosticV1 :=
  (edge_importing_document_key e, edge_import_iri e, edge_diagnostic e).
Definition manifest_view (m : manifest_input) :=
  let '(ds, documents, manifest) := m in (ds, map document_view documents, map edge_view (manifest_edges manifest)).
Definition write_manifest (m : manifest_input) : M World bytes :=
  let '(ds, documents, manifest) := m in diagnostics_bytes ds documents manifest.

Definition document_typed (d : bytes * list DiagnosticV1) : Prop := fits (fst d) /\ Forall diagnostic_typed (snd d).
Definition edge_typed (e : bytes * bytes * option DiagnosticV1) : Prop :=
  fits (fst (fst e)) /\ fits (snd (fst e)) /\ option_all diagnostic_typed (snd e).
Definition manifest_typed (m : manifest_input) : Prop :=
  let '(ds, documents, edges) := manifest_view m in
  Forall diagnostic_typed ds /\ Forall document_typed documents /\ Forall edge_typed edges.

Definition diagnostics_image (ds : list DiagnosticV1) : bytes := image (SSequence (map diagnostic_tree ds)).
Definition document_image (d : bytes * list DiagnosticV1) : bytes := image (SText (fst d)) ++ diagnostics_image (snd d).
Definition edge_image (e : bytes * bytes * option DiagnosticV1) : bytes :=
  image (SText (fst (fst e))) ++ image (SText (snd (fst e))) ++ image (optional diagnostic_tree (snd e)).
Definition body_image documents edges : bytes := concat (map document_image documents) ++ concat (map edge_image edges).
Definition manifest_image (m : manifest_input) : bytes :=
  let '(ds, documents, edges) := manifest_view m in
  DIAGNOSTICS_DOMAIN ++ diagnostics_image ds ++ body_image documents edges.

Lemma writes_diagnostics ds : Forall diagnostic_typed ds -> writes (scalar_diagnostics ds) (diagnostics_image ds).
Proof.
  intros Hd w. apply wpx_bind, (wpx_scalars_of _ _ diagnostic_tree).
  { eapply Forall_impl; [done|]. auto with codec. }
  intros w1 Hf. by apply writes_sequence.
Qed.

Lemma wpx_append body v (Q : bytes -> World -> Prop) w :
  (forall w', Q (body ++ v) w') -> wpx (append body v) Q (fun e _ => encoding_error e) w.
Proof. intros HQ. apply wpx_bind, wpx_reserve_encoding. intros w'. by apply wpx_ret. Qed.

(** Appending what a writer returns. *)
Lemma wpx_append_written m v body (Q : bytes -> World -> Prop) w :
  writes m v -> (forall w', Q (body ++ v) w') -> wpx (x ← m; append body x) Q (fun e _ => encoding_error e) w.
Proof. intros Hm HQ. apply wpx_bind, (wpx_writes _ _ _ _ Hm). intros w' _. by apply wpx_append. Qed.

Lemma returns_append_document d body :
  document_typed (document_view d) -> returns (append_document d body) (body ++ document_image (document_view d)).
Proof.
  intros [Hk Hd] w. unfold append_document, document_image. cbn [document_view fst snd] in *.
  apply wpx_bind, (wpx_writes _ _ _ _ (writes_str _ Hk)). intros w1 _. apply wpx_bind, wpx_append. intros w2.
  apply (wpx_append_written _ _ _ _ _ (writes_diagnostics _ Hd)). intros w3. by rewrite <- app_assoc.
Qed.

Lemma returns_append_edge e body :
  edge_typed (edge_view e) -> returns (append_edge e body) (body ++ edge_image (edge_view e)).
Proof.
  intros (Hk & Hi & Hd) w. unfold append_edge, edge_image. cbn [edge_view fst snd] in *.
  apply wpx_bind, (wpx_writes _ _ _ _ (writes_str _ Hk)). intros w1 _. apply wpx_bind, wpx_append. intros w2.
  apply wpx_bind, (wpx_writes _ _ _ _ (writes_str _ Hi)). intros w3 _. apply wpx_bind, wpx_append. intros w4.
  eapply wpx_append_written; [eapply writes_optional; [|exact Hd]; auto with codec|].
  intros w5. by rewrite <- !app_assoc.
Qed.

(** A loop that appends images. *)
Lemma wpx_append_each {Y V} (write : Y -> bytes -> M World bytes) (view : Y -> V) (typed : V -> Prop) (img : V -> bytes)
    ys body (Q : bytes -> World -> Prop) w :
  (forall y body, typed (view y) -> returns (write y body) (body ++ img (view y))) ->
  Forall typed (map view ys) -> (forall w', Q (body ++ concat (map img (map view ys))) w') ->
  wpx (for_each write ys body) Q (fun e _ => encoding_error e) w.
Proof.
  intros Hw. revert body Q w. induction ys as [|y ys IH]; intros body Q w Ht HQ; cbn [for_each map concat] in *.
  - apply wpx_ret. by rewrite app_nil_r in HQ.
  - apply Forall_cons in Ht as [Hy Hys]. apply wpx_bind.
    eapply wpx_mono; [by apply Hw| |done]. cbv beta. intros r w1 ->. apply IH; [done|].
    intros w'. by rewrite <- app_assoc.
Qed.

Lemma returns_manifest m : manifest_typed m -> returns (write_manifest m) (manifest_image m).
Proof.
  destruct m as [[ds documents] manifest]. intros (Hds & Hdocs & Hedges) w. unfold write_manifest, diagnostics_bytes.
  assert (fits DIAGNOSTICS_DOMAIN) as Hd by literal.
  apply wpx_bind, (wpx_writes _ _ _ _ (writes_owned _ Hd)). intros w1 _.
  apply wpx_bind, (wpx_writes _ _ _ _ (writes_diagnostics _ Hds)). intros w2 _. apply wpx_bind, wpx_append. intros w3.
  apply wpx_bind, (wpx_append_each _ document_view document_typed document_image); [|done|].
  { intros d body. apply returns_append_document. }
  intros w4. apply (wpx_append_each _ edge_view edge_typed edge_image); [|done|].
  { intros e body. apply returns_append_edge. }
  intros w5. unfold manifest_image, manifest_view, body_image. by rewrite <- !app_assoc.
Qed.

(** The images of a section of a manifest begin with a tag and a frame. *)
Lemma tagged_app_inj tag v w p q : tag :: frame v ++ p = tag :: frame w ++ q -> v = w /\ p = q.
Proof. intros E. apply cons_tail_inj in E. by apply framed_app_inj. Qed.

Lemma diagnostics_image_app_inj ds ds' p q :
  diagnostics_image ds ++ p = diagnostics_image ds' ++ q -> ds = ds' /\ p = q.
Proof.
  intros E. apply tagged_app_inj in E as [E ->]. split; [|done]. apply frames_inj, images_inj in E.
  by apply map_inj in E; [|apply diagnostic_tree_inj].
Qed.

Lemma text_app_inj v w p q : image (SText v) ++ p = image (SText w) ++ q -> v = w /\ p = q.
Proof. apply tagged_app_inj. Qed.

Lemma optional_diagnostic_app_inj d d' p q :
  image (optional diagnostic_tree d) ++ p = image (optional diagnostic_tree d') ++ q -> d = d' /\ p = q.
Proof.
  destruct d as [d|], d' as [d'|]; cbn [optional from_option]; intros E; [|discriminate E|discriminate E|].
  - apply tagged_app_inj in E as [E ->]. apply app_inv_head, sequence_image_inj, images_inj in E.
    split; [|done]. f_equal. by apply diagnostic_values_inj.
  - by injection E.
Qed.

Lemma edges_image_inj es es' : concat (map edge_image es) = concat (map edge_image es') -> es = es'.
Proof.
  revert es'. induction es as [|[[k i] d] es IH]; intros [|[[k' i'] d'] es'] E; try done.
  unfold edge_image in E. cbn [map concat fst snd] in E. rewrite <- !app_assoc in E.
  apply text_app_inj in E as [-> E]. apply text_app_inj in E as [-> E].
  apply optional_diagnostic_app_inj in E as [-> E]. f_equal. by apply IH.
Qed.

(** After its first text an edge goes on with a text, a document with a sequence. *)
Lemma document_not_edges d docs edges es : body_image (d :: docs) edges <> concat (map edge_image es).
Proof.
  destruct d as [k ds], es as [|[[k' i] e] es]; [done|].
  unfold body_image, document_image, edge_image. cbn [map concat fst snd]. rewrite <- !app_assoc.
  intros E. by apply text_app_inj in E as [_ E].
Qed.

Lemma body_image_inj docs edges docs' edges' :
  body_image docs edges = body_image docs' edges' -> docs = docs' /\ edges = edges'.
Proof.
  revert docs'. induction docs as [|[k ds] docs IH]; intros [|[k' ds'] docs'] E.
  - split; [done|]. by apply edges_image_inj.
  - symmetry in E. by apply document_not_edges in E.
  - by apply document_not_edges in E.
  - unfold body_image, document_image in E. cbn [map concat fst snd] in E. rewrite <- !app_assoc in E.
    apply text_app_inj in E as [-> E]. apply diagnostics_image_app_inj in E as [-> E].
    apply IH in E as [-> ->]. done.
Qed.

#[export] Instance manifest_codec : Codec write_manifest manifest_typed manifest_view.
Proof.
  eapply codec_of_image; [apply returns_manifest|].
  intros [[ds docs] m] [[ds' docs'] m'] _ _ E. unfold manifest_image, manifest_view in *.
  apply app_inv_head, diagnostics_image_app_inj in E as [-> E]. by apply body_image_inj in E as [-> ->].
Qed.

(** C18: The encodings of publications identify what they encode: for well-typed
    attestations, load options, load reports and for the diagnostics of a
    snapshot, of its documents and of its import edges, writing never panics,
    fails only for memory or a float that is not finite, and two values with
    the same bytes are equal. *)
Theorem publication_encodings_are_unambiguous :
  Codec attestation_bytes attestation_typed id /\ Codec load_options_bytes options_typed id /\
  Codec report_bytes report_typed id /\ Codec write_manifest manifest_typed manifest_view.
Proof. splits; apply _. Qed.
