(* ===== verification/Publish.v ===== *)
(** * Snapshot publication ([native/src/publication/mod.rs])

    A draft is validated as a whole (keys, ordering, the alignment of
    documents, members, records and import edges, the claims of the report)
    and then frozen with the digests and counts of its attestation. *)

From S2P Require Import Prelude Bytes Error Machine Schema Lexical Varint Arena Records Codec.

Definition PUBLICATION_VERSION_V1 : Z := 1.
Definition PUBLICATION_LEDGER_SHA256_V1 : bytes :=
  [0x8e; 0x2c; 0xf6; 0x76; 0xd9; 0x3f; 0xb5; 0xec; 0x39; 0x85; 0xea; 0x9b; 0xbe; 0x1a; 0x44; 0x9d;
   0x8a; 0xdf; 0xb8; 0xf2; 0xee; 0xbe; 0x0b; 0x07; 0xca; 0xae; 0xbf; 0x22; 0x4b; 0x1b; 0xb4; 0x6d].

Definition MAX_DIAGNOSTIC_DETAILS : Z := 64.
Definition MAX_DIAGNOSTIC_IMPORT_CHAIN : Z := 128.
Definition MAX_DIAGNOSTICS_PER_SEQUENCE : Z := 10000.
Definition MAX_DIRECT_IMPORTS_PER_DOCUMENT : Z := 10000000.
Definition MAX_DOCUMENT_KEY_BYTES : Z := 256.
Definition MAX_DOCUMENTS : Z := 1000000.
Definition MAX_IMPORT_EDGES : Z := 100000000.
Definition MAX_IRI_BYTES : Z := 1048576.
Definition MAX_METADATA_STRING_BYTES : Z := 4096.
Definition MAX_TIMING_NAME_BYTES : Z := 64.
Definition MAX_TIMING_ROWS : Z := 64.
Definition MAX_TOTAL_DIAGNOSTICS : Z := 1000000.
Definition CAPABILITY_SOURCE_MAP : Z := 8.
Definition CAPABILITY_ORIGIN_INDEX : Z := 16.
Definition CAPABILITY_RDF_MAPPING_REPORT : Z := 32.
Definition REQUIRED_CAPABILITIES : Z := 7.
Definition KNOWN_CAPABILITIES : Z := 63.

(** The derived equalities. *)
#[export] Instance PositiveIntegerV1_eq_dec : EqDecision PositiveIntegerV1.
Proof. solve_decision. Defined.
#[export] Instance FingerprintV1_eq_dec : EqDecision FingerprintV1.
Proof. solve_decision. Defined.
#[export] Instance OntologyIdV1_eq_dec : EqDecision OntologyIdV1.
Proof. solve_decision. Defined.

Notation is_some o := (match o with Some _ => true | None => false end).

(** ** Strings and IRIs *)

(** [usize_u64], and [checked_add] of counters *)
Definition usize_u64 (value : Z) : outcome Z :=
  ok_or (try_from U64_MAX value) (limit "native publication count exceeds u64").
Definition add_count (left right : Z) (message : string) : outcome Z :=
  ok_or (checked_add U64_MAX left right) (limit message).

Definition validate_metadata_string (value : bytes) (maximum : Z) : outcome unit :=
  fail_if (is_empty value) (protocol "native publication metadata string is empty");;
  fail_if (maximum <? len value) (limit "native publication metadata string exceeds limits").
Definition validate_document_key (value : bytes) : outcome unit :=
  validate_metadata_string value MAX_DOCUMENT_KEY_BYTES.
Definition validate_iri_string (value : bytes) : outcome unit :=
  validate_metadata_string value MAX_IRI_BYTES;; validate_iri value.
Definition validate_optional_iri (value : option bytes) : outcome unit :=
  match value with Some value => validate_iri_string value | None => Ok tt end.
(** The fields of a fingerprint are checked by their types. *)
Definition validate_fingerprint (_value : FingerprintV1) : outcome unit := Ok tt.
Definition validate_ontology_id (value : OntologyIdV1) : outcome unit :=
  validate_optional_iri (ontology_iri value);;
  validate_optional_iri (version_iri value);;
  fail_if (is_some (version_iri value) && negb (is_some (ontology_iri value)))
    (protocol "native publication version IRI has no ontology IRI").

(** [for text in [..].into_iter().flatten()] *)
Definition validate_metadata_texts (texts : list (option bytes)) : outcome unit :=
  ofor_each (fun text (_ : unit) =>
    match text with Some text => validate_metadata_string text MAX_METADATA_STRING_BYTES | None => Ok tt end) texts tt.

(** [encode_varint], [canonical_iri_bytes]; the loop is that of [encode_u64]. *)
Definition encode_varint (value : Z) (target : bytes) : bytes := target ++ encode_u64_loop 10 value.
Definition canonical_iri_bytes (value : bytes) : M World bytes :=
  try_reserve "native publication IRI key allocation failed";;
  length_ ← lift (ok_or (try_from U64_MAX (len value)) (limit "native publication IRI length exceeds u64"));
  mret (encode_varint length_ [1; 2] ++ value).

(** ** Limits *)

(** [str::parse::<u64>] of a canonical decimal *)
Definition parse_u64 (text : bytes) : option Z :=
  let value := Decimal.decimal_value text in if value <=? U64_MAX then Some value else None.

(** [if configured.allows(hard) { hard } else { configured.decimal().parse()? }] *)
Definition allowed_count (configured : PositiveIntegerV1) (hard : Z) (message : string) : outcome Z :=
  if allows configured hard then Ok hard
  else ok_or (parse_u64 (positive_decimal configured)) (protocol message).

Definition check_count (value hard : Z) (configured : PositiveIntegerV1) (limit_ message : string) : outcome unit :=
  value_u64 ← usize_u64 value;
  hard_u64 ← usize_u64 hard;
  allowed ← allowed_count configured hard_u64 "native publication limit exceeds u64";
  fail_if (allowed <? value_u64) (resource_limit limit_ (NativeNumber_integer value_u64) (NativeNumber_integer allowed) message).

(** ** Diagnostics *)

Definition code_byte (byte : Z) : bool := is_ascii_uppercase byte || is_ascii_digit byte || (byte =? 95).

(** [a.zip(b).is_some_and(|(a, b)| f a b)] *)
Definition both {A B} (f : A -> B -> bool) (a : option A) (b : option B) : bool :=
  match a, b with Some a, Some b => f a b | _, _ => false end.
(** The order of pairs *)
Definition pair_ltb (x y : Z * Z) : bool := (fst x <? fst y) || ((fst x =? fst y) && (snd x <? snd y)).

Definition invalid_span (d : DiagnosticV1) : bool :=
  both (fun start end_ => end_ <? start) (diag_byte_start d) (diag_byte_end d) ||
  both (fun start end_ => pair_ltb (end_, default 1 (diag_column_end d)) (start, default 1 (diag_column_start d)))
    (diag_line_start d) (diag_line_end d) ||
  existsb (fun coordinate => match coordinate with Some coordinate => coordinate =? 0 | None => false end)
    [diag_line_start d; diag_column_start d; diag_line_end d; diag_column_end d].

(** One detail; [earlier] are the details before it. *)
Definition validate_detail (detail : bytes * DiagnosticScalarV1) (earlier : list (bytes * DiagnosticScalarV1))
    : outcome (list (bytes * DiagnosticScalarV1)) :=
  validate_metadata_string (fst detail) MAX_METADATA_STRING_BYTES;;
  fail_if (existsb (fun previous => bool_decide (fst previous = fst detail)) earlier)
    (protocol "native publication diagnostic detail keys are not unique");;
  match snd detail with
  | Scalar_Text text => validate_metadata_string text MAX_METADATA_STRING_BYTES
  | _ => Ok tt
  end;;
  mret (earlier ++ [detail]).

Definition validate_diagnostic (d : DiagnosticV1) : outcome unit :=
  fail_if (match diag_code d with [] => true | first :: _ => negb (is_ascii_uppercase first) end ||
           negb (forallb code_byte (diag_code d)))
    (protocol "native publication diagnostic code is invalid");;
  validate_metadata_string (diag_code d) MAX_METADATA_STRING_BYTES;;
  validate_metadata_string (diag_message d) MAX_METADATA_STRING_BYTES;;
  validate_optional_iri (diag_document_iri d);;
  fail_if (invalid_span d) (protocol "native publication diagnostic span is invalid");;
  fail_if ((MAX_DIAGNOSTIC_IMPORT_CHAIN <? len (diag_import_chain d)) || (MAX_DIAGNOSTIC_DETAILS <? len (diag_details d)))
    (limit "native publication diagnostic metadata exceeds limits");;
  ofor_each (fun iri (_ : unit) => validate_iri_string iri) (diag_import_chain d) tt;;
  _ ← ofor_each validate_detail (diag_details d) [];
  mret tt.

Definition validate_diagnostics (values : list DiagnosticV1) : outcome unit :=
  fail_if (MAX_DIAGNOSTICS_PER_SEQUENCE <? len values)
    (limit "native publication diagnostic sequence exceeds limits");;
  ofor_each (fun value (_ : unit) => validate_diagnostic value) values tt.

(** ** Documents, records and edges *)

Definition validate_provenance (value : DocumentProvenanceV1) : outcome unit :=
  validate_optional_iri (prov_document_iri value);;
  validate_metadata_texts [prov_acquisition_locator value; prov_media_type value];;
  validate_metadata_string (prov_parser value) MAX_METADATA_STRING_BYTES;;
  validate_metadata_string (prov_backend value) MAX_METADATA_STRING_BYTES.

(** One direct import; [previous] is the canonical form of the one before. *)
Definition direct_import (iri : bytes) (previous : option bytes) : M World (option bytes) :=
  lift (validate_iri_string iri);;
  current ← canonical_iri_bytes iri;
  ensure_not (match previous with Some value => bytes_leb current value | None => false end)
    (protocol "native publication direct imports are not strictly ordered");;
  mret (Some current).

Definition validate_document (document : DocumentPublicationV1) : M World unit :=
  lift (validate_document_key (doc_document_key document));;
  lift (validate_ontology_id (doc_ontology_id document));;
  lift (validate_optional_iri (doc_document_iri document));;
  ensure_not (MAX_DIRECT_IMPORTS_PER_DOCUMENT <? len (doc_direct_imports document))
    (limit "native publication direct import count exceeds limits");;
  _ ← for_each direct_import (doc_direct_imports document) None;
  lift (validate_provenance (doc_provenance document));;
  lift (validate_fingerprint (doc_document_fingerprint document));;
  lift (validate_diagnostics (doc_diagnostics document));;
  ensure_not (xorb (is_some (doc_rdf_mapping_conformant document)) (is_some (doc_rdf_mapping_report_sha256 document)))
    (protocol "native publication RDF mapping claims are incomplete").

Definition validate_import_document (value : ImportDocumentV1) : outcome unit :=
  validate_document_key (idoc_document_key value);;
  validate_ontology_id (idoc_ontology_id value);;
  validate_optional_iri (idoc_document_iri value);;
  validate_fingerprint (idoc_document_fingerprint value).

Definition validate_import_edge (value : ImportEdgeV1) : outcome unit :=
  validate_document_key (edge_importing_document_key value);;
  validate_iri_string (edge_import_iri value);;
  (if bool_decide (edge_status value = EdgeStatus_Resolved) then
     fail_if (negb (is_some (edge_resolved_document_key value)))
       (protocol "native resolved import edge has no target")
   else fail_if (is_some (edge_resolved_document_key value))
       (protocol "native unresolved import edge has a target"));;
  match edge_resolved_document_key value with Some target => validate_document_key target | None => Ok tt end;;
  validate_metadata_texts [edge_resolver_name value; edge_sanitized_locator value];;
  match edge_diagnostic value with Some diagnostic => validate_diagnostic diagnostic | None => Ok tt end.

Definition document_record_matches (document : DocumentPublicationV1) (record : ImportDocumentV1) : bool :=
  bool_decide (doc_document_key document = idoc_document_key record) &&
  bool_decide (doc_ontology_id document = idoc_ontology_id record) &&
  bool_decide (doc_document_iri document = idoc_document_iri record) &&
  bool_decide (prov_source_sha256 (doc_provenance document) = idoc_source_sha256 record) &&
  bool_decide (doc_document_fingerprint document = idoc_document_fingerprint record) &&
  bool_decide (prov_format (doc_provenance document) = idoc_format record).

(** ** Report, options and members *)

(** [value < 0.0] and [value <= 0.0] of a finite float: the sign bit and the magnitude. *)
Definition f64_magnitude (bits : f64_bits) : Z := Z.land bits (Z.ones 63).
Definition f64_negative (bits : f64_bits) : bool := negb (Z.shiftr bits 63 =? 0) && negb (f64_magnitude bits =? 0).
Definition f64_not_positive (bits : f64_bits) : bool := negb (Z.shiftr bits 63 =? 0) || (f64_magnitude bits =? 0).

Definition validate_timing (timing : bytes * f64_bits) (previous : option bytes) : outcome (option bytes) :=
  let '(name, seconds) := timing in
  validate_metadata_string name MAX_TIMING_NAME_BYTES;;
  fail_if (match previous with Some value => bytes_leb name value | None => false end)
    (protocol "native publication report timings are not strictly ordered");;
  fail_if (negb (is_finite seconds) || f64_negative seconds) (protocol "native publication report timing is invalid");;
  mret (Some name).

Definition validate_report (report : LoadReportV1) (options : LoadOptionsV1) : outcome unit :=
  fail_if (negb (bool_decide (report_backend report = str "native")))
    (protocol "native publication report backend is not native");;
  fail_if (MAX_TIMING_ROWS <? len (report_timings report))
    (limit "native publication report timing count exceeds limits");;
  _ ← ofor_each validate_timing (report_timings report) None;
  ofor_each (fun fingerprint (_ : unit) => validate_fingerprint fingerprint)
    [report_structural_fingerprint report; report_logical_fingerprint report; report_signature_fingerprint report] tt;;
  (if report_owl2_dl_validated report then
     fail_if (negb (is_some (report_owl2_dl_conforms report)) || negb (is_some (report_owl2_dl_report_sha256 report)))
       (protocol "native validated OWL report metadata is incomplete")
   else
     fail_if (is_some (report_owl2_dl_conforms report) || is_some (report_owl2_dl_report_sha256 report))
       (protocol "native unvalidated OWL report publishes result metadata"));;
  fail_if (xorb (report_owl2_dl_validated report) (opt_validate_owl2_dl options))
    (protocol "native OWL validation report and options diverge").

Definition validate_load_options (options : LoadOptionsV1) : outcome unit :=
  match pl_deadline_seconds (opt_limits options) with
  | Some (Deadline_Float value) =>
      fail_if (negb (is_finite value) || f64_not_positive value)
        (protocol "native publication deadline must be positive and finite")
  | _ => Ok tt
  end.

(** One member; [previous] is the raw identifier before it. *)
Definition validate_member (arena : NativeArena) (expected : option Category) (identifier : Z) (previous : option Z)
    : outcome (option Z) :=
  fail_if (match previous with Some value => identifier <=? value | None => false end)
    (protocol "native publication members are not strictly ordered");;
  row ← canonical_row_at (tables arena) identifier;
  fail_if (match expected with Some category => negb (bool_decide (frozen_category row = category)) | None => false end)
    (protocol "native publication member has the wrong model category");;
  mret (Some identifier).
Definition validate_member_rows (arena : NativeArena) (rows : list Z) (expected : option Category) : outcome unit :=
  _ ← ofor_each (validate_member arena expected) rows None; mret tt.

Definition validate_members (arena : NativeArena) (document : DocumentPublicationV1) (members : DocumentMembersV1)
    : outcome unit :=
  annotations ← usize_u64 (len (members_ontology_annotations members));
  axioms ← usize_u64 (len (members_axioms members));
  extensions ← usize_u64 (len (members_extensions members));
  fail_if (negb (annotations =? doc_ontology_annotation_count document) ||
           negb (axioms =? doc_axiom_count document) || negb (extensions =? doc_extension_count document))
    (protocol "native publication member counts diverge");;
  validate_member_rows arena (members_ontology_annotations members) (Some CAnnotation);;
  validate_member_rows arena (members_axioms members) (Some CAxiom);;
  validate_member_rows arena (members_extensions members) None.

(** ** The whole draft *)

Record Aggregates := mkAggregates {
  agg_diagnostics : Z;
  agg_annotations : Z;
  agg_axioms : Z;
  agg_extensions : Z;
  agg_source_bytes : Z;
  agg_source_map_entries : Z;
  agg_origin_entries : Z;
  agg_rdf_reports : Z
}.

Definition set_agg_diagnostics (value : Z) (a : Aggregates) : Aggregates :=
  {| agg_diagnostics := value; agg_annotations := agg_annotations a; agg_axioms := agg_axioms a;
     agg_extensions := agg_extensions a; agg_source_bytes := agg_source_bytes a;
     agg_source_map_entries := agg_source_map_entries a; agg_origin_entries := agg_origin_entries a;
     agg_rdf_reports := agg_rdf_reports a |}.

Definition diagnostic_overflow : string := "native publication diagnostic count overflow".

(** The counts of one document. *)
Definition add_document (document : DocumentPublicationV1) (a : Aggregates) : outcome Aggregates :=
  annotations ← add_count (agg_annotations a) (doc_ontology_annotation_count document)
                  "native publication annotation count overflow";
  axioms ← add_count (agg_axioms a) (doc_axiom_count document) "native publication axiom count overflow";
  extensions ← add_count (agg_extensions a) (doc_extension_count document) "native publication extension count overflow";
  source_bytes ← add_count (agg_source_bytes a) (prov_byte_length (doc_provenance document))
                   "native publication source byte count overflow";
  source_map_entries ← add_count (agg_source_map_entries a) (doc_source_map_entry_count document)
                         "native publication source-map count overflow";
  origin_entries ← add_count (agg_origin_entries a) (doc_origin_entry_count document)
                     "native publication origin count overflow";
  n ← usize_u64 (len (doc_diagnostics document));
  diagnostics ← add_count (agg_diagnostics a) n diagnostic_overflow;
  rdf_reports ← (if is_some (doc_rdf_mapping_report_sha256 document)
                 then add_count (agg_rdf_reports a) 1 "native publication RDF report count overflow"
                 else Ok (agg_rdf_reports a));
  mret {| agg_diagnostics := diagnostics; agg_annotations := annotations; agg_axioms := axioms;
          agg_extensions := extensions; agg_source_bytes := source_bytes;
          agg_source_map_entries := source_map_entries; agg_origin_entries := origin_entries;
          agg_rdf_reports := rdf_reports |}.

Definition imports_diverge : NativeError := protocol "native publication direct imports and edges diverge".

(** The [while] loop over the edges of a document.  [edges] are the edges from
    [edge_index] on, so that [edges.get(edge_index)] is its head. *)
Fixpoint document_edges (document : DocumentPublicationV1) (edges : list ImportEdgeV1) (import_index : Z) (a : Aggregates)
    : outcome (list ImportEdgeV1 * Z * Aggregates) :=
  match edges with
  | [] => Ok ([], import_index, a)
  | edge :: rest =>
      if bool_decide (edge_importing_document_key edge = doc_document_key document) then
        validate_import_edge edge;;
        fail_if (negb (bool_decide (get_at (doc_direct_imports document) import_index = Some (edge_import_iri edge))))
          imports_diverge;;
        diagnostics ← (if is_some (edge_diagnostic edge) then add_count (agg_diagnostics a) 1 diagnostic_overflow
                       else Ok (agg_diagnostics a));
        import_index ← usize_add import_index 1;
        document_edges document rest import_index (set_agg_diagnostics diagnostics a)
      else Ok (edges, import_index, a)
  end.

(** The local variables of the loop over the documents. *)
Record DocumentLoop := mkDocumentLoop {
  loop_aggregates : Aggregates;
  loop_keys : gset bytes;
  previous_key : option bytes;
  roots : Z;
  loop_edges : list ImportEdgeV1
}.

Definition document_row (draft : PublicationDraftV1)
    (row : DocumentPublicationV1 * DocumentMembersV1 * ImportDocumentV1) (l : DocumentLoop) : M World DocumentLoop :=
  let '(document, members, record) := row in
  validate_document document;;
  lift (validate_import_document record);;
  ensure_not (match previous_key l with Some previous => bytes_leb (doc_document_key document) previous | None => false end)
    (protocol "native publication documents are not strictly ordered");;
  ensure_not (bool_decide (doc_document_key document ∈ loop_keys l))
    (protocol "native publication document keys are not unique");;
  ensure_not (negb (document_record_matches document record))
    (protocol "native publication document metadata diverges");;
  roots ← lift (if bool_decide (idoc_status record = DocumentStatus_Root) then
    n ← add_count (roots l) 1 "native publication root count overflow";
    fail_if (negb (bool_decide (idoc_document_key record = draft_root_document_key draft)))
      (protocol "native publication root document diverges");;
    mret n
  else Ok (roots l));
  lift (validate_members (draft_arena draft) document members);;
  aggregates ← lift (add_document document (loop_aggregates l));
  '(edges, import_index, aggregates) ← lift (document_edges document (loop_edges l) 0 aggregates);
  ensure_not (negb (import_index =? len (doc_direct_imports document))) imports_diverge;;
  mret {| loop_aggregates := aggregates; loop_keys := {[ doc_document_key document ]} ∪ loop_keys l;
          previous_key := Some (doc_document_key document); roots := roots; loop_edges := edges |}.

Definition unknown_document (keys : gset bytes) (edge : ImportEdgeV1) : bool :=
  negb (bool_decide (edge_importing_document_key edge ∈ keys)) ||
  match edge_resolved_document_key edge with Some target => negb (bool_decide (target ∈ keys)) | None => false end.

Definition validate_report_alignment (draft : PublicationDraftV1) (a : Aggregates) : outcome unit :=
  let report := draft_report draft in
  let limits := opt_limits (draft_load_options draft) in
  documents ← usize_u64 (len (draft_documents draft));
  fail_if (negb (report_document_count report =? documents) ||
           negb (report_total_source_bytes report =? agg_source_bytes a) ||
           (agg_axioms a <? report_effective_axiom_count report) ||
           negb (allows (pl_max_total_source_bytes limits) (report_total_source_bytes report)) ||
           negb (allows (pl_max_axioms limits) (report_effective_axiom_count report)) ||
           (report_resolution_attempts report <? report_acquisition_cache_hits report) ||
           (report_resolution_attempts report <? report_document_cache_hits report) ||
           negb (allows (pl_max_resolver_attempts limits) (report_resolution_attempts report)))
    (protocol "native publication report claims diverge").

(** [capability_bits & bit != 0] *)
Definition has_capability (draft : PublicationDraftV1) (bit : Z) : bool :=
  negb (Z.land (draft_capability_bits draft) bit =? 0).

Definition validate_capabilities (draft : PublicationDraftV1) (a : Aggregates) : outcome unit :=
  let options := draft_load_options draft in
  fail_if (negb (Z.land (draft_capability_bits draft) (Z.lxor U64_MAX KNOWN_CAPABILITIES) =? 0) ||
           negb (Z.land (draft_capability_bits draft) REQUIRED_CAPABILITIES =? REQUIRED_CAPABILITIES))
    (protocol "native publication capability bits are invalid");;
  let source := has_capability draft CAPABILITY_SOURCE_MAP in
  let origin := has_capability draft CAPABILITY_ORIGIN_INDEX in
  let rdf := has_capability draft CAPABILITY_RDF_MAPPING_REPORT in
  fail_if (xorb source (opt_preserve_source_map options) || xorb origin (opt_collect_provenance options) ||
           xorb rdf (negb (agg_rdf_reports a =? 0)) ||
           (negb (agg_source_map_entries a =? 0) && negb source) ||
           (negb (agg_origin_entries a =? 0) && negb origin) ||
           negb (allows (pl_max_source_map_entries (opt_limits options)) (agg_source_map_entries a)) ||
           negb (allows (pl_max_origin_entries (opt_limits options)) (agg_origin_entries a)))
    (protocol "native publication capability and table claims diverge").

(** The local variables after the loop over the documents, whose keys and edges are checked as a whole. *)
Definition Aggregates_start (diagnostics : Z) : Aggregates :=
  {| agg_diagnostics := diagnostics; agg_annotations := 0; agg_axioms := 0; agg_extensions := 0;
     agg_source_bytes := 0; agg_source_map_entries := 0; agg_origin_entries := 0; agg_rdf_reports := 0 |}.

Definition document_rows (draft : PublicationDraftV1) : M World DocumentLoop :=
  n ← lift (usize_u64 (len (draft_diagnostics draft)));
  try_reserve "native publication document-key allocation failed";;
  for_each (document_row draft)
    (zip (zip (draft_documents draft) (draft_document_members draft)) (manifest_documents (draft_import_manifest draft)))
    {| loop_aggregates := Aggregates_start n; loop_keys := ∅; previous_key := None; roots := 0;
       loop_edges := manifest_edges (draft_import_manifest draft) |}.

(** The checks before the loop *)
Definition validate_header (draft : PublicationDraftV1) : outcome unit :=
  let options := draft_load_options draft in
  let manifest := draft_import_manifest draft in
  fail_if (match draft_documents draft with [] => true | _ => false end)
    (protocol "native publication requires at least one document");;
  check_count (len (draft_documents draft)) MAX_DOCUMENTS (pl_max_documents (opt_limits options)) "max_documents"
    "native publication document count exceeds limits";;
  check_count (len (manifest_edges manifest)) MAX_IMPORT_EDGES (pl_max_axioms (opt_limits options)) "max_axioms"
    "native publication import edge count exceeds limits";;
  fail_if (negb (len (draft_documents draft) =? len (draft_document_members draft)) ||
           negb (len (draft_documents draft) =? len (manifest_documents manifest)))
    (protocol "native publication document tables are not aligned");;
  fail_if (negb (bool_decide (opt_backend options = Backend_Native)))
    (protocol "native publication requires forced native backend");;
  validate_load_options options;;
  fail_if (negb (bool_decide (opt_imports options = manifest_policy manifest)) ||
           xorb (opt_offline options) (manifest_offline manifest))
    (protocol "native publication options and import manifest diverge");;
  validate_document_key (draft_root_document_key draft);;
  validate_report (draft_report draft) options;;
  validate_diagnostics (draft_diagnostics draft).

(** The checks after it *)
Definition validate_totals (draft : PublicationDraftV1) (l : DocumentLoop) : outcome Aggregates :=
  let a := loop_aggregates l in
  fail_if (negb (roots l =? 1) || match loop_edges l with [] => false | _ => true end)
    (protocol "native publication root or import edge alignment is invalid");;
  ofor_each (fun edge (_ : unit) => fail_if (unknown_document (loop_keys l) edge)
      (protocol "native publication import edge references an unknown document"))
    (manifest_edges (draft_import_manifest draft)) tt;;
  allowed_diagnostics ← allowed_count (pl_max_diagnostics (opt_limits (draft_load_options draft))) MAX_TOTAL_DIAGNOSTICS
                          "native diagnostic limit exceeds u64";
  fail_if (allowed_diagnostics <? agg_diagnostics a)
    (resource_limit "max_diagnostics" (NativeNumber_integer (agg_diagnostics a)) (NativeNumber_integer allowed_diagnostics)
       "native publication diagnostic count exceeds limits");;
  validate_report_alignment draft a;;
  validate_capabilities draft a;;
  mret a.

(** [validate_publication] *)
Definition validate_publication (draft : PublicationDraftV1) : M World Aggregates :=
  lift (validate_header draft);;
  l ← document_rows draft;
  lift (validate_totals draft l).

(** ** Counters *)

(** [size_of] of the two records on a 64-bit target *)
Definition DIAGNOSTIC_BYTES : Z := 184.
Definition IMPORT_EDGE_BYTES : Z := 272.

Definition add_bytes (total value : Z) : outcome Z :=
  n ← usize_u64 value; add_count total n "native publication byte counter overflow".

Definition record_counter_overflow : string := "native publication record counter overflow".

(** One document: the counters [retained], [records] and [membership]. *)
Definition count_document (row : DocumentPublicationV1 * DocumentMembersV1) (counters : Z * Z * Z) : outcome (Z * Z * Z) :=
  let '(document, members) := row in
  let '(retained, records, membership) := counters in
  records ← add_count records 2 record_counter_overflow;
  retained ← add_bytes retained (len (doc_document_key document));
  imports ← ofor_each (fun iri total => usize_add total (len iri)) (doc_direct_imports document) 0;
  retained ← add_bytes retained imports;
  diagnostics ← usize_mul (len (doc_diagnostics document)) DIAGNOSTIC_BYTES;
  retained ← add_bytes retained diagnostics;
  rows ← usize_add (len (members_ontology_annotations members)) (len (members_axioms members));
  rows ← usize_add rows (len (members_extensions members));
  rows ← usize_u64 rows;
  membership ← add_count membership rows "native publication membership counter overflow";
  mret (retained, records, membership).

Definition publication_counters (draft : PublicationDraftV1) : outcome PublicationCountersV1 :=
  let edges := len (manifest_edges (draft_import_manifest draft)) in
  '(retained, records, membership) ←
    ofor_each count_document (zip (draft_documents draft) (draft_document_members draft)) (0, 2, 0);
  n ← usize_add edges (len (draft_diagnostics draft));
  n ← usize_u64 n;
  records ← add_count records n record_counter_overflow;
  n ← usize_mul edges IMPORT_EDGE_BYTES;
  retained ← add_bytes retained n;
  n ← usize_mul (len (draft_diagnostics draft)) DIAGNOSTIC_BYTES;
  retained ← add_bytes retained n;
  mret {| cnt_retained_metadata_bytes := retained; cnt_metadata_records := records;
          cnt_arena_rows_copied := 0; cnt_membership_rows := membership |}.

(** ** Freezing *)

(** The storage shares the records of the draft ([Arc]); the Python handle of
    a publication owns a reference to it. *)
Record PublicationStorageV1 := mkPublicationStorage {
  st_arena : NativeArena;
  st_documents : list DocumentPublicationV1;
  st_document_members : list DocumentMembersV1;
  st_import_manifest : ImportManifestV1;
  st_root_document_key : bytes;
  st_load_options : LoadOptionsV1;
  st_diagnostics : list DiagnosticV1;
  st_report : LoadReportV1;
  st_capability_bits : Z;
  st_root_table_sha256 : bytes;
  st_fingerprint_inputs_sha256 : bytes;
  st_source_manifest_sha256 : bytes;
  st_provenance_manifest_sha256 : bytes;
  st_attestation : NativeSnapshotAttestationV1;
  st_counters : PublicationCountersV1
}.

Record NativeSnapshotPublicationV1 := mkPublication {
  pub_version : Z;
  pub_ledger_sha256 : bytes;
  pub_documents : list DocumentPublicationV1;
  pub_import_manifest : ImportManifestV1;
  pub_root_document_key : bytes;
  pub_load_options : LoadOptionsV1;
  pub_diagnostics : list DiagnosticV1;
  pub_report : LoadReportV1;
  pub_capability_bits : Z;
  pub_root_table_sha256 : bytes;
  pub_fingerprint_inputs_sha256 : bytes;
  pub_source_manifest_sha256 : bytes;
  pub_provenance_manifest_sha256 : bytes;
  pub_storage : PublicationStorageV1
}.

(** The literal [NativeSnapshotAttestationV1 { .. }] *)
Definition draft_attestation (draft : PublicationDraftV1) (a : Aggregates)
    (diagnostics_manifest load_options report_sha : bytes) : outcome NativeSnapshotAttestationV1 :=
  let report := draft_report draft in
  document_count ← usize_u64 (len (draft_documents draft));
  import_edge_count ← usize_u64 (len (manifest_edges (draft_import_manifest draft)));
  mret {|
    att_version := PUBLICATION_VERSION_V1;
    att_ledger_sha256 := PUBLICATION_LEDGER_SHA256_V1;
    att_root_table_sha256 := draft_root_table_sha256 draft;
    att_fingerprint_inputs_sha256 := draft_fingerprint_inputs_sha256 draft;
    att_source_manifest_sha256 := draft_source_manifest_sha256 draft;
    att_provenance_manifest_sha256 := draft_provenance_manifest_sha256 draft;
    att_diagnostics_manifest_sha256 := diagnostics_manifest;
    att_load_options_sha256 := load_options;
    att_report_sha256 := report_sha;
    att_document_count := document_count;
    att_import_edge_count := import_edge_count;
    att_diagnostic_count := agg_diagnostics a;
    att_ontology_annotation_count := agg_annotations a;
    att_stored_axiom_count := agg_axioms a;
    att_effective_axiom_count := report_effective_axiom_count report;
    att_extension_count := agg_extensions a;
    att_total_source_bytes := agg_source_bytes a;
    att_source_map_entry_count := agg_source_map_entries a;
    att_origin_entry_count := agg_origin_entries a;
    att_rdf_mapping_report_count := agg_rdf_reports a;
    att_capability_bits := draft_capability_bits draft;
    att_api_version := report_api_version report;
    att_model_schema := report_model_schema report;
    att_backend := report_backend report;
    att_root_document_key := draft_root_document_key draft;
    att_owl2_dl_validated := report_owl2_dl_validated report;
    att_owl2_dl_conforms := report_owl2_dl_conforms report;
    att_owl2_dl_report_sha256 := report_owl2_dl_report_sha256 report
  |}.

Definition freeze_storage (draft : PublicationDraftV1) (attestation : NativeSnapshotAttestationV1)
    (counters : PublicationCountersV1) : PublicationStorageV1 :=
  {| st_arena := draft_arena draft; st_documents := draft_documents draft;
     st_document_members := draft_document_members draft; st_import_manifest := draft_import_manifest draft;
     st_root_document_key := draft_root_document_key draft; st_load_options := draft_load_options draft;
     st_diagnostics := draft_diagnostics draft; st_report := draft_report draft;
     st_capability_bits := draft_capability_bits draft; st_root_table_sha256 := draft_root_table_sha256 draft;
     st_fingerprint_inputs_sha256 := draft_fingerprint_inputs_sha256 draft;
     st_source_manifest_sha256 := draft_source_manifest_sha256 draft;
     st_provenance_manifest_sha256 := draft_provenance_manifest_sha256 draft;
     st_attestation := attestation; st_counters := counters |}.

Definition publication_of (storage : PublicationStorageV1) : NativeSnapshotPublicationV1 :=
  {| pub_version := PUBLICATION_VERSION_V1; pub_ledger_sha256 := PUBLICATION_LEDGER_SHA256_V1;
     pub_documents := st_documents storage; pub_import_manifest := st_import_manifest storage;
     pub_root_document_key := st_root_document_key storage; pub_load_options := st_load_options storage;
     pub_diagnostics := st_diagnostics storage; pub_report := st_report storage;
     pub_capability_bits := st_capability_bits storage; pub_root_table_sha256 := st_root_table_sha256 storage;
     pub_fingerprint_inputs_sha256 := st_fingerprint_inputs_sha256 storage;
     pub_source_manifest_sha256 := st_source_manifest_sha256 storage;
     pub_provenance_manifest_sha256 := st_provenance_manifest_sha256 storage; pub_storage := storage |}.

(** [PublicationDraftV1::freeze] *)
Definition PublicationDraftV1_freeze (draft : PublicationDraftV1) : M World NativeSnapshotPublicationV1 :=
  aggregates ← validate_publication draft;
  diagnostics_manifest_sha256 ←
    diagnostics_digest (draft_diagnostics draft) (draft_documents draft) (draft_import_manifest draft);
  load_options_sha256 ← load_options_digest (draft_load_options draft);
  report_sha256 ← report_digest (draft_report draft);
  attestation ← lift (draft_attestation draft aggregates diagnostics_manifest_sha256 load_options_sha256 report_sha256);
  _ ← attestation_digest attestation;
  counters ← lift (publication_counters draft);
  mret (publication_of (freeze_storage draft attestation counters)).
