(* ===== verification/PublishSound.v ===== *)
(** * What validation establishes

    [consistent draft] is the specification of a publication; every draft that
    [validate_publication] accepts is consistent, its aggregates are the totals
    of the draft, and validation panics on no well-typed draft. *)

From S2P Require Import Prelude Bytes Error Machine Schema Lexical Varint Arena Decimal Records Codec CodecTheorems Publish.

(** ** Well-typed drafts

    What the types of the records promise: strings are UTF-8 and fit in
    memory, digests have 32 bytes, counters 64 bits. *)

Definition utf8 (value : bytes) : Prop := is_utf8 value = true.

Record diagnostic_ok (d : DiagnosticV1) : Prop := {
  do_typed : diagnostic_typed d;
  do_iri : option_all utf8 (diag_document_iri d);
  do_chain : Forall utf8 (diag_import_chain d)
}.
Definition ontology_ok (v : OntologyIdV1) : Prop := option_all utf8 (ontology_iri v) /\ option_all utf8 (version_iri v).

Record document_ok (d : DocumentPublicationV1) : Prop := {
  doc_ontology_ok : ontology_ok (doc_ontology_id d);
  doc_iris_ok : option_all utf8 (doc_document_iri d) /\ option_all utf8 (prov_document_iri (doc_provenance d));
  doc_imports_ok : Forall utf8 (doc_direct_imports d);
  doc_diagnostics_ok : Forall diagnostic_ok (doc_diagnostics d);
  doc_key_fits : fits (doc_document_key d);
  doc_counts_ok : Forall is_u64 [doc_ontology_annotation_count d; doc_axiom_count d; doc_extension_count d;
    prov_byte_length (doc_provenance d); doc_source_map_entry_count d; doc_origin_entry_count d]
}.
Definition record_ok (r : ImportDocumentV1) : Prop := ontology_ok (idoc_ontology_id r) /\ option_all utf8 (idoc_document_iri r).
Record edge_ok (e : ImportEdgeV1) : Prop := {
  edge_iri_ok : utf8 (edge_import_iri e);
  edge_texts_ok : fits (edge_importing_document_key e) /\ fits (edge_import_iri e);
  edge_diagnostic_ok : option_all diagnostic_ok (edge_diagnostic e)
}.
(** The rows of a document: a slice of four-byte identifiers is at most [isize::MAX] bytes. *)
Definition members_ok (m : DocumentMembersV1) : Prop :=
  Forall (fun rows : list Z => 4 * len rows < 2 ^ 63)
    [members_ontology_annotations m; members_axioms m; members_extensions m].

(** ** Strings and diagnostics *)

Lemma owp_metadata value maximum (Q : unit -> Prop) :
  (value <> [] -> len value <= maximum -> Q tt) -> owp (validate_metadata_string value maximum) Q.
Proof.
  intros HQ. unfold validate_metadata_string. repeat step. apply HQ; [by intros ->|by bool_to_prop].
Qed.

Lemma owp_iri_string value (Q : unit -> Prop) :
  utf8 value -> (valid_iri value -> len value <= MAX_IRI_BYTES -> Q tt) -> owp (validate_iri_string value) Q.
Proof.
  intros Hu HQ. unfold validate_iri_string. step. apply owp_metadata. intros _ Hl.
  apply owp_validate_iri; [done|]. intros Hv. by apply HQ.
Qed.

Lemma owp_optional_iri value (Q : unit -> Prop) : option_all utf8 value -> Q tt -> owp (validate_optional_iri value) Q.
Proof. intros Hu HQ. destruct value as [value|]; [|done]. by apply owp_iri_string. Qed.

Lemma owp_ontology_id value (Q : unit -> Prop) : ontology_ok value -> Q tt -> owp (validate_ontology_id value) Q.
Proof.
  intros [Ho Hv] HQ. unfold validate_ontology_id. step. apply owp_optional_iri; [done|]. step.
  apply owp_optional_iri; [done|]. by repeat step.
Qed.

(** A loop of checks. *)
Lemma owp_checks {A} (f : A -> outcome unit) values (Q : unit -> Prop) :
  Forall (fun x => f x <> Panic) values -> Q tt -> owp (ofor_each (fun x (_ : unit) => f x) values tt) Q.
Proof.
  intros Hf HQ. induction Hf as [|x values Hx _ IH]; cbn [ofor_each]; [done|].
  apply owp_bind, owp_intro; [done|]. intros [] _. exact IH.
Qed.

Lemma owp_metadata_texts texts (Q : unit -> Prop) : Q tt -> owp (validate_metadata_texts texts) Q.
Proof.
  intros HQ. apply (owp_checks (fun text => match text with
    | Some text => validate_metadata_string text MAX_METADATA_STRING_BYTES | None => Ok tt end)); [|done].
  apply Forall_true. intros [text|]; [|done]. eapply owp_no_panic, (owp_metadata _ _ (fun _ => True)). done.
Qed.

Lemma owp_diagnostic d (Q : unit -> Prop) : diagnostic_ok d -> Q tt -> owp (validate_diagnostic d) Q.
Proof.
  intros [_ Hi Hc] HQ. unfold validate_diagnostic. do 2 step. step. apply owp_metadata. intros _ _.
  step. apply owp_metadata. intros _ _. step. apply owp_optional_iri; [done|].
  do 2 step. do 2 step. step. apply owp_checks.
  { eapply Forall_impl; [exact Hc|]. intros iri Hiri. eapply owp_no_panic, (owp_iri_string _ (fun _ => True)); done. }
  step. eapply owp_mono; [|eapply (owp_for_each _ (fun _ _ => True)); [done|]]; [by intros|].
  intros [k v] rest earlier _. unfold validate_detail. step. apply owp_metadata. intros _ _. do 2 step.
  destruct v as [text| |]; cbn [snd]; step; [|done|done]. by apply owp_metadata.
Qed.

Lemma owp_diagnostics values (Q : unit -> Prop) :
  Forall diagnostic_ok values -> (len values <= MAX_DIAGNOSTICS_PER_SEQUENCE -> Q tt) -> owp (validate_diagnostics values) Q.
Proof.
  intros Hv HQ. unfold validate_diagnostics. do 2 step. apply owp_checks; [|apply HQ; by bool_to_prop].
  eapply Forall_impl; [exact Hv|]. intros d Hd. eapply owp_no_panic, (owp_diagnostic _ (fun _ => True)); done.
Qed.

(** ** Documents *)

(** The order of direct imports: that of their canonical rows. *)
Definition iri_key (iri : bytes) : bytes := [1; 2] ++ varint (len iri) ++ iri.
Definition iri_lt (x y : bytes) : Prop := bytes_lt (iri_key x) (iri_key y).
#[export] Instance iri_lt_transitive : Transitive iri_lt.
Proof. intros x y z. unfold iri_lt. apply StrictOrder_Transitive. Qed.

Definition published_iri (iri : bytes) : Prop := valid_iri iri /\ len iri <= MAX_IRI_BYTES.
Definition imports_valid (imports : list bytes) : Prop :=
  StronglySorted iri_lt imports /\ Forall published_iri imports.

Lemma wp_canonical_iri_bytes iri (Q : bytes -> World -> Prop) w :
  len iri <= MAX_IRI_BYTES -> (forall w', Q (iri_key iri) w') -> wp (canonical_iri_bytes iri) Q w.
Proof.
  intros Hl HQ. unfold canonical_iri_bytes. do 2 step. do 2 step. step. step. conversions.
  unfold encode_varint. rewrite encode_u64_loop_varint by (change (128 ^ Z.of_nat 10) with (2 ^ 70); unfold MAX_IRI_BYTES in *; lia).
  rewrite <- app_assoc. apply HQ.
Qed.

Lemma wp_direct_imports imports (Q : World -> Prop) w :
  Forall utf8 imports -> (imports_valid imports -> forall w', Q w') ->
  wp (for_each direct_import imports None) (fun _ w' => Q w') w.
Proof.
  intros Hu HQ. eapply wp_mono; [eapply (wp_for_each _ (fun rest previous _ => Forall utf8 rest /\
    exists done, imports = done ++ rest /\ imports_valid done /\ previous = option_map iri_key (last done)))|].
  - split; [done|]. exists []. split; [done|]. split; [|done]. split; constructor.
  - intros iri rest previous w1 [Hr (done & -> & [Hs Hv] & ->)]. apply Forall_cons in Hr as [Hi Hr].
    unfold direct_import. step. step. apply owp_iri_string; [done|]. intros Hiri Hl.
    step. apply wp_canonical_iri_bytes; [done|]. intros w2. do 2 step. step. split; [done|].
    exists (done ++ [iri]). rewrite <- app_assoc, last_snoc. split; [reflexivity|]. split; [|reflexivity]. split.
    + apply sorted_snoc; [exact _|exact Hs|]. intros y Hy. rewrite Hy in *. cbn in *. by apply bytes_leb_false.
    + apply Forall_app. split; [exact Hv|]. by apply Forall_singleton.
  - intros previous w1 [_ (done & E & Hd & _)]. rewrite app_nil_r in E. subst. by apply HQ.
Qed.

Lemma owp_provenance v (Q : unit -> Prop) :
  option_all utf8 (prov_document_iri v) -> Q tt -> owp (validate_provenance v) Q.
Proof.
  intros Hi HQ. unfold validate_provenance. step. apply owp_optional_iri; [done|]. step. apply owp_metadata_texts.
  step. apply owp_metadata. intros _ _. by apply owp_metadata.
Qed.

Lemma wp_document d (Q : unit -> World -> Prop) w :
  document_ok d ->
  (imports_valid (doc_direct_imports d) -> len (doc_direct_imports d) <= MAX_DIRECT_IMPORTS_PER_DOCUMENT ->
   len (doc_diagnostics d) <= MAX_DIAGNOSTICS_PER_SEQUENCE -> len (doc_document_key d) <= MAX_DOCUMENT_KEY_BYTES ->
   forall w', Q tt w') ->
  wp (validate_document d) Q w.
Proof.
  intros [Ho [Hd Hp] Hi Hdiag _ _] HQ. unfold validate_document. step. step. apply owp_metadata. intros _ Hkey.
  step. step. apply owp_ontology_id; [done|]. step. step. apply owp_optional_iri; [done|].
  do 2 step. step. apply wp_direct_imports; [done|]. intros Himp w1.
  step. step. apply owp_provenance; [done|]. step. step. cbn [owp validate_fingerprint].
  step. step. apply owp_diagnostics; [done|]. intros Hn. step. bool_to_prop. by apply HQ.
Qed.

Lemma owp_import_document r (Q : unit -> Prop) : record_ok r -> Q tt -> owp (validate_import_document r) Q.
Proof.
  intros [Ho Hd] HQ. unfold validate_import_document. step. apply owp_metadata. intros _ _.
  step. apply owp_ontology_id; [done|]. step. by apply owp_optional_iri.
Qed.

(** An edge has a target exactly when it is resolved. *)
Definition edge_resolved (e : ImportEdgeV1) : Prop :=
  edge_status e = EdgeStatus_Resolved <-> edge_resolved_document_key e <> None.

Lemma owp_import_edge e (Q : unit -> Prop) :
  edge_ok e -> (edge_resolved e -> Q tt) -> owp (validate_import_edge e) Q.
Proof.
  intros [Hi _ Hd] HQ. unfold validate_import_edge. step. apply owp_metadata. intros _ _.
  step. apply owp_iri_string; [done|]. intros _ _.
  step. apply (owp_mono _ (fun _ => edge_resolved e)).
  - intros [] Hr. step. apply (owp_mono _ (fun _ => True)).
    { intros [] _. step. apply owp_metadata_texts. destruct (edge_diagnostic e); [|by apply HQ].
      apply owp_diagnostic; [done|]. by apply HQ. }
    destruct (edge_resolved_document_key e); [|done]. by apply owp_metadata.
  - unfold edge_resolved. case_bool_decide as Hs; step;
      (destruct (edge_resolved_document_key e); [|]); try done; split; try done; by intros [].
Qed.

Lemma document_record_matches_spec d r :
  document_record_matches d r = true ->
  doc_document_key d = idoc_document_key r /\ doc_ontology_id d = idoc_ontology_id r /\
  doc_document_iri d = idoc_document_iri r /\ prov_source_sha256 (doc_provenance d) = idoc_source_sha256 r /\
  doc_document_fingerprint d = idoc_document_fingerprint r /\ prov_format (doc_provenance d) = idoc_format r.
Proof. unfold document_record_matches. rewrite !andb_true_iff, !bool_decide_eq_true. tauto. Qed.

(** ** Members *)

(** Identifiers in ascending order that resolve in the arena to the right category. *)
Definition row_of (arena : NativeArena) (expected : option Category) (identifier : Z) : Prop :=
  exists row, get_at (canonical_rows (tables arena)) identifier = Some row /\
    match expected with Some category => frozen_category row = category | None => True end.
Definition rows_valid (arena : NativeArena) (expected : option Category) (rows : list Z) : Prop :=
  StronglySorted Z.lt rows /\ Forall (row_of arena expected) rows.

Lemma owp_member_rows arena rows expected (Q : unit -> Prop) :
  (rows_valid arena expected rows -> Q tt) -> owp (validate_member_rows arena rows expected) Q.
Proof.
  intros HQ. unfold validate_member_rows. step.
  eapply owp_mono; [|eapply (owp_for_each _ (fun rest previous =>
    exists done, rows = done ++ rest /\ rows_valid arena expected done /\ previous = last done))].
  - intros previous (done & E & Hd & _). rewrite app_nil_r in E. subst. step. by apply HQ.
  - exists []. split; [done|]. split; [|done]. split; constructor.
  - intros i rest previous (done & -> & [Hs Hv] & ->). unfold validate_member, canonical_row_at. do 2 step. step. step.
    do 3 step. exists (done ++ [i]). rewrite <- app_assoc, last_snoc. split; [done|]. split; [|done]. split.
    + apply sorted_snoc; [exact _|exact Hs|]. intros y Hy. rewrite Hy in *. by bool_to_prop.
    + apply Forall_app. split; [exact Hv|]. apply Forall_singleton. eexists. split; [eassumption|].
      destruct expected; [|done]. bool_to_prop. by eapply bool_decide_eq_true_1.
Qed.

Record members_valid (arena : NativeArena) (d : DocumentPublicationV1) (m : DocumentMembersV1) : Prop := {
  mv_counts : len (members_ontology_annotations m) = doc_ontology_annotation_count d /\
              len (members_axioms m) = doc_axiom_count d /\ len (members_extensions m) = doc_extension_count d;
  mv_annotations : rows_valid arena (Some CAnnotation) (members_ontology_annotations m);
  mv_axioms : rows_valid arena (Some CAxiom) (members_axioms m);
  mv_extensions : rows_valid arena None (members_extensions m)
}.

Lemma owp_members arena d m (Q : unit -> Prop) :
  (members_valid arena d m -> Q tt) -> owp (validate_members arena d m) Q.
Proof.
  intros HQ. unfold validate_members, usize_u64. do 6 step. do 2 step. conversions. bool_to_prop.
  step. apply owp_member_rows. intros ?. step. apply owp_member_rows. intros ?. apply owp_member_rows. intros ?.
  by apply HQ.
Qed.

(** ** Totals *)

Definition total {A} (f : A -> Z) (l : list A) : Z := sum (map f l).
Lemma total_snoc {A} (f : A -> Z) l x : total f (l ++ [x]) = total f l + f x.
Proof. unfold total. rewrite map_app, sum_app. cbn. lia. Qed.

Definition edge_diagnostics (e : ImportEdgeV1) : Z := if edge_diagnostic e then 1 else 0.
Definition document_diagnostics (d : DocumentPublicationV1) : Z := len (doc_diagnostics d).
Definition document_reports (d : DocumentPublicationV1) : Z := if doc_rdf_mapping_report_sha256 d then 1 else 0.

Definition totals (n : Z) (docs : list DocumentPublicationV1) (edges : list ImportEdgeV1) : Aggregates :=
  {| agg_diagnostics := n + total document_diagnostics docs + total edge_diagnostics edges;
     agg_annotations := total doc_ontology_annotation_count docs;
     agg_axioms := total doc_axiom_count docs;
     agg_extensions := total doc_extension_count docs;
     agg_source_bytes := total (fun d => prov_byte_length (doc_provenance d)) docs;
     agg_source_map_entries := total doc_source_map_entry_count docs;
     agg_origin_entries := total doc_origin_entry_count docs;
     agg_rdf_reports := total document_reports docs |}.

(** Every counter is a [u64]. *)
Definition counters_ok (a : Aggregates) : Prop :=
  Forall is_u64 [agg_diagnostics a; agg_annotations a; agg_axioms a; agg_extensions a; agg_source_bytes a;
    agg_source_map_entries a; agg_origin_entries a; agg_rdf_reports a].

Lemma owp_add_count left right message (Q : Z -> Prop) :
  (left + right <= U64_MAX -> Q (left + right)) -> owp (add_count left right message) Q.
Proof. intros HQ. unfold add_count. step. match goal with H : checked_add _ _ _ = Some _ |- _ => apply checked_add_Some in H as [-> ?] end. by apply HQ. Qed.

Lemma owp_usize_u64 n message (Q : Z -> Prop) : Q n -> owp (ok_or (try_from U64_MAX n) (limit message)) Q.
Proof. intros HQ. step. by conversions. Qed.

Lemma owp_add_document n docs edges d (Q : Aggregates -> Prop) :
  document_ok d -> counters_ok (totals n docs edges) ->
  (counters_ok (totals n (docs ++ [d]) edges) -> Q (totals n (docs ++ [d]) edges)) ->
  owp (add_document d (totals n docs edges)) Q.
Proof.
  intros [_ _ _ _ _ Hc] Ha HQ. unfold counters_ok, totals in *. cbn [agg_diagnostics agg_annotations agg_axioms
    agg_extensions agg_source_bytes agg_source_map_entries agg_origin_entries agg_rdf_reports] in *.
  rewrite !total_snoc in HQ. repeat match goal with H : Forall _ (_ :: _) |- _ => apply Forall_cons in H as [? H] end.
  unfold add_document. do 6 (step; apply owp_add_count; intros ?). step. apply owp_usize_u64.
  step. apply owp_add_count. intros ?. cbn [agg_diagnostics agg_annotations agg_axioms
    agg_extensions agg_source_bytes agg_source_map_entries agg_origin_entries agg_rdf_reports] in *.
  step. apply (owp_mono _ (fun r => r = total document_reports docs + document_reports d /\ r <= U64_MAX)).
  - intros r [-> Hr]. step.
    replace (n + total document_diagnostics docs + total edge_diagnostics edges + len (doc_diagnostics d))
      with (n + (total document_diagnostics docs + document_diagnostics d) + total edge_diagnostics edges) in *
      by (unfold document_diagnostics; lia).
    apply HQ. unfold document_diagnostics, document_reports in *.
    repeat (apply Forall_cons; split); [..|by apply Forall_nil]; try ulia. destruct (doc_rdf_mapping_report_sha256 d); ulia.
  - assert (document_reports d = if doc_rdf_mapping_report_sha256 d then 1 else 0) as -> by done.
    destruct (doc_rdf_mapping_report_sha256 d); [by apply owp_add_count|]. cbn [owp]. rewrite Z.add_0_r. ulia.
Qed.

(** ** The edges of a document *)

Definition import_of (e : ImportEdgeV1) : bytes * bytes := (edge_importing_document_key e, edge_import_iri e).

Lemma get_at_take {A} (l : list A) i x : get_at l i = Some x -> take (Z.to_nat (i + 1)) l = take (Z.to_nat i) l ++ [x].
Proof.
  intros [Hi Hx]%get_at_Some. replace (Z.to_nat (i + 1)) with (S (Z.to_nat i)) by lia. by apply take_S_r.
Qed.

Lemma set_totals n docs edges edges' :
  set_agg_diagnostics (agg_diagnostics (totals n docs edges')) (totals n docs edges) = totals n docs edges'.
Proof. done. Qed.

Lemma owp_document_edges n docs used d edges i (Q : list ImportEdgeV1 * Z * Aggregates -> Prop) :
  Forall edge_ok edges -> 0 <= i <= len (doc_direct_imports d) ->
  len (doc_direct_imports d) <= MAX_DIRECT_IMPORTS_PER_DOCUMENT -> counters_ok (totals n docs used) ->
  (forall mine rest j, edges = mine ++ rest -> Forall edge_resolved mine ->
     map import_of mine = map (pair (doc_document_key d)) (drop (Z.to_nat i) (take (Z.to_nat j) (doc_direct_imports d))) ->
     i <= j <= len (doc_direct_imports d) -> counters_ok (totals n docs (used ++ mine)) ->
     Q (rest, j, totals n docs (used ++ mine))) ->
  owp (document_edges d edges i (totals n docs used)) Q.
Proof.
  intros He Hi Hmax Hc HQ. revert used i Hi Hc HQ.
  induction He as [|e edges Hok He IH]; intros used i Hi Hc HQ; cbn [document_edges].
  - cbn. specialize (HQ [] [] i). rewrite (app_nil_r used) in HQ. apply HQ; try done; [|lia].
    rewrite drop_ge; [done|]. rewrite length_take. lia.
  - case_bool_decide as Hk.
    2: { specialize (HQ [] (e :: edges) i). rewrite (app_nil_r used) in HQ. cbn. apply HQ; try done; [|lia].
         rewrite drop_ge; [done|]. rewrite length_take. lia. }
    step. apply owp_import_edge; [done|]. intros Hr. do 2 step. bool_to_prop.
    match goal with H : bool_decide _ = true |- _ => apply bool_decide_eq_true_1 in H; rename H into Hg end.
    pose proof (get_at_lt _ _ _ Hg) as Hlt. step.
    apply (owp_mono _ (fun r => r = agg_diagnostics (totals n docs (used ++ [e])) /\ is_u64 r)).
    + intros r [-> Hru]. step. apply owp_usize_add; [unfold MAX_DIRECT_IMPORTS_PER_DOCUMENT in *; ulia|].
      rewrite set_totals. apply IH; [lia| |].
      * apply Forall_cons in Hc as [_ Hc]. by apply Forall_cons.
      * intros mine rest j -> Hres Hmap Hj Hcj. rewrite <- app_assoc in Hcj. rewrite <- app_assoc.
        apply (HQ (e :: mine)); [done|by constructor| |lia|done].
        cbn [map]. rewrite Hmap. unfold import_of. rewrite Hk.
        rewrite get_at_Some in Hg. destruct Hg as [_ Hg].
        replace (Z.to_nat (i + 1)) with (S (Z.to_nat i)) by lia.
        rewrite (drop_S (take (Z.to_nat j) (doc_direct_imports d)) (edge_import_iri e) (Z.to_nat i)); [done|].
        rewrite lookup_take_lt; [done|lia].
    + apply Forall_inv in Hc. cbn [totals agg_diagnostics] in *. rewrite total_snoc.
      assert (edge_diagnostics e = if edge_diagnostic e then 1 else 0) as -> by done.
      destruct (edge_diagnostic e).
      * apply owp_add_count. intros ?. ulia.
      * cbn [owp]. ulia.
Qed.

(** ** The loop over the documents *)

Notation publication_row := (DocumentPublicationV1 * DocumentMembersV1 * ImportDocumentV1)%type.
Definition row_document (row : publication_row) : DocumentPublicationV1 := fst (fst row).
Definition row_members (row : publication_row) : DocumentMembersV1 := snd (fst row).
Definition row_record (row : publication_row) : ImportDocumentV1 := snd row.
Definition row_key (row : publication_row) : bytes := doc_document_key (row_document row).

Definition document_imports (d : DocumentPublicationV1) : list (bytes * bytes) :=
  map (pair (doc_document_key d)) (doc_direct_imports d).
Definition is_root (r : ImportDocumentV1) : Z := if bool_decide (idoc_status r = DocumentStatus_Root) then 1 else 0.

Record row_valid (draft : PublicationDraftV1) (row : publication_row) : Prop := {
  rv_record : document_record_matches (row_document row) (row_record row) = true;
  rv_imports : imports_valid (doc_direct_imports (row_document row));
  rv_members : members_valid (draft_arena draft) (row_document row) (row_members row);
  rv_root : idoc_status (row_record row) = DocumentStatus_Root ->
            idoc_document_key (row_record row) = draft_root_document_key draft;
  rv_bounds : len (doc_direct_imports (row_document row)) <= MAX_DIRECT_IMPORTS_PER_DOCUMENT /\
              len (doc_diagnostics (row_document row)) <= MAX_DIAGNOSTICS_PER_SEQUENCE /\
              len (row_key row) <= MAX_DOCUMENT_KEY_BYTES
}.

Record row_ok (row : publication_row) : Prop := {
  ro_document : document_ok (row_document row);
  ro_members : members_ok (row_members row);
  ro_record : record_ok (row_record row)
}.

(** The state of the loop after the rows [done]. *)
Record progress (draft : PublicationDraftV1) (n : Z) (done : list publication_row) (l : DocumentLoop) : Prop := {
  pg_edges : exists used, manifest_edges (draft_import_manifest draft) = used ++ loop_edges l /\
    loop_aggregates l = totals n (map row_document done) used /\ counters_ok (loop_aggregates l) /\
    map import_of used = concat (map document_imports (map row_document done)) /\ Forall edge_resolved used;
  pg_keys : loop_keys l = list_to_set (map row_key done);
  pg_previous : previous_key l = last (map row_key done);
  pg_sorted : StronglySorted bytes_lt (map row_key done);
  pg_roots : roots l = total is_root (map row_record done);
  pg_rows : Forall (row_valid draft) done
}.

Lemma owp_root draft l r (Q : Z -> Prop) :
  (forall k, k = roots l + is_root r ->
     (idoc_status r = DocumentStatus_Root -> idoc_document_key r = draft_root_document_key draft) -> Q k) ->
  owp (if bool_decide (idoc_status r = DocumentStatus_Root) then
         n ← add_count (roots l) 1 "native publication root count overflow";
         fail_if (negb (bool_decide (idoc_document_key r = draft_root_document_key draft)))
           (protocol "native publication root document diverges");;
         mret n
       else Ok (roots l)) Q.
Proof.
  intros HQ. unfold is_root in HQ. case_bool_decide as Hs.
  - step. apply owp_add_count. intros _. do 3 step. apply HQ; [done|]. intros _.
    bool_to_prop. by eapply bool_decide_eq_true_1.
  - cbn [owp]. apply HQ; [lia|done].
Qed.

Lemma wp_publication_row draft n done row l w :
  row_ok row -> Forall edge_ok (loop_edges l) -> progress draft n done l ->
  wp (document_row draft row l) (fun l' _ => progress draft n (done ++ [row]) l' /\ Forall edge_ok (loop_edges l')) w.
Proof.
  destruct row as [[d m] r]. intros [Hd _ Hr] He [(used & Eu & Ea & Hc & Hi & Hres) Hk Hp Hs Hroots Hrows].
  unfold row_document, row_record in Hd, Hr. cbn [fst snd] in Hd, Hr. unfold document_row.
  step. apply wp_document; [done|]. intros Himports Hn Hdiag Hkey w1.
  step. step. apply owp_import_document; [done|]. do 2 step. do 2 step. do 2 step.
  step. step. apply owp_root. intros k Ek Hroot. step. step. apply owp_members. intros Hmem.
  step. step. rewrite Ea in *. apply owp_add_document; [done|done|]. intros Hc1.
  step. step. apply owp_document_edges; [done|lia|done|done|]. intros mine rest j El Hmine Hmap Hj Hc2.
  do 2 step. step. bool_to_prop. subst j. split.
  - split; cbn [loop_aggregates loop_keys previous_key roots loop_edges]; rewrite ?map_app; cbn [map].
    + exists (used ++ mine). rewrite Eu, El, <- app_assoc, !map_app, concat_app, Hi, Hmap. splits; try done.
      * cbn [map concat]. rewrite app_nil_r. f_equal. unfold document_imports, row_document. cbn [fst].
        by rewrite drop_0, firstn_all2 by lia.
      * by apply Forall_app.
    + rewrite list_to_set_app_L, Hk. cbn [list_to_set]. set_solver.
    + by rewrite last_snoc.
    + apply sorted_snoc; [exact _|done|]. intros y Hy. rewrite Hp, Hy in *. by apply bytes_leb_false.
    + rewrite total_snoc, <- Hroots. done.
    + apply Forall_app. split; [done|]. apply Forall_singleton. by split.
  - cbn [loop_edges]. rewrite El in He. by apply Forall_app in He as [_ He].
Qed.

(** ** The specification *)

Definition draft_rows (draft : PublicationDraftV1) : list publication_row :=
  zip (zip (draft_documents draft) (draft_document_members draft)) (manifest_documents (draft_import_manifest draft)).
Definition draft_limits (draft : PublicationDraftV1) : ParseLimitsV1 := opt_limits (draft_load_options draft).
Definition draft_edges (draft : PublicationDraftV1) : list ImportEdgeV1 := manifest_edges (draft_import_manifest draft).
Definition draft_totals (draft : PublicationDraftV1) : Aggregates :=
  totals (len (draft_diagnostics draft)) (draft_documents draft) (draft_edges draft).

Record draft_ok (draft : PublicationDraftV1) : Prop := {
  dr_documents : Forall document_ok (draft_documents draft);
  dr_members : Forall members_ok (draft_document_members draft);
  dr_records : Forall record_ok (manifest_documents (draft_import_manifest draft));
  dr_edges : Forall edge_ok (draft_edges draft);
  dr_diagnostics : Forall diagnostic_ok (draft_diagnostics draft);
  dr_options : options_typed (draft_load_options draft);
  dr_limits : Forall positive_ok [pl_max_documents (draft_limits draft); pl_max_axioms (draft_limits draft);
    pl_max_diagnostics (draft_limits draft); pl_max_total_source_bytes (draft_limits draft);
    pl_max_resolver_attempts (draft_limits draft); pl_max_source_map_entries (draft_limits draft);
    pl_max_origin_entries (draft_limits draft)];
  dr_report : report_typed (draft_report draft);
  dr_digests : Forall is_digest [draft_root_table_sha256 draft; draft_fingerprint_inputs_sha256 draft;
    draft_source_manifest_sha256 draft; draft_provenance_manifest_sha256 draft];
  dr_scalars : fits (draft_root_document_key draft) /\ is_u64 (draft_capability_bits draft)
}.

(** What the report claims *)
Record report_consistent (draft : PublicationDraftV1) : Prop := {
  rc_documents : report_document_count (draft_report draft) = len (draft_documents draft);
  rc_bytes : report_total_source_bytes (draft_report draft) = agg_source_bytes (draft_totals draft);
  rc_axioms : report_effective_axiom_count (draft_report draft) <= agg_axioms (draft_totals draft);
  rc_hits : report_acquisition_cache_hits (draft_report draft) <= report_resolution_attempts (draft_report draft) /\
            report_document_cache_hits (draft_report draft) <= report_resolution_attempts (draft_report draft)
}.

(** The counts within the configured limits *)
Record limits_respected (draft : PublicationDraftV1) : Prop := {
  lr_documents : len (draft_documents draft) <= positive_value (pl_max_documents (draft_limits draft));
  lr_edges : len (draft_edges draft) <= positive_value (pl_max_axioms (draft_limits draft));
  lr_diagnostics : agg_diagnostics (draft_totals draft) <= positive_value (pl_max_diagnostics (draft_limits draft));
  lr_bytes : agg_source_bytes (draft_totals draft) <= positive_value (pl_max_total_source_bytes (draft_limits draft));
  lr_axioms : report_effective_axiom_count (draft_report draft) <= positive_value (pl_max_axioms (draft_limits draft));
  lr_attempts : report_resolution_attempts (draft_report draft) <= positive_value (pl_max_resolver_attempts (draft_limits draft));
  lr_source_map : agg_source_map_entries (draft_totals draft) <= positive_value (pl_max_source_map_entries (draft_limits draft));
  lr_origin : agg_origin_entries (draft_totals draft) <= positive_value (pl_max_origin_entries (draft_limits draft))
}.

(** The capabilities that are claimed are those that are backed. *)
Record capabilities_consistent (draft : PublicationDraftV1) : Prop := {
  cc_required : Z.land (draft_capability_bits draft) REQUIRED_CAPABILITIES = REQUIRED_CAPABILITIES;
  cc_source : has_capability draft CAPABILITY_SOURCE_MAP = opt_preserve_source_map (draft_load_options draft);
  cc_origin : has_capability draft CAPABILITY_ORIGIN_INDEX = opt_collect_provenance (draft_load_options draft);
  cc_rdf : has_capability draft CAPABILITY_RDF_MAPPING_REPORT = true <-> agg_rdf_reports (draft_totals draft) <> 0;
  cc_backed : (agg_source_map_entries (draft_totals draft) <> 0 -> has_capability draft CAPABILITY_SOURCE_MAP = true) /\
              (agg_origin_entries (draft_totals draft) <> 0 -> has_capability draft CAPABILITY_ORIGIN_INDEX = true)
}.

Record consistent (draft : PublicationDraftV1) : Prop := {
  cs_aligned : draft_documents draft <> [] /\ length (draft_documents draft) = length (draft_document_members draft) /\
    length (draft_documents draft) = length (manifest_documents (draft_import_manifest draft));
  cs_keys : StronglySorted bytes_lt (map doc_document_key (draft_documents draft));
  cs_rows : Forall (row_valid draft) (draft_rows draft);
  cs_root : total is_root (manifest_documents (draft_import_manifest draft)) = 1;
  cs_edges : map import_of (draft_edges draft) = concat (map document_imports (draft_documents draft));
  cs_targets : Forall (fun e => edge_resolved e /\
    option_all (fun key => key ∈ map doc_document_key (draft_documents draft)) (edge_resolved_document_key e)) (draft_edges draft);
  cs_report : report_consistent draft;
  cs_limits : limits_respected draft;
  cs_capabilities : capabilities_consistent draft
}.

(** ** The checks around the loop *)

Lemma owp_allowed_count p hard message (Q : Z -> Prop) :
  positive_ok p -> is_u64 hard -> Q (Z.min hard (positive_value p)) -> owp (allowed_count p hard message) Q.
Proof.
  intros Hp Hh HQ. unfold allowed_count. rewrite allows_value by (done || ulia).
  destruct (Z.leb_spec hard (positive_value p)).
  - by rewrite Z.min_l in HQ.
  - rewrite Z.min_r in HQ by lia. unfold parse_u64. fold (positive_value p). rewrite (proj2 (Z.leb_le _ _)) by ulia. done.
Qed.

Lemma owp_check_count n hard p limit_ message (Q : unit -> Prop) :
  positive_ok p -> is_u64 hard -> (n <= hard -> n <= positive_value p -> Q tt) -> owp (check_count n hard p limit_ message) Q.
Proof.
  intros Hp Hh HQ. unfold check_count, usize_u64. step. apply owp_usize_u64. step. apply owp_usize_u64.
  step. apply owp_allowed_count; [done|done|]. step. bool_to_prop. apply HQ; lia.
Qed.

Lemma owp_report r o (Q : unit -> Prop) : Q tt -> owp (validate_report r o) Q.
Proof.
  intros HQ. unfold validate_report. do 4 step. step.
  eapply owp_mono; [|eapply (owp_for_each _ (fun _ _ => True)); [done|]].
  2: { intros [name seconds] rest previous _. unfold validate_timing. step. apply owp_metadata. intros _ _. by repeat step. }
  intros _ _. step. apply owp_checks; [by repeat constructor|]. step.
  apply (owp_mono _ (fun _ => True)); [intros [] _; by repeat step|]. by repeat step.
Qed.

(** What the checks before the loop leave to be relied on *)
Record header_valid (draft : PublicationDraftV1) : Prop := {
  hv_documents : draft_documents draft <> [] /\ len (draft_documents draft) <= MAX_DOCUMENTS /\
    len (draft_documents draft) <= positive_value (pl_max_documents (draft_limits draft));
  hv_edges : len (draft_edges draft) <= MAX_IMPORT_EDGES /\
    len (draft_edges draft) <= positive_value (pl_max_axioms (draft_limits draft));
  hv_aligned : length (draft_documents draft) = length (draft_document_members draft) /\
    length (draft_documents draft) = length (manifest_documents (draft_import_manifest draft));
  hv_diagnostics : len (draft_diagnostics draft) <= MAX_DIAGNOSTICS_PER_SEQUENCE
}.

Lemma owp_header draft (Q : unit -> Prop) :
  draft_ok draft -> (header_valid draft -> Q tt) -> owp (validate_header draft) Q.
Proof.
  intros H HQ. pose proof (dr_limits _ H) as Hl. repeat match goal with H : Forall _ (_ :: _) |- _ => apply Forall_cons in H as [? H] end.
  unfold validate_header. do 2 step. step. apply owp_check_count; [done|unfold MAX_DOCUMENTS; ulia|]. intros ? ?.
  step. apply owp_check_count; [done|unfold MAX_IMPORT_EDGES; ulia|]. intros ? ?.
  do 2 step. do 2 step. step. apply (owp_mono _ (fun _ => True)); [intros [] _|unfold validate_load_options; by repeat step].
  do 2 step. step. apply owp_metadata. intros _ _. step. apply owp_report.
  apply owp_diagnostics; [apply dr_diagnostics, H|]. intros ?. apply HQ. bool_to_prop.
  split; splits; try done; try lia. by intros E; rewrite E in *.
Qed.

Lemma allows_le p n : positive_ok p -> is_u64 n -> negb (allows p n) = false -> n <= positive_value p.
Proof. intros Hp Hn Ha. rewrite allows_value in Ha by (done || ulia). by bool_to_prop. Qed.

(** The rows of aligned tables *)
Lemma zip_rows {A B C} (x : list A) (y : list B) (z : list C) :
  length x = length y -> length x = length z ->
  map (fun r => fst (fst r)) (zip (zip x y) z) = x /\ map (fun r => snd (fst r)) (zip (zip x y) z) = y /\
  map snd (zip (zip x y) z) = z.
Proof.
  revert y z. induction x as [|a x IH]; intros [|b y] [|c z] Ey Ez; try done.
  injection Ey as Ey. injection Ez as Ez. destruct (IH y z Ey Ez) as (Ex & Ey' & Ez'). cbn. by rewrite Ex, Ey', Ez'.
Qed.

Lemma draft_rows_spec draft :
  header_valid draft ->
  map row_document (draft_rows draft) = draft_documents draft /\ map row_members (draft_rows draft) = draft_document_members draft /\
  map row_record (draft_rows draft) = manifest_documents (draft_import_manifest draft).
Proof. intros H. destruct (hv_aligned _ H). by apply zip_rows. Qed.

Lemma draft_rows_ok draft : draft_ok draft -> header_valid draft -> Forall row_ok (draft_rows draft).
Proof.
  intros Hok Hh. destruct (draft_rows_spec draft Hh) as (Ed & Em & Er).
  pose proof (dr_documents _ Hok) as Hd. pose proof (dr_members _ Hok) as Hm. pose proof (dr_records _ Hok) as Hr.
  rewrite <- Ed in Hd. rewrite <- Em in Hm. rewrite <- Er in Hr.
  revert Hd Hm Hr. generalize (draft_rows draft). induction l as [|row l IH]; intros Hd Hm Hr; [constructor|].
  apply Forall_cons in Hd as [? ?], Hm as [? ?], Hr as [? ?]. constructor; [by split|by apply IH].
Qed.

Lemma wp_document_rows draft (Q : DocumentLoop -> World -> Prop) w :
  draft_ok draft -> header_valid draft ->
  (forall l w', progress draft (len (draft_diagnostics draft)) (draft_rows draft) l -> Q l w') ->
  wp (document_rows draft) Q w.
Proof.
  intros Hok Hh HQ. unfold document_rows. step. step. apply owp_usize_u64. step. step.
  eapply wp_mono; [eapply (wp_for_each _ (fun rest l _ => Forall row_ok rest /\ exists done, draft_rows draft = done ++ rest /\
    progress draft (len (draft_diagnostics draft)) done l /\ Forall edge_ok (loop_edges l)))|].
  - split; [by apply draft_rows_ok|]. exists []. split; [done|]. split; [|apply dr_edges, Hok].
    split; cbn; try done; [|constructor]. exists []. unfold totals, Aggregates_start. cbn. splits; try done; [by rewrite !Z.add_0_r|].
    pose proof (hv_diagnostics _ Hh). unfold MAX_DIAGNOSTICS_PER_SEQUENCE in *. repeat constructor; cbn; ulia.
  - intros row rest l w1 [Hr (done & E & Hp & He)]. apply Forall_cons in Hr as [Hrow Hr].
    eapply wp_mono; [apply (wp_publication_row draft (len (draft_diagnostics draft)) done); assumption|]. intros l' w2 [Hp' He'].
    split; [done|]. exists (done ++ [row]). by rewrite <- app_assoc.
  - intros l w1 [_ (done & E & Hp & _)]. rewrite app_nil_r in E. apply HQ. by rewrite E.
Qed.

Lemma owp_totals_report draft (Q : unit -> Prop) :
  report_typed (draft_report draft) -> Forall positive_ok [pl_max_total_source_bytes (draft_limits draft);
    pl_max_axioms (draft_limits draft); pl_max_resolver_attempts (draft_limits draft)] ->
  (report_consistent draft ->
   agg_source_bytes (draft_totals draft) <= positive_value (pl_max_total_source_bytes (draft_limits draft)) ->
   report_effective_axiom_count (draft_report draft) <= positive_value (pl_max_axioms (draft_limits draft)) ->
   report_resolution_attempts (draft_report draft) <= positive_value (pl_max_resolver_attempts (draft_limits draft)) -> Q tt) ->
  owp (validate_report_alignment draft (draft_totals draft)) Q.
Proof.
  intros Hr Hl HQ. pose proof (rt_counts _ Hr) as Hc.
  repeat match goal with H : Forall _ (_ :: _) |- _ => apply Forall_cons in H as [? H] end.
  unfold validate_report_alignment. step. apply owp_usize_u64. step. bool_to_prop.
  assert (forall p n, positive_ok p -> is_u64 n -> allows p n = true -> n <= positive_value p) as Hal.
  { intros p n Hp Hn Ha. apply allows_le; [done|done|by rewrite Ha]. }
  match goal with H : report_total_source_bytes _ = _ |- _ => rename H into Hb end.
  apply HQ; [by split|rewrite <- Hb|..]; by apply Hal.
Qed.

Lemma owp_capabilities draft (Q : unit -> Prop) :
  counters_ok (draft_totals draft) -> Forall positive_ok [pl_max_source_map_entries (draft_limits draft);
    pl_max_origin_entries (draft_limits draft)] ->
  (capabilities_consistent draft ->
   agg_source_map_entries (draft_totals draft) <= positive_value (pl_max_source_map_entries (draft_limits draft)) ->
   agg_origin_entries (draft_totals draft) <= positive_value (pl_max_origin_entries (draft_limits draft)) -> Q tt) ->
  owp (validate_capabilities draft (draft_totals draft)) Q.
Proof.
  intros Hc Hl HQ. unfold counters_ok in Hc.
  repeat match goal with H : Forall _ (_ :: _) |- _ => apply Forall_cons in H as [? H] end.
  unfold validate_capabilities. do 2 step. step. bool_to_prop.
  repeat match goal with H : xorb _ _ = false |- _ => apply xorb_eq in H end.
  repeat match goal with H : (_ && _) = false |- _ => apply andb_false_iff in H; rewrite negb_false_iff, negb_false_iff in H end.
  apply HQ; [|apply allows_le; [done|done|by apply negb_false_iff]..]. split; try done.
  - match goal with H : has_capability draft CAPABILITY_RDF_MAPPING_REPORT = _ |- _ => rewrite H end.
    rewrite negb_true_iff, Z.eqb_neq. done.
  - split; intros Hn; repeat match goal with H : _ \/ _ |- _ => destruct H end; bool_to_prop; done.
Qed.

Lemma unknown_document_spec keys edge :
  unknown_document keys edge = false -> option_all (fun key => key ∈ keys) (edge_resolved_document_key edge).
Proof.
  unfold unknown_document. intros [_ H]%orb_false_iff. destruct (edge_resolved_document_key edge); [|done].
  apply negb_false_iff in H. by eapply bool_decide_eq_true_1.
Qed.

Lemma owp_each_check {A} (check : A -> bool) e values (Q : unit -> Prop) :
  (Forall (fun x => check x = false) values -> Q tt) ->
  owp (ofor_each (fun x (_ : unit) => fail_if (check x) e) values tt) Q.
Proof.
  revert Q. induction values as [|x values IH]; intros Q HQ; cbn [ofor_each]; [by apply HQ|].
  do 2 step. apply IH. intros Hv. apply HQ. by constructor.
Qed.

(** ** Validation *)

Lemma owp_validate_totals draft l (Q : Aggregates -> Prop) :
  draft_ok draft -> header_valid draft -> progress draft (len (draft_diagnostics draft)) (draft_rows draft) l ->
  (consistent draft -> counters_ok (draft_totals draft) -> Q (draft_totals draft)) -> owp (validate_totals draft l) Q.
Proof.
  intros Hok Hh [(used & Eu & Ea & Hc & Hi & Hres) Hk _ Hs Hroots Hrows] HQ.
  destruct (draft_rows_spec draft Hh) as (Ed & Em & Er).
  pose proof (dr_limits _ Hok) as Hl. repeat match goal with H : Forall _ (_ :: _) |- _ => apply Forall_cons in H as [? H] end.
  rewrite Ed in Ea, Hi. rewrite Er in Hroots.
  assert (map row_key (draft_rows draft) = map doc_document_key (draft_documents draft)) as Ekeys by (by rewrite <- Ed, map_map).
  rewrite Ekeys in Hk, Hs. unfold validate_totals. do 2 step. step. apply owp_each_check. intros Hkeys.
  bool_to_prop. destruct (loop_edges l) eqn:El; [|done]. rewrite app_nil_r in Eu. fold (draft_edges draft) in *. subst used.
  fold (draft_totals draft) in Ea. rewrite Ea in *.
  step. apply owp_allowed_count; [done|vm_compute; split; discriminate|]. do 2 step. bool_to_prop.
  step. apply owp_totals_report; [apply dr_report, Hok|by repeat (apply Forall_cons; split)|]. intros Hrep Hbytes Hax Hatt.
  step. apply owp_capabilities; [done|by repeat (apply Forall_cons; split)|]. intros Hcap Hsm Hor.
  step. apply HQ; [|done]. destruct (hv_documents _ Hh) as (? & ? & ?), (hv_edges _ Hh), (hv_aligned _ Hh).
  split; try done.
  - congruence.
  - apply Forall_forall. intros e He. rewrite Forall_forall in Hres, Hkeys. split; [by apply Hres|].
    specialize (Hkeys e He). apply unknown_document_spec in Hkeys. rewrite Hk in Hkeys.
    destruct (edge_resolved_document_key e); [|done]. cbn in *. by apply elem_of_list_to_set in Hkeys.
  - split; try done. unfold draft_limits in *. lia.
Qed.

Lemma wp_validate_publication draft (Q : Aggregates -> World -> Prop) w :
  draft_ok draft ->
  (header_valid draft -> consistent draft -> counters_ok (draft_totals draft) -> forall w', Q (draft_totals draft) w') ->
  wp (validate_publication draft) Q w.
Proof.
  intros Hok HQ. unfold validate_publication. step. step. apply owp_header; [done|]. intros Hh.
  step. apply wp_document_rows; [done|done|]. intros l w1 Hp. step. apply owp_validate_totals with (1 := Hok) (2 := Hh) (3 := Hp).
  intros Hcs Hc. by apply HQ.
Qed.
