(* ===== verification/PublishTheorems.v ===== *)
(** * The published fixture ([native/src/publication/fixture.rs])

    The generated fixture of the repository, frozen by the model.  The digests
    are the vectors its tests publish for the Python and the native codec. *)

From S2P Require Import Prelude Bytes Hash Error Machine Atomic Limits Scan Arena Decimal Records Codec CodecTheorems Publish PublishSound.

(** [fingerprint], [declaration_axiom] *)
Definition fingerprint (value : string) : FingerprintV1 :=
  {| fp_schema := {| positive_decimal := str "1" |}; fp_digest := sha256 (str value) |}.
Definition declaration_axiom : bytes :=
  let iri := [1; 2; 17] ++ str "urn:handoff:class" in
  let entity := [2; 5; 5] ++ str "class" ++ [1; len iri] ++ iri in
  [60; 1; len entity] ++ entity ++ [6; 0].

Definition fixture_arena : outcome NativeArena :=
  let run := (_ ← intern_canonical_row declaration_axiom; s ← get; mret (builder s)) : M ArenaState NativeArenaBuilder in
  b ← fst (run {| arena_world := calm_world; builder := NativeArenaBuilder_new Limits_default |});
  fst (Arena.freeze b calm_world).

Definition fixture_key : bytes := str "d1:1111111111111111111111111111111111111111111111111111111111111111".
Definition fixture_iri : bytes := str "urn:handoff:ontology".
Definition fixture_ontology : OntologyIdV1 := {| ontology_iri := Some fixture_iri; version_iri := None |}.
Definition fixture_source : bytes := sha256 (str "native handoff source").
Definition fixture_api : ApiVersion := {| api_major := 0; api_minor := 1 |}.

Definition fixture_diagnostic : DiagnosticV1 :=
  {| diag_code := str "NATIVE_FIXTURE"; diag_severity := Severity_Info;
     diag_message := str "retained publication fixture"; diag_document_iri := None;
     diag_byte_start := None; diag_byte_end := None; diag_line_start := None; diag_column_start := None;
     diag_line_end := None; diag_column_end := None; diag_import_chain := [];
     diag_details := [(str "fixture", Scalar_Boolean true)] |}.

Definition fixture_provenance : DocumentProvenanceV1 :=
  {| prov_source_sha256 := fixture_source; prov_digest_kind := DigestKind_ExactBytes; prov_byte_length := 21;
     prov_decoded_codepoint_length := 21; prov_document_iri := Some fixture_iri; prov_acquisition_locator := None;
     prov_format := Format_Functional; prov_detection_basis := Basis_Explicit; prov_media_type := None;
     prov_expected_sha256 := None; prov_parser := str "pyowl_core.backends.native.fixture";
     prov_backend := str "native"; prov_api_version := fixture_api; prov_model_schema := 1 |}.

Definition fixture_document : DocumentPublicationV1 :=
  {| doc_document_key := fixture_key; doc_ontology_id := fixture_ontology; doc_document_iri := Some fixture_iri;
     doc_direct_imports := []; doc_provenance := fixture_provenance;
     doc_document_fingerprint := fingerprint "document"; doc_diagnostics := [fixture_diagnostic];
     doc_ontology_annotation_count := 0; doc_axiom_count := 1; doc_extension_count := 0;
     doc_source_map_entry_count := 0; doc_origin_entry_count := 1; doc_rdf_mapping_conformant := None;
     doc_rdf_mapping_report_sha256 := None |}.

Definition fixture_record : ImportDocumentV1 :=
  {| idoc_document_key := fixture_key; idoc_ontology_id := fixture_ontology; idoc_document_iri := Some fixture_iri;
     idoc_source_sha256 := fixture_source; idoc_document_fingerprint := fingerprint "document";
     idoc_format := Format_Functional; idoc_status := DocumentStatus_Root |}.

Definition fixture_options (limits : ParseLimitsV1) : LoadOptionsV1 :=
  {| opt_format := None; opt_imports := Policy_ResolveLocal; opt_backend := Backend_Native; opt_limits := limits;
     opt_offline := true; opt_preserve_source_map := false; opt_collect_provenance := true;
     opt_validate_owl2_dl := false; opt_deterministic := true |}.

(** [0.001] is [0x3f50624dd2f1a9fc]. *)
Definition fixture_report : LoadReportV1 :=
  {| report_backend := str "native"; report_api_version := fixture_api; report_model_schema := 1;
     report_document_count := 1; report_total_source_bytes := 21; report_effective_axiom_count := 1;
     report_resolution_attempts := 0; report_acquisition_cache_hits := 0; report_document_cache_hits := 0;
     report_timings := [(str "freeze_seconds", 0x3f50624dd2f1a9fc)];
     report_structural_fingerprint := fingerprint "structural"; report_logical_fingerprint := fingerprint "logical";
     report_signature_fingerprint := fingerprint "signature"; report_owl2_dl_validated := false;
     report_owl2_dl_conforms := None; report_owl2_dl_report_sha256 := None |}.

Definition fixture_draft (arena : NativeArena) (limits : ParseLimitsV1) : PublicationDraftV1 :=
  {| draft_arena := arena; draft_documents := [fixture_document];
     draft_document_members :=
       [{| members_ontology_annotations := []; members_axioms := [0]; members_extensions := [] |}];
     draft_import_manifest :=
       {| manifest_policy := Policy_ResolveLocal; manifest_offline := true;
          manifest_resolver_configuration_fingerprint := sha256 (str "resolver");
          manifest_documents := [fixture_record]; manifest_edges := [] |};
     draft_root_document_key := fixture_key; draft_load_options := fixture_options limits;
     draft_diagnostics := [fixture_diagnostic]; draft_report := fixture_report;
     draft_capability_bits := 23; draft_root_table_sha256 := sha256 (str "roots");
     draft_fingerprint_inputs_sha256 := sha256 (str "fingerprint inputs");
     draft_source_manifest_sha256 := sha256 (str "sources");
     draft_provenance_manifest_sha256 := sha256 (str "provenance") |}.

(** [fixture::draft], and [freeze] of it *)
Definition fixture : outcome PublicationDraftV1 :=
  arena ← fixture_arena;
  limits ← fst (ParseLimitsV1_default calm_world);
  Ok (fixture_draft arena limits).
Definition frozen (draft : outcome PublicationDraftV1) : outcome NativeSnapshotPublicationV1 :=
  draft ← draft; fst (PublicationDraftV1_freeze draft calm_world).

(** Hexadecimal text of a digest *)
Definition hex (digest : bytes) : bytes := concat (map (fun b => [hex_digit (b / 16); hex_digit (b mod 16)]) digest).

(** The lengths and digests published for the fixture. *)
Definition digest_of (write : PublicationDraftV1 -> M World bytes) : option (Z * bytes) :=
  match (draft ← fixture; fst (write draft calm_world)) with Ok b => Some (len b, hex (sha256 b)) | _ => None end.

Example options_vector : digest_of (fun d => load_options_bytes (draft_load_options d)) =
  Some (524, str "f12b10bc025c91a63954690b5811f03e9aeff5c1793891e7e9bb1e0d131d807b").
Proof. vm_compute. reflexivity. Qed.
Example report_vector : digest_of (fun d => report_bytes (draft_report d)) =
  Some (362, str "92d62c4e495e8406b6a0a0a8ee2c56cbb6ed762c89f79c8a62da294c480934a5").
Proof. vm_compute. reflexivity. Qed.
Example diagnostic_vector : digest_of (fun _ => diagnostic_bytes fixture_diagnostic) =
  Some (159, str "54e369810b25113f6d7b332dbfd85d356605219f34f35ce5b26a570b1d3a0969").
Proof. vm_compute. reflexivity. Qed.
Example diagnostics_vector :
  digest_of (fun d => diagnostics_bytes (draft_diagnostics d) (draft_documents d) (draft_import_manifest d)) =
  Some (459, str "e3abd529990ad1d2aa33c416855b9991975ee97d0b4aa5b139acedb84e6a5e7e").
Proof. vm_compute. reflexivity. Qed.

Example attestation_vector :
  match frozen fixture with
  | Ok p => option_map (fun b => (len b, hex (sha256 b)))
      (match fst (attestation_bytes (st_attestation (pub_storage p)) calm_world) with Ok b => Some b | _ => None end)
  | _ => None
  end = Some (555, str "97e02d37406dfcc065723c621969ea7377c1def9e6919c2a8dc6e1b957c40616").
Proof. vm_compute. reflexivity. Qed.

(** * Freezing publishes consistent snapshots

    [PublicationDraftV1::freeze] as a whole: its digests and counters never
    fail in a way that panics, and what it publishes is a consistent draft
    with the attestation of that draft. *)

(** ** Digests *)

Lemma wp_digest {A} (write : A -> M World bytes) (tree : A -> bytes) x (Q : bytes -> World -> Prop) w :
  returns (write x) (tree x) -> (forall w', Q (sha256 (tree x)) w') -> wp (encoded ← write x; mret (sha256 encoded)) Q w.
Proof.
  intros Hw HQ. step. eapply wp_of_wpx, wpx_mono; [apply Hw| |intros e w' He; exact He].
  cbv beta. intros r w' ->. by step.
Qed.

Definition draft_manifest (draft : PublicationDraftV1) : manifest_input :=
  (draft_diagnostics draft, draft_documents draft, draft_import_manifest draft).

Lemma diagnostics_typed ds : Forall diagnostic_ok ds -> Forall diagnostic_typed ds.
Proof. intros H. eapply Forall_impl; [exact H|]. by intros d [? _ _]. Qed.

Lemma draft_manifest_typed draft : draft_ok draft -> manifest_typed (draft_manifest draft).
Proof.
  intros H. split; [apply diagnostics_typed, H|]. split; apply Forall_map.
  - eapply Forall_impl; [apply dr_documents, H|]. intros d [_ _ _ Hd Hk _]. split; [done|]. by apply diagnostics_typed.
  - eapply Forall_impl; [apply dr_edges, H|]. intros e [_ [Hk Hi] Hd]. split; [done|]. split; [done|].
    unfold edge_view. cbn [snd]. destruct (edge_diagnostic e); [|done]. by destruct Hd.
Qed.

(** ** Counters *)

Lemma owp_add_bytes total value (Q : Z -> Prop) :
  (total + value <= U64_MAX -> Q (total + value)) -> owp (add_bytes total value) Q.
Proof. intros HQ. unfold add_bytes. step. apply owp_usize_u64. by apply owp_add_count. Qed.

Lemma owp_sum_lengths values start (Q : Z -> Prop) :
  Forall (fun v : bytes => len v <= MAX_IRI_BYTES) values -> 0 <= start ->
  start + len values * MAX_IRI_BYTES <= USIZE_MAX -> (forall n, 0 <= n -> Q n) ->
  owp (ofor_each (fun v total => usize_add total (len v)) values start) Q.
Proof.
  intros Hv. revert start. induction Hv as [|v values Hl _ IH]; intros start Hs Hmax HQ; cbn [ofor_each].
  - by apply HQ.
  - cbn [length] in Hmax. rewrite Nat2Z.inj_succ, Z.mul_succ_l in Hmax. step. apply owp_usize_add.
    + assert (0 <= len values * MAX_IRI_BYTES) by (unfold MAX_IRI_BYTES; lia). lia.
    + apply IH; [lia|lia|done].
Qed.

Lemma owp_count_document d m counters draft r (Q : Z * Z * Z -> Prop) :
  row_valid draft (d, m, r) -> members_ok m -> (forall c, Q c) -> owp (count_document (d, m) counters) Q.
Proof.
  intros [_ [_ Hi] _ _ (Hn & Hdiag & Hkey)] Hm HQ. unfold row_document in *. cbn [fst snd] in *.
  destruct counters as [[retained records] membership]. unfold members_ok in Hm.
  repeat match goal with H : Forall _ (_ :: _) |- _ => apply Forall_cons in H as [? H] end.
  unfold count_document. step. apply owp_add_count. intros _. step. apply owp_add_bytes. intros _.
  step. apply owp_sum_lengths; [eapply Forall_impl; [exact Hi|]; by intros iri []|done| |].
  { unfold MAX_DIRECT_IMPORTS_PER_DOCUMENT, MAX_IRI_BYTES in *. ulia. }
  intros n _. step. apply owp_add_bytes. intros _.
  step. apply owp_usize_mul; [unfold MAX_DIAGNOSTICS_PER_SEQUENCE, DIAGNOSTIC_BYTES in *; ulia|].
  step. apply owp_add_bytes. intros _. step. apply owp_usize_add; [ulia|]. step. apply owp_usize_add; [ulia|].
  step. apply owp_usize_u64. step. apply owp_add_count. intros _. step. apply HQ.
Qed.

Lemma owp_publication_counters draft (Q : PublicationCountersV1 -> Prop) :
  draft_ok draft -> header_valid draft -> consistent draft -> (forall c, cnt_arena_rows_copied c = 0 -> Q c) ->
  owp (publication_counters draft) Q.
Proof.
  intros Hok Hh Hc HQ. unfold publication_counters. step.
  eapply owp_mono; [|eapply (owp_for_each _ (fun rest _ => exists rows, rest = map fst rows /\
    Forall (fun row => row_valid draft row /\ row_ok row) rows)); [exists (draft_rows draft); split|]].
  - intros [[retained records] membership] _. pose proof (hv_edges _ Hh). pose proof (hv_diagnostics _ Hh).
    unfold draft_edges, MAX_IMPORT_EDGES, MAX_DIAGNOSTICS_PER_SEQUENCE in *.
    step. apply owp_usize_add; [ulia|]. step. apply owp_usize_u64. step. apply owp_add_count. intros _.
    step. apply owp_usize_mul; [unfold IMPORT_EDGE_BYTES; ulia|]. step. apply owp_add_bytes. intros _.
    step. apply owp_usize_mul; [unfold DIAGNOSTIC_BYTES; ulia|]. step. apply owp_add_bytes. intros _.
    step. by apply HQ.
  - destruct (hv_aligned _ Hh) as [El Er]. unfold draft_rows. revert El Er.
    generalize (draft_documents draft) (draft_document_members draft) (manifest_documents (draft_import_manifest draft)).
    induction l as [|a l IH]; intros [|b l'] [|c l''] Eb Ec; try done. cbn. f_equal. apply IH; by injection Eb; injection Ec.
  - apply Forall_and. split; [apply cs_rows, Hc|by apply draft_rows_ok].
  - intros [d m] rest counters ([|[[d' m'] r] rows] & E & Hrows); [done|]. cbn in E. injection E as -> -> ->.
    apply Forall_cons in Hrows as [[Hv Ho] Hrows].
    eapply owp_count_document; [exact Hv|by destruct Ho|]. intros c. by exists rows.
Qed.

(** ** The attestation of a draft *)

Definition expected_attestation (draft : PublicationDraftV1) : NativeSnapshotAttestationV1 :=
  let report := draft_report draft in
  let counts := draft_totals draft in
  {| att_version := PUBLICATION_VERSION_V1;
     att_ledger_sha256 := PUBLICATION_LEDGER_SHA256_V1;
     att_root_table_sha256 := draft_root_table_sha256 draft;
     att_fingerprint_inputs_sha256 := draft_fingerprint_inputs_sha256 draft;
     att_source_manifest_sha256 := draft_source_manifest_sha256 draft;
     att_provenance_manifest_sha256 := draft_provenance_manifest_sha256 draft;
     att_diagnostics_manifest_sha256 := sha256 (manifest_image (draft_manifest draft));
     att_load_options_sha256 :=
       sha256 (LOAD_OPTIONS_DOMAIN ++ image (SSequence (options_values (draft_load_options draft))));
     att_report_sha256 := sha256 (REPORT_DOMAIN ++ image (SSequence (report_values report)));
     att_document_count := len (draft_documents draft);
     att_import_edge_count := len (draft_edges draft);
     att_diagnostic_count := agg_diagnostics counts;
     att_ontology_annotation_count := agg_annotations counts;
     att_stored_axiom_count := agg_axioms counts;
     att_effective_axiom_count := report_effective_axiom_count report;
     att_extension_count := agg_extensions counts;
     att_total_source_bytes := agg_source_bytes counts;
     att_source_map_entry_count := agg_source_map_entries counts;
     att_origin_entry_count := agg_origin_entries counts;
     att_rdf_mapping_report_count := agg_rdf_reports counts;
     att_capability_bits := draft_capability_bits draft;
     att_api_version := report_api_version report;
     att_model_schema := report_model_schema report;
     att_backend := report_backend report;
     att_root_document_key := draft_root_document_key draft;
     att_owl2_dl_validated := report_owl2_dl_validated report;
     att_owl2_dl_conforms := report_owl2_dl_conforms report;
     att_owl2_dl_report_sha256 := report_owl2_dl_report_sha256 report |}.

Ltac forall_fields := first [apply List.Forall_nil | apply List.Forall_cons; [|forall_fields]].

Lemma sha256_is_digest data : is_digest (sha256 data).
Proof. unfold is_digest. by rewrite length_sha256. Qed.

Lemma expected_attestation_typed draft :
  draft_ok draft -> header_valid draft -> counters_ok (draft_totals draft) -> attestation_typed (expected_attestation draft).
Proof.
  intros Hok Hh Hc. pose proof (hv_documents _ Hh) as (_ & ? & _). pose proof (hv_edges _ Hh) as [? _].
  pose proof (dr_report _ Hok) as Hr. pose proof (rt_counts _ Hr) as Hrc. pose proof (dr_digests _ Hok) as Hd.
  destruct (dr_scalars _ Hok) as [Hk Hcap]. unfold counters_ok, MAX_DOCUMENTS, MAX_IMPORT_EDGES in *.
  repeat match goal with H : Forall _ (_ :: _) |- _ => apply Forall_cons in H as [? H] end.
  split; cbn [expected_attestation att_ledger_sha256 att_root_table_sha256 att_fingerprint_inputs_sha256
    att_source_manifest_sha256 att_provenance_manifest_sha256 att_diagnostics_manifest_sha256 att_load_options_sha256
    att_report_sha256 att_version att_document_count att_import_edge_count att_diagnostic_count
    att_ontology_annotation_count att_stored_axiom_count att_effective_axiom_count att_extension_count
    att_total_source_bytes att_source_map_entry_count att_origin_entry_count att_rdf_mapping_report_count
    att_capability_bits att_model_schema att_api_version att_backend att_root_document_key att_owl2_dl_report_sha256].
  - forall_fields; first [assumption | apply sha256_is_digest | reflexivity].
  - forall_fields; first [assumption | unfold PUBLICATION_VERSION_V1; ulia].
  - apply Hr.
  - forall_fields; [apply Hr|assumption].
  - apply Hr.
Qed.

(** C5: Freezing a well-typed draft never panics, and the publication it
    returns is a consistent snapshot: strictly ordered documents with exactly
    one root, whose members resolve in the arena to rows of the right category,
    whose direct imports are exactly the import edges, in order, with known
    targets, within the limits of the load options.  Its attestation counts
    what the draft holds and carries the digests of the exact encodings of its
    options, its report and its diagnostics; no arena row is copied. *)
Theorem freeze_publishes_consistent_snapshots draft w :
  draft_ok draft ->
  wp (PublicationDraftV1_freeze draft) (fun p _ =>
    consistent draft /\
    p = publication_of (freeze_storage draft (expected_attestation draft) (st_counters (pub_storage p))) /\
    cnt_arena_rows_copied (st_counters (pub_storage p)) = 0) w.
Proof.
  intros Hok. unfold PublicationDraftV1_freeze. step. apply wp_validate_publication; [done|]. intros Hh Hcs Hc w1.
  step. apply (wp_digest write_manifest manifest_image (draft_manifest draft)).
  { by apply returns_manifest, draft_manifest_typed. }
  intros w2. step. apply (wp_digest load_options_bytes (fun o => LOAD_OPTIONS_DOMAIN ++ image (SSequence (options_values o)))).
  { by apply returns_writes, writes_load_options, dr_options. }
  intros w3. step. apply (wp_digest report_bytes (fun r => REPORT_DOMAIN ++ image (SSequence (report_values r)))).
  { by apply returns_writes, writes_report_bytes, dr_report. }
  intros w4. step. step. unfold draft_attestation. step. apply owp_usize_u64. step. apply owp_usize_u64. step.
  change (wp (_ ← attestation_digest (expected_attestation draft);
              counters ← lift (publication_counters draft);
              mret (publication_of (freeze_storage draft (expected_attestation draft) counters)))
            (fun p _ => consistent draft /\
               p = publication_of (freeze_storage draft (expected_attestation draft) (st_counters (pub_storage p))) /\
               cnt_arena_rows_copied (st_counters (pub_storage p)) = 0) w4).
  step. apply (wp_digest attestation_bytes (fun a => ATTESTATION_DOMAIN ++ image (SSequence (attestation_values a)))).
  { by apply returns_writes, writes_attestation_bytes, expected_attestation_typed. }
  intros w5. step. step. apply owp_publication_counters; [done|done|done|]. intros c Hcopied. by step.
Qed.

(** ** The fixture is a well-typed draft *)

Definition positive_okb (p : PositiveIntegerV1) : bool :=
  forallb is_ascii_digit (positive_decimal p) && negb (hd 48 (positive_decimal p) =? 48) && (len (positive_decimal p) <=? 4096).
Lemma positive_okb_ok p : positive_okb p = true -> positive_ok p.
Proof.
  unfold positive_okb, positive_ok, canonical_decimal. intros H. bool_to_prop.
  assert (is_digits (positive_decimal p)) as Hd.
  { apply List.Forall_forall. intros b Hb. apply is_ascii_digit_range. by eapply forallb_forall. }
  destruct (positive_decimal p) as [|b text]; [done|]. cbn [hd] in *. by splits.
Qed.

Lemma fixture_limits_ok limits :
  fst (ParseLimitsV1_default calm_world) = Ok limits ->
  options_typed (fixture_options limits) /\
  Forall positive_ok [pl_max_documents limits; pl_max_axioms limits; pl_max_diagnostics limits;
    pl_max_total_source_bytes limits; pl_max_resolver_attempts limits; pl_max_source_map_entries limits;
    pl_max_origin_entries limits].
Proof.
  set (run := fst _). vm_compute in run. subst run. intros E. injection E as <-.
  split; [exact I|]. forall_fields; apply positive_okb_ok; vm_compute; reflexivity.
Qed.

Lemma fixture_diagnostic_ok : diagnostic_ok fixture_diagnostic.
Proof.
  split; [split|exact I|apply List.Forall_nil].
  - forall_fields; literal.
  - exact I.
  - forall_fields; exact I.
  - forall_fields. split; [literal|exact I].
Qed.

Lemma fixture_draft_ok arena limits :
  fst (ParseLimitsV1_default calm_world) = Ok limits -> draft_ok (fixture_draft arena limits).
Proof.
  intros El. destruct (fixture_limits_ok limits El) as [Ho Hl]. pose proof fixture_diagnostic_ok.
  split; cbn [fixture_draft draft_documents draft_document_members draft_import_manifest draft_diagnostics draft_load_options
    draft_report draft_root_table_sha256 draft_fingerprint_inputs_sha256 draft_source_manifest_sha256
    draft_provenance_manifest_sha256 draft_root_document_key draft_capability_bits manifest_documents manifest_edges
    draft_limits draft_edges opt_limits fixture_options]; [| | | | |exact Ho|exact Hl| | |].
  - forall_fields. split.
    + split; [vm_compute; reflexivity|exact I].
    + split; vm_compute; reflexivity.
    + apply List.Forall_nil.
    + by forall_fields.
    + literal.
    + forall_fields; split; vm_compute; discriminate.
  - forall_fields. forall_fields; vm_compute; reflexivity.
  - forall_fields. split; [split; [vm_compute; reflexivity|exact I]|vm_compute; reflexivity].
  - apply List.Forall_nil.
  - by forall_fields.
  - split.
    + literal.
    + split; split; vm_compute; discriminate.
    + forall_fields; split; vm_compute; discriminate.
    + forall_fields. split; [literal|]. split; vm_compute; discriminate.
    + forall_fields; apply sha256_is_digest.
    + exact I.
  - forall_fields; apply sha256_is_digest.
  - split; [literal|]. split; vm_compute; discriminate.
Qed.

Lemma freeze_publishes_consistent_snapshots_witness :
  match (arena ← fixture_arena; limits ← fst (ParseLimitsV1_default calm_world); Ok (fixture_draft arena limits)) with
  | Ok draft => draft_ok draft /\ wp (PublicationDraftV1_freeze draft) (fun p _ => consistent draft /\
      p = publication_of (freeze_storage draft (expected_attestation draft) (st_counters (pub_storage p))) /\
      cnt_arena_rows_copied (st_counters (pub_storage p)) = 0) calm_world
  | _ => False
  end.
Proof.
  destruct fixture_arena as [arena| |] eqn:Ea; [|vm_compute in Ea; discriminate Ea|vm_compute in Ea; discriminate Ea].
  destruct (fst (ParseLimitsV1_default calm_world)) as [limits| |] eqn:El;
    [|vm_compute in El; discriminate El|vm_compute in El; discriminate El].
  cbn [mbind outcome_mbind outcome_bind].
  split; [exact (fixture_draft_ok arena limits El)|].
  exact (freeze_publishes_consistent_snapshots (fixture_draft arena limits) calm_world (fixture_draft_ok arena limits El)).
Defined.
