(* ===== verification/Encode.v ===== *)
(** * The canonical writer ([native/src/canonical.rs])

    [Node::build] and its helpers write the canonical form that
    [scan_canonical] reads.  Vectors grow through [try_reserve], so every
    builder runs in the [World] monad; the functions that push to [output]
    return the bytes they append. *)

From S2P Require Import Prelude Bytes Error Machine Limits Varint Schema Lexical Scan Component ScanSound ScanComplete.

Definition MARKER_NONE : Z := 0.
Definition MARKER_NODE : Z := 1.
Definition MARKER_TEXT : Z := 2.
Definition MARKER_BYTES : Z := 3.
Definition MARKER_INTEGER : Z := 4.
Definition MARKER_ENUM : Z := 5.
Definition MARKER_SET : Z := 6.
Definition MARKER_SEQUENCE : Z := 7.

Definition PROVISIONAL_SCOPE : bytes :=
  [ 0x9b; 0x38; 0x99; 0xd1; 0x03; 0x23; 0x85; 0xa3; 0x21; 0xe2; 0x7b; 0xfa; 0xc9; 0x56; 0xcf; 0xc4;
    0x71; 0x31; 0x6b; 0x7b; 0x8b; 0x87; 0x29; 0xaf; 0x81; 0x9e; 0xb0; 0x93; 0x4d; 0xc6; 0x59; 0xef ].
Definition LEXICAL_KEY : bytes := str "pyowl-core:parser-blank-label:v2" ++ [0].

Inductive Node := mkNode (tag : Z) (encoded : bytes) (flattened_members : option (list Node)).

Definition node_tag (n : Node) : Z := let 'mkNode t _ _ := n in t.
Definition node_encoded (n : Node) : bytes := let 'mkNode _ e _ := n in e.
Definition node_flattened (n : Node) : option (list Node) := let 'mkNode _ _ f := n in f.

Inductive Field :=
  | FieldNone
  | FieldNode (value : Node)
  | FieldText (value : bytes)
  | FieldBytes (value : bytes)
  | FieldInteger (value : bytes)          (* decimal digits *)
  | FieldEnumeration (value : bytes)
  | FieldSet (values : list Node)
  | FieldSequence (values : list Node).

(** ** Decimal integers *)

(** One division of the digits by 128: the new digits and the remainder. *)
Fixpoint divide_digits (carry : Z) (digits : list Z) : list Z * Z :=
  match digits with
  | [] => ([], carry)
  | digit :: digits =>
      let selected := carry * 10 + digit in
      let '(rest, carry) := divide_digits (selected mod 128) digits in
      (selected / 128 :: rest, carry)
  end.

(** [digits.drain(..first_nonzero)], or [digits.clear()]. *)
Fixpoint drop_zeros (digits : list Z) : list Z :=
  match digits with d :: digits' => if d =? 0 then drop_zeros digits' else digits | [] => [] end.

(** [while !digits.is_empty()]; a number of [n] decimal digits has at most [n]
    base-128 digits. *)
Fixpoint base128_loop (fuel : nat) (digits : list Z) : outcome (list Z) :=
  match digits with
  | [] => Ok []
  | _ =>
      match fuel with
      | O => Panic
      | S fuel =>
          let '(quotient, carry) := divide_digits 0 digits in
          encoded ← base128_loop fuel (drop_zeros quotient);
          Ok (carry :: encoded)
      end
  end.

(** [byte | if index == last { 0 } else { 0x80 }] *)
Fixpoint continue_all_but_last (encoded : list Z) : bytes :=
  match encoded with
  | [] => []
  | [b] => [b]
  | b :: encoded => Z.lor b 0x80 :: continue_all_but_last encoded
  end.

(** [encode_decimal]; [byte - b'0'] panics below zero. *)
Definition encode_decimal (value : bytes) : M World bytes :=
  if bytes_eqb value (str "0") then mret [0] else
  try_reserve "native integer allocation failed";;
  digits ← lift (ofor_each (fun byte digits => d ← usize_sub byte 48; Ok (digits ++ [d])) value []);
  try_reserve "native integer allocation failed";;
  encoded ← lift (base128_loop (length value) digits);
  try_reserve "native integer allocation failed";;
  mret (continue_all_but_last encoded).

(** ** Fields and nodes *)

(** The members of a set or a sequence. *)
Definition encode_members (prefix : bytes) (values : list Node) : M World bytes :=
  for_each (fun value output =>
    framed ← encode_frame (node_encoded value); mret (output ++ prefix ++ framed)) values [].

(** [encode_field] *)
Definition encode_field (field : Field) : M World bytes :=
  match field with
  | FieldNone => mret [MARKER_NONE]
  | FieldNode value => framed ← encode_frame (node_encoded value); mret (MARKER_NODE :: framed)
  | FieldText value => framed ← encode_frame value; mret (MARKER_TEXT :: framed)
  | FieldBytes value => framed ← encode_frame value; mret (MARKER_BYTES :: framed)
  | FieldInteger value => encoded ← encode_decimal value; mret (MARKER_INTEGER :: encoded)
  | FieldEnumeration value => framed ← encode_frame value; mret (MARKER_ENUM :: framed)
  | FieldSet values =>
      members ← encode_members [] values;
      mret (MARKER_SET :: encode_usize (len values) ++ members)
  | FieldSequence values =>
      members ← encode_members [MARKER_NODE] values;
      mret (MARKER_SEQUENCE :: encode_usize (len values) ++ members)
  end.

(** [matches!(tag, 21 | 22 | 30 | 31)] *)
Definition flattens (tag : Z) : bool := (tag =? 21) || (tag =? 22) || (tag =? 30) || (tag =? 31).

(** [Node::build] *)
Definition Node_build (tag : Z) (fields : list Field) : M World Node :=
  try_reserve "native canonical allocation failed";;
  encoded ← for_each (fun field encoded => bytes ← encode_field field; mret (encoded ++ bytes))
              fields (encode_u64 tag);
  mret (mkNode tag encoded
    (if flattens tag then match fields with FieldSet values :: _ => Some values | _ => None end
     else None)).

(** [iri], [entity], [anonymous], [literal] *)
Definition iri_node (value : bytes) : M World Node := Node_build 1 [FieldText value].
Definition entity (kind : bytes) (value : Node) : M World Node :=
  Node_build 2 [FieldEnumeration kind; FieldNode value].
Definition anonymous (label : bytes) : M World Node :=
  try_reserve "native anonymous-key allocation failed";;
  Node_build 3 [FieldBytes PROVISIONAL_SCOPE;
                FieldBytes (LEXICAL_KEY ++ encode_usize (len label) ++ label)].
Definition literal (lexical : bytes) (datatype : Node) (language : option bytes) : M World Node :=
  Node_build 4 [FieldText lexical; FieldNode datatype;
                match language with Some l => FieldText l | None => FieldNone end].

(** ** Canonical sets *)

(** [left.encoded.cmp(&right.encoded)] *)
Definition node_le (x y : Node) : Prop := bytes_le (node_encoded x) (node_encoded y).

#[export] Instance node_le_dec : RelDecision node_le.
Proof. intros x y. unfold node_le. apply _. Defined.

(** [dedup_by(|left, right| left.encoded == right.encoded)]: each element is
    compared with the last one kept. *)
Fixpoint dedup_after (kept : Node) (nodes : list Node) : list Node :=
  match nodes with
  | [] => []
  | n :: nodes =>
      if bytes_eqb (node_encoded n) (node_encoded kept) then dedup_after kept nodes
      else n :: dedup_after n nodes
  end.
Definition dedup (nodes : list Node) : list Node :=
  match nodes with [] => [] | n :: nodes => n :: dedup_after n nodes end.

(** One round of the flattening loop. *)
Definition flatten_value (flatten_tag : option Z) (value : Node) (flattened : list Node)
    : M World (list Node) :=
  match (if bool_decide (flatten_tag = Some (node_tag value)) then node_flattened value else None) with
  | Some members =>
      try_reserve "native canonical set allocation failed";; mret (flattened ++ members)
  | None =>
      try_reserve "native canonical set allocation failed";; mret (flattened ++ [value])
  end.

(** [canonical_set]; nodes that compare equal are the same bytes, so the
    unstable sort followed by [dedup_by] is a sort followed by one. *)
Definition canonical_set (values : list Node) (minimum : Z) (flatten_tag : option Z)
    : M World (list Node) :=
  flattened ← for_each (flatten_value flatten_tag) values [];
  let flattened := dedup (merge_sort node_le flattened) in
  ensure_not (len flattened <? minimum)
    (new "NATIVE_FORMAT_SYNTAX"
       "native Functional Syntax collection has too few distinct members");;
  mret flattened.

(** ** What a builder returns

    [yields m v]: [m] never panics, can only return [v], and does return it
    when the allocator grants its reservations. *)

Definition yields {A} (m : M World A) (v : A) : Prop :=
  forall w, wp m (fun a _ => a = v) w /\ (is_calm w -> runs m (fun a w' => a = v /\ is_calm w') w).

Lemma yields_ret {A} (v : A) : yields (mret v) v.
Proof. by split. Qed.

Lemma yields_bind {A B} (m : M World A) (f : A -> M World B) v u :
  yields m v -> yields (f v) u -> yields (m ≫= f) u.
Proof.
  intros Hm Hf w. split.
  - apply wp_bind. eapply wp_mono; [apply Hm|]. intros a w' ->. apply Hf.
  - intros Hw. apply runs_bind. eapply runs_mono; [by apply Hm|]. intros a w' [-> Hw']. by apply Hf.
Qed.

Lemma yields_lift {A} (o : outcome A) v : o = Ok v -> yields (lift o) v.
Proof. intros ->. by split. Qed.

Lemma yields_try_reserve msg : yields (try_reserve msg) tt.
Proof.
  intros w. split.
  - by apply wp_try_reserve.
  - intros Hw. unfold runs, try_reserve, look. destruct (Hw (tick w)) as (_ & _ & ->). done.
Qed.

Lemma yields_eq {A} (m : M World A) v u : yields m v -> v = u -> yields m u.
Proof. by intros ? ->. Qed.

Lemma yields_for_each {X Y} (body : Y -> X -> M World X) (next : Y -> X -> X) items x :
  (forall y x, In y items -> yields (body y x) (next y x)) ->
  yields (for_each body items x) (foldl (fun x y => next y x) x items).
Proof.
  revert x. induction items as [|y items IH]; intros x H; cbn [for_each foldl]; [apply yields_ret|].
  eapply yields_bind; [apply H; by left|]. apply IH. intros y' x' Hy. apply H. by right.
Qed.

Lemma foldl_append {A} (f : A -> bytes) l x :
  foldl (fun output a => output ++ f a) x l = x ++ concat (map f l).
Proof.
  revert x. induction l as [|a l IH]; intros x; cbn [foldl map concat]; [by rewrite app_nil_r|].
  by rewrite IH, app_assoc.
Qed.

Lemma yields_frame x : len x + 10 <= USIZE_MAX -> yields (encode_frame x) (frame x).
Proof.
  intros Hx. unfold encode_frame. eapply yields_bind.
  { apply yields_lift. rewrite (proj2 (checked_add_Some _ _ _ (len x + 10))); done. }
  eapply yields_bind; [apply yields_try_reserve|].
  eapply yields_eq; [apply yields_ret|]. unfold frame. by rewrite encode_usize_varint by ulia.
Qed.

(** ** Decimals *)

(** The number written by decimal digits. *)
Definition digits_value (carry : Z) (digits : list Z) : Z := foldl (fun a d => a * 10 + d) carry digits.
Definition decimal_value (value : bytes) : Z := digits_value 0 (map (fun b => b - 48) value).

Notation digit d := (0 <= d <= 9).

Lemma digits_value_carry carry ds :
  digits_value carry ds = carry * 10 ^ len ds + digits_value 0 ds.
Proof.
  unfold digits_value. revert carry. induction ds as [|d ds IH]; intros carry; cbn [foldl length].
  - change (10 ^ Z.of_nat 0) with 1. lia.
  - rewrite IH, (IH (0 * 10 + d)), Nat2Z.inj_succ, Z.pow_succ_r by lia. lia.
Qed.

Lemma digits_value_cons d ds : digits_value 0 (d :: ds) = d * 10 ^ len ds + digits_value 0 ds.
Proof. unfold digits_value at 1. cbn [foldl]. fold (digits_value (0 * 10 + d) ds). rewrite digits_value_carry. lia. Qed.

Lemma digits_value_bound ds : Forall (fun d => digit d) ds -> 0 <= digits_value 0 ds < 10 ^ len ds.
Proof.
  induction ds as [|d ds IH]; intros H; [done|].
  apply Forall_cons in H as [Hd Hds]. specialize (IH Hds). rewrite digits_value_cons.
  cbn [length]. rewrite Nat2Z.inj_succ, Z.pow_succ_r by lia. nia.
Qed.

Lemma divide_digits_spec carry ds :
  0 <= carry < 128 -> Forall (fun d => digit d) ds ->
  let '(qs, r) := divide_digits carry ds in
  digits_value carry ds = 128 * digits_value 0 qs + r /\ 0 <= r < 128 /\
  Forall (fun d => digit d) qs /\ length qs = length ds.
Proof.
  revert carry. induction ds as [|d ds IH]; intros carry Hc Hds; cbn [divide_digits].
  - unfold digits_value. cbn [foldl]. splits; try done; lia.
  - apply Forall_cons in Hds as [Hd Hds].
    specialize (IH ((carry * 10 + d) mod 128) (Z.mod_pos_bound (carry * 10 + d) 128 ltac:(lia)) Hds).
    destruct (divide_digits _ ds) as [rest r]. destruct IH as (Hv & Hr & Hrest & Hl).
    splits; [|lia|lia| |cbn [length]; lia].
    + rewrite digits_value_cons. unfold digits_value at 1. cbn [foldl].
      fold (digits_value (carry * 10 + d) ds). rewrite digits_value_carry in Hv |- *.
      rewrite Hl. pose proof (Z.div_mod (carry * 10 + d) 128 ltac:(lia)). nia.
    + constructor; [|done]. split; [apply Z.div_pos; lia|].
      apply Z.lt_succ_r, Z.div_lt_upper_bound; lia.
Qed.

Lemma drop_zeros_spec ds :
  Forall (fun d => digit d) ds ->
  digits_value 0 (drop_zeros ds) = digits_value 0 ds /\ Forall (fun d => digit d) (drop_zeros ds) /\
  (drop_zeros ds = [] <-> digits_value 0 ds = 0).
Proof.
  induction ds as [|d ds IH]; intros H; cbn [drop_zeros]; [done|].
  apply Forall_cons in H as [Hd Hds]. destruct (IH Hds) as (H1 & H2 & H3).
  destruct (Z.eqb_spec d 0) as [->|Hne].
  - rewrite digits_value_cons, Z.mul_0_l, Z.add_0_l. done.
  - split; [done|]. split; [by constructor|]. split; [done|].
    intros Hz. exfalso. rewrite digits_value_cons in Hz. pose proof (digits_value_bound ds Hds).
    assert (0 < 10 ^ len ds) by (apply Z.pow_pos_nonneg; lia). nia.
Qed.

Lemma base128_loop_spec v : 0 <= v -> forall fuel ds,
  ds <> [] -> Forall (fun d => digit d) ds -> digits_value 0 ds = v -> (length (varint v) <= fuel)%nat ->
  exists encoded, base128_loop fuel ds = Ok encoded /\ encoded <> [] /\
    continue_all_but_last encoded = varint v.
Proof.
  revert v. refine (varint_ind _ _ _).
  1: intros v Hv fuel ds Hne Hds Hval Hfuel.
  2: intros v Hv IH fuel ds Hne Hds Hval Hfuel.
  all: pose proof (varint_length_pos v ltac:(lia)); destruct fuel as [|fuel]; [lia|].
  all: destruct ds as [|d ds]; [done|]; cbn [base128_loop].
  all: pose proof (divide_digits_spec 0 (d :: ds) ltac:(lia) Hds) as Hdiv.
  all: destruct (divide_digits 0 (d :: ds)) as [qs r]; destruct Hdiv as (Hq & Hr & Hqs & Hl).
  all: rewrite Hval in Hq; destruct (drop_zeros_spec qs Hqs) as (Hz1 & Hz2 & Hz3).
  all: pose proof (digits_value_bound qs Hqs).
  - rewrite (proj2 Hz3) by lia. assert (r = v) as -> by lia. exists [v].
    split; [by destruct fuel|]. split; [done|]. by rewrite varint_small.
  - assert (digits_value 0 qs = v / 128) as Hqv by (apply (Z.div_unique v 128 _ r); lia).
    assert (1 <= v / 128) by (apply Z.div_le_lower_bound; lia).
    rewrite varint_large in Hfuel |- * by done. cbn [length] in Hfuel.
    destruct (IH fuel (drop_zeros qs)) as (encoded & -> & Henc & Hcont); [|done|congruence|lia|].
    { intros E. apply Hz3 in E. lia. }
    exists (r :: encoded). split; [done|]. split; [done|].
    destruct encoded as [|e encoded]; [done|]. cbn [continue_all_but_last] in *. rewrite Hcont.
    f_equal. assert (r = v mod 128) as -> by (apply (Z.mod_unique v 128 (v / 128) r); lia).
    rewrite (lor_shiftl_add _ 1 7 ltac:(lia)); [done|]. apply Z.mod_pos_bound. lia.
Qed.

Lemma yields_decimal s :
  s <> [] -> forallb is_ascii_digit s = true -> yields (encode_decimal s) (varint (decimal_value s)).
Proof.
  intros Hne Hs. unfold encode_decimal. destruct (bytes_eqb s (str "0")) eqn:E.
  { apply bytes_eqb_eq in E as ->. apply yields_ret. }
  assert (Forall (fun d => digit d) (map (fun b => b - 48) s)) as Hd.
  { apply Forall_map, Forall_forall. intros b Hb. rewrite forallb_forall in Hs.
    apply list_elem_of_In, Hs in Hb. unfold is_ascii_digit, in_range in Hb. bool_to_prop. lia. }
  assert (forall l acc, forallb is_ascii_digit l = true ->
    ofor_each (fun byte digits => d ← usize_sub byte 48; Ok (digits ++ [d])) l acc =
    Ok (acc ++ map (fun b => b - 48) l)) as Hsub.
  { induction l as [|b l IHl]; intros acc Hl; cbn [ofor_each map].
    - by rewrite app_nil_r.
    - cbn [forallb] in Hl. bool_to_prop. unfold is_ascii_digit, in_range in *. bool_to_prop.
      unfold usize_sub. rewrite (proj2 (Z.leb_le 48 b)) by lia.
      unfold mbind, outcome_mbind. cbn [outcome_bind]. rewrite IHl by done. by rewrite <- app_assoc. }
  eapply yields_bind; [apply yields_try_reserve|].
  eapply yields_bind; [by apply yields_lift, Hsub|]. cbn [app].
  eapply yields_bind; [apply yields_try_reserve|].
  pose proof (digits_value_bound _ Hd) as Hbound. rewrite length_map in Hbound.
  assert (0 < len s) by (destruct s; [done|cbn [length]; lia]).
  destruct (base128_loop_spec (decimal_value s) ltac:(apply Hbound) (length s)
    (map (fun b => b - 48) s)) as (encoded & Hloop & Henc & Hcont); [by destruct s|done|done| |].
  { apply Nat2Z.inj_le, varint_length_le; [apply Hbound|done|].
    unfold decimal_value. assert (10 ^ len s <= 128 ^ len s) by (apply Z.pow_le_mono_l; lia). lia. }
  eapply yields_bind; [by apply yields_lift|].
  eapply yields_bind; [apply yields_try_reserve|].
  eapply yields_eq; [apply yields_ret|done].
Qed.

(** ** The builder writes components *)

Definition node_denotes (n : Node) (c : component) : Prop :=
  node_encoded n = encode c /\ node_tag n = ctag c.

(** The field value [f] stands for the component field [p]. *)
Definition field_denotes (f : Field) (p : part) : Prop :=
  match f, p with
  | FieldNone, PNull => True
  | FieldNode n, PComponent c => node_denotes n c
  | FieldText v, PText text => v = text
  | FieldBytes v, PBytes data => v = data
  | FieldInteger v, PInteger z => v <> [] /\ forallb is_ascii_digit v = true /\ z = decimal_value v
  | FieldEnumeration v, PKind kind => v = EntityKind_name kind
  | FieldSet ns, PSet cs => Forall2 node_denotes ns cs
  | FieldSequence ns, PSequence cs => Forall2 node_denotes ns cs
  | _, _ => False
  end.

Lemma yields_members prefix ns cs :
  Forall2 node_denotes ns cs ->
  len (concat (map (fun c => prefix ++ frame (encode c)) cs)) + 10 <= USIZE_MAX ->
  yields (encode_members prefix ns) (concat (map (fun c => prefix ++ frame (encode c)) cs)).
Proof.
  intros Hns Hl. unfold encode_members. eapply yields_eq.
  - apply (yields_for_each _ (fun n output => output ++ prefix ++ frame (node_encoded n))).
    intros n x Hn. eapply yields_bind; [|apply yields_ret]. apply yields_frame.
    assert (forall (ns : list Node) cs, Forall2 node_denotes ns cs -> In n ns ->
      len (node_encoded n) <= len (concat (map (fun c => prefix ++ frame (encode c)) cs))) as Hle.
    { clear. induction 1 as [|m c ns cs [Hm _] _ IH]; [done|]. cbn [In map concat].
      rewrite !length_app. intros [-> |Hn].
      - rewrite Hm. pose proof (length_frame (encode c)). lia.
      - specialize (IH Hn). lia. }
    specialize (Hle ns cs Hns Hn). lia.
  - rewrite foldl_append. cbn [app]. f_equal. clear Hl.
    induction Hns as [|n c ns cs [Hn _] _ IH]; [done|]. cbn [map]. by rewrite Hn, IH.
Qed.

Lemma yields_encode_field f p :
  field_denotes f p -> len (encode_part p) + 10 <= USIZE_MAX -> yields (encode_field f) (encode_part p).
Proof.
  destruct f, p; try done; cbn [field_denotes encode_part encode_field length]; intros Hd Hl.
  - destruct Hd as [Hd _]. pose proof (length_frame (encode c)). eapply yields_bind.
    + apply yields_frame. rewrite Hd. lia.
    + eapply yields_eq; [apply yields_ret|]. by rewrite Hd.
  - subst value. pose proof (length_frame text).
    eapply yields_bind; [apply yields_frame; lia|apply yields_ret].
  - subst value. pose proof (length_frame data).
    eapply yields_bind; [apply yields_frame; lia|apply yields_ret].
  - destruct Hd as (Hne & Hdig & ->). eapply yields_bind; [by apply yields_decimal|apply yields_ret].
  - subst value. pose proof (length_frame (EntityKind_name kind)).
    eapply yields_bind; [apply yields_frame; lia|apply yields_ret].
  - pose proof (Forall2_length _ _ _ Hd) as Hlen. rewrite length_app in Hl. eapply yields_bind.
    + apply (yields_members [] _ members Hd). cbn [app]. lia.
    + eapply yields_eq; [apply yields_ret|]. cbn [app].
      rewrite encode_usize_varint by (pose proof (varint_length_pos (len members)); 
        assert (len members <= len (concat (map (fun c => frame (encode c)) members)))
          by (clear; induction members as [|c cs IH]; cbn [map concat length]; [lia|];
              rewrite length_app; pose proof (length_frame (encode c));
              pose proof (varint_length_pos (len (encode c))); lia); ulia).
      by rewrite Hlen.
  - pose proof (Forall2_length _ _ _ Hd) as Hlen. rewrite length_app in Hl. eapply yields_bind.
    + apply (yields_members [MARKER_NODE] _ members Hd). cbn [app]. unfold MARKER_NODE. lia.
    + eapply yields_eq; [apply yields_ret|]. cbn [app].
      rewrite encode_usize_varint by (
        assert (len members <= len (concat (map (fun c => 1 :: frame (encode c)) members)))
          by (clear; induction members as [|c cs IH]; cbn [map concat length app]; [lia|];
              rewrite length_app; lia); ulia).
      by rewrite Hlen.
Qed.

Lemma yields_build t fields ps :
  is_u64 t -> Forall2 field_denotes fields ps -> len (encode (Component t ps)) + 10 <= USIZE_MAX ->
  yields (Node_build t fields)
    (mkNode t (encode (Component t ps))
       (if flattens t then match fields with FieldSet values :: _ => Some values | _ => None end else None)).
Proof.
  intros Ht Hf Hl. unfold Node_build. eapply yields_bind; [apply yields_try_reserve|].
  eapply yields_bind; [|apply yields_ret].
  rewrite encode_u64_varint by done. cbn [encode] in *.
  assert (forall acc, len (acc ++ concat (map encode_part ps)) + 10 <= USIZE_MAX ->
    yields (for_each (fun field encoded => bytes ← encode_field field; mret (encoded ++ bytes)) fields acc)
      (acc ++ concat (map encode_part ps))) as Hloop.
  2: by apply Hloop.
  clear Hl. induction Hf as [|f p fields ps Hfp _ IH]; intros acc Hl; cbn [for_each map concat] in *.
  - rewrite app_nil_r. apply yields_ret.
  - rewrite !length_app in Hl. eapply yields_bind.
    + eapply yields_bind; [apply yields_encode_field; [done|lia]|apply yields_ret].
    + rewrite app_assoc. apply IH. rewrite !length_app. lia.
Qed.

(** ** Canonical sets *)

Lemma node_le_total x y : node_le x y \/ node_le y x.
Proof. apply bytes_le_total. Qed.

(** The members a set is built from. *)
Definition flatten_one (flatten_tag : option Z) (value : Node) : list Node :=
  match (if bool_decide (flatten_tag = Some (node_tag value)) then node_flattened value else None) with
  | Some members => members
  | None => [value]
  end.
Definition flattened (flatten_tag : option Z) (values : list Node) : list Node :=
  concat (map (flatten_one flatten_tag) values).

Lemma yields_flatten flatten_tag values acc :
  yields (for_each (flatten_value flatten_tag) values acc) (acc ++ flattened flatten_tag values).
Proof.
  unfold flattened. revert acc. induction values as [|v values IH]; intros acc; cbn [for_each map concat].
  - rewrite app_nil_r. apply yields_ret.
  - rewrite app_assoc. eapply yields_bind; [|apply IH]. unfold flatten_value, flatten_one.
    case_match; (eapply yields_bind; [apply yields_try_reserve|apply yields_ret]).
Qed.

Lemma dedup_after_spec kept ns :
  Sorted node_le (kept :: ns) ->
  ascending (map node_encoded (kept :: dedup_after kept ns)) /\
  (forall e, In e (map node_encoded (kept :: ns)) <-> In e (map node_encoded (kept :: dedup_after kept ns))).
Proof.
  revert kept. induction ns as [|n ns IH]; intros kept Hs; cbn [dedup_after].
  { split; [repeat constructor|done]. }
  apply Sorted_inv in Hs as [Hs Hle]. apply HdRel_inv in Hle.
  destruct (bytes_eqb (node_encoded n) (node_encoded kept)) eqn:E.
  - apply bytes_eqb_eq in E. destruct (IH kept) as [H1 H2].
    { apply Sorted_inv in Hs as [Hs Hn]. constructor; [done|].
      destruct ns; constructor. apply HdRel_inv in Hn. unfold node_le in *. by rewrite <- E. }
    split; [done|]. intros e. rewrite <- H2. cbn [map In]. rewrite E. tauto.
  - destruct (IH n Hs) as [H1 H2]. apply bytes_eqb_neq in E. split.
    + cbn [map] in *. constructor; [done|].
      assert (bytes_lt (node_encoded kept) (node_encoded n)) as Hlt.
      { unfold node_le, bytes_le, bytes_leb, bytes_lt, bytes_ltb in *.
        destruct (bytes_compare _ _) eqn:C; try done. apply bytes_compare_eq in C. congruence. }
      apply StronglySorted_cons in H1 as [H1 _]. constructor; [done|].
      eapply Forall_impl; [exact H1|]. intros x Hx. by etrans.
    + intros e. cbn [map In] in *. specialize (H2 e). tauto.
Qed.

Lemma dedup_spec ns :
  Sorted node_le ns ->
  ascending (map node_encoded (dedup ns)) /\
  (forall e, In e (map node_encoded ns) <-> In e (map node_encoded (dedup ns))).
Proof. destruct ns as [|n ns]; [by split; [constructor|]|]. apply dedup_after_spec. Qed.

Lemma dedup_after_incl kept ns n : In n (dedup_after kept ns) -> In n ns.
Proof.
  revert kept. induction ns as [|x ns IH]; intros kept; cbn [dedup_after]; [done|].
  destruct (bytes_eqb _ _); [by right; eapply IH|]. intros [->|H]; [by left|right; by eapply IH].
Qed.

(** The distinct members, in ascending order. *)
Definition distinct_members (flatten_tag : option Z) (values : list Node) : list Node :=
  dedup (merge_sort node_le (flattened flatten_tag values)).

Lemma distinct_members_spec flatten_tag values :
  ascending (map node_encoded (distinct_members flatten_tag values)) /\
  (forall e, In e (map node_encoded (distinct_members flatten_tag values)) <->
     In e (map node_encoded (flattened flatten_tag values))).
Proof.
  assert (Total node_le) as Htotal by (intros x y; apply node_le_total).
  destruct (dedup_spec (merge_sort node_le (flattened flatten_tag values))) as [H1 H2].
  { apply Sorted_merge_sort. done. }
  split; [done|]. intros e. unfold distinct_members. rewrite <- H2.
  rewrite <- !list_elem_of_In. change (map node_encoded) with (fmap (M:=list) node_encoded).
  by rewrite (merge_sort_Permutation node_le (flattened flatten_tag values)).
Qed.

Lemma distinct_members_incl flatten_tag values n :
  In n (distinct_members flatten_tag values) -> In n (flattened flatten_tag values).
Proof.
  intros H. apply list_elem_of_In. rewrite <- (merge_sort_Permutation node_le (flattened flatten_tag values)).
  apply list_elem_of_In. unfold distinct_members, dedup in H.
  destruct (merge_sort node_le _) as [|x ns]; [done|]. destruct H as [->|H]; [by left|right].
  by eapply dedup_after_incl.
Qed.

Lemma canonical_set_cases values minimum flatten_tag w :
  let members := distinct_members flatten_tag values in
  wp (canonical_set values minimum flatten_tag) (fun r _ => r = members /\ minimum <= len r) w /\
  (is_calm w -> minimum <= len members ->
   fst (canonical_set values minimum flatten_tag w) = Ok members) /\
  (is_calm w -> len members < minimum ->
   exists e, fst (canonical_set values minimum flatten_tag w) = Err e).
Proof.
  cbv zeta. unfold canonical_set. pose proof (yields_flatten flatten_tag values [] w) as [Hwp Hrun].
  cbn [app] in *. splits.
  - step. eapply wp_mono; [exact Hwp|]. intros ? w' ->. cbv zeta. do 2 step. step.
    bool_to_prop. by split.
  - intros Hw Hm. unfold mbind, M_bind. specialize (Hrun Hw). unfold runs in Hrun.
    destruct (for_each _ values [] w) as [[fl|e|] w']; try done. destruct Hrun as [-> _].
    cbv zeta. fold (distinct_members flatten_tag values).
    unfold ensure_not, lift, fail_if. by rewrite (proj2 (Z.ltb_ge _ _)).
  - intros Hw Hm. unfold mbind, M_bind. specialize (Hrun Hw). unfold runs in Hrun.
    destruct (for_each _ values [] w) as [[fl|e|] w']; try done. destruct Hrun as [-> _].
    cbv zeta. fold (distinct_members flatten_tag values).
    unfold ensure_not, lift, fail_if. rewrite (proj2 (Z.ltb_lt _ _)) by done. eauto.
Qed.

(** C40: [canonical_set] canonicalises: it never panics, and what it returns are
    flattened members in strictly ascending byte order, one for every distinct
    encoding among them; when memory lasts it returns exactly when there are at
    least [minimum] distinct encodings, and reports an error otherwise. *)
Theorem canonical_set_is_canonical values minimum flatten_tag w :
  wp (canonical_set values minimum flatten_tag) (fun members _ =>
    ascending (map node_encoded members) /\ minimum <= len members /\
    (forall n, In n members -> In n (flattened flatten_tag values)) /\
    forall e, In e (map node_encoded members) <-> In e (map node_encoded (flattened flatten_tag values))) w /\
  (is_calm w ->
   (exists members, fst (canonical_set values minimum flatten_tag w) = Ok members) <->
   minimum <= len (distinct_members flatten_tag values)).
Proof.
  destruct (canonical_set_cases values minimum flatten_tag w) as (Hwp & Hok & Herr).
  destruct (distinct_members_spec flatten_tag values) as [Hasc Hin]. split.
  - eapply wp_mono; [exact Hwp|]. intros members w' [-> Hm]. split_and!; try done.
    intros n. apply distinct_members_incl.
  - intros Hw. split.
    + intros [members E]. destruct (Z.lt_ge_cases (len (distinct_members flatten_tag values)) minimum); [|lia].
      destruct (Herr Hw) as [e E']; [done|]. by rewrite E in E'.
    + intros Hm. eexists. by apply Hok.
Qed.

Lemma canonical_set_is_canonical_witness :
  exists members,
    fst (canonical_set [mkNode 1 [1; 2] None;
                        mkNode 30 [30] (Some [mkNode 1 [1; 1] None; mkNode 1 [1; 2] None])]
           2 (Some 30) calm_world) = Ok members.
Proof.
  apply (canonical_set_is_canonical [mkNode 1 [1; 2] None;
           mkNode 30 [30] (Some [mkNode 1 [1; 1] None; mkNode 1 [1; 2] None])] 2 (Some 30) calm_world).
  - apply calm_world_calm.
  - vm_compute. discriminate.
Defined.

Lemma scan_of_row limits c :
  canonical_row (from_limits limits) (encode c) c -> len (encode c) <= USIZE_MAX ->
  0 <= max_nesting_depth limits -> max_terms limits <= U64_MAX ->
  fst (scan_canonical (encode c) (from_limits limits)) = Ok (component_category c).
Proof.
  intros [_ Hwf Hwork Hterms] Hl Hd Ht. unfold scan_canonical, mbind, M_bind.
  rewrite (scan_canonical_complete (encode c) None (from_limits limits) Hl
    (from_limits_ok limits Hd Ht) c Hterms eq_refl Hwf Hwork). done.
Qed.

(** C12: Writer and scanner agree: [Node::build] never panics, with memory
    available it returns, and what it returns for fields standing for the parts
    of a well-formed component is the canonical row of that component, which
    the scanner accepts with its category. *)
Theorem built_nodes_scan t fields ps limits w :
  is_u64 t -> Forall2 field_denotes fields ps ->
  len (encode (Component t ps)) + 10 <= USIZE_MAX ->
  canonical_row (from_limits limits) (encode (Component t ps)) (Component t ps) ->
  0 <= max_nesting_depth limits -> max_terms limits <= U64_MAX ->
  wp (Node_build t fields) (fun n _ =>
    node_encoded n = encode (Component t ps) /\
    fst (scan_canonical (node_encoded n) (from_limits limits)) = Ok (component_category (Component t ps))) w /\
  (is_calm w -> exists n, fst (Node_build t fields w) = Ok n).
Proof.
  intros Ht Hf Hl Hrow Hd Hm. destruct (yields_build t fields ps Ht Hf Hl w) as [Hwp Hrun]. split.
  - eapply wp_mono; [exact Hwp|]. intros n w' ->. cbn [node_encoded]. split; [done|].
    apply scan_of_row; try done. lia.
  - intros Hw. specialize (Hrun Hw). unfold runs in Hrun.
    destruct (Node_build t fields w) as [[n| |] w']; [by exists n|done|done].
Qed.

Lemma built_nodes_scan_witness :
  exists n, fst (Node_build 1 [FieldText (str "urn:a")] calm_world) = Ok n.
Proof.
  apply (built_nodes_scan 1 [FieldText (str "urn:a")] [PText (str "urn:a")] Limits_default calm_world).
  - split; vm_compute; discriminate.
  - repeat constructor.
  - vm_compute. discriminate.
  - apply sample_iri_canonical.
  - vm_compute. discriminate.
  - vm_compute. discriminate.
  - apply calm_world_calm.
Defined.

(** Decimal integers of any size are written as their canonical varint: for
    every nonempty digit string [encode_decimal] never panics, can only append
    the minimal base-128 encoding of its value, and does so when the allocator
    grants the reservations. *)
Theorem encode_decimal_is_varint value w :
  value <> [] -> forallb is_ascii_digit value = true ->
  wp (encode_decimal value) (fun out _ => out = varint (decimal_value value)) w /\
  (is_calm w -> fst (encode_decimal value w) = Ok (varint (decimal_value value))).
Proof.
  intros Hne Hd. destruct (yields_decimal value Hne Hd w) as [Hwp Hrun]. split; [done|].
  intros Hw. specialize (Hrun Hw). unfold runs in Hrun.
  destruct (encode_decimal value w) as [[out| |] w']; try done. by destruct Hrun as [-> _].
Qed.

Lemma encode_decimal_is_varint_witness :
  fst (encode_decimal (str "340282366920938463463374607431768211456") calm_world) =
  Ok (varint (2 ^ 128)).
Proof.
  change (2 ^ 128) with (decimal_value (str "340282366920938463463374607431768211456")).
  apply (proj2 (encode_decimal_is_varint (str "340282366920938463463374607431768211456") calm_world
    ltac:(discriminate) ltac:(vm_compute; reflexivity))).
  apply calm_world_calm.
Defined.
