(* ===== verification/Tokenizer.v ===== *)
(** * The functional-syntax tokenizer ([native/src/parse/functional.rs])

    [tokenize] and the lexers it calls.  A [&str] is its UTF-8 bytes; a slice
    of one has to begin and end between characters.  No slice is longer than
    [isize::MAX], so the offsets one or two bytes past a position of the text
    do not overflow. *)

From S2P Require Import Prelude Bytes Error Machine Limits Cancel Session Lexical.

(** ** Strings of the standard library *)

(** [str::is_char_boundary] *)
Definition is_char_boundary (text : bytes) (index : Z) : bool :=
  if index =? 0 then true else
  match get_at text index with Some byte => negb (cont byte) | None => index =? len text end.

(** [text.get(a..b)] *)
Definition str_get (text : bytes) (a b : Z) : option bytes :=
  if is_char_boundary text a && is_char_boundary text b then get_range text a b else None.

(** [&text[a..b]] *)
Definition str_index (text : bytes) (a b : Z) : outcome bytes := or_panic (str_get text a b).

(** [bytes.get(index).is_some_and(test)] *)
Definition byte_is (test : Z -> bool) (data : bytes) (index : Z) : bool :=
  match get_at data index with Some byte => test byte | None => false end.

(** ** Tokens *)

Inductive Kind :=
  | KWord | KIri | KString | KLanguage | KInteger | KHat | KOpen | KClose | KEqual | KEof.

#[export] Instance Kind_eq_dec : EqDecision Kind.
Proof. solve_decision. Defined.

Record Token := mkToken {
  kind : Kind;
  token_value : bytes;
  byte_start : Z;
  byte_end : Z;
  token_line : Z;
  token_column : Z
}.

(** [size_of::<Token>()] on a 64-bit target: a [String], four [u64] and the kind. *)
Definition TOKEN_BYTES : Z := 64.

Definition syntax : NativeError :=
  new "NATIVE_FORMAT_SYNTAX" "native Functional Syntax input is invalid".

(** [enforce] *)
Definition enforce_session (key : LimitKey) (observed : Z) (message : string) : M Session unit :=
  observed ← lift (ok_or (try_from U64_MAX observed) (limit "native parser counter exceeds u64"));
  s ← get;
  ensure_not (value (limits s) key <? observed)
    (Limits_resource_limit (limits s) key observed message).

(** [is_delimiter] *)
Definition is_delimiter (byte : Z) : bool :=
  existsb (Z.eqb byte) [40; 41; 61; 60; 62; 64; 94; 34; 39; 32; 9; 13; 10].

(** ** The lexers: the kind, the value and the end of a token *)

Notation lexeme := (Kind * bytes * Z)%type.

(** The loop of [lex_iri]. *)
Fixpoint lex_iri_loop (n : nat) (text : bytes) (start end_ : Z) (escaped : bool) : M Session lexeme :=
  if end_ <? len text then
    match n with
    | O => lift Panic
    | S n =>
        step_work 1;;
        byte ← lift (index_at text end_);
        if (byte =? 62) && negb escaped then
          value ← lift (ok_or (str_get text (start + 1) end_) syntax);
          mret (KIri, value, end_ + 1)
        else if (byte =? 13) || (byte =? 10) then throw syntax
        else
          let escaped := (byte =? 92) && negb escaped in
          let escaped := if negb (byte =? 92) then false else escaped in
          lex_iri_loop n text start (end_ + 1) escaped
    end
  else throw syntax.

(** [lex_iri] *)
Definition lex_iri (text : bytes) (start : Z) : M Session lexeme :=
  lex_iri_loop (length text) text start (start + 1) false.

(** The loop of [lex_string]. *)
Fixpoint lex_string_loop (n : nat) (text : bytes) (end_ : Z) (value : bytes) : M Session lexeme :=
  if end_ <? len text then
    match n with
    | O => lift Panic
    | S n =>
        step_work 1;;
        byte ← lift (index_at text end_);
        if byte =? 34 then
          value ← lift (ok_or (if is_utf8 value then Some value else None) syntax);
          enforce_session MaxLiteralBytes (len value) "native literal exceeds max_literal_bytes";;
          mret (KString, value, end_ + 1)
        else if byte =? 92 then
          escaped ← lift (ok_or (get_at text (end_ + 1)) syntax);
          ensure_not (negb ((escaped =? 34) || (escaped =? 92))) syntax;;
          lex_string_loop n text (end_ + 2) (value ++ [escaped])
        else lex_string_loop n text (end_ + 1) (value ++ [byte])
    end
  else throw syntax.

(** [lex_string] *)
Definition lex_string (text : bytes) (start : Z) : M Session lexeme :=
  lex_string_loop (length text) text (start + 1) [].

(** [while bytes.get(end).is_some_and(test) { session.step(1)?; end += 1; }] *)
Definition skip_bytes (test : Z -> bool) (text : bytes) (end_ : Z) : M Session Z :=
  while_loop (length text) (byte_is test text) (fun end_ => step_work 1;; mret (end_ + 1)) end_.

(** The [loop] over the further subtags of [lex_language]. *)
Fixpoint subtags_loop (n : nat) (text : bytes) (end_ : Z) : M Session Z :=
  if negb (byte_is (Z.eqb 45) text end_) || negb (byte_is is_ascii_alphanumeric text (end_ + 1))
  then mret end_ else
  match n with
  | O => lift Panic
  | S n => end_ ← skip_bytes is_ascii_alphanumeric text (end_ + 1); subtags_loop n text end_
  end.

(** [lex_language] *)
Definition lex_language (text : bytes) (start : Z) : M Session lexeme :=
  let end_ := start + 1 in
  ensure_not (negb (byte_is is_ascii_alphanumeric text end_)) syntax;;
  end_ ← skip_bytes is_ascii_alphanumeric text end_;
  end_ ← subtags_loop (length text) text end_;
  value ← lift (str_index text (start + 1) end_);
  mret (KLanguage, value, end_).

(** [lex_word] *)
Definition lex_word (text : bytes) (start : Z) : M Session lexeme :=
  end_ ← skip_bytes (fun byte => negb (is_delimiter byte)) text start;
  ensure_not (end_ =? start) syntax;;
  value ← lift (ok_or (str_get text start end_) syntax);
  mret (if forallb is_ascii_digit value then KInteger else KWord, value, end_).

(** ** Positions *)

Record Position := mkPosition { line : Z; column : Z }.

Definition next_column (p : Position) : Position :=
  {| line := line p; column := saturating_add U64_MAX (column p) 1 |}.
Definition next_line (p : Position) : Position :=
  {| line := saturating_add U64_MAX (line p) 1; column := 1 |}.

(** One character of [advance_position]; the loop carries the position and
    [previous_cr]. *)
Definition advance_char (character : Z) (loop : Position * bool) : M Session (Position * bool) :=
  step_work 1;;
  let '(p, previous_cr) := loop in
  mret (if character =? 13 then (next_line p, true)
        else if (character =? 10) && previous_cr then (p, false)
        else if character =? 10 then (next_line p, false)
        else (next_column p, false)).

(** [advance_position] *)
Definition advance_position (fragment : bytes) (p : Position) : M Session Position :=
  characters ← lift (chars fragment);
  '(p, _) ← for_each advance_char characters (p, false);
  mret p.

(** ** The tokenizer *)

(** What the loop of [tokenize] carries. *)
Record Lexer := mkLexer { lexed : list Token; at_byte : Z; position : Position }.

(** The body of the comment arm: one byte of a comment. *)
Definition comment_byte (loop : Z * Position) : M Session (Z * Position) :=
  step_work 1;;
  mret (fst loop + 1, next_column (snd loop)).
Definition in_comment (text : bytes) (loop : Z * Position) : bool :=
  byte_is (fun byte => negb ((byte =? 13) || (byte =? 10))) text (fst loop).

(** The [match] that selects the lexer. *)
Definition lex (text : bytes) (index byte : Z) : M Session lexeme :=
  if byte =? 40 then mret (KOpen, str "(", index + 1)
  else if byte =? 41 then mret (KClose, str ")", index + 1)
  else if byte =? 61 then mret (KEqual, str "=", index + 1)
  else if (byte =? 94) && byte_is (Z.eqb 94) text (index + 1) then mret (KHat, str "^^", index + 2)
  else if byte =? 60 then lex_iri text index
  else if byte =? 34 then lex_string text index
  else if byte =? 64 then lex_language text index
  else lex_word text index.

Definition token_offset (offset : Z) : M Session Z :=
  lift (ok_or (try_from U64_MAX offset) (limit "native token offset exceeds u64")).

(** The part of a round after the whitespace and comment arms. *)
Definition lex_token (text : bytes) (byte : Z) (l : Lexer) : M Session Lexer :=
  let index := at_byte l in
  '(kind, value, end_) ← lex text index byte;
  fragment ← lift (str_index text index end_);
  p ← advance_position fragment (position l);
  reserve_bytes (saturating_add USIZE_MAX TOKEN_BYTES (len value));;
  byte_start ← token_offset index;
  byte_end ← token_offset end_;
  mret {| lexed := lexed l ++
            [{| kind := kind; token_value := value; byte_start := byte_start; byte_end := byte_end;
                token_line := line (position l); token_column := column (position l) |}];
          at_byte := end_; position := p |}.

(** One round of the loop of [tokenize]. *)
Definition tokenize_round (text : bytes) (l : Lexer) : M Session Lexer :=
  step_work 1;;
  byte ← lift (index_at text (at_byte l));
  if (byte =? 32) || (byte =? 9) then
    mret {| lexed := lexed l; at_byte := at_byte l + 1; position := next_column (position l) |}
  else if byte =? 13 then
    let index := at_byte l + 1 in
    mret {| lexed := lexed l; at_byte := if byte_is (Z.eqb 10) text index then index + 1 else index;
            position := next_line (position l) |}
  else if byte =? 10 then
    mret {| lexed := lexed l; at_byte := at_byte l + 1; position := next_line (position l) |}
  else if byte =? 35 then
    '(index, p) ← while_loop (length text) (in_comment text) comment_byte (at_byte l, position l);
    mret {| lexed := lexed l; at_byte := index; position := p |}
  else lex_token text byte l.

(** [tokenize] *)
Definition tokenize (text : bytes) : M Session (list Token) :=
  l ← while_loop (length text) (fun l => at_byte l <? len text) (tokenize_round text)
        {| lexed := []; at_byte := 0; position := {| line := 1; column := 1 |} |};
  byte_start ← token_offset (len text);
  byte_end ← token_offset (len text);
  mret (lexed l ++
    [{| kind := KEof; token_value := []; byte_start := byte_start; byte_end := byte_end;
        token_line := line (position l); token_column := column (position l) |}]).
