(* ===== verification/Functional.v ===== *)
(** * The functional-syntax parser ([native/src/parse/functional.rs])

    [parse_functional]: a recursive-descent parser over the tokens of
    [Tokenizer], which builds canonical nodes.  The recursive calls carry fuel;
    [parse_functional] starts them with one more than the number of tokens. *)

From S2P Require Import Prelude Bytes Error Machine Limits Cancel Session Varint Schema Lexical Scan Component Encode Tokenizer.

Definition RDFS_LITERAL : bytes := str "http://www.w3.org/2000/01/rdf-schema#Literal".
Definition OWL_THING : bytes := str "http://www.w3.org/2002/07/owl#Thing".
Definition OWL_NOTHING : bytes := str "http://www.w3.org/2002/07/owl#Nothing".

(** [size_of::<String>()] on a 64-bit target *)
Definition STRING_BYTES : Z := 24.

(** ** Documents ([native/src/parse/mod.rs]) *)

Record Span := mkSpan { span_start : Z; span_end : Z; span_line : Z; span_column : Z }.

Record SpannedNode := mkSpannedNode { spanned : Node; span : Span }.

Record ParsedDocument := mkParsedDocument {
  ontology_iri : option Node;
  version_iri : option Node;
  imports : list Node;
  annotations : list SpannedNode;
  axioms : list SpannedNode;
  extensions : list SpannedNode;
  document_prefixes : list (bytes * bytes);
  decoded_codepoints : Z;
  language_spellings : list bytes
}.

(** [Token::span_to] *)
Definition span_to (start end_ : Token) : Span :=
  {| span_start := byte_start start; span_end := byte_end end_;
     span_line := token_line start; span_column := token_column start |}.

(** ** The parser state *)

Record Parser := mkParser {
  tokens : list Token;
  index : Z;
  nesting : Z;                                   (* [depth] *)
  swrl_allowed : bool;                           (* [allow_swrl] *)
  collect_language_spellings : bool;
  spellings : list bytes;                        (* [language_spellings] *)
  prefixes : gmap bytes bytes;                   (* [BTreeMap<String, String>] *)
  codepoints : Z;                                (* [decoded_codepoints] *)
  session : Session
}.

Definition with_session (s : Session) (p : Parser) : Parser :=
  {| tokens := tokens p; index := index p; nesting := nesting p; swrl_allowed := swrl_allowed p;
     collect_language_spellings := collect_language_spellings p; spellings := spellings p;
     prefixes := prefixes p; codepoints := codepoints p; session := s |}.
Definition with_index (i : Z) (p : Parser) : Parser :=
  {| tokens := tokens p; index := i; nesting := nesting p; swrl_allowed := swrl_allowed p;
     collect_language_spellings := collect_language_spellings p; spellings := spellings p;
     prefixes := prefixes p; codepoints := codepoints p; session := session p |}.
Definition with_nesting (d : Z) (p : Parser) : Parser :=
  {| tokens := tokens p; index := index p; nesting := d; swrl_allowed := swrl_allowed p;
     collect_language_spellings := collect_language_spellings p; spellings := spellings p;
     prefixes := prefixes p; codepoints := codepoints p; session := session p |}.
Definition with_spelling (l : bytes) (p : Parser) : Parser :=
  {| tokens := tokens p; index := index p; nesting := nesting p; swrl_allowed := swrl_allowed p;
     collect_language_spellings := collect_language_spellings p; spellings := spellings p ++ [l];
     prefixes := prefixes p; codepoints := codepoints p; session := session p |}.
Definition with_prefix (prefix value : bytes) (p : Parser) : Parser :=
  {| tokens := tokens p; index := index p; nesting := nesting p; swrl_allowed := swrl_allowed p;
     collect_language_spellings := collect_language_spellings p; spellings := spellings p;
     prefixes := <[prefix := value]> (prefixes p); codepoints := codepoints p; session := session p |}.

Definition modify_parser (f : Parser -> Parser) : M Parser unit := p ← get; put (f p).

Notation on_session m := (zoom session with_session m).
(** The canonical builders only meet the allocator. *)
Notation building m := (zoom session with_session (on_session_world m)).

(** [enforce], [enforce_sequence], [enforce_minimum] *)
Definition enforce (key : LimitKey) (observed : Z) (message : string) : M Parser unit :=
  on_session (enforce_session key observed message).
Definition enforce_sequence (observed : Z) : M Parser unit :=
  enforce MaxSequenceArity observed "native collection exceeds max_sequence_arity".
Definition enforce_minimum (values : list Node) (minimum : Z) : M Parser unit :=
  ensure_not (len values <? minimum) syntax.

(** ** Looking at tokens *)

(** [peek]: [&self.tokens[self.index]] panics past the end. *)
Definition peek : M Parser Token := p ← get; lift (index_at (tokens p) (index p)).
Definition previous : M Parser Token :=
  p ← get; lift (index_at (tokens p) (Z.max 0 (index p - 1))).
Definition at_kind (k : Kind) : M Parser bool := t ← peek; mret (bool_decide (kind t = k)).
Definition word (value : string) : M Parser bool :=
  t ← peek; mret (bool_decide (kind t = KWord) && bytes_eqb (token_value t) (str value)).

(** [value.contains(':')] and [value.starts_with("_:")] *)
Definition contains_byte (b : Z) (value : bytes) : bool := existsb (fun a => a =? b) value.
Definition starts_with_blank (value : bytes) : bool :=
  match value with a :: b :: _ => (a =? 95) && (b =? 58) | _ => false end.

Definition is_prefixed_name (t : Token) : bool :=
  bool_decide (kind t = KWord) && contains_byte 58 (token_value t)
  && negb (starts_with_blank (token_value t)).
Definition is_blank_label (t : Token) : bool :=
  bool_decide (kind t = KWord) && starts_with_blank (token_value t).

Definition starts_iri : M Parser bool :=
  t ← peek; mret (bool_decide (kind t = KIri) || is_prefixed_name t).
Definition blank_label : M Parser bool := t ← peek; mret (is_blank_label t).

Definition take_token : M Parser Token :=
  p ← get;
  t ← lift (ok_or (get_at (tokens p) (index p)) syntax);
  i ← lift (ok_or (checked_add USIZE_MAX (index p) 1) (limit "native token index overflow"));
  modify_parser (with_index i);;
  on_session (step_work 1);;
  mret t.

Definition expect (k : Kind) : M Parser Token :=
  t ← peek; ensure_not (negb (bool_decide (kind t = k))) syntax;; take_token.
Definition expect_word (value : string) : M Parser Token :=
  t ← expect KWord; ensure_not (negb (bytes_eqb (token_value t) (str value))) syntax;; mret t.

Definition open : M Parser unit :=
  _ ← expect KOpen;
  p ← get;
  d ← lift (ok_or (checked_add U64_MAX (nesting p) 1) (limit "native parser depth overflow"));
  modify_parser (with_nesting d);;
  p ← get;
  ensure_not (value (limits (session p)) MaxNestingDepth <? nesting p)
    (Limits_resource_limit (limits (session p)) MaxNestingDepth (nesting p)
       "native parser exceeds max_nesting_depth").

Definition close : M Parser unit :=
  _ ← expect KClose;
  p ← get;
  ensure_not (nesting p <? 1) syntax;;
  modify_parser (with_nesting (nesting p - 1)).

(** The [if self.tokens.get(self.index + 1)] part of [call_name]. *)
Definition call_name : M Parser (option bytes) :=
  t ← peek;
  p ← get;
  mret (if bool_decide (kind t = KWord) &&
           match get_at (tokens p) (index p + 1) with Some t' => bool_decide (kind t' = KOpen) | None => false end
        then Some (token_value t) else None).

(** ** Names *)

(** [match value { "..." => tag, ... }] *)
Definition is_name (value : bytes) (name : string) : bool := bytes_eqb value (str name).
Fixpoint named {A} (value : bytes) (arms : list (string * A)) : option A :=
  match arms with
  | [] => None
  | (name, a) :: arms => if is_name value name then Some a else named value arms
  end.

(** [axiom_tag] *)
Definition axiom_tag (value : bytes) : option Z :=
  named value
    [("Declaration", 60); ("SubClassOf", 61); ("EquivalentClasses", 62); ("DisjointClasses", 63);
     ("DisjointUnion", 64); ("SubObjectPropertyOf", 70); ("EquivalentObjectProperties", 71);
     ("DisjointObjectProperties", 72); ("InverseObjectProperties", 73); ("ObjectPropertyDomain", 74);
     ("ObjectPropertyRange", 75); ("FunctionalObjectProperty", 76);
     ("InverseFunctionalObjectProperty", 77); ("ReflexiveObjectProperty", 78);
     ("IrreflexiveObjectProperty", 79); ("SymmetricObjectProperty", 80);
     ("AsymmetricObjectProperty", 81); ("TransitiveObjectProperty", 82); ("SubDataPropertyOf", 90);
     ("EquivalentDataProperties", 91); ("DisjointDataProperties", 92); ("DataPropertyDomain", 93);
     ("DataPropertyRange", 94); ("FunctionalDataProperty", 95); ("DatatypeDefinition", 100);
     ("HasKey", 101); ("SameIndividual", 110); ("DifferentIndividuals", 111); ("ClassAssertion", 112);
     ("ObjectPropertyAssertion", 113); ("NegativeObjectPropertyAssertion", 114);
     ("DataPropertyAssertion", 115); ("NegativeDataPropertyAssertion", 116);
     ("AnnotationAssertion", 120); ("SubAnnotationPropertyOf", 121);
     ("AnnotationPropertyDomain", 122); ("AnnotationPropertyRange", 123)]%string.

Definition one_of (names : list string) (value : bytes) : bool := existsb (is_name value) names.

(** [is_class_expression_constructor], [object_characteristic], [data_range_constructor] *)
Definition is_class_expression_constructor : bytes -> bool :=
  one_of
    ["ObjectIntersectionOf"; "ObjectUnionOf"; "ObjectComplementOf"; "ObjectOneOf";
     "ObjectSomeValuesFrom"; "ObjectAllValuesFrom"; "ObjectHasValue"; "ObjectHasSelf";
     "ObjectMinCardinality"; "ObjectMaxCardinality"; "ObjectExactCardinality";
     "DataSomeValuesFrom"; "DataAllValuesFrom"; "DataHasValue"; "DataMinCardinality";
     "DataMaxCardinality"; "DataExactCardinality"]%string.
Definition object_characteristic : bytes -> bool :=
  one_of
    ["FunctionalObjectProperty"; "InverseFunctionalObjectProperty"; "ReflexiveObjectProperty";
     "IrreflexiveObjectProperty"; "SymmetricObjectProperty"; "AsymmetricObjectProperty";
     "TransitiveObjectProperty"]%string.
Definition data_range_constructor : bytes -> bool :=
  one_of
    ["DataIntersectionOf"; "DataUnionOf"; "DataComplementOf"; "DataOneOf";
     "DatatypeRestriction"]%string.

(** [starts_document_member] *)
Definition is_document_member (t : Token) : bool :=
  bool_decide (kind t = KWord) &&
  (one_of ["Import"; "Annotation"; "SWRLRule"]%string (token_value t) ||
   match axiom_tag (token_value t) with Some _ => true | None => false end).
Definition starts_document_member : M Parser bool := t ← peek; mret (is_document_member t).

(** ** IRI escapes *)

(** [char::from_u32] and [String::push] *)
Definition is_scalar (c : Z) : bool := in_range 0 0xd7ff c || in_range 0xe000 0x10ffff c.
Definition utf8_encode (c : Z) : bytes :=
  if c <? 0x80 then [c]
  else if c <? 0x800 then [0xc0 + c / 64; 0x80 + c mod 64]
  else if c <? 0x10000 then [0xe0 + c / 4096; 0x80 + c / 64 mod 64; 0x80 + c mod 64]
  else [0xf0 + c / 262144; 0x80 + c / 4096 mod 64; 0x80 + c / 64 mod 64; 0x80 + c mod 64].

(** One hexadecimal digit, and [u32::from_str_radix(_, 16)] of such digits. *)
Definition hex_value (b : Z) : Z :=
  if is_ascii_digit b then b - 48 else if in_range 65 70 b then b - 55 else b - 87.
Definition from_str_radix16 (l : bytes) : option Z :=
  try_from U32_MAX (foldl (fun n b => n * 16 + hex_value b) 0 l).

(** [value[index..].chars().next()] *)
Definition first_char (value : bytes) (index : Z) : outcome (option Z) :=
  rest ← str_index value index (len value);
  characters ← chars rest;
  mret (head characters).

(** The loop of [decode_iri_escapes]. *)
Fixpoint decode_loop (n : nat) (value : bytes) (index : Z) (output : bytes) : outcome bytes :=
  if index <? len value then
    match n with
    | O => Panic
    | S n =>
        byte ← index_at value index;
        if negb (byte =? 92) then
          first ← first_char value index;
          character ← ok_or first syntax;
          decode_loop n value (index + len (utf8_encode character)) (output ++ utf8_encode character)
        else
          marker ← ok_or (get_at value (index + 1)) syntax;
          width ← (if marker =? 117 then Ok 4 else if marker =? 85 then Ok 8 else Err syntax);
          let start := index + 2 in
          let end_ := start + width in
          encoded ← ok_or (str_get value start end_) syntax;
          fail_if (negb (forallb is_ascii_hexdigit encoded)) syntax;;
          codepoint ← ok_or (from_str_radix16 encoded) syntax;
          character ← ok_or (if is_scalar codepoint then Some codepoint else None) syntax;
          decode_loop n value end_ (output ++ utf8_encode character)
    end
  else Ok output.

(** [decode_iri_escapes] *)
Definition decode_iri_escapes (value : bytes) : M World bytes :=
  if negb (contains_byte 92 value) then mret value else
  try_reserve "native IRI allocation failed";;
  lift (decode_loop (length value) value 0 []).

(** [value.split_once(':')] *)
Fixpoint split_once (b : Z) (l : bytes) : option (bytes * bytes) :=
  match l with
  | [] => None
  | a :: l =>
      if a =? b then Some ([], l) else
      match split_once b l with Some (x, y) => Some (a :: x, y) | None => None end
  end.

(** ** Terminals *)

(** [parse_iri] *)
Definition parse_iri : M Parser Node :=
  token ← peek;
  value ←
    (if bool_decide (kind token = KIri) then
       _ ← take_token; building (decode_iri_escapes (token_value token))
     else if is_prefixed_name token then
       _ ← take_token;
       split ← lift (ok_or (split_once 58 (token_value token)) syntax);
       let '(prefix, local) := split in
       p ← get;
       base ← lift (ok_or (prefixes p !! prefix) syntax);
       local ← building (decode_iri_escapes local);
       _ ← lift (ok_or (checked_add USIZE_MAX (len base) (len local)) (limit "native IRI size overflow"));
       building (try_reserve "native IRI allocation failed");;
       mret (base ++ local)
     else throw syntax : M Parser bytes);
  enforce MaxIriBytes (len value) "native IRI exceeds max_iri_bytes";;
  building (iri_node value).

(** [entity(kind, self.parse_iri()?)] *)
Definition parse_entity_iri (kind : string) : M Parser Node :=
  value ← parse_iri; building (entity (str kind) value).

(** [parse_data_property], [parse_annotation_property], [parse_class], [parse_datatype] *)
Definition parse_data_property : M Parser Node := parse_entity_iri "data_property".
Definition parse_annotation_property : M Parser Node := parse_entity_iri "annotation_property".
Definition parse_class : M Parser Node := parse_entity_iri "class".
Definition parse_datatype : M Parser Node := parse_entity_iri "datatype".

(** [entity(kind, iri(text)?)] *)
Definition known_entity (kind : string) (text : bytes) : M Parser Node :=
  value ← building (iri_node text); building (entity (str kind) value).

(** [parse_entity] *)
Definition parse_entity : M Parser Node :=
  name ← expect KWord;
  kind ← lift (ok_or
    (named (token_value name)
       [("Class", "class"); ("Datatype", "datatype"); ("ObjectProperty", "object_property");
        ("DataProperty", "data_property"); ("AnnotationProperty", "annotation_property");
        ("NamedIndividual", "named_individual")]%string) syntax);
  open;;
  value ← parse_entity_iri kind;
  close;;
  mret value.

(** [parse_individual] *)
Definition parse_individual : M Parser Node :=
  blank ← blank_label;
  if (blank : bool) then
    token ← take_token;
    label ← lift (ok_or (if starts_with_blank (token_value token)
                         then Some (drop 2 (token_value token)) else None) syntax);
    ensure_not (len label =? 0) syntax;;
    building (anonymous label)
  else parse_entity_iri "named_individual".

(** [parse_object_property] *)
Definition parse_object_property : M Parser Node :=
  inverse ← word "ObjectInverseOf";
  if (inverse : bool) then
    _ ← take_token;
    open;;
    property ← parse_entity_iri "object_property";
    close;;
    building (Node_build 10 [FieldNode property])
  else parse_entity_iri "object_property".

(** [str::to_ascii_lowercase] *)
Definition to_ascii_lowercase (value : bytes) : bytes :=
  map (fun b => if is_ascii_uppercase b then b + 32 else b) value.

(** The branch of [parse_literal] that keeps the spelling of a language tag. *)
Definition collect_spelling (spelling : bytes) : M Parser unit :=
  p ← get;
  if collect_language_spellings p then
    on_session (reserve_bytes STRING_BYTES);;
    building (try_reserve "native language spelling allocation failed");;
    modify_parser (with_spelling spelling)
  else mret tt.

(** [parse_literal] *)
Definition parse_literal : M Parser Node :=
  lexical ← expect KString;
  language ← at_kind KLanguage;
  if (language : bool) then
    spelling ← take_token;
    collect_spelling (token_value spelling);;
    datatype ← known_entity "datatype" RDF_PLAIN_LITERAL;
    building (literal (token_value lexical) datatype (Some (to_ascii_lowercase (token_value spelling))))
  else
    hat ← at_kind KHat;
    datatype ← (if (hat : bool) then _ ← take_token; parse_entity_iri "datatype"
                else known_entity "datatype" RDF_PLAIN_LITERAL);
    building (literal (token_value lexical) datatype None).

(** [parse_annotation_subject], [parse_annotation_value] *)
Definition parse_annotation_subject : M Parser Node :=
  blank ← blank_label;
  if (blank : bool) then parse_individual else parse_iri.
Definition parse_annotation_value : M Parser Node :=
  string ← at_kind KString;
  if (string : bool) then parse_literal else
  blank ← blank_label;
  if (blank : bool) then parse_individual else parse_iri.

(** ** Collections *)

(** The loop of [many]; every round takes a token. *)
Fixpoint many_loop (n : nat) (parser : M Parser Node) (values : list Node) : M Parser (list Node) :=
  done ← at_kind KClose;
  if (done : bool) then mret values else
  match n with
  | O => lift Panic
  | S n =>
      value ← parser;
      let values := values ++ [value] in
      enforce_sequence (len values);;
      many_loop n parser values
  end.

(** [many] *)
Definition many (parser : M Parser Node) : M Parser (list Node) :=
  p ← get; many_loop (length (tokens p)) parser [].

(** [canonical_set(values, minimum, flatten_tag)] in a parser *)
Definition canonical (values : list Node) (minimum : Z) (flatten_tag : option Z) : M Parser (list Node) :=
  building (canonical_set values minimum flatten_tag).

(** [set_many], which is only called without a tag to flatten *)
Definition set_many (parser : M Parser Node) (minimum : Z) : M Parser Field :=
  values ← many parser;
  values ← canonical values minimum None;
  mret (FieldSet values).

(** [parse_idempotent_expression] *)
Definition parse_idempotent_expression (parser : M Parser Node) (tag : Z) : M Parser Node :=
  raw ← many parser;
  ensure_not (len raw <? 2) syntax;;
  operands ← canonical raw 1 (Some tag);
  close;;
  if len operands =? 1 then lift (ok_or (last operands) syntax)
  else building (Node_build tag [FieldSet operands]).

(** [parse_sub_object_property] *)
Definition parse_sub_object_property : M Parser Node :=
  chain ← word "ObjectPropertyChain";
  if (chain : bool) then
    _ ← take_token;
    open;;
    values ← many parse_object_property;
    enforce_minimum values 2;;
    close;;
    building (Node_build 11 [FieldSequence values])
  else parse_object_property.

(** [parse_facet_restriction] *)
Definition parse_facet_restriction : M Parser Node :=
  facet ← parse_iri;
  value ← parse_literal;
  building (Node_build 20 [FieldNode facet; FieldNode value]).

(** Recursion starts with fuel for every token. *)
Definition with_fuel {A} (parser : nat -> M Parser A) : M Parser A :=
  p ← get; parser (S (length (tokens p))).

(** ** Annotations *)

(** The loop of [parse_annotations]. *)
Fixpoint annotations_loop (n : nat) (parse_annotation : M Parser Node) (values : list Node)
    : M Parser (list Node) :=
  more ← word "Annotation";
  if (more : bool) then
    match n with
    | O => lift Panic
    | S n =>
        value ← parse_annotation;
        let values := values ++ [value] in
        enforce MaxAnnotations (len values) "native annotation count exceeds max_annotations";;
        annotations_loop n parse_annotation values
    end
  else mret values.

Definition parse_annotations_with (parse_annotation : M Parser Node) : M Parser (list Node) :=
  p ← get;
  values ← annotations_loop (length (tokens p)) parse_annotation [];
  canonical values 0 None.

(** The body of [parse_annotation]. *)
Definition parse_annotation_body (parse_annotation : M Parser Node) : M Parser Node :=
  _ ← expect_word "Annotation";
  open;;
  annotations ← parse_annotations_with parse_annotation;
  property ← parse_annotation_property;
  value ← parse_annotation_value;
  close;;
  building (Node_build 5 [FieldNode property; FieldNode value; FieldSet annotations]).

Fixpoint parse_annotation_fuel (n : nat) : M Parser Node :=
  match n with O => lift Panic | S n => parse_annotation_body (parse_annotation_fuel n) end.

(** [parse_annotation], [parse_annotations] *)
Definition parse_annotation : M Parser Node := with_fuel parse_annotation_fuel.
Definition parse_annotations : M Parser (list Node) := parse_annotations_with parse_annotation.

(** ** Data ranges *)

(** The body of [parse_data_range]. *)
Definition parse_data_range_body (parse_data_range : M Parser Node) : M Parser Node :=
  name ← call_name;
  match name with
  | None => parse_datatype
  | Some name =>
      _ ← take_token;
      open;;
      if is_name name "DataIntersectionOf" then parse_idempotent_expression parse_data_range 21
      else if is_name name "DataUnionOf" then parse_idempotent_expression parse_data_range 22
      else
        built ←
          (if is_name name "DataComplementOf" then
             operand ← parse_data_range; mret (23, [FieldNode operand])
           else if is_name name "DataOneOf" then
             values ← set_many parse_literal 1; mret (24, [values])
           else if is_name name "DatatypeRestriction" then
             datatype ← parse_datatype;
             facets ← set_many parse_facet_restriction 1;
             mret (25, [FieldNode datatype; facets])
           else throw syntax);
        close;;
        building (Node_build (fst built) (snd built))
  end.

Fixpoint parse_data_range_fuel (n : nat) : M Parser Node :=
  match n with O => lift Panic | S n => parse_data_range_body (parse_data_range_fuel n) end.

(** [parse_data_range] *)
Definition parse_data_range : M Parser Node := with_fuel parse_data_range_fuel.

(** ** Class expressions *)

(** The loop of [parse_data_quantified_arguments]. *)
Fixpoint quantified_loop (n : nat) (properties : list Node) : M Parser (list Node * Node) :=
  done ← at_kind KClose;
  if (done : bool) then throw syntax else
  match n with
  | O => lift Panic
  | S n =>
      name ← call_name;
      if match name with Some name => data_range_constructor name | None => false end then
        ensure_not (len properties =? 0) syntax;;
        range ← parse_data_range;
        mret (properties, range)
      else
        selected_iri ← parse_iri;
        done ← at_kind KClose;
        if (done : bool) then
          ensure_not (len properties =? 0) syntax;;
          range ← building (entity (str "datatype") selected_iri);
          mret (properties, range)
        else
          property ← building (entity (str "data_property") selected_iri);
          let properties := properties ++ [property] in
          enforce_sequence (len properties);;
          quantified_loop n properties
  end.

(** [parse_data_quantified_arguments] *)
Definition parse_data_quantified_arguments : M Parser (list Node * Node) :=
  p ← get; quantified_loop (length (tokens p)) [].

(** The cardinality arms: number, property and optional filler. *)
Definition parse_cardinality (parse_property parse_filler : M Parser Node) (kind : string) (top : bytes)
    : M Parser (list Field) :=
  cardinality ← expect KInteger;
  property ← parse_property;
  closed ← at_kind KClose;
  filler ← (if (closed : bool) then known_entity kind top else parse_filler);
  mret [FieldInteger (token_value cardinality); FieldNode property; FieldNode filler].

(** The tag and the fields of the constructors that are not idempotent. *)
Definition class_expression_fields (parse_class_expression : M Parser Node) (name : bytes)
    : M Parser (Z * list Field) :=
  if is_name name "ObjectComplementOf" then
    operand ← parse_class_expression; mret (32, [FieldNode operand])
  else if is_name name "ObjectOneOf" then
    values ← set_many parse_individual 1; mret (33, [values])
  else if is_name name "ObjectSomeValuesFrom" || is_name name "ObjectAllValuesFrom" then
    property ← parse_object_property;
    filler ← parse_class_expression;
    mret (if is_name name "ObjectSomeValuesFrom" then 34 else 35, [FieldNode property; FieldNode filler])
  else if is_name name "ObjectHasValue" then
    property ← parse_object_property;
    value ← parse_individual;
    mret (36, [FieldNode property; FieldNode value])
  else if is_name name "ObjectHasSelf" then
    property ← parse_object_property; mret (37, [FieldNode property])
  else if is_name name "ObjectMinCardinality" || is_name name "ObjectMaxCardinality"
          || is_name name "ObjectExactCardinality" then
    let tag := if is_name name "ObjectMinCardinality" then 38
               else if is_name name "ObjectMaxCardinality" then 39 else 40 in
    fields ← parse_cardinality parse_object_property parse_class_expression "class" OWL_THING;
    mret (tag, fields)
  else if is_name name "DataSomeValuesFrom" || is_name name "DataAllValuesFrom" then
    arguments ← parse_data_quantified_arguments;
    mret (if is_name name "DataSomeValuesFrom" then 41 else 42,
          [FieldSequence (fst arguments); FieldNode (snd arguments)])
  else if is_name name "DataHasValue" then
    property ← parse_data_property;
    value ← parse_literal;
    mret (43, [FieldNode property; FieldNode value])
  else if is_name name "DataMinCardinality" || is_name name "DataMaxCardinality"
          || is_name name "DataExactCardinality" then
    let tag := if is_name name "DataMinCardinality" then 44
               else if is_name name "DataMaxCardinality" then 45 else 46 in
    fields ← parse_cardinality parse_data_property parse_data_range "datatype" RDFS_LITERAL;
    mret (tag, fields)
  else throw syntax.

(** The body of [parse_class_expression]. *)
Definition parse_class_expression_body (parse_class_expression : M Parser Node) : M Parser Node :=
  name ← call_name;
  match (match name with
         | Some name => if is_class_expression_constructor name then Some name else None
         | None => None
         end) with
  | None => parse_class
  | Some name =>
      _ ← take_token;
      open;;
      if is_name name "ObjectIntersectionOf" then parse_idempotent_expression parse_class_expression 30
      else if is_name name "ObjectUnionOf" then parse_idempotent_expression parse_class_expression 31
      else
        built ← class_expression_fields parse_class_expression name;
        close;;
        building (Node_build (fst built) (snd built))
  end.

Fixpoint parse_class_expression_fuel (n : nat) : M Parser Node :=
  match n with O => lift Panic | S n => parse_class_expression_body (parse_class_expression_fuel n) end.

(** [parse_class_expression] *)
Definition parse_class_expression : M Parser Node := with_fuel parse_class_expression_fuel.

(** ** Axioms *)

(** One round of the loop that collects the repeated operands. *)
Definition repeated_operand (expressions : list Node) (index : Z) (repeated : list Node)
    : outcome (list Node) :=
  previous ← index_at expressions (index - 1);
  current ← index_at expressions index;
  again ← (if bytes_eqb (node_encoded previous) (node_encoded current) then
             if index =? 1 then Ok true else
             before ← index_at expressions (index - 2);
             Ok (negb (bytes_eqb (node_encoded before) (node_encoded current)))
           else Ok false);
  Ok (if again : bool then repeated ++ [current] else repeated).

(** [SubClassOf(expression owl:Nothing)] for a repeated operand. *)
Definition nothing_axiom (nothing : Node) (annotations : list Node) (expression : Node)
    (axioms : list Node) : M World (list Node) :=
  axiom ← Node_build 61 [FieldNode expression; FieldNode nothing; FieldSet annotations];
  mret (axioms ++ [axiom]).

(** [disjoint_class_axioms] *)
Definition disjoint_class_axioms (expressions annotations : list Node) : M World (list Node) :=
  ensure_not (len expressions <? 2) syntax;;
  let expressions := merge_sort node_le expressions in
  repeated ← lift (ofor_range (repeated_operand expressions) 1 (length expressions - 1) []);
  let expressions := dedup expressions in
  axioms ← (if 2 <=? len expressions then
              axiom ← Node_build 63 [FieldSet expressions; FieldSet annotations]; mret [axiom]
            else mret []);
  if len repeated =? 0 then mret axioms else
  iri ← iri_node OWL_NOTHING;
  nothing ← entity (str "class") iri;
  for_each (nothing_axiom nothing annotations) repeated axioms.

(** The arms that parse two or three operands in order. *)
Definition two (first second : M Parser Node) (annotations : list Node) : M Parser (list Field) :=
  x ← first; y ← second; mret [FieldNode x; FieldNode y; FieldSet annotations].
Definition three (first second third : M Parser Node) (annotations : list Node) : M Parser (list Field) :=
  x ← first; y ← second; z ← third;
  mret [FieldNode x; FieldNode y; FieldNode z; FieldSet annotations].

(** The [InverseObjectProperties] arm. *)
Definition inverse_fields (annotations : list Node) : M Parser (list Field) :=
  first ← parse_object_property;
  second ← parse_object_property;
  let '(first, second) :=
    if bytes_ltb (node_encoded second) (node_encoded first) then (second, first) else (first, second) in
  mret [FieldNode first; FieldNode second; FieldSet annotations].

(** The [HasKey] arm. *)
Definition has_key_fields (annotations : list Node) : M Parser (list Field) :=
  expression ← parse_class_expression;
  open;;
  objects ← many parse_object_property;
  objects ← canonical objects 0 None;
  close;;
  open;;
  data ← many parse_data_property;
  data ← canonical data 0 None;
  close;;
  ensure_not ((len objects =? 0) && (len data =? 0)) syntax;;
  mret [FieldNode expression; FieldSet objects; FieldSet data; FieldSet annotations].

(** A set of operands and the annotations. *)
Definition set_fields (parser : M Parser Node) (annotations : list Node) : M Parser (list Field) :=
  values ← set_many parser 2; mret [values; FieldSet annotations].

(** A single operand and the annotations. *)
Definition one (first : M Parser Node) (annotations : list Node) : M Parser (list Field) :=
  x ← first; mret [FieldNode x; FieldSet annotations].

(** The fields of [parse_axiom], arm by arm. *)
Definition axiom_fields (name : bytes) (annotations : list Node) : M Parser (list Field) :=
  if is_name name "Declaration" then one parse_entity annotations
  else if is_name name "SubClassOf" then two parse_class_expression parse_class_expression annotations
  else if is_name name "EquivalentClasses" then set_fields parse_class_expression annotations
  else if is_name name "DisjointUnion" then
    class ← parse_class;
    values ← set_many parse_class_expression 2;
    mret [FieldNode class; values; FieldSet annotations]
  else if is_name name "SubObjectPropertyOf" then two parse_sub_object_property parse_object_property annotations
  else if is_name name "EquivalentObjectProperties" || is_name name "DisjointObjectProperties" then
    set_fields parse_object_property annotations
  else if is_name name "InverseObjectProperties" then inverse_fields annotations
  else if is_name name "ObjectPropertyDomain" || is_name name "ObjectPropertyRange" then
    two parse_object_property parse_class_expression annotations
  else if object_characteristic name then one parse_object_property annotations
  else if is_name name "SubDataPropertyOf" then two parse_data_property parse_data_property annotations
  else if is_name name "EquivalentDataProperties" || is_name name "DisjointDataProperties" then
    set_fields parse_data_property annotations
  else if is_name name "DataPropertyDomain" then two parse_data_property parse_class_expression annotations
  else if is_name name "DataPropertyRange" then two parse_data_property parse_data_range annotations
  else if is_name name "FunctionalDataProperty" then one parse_data_property annotations
  else if is_name name "DatatypeDefinition" then two parse_datatype parse_data_range annotations
  else if is_name name "HasKey" then has_key_fields annotations
  else if is_name name "SameIndividual" || is_name name "DifferentIndividuals" then set_fields parse_individual annotations
  else if is_name name "ClassAssertion" then two parse_class_expression parse_individual annotations
  else if is_name name "ObjectPropertyAssertion" || is_name name "NegativeObjectPropertyAssertion" then
    three parse_object_property parse_individual parse_individual annotations
  else if is_name name "DataPropertyAssertion" || is_name name "NegativeDataPropertyAssertion" then
    three parse_data_property parse_individual parse_literal annotations
  else if is_name name "AnnotationAssertion" then
    three parse_annotation_property parse_annotation_subject parse_annotation_value annotations
  else if is_name name "SubAnnotationPropertyOf" then
    two parse_annotation_property parse_annotation_property annotations
  else if is_name name "AnnotationPropertyDomain" || is_name name "AnnotationPropertyRange" then
    two parse_annotation_property parse_iri annotations
  else throw syntax.

(** [parse_axiom] *)
Definition parse_axiom : M Parser (list Node) :=
  name ← expect KWord;
  let name := token_value name in
  tag ← lift (ok_or (axiom_tag name) syntax);
  open;;
  annotations ← parse_annotations;
  if is_name name "DisjointClasses" then
    expressions ← many parse_class_expression;
    close;;
    building (disjoint_class_axioms expressions annotations)
  else
    fields ← axiom_fields name annotations;
    close;;
    node ← building (Node_build tag fields);
    mret [node].

(** ** SWRL rules *)

(** [parse_variable], [parse_swrl_iarg], [parse_swrl_darg] *)
Definition parse_variable : M Parser Node :=
  _ ← expect_word "Variable";
  open;;
  value ← parse_iri;
  close;;
  building (Node_build 140 [FieldNode value]).
Definition parse_swrl_iarg : M Parser Node :=
  variable ← word "Variable";
  if (variable : bool) then parse_variable else parse_individual.
Definition parse_swrl_darg : M Parser Node :=
  variable ← word "Variable";
  if (variable : bool) then parse_variable else parse_literal.

(** [vec![Field::Node(a()?), Field::Node(b()?)]] and its longer form *)
Definition pair_of (first second : M Parser Node) : M Parser (list Field) :=
  x ← first; y ← second; mret [FieldNode x; FieldNode y].
Definition triple_of (first second third : M Parser Node) : M Parser (list Field) :=
  x ← first; y ← second; z ← third; mret [FieldNode x; FieldNode y; FieldNode z].

(** The tag and the fields of [parse_swrl_atom]. *)
Definition atom_fields (name : bytes) : M Parser (Z * list Field) :=
  if is_name name "ClassAtom" then
    fields ← pair_of parse_class_expression parse_swrl_iarg; mret (141, fields)
  else if is_name name "DataRangeAtom" then
    fields ← pair_of parse_data_range parse_swrl_darg; mret (142, fields)
  else if is_name name "ObjectPropertyAtom" then
    fields ← triple_of parse_object_property parse_swrl_iarg parse_swrl_iarg; mret (143, fields)
  else if is_name name "DataPropertyAtom" then
    fields ← triple_of parse_data_property parse_swrl_iarg parse_swrl_darg; mret (144, fields)
  else if is_name name "BuiltInAtom" then
    predicate ← parse_iri;
    arguments ← many parse_swrl_darg;
    mret (145, [FieldNode predicate; FieldSequence arguments])
  else if is_name name "SameIndividualAtom" || is_name name "DifferentIndividualsAtom" then
    fields ← pair_of parse_swrl_iarg parse_swrl_iarg;
    mret (if is_name name "SameIndividualAtom" then 146 else 147, fields)
  else throw syntax.

(** [parse_swrl_atom] *)
Definition parse_swrl_atom : M Parser Node :=
  name ← expect KWord;
  open;;
  built ← atom_fields (token_value name);
  close;;
  building (Node_build (fst built) (snd built)).

(** [parse_swrl_rule] *)
Definition parse_swrl_rule : M Parser Node :=
  _ ← expect_word "SWRLRule";
  open;;
  annotations ← parse_annotations;
  open;;
  body ← many parse_swrl_atom;
  body ← canonical body 0 None;
  close;;
  open;;
  head ← many parse_swrl_atom;
  head ← canonical head 0 None;
  close;;
  enforce MaxRuleAtoms (Z.max (len body) (len head)) "native SWRL rule exceeds max_rule_atoms";;
  close;;
  building (Node_build 148 [FieldSet body; FieldSet head; FieldSet annotations]).

(** ** The document *)

(** [parse_prefix] *)
Definition parse_prefix : M Parser unit :=
  _ ← expect_word "Prefix";
  open;;
  token ← expect KWord;
  prefix ← lift (ok_or (if bool_decide (last (token_value token) = Some 58)
                        then Some (removelast (token_value token)) else None) syntax);
  _ ← expect KEqual;
  raw ← expect KIri;
  value ← building (decode_iri_escapes (token_value raw));
  enforce MaxIriBytes (len value) "native prefix IRI exceeds max_iri_bytes";;
  modify_parser (with_prefix prefix value);;
  p ← get;
  enforce MaxPrefixes (Z.of_nat (base.size (prefixes p))) "native prefix count exceeds max_prefixes";;
  close.

(** [while self.word("Prefix") { self.parse_prefix()?; }] *)
Fixpoint prefixes_loop (n : nat) : M Parser unit :=
  more ← word "Prefix";
  if (more : bool) then
    match n with O => lift Panic | S n => parse_prefix;; prefixes_loop n end
  else mret tt.

(** The ontology and version IRIs of the header. *)
Definition header_iri : M Parser (option Node) :=
  iri ← starts_iri;
  member ← starts_document_member;
  if (iri : bool) && negb member then node ← parse_iri; mret (Some node) else mret None.
Definition parse_header : M Parser (option Node * option Node) :=
  ontology ← header_iri;
  match ontology with
  | Some _ => version ← header_iri; mret (ontology, version)
  | None => mret (None, None)
  end.

(** The vectors the member loop pushes to. *)
Record Members := mkMembers {
  m_imports : list Node;
  m_annotations : list SpannedNode;
  m_axioms : list SpannedNode;
  m_extensions : list SpannedNode
}.

Definition no_members : Members := mkMembers [] [] [] [].

(** [for node in nodes { axioms.push(..); enforce(..)?; }] *)
Definition push_axiom (span : Span) (node : Node) (axioms : list SpannedNode)
    : M Parser (list SpannedNode) :=
  let axioms := axioms ++ [mkSpannedNode node span] in
  enforce MaxAxioms (len axioms) "native axiom count exceeds max_axioms";;
  mret axioms.

(** One round of the member loop. *)
Definition parse_member (m : Members) : M Parser Members :=
  start ← peek;
  import ← word "Import";
  annotation ← word "Annotation";
  rule ← word "SWRLRule";
  if (import : bool) then
    _ ← take_token;
    open;;
    iri ← parse_iri;
    close;;
    mret (mkMembers (m_imports m ++ [iri]) (m_annotations m) (m_axioms m) (m_extensions m))
  else if (annotation : bool) then
    node ← parse_annotation;
    end_ ← previous;
    mret (mkMembers (m_imports m) (m_annotations m ++ [mkSpannedNode node (span_to start end_)])
            (m_axioms m) (m_extensions m))
  else if (rule : bool) then
    p ← get;
    ensure_not (negb (swrl_allowed p))
      (new "NATIVE_EXTENSION_DISABLED" "native SWRL parsing requires explicit enablement");;
    node ← parse_swrl_rule;
    end_ ← previous;
    mret (mkMembers (m_imports m) (m_annotations m) (m_axioms m)
            (m_extensions m ++ [mkSpannedNode node (span_to start end_)]))
  else
    nodes ← parse_axiom;
    end_ ← previous;
    axioms ← for_each (push_axiom (span_to start end_)) nodes (m_axioms m);
    mret (mkMembers (m_imports m) (m_annotations m) axioms (m_extensions m)).

(** [while !self.at(Kind::Close) { ... }] *)
Fixpoint members_loop (n : nat) (m : Members) : M Parser Members :=
  done ← at_kind KClose;
  if (done : bool) then mret m else
  match n with O => lift Panic | S n => m ← parse_member m; members_loop n m end.

(** [prefixes.into_iter().collect()]: the entries in the order of the keys. *)
Definition key_le (x y : bytes * bytes) : Prop := bytes_le (fst x) (fst y).
#[export] Instance key_le_dec : RelDecision key_le.
Proof. intros x y. unfold key_le. apply _. Defined.
Definition into_entries (m : gmap bytes bytes) : list (bytes * bytes) :=
  merge_sort key_le (map_to_list m).

(** [Parser::parse] *)
Definition Parser_parse : M Parser ParsedDocument :=
  p ← get;
  prefixes_loop (length (tokens p));;
  _ ← expect_word "Ontology";
  open;;
  header ← parse_header;
  members ← members_loop (length (tokens p)) no_members;
  close;;
  _ ← expect KEof;
  p ← get;
  mret {| ontology_iri := fst header; version_iri := snd header; imports := m_imports members;
          annotations := m_annotations members; axioms := m_axioms members;
          extensions := m_extensions members; document_prefixes := into_entries (prefixes p);
          decoded_codepoints := codepoints p; language_spellings := spellings p |}.

(** The prefixes [Parser::new] declares. *)
Definition initial_prefixes : gmap bytes bytes :=
  list_to_map
    [(str "owl", str "http://www.w3.org/2002/07/owl#");
     (str "rdf", str "http://www.w3.org/1999/02/22-rdf-syntax-ns#");
     (str "rdfs", str "http://www.w3.org/2000/01/rdf-schema#");
     (str "xsd", str "http://www.w3.org/2001/XMLSchema#")].

(** [Parser::new] *)
Definition Parser_new (tokens : list Token) (allow_swrl collect : bool) (codepoints : Z)
    (s : Session) : Parser :=
  {| tokens := tokens; index := 0; nesting := 0; swrl_allowed := allow_swrl;
     collect_language_spellings := collect; spellings := []; prefixes := initial_prefixes;
     codepoints := codepoints; session := s |}.

(** [text.strip_prefix('\u{feff}')] *)
Definition BOM : bytes := [0xef; 0xbb; 0xbf].
Definition strip_bom (text : bytes) : bytes :=
  if bool_decide (take 3 text = BOM) then drop 3 text else text.

(** Running a parser that owns the session. *)
Definition in_parser {A} (p : Session -> Parser) (m : M Parser A) : M Session A := fun s =>
  let '(r, p) := m (p s) in (r, session p).

(** [parse_functional] *)
Definition parse_functional (data : bytes) (allow_swrl collect : bool) : M Session ParsedDocument :=
  text ← lift (ok_or (if is_utf8 data then Some data else None)
                 (new "NATIVE_FORMAT_ENCODING" "native Functional Syntax source is not valid UTF-8"));
  let text := strip_bom text in
  characters ← lift (chars text);
  codepoints ← lift (ok_or (try_from U64_MAX (len characters))
                       (limit "native decoded source length exceeds u64"));
  tokens ← tokenize text;
  in_parser (Parser_new tokens allow_swrl collect codepoints) Parser_parse.
