(* ===== verification/Utf8.v ===== *)
(** * Slices of UTF-8 strings

    How [utf8_chars] decomposes along concatenation, and [String::push]: the
    facts behind slicing a [&str] between characters. *)

From S2P Require Import Prelude Bytes Error Machine Lexical Tokenizer Functional.

(** The sequence [s] encodes the single scalar [c]. *)
Record utf8_char (s : bytes) (c : Z) : Prop := {
  char_reads : forall y, utf8_chars (s ++ y) = cons c <$> utf8_chars y;
  char_shape : exists a t, s = a :: t /\ cont a = false /\ Forall (fun b => cont b = true) t;
  char_encodes : s = utf8_encode c;
  char_scalar : is_scalar c = true
}.

Ltac decide_range :=
  repeat match goal with
  | H : in_range _ _ _ = true |- _ => unfold in_range in H; bool_to_prop
  | H : cont _ = true |- _ => unfold cont, in_range in H; bool_to_prop
  end.

Lemma in_range_true lo hi b : lo <= b <= hi -> in_range lo hi b = true.
Proof. intros. unfold in_range. rewrite andb_true_iff, !Z.leb_le. lia. Qed.
Lemma in_range_false lo hi b : b < lo \/ hi < b -> in_range lo hi b = false.
Proof. intros. unfold in_range. rewrite andb_false_iff, !Z.leb_gt. lia. Qed.

Ltac bytes_of_scalar :=
  unfold utf8_encode;
  repeat match goal with
  | |- context [?a <? ?b] => destruct (Z.ltb_spec a b); try lia
  end; repeat f_equal; Z.to_euclidean_division_equations; lia.

Lemma utf8_ascii a : in_range 0 0x7f a = true -> utf8_char [a] a.
Proof.
  intros H. constructor.
  - intros y. cbn [app utf8_chars]. by rewrite H.
  - decide_range. exists a, []. splits; try done. apply in_range_false. lia.
  - decide_range. unfold utf8_encode. by rewrite (proj2 (Z.ltb_lt _ _)) by lia.
  - decide_range. unfold is_scalar. by rewrite in_range_true by lia.
Qed.

Lemma utf8_two a b :
  in_range 0xc2 0xdf a = true -> cont b = true -> utf8_char [a; b] ((a - 0xc0) * 64 + (b - 0x80)).
Proof.
  intros Ha Hb. constructor.
  - intros y. cbn [app utf8_chars]. rewrite (in_range_false 0 0x7f) by (decide_range; lia).
    by rewrite Ha, Hb.
  - exists a, [b]. splits; try done; [|by repeat constructor].
    decide_range. apply in_range_false. lia.
  - decide_range. bytes_of_scalar.
  - decide_range. unfold is_scalar. by rewrite in_range_true by lia.
Qed.

Lemma utf8_three a b c :
  in_range 0xe0 0xef a = true -> cont b = true -> cont c = true ->
  (a = 0xe0 -> 0xa0 <= b) -> (a = 0xed -> b <= 0x9f) ->
  utf8_char [a; b; c] ((a - 0xe0) * 4096 + (b - 0x80) * 64 + (c - 0x80)).
Proof.
  intros Ha Hb Hc Hlo Hhi. constructor.
  - intros y. cbn [app utf8_chars]. rewrite (in_range_false 0 0x7f), (in_range_false 0xc2 0xdf) by (decide_range; lia).
    assert ((a =? 0xe0) && in_range 0xa0 0xbf b || in_range 0xe1 0xec a && cont b ||
            (a =? 0xed) && in_range 0x80 0x9f b || in_range 0xee 0xef a && cont b = true) as ->.
    { destruct (Z.eqb_spec a 0xe0); [by rewrite (in_range_true 0xa0 0xbf b) by (decide_range; lia)|].
      destruct (Z.eqb_spec a 0xed); [subst; rewrite (in_range_true 0x80 0x9f) by (decide_range; lia); by rewrite !orb_true_r|].
      rewrite Hb, !andb_true_r. destruct (Z.le_gt_cases a 0xec).
      - rewrite (in_range_true 0xe1 0xec a) by (decide_range; lia). by rewrite !orb_true_r.
      - rewrite (in_range_true 0xee 0xef a) by (decide_range; lia). by rewrite !orb_true_r. }
    by rewrite Hc.
  - exists a, [b; c]. splits; try done; [|by repeat constructor].
    decide_range. apply in_range_false. lia.
  - decide_range. assert (0xa0 <= b \/ 0xe0 < a) by lia. bytes_of_scalar.
  - decide_range. unfold is_scalar. rewrite orb_true_iff.
    destruct (Z.le_gt_cases a 0xed); [|right; apply in_range_true; lia].
    left. apply in_range_true. assert (a = 0xed \/ a < 0xed) as [->|] by lia; lia.
Qed.

Lemma utf8_four a b c d :
  in_range 0xf0 0xf4 a = true -> cont b = true -> cont c = true -> cont d = true ->
  (a = 0xf0 -> 0x90 <= b) -> (a = 0xf4 -> b <= 0x8f) ->
  utf8_char [a; b; c; d] ((a - 0xf0) * 262144 + (b - 0x80) * 4096 + (c - 0x80) * 64 + (d - 0x80)).
Proof.
  intros Ha Hb Hc Hd Hlo Hhi. constructor.
  - intros y. cbn [app utf8_chars]. rewrite (in_range_false 0 0x7f), (in_range_false 0xc2 0xdf) by (decide_range; lia).
    rewrite (in_range_false 0xe1 0xec), (in_range_false 0xee 0xef) by (decide_range; lia).
    rewrite (proj2 (Z.eqb_neq a 0xe0)), (proj2 (Z.eqb_neq a 0xed)) by (decide_range; lia). cbn [andb orb].
    assert ((a =? 0xf0) && in_range 0x90 0xbf b || in_range 0xf1 0xf3 a && cont b ||
            (a =? 0xf4) && in_range 0x80 0x8f b = true) as ->.
    { destruct (Z.eqb_spec a 0xf0); [by rewrite (in_range_true 0x90 0xbf b) by (decide_range; lia)|].
      destruct (Z.eqb_spec a 0xf4); [subst; rewrite (in_range_true 0x80 0x8f) by (decide_range; lia); by rewrite !orb_true_r|].
      rewrite Hb, (in_range_true 0xf1 0xf3 a) by (decide_range; lia). by rewrite orb_true_r. }
    by rewrite Hc, Hd.
  - exists a, [b; c; d]. splits; try done; [|by repeat constructor].
    decide_range. apply in_range_false. lia.
  - decide_range. assert (0x90 <= b \/ 0xf0 < a) by lia. bytes_of_scalar.
  - decide_range. unfold is_scalar. rewrite orb_true_iff. right. apply in_range_true.
    assert (a = 0xf4 \/ a < 0xf4) by lia. assert (a = 0xf0 \/ 0xf0 < a) by lia. lia.
Qed.

(** A non-empty string begins with a character. *)
Lemma utf8_uncons l c cs :
  utf8_chars l = Some (c :: cs) -> exists s y, l = s ++ y /\ utf8_char s c /\ utf8_chars y = Some cs.
Proof.
  destruct l as [|a l]; [done|]. cbn [utf8_chars].
  assert (forall s d y, utf8_char s d -> cons d <$> utf8_chars y = Some (c :: cs) ->
    exists s' y', s ++ y = s' ++ y' /\ utf8_char s' c /\ utf8_chars y' = Some cs) as Hfin.
  { intros s d y Hs E. destruct (utf8_chars y) as [ds|] eqn:Ey; [|done]. injection E as -> ->.
    by exists s, y. }
  destruct (in_range 0 0x7f a) eqn:Ha; [intros E; by apply (Hfin [a] a l (utf8_ascii a Ha))|].
  destruct l as [|b l]; [done|].
  destruct (in_range 0xc2 0xdf a) eqn:Ha2.
  { destruct (cont b) eqn:Hb; [|done]. by apply (Hfin [a; b] _ l (utf8_two a b Ha2 Hb)). }
  destruct l as [|d l]; [done|].
  destruct ((a =? 0xe0) && in_range 0xa0 0xbf b || in_range 0xe1 0xec a && cont b ||
            (a =? 0xed) && in_range 0x80 0x9f b || in_range 0xee 0xef a && cont b) eqn:Ha3.
  { destruct (cont d) eqn:Hd; [|done]. apply (Hfin [a; b; d] _ l). clear Hfin.
    repeat setoid_rewrite orb_true_iff in Ha3. repeat setoid_rewrite andb_true_iff in Ha3.
    destruct Ha3 as [[[[H1%Z.eqb_eq H2]|[H1 H2]]|[H1%Z.eqb_eq H2]]|[H1 H2]]; decide_range.
    all: apply utf8_three; try done; try (apply in_range_true); lia. }
  destruct l as [|e l]; [done|].
  destruct ((a =? 0xf0) && in_range 0x90 0xbf b || in_range 0xf1 0xf3 a && cont b ||
            (a =? 0xf4) && in_range 0x80 0x8f b) eqn:Ha4; [|done].
  destruct (cont d) eqn:Hd; [|done]. destruct (cont e) eqn:He; [|done]. cbn [andb].
  apply (Hfin [a; b; d; e] _ l). clear Hfin.
  repeat setoid_rewrite orb_true_iff in Ha4. repeat setoid_rewrite andb_true_iff in Ha4.
  destruct Ha4 as [[[H1%Z.eqb_eq H2]|[H1 H2]]|[H1%Z.eqb_eq H2]]; decide_range.
  all: apply utf8_four; try done; try (apply in_range_true); lia.
Qed.

Lemma utf8_nil l : utf8_chars l = Some [] -> l = [].
Proof.
  destruct l as [|a l]; [done|]. cbn [utf8_chars]. intros H. exfalso. revert H.
  repeat (case_match; try done); (destruct (utf8_chars _); [|done]); done.
Qed.

(** ** Concatenation *)

Lemma utf8_app x y cx : utf8_chars x = Some cx -> utf8_chars (x ++ y) = app cx <$> utf8_chars y.
Proof.
  revert x. induction cx as [|c cx IH]; intros x Hx.
  - apply utf8_nil in Hx as ->. cbn [app]. by destruct (utf8_chars y).
  - apply utf8_uncons in Hx as (s & x' & -> & Hs & Hx). rewrite <- app_assoc, (char_reads _ _ Hs), (IH x' Hx).
    by destruct (utf8_chars y).
Qed.

(** The text after a boundary begins a character. *)
Definition starts_char (y : bytes) : Prop := match y with [] => True | b :: _ => cont b = false end.

Lemma utf8_split x y cs :
  utf8_chars (x ++ y) = Some cs -> starts_char y ->
  exists cx cy, utf8_chars x = Some cx /\ utf8_chars y = Some cy /\ cs = cx ++ cy.
Proof.
  revert x. induction cs as [|c cs IH]; intros x E Hy.
  - apply utf8_nil, app_nil in E as [-> ->]. by exists [], [].
  - destruct x as [|a x]; [by exists [], (c :: cs)|].
    apply utf8_uncons in E as (s & y' & E & Hs & Hcs).
    destruct (char_shape _ _ Hs) as (h & t & -> & Hh & Ht). injection E as <- E.
    apply app_eq_inv in E as [(z & -> & ->)|(z & -> & ->)].
    + destruct (IH z Hcs Hy) as (cx & cy & H1 & H2 & ->). exists (c :: cx), cy. splits; [|done|done].
      pose proof (char_reads _ _ Hs z) as H. rewrite H1 in H. done.
    + destruct z as [|b z].
      * rewrite app_nil_l in *. exists [c], cs. splits; try done.
        pose proof (char_reads _ _ Hs []) as H. by rewrite !app_nil_r in H.
      * exfalso. apply Forall_app in Ht as [_ Ht]. apply Forall_cons in Ht as [Hb _].
        cbn [starts_char app] in Hy. congruence.
Qed.

Lemma is_utf8_chars l : is_utf8 l = true <-> exists cs, utf8_chars l = Some cs.
Proof. unfold is_utf8. destruct (utf8_chars l); naive_solver. Qed.

Lemma is_utf8_split x y : is_utf8 (x ++ y) = true -> starts_char y -> is_utf8 x = true /\ is_utf8 y = true.
Proof.
  rewrite !is_utf8_chars. intros [cs E] Hy.
  destruct (utf8_split x y cs E Hy) as (cx & cy & ? & ? & _). split; eauto.
Qed.

Lemma is_utf8_app x y : is_utf8 x = true -> is_utf8 y = true -> is_utf8 (x ++ y) = true.
Proof.
  rewrite !is_utf8_chars. intros [cx Hx] [cy Hy]. exists (cx ++ cy). by rewrite (utf8_app x y cx Hx), Hy.
Qed.

Lemma is_utf8_cons_ascii b y : in_range 0 0x7f b = true -> is_utf8 (b :: y) = is_utf8 y.
Proof.
  intros Hb. unfold is_utf8. change (b :: y) with ([b] ++ y). rewrite (char_reads _ _ (utf8_ascii b Hb)).
  by destruct (utf8_chars y).
Qed.

Lemma ascii_utf8 l y : Forall (fun b => in_range 0 0x7f b = true) l -> is_utf8 (l ++ y) = is_utf8 y.
Proof. induction 1 as [|b l Hb _ IH]; [done|]. cbn [app]. by rewrite is_utf8_cons_ascii. Qed.

Lemma utf8_starts l : is_utf8 l = true -> starts_char l.
Proof.
  rewrite is_utf8_chars. intros [[|c cs] E]; [by apply utf8_nil in E as ->|].
  apply utf8_uncons in E as (s & y & -> & Hs & _). by destruct (char_shape _ _ Hs) as (a & t & -> & ? & _).
Qed.

(** ** [String::push] *)

Lemma utf8_encode_reads c : is_scalar c = true -> utf8_char (utf8_encode c) c.
Proof.
  unfold is_scalar. rewrite orb_true_iff. intros Hc.
  assert (0 <= c <= 0xd7ff \/ 0xe000 <= c <= 0x10ffff) as Hr.
  { destruct Hc as [Hc|Hc]; decide_range; [by left|by right]. }
  clear Hc. unfold utf8_encode.
  destruct (Z.ltb_spec c 0x80); [apply utf8_ascii, in_range_true; lia|].
  destruct (Z.ltb_spec c 0x800).
  { replace c with ((0xc0 + c / 64 - 0xc0) * 64 + (0x80 + c mod 64 - 0x80)) at 3
      by (Z.to_euclidean_division_equations; lia).
    apply utf8_two; [|unfold cont]; apply in_range_true; Z.to_euclidean_division_equations; lia. }
  destruct (Z.ltb_spec c 0x10000).
  { replace c with ((0xe0 + c / 4096 - 0xe0) * 4096 + (0x80 + c / 64 mod 64 - 0x80) * 64 + (0x80 + c mod 64 - 0x80)) at 4
      by (Z.to_euclidean_division_equations; lia).
    apply utf8_three; unfold cont; try apply in_range_true; Z.to_euclidean_division_equations; lia. }
  replace c with ((0xf0 + c / 262144 - 0xf0) * 262144 + (0x80 + c / 4096 mod 64 - 0x80) * 4096
    + (0x80 + c / 64 mod 64 - 0x80) * 64 + (0x80 + c mod 64 - 0x80)) at 5
    by (Z.to_euclidean_division_equations; lia).
  apply utf8_four; unfold cont; try apply in_range_true; Z.to_euclidean_division_equations; lia.
Qed.

Lemma is_utf8_encode c : is_scalar c = true -> is_utf8 (utf8_encode c) = true.
Proof.
  intros Hc. apply is_utf8_chars. exists [c].
  pose proof (char_reads _ _ (utf8_encode_reads c Hc) []) as H. by rewrite app_nil_r in H.
Qed.

(** ** Slices *)

Lemma boundary_at x y : starts_char y -> is_char_boundary (x ++ y) (len x) = true.
Proof.
  intros Hy. unfold is_char_boundary. destruct (Z.eqb_spec (len x) 0); [done|].
  destruct y as [|b y].
  - rewrite app_nil_r. unfold get_at. by rewrite Z.ltb_irrefl, andb_false_r, Z.eqb_refl.
  - assert (get_at (x ++ b :: y) (len x) = Some b) as ->.
    { apply get_at_Some. split; [lia|]. rewrite Nat2Z.id, lookup_app_r by lia. by rewrite Nat.sub_diag. }
    cbn [starts_char] in Hy. by rewrite Hy.
Qed.

Lemma boundary_split l a :
  is_char_boundary l a = true -> is_utf8 l = true -> 0 <= a ->
  exists x y, l = x ++ y /\ len x = a /\ starts_char y.
Proof.
  unfold is_char_boundary. intros H Hl Ha. destruct (Z.eqb_spec a 0) as [E0|Hne].
  { exists [], l. splits; [done|by rewrite E0|by apply utf8_starts]. }
  destruct (get_at l a) as [b|] eqn:E.
  - apply get_at_Some in E as [_ E]. apply list_elem_of_split_length in E as (x & y & -> & Hx).
    exists x, (b :: y). splits; [done|lia|]. by apply negb_true_iff in H.
  - apply Z.eqb_eq in H as ->. exists l, []. by rewrite app_nil_r.
Qed.

(** A slice between characters. *)
Lemma str_get_mid x y z :
  starts_char (y ++ z) -> starts_char z -> str_get (x ++ y ++ z) (len x) (len x + len y) = Some y.
Proof.
  intros H1 H2. unfold str_get. rewrite boundary_at by done.
  replace (is_char_boundary (x ++ y ++ z) (len x + len y)) with true.
  - apply get_range_mid; lia.
  - symmetry. rewrite app_assoc. replace (len x + len y) with (len (x ++ y)) by (rewrite length_app; lia).
    by apply boundary_at.
Qed.

Lemma str_get_utf8 l a b x : is_utf8 l = true -> str_get l a b = Some x -> is_utf8 x = true.
Proof.
  unfold str_get. intros Hl. destruct (is_char_boundary l a) eqn:Ha; [|done].
  destruct (is_char_boundary l b) eqn:Hb; [|done]. cbn [andb]. intros Hx.
  apply get_range_Some in Hx as [H0 (p & q & -> & Hp & Hq)].
  destruct (boundary_split _ _ Ha Hl H0) as (p' & q' & E & Hp' & Hs).
  apply app_inj_1 in E as [<- E]; [|lia]. subst q'.
  apply is_utf8_split in Hl as [_ Hl]; [|done].
  assert (starts_char q) as Hs'.
  { rewrite app_assoc in Hb. unfold is_char_boundary in Hb. destruct (Z.eqb_spec b 0).
    - assert (x = []) as -> by (destruct x; [done|cbn [length] in *; lia]). done.
    - destruct q as [|c q]; [done|]. cbn [starts_char].
      assert (get_at ((p ++ x) ++ c :: q) b = Some c) as E.
      { apply get_at_Some. split; [lia|]. rewrite lookup_app_r by (rewrite length_app; lia).
        rewrite length_app. by replace (Z.to_nat b - _)%nat with 0%nat by lia. }
      rewrite E in Hb. by apply negb_true_iff in Hb. }
  by apply is_utf8_split in Hl as [? _].
Qed.
