(* ===== verification/Grammar.v ===== *)
(** * The grammar of functional-syntax documents

    A reference reader for the parser of [Functional]: what a list of tokens
    denotes, as canonical components.  The forms of class expressions, data
    ranges, rule atoms and axioms are tables from keywords to a tag and a list
    of argument shapes; there are no nodes, limits, sessions or positions in
    it.  [fuel] bounds the recursion; every level of it takes a token. *)

From S2P Require Import Prelude Bytes Error Machine Schema Lexical Scan Varint Component Encode Tokenizer Functional.

(** A reader consumes tokens. *)
Notation Reader := (M (list Token)).

(** ** Components *)

Definition iri_component (text : bytes) : component := Component 1 [PText text].
Definition entity_component (kind : EntityKind) (iri : component) : component :=
  Component 2 [PKind kind; PComponent iri].
Definition anonymous_component (label : bytes) : component :=
  Component 3 [PBytes PROVISIONAL_SCOPE; PBytes (LEXICAL_KEY ++ frame label)].
Definition literal_component (lexical : bytes) (datatype : component) (language : option bytes) : component :=
  Component 4 [PText lexical; PComponent datatype;
               match language with Some l => PText l | None => PNull end].
Definition plain_literal : component := entity_component KDatatype (iri_component RDF_PLAIN_LITERAL).

(** The members of a set: flattened, in the order of their encodings, once each. *)
Definition component_le (c d : component) : Prop := bytes_le (encode c) (encode d).
#[export] Instance component_le_dec : RelDecision component_le.
Proof. intros c d. unfold component_le. apply _. Defined.

Fixpoint distinct_after (kept : component) (cs : list component) : list component :=
  match cs with
  | [] => []
  | c :: cs =>
      if bytes_eqb (encode c) (encode kept) then distinct_after kept cs else c :: distinct_after c cs
  end.
Definition distinct (cs : list component) : list component :=
  match cs with [] => [] | c :: cs => c :: distinct_after c cs end.

Definition flat_members (flatten_tag : option Z) (c : component) : list component :=
  match c with
  | Component t (PSet cs :: _) => if bool_decide (flatten_tag = Some t) then cs else [c]
  | _ => [c]
  end.

Definition set_of (flatten_tag : option Z) (cs : list component) : list component :=
  distinct (merge_sort component_le (concat (map (flat_members flatten_tag) cs))).

(** ** IRI escapes *)

(** A backslash starts [\uXXXX] or [\UXXXXXXXX]; other bytes stand for themselves. *)
Definition escape_width (marker : Z) : option nat :=
  if marker =? 117 then Some 4%nat else if marker =? 85 then Some 8%nat else None.

Definition escaped_scalar (digits : bytes) (width : nat) : option Z :=
  if (length digits =? width)%nat && forallb is_ascii_hexdigit digits then
    let c := foldl (fun n b => n * 16 + hex_value b) 0 digits in
    if is_scalar c then Some c else None
  else None.

Fixpoint unescape_loop (n : nat) (l : bytes) : option bytes :=
  match l, n with
  | [], _ => Some []
  | _, O => None
  | b :: l, S n =>
      if b =? 92 then
        match l with
        | marker :: l =>
            width ← escape_width marker;
            c ← escaped_scalar (take width l) width;
            app (utf8_encode c) <$> unescape_loop n (drop width l)
        | [] => None
        end
      else cons b <$> unescape_loop n l
  end.
Definition unescape (l : bytes) : option bytes := unescape_loop (length l) l.

Section Grammar.
Context (fuel : nat) (names : gmap bytes bytes) (allow_swrl : bool).

(** ** Tokens *)

Definition look_token : Reader Token := ts ← get; lift (ok_or (head ts) syntax).
Definition next_token : Reader Token := t ← look_token; ts ← get; put (tail ts);; mret t.
Definition token (k : Kind) : Reader Token :=
  t ← look_token; ensure_not (negb (bool_decide (kind t = k))) syntax;; next_token.
Definition keyword (name : string) : Reader Token :=
  t ← token KWord; ensure_not (negb (is_name (token_value t) name)) syntax;; mret t.
Definition open_token : Reader unit := _ ← token KOpen; mret tt.
Definition close_token : Reader unit := _ ← token KClose; mret tt.

(** Tests that consume nothing. *)
Definition test (b : Token -> bool) : Reader bool := t ← look_token; mret (b t).
Definition is_kind (k : Kind) (t : Token) : bool := bool_decide (kind t = k).
Definition is_word (name : string) (t : Token) : bool :=
  bool_decide (kind t = KWord) && is_name (token_value t) name.
Definition is_iri_token (t : Token) : bool := is_kind KIri t || is_prefixed_name t.

(** The word that an opening parenthesis follows. *)
Definition head_name : Reader (option bytes) :=
  t ← look_token;
  ts ← get;
  mret (if bool_decide (kind t = KWord) &&
           match ts !! 1%nat with Some t' => bool_decide (kind t' = KOpen) | None => false end
        then Some (token_value t) else None).

Definition within {A} (r : Reader A) : Reader A := open_token;; a ← r; close_token;; mret a.

(** ** Terminals *)

(** The IRI a token stands for. *)
Definition token_iri (t : Token) : option bytes :=
  if is_kind KIri t then unescape (token_value t)
  else if is_prefixed_name t then
    match split_once 58 (token_value t) with
    | Some (prefix, local) =>
        base ← names !! prefix; local ← unescape local; Some (base ++ local)
    | None => None
    end
  else None.

Definition read_iri : Reader component :=
  t ← look_token;
  ensure_not (negb (is_iri_token t)) syntax;;
  _ ← next_token;
  text ← lift (ok_or (token_iri t) syntax);
  mret (iri_component text).
Definition read_entity (k : EntityKind) : Reader component := c ← read_iri; mret (entity_component k c).

Definition read_individual : Reader component :=
  blank ← test is_blank_label;
  if (blank : bool) then
    t ← next_token;
    let label := drop 2 (token_value t) in
    ensure_not (len label =? 0) syntax;;
    mret (anonymous_component label)
  else read_entity KNamedIndividual.

Definition read_object_property : Reader component :=
  inverse ← test (is_word "ObjectInverseOf");
  if (inverse : bool) then
    _ ← next_token;
    property ← within (read_entity KObjectProperty);
    mret (Component 10 [PComponent property])
  else read_entity KObjectProperty.

Definition read_literal : Reader component :=
  lexical ← token KString;
  language ← test (is_kind KLanguage);
  if (language : bool) then
    l ← next_token;
    mret (literal_component (token_value lexical) plain_literal
            (Some (to_ascii_lowercase (token_value l))))
  else
    hat ← test (is_kind KHat);
    datatype ← (if (hat : bool) then _ ← next_token; read_entity KDatatype else mret plain_literal);
    mret (literal_component (token_value lexical) datatype None).

Definition read_subject : Reader component :=
  blank ← test is_blank_label; if (blank : bool) then read_individual else read_iri.
Definition read_value : Reader component :=
  string ← test (is_kind KString); if (string : bool) then read_literal else read_subject.

(** ** Collections *)

(** Everything up to the closing parenthesis. *)
Fixpoint read_many_loop (n : nat) (r : Reader component) (cs : list component) : Reader (list component) :=
  done ← test (is_kind KClose);
  if (done : bool) then mret cs else
  match n with
  | O => lift Panic
  | S n => c ← r; read_many_loop n r (cs ++ [c])
  end.
Definition read_many (r : Reader component) : Reader (list component) := read_many_loop fuel r [].

Definition at_least (minimum : Z) (cs : list component) : Reader (list component) :=
  ensure_not (len cs <? minimum) syntax;; mret cs.
Definition read_set (r : Reader component) (minimum : Z) : Reader (list component) :=
  cs ← read_many r; at_least minimum (set_of None cs).

(** An operator that is idempotent, associative and commutative. *)
Definition read_operator (r : Reader component) (t : Z) : Reader component :=
  cs ← read_many r;
  _ ← at_least 2 cs;
  operands ← at_least 1 (set_of (Some t) cs);
  close_token;;
  match operands with [c] => mret c | _ => mret (Component t [PSet operands]) end.

Fixpoint read_annotations_loop (n : nat) (r : Reader component) (cs : list component)
    : Reader (list component) :=
  more ← test (is_word "Annotation");
  if (more : bool) then
    match n with
    | O => lift Panic
    | S n => c ← r; read_annotations_loop n r (cs ++ [c])
    end
  else mret cs.
Definition read_annotations_with (r : Reader component) : Reader (list component) :=
  cs ← read_annotations_loop fuel r []; mret (set_of None cs).

Fixpoint read_annotation_fuel (n : nat) : Reader component :=
  match n with
  | O => lift Panic
  | S n =>
      _ ← keyword "Annotation";
      within (
        annotations ← read_annotations_with (read_annotation_fuel n);
        property ← read_entity KAnnotationProperty;
        value ← read_value;
        mret (Component 5 [PComponent property; PComponent value; PSet annotations]))
  end.
Definition read_annotation : Reader component := read_annotation_fuel (S fuel).
Definition read_annotations : Reader (list component) := read_annotations_with read_annotation.

(** ** Argument shapes *)

Inductive shape :=
  | One (r : Reader component)
  | Some_of (r : Reader component) (minimum : Z)        (* a set up to the end *)
  | Chain (r : Reader component) (minimum : Z)          (* a sequence up to the end *)
  | Number
  | Otherwise (r : Reader component) (default : component)
  | Unordered (r : Reader component)                    (* two, in the order of their encodings *)
  | Keys (r s : Reader component)                       (* two groups, not both empty *)
  | Path (range : Reader component).                    (* data properties, then a range *)

Definition otherwise (r : Reader component) (c : component) : Reader component :=
  closed ← test (is_kind KClose); if (closed : bool) then mret c else r.

(** A range that is a name is told from a property by what follows it. *)
Fixpoint read_path (n : nat) (range : Reader component) (properties : list component)
    : Reader (list component * component) :=
  done ← test (is_kind KClose);
  if (done : bool) then throw syntax else
  match n with
  | O => lift Panic
  | S n =>
      name ← head_name;
      if match name with Some name => data_range_constructor name | None => false end then
        _ ← at_least 1 properties;
        c ← range;
        mret (properties, c)
      else
        iri ← read_iri;
        done ← test (is_kind KClose);
        if (done : bool) then
          _ ← at_least 1 properties;
          mret (properties, entity_component KDatatype iri)
        else read_path n range (properties ++ [entity_component KDataProperty iri])
  end.

Definition in_order (c d : component) : list part :=
  if bytes_ltb (encode d) (encode c) then [PComponent d; PComponent c] else [PComponent c; PComponent d].

Definition read_shape (s : shape) : Reader (list part) :=
  match s with
  | One r => c ← r; mret [PComponent c]
  | Some_of r minimum => cs ← read_set r minimum; mret [PSet cs]
  | Chain r minimum => cs ← read_many r; cs ← at_least minimum cs; mret [PSequence cs]
  | Number => t ← token KInteger; mret [PInteger (decimal_value (token_value t))]
  | Otherwise r c => c ← otherwise r c; mret [PComponent c]
  | Unordered r => c ← r; d ← r; mret (in_order c d)
  | Keys r s =>
      cs ← within (read_set r 0);
      ds ← within (read_set s 0);
      ensure_not ((len cs =? 0) && (len ds =? 0)) syntax;;
      mret [PSet cs; PSet ds]
  | Path range => found ← read_path fuel range []; mret [PSequence (fst found); PComponent (snd found)]
  end.

Fixpoint read_shapes (shapes : list shape) : Reader (list part) :=
  match shapes with
  | [] => mret []
  | s :: shapes => ps ← read_shape s; qs ← read_shapes shapes; mret (ps ++ qs)
  end.

(** The forms of a syntactic category: the tag and the arguments of a keyword. *)
Notation forms := (list (string * (Z * list shape))).

Definition read_form (table : forms) (name : bytes) : Reader (Z * list part) :=
  form ← lift (ok_or (named name table) syntax);
  ps ← read_shapes (snd form);
  mret (fst form, ps).

(** ** Data ranges and class expressions *)

Definition facet : Reader component :=
  f ← read_iri; v ← read_literal; mret (Component 20 [PComponent f; PComponent v]).

Definition data_range_forms (range : Reader component) : forms :=
  [("DataComplementOf", (23, [One range]));
   ("DataOneOf", (24, [Some_of read_literal 1]));
   ("DatatypeRestriction", (25, [One (read_entity KDatatype); Some_of facet 1]))]%string.

(** A call: an operator, or one of the forms. *)
Definition read_call (operators : list (string * Z)) (table : forms) (r : Reader component)
    (name : bytes) : Reader component :=
  _ ← next_token;
  open_token;;
  match named name operators with
  | Some t => read_operator r t
  | None =>
      built ← read_form table name;
      close_token;;
      mret (Component (fst built) (snd built))
  end.

Fixpoint read_data_range_fuel (n : nat) : Reader component :=
  match n with
  | O => lift Panic
  | S n =>
      let range := read_data_range_fuel n in
      name ← head_name;
      match name with
      | None => read_entity KDatatype
      | Some name =>
          read_call [("DataIntersectionOf", 21); ("DataUnionOf", 22)]%string
            (data_range_forms range) range name
      end
  end.
Definition read_data_range : Reader component := read_data_range_fuel (S fuel).

Definition class_forms (class : Reader component) : forms :=
  let object := read_object_property in
  let data := read_entity KDataProperty in
  let thing := entity_component KClass (iri_component OWL_THING) in
  let any_literal := entity_component KDatatype (iri_component RDFS_LITERAL) in
  [("ObjectComplementOf", (32, [One class]));
   ("ObjectOneOf", (33, [Some_of read_individual 1]));
   ("ObjectSomeValuesFrom", (34, [One object; One class]));
   ("ObjectAllValuesFrom", (35, [One object; One class]));
   ("ObjectHasValue", (36, [One object; One read_individual]));
   ("ObjectHasSelf", (37, [One object]));
   ("ObjectMinCardinality", (38, [Number; One object; Otherwise class thing]));
   ("ObjectMaxCardinality", (39, [Number; One object; Otherwise class thing]));
   ("ObjectExactCardinality", (40, [Number; One object; Otherwise class thing]));
   ("DataSomeValuesFrom", (41, [Path read_data_range]));
   ("DataAllValuesFrom", (42, [Path read_data_range]));
   ("DataHasValue", (43, [One data; One read_literal]));
   ("DataMinCardinality", (44, [Number; One data; Otherwise read_data_range any_literal]));
   ("DataMaxCardinality", (45, [Number; One data; Otherwise read_data_range any_literal]));
   ("DataExactCardinality", (46, [Number; One data; Otherwise read_data_range any_literal]))]%string.

Fixpoint read_class_fuel (n : nat) : Reader component :=
  match n with
  | O => lift Panic
  | S n =>
      let class := read_class_fuel n in
      name ← head_name;
      match (match name with
             | Some name => if is_class_expression_constructor name then Some name else None
             | None => None
             end) with
      | None => read_entity KClass
      | Some name =>
          read_call [("ObjectIntersectionOf", 30); ("ObjectUnionOf", 31)]%string
            (class_forms class) class name
      end
  end.
Definition read_class_expression : Reader component := read_class_fuel (S fuel).

(** ** Axioms *)

Definition read_declared : Reader component :=
  t ← token KWord;
  k ← lift (ok_or
    (named (token_value t)
       [("Class", KClass); ("Datatype", KDatatype); ("ObjectProperty", KObjectProperty);
        ("DataProperty", KDataProperty); ("AnnotationProperty", KAnnotationProperty);
        ("NamedIndividual", KNamedIndividual)]%string) syntax);
  within (read_entity k).

Definition read_sub_property : Reader component :=
  chain ← test (is_word "ObjectPropertyChain");
  if (chain : bool) then
    _ ← next_token;
    ps ← within (read_shape (Chain read_object_property 2));
    mret (Component 11 ps)
  else read_object_property.

(** The annotations of an axiom come after these arguments. *)
Definition axiom_forms : forms :=
  let class := read_class_expression in
  let object := read_object_property in
  let data := read_entity KDataProperty in
  let annotation := read_entity KAnnotationProperty in
  [("Declaration", (60, [One read_declared]));
   ("SubClassOf", (61, [One class; One class]));
   ("EquivalentClasses", (62, [Some_of class 2]));
   ("DisjointUnion", (64, [One (read_entity KClass); Some_of class 2]));
   ("SubObjectPropertyOf", (70, [One read_sub_property; One object]));
   ("EquivalentObjectProperties", (71, [Some_of object 2]));
   ("DisjointObjectProperties", (72, [Some_of object 2]));
   ("InverseObjectProperties", (73, [Unordered object]));
   ("ObjectPropertyDomain", (74, [One object; One class]));
   ("ObjectPropertyRange", (75, [One object; One class]));
   ("FunctionalObjectProperty", (76, [One object]));
   ("InverseFunctionalObjectProperty", (77, [One object]));
   ("ReflexiveObjectProperty", (78, [One object]));
   ("IrreflexiveObjectProperty", (79, [One object]));
   ("SymmetricObjectProperty", (80, [One object]));
   ("AsymmetricObjectProperty", (81, [One object]));
   ("TransitiveObjectProperty", (82, [One object]));
   ("SubDataPropertyOf", (90, [One data; One data]));
   ("EquivalentDataProperties", (91, [Some_of data 2]));
   ("DisjointDataProperties", (92, [Some_of data 2]));
   ("DataPropertyDomain", (93, [One data; One class]));
   ("DataPropertyRange", (94, [One data; One read_data_range]));
   ("FunctionalDataProperty", (95, [One data]));
   ("DatatypeDefinition", (100, [One (read_entity KDatatype); One read_data_range]));
   ("HasKey", (101, [One class; Keys object data]));
   ("SameIndividual", (110, [Some_of read_individual 2]));
   ("DifferentIndividuals", (111, [Some_of read_individual 2]));
   ("ClassAssertion", (112, [One class; One read_individual]));
   ("ObjectPropertyAssertion", (113, [One object; One read_individual; One read_individual]));
   ("NegativeObjectPropertyAssertion", (114, [One object; One read_individual; One read_individual]));
   ("DataPropertyAssertion", (115, [One data; One read_individual; One read_literal]));
   ("NegativeDataPropertyAssertion", (116, [One data; One read_individual; One read_literal]));
   ("AnnotationAssertion", (120, [One annotation; One read_subject; One read_value]));
   ("SubAnnotationPropertyOf", (121, [One annotation; One annotation]));
   ("AnnotationPropertyDomain", (122, [One annotation; One read_iri]));
   ("AnnotationPropertyRange", (123, [One annotation; One read_iri]))]%string.

(** Pairwise disjointness; a class listed twice is disjoint with itself. *)
Definition occurs_again (cs : list component) (c : component) : Prop :=
  (2 <= length (filter (fun d => encode d = encode c) cs))%nat.
#[export] Instance occurs_again_dec cs c : Decision (occurs_again cs c).
Proof. unfold occurs_again. apply _. Defined.

Definition disjoint_classes (cs annotations : list component) : list component :=
  let classes := set_of None cs in
  let nothing := entity_component KClass (iri_component OWL_NOTHING) in
  (if 2 <=? len classes then [Component 63 [PSet classes; PSet annotations]] else []) ++
  map (fun c => Component 61 [PComponent c; PComponent nothing; PSet annotations])
    (filter (occurs_again cs) classes).

(** Nothing for [DisjointClasses], which may stand for several axioms. *)
Definition axiom_form (name : bytes) : option (option (Z * list shape)) :=
  if is_name name "DisjointClasses" then Some None else Some <$> named name axiom_forms.

Definition read_axiom : Reader (list component) :=
  t ← token KWord;
  form ← lift (ok_or (axiom_form (token_value t)) syntax);
  open_token;;
  annotations ← read_annotations;
  match form with
  | None =>
      cs ← read_many read_class_expression;
      close_token;;
      _ ← at_least 2 cs;
      mret (disjoint_classes cs annotations)
  | Some (t, shapes) =>
      ps ← read_shapes shapes;
      close_token;;
      mret [Component t (ps ++ [PSet annotations])]
  end.

(** ** Rules *)

Definition read_variable : Reader component :=
  _ ← keyword "Variable"; c ← within read_iri; mret (Component 140 [PComponent c]).
Definition read_argument (r : Reader component) : Reader component :=
  variable ← test (is_word "Variable"); if (variable : bool) then read_variable else r.

Definition atom_forms : forms :=
  let individual := One (read_argument read_individual) in
  let data := One (read_argument read_literal) in
  [("ClassAtom", (141, [One read_class_expression; individual]));
   ("DataRangeAtom", (142, [One read_data_range; data]));
   ("ObjectPropertyAtom", (143, [One read_object_property; individual; individual]));
   ("DataPropertyAtom", (144, [One (read_entity KDataProperty); individual; data]));
   ("BuiltInAtom", (145, [One read_iri; Chain (read_argument read_literal) 0]));
   ("SameIndividualAtom", (146, [individual; individual]));
   ("DifferentIndividualsAtom", (147, [individual; individual]))]%string.

Definition read_atom : Reader component :=
  t ← token KWord;
  built ← within (read_form atom_forms (token_value t));
  mret (Component (fst built) (snd built)).

Definition read_rule : Reader component :=
  _ ← keyword "SWRLRule";
  within (
    annotations ← read_annotations;
    body ← within (read_set read_atom 0);
    head ← within (read_set read_atom 0);
    mret (Component 148 [PSet body; PSet head; PSet annotations])).
End Grammar.

(** ** Documents *)

Record Document := mkDocument {
  doc_ontology : option component;
  doc_version : option component;
  doc_imports : list component;
  doc_annotations : list (component * Span);
  doc_axioms : list (component * Span);
  doc_extensions : list (component * Span);
  doc_prefixes : gmap bytes bytes
}.

Section Document.
Context (fuel : nat) (allow_swrl : bool).

Definition read_prefix : Reader (bytes * bytes) :=
  _ ← keyword "Prefix";
  within (
    t ← token KWord;
    prefix ← lift (ok_or (if bool_decide (last (token_value t) = Some 58)
                          then Some (removelast (token_value t)) else None) syntax);
    _ ← token KEqual;
    raw ← token KIri;
    value ← lift (ok_or (unescape (token_value raw)) syntax);
    mret (prefix, value)).

(** Later declarations replace earlier ones. *)
Fixpoint read_prefixes (n : nat) (names : gmap bytes bytes) : Reader (gmap bytes bytes) :=
  more ← test (is_word "Prefix");
  if (more : bool) then
    match n with
    | O => lift Panic
    | S n => entry ← read_prefix; read_prefixes n (<[fst entry := snd entry]> names)
    end
  else mret names.

(** What a reader read, with the span from its first token to its last. *)
Definition spanned_by {A} (r : Reader A) : Reader (A * Span) :=
  start ← look_token;
  before ← get;
  a ← r;
  after ← get;
  end_ ← lift (ok_or (last (take (length before - length after) before)) syntax);
  mret (a, span_to start end_).

Section Body.
Context (names : gmap bytes bytes).

Definition read_header_iri : Reader (option component) :=
  iri ← test is_iri_token;
  if (iri : bool) then c ← read_iri names; mret (Some c) else mret None.
Definition read_header : Reader (option component * option component) :=
  ontology ← read_header_iri;
  match ontology with
  | Some _ => version ← read_header_iri; mret (ontology, version)
  | None => mret (None, None)
  end.

Definition add_import (d : Document) (c : component) : Document :=
  mkDocument (doc_ontology d) (doc_version d) (doc_imports d ++ [c]) (doc_annotations d)
    (doc_axioms d) (doc_extensions d) (doc_prefixes d).
Definition add_annotation (d : Document) (c : component * Span) : Document :=
  mkDocument (doc_ontology d) (doc_version d) (doc_imports d) (doc_annotations d ++ [c])
    (doc_axioms d) (doc_extensions d) (doc_prefixes d).
Definition add_axioms (d : Document) (cs : list component * Span) : Document :=
  mkDocument (doc_ontology d) (doc_version d) (doc_imports d) (doc_annotations d)
    (doc_axioms d ++ map (fun c => (c, snd cs)) (fst cs)) (doc_extensions d) (doc_prefixes d).
Definition add_extension (d : Document) (c : component * Span) : Document :=
  mkDocument (doc_ontology d) (doc_version d) (doc_imports d) (doc_annotations d)
    (doc_axioms d) (doc_extensions d ++ [c]) (doc_prefixes d).

Definition read_member (d : Document) : Reader Document :=
  t ← look_token;
  if is_word "Import" t then
    _ ← next_token; c ← within (read_iri names); mret (add_import d c)
  else if is_word "Annotation" t then
    c ← spanned_by (read_annotation fuel names); mret (add_annotation d c)
  else if is_word "SWRLRule" t then
    ensure_not (negb allow_swrl)
      (new "NATIVE_EXTENSION_DISABLED" "native SWRL parsing requires explicit enablement");;
    c ← spanned_by (read_rule fuel names); mret (add_extension d c)
  else
    cs ← spanned_by (read_axiom fuel names); mret (add_axioms d cs).

Fixpoint read_members (n : nat) (d : Document) : Reader Document :=
  done ← test (is_kind KClose);
  if (done : bool) then mret d else
  match n with O => lift Panic | S n => d ← read_member d; read_members n d end.
End Body.

(** The whole document, up to the end of the source. *)
Definition read_document_fuel : Reader Document :=
  names ← read_prefixes fuel initial_prefixes;
  _ ← keyword "Ontology";
  open_token;;
  header ← read_header names;
  d ← read_members names fuel
        (mkDocument (fst header) (snd header) [] [] [] [] names);
  close_token;;
  _ ← token KEof;
  mret d.
End Document.

(** What a list of tokens denotes, or the error it deserves. *)
Definition read_document (allow_swrl : bool) (ts : list Token) : outcome Document :=
  fst (read_document_fuel (length ts) allow_swrl ts).
