(* ===== verification/ParseResult.v ===== *)
(** * The result frame of the parser ([native/src/parse/mod.rs])

    [ParsedDocument::encode] validates every row of a parsed document with the
    canonical scanner and writes the [PYNFSSR1] frame; [parse] is the whole
    native operation.  [parse_retained] is not modelled. *)

From S2P Require Import Prelude Bytes Error Machine Limits Cancel Session Source Varint Schema Scan Encode Tokenizer Functional.

Definition RESULT_MAGIC : bytes := str "PYNFSSR1".
Definition RESULT_SCHEMA : Z := 1.
Definition FORMAT_FUNCTIONAL : Z := 4.

(** [checked_add] *)
Definition size_add (left right : Z) : outcome Z :=
  ok_or (checked_add USIZE_MAX left right) (limit "native parser result size overflow").

(** [varint_size]: a [usize] has at most ten base-128 digits. *)
Fixpoint varint_size_loop (n : nat) (value size : Z) : outcome Z :=
  if 0x80 <=? value then
    match n with O => Panic | S n => varint_size_loop n (Z.shiftr value 7) (size + 1) end
  else Ok size.
Definition varint_size (value : Z) : outcome Z := varint_size_loop 10 value 1.

(** [frame_size] *)
Definition frame_size (size : Z) : outcome Z := v ← varint_size size; size_add v size.

(** [size = checked_add(size, frame_size(len)?)?] *)
Definition add_frame (size length : Z) : outcome Z := frame ← frame_size length; size_add size frame.

(** ** The size of the frame *)

Definition optional_size (value : option Node) (size : Z) : outcome Z :=
  size ← size_add size 1;
  match value with Some node => add_frame size (len (node_encoded node)) | None => mret size end.
Definition spanned_size (values : list SpannedNode) (size : Z) : outcome Z :=
  size ← size_add size 8;
  ofor_each (fun value size =>
    size ← size_add size 32; add_frame size (len (node_encoded (spanned value)))) values size.

(** [ParsedDocument::encoded_size] *)
Definition encoded_size (d : ParsedDocument) : outcome Z :=
  size ← optional_size (ontology_iri d) 20;
  size ← optional_size (version_iri d) size;
  size ← size_add size 8;
  size ← ofor_each (fun value size => add_frame size (len (node_encoded value))) (imports d) size;
  size ← spanned_size (annotations d) size;
  size ← spanned_size (axioms d) size;
  size ← spanned_size (extensions d) size;
  size ← size_add size 8;
  ofor_each (fun '(prefix, iri) size =>
    size ← add_frame size (len prefix); add_frame size (len iri)) (document_prefixes d) size.

(** ** Validation *)

(** [validate_category] *)
Definition validate_category (expected : Category) (node : Node) : M ScanBudget unit := fun b =>
  match scan_canonical (node_encoded node) b with
  | (Ok category, b) =>
      (fail_if (negb (bool_decide (category = expected)))
         (protocol "native parser produced an invalid result partition"), b)
  | (Err e, b) =>
      (Err (if String.eqb (code e) "NATIVE_WIRE_CORRUPTION" then
              new "NATIVE_FORMAT_SYNTAX" "native Functional Syntax value violates the structural model"
            else e), b)
  | (Panic, b) => (Panic, b)
  end.

Definition validate_nodes (expected : Category) (nodes : list Node) : M ScanBudget unit :=
  for_each (fun node (_ : unit) => validate_category expected node) nodes tt.

(** The IRIs of the header and the imports. *)
Definition document_iris (d : ParsedDocument) : list Node :=
  option_list (ontology_iri d) ++ option_list (version_iri d) ++ imports d.

Definition validate_rows (d : ParsedDocument) : M ScanBudget unit :=
  validate_nodes CIri (document_iris d);;
  validate_nodes CAnnotation (map spanned (annotations d));;
  validate_nodes CAxiom (map spanned (axioms d));;
  validate_nodes CSwrl (map spanned (extensions d)).

(** The bytes the document retains. *)
Definition retained_size (d : ParsedDocument) : outcome Z :=
  retained ← ofor_each (fun value total =>
      ok_or (checked_add USIZE_MAX total (len (node_encoded value)))
        (limit "native parser model size overflow"))
    (document_iris d ++ map spanned (annotations d) ++ map spanned (axioms d)
       ++ map spanned (extensions d)) 0;
  ofor_each (fun '(prefix, iri) retained =>
    retained ← size_add retained (len prefix); size_add retained (len iri))
    (document_prefixes d) retained.

(** [ParsedDocument::validate]; the budget lives as long as the call. *)
Definition validate_document (d : ParsedDocument) : M Session unit :=
  s ← get;
  lift (fst (validate_rows d (from_limits (limits s))));;
  retained ← lift (retained_size d);
  reserve_bytes retained.

(** ** The frame *)

(** [u64::try_from(values.len())?.to_le_bytes()] *)
Definition encode_count (message : string) (count : Z) : M World bytes :=
  count ← lift (ok_or (try_from U64_MAX count) (limit message));
  mret (to_le_bytes 8 count).

(** [encode_optional], [encode_nodes], [encode_spanned]: the bytes appended. *)
Definition encode_optional (value : option Node) : M World bytes :=
  match value with
  | Some node => framed ← encode_frame (node_encoded node); mret (1 :: framed)
  | None => mret [0]
  end.
Definition encode_nodes (values : list Node) : M World bytes :=
  count ← encode_count "native parser row count exceeds u64" (len values);
  for_each (fun value output =>
    framed ← encode_frame (node_encoded value); mret (output ++ framed)) values count.
Definition span_bytes (s : Span) : bytes :=
  to_le_bytes 8 (span_start s) ++ to_le_bytes 8 (span_end s)
    ++ to_le_bytes 8 (span_line s) ++ to_le_bytes 8 (span_column s).
Definition encode_spanned (values : list SpannedNode) : M World bytes :=
  count ← encode_count "native parser row count exceeds u64" (len values);
  for_each (fun value output =>
    framed ← encode_frame (node_encoded (spanned value));
    mret (output ++ span_bytes (span value) ++ framed)) values count.
Definition encode_prefixes (entries : list (bytes * bytes)) : M World bytes :=
  count ← encode_count "native prefix count exceeds u64" (len entries);
  for_each (fun '(prefix, iri) output =>
    prefix ← encode_frame prefix;
    iri ← encode_frame iri;
    mret (output ++ prefix ++ iri)) entries count.

(** The part of [encode] that fills [output]. *)
Definition encode_document (d : ParsedDocument) : M World bytes :=
  ontology ← encode_optional (ontology_iri d);
  version ← encode_optional (version_iri d);
  imports ← encode_nodes (imports d);
  annotations ← encode_spanned (annotations d);
  axioms ← encode_spanned (axioms d);
  extensions ← encode_spanned (extensions d);
  prefixes ← encode_prefixes (document_prefixes d);
  mret (RESULT_MAGIC ++ to_le_bytes 2 RESULT_SCHEMA ++ to_le_bytes 2 FORMAT_FUNCTIONAL
          ++ to_le_bytes 8 (decoded_codepoints d) ++ ontology ++ version ++ imports
          ++ annotations ++ axioms ++ extensions ++ prefixes).

(** [ParsedDocument::encode] *)
Definition ParsedDocument_encode (d : ParsedDocument) : M Session bytes :=
  validate_document d;;
  output_size ← lift (encoded_size d);
  observed ← lift (ok_or (try_from U64_MAX output_size) (limit "native parser result size exceeds u64"));
  s ← get;
  ensure_not (value (limits s) MaxTemporaryBytes <? observed)
    (Limits_resource_limit (limits s) MaxTemporaryBytes observed
       "native parser result exceeds max_temporary_bytes");;
  reserve_bytes output_size;;
  on_session_world (try_reserve "native parser result allocation failed");;
  output ← on_session_world (encode_document d);
  ensure_not (negb (len output =? output_size))
    (protocol "native parser result size ledger diverged");;
  finish;;
  mret output.

(** [parse] *)
Definition parse (request : SourceRequest) : M Session bytes :=
  d ← parse_functional (source request) (allow_swrl request) false;
  ParsedDocument_encode d.
