(* ===== verification/Denotes.v ===== *)
(** * Nodes and the components they denote

    What the canonical builders make of nodes that denote components, and that
    a canonical set of nodes denotes the set of their components. *)

From S2P Require Import Prelude Bytes Order Error Machine Atomic Limits Cancel Session Varint Schema Scan Component ScanSound ScanComplete Encode Tokenizer Functional Grammar.

(** ** Denotation *)

(** The node of a flattening operator keeps the nodes of its operands. *)
Inductive denotes : Node -> component -> Prop :=
  | denotes_plain t ps :
      flattens t = false -> denotes (mkNode t (encode (Component t ps)) None) (Component t ps)
  | denotes_operator t nodes cs ps :
      flattens t = true -> Forall2 denotes nodes cs ->
      denotes (mkNode t (encode (Component t (PSet cs :: ps))) (Some nodes))
        (Component t (PSet cs :: ps)).

Notation denote_all := (Forall2 denotes).

(** One goal per field. *)
Ltac each_field := repeat (lazymatch goal with |- Forall2 _ (_ :: _) _ => apply Forall2_cons; split end);
  try apply Forall2_nil_2.

(** The node is written as the component is. *)
Definition renders (n : Node) (c : component) : Prop := node_encoded n = encode c.

Lemma denotes_renders n c : denotes n c -> renders n c.
Proof. by destruct 1. Qed.

Lemma denote_all_render ns cs : denote_all ns cs -> Forall2 renders ns cs.
Proof. intros H. eapply Forall2_impl; [exact H|apply denotes_renders]. Qed.

(** A field that is written as the part is; the members of a part can be counted. *)
Definition field_ok (f : Field) (p : part) : Prop :=
  match f, p with
  | FieldNone, PNull => True
  | FieldNode n, PComponent c => renders n c
  | FieldText v, PText text => v = text
  | FieldBytes v, PBytes data => v = data
  | FieldInteger v, PInteger z => v <> [] /\ forallb is_ascii_digit v = true /\ z = decimal_value v
  | FieldEnumeration v, PKind kind => v = EntityKind_name kind
  | FieldSet ns, PSet cs | FieldSequence ns, PSequence cs => Forall2 renders ns cs /\ len cs <= U64_MAX
  | _, _ => False
  end.

Lemma field_ok_node n c : denotes n c -> field_ok (FieldNode n) (PComponent c).
Proof. apply denotes_renders. Qed.
Lemma field_ok_set ns cs : denote_all ns cs -> len cs <= U64_MAX -> field_ok (FieldSet ns) (PSet cs).
Proof. intros H Hl. split; [by apply denote_all_render|done]. Qed.
Lemma field_ok_sequence ns cs :
  denote_all ns cs -> len cs <= U64_MAX -> field_ok (FieldSequence ns) (PSequence cs).
Proof. intros H Hl. split; [by apply denote_all_render|done]. Qed.

#[export] Hint Resolve denotes_renders denote_all_render field_ok_node field_ok_set field_ok_sequence : kernel.

(** ** The builders only fail for want of resources *)

Lemma wpx_operational {S A} (m : M S A) (Q : A -> S -> Prop) s :
  wp m Q s -> fails_with operational m -> wpx m Q (fun e _ => operational e) s.
Proof. intros Hm Hf. eapply wpx_of_wpe; [by apply wpe_of_wp|done|]. done. Qed.

Lemma fails_encode_frame x : fails_with operational (encode_frame x).
Proof. unfold encode_frame. operational. Qed.

Lemma ofails_base128 n ds : ofails_with operational (base128_loop n ds).
Proof.
  revert ds. induction n as [|n IH]; intros [|d ds]; cbn [base128_loop]; try done.
  destruct (divide_digits 0 (d :: ds)) as [q c]. specialize (IH (drop_zeros q)).
  unfold mbind, outcome_mbind. by destruct (base128_loop n (drop_zeros q)).
Qed.

Lemma fails_encode_decimal x : fails_with operational (encode_decimal x).
Proof.
  unfold encode_decimal. operational; apply fails_lift; [|apply ofails_base128].
  apply ofails_for_each. intros y acc. unfold usize_sub. by case_match.
Qed.

Lemma fails_encode_members prefix ns : fails_with operational (encode_members prefix ns).
Proof. apply fails_for_each. intros n x. operational. apply fails_encode_frame. Qed.

Lemma fails_encode_field f : fails_with operational (encode_field f).
Proof.
  destruct f; cbn [encode_field]; operational;
    first [apply fails_encode_frame|apply fails_encode_decimal|apply fails_encode_members].
Qed.

Lemma fails_build t fields : fails_with operational (Node_build t fields).
Proof.
  unfold Node_build. operational. apply fails_for_each. intros f x. operational. apply fails_encode_field.
Qed.

(** ** What they write *)

Lemma wp_encode_frame x w (Q : bytes -> World -> Prop) :
  (forall w', Q (frame x) w') -> wp (encode_frame x) Q w.
Proof.
  intros HQ. unfold encode_frame. do 3 step. apply checked_add_Some in H as [-> Hx]. do 3 step.
  replace (encode_usize (len x) ++ x) with (frame x); [done|].
  unfold frame. by rewrite encode_usize_varint by ulia.
Qed.

Lemma wp_encode_members prefix ns cs w (Q : bytes -> World -> Prop) :
  Forall2 renders ns cs ->
  (forall w', Q (concat (map (fun c => prefix ++ frame (encode c)) cs)) w') ->
  wp (encode_members prefix ns) Q w.
Proof.
  intros Hns HQ. unfold encode_members.
  assert (forall acc w, wp (for_each (fun value output =>
    framed ← encode_frame (node_encoded value); mret (output ++ prefix ++ framed)) ns acc)
    (fun out _ => out = acc ++ concat (map (fun c => prefix ++ frame (encode c)) cs)) w) as H.
  { clear HQ w. induction Hns as [|n c ns cs Hn _ IH]; intros acc w; cbn [for_each map concat].
    - step. by rewrite app_nil_r.
    - do 2 step. apply wp_encode_frame. intros w'. step. eapply wp_mono; [apply IH|].
      intros out _ ->. unfold renders in Hn. rewrite Hn. by rewrite <- !app_assoc. }
  eapply wp_mono; [apply H|]. intros out w' ->. apply HQ.
Qed.

Lemma wp_encode_field f p w (Q : bytes -> World -> Prop) :
  field_ok f p -> (forall w', Q (encode_part p) w') -> wp (encode_field f) Q w.
Proof.
  intros Hd HQ. destruct f, p; try done; cbn [field_ok encode_part encode_field] in *.
  - by step.
  - step. apply wp_encode_frame. intros w'. step. unfold renders in Hd. by rewrite Hd.
  - subst value. step. apply wp_encode_frame. intros w'. by step.
  - subst value. step. apply wp_encode_frame. intros w'. by step.
  - destruct Hd as (Hne & Hdig & ->). step. eapply wp_mono; [by apply (yields_decimal value)|].
    intros out w' ->. by step.
  - subst value. step. apply wp_encode_frame. intros w'. by step.
  - destruct Hd as [Hd Hc]. step. eapply (wp_encode_members []); [done|]. intros w'. step. cbn [app].
    rewrite (Forall2_length _ _ _ Hd), encode_usize_varint by ulia. done.
  - destruct Hd as [Hd Hc]. step. eapply wp_encode_members; [done|]. intros w'. step.
    rewrite (Forall2_length _ _ _ Hd), encode_usize_varint by ulia. done.
Qed.

(** [Node::build] on fields that stand for parts. *)
Lemma wpx_build t fields ps w :
  is_u64 t -> Forall2 field_ok fields ps ->
  (flattens t = true -> exists ns cs, fields = [FieldSet ns] /\ ps = [PSet cs] /\ denote_all ns cs) ->
  wpx (Node_build t fields) (fun n _ => denotes n (Component t ps)) (fun e _ => operational e) w.
Proof.
  intros Ht Hf Hflat. apply wpx_operational; [|apply fails_build]. unfold Node_build.
  do 3 step.
  assert (forall acc w, wp (for_each (fun field encoded => bytes ← encode_field field; mret (encoded ++ bytes)) fields acc)
    (fun out _ => out = acc ++ concat (map encode_part ps)) w) as H.
  { clear Hflat w. induction Hf as [|f p fields ps Hfp _ IH]; intros acc w; cbn [for_each map concat].
    - step. by rewrite app_nil_r.
    - do 2 step. apply (wp_encode_field _ p); [done|]. intros w'. step. eapply wp_mono; [apply IH|].
      intros out _ ->. by rewrite <- app_assoc. }
  eapply wp_mono; [apply H|]. intros out w' ->. step.
  rewrite encode_u64_varint by done. change (varint t ++ concat (map encode_part ps)) with (encode (Component t ps)).
  destruct (flattens t) eqn:E; [|by apply denotes_plain].
  destruct (Hflat eq_refl) as (ns & cs & -> & -> & Hns). by apply denotes_operator.
Qed.

(** ** Sorting and deduplicating *)

Section Parametricity.
Context {A B : Type} (R : A -> B -> Prop) (le1 : A -> A -> Prop) (le2 : B -> B -> Prop).
Context `{!RelDecision le1, !RelDecision le2}.
Hypothesis same_order : forall x x' y y', R x y -> R x' y' -> le1 x x' <-> le2 y y'.

Lemma list_merge_related xs ys xs' ys' :
  Forall2 R xs ys -> Forall2 R xs' ys' -> Forall2 R (list_merge le1 xs xs') (list_merge le2 ys ys').
Proof.
  intros H. revert xs' ys'. induction H as [|x y xs ys Hxy Hxs IH]; intros xs' ys' H'.
  { destruct xs', ys'; by cbn. }
  induction H' as [|x' y' xs' ys' Hxy' Hxs' IH'].
  { cbn. by constructor. }
  cbn. destruct (decide (le1 x x')) as [Hle|Hle], (decide (le2 y y')) as [Hle'|Hle'].
  - constructor; [done|]. apply IH. by constructor.
  - exfalso. apply Hle'. by apply (same_order x x').
  - exfalso. apply Hle. by apply (same_order x x' y y').
  - constructor; [done|]. apply IH'.
Qed.

Notation stacks_related := (Forall2 (option_Forall2 (Forall2 R))).

Lemma merge_list_to_stack_related st st' xs ys :
  stacks_related st st' -> Forall2 R xs ys ->
  stacks_related (merge_list_to_stack le1 st xs) (merge_list_to_stack le2 st' ys).
Proof.
  intros H. revert xs ys. induction H as [|o o' st st' Ho Hst IH]; intros xs ys Hxs; cbn.
  { repeat constructor. done. }
  destruct Ho as [l l' Hl|].
  - constructor; [constructor|]. apply IH. by apply list_merge_related.
  - by repeat constructor.
Qed.

Lemma merge_stack_related st st' :
  stacks_related st st' -> Forall2 R (merge_stack le1 st) (merge_stack le2 st').
Proof.
  induction 1 as [|o o' st st' Ho Hst IH]; cbn; [constructor|].
  destruct Ho; [by apply list_merge_related|done].
Qed.

Lemma merge_sort_related xs ys : Forall2 R xs ys -> Forall2 R (merge_sort le1 xs) (merge_sort le2 ys).
Proof.
  unfold merge_sort. assert (stacks_related [] []) as Hst by constructor. revert Hst.
  generalize (@nil (option (list A))), (@nil (option (list B))). intros st st' Hst H. revert st st' Hst.
  induction H as [|x y xs ys Hxy Hxs IH]; intros st st' Hst; cbn; [by apply merge_stack_related|].
  apply IH, merge_list_to_stack_related; [done|]. by repeat constructor.
Qed.
End Parametricity.

Lemma sort_denotes ns cs :
  denote_all ns cs -> denote_all (merge_sort node_le ns) (merge_sort component_le cs).
Proof.
  apply merge_sort_related. intros n n' c c' H%denotes_renders H'%denotes_renders.
  unfold node_le, component_le, renders in *. by rewrite H, H'.
Qed.

Lemma dedup_denotes ns cs : denote_all ns cs -> denote_all (dedup ns) (distinct cs).
Proof.
  destruct 1 as [|n c ns cs Hn Hns]; [constructor|]. cbn. constructor; [done|].
  revert n c Hn. induction Hns as [|m d ns cs Hm Hns IH]; intros n c Hn; cbn [dedup_after distinct_after]; [constructor|].
  rewrite (denotes_renders _ _ Hn), (denotes_renders _ _ Hm).
  case_match; [by apply IH|]. constructor; [done|by apply IH].
Qed.

(** Only the operators are flattened. *)
Definition operator_tag (o : option Z) : Prop := forall t, o = Some t -> flattens t = true.

Lemma flatten_denotes o n c :
  operator_tag o -> denotes n c -> denote_all (flatten_one o n) (flat_members o c).
Proof.
  intros Ho. unfold flatten_one, flat_members. destruct 1 as [t ps Ht|t ns cs ps Ht Hns]; cbn [node_tag node_flattened].
  - assert (bool_decide (o = Some t) = false) as ->.
    { apply bool_decide_eq_false_2. intros E. apply Ho in E. congruence. }
    assert (denotes (mkNode t (encode (Component t ps)) None) (Component t ps)) by by apply denotes_plain.
    destruct ps as [|[] ps]; by repeat constructor.
  - destruct (bool_decide (o = Some t)); [done|].
    constructor; [|constructor]. by apply denotes_operator.
Qed.

Lemma flattened_denotes o ns cs :
  operator_tag o -> denote_all ns cs -> denote_all (flattened o ns) (concat (map (flat_members o) cs)).
Proof.
  intros Ho. unfold flattened. induction 1 as [|n c ns cs Hn _ IH]; cbn [map concat]; [constructor|].
  apply Forall2_app; [by apply flatten_denotes|done].
Qed.

Lemma distinct_members_denotes o ns cs :
  operator_tag o -> denote_all ns cs -> denote_all (distinct_members o ns) (set_of o cs).
Proof. intros. by apply dedup_denotes, sort_denotes, flattened_denotes. Qed.

(** [canonical_set] returns the nodes of [set_of], or reports that there are
    too few. *)
Lemma wpx_canonical_set ns cs minimum o w :
  operator_tag o -> denote_all ns cs ->
  wpx (canonical_set ns minimum o) (fun r _ => denote_all r (set_of o cs) /\ minimum <= len (set_of o cs))
    (fun e _ => operational e \/ (len (set_of o cs) < minimum /\ code e = code syntax)) w.
Proof.
  intros Ho Hns. pose proof (distinct_members_denotes o ns cs Ho Hns) as Hd.
  pose proof (Forall2_length _ _ _ Hd) as Hl. unfold canonical_set.
  pose proof (yields_flatten o ns [] w) as [Hwp _]. cbn [app] in Hwp.
  apply wpx_bind. eapply wpx_mono.
  - apply wpx_operational; [exact Hwp|]. apply fails_for_each. intros y x. unfold flatten_value. operational.
  - intros fl w' ->. cbv zeta. fold (distinct_members o ns). xstep.
    apply wpx_ensure_not; intros E; bool_to_prop; [right; split; [lia|done]|]. xstep. split; [done|lia].
  - intros e w' He. by left.
Qed.

(** The operands and their number. *)
Lemma distinct_after_length kept cs : (length (distinct_after kept cs) <= length cs)%nat.
Proof. revert kept. induction cs as [|c cs IH]; intros kept; cbn; [done|]. case_match; cbn; [specialize (IH kept)|specialize (IH c)]; lia. Qed.

Lemma set_of_length o cs : (length (set_of o cs) <= length (concat (map (flat_members o) cs)))%nat.
Proof.
  unfold set_of. rewrite <- (Permutation_length (merge_sort_Permutation component_le (concat (map (flat_members o) cs)))).
  destruct (merge_sort _ _) as [|c ds]; cbn; [done|]. pose proof (distinct_after_length c ds). lia.
Qed.

(** ** Operands listed twice *)

(** The operands that repeat the one before them, once each; [again] says that
    [prev] repeats one itself. *)
Fixpoint doubles (prev : Node) (again : bool) (l : list Node) : list Node :=
  match l with
  | [] => []
  | x :: l =>
      if bytes_eqb (node_encoded prev) (node_encoded x)
      then (if again then [] else [x]) ++ doubles x true l
      else doubles x false l
  end.

Lemma repeated_step pre prev x l again acc :
  again = match last pre with Some p => bytes_eqb (node_encoded p) (node_encoded prev) | None => false end ->
  repeated_operand (pre ++ prev :: x :: l) (len pre + 1) acc =
  Ok (acc ++ if bytes_eqb (node_encoded prev) (node_encoded x) && negb again then [x] else []).
Proof.
  intros Ha. unfold repeated_operand, index_at.
  assert (forall i y, (pre ++ prev :: x :: l) !! i = Some y -> get_at (pre ++ prev :: x :: l) (Z.of_nat i) = Some y) as Hat.
  { intros i y Hy. apply get_at_Some. rewrite Nat2Z.id. split; [lia|done]. }
  rewrite (Z.add_simpl_r (len pre) 1), (Hat (length pre) prev) by (by apply list_lookup_middle).
  assert (get_at (pre ++ prev :: x :: l) (len pre + 1) = Some x) as ->.
  { replace (len pre + 1) with (Z.of_nat (S (length pre))) by lia. apply Hat.
    rewrite lookup_app_r by lia. by replace (S (length pre) - length pre)%nat with 1%nat by lia. }
  unfold mbind, outcome_mbind. cbn [or_panic outcome_bind].
  destruct (bytes_eqb (node_encoded prev) (node_encoded x)) eqn:E; cbn [outcome_bind andb]; [|by rewrite app_nil_r].
  destruct pre as [|p pre _] using rev_ind; [by subst|]. rewrite last_snoc in Ha.
  rewrite length_app in *. cbn [length] in *. rewrite (proj2 (Z.eqb_neq _ 1)) by lia.
  replace (Z.of_nat (length pre + 1) + 1 - 2) with (Z.of_nat (length pre)) by lia.
  rewrite (Hat (length pre) p) by (rewrite <- app_assoc; by apply list_lookup_middle).
  cbn [or_panic outcome_bind]. apply bytes_eqb_eq in E. rewrite <- E, <- Ha. by destruct again; rewrite ?app_nil_r.
Qed.

Lemma repeated_loop l : forall pre prev again acc,
  again = match last pre with Some p => bytes_eqb (node_encoded p) (node_encoded prev) | None => false end ->
  ofor_range (repeated_operand (pre ++ prev :: l)) (len pre + 1) (length l) acc =
  Ok (acc ++ doubles prev again l).
Proof.
  induction l as [|x l IH]; intros pre prev again acc Ha; cbn [length ofor_range doubles].
  { by rewrite app_nil_r. }
  rewrite (repeated_step _ _ _ _ again) by done. unfold mbind, outcome_mbind. cbn [outcome_bind].
  specialize (IH (pre ++ [prev]) x (bytes_eqb (node_encoded prev) (node_encoded x))).
  rewrite last_snoc, <- app_assoc, length_app in IH. cbn [app length] in IH.
  replace (len pre + 1 + 1) with (Z.of_nat (length pre + 1) + 1) by lia. rewrite IH by done.
  destruct (bytes_eqb (node_encoded prev) (node_encoded x)); cbn [andb app]; [|by rewrite app_nil_r].
  by destruct again; cbn [negb app]; rewrite <- ?app_assoc, ?app_nil_r.
Qed.

Lemma filter_agree {A} (P Q : A -> Prop) `{!forall y, Decision (P y), !forall y, Decision (Q y)} (l : list A) :
  (forall y, y ∈ l -> P y <-> Q y) -> filter P l = filter Q l.
Proof.
  induction l as [|x l IH]; intros Hl; [done|]. rewrite !filter_cons.
  assert (P x <-> Q x) as Hx by (apply Hl; left).
  destruct (decide (P x)), (decide (Q x)); try tauto; rewrite IH; try done; intros y Hy; apply Hl; by right.
Qed.

Lemma filter_none {A} (P : A -> Prop) `{!forall y, Decision (P y)} (l : list A) :
  (forall y, y ∈ l -> ~ P y) -> filter P l = [].
Proof.
  induction l as [|x l IH]; intros Hl; [done|]. rewrite filter_cons_False by (apply Hl; left).
  apply IH. intros y Hy. apply Hl. by right.
Qed.

(** The same on the keys of the operands. *)
Section Keys.
Implicit Types (ks : list bytes).

Fixpoint key_doubles (prev : bytes) (again : bool) (ks : list bytes) : list bytes :=
  match ks with
  | [] => []
  | x :: ks =>
      if bytes_eqb prev x then (if again then [] else [x]) ++ key_doubles x true ks
      else key_doubles x false ks
  end.
Fixpoint key_distinct_after (kept : bytes) (ks : list bytes) : list bytes :=
  match ks with
  | [] => []
  | x :: ks => if bytes_eqb x kept then key_distinct_after kept ks else x :: key_distinct_after x ks
  end.

Definition twice (ks : list bytes) (k : bytes) : Prop := (2 <= length (filter (fun x => x = k) ks))%nat.
#[export] Instance twice_dec ks k : Decision (twice ks k).
Proof. unfold twice. apply _. Defined.

Lemma doubles_keys prev again l :
  map node_encoded (doubles prev again l) = key_doubles (node_encoded prev) again (map node_encoded l).
Proof.
  revert prev again. induction l as [|x l IH]; intros prev again; cbn [doubles key_doubles map]; [done|].
  case_match; [|apply IH]. rewrite map_app, IH. by destruct again.
Qed.

Lemma distinct_after_keys kept cs :
  map encode (distinct_after kept cs) = key_distinct_after (encode kept) (map encode cs).
Proof.
  revert kept. induction cs as [|c cs IH]; intros kept; cbn [distinct_after key_distinct_after map]; [done|].
  case_match; [apply IH|]. cbn [map]. by rewrite IH.
Qed.

Lemma key_distinct_after_lt k ks y :
  StronglySorted bytes_le (k :: ks) -> y ∈ key_distinct_after k ks -> bytes_lt k y.
Proof.
  revert k. induction ks as [|x ks IH]; intros k Hs; cbn [key_distinct_after]; [by intros ?%not_elem_of_nil|].
  pose proof Hs as [Hle Hs']%StronglySorted_cons. apply Forall_cons in Hle as [Hkx Hle].
  destruct (bytes_eqb x k) eqn:E.
  - apply bytes_eqb_eq in E as ->. by apply IH.
  - apply bytes_eqb_neq in E. assert (bytes_lt k x) as Hlt by (apply bytes_lt_le; split; [done|congruence]).
    intros [->|Hy]%elem_of_cons; [done|]. etrans; [exact Hlt|]. by apply IH.
Qed.

Lemma twice_cons_ne x ks y : x <> y -> twice (x :: ks) y <-> twice ks y.
Proof. intros H. unfold twice. by rewrite filter_cons_False. Qed.

Lemma key_doubles_twice ks : forall k,
  StronglySorted bytes_le (k :: ks) ->
  key_doubles k false ks = filter (twice (k :: ks)) (k :: key_distinct_after k ks) /\
  key_doubles k true ks = filter (twice (k :: ks)) (key_distinct_after k ks).
Proof.
  induction ks as [|x ks IH]; intros k Hs; cbn [key_doubles key_distinct_after].
  { split; [|done]. rewrite filter_cons_False; [done|]. unfold twice. rewrite filter_cons_True by done. cbn. lia. }
  pose proof Hs as [Hle Hs']%StronglySorted_cons. apply Forall_cons in Hle as [Hkx Hle].
  destruct (bytes_eqb x k) eqn:E.
  - apply bytes_eqb_eq in E as ->. rewrite bytes_eqb_refl. destruct (IH k Hs') as [_ IH2].
    assert (twice (k :: k :: ks) k) as Hk.
    { unfold twice. rewrite !filter_cons_True by done. cbn. lia. }
    assert (filter (twice (k :: k :: ks)) (key_distinct_after k ks) =
            filter (twice (k :: ks)) (key_distinct_after k ks)) as Hf.
    { apply filter_agree. intros y Hy%key_distinct_after_lt; [|done]. apply twice_cons_ne.
      intros ->. by apply bytes_lt_le in Hy as [_ ?]. }
    rewrite filter_cons_True by done. rewrite Hf, IH2. done.
  - assert (bytes_eqb k x = false) as -> by (apply bytes_eqb_neq; apply bytes_eqb_neq in E; congruence).
    apply bytes_eqb_neq in E. destruct (IH x Hs') as [IH1 _]. rewrite IH1.
    assert (bytes_lt k x) as Hlt by (apply bytes_lt_le; split; [done|congruence]).
    assert (forall y, y ∈ x :: ks -> k <> y) as Hne.
    { intros y Hy ->. apply StronglySorted_cons in Hs' as [Hx _]. rewrite Forall_forall in Hx.
      apply elem_of_cons in Hy as [->|Hy]; [by apply bytes_lt_le in Hlt as [_ ?]|].
      specialize (Hx y Hy). apply bytes_lt_le in Hlt as [H1 H2]. apply H2. by apply (anti_symm bytes_le). }
    assert (~ twice (k :: x :: ks) k) as Hk.
    { unfold twice. rewrite filter_cons_True by done. rewrite (filter_none (fun y => y = k) (x :: ks)); [cbn; lia|].
      intros y Hy ->. by apply (Hne k). }
    rewrite (filter_cons_False (twice (k :: x :: ks)) k) by done.
    split; apply filter_agree; intros y Hy; symmetry; apply twice_cons_ne.
    all: apply elem_of_cons in Hy as [->|Hy]; [by apply Hne; left|].
    all: apply (key_distinct_after_lt x ks y Hs') in Hy; intros ->; apply bytes_lt_le in Hlt as [H1 H2].
    all: apply bytes_lt_le in Hy as [H3 H4]; apply H2; by apply (anti_symm bytes_le).
Qed.
End Keys.

Lemma flat_none cs : concat (map (flat_members None) cs) = cs.
Proof. induction cs as [|[t [|[] ps]] cs IH]; cbn [map concat flat_members]; by rewrite ?IH. Qed.

Lemma length_filter_keys k `{!forall d, Decision (encode d = k), !forall x : bytes, Decision (x = k)} cs :
  length (filter (fun d => encode d = k) cs) = length (filter (fun x => x = k) (map encode cs)).
Proof.
  induction cs as [|d cs IH]; [done|]. cbn [map]. rewrite !filter_cons.
  repeat case_decide; try done; cbn; by rewrite IH.
Qed.

Lemma occurs_again_twice cs c : occurs_again cs c <-> twice (map encode cs) (encode c).
Proof. unfold occurs_again, twice. by erewrite length_filter_keys. Qed.

Lemma filter_occurs_keys cs l :
  map encode (filter (occurs_again cs) l) = filter (twice (map encode cs)) (map encode l).
Proof.
  induction l as [|c l IH]; [done|]. cbn [map]. rewrite !filter_cons. pose proof (occurs_again_twice cs c).
  destruct (decide (occurs_again cs c)), (decide (twice (map encode cs) (encode c))); try tauto; cbn [map]; by rewrite IH.
Qed.

Lemma renders_of_keys ns cs : map node_encoded ns = map encode cs -> Forall2 renders ns cs.
Proof.
  revert cs. induction ns as [|n ns IH]; destruct cs as [|c cs]; cbn; try done. intros E.
  pose proof (f_equal (@hd_error _) E) as E1. pose proof (f_equal (@tl _) E) as E2. cbn in *.
  injection E1 as E1. constructor; [exact E1|by apply IH].
Qed.

Lemma render_keys ns cs : Forall2 renders ns cs -> map node_encoded ns = map encode cs.
Proof. induction 1 as [|n c ns cs H _ IH]; [done|]. cbn. by rewrite IH, H. Qed.

(** The operands a document lists twice. *)
Lemma doubles_render ns cs n ms :
  denote_all ns cs -> merge_sort node_le ns = n :: ms ->
  Forall2 renders (doubles n false ms) (filter (occurs_again cs) (set_of None cs)).
Proof.
  intros Hns E. apply renders_of_keys. rewrite doubles_keys, filter_occurs_keys. unfold set_of. rewrite flat_none.
  pose proof (sort_denotes _ _ Hns) as Hs. rewrite E in Hs.
  assert (Total component_le) as Htot by (intros x y; apply bytes_le_total).
  assert (Transitive component_le) as Htr by (intros x y z; apply bytes_le_trans).
  pose proof (StronglySorted_merge_sort component_le cs) as Hsort.
  pose proof (merge_sort_Permutation component_le cs) as Hperm.
  destruct (merge_sort component_le cs) as [|c ds]; [by inversion Hs|].
  apply Forall2_cons in Hs as [Hn Hms]. apply denotes_renders in Hn. apply denote_all_render, render_keys in Hms.
  unfold renders in Hn. cbn [distinct map]. rewrite distinct_after_keys, Hn, Hms.
  assert (StronglySorted bytes_le (encode c :: map encode ds)) as Hk.
  { clear -Hsort. change (encode c :: map encode ds) with (map encode (c :: ds)). revert Hsort.
    generalize (c :: ds). induction l as [|d l IH]; [constructor|]. intros [H1 H2]%StronglySorted_cons.
    cbn [map]. constructor; [by apply IH|]. apply Forall_map. exact H1. }
  destruct (key_doubles_twice (map encode ds) (encode c) Hk) as [-> _].
  apply filter_agree. intros y _. unfold twice.
  assert (Permutation (encode c :: map encode ds) (map encode cs)) as Hp.
  { change (encode c :: map encode ds) with (encode <$> (c :: ds)). by rewrite Hperm. }
  by rewrite Hp.
Qed.

(** [disjoint_class_axioms] *)
Lemma wpx_disjoint ns cs as_ bs w :
  denote_all ns cs -> denote_all as_ bs -> len cs <= U64_MAX -> len bs <= U64_MAX ->
  wpx (disjoint_class_axioms ns as_)
    (fun r _ => denote_all r (disjoint_classes cs bs) /\ 2 <= len cs)
    (fun e _ => operational e \/ (len cs < 2 /\ code e = code syntax)) w.
Proof.
  intros Hns Has Hc Hb. pose proof (Forall2_length _ _ _ Hns) as Hl. unfold disjoint_class_axioms.
  xstep. apply wpx_ensure_not; intros E; bool_to_prop; [right; split; [lia|done]|]. cbv zeta.
  destruct (merge_sort node_le ns) as [|n ms] eqn:Es.
  { pose proof (Permutation_length (merge_sort_Permutation node_le ns)) as Hp. rewrite Es in Hp. cbn in Hp. lia. }
  pose proof (doubles_render ns cs n ms Hns Es) as Hd.
  assert (denote_all (dedup (n :: ms)) (set_of None cs)) as Hset.
  { rewrite <- Es. unfold set_of. rewrite flat_none. by apply dedup_denotes, sort_denotes. }
  pose proof (set_of_length None cs) as Hsl. rewrite flat_none in Hsl.
  xstep. apply wpx_lift. replace (length (n :: ms) - 1)%nat with (length ms) by (cbn; lia).
  assert (ofor_range (repeated_operand (n :: ms)) 1 (length ms) [] = Ok (doubles n false ms)) as ->
    by apply (repeated_loop ms [] n false [] eq_refl).
  unfold disjoint_classes.
  assert (forall t fields ps w (Q : Node -> World -> Prop), is_u64 t -> flattens t = false -> Forall2 field_ok fields ps ->
    (forall m w', denotes m (Component t ps) -> Q m w') ->
    wpx (Node_build t fields) Q (fun e _ => operational e \/ (len cs < 2 /\ code e = code syntax)) w) as Hbuild.
  { intros t fields ps w' Q Ht Hfl Hf HQ. eapply wpx_mono; [apply (wpx_build t fields ps)|..]; try done.
    - intros H. by rewrite Hfl in H.
    - intros e w'' He. by left. }
  set (first := if 2 <=? len (set_of None cs) then _ else []).
  assert (forall w (Q : list Node -> World -> Prop),
    (forall r w', denote_all r first -> Q r w') ->
    wpx (if 2 <=? len (dedup (n :: ms)) then
           axiom ← Node_build 63 [FieldSet (dedup (n :: ms)); FieldSet as_]; mret [axiom] else mret []) Q
      (fun e _ => operational e \/ (len cs < 2 /\ code e = code syntax)) w) as Hfirst.
  { intros w' Q HQ. rewrite (Forall2_length _ _ _ Hset). unfold first in HQ.
    destruct (2 <=? len (set_of None cs)).
    - xstep. apply (Hbuild 63 _ [PSet (set_of None cs); PSet bs]); [done|done| |].
      + each_field; [apply field_ok_set; [done|lia]|by apply field_ok_set].
      + intros m w2 Hm. xstep. apply HQ. by repeat constructor.
    - xstep. apply HQ. constructor. }
  xstep. apply Hfirst. intros r w' Hr.
  rewrite (Forall2_length _ _ _ Hd).
  destruct (Z.eqb_spec (len (filter (occurs_again cs) (set_of None cs))) 0) as [E0|Hne].
  { xstep. destruct (filter (occurs_again cs) (set_of None cs)) as [|? ?]; [|cbn in E0; lia].
    rewrite app_nil_r. split; [done|lia]. }
  xstep. apply (Hbuild 1 _ [PText OWL_NOTHING]); [done|done|by each_field|]. intros i w2 Hi.
  xstep. unfold entity.
  apply (Hbuild 2 _ [PKind KClass; PComponent (iri_component OWL_NOTHING)]); [done|done| |].
  { each_field; [|by apply field_ok_node]. change (str "class") with (EntityKind_name KClass). done. }
  intros no w3 Hno.
  assert (forall xs ys acc accs w, Forall2 renders xs ys -> denote_all acc accs ->
    wpx (for_each (nothing_axiom no as_) xs acc)
      (fun r _ => denote_all r (accs ++ map (fun c => Component 61
         [PComponent c; PComponent (entity_component KClass (iri_component OWL_NOTHING)); PSet bs]) ys))
      (fun e _ => operational e \/ (len cs < 2 /\ code e = code syntax)) w) as Hloop.
  { intros xs ys acc accs w4 Hxs. revert acc accs w4. induction Hxs as [|x y xs ys Hx Hxs IH]; intros acc accs w4 Hacc.
    - cbn [for_each map]. xstep. by rewrite app_nil_r.
    - cbn [for_each map]. xstep. unfold nothing_axiom. xstep.
      eapply (Hbuild 61 _ [PComponent y; PComponent (entity_component KClass (iri_component OWL_NOTHING)); PSet bs]);
        [done|done| |].
      { each_field; [exact Hx|by apply field_ok_node|by apply field_ok_set]. }
      intros m w5 Hm. xstep. eapply wpx_mono; [eapply IH; apply Forall2_app; [exact Hacc|by constructor; [exact Hm|constructor]]| |done].
      intros r' w6 Hr'. by rewrite <- app_assoc in Hr'. }
  eapply wpx_mono; [by apply Hloop| |done]. intros r' w4 Hr'. split; [done|lia].
Qed.
