(* ===== verification/Consumes.v ===== *)
(** * How much the readers of the grammar consume

    Every component is read from at least as many tokens as it has operands.
    This is what makes the loops of the parser end and its counts fit in 64
    bits. *)

From S2P Require Import Prelude Bytes Error Machine Lexical Scan Component Encode Tokenizer Functional Grammar Denotes.

(** The operands of an operator, nested operators opened. *)
Fixpoint weight (c : component) : nat :=
  match c with
  | Component t ps =>
      if flattens t then
        match ps with
        | PSet cs :: _ => Nat.max 1 (sum_list (map weight cs))
        | _ => 1%nat
        end
      else 1%nat
  end.
Definition total (cs : list component) : nat := sum_list (map weight cs).

Lemma weight_pos c : (1 <= weight c)%nat.
Proof. destruct c as [t [|[] ps]]; cbn [weight]; destruct (flattens t); lia. Qed.

Lemma total_app cs ds : total (cs ++ ds) = (total cs + total ds)%nat.
Proof. unfold total. induction cs as [|c cs IH]; cbn; [done|]. cbn in IH. lia. Qed.

Lemma length_total cs : (length cs <= total cs)%nat.
Proof.
  unfold total. induction cs as [|c cs IH]; cbn; [done|]. pose proof (weight_pos c). cbn in IH. lia.
Qed.

Lemma total_perm cs ds : Permutation cs ds -> total cs = total ds.
Proof. unfold total. induction 1; cbn in *; lia. Qed.

Lemma total_distinct_after kept cs : (total (distinct_after kept cs) <= total cs)%nat.
Proof.
  revert kept. induction cs as [|c cs IH]; intros kept; cbn [distinct_after]; [done|].
  unfold total in *. destruct (bytes_eqb _ _); cbn; [specialize (IH kept)|specialize (IH c)]; lia.
Qed.

Lemma total_flat o c : operator_tag o -> (total (flat_members o c) <= weight c)%nat.
Proof.
  assert (forall c, total [c] <= weight c)%nat as H1 by (intros d; unfold total; cbn; lia).
  intros Ho. destruct c as [t [|[] ps]]; unfold flat_members; try apply H1.
  destruct (bool_decide (o = Some t)) eqn:E; [|apply H1].
  apply bool_decide_eq_true, Ho in E. cbn [weight]. rewrite E. unfold total. lia.
Qed.

Lemma total_set_of o cs : operator_tag o -> (total (set_of o cs) <= total cs)%nat.
Proof.
  intros Ho. assert (total (concat (map (flat_members o) cs)) <= total cs)%nat as Hflat.
  { induction cs as [|c cs IH]; cbn [map concat]; [done|]. rewrite total_app.
    pose proof (total_flat o c Ho). unfold total in *. cbn. lia. }
  unfold set_of. set (ds := concat _) in *.
  rewrite <- (total_perm _ _ (merge_sort_Permutation component_le ds)) in Hflat.
  destruct (merge_sort component_le ds) as [|c es]; cbn [distinct]; [cbn; lia|].
  pose proof (total_distinct_after c es). unfold total in *. cbn in *. lia.
Qed.

Lemma operator_none : operator_tag None.
Proof. done. Qed.

(** ** Consumption *)

(** [r] leaves at least [w] tokens fewer than it found. *)
Definition uses {B} (w : B -> nat) (r : Reader B) : Prop :=
  forall ts b ts', r ts = (Ok b, ts') -> (w b + length ts' <= length ts)%nat.

Notation quiet := (uses (fun _ => 0%nat)).
Notation eats := (uses weight).
(** What may follow the first token of a component. *)
Notation light := (uses (fun c => (weight c - 1)%nat)).

Section Calculus.
Context {A B : Type}.

Lemma uses_bind {u v w} (r : Reader A) (g : A -> Reader B) :
  uses u r -> (forall a, uses (v a) (g a)) -> (forall a b, (w b <= u a + v a b)%nat) -> uses w (r ≫= g).
Proof.
  intros Hr Hg Hw ts b ts' E. unfold mbind, M_bind in E. destruct (r ts) as [[a|e|] ts1] eqn:E1; try done.
  specialize (Hr _ _ _ E1). specialize (Hg a _ _ _ E). specialize (Hw a b). cbn beta in *. lia.
Qed.

Lemma uses_weaken (v w : B -> nat) (r : Reader B) : uses v r -> (forall b, (w b <= v b)%nat) -> uses w r.
Proof. intros H Hw ts b ts' E. specialize (H _ _ _ E). specialize (Hw b). lia. Qed.

Lemma uses_ret (w : B -> nat) b : w b = 0%nat -> uses w (mret b).
Proof. intros Hw ts b' ts' [= <- <-]. lia. Qed.

Lemma uses_lift (w : B -> nat) (o : outcome B) : (forall b, o = Ok b -> w b = 0%nat) -> uses w (lift o).
Proof. intros Hw ts b ts' [= -> <-]. rewrite Hw by done. lia. Qed.

Lemma uses_throw (w : B -> nat) e : uses w (throw e).
Proof. by intros ts b ts'. Qed.

(** A first step that consumes nothing in particular. *)
Lemma uses_then {u w} (r : Reader A) (g : A -> Reader B) :
  uses u r -> (forall a, uses w (g a)) -> uses w (r ≫= g).
Proof. intros Hr Hg. eapply uses_bind; [exact Hr|exact Hg|]. intros a b. cbn. lia. Qed.
End Calculus.

(** A first step that takes a token, and a light rest. *)
Lemma eats_then {A} (r : Reader A) (g : A -> Reader component) :
  uses (fun _ => 1%nat) r -> (forall a, light (g a)) -> eats (r ≫= g).
Proof. intros Hr Hg. eapply uses_bind; [exact Hr|exact Hg|]. intros a b. cbn. lia. Qed.

Lemma eats_quiet {B} (w : B -> nat) (r : Reader B) : uses w r -> quiet r.
Proof. intros H. eapply uses_weaken; [exact H|]. intros b. lia. Qed.

Lemma light_component t ps : flattens t = false -> light (mret (Component t ps)).
Proof. intros Ht. apply uses_ret. cbn [weight]. by rewrite Ht. Qed.

Lemma quiet_look : quiet look_token.
Proof. intros [|t ts] b ts'; [done|]. by intros [= <- <-]. Qed.
Lemma quiet_test b : quiet (test b).
Proof. eapply uses_then; [apply quiet_look|]. intros t. by apply uses_ret. Qed.
Lemma uses_next : uses (fun _ => 1%nat) next_token.
Proof. intros [|t ts] b ts'; [done|]. intros [= <- <-]. done. Qed.
Lemma uses_token K : uses (fun _ => 1%nat) (token K).
Proof.
  eapply uses_then; [apply quiet_look|]. intros t. eapply uses_then; [by apply (uses_lift (fun _ => 0%nat))|].
  intros _. apply uses_next.
Qed.
Lemma uses_keyword name : uses (fun _ => 1%nat) (keyword name).
Proof.
  eapply uses_bind; [apply uses_token|intros t|].
  { eapply uses_then; [by apply (uses_lift (fun _ => 0%nat))|]. intros _. by apply (uses_ret (fun _ => 0%nat)). }
  intros a b. cbn. lia.
Qed.
Lemma quiet_get : quiet (get : Reader (list Token)).
Proof. intros ts b ts' [= <- <-]. done. Qed.
Lemma quiet_head_name : quiet head_name.
Proof.
  eapply uses_then; [apply quiet_look|]. intros t. eapply uses_then; [apply quiet_get|].
  intros ts. by apply uses_ret.
Qed.

Lemma uses_open : uses (fun _ => 1%nat) open_token.
Proof. eapply uses_bind; [apply uses_token|intros t; by apply (uses_ret (fun _ => 0%nat))|]. intros a b. cbn. lia. Qed.
Lemma uses_close : uses (fun _ => 1%nat) close_token.
Proof. eapply uses_bind; [apply uses_token|intros t; by apply (uses_ret (fun _ => 0%nat))|]. intros a b. cbn. lia. Qed.

Lemma uses_within {B} (w : B -> nat) (r : Reader B) : uses w r -> uses w (within r).
Proof.
  intros Hr. eapply uses_then; [apply uses_open|]. intros _. eapply (uses_bind (v := fun b b' => (w b' - w b)%nat)).
  - exact Hr.
  - intros b. eapply uses_then; [apply uses_close|]. intros _. apply uses_ret. lia.
  - intros b b'. cbn. lia.
Qed.

(** [quietly] walks through a reader that keeps its place. *)
Create HintDb consumes discriminated.
#[export] Hint Resolve quiet_look quiet_test quiet_head_name uses_within light_component : consumes.
#[export] Hint Extern 1 (uses _ next_token) => apply (eats_quiet _ _ uses_next) : consumes.
#[export] Hint Extern 1 (uses _ (token _)) => apply (eats_quiet _ _ (uses_token _)) : consumes.
#[export] Hint Extern 1 (uses _ (keyword _)) => apply (eats_quiet _ _ (uses_keyword _)) : consumes.
#[export] Hint Extern 1 (uses _ open_token) => apply (eats_quiet _ _ uses_open) : consumes.
#[export] Hint Extern 1 (uses _ close_token) => apply (eats_quiet _ _ uses_close) : consumes.

Ltac quietly :=
  repeat match goal with
  | |- uses _ (_ ≫= _) => eapply uses_then; [|intros ?]
  | |- uses _ (lift _) => by apply (uses_lift (fun _ => 0%nat))
  | |- uses _ (ensure_not _ _) => by apply (uses_lift (fun _ => 0%nat))
  | |- uses _ (throw _) => apply uses_throw
  | |- uses _ (if ?c then _ else _) => destruct c
  | |- uses _ (mret _) => first [by apply uses_ret|by apply (uses_ret (fun _ => 0%nat))]
  | _ => solve [eauto using eats_quiet with consumes]
  end.

(** [eating] walks to the first token of a component. *)
Ltac eating :=
  repeat lazymatch goal with
  | |- uses weight (next_token ≫= _) => apply eats_then; [apply uses_next|intros ?]
  | |- uses weight (token _ ≫= _) => apply eats_then; [apply uses_token|intros ?]
  | |- uses weight (keyword _ ≫= _) => apply eats_then; [apply uses_keyword|intros ?]
  | |- uses weight (look_token ≫= _) => eapply uses_then; [apply quiet_look|intros ?]
  | |- uses weight (head_name ≫= _) => eapply uses_then; [apply quiet_head_name|intros ?]
  | |- uses weight (test _ ≫= _) => eapply uses_then; [apply quiet_test|intros ?]
  | |- uses weight (ensure_not _ _ ≫= _) => eapply uses_then; [by apply (uses_lift (fun _ => 0%nat))|intros ?]
  | |- uses weight (lift (ok_or _ _) ≫= _) => eapply uses_then; [by apply (uses_lift (fun _ => 0%nat))|intros ?]
  | |- uses weight (if ?c then _ else _) => destruct c
  end.

Section Readers.
Context (fuel : nat) (names : gmap bytes bytes).

Lemma eats_iri : eats (read_iri names).
Proof. unfold read_iri. eating. quietly. Qed.
Hint Resolve eats_iri : consumes.

(** A reader that turns one component into another. *)
Lemma eats_map (r : Reader component) (f : component -> component) :
  eats r -> (forall c, weight (f c) = 1%nat) -> eats (c ← r; mret (f c)).
Proof.
  intros Hr Hf. apply eats_then.
  - eapply uses_weaken; [exact Hr|]. apply weight_pos.
  - intros c. apply uses_ret. by rewrite Hf.
Qed.

Lemma eats_entity k : eats (read_entity names k).
Proof. by apply eats_map; [apply eats_iri|]. Qed.
Hint Resolve eats_entity : consumes.

Lemma eats_individual : eats (read_individual names).
Proof. unfold read_individual. eating; [|apply eats_entity]. quietly. Qed.

Lemma light_then {A} (r : Reader A) (g : A -> Reader component) :
  quiet r -> (forall a, light (g a)) -> light (r ≫= g).
Proof. apply uses_then. Qed.

Lemma eats_object_property : eats (read_object_property names).
Proof.
  unfold read_object_property. eating; [|apply eats_entity].
  eapply uses_then; [apply uses_within; eapply eats_quiet, eats_entity|]. intros c. by apply light_component.
Qed.

Lemma eats_literal : eats (read_literal names).
Proof.
  unfold read_literal. eating. eapply uses_then; [apply quiet_test|]. intros [].
  - quietly.
  - eapply uses_then; [apply quiet_test|]. intros hat. eapply uses_then; [|intros c; by apply uses_ret].
    destruct hat; [|by apply (uses_ret (fun _ => 0%nat))]. eapply uses_then; [apply uses_next|]. intros _.
    eapply eats_quiet, eats_entity.
Qed.
Hint Resolve eats_individual eats_object_property eats_literal : consumes.

Lemma eats_subject : eats (read_subject names).
Proof. unfold read_subject. eating; auto with consumes. Qed.
Lemma eats_value : eats (read_value names).
Proof. unfold read_value. eating; auto using eats_subject with consumes. Qed.
Lemma eats_facet : eats (facet names).
Proof.
  unfold facet. apply eats_then; [eapply uses_weaken; [apply eats_iri|apply weight_pos]|]. intros f.
  eapply uses_then; [apply eats_literal|]. intros v. by apply light_component.
Qed.
Hint Resolve eats_subject eats_value eats_facet : consumes.

(** ** Collections *)

Lemma uses_many_loop n r : eats r -> forall cs ts ds ts',
  read_many_loop n r cs ts = (Ok ds, ts') -> (total ds + length ts' <= total cs + length ts)%nat.
Proof.
  intros Hr. induction n as [|n IH]; intros cs ts ds ts' E; cbn [read_many_loop] in E; unfold mbind, M_bind in E.
  all: destruct (test (is_kind KClose) ts) as [[[]|e|] ts1] eqn:Et; try discriminate E.
  all: pose proof (quiet_test _ _ _ _ Et) as Hle; cbn beta in Hle.
  1,2: injection E as <- <-; lia.
  destruct (r ts1) as [[c|e|] ts2] eqn:Ec; try discriminate E. specialize (Hr _ _ _ Ec). apply IH in E.
  rewrite total_app in E. assert (total [c] = weight c) by (unfold total; cbn; lia). lia.
Qed.

Lemma uses_many r : eats r -> uses total (read_many fuel r).
Proof. intros Hr ts cs ts' E. apply (uses_many_loop _ _ Hr) in E. unfold total at 2 in E. cbn in E. lia. Qed.

Lemma quiet_at_least minimum cs : quiet (at_least minimum cs).
Proof. unfold at_least. quietly. Qed.

Lemma quiet_set r minimum : eats r -> quiet (read_set fuel r minimum).
Proof.
  intros Hr. eapply uses_then; [by apply uses_many|]. intros cs. apply quiet_at_least.
Qed.

Lemma eats_operator r t : eats r -> flattens t = true -> eats (read_operator fuel r t).
Proof.
  intros Hr Ht ts c ts' E. unfold read_operator, mbind, M_bind in E.
  destruct (read_many fuel r ts) as [[cs|e|] ts1] eqn:E1; try done. apply (uses_many r Hr) in E1.
  unfold at_least, ensure_not, fail_if, mbind, M_bind, lift in E. destruct (len cs <? 2); [done|].
  unfold mret, M_ret in E. destruct (len (set_of (Some t) cs) <? 1); [done|].
  destruct (close_token ts1) as [[u|e|] ts2] eqn:E2; try done. apply uses_close in E2.
  assert (total (set_of (Some t) cs) <= total cs)%nat as Hset by (apply total_set_of; by intros ? [= <-]).
  assert (c = Component t [PSet (set_of (Some t) cs)] \/ set_of (Some t) cs = [c]) as [->|Hc].
  { destruct (set_of (Some t) cs) as [|d [|d' ds]]; injection E as <- <-; auto. }
  all: assert (ts' = ts2) as -> by (destruct (set_of (Some t) cs) as [|d [|d' ds]]; by injection E).
  - cbn [weight]. rewrite Ht. fold (total (set_of (Some t) cs)). lia.
  - rewrite Hc in Hset. unfold total at 1 in Hset. cbn in Hset. lia.
Qed.

Lemma quiet_annotations_loop n r : quiet r -> forall cs, quiet (read_annotations_loop n r cs).
Proof.
  intros Hr. induction n as [|n IH]; intros cs; cbn [read_annotations_loop].
  all: eapply uses_then; [apply quiet_test|]; intros []; try (by apply uses_ret).
  - by apply uses_lift.
  - eapply uses_then; [exact Hr|]. intros c. apply IH.
Qed.
Lemma quiet_annotations_with r : quiet r -> quiet (read_annotations_with fuel r).
Proof.
  intros Hr. eapply uses_then; [by apply quiet_annotations_loop|]. intros cs. by apply uses_ret.
Qed.

Lemma eats_annotation n : eats (read_annotation_fuel fuel names n).
Proof.
  induction n as [|n IH]; cbn [read_annotation_fuel]; [by apply uses_lift|]. eating.
  apply uses_within. eapply uses_then; [by eapply quiet_annotations_with, eats_quiet|]. intros as_.
  eapply uses_then; [apply eats_entity|]. intros c. eapply uses_then; [apply eats_value|]. intros v.
  by apply light_component.
Qed.

Lemma quiet_annotations : quiet (read_annotations fuel names).
Proof. eapply quiet_annotations_with, eats_quiet, eats_annotation. Qed.

(** ** Forms *)

Definition shape_ok (s : shape) : Prop :=
  match s with
  | One r | Otherwise r _ | Unordered r => quiet r
  | Some_of r _ | Chain r _ => eats r
  | Keys r s => eats r /\ eats s
  | Path r => quiet r
  | Number => True
  end.

Lemma quiet_path n range : quiet range -> forall properties, quiet (read_path names n range properties).
Proof.
  intros Hr. induction n as [|n IH]; intros ps; cbn [read_path].
  all: eapply uses_then; [apply quiet_test|]; intros []; try apply uses_throw.
  - by apply uses_lift.
  - eapply uses_then; [apply quiet_head_name|]. intros name. destruct (match name with Some _ => _ | None => _ end).
    + eapply uses_then; [apply quiet_at_least|]. intros _. eapply uses_then; [exact Hr|]. intros c. by apply uses_ret.
    + eapply uses_then; [apply eats_iri|]. intros c. eapply uses_then; [apply quiet_test|]. intros []; [|apply IH].
      eapply uses_then; [apply quiet_at_least|]. intros _. by apply uses_ret.
Qed.

Lemma quiet_shape s : shape_ok s -> quiet (read_shape fuel names s).
Proof.
  destruct s; cbn [shape_ok read_shape]; intros Hs.
  - eapply uses_then; [exact Hs|]. intros c. by apply uses_ret.
  - eapply uses_then; [by apply quiet_set|]. intros c. by apply uses_ret.
  - eapply uses_then; [by apply uses_many|]. intros c. eapply uses_then; [apply quiet_at_least|]. intros d. by apply uses_ret.
  - quietly.
  - eapply uses_then; [|intros c; by apply uses_ret]. unfold otherwise. eapply uses_then; [apply quiet_test|].
    intros []; [by apply (uses_ret (fun _ => 0%nat))|exact Hs].
  - eapply uses_then; [exact Hs|]. intros c. eapply uses_then; [exact Hs|]. intros d. by apply uses_ret.
  - destruct Hs as [H1 H2].
    eapply uses_then; [by apply uses_within, quiet_set|]. intros c. eapply uses_then; [by apply uses_within, quiet_set|].
    intros d. quietly.
  - eapply uses_then; [by apply quiet_path|]. intros c. by apply uses_ret.
Qed.

Lemma quiet_shapes shapes : Forall shape_ok shapes -> quiet (read_shapes fuel names shapes).
Proof.
  induction 1 as [|s shapes Hs _ IH]; cbn [read_shapes]; [by apply uses_ret|].
  eapply uses_then; [by apply quiet_shape|]. intros ps. eapply uses_then; [exact IH|]. intros qs. by apply uses_ret.
Qed.

Definition form_ok (f : string * (Z * list shape)) : Prop :=
  flattens (fst (snd f)) = false /\ Forall shape_ok (snd (snd f)).

Lemma named_In {A} name (table : list (string * A)) a : named name table = Some a -> exists k, In (k, a) table.
Proof.
  induction table as [|[k b] table IH]; cbn [named]; [done|]. case_match.
  - intros [= ->]. exists k. by left.
  - intros H'. destruct (IH H') as [k' ?]. exists k'. by right.
Qed.

Lemma read_form_ok table name : Forall form_ok table ->
  forall ts f ts', read_form fuel names table name ts = (Ok f, ts') -> flattens (fst f) = false /\ (length ts' <= length ts)%nat.
Proof.
  intros Ht ts f ts' E. unfold read_form, mbind, M_bind, lift in E.
  destruct (named name table) as [[t shapes]|] eqn:En; cbn [ok_or] in E; [|done].
  destruct (named_In _ _ _ En) as [k Hk%list_elem_of_In]. rewrite Forall_forall in Ht. destruct (Ht _ Hk) as [Hf Hs].
  destruct (read_shapes fuel names (snd (t, shapes)) ts) as [[ps|e|] ts1] eqn:E1; [|done|done].
  injection E as <- <-. apply (quiet_shapes _ Hs) in E1. by split.
Qed.

(** A form that ends with its parenthesis. *)
Lemma light_form table name (g : Z * list part -> Reader unit) :
  Forall form_ok table -> (forall f, quiet (g f)) ->
  light (f ← read_form fuel names table name; g f;; mret (Component (fst f) (snd f))).
Proof.
  intros Ht Hg ts c ts' E. unfold mbind, M_bind in E.
  destruct (read_form fuel names table name ts) as [[f|e|] ts1] eqn:E1; try discriminate E.
  apply (read_form_ok table name Ht) in E1 as [Hf Hle].
  destruct (g f ts1) as [[u|e|] ts2] eqn:E2; try discriminate E. apply Hg in E2. cbn beta in E2.
  injection E as <- <-. cbn [weight]. rewrite Hf. lia.
Qed.

Lemma eats_call operators table r name :
  Forall (fun o : string * Z => flattens (snd o) = true) operators -> Forall form_ok table -> eats r ->
  eats (read_call fuel names operators table r name).
Proof.
  intros Ho Ht Hr. unfold read_call. eating. eapply uses_then; [apply uses_open|]. intros _.
  destruct (named name operators) as [t|] eqn:E.
  - destruct (named_In _ _ _ E) as [k Hk%list_elem_of_In]. rewrite Forall_forall in Ho. specialize (Ho _ Hk).
    eapply uses_weaken; [by apply eats_operator|]. intros c. lia.
  - apply (light_form table name (fun _ => close_token)); [done|]. intros f. eapply eats_quiet, uses_close.
Qed.

Ltac forms_ok :=
  repeat (apply Forall_cons; split); try apply Forall_nil_2;
  try (split; [reflexivity|cbn [snd]; repeat (apply Forall_cons; split); try apply Forall_nil_2; cbn [shape_ok]]);
  repeat split; eauto using eats_quiet with consumes.

Lemma data_range_forms_ok range : eats range -> Forall form_ok (data_range_forms names range).
Proof. intros Hr. unfold data_range_forms. forms_ok. Qed.

Lemma eats_data_range n : eats (read_data_range_fuel fuel names n).
Proof.
  induction n as [|n IH]; cbn [read_data_range_fuel]; [by apply uses_lift|]. eating.
  case_match; [|apply eats_entity]. apply eats_call; [by repeat constructor|by apply data_range_forms_ok|done].
Qed.
Lemma eats_range : eats (read_data_range fuel names).
Proof. apply eats_data_range. Qed.
Hint Resolve eats_range : consumes.

Lemma class_forms_ok class : eats class -> Forall form_ok (class_forms fuel names class).
Proof. intros Hc. unfold class_forms. cbv zeta. forms_ok. Qed.

Lemma eats_class_fuel n : eats (read_class_fuel fuel names n).
Proof.
  induction n as [|n IH]; cbn [read_class_fuel]; [by apply uses_lift|]. eating.
  destruct (match a with Some _ => _ | None => _ end); [|apply eats_entity].
  apply eats_call; [by repeat constructor|by apply class_forms_ok|done].
Qed.
Lemma eats_class : eats (read_class_expression fuel names).
Proof. apply eats_class_fuel. Qed.

Lemma eats_variable : eats (read_variable names).
Proof.
  unfold read_variable. eating. eapply uses_then; [apply uses_within, eats_iri|]. intros c. by apply light_component.
Qed.
Lemma eats_argument r : eats r -> eats (read_argument names r).
Proof. intros Hr. unfold read_argument. eating; [apply eats_variable|done]. Qed.
Hint Resolve eats_class eats_argument : consumes.

Lemma atom_forms_ok : Forall form_ok (atom_forms fuel names).
Proof. unfold atom_forms. cbv zeta. forms_ok. Qed.

Lemma eats_atom : eats (read_atom fuel names).
Proof.
  unfold read_atom. eating. unfold within. intros ts c ts' E.
  assert (light ((open_token;; f ← read_form fuel names (atom_forms fuel names) (token_value a);
    close_token;; mret (Component (fst f) (snd f))) : Reader component)) as H.
  { eapply uses_then; [apply uses_open|]. intros _.
    apply (light_form _ _ (fun _ => close_token)); [apply atom_forms_ok|]. intros f. eapply eats_quiet, uses_close. }
  apply (H ts). rewrite <- E. unfold mbind, M_bind, mret, M_ret.
  destruct (open_token ts) as [[u|e|] ts1]; try done.
  destruct (read_form _ _ _ _ ts1) as [[f|e|] ts2]; try done. by destruct (close_token ts2) as [[u'|e|] ts3].
Qed.

(** ** Axioms, rules and the members of documents *)

Notation takes := (uses (fun _ => 1%nat)).

Lemma takes_then {A B} (r : Reader A) (g : A -> Reader B) : takes r -> (forall a, quiet (g a)) -> takes (r ≫= g).
Proof. intros Hr Hg. eapply uses_bind; [exact Hr|exact Hg|]. intros a b. cbn. lia. Qed.

Lemma eats_takes (r : Reader component) : eats r -> takes r.
Proof. intros H. eapply uses_weaken; [exact H|apply weight_pos]. Qed.

Lemma eats_declared : eats (read_declared names).
Proof.
  unfold read_declared. apply eats_then; [apply uses_token|]. intros t.
  destruct (named _ _) as [k|] eqn:E; [|by intros ts c ts'].
  change (lift (ok_or (Some k) syntax) ≫= ?f) with (f k). cbv beta. apply uses_within. unfold read_entity.
  eapply uses_then; [eapply eats_quiet, eats_iri|]. intros c. by apply uses_ret.
Qed.

Lemma eats_sub_property : eats (read_sub_property fuel names).
Proof.
  unfold read_sub_property. eating; [|apply eats_object_property].
  eapply uses_then; [apply uses_within, quiet_shape; apply eats_object_property|]. intros ps. by apply light_component.
Qed.
Hint Resolve eats_declared eats_sub_property : consumes.

Lemma axiom_forms_ok : Forall form_ok (axiom_forms fuel names).
Proof. unfold axiom_forms. cbv zeta. forms_ok. Qed.

Lemma takes_axiom : takes (read_axiom fuel names).
Proof.
  unfold read_axiom. apply takes_then; [apply uses_token|]. intros t. unfold axiom_form.
  destruct (is_name _ _).
  - change (lift (ok_or (Some ?x) syntax) ≫= ?f) with (f x). cbv beta.
    eapply uses_then; [apply uses_open|]. intros _. eapply uses_then; [apply quiet_annotations|]. intros bs.
    eapply uses_then; [apply uses_many, eats_class|]. intros cs.
    eapply uses_then; [apply uses_close|]. intros _. eapply uses_then; [apply quiet_at_least|].
    intros ?. by apply (uses_ret (fun _ => 0%nat)).
  - destruct (named _ _) as [[tag shapes]|] eqn:En; [|by intros ts c ts'].
    change (lift (ok_or (Some <$> Some ?x) syntax) ≫= ?f) with (f (Some x)). cbv beta.
    eapply uses_then; [apply uses_open|]. intros _. eapply uses_then; [apply quiet_annotations|]. intros bs.
    eapply uses_then; [|intros ps; quietly]. apply quiet_shapes.
    destruct (named_In _ _ _ En) as [k Hk%list_elem_of_In]. pose proof axiom_forms_ok as Hok.
    rewrite Forall_forall in Hok. apply (Hok _ Hk).
Qed.

Lemma takes_rule : takes (read_rule fuel names).
Proof.
  unfold read_rule. apply takes_then; [apply uses_keyword|]. intros _. apply uses_within.
  eapply uses_then; [apply quiet_annotations|]. intros bs.
  eapply uses_then; [apply uses_within, quiet_set, eats_atom|]. intros cs.
  eapply uses_then; [apply uses_within, quiet_set, eats_atom|]. intros ds. by apply uses_ret.
Qed.
End Readers.

Lemma takes_prefix : uses (fun _ => 1%nat) read_prefix.
Proof.
  unfold read_prefix. apply takes_then; [apply uses_keyword|]. intros _. apply uses_within. quietly.
Qed.
