(* ===== verification/Refines.v ===== *)
(** * IRI escapes

    [decode_iri_escapes] walks over the characters of a string by offsets; it
    computes [unescape], and reports a syntax error where that is undefined. *)

From S2P Require Import Prelude Bytes Order Error Machine Atomic Limits Cancel Session Lexical Scan Component Encode Tokenizer Functional Utf8 Grammar Denotes.

(** ** Hexadecimal digits *)

Lemma hex_value_bound b : is_ascii_hexdigit b = true -> 0 <= hex_value b <= 15 /\ 48 <= b <= 102.
Proof.
  unfold is_ascii_hexdigit, hex_value, is_ascii_digit. rewrite !orb_true_iff.
  destruct (in_range 48 57 b) eqn:E1; [decide_range; lia|].
  destruct (in_range 65 70 b) eqn:E2; [decide_range; lia|].
  intros [[?|?]|?]; try done. decide_range. lia.
Qed.

Lemma hex_fold_bound l : forallb is_ascii_hexdigit l = true -> forall n, 0 <= n ->
  0 <= foldl (fun n b => n * 16 + hex_value b) n l < (n + 1) * 16 ^ len l.
Proof.
  induction l as [|b l IH]; intros H n Hn; cbn [foldl length forallb] in *.
  { change (16 ^ Z.of_nat 0) with 1. lia. }
  apply andb_true_iff in H as [Hb Hl]. apply hex_value_bound in Hb as [Hb _].
  specialize (IH Hl (n * 16 + hex_value b) ltac:(lia)).
  rewrite Nat2Z.inj_succ, Z.pow_succ_r by lia. assert (0 < 16 ^ len l) by (apply Z.pow_pos_nonneg; lia). nia.
Qed.

Lemma hex_ascii l : forallb is_ascii_hexdigit l = true -> Forall (fun b => in_range 0 0x7f b = true) l.
Proof.
  rewrite forallb_forall, Forall_forall. intros H b Hb%list_elem_of_In. apply H, hex_value_bound in Hb as [_ Hb].
  apply in_range_true. lia.
Qed.

(** ** The reference *)

Lemma unescape_fuel n : forall m l, (length l <= n)%nat -> (length l <= m)%nat -> unescape_loop n l = unescape_loop m l.
Proof.
  induction n as [|n IH]; intros m l Hn Hm; (destruct l as [|b l]; [by destruct m|]); [cbn in Hn; lia|].
  destruct m as [|m]; [cbn in Hm; lia|]. cbn [length] in *. cbn [unescape_loop].
  destruct (b =? 92).
  - destruct l as [|marker l]; [done|]. cbn [length] in *.
    destruct (escape_width marker) as [width|]; [|done]. cbn. destruct (escaped_scalar _ _); [|done]. cbn.
    by rewrite (IH m) by (rewrite length_drop; lia).
  - by rewrite (IH m) by lia.
Qed.

(** The text up to the next escape. *)
Lemma unescape_plain s y n :
  Forall (fun b => b <> 92) s -> (length (s ++ y) <= n)%nat ->
  unescape_loop n (s ++ y) = app s <$> unescape_loop (length y) y.
Proof.
  intros Hs. revert n. induction Hs as [|b s Hb _ IH]; intros n Hn; cbn [app].
  - rewrite (unescape_fuel n (length y)) by (cbn in *; lia). by destruct (unescape_loop _ y).
  - destruct n as [|n]; [cbn in Hn; lia|]. cbn [unescape_loop]. rewrite (proj2 (Z.eqb_neq b 92)) by done.
    rewrite IH by (cbn in Hn; lia). by destruct (unescape_loop _ y).
Qed.

Lemma no_backslash l : contains_byte 92 l = false -> unescape l = Some l.
Proof.
  intros H. unfold unescape. rewrite <- (app_nil_r l) at 2. rewrite unescape_plain.
  - cbn. by rewrite app_nil_r.
  - apply Forall_forall. intros b Hb%list_elem_of_In. unfold contains_byte in H.
    intros ->. apply not_true_iff_false in H. apply H, existsb_exists. by exists 92.
  - by rewrite app_nil_r.
Qed.

Lemma unescape_escape n marker l :
  unescape_loop (S n) (92 :: marker :: l) =
  match escape_width marker with
  | Some width =>
      match escaped_scalar (take width l) width with
      | Some c => app (utf8_encode c) <$> unescape_loop n (drop width l)
      | None => None
      end
  | None => None
  end.
Proof. done. Qed.

(** ** The loop *)

Lemma char_not_backslash s c : utf8_char s c -> head s <> Some 92 -> Forall (fun b => b <> 92) s.
Proof.
  intros Hs Hh. destruct (char_shape _ _ Hs) as (a & t & -> & _ & Ht). constructor; [by intros ->|].
  eapply Forall_impl; [exact Ht|]. cbn. intros b Hb ->. done.
Qed.

(** A well-formed escape is a slice between characters, and no other slice is
    one. *)
Lemma escape_slice pre l width :
  is_utf8 l = true ->
  (match str_get (pre ++ l) (len pre) (len pre + Z.of_nat width) with
   | Some digits => if forallb is_ascii_hexdigit digits then
                      match from_str_radix16 digits with
                      | Some c => if is_scalar c then Some c else None
                      | None => None
                      end
                    else None
   | None => None
   end) = escaped_scalar (take width l) width \/ (8 < width)%nat.
Proof.
  intros Hl. destruct (decide (8 < width)%nat) as [Hw|Hw]; [by right|left].
  unfold escaped_scalar. destruct (length (take width l) =? width)%nat eqn:Elen; cbn [andb].
  - apply Nat.eqb_eq in Elen. destruct (forallb is_ascii_hexdigit (take width l)) eqn:Ehex.
    + rewrite <- (take_drop width l) at 1. pose proof (ascii_utf8 _ (drop width l) (hex_ascii _ Ehex)) as Ha.
      rewrite take_drop, Hl in Ha. symmetry in Ha.
      replace (len pre + Z.of_nat width) with (len pre + len (take width l)) by lia.
      rewrite str_get_mid, Ehex; [|rewrite take_drop; by apply utf8_starts|by apply utf8_starts].
      unfold from_str_radix16. pose proof (hex_fold_bound _ Ehex 0 ltac:(lia)) as Hb. rewrite Elen in Hb.
      assert (16 ^ Z.of_nat width <= 16 ^ 8) by (apply Z.pow_le_mono_r; lia).
      change (16 ^ 8) with (U32_MAX + 1) in *. by rewrite try_from_ok by lia.
    + destruct (str_get _ _ _) as [x|] eqn:Ex; [|done]. unfold str_get in Ex.
      destruct (is_char_boundary _ _ && _); [|done]. apply get_range_Some in Ex as [_ (p & q & E & Hp & Hx)].
      apply app_inj_1 in E as [-> E]; [|lia]. subst l. rewrite take_app_length' in Ehex by lia. by rewrite Ehex.
  - apply Nat.eqb_neq in Elen. destruct (str_get _ _ _) as [x|] eqn:Ex; [|done]. exfalso. unfold str_get in Ex.
    destruct (is_char_boundary _ _ && _); [|done]. apply get_range_length in Ex as (_ & _ & Ex).
    rewrite length_app in Ex. rewrite length_take in Elen. lia.
Qed.

Lemma decode_loop_spec : forall n pre suf out,
  is_utf8 suf = true -> (length suf <= n)%nat ->
  decode_loop n (pre ++ suf) (len pre) out =
  match unescape_loop (length suf) suf with Some x => Ok (out ++ x) | None => Err syntax end.
Proof.
  induction n as [|n IH]; intros pre suf out Hu Hn; cbn [decode_loop].
  { destruct suf; [|cbn in Hn; lia]. rewrite app_nil_r, Z.ltb_irrefl. cbn. by rewrite app_nil_r. }
  destruct suf as [|b suf]; [rewrite app_nil_r, Z.ltb_irrefl; cbn; by rewrite app_nil_r|].
  rewrite (proj2 (Z.ltb_lt _ _)) by (rewrite length_app; cbn [length]; lia).
  assert (get_at (pre ++ b :: suf) (len pre) = Some b) as Hb.
  { apply get_at_Some. split; [lia|]. rewrite Nat2Z.id. by apply list_lookup_middle. }
  unfold index_at. rewrite Hb. unfold mbind, outcome_mbind. cbn [or_panic outcome_bind].
  destruct (b =? 92) eqn:E; cbn [negb].
  - apply Z.eqb_eq in E as ->. rewrite is_utf8_cons_ascii in Hu by done.
    destruct suf as [|marker suf].
    { unfold get_at at 1. rewrite (proj2 (Z.ltb_ge _ _)) by (rewrite length_app; cbn [length]; lia). by rewrite andb_false_r. }
    assert (get_at (pre ++ 92 :: marker :: suf) (len pre + 1) = Some marker) as ->.
    { apply get_at_Some. split; [lia|]. replace (Z.to_nat (len pre + 1)) with (length pre + 1)%nat by lia.
      by rewrite lookup_app_r, Nat.add_sub' by lia. }
    cbn [ok_or outcome_bind length]. rewrite unescape_escape.
    destruct (escape_width marker) as [width|] eqn:Ew; unfold escape_width in Ew.
    2: { destruct (marker =? 117); [done|]. by destruct (marker =? 85). }
    assert (in_range 0 0x7f marker = true) as Hm.
    { destruct (Z.eqb_spec marker 117) as [->|]; [done|]. by destruct (Z.eqb_spec marker 85) as [->|]. }
    rewrite is_utf8_cons_ascii in Hu by done.
    assert ((if marker =? 117 then Ok 4 else if marker =? 85 then Ok 8 else Err syntax) = Ok (Z.of_nat width)) as ->.
    { destruct (marker =? 117); [by injection Ew as <-|]. destruct (marker =? 85); [by injection Ew as <-|done]. }
    assert (width <= 8)%nat as Hw.
    { destruct (marker =? 117); [injection Ew as <-; lia|]. destruct (marker =? 85); [injection Ew as <-; lia|done]. }
    cbn [outcome_bind]. replace (pre ++ 92 :: marker :: suf) with ((pre ++ [92; marker]) ++ suf) by by rewrite <- app_assoc.
    replace (len pre + 2) with (len (pre ++ [92; marker])) by (rewrite length_app; cbn [length]; lia).
    set (p2 := pre ++ [92; marker]). destruct (escape_slice p2 suf width Hu) as [Hs|]; [|lia].
    revert Hs. destruct (escaped_scalar (take width suf) width) as [c|] eqn:Ec.
    + destruct (str_get _ _ _) as [digits|]; [|done]. cbn [ok_or outcome_bind].
      destruct (forallb is_ascii_hexdigit digits) eqn:Ehex; [|done]. cbn [negb fail_if outcome_bind].
      destruct (from_str_radix16 digits) as [c'|]; [|done]. cbn [ok_or outcome_bind].
      destruct (is_scalar c'); [|done]. intros [= ->]. cbn [ok_or outcome_bind].
      unfold escaped_scalar in Ec. destruct (length (take width suf) =? width)%nat eqn:El; [|done].
      cbn [andb] in Ec. destruct (forallb is_ascii_hexdigit (take width suf)) eqn:Eh; [|done]. apply Nat.eqb_eq in El.
      rewrite <- (take_drop width suf) in Hu at 1. rewrite ascii_utf8 in Hu by by apply hex_ascii.
      replace (p2 ++ suf) with ((p2 ++ take width suf) ++ drop width suf) by by rewrite <- app_assoc, take_drop.
      replace (len p2 + Z.of_nat width) with (len (p2 ++ take width suf)) by (rewrite length_app; lia).
      rewrite IH; [|done|rewrite length_drop; cbn [length] in Hn; lia].
      rewrite (unescape_fuel (S (length suf)) (length (drop width suf))) by (rewrite ?length_drop; lia).
      destruct (unescape_loop _ _); [|done]. cbn. by rewrite <- app_assoc.
    + destruct (str_get _ _ _) as [digits|]; [|done]. cbn [ok_or outcome_bind].
      destruct (forallb is_ascii_hexdigit digits); [|done]. cbn [negb fail_if outcome_bind].
      destruct (from_str_radix16 digits) as [c'|]; [|done]. cbn [ok_or outcome_bind]. by destruct (is_scalar c').
  - apply Z.eqb_neq in E. pose proof Hu as Hu'. apply is_utf8_chars in Hu' as [[|c cs] Hc]; [by apply utf8_nil in Hc|].
    pose proof (utf8_uncons _ _ _ Hc) as (s & y & Es & Hs & Hy).
    assert (first_char (pre ++ b :: suf) (len pre) = Ok (Some c)) as ->.
    { unfold first_char, str_index.
      assert (str_get (pre ++ b :: suf) (len pre) (len (pre ++ b :: suf)) = Some (b :: suf)) as ->.
      { rewrite <- (app_nil_r (b :: suf)) at 1. rewrite length_app, Nat2Z.inj_add. apply str_get_mid; [|done].
        rewrite app_nil_r. by apply utf8_starts. }
      unfold chars, mbind, outcome_mbind, mret, outcome_ret. cbn [or_panic outcome_bind]. by rewrite Hc. }
    cbn [outcome_bind ok_or]. rewrite <- (char_encodes _ _ Hs), Es in *.
    assert (Forall (fun b => b <> 92) s) as Hns.
    { eapply char_not_backslash; [exact Hs|]. destruct (char_shape _ _ Hs) as (a & t & -> & _ & _).
      cbn in *. injection Es as <- _. by intros [= ->]. }
    rewrite app_assoc. replace (len pre + len s) with (len (pre ++ s)) by (rewrite length_app; lia).
    rewrite IH.
    + rewrite (unescape_plain s y) by done. destruct (unescape_loop (length y) y); [|done]. cbn. by rewrite app_assoc.
    + apply is_utf8_chars. eauto.
    + destruct (char_shape _ _ Hs) as (a & t & -> & _ & _). rewrite length_app in Hn. cbn [length] in *. lia.
Qed.

Lemma wpx_decode_escapes v w :
  is_utf8 v = true ->
  wpx (decode_iri_escapes v) (fun out _ => unescape v = Some out)
    (fun e _ => operational e \/ (code e = code syntax /\ unescape v = None)) w.
Proof.
  intros Hv. unfold decode_iri_escapes. destruct (contains_byte 92 v) eqn:E; cbn [negb].
  - xstep. eapply wpx_mono; [apply (wpx_operational _ (fun _ _ => True)); [by apply wp_try_reserve|operational]| |by left].
    intros _ w' _. apply wpx_lift. pose proof (decode_loop_spec (length v) [] v [] Hv ltac:(done)) as H.
    cbn [app length] in H. change (Z.of_nat 0) with 0 in H. rewrite H. unfold unescape.
    destruct (unescape_loop (length v) v); [done|]. by right.
  - xstep. by apply no_backslash.
Qed.

(** * Parsers that refine readers

    [refines k d d' R m r]: with at most [k] tokens left and [d] open
    parentheses, the parser [m] never panics and agrees with the reader [r] on
    the remaining tokens.  It consumes what [r] consumes and returns a value
    related by [R], with [d'] parentheses open; it fails as [r] does, or for
    want of resources. *)

(** ** Parser states *)

Definition rest (p : Parser) : list Token := drop (Z.to_nat (index p)) (tokens p).

(** The end of the source is the last token, and only the last. *)
Fixpoint ends_with_eof (ts : list Token) : Prop :=
  match ts with
  | [] => False
  | [t] => kind t = KEof
  | t :: ts => kind t <> KEof /\ ends_with_eof ts
  end.

(** What the tokenizer guarantees of a token. *)
Record token_ok (t : Token) : Prop := {
  token_utf8 : is_utf8 (token_value t) = true;
  token_small : len (token_value t) <= USIZE_MAX;
  token_digits : kind t = KInteger -> token_value t <> [] /\ forallb is_ascii_digit (token_value t) = true
}.

(** An error that the reader has as well, or that is operational. *)
Definition explained {B} (r : Reader B) (ts : list Token) (e : NativeError) : Prop :=
  operational e \/ exists e', fst (r ts) = Err e' /\ code e' = code e.

Section Refines.
Context (fuel : nat) (names : gmap bytes bytes).
Hypothesis fuel_small : Z.of_nat fuel < USIZE_MAX.

Record reading (k : nat) (d : Z) (p : Parser) : Prop := {
  r_session : session_ok (session p);
  r_fuel : length (tokens p) = fuel;
  r_index : 0 <= index p;
  r_names : prefixes p = names;
  r_eof : ends_with_eof (rest p);
  r_tokens : Forall token_ok (rest p);
  r_length : (length (rest p) <= k)%nat;
  r_depth : nesting p = d;
  r_positive : 0 <= d
}.

(** What parsing leaves alone; [p'] is further on in the same tokens. *)
Record follows (p p' : Parser) : Prop := {
  f_tokens : tokens p' = tokens p;
  f_swrl : swrl_allowed p' = swrl_allowed p;
  f_codepoints : codepoints p' = codepoints p;
  f_limits : limits (session p') = limits (session p);
  f_index : index p <= index p'
}.

Lemma follows_refl p : follows p p.
Proof. done. Qed.
Lemma follows_trans p q r : follows p q -> follows q r -> follows p r.
Proof. intros [] []. constructor; etrans; eauto. Qed.

Definition refines_at {A B} (t : Token) (k : nat) (d d' : Z) (R : A -> B -> Prop)
    (m : M Parser A) (r : Reader B) : Prop :=
  forall p, reading k d p -> head (rest p) = Some t ->
  wpx m (fun a p' => reading k d' p' /\ follows p p' /\
                     exists b, r (rest p) = (Ok b, rest p') /\ R a b)
        (fun e _ => explained r (rest p) e) p.

Definition refines {A B} (k : nat) (d d' : Z) (R : A -> B -> Prop) (m : M Parser A) (r : Reader B) : Prop :=
  forall t, token_ok t -> refines_at t k d d' R m r.

(** There is always a token to look at. *)
Lemma reading_head k d p : reading k d p -> exists t, head (rest p) = Some t /\ token_ok t.
Proof.
  intros H. pose proof (r_eof _ _ _ H) as He. pose proof (r_tokens _ _ _ H) as Ht.
  destruct (rest p) as [|t ts]; [done|]. apply Forall_cons in Ht as [Ht _]. by exists t.
Qed.

Lemma head_at p t : 0 <= index p -> head (rest p) = Some t <-> get_at (tokens p) (index p) = Some t.
Proof.
  intros Hi. unfold rest. rewrite get_at_Some.
  assert (head (drop (Z.to_nat (index p)) (tokens p)) = tokens p !! Z.to_nat (index p)) as ->; [|naive_solver].
  rewrite <- (Nat.add_0_r (Z.to_nat (index p))) at 2. rewrite <- lookup_drop. by destruct (drop _ _).
Qed.

Lemma index_lt k d p : reading k d p -> index p < len (tokens p).
Proof.
  intros H. destruct (reading_head k d p H) as (t & Ht & _). apply head_at, get_at_lt in Ht; [lia|apply H].
Qed.

Section Rules.
Context {A A' B B' : Type}.
Implicit Types (k : nat) (d : Z).

Lemma refines_weaken_at t k d d' (R : A -> B -> Prop) m r : token_ok t -> refines k d d' R m r -> refines_at t k d d' R m r.
Proof. auto. Qed.

(** Fewer tokens. *)
Lemma reading_le k k' d p : (k <= k')%nat -> reading k d p -> reading k' d p.
Proof. intros Hk []. constructor; try done. lia. Qed.

Lemma refines_le k k' d d' (R : A -> B -> Prop) m r : (k <= k')%nat -> refines k' d d' R m r -> refines k d d' R m r.
Proof.
  intros Hk H t Ht p Hp Hh. eapply wpx_mono; [apply (H t Ht); [by eapply reading_le|done]| |done].
  intros a p' (Hp' & Hf & b & Hb & HR). split; [|by eauto]. destruct Hp' as [H1 H2 H3 H4 H5 H6 H7 H8 H9].
  constructor; try done. unfold rest. rewrite (f_tokens _ _ Hf), length_drop.
  pose proof (r_length _ _ _ Hp) as Hl. unfold rest in Hl. rewrite length_drop in Hl.
  pose proof (f_index _ _ Hf). lia.
Qed.

Lemma refines_mono k d d' (R R' : A -> B -> Prop) m r :
  (forall a b, R a b -> R' a b) -> refines k d d' R m r -> refines k d d' R' m r.
Proof.
  intros HR H t Ht p Hp Hh. eapply wpx_mono; [by apply (H t Ht)| |done].
  intros a p' (Hp' & Hf & b & Hb & Hab). split_and!; eauto.
Qed.

Lemma refines_ret k d (R : A -> B -> Prop) a b : R a b -> refines k d d R (mret a) (mret b).
Proof. intros HR t Ht p Hp Hh. xstep. split; [done|]. split; [apply follows_refl|]. by exists b. Qed.

Lemma refines_at_bind t k d d1 d2 (R : A -> B -> Prop) (R' : A' -> B' -> Prop) m r f g :
  refines_at t k d d1 R m r -> (forall a b, R a b -> refines k d1 d2 R' (f a) (g b)) ->
  refines_at t k d d2 R' (m ≫= f) (r ≫= g).
Proof.
  intros Hm Hf p Hp Hh. xstep. eapply wpx_mono; [by apply Hm|..].
  - intros a p1 (Hp1 & Hf1 & b & Hb & HR). destruct (reading_head _ _ _ Hp1) as (t1 & Hh1 & Ht1).
    assert ((r ≫= g) (rest p) = g b (rest p1)) as E by (unfold mbind, M_bind; by rewrite Hb).
    eapply wpx_mono; [by apply (Hf a b HR t1 Ht1)|..].
    + intros a' p2 (Hp2 & Hf2 & b' & Hb' & HR'). split; [done|]. split; [by eapply follows_trans|].
      exists b'. by rewrite E.
    + intros e p2 He. unfold explained. by rewrite E.
  - intros e p1 [He|(e' & He & Hc)]; [by left|]. right. exists e'. split; [|done].
    unfold mbind, M_bind. destruct (r (rest p)) as [[b|e0|] ts]; cbn in *; congruence.
Qed.

Lemma refines_bind k d d1 d2 (R : A -> B -> Prop) (R' : A' -> B' -> Prop) m r f g :
  refines k d d1 R m r -> (forall a b, R a b -> refines k d1 d2 R' (f a) (g b)) ->
  refines k d d2 R' (m ≫= f) (r ≫= g).
Proof. intros Hm Hf t Ht. eapply refines_at_bind; eauto. Qed.

(** There is always a token left. *)
Lemma refines_zero d d' (R : A -> B -> Prop) m r : refines 0 d d' R m r.
Proof.
  intros t Ht p Hp Hh. pose proof (r_length _ _ _ Hp). destruct (rest p); [done|]. cbn in *. lia.
Qed.

(** Branching on what is known. *)
Lemma refines_if k d d' (R : A -> B -> Prop) (c : bool) m1 m2 r1 r2 :
  (c = true -> refines k d d' R m1 r1) -> (c = false -> refines k d d' R m2 r2) ->
  refines k d d' R (if c then m1 else m2) (if c then r1 else r2).
Proof. destruct c; auto. Qed.

(** The same refusal on both sides. *)
Lemma refines_throw k d d' (R : A -> B -> Prop) e e' :
  code e' = code e -> refines k d d' R (throw e) (throw e').
Proof. intros Hc t Ht p Hp Hh. xstep. right. by exists e'. Qed.

Lemma refines_fail k d d' (R : A -> B -> Prop) e e' (f : A' -> M Parser A) (g : B' -> Reader B) :
  code e' = code e -> refines k d d' R (throw e ≫= f) (throw e' ≫= g).
Proof. intros Hc t Ht p Hp Hh. xstep. xstep. right. by exists e'. Qed.
End Rules.

Section MoreRules.
Context {A B : Type}.

Lemma refines_ensure k d d' (R : A -> B -> Prop) (c : bool) e e' m r :
  code e' = code e -> (c = false -> refines k d d' R m r) ->
  refines k d d' R (ensure_not c e;; m) (ensure_not c e';; r).
Proof.
  intros Hc H t Ht p Hp Hh. destruct c; [|by apply (H eq_refl t Ht)].
  xstep. apply wpx_ensure_not; [|done]. intros _. right. by exists e'.
Qed.

(** The same partial function on both sides. *)
Lemma refines_ok_or {X} k d d' (R : A -> B -> Prop) (o : option X) e e' f g :
  code e' = code e -> (forall x, o = Some x -> refines k d d' R (f x) (g x)) ->
  refines k d d' R (lift (ok_or o e) ≫= f) (lift (ok_or o e') ≫= g).
Proof.
  intros Hc H t Ht p Hp Hh. destruct o as [x|]; [by apply (H x eq_refl t Ht)|].
  xstep. apply wpx_lift. right. by exists e'.
Qed.

(** An operation of the parser that the reader does not have. *)
Definition neutral {X} k d (m : M Parser X) (P : X -> Prop) : Prop := forall p, reading k d p ->
  wpx m (fun x p' => reading k d p' /\ follows p p' /\ rest p' = rest p /\ P x) (fun e _ => operational e) p.

Lemma refines_neutral {X} k d d' (R : A -> B -> Prop) (m : M Parser X) P f r :
  neutral k d m P -> (forall x, P x -> refines k d d' R (f x) r) -> refines k d d' R (m ≫= f) r.
Proof.
  intros Hm Hf t Ht p Hp Hh. xstep. eapply wpx_mono; [by apply Hm|..].
  - intros x p1 (Hp1 & Hf1 & Hr & Hx). rewrite <- Hr in Hh.
    eapply wpx_mono; [by apply (Hf x Hx t Ht p1)|..].
    + intros a p2 (Hp2 & Hf2 & b & Hb & HR). rewrite Hr in Hb. split; [done|]. split; [by eapply follows_trans|]. eauto.
    + intros e p2. by rewrite Hr.
  - intros e p1 He. by left.
Qed.

(** A computation of the builders; it only sees the allocator. *)
Lemma reading_world {X} k d p (m : M World X) (Q : X -> Prop) (E : NativeError -> Prop) :
  reading k d p -> (forall w, wpx m (fun a _ => Q a) (fun e _ => E e) w) ->
  wpx (building m) (fun a p' => reading k d p' /\ follows p p' /\ rest p' = rest p /\ Q a) (fun e _ => E e) p.
Proof.
  intros Hp Hm. do 2 xstep. eapply wpx_mono; [apply Hm| |done]. intros a w Ha.
  destruct Hp as [H1 H2 H3 H4 H5 H6 H7 H8 H9]. split_and!; try done. constructor; try done.
  cbn. destruct H1; by constructor.
Qed.

(** A builder that returns what the reader returns without reading. *)
Lemma refines_build k d (R : A -> B -> Prop) (m : M World A) (b : B) :
  (forall w, wpx m (fun a _ => R a b) (fun e _ => operational e) w) ->
  refines k d d R (building m) (mret b).
Proof.
  intros Hm t Ht p Hp Hh. eapply wpx_mono; [by apply (reading_world k d p m (fun a => R a b) operational)|..].
  - intros a p' (Hp' & Hf & Hr & Ha). split_and!; try done. exists b. by rewrite Hr.
  - intros e p' He. by left.
Qed.

Lemma neutral_build {X} k d (m : M World X) (P : X -> Prop) :
  (forall w, wpx m (fun a _ => P a) (fun e _ => operational e) w) -> neutral k d (building m) P.
Proof. intros Hm p Hp. by apply reading_world. Qed.

Lemma neutral_session k d (m : M Session unit) :
  (forall s, session_ok s -> wp m (fun _ s' => continues s s') s) -> fails_with operational m ->
  neutral k d (on_session m) (fun _ => True).
Proof.
  intros Hm Hf p Hp. xstep. eapply wpx_mono; [apply wpx_operational; [apply Hm, Hp|done]| |done].
  intros x s [Hs Hl]. destruct Hp as [H1 H2 H3 H4 H5 H6 H7 H8 H9]. split_and!; try done.
Qed.

Lemma fails_enforce key n msg : fails_with operational (enforce_session key n msg).
Proof. unfold enforce_session. operational. Qed.

Lemma wp_enforce key n msg s (Q : unit -> Session -> Prop) : Q tt s -> wp (enforce_session key n msg) Q s.
Proof. intros HQ. unfold enforce_session. repeat step. done. Qed.

Lemma neutral_enforce k d key n msg : neutral k d (enforce key n msg) (fun _ => True).
Proof. apply neutral_session; [|apply fails_enforce]. intros s Hs. by apply wp_enforce. Qed.
End MoreRules.

(** ** Tokens *)

Lemma rest_cons p t ts : rest p = t :: ts -> tokens p !! Z.to_nat (index p) = Some t /\ drop (S (Z.to_nat (index p))) (tokens p) = ts.
Proof.
  unfold rest. intros E. split.
  - rewrite <- (Nat.add_0_r (Z.to_nat (index p))), <- lookup_drop, E. done.
  - rewrite <- Nat.add_1_r, <- drop_drop, E. done.
Qed.

Lemma wpx_peek k d p t (Q : Token -> Parser -> Prop) E :
  reading k d p -> head (rest p) = Some t -> Q t p -> wpx peek Q E p.
Proof.
  intros Hp Hh HQ. unfold peek. do 3 xstep. apply (head_at p t) in Hh; [|apply Hp].
  unfold index_at. by rewrite Hh.
Qed.

Lemma look_head ts t : head ts = Some t -> look_token ts = (Ok t, ts).
Proof. destruct ts; [done|]. by intros [= ->]. Qed.

Lemma next_head t ts : next_token (t :: ts) = (Ok t, ts).
Proof. done. Qed.

(** Taking a token that is not the end. *)
Lemma wpx_take k d p t :
  reading k d p -> head (rest p) = Some t -> kind t <> KEof ->
  wpx take_token (fun t' p' => t' = t /\ reading (k - 1) d p' /\ follows p p' /\ rest p = t :: rest p')
    (fun e _ => operational e) p.
Proof.
  intros Hp Hh Hk. pose proof (index_lt k d p Hp) as Hi. destruct (rest p) as [|t' ts] eqn:Er; [done|].
  injection Hh as ->. destruct (rest_cons p t ts Er) as [Hat Hdrop].
  assert (get_at (tokens p) (index p) = Some t) as Hg by (apply get_at_Some; split; [apply Hp|done]).
  pose proof (r_fuel _ _ _ Hp) as Hfuel. pose proof (r_index _ _ _ Hp) as Hi0.
  unfold take_token. do 3 xstep. apply wpx_lift. rewrite Hg. cbn [ok_or]. xstep. apply wpx_lift.
  rewrite checked_add_ok by ulia. cbn [ok_or]. xstep. unfold modify_parser. do 5 xstep.
  eapply wpx_mono; [apply (wpx_operational (step_work 1) (fun _ s => continues (session p) s)); [apply wp_step_work; [apply Hp|]|apply fails_step_work]| |done].
  { intros s' Hs. exact Hs. }
  intros [] s' [Hs Hlim]. xstep. split; [done|].
  assert (rest (with_session s' (with_index (index p + 1) p)) = ts) as Hrest.
  { unfold rest. cbn. replace (Z.to_nat (index p + 1)) with (S (Z.to_nat (index p))) by lia. done. }
  pose proof (r_eof _ _ _ Hp) as Heof. pose proof (r_tokens _ _ _ Hp) as Htok. pose proof (r_length _ _ _ Hp) as Hlen.
  rewrite Er in Heof, Htok, Hlen. apply Forall_cons in Htok as [_ Htok].
  assert (ends_with_eof ts) as Heof' by (destruct ts; [done|by destruct Heof]).
  split; [|split].
  - destruct Hp. constructor; rewrite ?Hrest; try done; cbn in *; lia.
  - constructor; cbn; try done. lia.
  - by rewrite Hrest.
Qed.

Section TokenRules.
Context {A B : Type}.
Implicit Types (R : A -> B -> Prop).

Lemma refines_at_take t k d d' R f g :
  kind t <> KEof -> refines (k - 1) d d' R (f t) (g t) ->
  refines_at t k d d' R (take_token ≫= f) (next_token ≫= g).
Proof.
  intros Hk Hf p Hp Hh. xstep. eapply wpx_mono; [by apply (wpx_take k d p t)|..].
  - intros t' p1 (-> & Hp1 & Hf1 & Hr). destruct (reading_head _ _ _ Hp1) as (t1 & Hh1 & Ht1).
    assert ((next_token ≫= g) (rest p) = g t (rest p1)) as E by by rewrite Hr.
    eapply wpx_mono; [by apply (Hf t1 Ht1 p1)|..].
    + intros a p2 (Hp2 & Hf2 & b & Hb & HR). split; [eapply reading_le; [|done]; lia|].
      split; [by eapply follows_trans|]. exists b. by rewrite E.
    + intros e p2 He. unfold explained. by rewrite E.
  - intros e p1 He. by left.
Qed.

Lemma refines_at_look t k d d' R f g :
  refines_at t k d d' R (f t) (g t) -> refines_at t k d d' R (peek ≫= f) (look_token ≫= g).
Proof.
  intros H p Hp Hh. xstep. eapply wpx_peek; [done|done|].
  assert ((look_token ≫= g) (rest p) = g t (rest p)) as E.
  { unfold mbind, M_bind. by rewrite (look_head _ t). }
  unfold explained. rewrite E. by apply H.
Qed.

Lemma refines_look k d d' R f g :
  (forall t, token_ok t -> refines_at t k d d' R (f t) (g t)) ->
  refines k d d' R (peek ≫= f) (look_token ≫= g).
Proof. intros H t Ht. by apply refines_at_look, H. Qed.

(** A test of the token ahead. *)
Lemma refines_at_test t k d d' R b f g :
  refines_at t k d d' R (f (b t)) (g (b t)) ->
  refines_at t k d d' R ((t ← peek; mret (b t)) ≫= f) (test b ≫= g).
Proof.
  intros H p Hp Hh. do 2 xstep. eapply wpx_peek; [done|done|]. xstep.
  assert ((test b ≫= g) (rest p) = g (b t) (rest p)) as E.
  { unfold test, mbind, M_bind. by rewrite (look_head _ t). }
  unfold explained. rewrite E. by apply H.
Qed.

Lemma refines_test k d d' R b f g :
  (forall t, token_ok t -> refines_at t k d d' R (f (b t)) (g (b t))) ->
  refines k d d' R ((t ← peek; mret (b t)) ≫= f) (test b ≫= g).
Proof. intros H t Ht. by apply refines_at_test, H. Qed.

Lemma refines_at_expect t k d d' R K f g :
  K <> KEof -> (kind t = K -> refines (k - 1) d d' R (f t) (g t)) ->
  refines_at t k d d' R (expect K ≫= f) (token K ≫= g).
Proof.
  intros HK Hf p Hp Hh. unfold expect, token.
  destruct (decide (kind t = K)) as [E|Hne].
  - pose proof (refines_at_take t k d d' R f g ltac:(congruence) (Hf E) p Hp Hh) as H.
    assert (((t0 ← look_token; ensure_not (negb (bool_decide (kind t0 = K))) syntax;; next_token) ≫= g) (rest p) =
            (next_token ≫= g) (rest p)) as Eg.
    { unfold mbind, M_bind. rewrite (look_head _ t) by done. by rewrite bool_decide_eq_true_2. }
    unfold explained. rewrite Eg. revert H. unfold explained. unfold wpx at 1.
    destruct ((take_token ≫= f) p) as [r p'] eqn:Ef. intros H.
    assert (((t0 ← peek; ensure_not (negb (bool_decide (kind t0 = K))) syntax;; take_token) ≫= f) p = (r, p')) as Em.
    { rewrite <- Ef. unfold mbind, M_bind, peek, get, lift. cbn -[take_token]. unfold mbind, M_bind.
      apply (head_at p t) in Hh; [|apply Hp]. unfold index_at. rewrite Hh. cbn -[take_token].
      by rewrite bool_decide_eq_true_2. }
    unfold wpx. by rewrite Em.
  - do 2 xstep. eapply wpx_peek; [done|done|]. xstep. apply wpx_ensure_not.
    + intros _. right. exists syntax. split; [|done]. unfold mbind, M_bind. rewrite (look_head _ t) by done.
      by rewrite bool_decide_eq_false_2.
    + intros E. by rewrite bool_decide_eq_false_2 in E.
Qed.

Lemma refines_expect k d d' R K f g :
  K <> KEof -> (forall t, token_ok t -> kind t = K -> refines (k - 1) d d' R (f t) (g t)) ->
  refines k d d' R (expect K ≫= f) (token K ≫= g).
Proof. intros HK Hf t Ht. apply refines_at_expect; auto. Qed.
End TokenRules.

(** ** Parentheses and keywords *)

Lemma bind_assoc {S X Y Z'} (m : M S X) (f : X -> M S Y) (g : Y -> M S Z') s :
  ((m ≫= f) ≫= g) s = (m ≫= fun x => f x ≫= g) s.
Proof. unfold mbind, M_bind. by destruct (m s) as [[x|e|] s']. Qed.

Section Structure.
Context {A B : Type}.
Implicit Types (R : A -> B -> Prop).

Lemma refines_at_ext t k d d' R m m' r r' :
  (forall p, m p = m' p) -> (forall ts, r ts = r' ts) ->
  refines_at t k d d' R m' r' -> refines_at t k d d' R m r.
Proof.
  intros Hm Hr H p Hp Hh. unfold wpx, explained. rewrite Hm, Hr. by apply H.
Qed.

Lemma refines_assoc {X X' Y Y'} k d d' R (m : M Parser X) (f : X -> M Parser X') g (r : Reader Y) (h : Y -> Reader Y') j :
  refines k d d' R (m ≫= fun x => f x ≫= g) (r ≫= fun y => h y ≫= j) ->
  refines k d d' R ((m ≫= f) ≫= g) ((r ≫= h) ≫= j).
Proof. intros H t Ht. eapply refines_at_ext; [intros; apply bind_assoc..|]. by apply H. Qed.

Lemma refines_assoc_r {Y Y'} k d d' R m (r : Reader Y) (h : Y -> Reader Y') j :
  refines k d d' R m (r ≫= fun y => h y ≫= j) -> refines k d d' R m ((r ≫= h) ≫= j).
Proof. intros H t Ht. eapply refines_at_ext; [done|intros; apply bind_assoc|]. by apply H. Qed.

Lemma refines_assoc_l {X X'} k d d' R (m : M Parser X) (f : X -> M Parser X') g r :
  refines k d d' R (m ≫= fun x => f x ≫= g) r -> refines k d d' R ((m ≫= f) ≫= g) r.
Proof. intros H t Ht. eapply refines_at_ext; [intros; apply bind_assoc|done|]. by apply H. Qed.

Lemma refines_positive k d d' R m r : (0 <= d -> refines k d d' R m r) -> refines k d d' R m r.
Proof. intros H t Ht p Hp. apply H; [apply Hp|done|done]. Qed.

(** A step that only moves the nesting depth. *)
Lemma refines_shift {X} k d d1 d' R (m : M Parser X) (f : X -> M Parser A) (r : Reader B) :
  (forall p, reading k d p ->
     wpx m (fun x p' => reading k d1 p' /\ follows p p' /\ rest p' = rest p) (fun e _ => operational e) p) ->
  (forall x, refines k d1 d' R (f x) r) -> refines k d d' R (m ≫= f) r.
Proof.
  intros Hm Hf t Ht p Hp Hh. xstep. eapply wpx_mono; [by apply Hm|..].
  - intros x p1 (Hp1 & Hf1 & Hr). rewrite <- Hr in Hh.
    eapply wpx_mono; [by apply (Hf x t Ht p1)|..].
    + intros a p2 (Hp2 & Hf2 & b & Hb & HR). rewrite Hr in Hb. split; [done|]. split; [by eapply follows_trans|]. eauto.
    + intros e p2. by rewrite Hr.
  - intros e p1 He. by left.
Qed.

(** Undefined on both sides. *)
Lemma refines_none {X Y} k d d' R e e' (f : X -> M Parser A) (g : Y -> Reader B) :
  code e' = code e -> refines k d d' R (lift (ok_or None e) ≫= f) (lift (ok_or None e') ≫= g).
Proof. intros Hc t Ht p Hp Hh. xstep. apply wpx_lift. right. by exists e'. Qed.

(** Reading the state of the parser. *)
Lemma refines_get k d d' R (f : Parser -> M Parser A) (r : Reader B) :
  (forall p, reading k d p -> refines k d d' R (f p) r) -> refines k d d' R (get ≫= f) r.
Proof. intros H t Ht p Hp Hh. by apply (H p Hp t Ht). Qed.

(** A partial function of the parser that the reader does not have, and whose
    failure is operational. *)
Lemma refines_limit {X} k d d' R (o : option X) e (f : X -> M Parser A) (r : Reader B) :
  operational e -> (forall x, o = Some x -> refines k d d' R (f x) r) ->
  refines k d d' R (lift (ok_or o e) ≫= f) r.
Proof.
  intros He H t Ht p Hp Hh. destruct o as [x|]; [by apply (H x eq_refl t Ht)|]. xstep. apply wpx_lift. by left.
Qed.

Lemma refines_open k d d' R f g :
  (0 <= d -> refines (k - 1) (d + 1) d' R (f tt) (g tt)) ->
  refines k d d' R (open ≫= f) (open_token ≫= g).
Proof.
  intros H. apply refines_positive. intros Hd. unfold open, open_token. apply refines_assoc, refines_expect; [done|].
  intros t _ _. change (mret tt ≫= g) with (g tt).
  apply (refines_shift _ d (d + 1)); [|intros []; by apply H].
  intros p Hp. pose proof (r_depth _ _ _ Hp) as Hn.
  do 3 xstep. apply wpx_lift. unfold checked_add. destruct (Z.leb_spec (nesting p + 1) U64_MAX); cbn [ok_or]; [|by cbn; tauto].
  xstep. unfold modify_parser. do 6 xstep; [by cbn; tauto|].
  destruct Hp. split_and!; try done. constructor; cbn; try done; lia.
Qed.

Lemma refines_close k d d' R f g :
  0 <= d -> refines (k - 1) d d' R (f tt) (g tt) ->
  refines k (d + 1) d' R (close ≫= f) (close_token ≫= g).
Proof.
  intros Hd H. unfold close, close_token. apply refines_assoc, refines_expect; [done|].
  intros t _ _. change (mret tt ≫= g) with (g tt).
  apply (refines_shift _ (d + 1) d); [|by intros []].
  intros p Hp. pose proof (r_depth _ _ _ Hp) as Hn. do 3 xstep.
  apply wpx_ensure_not; intros E; bool_to_prop; [lia|].
  unfold modify_parser. do 3 xstep. destruct Hp. split_and!; try done. constructor; cbn; try done; lia.
Qed.

Lemma refines_keyword k d d' R name f g :
  (forall t t', refines (k - 1) d d' R (f t) (g t')) ->
  refines k d d' R (expect_word name ≫= f) (keyword name ≫= g).
Proof.
  intros H. unfold expect_word, keyword. apply refines_assoc, refines_expect; [done|]. intros t _ _.
  apply refines_assoc, (refines_ensure (k - 1) d d'); [done|]. intros _. apply H.
Qed.

(** The name of a call. *)
Lemma refines_call_name k d d' R f g :
  (forall t o, token_ok t -> (forall name, o = Some name -> kind t = KWord /\ token_value t = name) ->
     refines_at t k d d' R (f o) (g o)) ->
  refines k d d' R (call_name ≫= f) (head_name ≫= g).
Proof.
  intros H t Ht p Hp Hh. unfold call_name. do 2 xstep. eapply wpx_peek; [done|done|]. do 3 xstep.
  set (o := if _ && _ then Some (token_value t) else None).
  assert ((head_name ≫= g) (rest p) = g o (rest p)) as E.
  { unfold head_name, mbind, M_bind. rewrite (look_head _ t) by done. unfold get, mret, M_ret. unfold o.
    assert (get_at (tokens p) (index p + 1) = rest p !! 1%nat) as ->; [|done].
    pose proof (r_index _ _ _ Hp). unfold rest. rewrite lookup_drop. unfold get_at.
    replace (Z.to_nat (index p) + 1)%nat with (Z.to_nat (index p + 1)) by lia.
    case_match eqn:Eb; [done|]. symmetry. apply lookup_ge_None. apply andb_false_iff in Eb as [Eb|Eb]; bool_to_prop; lia. }
  unfold explained. rewrite E. apply (H t o); [done| |done|done].
  unfold o. intros name. destruct (bool_decide (kind t = KWord)) eqn:Ek; [|done]. apply bool_decide_eq_true in Ek.
  case_match; [|done]. by intros [= <-].
Qed.
End Structure.
End Refines.
