(* ===== verification/Parses.v ===== *)
(** * The parsers of terms refine the readers

    IRIs, entities, individuals, literals and collections. *)

From S2P Require Import Prelude Bytes Order Error Machine Atomic Limits Cancel Session Varint Schema Lexical Scan Component Encode Tokenizer Functional Utf8 Grammar Denotes Consumes Refines.

Section Terms.
Context (fuel : nat) (names : gmap bytes bytes).
Hypothesis fuel_small : Z.of_nat fuel < USIZE_MAX.

Notation refines := (refines fuel names).
Notation refines_at := (refines_at fuel names).
Notation reading := (reading fuel names).
Notation refines_at_take := (Refines.refines_at_take fuel names fuel_small).
Notation refines_expect := (Refines.refines_expect fuel names fuel_small).
Notation refines_open := (Refines.refines_open fuel names fuel_small).
Notation refines_close := (Refines.refines_close fuel names fuel_small).
Notation refines_keyword := (Refines.refines_keyword fuel names fuel_small).
(** A parser of one component. *)
Notation parses k d m r := (refines k d d denotes m r).

(** ** Nodes *)

Lemma refines_node k d t fields ps :
  is_u64 t -> flattens t = false -> Forall2 field_ok fields ps ->
  parses k d (building (Node_build t fields)) (mret (Component t ps)).
Proof.
  intros Ht Hf Hps. apply refines_build. intros w. apply wpx_build; [done|done|]. intros H. by rewrite Hf in H.
Qed.

Lemma wpx_entity kind k iri c w :
  str kind = EntityKind_name k -> denotes iri c ->
  wpx (entity (str kind) iri) (fun n _ => denotes n (entity_component k c)) (fun e _ => operational e) w.
Proof.
  intros Hk Hc. apply (wpx_build 2 _ [PKind k; PComponent c]); [done| |done]. each_field; [done|by apply field_ok_node].
Qed.

Lemma wpx_iri_node text w :
  wpx (iri_node text) (fun n _ => denotes n (iri_component text)) (fun e _ => operational e) w.
Proof. apply (wpx_build 1 _ [PText text]); [done| |done]. by each_field. Qed.

(** A datatype or a class the parser supplies itself. *)
Lemma neutral_known k d kind ek text :
  str kind = EntityKind_name ek ->
  neutral fuel names k d (known_entity kind text) (fun n => denotes n (entity_component ek (iri_component text))).
Proof.
  intros Hk p Hp. unfold known_entity. xstep.
  eapply wpx_mono; [apply (reading_world fuel names k d p _ (fun n => denotes n (iri_component text)) operational Hp), wpx_iri_node| |done].
  intros i p1 (Hp1 & Hf1 & Hr1 & Hi).
  eapply wpx_mono; [apply (reading_world fuel names k d p1 _ (fun n => denotes n (entity_component ek (iri_component text))) operational Hp1)| |done].
  { intros w. by apply wpx_entity. }
  intros e p2 (Hp2 & Hf2 & Hr2 & He). split_and!; [done|by eapply follows_trans|congruence|done].
Qed.

(** ** IRIs *)

(** Decoding escapes, before a reader that fails where they are ill-formed. *)
Lemma refines_decode {A B} k d d' (R : A -> B -> Prop) v f (r : Reader B) :
  is_utf8 v = true -> (unescape v = None -> forall ts, fst (r ts) = Err syntax) ->
  (forall out, unescape v = Some out -> refines k d d' R (f out) r) ->
  refines k d d' R (building (decode_iri_escapes v) ≫= f) r.
Proof.
  intros Hv Hn H. intros t Ht p Hp Hh. xstep.
  eapply wpx_mono.
  - apply (reading_world fuel names k d p _ (fun out => unescape v = Some out)
      (fun e => operational e \/ (code e = code syntax /\ unescape v = None)) Hp). intros w. by apply wpx_decode_escapes.
  - intros out p1 (Hp1 & Hf1 & Hr & Hout). rewrite <- Hr in Hh.
    eapply wpx_mono; [by apply (H out Hout t Ht p1)|..].
    + intros a p2 (Hp2 & Hf2 & b & Hb & HR). rewrite Hr in Hb. split; [done|]. split; [by eapply follows_trans|]. eauto.
    + intros e p2. by rewrite Hr.
  - intros e p1 [He|[Hc Hu]]; [by left|right]. exists syntax. by rewrite Hn.
Qed.

Lemma kind_iri_not_eof t : kind t = KIri -> kind t <> KEof.
Proof. by intros ->. Qed.
Lemma prefixed_word t : is_prefixed_name t = true -> kind t = KWord.
Proof. unfold is_prefixed_name. intros H. bool_to_prop. by apply bool_decide_eq_true in H. Qed.

Lemma split_once_utf8 v x y : is_utf8 v = true -> split_once 58 v = Some (x, y) -> is_utf8 y = true.
Proof.
  intros Hv E. assert (v = x ++ 58 :: y) as ->.
  { clear Hv. revert x E. induction v as [|a v IH]; intros x E; cbn [split_once] in E; [done|].
    destruct (Z.eqb_spec a 58) as [->|]; [by injection E as <- <-|].
    destruct (split_once 58 v) as [[x' y']|]; [|done]. injection E as <- ->. cbn [app]. f_equal. by apply IH. }
  apply is_utf8_split in Hv as [_ Hv]; [|done]. by rewrite is_utf8_cons_ascii in Hv.
Qed.

(** The end of [parse_iri]: the limit and the node. *)
Lemma refines_iri_end k d text :
  parses k d (enforce MaxIriBytes (len text) "native IRI exceeds max_iri_bytes";; building (iri_node text))
    (mret (iri_component text)).
Proof.
  eapply refines_neutral; [apply neutral_enforce|]. intros _ _. apply refines_build. apply wpx_iri_node.
Qed.

Lemma parse_iri_refines k d : parses k d parse_iri (read_iri names).
Proof.
  intros t Ht. unfold parse_iri, read_iri. apply refines_at_look. unfold is_iri_token, is_kind, token_iri, is_kind.
  destruct (bool_decide (kind t = KIri)) eqn:Ek; cbn [orb negb].
  - apply bool_decide_eq_true in Ek. change (ensure_not false syntax;; ?r) with r.
    eapply refines_at_ext; [intros p; apply bind_assoc|done|].
    apply refines_at_take; [congruence|].
    apply refines_decode; [apply Ht|by intros ->|]. intros out ->. apply refines_iri_end.
  - destruct (is_prefixed_name t) eqn:Ep; cbn [negb].
    + pose proof (prefixed_word _ Ep) as Hw. change (ensure_not false syntax;; ?r) with r.
      eapply refines_at_ext; [intros p; apply bind_assoc|done|].
      apply refines_at_take; [congruence|].
      eapply refines_assoc_l. destruct (split_once 58 (token_value t)) as [[prefix local]|] eqn:Es.
      2: by apply refines_none.
      change (lift (ok_or (Some (prefix, local)) syntax) ≫= ?f) with (f (prefix, local)). cbv iota beta.
      apply refines_assoc_l, refines_get. intros p Hp. rewrite (r_names _ _ _ _ _ Hp).
      apply refines_assoc_l. destruct (names !! prefix) as [base|].
      2: { intros t1 Ht1 p1 Hp1 Hh1. xstep. apply wpx_lift. right. by exists syntax. }
      change (lift (ok_or (Some base) syntax) ≫= ?f) with (f base). cbv beta.
      apply refines_assoc_l. cbn [mbind option_bind].
      eapply (refines_decode _ _ _ _ local); [by eapply split_once_utf8; [apply Ht|]|..].
      * intros Hn. cbn [mbind option_bind]. by rewrite Hn.
      * intros out Hout. rewrite Hout. apply refines_assoc_l, refines_limit; [cbn; tauto|]. intros n _.
        apply refines_assoc_l. eapply refines_neutral.
        { apply (neutral_build _ _ _ _ _ (fun _ => True)). intros w. apply wpx_operational; [by apply wp_try_reserve|operational]. }
        intros _ _. apply refines_iri_end.
    + intros p Hp Hh. xstep. xstep. right. by exists syntax.
Qed.

Lemma parse_entity_refines k d kind ek :
  str kind = EntityKind_name ek -> parses k d (parse_entity_iri kind) (read_entity names ek).
Proof.
  intros Hk. unfold parse_entity_iri, read_entity. eapply refines_bind; [apply parse_iri_refines|].
  intros n c Hn. apply refines_build. intros w. by apply wpx_entity.
Qed.

(** ** Individuals *)

Lemma blank_word t : is_blank_label t = true -> kind t = KWord /\ starts_with_blank (token_value t) = true.
Proof. unfold is_blank_label. intros H. bool_to_prop. by apply bool_decide_eq_true in H. Qed.

Lemma wpx_anonymous label w :
  len label <= USIZE_MAX ->
  wpx (anonymous label) (fun n _ => denotes n (anonymous_component label)) (fun e _ => operational e) w.
Proof.
  intros Hl. unfold anonymous. rewrite encode_usize_varint by ulia. xstep.
  eapply wpx_mono; [apply (wpx_operational _ (fun _ _ => True)); [by apply wp_try_reserve|operational]| |done].
  intros _ w' _. apply (wpx_build 3 _ [PBytes PROVISIONAL_SCOPE; PBytes _]); [done|by each_field|done].
Qed.

(** Branching on a test of the token ahead. *)
Lemma refines_branch {A B} k d d' (R : A -> B -> Prop) b m1 m2 r1 r2 :
  (forall t, token_ok t -> b t = true -> refines_at t k d d' R m1 r1) ->
  (forall t, token_ok t -> b t = false -> refines_at t k d d' R m2 r2) ->
  refines k d d' R ((t ← peek; mret (b t)) ≫= fun c => if c : bool then m1 else m2)
    (test b ≫= fun c => if c : bool then r1 else r2).
Proof. intros H1 H2. apply refines_test. intros t Ht. destruct (b t) eqn:E; auto. Qed.

Lemma parse_individual_refines k d : parses k d parse_individual (read_individual names).
Proof.
  unfold parse_individual, read_individual, blank_label. apply refines_branch.
  - intros t Ht [Hw Hb]%blank_word. apply refines_at_take; [congruence|]. rewrite Hb.
    change (lift (ok_or (Some ?x) syntax) ≫= ?f) with (f x). cbv beta zeta.
    apply refines_ensure; [done|]. intros _. apply refines_build. intros w. apply wpx_anonymous.
    pose proof (token_small _ Ht). rewrite length_drop. lia.
  - intros t Ht _. apply (parse_entity_refines k d "named_individual" KNamedIndividual eq_refl t Ht).
Qed.

(** ** Object properties *)

Lemma is_word_kind name t : is_word name t = true -> kind t = KWord.
Proof. unfold is_word. intros H. bool_to_prop. by apply bool_decide_eq_true in H. Qed.

(** A single argument between parentheses. *)
Lemma refines_within {A A' B B'} k d d' (R : A -> B -> Prop) (R' : A' -> B' -> Prop) m r f g :
  (forall k, refines k (d + 1) (d + 1) R m r) -> (forall a b k, R a b -> refines k d d' R' (f a) (g b)) ->
  refines k d d' R' (open;; a ← m; close;; f a) (within r ≫= g).
Proof.
  intros Hm Hf. unfold within. apply refines_assoc_r, refines_open. intros Hd.
  apply refines_assoc_r. eapply refines_bind; [apply Hm|]. intros a b HR.
  apply refines_assoc_r, refines_close; [done|]. by apply Hf.
Qed.

Lemma parse_object_property_refines k d : parses k d parse_object_property (read_object_property names).
Proof.
  unfold parse_object_property, read_object_property. apply refines_branch.
  - intros t Ht Hw%is_word_kind. apply refines_at_take; [congruence|].
    eapply refines_within; [intros k'; by apply parse_entity_refines|]. intros n c k' Hn.
    apply refines_node; [done|done|]. each_field. by apply field_ok_node.
  - intros t Ht _. by apply parse_entity_refines.
Qed.

(** ** Literals *)

Lemma wpx_literal lexical datatype c language w :
  denotes datatype c ->
  wpx (literal lexical datatype language) (fun n _ => denotes n (literal_component lexical c language))
    (fun e _ => operational e) w.
Proof.
  intros Hd. unfold literal, literal_component.
  apply (wpx_build 4 _ [PText lexical; PComponent c; match language with Some l => PText l | None => PNull end]); [done| |done].
  each_field; [done|by apply field_ok_node|by destruct language].
Qed.

Lemma neutral_collect k d spelling : neutral fuel names k d (collect_spelling spelling) (fun _ => True).
Proof.
  intros p Hp. unfold collect_spelling. do 2 xstep. destruct (collect_language_spellings p); [|by xstep; split_and!].
  xstep. eapply wpx_mono; [eapply (neutral_session fuel names k d (reserve_bytes STRING_BYTES))|..]; [| |exact Hp| |done].
  { intros s Hs. by apply wp_reserve_continues. }
  { apply fails_reserve_bytes. }
  intros _ p1 (Hp1 & Hf1 & Hr1 & _). xstep.
  eapply wpx_mono; [apply (reading_world fuel names k d p1 _ (fun _ => True) operational Hp1)| |done].
  { intros w. apply (wpx_operational _ (fun _ _ => True)); [by apply wp_try_reserve|operational]. }
  intros _ p2 (Hp2 & Hf2 & Hr2 & _). unfold modify_parser. do 3 xstep.
  pose proof Hp2 as Hp2'. destruct Hp2. split_and!; try done; [by destruct Hf1, Hf2; constructor; cbn; etrans|].
  by transitivity (rest p2); [|transitivity (rest p1)].
Qed.

Lemma parse_literal_refines k d : parses k d parse_literal (read_literal names).
Proof.
  unfold parse_literal, read_literal. apply refines_expect; [done|]. intros t Ht _. apply refines_branch.
  - intros t1 Ht1 Hk. unfold is_kind in Hk. apply bool_decide_eq_true in Hk. apply refines_at_take; [congruence|].
    eapply refines_neutral; [apply neutral_collect|]. intros _ _.
    eapply refines_neutral; [by apply (neutral_known _ _ "datatype" KDatatype)|]. intros n Hn.
    apply refines_build. intros w. by apply wpx_literal.
  - intros t1 Ht1 _. revert t1 Ht1. fold (refines (k - 1) d d denotes
      (hat ← at_kind KHat;
       datatype ← (if (hat : bool) then _ ← take_token; parse_entity_iri "datatype"
                   else known_entity "datatype" RDF_PLAIN_LITERAL);
       building (literal (token_value t) datatype None))
      (hat ← test (is_kind KHat);
       datatype ← (if (hat : bool) then _ ← next_token; read_entity names KDatatype else mret plain_literal);
       mret (literal_component (token_value t) datatype None))).
    apply refines_test. intros t1 Ht1. change (bool_decide (kind t1 = KHat)) with (is_kind KHat t1).
    destruct (is_kind KHat t1) eqn:Eh.
    + unfold is_kind in Eh. apply bool_decide_eq_true in Eh.
      eapply refines_at_ext; [intros p; apply bind_assoc|intros ts; apply bind_assoc|].
      apply refines_at_take; [congruence|].
      eapply refines_bind; [by apply (parse_entity_refines _ _ "datatype" KDatatype)|]. intros n c Hn.
      apply refines_build. intros w. by apply wpx_literal.
    + change (mret plain_literal ≫= ?g) with (g plain_literal). cbv beta.
      apply (fun H => H t1 Ht1). eapply refines_neutral; [by apply (neutral_known _ _ "datatype" KDatatype)|].
      intros n Hn. apply refines_build. intros w. by apply wpx_literal.
Qed.

Lemma parse_subject_refines k d : parses k d parse_annotation_subject (read_subject names).
Proof.
  apply refines_branch; intros t Ht _; [by apply parse_individual_refines|by apply parse_iri_refines].
Qed.

Lemma parse_value_refines k d : parses k d parse_annotation_value (read_value names).
Proof.
  apply refines_branch; intros t Ht _; [by apply parse_literal_refines|by apply parse_subject_refines].
Qed.

Lemma parse_variable_refines k d : parses k d parse_variable (read_variable names).
Proof.
  apply refines_keyword. intros _ _. eapply refines_within; [intros k'; apply parse_iri_refines|].
  intros n c k' Hn. apply refines_node; [done|done|]. each_field. by apply field_ok_node.
Qed.

Lemma parse_iarg_refines k d : parses k d parse_swrl_iarg (read_argument names (read_individual names)).
Proof.
  apply refines_branch; intros t Ht _; [by apply parse_variable_refines|by apply parse_individual_refines].
Qed.

Lemma parse_darg_refines k d : parses k d parse_swrl_darg (read_argument names (read_literal names)).
Proof.
  apply refines_branch; intros t Ht _; [by apply parse_variable_refines|by apply parse_literal_refines].
Qed.

Lemma parse_facet_refines k d : parses k d parse_facet_restriction (facet names).
Proof.
  eapply refines_bind; [apply parse_iri_refines|]. intros n c Hn.
  eapply refines_bind; [apply parse_literal_refines|]. intros m e Hm.
  apply refines_node; [done|done|]. each_field; by apply field_ok_node.
Qed.

Lemma parse_declared_refines k d : parses k d parse_entity (read_declared names).
Proof.
  unfold parse_entity, read_declared. apply refines_expect; [done|]. intros t _ _.
  set (name := token_value t). cbn [named].
  repeat match goal with
  | |- context [is_name name ?s] => destruct (is_name name s);
      [change (lift (ok_or (Some ?x) syntax) ≫= ?f) with (f x); cbv beta;
       unfold within; apply refines_open; intros Hd;
       (eapply refines_bind; [by apply parse_entity_refines|]); intros n c Hn;
       apply refines_close; [done|]; by apply refines_ret|]
  end.
  by apply refines_none.
Qed.
End Terms.

(** * The parsers of collections and of recursive terms refine the readers

    Loops, sets, operators, annotations, data ranges and class expressions. *)

Section Lists.
Context (fuel : nat) (names : gmap bytes bytes).
Hypothesis fuel_small : Z.of_nat fuel < USIZE_MAX.

Notation refines := (refines fuel names).
Notation refines_at := (refines_at fuel names).
Notation reading := (reading fuel names).
Notation refines_at_take := (Refines.refines_at_take fuel names fuel_small).
Notation refines_expect := (Refines.refines_expect fuel names fuel_small).
Notation refines_open := (Refines.refines_open fuel names fuel_small).
Notation refines_close := (Refines.refines_close fuel names fuel_small).
Notation refines_keyword := (Refines.refines_keyword fuel names fuel_small).
Notation parses k d m r := (refines k d d denotes m r).

(** Nodes for components that take no more than the tokens of the source. *)
Definition collected (ns : list Node) (cs : list component) : Prop :=
  denote_all ns cs /\ (total cs <= fuel)%nat.

Lemma collected_count ns cs : collected ns cs -> len cs <= U64_MAX.
Proof. intros [_ H]. pose proof (length_total cs). ulia. Qed.

Lemma collected_set_of o ns cs : operator_tag o -> collected ns cs -> (total (set_of o cs) <= fuel)%nat.
Proof. intros Ho [_ H]. pose proof (total_set_of o cs Ho). lia. Qed.

Lemma collected_field_set ns cs : collected ns cs -> field_ok (FieldSet ns) (PSet cs).
Proof. intros H. apply field_ok_set; [apply H|by eapply collected_count]. Qed.
Lemma collected_field_sequence ns cs : collected ns cs -> field_ok (FieldSequence ns) (PSequence cs).
Proof. intros H. apply field_ok_sequence; [apply H|by eapply collected_count]. Qed.

(** ** Loops *)

(** What a loop knows after it has read [cs]. *)
Definition looping {A B} K d (R : A -> B -> Prop) (w : B -> nat) (p : Parser) (r : Reader B) (m : M Parser A) : Prop :=
  wpx m (fun a p' => reading K d p' /\ follows p p' /\
           exists b, r (rest p) = (Ok b, rest p') /\ R a b /\ (w b + length (rest p') <= fuel)%nat)
    (fun e _ => explained r (rest p) e) p.

(** One round: a component is read, and a limit is checked. *)
Lemma looping_round K d m r n (limit : list Node -> M Parser unit)
    (f : list Node -> M Parser (list Node)) (g : list component -> Reader (list component)) ns cs p :
  parses K d m r -> eats r -> reading K d p -> (length (rest p) <= S n)%nat ->
  denote_all ns cs -> (total cs + length (rest p) <= fuel)%nat ->
  (forall ns, neutral fuel names K d (limit ns) (fun _ => True)) ->
  (forall ns cs p, reading K d p -> (length (rest p) <= n)%nat -> denote_all ns cs ->
     (total cs + length (rest p) <= fuel)%nat -> looping K d denote_all total p (g cs) (f ns)) ->
  looping K d denote_all total p (c ← r; g (cs ++ [c])) (x ← m; limit (ns ++ [x]);; f (ns ++ [x])).
Proof.
  intros Hm Hr Hp Hn Hns Htot Hlim IH. unfold looping. xstep.
  destruct (reading_head _ _ _ _ _ Hp) as (t & Hh & Ht).
  eapply wpx_mono; [by apply (Hm t Ht p)|..].
  - intros x p1 (Hp1 & Hf1 & c & Hc & Hx). xstep.
    assert ((c ← r; g (cs ++ [c])) (rest p) = g (cs ++ [c]) (rest p1)) as E by (unfold mbind, M_bind; by rewrite Hc).
    pose proof (Hr _ _ _ Hc) as Hw. pose proof (weight_pos c).
    eapply wpx_mono; [by apply Hlim|..].
    + intros u p2 (Hp2 & Hf2 & Hr2 & _).
      assert (total (cs ++ [c]) = total cs + weight c)%nat as Ht1.
      { rewrite total_app. unfold total at 2. cbn. lia. }
      eapply wpx_mono; [apply (IH (ns ++ [x]) (cs ++ [c]) p2 Hp2)|..].
      * rewrite Hr2. lia.
      * apply Forall2_app; [done|by repeat constructor].
      * rewrite Hr2, Ht1. lia.
      * intros a p3 (Hp3 & Hf3 & b & Hb & HR & Hl). rewrite Hr2 in Hb. split; [done|].
        split; [by eapply follows_trans; [|eapply follows_trans]|]. exists b. by rewrite E.
      * intros e p3. unfold explained. by rewrite E, Hr2.
    + intros e p2 He. by left.
  - intros e p1 [He|(e' & He & Hc)]; [by left|right]. exists e'. split; [|done].
    unfold mbind, M_bind. destruct (r (rest p)) as [[b|e0|] ts]; cbn in *; congruence.
Qed.

Lemma looping_done K d p ns cs :
  reading K d p -> denote_all ns cs -> (total cs + length (rest p) <= fuel)%nat ->
  looping K d denote_all total p (mret cs) (mret ns).
Proof. intros Hp Hns Ht. unfold looping. xstep. split; [done|]. split; [apply follows_refl|]. by exists cs. Qed.

Lemma looping_test {A B} K d (R : A -> B -> Prop) w b p (f : bool -> M Parser A) g :
  reading K d p ->
  (forall t, head (rest p) = Some t -> looping K d R w p (g (b t)) (f (b t))) ->
  looping K d R w p (test b ≫= g) ((t ← peek; mret (b t)) ≫= f).
Proof.
  intros Hp H. destruct (reading_head _ _ _ _ _ Hp) as (t & Hh & Ht). unfold looping. do 2 xstep.
  eapply wpx_peek; [done|done|]. xstep.
  assert ((test b ≫= g) (rest p) = g (b t) (rest p)) as E.
  { unfold test, mbind, M_bind. by rewrite (look_head _ t). }
  unfold explained. rewrite E. by apply H.
Qed.

Lemma many_loop_refines K d m r n : parses K d m r -> eats r -> forall ns cs p,
  reading K d p -> (length (rest p) <= n)%nat -> denote_all ns cs ->
  (total cs + length (rest p) <= fuel)%nat ->
  looping K d denote_all total p (read_many_loop n r cs) (many_loop n m ns).
Proof.
  intros Hm Hr. induction n as [|n IH]; intros ns cs p Hp Hn Hns Ht; cbn [read_many_loop many_loop].
  - exfalso. pose proof (r_eof _ _ _ _ _ Hp) as He. destruct (rest p); [done|cbn in Hn; lia].
  - apply looping_test; [done|]. intros t Hh.
    change (bool_decide (kind t = KClose)) with (is_kind KClose t).
    destruct (is_kind KClose t); [by apply looping_done|].
    apply (looping_round K d m r n (fun ns => enforce_sequence (len ns)) (many_loop n m) (read_many_loop n r)); try done.
    intros ns'. apply neutral_enforce.
Qed.

Lemma refines_of_loop K d m r :
  (forall p, reading K d p -> looping K d denote_all total p (r fuel) (m (length (tokens p)))) ->
  refines K d d collected (p ← get; m (length (tokens p))) (r fuel).
Proof.
  intros H t Ht p Hp Hh. do 2 xstep. eapply wpx_mono; [by apply H| |done].
  intros a p' (Hp' & Hf & b & Hb & HR & Hl). split_and!; try done. exists b. split; [done|]. split; [done|lia].
Qed.

Lemma rest_fuel K d p : reading K d p -> (length (rest p) <= fuel)%nat.
Proof. intros Hp. unfold rest. rewrite length_drop. pose proof (r_fuel _ _ _ _ _ Hp). lia. Qed.

Lemma many_refines K d m r : parses K d m r -> eats r -> refines K d d collected (many m) (read_many fuel r).
Proof.
  intros Hm Hr. unfold many, read_many. apply (refines_of_loop K d (fun n => many_loop n m []) (fun n => read_many_loop n r [])).
  intros p Hp. rewrite (r_fuel _ _ _ _ _ Hp). pose proof (rest_fuel K d p Hp).
  apply many_loop_refines; auto using Forall2_nil_2.
Qed.

Lemma annotations_loop_refines K d m r n : parses K d m r -> eats r -> forall ns cs p,
  reading K d p -> (length (rest p) <= n)%nat -> denote_all ns cs ->
  (total cs + length (rest p) <= fuel)%nat ->
  looping K d denote_all total p (read_annotations_loop n r cs) (annotations_loop n m ns).
Proof.
  intros Hm Hr. induction n as [|n IH]; intros ns cs p Hp Hn Hns Ht; cbn [read_annotations_loop annotations_loop].
  - exfalso. pose proof (r_eof _ _ _ _ _ Hp) as He. destruct (rest p); [done|cbn in Hn; lia].
  - apply looping_test; [done|]. intros t Hh.
    change (bool_decide (kind t = KWord) && bytes_eqb (token_value t) (str "Annotation")) with (is_word "Annotation" t).
    destruct (is_word "Annotation" t); [|by apply looping_done].
    apply (looping_round K d m r n
      (fun ns => enforce MaxAnnotations (len ns) "native annotation count exceeds max_annotations")
      (annotations_loop n m) (read_annotations_loop n r)); try done.
    intros ns'. apply neutral_enforce.
Qed.

(** ** Sets *)

Lemma refines_canonical_bind {A B} k d d' (R : A -> B -> Prop) ns cs minimum o f (r : list component -> Reader B) :
  operator_tag o -> collected ns cs ->
  (forall ms, collected ms (set_of o cs) -> minimum <= len (set_of o cs) -> refines k d d' R (f ms) (r (set_of o cs))) ->
  refines k d d' R (canonical ns minimum o ≫= f) (at_least minimum (set_of o cs) ≫= r).
Proof.
  intros Ho Hns H t Ht p Hp Hh. unfold canonical. xstep.
  pose proof (collected_set_of o ns cs Ho Hns) as Htot.
  eapply wpx_mono.
  - apply (reading_world fuel names k d p _ (fun ms => denote_all ms (set_of o cs) /\ minimum <= len (set_of o cs))
      (fun e => operational e \/ (len (set_of o cs) < minimum /\ code e = code syntax)) Hp).
    intros w. apply wpx_canonical_set; [done|apply Hns].
  - intros ms p1 (Hp1 & Hf1 & Hr1 & Hms & Hmin). rewrite <- Hr1 in Hh.
    assert ((at_least minimum (set_of o cs) ≫= r) (rest p) = r (set_of o cs) (rest p1)) as E.
    { unfold at_least, ensure_not, mbind, M_bind, lift, fail_if. rewrite (proj2 (Z.ltb_ge _ _)) by lia. by rewrite Hr1. }
    eapply wpx_mono; [by apply (H ms (conj Hms Htot) Hmin t Ht p1)|..].
    + intros a p2 (Hp2 & Hf2 & b & Hb & HR). split; [done|]. split; [by eapply follows_trans|]. exists b. by rewrite E.
    + intros e p2. unfold explained. by rewrite E.
  - intros e p1 [He|[Hlt Hc]]; [by left|right]. exists syntax. split; [|done].
    unfold at_least, ensure_not, mbind, M_bind, lift, fail_if. by rewrite (proj2 (Z.ltb_lt _ _)).
Qed.

(** A set without a minimum. *)
Lemma refines_canonical_zero {A B} k d d' (R : A -> B -> Prop) ns cs f (r : Reader B) :
  collected ns cs -> (forall ms, collected ms (set_of None cs) -> refines k d d' R (f ms) r) ->
  refines k d d' R (canonical ns 0 None ≫= f) r.
Proof.
  intros Hns H t Ht. eapply refines_at_ext; [done| |].
  2: { apply (refines_canonical_bind k d d' R ns cs 0 None f (fun _ => r)); [done|done|intros ms Hms _; by apply H|done]. }
  intros ts. unfold at_least, ensure_not, mbind, M_bind, lift, fail_if. by rewrite (proj2 (Z.ltb_ge _ _)) by lia.
Qed.

Lemma set_many_refines K d m r minimum :
  parses K d m r -> eats r ->
  refines K d d (fun f cs => field_ok f (PSet cs)) (set_many m minimum) (read_set fuel r minimum).
Proof.
  intros Hm Hr. unfold set_many, read_set. eapply refines_bind; [by apply many_refines|]. intros ns cs Hns.
  intros t Ht. eapply refines_at_ext; [done| |].
  2: { apply (refines_canonical_bind K d d _ ns cs minimum None _ mret); [done|done| |done].
       intros ms Hms _. apply refines_ret. by apply collected_field_set. }
  intros ts. unfold mbind, M_bind. by destruct (at_least _ _ ts) as [[]].
Qed.

(** An operator of at least two operands, and the parenthesis after it. *)
Lemma operator_refines K d m r t0 :
  0 <= d -> is_u64 t0 -> flattens t0 = true -> parses K (d + 1) m r -> eats r ->
  refines K (d + 1) d denotes (parse_idempotent_expression m t0) (read_operator fuel r t0).
Proof.
  intros Hd Hu Hfl Hm Hr. unfold parse_idempotent_expression, read_operator.
  eapply refines_bind; [by apply many_refines|]. intros ns cs Hns.
  pose proof (Forall2_length _ _ _ (proj1 Hns)) as Hl.
  unfold at_least at 1. apply refines_assoc_r. rewrite Hl. apply (refines_ensure _ _ K (d + 1) d); [done|]. intros _.
  change (mret cs ≫= ?f) with (f cs). cbv beta.
  apply refines_canonical_bind; [by intros ? [= <-]|done|]. intros ms Hms Hmin.
  apply refines_close; [done|]. pose proof (Forall2_length _ _ _ (proj1 Hms)) as Hl'.
  destruct Hms as [Hms Htot]. destruct (set_of (Some t0) cs) as [|c [|c' ds]].
  - cbn in Hmin. lia.
  - inversion Hms as [|n c0 ms' cs0 Hn Hnil]; subst. inversion Hnil; subst.
    change (len [n] =? 1) with true. cbv iota. by apply refines_ret.
  - rewrite Hl'. rewrite (proj2 (Z.eqb_neq _ 1)) by (cbn [length]; lia).
    apply refines_build. intros w. apply wpx_build; [done| |by eauto 10].
    each_field. by apply collected_field_set.
Qed.

(** ** Annotations *)

Lemma annotations_with_refines K d m r :
  parses K d m r -> eats r ->
  refines K d d collected (parse_annotations_with m) (read_annotations_with fuel r).
Proof.
  intros Hm Hr. unfold parse_annotations_with, read_annotations_with.
  assert (refines K d d collected (p ← get; annotations_loop (length (tokens p)) m []) (read_annotations_loop fuel r [])) as H.
  { apply (refines_of_loop K d (fun n => annotations_loop n m []) (fun n => read_annotations_loop n r [])).
    intros p Hp. rewrite (r_fuel _ _ _ _ _ Hp). pose proof (rest_fuel K d p Hp).
    apply annotations_loop_refines; auto using Forall2_nil_2. }
  intros t Ht. eapply refines_at_ext; [|done|].
  2: { eapply (refines_bind _ _ K d d d); [exact H| |exact Ht]. intros ns cs Hns.
       apply (fun H => H : refines K d d collected (x ← canonical ns 0 None; mret x) (mret (set_of None cs))).
       apply (refines_canonical_zero _ _ _ _ _ _ mret _ Hns). intros ms Hms. by apply refines_ret. }
  intros p. unfold mbind, M_bind, get. destruct (annotations_loop _ _ _ p) as [[ns|e|] p1]; [|done|done].
  by destruct (canonical ns 0 None p1) as [[]].
Qed.

Lemma annotation_fuel_refines n : forall k d, (k < n)%nat ->
  parses k d (parse_annotation_fuel n) (read_annotation_fuel fuel names n).
Proof.
  induction n as [|n IH]; intros [|k] d Hk; [lia|lia|apply refines_zero|]. cbn [parse_annotation_fuel read_annotation_fuel].
  unfold parse_annotation_body, within. apply refines_keyword. intros _ _.
  apply refines_open. intros Hd.
  apply refines_assoc_r. eapply refines_bind.
  { apply annotations_with_refines; [apply IH; lia|apply eats_annotation]. }
  intros as_ bs Has. apply refines_assoc_r. eapply refines_bind; [by apply (parse_entity_refines fuel names fuel_small _ _ "annotation_property" KAnnotationProperty)|].
  intros pn pc Hpn. apply refines_assoc_r. eapply refines_bind; [by apply parse_value_refines|].
  intros vn vc Hvn. change (mret ?x ≫= ?f) with (f x). cbv beta.
  apply refines_close; [done|]. apply refines_node; [done|done|].
  each_field; [by apply field_ok_node|by apply field_ok_node|by apply collected_field_set].
Qed.

Lemma with_fuel_refines {A B} k d d' (R : A -> B -> Prop) m r :
  refines k d d' R (m (S fuel)) r -> refines k d d' R (with_fuel m) r.
Proof.
  intros H. unfold with_fuel. apply refines_get. intros p Hp. by rewrite (r_fuel _ _ _ _ _ Hp).
Qed.

(** Recursion never outruns the tokens. *)
Lemma refines_bounded {A B} k d d' (R : A -> B -> Prop) m r :
  (forall k, (k <= fuel)%nat -> refines k d d' R m r) -> refines k d d' R m r.
Proof.
  intros H t Ht p Hp Hh. pose proof (rest_fuel k d p Hp) as Hr.
  eapply wpx_mono; [apply (H (Nat.min k fuel) ltac:(lia) t Ht p); [|done]| |done].
  - destruct Hp. constructor; try done. lia.
  - intros a p' (Hp' & Hf & b & Hb & HR). split; [eapply reading_le; [|exact Hp']; lia|]. eauto.
Qed.

Lemma parse_annotation_refines k d : parses k d parse_annotation (read_annotation fuel names).
Proof.
  apply refines_bounded. intros k' Hk. apply with_fuel_refines, annotation_fuel_refines. lia.
Qed.

Lemma parse_annotations_refines k d :
  refines k d d collected parse_annotations (read_annotations fuel names).
Proof. apply annotations_with_refines; [apply parse_annotation_refines|apply eats_annotation]. Qed.
End Lists.

(** * The parsers of the keyword forms refine the tables of the grammar

    Data ranges, class expressions, rule atoms and axioms, arm by arm. *)

Section Forms.
Context (fuel : nat) (names : gmap bytes bytes).
Hypothesis fuel_small : Z.of_nat fuel < USIZE_MAX.

Notation refines := (refines fuel names).
Notation refines_at := (refines_at fuel names).
Notation refines_at_take := (Refines.refines_at_take fuel names fuel_small).
Notation refines_expect := (Refines.refines_expect fuel names fuel_small).
Notation refines_open := (Refines.refines_open fuel names fuel_small).
Notation refines_close := (Refines.refines_close fuel names fuel_small).
Notation refines_keyword := (Refines.refines_keyword fuel names fuel_small).
Notation parses k d m r := (refines k d d denotes m r).
Notation read_shape := (read_shape fuel names).
Notation read_shapes := (read_shapes fuel names).
Notation read_form := (read_form fuel names).
Notation collected := (collected fuel).

(** ** Shapes *)

Section Shapes.
Context {A X B : Type}.
Implicit Types (R : A -> B -> Prop).

Lemma refines_shapes k d d1 d' R (Rx : X -> list part -> Prop) m s shapes f (g : list part -> Reader B) :
  refines k d d1 Rx m (read_shape s) ->
  (forall x ps, Rx x ps -> refines k d1 d' R (f x) (read_shapes shapes ≫= fun qs => g (ps ++ qs))) ->
  refines k d d' R (m ≫= f) (read_shapes (s :: shapes) ≫= g).
Proof.
  intros Hm Hf t Ht. eapply refines_at_ext; [done| |eapply (refines_bind _ _ k d d1 d' Rx R m (read_shape s) f
    (fun ps => read_shapes shapes ≫= fun qs => g (ps ++ qs))); [exact Hm|exact Hf|exact Ht]].
  intros ts. cbn [Grammar.read_shapes]. unfold mbind, M_bind.
  destruct (read_shape s ts) as [[ps|e|] ts1]; [|done|done]. by destruct (read_shapes shapes ts1) as [[qs|e|] ts2].
Qed.

Lemma refines_shapes_nil k d d' R m (g : list part -> Reader B) :
  refines k d d' R m (g []) -> refines k d d' R m (read_shapes [] ≫= g).
Proof. done. Qed.
End Shapes.

Section ShapeRules.
Context {A B : Type}.
Implicit Types (R : A -> B -> Prop).

Lemma refines_one k d d' R m r shapes f (g : list part -> Reader B) :
  parses k d m r ->
  (forall n c, denotes n c -> refines k d d' R (f n) (read_shapes shapes ≫= fun qs => g (PComponent c :: qs))) ->
  refines k d d' R (m ≫= f) (read_shapes (One r :: shapes) ≫= g).
Proof.
  intros Hm Hf. eapply (refines_shapes k d d d' R (fun n ps => exists c, ps = [PComponent c] /\ denotes n c)).
  - cbn [Grammar.read_shape]. intros t Ht p Hp Hh. eapply wpx_mono; [by apply (Hm t Ht p)|..].
    + intros n p1 (Hp1 & Hf1 & c & Hc & Hn). split_and!; try done. exists [PComponent c]. split; [|eauto].
      unfold mbind, M_bind. by rewrite Hc.
    + intros e p1 [He|(e' & He & Hc)]; [by left|right]. exists e'. split; [|done].
      unfold mbind, M_bind. destruct (r (rest p)) as [[b|e0|] ts]; cbn in *; congruence.
  - intros n ps (c & -> & Hn). by apply Hf.
Qed.

Lemma refines_some_of k d d' R m r minimum shapes f (g : list part -> Reader B) :
  parses k d m r -> eats r ->
  (forall v cs, field_ok v (PSet cs) -> refines k d d' R (f v) (read_shapes shapes ≫= fun qs => g (PSet cs :: qs))) ->
  refines k d d' R (set_many m minimum ≫= f) (read_shapes (Some_of r minimum :: shapes) ≫= g).
Proof.
  intros Hm Hr Hf. eapply (refines_shapes k d d d' R (fun v ps => exists cs, ps = [PSet cs] /\ field_ok v (PSet cs))).
  - cbn [Grammar.read_shape]. intros t Ht. eapply refines_at_ext; [|done|].
    2: { eapply (refines_bind _ _ k d d d _ _ (set_many m minimum) _ mret); [by apply set_many_refines| |exact Ht].
         intros v cs Hv. apply refines_ret. eauto. }
    intros p. unfold mbind, M_bind. by destruct (set_many m minimum p) as [[]].
  - intros v ps (cs & -> & Hv). by apply Hf.
Qed.

Lemma refines_chain k d d' R m r shapes f (g : list part -> Reader B) :
  parses k d m r -> eats r ->
  (forall ns cs, collected ns cs -> refines k d d' R (f ns) (read_shapes shapes ≫= fun qs => g (PSequence cs :: qs))) ->
  refines k d d' R (many m ≫= f) (read_shapes (Chain r 0 :: shapes) ≫= g).
Proof.
  intros Hm Hr Hf. eapply (refines_shapes k d d d' R (fun ns ps => exists cs, ps = [PSequence cs] /\ collected ns cs)).
  - cbn [Grammar.read_shape]. intros t Ht. eapply refines_at_ext; [|done|].
    2: { eapply (refines_bind _ _ k d d d _ _ (many m) _ mret); [by apply many_refines| |exact Ht].
         intros ns cs Hns. unfold at_least. apply refines_assoc_r.
         intros t1 Ht1. eapply refines_at_ext; [done| |apply (refines_ret _ _ k d _ ns [PSequence cs]); [by eauto|done]].
         intros ts. unfold ensure_not, mbind, M_bind, lift, fail_if. by rewrite (proj2 (Z.ltb_ge _ _)) by lia. }
    intros p. unfold mbind, M_bind. by destruct (many m p) as [[]].
  - intros ns ps (cs & -> & Hns). by apply Hf.
Qed.
End ShapeRules.

(** ** Forms *)

(** The fields of a node that is not an operator. *)
Definition form_related (f : Z * list Field) (p : Z * list part) : Prop :=
  fst f = fst p /\ is_u64 (fst f) /\ flattens (fst f) = false /\ Forall2 field_ok (snd f) (snd p).

Lemma form_related_intro t fields ps :
  is_u64 t -> flattens t = false -> Forall2 field_ok fields ps -> form_related (t, fields) (t, ps).
Proof. done. Qed.

Lemma refines_form_end k d m r :
  0 <= d -> refines k (d + 1) (d + 1) form_related m r ->
  refines k (d + 1) d denotes
    (built ← m; close;; building (Node_build (fst built) (snd built)))
    (built ← r; close_token;; mret (Component (fst built) (snd built))).
Proof.
  intros Hd Hm. eapply refines_bind; [exact Hm|]. intros f p (Et & Hu & Hfl & Hps). apply refines_close; [done|].
  rewrite <- Et. by apply refines_node.
Qed.

Ltac ends := apply refines_shapes_nil, refines_ret, form_related_intro; [done|done|];
  each_field; eauto using field_ok_node, collected_field_sequence.

(** ** Data ranges *)

Lemma data_range_arms k d m r name :
  parses k d m r -> eats r ->
  refines k d d form_related
    (if is_name name "DataComplementOf" then operand ← m; mret (23, [FieldNode operand])
     else if is_name name "DataOneOf" then values ← set_many parse_literal 1; mret (24, [values])
     else if is_name name "DatatypeRestriction" then
       datatype ← parse_datatype; facets ← set_many parse_facet_restriction 1;
       mret (25, [FieldNode datatype; facets])
     else throw syntax)
    (read_form (data_range_forms names r) name).
Proof.
  intros Hm Hr. unfold Grammar.read_form, data_range_forms. cbn [named].
  destruct (is_name name "DataComplementOf").
  { eapply refines_one; [done|]. intros n c Hn. ends. }
  destruct (is_name name "DataOneOf").
  { eapply refines_some_of; [by apply parse_literal_refines|apply eats_literal|]. intros v cs Hv. ends. }
  destruct (is_name name "DatatypeRestriction").
  { eapply refines_one; [by apply (parse_entity_refines _ _ fuel_small _ _ "datatype" KDatatype)|]. intros n c Hn.
    eapply refines_some_of; [by apply parse_facet_refines|apply eats_facet|]. intros v cs Hv. ends. }
  intros t Ht p Hp Hh. xstep. right. by exists syntax.
Qed.

(** A call: an operator or a form. *)
Lemma refines_call k d m1 m2 m3 r t1 t2 name1 name2 table name :
  (forall d, 0 <= d -> refines (k - 2) (d + 1) d denotes m1 (read_operator fuel r t1)) ->
  (forall d, 0 <= d -> refines (k - 2) (d + 1) d denotes m2 (read_operator fuel r t2)) ->
  (forall d, refines (k - 2) d d form_related m3 (read_form table name)) ->
  forall t, kind t = KWord -> token_ok t ->
  refines_at t k d d denotes
    (_ ← take_token; open;;
     if is_name name name1 then m1
     else if is_name name name2 then m2
     else built ← m3; close;; building (Node_build (fst built) (snd built)))
    (read_call fuel names [(name1, t1); (name2, t2)] table r name).
Proof.
  intros H1 H2 H3 t Hk Ht. unfold read_call. apply refines_at_take; [congruence|].
  apply refines_open. intros Hd. cbn [named]. replace (k - 1 - 1)%nat with (k - 2)%nat by lia.
  destruct (is_name name name1); [by apply H1|]. destruct (is_name name name2); [by apply H2|].
  by apply refines_form_end.
Qed.

Lemma data_range_fuel_refines n : forall k d, (k < n)%nat ->
  parses k d (parse_data_range_fuel n) (read_data_range_fuel fuel names n).
Proof.
  induction n as [|n IH]; intros [|k] d Hk; [lia|lia|apply refines_zero|]. cbn [parse_data_range_fuel read_data_range_fuel].
  unfold parse_data_range_body. apply refines_call_name. intros t [name|] Ht Hname.
  - destruct (Hname name eq_refl) as [Hkind _]. pose proof (eats_data_range fuel names n) as Heat.
    assert (forall d', parses (S k - 2) d' (parse_data_range_fuel n) (read_data_range_fuel fuel names n)) as Hself.
    { intros d'. apply (refines_le _ _ _ k); [lia|]. apply IH. lia. }
    apply refines_call; [intros d' Hd'; by apply operator_refines..| |done|done].
    intros d'. by apply data_range_arms.
  - apply (parse_entity_refines _ _ fuel_small _ _ "datatype" KDatatype eq_refl t Ht).
Qed.

Lemma parse_data_range_refines k d : parses k d parse_data_range (read_data_range fuel names).
Proof. apply refines_bounded. intros k' Hk. apply with_fuel_refines, data_range_fuel_refines. lia. Qed.
End Forms.

(** * The parser of class expressions refines the grammar

    Cardinalities, property paths and the class constructors, arm by arm. *)

Section Classes.
Context (fuel : nat) (names : gmap bytes bytes).
Hypothesis fuel_small : Z.of_nat fuel < USIZE_MAX.

Notation refines := (refines fuel names).
Notation refines_at := (refines_at fuel names).
Notation reading := (reading fuel names).
Notation refines_expect := (Refines.refines_expect fuel names fuel_small).
Notation parses k d m r := (refines k d d denotes m r).
Notation read_shape := (read_shape fuel names).
Notation read_shapes := (read_shapes fuel names).
Notation read_form := (read_form fuel names).
Notation refines_some_of := (Parses.refines_some_of fuel names fuel_small).

Section Shapes.
Context {A B : Type}.
Implicit Types (R : A -> B -> Prop).

Lemma read_shapes_cons s shapes (g : list part -> Reader B) ts :
  (read_shapes (s :: shapes) ≫= g) ts =
  (read_shape s ≫= fun ps => read_shapes shapes ≫= fun qs => g (ps ++ qs)) ts.
Proof.
  cbn [Grammar.read_shapes]. unfold mbind, M_bind.
  destruct (read_shape s ts) as [[ps|e|] ts1]; [|done|done]. by destruct (read_shapes shapes ts1) as [[qs|e|] ts2].
Qed.

(** A shape that reads something and makes parts of it. *)
Lemma refines_shape {X} k d d' R m s shapes (r : Reader X) (parts : X -> list part) (g : list part -> Reader B) :
  read_shape s = (x ← r; mret (parts x)) ->
  refines k d d' R m (r ≫= fun x => read_shapes shapes ≫= fun qs => g (parts x ++ qs)) ->
  refines k d d' R m (read_shapes (s :: shapes) ≫= g).
Proof.
  intros Hs H t Ht. eapply refines_at_ext; [done|intros ts; rewrite read_shapes_cons, Hs; apply bind_assoc|].
  by apply H.
Qed.

Lemma refines_number k d d' R shapes f (g : list part -> Reader B) :
  (forall t, token_ok t -> kind t = KInteger ->
     refines (k - 1) d d' R (f t) (read_shapes shapes ≫= fun qs => g (PInteger (decimal_value (token_value t)) :: qs))) ->
  refines k d d' R (expect KInteger ≫= f) (read_shapes (Number :: shapes) ≫= g).
Proof.
  intros H. eapply (refines_shape _ _ _ _ _ _ _ (token KInteger) (fun t => [PInteger _])); [done|].
  by apply refines_expect.
Qed.

(** An argument that may be left out. *)
Lemma refines_otherwise k d R m r kind ek text f (g : list part -> Reader B) :
  str kind = EntityKind_name ek -> parses k d m r ->
  (forall n c, denotes n c -> refines k d d R (f n) (g [PComponent c])) ->
  refines k d d R
    (closed ← at_kind KClose;
     filler ← (if (closed : bool) then known_entity kind text else m); f filler)
    (read_shapes [Otherwise r (entity_component ek (iri_component text))] ≫= g).
Proof.
  intros Hk Hm Hf. eapply (refines_shape _ _ _ _ _ _ _ (otherwise r _) (fun c => [PComponent c])); [done|].
  unfold otherwise. apply refines_assoc_r, refines_test. intros t Ht.
  change (bool_decide (Tokenizer.kind t = KClose)) with (is_kind KClose t). destruct (is_kind KClose t).
  - apply (fun H => H t Ht). eapply refines_neutral; [by apply neutral_known|]. intros n Hn. by apply Hf.
  - apply (fun H => H t Ht). eapply refines_bind; [exact Hm|]. intros n c Hn. by apply Hf.
Qed.

(** After a component there is a token less. *)
Lemma refines_eats k d d1 d' R m r f (g : component -> Reader B) :
  refines k d d1 denotes m r -> eats r ->
  (forall n c, denotes n c -> refines (k - 1) d1 d' R (f n) (g c)) ->
  refines k d d' R (m ≫= f) (r ≫= g).
Proof.
  intros Hm Hr Hf t Ht p Hp Hh. xstep. eapply wpx_mono; [by apply (Hm t Ht p)|..].
  - intros a p1 (Hp1 & Hf1 & c & Hc & Hn). destruct (reading_head _ _ _ _ _ Hp1) as (t1 & Hh1 & Ht1).
    assert ((r ≫= g) (rest p) = g c (rest p1)) as E by (unfold mbind, M_bind; by rewrite Hc).
    assert (reading (k - 1) d1 p1) as Hp1'.
    { pose proof (Hr _ _ _ Hc). pose proof (weight_pos c). pose proof (r_length _ _ _ _ _ Hp).
      destruct Hp1. constructor; try done. lia. }
    eapply wpx_mono; [by apply (Hf a c Hn t1 Ht1 p1)|..].
    + intros a' p2 (Hp2 & Hf2 & b & Hb & HR). split; [eapply reading_le; [|exact Hp2]; lia|].
      split; [by eapply follows_trans|]. exists b. by rewrite E.
    + intros e p2 He. unfold explained. by rewrite E.
  - intros e p1 [He|(e' & He & Hc)]; [by left|right]. exists e'. split; [|done].
    unfold mbind, M_bind. destruct (r (rest p)) as [[b|e0|] ts]; cbn in *; congruence.
Qed.
End Shapes.

(** ** Property paths *)

Definition path_related (a : list Node * Node) (b : list component * component) : Prop :=
  denote_all (fst a) (fst b) /\ (length (fst b) <= fuel)%nat /\ denotes (snd a) (snd b).

Lemma refines_at_least_one {A B} k d d' (R : A -> B -> Prop) ns cs m (r : list component -> Reader B) :
  denote_all ns cs -> refines k d d' R m (r cs) ->
  refines k d d' R (ensure_not (len ns =? 0) syntax;; m) (at_least 1 cs ≫= r).
Proof.
  intros Hns H. unfold at_least. apply refines_assoc_r. rewrite (Forall2_length _ _ _ Hns).
  assert ((len cs <? 1) = (len cs =? 0)) as ->.
  { destruct (Z.ltb_spec (len cs) 1), (Z.eqb_spec (len cs) 0); lia. }
  by apply refines_ensure.
Qed.

Lemma quantified_loop_refines d n : forall k ns cs, (k <= n)%nat ->
  denote_all ns cs -> (length cs + k <= fuel)%nat ->
  refines k d d path_related (quantified_loop n ns) (read_path names n (read_data_range fuel names) cs).
Proof.
  induction n as [|n IH]; intros k ns cs Hk Hns Hl.
  { replace k with 0%nat by lia. apply refines_zero. }
  cbn [quantified_loop read_path]. apply refines_branch; intros t0 Ht0 _.
  { by apply refines_throw. }
  apply (fun H => H t0 Ht0), refines_call_name. intros t1 o Ht1 _.
  destruct (match o with Some name => data_range_constructor name | None => false end).
  - apply (fun H => H t1 Ht1). apply (refines_at_least_one _ _ _ _ ns cs _ (fun _ => _)); [done|].
    eapply refines_bind; [by apply parse_data_range_refines|]. intros n' c Hc. apply refines_ret. split_and!; [done|cbn; lia|done].
  - apply (fun H => H t1 Ht1). eapply refines_eats; [by apply parse_iri_refines|apply eats_iri|]. intros i c Hi.
    apply refines_branch; intros t2 Ht2 _; apply (fun H => H t2 Ht2).
    + apply (refines_at_least_one _ _ _ _ ns cs _ (fun _ => _)); [done|].
      eapply refines_neutral.
      { apply (neutral_build _ _ _ _ _ (fun n' => denotes n' (entity_component KDatatype c))). intros w. by apply wpx_entity. }
      intros n' Hn'. apply refines_ret. split_and!; [done|cbn; lia|done].
    + eapply refines_neutral.
      { apply (neutral_build _ _ _ _ _ (fun n' => denotes n' (entity_component KDataProperty c))). intros w. by apply wpx_entity. }
      intros n' Hn'. cbv zeta. eapply refines_neutral; [apply neutral_enforce|]. intros _ _.
      destruct k as [|k].
      { replace (0 - 1)%nat with 0%nat by lia. apply refines_zero. }
      apply IH; [lia|apply Forall2_app; [done|by repeat constructor]|].
      rewrite length_app. cbn [length]. lia.
Qed.

Lemma quantified_refines k d :
  refines k d d path_related parse_data_quantified_arguments (read_path names fuel (read_data_range fuel names) []).
Proof.
  apply refines_bounded. intros k' Hk. unfold parse_data_quantified_arguments. apply refines_get. intros p Hp.
  rewrite (r_fuel _ _ _ _ _ Hp). apply quantified_loop_refines; [done|constructor|cbn; lia].
Qed.

(** ** The constructors *)

Ltac ends := apply refines_shapes_nil, refines_ret, form_related_intro; [done|done|];
  each_field; eauto using field_ok_node, collected_field_sequence.

Lemma field_ok_integer t : token_ok t -> kind t = KInteger ->
  field_ok (FieldInteger (token_value t)) (PInteger (decimal_value (token_value t))).
Proof. intros Ht Hk. destruct (token_digits _ Ht Hk). by split_and!. Qed.

Lemma cardinality_refines k d mp rp mf rf kind ek text tag :
  str kind = EntityKind_name ek -> is_u64 tag -> flattens tag = false ->
  parses (k - 1) d mp rp -> parses (k - 1) d mf rf ->
  refines k d d form_related
    (fields ← parse_cardinality mp mf kind text; mret (tag, fields))
    (ps ← read_shapes [Number; One rp; Otherwise rf (entity_component ek (iri_component text))]; mret (tag, ps)).
Proof.
  intros Hk Hu Hfl Hp Hf. unfold parse_cardinality. apply refines_assoc_l, refines_number. intros t Ht Hti.
  apply refines_assoc_l. eapply refines_one; [done|]. intros n c Hn.
  intros t1 Ht1. eapply refines_at_ext; [intros p; apply bind_assoc|done|]. cbv beta.
  eapply refines_at_ext; [|done|].
  2: { apply (refines_otherwise (k - 1) d form_related mf rf kind ek text
         (fun filler => mret (tag, [FieldInteger (token_value t); FieldNode n; FieldNode filler])) _ Hk Hf).
       - intros n' c' Hn'. apply refines_ret, form_related_intro; [done|done|].
         each_field; [by apply field_ok_integer|by apply field_ok_node|by apply field_ok_node].
       - exact Ht1. }
  intros p. unfold mbind, M_bind. destruct (at_kind KClose p) as [[b|e|] p1]; [|done|done].
  by destruct ((if b : bool then known_entity kind text else mf) p1) as [[n'|e|] p2].
Qed.

Lemma data_path_refines k d tag :
  is_u64 tag -> flattens tag = false ->
  refines k d d form_related
    (arguments ← parse_data_quantified_arguments;
     mret (tag, [FieldSequence (fst arguments); FieldNode (snd arguments)]))
    (ps ← read_shapes [Path (read_data_range fuel names)]; mret (tag, ps)).
Proof.
  intros Hu Hfl.
  eapply (refines_shape _ _ _ _ _ _ _ (read_path names fuel (read_data_range fuel names) []) (fun found => [PSequence (fst found); PComponent (snd found)])); [done|].
  eapply refines_bind; [apply quantified_refines|]. intros [ns n] [cs c] (Hns & Hl & Hn). cbn [fst snd] in *.
  apply refines_shapes_nil, refines_ret, form_related_intro; [done|done|].
  each_field; [apply field_ok_sequence; [done|ulia]|by apply field_ok_node].
Qed.

Lemma class_arms k d m r name :
  (forall k' d', (k' <= k)%nat -> parses k' d' m r) -> eats r ->
  refines k d d form_related (class_expression_fields m name) (read_form (class_forms fuel names r) name).
Proof.
  intros Hm Hr. unfold Grammar.read_form, class_forms, class_expression_fields. cbv zeta. cbn [named].
  assert (parses k d m r) as Hm0 by by apply Hm.
  assert (parses (k - 1) d m r) as Hm1 by (apply Hm; lia).
  assert (forall k', parses k' d parse_object_property (read_object_property names)) as Ho
    by (intros k'; by apply parse_object_property_refines).
  assert (forall k', parses k' d parse_data_property (read_entity names KDataProperty)) as Hd
    by (intros k'; by apply (parse_entity_refines _ _ fuel_small _ _ "data_property" KDataProperty)).
  destruct (is_name name "ObjectComplementOf").
  { eapply refines_one; [done|]. intros n c Hn. ends. }
  destruct (is_name name "ObjectOneOf").
  { eapply refines_some_of; [by apply parse_individual_refines|apply eats_individual|]. intros v cs Hv. ends. }
  destruct (is_name name "ObjectSomeValuesFrom"); cbn [orb].
  { eapply refines_one; [done|]. intros n c Hn. eapply refines_one; [done|]. intros n' c' Hn'. ends. }
  destruct (is_name name "ObjectAllValuesFrom"); cbn [orb].
  { eapply refines_one; [done|]. intros n c Hn. eapply refines_one; [done|]. intros n' c' Hn'. ends. }
  destruct (is_name name "ObjectHasValue").
  { eapply refines_one; [done|]. intros n c Hn. eapply refines_one; [by apply parse_individual_refines|]. intros n' c' Hn'. ends. }
  destruct (is_name name "ObjectHasSelf").
  { eapply refines_one; [done|]. intros n c Hn. ends. }
  destruct (is_name name "ObjectMinCardinality"); cbn [orb].
  { by apply (cardinality_refines _ _ _ _ _ _ "class" KClass OWL_THING 38). }
  destruct (is_name name "ObjectMaxCardinality"); cbn [orb].
  { by apply (cardinality_refines _ _ _ _ _ _ "class" KClass OWL_THING 39). }
  destruct (is_name name "ObjectExactCardinality"); cbn [orb].
  { by apply (cardinality_refines _ _ _ _ _ _ "class" KClass OWL_THING 40). }
  destruct (is_name name "DataSomeValuesFrom"); cbn [orb]; [by apply (data_path_refines _ _ 41)|].
  destruct (is_name name "DataAllValuesFrom"); cbn [orb]; [by apply (data_path_refines _ _ 42)|].
  destruct (is_name name "DataHasValue").
  { eapply refines_one; [done|]. intros n c Hn. eapply refines_one; [by apply parse_literal_refines|]. intros n' c' Hn'. ends. }
  assert (forall k', parses k' d parse_data_range (read_data_range fuel names)) as Hrange
    by (intros k'; by apply parse_data_range_refines).
  destruct (is_name name "DataMinCardinality"); cbn [orb].
  { by apply (cardinality_refines _ _ _ _ _ _ "datatype" KDatatype RDFS_LITERAL 44). }
  destruct (is_name name "DataMaxCardinality"); cbn [orb].
  { by apply (cardinality_refines _ _ _ _ _ _ "datatype" KDatatype RDFS_LITERAL 45). }
  destruct (is_name name "DataExactCardinality"); cbn [orb].
  { by apply (cardinality_refines _ _ _ _ _ _ "datatype" KDatatype RDFS_LITERAL 46). }
  intros t Ht p Hp Hh. xstep. right. by exists syntax.
Qed.

Lemma class_fuel_refines n : forall k d, (k < n)%nat ->
  parses k d (parse_class_expression_fuel n) (read_class_fuel fuel names n).
Proof.
  induction n as [|n IH]; intros [|k] d Hk; [lia|lia|apply refines_zero|]. cbn [parse_class_expression_fuel read_class_fuel].
  unfold parse_class_expression_body. apply refines_call_name. intros t o Ht Hname.
  assert (forall t, token_ok t -> refines_at t (S k) d d denotes parse_class (read_entity names KClass)) as Hnone.
  { intros t1 Ht1. by apply (parse_entity_refines _ _ fuel_small _ _ "class" KClass). }
  destruct o as [name|]; [|by apply Hnone]. destruct (is_class_expression_constructor name); [|by apply Hnone].
  destruct (Hname name eq_refl) as [Hkind _]. pose proof (eats_class_fuel fuel names n) as Heat.
  assert (forall k' d', (k' <= k)%nat -> parses k' d' (parse_class_expression_fuel n) (read_class_fuel fuel names n)) as Hself.
  { intros k' d' Hk'. apply IH. lia. }
  apply refines_call; [done|intros d' Hd'; apply operator_refines; try done; apply Hself; lia..| |done|done].
  intros d'. apply class_arms; [|done]. intros k' d'' Hk'. apply Hself. lia.
Qed.

Lemma parse_class_expression_refines k d : parses k d parse_class_expression (read_class_expression fuel names).
Proof. apply refines_bounded. intros k' Hk. apply with_fuel_refines, class_fuel_refines. lia. Qed.
End Classes.

(** * The parsers of axioms and rules refine the grammar *)

Section Axioms.
Context (fuel : nat) (names : gmap bytes bytes).
Hypothesis fuel_small : Z.of_nat fuel < USIZE_MAX.

Notation refines := (refines fuel names).
Notation refines_at := (refines_at fuel names).
Notation refines_at_take := (Refines.refines_at_take fuel names fuel_small).
Notation refines_expect := (Refines.refines_expect fuel names fuel_small).
Notation refines_open := (Refines.refines_open fuel names fuel_small).
Notation refines_close := (Refines.refines_close fuel names fuel_small).
Notation refines_keyword := (Refines.refines_keyword fuel names fuel_small).
Notation refines_within := (Parses.refines_within fuel names fuel_small).
Notation refines_some_of := (Parses.refines_some_of fuel names fuel_small).
Notation parses k d m r := (refines k d d denotes m r).
Notation read_shape := (read_shape fuel names).
Notation read_shapes := (read_shapes fuel names).
Notation read_form := (read_form fuel names).
Notation collected := (collected fuel).

(** ** The terms, as hints *)

Lemma object_refines k d : parses k d parse_object_property (read_object_property names).
Proof. by apply parse_object_property_refines. Qed.
Lemma data_refines k d : parses k d parse_data_property (read_entity names KDataProperty).
Proof. by apply (parse_entity_refines _ _ fuel_small _ _ "data_property" KDataProperty). Qed.
Lemma annotation_property_refines k d : parses k d parse_annotation_property (read_entity names KAnnotationProperty).
Proof. by apply (parse_entity_refines _ _ fuel_small _ _ "annotation_property" KAnnotationProperty). Qed.
Lemma named_class_refines k d : parses k d parse_class (read_entity names KClass).
Proof. by apply (parse_entity_refines _ _ fuel_small _ _ "class" KClass). Qed.
Lemma datatype_refines k d : parses k d parse_datatype (read_entity names KDatatype).
Proof. by apply (parse_entity_refines _ _ fuel_small _ _ "datatype" KDatatype). Qed.

Create HintDb parses discriminated.
#[local] Hint Resolve object_refines data_refines annotation_property_refines named_class_refines datatype_refines : parses.
#[local] Hint Resolve parse_individual_refines parse_literal_refines parse_iri_refines parse_subject_refines
  parse_value_refines parse_declared_refines parse_iarg_refines parse_darg_refines : parses.
#[local] Hint Resolve parse_data_range_refines parse_class_expression_refines : parses.
#[local] Hint Resolve eats_individual eats_object_property eats_entity eats_class eats_literal eats_argument : parses.
#[local] Hint Extern 0 (_ < _) => exact fuel_small : parses.

(** ** Object property chains *)

Lemma parse_sub_property_refines k d :
  parses k d parse_sub_object_property (read_sub_property fuel names).
Proof.
  unfold parse_sub_object_property, read_sub_property. apply refines_branch.
  - intros t Ht Hw%is_word_kind. apply refines_at_take; [congruence|]. unfold within.
    apply refines_assoc_r, refines_open. intros Hd. cbn [Grammar.read_shape].
    do 2 apply refines_assoc_r. eapply refines_bind; [by apply many_refines; eauto with parses|]. intros ns cs Hns.
    unfold at_least. do 2 apply refines_assoc_r. unfold enforce_minimum.
    rewrite (Forall2_length _ _ _ (proj1 Hns)).
    apply (refines_ensure _ _ (k - 1 - 1) (d + 1) d); [done|]. intros _.
    change (mret cs ≫= ?f) with (f cs). cbv beta. change (mret ?x ≫= ?f) with (f x). cbv beta.
    apply refines_assoc_r, refines_close; [done|]. change (mret ?x ≫= ?f) with (f x). cbv beta.
    apply refines_node; [done|done|]. each_field. by eapply collected_field_sequence.
  - intros t Ht _. by apply object_refines.
Qed.
#[local] Hint Resolve parse_sub_property_refines : parses.

(** ** Sets between parentheses *)

Lemma refines_group {A B} k d d' (R : A -> B -> Prop) m r f (g : list component -> Reader B) :
  (forall k, parses k (d + 1) m r) -> eats r ->
  (forall k ms cs, collected ms cs -> refines k d d' R (f ms) (g cs)) ->
  refines k d d' R (open;; ns ← many m; ms ← canonical ns 0 None; close;; f ms)
    (within (read_set fuel r 0) ≫= g).
Proof.
  intros Hm Hr Hf. unfold within. apply refines_assoc_r, refines_open. intros Hd. unfold read_set.
  do 2 apply refines_assoc_r. eapply refines_bind; [by apply many_refines|]. intros ns cs Hns.
  apply refines_canonical_bind; [done..|]. intros ms Hms _.
  apply refines_assoc_r, refines_close; [done|]. by apply Hf.
Qed.

(** ** The arguments of axioms *)

Notation fields_related := (Forall2 field_ok).

Section Arms.
Context (k : nat) (d : Z) (annotations : list Node) (bs : list component).
Hypothesis annotations_ok : field_ok (FieldSet annotations) (PSet bs).

(** The parts of an axiom: its arguments, then its annotations. *)
Notation arguments shapes := (ps ← read_shapes shapes; mret (ps ++ [PSet bs])).

Lemma inverse_refines :
  refines k d d fields_related (inverse_fields annotations)
    (arguments [Unordered (read_object_property names)]).
Proof.
  intros t Ht. eapply refines_at_ext; [done| |].
  { intros ts. transitivity ((c ← read_object_property names; e ← read_object_property names;
      mret (in_order c e ++ [PSet bs])) ts); [|reflexivity].
    unfold mbind, M_bind. cbn. unfold mbind, M_bind.
    destruct (read_object_property names ts) as [[c|e|] ts1]; [|done|done].
    destruct (read_object_property names ts1) as [[c'|e|] ts2]; [|done|done]. unfold in_order. by destruct (bytes_ltb _ _). }
  revert t Ht. unfold inverse_fields. eapply refines_bind; [apply object_refines|]. intros n c Hn.
  eapply refines_bind; [apply object_refines|]. intros n' c' Hn'.
  unfold in_order. rewrite (denotes_renders _ _ Hn), (denotes_renders _ _ Hn').
  destruct (bytes_ltb (encode c') (encode c)); apply refines_ret; each_field; auto using field_ok_node.
Qed.

Lemma has_key_refines :
  refines k d d fields_related (has_key_fields annotations)
    (arguments [One (read_class_expression fuel names); Keys (read_object_property names) (read_entity names KDataProperty)]).
Proof.
  unfold has_key_fields. eapply refines_one; [by eauto with parses|]. intros n c Hn.
  intros t Ht. eapply refines_at_ext; [done| |].
  { intros ts. transitivity ((cs ← within (read_set fuel (read_object_property names) 0);
       ds ← within (read_set fuel (read_entity names KDataProperty) 0);
       ensure_not ((len cs =? 0) && (len ds =? 0)) syntax;;
       mret ([PComponent c; PSet cs; PSet ds; PSet bs])) ts); [|reflexivity].
    unfold mbind, M_bind. cbn [Grammar.read_shapes Grammar.read_shape]. unfold mbind, M_bind.
    destruct (within _ ts) as [[cs|e|] ts1]; [|done|done].
    destruct (within _ ts1) as [[ds|e|] ts2]; [|done|done].
    by destruct (ensure_not _ _ ts2) as [[?|e|] ts3]. }
  revert t Ht. apply refines_group; [eauto with parses..|]. intros k1 os cs Hos.
  apply refines_group; [eauto with parses..|]. intros k2 ps ds Hps.
  rewrite (Forall2_length _ _ _ (proj1 Hos)), (Forall2_length _ _ _ (proj1 Hps)).
  apply refines_ensure; [done|]. intros _. apply refines_ret.
  each_field; eauto using field_ok_node, collected_field_set.
Qed.

Ltac arm :=
  intros [= <- <-]; split_and!; try done;
  first
    [ apply inverse_refines | apply has_key_refines
    | unfold one, two, three, set_fields;
      repeat first
        [ eapply refines_one; [by eauto with parses|intros ? ? ?]
        | eapply refines_some_of; [by eauto with parses|by eauto with parses|intros ? ? ?] ];
      apply refines_shapes_nil, refines_ret; each_field; auto using field_ok_node ].

Lemma axiom_arms name t shapes :
  named name (axiom_forms fuel names) = Some (t, shapes) ->
  is_u64 t /\ flattens t = false /\
  refines k d d fields_related (axiom_fields name annotations) (arguments shapes).
Proof.
  unfold axiom_forms, axiom_fields, object_characteristic, one_of. cbv zeta. cbn [named existsb].
  repeat (lazymatch goal with |- (if is_name _ ?s then _ else _) = _ -> _ =>
    destruct (is_name name s); cbn [orb]; [arm|] end).
  done.
Qed.
End Arms.

(** ** Axioms *)

(** The two tables of keywords agree. *)
Lemma axiom_tag_forms name :
  axiom_tag name =
  match axiom_form fuel names name with
  | Some (Some (t, _)) => Some t
  | Some None => Some 63
  | None => None
  end.
Proof.
  unfold axiom_form. destruct (is_name name "DisjointClasses") eqn:E.
  { apply bytes_eqb_eq in E as ->. reflexivity. }
  unfold axiom_tag, axiom_forms. cbv zeta. cbn [named]. rewrite E.
  repeat (lazymatch goal with |- (if is_name _ ?s then _ else _) = _ =>
    destruct (is_name name s); [reflexivity|] end).
  reflexivity.
Qed.

Lemma refines_disjoint k d ns cs as_ bs :
  collected ns cs -> collected as_ bs ->
  refines k d d denote_all (building (disjoint_class_axioms ns as_))
    (_ ← at_least 2 cs; mret (disjoint_classes cs bs)).
Proof.
  intros Hns Has t Ht p Hp Hh. eapply wpx_mono.
  - apply (reading_world fuel names k d p _ (fun r => denote_all r (disjoint_classes cs bs) /\ 2 <= len cs)
      (fun e => operational e \/ (len cs < 2 /\ code e = code syntax)) Hp).
    intros w. apply wpx_disjoint; [apply Hns|apply Has|by eapply collected_count..].
  - intros r p1 (Hp1 & Hf1 & Hr1 & Hms & Hmin). split_and!; try done. exists (disjoint_classes cs bs). split; [|done].
    unfold at_least, ensure_not, mbind, M_bind, lift, fail_if. rewrite (proj2 (Z.ltb_ge _ _)) by lia. by rewrite Hr1.
  - intros e p1 [He|[Hlt Hc]]; [by left|right]. exists syntax. split; [|done].
    unfold at_least, ensure_not, mbind, M_bind, lift, fail_if. by rewrite (proj2 (Z.ltb_lt _ _)).
Qed.

Lemma parse_axiom_refines k d : refines k d d denote_all parse_axiom (read_axiom fuel names).
Proof.
  unfold parse_axiom, read_axiom. apply refines_expect; [done|]. intros t _ _. cbv zeta.
  rewrite axiom_tag_forms. unfold axiom_form. set (name := token_value t).
  destruct (is_name name "DisjointClasses") eqn:E.
  - change (lift (ok_or (Some ?x) syntax) ≫= ?f) with (f x). cbv beta.
    change (lift (ok_or (Some ?x) syntax) ≫= ?f) with (f x). cbv beta.
    apply refines_open. intros Hd. eapply refines_bind; [by apply parse_annotations_refines|]. intros as_ bs Has.
    eapply refines_bind; [by apply many_refines; eauto with parses|]. intros ns cs Hns.
    apply refines_close; [done|]. by apply refines_disjoint.
  - destruct (named name (axiom_forms fuel names)) as [[tag shapes]|] eqn:En; cbn [fmap option_fmap option_map].
    2: by apply refines_none.
    change (lift (ok_or (Some ?x) syntax) ≫= ?f) with (f x). cbv beta.
    change (lift (ok_or (Some ?x) syntax) ≫= ?f) with (f x). cbv beta.
    apply refines_open. intros Hd. eapply refines_bind; [by apply parse_annotations_refines|]. intros as_ bs Has.
    destruct (axiom_arms (k - 1 - 1) (d + 1) as_ bs ltac:(by eapply collected_field_set) name tag shapes En) as (Hu & Hfl & Harm).
    intros t1 Ht1. eapply refines_at_ext; [done| |].
    2: { eapply (refines_bind _ _ _ _ _ _ fields_related denote_all); [exact Harm| |exact Ht1]. intros fields ps Hps.
         apply (refines_close _ _ _ _ _ (fun _ => mret [Component tag ps])); [done|].
         intros t2 Ht2. eapply refines_at_ext; [done| |].
         2: { eapply (refines_bind _ _ _ _ _ _ denotes denote_all); [by apply refines_node| |exact Ht2]. intros n c Hn.
              apply (refines_ret _ _ _ _ _ [n] [c]). by repeat constructor. }
         reflexivity. }
    intros ts. unfold mbind, M_bind. by destruct (read_shapes shapes ts) as [[ps|e|] ts1].
Qed.

(** ** Rules *)

(** The fields of an atom, paired with its tag by the parser. *)
Lemma refines_tagged k d tag shapes m :
  is_u64 tag -> flattens tag = false ->
  refines k d d fields_related m (read_shapes shapes ≫= mret) ->
  refines k d d form_related (fields ← m; mret (tag, fields)) (ps ← read_shapes shapes; mret (tag, ps)).
Proof.
  intros Hu Hfl Hm t Ht. eapply refines_at_ext; [done| |].
  2: { eapply (refines_bind _ _ _ _ _ _ fields_related form_related); [exact Hm| |exact Ht]. intros fs ps Hps.
       apply (refines_ret _ _ _ _ _ (tag, fs) (tag, ps)). by apply form_related_intro. }
  intros ts. unfold mbind, M_bind. by destruct (read_shapes shapes ts) as [[ps|e|] ts1].
Qed.

Ltac atom_arm :=
  apply refines_tagged; [done|done|]; unfold pair_of, triple_of;
  repeat (eapply refines_one; [by eauto with parses|intros ? ? ?]);
  apply refines_shapes_nil, refines_ret; each_field; auto using field_ok_node.

Lemma atom_arms k d name :
  refines k d d form_related (atom_fields name) (read_form (atom_forms fuel names) name).
Proof.
  unfold Grammar.read_form, atom_forms, atom_fields. cbv zeta. cbn [named].
  destruct (is_name name "ClassAtom"); [atom_arm|].
  destruct (is_name name "DataRangeAtom"); [atom_arm|].
  destruct (is_name name "ObjectPropertyAtom"); [atom_arm|].
  destruct (is_name name "DataPropertyAtom"); [atom_arm|].
  destruct (is_name name "BuiltInAtom").
  { eapply refines_one; [by eauto with parses|]. intros n c Hn.
    eapply refines_chain; [by eauto with parses|by eauto with parses|]. intros ns cs Hns.
    apply refines_shapes_nil, refines_ret, form_related_intro; [done|done|].
    each_field; [by apply field_ok_node|by eapply collected_field_sequence]. }
  destruct (is_name name "SameIndividualAtom"); cbn [orb]; [atom_arm|].
  destruct (is_name name "DifferentIndividualsAtom"); [atom_arm|].
  intros t Ht p Hp Hh. xstep. right. by exists syntax.
Qed.

Lemma parse_atom_refines k d : parses k d parse_swrl_atom (read_atom fuel names).
Proof.
  unfold parse_swrl_atom, read_atom. apply refines_expect; [done|]. intros t _ _.
  eapply refines_within; [intros k'; apply atom_arms|]. intros [tag fields] [tag' ps] k' (E & Hu & Hfl & Hps).
  cbn [fst snd] in *. subst tag'. by apply refines_node.
Qed.
#[local] Hint Resolve parse_atom_refines eats_atom : parses.

Lemma parse_rule_refines k d : parses k d parse_swrl_rule (read_rule fuel names).
Proof.
  unfold parse_swrl_rule, read_rule. apply refines_keyword. intros _ _. unfold within at 1. apply refines_open. intros Hd.
  apply refines_assoc_r. eapply refines_bind; [by apply parse_annotations_refines|]. intros as_ bs Has.
  apply refines_assoc_r, refines_group; [by eauto with parses..|]. intros k1 body cs Hbody.
  apply refines_assoc_r, refines_group; [by eauto with parses..|]. intros k2 hd ds Hhd.
  change (mret ?x ≫= ?f) with (f x). cbv beta.
  eapply refines_neutral; [apply neutral_enforce|]. intros _ _. apply refines_close; [done|].
  apply refines_node; [done|done|]. each_field; by eapply collected_field_set.
Qed.
End Axioms.
