(* ===== verification/ParsesDocument.v ===== *)
(** * The parser of documents refines the grammar

    Prefixes, header and members; a member carries the span of its tokens. *)

From S2P Require Import Prelude Bytes Order Error Machine Atomic Limits Cancel Session Varint Schema Lexical Scan Component Encode Tokenizer Functional Utf8 Grammar Denotes Consumes Refines Parses.

Section Body.
Context (fuel : nat) (names : gmap bytes bytes).
Hypothesis fuel_small : Z.of_nat fuel < USIZE_MAX.

Notation refines := (refines fuel names).
Notation refines_at := (refines_at fuel names).
Notation reading := (reading fuel names).
Notation refines_at_take := (Refines.refines_at_take fuel names fuel_small).
Notation refines_expect := (Refines.refines_expect fuel names fuel_small).
Notation refines_open := (Refines.refines_open fuel names fuel_small).
Notation refines_close := (Refines.refines_close fuel names fuel_small).
Notation refines_within := (Parses.refines_within fuel names fuel_small).
Notation parses k d m r := (refines k d d denotes m r).

(** ** The header *)

Lemma axiom_tag_colon name : axiom_tag name <> None -> contains_byte 58 name = false.
Proof.
  unfold axiom_tag. cbn [named].
  repeat (lazymatch goal with |- (if is_name _ ?s then _ else _) <> _ -> _ =>
    destruct (is_name name s) eqn:E; [apply bytes_eqb_eq in E as ->; reflexivity|clear E] end).
  done.
Qed.

Lemma member_not_iri t : is_document_member t = true -> is_iri_token t = false.
Proof.
  unfold is_document_member, is_iri_token, is_kind, is_prefixed_name. intros H. apply andb_true_iff in H as [Hk H].
  rewrite Hk. apply bool_decide_eq_true in Hk. rewrite (bool_decide_eq_false_2 (kind t = KIri)) by congruence.
  cbn [orb andb]. apply andb_false_iff. left. apply orb_true_iff in H as [H|H].
  - unfold one_of in H. cbn [existsb] in H.
    repeat (apply orb_true_iff in H as [H|H]; [apply bytes_eqb_eq in H as ->; reflexivity|]). done.
  - apply axiom_tag_colon. by destruct (axiom_tag _).
Qed.

Lemma peek_at k d p t : reading k d p -> head (rest p) = Some t -> peek p = (Ok t, p).
Proof.
  intros Hp Hh. apply (head_at p t) in Hh; [|apply Hp]. unfold peek, mbind, M_bind, get, lift, index_at. by rewrite Hh.
Qed.

Definition optional (o : option Node) (p : option component) : Prop := option_Forall2 denotes o p.

(** Looking on one side only. *)
Lemma refines_at_peek {A B X} t k d d' (R : A -> B -> Prop) (b : Token -> X) f r :
  refines_at t k d d' R (f (b t)) r -> refines_at t k d d' R ((t ← peek; mret (b t)) ≫= f) r.
Proof.
  intros H p Hp Hh. pose proof (peek_at _ _ p t Hp Hh) as Hpeek.
  assert (((t ← peek; mret (b t)) ≫= f) p = f (b t) p) as E.
  { unfold mbind, M_bind. by rewrite Hpeek. }
  unfold wpx. rewrite E. by apply H.
Qed.
Lemma refines_at_test_r {A B} t k d d' (R : A -> B -> Prop) b m g :
  refines_at t k d d' R m (g (b t)) -> refines_at t k d d' R m (test b ≫= g).
Proof.
  intros H p Hp Hh. assert ((test b ≫= g) (rest p) = g (b t) (rest p)) as E.
  { unfold test, mbind, M_bind. by rewrite (look_head _ t). }
  unfold explained. rewrite E. by apply H.
Qed.

Lemma header_iri_refines k d : refines k d d optional header_iri (read_header_iri names).
Proof.
  intros t Ht. apply refines_at_peek, refines_at_peek, refines_at_test_r.
  change (bool_decide (kind t = KIri) || is_prefixed_name t) with (is_iri_token t).
  destruct (is_iri_token t) eqn:Ei; cbn [andb]; apply (fun H : refines k d d optional _ _ => H t Ht).
  - destruct (is_document_member t) eqn:Em; [by rewrite member_not_iri in Ei|]. cbn [negb].
    eapply refines_bind; [by apply parse_iri_refines|]. intros n c Hn. apply refines_ret. by constructor.
  - apply refines_ret. constructor.
Qed.

Lemma parse_header_refines k d :
  refines k d d (fun a b => optional (fst a) (fst b) /\ optional (snd a) (snd b)) parse_header (read_header names).
Proof.
  unfold parse_header, read_header. eapply refines_bind; [apply header_iri_refines|].
  intros o p [n c Hn|].
  - eapply refines_bind; [apply header_iri_refines|]. intros o2 q Ho. apply refines_ret. split; [by constructor|done].
  - apply refines_ret. split; constructor.
Qed.

(** ** Spans *)

Lemma last_take_drop {A} (l : list A) i j x :
  (i < j)%nat -> l !! (j - 1)%nat = Some x -> last (take (j - i) (drop i l)) = Some x.
Proof.
  intros Hij Hx. assert (j <= length l)%nat as Hl by (apply lookup_lt_Some in Hx; lia).
  rewrite last_lookup, length_take, length_drop.
  replace (Nat.pred ((j - i) `min` (length l - i))) with (j - i - 1)%nat by lia.
  rewrite lookup_take_lt by lia. rewrite lookup_drop. by replace (i + (j - i - 1))%nat with (j - 1)%nat by lia.
Qed.

(** The token before the ones that are left. *)
Lemma wpx_previous k d p (Q : Token -> Parser -> Prop) E :
  reading k d p -> (forall t, tokens p !! Z.to_nat (index p - 1) = Some t -> Q t p) -> 0 < index p ->
  wpx previous Q E p.
Proof.
  intros Hp HQ Hi. unfold previous. do 2 xstep. apply wpx_lift. unfold index_at.
  pose proof (index_lt _ _ _ _ _ Hp) as Hlt.
  destruct (lookup_lt_is_Some_2 (tokens p) (Z.to_nat (index p - 1)) ltac:(lia)) as [t Ht].
  assert (get_at (tokens p) (Z.max 0 (index p - 1)) = Some t) as ->.
  { apply get_at_Some. split; [lia|]. by rewrite Z.max_r by lia. }
  by apply HQ.
Qed.

Lemma refines_at_spanned {A B A' B'} t k d d' (R : A -> B -> Prop) (R' : A' -> B' -> Prop) m r
    (f : A -> Span -> M Parser A') (g : B * Span -> Reader B') :
  token_ok t -> refines k d d R m r -> uses (fun _ => 1%nat) r ->
  (forall a b span, R a b -> refines (k - 1) d d' R' (f a span) (g (b, span))) ->
  refines_at t k d d' R' (a ← m; end_ ← previous; f a (span_to t end_)) (spanned_by r ≫= g).
Proof.
  intros Ht Hm Hr Hf p Hp Hh. xstep. eapply wpx_mono; [by apply (Hm t Ht p)|..].
  - intros a p1 (Hp1 & Hf1 & b & Hb & HR). destruct (reading_head _ _ _ _ _ Hp1) as (t1 & Hh1 & Ht1).
    pose proof (Hr _ _ _ Hb) as Hlen. cbn beta in Hlen.
    pose proof (r_index _ _ _ _ _ Hp) as Hi. pose proof (index_lt _ _ _ _ _ Hp) as Hlt.
    pose proof (r_index _ _ _ _ _ Hp1) as Hi1. pose proof (index_lt _ _ _ _ _ Hp1) as Hlt1.
    assert (length (rest p) - length (rest p1) = Z.to_nat (index p1) - Z.to_nat (index p))%nat as Hdiff.
    { unfold rest. rewrite !length_drop, (f_tokens _ _ Hf1). rewrite (f_tokens _ _ Hf1) in Hlt1. lia. }
    assert (Z.to_nat (index p) < Z.to_nat (index p1))%nat as Hmoved by lia.
    xstep. eapply wpx_previous; [exact Hp1| |lia]. intros e He. rewrite (f_tokens _ _ Hf1) in He.
    assert ((spanned_by r ≫= g) (rest p) = g (b, span_to t e) (rest p1)) as E.
    { unfold spanned_by, mbind, M_bind. rewrite (look_head _ t) by done. unfold get. rewrite Hb, Hdiff.
      unfold rest at 1. rewrite (last_take_drop _ _ _ e); [done|done|].
      by replace (Z.to_nat (index p1) - 1)%nat with (Z.to_nat (index p1 - 1)) by lia. }
    assert (reading (k - 1) d p1) as Hp1'.
    { pose proof (r_length _ _ _ _ _ Hp). destruct Hp1. constructor; try done. lia. }
    eapply wpx_mono; [by apply (Hf a b _ HR t1 Ht1 p1)|..].
    + intros a' p2 (Hp2 & Hf2 & b' & Hb' & HR'). split; [eapply reading_le; [|exact Hp2]; lia|].
      split; [by eapply follows_trans|]. exists b'. by rewrite E.
    + intros x p2 Hx. unfold explained. by rewrite E.
  - intros e p1 [He|(e' & He & Hc)]; [by left|right]. exists e'. split; [|done].
    unfold spanned_by, mbind, M_bind. rewrite (look_head _ t) by done. unfold get.
    destruct (r (rest p)) as [[b|e0|] ts]; cbn in *; congruence.
Qed.

(** ** Members *)

Definition spanned_as (s : SpannedNode) (c : component * Span) : Prop :=
  denotes (spanned s) (fst c) /\ span s = snd c.

(** The header and the prefixes are those the document started with. *)
Context (ontology version : option component).

Record members_related (m : Members) (d : Document) : Prop := {
  header_kept : doc_ontology d = ontology /\ doc_version d = version /\ doc_prefixes d = names;
  imports_related : denote_all (m_imports m) (doc_imports d);
  annotations_related : Forall2 spanned_as (m_annotations m) (doc_annotations d);
  axioms_related : Forall2 spanned_as (m_axioms m) (doc_axioms d);
  extensions_related : Forall2 spanned_as (m_extensions m) (doc_extensions d)
}.

Lemma snoc_related {A B} (R : A -> B -> Prop) xs ys x y :
  Forall2 R xs ys -> R x y -> Forall2 R (xs ++ [x]) (ys ++ [y]).
Proof. intros H Hx. apply Forall2_app; [done|by repeat constructor]. Qed.

Lemma import_refines_at t k d m doc :
  kind t = KWord -> members_related m doc ->
  refines_at t k d d members_related
    (_ ← take_token; open;; iri ← parse_iri; close;;
     mret (mkMembers (m_imports m ++ [iri]) (m_annotations m) (m_axioms m) (m_extensions m)))
    (_ ← next_token; c ← within (read_iri names); mret (add_import doc c)).
Proof.
  intros Hk Hm. apply refines_at_take; [congruence|]. eapply refines_within; [intros k'; by apply parse_iri_refines|].
  intros n c k' Hn. apply refines_ret. destruct Hm. constructor; try done. by apply snoc_related.
Qed.

Lemma annotation_refines_at t k d m doc :
  token_ok t -> members_related m doc ->
  refines_at t k d d members_related
    (node ← parse_annotation; end_ ← previous;
     mret (mkMembers (m_imports m) (m_annotations m ++ [mkSpannedNode node (span_to t end_)])
             (m_axioms m) (m_extensions m)))
    (c ← spanned_by (read_annotation fuel names); mret (add_annotation doc c)).
Proof.
  intros Ht Hm.
  apply (refines_at_spanned t k d d denotes members_related parse_annotation (read_annotation fuel names)
    (fun node span => mret (mkMembers (m_imports m) (m_annotations m ++ [mkSpannedNode node span]) (m_axioms m) (m_extensions m)))
    (fun c => mret (add_annotation doc c)) Ht).
  - by apply parse_annotation_refines.
  - apply eats_takes, eats_annotation.
  - intros n c span Hn. apply refines_ret. destruct Hm. constructor; try done. by apply snoc_related.
Qed.

Lemma rule_refines_at t k d m doc :
  token_ok t -> members_related m doc ->
  refines_at t k d d members_related
    (node ← parse_swrl_rule; end_ ← previous;
     mret (mkMembers (m_imports m) (m_annotations m) (m_axioms m)
             (m_extensions m ++ [mkSpannedNode node (span_to t end_)])))
    (c ← spanned_by (read_rule fuel names); mret (add_extension doc c)).
Proof.
  intros Ht Hm.
  apply (refines_at_spanned t k d d denotes members_related parse_swrl_rule (read_rule fuel names)
    (fun node span => mret (mkMembers (m_imports m) (m_annotations m) (m_axioms m) (m_extensions m ++ [mkSpannedNode node span])))
    (fun c => mret (add_extension doc c)) Ht).
  - by apply parse_rule_refines.
  - apply takes_rule.
  - intros n c span Hn. apply refines_ret. destruct Hm. constructor; try done. by apply snoc_related.
Qed.

(** The axioms of one member share its span. *)
Lemma push_axioms_neutral k d span ns cs xs ys :
  denote_all ns cs -> Forall2 spanned_as xs ys ->
  neutral fuel names k d (for_each (push_axiom span) ns xs)
    (fun r => Forall2 spanned_as r (ys ++ map (fun c => (c, span)) cs)).
Proof.
  intros Hns. revert xs ys. induction Hns as [|n c ns cs Hn _ IH]; intros xs ys Hxs p Hp; cbn [for_each map].
  { xstep. by rewrite app_nil_r. }
  xstep. unfold push_axiom. xstep. eapply wpx_mono; [by apply (neutral_enforce fuel names k d)| |done].
  intros _ p1 (Hp1 & Hf1 & Hr1 & _). xstep.
  eapply wpx_mono; [apply (IH (xs ++ [mkSpannedNode n span]) (ys ++ [(c, span)])); [by apply snoc_related|done]| |done].
  intros r p2 (Hp2 & Hf2 & Hr2 & Hr). rewrite <- app_assoc in Hr.
  split_and!; [done|by eapply follows_trans|congruence|done].
Qed.

Lemma axioms_refines_at t k d m doc :
  token_ok t -> members_related m doc ->
  refines_at t k d d members_related
    (nodes ← parse_axiom; end_ ← previous;
     axioms ← for_each (push_axiom (span_to t end_)) nodes (m_axioms m);
     mret (mkMembers (m_imports m) (m_annotations m) axioms (m_extensions m)))
    (cs ← spanned_by (read_axiom fuel names); mret (add_axioms doc cs)).
Proof.
  intros Ht Hm.
  apply (refines_at_spanned t k d d denote_all members_related parse_axiom (read_axiom fuel names)
    (fun nodes span => axioms ← for_each (push_axiom span) nodes (m_axioms m);
       mret (mkMembers (m_imports m) (m_annotations m) axioms (m_extensions m)))
    (fun cs => mret (add_axioms doc cs)) Ht).
  - by apply parse_axiom_refines.
  - apply takes_axiom.
  - intros ns cs span Hns. eapply refines_neutral; [by apply push_axioms_neutral; [|apply Hm]|].
    intros xs Hxs. apply refines_ret. destruct Hm. by constructor.
Qed.

(** ** Runs of the parser that allow rules or not *)

(** What [refines_at] says of one state. *)
Definition agrees {A B} (k : nat) (d : Z) (R : A -> B -> Prop) (m : M Parser A) (r : Reader B) (p : Parser) : Prop :=
  wpx m (fun a p' => reading k d p' /\ follows p p' /\ exists b, r (rest p) = (Ok b, rest p') /\ R a b)
    (fun e _ => explained r (rest p) e) p.

Lemma agrees_ext {A B} k d (R : A -> B -> Prop) m m' r r' p :
  m p = m' p -> r (rest p) = r' (rest p) -> agrees k d R m' r' p -> agrees k d R m r p.
Proof. intros Hm Hr. unfold agrees, wpx, explained. by rewrite Hm, Hr. Qed.

Lemma bind_ok {S X Y} (m : M S X) (f : X -> M S Y) s x : m s = (Ok x, s) -> (m ≫= f) s = f x s.
Proof. intros E. unfold mbind, M_bind. by rewrite E. Qed.

Notation swrl_disabled := (new "NATIVE_EXTENSION_DISABLED" "native SWRL parsing requires explicit enablement").

Lemma agrees_bind {A B A' B'} k d k' d' (R : A -> B -> Prop) (R' : A' -> B' -> Prop) m r f g p :
  agrees k d R m r p ->
  (forall a b p1, reading k d p1 -> follows p p1 -> r (rest p) = (Ok b, rest p1) -> R a b ->
     agrees k' d' R' (f a) (g b) p1) ->
  agrees k' d' R' (m ≫= f) (r ≫= g) p.
Proof.
  intros Hm Hf. unfold agrees. xstep. eapply wpx_mono; [exact Hm|..].
  - intros a p1 (Hp1 & Hf1 & b & Hb & HR).
    assert ((r ≫= g) (rest p) = g b (rest p1)) as E by (unfold mbind, M_bind; by rewrite Hb).
    eapply wpx_mono; [by apply (Hf a b p1)|..].
    + intros a' p2 (Hp2 & Hf2 & b' & Hb' & HR'). split; [done|]. split; [by eapply follows_trans|]. exists b'. by rewrite E.
    + intros e p2 He. unfold explained. by rewrite E.
  - intros e p1 [He|(e' & He & Hc)]; [by left|right]. exists e'. split; [|done].
    unfold mbind, M_bind. destruct (r (rest p)) as [[b|e0|] ts]; cbn in *; congruence.
Qed.

Lemma agrees_refines {A B} k d d' (R : A -> B -> Prop) m r p :
  refines k d d' R m r -> reading k d p -> agrees k d' R m r p.
Proof. intros H Hp. destruct (reading_head _ _ _ _ _ Hp) as (t & Hh & Ht). by apply (H t Ht p). Qed.

Lemma parser_word_at k d p t name :
  reading k d p -> head (rest p) = Some t -> word name p = (Ok (is_word name t), p).
Proof. intros Hp Hh. pose proof (peek_at _ _ p t Hp Hh) as E. unfold word, mbind, M_bind. by rewrite E. Qed.

Lemma parse_member_agrees k d m doc p :
  reading k d p -> members_related m doc ->
  agrees k d members_related (parse_member m) (read_member fuel (swrl_allowed p) names doc) p.
Proof.
  intros Hp Hm. destruct (reading_head _ _ _ _ _ Hp) as (t & Hh & Ht).
  apply (agrees_ext _ _ _ _
    (if is_word "Import" t then
       _ ← take_token; open;; iri ← parse_iri; close;;
       mret (mkMembers (m_imports m ++ [iri]) (m_annotations m) (m_axioms m) (m_extensions m))
     else if is_word "Annotation" t then
       node ← parse_annotation; end_ ← previous;
       mret (mkMembers (m_imports m) (m_annotations m ++ [mkSpannedNode node (span_to t end_)]) (m_axioms m) (m_extensions m))
     else if is_word "SWRLRule" t then
       p ← get; ensure_not (negb (swrl_allowed p)) swrl_disabled;;
       node ← parse_swrl_rule; end_ ← previous;
       mret (mkMembers (m_imports m) (m_annotations m) (m_axioms m) (m_extensions m ++ [mkSpannedNode node (span_to t end_)]))
     else
       nodes ← parse_axiom; end_ ← previous;
       axioms ← for_each (push_axiom (span_to t end_)) nodes (m_axioms m);
       mret (mkMembers (m_imports m) (m_annotations m) axioms (m_extensions m)))
    _ (if is_word "Import" t then
         _ ← next_token; c ← within (read_iri names); mret (add_import doc c)
       else if is_word "Annotation" t then
         c ← spanned_by (read_annotation fuel names); mret (add_annotation doc c)
       else if is_word "SWRLRule" t then
         ensure_not (negb (swrl_allowed p)) swrl_disabled;;
         c ← spanned_by (read_rule fuel names); mret (add_extension doc c)
       else cs ← spanned_by (read_axiom fuel names); mret (add_axioms doc cs))).
  { unfold parse_member. rewrite (bind_ok _ _ _ _ (peek_at _ _ p t Hp Hh)).
    by do 3 rewrite (bind_ok _ _ _ _ (parser_word_at _ _ p t _ Hp Hh)). }
  { unfold read_member. by rewrite (bind_ok _ _ _ _ (look_head _ t Hh)). }
  destruct (is_word "Import" t) eqn:Ei; [apply is_word_kind in Ei; by apply (import_refines_at t)|].
  destruct (is_word "Annotation" t); [by apply (annotation_refines_at t)|].
  destruct (is_word "SWRLRule" t); [|by apply (axioms_refines_at t)].
  destruct (swrl_allowed p) eqn:Ea.
  - apply (agrees_ext _ _ _ _ (node ← parse_swrl_rule; end_ ← previous;
       mret (mkMembers (m_imports m) (m_annotations m) (m_axioms m) (m_extensions m ++ [mkSpannedNode node (span_to t end_)])))
      _ (c ← spanned_by (read_rule fuel names); mret (add_extension doc c))).
    + rewrite (bind_ok get _ p p eq_refl). by rewrite Ea.
    + done.
    + by apply (rule_refines_at t).
  - unfold agrees. do 2 xstep. rewrite Ea. xstep. right. by exists swrl_disabled.
Qed.

(** A member takes a token. *)
Lemma takes_spanned {B} (r : Reader B) : uses (fun _ => 1%nat) r -> uses (fun _ => 1%nat) (spanned_by r).
Proof.
  intros Hr. unfold spanned_by. eapply uses_then; [apply quiet_look|]. intros t. eapply uses_then; [apply quiet_get|].
  intros ts. apply takes_then; [done|]. intros b. eapply uses_then; [apply quiet_get|]. intros ts'. quietly.
Qed.

Lemma takes_member allow doc : uses (fun _ => 1%nat) (read_member fuel allow names doc).
Proof.
  unfold read_member. eapply uses_then; [apply quiet_look|]. intros t. destruct (is_word "Import" t).
  { apply takes_then; [apply uses_next|]. intros _. eapply uses_then; [apply uses_within; eapply eats_quiet, eats_iri|].
    intros c. by apply uses_ret. }
  destruct (is_word "Annotation" t).
  { apply takes_then; [apply takes_spanned, eats_takes, eats_annotation|]. intros c. by apply uses_ret. }
  destruct (is_word "SWRLRule" t).
  { eapply uses_then; [by apply (uses_lift (fun _ => 0%nat))|]. intros _.
    apply takes_then; [apply takes_spanned, takes_rule|]. intros c. by apply uses_ret. }
  apply takes_then; [apply takes_spanned, takes_axiom|]. intros c. by apply uses_ret.
Qed.

Lemma at_kind_at k d p t K : reading k d p -> head (rest p) = Some t -> at_kind K p = (Ok (is_kind K t), p).
Proof. intros Hp Hh. pose proof (peek_at _ _ p t Hp Hh) as E. unfold at_kind, mbind, M_bind. by rewrite E. Qed.
Lemma test_at b ts t : head ts = Some t -> test b ts = (Ok (b t), ts).
Proof. intros H. unfold test. by rewrite (bind_ok _ _ _ _ (look_head _ t H)). Qed.

Lemma members_loop_agrees allow n : forall k d m doc p,
  reading k d p -> swrl_allowed p = allow -> (length (rest p) <= n)%nat -> members_related m doc ->
  agrees k d members_related (members_loop n m) (read_members fuel allow names n doc) p.
Proof.
  induction n as [|n IH]; intros k d m doc p Hp Ha Hn Hm.
  { exfalso. pose proof (r_eof _ _ _ _ _ Hp) as He. destruct (rest p); [done|cbn in Hn; lia]. }
  destruct (reading_head _ _ _ _ _ Hp) as (t & Hh & Ht).
  apply (agrees_ext _ _ _ _ (if is_kind KClose t then (mret m : M Parser Members) else m ← parse_member m; members_loop n m)
    _ (if is_kind KClose t then (mret doc : Reader Document) else d ← read_member fuel allow names doc; read_members fuel allow names n d)).
  { cbn [members_loop]. by rewrite (bind_ok _ _ _ _ (at_kind_at _ _ p t KClose Hp Hh)). }
  { cbn [read_members]. by rewrite (bind_ok _ _ _ _ (test_at (is_kind KClose) _ t Hh)). }
  destruct (is_kind KClose t).
  - apply agrees_refines with (d := d); [|done]. by apply refines_ret.
  - rewrite <- Ha. eapply agrees_bind; [by apply parse_member_agrees|]. intros m' doc' p1 Hp1 Hf1 Hr Hm'.
    rewrite Ha. apply IH; [done|by rewrite (f_swrl _ _ Hf1)| |done].
    pose proof (takes_member _ _ _ _ _ Hr) as Hlen. cbn beta in Hlen. lia.
Qed.
End Body.

(** ** Whole documents *)

Section Whole.
Context (fuel : nat).
Hypothesis fuel_small : Z.of_nat fuel < USIZE_MAX.

(** [parse_prefix], up to the declaration. *)
Definition prefix_front : M Parser (bytes * bytes) :=
  _ ← expect_word "Prefix";
  open;;
  t ← expect KWord;
  prefix ← lift (ok_or (if bool_decide (last (token_value t) = Some 58)
                        then Some (removelast (token_value t)) else None) syntax);
  _ ← expect KEqual;
  raw ← expect KIri;
  value ← building (decode_iri_escapes (token_value raw));
  enforce MaxIriBytes (len value) "native prefix IRI exceeds max_iri_bytes";;
  mret (prefix, value).
Definition prefix_back (e : bytes * bytes) : M Parser unit :=
  p ← get;
  enforce MaxPrefixes (Z.of_nat (base.size (prefixes p))) "native prefix count exceeds max_prefixes";;
  close.
Definition read_prefix_front : Reader (bytes * bytes) :=
  _ ← keyword "Prefix";
  open_token;;
  t ← token KWord;
  prefix ← lift (ok_or (if bool_decide (last (token_value t) = Some 58)
                        then Some (removelast (token_value t)) else None) syntax);
  _ ← token KEqual;
  raw ← token KIri;
  value ← lift (ok_or (unescape (token_value raw)) syntax);
  mret (prefix, value).

Lemma prefix_front_refines names k d : refines fuel names k d (d + 1) eq prefix_front read_prefix_front.
Proof.
  unfold prefix_front, read_prefix_front. apply refines_keyword; [done|]. intros _ _.
  apply refines_open; [done|]. intros Hd. apply refines_expect; [done|done|]. intros t Ht _.
  apply refines_ok_or; [done|]. intros prefix _. apply refines_expect; [done|done|]. intros _ _ _.
  apply refines_expect; [done|done|]. intros raw Hraw _. apply refines_decode; [apply Hraw|by intros ->|].
  intros value ->. eapply refines_neutral; [apply neutral_enforce|]. intros _ _. by apply refines_ret.
Qed.

Lemma close_refines names k d : 0 <= d -> refines fuel names k (d + 1) d eq close close_token.
Proof.
  intros Hd t Ht. eapply refines_at_ext; [| |apply (refines_close _ _ fuel_small k d d eq mret mret); [done| |exact Ht]].
  - intros p. unfold mbind, M_bind. by destruct (close p) as [[[]|e|] p'].
  - intros ts. unfold mbind, M_bind. by destruct (close_token ts) as [[[]|e|] ts'].
  - by apply refines_ret.
Qed.

Lemma parse_prefix_split p : parse_prefix p = (e ← prefix_front; modify_parser (with_prefix (fst e) (snd e));; prefix_back e) p.
Proof.
  unfold parse_prefix, prefix_front, prefix_back, mbind, M_bind.
  destruct (expect_word "Prefix" p) as [[?|?|] p1]; [|done..].
  destruct (open p1) as [[?|?|] p2]; [|done..].
  destruct (expect KWord p2) as [[?|?|] p3]; [|done..].
  destruct (lift _ p3) as [[?|?|] p4]; [|done..].
  destruct (expect KEqual p4) as [[?|?|] p5]; [|done..].
  destruct (expect KIri p5) as [[?|?|] p6]; [|done..].
  destruct (building _ p6) as [[?|?|] p7]; [|done..].
  by destruct (enforce _ _ _ p7) as [[?|?|] p8].
Qed.
Lemma read_prefix_split ts : read_prefix ts = (e ← read_prefix_front; close_token;; mret e) ts.
Proof.
  unfold read_prefix, read_prefix_front, within, mbind, M_bind.
  destruct (keyword "Prefix" ts) as [[?|?|] ts1]; [|done..].
  destruct (open_token ts1) as [[?|?|] ts2]; [|done..].
  destruct (token KWord ts2) as [[?|?|] ts3]; [|done..].
  destruct (lift _ ts3) as [[?|?|] ts4]; [|done..].
  destruct (token KEqual ts4) as [[?|?|] ts5]; [|done..].
  destruct (token KIri ts5) as [[?|?|] ts6]; [|done..].
  by destruct (lift _ ts6) as [[?|?|] ts7].
Qed.

Lemma parse_prefix_declares names k d p :
  reading fuel names k d p ->
  wpx parse_prefix (fun _ p' => exists e, reading fuel (<[fst e := snd e]> names) k d p' /\ follows p p' /\
                                         read_prefix (rest p) = (Ok e, rest p'))
    (fun e _ => explained read_prefix (rest p) e) p.
Proof.
  intros Hp. unfold wpx, explained. rewrite parse_prefix_split, read_prefix_split.
  pose proof (r_positive _ _ _ _ _ Hp) as Hd.
  change (wpx (e ← prefix_front; modify_parser (with_prefix (fst e) (snd e));; prefix_back e)
    (fun _ p' => exists e, reading fuel (<[fst e := snd e]> names) k d p' /\ follows p p' /\
       (e ← read_prefix_front; close_token;; mret e) (rest p) = (Ok e, rest p'))
    (fun e _ => explained (e ← read_prefix_front; close_token;; mret e) (rest p) e) p).
  xstep. eapply wpx_mono; [apply (agrees_refines _ _ _ _ _ _ _ _ _ (prefix_front_refines names k d) Hp)|..].
  - intros e p1 (Hp1 & Hf1 & e' & He & <-). unfold modify_parser. do 4 xstep.
    set (p2 := with_prefix (fst e) (snd e) p1).
    assert (reading fuel (<[fst e := snd e]> names) k (d + 1) p2) as Hp2.
    { destruct Hp1 as [H1 H2 H3 H4 H5 H6 H7 H8 H9]. constructor; try done. cbn. by rewrite H4. }
    assert (refines fuel (<[fst e := snd e]> names) k (d + 1) d eq (prefix_back e) close_token) as Hback.
    { unfold prefix_back. apply refines_get. intros q Hq.
      eapply refines_neutral; [apply neutral_enforce|]. intros _ _. by apply close_refines. }
    eapply wpx_mono; [apply (agrees_refines _ _ _ _ _ _ _ _ _ Hback Hp2)|..].
    + intros u p3 (Hp3 & Hf3 & u' & Hu & _). exists e. split; [done|]. split.
      * eapply follows_trans; [exact Hf1|]. by destruct Hf3.
      * unfold mbind, M_bind. rewrite He. change (rest p1) with (rest p2). by rewrite Hu.
    + intros x p3 [Hx|(x' & Hx & Hc)]; [by left|right]. exists x'. split; [|done].
      unfold mbind, M_bind. rewrite He. change (rest p1) with (rest p2).
      destruct (close_token (rest p2)) as [[?|?|] ?]; cbn in *; congruence.
  - intros e p1 [He|(e' & He & Hc)]; [by left|right]. exists e'. split; [|done].
    unfold mbind, M_bind. destruct (read_prefix_front (rest p)) as [[b|e0|] ts]; cbn in *; congruence.
Qed.

Lemma prefixes_loop_declares n : forall names k d p,
  reading fuel names k d p -> (length (rest p) <= n)%nat ->
  wpx (prefixes_loop n) (fun _ p' => exists names', reading fuel names' k d p' /\ follows p p' /\
                                        read_prefixes n names (rest p) = (Ok names', rest p'))
    (fun e _ => explained (read_prefixes n names) (rest p) e) p.
Proof.
  induction n as [|n IH]; intros names k d p Hp Hn.
  { exfalso. pose proof (r_eof _ _ _ _ _ Hp) as He. destruct (rest p); [done|cbn in Hn; lia]. }
  destruct (reading_head _ _ _ _ _ Hp) as (t & Hh & Ht). unfold wpx, explained.
  cbn [prefixes_loop read_prefixes].
  rewrite (bind_ok _ _ _ _ (parser_word_at _ _ _ _ p t "Prefix" Hp Hh)), (bind_ok _ _ _ _ (test_at (is_word "Prefix") _ t Hh)).
  destruct (is_word "Prefix" t); [|by exists names].
  change (wpx (parse_prefix;; prefixes_loop n) (fun _ p' => exists names', reading fuel names' k d p' /\ follows p p' /\
      (e ← read_prefix; read_prefixes n (<[fst e := snd e]> names)) (rest p) = (Ok names', rest p'))
    (fun e _ => explained (e ← read_prefix; read_prefixes n (<[fst e := snd e]> names)) (rest p) e) p).
  xstep. eapply wpx_mono; [by apply (parse_prefix_declares names k d)|..].
  - intros _ p1 (e & Hp1 & Hf1 & He). pose proof (takes_prefix _ _ _ He) as Hlen. cbn beta in Hlen.
    assert ((e ← read_prefix; read_prefixes n (<[fst e := snd e]> names)) (rest p) =
            read_prefixes n (<[fst e := snd e]> names) (rest p1)) as E by (unfold mbind, M_bind; by rewrite He).
    eapply wpx_mono; [apply (IH _ k d p1 Hp1); lia|..].
    + intros _ p2 (names' & Hp2 & Hf2 & Hr). exists names'. rewrite E. split_and!; [done|by eapply follows_trans|done].
    + intros x p2. unfold explained. by rewrite E.
  - intros e p1 [He|(e' & He & Hc)]; [by left|right]. exists e'. split; [|done].
    unfold mbind, M_bind. destruct (read_prefix (rest p)) as [[b|e0|] ts]; cbn in *; congruence.
Qed.

(** The document that a parsed document stands for. *)
Record document_related (count : Z) (p : ParsedDocument) (d : Document) : Prop := {
  same_ontology : optional (ontology_iri p) (doc_ontology d);
  same_version : optional (version_iri p) (doc_version d);
  same_imports : denote_all (imports p) (doc_imports d);
  same_annotations : Forall2 spanned_as (annotations p) (doc_annotations d);
  same_axioms : Forall2 spanned_as (axioms p) (doc_axioms d);
  same_extensions : Forall2 spanned_as (extensions p) (doc_extensions d);
  same_prefixes : document_prefixes p = into_entries (doc_prefixes d);
  same_codepoints : decoded_codepoints p = count
}.

(** The end of the source. *)
Lemma wpx_expect_eof names k d p (Q : Token -> Parser -> Prop) :
  reading fuel names k d p ->
  (forall t p', token KEof (rest p) = (Ok t, tail (rest p)) -> prefixes p' = names -> codepoints p' = codepoints p ->
     continues (session p) (session p') -> Q t p') ->
  wpx (expect KEof) Q (fun e _ => explained (token KEof) (rest p) e) p.
Proof.
  intros Hp HQ. destruct (reading_head _ _ _ _ _ Hp) as (t & Hh & Ht). unfold expect. xstep.
  eapply wpx_peek; [exact Hp|exact Hh|]. xstep.
  assert (token KEof (rest p) = (ensure_not (negb (bool_decide (kind t = KEof))) syntax;; next_token) (rest p)) as E.
  { unfold token. by rewrite (bind_ok _ _ _ _ (look_head _ t Hh)). }
  apply wpx_ensure_not; intros Hk; rewrite Hk in E.
  - right. exists syntax. by rewrite E.
  - pose proof (index_lt _ _ _ _ _ Hp) as Hi. pose proof (r_fuel _ _ _ _ _ Hp) as Hfuel.
    pose proof (r_index _ _ _ _ _ Hp) as Hi0.
    assert (get_at (tokens p) (index p) = Some t) as Hg by (by apply (head_at p t)).
    unfold take_token. do 3 xstep. apply wpx_lift. rewrite Hg. cbn [ok_or]. xstep. apply wpx_lift.
    rewrite checked_add_ok by ulia. cbn [ok_or]. xstep. unfold modify_parser. do 5 xstep.
    eapply wpx_mono; [apply (wpx_operational (step_work 1) (fun _ s => continues (session p) s)); [|apply fails_step_work]| |by left].
    { apply wp_step_work; [apply Hp|]. intros s' Hs. exact Hs. }
    intros [] s' Hs. xstep. apply HQ; [|apply Hp|done|done]. rewrite E.
    destruct (rest p) as [|t' ts]; [done|]. by injection Hh as ->.
Qed.

(** [Parser::parse] and the reader of documents, in three parts. *)
Definition parse_front : M Parser (option Node * option Node) :=
  _ ← expect_word "Ontology"; open;; parse_header.
Definition parse_end (header : option Node * option Node) (members : Members) : M Parser ParsedDocument :=
  close;;
  _ ← expect KEof;
  p ← get;
  mret {| ontology_iri := fst header; version_iri := snd header; imports := m_imports members;
          annotations := m_annotations members; axioms := m_axioms members;
          extensions := m_extensions members; document_prefixes := into_entries (prefixes p);
          decoded_codepoints := codepoints p; language_spellings := spellings p |}.
Definition read_front (names : gmap bytes bytes) : Reader (option component * option component) :=
  _ ← keyword "Ontology"; open_token;; read_header names.
Definition read_end (d : Document) : Reader Document :=
  close_token;; _ ← token KEof; mret d.

Definition parse_body : M Parser ParsedDocument :=
  header ← parse_front; members ← members_loop fuel no_members; parse_end header members.
Definition empty_document (names : gmap bytes bytes) (header : option component * option component) : Document :=
  mkDocument (fst header) (snd header) [] [] [] [] names.
Definition read_body (names : gmap bytes bytes) (allow : bool) : Reader Document :=
  header ← read_front names;
  d ← read_members fuel allow names fuel (empty_document names header);
  read_end d.

Lemma Parser_parse_split p : length (tokens p) = fuel -> Parser_parse p = (prefixes_loop fuel;; parse_body) p.
Proof.
  intros E. unfold Parser_parse, parse_body, parse_front, parse_end. rewrite (bind_ok get _ p p eq_refl), E.
  unfold mbind, M_bind. destruct (prefixes_loop fuel p) as [[?|?|] p1]; [|done..].
  destruct (expect_word "Ontology" p1) as [[?|?|] p2]; [|done..]. by destruct (open p2) as [[?|?|] p3].
Qed.
Lemma read_document_split allow ts :
  read_document_fuel fuel allow ts = (names ← read_prefixes fuel initial_prefixes; read_body names allow) ts.
Proof.
  unfold read_document_fuel, read_body, read_front, read_end, mbind, M_bind.
  destruct (read_prefixes fuel initial_prefixes ts) as [[?|?|] ts1]; [|done..].
  destruct (keyword "Ontology" ts1) as [[?|?|] ts2]; [|done..]. by destruct (open_token ts2) as [[?|?|] ts3].
Qed.

Lemma explained_bind {X Y} (r : Reader X) (g : X -> Reader Y) ts e : explained r ts e -> explained (r ≫= g) ts e.
Proof.
  intros [He|(e' & He & Hc)]; [by left|right]. exists e'. split; [|done].
  unfold mbind, M_bind. destruct (r ts) as [[b|e0|] ts']; cbn in *; congruence.
Qed.

Lemma explained_after {X Y} (r : Reader X) (g : X -> Reader Y) ts x ts' e :
  r ts = (Ok x, ts') -> explained (g x) ts' e -> explained (r ≫= g) ts e.
Proof. intros Hr. unfold explained, mbind, M_bind. by rewrite Hr. Qed.

Lemma parse_end_agrees names k p header members doc :
  reading fuel names k 1 p ->
  optional (fst header) (doc_ontology doc) -> optional (snd header) (doc_version doc) -> doc_prefixes doc = names ->
  members_related names (doc_ontology doc) (doc_version doc) members doc ->
  wpx (parse_end header members)
    (fun r p' => (exists ts, read_end doc (rest p) = (Ok doc, ts)) /\ document_related (codepoints p) r doc /\
                 continues (session p) (session p'))
    (fun e _ => explained (read_end doc) (rest p) e) p.
Proof.
  intros Hp Ho Hv Hn Hm. unfold parse_end, read_end. xstep.
  eapply wpx_mono; [apply (agrees_refines _ _ _ _ _ _ _ _ _ (close_refines names k 0 ltac:(lia)) Hp)|..].
  - intros u p1 (Hp1 & Hf1 & u' & Hu & _). xstep.
    eapply wpx_mono; [apply (wpx_expect_eof names k 0 p1 (fun t p' => token KEof (rest p1) = (Ok t, tail (rest p1)) /\
      prefixes p' = names /\ codepoints p' = codepoints p1 /\ continues (session p1) (session p')) Hp1); done|..].
    + intros t p2 (Et & Epre & Ecp & Hs). do 3 xstep. split_and!; [| |destruct Hs as [? Hlim]; split; [done|by rewrite Hlim, (f_limits _ _ Hf1)]].
      * eexists. unfold mbind, M_bind. rewrite Hu, Et. done.
      * destruct Hm. constructor; cbn; try done; [by rewrite Epre, Hn|by rewrite Ecp, (f_codepoints _ _ Hf1)].
    + intros e p2 He. eapply explained_after; [exact Hu|]. by apply explained_bind.
  - intros e p1 He. by apply explained_bind.
Qed.

Lemma body_front_refines names k :
  refines fuel names k 0 1 (fun a b => optional (fst a) (fst b) /\ optional (snd a) (snd b)) parse_front (read_front names).
Proof.
  apply refines_keyword; [done|]. intros _ _. apply refines_open; [done|]. intros Hd. by apply parse_header_refines.
Qed.

(** The header of a document is the one its members are added to. *)
Lemma parse_body_agrees names k p :
  reading fuel names k 0 p ->
  wpx parse_body
    (fun r p' => (exists doc ts, read_body names (swrl_allowed p) (rest p) = (Ok doc, ts) /\
                  document_related (codepoints p) r doc) /\ continues (session p) (session p'))
    (fun e _ => explained (read_body names (swrl_allowed p)) (rest p) e) p.
Proof.
  intros Hp. unfold parse_body, read_body. xstep.
  eapply wpx_mono; [apply (agrees_refines _ _ _ _ _ _ _ _ _ (body_front_refines names k) Hp)|..].
  2: { intros e p1 He. by apply explained_bind. }
  intros header p1 (Hp1 & Hf1 & header' & Hh & Ho & Hv). xstep.
  pose proof (rest_fuel _ _ _ _ _ Hp1) as Hfuel. set (empty := empty_document names header').
  assert (members_related names (fst header') (snd header') no_members empty) as He by (by constructor).
  eapply wpx_mono.
  - apply (members_loop_agrees fuel names fuel_small (fst header') (snd header') (swrl_allowed p) fuel k 1 no_members empty p1);
      [done|apply Hf1|done|done].
  - intros members p2 (Hp2 & Hf2 & doc & Hd & Hm). pose proof (header_kept _ _ _ _ _ Hm) as (E1 & E2 & E3).
    eapply wpx_mono; [apply (parse_end_agrees names k p2 header members doc Hp2)|..]; rewrite ?E1, ?E2; try done.
    + intros r p3 ([ts Hts] & Hr & Hs). split; [|destruct Hs as [? Hlim]; split; [done|by rewrite Hlim, (f_limits _ _ Hf2), (f_limits _ _ Hf1)]]. exists doc, ts. split.
      * subst empty. unfold mbind, M_bind. by rewrite Hh, Hd.
      * by rewrite (f_codepoints _ _ Hf2), (f_codepoints _ _ Hf1) in Hr.
    + intros e p3 Hx. eapply explained_after; [exact Hh|]. by eapply explained_after.
  - intros e p2 Hx. eapply explained_after; [exact Hh|]. by apply explained_bind.
Qed.

Lemma parser_reading ts allow collect count s :
  session_ok s -> ends_with_eof ts -> Forall token_ok ts -> length ts = fuel ->
  reading fuel initial_prefixes fuel 0 (Parser_new ts allow collect count s).
Proof. intros Hs He Ht Hl. constructor; try done. by rewrite <- Hl. Qed.

(** [Parser::parse] on the tokens of a source. *)
Lemma Parser_parse_agrees ts allow collect count s :
  session_ok s -> ends_with_eof ts -> Forall token_ok ts -> length ts = fuel ->
  wpx Parser_parse
    (fun r p' => (exists doc, fst (read_document_fuel fuel allow ts) = Ok doc /\ document_related count r doc) /\
                 continues s (session p'))
    (fun e _ => operational e \/ exists e', fst (read_document_fuel fuel allow ts) = Err e' /\ code e' = code e)
    (Parser_new ts allow collect count s).
Proof.
  intros Hs He Ht Hl. pose proof (parser_reading ts allow collect count s Hs He Ht Hl) as Hp.
  set (p := Parser_new ts allow collect count s) in *. unfold wpx. rewrite Parser_parse_split by done.
  rewrite read_document_split.
  enough (wpx (prefixes_loop fuel;; parse_body)
    (fun r p' => (exists doc, fst ((names ← read_prefixes fuel initial_prefixes; read_body names allow) ts) = Ok doc /\
                  document_related count r doc) /\ continues s (session p'))
    (fun e _ => explained (names ← read_prefixes fuel initial_prefixes; read_body names allow) ts e) p) as H by exact H.
  xstep. eapply wpx_mono; [apply (prefixes_loop_declares fuel _ _ _ p Hp), (rest_fuel _ _ _ _ _ Hp)|..].
  - intros _ p1 (names & Hp1 & Hf1 & Hn). change (rest p) with ts in Hn.
    eapply wpx_mono; [apply (parse_body_agrees names _ p1 Hp1)|..]; rewrite (f_swrl _ _ Hf1).
    + intros r p2 [(doc & ts' & Hd & Hr) [Hok Hlim]]. split; [|split; [done|by rewrite Hlim, (f_limits _ _ Hf1)]]. change (swrl_allowed p) with allow in Hd. exists doc. split; [unfold mbind, M_bind; by rewrite Hn, Hd|].
      by rewrite (f_codepoints _ _ Hf1) in Hr.
    + intros e p2 Hx. by eapply explained_after.
  - intros e p1 Hx. by apply explained_bind.
Qed.
End Whole.
