(* ===== verification/Lexemes.v ===== *)
(** * The tokens of a functional-syntax source

    A reference lexer for [Tokenizer]: [next_lexeme] reads one token off the front of
    a text, and [source_tokens] lists the tokens of a text with their byte
    ranges and positions.  It walks down the text; there are no offsets to keep,
    no sessions and no limits.  Blanks and comments separate tokens. *)

From S2P Require Import Prelude Bytes Error Machine Lexical Scan Tokenizer Functional Utf8.

(** ** One token *)

Definition is_break (b : Z) : bool := (b =? 13) || (b =? 10).
Definition is_blank (b : Z) : bool := (b =? 32) || (b =? 9) || is_break b.

(** The longest prefix of bytes that pass a test, and the rest. *)
Fixpoint span_while (test : Z -> bool) (l : bytes) : bytes * bytes :=
  match l with
  | b :: r => if test b then let '(x, y) := span_while test r in (b :: x, y) else ([], l)
  | [] => ([], [])
  end.

(** A value continued, and the rest. *)
Definition prepend (b : Z) (o : option (bytes * bytes)) : option (bytes * bytes) :=
  match o with Some (v, r) => Some (b :: v, r) | None => None end.

(** After [<]: up to a [>] that no backslash escapes, on one line. *)
Fixpoint iri_lexeme (escaped : bool) (l : bytes) : option (bytes * bytes) :=
  match l with
  | [] => None
  | b :: r =>
      if (b =? 62) && negb escaped then Some ([], r)
      else if is_break b then None
      else prepend b (iri_lexeme ((b =? 92) && negb escaped) r)
  end.

(** After a quote: up to the next quote; [\] may stand before a quote or a backslash only. *)
Fixpoint string_lexeme (l : bytes) : option (bytes * bytes) :=
  match l with
  | [] => None
  | b :: r =>
      if b =? 34 then Some ([], r)
      else if b =? 92 then
        match r with
        | c :: r => if (c =? 34) || (c =? 92) then prepend c (string_lexeme r) else None
        | [] => None
        end
      else prepend b (string_lexeme r)
  end.

(** Further subtags, each after a hyphen. *)
Fixpoint subtags (n : nat) (l : bytes) : bytes * bytes :=
  match n, l with
  | S n, b :: r =>
      if b =? 45 then
        match span_while is_ascii_alphanumeric r with
        | ([], _) => ([], l)
        | (v, r) => let '(w, r) := subtags n r in (b :: v ++ w, r)
        end
      else ([], l)
  | _, _ => ([], l)
  end.

(** After [@]: subtags of letters and digits. *)
Definition language_lexeme (l : bytes) : option (bytes * bytes) :=
  match span_while is_ascii_alphanumeric l with
  | ([], _) => None
  | (v, r) => let '(w, r) := subtags (length r) r in Some (v ++ w, r)
  end.

(** Everything up to a delimiter. *)
Definition word_lexeme (l : bytes) : option (bytes * bytes) :=
  match span_while (fun b => negb (is_delimiter b)) l with
  | ([], _) => None
  | (v, r) => Some (v, r)
  end.

Definition of_kind (k : Kind) (o : option (bytes * bytes)) : option (Kind * bytes * bytes) :=
  match o with Some (v, r) => Some (k, v, r) | None => None end.

(** The kind and the value of the first token, and the text after it. *)
Definition next_lexeme (l : bytes) : option (Kind * bytes * bytes) :=
  match l with
  | [] => None
  | b :: r =>
      if b =? 40 then Some (KOpen, [40], r)
      else if b =? 41 then Some (KClose, [41], r)
      else if b =? 61 then Some (KEqual, [61], r)
      else if (b =? 94) && bool_decide (head r = Some 94) then Some (KHat, [94; 94], tail r)
      else if b =? 60 then of_kind KIri (iri_lexeme false r)
      else if b =? 34 then of_kind KString (string_lexeme r)
      else if b =? 64 then of_kind KLanguage (language_lexeme r)
      else match word_lexeme l with
           | Some (v, r) => Some (if forallb is_ascii_digit v then KInteger else KWord, v, r)
           | None => None
           end
  end.

(** ** Positions

    Lines end with CR LF, CR or LF; a column is a character. *)

Definition new_line (p : Position) : Position := {| line := line p + 1; column := 1 |}.
Definition new_column (p : Position) : Position := {| line := line p; column := column p + 1 |}.

(** The position after a byte; the flag tells that the byte before was CR. *)
Definition next_state (st : Position * bool) (b : Z) : Position * bool :=
  if b =? 13 then (new_line (fst st), true)
  else if b =? 10 then (if snd st then fst st else new_line (fst st), false)
  else (if cont b then fst st else new_column (fst st), false).

Definition position_state (pre : bytes) : Position * bool :=
  foldl next_state ({| line := 1; column := 1 |}, false) pre.
Definition position_after (pre : bytes) : Position := fst (position_state pre).

(** ** All tokens *)

(** The token for the end of the source. *)
Definition end_token (pre : bytes) (p : Position) : Token :=
  {| kind := KEof; token_value := []; byte_start := len pre; byte_end := len pre;
     token_line := line p; token_column := column p |}.

(** The tokens of [l], when [pre] is the text before it.  In a comment that ends
    the source the columns are bytes. *)
Fixpoint tokens_from (n : nat) (pre l : bytes) : option (list Token) :=
  match l with
  | [] => Some [end_token pre (position_after pre)]
  | b :: r =>
      match n with
      | O => None
      | S n =>
          if is_blank b then tokens_from n (pre ++ [b]) r
          else if b =? 35 then
            let '(comment, r) := span_while (fun b => negb (is_break b)) l in
            match r with
            | [] => Some [end_token (pre ++ comment)
                           {| line := line (position_after pre);
                              column := column (position_after pre) + len comment |}]
            | _ => tokens_from n (pre ++ comment) r
            end
          else
            match next_lexeme l with
            | Some (k, v, r) =>
                let spelling := take (length l - length r) l in
                cons {| kind := k; token_value := v; byte_start := len pre;
                        byte_end := len pre + len spelling;
                        token_line := line (position_after pre);
                        token_column := column (position_after pre) |}
                  <$> tokens_from n (pre ++ spelling) r
            | None => None
            end
      end
  end.

Definition source_tokens (text : bytes) : option (list Token) := tokens_from (length text) [] text.

(** ** Facts *)

Lemma span_while_app test l : fst (span_while test l) ++ snd (span_while test l) = l.
Proof.
  induction l as [|b l IH]; cbn [span_while]; [done|]. destruct (test b); [|done].
  destruct (span_while test l) as [x y]. cbn in *. by rewrite IH.
Qed.

Lemma span_while_all test l : Forall (fun b => test b = true) (fst (span_while test l)).
Proof.
  induction l as [|b l IH]; cbn [span_while]; [constructor|]. destruct (test b) eqn:E; [|constructor].
  destruct (span_while test l) as [x y]. by constructor.
Qed.

Lemma span_while_stop test l : match snd (span_while test l) with b :: _ => test b = false | [] => True end.
Proof.
  induction l as [|b l IH]; cbn [span_while]; [done|]. destruct (test b) eqn:E; [|done].
  by destruct (span_while test l) as [x y].
Qed.

(** What a token takes off the front of a text. *)
Record lexed_off (l r x : bytes) : Prop := {
  off_split : l = x ++ r;
  off_nonempty : x <> [];
  off_last : last x <> Some 13;
  off_utf8 : is_utf8 l = true -> is_utf8 x = true /\ is_utf8 r = true
}.

Lemma utf8_before x b r : in_range 0 0x7f b = true -> is_utf8 (x ++ b :: r) = true -> is_utf8 x = true /\ is_utf8 r = true.
Proof.
  intros Hb H. apply is_utf8_split in H as [Hx Hr]; [|by apply (utf8_starts [b]), (is_utf8_cons_ascii b [])].
  split; [done|]. by rewrite is_utf8_cons_ascii in Hr.
Qed.

(** A token that ends with an ASCII byte. *)
Lemma lexed_off_byte l r x b :
  l = x ++ b :: r -> in_range 0 0x7f b = true -> b <> 13 -> lexed_off l r (x ++ [b]).
Proof.
  intros -> Hb Hne. constructor.
  - by rewrite <- app_assoc.
  - by destruct x.
  - rewrite last_snoc. congruence.
  - intros H. destruct (utf8_before _ _ _ Hb H) as [Hx Hr]. split; [|done].
    apply is_utf8_app; [done|]. by rewrite is_utf8_cons_ascii.
Qed.

Lemma iri_lexeme_split escaped l v r : iri_lexeme escaped l = Some (v, r) -> l = v ++ 62 :: r.
Proof.
  revert escaped v. induction l as [|b l IH]; intros escaped v; cbn [iri_lexeme]; [done|].
  destruct ((b =? 62) && negb escaped) eqn:E.
  { intros [= <- <-]. apply andb_true_iff in E as [->%Z.eqb_eq _]. done. }
  destruct (is_break b); [done|]. unfold prepend.
  destruct (iri_lexeme _ l) as [[w s]|] eqn:El; [|done]. intros [= <- <-]. cbn. f_equal. by eapply IH.
Qed.

Lemma string_lexeme_split l v r :
  string_lexeme l = Some (v, r) -> exists w, l = w ++ 34 :: r /\ (length v <= length w)%nat.
Proof.
  remember (length l) as n eqn:Hn. assert (length l <= n)%nat as Hl by lia. clear Hn. revert l Hl v.
  induction n as [|n IH]; intros [|b l] Hl v; cbn [string_lexeme]; cbn in Hl; try done; [lia|].
  destruct (Z.eqb_spec b 34) as [->|]; [intros [= <- <-]; by exists []|].
  destruct (b =? 92).
  - destruct l as [|c l]; [done|]. cbn in Hl. destruct ((c =? 34) || (c =? 92)); [|done]. unfold prepend.
    destruct (string_lexeme l) as [[w s]|] eqn:El; [|done]. intros [= <- <-].
    destruct (IH l ltac:(lia) w El) as (x & -> & Hx). exists (b :: c :: x). cbn. split; [done|lia].
  - unfold prepend. destruct (string_lexeme l) as [[w s]|] eqn:El; [|done]. intros [= <- <-].
    destruct (IH l ltac:(lia) w El) as (x & -> & Hx). exists (b :: x). cbn. split; [done|lia].
Qed.

(** Bytes of longer characters are neither quotes nor backslashes. *)
Lemma string_lexeme_plain s l :
  Forall (fun b => b <> 34 /\ b <> 92) s ->
  string_lexeme (s ++ l) = match string_lexeme l with Some (v, r) => Some (s ++ v, r) | None => None end.
Proof.
  induction 1 as [|b s [H1 H2] _ IH]; cbn [app string_lexeme]; [by destruct (string_lexeme l) as [[]|]|].
  rewrite (proj2 (Z.eqb_neq b 34)), (proj2 (Z.eqb_neq b 92)) by done. rewrite IH.
  by destruct (string_lexeme l) as [[]|].
Qed.

Lemma utf8_char_high a t c : utf8_char (a :: t) c -> in_range 0 0x7f a = false -> Forall (fun b => b <> 34 /\ b <> 92) (a :: t).
Proof.
  intros Hs Ha. destruct (char_shape _ _ Hs) as (a' & t' & E & _ & Ht). injection E as <- <-. constructor.
  - split; intros ->; done.
  - eapply Forall_impl; [exact Ht|]. cbn. intros b Hb. split; intros ->; done.
Qed.

Lemma string_lexeme_utf8 l v r : is_utf8 l = true -> string_lexeme l = Some (v, r) -> is_utf8 v = true.
Proof.
  remember (length l) as n eqn:Hn. assert (length l <= n)%nat as Hl by lia. clear Hn. revert l Hl v.
  induction n as [|n IH]; intros [|b l] Hl v Hu; cbn in Hl; try done; [lia|].
  destruct (in_range 0 0x7f b) eqn:Hb.
  - rewrite is_utf8_cons_ascii in Hu by done. cbn [string_lexeme]. destruct (b =? 34); [by intros [= <- <-]|].
    destruct (b =? 92).
    + destruct l as [|c l]; [done|]. cbn in Hl.
      destruct ((c =? 34) || (c =? 92)) eqn:Ec; [|done].
      assert (in_range 0 0x7f c = true) as Hc.
      { apply orb_true_iff in Ec as [->%Z.eqb_eq| ->%Z.eqb_eq]; done. }
      rewrite is_utf8_cons_ascii in Hu by done. unfold prepend.
      destruct (string_lexeme l) as [[w s]|] eqn:El; [|done]. intros [= <- <-].
      rewrite is_utf8_cons_ascii by done. by apply (IH l ltac:(lia)).
    + unfold prepend. destruct (string_lexeme l) as [[w s]|] eqn:El; [|done]. intros [= <- <-].
      rewrite is_utf8_cons_ascii by done. by apply (IH l ltac:(lia)).
  - apply is_utf8_chars in Hu as [[|c cs] Hc]; [by apply utf8_nil in Hc|].
    pose proof (utf8_uncons _ _ _ Hc) as (s & y & Es & Hs & Hy).
    destruct (char_shape _ _ Hs) as (a & t & -> & _ & _). injection Es as <- ->.
    change (b :: t ++ y) with ((b :: t) ++ y). rewrite string_lexeme_plain by by eapply utf8_char_high.
    destruct (string_lexeme y) as [[w s]|] eqn:El; [|done]. intros [= <- <-]. rewrite length_app in Hl.
    apply (is_utf8_app (b :: t) w); [|apply (IH y ltac:(lia)); [apply is_utf8_chars; eauto|done]].
    apply is_utf8_chars. exists [c]. pose proof (char_reads _ _ Hs []) as H. by rewrite app_nil_r in H.
Qed.

Lemma ascii_alphanumeric b : is_ascii_alphanumeric b = true -> in_range 0 0x7f b = true /\ b <> 13.
Proof.
  unfold is_ascii_alphanumeric, is_ascii_alphabetic, is_ascii_uppercase, is_ascii_lowercase, is_ascii_digit. rewrite !orb_true_iff.
  intros H. assert (48 <= b <= 122) as Hb by (destruct H as [[H|H]|H] || destruct H as [H|[H|H]]; decide_range; lia).
  split; [apply in_range_true; lia|lia].
Qed.

(** Letters, digits and hyphens. *)
Definition tag_byte (b : Z) : Prop := is_ascii_alphanumeric b = true \/ b = 45.

Lemma tag_bytes_ascii v : Forall tag_byte v -> Forall (fun b => in_range 0 0x7f b = true) v.
Proof. intros Hv. eapply Forall_impl; [exact Hv|]. intros b [H%ascii_alphanumeric| ->]; [apply H|done]. Qed.

Lemma subtags_split n l : let '(w, r) := subtags n l in l = w ++ r /\ Forall tag_byte w.
Proof.
  revert l. induction n as [|n IH]; intros l; [done|]. cbn [subtags]. destruct l as [|b l]; [done|].
  destruct (Z.eqb_spec b 45) as [->|Hb]; [|done].
  pose proof (span_while_app is_ascii_alphanumeric l) as H. pose proof (span_while_all is_ascii_alphanumeric l) as Hall.
  destruct (span_while is_ascii_alphanumeric l) as [[|c v] r]; [done|]. cbn [fst snd] in *.
  specialize (IH r). destruct (subtags n r) as [w s]. destruct IH as [-> Hw]. split.
  - rewrite <- H. cbn. by rewrite <- app_assoc.
  - constructor; [by right|]. apply Forall_app. split; [|done]. eapply Forall_impl; [exact Hall|]. by left.
Qed.

Lemma language_lexeme_split l v r : language_lexeme l = Some (v, r) -> l = v ++ r /\ Forall tag_byte v /\ v <> [].
Proof.
  unfold language_lexeme. pose proof (span_while_app is_ascii_alphanumeric l) as H.
  pose proof (span_while_all is_ascii_alphanumeric l) as Hall.
  destruct (span_while is_ascii_alphanumeric l) as [[|c x] s]; [done|]. cbn [fst snd] in *.
  pose proof (subtags_split (length s) s) as Hs. destruct (subtags (length s) s) as [w q]. destruct Hs as [-> Hw].
  intros [= <- <-]. split_and!; [rewrite <- H; cbn; by rewrite <- app_assoc| |done].
  change (c :: x ++ w) with ((c :: x) ++ w). apply Forall_app. split; [|done].
  eapply Forall_impl; [exact Hall|]. by left.
Qed.

Lemma last_Forall {A} (P : A -> Prop) l x : Forall P l -> last l = Some x -> P x.
Proof. intros H Hx. rewrite Forall_forall in H. apply H. by apply last_Some_elem_of. Qed.

Lemma delimiter_ascii b : is_delimiter b = true -> in_range 0 0x7f b = true.
Proof.
  unfold is_delimiter. cbn [existsb]. rewrite !orb_true_iff, !Z.eqb_eq. intros H. apply in_range_true.
  repeat destruct H as [H|H]; subst; try lia; done.
Qed.

Lemma word_lexeme_split l v r :
  word_lexeme l = Some (v, r) -> l = v ++ r /\ v <> [] /\ Forall (fun b => is_delimiter b = false) v /\ starts_char r.
Proof.
  unfold word_lexeme. pose proof (span_while_app (fun b => negb (is_delimiter b)) l) as H.
  pose proof (span_while_all (fun b => negb (is_delimiter b)) l) as Hall.
  pose proof (span_while_stop (fun b => negb (is_delimiter b)) l) as Hstop.
  destruct (span_while _ l) as [[|c x] s]; [done|]. cbn [fst snd] in *.
  intros [= <- <-]. split_and!; [done|done|eapply Forall_impl; [exact Hall|]; intros b Hb; by apply negb_true_iff in Hb|].
  destruct s as [|b s]; [done|]. cbn [starts_char]. apply negb_false_iff, delimiter_ascii in Hstop.
  by apply (utf8_starts [b]), (is_utf8_cons_ascii b []).
Qed.

(** What a next_lexeme is made of. *)
Lemma lexeme_spec l k v r :
  next_lexeme l = Some (k, v, r) ->
  exists x, lexed_off l r x /\ (length v <= length x)%nat /\ k <> KEof /\
    (is_utf8 l = true -> is_utf8 v = true) /\
    (k = KInteger -> v <> [] /\ forallb is_ascii_digit v = true).
Proof.
  destruct l as [|b l]; [done|]. cbn [next_lexeme].
  assert (forall c, in_range 0 0x7f c = true -> c <> 13 -> lexed_off (c :: l) l [c]) as Hone.
  { intros c Hc Hne. by apply (lexed_off_byte (c :: l) l []). }
  destruct (Z.eqb_spec b 40) as [->|_]; [intros [= <- <- <-]; exists [40]; by split_and!; [apply Hone|..]|].
  destruct (Z.eqb_spec b 41) as [->|_]; [intros [= <- <- <-]; exists [41]; by split_and!; [apply Hone|..]|].
  destruct (Z.eqb_spec b 61) as [->|_]; [intros [= <- <- <-]; exists [61]; by split_and!; [apply Hone|..]|].
  destruct ((b =? 94) && bool_decide (head l = Some 94)) eqn:E.
  { apply andb_true_iff in E as [->%Z.eqb_eq Hh%bool_decide_eq_true]. destruct l as [|c l]; [done|]. injection Hh as ->.
    intros [= <- <- <-]. exists [94; 94]. split_and!; try done. by apply (lexed_off_byte _ _ [94]). }
  destruct (Z.eqb_spec b 60) as [->|_].
  { destruct (iri_lexeme false l) as [[w s]|] eqn:El; [|done]. intros [= <- <- <-]. apply iri_lexeme_split in El as ->.
    exists ((60 :: w) ++ [62]). split_and!; try done; [by apply lexed_off_byte|rewrite length_app; cbn; lia|].
    rewrite is_utf8_cons_ascii by done. intros Hu. by apply utf8_before in Hu as [? _]. }
  destruct (Z.eqb_spec b 34) as [->|_].
  { destruct (string_lexeme l) as [[w s]|] eqn:El; [|done]. intros [= <- <- <-].
    pose proof (string_lexeme_split _ _ _ El) as (x & -> & Hx).
    exists ((34 :: x) ++ [34]). split_and!; try done; [by apply lexed_off_byte|rewrite length_app; cbn; lia|].
    rewrite is_utf8_cons_ascii by done. intros Hu. by eapply string_lexeme_utf8. }
  destruct (Z.eqb_spec b 64) as [->|_].
  { destruct (language_lexeme l) as [[w s]|] eqn:El; [|done]. intros [= <- <- <-].
    apply language_lexeme_split in El as (-> & Hw & Hne). pose proof (tag_bytes_ascii _ Hw) as Ha.
    exists (64 :: w). split_and!; try done; [|cbn; lia|].
    - constructor; [done|done| |].
      + destruct w as [|c w]; [done|]. change (last (64 :: c :: w)) with (last (c :: w)). intros Hl.
        apply (last_Forall _ _ _ Hw) in Hl as [Hl|Hl]; [|done]. by apply ascii_alphanumeric in Hl as [_ ?].
      + rewrite is_utf8_cons_ascii by done. rewrite ascii_utf8 by done. intros Hs. split; [|done].
        rewrite <- (app_nil_r (64 :: w)). apply (ascii_utf8 (64 :: w)). by constructor.
    - intros _. rewrite <- (app_nil_r w). by rewrite ascii_utf8. }
  destruct (word_lexeme (b :: l)) as [[w s]|] eqn:El; [|done]. intros [= <- <- <-].
  apply word_lexeme_split in El as (-> & Hne & Hw & Hs). exists w. split_and!; try done.
  - constructor; try done.
    + intros Hl. by apply (last_Forall _ _ _ Hw) in Hl.
    + intros Hu. by apply is_utf8_split in Hu.
  - by destruct (forallb is_ascii_digit w).
  - intros Hu. by apply is_utf8_split in Hu as [? _].
  - destruct (forallb is_ascii_digit w) eqn:Ed; [|done]. done.
Qed.

(** ** Fuel and positions *)

Lemma lexed_off_shorter l r x : lexed_off l r x -> (length r < length l)%nat.
Proof. intros [-> Hx _ _]. rewrite length_app. destruct x; [done|cbn; lia]. Qed.

Lemma comment_shorter (r : bytes) :
  (length (snd (span_while (fun b => negb (is_break b)) (35%Z :: r))) <= length r)%nat.
Proof.
  cbn [span_while]. change (negb (is_break 35)) with true. cbv iota.
  pose proof (span_while_app (fun b => negb (is_break b)) r) as H.
  destruct (span_while _ r) as [x y]. cbn [fst snd] in *. rewrite <- H, length_app. lia.
Qed.

Lemma tokens_from_fuel n : forall m pre l, (length l <= n)%nat -> (length l <= m)%nat ->
  tokens_from n pre l = tokens_from m pre l.
Proof.
  induction n as [|n IH]; intros m pre [|b r] Hn Hm; try (by destruct m); [cbn in Hn; lia|].
  destruct m as [|m]; [cbn in Hm; lia|]. cbn [length] in *. cbn [tokens_from].
  destruct (is_blank b); [apply IH; lia|]. destruct (Z.eqb_spec b 35) as [->|].
  - pose proof (comment_shorter r) as H. destruct (span_while _ (35 :: r)) as [c [|b s]]; [done|]. cbn [snd] in H. apply IH; lia.
  - destruct (next_lexeme (b :: r)) as [[[k v] s]|] eqn:E; [|done].
    apply lexeme_spec in E as (x & Hx & _). apply lexed_off_shorter in Hx. cbn [length] in Hx.
    cbv zeta. by rewrite (IH m) by lia.
Qed.

Lemma position_state_app x y : position_state (x ++ y) = foldl next_state (position_state x) y.
Proof. unfold position_state. by rewrite foldl_app. Qed.

(** Lines and columns are counted from one and are at most the bytes before. *)
Definition bounded (n : Z) (p : Position) : Prop := 1 <= line p <= n + 1 /\ 1 <= column p <= n + 1.

Lemma next_state_bounded n st b : 0 <= n -> bounded n (fst st) -> bounded (n + 1) (fst (next_state st b)).
Proof.
  unfold bounded, next_state. intros Hn [H1 H2]. repeat case_match; cbn; lia.
Qed.

Lemma fold_bounded s : forall n st, 0 <= n -> bounded n (fst st) -> bounded (n + len s) (fst (foldl next_state st s)).
Proof.
  induction s as [|b s IH]; intros n st Hn Hst; cbn [foldl length].
  - by rewrite Z.add_0_r.
  - replace (n + Z.of_nat (S (length s))) with (n + 1 + len s) by lia. apply IH; [lia|]. by apply next_state_bounded.
Qed.

Lemma position_bounded pre : bounded (len pre) (position_after pre).
Proof. apply (fold_bounded pre 0); [lia|]. cbn. unfold bounded. cbn. lia. Qed.

(** A byte that is not CR ends the effect of the CR before. *)
Lemma last_flag x : last x <> Some 13 -> x <> [] -> snd (position_state x) = false.
Proof.
  destruct x as [|b x _] using rev_ind; [done|]. rewrite last_snoc, position_state_app. cbn [foldl]. intros Hb _.
  unfold next_state. destruct (Z.eqb_spec b 13) as [->|]; [done|]. by destruct (b =? 10).
Qed.

(** The flag only matters before LF. *)
Lemma flag_before b s p f f' : b <> 10 -> foldl next_state (p, f) (b :: s) = foldl next_state (p, f') (b :: s).
Proof.
  intros Hb. cbn [foldl]. f_equal. unfold next_state. by rewrite (proj2 (Z.eqb_neq b 10)).
Qed.
