(* ===== verification/TokenizerTheorems.v ===== *)
(** * The tokenizer computes the tokens of the reference lexer

    [lexes text s m o]: the lexer [m] never panics; it returns what the
    reference [o] says, or fails because the reference is undefined or for want
    of resources. *)

From S2P Require Import Prelude Bytes Error Machine Atomic Limits Cancel Session Lexical Scan Encode Tokenizer Functional Utf8 Grammar Denotes Refines Lexemes.

(** No slice is longer. *)
Definition ISIZE_MAX : Z := 0x7fffffffffffffff.

(** ** Steps *)

Lemma wpx_step (Q : unit -> Session -> Prop) (E : NativeError -> Session -> Prop) s :
  session_ok s -> (forall s', continues s s' -> Q tt s') -> (forall e s', operational e -> E e s') ->
  wpx (step_work 1) Q E s.
Proof.
  intros Hs HQ HE. eapply wpx_mono.
  - apply (wpx_operational (step_work 1) (fun _ s' => continues s s')); [by apply wp_step_work|apply fails_step_work].
  - intros [] s'. apply HQ.
  - intros e s'. apply HE.
Qed.

(** An error of a lexer: operational, or a syntax error where the reference is
    undefined. *)
Definition lexing_error {A} (o : option A) (e : NativeError) : Prop :=
  operational e \/ (o = None /\ code e = code syntax).

Lemma lexing_operational {A} (o : option A) e : operational e -> lexing_error o e.
Proof. by left. Qed.

Lemma lexing_error_map {A B} (o : option A) (o' : option B) e :
  lexing_error o e -> (o = None -> o' = None) -> lexing_error o' e.
Proof. intros [H|[H1 H2]] Ho; [by left|right]. auto. Qed.

(** The byte at a place of a text. *)
Lemma get_at_mid (x : bytes) b y : get_at (x ++ b :: y) (len x) = Some b.
Proof. apply get_at_Some. split; [lia|]. rewrite Nat2Z.id. by apply list_lookup_middle. Qed.
Lemma get_at_end (x : bytes) : get_at x (len x) = None.
Proof. unfold get_at. by rewrite (proj2 (Z.ltb_ge _ _)), andb_false_r by lia. Qed.
Lemma byte_is_mid test (x : bytes) b y : byte_is test (x ++ b :: y) (len x) = test b.
Proof. unfold byte_is. by rewrite get_at_mid. Qed.
Lemma byte_is_end test (x : bytes) : byte_is test x (len x) = false.
Proof. unfold byte_is. by rewrite get_at_end. Qed.
Lemma len_snoc (x : bytes) b : len (x ++ [b]) = len x + 1.
Proof. rewrite length_app. cbn [length]. lia. Qed.
Lemma mid_ltb (x : bytes) b y : (len x <? len (x ++ b :: y)) = true.
Proof. apply Z.ltb_lt. rewrite length_app. cbn [length]. lia. Qed.
Lemma snoc_app (x : bytes) b y : x ++ b :: y = (x ++ [b]) ++ y.
Proof. by rewrite <- app_assoc. Qed.

(** ** The lexers *)

Lemma lex_iri_loop_lexes pre : forall n l v escaped s,
  session_ok s -> is_utf8 (v ++ l) = true -> (length l <= n)%nat ->
  wpx (lex_iri_loop n (pre ++ 60 :: v ++ l) (len pre) (len pre + 1 + len v) escaped)
    (fun x s' => continues s s' /\ exists w r, iri_lexeme escaped l = Some (w, r) /\
                 x = (KIri, v ++ w, len (pre ++ 60 :: v ++ l) - len r))
    (fun e _ => lexing_error (iri_lexeme escaped l) e) s.
Proof.
  induction n as [|n IH]; intros [|b l] v escaped s Hs Hu Hn; try (cbn in Hn; lia).
  1,2: cbn [lex_iri_loop]; rewrite (proj2 (Z.ltb_ge _ _)) by (rewrite length_app; cbn [length]; rewrite app_nil_r; lia); xstep; by right.
  cbn [lex_iri_loop iri_lexeme].
  assert (pre ++ 60 :: v ++ b :: l = (pre ++ 60 :: v) ++ b :: l) as Et by (by rewrite <- app_assoc).
  assert (len pre + 1 + len v = len (pre ++ 60 :: v)) as El by (rewrite length_app; cbn [length]; lia).
  rewrite Et, El, mid_ltb. xstep. apply wpx_step; [done| |by left]. intros s1 Hs1. xstep. apply wpx_lift.
  unfold index_at. rewrite get_at_mid. cbn [or_panic].
  destruct ((b =? 62) && negb escaped) eqn:E.
  { apply andb_true_iff in E as [->%Z.eqb_eq _]. xstep. apply wpx_lift.
    assert (str_get ((pre ++ 60 :: v) ++ 62 :: l) (len pre + 1) (len (pre ++ 60 :: v)) = Some v) as ->.
    { rewrite <- Et. replace (pre ++ 60 :: v ++ 62 :: l) with ((pre ++ [60]) ++ v ++ 62 :: l) by (by rewrite <- app_assoc).
      rewrite <- El, <- (len_snoc pre 60). apply str_get_mid; [by apply utf8_starts|].
      by apply (utf8_starts [62]). }
    cbn [ok_or]. xstep. split; [done|]. exists [], l. rewrite app_nil_r. split; [done|]. f_equal.
    rewrite !length_app. cbn [length]. lia. }
  fold (is_break b). destruct (is_break b); [xstep; by right|]. cbv zeta.
  assert ((if negb (b =? 92) then false else (b =? 92) && negb escaped) = (b =? 92) && negb escaped) as -> by by destruct (b =? 92).
  rewrite <- El, <- Et.
  assert (pre ++ 60 :: v ++ b :: l = pre ++ 60 :: (v ++ [b]) ++ l) as Et' by (by rewrite <- app_assoc).
  rewrite Et'. replace (len pre + 1 + len v + 1) with (len pre + 1 + len (v ++ [b])) by (rewrite len_snoc; lia).
  eapply wpx_mono; [apply (IH l (v ++ [b])); [apply Hs1|by rewrite <- app_assoc|cbn in Hn; lia]|..].
  - intros x s2 (Hs2 & w & r & Hw & ->). split; [by eapply continues_trans|]. exists (b :: w), r. rewrite Hw.
    split; [done|]. by rewrite <- (app_assoc v).
  - intros e s2 He. eapply lexing_error_map; [exact He|]. by intros ->.
Qed.

Lemma lex_string_loop_lexes : forall n x l v s,
  session_ok s -> (forall w r, string_lexeme l = Some (w, r) -> is_utf8 (v ++ w) = true) -> (length l <= n)%nat ->
  wpx (lex_string_loop n (x ++ l) (len x) v)
    (fun a s' => continues s s' /\ exists w r, string_lexeme l = Some (w, r) /\
                 a = (KString, v ++ w, len (x ++ l) - len r))
    (fun e _ => lexing_error (string_lexeme l) e) s.
Proof.
  induction n as [|n IH]; intros x [|b l] v s Hs Hu Hn; try (cbn in Hn; lia).
  1,2: cbn [lex_string_loop]; rewrite app_nil_r, Z.ltb_irrefl; xstep; by right.
  cbn [lex_string_loop string_lexeme] in *. rewrite mid_ltb. xstep. apply wpx_step; [done| |by left]. intros s1 Hs1.
  xstep. apply wpx_lift. unfold index_at. rewrite get_at_mid. cbn [or_panic].
  destruct (b =? 34) eqn:E34.
  { xstep. apply wpx_lift.
    pose proof (Hu [] l eq_refl) as Hv. rewrite app_nil_r in Hv. rewrite Hv. cbn [ok_or].
    xstep. eapply wpx_mono.
    - apply (wpx_operational _ (fun _ s' => continues s1 s')); [|apply fails_enforce].
      apply wp_enforce, continues_refl, Hs1.
    - intros [] s2 Hs2. xstep. split; [by eapply continues_trans|]. exists [], l. rewrite app_nil_r. split; [done|].
      f_equal. rewrite length_app. cbn [length]. lia.
    - by left. }
  destruct (b =? 92).
  - xstep. apply wpx_lift. destruct l as [|c l].
    { assert (get_at (x ++ [b]) (len x + 1) = None) as -> by (rewrite <- (len_snoc x b); apply get_at_end). by right. }
    assert (get_at (x ++ b :: c :: l) (len x + 1) = Some c) as ->.
    { rewrite (snoc_app x), <- (len_snoc x b). apply get_at_mid. }
    cbn [ok_or]. xstep. apply wpx_ensure_not; intros Ec.
    { apply negb_true_iff in Ec. rewrite Ec. by right. }
    apply negb_false_iff in Ec. rewrite Ec in *.
    replace (x ++ b :: c :: l) with ((x ++ [b; c]) ++ l) by (by rewrite <- app_assoc).
    replace (len x + 2) with (len (x ++ [b; c])) by (rewrite length_app; cbn [length]; lia).
    eapply wpx_mono; [apply (IH (x ++ [b; c]) l (v ++ [c]) s1)|..].
    + apply Hs1.
    + intros w r Hw. rewrite <- app_assoc. apply (Hu (c :: w) r). by rewrite Hw.
    + cbn [length] in Hn. lia.
    + intros a s2 (Hs2 & w & r & Hw & ->). split; [by eapply continues_trans|]. exists (c :: w), r. rewrite Hw.
      split; [done|]. by rewrite <- (app_assoc v).
    + intros e s2 He. eapply lexing_error_map; [exact He|]. by intros ->.
  - rewrite (snoc_app x), <- (len_snoc x b).
    eapply wpx_mono; [apply (IH (x ++ [b]) l (v ++ [b]) s1)|..].
    + apply Hs1.
    + intros w r Hw. rewrite <- app_assoc. apply (Hu (b :: w) r). by rewrite Hw.
    + cbn [length] in Hn. lia.
    + intros a s2 (Hs2 & w & r & Hw & ->). split; [by eapply continues_trans|]. exists (b :: w), r. rewrite Hw.
      split; [done|]. by rewrite <- (app_assoc v).
    + intros e s2 He. eapply lexing_error_map; [exact He|]. by intros ->.
Qed.

(** [while bytes.get(end).is_some_and(test)] *)
Lemma skip_bytes_lexes test x l s (Q : Z -> Session -> Prop) E :
  session_ok s -> (forall e s', operational e -> E e s') ->
  (forall s', continues s s' -> Q (len x + len (fst (span_while test l))) s') ->
  wpx (skip_bytes test (x ++ l) (len x)) Q E s.
Proof.
  intros Hs HE. unfold skip_bytes.
  assert (length l <= length (x ++ l))%nat as Hn by (rewrite length_app; lia).
  revert Hn. generalize (length (x ++ l)) as n. intros n. revert x l s Hs Q.
  induction n as [|n IH]; intros x [|b l] s Hs Q Hn HQ; try (cbn in Hn; lia); cbn [while_loop span_while] in *.
  1,2: rewrite app_nil_r, byte_is_end; xstep; rewrite Z.add_0_r in HQ; by apply HQ, continues_refl.
  rewrite byte_is_mid. destruct (test b) eqn:Eb.
  - do 2 xstep. apply wpx_step; [done| |done]. intros s1 Hs1. xstep.
    rewrite (snoc_app x), <- (len_snoc x b). apply IH; [apply Hs1|cbn [length] in Hn; lia|]. intros s2 Hs2.
    assert (len (x ++ [b]) + len (fst (span_while test l)) =
            len x + len (fst (let '(y, z) := span_while test l in (b :: y, z)))) as ->.
    { rewrite len_snoc. destruct (span_while test l) as [y z]. cbn [fst length]. lia. }
    apply HQ. by eapply continues_trans.
  - xstep. cbn [fst length] in HQ. rewrite Z.add_0_r in HQ. by apply HQ, continues_refl.
Qed.

Lemma byte_is_next test (x : bytes) b l :
  byte_is test (x ++ b :: l) (len x + 1) = match l with c :: _ => test c | [] => false end.
Proof.
  rewrite (snoc_app x), <- (len_snoc x b). destruct l; [by rewrite app_nil_r, byte_is_end|apply byte_is_mid].
Qed.

(** The loop and the reference stop together. *)
Lemma subtags_loop_lexes n : forall x l s (Q : Z -> Session -> Prop) E m,
  session_ok s -> (length l <= n)%nat -> (length l <= m)%nat -> (forall e s', operational e -> E e s') ->
  (forall s', continues s s' -> Q (len x + len (fst (subtags m l))) s') ->
  wpx (subtags_loop n (x ++ l) (len x)) Q E s.
Proof.
  assert (forall n x l s (Q : Z -> Session -> Prop) E, (negb (byte_is (Z.eqb 45) (x ++ l) (len x)) ||
    negb (byte_is is_ascii_alphanumeric (x ++ l) (len x + 1))) = true ->
    session_ok s -> (forall s', continues s s' -> Q (len x) s') ->
    wpx (subtags_loop n (x ++ l) (len x)) Q E s) as Hstop.
  { intros n' x l s Q E Hc Hs HQ. destruct n'; cbn [subtags_loop]; rewrite Hc; xstep; by apply HQ, continues_refl. }
  induction n as [|n IH]; intros x [|b l] s Q E m Hs Hn Hm HE HQ; try (cbn in Hn; lia).
  1,2: apply Hstop; [by rewrite app_nil_r, byte_is_end|done|]; intros s' Hs';
    replace (len x) with (len x + len (fst (subtags m []))) by (destruct m; cbn; lia); by apply HQ.
  destruct m as [|m]; [cbn in Hm; lia|]. cbn [length] in Hn, Hm. cbn [subtags] in HQ.
  destruct (Z.eqb_spec b 45) as [->|Hb].
  2: { apply Hstop; [|done|].
       - rewrite byte_is_mid. by rewrite (proj2 (Z.eqb_neq 45 b)) by congruence.
       - intros s' Hs'. cbn [fst length] in HQ. rewrite <- (Z.add_0_r (len x)). by apply HQ. }
  destruct (match l with c :: _ => is_ascii_alphanumeric c | [] => false end) eqn:Ec.
  2: { apply Hstop; [|done|].
       - rewrite byte_is_next, Ec. apply orb_true_r.
       - intros s' Hs'. assert (span_while is_ascii_alphanumeric l = ([], l)) as El.
         { destruct l as [|c l]; [done|]. cbn [span_while]. by rewrite Ec. }
         rewrite El in HQ. cbn [fst length] in HQ. rewrite <- (Z.add_0_r (len x)). by apply HQ. }
  cbn [subtags_loop]. rewrite byte_is_next, Ec, byte_is_mid. change (45 =? 45) with true. cbn [negb orb].
  rewrite (snoc_app x), <- (len_snoc x 45). xstep. apply skip_bytes_lexes; [done|done|]. intros s1 Hs1.
  pose proof (span_while_app is_ascii_alphanumeric l) as Hl.
  assert (fst (span_while is_ascii_alphanumeric l) <> []) as Hne.
  { destruct l as [|c l]; [done|]. cbn [span_while]. rewrite Ec. by destruct (span_while _ l). }
  destruct (span_while is_ascii_alphanumeric l) as [v r]. cbn [fst snd] in *.
  replace (len (x ++ [45]) + len v) with (len (x ++ 45 :: v)) by (rewrite !length_app; cbn [length]; lia).
  replace ((x ++ [45]) ++ l) with ((x ++ 45 :: v) ++ r) by (rewrite <- Hl, <- !app_assoc; done).
  apply (f_equal length) in Hl. rewrite length_app in Hl.
  apply (IH (x ++ 45 :: v) r s1 Q E m); [apply Hs1|lia|lia|done|]. intros s2 Hs2.
  destruct v as [|c v]; [done|].
  assert (len (x ++ 45 :: c :: v) + len (fst (subtags m r)) =
          len x + len (fst (let '(w, r0) := subtags m r in (45 :: (c :: v) ++ w, r0)))) as ->.
  { destruct (subtags m r) as [w q]. cbn [fst]. rewrite !length_app. cbn [length]. rewrite length_app. cbn [length]. lia. }
  apply HQ. by eapply continues_trans.
Qed.

Lemma lex_language_lexes x l s :
  session_ok s -> is_utf8 l = true ->
  wpx (lex_language (x ++ 64 :: l) (len x))
    (fun a s' => continues s s' /\ exists w r, language_lexeme l = Some (w, r) /\
                 a = (KLanguage, w, len (x ++ 64 :: l) - len r))
    (fun e _ => lexing_error (language_lexeme l) e) s.
Proof.
  intros Hs Hu. unfold lex_language. cbv zeta. rewrite byte_is_next. xstep.
  pose proof (language_lexeme_split l) as Hsplit. unfold language_lexeme in *.
  pose proof (span_while_app is_ascii_alphanumeric l) as Hl.
  apply wpx_ensure_not; intros Ec.
  { right. apply negb_true_iff in Ec. destruct l as [|c l]; [done|]. cbn [span_while]. by rewrite Ec. }
  apply negb_false_iff in Ec. rewrite (snoc_app x), <- (len_snoc x 64). xstep.
  apply skip_bytes_lexes; [done|by left|]. intros s1 Hs1.
  assert (fst (span_while is_ascii_alphanumeric l) <> []) as Hne.
  { destruct l as [|c l]; [done|]. cbn [span_while]. rewrite Ec. by destruct (span_while _ l). }
  destruct (span_while is_ascii_alphanumeric l) as [[|c v] r]; [done|]. cbn [fst snd] in *.
  replace (len (x ++ [64]) + len (c :: v)) with (len ((x ++ [64]) ++ c :: v)) by (rewrite !length_app; lia).
  replace ((x ++ [64]) ++ l) with (((x ++ [64]) ++ c :: v) ++ r) at 1 2 by (rewrite <- Hl, <- !app_assoc; done).
  xstep. apply (subtags_loop_lexes _ _ _ _ _ _ (length r)); [apply Hs1|rewrite !length_app; cbn [length]; lia|done|by left|].
  intros s2 Hs2. destruct (subtags (length r) r) as [w q]. destruct (Hsplit _ _ eq_refl) as (E & Htag & _). cbn [fst].
  pose proof (tag_bytes_ascii _ Htag) as Ha. clear Hl Ec Hsplit. subst l.
  replace (len ((x ++ [64]) ++ c :: v) + len w) with (len (x ++ [64]) + len ((c :: v) ++ w)) by (rewrite !length_app; lia).
  set (u := (c :: v) ++ w) in *. rewrite ascii_utf8 in Hu by done.
  xstep. apply wpx_lift. unfold str_index. rewrite <- app_assoc with (l := x ++ [64]) || idtac.
  rewrite str_get_mid; [|apply utf8_starts; by rewrite ascii_utf8|by apply utf8_starts].
  cbn [or_panic]. xstep. split; [by eapply continues_trans|].
  exists u, q. split; [done|]. f_equal. rewrite !length_app. cbn [length]. lia.
Qed.

Lemma lex_word_lexes x l s :
  session_ok s -> is_utf8 l = true ->
  wpx (lex_word (x ++ l) (len x))
    (fun a s' => continues s s' /\ exists w r, word_lexeme l = Some (w, r) /\
       a = (if forallb is_ascii_digit w then KInteger else KWord, w, len (x ++ l) - len r))
    (fun e _ => lexing_error (word_lexeme l) e) s.
Proof.
  intros Hs Hu. unfold lex_word. xstep. apply skip_bytes_lexes; [done|by left|]. intros s1 Hs1.
  pose proof (word_lexeme_split l) as Hsplit. unfold word_lexeme in *.
  destruct (span_while _ l) as [[|c v] r]; cbn [fst].
  { rewrite Z.add_0_r, Z.eqb_refl. xstep. apply wpx_ensure_not; [|done]. by right. }
  rewrite (proj2 (Z.eqb_neq _ _)) by (cbn [length]; lia). xstep. apply wpx_ensure_not; [done|]. intros _.
  destruct (Hsplit _ _ eq_refl) as (-> & _ & _ & Hst). xstep. apply wpx_lift.
  rewrite str_get_mid; [|by apply utf8_starts|done]. cbn [ok_or]. xstep. split; [done|].
  exists (c :: v), r. split; [done|]. f_equal. rewrite !length_app. cbn [length]. lia.
Qed.

Lemma lex_lexes x b l s :
  session_ok s -> is_utf8 (b :: l) = true ->
  wpx (lex (x ++ b :: l) (len x) b)
    (fun a s' => continues s s' /\ exists k v r, next_lexeme (b :: l) = Some (k, v, r) /\
                 a = (k, v, len (x ++ b :: l) - len r))
    (fun e _ => lexing_error (next_lexeme (b :: l)) e) s.
Proof.
  intros Hs Hu. unfold lex. cbn [next_lexeme].
  assert (forall k, wpx (mret (k, [b], len x + 1) : M Session lexeme)
    (fun a s' => continues s s' /\ exists k' v r, Some (k, [b], l) = Some (k', v, r) /\ a = (k', v, len (x ++ b :: l) - len r))
    (fun e _ => lexing_error (Some (k, [b], l)) e) s) as Hone.
  { intros k. xstep. split; [by apply continues_refl|]. exists k, [b], l. split; [done|]. f_equal.
    rewrite length_app. cbn [length]. lia. }
  destruct (Z.eqb_spec b 40) as [->|_]; [apply Hone|].
  destruct (Z.eqb_spec b 41) as [->|_]; [apply Hone|].
  destruct (Z.eqb_spec b 61) as [->|_]; [apply Hone|]. clear Hone.
  rewrite byte_is_next.
  assert (match l with c :: _ => 94 =? c | [] => false end = bool_decide (head l = Some 94)) as ->.
  { destruct l as [|c l]; [done|]. cbn [head]. destruct (Z.eqb_spec 94 c) as [<-|]; [done|].
    symmetry. apply bool_decide_eq_false_2. congruence. }
  destruct ((b =? 94) && bool_decide (head l = Some 94)) eqn:E.
  { apply andb_true_iff in E as [_ Hh%bool_decide_eq_true]. destruct l as [|c l]; [done|]. injection Hh as ->.
    xstep. split; [by apply continues_refl|]. exists KHat, [94; 94], l. split; [done|]. f_equal.
    rewrite length_app. cbn [length]. lia. }
  destruct (Z.eqb_spec b 60) as [->|_].
  { rewrite is_utf8_cons_ascii in Hu by done. unfold lex_iri.
    pose proof (lex_iri_loop_lexes x (length (x ++ 60 :: l)) l [] false s Hs Hu) as H.
    cbn [app length] in H. rewrite Z.add_0_r in H.
    eapply wpx_mono; [apply H; rewrite length_app; cbn [length]; lia|..].
    - intros a s' (Hs' & w & r & Hw & ->). split; [done|]. exists KIri, w, r. by rewrite Hw.
    - intros e s' He. eapply lexing_error_map; [exact He|]. by intros ->. }
  destruct (Z.eqb_spec b 34) as [->|_].
  { rewrite is_utf8_cons_ascii in Hu by done. unfold lex_string. rewrite (snoc_app x), <- (len_snoc x 34).
    eapply wpx_mono; [apply (lex_string_loop_lexes _ (x ++ [34]) l []); [done| |rewrite !length_app; cbn [length]; lia]|..].
    - intros w r. by apply string_lexeme_utf8.
    - intros a s' (Hs' & w & r & Hw & ->). split; [done|]. exists KString, w, r. by rewrite Hw.
    - intros e s' He. eapply lexing_error_map; [exact He|]. by intros ->. }
  destruct (Z.eqb_spec b 64) as [->|_].
  { rewrite is_utf8_cons_ascii in Hu by done.
    eapply wpx_mono; [by apply lex_language_lexes|..].
    - intros a s' (Hs' & w & r & Hw & ->). split; [done|]. exists KLanguage, w, r. by rewrite Hw.
    - intros e s' He. eapply lexing_error_map; [exact He|]. by intros ->. }
  eapply wpx_mono; [by apply lex_word_lexes|..].
  - intros a s' (Hs' & w & r & Hw & ->). split; [done|]. eexists _, w, r. by rewrite Hw.
  - intros e s' He. eapply lexing_error_map; [exact He|]. by intros ->.
Qed.

(** ** Positions *)

Lemma fold_cont t p : Forall (fun b => cont b = true) t -> foldl next_state (p, false) t = (p, false).
Proof.
  induction 1 as [|b t Hb _ IH]; [done|]. cbn [foldl]. unfold next_state at 2. rewrite Hb.
  rewrite (proj2 (Z.eqb_neq b 13)), (proj2 (Z.eqb_neq b 10)) by (intros ->; done). exact IH.
Qed.

(** The bytes of one character, as [advance_char] counts it. *)
Lemma fold_char x c p cr :
  utf8_char x c -> (c = 13 \/ c = 10 -> x = [c]) /\
  (c <> 13 -> c <> 10 -> foldl next_state (p, cr) x = (new_column p, false)).
Proof.
  intros Hx. destruct (char_shape _ _ Hx) as (a & t & -> & Ha & Ht).
  destruct (in_range 0 0x7f a) eqn:E.
  - pose proof (char_reads _ _ Hx []) as H. rewrite app_nil_r in H. cbn in H. rewrite E in H.
    destruct (utf8_chars t) as [[|d ds]|] eqn:Et; try done. injection H as ->. apply utf8_nil in Et as ->.
    split; [done|]. intros H13 H10. cbn [foldl]. unfold next_state. cbn [fst snd].
    by rewrite (proj2 (Z.eqb_neq c 13)), (proj2 (Z.eqb_neq c 10)), Ha by done.
  - assert (a <> 13 /\ a <> 10) as [H13 H10] by (split; intros ->; done).
    assert (c <> 13 /\ c <> 10) as [Hc13 Hc10].
    { split; intros ->; pose proof (char_encodes _ _ Hx) as He; by injection He as ->. }
    split; [by intros [?|?]|]. intros _ _. cbn [foldl]. unfold next_state at 2. cbn [fst snd].
    rewrite (proj2 (Z.eqb_neq a 13)), (proj2 (Z.eqb_neq a 10)), Ha by done. by apply fold_cont.
Qed.

Lemma saturating_small n x : 0 <= x < n -> saturating_add n x 1 = x + 1.
Proof. unfold saturating_add. lia. Qed.

Lemma next_line_exact n p : bounded n p -> n < U64_MAX - 1 -> next_line p = new_line p.
Proof. intros [H1 H2] Hn. unfold next_line, new_line. by rewrite saturating_small by lia. Qed.
Lemma next_column_exact n p : bounded n p -> n < U64_MAX - 1 -> next_column p = new_column p.
Proof. intros [H1 H2] Hn. unfold next_column, new_column. by rewrite saturating_small by lia. Qed.

Lemma advance_chars_lexes cs : forall u p cr n s,
  utf8_chars u = Some cs -> session_ok s -> 0 <= n -> bounded n p -> n + len u < U64_MAX - 1 ->
  wpx (for_each advance_char cs (p, cr))
    (fun r s' => continues s s' /\ r = foldl next_state (p, cr) u) (fun e _ => operational e) s.
Proof.
  induction cs as [|c cs IH]; intros u p cr n s Hu Hs Hn Hb Hlt; cbn [for_each].
  { apply utf8_nil in Hu as ->. xstep. split; [by apply continues_refl|done]. }
  apply utf8_uncons in Hu as (x & y & -> & Hx & Hy). rewrite length_app in Hlt. rewrite foldl_app.
  assert (1 <= len x) as Hx1.
  { destruct (char_shape _ _ Hx) as (a & t & -> & _). cbn [length]. lia. }
  assert (forall q, q = foldl next_state (p, cr) x -> forall s1, continues s s1 ->
    wpx (for_each advance_char cs q) (fun r s' => continues s s' /\ r = foldl next_state (foldl next_state (p, cr) x) y)
      (fun e _ => operational e) s1) as Hgo.
  { intros q -> s1 Hs1. pose proof (fold_bounded x n (p, cr) Hn Hb) as Hb'.
    destruct (foldl next_state (p, cr) x) as [p' cr']. cbn [fst] in Hb'.
    eapply wpx_mono; [apply (IH y p' cr' (n + len x)); [done|apply Hs1|lia|done|lia]| |done].
    intros r s2 [Hs2 ->]. split; [by eapply continues_trans|done]. }
  destruct (fold_char x c p cr Hx) as [Hbr Hch].
  xstep. unfold advance_char at 1. xstep. apply wpx_step; [done| |done]. intros s1 Hs1. xstep. apply Hgo; [|done].
  destruct (Z.eqb_spec c 13) as [->|H13].
  { rewrite Hbr by by left. cbn [foldl]. unfold next_state. cbn. by rewrite (next_line_exact n) by (done || lia). }
  destruct (Z.eqb_spec c 10) as [->|H10].
  { rewrite Hbr by by right. cbn [foldl andb]. unfold next_state. cbn.
    destruct cr; [done|]. by rewrite (next_line_exact n) by (done || lia). }
  cbn [andb]. rewrite Hch by done. by rewrite (next_column_exact n) by (done || lia).
Qed.

Lemma advance_position_lexes u p n s :
  is_utf8 u = true -> session_ok s -> 0 <= n -> bounded n p -> n + len u < U64_MAX - 1 ->
  wpx (advance_position u p)
    (fun r s' => continues s s' /\ r = fst (foldl next_state (p, false) u)) (fun e _ => operational e) s.
Proof.
  intros Hu Hs Hn Hb Hlt. apply is_utf8_chars in Hu as [cs Hc]. unfold advance_position. xstep. apply wpx_lift.
  unfold chars. rewrite Hc. cbn [or_panic]. xstep.
  eapply wpx_mono; [by apply (advance_chars_lexes cs u p false n)| |done].
  intros [q cr] s' [Hs' E]. xstep. rewrite <- E. by split.
Qed.

(** ** Rounds of the tokenizer *)

(** The tokenizer stands between [pre] and [l].  In front of a line break the
    column may be ahead: comments are counted in bytes. *)
Record lexer_at (pre l : bytes) (x : Lexer) : Prop := {
  at_here : at_byte x = len pre;
  at_line : line (position x) = line (position_after pre);
  at_column : column (position x) = column (position_after pre) \/
              match l with b :: _ => is_break b = true | [] => True end;
  at_flag : snd (position_state pre) = true -> head l <> Some 10;
  at_bound : bounded (len pre) (position x)
}.

Lemma position_exact pre b l x : lexer_at pre (b :: l) x -> is_break b = false -> position x = position_after pre.
Proof.
  intros [_ Hl Hc _ _] Hb. destruct Hc as [Hc|Hc]; [|congruence].
  destruct (position x), (position_after pre). cbn in *. by subst.
Qed.

(** The tokens that are still to come; at the end, the position is the one kept. *)
Definition remaining (pre l : bytes) (x : Lexer) : option (list Token) :=
  match l with [] => Some [end_token pre (position x)] | _ => tokens_from (length l) pre l end.

Lemma remaining_exact pre l x : position x = position_after pre -> remaining pre l x = tokens_from (length l) pre l.
Proof. intros E. destruct l; [|done]. cbn. by rewrite E. Qed.

(** What a round does: it moves past [x] and adds the tokens of [x]. *)
Definition moves (pre l : bytes) (before after : Lexer) : Prop :=
  exists x r ts, l = x ++ r /\ x <> [] /\ is_utf8 r = true /\ lexer_at (pre ++ x) r after /\
    lexed after = lexed before ++ ts /\
    tokens_from (length l) pre l = app ts <$> remaining (pre ++ x) r after.

Lemma position_state_snoc pre b : position_state (pre ++ [b]) = next_state (position_state pre) b.
Proof. by rewrite position_state_app. Qed.

Lemma fmap_nil (o : option (list Token)) : app [] <$> o = o.
Proof. by destruct o. Qed.

Lemma not_break b : is_break b = false -> b <> 13 /\ b <> 10.
Proof.
  unfold is_break. intros H. apply orb_false_iff in H as [H1%Z.eqb_neq H2%Z.eqb_neq]. done.
Qed.

Lemma moves_space pre b l x :
  (b =? 32) || (b =? 9) = true -> is_utf8 (b :: l) = true -> lexer_at pre (b :: l) x -> len (pre ++ b :: l) < U64_MAX - 1 ->
  moves pre (b :: l) x {| lexed := lexed x; at_byte := at_byte x + 1; position := next_column (position x) |}.
Proof.
  intros Hb Hu Hx Hlt. rewrite length_app in Hlt. cbn [length] in Hlt.
  assert (is_break b = false /\ in_range 0 0x7f b = true /\ cont b = false) as (Hbr & Ha & Hc).
  { apply orb_true_iff in Hb as [->%Z.eqb_eq| ->%Z.eqb_eq]; done. }
  rewrite is_utf8_cons_ascii in Hu by done. pose proof (position_exact pre b l x Hx Hbr) as Hp.
  pose proof (at_bound _ _ _ Hx) as Hbd. destruct (not_break b Hbr) as [H13 H10].
  assert (position_state (pre ++ [b]) = (new_column (position_after pre), false)) as Est.
  { rewrite position_state_snoc. unfold next_state. by rewrite (proj2 (Z.eqb_neq b 13)), (proj2 (Z.eqb_neq b 10)), Hc by done. }
  exists [b], l, []. split_and!; try done.
  - rewrite (next_column_exact (len pre)) by (done || lia). constructor; cbn [at_byte position].
    + by rewrite (at_here _ _ _ Hx), len_snoc.
    + unfold position_after. by rewrite Est, Hp.
    + left. unfold position_after. by rewrite Est, Hp.
    + by rewrite Est.
    + rewrite len_snoc. unfold bounded in *. cbn. lia.
  - by rewrite app_nil_r.
  - rewrite remaining_exact, fmap_nil.
    + cbn [length tokens_from]. unfold is_blank. by rewrite Hb.
    + cbn [position]. unfold position_after at 1. by rewrite Est, (next_column_exact (len pre)), Hp by (done || lia).
Qed.

Lemma line_moves pre b l x :
  is_break b = true -> is_utf8 (b :: l) = true -> lexer_at pre (b :: l) x -> len (pre ++ b :: l) < U64_MAX - 1 ->
  (b = 13 -> head l <> Some 10) ->
  moves pre (b :: l) x {| lexed := lexed x; at_byte := at_byte x + 1; position := next_line (position x) |}.
Proof.
  intros Hb Hu Hx Hlt Hlf. rewrite length_app in Hlt. cbn [length] in Hlt.
  assert (in_range 0 0x7f b = true) as Ha.
  { apply orb_true_iff in Hb as [->%Z.eqb_eq| ->%Z.eqb_eq]; done. }
  rewrite is_utf8_cons_ascii in Hu by done. pose proof (at_bound _ _ _ Hx) as Hbd.
  assert (position_state (pre ++ [b]) = (new_line (position_after pre), b =? 13)) as Est.
  { rewrite position_state_snoc. unfold next_state. destruct (Z.eqb_spec b 13) as [->|H13]; [done|].
    unfold is_break in Hb. rewrite (proj2 (Z.eqb_neq b 13)) in Hb by done. cbn [orb] in Hb.
    apply Z.eqb_eq in Hb as ->. cbn. pose proof (at_flag _ _ _ Hx) as Hf. destruct (snd (position_state pre)); [|done].
    by destruct (Hf eq_refl). }
  exists [b], l, []. split_and!; try done.
  - rewrite (next_line_exact (len pre)) by (done || lia). constructor; cbn [at_byte position].
    + by rewrite (at_here _ _ _ Hx), len_snoc.
    + unfold position_after. rewrite Est. cbn. by rewrite (at_line _ _ _ Hx).
    + left. unfold position_after. by rewrite Est.
    + rewrite Est. cbn [snd]. intros ->%Z.eqb_eq. by apply Hlf.
    + rewrite len_snoc. unfold bounded in *. cbn. lia.
  - by rewrite app_nil_r.
  - rewrite remaining_exact, fmap_nil.
    + cbn [length tokens_from]. unfold is_blank. by rewrite Hb, orb_true_r.
    + cbn [position]. unfold position_after. rewrite Est, (next_line_exact (len pre)) by (done || lia).
      unfold new_line. cbn [fst]. by rewrite (at_line _ _ _ Hx).
Qed.

(** CR LF in one round. *)
Lemma moves_crlf pre l x :
  is_utf8 (13 :: 10 :: l) = true -> lexer_at pre (13 :: 10 :: l) x -> len (pre ++ 13 :: 10 :: l) < U64_MAX - 1 ->
  moves pre (13 :: 10 :: l) x {| lexed := lexed x; at_byte := at_byte x + 1 + 1; position := next_line (position x) |}.
Proof.
  intros Hu Hx Hlt. rewrite length_app in Hlt. cbn [length] in Hlt. rewrite !is_utf8_cons_ascii in Hu by done.
  pose proof (at_bound _ _ _ Hx) as Hbd.
  assert (position_state (pre ++ [13; 10]) = (new_line (position_after pre), false)) as Est.
  { by rewrite position_state_app. }
  exists [13; 10], l, []. split_and!; try done.
  - rewrite (next_line_exact (len pre)) by (done || lia). constructor; cbn [at_byte position].
    + rewrite (at_here _ _ _ Hx), length_app. cbn [length]. lia.
    + unfold position_after. rewrite Est. cbn. by rewrite (at_line _ _ _ Hx).
    + left. unfold position_after. by rewrite Est.
    + by rewrite Est.
    + rewrite length_app. unfold bounded in *. cbn. lia.
  - by rewrite app_nil_r.
  - rewrite remaining_exact, fmap_nil.
    + cbn [length tokens_from]. change (is_blank 13) with true. change (is_blank 10) with true. cbv iota.
      by rewrite <- app_assoc.
    + cbn [position]. unfold position_after. rewrite Est, (next_line_exact (len pre)) by (done || lia).
      unfold new_line. cbn [fst]. by rewrite (at_line _ _ _ Hx).
Qed.

(** Bytes of a comment. *)
Lemma comment_loop_lexes n : forall pre l p s,
  session_ok s -> (length l <= n)%nat -> bounded (len pre) p -> len (pre ++ l) < U64_MAX - 1 ->
  let '(c, r) := span_while (fun b => negb (is_break b)) l in
  wpx (while_loop n (in_comment (pre ++ l)) comment_byte (len pre, p))
    (fun a s' => continues s s' /\ a = (len (pre ++ c), {| line := line p; column := column p + len c |}))
    (fun e _ => operational e) s.
Proof.
  induction n as [|n IH]; intros pre [|b l] p s Hs Hn Hb Hlt; try (cbn in Hn; lia); cbn [while_loop span_while].
  1,2: unfold in_comment; cbn [fst]; rewrite !app_nil_r, byte_is_end; xstep; split; [by apply continues_refl|];
    cbn [length]; rewrite Z.add_0_r; by destruct p.
  unfold in_comment at 1. cbn [fst]. rewrite byte_is_mid. fold (is_break b).
  destruct (is_break b); cbn [negb].
  { xstep. split; [by apply continues_refl|]. rewrite app_nil_r. cbn [length]. rewrite Z.add_0_r. by destruct p. }
  pose proof Hlt as Hlt'. rewrite length_app in Hlt'. cbn [length] in Hlt'.
  specialize (IH (pre ++ [b]) l (new_column p)). rewrite <- snoc_app in IH.
  destruct (span_while (fun b => negb (is_break b)) l) as [c r].
  xstep. unfold comment_byte at 1. xstep. apply wpx_step; [done| |done]. intros s1 Hs1. xstep. cbn [fst snd].
  rewrite (next_column_exact (len pre)) by (done || lia). rewrite <- (len_snoc pre b).
  eapply wpx_mono; [apply IH; [apply Hs1|cbn in Hn; lia| |done]| |done].
  { rewrite len_snoc. unfold bounded in *. cbn. lia. }
  intros a s2 [Hs2 ->]. split; [by eapply continues_trans|]. rewrite <- app_assoc. cbn [app length column line new_column].
  f_equal. f_equal. lia.
Qed.

Lemma fold_comment c st : Forall (fun b => is_break b = false) c ->
  line (fst (foldl next_state st c)) = line (fst st) /\ (c <> [] -> snd (foldl next_state st c) = false).
Proof.
  intros Hc. revert st. induction Hc as [|b c Hb _ IH]; intros st; [done|]. cbn [foldl].
  destruct (not_break b Hb) as [H13 H10].
  assert (line (fst (next_state st b)) = line (fst st) /\ snd (next_state st b) = false) as [H1 H2].
  { unfold next_state. rewrite (proj2 (Z.eqb_neq b 13)), (proj2 (Z.eqb_neq b 10)) by done. by destruct (cont b). }
  destruct (IH (next_state st b)) as [IH1 IH2]. split; [congruence|]. intros _.
  destruct c as [|b' c]; [done|]. by apply IH2.
Qed.

Lemma comment_moves pre l x c r :
  is_utf8 (35 :: l) = true -> lexer_at pre (35 :: l) x -> span_while (fun b => negb (is_break b)) (35 :: l) = (c, r) ->
  moves pre (35 :: l) x
    {| lexed := lexed x; at_byte := len (pre ++ c);
       position := {| line := line (position x); column := column (position x) + len c |} |}.
Proof.
  intros Hu Hx E. pose proof (span_while_app (fun b => negb (is_break b)) (35 :: l)) as Happ.
  pose proof (span_while_all (fun b => negb (is_break b)) (35 :: l)) as Hall.
  pose proof (span_while_stop (fun b => negb (is_break b)) (35 :: l)) as Hstop.
  pose proof (comment_shorter l) as Hshort. rewrite E in *. cbn [fst snd] in *.
  assert (Forall (fun b => is_break b = false) c) as Hc.
  { eapply Forall_impl; [exact Hall|]. intros b Hb. by apply negb_true_iff in Hb. }
  assert (c <> []) as Hne by (destruct c; [cbn in Happ; subst r; cbn in Hshort; lia|done]).
  assert (match r with b :: _ => is_break b = true | [] => True end) as Hr.
  { destruct r as [|b r]; [done|]. by apply negb_false_iff in Hstop. }
  pose proof (at_bound _ _ _ Hx) as Hbd. destruct (fold_comment c (position_state pre) Hc) as [Hline Hflag].
  exists c, r, []. split_and!; try done.
  - rewrite <- Happ in Hu. apply is_utf8_split in Hu as [_ Hu]; [done|]. destruct r as [|b r]; [done|].
    apply orb_true_iff in Hr as [->%Z.eqb_eq| ->%Z.eqb_eq]; done.
  - constructor; cbn [at_byte position].
    + done.
    + unfold position_after. rewrite position_state_app, Hline. apply (at_line _ _ _ Hx).
    + right. done.
    + rewrite position_state_app. intros H. by rewrite Hflag in H.
    + rewrite length_app. unfold bounded in *. cbn. lia.
  - by rewrite app_nil_r.
  - cbn [length tokens_from]. change (is_blank 35) with false. change (35 =? 35) with true. cbv iota.
    rewrite E, fmap_nil. destruct r as [|b r]; [|by apply tokens_from_fuel].
    cbn [remaining position]. by rewrite (position_exact pre 35 l x Hx eq_refl).
Qed.

Lemma token_offset_ok n s (Q : Z -> Session -> Prop) E : 0 <= n <= U64_MAX -> Q n s -> wpx (token_offset n) Q E s.
Proof. intros Hn HQ. unfold token_offset. apply wpx_lift. by rewrite try_from_ok by lia. Qed.

Lemma lex_token_moves pre b l x s :
  is_blank b = false -> b <> 35 ->
  session_ok s -> is_utf8 (b :: l) = true -> lexer_at pre (b :: l) x -> len (pre ++ b :: l) < U64_MAX - 1 ->
  wpx (lex_token (pre ++ b :: l) b x)
    (fun y s' => continues s s' /\ moves pre (b :: l) x y)
    (fun e _ => lexing_error (tokens_from (length (b :: l)) pre (b :: l)) e) s.
Proof.
  intros Hb H35 Hs Hu Hx Hlt. assert (is_break b = false) as Hbr.
  { unfold is_blank in Hb. by apply orb_false_iff in Hb as [_ ?]. }
  pose proof (position_exact pre b l x Hx Hbr) as Hp. pose proof (at_bound _ _ _ Hx) as Hbd.
  assert (forall o, next_lexeme (b :: l) = o -> o = None -> tokens_from (length (b :: l)) pre (b :: l) = None) as Hnone.
  { intros o Eo ->. cbn [length tokens_from]. by rewrite Hb, (proj2 (Z.eqb_neq b 35)), Eo. }
  unfold lex_token. cbv zeta. rewrite (at_here _ _ _ Hx). xstep.
  eapply wpx_mono; [by apply lex_lexes|..].
  2: { intros e s' He. eapply lexing_error_map; [exact He|]. by apply (Hnone _ eq_refl). }
  intros a s1 (Hs1 & k & v & r & Hk & ->). destruct (lexeme_spec _ _ _ _ Hk) as (u & [Hsp Hne Hlast Hutf] & Hv & _).
  destruct (Hutf Hu) as [Hu1 Hu2]. rewrite Hsp in Hlt |- *. rewrite !length_app in Hlt.
  replace (len (pre ++ u ++ r) - len r) with (len pre + len u) by (rewrite !length_app; lia).
  xstep. apply wpx_lift. unfold str_index. rewrite str_get_mid by (rewrite <- ?Hsp; by apply utf8_starts).
  cbn [or_panic]. xstep.
  eapply wpx_mono; [apply (advance_position_lexes u (position x) (len pre)); [done|apply Hs1|lia|done|lia]| |by left].
  intros p s2 [Hs2 Ep]. xstep.
  eapply wpx_mono.
  { apply (wpx_operational _ (fun _ s' => continues s2 s')); [|apply fails_reserve_bytes].
    apply wp_reserve_continues; [unfold saturating_add, TOKEN_BYTES, USIZE_MAX; lia|apply Hs2|done]. }
  2: { intros e s' He. by left. }
  intros u0 s3 Hs3. cbn beta in Hs3. xstep. apply token_offset_ok; [lia|]. xstep. apply token_offset_ok; [lia|]. xstep.
  split; [eapply continues_trans; [exact Hs1|by eapply continues_trans]|].
  destruct (not_break b Hbr) as [H13 H10].
  assert (fst (foldl next_state (position_state pre) u) = p /\ snd (foldl next_state (position_state pre) u) = false) as [Efold Eflag].
  { split.
    - rewrite Ep, Hp. unfold position_after. destruct (position_state pre) as [q f]. cbn [fst].
      destruct u as [|b' u]; [done|]. injection Hsp as <- _. by rewrite (flag_before b u q f false).
    - rewrite <- position_state_app. apply last_flag; [|by destruct pre, u].
      rewrite last_app. destruct (last u) eqn:El; [done|]. by apply last_None in El. }
  assert (take (length (b :: l) - length r) (b :: l) = u) as Etake.
  { rewrite Hsp, length_app. replace (length u + length r - length r)%nat with (length u) by lia. by rewrite take_app_length. }
  exists u, r, [mkToken k v (len pre) (len pre + len u) (line (position_after pre)) (column (position_after pre))].
  split_and!; try done.
  - constructor; cbn [at_byte position].
    + rewrite length_app. lia.
    + unfold position_after. rewrite position_state_app. by rewrite Efold.
    + left. unfold position_after. rewrite position_state_app. by rewrite Efold.
    + rewrite position_state_app, Eflag. done.
    + rewrite <- Efold, length_app, Nat2Z.inj_add. apply fold_bounded; [lia|]. apply position_bounded.
  - cbn [lexed]. by rewrite Hp.
  - rewrite <- Hsp. cbn [length tokens_from]. rewrite Hb, (proj2 (Z.eqb_neq b 35)), Hk by done. cbv zeta.
    change (S (length l)) with (length (b :: l)). rewrite Etake.
    assert (length r <= length l)%nat as Hlr.
    { apply (f_equal length) in Hsp. rewrite length_app in Hsp. cbn [length] in Hsp. destruct u; [done|cbn in Hsp; lia]. }
    rewrite (tokens_from_fuel (length l) (length r)) by lia.
    rewrite remaining_exact; [by destruct (tokens_from _ _ r)|].
    cbn [position]. unfold position_after. by rewrite position_state_app, Efold.
Qed.

Lemma tokenize_round_moves pre b l x s :
  session_ok s -> is_utf8 (b :: l) = true -> lexer_at pre (b :: l) x -> len (pre ++ b :: l) < U64_MAX - 1 ->
  wpx (tokenize_round (pre ++ b :: l) x)
    (fun y s' => continues s s' /\ moves pre (b :: l) x y)
    (fun e _ => lexing_error (tokens_from (length (b :: l)) pre (b :: l)) e) s.
Proof.
  intros Hs Hu Hx Hlt. unfold tokenize_round. xstep. apply wpx_step; [done| |by left]. intros s1 Hs1.
  xstep. apply wpx_lift. unfold index_at. rewrite (at_here _ _ _ Hx), get_at_mid. cbn [or_panic].
  destruct ((b =? 32) || (b =? 9)) eqn:Esp.
  { xstep. split; [done|]. rewrite <- (at_here _ _ _ Hx). by apply moves_space. }
  destruct (Z.eqb_spec b 13) as [->|H13].
  { cbv zeta. xstep. split; [done|]. rewrite byte_is_next.
    destruct l as [|c l]; [rewrite <- (at_here _ _ _ Hx); by apply line_moves|].
    destruct (Z.eqb_spec 10 c) as [<-|Hc]; rewrite <- (at_here _ _ _ Hx); [by apply moves_crlf|].
    apply line_moves; try done. intros _ [= ->]. done. }
  destruct (Z.eqb_spec b 10) as [->|H10].
  { xstep. split; [done|]. rewrite <- (at_here _ _ _ Hx). by apply line_moves. }
  destruct (Z.eqb_spec b 35) as [->|H35].
  { xstep. pose proof (comment_loop_lexes (length (pre ++ 35 :: l)) pre (35 :: l) (position x) s1) as H.
    destruct (span_while (fun b => negb (is_break b)) (35 :: l)) as [c r] eqn:E.
    eapply wpx_mono; [apply H; [apply Hs1|rewrite length_app; lia|apply Hx|done]| |by left].
    intros a s2 [Hs2 ->]. xstep. split; [by eapply continues_trans|]. by apply (comment_moves pre l x c r). }
  eapply wpx_mono; [apply lex_token_moves; try done; try apply Hs1|..].
  - unfold is_blank, is_break. rewrite (proj2 (Z.eqb_neq b 13)), (proj2 (Z.eqb_neq b 10)) by done. by rewrite Esp.
  - intros y s2 [Hs2 Hm]. split; [by eapply continues_trans|done].
  - done.
Qed.

Lemma tokenize_loop_lexes n : forall pre l x s,
  session_ok s -> is_utf8 l = true -> lexer_at pre l x -> len (pre ++ l) < U64_MAX - 1 -> (length l <= n)%nat ->
  wpx (while_loop n (fun x => at_byte x <? len (pre ++ l)) (tokenize_round (pre ++ l)) x)
    (fun y s' => continues s s' /\ exists ts, remaining pre l x = Some ts /\
                 lexed y ++ [end_token (pre ++ l) (position y)] = lexed x ++ ts)
    (fun e _ => lexing_error (remaining pre l x) e) s.
Proof.
  induction n as [|n IH]; intros pre [|b l] x s Hs Hu Hx Hlt Hn; try (cbn in Hn; lia); cbn [while_loop].
  1,2: rewrite (at_here _ _ _ Hx), app_nil_r, Z.ltb_irrefl; xstep; split; [by apply continues_refl|];
    by eexists.
  rewrite (at_here _ _ _ Hx), mid_ltb. xstep.
  eapply wpx_mono; [by apply tokenize_round_moves| |done].
  intros y s1 (Hs1 & u & r & ts & E & Hne & Hr & Hy & Hlex & Htok). cbn [remaining]. rewrite Htok.
  rewrite E in Hlt, Hn |- *. rewrite app_assoc in Hlt |- *.
  eapply wpx_mono; [apply (IH (pre ++ u) r y s1); [apply Hs1|done|done|done|]|..].
  - rewrite length_app in Hn. destruct u; [done|cbn in Hn; lia].
  - intros z s2 (Hs2 & ts' & -> & Hlex'). split; [by eapply continues_trans|]. exists (ts ++ ts'). split; [done|].
    by rewrite Hlex', Hlex, app_assoc.
  - intros e s2 He. eapply lexing_error_map; [exact He|]. by intros ->.
Qed.

(** [tokenize] *)
Lemma tokenize_lexes text s :
  session_ok s -> is_utf8 text = true -> len text <= ISIZE_MAX ->
  wpx (tokenize text) (fun ts s' => continues s s' /\ source_tokens text = Some ts)
    (fun e _ => lexing_error (source_tokens text) e) s.
Proof.
  intros Hs Hu Hlt. unfold ISIZE_MAX in Hlt. unfold tokenize. xstep.
  set (x := {| lexed := []; at_byte := 0; position := {| line := 1; column := 1 |} |}).
  assert (lexer_at [] text x) as Hx by (constructor; [done|done|by left|done|unfold bounded; cbn; lia]).
  assert (source_tokens text = remaining [] text x) as -> by (by rewrite remaining_exact).
  eapply wpx_mono; [apply (tokenize_loop_lexes (length text) [] text x); try done; cbn [app]; ulia|..]; [|done].
  intros y s1 (Hs1 & ts & Hts & Hlex). change (lexed x ++ ts) with ts in Hlex.
  xstep. apply token_offset_ok; [ulia|]. xstep. apply token_offset_ok; [ulia|]. xstep. split; [done|].
  rewrite Hts, <- Hlex. done.
Qed.

(** ** What the parser needs to know of the tokens *)

Lemma end_token_ok pre p : token_ok (end_token pre p).
Proof. done. Qed.

Lemma ends_with_eof_cons t ts : kind t <> KEof -> ends_with_eof ts -> ends_with_eof (t :: ts).
Proof. intros Ht Hts. by destruct ts. Qed.

Lemma tokens_from_ok n : forall pre l ts,
  is_utf8 l = true -> len l <= USIZE_MAX -> tokens_from n pre l = Some ts ->
  Forall token_ok ts /\ ends_with_eof ts /\ (length ts <= length l + 1)%nat.
Proof.
  induction n as [|n IH]; intros pre [|b r] ts Hu Hl; cbn [tokens_from]; try done;
    try (intros [= <-]; split_and!; [by constructor; [apply end_token_ok|]|done|cbn; lia]).
  destruct (is_blank b) eqn:Eb.
  { intros H. cbn [length] in *. destruct (IH (pre ++ [b]) r ts) as (H1 & H2 & H3); [|lia|done|split_and!; [done|done|lia]].
    rewrite is_utf8_cons_ascii in Hu; [done|]. unfold is_blank, is_break in Eb. rewrite !orb_true_iff, !Z.eqb_eq in Eb.
    destruct Eb as [[->| ->]|[->| ->]]; done. }
  destruct (Z.eqb_spec b 35) as [->|H35].
  { pose proof (span_while_app (fun b => negb (is_break b)) (35 :: r)) as Happ.
    pose proof (span_while_stop (fun b => negb (is_break b)) (35 :: r)) as Hstop.
    pose proof (comment_shorter r) as Hshort.
    destruct (span_while _ (35 :: r)) as [c [|b q]]; cbn [fst snd length] in *.
    { intros [= <-]. split_and!; [by constructor; [apply end_token_ok|]|done|cbn; lia]. }
    intros H. destruct (IH (pre ++ c) (b :: q) ts) as (H1 & H2 & H3); [|cbn [length]; lia|done|split_and!; [done|done|cbn [length] in *; lia]].
    rewrite <- Happ in Hu. apply is_utf8_split in Hu as [_ Hu]; [done|].
    apply negb_false_iff, orb_true_iff in Hstop as [->%Z.eqb_eq| ->%Z.eqb_eq]; done. }
  destruct (next_lexeme (b :: r)) as [[[k v] q]|] eqn:E; [|done]. cbv zeta.
  destruct (lexeme_spec _ _ _ _ E) as (x & Hx & Hv & Hk & Huv & Hd).
  destruct (off_utf8 _ _ _ Hx Hu) as [_ Hq]. pose proof (off_split _ _ _ Hx) as Hsp.
  pose proof (lexed_off_shorter _ _ _ Hx) as Hshort. apply (f_equal length) in Hsp. rewrite length_app in Hsp.
  destruct (tokens_from n _ q) as [us|] eqn:Eq; [|done]. intros [= <-].
  destruct (IH _ q us Hq ltac:(lia) Eq) as (H1 & H2 & H3).
  split_and!; [|by apply ends_with_eof_cons|cbn [length] in *; lia].
  constructor; [|done]. constructor; cbn [kind token_value]; auto. lia.
Qed.

Lemma source_tokens_ok text ts :
  is_utf8 text = true -> len text <= ISIZE_MAX -> source_tokens text = Some ts ->
  Forall token_ok ts /\ ends_with_eof ts /\ (length ts <= length text + 1)%nat.
Proof. intros Hu Hl. apply tokens_from_ok; [done|unfold ISIZE_MAX in *; ulia]. Qed.

(** * The tokenizer: what it computes, where its tokens lie, and that it ends *)

(** ** The tokens of a text *)

(** The lexer's answer to the text, up to the errors of the session. *)
Definition lexes (text : bytes) (r : outcome (list Token)) : Prop :=
  match r with
  | Ok ts => source_tokens text = Some ts
  | Err e => operational e \/ (source_tokens text = None /\ code e = code syntax)
  | Panic => False
  end.

(** C7: The tokenizer computes the tokens of the reference lexer, with their
    values, byte ranges, lines and columns, and reports a syntax error exactly
    when the text has no tokens; other errors are those of the session.  It
    never slices inside a character, overflows or runs out of rounds. *)
Theorem tokenizer_computes_the_lexemes text s :
  session_ok s -> is_utf8 text = true -> len text <= ISIZE_MAX -> lexes text (fst (tokenize text s)).
Proof.
  intros Hs Hu Hl. pose proof (tokenize_lexes text s Hs Hu Hl) as H. unfold wpx in H.
  destruct (tokenize text s) as [[ts|e|] s']; [by destruct H|exact H|done].
Qed.

(** A text of three lines; the second ends in a comment. *)
Definition sample_lines : bytes := str "Prefix(:=<urn:a#>) " ++ [34; 92; 34; 195; 169; 34] ++ str "@en-GB ^^ x:y # note" ++ [13; 10] ++ str "12 (".

Lemma tokenizer_computes_the_lexemes_witness :
  exists ts, source_tokens sample_lines = Some ts /\ length ts = 13%nat.
Proof.
  pose proof (tokenizer_computes_the_lexemes sample_lines sample_session sample_session_ok
    ltac:(vm_compute; reflexivity) ltac:(vm_compute; discriminate)) as H.
  assert (exists ts, fst (tokenize sample_lines sample_session) = Ok ts /\ length ts = 13%nat) as (ts & E & Hn).
  { eexists. split; [vm_compute; reflexivity|reflexivity]. }
  exists ts. split; [|exact Hn]. rewrite E in H. exact H.
Defined.

(** ** Where the tokens lie *)

(** From the byte [from] on, the tokens are lexemes of the text at their byte
    ranges, one behind the other, up to the end token. *)
Inductive tokens_at (text : bytes) : Z -> list Token -> Prop :=
  | tokens_end from t :
      from <= len text -> kind t = KEof -> byte_start t = len text -> byte_end t = len text ->
      bounded (len text) {| line := token_line t; column := token_column t |} ->
      tokens_at text from [t]
  | tokens_next from t ts :
      from <= byte_start t < byte_end t -> byte_end t <= len text ->
      next_lexeme (drop (Z.to_nat (byte_start t)) text) =
        Some (kind t, token_value t, drop (Z.to_nat (byte_end t)) text) ->
      bounded (byte_start t) {| line := token_line t; column := token_column t |} ->
      tokens_at text (byte_end t) ts -> tokens_at text from (t :: ts).

Lemma tokens_at_weaken text from from' ts : from' <= from -> tokens_at text from ts -> tokens_at text from' ts.
Proof. intros Hle H. destruct H; constructor; try done; lia. Qed.

Lemma tokens_from_at n : forall pre l ts,
  tokens_from n pre l = Some ts -> tokens_at (pre ++ l) (len pre) ts.
Proof.
  assert (forall pre, bounded (len pre) {| line := line (position_after pre); column := column (position_after pre) |}) as Hpos.
  { intros pre. pose proof (position_bounded pre). by destruct (position_after pre). }
  assert (forall pre, tokens_at (pre ++ []) (len pre) [end_token pre (position_after pre)]) as Hend.
  { intros pre. rewrite app_nil_r. constructor; try done. }
  induction n as [|n IH]; intros pre [|b r] ts; cbn [tokens_from]; try done; try (intros [= <-]; apply Hend).
  destruct (is_blank b) eqn:Eb.
  { intros H%IH. rewrite <- app_assoc in H. eapply tokens_at_weaken; [|exact H]. rewrite length_app. cbn; lia. }
  destruct (Z.eqb_spec b 35) as [->|H35].
  { pose proof (span_while_app (fun b => negb (is_break b)) (35 :: r)) as Happ.
    destruct (span_while _ (35 :: r)) as [c [|b q]]; cbn [fst snd] in Happ.
    - intros [= <-]. rewrite <- Happ, app_nil_r. constructor; try done; [rewrite length_app; lia|].
      specialize (Hpos pre). unfold bounded in *. cbn in *. rewrite length_app. lia.
    - intros H%IH. rewrite <- app_assoc, Happ in H. eapply tokens_at_weaken; [|exact H]. rewrite length_app; lia. }
  destruct (next_lexeme (b :: r)) as [[[k v] q]|] eqn:E; [|done]. cbv zeta.
  destruct (lexeme_spec _ _ _ _ E) as (x & [Hx Hne _ _] & _).
  assert (take (length (b :: r) - length q) (b :: r) = x) as ->.
  { rewrite Hx, length_app. replace (length x + length q - length q)%nat with (length x) by lia. by rewrite take_app_length. }
  destruct (tokens_from n (pre ++ x) q) as [us|] eqn:Eq; [|done]. intros [= <-].
  apply IH in Eq. rewrite <- app_assoc, <- Hx, length_app, Nat2Z.inj_add in Eq.
  constructor; cbn [byte_start byte_end kind token_value token_line token_column]; try done.
  - destruct x; [done|cbn; lia].
  - rewrite length_app, Hx, length_app. lia.
  - rewrite Nat2Z.id, drop_app_length. replace (Z.to_nat (len pre + len x)) with (length pre + length x)%nat by lia.
    rewrite drop_app_add, E. by rewrite Hx, drop_app_length.
Qed.

(** C35: The tokens of a text lie in it: their byte ranges follow each other
    without overlap and end within the text, each spells the lexeme that starts
    there, the last one is the end of the source, and lines and columns never
    exceed the number of bytes before the token plus one. *)
Theorem tokens_lie_in_the_text text s ts s' :
  session_ok s -> is_utf8 text = true -> len text <= ISIZE_MAX ->
  tokenize text s = (Ok ts, s') -> tokens_at text 0 ts.
Proof.
  intros Hs Hu Hl E. pose proof (tokenize_lexes text s Hs Hu Hl) as H. unfold wpx in H. rewrite E in H.
  destruct H as [_ H]. by apply (tokens_from_at _ [] text) in H.
Qed.

Lemma tokens_lie_in_the_text_witness :
  exists ts s', tokenize sample_lines sample_session = (Ok ts, s') /\ tokens_at sample_lines 0 ts.
Proof.
  destruct (tokenize sample_lines sample_session) as [[ts|e|] s'] eqn:E.
  - exists ts, s'. split; [reflexivity|].
    exact (tokens_lie_in_the_text sample_lines sample_session ts s' sample_session_ok
      ltac:(vm_compute; reflexivity) ltac:(vm_compute; discriminate) E).
  - apply (f_equal fst) in E. vm_compute in E. discriminate E.
  - apply (f_equal fst) in E. vm_compute in E. discriminate E.
Defined.

(** ** Termination *)

(** [tokenize] with at most [n] rounds. *)
Definition tokenize_within (n : nat) (text : bytes) : M Session (list Token) :=
  l ← while_loop n (fun l => at_byte l <? len text) (tokenize_round text)
        {| lexed := []; at_byte := 0; position := {| line := 1; column := 1 |} |};
  byte_start ← token_offset (len text);
  byte_end ← token_offset (len text);
  mret (lexed l ++
    [{| kind := KEof; token_value := []; byte_start := byte_start; byte_end := byte_end;
        token_line := line (position l); token_column := column (position l) |}]).

Lemma while_loop_enough {S X} (cond : X -> bool) (body : X -> M S X) n : forall m x s,
  (n <= m)%nat -> fst (while_loop n cond body x s) <> Panic -> while_loop m cond body x s = while_loop n cond body x s.
Proof.
  induction n as [|n IH]; intros m x s Hm Hp; destruct m as [|m]; try lia; [done|..]; cbn [while_loop] in *;
    (destruct (cond x) eqn:E; [|done]); [done|].
  unfold mbind, M_bind in *. destruct (body x s) as [[y|e|] s']; try done. apply IH; [lia|done].
Qed.

(** C36: Tokenization ends: a round for every byte is enough, and with any larger
    bound on the rounds the result is the same. *)
Theorem tokenization_ends n text s :
  session_ok s -> is_utf8 text = true -> len text <= ISIZE_MAX -> (length text <= n)%nat ->
  tokenize_within n text s = tokenize text s /\ fst (tokenize text s) <> Panic.
Proof.
  intros Hs Hu Hl Hn. pose proof (tokenize_lexes text s Hs Hu Hl) as H. unfold wpx in H.
  assert (fst (tokenize text s) <> Panic) as Hp by (destruct (tokenize text s) as [[]]; done).
  split; [|done]. clear H. unfold tokenize, tokenize_within in *. unfold mbind at 1, M_bind at 1.
  unfold mbind at 3, M_bind at 3. unfold mbind at 1, M_bind at 1 in Hp. rewrite (while_loop_enough _ _ (length text)); [done|done|].
  destruct (while_loop (length text) _ _ _ s) as [[]]; done.
Qed.

Lemma tokenization_ends_witness :
  tokenize_within 1000 sample_lines sample_session = tokenize sample_lines sample_session.
Proof.
  refine (proj1 (tokenization_ends 1000 sample_lines sample_session sample_session_ok
    ltac:(vm_compute; reflexivity) ltac:(vm_compute; discriminate) _)).
  vm_compute. repeat constructor.
Defined.
