(* ===== verification/FunctionalTheorems.v ===== *)
(** * Functional-syntax sources and the documents they denote

    The tokenizer computes the tokens of the reference lexer, and the parser
    the document that the reference grammar reads from them. *)

From S2P Require Import Prelude Bytes Order Error Machine Atomic Limits Cancel Session Source Schema Lexical Scan Component Encode Tokenizer Functional Utf8 Grammar Denotes Refines ParsesDocument Lexemes TokenizerTheorems.

(** The document of a text. *)
Definition source_document (allow_swrl : bool) (text : bytes) : outcome Document :=
  ts ← ok_or (source_tokens text) syntax; read_document allow_swrl ts.

(** [data] is a document of the grammar; its characters are counted without the
    byte-order mark. *)
Definition stands_for (allow_swrl : bool) (data : bytes) (p : ParsedDocument) (d : Document) : Prop :=
  is_utf8 data = true /\
  exists characters, utf8_chars (strip_bom data) = Some characters /\
    source_document allow_swrl (strip_bom data) = Ok d /\ document_related (len characters) p d.

(** Why [data] is refused: for want of resources, or as the reference refuses it. *)
Definition refusal (allow_swrl : bool) (data : bytes) (e : NativeError) : Prop :=
  operational e \/
  (is_utf8 data = false /\ code e = "NATIVE_FORMAT_ENCODING"%string) \/
  (is_utf8 data = true /\ exists e', source_document allow_swrl (strip_bom data) = Err e' /\ code e' = code e).

Lemma strip_bom_utf8 data : is_utf8 data = true -> is_utf8 (strip_bom data) = true /\ len (strip_bom data) <= len data.
Proof.
  intros H. unfold strip_bom. destruct (bool_decide (take 3 data = BOM)) eqn:E; [|done].
  apply bool_decide_eq_true in E. rewrite <- (take_drop 3 data), E in H. split; [|rewrite length_drop; lia].
  apply is_utf8_chars in H as [cs H]. rewrite (char_reads BOM _ (utf8_three 0xef 0xbb 0xbf eq_refl eq_refl eq_refl ltac:(done) ltac:(done))) in H.
  destruct (utf8_chars (drop 3 data)) eqn:E'; [|done]. apply is_utf8_chars. eauto.
Qed.

Lemma utf8_chars_length l cs : utf8_chars l = Some cs -> len cs <= len l.
Proof.
  revert l. induction cs as [|c cs IH]; intros l H; [cbn; lia|].
  apply utf8_uncons in H as (x & y & -> & Hx & Hy). specialize (IH y Hy). rewrite length_app.
  destruct (char_shape _ _ Hx) as (a & t & -> & _). cbn [length]. lia.
Qed.

Lemma parse_functional_reads data allow collect s :
  session_ok s -> len data <= ISIZE_MAX ->
  wpx (parse_functional data allow collect)
    (fun p s' => continues s s' /\ exists d, stands_for allow data p d) (fun e _ => refusal allow data e) s.
Proof.
  intros Hs Hl. unfold parse_functional. xstep. apply wpx_lift.
  destruct (is_utf8 data) eqn:Eu; cbn [ok_or]; [|right; left; done]. cbv zeta.
  destruct (strip_bom_utf8 data Eu) as [Hu Hlen]. xstep. apply wpx_lift. unfold chars.
  pose proof Hu as Hu'. apply is_utf8_chars in Hu' as [cs Hcs]. rewrite Hcs. cbn [or_panic].
  pose proof (utf8_chars_length _ _ Hcs) as Hn. xstep. apply wpx_lift.
  unfold ISIZE_MAX in Hl. rewrite try_from_ok by ulia. cbn [ok_or].
  assert (len (strip_bom data) <= ISIZE_MAX) as Hl' by (unfold ISIZE_MAX; lia).
  xstep. eapply wpx_mono; [by apply (tokenize_lexes (strip_bom data))|..].
  - intros ts s1 (Hs1 & Hts). destruct (source_tokens_ok _ _ Hu Hl' Hts) as (Hok & Heof & Hcount).
    assert (source_document allow (strip_bom data) = fst (read_document_fuel (length ts) allow ts)) as Esrc.
    { unfold source_document. by rewrite Hts. }
    assert (wpx Parser_parse
      (fun p q => continues s1 (session q) /\ exists d, stands_for allow data p d) (fun e _ => refusal allow data e)
      (Parser_new ts allow collect (len cs) s1)) as H.
    { eapply wpx_mono; [apply (Parser_parse_agrees (length ts)); [ulia|apply Hs1|done..]|..].
      - intros p q [(d & Hd & Hr) Hq]. split; [done|]. exists d. split; [done|]. exists cs. by rewrite Esrc.
      - intros e q [He|(e' & He & Hc)]; [by left|]. right. right. split; [done|]. exists e'. by rewrite Esrc. }
    unfold wpx, in_parser in H |- *. destruct (Parser_parse _) as [[p|e|] q]; [|done..].
    destruct H as [Hq Hd]. split; [by eapply continues_trans|done].
  - intros e s1 [He|[He Hc]]; [by left|]. right. right. split; [done|]. exists syntax.
    unfold source_document. by rewrite He.
Qed.
