(* ===== verification/Shapes.v ===== *)
(** * Components of the shape the schema asks for

    [shaped] is well-formedness without limits and without the rules between the
    fields of a component: known tags, the announced fields in their roles,
    sets in strict order.  Such a component has a row of bytes, and the sets of
    the grammar are sets of the schema. *)

From S2P Require Import Prelude Bytes Order Error Machine Varint Schema Lexical Scan Component ScanSound Encode Tokenizer Functional Utf8 Grammar Denotes Consumes Refines Parses.

(** The rules of the fields of a tag. *)
Definition field_rules (t : Z) : list FieldRule := omap (field_rule t) [0; 1; 2; 3].

Inductive shaped : component -> Prop :=
  | shaped_component t ps :
      is_Some (spec t) -> Forall2 conforms (field_rules t) ps -> shaped (Component t ps)
with conforms : FieldRule -> part -> Prop :=
  | conforms_text v : is_utf8 v = true -> conforms (FScalar SText) (PText v)
  | conforms_no_text : conforms (FScalar SOptionalText) PNull
  | conforms_some_text v : is_utf8 v = true -> conforms (FScalar SOptionalText) (PText v)
  | conforms_exactly data : is_bytes data -> conforms (FScalar (SBytesExact (len data))) (PBytes data)
  | conforms_nonempty data : is_bytes data -> data <> [] -> conforms (FScalar SBytesNonempty) (PBytes data)
  | conforms_integer z : 0 <= z -> conforms (FScalar SInteger) (PInteger z)
  | conforms_kind k : conforms (FScalar SEntityKind) (PKind k)
  | conforms_component rule c :
      shaped c -> accepts rule (component_meta c) = true -> conforms (FNode rule) (PComponent c)
  | conforms_set rule minimum forbidden cs :
      minimum <= len cs -> ascending (map encode cs) -> Forall shaped cs ->
      Forall (fun c => accepts rule (component_meta c) = true /\ forbidden <> Some (ctag c)) cs ->
      conforms (FSet rule minimum forbidden) (PSet cs)
  | conforms_sequence rule minimum cs :
      minimum <= len cs -> Forall shaped cs -> Forall (fun c => accepts rule (component_meta c) = true) cs ->
      conforms (FSequence rule minimum) (PSequence cs).

(** A component for the role [rule]. *)
Definition in_role (rule : NodeRule) (c : component) : Prop :=
  shaped c /\ accepts rule (component_meta c) = true.

Lemma conforms_role rule c : in_role rule c -> conforms (FNode rule) (PComponent c).
Proof. intros []. by constructor. Qed.

Lemma in_roles rule cs :
  Forall (in_role rule) cs -> Forall shaped cs /\ Forall (fun c => accepts rule (component_meta c) = true) cs.
Proof. intros H. by apply Forall_and. Qed.

Lemma conforms_roles rule minimum cs :
  minimum <= len cs -> Forall (in_role rule) cs -> conforms (FSequence rule minimum) (PSequence cs).
Proof. intros Hm [H1 H2]%in_roles. by constructor. Qed.

Lemma conforms_role_set rule minimum cs :
  minimum <= len cs -> ascending (map encode cs) -> Forall (in_role rule) cs ->
  conforms (FSet rule minimum None) (PSet cs).
Proof.
  intros Hm Ha [H1 H2]%in_roles. constructor; try done. eapply Forall_impl; [exact H2|]. by intros.
Qed.

#[export] Hint Resolve conforms_role conforms_roles conforms_role_set : kernel.

(** ** The fields of a tag *)

Lemma field_rules_spec t s : spec t = Some s -> len (field_rules t) = fields s.
Proof.
  intros Hs. destruct (field_rule_ledger t s 0 Hs) as [Hn _].
  assert (forall i, is_Some (field_rule t i) <-> 0 <= i < fields s) as H by (intros i; apply (field_rule_ledger t s i Hs)).
  unfold field_rules. cbn [omap list_omap].
  assert (forall i, (exists r, field_rule t i = Some r /\ i < fields s) \/ (field_rule t i = None /\ (fields s <= i \/ i < 0))) as Hc.
  { intros i. destruct (field_rule t i) as [r|] eqn:E.
    - left. exists r. assert (is_Some (field_rule t i)) as Hi%H by by eexists. split; [done|lia].
    - right. split; [done|]. destruct (decide (0 <= i < fields s)) as [Hi|]; [|lia].
      apply H in Hi as [r Hr]. congruence. }
  destruct (Hc 0) as [(? & -> & ?)|[-> ?]], (Hc 1) as [(? & -> & ?)|[-> ?]], (Hc 2) as [(? & -> & ?)|[-> ?]],
    (Hc 3) as [(? & -> & ?)|[-> ?]]; cbn [length]; lia.
Qed.

Lemma field_rules_lookup t s i r :
  spec t = Some s -> field_rules t !! i = Some r -> field_rule t (Z.of_nat i) = Some r.
Proof.
  intros Hs. pose proof (field_rules_spec t s Hs) as Hl. destruct (field_rule_ledger t s 0 Hs) as [Hn _].
  assert (forall i, field_rule t i = None -> ~ 0 <= i < fields s) as H.
  { intros j Hj Hb. apply (field_rule_ledger t s j Hs) in Hb as [x Hx]. congruence. }
  unfold field_rules in *. cbn [omap list_omap] in *.
  destruct (field_rule t 0) as [a|] eqn:E0; [|specialize (H 0 E0); lia].
  destruct (field_rule t 1) as [b|] eqn:E1, (field_rule t 2) as [c|] eqn:E2, (field_rule t 3) as [d|] eqn:E3;
    cbn [length] in Hl;
    try (exfalso; first [specialize (H 1 E1); lia|specialize (H 2 E2); lia|specialize (H 3 E3); lia]);
    destruct i as [|[|[|[|i]]]]; cbn; intros E; simplify_eq; try done.
Qed.

(** ** Rows are bytes *)

Lemma utf8_bytes l : is_utf8 l = true -> is_bytes l.
Proof.
  intros [cs H]%is_utf8_chars. revert l H. induction cs as [|c cs IH]; intros l H; [apply utf8_nil in H as ->; constructor|].
  apply utf8_uncons in H as (s & y & -> & Hs & Hy). apply Forall_app. split; [|by apply IH].
  pose proof (char_encodes _ _ Hs) as E. pose proof (char_scalar _ _ Hs) as Hc.
  subst s. unfold utf8_encode in *. unfold is_scalar in Hc. rewrite orb_true_iff in Hc.
  assert (0 <= c <= 0x10ffff) by (destruct Hc as [Hc|Hc]; decide_range; lia).
  destruct (Z.ltb_spec c 0x80); [|destruct (Z.ltb_spec c 0x800); [|destruct (Z.ltb_spec c 0x10000)]];
    repeat (apply Forall_cons; split); try apply Forall_nil; try done; unfold is_u8, U8_MAX;
    Z.to_euclidean_division_equations; lia.
Qed.

Lemma is_bytes_concat {A} (f : A -> bytes) l : Forall (fun x => is_bytes (f x)) l -> is_bytes (concat (map f l)).
Proof. induction 1; cbn; [constructor|by apply Forall_app]. Qed.

Section RowBytes.
Fixpoint depth (c : component) : nat :=
  match c with Component _ ps => S (list_max (map part_depth ps)) end
with part_depth (p : part) : nat :=
  match p with
  | PComponent c => depth c
  | PSet cs | PSequence cs => list_max (map depth cs)
  | _ => 0
  end.

Lemma below_max {A} (f : A -> nat) l x n : x ∈ l -> (list_max (map f l) <= n)%nat -> (f x <= n)%nat.
Proof.
  intros Hx H. apply list_max_le in H. rewrite List.Forall_forall in H. apply H, in_map, list_elem_of_In, Hx.
Qed.

(** Nested components first. *)
Lemma shaped_bytes_at n : forall c, (depth c <= n)%nat -> shaped c -> is_bytes (encode c).
Proof.
  induction n as [|n IH]; intros [t ps] Hn Hc; [cbn in Hn; lia|]. inversion Hc as [t' ps' [s Hs] Hps]; subst.
  cbn [encode depth] in *. apply Forall_app. split; [apply is_bytes_varint; by pose proof (spec_range _ _ Hs); lia|].
  apply is_bytes_concat, Forall_forall. intros p Hp.
  assert (part_depth p <= n)%nat as Hd by (by apply (below_max part_depth ps); [|lia]).
  apply list_elem_of_lookup in Hp as [i Hi]. destruct (Forall2_lookup_r _ _ _ _ _ Hps Hi) as (rule & _ & Hr).
  assert (forall cs, Forall shaped cs -> (list_max (map depth cs) <= n)%nat -> Forall (fun c => is_bytes (encode c)) cs) as Hall.
  { intros cs Hcs Hm. apply Forall_forall. intros c Hcin. apply IH; [by apply (below_max depth cs)|].
    by rewrite Forall_forall in Hcs; apply Hcs. }
  assert (forall b, 0 <= b <= 7 -> is_u8 b) as Hb by (unfold is_u8, U8_MAX; lia).
  destruct Hr; cbn [encode_part part_depth] in *; apply Forall_cons; (split; [apply Hb; lia|]); try constructor;
    try (by apply is_bytes_frame; auto using utf8_bytes).
  - by apply is_bytes_varint.
  - apply is_bytes_frame. by destruct k; apply is_bytesb_true.
  - apply Forall_app. split; [apply is_bytes_varint; lia|]. apply is_bytes_concat.
    eapply Forall_impl; [by apply Hall|]. intros. by apply is_bytes_frame.
  - apply Forall_app. split; [apply is_bytes_varint; lia|]. apply (is_bytes_concat (fun c => 1 :: frame (encode c))).
    eapply Forall_impl; [by apply Hall|]. intros. apply Forall_cons. split; [by apply Hb|]. by apply is_bytes_frame.
Qed.

Lemma shaped_bytes c : shaped c -> is_bytes (encode c).
Proof. by apply (shaped_bytes_at (depth c)). Qed.
End RowBytes.

(** ** Sets of components *)

Lemma distinct_after_ascending ks : forall k,
  StronglySorted bytes_le (k :: ks) -> ascending (k :: key_distinct_after k ks).
Proof.
  induction ks as [|x ks IH]; intros k Hs; cbn [key_distinct_after]; [by repeat constructor|].
  pose proof Hs as [Hle Hs']%StronglySorted_cons. pose proof Hle as [_ Hle']%Forall_cons.
  apply StronglySorted_cons. split.
  - apply Forall_forall. intros y Hy. apply (key_distinct_after_lt k (x :: ks)); [done|]. exact Hy.
  - destruct (bytes_eqb x k) eqn:E; [|by apply IH]. apply bytes_eqb_eq in E as ->.
    by apply IH in Hs' as [_ ?]%StronglySorted_cons.
Qed.

Lemma set_of_ascending o cs : ascending (map encode (set_of o cs)).
Proof.
  unfold set_of. set (ds := concat _).
  assert (StronglySorted bytes_le (map encode (merge_sort component_le ds))) as H.
  { assert (Sorted component_le (merge_sort component_le ds)) as Hs.
    { apply Sorted_merge_sort. intros c d. unfold component_le. apply (base.total bytes_le). }
    apply Sorted_StronglySorted in Hs; [|intros c d e; unfold component_le; by etrans].
    induction Hs as [|c es _ IH Hc]; cbn [map]; [constructor|]. apply StronglySorted_cons. split; [|done].
    apply Forall_map. eapply List.Forall_impl; [|exact Hc]. done. }
  destruct (merge_sort component_le ds) as [|c es]; cbn [distinct map] in *; [constructor|].
  rewrite distinct_after_keys. by apply distinct_after_ascending.
Qed.

Lemma distinct_after_sub kept cs c : c ∈ distinct_after kept cs -> c ∈ cs.
Proof.
  revert kept. induction cs as [|d cs IH]; intros kept; cbn [distinct_after]; [done|].
  rewrite elem_of_cons. case_match; [eauto|]. intros [->|?]%elem_of_cons; eauto.
Qed.

Lemma set_of_sub o cs c : c ∈ set_of o cs -> exists d, d ∈ cs /\ c ∈ flat_members o d.
Proof.
  unfold set_of. intros Hset.
  assert (c ∈ concat (map (flat_members o) cs)) as Hc.
  { rewrite <- (merge_sort_Permutation component_le). destruct (merge_sort _ _) as [|d es]; [done|]. cbn [distinct] in Hset.
    apply elem_of_cons in Hset as [->|Hset]; apply elem_of_cons; [by left|right]. by eapply distinct_after_sub. }
  apply list_elem_of_In, in_concat in Hc as (l & Hl & Hc%list_elem_of_In). apply in_map_iff in Hl as (d & <- & Hd%list_elem_of_In). eauto.
Qed.

Lemma set_of_roles rule cs : Forall (in_role rule) cs -> Forall (in_role rule) (set_of None cs).
Proof.
  rewrite !Forall_forall. intros Hall c (d & Hd & Hc)%set_of_sub. apply Hall in Hd.
  destruct d as [t [|[] ps]]; by apply list_elem_of_singleton in Hc as ->.
Qed.

Lemma conforms_set_of rule minimum cs :
  minimum <= len (set_of None cs) -> Forall (in_role rule) cs -> conforms (FSet rule minimum None) (PSet (set_of None cs)).
Proof. intros Hm H. apply conforms_role_set; [done|apply set_of_ascending|by apply set_of_roles]. Qed.
#[export] Hint Resolve conforms_set_of set_of_roles : kernel.

(** An operator over one role whose operands are not operators of the same tag. *)
Definition is_operator (rule : NodeRule) (t : Z) : Prop :=
  spec t = Some (mkSpec 1 CTerm) /\ field_rules t = [FSet rule 2 (Some t)] /\
  forall cs, accepts rule (component_meta (Component t [PSet cs])) = true.

Lemma flat_members_roles rule t c :
  is_operator rule t -> in_role rule c ->
  Forall (fun d => in_role rule d /\ Some t <> Some (ctag d)) (flat_members (Some t) c).
Proof.
  intros (Hs & Hf & _) [Hc Ha].
  destruct (decide (ctag c = t)) as [<-|Hne].
  - destruct c as [t ps]. cbn [ctag] in *. inversion Hc as [t' ps' _ Hps]; subst. rewrite Hf in Hps.
    apply Forall2_cons_inv_l in Hps as (p & ps' & Hp & Hps & ->). apply Forall2_nil_inv_l in Hps as ->.
    inversion Hp as [| | | | | | | |? ? ? es Hm Has Hsh Hro|]; subst. cbn [flat_members]. rewrite bool_decide_eq_true_2 by done.
    apply Forall_forall. intros d Hd. rewrite !Forall_forall in *. destruct (Hro d Hd). split; [split; auto|done].
  - assert (flat_members (Some t) c = [c]) as ->.
    { destruct c as [t' [|[] ps]]; cbn [flat_members ctag] in *; try done. by rewrite bool_decide_eq_false_2 by congruence. }
    constructor; [|done]. split; [done|]. congruence.
Qed.

Lemma operator_roles rule t cs :
  is_operator rule t -> Forall (in_role rule) cs ->
  match set_of (Some t) cs with
  | [] => True
  | [c] => in_role rule c
  | operands => in_role rule (Component t [PSet operands])
  end.
Proof.
  intros Ht Hcs. pose proof (set_of_ascending (Some t) cs) as Ha.
  assert (Forall (fun d => in_role rule d /\ Some t <> Some (ctag d)) (set_of (Some t) cs)) as H.
  { apply Forall_forall. intros d (c & Hc & Hd)%set_of_sub. rewrite Forall_forall in Hcs. apply Hcs in Hc.
    pose proof (flat_members_roles rule t c Ht Hc) as Hf. rewrite Forall_forall in Hf. by apply Hf. }
  destruct (set_of (Some t) cs) as [|c [|d ds]]; [done|by apply Forall_cons in H as [[] _]|].
  destruct Ht as (Hs & Hf & Hr). split; [|apply Hr]. constructor; [by eexists|]. rewrite Hf. constructor; [|done].
  constructor; [cbn [length]; lia|done|..]; (eapply Forall_impl; [exact H|]); intros e [[]]; done.
Qed.

(** * The grammar reads components of the schema

    Whatever the reference grammar reads is [shaped], in the role of the place
    where it is read: the forms of [Grammar] and the ledger of [Schema] agree,
    field by field.  What the grammar leaves to the validation of rows are the
    limits and the rules between fields. *)

(** What [r] reads has the property [P], if it reads anything. *)
Definition always {A} (P : A -> Prop) (r : Reader A) : Prop :=
  forall ts, Forall token_ok ts -> wpp True r (fun a ts' => P a /\ Forall token_ok ts') ts.

Section Calculus.
Context {A B : Type}.

Lemma always_bind (P : A -> Prop) (Q : B -> Prop) (r : Reader A) (g : A -> Reader B) :
  always P r -> (forall a, P a -> always Q (g a)) -> always Q (r ≫= g).
Proof.
  intros Hr Hg ts Hts. apply wpp_bind. eapply wpp_mono; [by apply Hr|]. intros a ts' [Ha Hts']. by apply Hg.
Qed.
Lemma always_ret (P : A -> Prop) a : P a -> always P (mret a).
Proof. by intros Ha ts Hts. Qed.
Lemma always_lift (P : A -> Prop) o : (forall a, o = Ok a -> P a) -> always P (lift o).
Proof. intros Ho ts Hts. unfold wpp, lift. destruct o; auto. Qed.
Lemma always_throw (P : A -> Prop) e : always P (throw e).
Proof. by intros ts. Qed.
Lemma always_mono (P Q : A -> Prop) r : always P r -> (forall a, P a -> Q a) -> always Q r.
Proof. intros Hr Hp ts Hts. eapply wpp_mono; [by apply Hr|]. intros a ts' []. auto. Qed.
End Calculus.

Lemma always_get (P : list Token -> Prop) : (forall ts, Forall token_ok ts -> P ts) -> always P get.
Proof. intros HP ts Hts. by split; [apply HP|]. Qed.
Lemma always_look : always token_ok look_token.
Proof. intros [|t ts] Hts; [done|]. apply Forall_cons in Hts as Hts'. by destruct Hts'. Qed.
Lemma always_next : always token_ok next_token.
Proof. intros [|t ts] Hts; [done|]. by apply Forall_cons in Hts. Qed.
Lemma always_ensure c e : always (fun _ => c = false) (ensure_not c e).
Proof. intros ts Hts. by destruct c. Qed.
Lemma always_ok_or {A} (o : option A) e : always (fun a => o = Some a) (lift (ok_or o e)).
Proof. apply always_lift. by destruct o; intros ? [= <-]. Qed.
Lemma always_test b : always (fun _ => True) (test b).
Proof. eapply always_bind; [apply always_look|]. intros t _. by apply always_ret. Qed.
Lemma always_head_name : always (fun _ => True) head_name.
Proof.
  eapply always_bind; [apply always_look|]. intros t _. eapply always_bind; [by apply (always_get (fun _ => True))|].
  intros ts _. by apply always_ret.
Qed.
Lemma always_token k : always (fun t => token_ok t /\ kind t = k) (token k).
Proof.
  intros [|t ts] Hts; [done|]. apply Forall_cons in Hts as Ht. destruct Ht as [Ht Hts'].
  apply wpp_bind. change (wpp True (ensure_not (negb (bool_decide (kind t = k))) syntax;; next_token)
    (fun a ts' => (token_ok a /\ kind a = k) /\ Forall token_ok ts') (t :: ts)).
  destruct (bool_decide (kind t = k)) eqn:E; [|done]. apply bool_decide_eq_true in E. done.
Qed.

(** [walk] goes through a reader step by step. *)
Create HintDb always discriminated.
#[export] Hint Resolve always_get always_look always_next always_ensure always_ok_or always_test always_head_name
  always_token : always.

Ltac walk := repeat lazymatch goal with
  | |- always _ (_ ≫= _) => eapply always_bind; [solve [eauto with always]|intros ? ?; cbn beta in *]
  | |- always _ (throw _) => apply always_throw
  | |- always _ (lift Panic) => by apply always_lift
  | |- always _ (mret _) => apply always_ret
  | |- always _ (if ?c then _ else _) => destruct c
  end.

Lemma always_keyword name : always token_ok (keyword name).
Proof. unfold keyword. eapply always_bind; [apply always_token|]. intros t [Ht _]. by walk. Qed.
Lemma always_open : always (fun _ => True) open_token.
Proof. unfold open_token. by walk. Qed.
Lemma always_close : always (fun _ => True) close_token.
Proof. unfold close_token. by walk. Qed.
#[export] Hint Resolve always_keyword always_open always_close : always.
Lemma always_within {A} (P : A -> Prop) (r : Reader A) : always P r -> always P (within r).
Proof. intros Hr. unfold within. by walk. Qed.
#[export] Hint Resolve always_within : always.

(** ** Text *)

Lemma char_bytes s c : utf8_char s c -> (s = [c] /\ 0 <= c < 0x80) \/ Forall (fun b => 0x80 <= b) s.
Proof.
  intros Hs. pose proof (char_encodes _ _ Hs) as E. pose proof (char_scalar _ _ Hs) as Hc.
  unfold is_scalar in Hc. rewrite orb_true_iff in Hc. assert (0 <= c) by (destruct Hc as [Hc|Hc]; decide_range; lia).
  subst s. unfold utf8_encode in *. destruct (Z.ltb_spec c 0x80); [by left|right].
  repeat case_match; repeat (apply Forall_cons; split); try apply Forall_nil; try done; Z.to_euclidean_division_equations; lia.
Qed.

Lemma unescape_utf8 v out : is_utf8 v = true -> unescape v = Some out -> is_utf8 out = true.
Proof.
  unfold unescape. remember (length v) as n eqn:En. assert (length v <= n)%nat as Hn by lia. clear En.
  revert v out Hn. induction n as [n IH] using lt_wf_ind. intros v out Hn Hv.
  apply is_utf8_chars in Hv as [cs Hv]. destruct cs as [|c cs].
  { apply utf8_nil in Hv as ->. destruct n; by intros [= <-]. }
  apply utf8_uncons in Hv as (s & y & -> & Hs & Hy). assert (is_utf8 y = true) as Hu by (apply is_utf8_chars; eauto).
  destruct (char_shape _ _ Hs) as (a & t & E & Ha & Ht).
  assert (length (s ++ y) = S (length t + length y)) as El by (subst; cbn; by rewrite length_app).
  destruct (decide (a = 92)) as [->|Hne].
  - assert (t = []) as ->.
    { destruct (char_bytes _ _ Hs) as [[E' _]|H]; [congruence|]. subst s. apply Forall_cons in H as [H _]. lia. }
    subst s. cbn [app length] in *. destruct n as [|n]; [lia|]. destruct y as [|marker y]; [done|].
    rewrite unescape_escape. destruct (escape_width marker) as [width|] eqn:Ew; [|done].
    destruct (escaped_scalar (take width y) width) as [c'|] eqn:Ec; [|done].
    destruct (unescape_loop n (drop width y)) as [rest|] eqn:Er; [|done]. intros [= <-].
    unfold escaped_scalar in Ec. destruct (_ && forallb is_ascii_hexdigit (take width y)) eqn:Eh; [|done].
    apply andb_true_iff in Eh as [_ Hhex]. destruct (is_scalar _) eqn:Esc; [|done]. injection Ec as <-.
    apply is_utf8_app; [by apply is_utf8_encode|]. apply (IH n ltac:(lia) (drop width y)); [cbn in Hn; rewrite length_drop; lia| |done].
    assert (in_range 0 0x7f marker = true) as Hm.
    { unfold escape_width in Ew. destruct (Z.eqb_spec marker 117) as [->|]; [done|].
      by destruct (Z.eqb_spec marker 85) as [->|]. }
    rewrite (is_utf8_cons_ascii marker y Hm), <- (take_drop width y), (ascii_utf8 _ _ (hex_ascii _ Hhex)) in Hu. done.
  - rewrite unescape_plain; [|eapply char_not_backslash; [exact Hs|subst; cbn; congruence]|lia].
    destruct (unescape_loop (length y) y) as [rest|] eqn:Er; [|done]. intros [= <-].
    apply is_utf8_app; [apply is_utf8_chars; exists [c]; pose proof (char_reads _ _ Hs []) as H; by rewrite app_nil_r in H|].
    by apply (IH (length y) ltac:(lia) y).
Qed.

Lemma lowercase_utf8 l : is_utf8 l = true -> is_utf8 (to_ascii_lowercase l) = true.
Proof.
  intros [cs H]%is_utf8_chars. revert l H. induction cs as [|c cs IH]; intros l H; [by apply utf8_nil in H as ->|].
  apply utf8_uncons in H as (s & y & -> & Hs & Hy). unfold to_ascii_lowercase in *. rewrite map_app.
  apply is_utf8_app; [|by apply IH]. destruct (char_bytes _ _ Hs) as [[-> Hc]|H].
  - cbn [map]. rewrite is_utf8_cons_ascii; [done|]. case_match eqn:E; [|by apply in_range_true; lia].
    unfold is_ascii_uppercase in E. decide_range. apply in_range_true. lia.
  - replace (map _ s) with s; [apply is_utf8_chars; exists [c]; pose proof (char_reads _ _ Hs []) as Hr; by rewrite app_nil_r in Hr|].
    symmetry. rewrite <- (list_fmap_id s) at 2. apply list_fmap_ext. intros i b Hb. case_match eqn:E; [|done].
    rewrite Forall_forall in H. apply list_elem_of_lookup_2, H in Hb. unfold is_ascii_uppercase in E. decide_range. lia.
Qed.

(** ** Terminals *)

Lemma iri_role text : is_utf8 text = true -> in_role RIri (iri_component text).
Proof. intros H. split; [|done]. constructor; [by eexists|]. repeat constructor. done. Qed.

(** The role of the entities of a kind. *)
Definition entity_role (k : EntityKind) : NodeRule :=
  match k with
  | KClass => RClass | KDatatype => RDatatype | KObjectProperty => RObjectProperty
  | KDataProperty => RDataProperty | KAnnotationProperty => RAnnotationProperty
  | KNamedIndividual => RIndividual
  end.

Lemma entity_role_ok k c : in_role RIri c -> in_role (entity_role k) (entity_component k c).
Proof.
  intros Hc. split; [|by destruct k]. constructor; [by eexists|]. repeat constructor; apply Hc.
Qed.

(** Roles that include others. *)
Lemma role_weaken rule rule' c :
  in_role rule c -> (accepts rule (component_meta c) = true -> accepts rule' (component_meta c) = true) -> in_role rule' c.
Proof. intros [Hc Ha] H. split; auto. Qed.

Ltac weaken_role :=
  let c := fresh in let Hc := fresh in
  intros c Hc; apply (role_weaken _ _ _ Hc); cbn [accepts entity_role]; intros ->; rewrite ?orb_true_r; reflexivity.

Section Readers.
Context (fuel : nat) (names : gmap bytes bytes).
Hypothesis names_utf8 : map_Forall (fun _ base => is_utf8 base = true) names.

Lemma token_iri_utf8 t text : token_ok t -> token_iri names t = Some text -> is_utf8 text = true.
Proof.
  intros Ht. unfold token_iri. destruct (is_kind KIri t); [by apply unescape_utf8; apply Ht|].
  destruct (is_prefixed_name t); [|done]. destruct (split_once 58 (token_value t)) as [[prefix local]|] eqn:Es; [|done].
  destruct (names !! prefix) as [base|] eqn:Eb; [|done]. cbn. destruct (unescape local) as [out|] eqn:Eu; [|done].
  intros [= <-]. apply is_utf8_app; [by apply (names_utf8 prefix)|].
  eapply unescape_utf8; [|exact Eu]. eapply split_once_utf8; [apply Ht|exact Es].
Qed.

Lemma reads_iri : always (in_role RIri) (read_iri names).
Proof. unfold read_iri. walk. apply iri_role. eauto using token_iri_utf8. Qed.
Hint Resolve reads_iri : always.

Lemma reads_entity k : always (in_role (entity_role k)) (read_entity names k).
Proof. unfold read_entity. walk. by apply entity_role_ok. Qed.
Hint Resolve reads_entity : always.

Lemma label_role label : is_bytes label -> in_role RIndividual (anonymous_component label).
Proof.
  intros H. split; [|done]. constructor; [by eexists|]. constructor; [|constructor; [|constructor]].
  - apply (conforms_exactly PROVISIONAL_SCOPE). by apply is_bytesb_true.
  - constructor; [|done]. apply Forall_app. split; [by apply is_bytesb_true|by apply is_bytes_frame].
Qed.

(** What follows a blank label. *)
Definition read_label : Reader component :=
  t ← next_token;
  let label := drop 2 (token_value t) in
  ensure_not (len label =? 0) syntax;;
  mret (anonymous_component label).

Lemma reads_label : always (fun c => in_role RIndividual c /\ ctag c = 3) read_label.
Proof.
  unfold read_label. walk. split; [|done]. apply label_role, Forall_drop, utf8_bytes. by apply token_utf8.
Qed.

Lemma reads_individual : always (in_role RIndividual) (read_individual names).
Proof.
  unfold read_individual. eapply always_bind; [apply always_test|]. intros [] _; [|apply (reads_entity KNamedIndividual)].
  eapply always_mono; [apply reads_label|]. by intros c [].
Qed.
Hint Resolve reads_individual : always.

Lemma reads_object_property : always (in_role RObjectPropertyExpression) (read_object_property names).
Proof.
  unfold read_object_property. walk; [|eapply always_mono; [apply reads_entity|weaken_role]].
  split; [|done]. constructor; [by eexists|]. constructor; [|constructor]. by apply conforms_role.
Qed.
Hint Resolve reads_object_property : always.

Lemma literal_role lexical datatype language :
  is_utf8 lexical = true -> in_role RDatatype datatype ->
  match language with Some l => is_utf8 l = true | None => True end ->
  in_role RLiteral (literal_component lexical datatype language).
Proof.
  intros Hl Hd Hlang. split; [|done]. constructor; [by eexists|]. repeat constructor; try done; [apply Hd..|].
  destruct language; by constructor.
Qed.

Lemma plain_role : in_role RDatatype plain_literal.
Proof. apply (entity_role_ok KDatatype). by apply iri_role. Qed.

Lemma reads_literal : always (in_role RLiteral) (read_literal names).
Proof.
  unfold read_literal. eapply always_bind; [apply always_token|]. intros lexical [[Hl _ _] _]. walk.
  - apply literal_role; [done|apply plain_role|]. by apply lowercase_utf8, token_utf8.
  - eapply (always_bind (in_role RDatatype)).
    + walk; [apply (reads_entity KDatatype)|apply plain_role].
    + intros datatype Hd. walk. by apply literal_role.
Qed.
Hint Resolve reads_literal : always.

(** Only a blank label starts an individual here. *)
Lemma reads_subject : always (in_role RAnnotationSubject) (read_subject names).
Proof.
  intros [|t ts] Hts; [done|].
  assert (read_subject names (t :: ts) = (if is_blank_label t then read_label else read_iri names) (t :: ts)) as E.
  { assert (test is_blank_label (t :: ts) = (Ok (is_blank_label t), t :: ts)) as E by done.
    unfold read_subject, read_individual, mbind at 1, M_bind at 1. rewrite E. destruct (is_blank_label t); [|done].
    unfold mbind at 1, M_bind at 1. by rewrite E. }
  unfold wpp. rewrite E. clear E. revert Hts. generalize (t :: ts). clear ts.
  change (always (in_role RAnnotationSubject) (if is_blank_label t then read_label else read_iri names)).
  case_match; [|eapply always_mono; [apply reads_iri|weaken_role]].
  eapply always_mono; [apply reads_label|]. intros c [[Hc _] Ht]. split; [done|].
  unfold accepts, component_meta. cbn [tag]. by rewrite Ht.
Qed.
Hint Resolve reads_subject : always.

Lemma reads_value : always (in_role RAnnotationValue) (read_value names).
Proof.
  unfold read_value. eapply always_bind; [apply always_test|]. intros [] _.
  - eapply always_mono; [apply reads_literal|weaken_role].
  - eapply always_mono; [apply reads_subject|]. intros c Hc. apply (role_weaken _ _ _ Hc). cbn [accepts].
    by intros [->| ->]%orb_true_iff; rewrite ?orb_true_r.
Qed.
Hint Resolve reads_value : always.

(** ** Collections *)

Lemma reads_many_loop rule r n : always (in_role rule) r -> forall cs,
  Forall (in_role rule) cs -> always (Forall (in_role rule)) (read_many_loop n r cs).
Proof.
  intros Hr. induction n as [|n IH]; intros cs Hcs; cbn [read_many_loop];
    (eapply always_bind; [apply always_test|]; intros [] _; [by apply always_ret|]); [by apply always_lift|].
  walk. apply IH, Forall_app. by rewrite Forall_singleton.
Qed.

Lemma reads_many rule r : always (in_role rule) r -> always (Forall (in_role rule)) (read_many fuel r).
Proof. intros Hr. by apply reads_many_loop. Qed.

Lemma reads_at_least (P : list component -> Prop) minimum cs :
  (minimum <= len cs -> P cs) -> always P (at_least minimum cs).
Proof. intros HP. unfold at_least. walk. apply HP. bool_to_prop. lia. Qed.

Lemma reads_set rule r minimum :
  always (in_role rule) r -> always (fun cs => conforms (FSet rule minimum None) (PSet cs)) (read_set fuel r minimum).
Proof.
  intros Hr. unfold read_set. eapply always_bind; [by apply reads_many|]. intros cs Hcs.
  apply reads_at_least. intros Hm. by apply conforms_set_of.
Qed.

Lemma reads_operator rule r t :
  is_operator rule t -> always (in_role rule) r -> always (in_role rule) (read_operator fuel r t).
Proof.
  intros Ht Hr. unfold read_operator. eapply always_bind; [by apply reads_many|]. intros cs Hcs.
  eapply always_bind; [by apply (reads_at_least (fun _ => True))|]. intros _ _.
  eapply always_bind; [apply (reads_at_least (fun ds => ds = set_of (Some t) cs /\ 1 <= len ds)); done|]. intros ds [-> Hm].
  eapply always_bind; [apply always_close|]. intros _ _. pose proof (operator_roles rule t cs Ht Hcs) as H.
  destruct (set_of (Some t) cs) as [|c [|d ds]]; [done|by apply always_ret..].
Qed.

Lemma reads_annotations_loop r n : always (in_role RAnnotation) r -> forall cs,
  Forall (in_role RAnnotation) cs -> always (Forall (in_role RAnnotation)) (read_annotations_loop n r cs).
Proof.
  intros Hr. induction n as [|n IH]; intros cs Hcs; cbn [read_annotations_loop];
    (eapply always_bind; [apply always_test|]; intros [] _; [|by apply always_ret]); [by apply always_lift|].
  walk. apply IH, Forall_app. by rewrite Forall_singleton.
Qed.

(** A set of annotations, the last field of an axiom. *)
Notation annotation_set := (fun cs => conforms (FSet RAnnotation 0 None) (PSet cs)).

Lemma reads_annotations_with r :
  always (in_role RAnnotation) r -> always annotation_set (read_annotations_with fuel r).
Proof.
  intros Hr. unfold read_annotations_with. eapply always_bind; [by apply (reads_annotations_loop r fuel Hr [])|].
  intros cs Hcs. apply always_ret. apply conforms_set_of; [lia|done].
Qed.

Lemma reads_annotation_fuel n : always (in_role RAnnotation) (read_annotation_fuel fuel names n).
Proof.
  induction n as [|n IH]; cbn [read_annotation_fuel]; [by apply always_lift|].
  eapply always_bind; [apply always_keyword|]. intros _ _. apply always_within.
  eapply always_bind; [by apply reads_annotations_with|]. intros annotations Ha.
  eapply always_bind; [apply (reads_entity KAnnotationProperty)|]. intros property Hp.
  eapply always_bind; [apply reads_value|]. intros value Hv. apply always_ret.
  split; [|done]. constructor; [by eexists|]. repeat (constructor; [by auto with kernel|]). constructor.
Qed.
Lemma reads_annotation : always (in_role RAnnotation) (read_annotation fuel names).
Proof. apply reads_annotation_fuel. Qed.
Lemma reads_annotations : always annotation_set (read_annotations fuel names).
Proof. apply reads_annotations_with, reads_annotation. Qed.
Hint Resolve reads_annotation reads_annotations : always.

(** ** Argument shapes *)

Lemma role_of_kind k rule : (forall c, in_role (entity_role k) c -> in_role rule c) -> always (in_role rule) (read_entity names k).
Proof. intros H. eapply always_mono; [apply reads_entity|done]. Qed.

Lemma reads_path n range : always (in_role RDataRange) range -> forall properties,
  Forall (in_role RDataProperty) properties ->
  always (fun found => 1 <= len (fst found) /\ Forall (in_role RDataProperty) (fst found) /\ in_role RDataRange (snd found))
    (read_path names n range properties).
Proof.
  intros Hr. induction n as [|n IH]; intros properties Hp; cbn [read_path];
    (eapply always_bind; [apply always_test|]; intros [] _; [apply always_throw|]); [by apply always_lift|].
  eapply always_bind; [apply always_head_name|]. intros name _. case_match.
  - eapply always_bind; [by apply (reads_at_least (fun _ => 1 <= len properties))|]. intros ? Hn. by walk.
  - eapply always_bind; [apply reads_iri|]. intros iri Hiri.
    eapply always_bind; [apply always_test|]. intros [] _.
    + eapply always_bind; [by apply (reads_at_least (fun _ => 1 <= len properties))|]. intros ? Hn. walk. split_and!; [done..|].
      apply (role_weaken RDatatype); [by apply (entity_role_ok KDatatype)|]. cbn [accepts]. by intros ->.
    + apply IH, Forall_app. split; [done|]. rewrite Forall_singleton. by apply (entity_role_ok KDataProperty).
Qed.

(** The shapes read parts for the rules up to [rest]. *)
Fixpoint fits_shapes (rest : list FieldRule) (shapes : list shape) (rules : list FieldRule) : Prop :=
  match shapes, rules with
  | [], _ => rules = rest
  | One r :: shapes, FNode rule :: rules => always (in_role rule) r /\ fits_shapes rest shapes rules
  | Some_of r minimum :: shapes, FSet rule m None :: rules =>
      minimum = m /\ always (in_role rule) r /\ fits_shapes rest shapes rules
  | Chain r minimum :: shapes, FSequence rule m :: rules =>
      minimum = m /\ always (in_role rule) r /\ fits_shapes rest shapes rules
  | Number :: shapes, FScalar SInteger :: rules => fits_shapes rest shapes rules
  | Otherwise r c :: shapes, FNode rule :: rules =>
      always (in_role rule) r /\ in_role rule c /\ fits_shapes rest shapes rules
  | Unordered r :: shapes, FNode rule :: FNode rule' :: rules =>
      rule = rule' /\ always (in_role rule) r /\ fits_shapes rest shapes rules
  | Keys r s :: shapes, FSet rule m None :: FSet rule' m' None :: rules =>
      m = 0 /\ m' = 0 /\ always (in_role rule) r /\ always (in_role rule') s /\ fits_shapes rest shapes rules
  | Path range :: shapes, FSequence RDataProperty 1 :: FNode RDataRange :: rules =>
      always (in_role RDataRange) range /\ fits_shapes rest shapes rules
  | _, _ => False
  end.

(** The parts of the first shape go in front of those of the others. *)
Definition prefix_of (rules tail : list FieldRule) (ps : list part) : Prop :=
  forall qs, Forall2 conforms tail qs -> Forall2 conforms rules (ps ++ qs).

Lemma conforms_number t : token_ok t -> kind t = KInteger -> conforms (FScalar SInteger) (PInteger (decimal_value (token_value t))).
Proof.
  intros Ht Hk. constructor. apply (token_digits _ Ht) in Hk as [_ Hd].
  unfold decimal_value. apply digits_value_bound, Forall_map. rewrite forallb_forall in Hd. apply Forall_forall.
  intros b Hb%list_elem_of_In%Hd. unfold is_ascii_digit in Hb. decide_range. cbn. lia.
Qed.

Lemma in_order_conforms rule c d :
  in_role rule c -> in_role rule d -> Forall2 conforms [FNode rule; FNode rule] (in_order c d).
Proof. intros Hc Hd. unfold in_order. case_match; repeat (constructor; [by apply conforms_role|]); constructor. Qed.

Lemma reads_shape_then rest s shapes rules :
  fits_shapes rest (s :: shapes) rules ->
  exists tail, fits_shapes rest shapes tail /\ always (prefix_of rules tail) (read_shape fuel names s).
Proof.
  assert (forall rule tail p, conforms rule p -> prefix_of (rule :: tail) tail [p]) as Hone.
  { intros rule tail p Hp qs Hqs. by constructor. }
  assert (forall rule rule' tail p q, conforms rule p -> conforms rule' q -> prefix_of (rule :: rule' :: tail) tail [p; q]) as Htwo.
  { intros rule rule' tail p q Hp Hq qs Hqs. by repeat constructor. }
  assert (forall A (r : Reader A) (P : A -> Prop) (g : A -> list part) rules tail,
    always P r -> (forall a, P a -> prefix_of rules tail (g a)) -> always (prefix_of rules tail) (a ← r; mret (g a))) as Hmap.
  { intros A r P g rs tail Hr Hg. eapply always_bind; [exact Hr|]. intros a Ha. by apply always_ret, Hg. }
  destruct s as [r|r minimum|r minimum| |r c|r|r s|range]; cbn [fits_shapes read_shape].
  - destruct rules as [|[| rule| |] tail]; try done. intros [Hr H]. exists tail. split; [done|].
    eapply Hmap; [exact Hr|]. intros c Hc. by apply Hone, conforms_role.
  - destruct rules as [|[| |rule m []|] tail]; try done. intros (-> & Hr & H). exists tail. split; [done|].
    eapply Hmap; [by apply reads_set|]. intros cs Hcs. by apply Hone.
  - destruct rules as [|[| | |rule m] tail]; try done. intros (-> & Hr & H). exists tail. split; [done|].
    eapply always_bind; [by apply reads_many|]. intros cs Hcs.
    eapply Hmap; [apply (reads_at_least (fun ds => Forall (in_role rule) ds /\ m <= len ds)); done|].
    intros ds [Hds Hm]. by apply Hone, conforms_roles.
  - destruct rules as [|[[]| | |] tail]; try done. intros H. exists tail. split; [done|].
    eapply Hmap; [apply always_token|]. intros t [Ht Hk]. by apply Hone, conforms_number.
  - destruct rules as [|[|rule| |] tail]; try done. intros (Hr & Hc & H). exists tail. split; [done|].
    eapply Hmap; [|intros d Hd; by apply Hone, conforms_role]. unfold otherwise.
    eapply always_bind; [apply always_test|]. intros [] _; [by apply always_ret|done].
  - destruct rules as [|[|rule| |] [|[|rule'| |] tail]]; try done. intros (<- & Hr & H). exists tail. split; [done|].
    eapply always_bind; [exact Hr|]. intros c Hc. eapply Hmap; [exact Hr|]. intros d Hd qs Hqs.
    change (FNode rule :: FNode rule :: tail) with ([FNode rule; FNode rule] ++ tail).
    apply Forall2_app; [by apply in_order_conforms|done].
  - destruct rules as [|[| |rule m []|] [|[| |rule' m' []|] tail]]; try done. intros (-> & -> & Hr & Hs & H).
    exists tail. split; [done|]. eapply always_bind; [apply always_within; by apply reads_set|]. intros cs Hcs.
    eapply always_bind; [apply always_within; by apply reads_set|]. intros ds Hds.
    eapply Hmap; [apply always_ensure|]. intros _ _. by apply Htwo.
  - destruct rules as [|[| | |[] m] [|[|rule'| |] tail]]; try done; try (by destruct m as [|[]|]).
    destruct m as [|[]|]; try done. destruct rule'; try done. intros [Hr H]. exists tail. split; [done|].
    eapply Hmap; [by apply reads_path|]. intros found (Hn & Hp & Hc). apply Htwo; [by apply conforms_roles|by apply conforms_role].
Qed.

Lemma reads_shapes rest shapes : forall rules, fits_shapes rest shapes rules ->
  always (prefix_of rules rest) (read_shapes fuel names shapes).
Proof.
  induction shapes as [|s shapes IH]; intros rules H; cbn [read_shapes].
  { cbn in H. subst. apply always_ret. by intros qs. }
  apply reads_shape_then in H as (tail & H & Hs). eapply always_bind; [exact Hs|]. intros ps Hps.
  eapply always_bind; [by apply IH|]. intros qs Hqs. apply always_ret. intros us Hus. rewrite <- app_assoc.
  by apply Hps, Hqs.
Qed.
End Readers.

(** * The forms of the grammar agree with the schema

    Each keyword's arguments are the fields of its tag; with that, class
    expressions, data ranges, axioms and rules are [shaped], and so are the rows
    of a document. *)

#[export] Hint Resolve reads_iri reads_entity reads_individual reads_object_property reads_literal reads_subject
  reads_value reads_annotation reads_annotations reads_set reads_many : always.

(** A reader in its role, or in a narrower one. *)
Ltac in_its_role :=
  match goal with
  | |- always (in_role ?rule) (read_entity _ ?k) =>
      first [apply (reads_entity _ ltac:(assumption) k)|eapply always_mono; [apply (reads_entity _ ltac:(assumption) k)|weaken_role]]
  | _ => first [solve [eauto with always]|eapply always_mono; [solve [eauto with always]|weaken_role]]
  end.

Section Forms.
Context (fuel : nat) (names : gmap bytes bytes).
Hypothesis names_utf8 : map_Forall (fun _ base => is_utf8 base = true) names.

(** A form of the category [rule]; fields for [rest] come after its arguments. *)
Definition form_fits (rule : NodeRule) (rest : list FieldRule) (form : string * (Z * list shape)) : Prop :=
  let '(_, (t, shapes)) := form in
  is_Some (spec t) /\ (forall ps, accepts rule (component_meta (Component t ps)) = true) /\
  fits_shapes rest shapes (field_rules t).

Lemma reads_form rule rest table name :
  Forall (form_fits rule rest) table ->
  always (fun built => forall qs, Forall2 conforms rest qs -> in_role rule (Component (fst built) (snd built ++ qs)))
    (read_form fuel names table name).
Proof.
  intros Ht. unfold read_form. eapply always_bind; [apply always_ok_or|]. intros [t shapes] Hn.
  apply named_In in Hn as [k Hk%list_elem_of_In]. rewrite Forall_forall in Ht. destruct (Ht _ Hk) as (Hs & Ha & Hf).
  eapply always_bind; [by apply reads_shapes|]. intros ps Hps. apply always_ret. intros qs Hqs. cbn [fst snd].
  split; [|apply Ha]. constructor; [done|by apply Hps].
Qed.

Lemma reads_call rule operators table r name :
  Forall (fun o => is_operator rule (snd o)) operators -> Forall (form_fits rule []) table ->
  always (in_role rule) r -> always (in_role rule) (read_call fuel names operators table r name).
Proof.
  intros Ho Ht Hr. unfold read_call. eapply always_bind; [apply always_next|]. intros _ _.
  eapply always_bind; [apply always_open|]. intros _ _.
  destruct (named name operators) as [t|] eqn:E.
  - apply named_In in E as [k Hk%list_elem_of_In]. rewrite Forall_forall in Ho. by apply reads_operator; [apply (Ho _ Hk)|].
  - eapply always_bind; [by apply (reads_form rule [])|]. intros built Hb.
    eapply always_bind; [apply always_close|]. intros _ _. apply always_ret. specialize (Hb [] ltac:(constructor)).
    by rewrite app_nil_r in Hb.
Qed.

(** A table that fits, form by form. *)
Ltac fits_table :=
  repeat (apply Forall_cons; split); try apply Forall_nil; try done;
  (split; [by eexists|split; [done|cbn [fits_shapes field_rules omap list_omap field_rule set_ scalar node sequence]]]);
  repeat apply conj; try done; try in_its_role.

Lemma reads_facet : always (in_role RFacetRestriction) (facet names).
Proof.
  unfold facet. eapply always_bind; [by apply reads_iri|]. intros f Hf.
  eapply always_bind; [by apply reads_literal|]. intros v Hv. apply always_ret.
  split; [|done]. constructor; [by eexists|]. repeat (constructor; [by apply conforms_role|]). constructor.
Qed.
Hint Resolve reads_facet : always.

Lemma data_range_forms_fit range :
  always (in_role RDataRange) range -> Forall (form_fits RDataRange []) (data_range_forms names range).
Proof. intros Hr. unfold data_range_forms. fits_table. Qed.

Lemma reads_data_range_fuel n : always (in_role RDataRange) (read_data_range_fuel fuel names n).
Proof.
  induction n as [|n IH]; cbn [read_data_range_fuel]; [by apply always_lift|].
  eapply always_bind; [apply always_head_name|]. intros [name|] _; [|in_its_role].
  apply reads_call; [|by apply data_range_forms_fit|done]. by repeat constructor.
Qed.
Lemma reads_data_range : always (in_role RDataRange) (read_data_range fuel names).
Proof. apply reads_data_range_fuel. Qed.
Hint Resolve reads_data_range : always.

Lemma thing_role : in_role RClassExpression (entity_component KClass (iri_component OWL_THING)).
Proof. apply (role_weaken RClass); [by apply (entity_role_ok KClass), iri_role|]. cbn [accepts]. by intros ->. Qed.
Lemma any_literal_role : in_role RDataRange (entity_component KDatatype (iri_component RDFS_LITERAL)).
Proof. apply (role_weaken RDatatype); [by apply (entity_role_ok KDatatype), iri_role|]. cbn [accepts]. by intros ->. Qed.

Lemma class_forms_fit class :
  always (in_role RClassExpression) class -> Forall (form_fits RClassExpression []) (class_forms fuel names class).
Proof. intros Hr. unfold class_forms. fits_table. all: first [apply thing_role|apply any_literal_role]. Qed.

Lemma reads_class_fuel n : always (in_role RClassExpression) (read_class_fuel fuel names n).
Proof.
  induction n as [|n IH]; cbn [read_class_fuel]; [by apply always_lift|].
  eapply always_bind; [apply always_head_name|]. intros name _. case_match; [|in_its_role].
  apply reads_call; [|by apply class_forms_fit|done]. by repeat constructor.
Qed.
Lemma reads_class : always (in_role RClassExpression) (read_class_expression fuel names).
Proof. apply reads_class_fuel. Qed.
Hint Resolve reads_class : always.

(** ** Axioms *)

(** Forms that read axioms; the fields after their arguments are annotations. *)
Definition axiom_fits (form : string * (Z * list shape)) : Prop :=
  let '(_, (t, shapes)) := form in
  (exists s, spec t = Some s /\ spec_category s = CAxiom) /\
  fits_shapes [FSet RAnnotation 0 None] shapes (field_rules t).

(** A row of the category. *)
Definition of_category (category : Category) (c : component) : Prop :=
  shaped c /\ component_category c = category.

Lemma reads_declared : always (in_role REntity) (read_declared names).
Proof.
  unfold read_declared, read_entity. walk. eapply (always_mono (in_role REntity)); [|done].
  apply always_within. eapply always_bind; [by apply reads_iri|]. intros c Hc. apply always_ret.
  split; [by apply entity_role_ok|done].
Qed.

Lemma reads_sub_property : always (in_role RSubObjectPropertyExpression) (read_sub_property fuel names).
Proof.
  unfold read_sub_property. eapply always_bind; [apply always_test|]. intros [] _.
  - eapply always_bind; [apply always_next|]. intros _ _.
    destruct (reads_shape_then fuel names names_utf8 [] (Chain (read_object_property names) 2) [] (field_rules 11)) as (tail & Ht & Hs).
    { cbn. split; [done|]. split; [by apply reads_object_property|done]. }
    cbn in Ht. subst tail. eapply always_bind; [apply always_within; exact Hs|]. intros ps Hps. apply always_ret.
    split; [|done]. constructor; [by eexists|]. rewrite <- (app_nil_r ps). apply Hps. constructor.
  - eapply always_mono; [by apply reads_object_property|]. intros c Hc. apply (role_weaken _ _ _ Hc). cbn [accepts].
    by intros [->| ->]%orb_true_iff; rewrite ?orb_true_r.
Qed.
Hint Resolve reads_declared reads_sub_property : always.

Lemma axiom_forms_fit : Forall axiom_fits (axiom_forms fuel names).
Proof.
  unfold axiom_forms. repeat (apply Forall_cons; split); try apply Forall_nil_2;
    (split; [eexists; by split|cbn [fits_shapes field_rules omap list_omap field_rule set_ scalar node sequence]]);
    repeat apply conj; try done; try in_its_role.
Qed.

Lemma disjoint_classes_shaped cs annotations :
  Forall (in_role RClassExpression) cs -> conforms (FSet RAnnotation 0 None) (PSet annotations) ->
  Forall (of_category CAxiom) (disjoint_classes cs annotations).
Proof.
  intros Hcs Ha. unfold disjoint_classes. apply Forall_app. split.
  - destruct (Z.leb_spec 2 (len (set_of None cs))); [|constructor]. rewrite Forall_singleton. split; [|done].
    constructor; [by eexists|]. constructor; [by apply conforms_set_of|]. by constructor.
  - apply Forall_map, Forall_forall. intros c [_ Hc]%list_elem_of_filter. split; [|done].
    pose proof (set_of_roles _ _ Hcs) as Hr. rewrite Forall_forall in Hr.
    constructor; [by eexists|]. constructor; [by apply conforms_role, Hr|].
    constructor; [|by constructor]. apply conforms_role.
    apply (role_weaken RClass); [by apply (entity_role_ok KClass), iri_role|]. cbn [accepts]. by intros ->.
Qed.

Lemma reads_axiom : always (Forall (of_category CAxiom)) (read_axiom fuel names).
Proof.
  unfold read_axiom. eapply always_bind; [apply always_token|]. intros t _.
  eapply always_bind; [apply always_ok_or|]. intros form Hform.
  eapply always_bind; [apply always_open|]. intros _ _.
  eapply always_bind; [by apply reads_annotations|]. intros annotations Ha.
  destruct form as [[n shapes]|].
  - assert (exists k, (k, (n, shapes)) ∈ axiom_forms fuel names) as [k Hk].
    { unfold axiom_form in Hform. destruct (is_name _ _); [done|].
      destruct (named (token_value t) (axiom_forms fuel names)) as [f|] eqn:E; [|done]. injection Hform as ->.
      apply named_In in E as [k Hk%list_elem_of_In]. by exists k. }
    pose proof axiom_forms_fit as Hfit. rewrite Forall_forall in Hfit. destruct (Hfit _ Hk) as [(s & Hs & Hcat) Hf].
    eapply always_bind; [by apply reads_shapes|]. intros ps Hps.
    eapply always_bind; [apply always_close|]. intros _ _. apply always_ret. rewrite Forall_singleton.
    split; [constructor; [by eexists|by apply Hps; constructor]|]. unfold component_category. cbn [ctag]. by rewrite Hs.
  - eapply always_bind; [by apply reads_many, reads_class|]. intros cs Hcs.
    eapply always_bind; [apply always_close|]. intros _ _.
    eapply always_bind; [by apply (reads_at_least (fun _ => True))|]. intros _ _. apply always_ret.
    by apply disjoint_classes_shaped.
Qed.

(** ** Rules *)

Lemma reads_variable : always (fun c => shaped c /\ ctag c = 140) (read_variable names).
Proof.
  unfold read_variable. eapply always_bind; [apply always_keyword|]. intros _ _.
  eapply always_bind; [apply always_within; by apply reads_iri|]. intros c Hc. apply always_ret. split; [|done].
  constructor; [by eexists|]. constructor; [by apply conforms_role|constructor].
Qed.

Lemma reads_argument rule rule' r :
  always (in_role rule) r ->
  (forall c, accepts rule (component_meta c) = true -> accepts rule' (component_meta c) = true) ->
  (forall c, ctag c = 140 -> accepts rule' (component_meta c) = true) ->
  always (in_role rule') (read_argument names r).
Proof.
  intros Hr H1 H2. unfold read_argument. eapply always_bind; [apply always_test|]. intros [] _.
  - eapply always_mono; [apply reads_variable|]. intros c [Hc Ht]. split; [done|by apply H2].
  - eapply always_mono; [exact Hr|]. intros c [Hc Ha]. split; auto.
Qed.

Lemma reads_individual_argument : always (in_role RIndividualArgument) (read_argument names (read_individual names)).
Proof.
  apply (reads_argument RIndividual); [by apply reads_individual|..]; intros c; cbn [accepts component_meta tag].
  - by intros [->| ->]%orb_true_iff; rewrite ?orb_true_r.
  - intros ->. by rewrite !orb_true_r.
Qed.
Lemma reads_data_argument : always (in_role RDataArgument) (read_argument names (read_literal names)).
Proof.
  apply (reads_argument RLiteral); [by apply reads_literal|..]; intros c; cbn [accepts component_meta tag]; by intros ->.
Qed.
Hint Resolve reads_individual_argument reads_data_argument : always.

Lemma atom_forms_fit : Forall (form_fits RAtom []) (atom_forms fuel names).
Proof. unfold atom_forms. fits_table. Qed.

Lemma reads_atom : always (in_role RAtom) (read_atom fuel names).
Proof.
  unfold read_atom. eapply always_bind; [apply always_token|]. intros t _.
  eapply always_bind; [apply always_within; apply (reads_form RAtom []), atom_forms_fit|]. intros built Hb.
  apply always_ret. specialize (Hb [] ltac:(constructor)). by rewrite app_nil_r in Hb.
Qed.

Lemma reads_rule : always (of_category CSwrl) (read_rule fuel names).
Proof.
  unfold read_rule. eapply always_bind; [apply always_keyword|]. intros _ _. apply always_within.
  eapply always_bind; [by apply reads_annotations|]. intros annotations Ha.
  eapply always_bind; [apply always_within; by apply reads_set, reads_atom|]. intros body Hb.
  eapply always_bind; [apply always_within; by apply reads_set, reads_atom|]. intros head Hh. apply always_ret.
  split; [|done]. constructor; [by eexists|]. by repeat (constructor; [assumption|]).
Qed.
End Forms.

(** ** Documents *)

Definition optionally (P : component -> Prop) (o : option component) : Prop :=
  match o with Some c => P c | None => True end.

(** The rows of a document belong where they are listed; its text is UTF-8. *)
Record document_shaped (d : Document) : Prop := {
  shaped_ontology : optionally (of_category CIri) (doc_ontology d);
  shaped_version : optionally (of_category CIri) (doc_version d);
  shaped_imports : Forall (of_category CIri) (doc_imports d);
  shaped_annotations : Forall (fun c => of_category CAnnotation (fst c)) (doc_annotations d);
  shaped_axioms : Forall (fun c => of_category CAxiom (fst c)) (doc_axioms d);
  shaped_extensions : Forall (fun c => of_category CSwrl (fst c)) (doc_extensions d);
  shaped_prefixes : map_Forall (fun prefix base => is_utf8 prefix = true /\ is_utf8 base = true) (doc_prefixes d)
}.

Notation names_ok := (map_Forall (fun prefix base => is_utf8 prefix = true /\ is_utf8 base = true)).

Lemma iri_category c : in_role RIri c -> of_category CIri c.
Proof. intros [Hc Ha]. split; [done|]. cbn [accepts component_meta tag] in Ha. apply Z.eqb_eq in Ha. unfold component_category. by rewrite Ha. Qed.
Lemma annotation_category c : in_role RAnnotation c -> of_category CAnnotation c.
Proof. intros [Hc Ha]. split; [done|]. cbn [accepts component_meta tag] in Ha. apply Z.eqb_eq in Ha. unfold component_category. by rewrite Ha. Qed.

Lemma reads_prefix : always (fun e => is_utf8 (fst e) = true /\ is_utf8 (snd e) = true) read_prefix.
Proof.
  unfold read_prefix. eapply always_bind; [apply always_keyword|]. intros _ _. apply always_within.
  eapply always_bind; [apply always_token|]. intros t [Ht _].
  eapply always_bind; [apply always_ok_or|]. intros prefix Hp. walk. split; cbn [fst snd].
  - case_match eqn:E; [|done]. apply bool_decide_eq_true in E. injection Hp as <-.
    apply last_Some in E as [l E]. pose proof (token_utf8 _ Ht) as Hu. rewrite E in Hu |- *. rewrite removelast_last.
    by apply is_utf8_split in Hu as [? _].
  - match goal with H : unescape (token_value ?raw) = Some _, Hr : token_ok ?raw /\ _ |- _ =>
      exact (unescape_utf8 _ _ (token_utf8 _ (proj1 Hr)) H) end.
Qed.

Lemma reads_prefixes n : forall names, names_ok names -> always names_ok (read_prefixes n names).
Proof.
  induction n as [|n IH]; intros names Hn; cbn [read_prefixes];
    (eapply always_bind; [apply always_test|]; intros [] _; [|by apply always_ret]); [by apply always_lift|].
  eapply always_bind; [apply reads_prefix|]. intros e He. apply IH. by apply map_Forall_insert_2.
Qed.

Lemma reads_spanned {A} (P : A -> Prop) (r : Reader A) : always P r -> always (fun x => P (fst x)) (spanned_by r).
Proof.
  intros Hr. unfold spanned_by. eapply always_bind; [apply always_look|]. intros start _.
  eapply always_bind; [by apply (always_get (fun _ => True))|]. intros before _.
  eapply always_bind; [exact Hr|]. intros a Ha. eapply always_bind; [by apply (always_get (fun _ => True))|]. intros after _.
  eapply always_bind; [apply always_ok_or|]. intros end_ _. by apply always_ret.
Qed.

Section Members.
Context (fuel : nat) (allow_swrl : bool) (names : gmap bytes bytes).
Hypothesis names_utf8 : map_Forall (fun _ base => is_utf8 base = true) names.

Lemma reads_header_iri : always (optionally (of_category CIri)) (read_header_iri names).
Proof.
  unfold read_header_iri. eapply always_bind; [apply always_test|]. intros [] _; [|by apply always_ret].
  eapply always_bind; [by apply reads_iri|]. intros c Hc. by apply always_ret, iri_category.
Qed.

Lemma reads_header :
  always (fun h => optionally (of_category CIri) (fst h) /\ optionally (of_category CIri) (snd h)) (read_header names).
Proof.
  unfold read_header. eapply always_bind; [apply reads_header_iri|]. intros [c|] Hc; [|by apply always_ret].
  eapply always_bind; [apply reads_header_iri|]. intros version Hv. by apply always_ret.
Qed.

Lemma reads_member d : document_shaped d -> always document_shaped (read_member fuel allow_swrl names d).
Proof.
  intros [Ho Hv Hi Ha Hx He Hp]. unfold read_member. eapply always_bind; [apply always_look|]. intros t _.
  destruct (is_word "Import" t); [|destruct (is_word "Annotation" t); [|destruct (is_word "SWRLRule" t)]].
  - eapply always_bind; [apply always_next|]. intros _ _.
    eapply always_bind; [apply always_within; by apply reads_iri|]. intros c Hc. apply always_ret.
    constructor; try done. cbn. apply Forall_app. split; [done|]. rewrite Forall_singleton. by apply iri_category.
  - eapply always_bind; [apply reads_spanned; by apply reads_annotation|]. intros c Hc. apply always_ret.
    constructor; try done. cbn. apply Forall_app. split; [done|]. rewrite Forall_singleton. by apply annotation_category.
  - eapply always_bind; [apply always_ensure|]. intros _ _.
    eapply always_bind; [apply reads_spanned; by apply reads_rule|]. intros c Hc. apply always_ret.
    constructor; try done. cbn. apply Forall_app. split; [done|]. by rewrite Forall_singleton.
  - eapply always_bind; [apply reads_spanned; by apply reads_axiom|]. intros cs Hcs. apply always_ret.
    constructor; try done. cbn. apply Forall_app. split; [done|]. by apply Forall_map.
Qed.

Lemma reads_members n : forall d, document_shaped d -> always document_shaped (read_members fuel allow_swrl names n d).
Proof.
  induction n as [|n IH]; intros d Hd; cbn [read_members];
    (eapply always_bind; [apply always_test|]; intros [] _; [by apply always_ret|]); [by apply always_lift|].
  eapply always_bind; [by apply reads_member|]. intros d' Hd'. by apply IH.
Qed.
End Members.

Lemma initial_names_ok : names_ok initial_prefixes.
Proof.
  unfold initial_prefixes. cbn [list_to_map foldr].
  repeat (apply map_Forall_insert_2; [by split; vm_compute|]). apply map_Forall_empty.
Qed.

Lemma reads_document fuel allow_swrl : always document_shaped (read_document_fuel fuel allow_swrl).
Proof.
  unfold read_document_fuel. eapply always_bind; [apply reads_prefixes, initial_names_ok|]. intros names Hn.
  assert (map_Forall (fun _ base => is_utf8 base = true) names) as Hn' by (eapply map_Forall_impl; [exact Hn|]; by intros ? ? []).
  eapply always_bind; [apply always_keyword|]. intros _ _. eapply always_bind; [apply always_open|]. intros _ _.
  eapply always_bind; [by apply reads_header|]. intros header [Ho Hv].
  eapply always_bind; [apply reads_members; [done|]|]. { by constructor. }
  intros d Hd. walk. done.
Qed.

(** What a list of tokens denotes is shaped. *)
Lemma read_document_shaped allow_swrl ts d :
  Forall token_ok ts -> read_document allow_swrl ts = Ok d -> document_shaped d.
Proof.
  intros Hts H. unfold read_document in H. pose proof (reads_document (length ts) allow_swrl ts Hts) as Hr.
  unfold wpp in Hr. destruct (read_document_fuel _ _ ts) as [[d'|e|] ts']; try done. cbn in H. injection H as ->. by destruct Hr.
Qed.
