(* ===== verification/ParseFrame.v ===== *)
(** * The errors of the canonical scanner

    A refused row exceeds a limit, breaks a rule of the canonical form, or
    contradicts the ledger of the schema. *)

From S2P Require Import Prelude Bytes Order Error Machine Atomic Limits Cancel Session Source Varint Schema Lexical Scan Component ScanSound ScanComplete Encode Tokenizer Functional Utf8 Grammar ParseResult Denotes Parses ParsesDocument Shapes.

(** The consistency checks of the scanner. *)
Definition ledger_messages : list string :=
  ["canonical field ledger is incomplete"; "literal lexical ledger mismatch"; "literal datatype ledger mismatch";
   "literal datatype has no IRI"; "literal language ledger mismatch"; "IRI field ledger mismatch";
   "entity kind ledger mismatch"; "entity IRI ledger mismatch"; "inverse property ledger mismatch";
   "HasKey ledger mismatch"; "SWRL rule ledger mismatch"]%string.

Inductive scan_error : NativeError -> Prop :=
  | scan_error_limit name observed allowed m : scan_error (scan_limit name observed allowed m)
  | scan_error_overflow m : scan_error (limit m)
  | scan_error_corrupt m : scan_error (corrupt m)
  | scan_error_ledger m : In m ledger_messages -> scan_error (protocol m).

(** One goal per error, and each is one of the four. *)
Ltac refused := repeat first
  [ lazymatch goal with
    | |- ofails_with _ (_ ≫= _) => apply ofails_bind; [|intros ?]
    | |- ofails_with _ (ok_or _ _) => apply ofails_ok_or
    | |- ofails_with _ (or_panic ?o) => by destruct o
    | |- ofails_with ?P (fail_if ?c ?e) => apply (ofails_fail_if P c e)
    | |- ofails_with _ (mret _) => exact I
    | |- ofails_with _ (Ok _) => exact I
    | |- ofails_with _ Panic => exact I
    | |- ofails_with ?P (Err ?e) => change (P e)
    | |- ofails_with _ (ofor_each _ _ _) => apply ofails_for_each; intros ? ?
    | |- ofails_with _ (if ?c then _ else _) => destruct c
    | |- ofails_with _ (match ?o with _ => _ end) => destruct o
    | |- ofails_with _ ((match ?o with _ => _ end) _) => destruct o
    | |- fails_with _ ((match ?o with _ => _ end) _) => destruct o
    | |- fails_with _ (for_range _ _ _ _) => apply fails_for_range; intros ? ?
    | |- scan_error (scan_limit _ _ _ _) => constructor
    | |- scan_error (limit _) => constructor
    | |- scan_error (corrupt _) => constructor
    | |- scan_error (protocol _) => constructor; cbn; tauto
    end
  | fstep
  | match goal with |- fails_with _ (lift _) => apply fails_lift end ].

Lemma bounded_loop_errors n : forall data start cursor value shift,
  ofails_with scan_error (bounded_loop n data start cursor value shift).
Proof. induction n as [|n IH]; intros; cbn [bounded_loop]; unfold index_at; refused; try apply IH. Qed.
Lemma any_loop_errors n : forall data start cursor, ofails_with scan_error (any_loop n data start cursor).
Proof. induction n as [|n IH]; intros; cbn [any_loop]; unfold index_at; refused; try apply IH. Qed.
Lemma percent_loop_errors n : forall data index, ofails_with scan_error (percent_loop n data index).
Proof. induction n as [|n IH]; intros; cbn [percent_loop]; unfold index_at; refused; try apply IH. Qed.

Lemma frame_errors data offset end_ : ofails_with scan_error (scan_frame data offset end_).
Proof. unfold scan_frame, scan_bounded_varint. refused. apply bounded_loop_errors. Qed.

Lemma iri_errors value : ofails_with scan_error (validate_iri value).
Proof. unfold validate_iri, invalid_scheme, chars, index_at, index_range. refused. apply percent_loop_errors. Qed.

Lemma scalar_errors rule marker data offset end_ : ofails_with scan_error (scan_scalar rule marker data offset end_).
Proof.
  unfold scan_scalar. destruct rule; refused; try apply frame_errors. apply any_loop_errors.
Qed.

Lemma local_errors meta values b : ofails_with scan_error (validate_local meta values b).
Proof.
  unfold validate_local, validate_literal, required_value, as_text, as_node, as_kind, as_collection. refused.
  apply iri_errors.
Qed.

Section Nodes.
Context (data : bytes) (target : option Z) (child : Z -> Z -> Z -> M ScanState (NodeMeta * Z)).
Hypothesis child_errors : forall start frame_end depth, fails_with scan_error (child start frame_end depth).

Lemma nested_errors start frame_end depth : fails_with scan_error (scan_nested child start frame_end depth).
Proof. unfold scan_nested. refused. apply child_errors. Qed.

Lemma field_errors node_tag end_ depth index loop :
  fails_with scan_error (scan_field data child node_tag end_ depth index loop).
Proof.
  unfold scan_field, scan_node_field, scan_set_field, scan_sequence_field, check_arity, scan_set_member, scan_sequence_member,
    scan_bounded_varint, usize_sub, index_at. refused.
  all: first [apply scalar_errors|apply frame_errors|apply nested_errors|apply bounded_loop_errors].
Qed.

Lemma body_errors offset end_ depth : fails_with scan_error (scan_node_body data target child offset end_ depth).
Proof.
  unfold scan_node_body, enter, mark_found, scan_bounded_varint. refused.
  all: first [apply field_errors|apply local_errors|apply bounded_loop_errors].
Qed.
End Nodes.

Lemma node_errors fuel : forall data target offset end_ depth,
  fails_with scan_error (scan_node fuel data target offset end_ depth).
Proof. induction fuel as [|fuel IH]; intros; cbn [scan_node]; [by intros s|]. apply body_errors, IH. Qed.

(** What the scanner reports when it refuses a row. *)
Lemma scan_errors data : fails_with scan_error (scan_canonical data).
Proof. unfold scan_canonical, scan_canonical_observing, scan_row. refused. apply node_errors. Qed.

(** * The frame of a parsed document

    [document_frame] lists the bytes that stand for a document.  The size ledger
    of the code counts them exactly, the encoder writes them, and the validation
    accepts a document when its rows are canonical, one after the other within
    the limits. *)

(** ** The specification *)

Definition optional_bytes (row : option bytes) : bytes :=
  match row with Some row => 1 :: frame row | None => [0] end.
(** A number of items, and the items. *)
Definition counted_bytes {A} (write : A -> bytes) (items : list A) : bytes :=
  to_le_bytes 8 (len items) ++ concat (map write items).
Definition spanned_bytes (item : bytes * Span) : bytes := span_bytes (snd item) ++ frame (fst item).
Definition prefix_bytes (entry : bytes * bytes) : bytes := frame (fst entry) ++ frame (snd entry).

(** The frame of the rows of a result. *)
Definition frame_bytes (codepoints : Z) (ontology version : option bytes) (imports : list bytes)
    (annotations axioms extensions : list (bytes * Span)) (prefixes : list (bytes * bytes)) : bytes :=
  RESULT_MAGIC ++ to_le_bytes 2 RESULT_SCHEMA ++ to_le_bytes 2 FORMAT_FUNCTIONAL ++ to_le_bytes 8 codepoints
    ++ optional_bytes ontology ++ optional_bytes version ++ counted_bytes frame imports
    ++ counted_bytes spanned_bytes annotations ++ counted_bytes spanned_bytes axioms
    ++ counted_bytes spanned_bytes extensions ++ counted_bytes prefix_bytes prefixes.

Definition row_and_span (item : SpannedNode) : bytes * Span := (node_encoded (spanned item), span item).
Definition result_bytes (p : ParsedDocument) : bytes :=
  frame_bytes (decoded_codepoints p) (node_encoded <$> ontology_iri p) (node_encoded <$> version_iri p)
    (map node_encoded (imports p)) (map row_and_span (annotations p)) (map row_and_span (axioms p))
    (map row_and_span (extensions p)) (document_prefixes p).

(** The frame of a document whose source has [count] characters. *)
Definition encode_spanned_component (item : component * Span) : bytes * Span := (encode (fst item), snd item).
Definition document_frame (count : Z) (d : Document) : bytes :=
  frame_bytes count (encode <$> doc_ontology d) (encode <$> doc_version d) (map encode (doc_imports d))
    (map encode_spanned_component (doc_annotations d)) (map encode_spanned_component (doc_axioms d))
    (map encode_spanned_component (doc_extensions d)) (into_entries (doc_prefixes d)).

(** ** The encoder writes it *)

Lemma wp_encode_count message n w (Q : bytes -> World -> Prop) :
  Q (to_le_bytes 8 n) w -> wp (encode_count message n) Q w.
Proof.
  intros HQ. unfold encode_count. step. step. step. unfold try_from in *. case_match; simplify_eq. by step.
Qed.

Lemma wp_encode_optional o w (Q : bytes -> World -> Prop) :
  (forall w', Q (optional_bytes (node_encoded <$> o)) w') -> wp (encode_optional o) Q w.
Proof.
  intros HQ. unfold encode_optional. destruct o as [n|]; [|by step]. step. apply wp_encode_frame. intros w'. step. apply HQ.
Qed.

(** A loop that appends to its output. *)
Lemma wp_appending {A} (body : A -> bytes -> M World bytes) (write : A -> bytes) items :
  (forall x acc w, wp (body x acc) (fun out _ => out = acc ++ write x) w) ->
  forall acc w, wp (for_each body items acc) (fun out _ => out = acc ++ concat (map write items)) w.
Proof.
  intros Hb. induction items as [|x items IH]; intros acc w; cbn [for_each map concat].
  - step. by rewrite app_nil_r.
  - step. eapply wp_mono; [apply Hb|]. intros out w' ->. eapply wp_mono; [apply IH|].
    intros out w'' ->. by rewrite <- app_assoc.
Qed.

Lemma wp_counted {A B} (body : A -> bytes -> M World bytes) (write : B -> bytes) (f : A -> B) items message w
    (Q : bytes -> World -> Prop) :
  (forall x acc w, wp (body x acc) (fun out _ => out = acc ++ write (f x)) w) ->
  (forall w', Q (counted_bytes write (map f items)) w') ->
  wp (count ← encode_count message (len items); for_each body items count) Q w.
Proof.
  intros Hb HQ. step. apply wp_encode_count. eapply wp_mono; [by apply (wp_appending body (fun x => write (f x)))|].
  intros out w' ->. rewrite <- (map_map f write). specialize (HQ w'). unfold counted_bytes in HQ. by rewrite length_map in HQ.
Qed.

Lemma wp_encode_nodes ns w (Q : bytes -> World -> Prop) :
  (forall w', Q (counted_bytes frame (map node_encoded ns)) w') -> wp (encode_nodes ns) Q w.
Proof.
  apply wp_counted. intros n acc w'. step. apply wp_encode_frame. intros w''. by step.
Qed.
Lemma wp_encode_spanned ns w (Q : bytes -> World -> Prop) :
  (forall w', Q (counted_bytes spanned_bytes (map row_and_span ns)) w') -> wp (encode_spanned ns) Q w.
Proof.
  apply wp_counted. intros n acc w'. step. apply wp_encode_frame. intros w''. by step.
Qed.
Lemma wp_encode_prefixes entries w (Q : bytes -> World -> Prop) :
  (forall w', Q (counted_bytes prefix_bytes entries) w') -> wp (encode_prefixes entries) Q w.
Proof.
  intros HQ. apply (wp_counted _ prefix_bytes id); [|by rewrite map_id].
  intros [prefix iri] acc w'. step. apply wp_encode_frame. intros w1. step. apply wp_encode_frame. intros w2. by step.
Qed.

Lemma wp_encode_document p w (Q : bytes -> World -> Prop) :
  (forall w', Q (result_bytes p) w') -> wp (encode_document p) Q w.
Proof.
  intros HQ. unfold encode_document.
  step. apply wp_encode_optional. intros w1. step. apply wp_encode_optional. intros w2.
  step. apply wp_encode_nodes. intros w3. do 3 (step; apply wp_encode_spanned; intros ?).
  step. apply wp_encode_prefixes. intros w7. step. apply HQ.
Qed.

(** ** The size ledger *)

Lemma owp_size_add a b (Q : Z -> Prop) : (a + b <= USIZE_MAX -> Q (a + b)) -> owp (size_add a b) Q.
Proof. intros HQ. unfold size_add, checked_add. case_match; [|done]. bool_to_prop. cbn. auto. Qed.

Lemma varint_size_exact n : forall v size, 0 <= v < 128 ^ (Z.of_nat n + 1) ->
  varint_size_loop n v size = Ok (size - 1 + len (varint v)).
Proof.
  induction n as [|n IH]; intros v size Hv; cbn [varint_size_loop]; (destruct (Z.leb_spec 0x80 v) as [H|H];
    [|rewrite varint_small by lia; cbn [length]; f_equal; lia]); [lia|].
  rewrite varint_large by lia. cbn [length]. rewrite Z.shiftr_div_pow2 by lia. change (2 ^ 7) with 128.
  rewrite IH; [f_equal; lia|]. split; [apply Z.div_pos; lia|]. apply Z.div_lt_upper_bound; [lia|].
  replace (Z.of_nat (S n) + 1) with (Z.succ (Z.of_nat n + 1)) in Hv by lia. rewrite Z.pow_succ_r in Hv by lia. lia.
Qed.

Lemma owp_add_frame size x (Q : Z -> Prop) :
  len x <= USIZE_MAX -> (Q (size + len (frame x))) -> owp (add_frame size (len x)) Q.
Proof.
  intros Hx HQ. unfold add_frame, frame_size, varint_size.
  rewrite varint_size_exact by (unfold USIZE_MAX, U64_MAX in Hx; cbn; lia). do 3 step.
  apply owp_size_add. intros _. cbn beta. apply owp_size_add. intros _. rewrite length_frame in HQ.
  by replace (1 - 1 + len (varint (len x)) + len x) with (len (varint (len x)) + len x) by lia.
Qed.

(** A ledger loop over items whose lengths fit. *)
Lemma owp_ledger {A} (body : A -> Z -> outcome Z) (write : A -> bytes) items (P : A -> Prop) :
  (forall x size (Q : Z -> Prop), P x -> Q (size + len (write x)) -> owp (body x size) Q) ->
  Forall P items -> forall size (Q : Z -> Prop),
  Q (size + len (concat (map write items))) -> owp (ofor_each body items size) Q.
Proof.
  intros Hb. induction 1 as [|x items Hx _ IH]; intros size Q HQ; cbn [ofor_each map concat] in *.
  - step. cbn [length] in HQ. by rewrite Z.add_0_r in HQ.
  - step. apply Hb; [done|]. apply IH. rewrite length_app in HQ.
    by replace (size + len (write x) + len (concat (map write items))) with
      (size + Z.of_nat (length (write x) + length (concat (map write items)))) by lia.
Qed.

Definition fits_usize (x : bytes) : Prop := len x <= USIZE_MAX.

Lemma length_counted {A} (write : A -> bytes) items :
  len (counted_bytes write items) = 8 + len (concat (map write items)).
Proof. unfold counted_bytes. rewrite length_app, length_to_le_bytes. lia. Qed.

Lemma owp_optional_size o size (Q : Z -> Prop) :
  (forall n, o = Some n -> fits_usize (node_encoded n)) ->
  Q (size + len (optional_bytes (node_encoded <$> o))) -> owp (optional_size o size) Q.
Proof.
  intros Hf HQ. unfold optional_size. step. apply owp_size_add. intros _. destruct o as [n|]; [|by step].
  apply owp_add_frame; [by apply Hf|]. cbn [optional_bytes fmap option_fmap option_map length] in HQ.
  by replace (size + 1 + len (frame (node_encoded n))) with (size + Z.of_nat (S (length (frame (node_encoded n))))) by lia.
Qed.

Lemma owp_spanned_size ns size (Q : Z -> Prop) :
  Forall (fun n => fits_usize (node_encoded (spanned n))) ns ->
  Q (size + len (counted_bytes spanned_bytes (map row_and_span ns))) -> owp (spanned_size ns size) Q.
Proof.
  intros Hf HQ. unfold spanned_size. step. apply owp_size_add. intros _.
  apply (owp_ledger _ (fun n => spanned_bytes (row_and_span n)) ns
    (fun n => fits_usize (node_encoded (spanned n)))); [|exact Hf|].
  - intros n z R Hn HR. step. apply owp_size_add. intros _. apply owp_add_frame; [done|].
    unfold spanned_bytes, row_and_span, span_bytes in HR. cbn [fst snd] in HR.
    rewrite !length_app, !length_to_le_bytes in HR.
    by replace (z + 32 + len (frame (node_encoded (spanned n)))) with
      (z + Z.of_nat ((8 + (8 + (8 + 8))) + length (frame (node_encoded (spanned n))))) by lia.
  - rewrite length_counted, map_map in HQ.
    match goal with |- Q ?a => match type of HQ with Q ?b => replace a with b by lia end end. done.
Qed.

(** Every row and every prefix has a length. *)
Record rows_fit (p : ParsedDocument) : Prop := {
  fit_iris : Forall (fun n => fits_usize (node_encoded n)) (document_iris p);
  fit_annotations : Forall (fun n => fits_usize (node_encoded (spanned n))) (annotations p);
  fit_axioms : Forall (fun n => fits_usize (node_encoded (spanned n))) (axioms p);
  fit_extensions : Forall (fun n => fits_usize (node_encoded (spanned n))) (extensions p);
  fit_prefixes : Forall (fun e => fits_usize (fst e) /\ fits_usize (snd e)) (document_prefixes p)
}.

Lemma encoded_size_exact p : rows_fit p -> owp (encoded_size p) (fun n => n = len (result_bytes p)).
Proof.
  intros [Hi Ha Hx He Hp]. unfold encoded_size.
  pose proof (Forall_app (fun n => fits_usize (node_encoded n)) (option_list (ontology_iri p)) (option_list (version_iri p) ++ imports p)) as [H _].
  destruct (H Hi) as [Ho H']. apply Forall_app in H' as [Hv Him]. clear H.
  step. apply owp_optional_size; [intros n E; rewrite E in Ho; by inversion Ho|].
  step. apply owp_optional_size; [intros n E; rewrite E in Hv; by inversion Hv|].
  step. apply owp_size_add. intros _. step.
  apply (owp_ledger _ (fun n => frame (node_encoded n)) (imports p)
    (fun n => fits_usize (node_encoded n))); [|exact Him|].
  { intros n z R Hn HR. by apply owp_add_frame. }
  do 3 (step; apply owp_spanned_size; [done|]). step. apply owp_size_add. intros _.
  apply (owp_ledger _ prefix_bytes (document_prefixes p)
    (fun e => fits_usize (fst e) /\ fits_usize (snd e))); [|exact Hp|].
  { intros [prefix iri] z R [H1 H2] HR. cbn [fst snd] in *. step. apply owp_add_frame; [done|]. apply owp_add_frame; [done|].
    unfold prefix_bytes in HR. cbn [fst snd] in HR. rewrite length_app, Nat2Z.inj_add in HR. by rewrite <- Z.add_assoc. }
  unfold result_bytes, frame_bytes. rewrite !length_app, !length_to_le_bytes, !Nat2Z.inj_add, !length_counted, (map_map node_encoded frame).
  change (len RESULT_MAGIC) with 8. lia.
Qed.

(** ** Validation *)

(** Canonical rows, one after the other: the terms of all of them are counted together. *)
Fixpoint rows_canonical (b : ScanBudget) (rows : list bytes) : Prop :=
  match rows with
  | [] => True
  | row :: rows => exists c, canonical_row b row c /\ rows_canonical (with_terms b (terms b + size c)) rows
  end.

(** The two messages by which the encoder would report a defect of its own. *)
Definition self_check (e : NativeError) : Prop :=
  e = protocol "native parser produced an invalid result partition" \/
  e = protocol "native parser result size ledger diverged".

(** Why a document is not encoded: a limit, or a row that breaks a rule of the model. *)
Definition encoding_refusal (e : NativeError) : Prop :=
  (operational e \/ code e = code syntax) /\ ~ self_check e.

Lemma scan_error_refusal e :
  scan_error e ->
  encoding_refusal (if String.eqb (code e) "NATIVE_WIRE_CORRUPTION"
    then new "NATIVE_FORMAT_SYNTAX" "native Functional Syntax value violates the structural model" else e).
Proof.
  intros He. unfold encoding_refusal, self_check. destruct He as [name o a m|m|m|m Hm]; cbn.
  1-3: split; [tauto|by intros [?|?]].
  split; [left; unfold operational; cbn; tauto|]. cbn in Hm.
  repeat destruct Hm as [<-|Hm]; try done; by intros [?|?].
Qed.

(** A node whose row is that of a shaped component of the category. *)
Definition row_of (category : Category) (n : Node) : Prop :=
  exists c, node_encoded n = encode c /\ of_category category c.

Record budget_open (b : ScanBudget) : Prop := {
  open_ok : scan_budget_ok b;
  open_terms : terms b <= scan_max_terms b;
  open_work : scan_max_canonical_work b <= U64_MAX
}.

Lemma canonical_row_fits b row c : budget_open b -> canonical_row b row c -> fits_usize row.
Proof. intros [_ _ Hw] [_ _ Hl _]. unfold fits_usize. ulia. Qed.

Lemma scan_oversized row b : USIZE_MAX < len row -> scan_canonical row b = (Err (limit "canonical model row size exceeds u64"), b).
Proof.
  intros H. unfold scan_canonical, scan_canonical_observing, try_from.
  by rewrite (proj2 (Z.leb_gt (len row) U64_MAX)) by ulia.
Qed.

Lemma wpx_validate_category category n b :
  budget_open b -> row_of category n ->
  wpx (validate_category category n)
    (fun _ b' => exists c, canonical_row b (node_encoded n) c /\ b' = with_terms b (terms b + size c))
    (fun e _ => encoding_refusal e /\ ~ exists c, canonical_row b (node_encoded n) c) b.
Proof.
  intros Hb (c & Ec & Hc & Hcat). pose proof Hb as [Hok Ht Hw]. unfold wpx, validate_category.
  destruct (decide (len (node_encoded n) <= USIZE_MAX)) as [Hl|Hl].
  2: { rewrite scan_oversized by lia. split; [apply (scan_error_refusal (limit _)); constructor|].
       intros (d & Hd). by apply Hl, (canonical_row_fits b _ d). }
  destruct (scan_canonical_decides (node_encoded n) None b) as [Hp Hd]; [rewrite Ec; by apply shaped_bytes|done..|].
  pose proof (scan_errors (node_encoded n) b) as He.
  assert (scan_canonical (node_encoded n) b = ('(category, _) ← scan_canonical_observing (node_encoded n) None; mret category) b) as E by done.
  unfold mbind, M_bind in E. rewrite E in He |- *. clear E.
  destruct (scan_canonical_observing (node_encoded n) None b) as [[[found f]|e|] b'] eqn:Eo; cbn [fst mret M_ret] in *; [| |done].
  - destruct (proj1 (Hd _ _) eq_refl) as (d & Hrow & Hr & ->). injection Hr as -> _.
    assert (component_category d = category) as ->.
    { rewrite <- Hcat. unfold component_category. pose proof (row_encoding _ _ _ Hrow) as E. rewrite Ec in E.
      destruct c as [t ps], d as [t' ps']. cbn [encode ctag] in *. inversion Hc as [? ? [s Hs] _]; subst.
      destruct (row_well_formed _ _ _ Hrow) as (s' & Hs' & _). cbn [ctag] in Hs'.
      pose proof (spec_range _ _ Hs). pose proof (spec_range _ _ Hs').
      by apply varint_app_inj in E as [-> _]; [|lia..]. }
    rewrite bool_decide_eq_true_2 by done. cbn. by exists d.
  - split; [by apply scan_error_refusal|]. intros (d & Hrow).
    assert ((Err e, b') = (Ok (component_category d, tag_found None d), with_terms b (terms b + size d))) as [=]
      by (apply Hd; by exists d).
Qed.

Lemma rows_canonical_app b rows rows' :
  rows_canonical b (rows ++ rows') -> rows_canonical b rows.
Proof. revert b. induction rows as [|row rows IH]; intros b; cbn; [done|]. intros (c & Hc & H). exists c. eauto. Qed.

Lemma budget_open_row b c row : budget_open b -> canonical_row b row c -> budget_open (with_terms b (terms b + size c)).
Proof.
  intros [[H1 H2 H3] Ht Hw] [_ _ _ Hr]. pose proof (size_pos c). constructor; [constructor|..]; cbn; lia || done.
Qed.

Lemma canonical_row_inj b row c d : canonical_row b row c -> canonical_row b row d -> d = c.
Proof.
  intros [Hc1 Hc2 _ _] [Hd1 Hd2 _ _]. apply (encode_inj b (S (Z.to_nat (max_depth b)))); [done|done|congruence].
Qed.

(** Validation of rows, in the order in which the code does it. *)
Lemma wpx_validate_nodes category ns : forall b,
  budget_open b -> Forall (row_of category) ns ->
  wpx (validate_nodes category ns)
    (fun _ b' => budget_open b' /\ forall rows, rows_canonical b (map node_encoded ns ++ rows) <-> rows_canonical b' rows)
    (fun e _ => encoding_refusal e /\ forall rows, ~ rows_canonical b (map node_encoded ns ++ rows)) b.
Proof.
  unfold validate_nodes. induction ns as [|n ns IH]; intros b Hb Hns; cbn [for_each map app].
  - xstep. done.
  - apply Forall_cons in Hns as [Hn Hns]. xstep. eapply wpx_mono; [by apply wpx_validate_category|..].
    + intros [] b' (c & Hc & ->).
      assert (forall rows, rows_canonical b (node_encoded n :: rows) <-> rows_canonical (with_terms b (terms b + size c)) rows) as Hrow.
      { intros rows. cbn [rows_canonical]. split; [|by exists c]. intros (d & Hd & H). by rewrite (canonical_row_inj _ _ _ _ Hc Hd) in H. }
      eapply wpx_mono; [apply IH; [by eapply budget_open_row|done]|..].
      * intros _ b' [Hb' H]. split; [done|]. intros rows. by rewrite Hrow, H.
      * intros e b' [He H]. split; [done|]. intros rows. by rewrite Hrow.
    + intros e b' [He H]. split; [done|]. intros rows (c & Hc & _). apply H. by exists c.
Qed.

Definition result_rows (p : ParsedDocument) : list bytes :=
  map node_encoded (document_iris p ++ map spanned (annotations p) ++ map spanned (axioms p) ++ map spanned (extensions p)).

(** The rows of a result, in their parts. *)
Record partitioned (p : ParsedDocument) : Prop := {
  iris_are : Forall (row_of CIri) (document_iris p);
  annotations_are : Forall (row_of CAnnotation) (map spanned (annotations p));
  axioms_are : Forall (row_of CAxiom) (map spanned (axioms p));
  extensions_are : Forall (row_of CSwrl) (map spanned (extensions p))
}.

Lemma wpx_validate_rows p b :
  budget_open b -> partitioned p ->
  wpx (validate_rows p) (fun _ _ => rows_canonical b (result_rows p))
    (fun e _ => encoding_refusal e /\ ~ rows_canonical b (result_rows p)) b.
Proof.
  intros Hb [Hi Ha Hx He]. unfold validate_rows, result_rows. rewrite !map_app.
  xstep. eapply wpx_mono; [by apply wpx_validate_nodes| |by intros e b' [? H]].
  intros [] b1 [Hb1 H1]. xstep.
  eapply wpx_mono; [by apply wpx_validate_nodes| |intros e b' [? H]; split; [done|by rewrite H1]].
  intros [] b2 [Hb2 H2]. xstep.
  eapply wpx_mono; [by apply wpx_validate_nodes| |intros e b' [? H]; split; [done|by rewrite H1, H2]].
  intros [] b3 [Hb3 H3].
  rewrite <- (app_nil_r (map node_encoded (map spanned (extensions p)))).
  eapply wpx_mono; [by apply wpx_validate_nodes|..].
  - intros [] b4 [_ H4]. by rewrite H1, H2, H3, H4.
  - intros e b' [? H]. split; [done|]. by rewrite H1, H2, H3.
Qed.

(** ** The encoder *)

Lemma rows_canonical_fit b rows : budget_open b -> rows_canonical b rows -> Forall fits_usize rows.
Proof.
  revert b. induction rows as [|row rows IH]; intros b Hb; cbn [rows_canonical]; [constructor|]. intros (c & Hc & H).
  constructor; [by eapply canonical_row_fits|]. eapply IH; [by eapply budget_open_row|done].
Qed.

(** The retained size counts the prefixes. *)
Lemma owp_retained_size p :
  owp (retained_size p) (fun n => Forall (fun e => fits_usize (fst e) /\ fits_usize (snd e)) (document_prefixes p)).
Proof.
  unfold retained_size. step. eapply owp_mono; [|apply (owp_for_each _ (fun _ n => 0 <= n))].
  2: done.
  2: { intros y rest n Hn. apply owp_ok_or. unfold checked_add. intros a Ha. case_match; simplify_eq. lia. }
  intros n Hn. cbn beta in Hn. revert n Hn. induction (document_prefixes p) as [|[prefix iri] entries IH]; intros n Hn; cbn [ofor_each]; [by step|].
  step. step. apply owp_size_add. intros H1. apply owp_size_add. intros H2. eapply owp_mono; [|apply IH; lia].
  intros m Hm. constructor; [|done]. unfold fits_usize. cbn [fst snd]. lia.
Qed.

(** Limits that fit their machine words. *)
Record limits_ok (l : Limits) : Prop := {
  depth_limit : 0 <= max_nesting_depth l;
  terms_limit : 0 <= max_terms l <= U64_MAX;
  work_limit : max_canonical_work l <= U64_MAX
}.

Lemma limits_budget l : limits_ok l -> budget_open (from_limits l).
Proof. intros [Hd [Ht Ht'] Hw]. constructor; [by apply from_limits_ok|done|done]. Qed.

Definition encoded_rows (l : Limits) (p : ParsedDocument) : Prop := rows_canonical (from_limits l) (result_rows p).

(** Operations whose errors are operational, and are not those of the encoder's
    own checks. *)
Definition quiet_error (e : NativeError) : Prop := operational e /\ ~ self_check e.

Lemma quiet_refusal e : quiet_error e -> encoding_refusal e.
Proof. intros [? ?]. split; [by left|done]. Qed.
Lemma quiet_limit m : quiet_error (limit m).
Proof. split; [cbn; tauto|by intros [?|?]]. Qed.
Lemma quiet_memory maximum n m : quiet_error (memory_limit_error maximum n m).
Proof. split; [apply operational_memory|]. by destruct maximum; intros [?|?]. Qed.

Lemma quiet_reserve n : fails_with quiet_error (reserve_bytes n).
Proof.
  unfold reserve_bytes, allocation_checkpoint, reserve. repeat fstep; try apply quiet_memory; try apply quiet_limit; done.
Qed.
Lemma quiet_finish : fails_with quiet_error finish.
Proof.
  unfold finish, check, checkpoint, check_interrupt, check_deadline, load_cancelled, passed, check_signals, elapsed, now,
    modify_guard. repeat fstep; try done; (split; [cbn; tauto|by intros [?|?]]).
Qed.
Lemma quiet_retained p : ofails_with quiet_error (retained_size p).
Proof. unfold retained_size, size_add. refused; apply quiet_limit. Qed.
Lemma quiet_encoded p : ofails_with quiet_error (encoded_size p).
Proof.
  unfold encoded_size, optional_size, spanned_size, add_frame, frame_size, varint_size, size_add.
  assert (forall n v size, ofails_with quiet_error (varint_size_loop n v size)) as Hv.
  { induction n as [|n IH]; intros v size; cbn [varint_size_loop]; refused. apply IH. }
  refused; first [apply quiet_limit|apply Hv].
Qed.
Lemma quiet_document p : fails_with quiet_error (encode_document p).
Proof.
  unfold encode_document, encode_optional, encode_nodes, encode_spanned, encode_prefixes, encode_count, encode_frame.
  refused; try apply quiet_limit; apply fails_for_each; intros; refused; apply quiet_limit.
Qed.

Lemma wpx_fails {S A} (P : NativeError -> Prop) (m : M S A) (Q : A -> S -> Prop) s :
  wp m Q s -> fails_with P m -> wpx m Q (fun e _ => P e) s.
Proof. intros Hm Hf. eapply wpx_of_wpe; [by apply wpe_of_wp|done|done]. Qed.
Lemma wpx_lift_fails {S A} (P : NativeError -> Prop) (o : outcome A) (Q : A -> S -> Prop) s :
  owp o (fun a => Q a s) -> ofails_with P o -> wpx (lift o) Q (fun e _ => P e) s.
Proof. intros Ho Hf. apply wpx_fails; [by apply wp_lift|by apply fails_lift]. Qed.

Lemma owp_retained_nonneg p : owp (retained_size p) (fun n => 0 <= n).
Proof.
  unfold retained_size. step. eapply owp_mono; [|apply (owp_for_each _ (fun _ n => 0 <= n))].
  - intros n Hn. cbn beta in Hn. eapply owp_mono; [|apply (owp_for_each _ (fun _ n => 0 <= n)); [exact Hn|]]; [done|].
    intros [prefix iri] rest m Hm. step. apply owp_size_add. intros _. apply owp_size_add. intros _. lia.
  - done.
  - intros y rest n Hn. apply owp_ok_or. unfold checked_add. intros a Ha. case_match; simplify_eq. lia.
Qed.

(** What validation establishes. *)
Definition validated (l : Limits) (p : ParsedDocument) : Prop := encoded_rows l p /\ rows_fit p.

Lemma validated_fits l p :
  limits_ok l -> encoded_rows l p -> Forall (fun e => fits_usize (fst e) /\ fits_usize (snd e)) (document_prefixes p) ->
  rows_fit p.
Proof.
  intros Hl Hr Hp. pose proof (rows_canonical_fit _ _ (limits_budget _ Hl) Hr) as H. unfold result_rows in H.
  rewrite !map_app, !Forall_app, !map_map, !Forall_map in H. destruct H as (Hi & Ha & Hx & He). by constructor.
Qed.

(** Why an encoding fails: for want of resources, or for a row that is not canonical. *)
Definition encoding_failure (l : Limits) (p : ParsedDocument) (e : NativeError) : Prop :=
  quiet_error e \/ (encoding_refusal e /\ ~ encoded_rows l p).

Lemma wpx_validate_document p s :
  session_ok s -> limits_ok (limits s) -> partitioned p ->
  wpx (validate_document p) (fun _ s' => continues s s' /\ validated (limits s) p)
    (fun e _ => encoding_failure (limits s) p e) s.
Proof.
  intros Hs Hl Hp. unfold validate_document. xstep. xstep. xstep. apply wpx_lift.
  pose proof (wpx_validate_rows p (from_limits (limits s)) (limits_budget _ Hl) Hp) as H. unfold wpx in H.
  destruct (validate_rows p (from_limits (limits s))) as [[[]|e|] b']; cbn [fst]; [|by right|done].
  xstep. eapply wpx_mono.
  - apply (wpx_lift_fails quiet_error _ (fun n s' => s' = s /\ 0 <= n /\ rows_fit p)); [|apply quiet_retained].
    eapply owp_mono; [|apply owp_conj; [apply owp_retained_size|apply owp_retained_nonneg]]. intros n [Hpre Hn].
    split_and!; [done|done|by eapply validated_fits].
  - intros n s' (-> & Hn & Hfit). eapply wpx_mono.
    + apply (wpx_fails quiet_error _ (fun _ s' => continues s s')); [by apply wp_reserve_continues|apply quiet_reserve].
    + intros [] s' Hs'. done.
    + intros e s' He. by left.
  - intros e s' He. by left.
Qed.

(** [ParsedDocument::encode] writes the frame. *)
Lemma encode_writes p s :
  session_ok s -> limits_ok (limits s) -> partitioned p ->
  wpx (ParsedDocument_encode p)
    (fun out s' => session_ok s' /\ encoded_rows (limits s) p /\ out = result_bytes p /\ encoded_size p = Ok (len out))
    (fun e _ => encoding_failure (limits s) p e) s.
Proof.
  intros Hs Hl Hp. unfold ParsedDocument_encode. xstep.
  eapply wpx_mono; [by apply wpx_validate_document| |done]. intros [] s1 (Hs1 & Hrows & Hfit).
  xstep. eapply wpx_mono.
  { apply (wpx_lift_fails quiet_error _ (fun n s' => s' = s1 /\ n = len (result_bytes p) /\ encoded_size p = Ok n)); [|apply quiet_encoded].
    apply owp_eq. eapply owp_mono; [|by apply encoded_size_exact]. by intros n ->. }
  2: { intros e s' He. by left. }
  intros n s' (-> & -> & Hsize). xstep. apply wpx_lift. destruct (try_from U64_MAX _) as [observed|]; cbn [ok_or]; [|left; apply quiet_limit].
  xstep. xstep. xstep. apply wpx_ensure_not; intros Hm; [left; split; [cbn; tauto|by intros [?|?]]|].
  xstep. eapply wpx_mono; [apply (wpx_fails quiet_error _ (fun _ s' => continues s1 s')); [apply wp_reserve_continues; [lia|apply Hs1|done]|apply quiet_reserve]|..].
  2: { intros e s' He. by left. }
  intros [] s2 Hs2. xstep. eapply wpx_mono.
  { apply (wpx_fails quiet_error _ (fun _ s' => continues s2 s')); [apply wp_session_try_reserve; [apply Hs2|done]|].
    refused. apply quiet_limit. }
  2: { intros e s' He. by left. }
  intros [] s3 Hs3. xstep. eapply wpx_mono.
  { apply (wpx_fails quiet_error _ (fun out s' => continues s3 s' /\ out = result_bytes p)).
    - step. apply wp_encode_document. intros w'. split; [|done]. split; [destruct Hs3 as [[] _]; by constructor|done].
    - refused. apply quiet_document. }
  2: { intros e s' He. by left. }
  intros out s4 [Hs4 ->]. xstep. apply wpx_ensure_not; intros Hd; [|].
  { rewrite Z.eqb_refl in Hd. done. }
  xstep. eapply wpx_mono; [apply (wpx_fails quiet_error _ (fun _ s' => session_ok s')); [apply wp_session_finish; [apply Hs4|]; by intros s' []|apply quiet_finish]|..].
  2: { intros e s' He. by left. }
  intros [] s5 Hs5. by xstep.
Qed.
