(* ===== verification/ParseTheorems.v ===== *)
(** * What the parser of functional-syntax sources promises

    From the bytes of a source to the frame of its document: parsing denotes,
    the rows have the shape of the schema, and the frame is that of the
    denoted document. *)

From S2P Require Import Prelude Bytes Order Error Machine Atomic Limits Cancel Session Source Varint Schema Lexical Scan Component ScanSound ScanComplete Encode Tokenizer Functional Utf8 Grammar ParseResult Denotes Refines Parses ParsesDocument Lexemes TokenizerTheorems FunctionalTheorems Shapes ParseFrame.

(** ** Parsing *)

(** A possible answer to a source. *)
Definition answers (allow_swrl : bool) (data : bytes) (r : outcome ParsedDocument) : Prop :=
  match r with
  | Ok p => exists d, stands_for allow_swrl data p d
  | Err e => refusal allow_swrl data e
  | Panic => False
  end.

(** C6: [parse_functional] returns exactly the document that its source denotes:
    the prefixes, the header, and every annotation, axiom and rule with its
    span, in canonical form.  It refuses a source only as the reference
    grammar refuses it, because it is not UTF-8, or by the session: a limit, an
    interruption or a broken session protocol; and it never panics, whatever
    the bytes. *)
Theorem parse_functional_returns_the_denoted_document data allow_swrl collect s :
  session_ok s -> len data <= ISIZE_MAX ->
  answers allow_swrl data (fst (parse_functional data allow_swrl collect s)).
Proof.
  intros Hs Hl. pose proof (parse_functional_reads data allow_swrl collect s Hs Hl) as H. unfold wpx in H.
  destruct (parse_functional data allow_swrl collect s) as [[p|e|] s']; [by destruct H|exact H|done].
Qed.

(** An ontology with a nested class expression, an import, an annotation and a rule. *)
Definition sample_ontology : bytes :=
  str "Prefix(:=<urn:a#>) Ontology(<urn:o> Import(<urn:i>) Annotation(rdfs:label " ++ [34; 120; 34]
    ++ str "@en) SubClassOf(:A ObjectIntersectionOf(:C ObjectSomeValuesFrom(:p :B) :C)) # done" ++ [10]
    ++ str "SWRLRule(() (ClassAtom(:A Variable(<urn:v>)))))".

Lemma parse_functional_returns_the_denoted_document_witness :
  exists p d, fst (parse_functional sample_ontology true false sample_session) = Ok p /\
    stands_for true sample_ontology p d /\ length (axioms p) = 1%nat /\ length (extensions p) = 1%nat.
Proof.
  pose proof (parse_functional_returns_the_denoted_document sample_ontology true false sample_session sample_session_ok
    ltac:(vm_compute; discriminate)) as H.
  assert (match fst (parse_functional sample_ontology true false sample_session) with
          | Ok p => (length (axioms p) =? 1)%nat && (length (extensions p) =? 1)%nat | _ => false end = true) as Hn
    by (vm_compute; reflexivity).
  destruct (fst (parse_functional sample_ontology true false sample_session)) as [p|e|]; [|discriminate Hn..].
  apply andb_true_iff in Hn as [Ha%Nat.eqb_eq He%Nat.eqb_eq]. destruct H as [d Hd].
  exists p, d. split; [reflexivity|]. split; [exact Hd|]. split; [exact Ha|exact He].
Defined.

(** ** The shape of the rows *)

Lemma source_document_shaped allow_swrl data d :
  is_utf8 data = true -> len data <= ISIZE_MAX -> source_document allow_swrl (strip_bom data) = Ok d -> document_shaped d.
Proof.
  intros Hu Hl Hd. destruct (strip_bom_utf8 data Hu) as [Hu' Hl']. unfold source_document in Hd.
  destruct (source_tokens (strip_bom data)) as [ts|] eqn:Ets; [|done].
  destruct (source_tokens_ok _ ts Hu' ltac:(lia) Ets) as (Hok & _ & _). exact (read_document_shaped _ _ _ Hok Hd).
Qed.

Lemma denotes_row category n c : denotes n c -> of_category category c -> row_of category n.
Proof. intros Hn Hc. exists c. split; [by apply denotes_renders|done]. Qed.

Lemma spanned_rows category ns cs :
  Forall2 spanned_as ns cs -> Forall (fun c => of_category category (fst c)) cs ->
  Forall (row_of category) (map spanned ns).
Proof.
  intros H. induction H as [|n c ns cs [Hn _] _ IH]; [constructor|]. intros [Hc Hcs]%Forall_cons.
  constructor; [by eapply denotes_row|by apply IH].
Qed.

Lemma optional_rows o c : optional o c -> optionally (of_category CIri) c -> Forall (row_of CIri) (option_list o).
Proof. intros [n c' Hn|]; cbn; [|constructor]. intros Hc. constructor; [by eapply denotes_row|constructor]. Qed.

Lemma related_partitioned count p d : document_related count p d -> document_shaped d -> partitioned p.
Proof.
  intros [Ho Hv Hi Ha Hx He _ _] [So Sv Si Sa Sx Se _]. constructor; try by eapply spanned_rows.
  unfold document_iris. rewrite !Forall_app. split_and!; [by eapply optional_rows..|].
  clear -Hi Si. induction Hi as [|n c ns cs Hn _ IH]; [constructor|]. apply Forall_cons in Si as [Hc Hcs].
  constructor; [by eapply denotes_row|by apply IH].
Qed.

(** The rows of a result, if there is one, follow the schema. *)
Definition follows_schema (r : outcome ParsedDocument) : Prop :=
  match r with Ok p => partitioned p | _ => True end.

(** C34: Every row of a parsed document is the row of a component with the shape
    of the schema (known tag, every field present and in its role, sets
    ascending), and stands in the part of its category: IRIs in the header and
    the imports, annotations, axioms and rules where they are listed. *)
Theorem parsed_rows_follow_the_schema data allow_swrl collect s :
  session_ok s -> len data <= ISIZE_MAX -> follows_schema (fst (parse_functional data allow_swrl collect s)).
Proof.
  intros Hs Hl. pose proof (parse_functional_reads data allow_swrl collect s Hs Hl) as H. unfold wpx in H.
  destruct (parse_functional data allow_swrl collect s) as [[p|e|] s']; [|done..].
  destruct H as [_ (d & Hu & characters & _ & Hd & Hr)].
  eapply related_partitioned; [exact Hr|by eapply source_document_shaped].
Qed.

Lemma parsed_rows_follow_the_schema_witness :
  exists p, fst (parse_functional sample_ontology true false sample_session) = Ok p /\ partitioned p.
Proof.
  assert (match fst (parse_functional sample_ontology true false sample_session) with Ok _ => true | _ => false end = true) as Hn
    by (vm_compute; reflexivity).
  pose proof (parsed_rows_follow_the_schema sample_ontology true false sample_session sample_session_ok
    ltac:(vm_compute; discriminate)) as H.
  destruct (fst (parse_functional sample_ontology true false sample_session)) as [p|e|]; [|discriminate Hn..].
  exists p. split; [reflexivity|exact H].
Defined.

(** ** The frame *)

(** The rows of a document, in the order of their validation. *)
Definition document_rows (d : Document) : list component :=
  option_list (doc_ontology d) ++ option_list (doc_version d) ++ doc_imports d
    ++ map fst (doc_annotations d) ++ map fst (doc_axioms d) ++ map fst (doc_extensions d).

Lemma denote_all_rows ns cs : Forall2 denotes ns cs -> map node_encoded ns = map encode cs.
Proof. induction 1 as [|n c ns cs Hn _ IH]; [done|]. cbn. by rewrite (denotes_renders _ _ Hn), IH. Qed.

Lemma spanned_row_bytes ns cs : Forall2 spanned_as ns cs -> map row_and_span ns = map encode_spanned_component cs.
Proof.
  induction 1 as [|n c ns cs [Hn Hs] _ IH]; [done|]. cbn [map]. rewrite IH. f_equal.
  unfold row_and_span, encode_spanned_component. by rewrite (denotes_renders _ _ Hn), Hs.
Qed.

Lemma spanned_denote ns cs : Forall2 spanned_as ns cs -> Forall2 denotes (map spanned ns) (map fst cs).
Proof. induction 1 as [|n c ns cs [Hn _] _ IH]; by constructor. Qed.

Lemma optional_row o c : optional o c -> node_encoded <$> o = encode <$> c.
Proof. intros [n c' Hn|]; [|done]. cbn. by rewrite (denotes_renders _ _ Hn). Qed.

Lemma optional_denote o c : optional o c -> Forall2 denotes (option_list o) (option_list c).
Proof. intros []; by repeat constructor. Qed.

Lemma related_rows count p d : document_related count p d -> result_rows p = map encode (document_rows d).
Proof.
  intros []. apply denote_all_rows. unfold document_iris, document_rows. rewrite <- !app_assoc.
  repeat apply Forall2_app; by auto using optional_denote, spanned_denote.
Qed.

Lemma related_bytes count p d : document_related count p d -> result_bytes p = document_frame count d.
Proof.
  intros [Ho Hv Hi Ha Hx He Hp Hc]. unfold result_bytes, document_frame.
  by rewrite (optional_row _ _ Ho), (optional_row _ _ Hv), (denote_all_rows _ _ Hi), !(spanned_row_bytes _ _ Ha),
    (spanned_row_bytes _ _ Hx), (spanned_row_bytes _ _ He), Hp, Hc.
Qed.

(** A successful answer to a request: the frame of a document whose rows are
    canonical within the limits. *)
Definition framed (l : Limits) (request : SourceRequest) (out : bytes) : Prop :=
  is_utf8 (source request) = true /\
  exists characters d,
    utf8_chars (strip_bom (source request)) = Some characters /\
    source_document (allow_swrl request) (strip_bom (source request)) = Ok d /\
    rows_canonical (from_limits l) (map encode (document_rows d)) /\
    out = document_frame (len characters) d.

(** A document that the limits or the rules of the model exclude. *)
Definition excluded (l : Limits) (request : SourceRequest) (e : NativeError) : Prop :=
  encoding_refusal e /\
  exists d, source_document (allow_swrl request) (strip_bom (source request)) = Ok d /\
    ~ rows_canonical (from_limits l) (map encode (document_rows d)).

Lemma wpx_parse request s :
  session_ok s -> limits_ok (limits s) -> len (source request) <= ISIZE_MAX ->
  wpx (parse request) (fun out s' => session_ok s' /\ framed (limits s) request out)
    (fun e _ => refusal (allow_swrl request) (source request) e \/ excluded (limits s) request e) s.
Proof.
  intros Hs Hl Hlen. unfold parse. xstep.
  eapply wpx_mono; [by apply parse_functional_reads| |by left].
  intros p s1 ([Hs1 El] & d & Hu & characters & Hc & Hd & Hr).
  assert (partitioned p) as Hp by (eapply related_partitioned; [exact Hr|by eapply source_document_shaped]).
  eapply wpx_mono; [apply (encode_writes p s1 Hs1); [by rewrite El|done]|..]; rewrite El.
  - intros out s2 (Hs2 & Hrows & -> & _). unfold encoded_rows in Hrows. rewrite (related_rows _ _ _ Hr) in Hrows. split; [done|]. split; [done|]. exists characters, d.
    by rewrite (related_bytes _ _ _ Hr).
  - intros e s2 [[He _]|[He Hrows]]; unfold encoded_rows in *; [by left; left|right]. split; [done|]. exists d.
    by rewrite (related_rows _ _ _ Hr) in Hrows.
Qed.

(** C3: A request is answered by the frame of the document that its source
    denotes, all of whose rows are canonical within the limits of the session.
    It is refused by the session (a limit, an interruption or a broken session
    protocol), because the source denotes no document, or because a row of its
    document is not canonical, and it never panics. *)
Theorem parse_frames_the_denoted_document request s :
  session_ok s -> limits_ok (limits s) -> len (source request) <= ISIZE_MAX ->
  match fst (parse request s) with
  | Ok out => framed (limits s) request out
  | Err e => refusal (allow_swrl request) (source request) e \/ excluded (limits s) request e
  | Panic => False
  end.
Proof.
  intros Hs Hl Hlen. pose proof (wpx_parse request s Hs Hl Hlen) as H. unfold wpx in H.
  destruct (parse request s) as [[out|e|] s']; [by destruct H|exact H|done].
Qed.

Definition sample_request : SourceRequest := {| source := sample_ontology; allow_swrl := true |}.

Lemma default_limits_words_ok : limits_ok Limits_default.
Proof. constructor; [|split|]; vm_compute; discriminate. Qed.

Lemma parse_frames_the_denoted_document_witness :
  exists out, fst (parse sample_request sample_session) = Ok out /\ framed Limits_default sample_request out.
Proof.
  pose proof (parse_frames_the_denoted_document sample_request sample_session sample_session_ok default_limits_words_ok
    ltac:(vm_compute; discriminate)) as H.
  assert (match fst (parse sample_request sample_session) with Ok _ => true | _ => false end = true) as Hn by (vm_compute; reflexivity).
  destruct (fst (parse sample_request sample_session)) as [out|e|]; [|discriminate Hn..].
  exists out. split; [reflexivity|exact H].
Defined.

(** What the encoder may answer: a frame of the announced size, or an error that
    is not one of its own checks. *)
Definition checks_hold (p : ParsedDocument) (r : outcome bytes) : Prop :=
  match r with
  | Ok out => encoded_size p = Ok (len out)
  | Err e => ~ self_check e
  | Panic => False
  end.

(** C37: The encoder's own checks never fire: no row of a parsed document is in
    the wrong part, and the size computed in advance is the size of the frame
    that is written. *)
Theorem encoder_checks_never_fire data allow_swrl collect s p s1 :
  session_ok s -> limits_ok (limits s) -> len data <= ISIZE_MAX ->
  parse_functional data allow_swrl collect s = (Ok p, s1) -> checks_hold p (fst (ParsedDocument_encode p s1)).
Proof.
  intros Hs Hl Hlen E. pose proof (parse_functional_reads data allow_swrl collect s Hs Hlen) as H. unfold wpx in H.
  rewrite E in H. destruct H as [[Hs1 El] (d & Hu & characters & _ & Hd & Hr)].
  assert (partitioned p) as Hp by (eapply related_partitioned; [exact Hr|by eapply source_document_shaped]).
  pose proof (encode_writes p s1 Hs1 ltac:(by rewrite El) Hp) as H. unfold wpx in H.
  destruct (ParsedDocument_encode p s1) as [[out|e|] s2]; cbn [fst].
  - by destruct H as (_ & _ & -> & ?).
  - by destruct H as [[_ ?]|[[_ ?] _]].
  - done.
Qed.

Lemma encoder_checks_never_fire_witness :
  exists p s1 out, parse_functional sample_ontology true false sample_session = (Ok p, s1) /\
    fst (ParsedDocument_encode p s1) = Ok out /\ encoded_size p = Ok (len out).
Proof.
  assert (match parse_functional sample_ontology true false sample_session with
          | (Ok p, s1) => match fst (ParsedDocument_encode p s1) with Ok _ => true | _ => false end | _ => false end = true) as Hn
    by (vm_compute; reflexivity).
  destruct (parse_functional sample_ontology true false sample_session) as [[p|e|] s1] eqn:E; [|discriminate Hn..].
  pose proof (encoder_checks_never_fire sample_ontology true false sample_session p s1 sample_session_ok default_limits_words_ok
    ltac:(vm_compute; discriminate) E) as H.
  destruct (fst (ParsedDocument_encode p s1)) as [out|e|] eqn:Ee; [|discriminate Hn..].
  exists p, s1, out. split; [reflexivity|]. split; [exact Ee|exact H].
Defined.
