(* ===== verification/CanonicalTree.v ===== *)
(** * Canonical rows as trees ([native/src/parse/anonymous.rs])

    The scoping of anonymous individuals reads accepted rows into
    [CanonicalNode] trees, collects their provisional blank labels and writes
    the rows again with other identities.  Every allocation is charged to the
    session as temporary bytes; the sizes of the Rust types are those of a
    64-bit target. *)

From S2P Require Import Prelude Bytes Order Error Machine Limits Cancel Session Varint Schema Scan Encode.

(** ** Charged allocation *)

(** [cancellation.checkpoint()]; the flag is the one that the guard polls. *)
Definition cancellation_checkpoint : M Session unit := on_ctx (on_cancellation checkpoint).

(** [reserve_bytes] and [reserve_items::<T>] *)
Definition reserve_bytes (bytes : Z) : M Session unit := reserve_temporary_bytes bytes.
Definition reserve_items (size_of_T count : Z) : M Session unit :=
  bytes ← lift (ok_or (checked_mul USIZE_MAX count size_of_T)
                  (limit "native anonymous allocation accounting overflow"));
  reserve_bytes bytes.

(** [values.try_reserve(n)] and [values.try_reserve_exact(n)] *)
Definition allocate (message : string) : M Session unit := on_session_world (try_reserve message).

Definition usize_u64 (value : Z) (message : string) : outcome Z :=
  ok_or (try_from U64_MAX value) (limit message).
Definition checked_add_u64 (left right : Z) (message : string) : outcome Z :=
  left ← usize_u64 left message;
  right ← usize_u64 right message;
  ok_or (checked_add U64_MAX left right) (limit message).

(** [append_bytes], [append_varint], [append_frame]: the bytes appended; and
    [copy_bytes], [owned_text], [one_byte]. *)
Definition append_bytes (value : bytes) : M Session bytes :=
  reserve_bytes (len value);;
  allocate "native anonymous byte allocation failed";;
  mret value.

(** The digits of [append_varint]; [bytes[length]] panics after the tenth. *)
Fixpoint varint_bytes (n : nat) (value : Z) : outcome bytes :=
  match n with
  | O => Panic
  | S n =>
      let byte := Z.land value 0x7f in
      let value := Z.shiftr value 7 in
      if value =? 0 then Ok [byte]
      else digits ← varint_bytes n value; Ok (Z.lor byte 0x80 :: digits)
  end.
Definition append_varint (value : Z) : M Session bytes :=
  digits ← lift (varint_bytes 10 value); append_bytes digits.

Definition append_frame (value : bytes) : M Session bytes :=
  length_ ← lift (usize_u64 (len value) "native frame length exceeds u64");
  head ← append_varint length_;
  body ← append_bytes value;
  mret (head ++ body).

Definition copy_bytes (value : bytes) : M Session bytes :=
  reserve_bytes (len value);;
  allocate "native anonymous byte allocation failed";;
  mret value.
Definition owned_text (value : bytes) : M Session bytes :=
  reserve_bytes (len value);;
  allocate "native anonymous text allocation failed";;
  mret value.
Definition one_byte (value : Z) : M Session bytes :=
  reserve_bytes 1;;
  allocate "native anonymous byte allocation failed";;
  mret [value].

(** [output.push(value)] after [reserve_bytes(session, 1)] *)
Definition push_byte (value : Z) : M Session bytes := reserve_bytes 1;; mret [value].

(** ** Trees *)

Inductive CanonicalNode : Set :=
  mkCanonicalNode (tree_tag : Z) (original : bytes) (tree_fields : list CanonicalField)
    (contains_anonymous : bool)
with CanonicalField : Set :=
  | CNone
  | CNode (children : list CanonicalNode)
  | CScalar (marker : Z) (value : bytes)
  | CSet (values : list CanonicalNode)
  | CSequence (values : list CanonicalNode).

Definition tree_tag (n : CanonicalNode) : Z := let 'mkCanonicalNode t _ _ _ := n in t.
Definition original (n : CanonicalNode) : bytes := let 'mkCanonicalNode _ o _ _ := n in o.
Definition tree_fields (n : CanonicalNode) : list CanonicalField := let 'mkCanonicalNode _ _ f _ := n in f.
Definition contains_anonymous (n : CanonicalNode) : bool := let 'mkCanonicalNode _ _ _ c := n in c.

(** The identity of an anonymous individual; [OwnedIdentity] has the same fields. *)
Record Identity := mkIdentity { scope : bytes; key : bytes }.

(** ** Reading *)

(** The loop of [read_varint]; [n] is [bound - cursor]. *)
Fixpoint read_varint_loop (n : nat) (data : bytes) (start cursor value shift : Z) : outcome (Z * Z) :=
  match n with
  | O => Err (protocol "native anonymous varint is truncated")
  | S n =>
      byte ← index_at data cursor;
      let cursor := cursor + 1 in
      let payload := Z.land byte 0x7f in
      fail_if ((10 <? cursor - start) || ((shift =? 63) && (1 <? payload)))
        (protocol "native anonymous varint is too large");;
      shifted ← (if shift <? 64 then Ok (Z.land (Z.shiftl payload shift) U64_MAX) else Panic);
      let value := Z.lor value shifted in
      if Z.land byte 0x80 =? 0 then
        fail_if ((1 <? cursor - start) && (byte =? 0)) (protocol "native anonymous varint is nonminimal");;
        mret (value, cursor)
      else read_varint_loop n data start cursor value (shift + 7)
  end.
Definition read_varint (data : bytes) (offset bound : Z) : outcome (Z * Z) :=
  read_varint_loop (Z.to_nat (bound - offset)) data offset offset 0 0.

(** The loop of [read_any_varint]. *)
Fixpoint read_any_loop (n : nat) (data : bytes) (start cursor : Z) : outcome Z :=
  match n with
  | O => Err (protocol "native anonymous integer is truncated")
  | S n =>
      byte ← index_at data cursor;
      let cursor := cursor + 1 in
      if Z.land byte 0x80 =? 0 then
        fail_if ((1 <? cursor - start) && (byte =? 0)) (protocol "native anonymous integer is nonminimal");;
        mret cursor
      else
        fail_if (142858 <=? cursor - start) (protocol "native anonymous integer is unreasonably long");;
        read_any_loop n data start cursor
  end.
Definition read_any_varint (data : bytes) (offset bound : Z) : outcome Z :=
  read_any_loop (Z.to_nat (bound - offset)) data offset offset.

(** [read_frame] *)
Definition read_frame (data : bytes) (offset bound : Z) : outcome (Z * Z) :=
  '(length_, start) ← read_varint data offset bound;
  length_ ← ok_or (try_from USIZE_MAX length_) (protocol "native anonymous frame exceeds usize");
  end_ ← ok_or (end_ ← checked_add USIZE_MAX start length_;
                if (end_ <=? bound) && (end_ <=? len data) then Some end_ else None)
           (protocol "native anonymous frame is truncated");
  mret (start, end_).

(** What the loops of [parse_node] carry: the offset, the number of terms, and
    whether an anonymous individual was seen. *)
Record Progress := mkProgress { at_ : Z; seen_terms : Z; anonymous_seen : bool }.
Definition move_to (offset : Z) (p : Progress) : Progress :=
  {| at_ := offset; seen_terms := seen_terms p; anonymous_seen := anonymous_seen p |}.

Section ParseNode.
(** The recursive call: start, bound, depth and terms. *)
Context (recur : Z -> Z -> Z -> Z -> M Session (CanonicalNode * Z * Z)).
Context (data : bytes) (limits : Limits).

(** A framed child, with the message for a frame that is not used up. *)
Definition parse_child (bound depth : Z) (message : string) (p : Progress)
    : M Session (CanonicalNode * Progress) :=
  '(frame_start, frame_end) ← lift (read_frame data (at_ p) bound);
  '(child, consumed, terms) ← recur frame_start frame_end (saturating_add U32_MAX depth 1) (seen_terms p);
  ensure_not (negb (consumed =? frame_end)) (protocol message);;
  mret (child, {| at_ := frame_end; seen_terms := terms;
                  anonymous_seen := anonymous_seen p || contains_anonymous child |}).

(** The members of a set or sequence. *)
Definition parse_members (bound depth count : Z) (item_marker : bool) (message : string) (p : Progress)
    : M Session (list CanonicalNode * Progress) :=
  for_range (fun _ '(values, p) =>
      p ← (if item_marker then
             ensure_not (negb (bool_decide (get_at data (at_ p) = Some 1)))
               (protocol "native anonymous sequence item marker is invalid");;
             mret (move_to (at_ p + 1) p)
           else mret p);
      '(child, p) ← parse_child bound depth message p;
      mret (values ++ [child], p)) 0 (Z.to_nat count) ([], p).

(** One round of the field loop. *)
Definition parse_field (bound depth : Z) (p : Progress) : M Session (CanonicalField * Progress) :=
  marker ← lift (ok_or (if at_ p <? bound then get_at data (at_ p) else None)
                   (protocol "native anonymous field is truncated"));
  let p := move_to (at_ p + 1) p in
  if marker =? 0 then mret (CNone, p)
  else if marker =? 1 then
    '(child, p) ← parse_child bound depth "native anonymous child frame is invalid" p;
    reserve_items 56 1;;
    allocate "native anonymous child allocation failed";;
    mret (CNode [child], p)
  else if (marker =? 2) || (marker =? 3) || (marker =? 5) then
    '(frame_start, frame_end) ← lift (read_frame data (at_ p) bound);
    value ← lift (index_range data frame_start frame_end);
    mret (CScalar marker value, move_to frame_end p)
  else if marker =? 4 then
    after ← lift (read_any_varint data (at_ p) bound);
    value ← lift (index_range data (at_ p) after);
    mret (CScalar marker value, move_to after p)
  else if (marker =? 6) || (marker =? 7) then
    '(count, after) ← lift (read_varint data (at_ p) bound);
    count ← lift (ok_or (try_from USIZE_MAX count)
                    (limit (if marker =? 6 then "native anonymous set exceeds usize"
                            else "native anonymous sequence exceeds usize")));
    reserve_items 56 count;;
    allocate (if marker =? 6 then "native anonymous set allocation failed"
              else "native anonymous sequence allocation failed");;
    '(values, p) ← parse_members bound depth count (marker =? 7)
                     (if marker =? 6 then "native anonymous set frame is invalid"
                      else "native anonymous sequence frame is invalid") (move_to after p);
    mret ((if marker =? 6 then CSet values else CSequence values), p)
  else throw (protocol "native anonymous field marker is invalid").

(** The body of [parse_node]. *)
Definition parse_node_body (start bound depth terms : Z) : M Session (CanonicalNode * Z * Z) :=
  cancellation_checkpoint;;
  terms ← lift (ok_or (checked_add U64_MAX terms 1) (limit "native anonymous term count overflow"));
  ensure_not (max_terms limits <? terms)
    (Limits_resource_limit limits MaxTerms terms "native anonymous canonical scan exceeds max_terms");;
  let maximum_depth := Z.min (max_nesting_depth limits) 1024 in
  ensure_not (maximum_depth <? depth)
    (resource_limit "max_nesting_depth" (NativeNumber_integer depth) (NativeNumber_integer maximum_depth)
       "native anonymous canonical scan exceeds max_nesting_depth");;
  '(tag, offset) ← lift (read_varint data start bound);
  tag ← lift (ok_or (try_from U16_MAX tag) (protocol "canonical tag exceeds u16"));
  field_count ← lift (ok_or (canonical_field_count tag)
                        (protocol "native anonymous canonical tag is unknown"));
  reserve_items 32 field_count;;
  allocate "native anonymous field allocation failed";;
  '(fields, p) ← for_range (fun _ '(fields, p) =>
      '(field, p) ← parse_field bound depth p;
      mret (fields ++ [field], p)) 0 (Z.to_nat field_count)
    ([], {| at_ := offset; seen_terms := terms; anonymous_seen := tag =? 3 |});
  original ← lift (ok_or (get_range data start (at_ p)) (protocol "native anonymous node is truncated"));
  mret (mkCanonicalNode tag original fields (anonymous_seen p), at_ p, seen_terms p).
End ParseNode.

(** [parse_node]: nesting is bounded by the depth check. *)
Fixpoint parse_node (fuel : nat) (data : bytes) (limits : Limits) (start bound depth terms : Z)
    : M Session (CanonicalNode * Z * Z) :=
  match fuel with
  | O => lift Panic
  | S fuel => parse_node_body (parse_node fuel data limits) data limits start bound depth terms
  end.

Definition parse_fuel (limits : Limits) : nat := S (S (Z.to_nat (Z.min (max_nesting_depth limits) 1024))).

(** [parse_root] *)
Definition parse_root (row : bytes) (limits : Limits) : M Session CanonicalNode :=
  '(node, consumed, _) ← parse_node (parse_fuel limits) row limits 0 (len row) 0 0;
  ensure_not (negb (consumed =? len row))
    (protocol "native anonymous canonical row has trailing bytes");;
  mret node.

(** ** Identities and labels *)

(** [anonymous_identity] *)
Definition anonymous_identity (n : CanonicalNode) : outcome Identity :=
  match tree_fields n with
  | [CScalar m1 scope; CScalar m2 key] =>
      if (m1 =? 3) && (m2 =? 3) && (len scope =? 32) && negb (bytes_eqb key []) then
        Ok {| scope := scope; key := key |}
      else Err (protocol "native anonymous identity has invalid canonical fields")
  | _ => Err (protocol "native anonymous identity has invalid canonical fields")
  end.

(** [key.starts_with(prefix)] *)
Definition starts_with (l prefix : bytes) : bool := bytes_eqb (take (length prefix) l) prefix.

(** [provisional_label] *)
Definition provisional_label (identity : Identity) : outcome (option bytes) :=
  if negb (bytes_eqb (scope identity) PROVISIONAL_SCOPE) || negb (starts_with (key identity) LEXICAL_KEY)
  then Ok None
  else
    payload ← index_range (key identity) (len LEXICAL_KEY) (len (key identity));
    '(length_, offset) ← read_varint payload 0 (len payload);
    length_ ← ok_or (try_from USIZE_MAX length_) (protocol "native blank label length exceeds usize");
    end_ ← ok_or (end_ ← checked_add USIZE_MAX offset length_;
                  if end_ =? len payload then Some end_ else None)
             (protocol "native blank label frame is invalid");
    label ← index_range payload offset end_;
    if is_utf8 label then Ok (Some label) else Err (protocol "native blank label is not UTF-8").

(** [collect_labels]: the labels pushed. *)
Fixpoint collect_labels (n : CanonicalNode) (labels : list bytes) {struct n} : M Session (list bytes) :=
  match n with
  | mkCanonicalNode tag _ fields _ =>
    if tag =? 3 then
      identity ← lift (anonymous_identity n);
      label ← lift (provisional_label identity);
      match label with
      | Some label =>
          reserve_items 16 1;;
          allocate "native blank label allocation failed";;
          mret (labels ++ [label])
      | None => mret labels
      end
    else for_each collect_field fields labels
  end
with collect_field (field : CanonicalField) (labels : list bytes) {struct field} : M Session (list bytes) :=
  match field with
  | CNode values =>
      match values with
      | [value] => collect_labels value labels
      | _ => throw (protocol "native anonymous child field has invalid cardinality")
      end
  | CSet values | CSequence values => for_each collect_labels values labels
  | CNone | CScalar _ _ => mret labels
  end.

(** ** Writing with other identities *)

(** [encode_anonymous] *)
Definition encode_anonymous (scope key : bytes) : M Session bytes :=
  tag ← append_varint 3;
  m1 ← push_byte 3;
  scope ← append_frame scope;
  m2 ← push_byte 3;
  key ← append_frame key;
  mret (tag ++ m1 ++ scope ++ m2 ++ key).

(** Append the frames of the members. *)
Definition append_frames (members : list bytes) (output : bytes) : M Session bytes :=
  for_each (fun member output => framed ← append_frame member; mret (output ++ framed)) members output.

Section EncodeReplaced.
(** [replacement: Fn(Identity) -> NativeResult<Option<OwnedIdentity>>] *)
Context (replacement : Identity -> outcome (option Identity)).

(** [encode_replaced] *)
Fixpoint encode_replaced (n : CanonicalNode) {struct n} : M Session bytes :=
  match n with
  | mkCanonicalNode tag original fields anonymous =>
    if tag =? 3 then
      identity ← lift (anonymous_identity n);
      value ← lift (replacement identity);
      match value with
      | Some value => encode_anonymous (scope value) (key value)
      | None => copy_bytes original
      end
    else if negb anonymous then copy_bytes original
    else
      output ← append_varint tag;
      for_each (fun field output => encoded ← encode_replaced_field field; mret (output ++ encoded))
        fields output
  end
with encode_replaced_field (field : CanonicalField) {struct field} : M Session bytes :=
  match field with
  | CNone => push_byte 0
  | CNode values =>
      marker ← push_byte 1;
      match values with
      | [value] =>
          encoded ← encode_replaced value;
          framed ← append_frame encoded;
          mret (marker ++ framed)
      | _ => throw (protocol "native anonymous child field has invalid cardinality")
      end
  | CScalar marker value =>
      marker' ← push_byte marker;
      value ← (if marker =? 4 then append_bytes value else append_frame value);
      mret (marker' ++ value)
  | CSet values =>
      marker ← push_byte 6;
      reserve_items 24 (len values);;
      allocate "native scoped set allocation failed";;
      members ← for_each (fun value members =>
        encoded ← encode_replaced value; mret (members ++ [encoded])) values [];
      let members := vec_dedup (sort_by (fun m => m) members) in
      count ← lift (usize_u64 (len members) "set size exceeds u64");
      count ← append_varint count;
      append_frames members (marker ++ count)
  | CSequence values =>
      marker ← push_byte 7;
      count ← lift (usize_u64 (len values) "sequence size exceeds u64");
      count ← append_varint count;
      for_each (fun value output =>
        item ← push_byte 1;
        encoded ← encode_replaced value;
        framed ← append_frame encoded;
        mret (output ++ item ++ framed)) values (marker ++ count)
  end.

(** [encode_collections]; the three collections are a list of lists of rows. *)
Definition encode_collections (parsed : list (list CanonicalNode)) : M Session (list (list bytes)) :=
  for_each (fun source result =>
    reserve_items 24 (len source);;
    allocate "native scoped row allocation failed";;
    target ← for_each (fun node target =>
      encoded ← encode_replaced node; mret (target ++ [encoded])) source [];
    mret (result ++ [target])) parsed [].
End EncodeReplaced.
