(* ===== verification/AlphaOrder.v ===== *)
(** * The canonical order of one blank component ([native/src/parse/anonymous.rs])

    [alpha_order] colours the labels of a component by the digests of their
    neighbourhoods, refines the colours until the partition is stable, and
    picks among the orders that list the colour classes in the order of their
    colours one whose serialized graph is least.  Loops that end by their data
    recurse on a bound, running out of it being a [Panic]. *)

From S2P Require Import Prelude Bytes Order Hash Error Machine Limits Session CanonicalTree.

Definition BLANK_GRAPH_DOMAIN : bytes := str "pyowl-core:blank-graph:v2" ++ [0].
Definition BLANK_COLOR_DOMAIN : bytes := str "pyowl-core:blank-color:v2" ++ [0].

Record BlankArc := mkBlankArc {
  arc_source : Z;
  role : bytes;
  arc_target : option Z;
  arc_payload : Z
}.

Record AlphaResult := mkAlphaResult {
  order : list Z;
  graph : bytes;
  setup_work : Z;
  refinement_work : Z;
  candidate_order_work : Z;
  result_rounds : Z;
  permutations_examined : Z
}.

(** ** Signatures and colours *)

(** [neighbor_color] *)
Definition neighbor_color (target : Z) (colors : option (list bytes)) : M Session bytes :=
  match colors with
  | None => one_byte 66
  | Some colors =>
      color ← lift (ok_or (get_at colors target) (protocol "native blank neighbor color is missing"));
      reserve_bytes 33;;
      allocate "native blank color allocation failed";;
      mret (67 :: color)
  end.

Section Signatures.
Context (payloads : list bytes).

(** [arc_signature] *)
Definition arc_signature (label : Z) (arc : BlankArc) (colors : option (list bytes)) : M Session bytes :=
  '(direction, neighbor) ←
    (if arc_source arc =? label then
       neighbor ← match arc_target arc with
                  | None => one_byte 78
                  | Some target => if target =? label then one_byte 76 else neighbor_color target colors
                  end;
       mret (83, neighbor)
     else if bool_decide (arc_target arc = Some label) then
       neighbor ← neighbor_color (arc_source arc) colors; mret (84, neighbor)
     else throw (protocol "native blank arc does not contain its requested label"));
  payload ← lift (ok_or (get_at payloads (arc_payload arc)) (protocol "native blank arc payload is missing"));
  first ← push_byte direction;
  role ← append_frame (role arc);
  neighbor ← append_bytes neighbor;
  payload ← append_frame payload;
  mret (first ++ role ++ neighbor ++ payload).

(** [gathered[label].push(arc_signature(label, ..)?)] *)
Definition gather (label : Z) (arc : BlankArc) (colors : option (list bytes)) (gathered : list (list bytes))
    : M Session (list (list bytes)) :=
  reserve_items 24 1;;
  selected ← lift (index_at gathered label);
  allocate "native blank neighborhood allocation failed";;
  signature ← arc_signature label arc colors;
  mret (<[Z.to_nat label := selected ++ [signature]]> gathered).

(** [neighborhoods] *)
Definition neighborhoods (label_count : Z) (arcs : list BlankArc) (colors : option (list bytes))
    : M Session (list (list bytes)) :=
  reserve_items 24 label_count;;
  allocate "native blank neighborhood allocation failed";;
  gathered ← for_each (fun arc gathered =>
    cancellation_checkpoint;;
    gathered ← gather (arc_source arc) arc colors gathered;
    match arc_target arc with
    | Some target => if target =? arc_source arc then mret gathered else gather target arc colors gathered
    | None => mret gathered
    end) arcs (replicate (Z.to_nat label_count) []);
  mret (map (sort_by (fun value => value)) gathered).
End Signatures.

(** [colors_from_signatures] *)
Definition colors_from_signatures (signatures : list (list bytes)) : M Session (list bytes) :=
  reserve_items 32 (len signatures);;
  allocate "native blank color allocation failed";;
  for_each (fun signature result =>
    hasher ← for_each (fun item hasher => framed ← append_frame item; mret (update hasher framed))
               signature (update Sha256_new BLANK_COLOR_DOMAIN);
    mret (result ++ [Hash.finish hasher])) signatures [].

(** [values.windows(2).any(f)] *)
Fixpoint any_window {A} (f : A -> A -> bool) (values : list A) : bool :=
  match values with
  | x :: (y :: _) as rest => f x y || any_window f rest
  | _ => false
  end.

(** [same_partition] *)
Definition same_partition (first second : list bytes) : M Session bool :=
  if negb (len first =? len second) then mret false else
  reserve_items 64 (len first);;
  allocate "native blank partition allocation failed";;
  let pairs := sort_by (fun pair => pair) (zip first second) in
  if any_window (fun x y => bytes_eqb x.1 y.1 && negb (bytes_eqb x.2 y.2)) pairs then mret false else
  let pairs := sort_by (fun pair => (pair.2, pair.1)) pairs in
  mret (negb (any_window (fun x y => bytes_eqb x.2 y.2 && negb (bytes_eqb x.1 y.1)) pairs)).

(** The colour of a label; [colors[index]]. *)
Definition color_at (colors : list bytes) (index : Z) : bytes := default [] (get_at colors index).

(** [index] joins the last class or opens a new one. *)
Definition join_partition (colors : list bytes) (index : Z) (result : list (list Z)) : M Session (list (list Z)) :=
  color ← lift (index_at colors index);
  opens ← lift (match last result ≫= head with
                | Some first => first ← index_at colors first; Ok (negb (bytes_eqb first color))
                | None => Ok true
                end);
  let result := if opens : bool then result ++ [[]] else result in
  reserve_items 8 1;;
  selected ← lift (or_panic (last result));
  allocate "native blank partition allocation failed";;
  mret (<[pred (length result) := selected ++ [index]]> result).

(** [partitions] *)
Definition partitions (colors : list bytes) : M Session (list (list Z)) :=
  reserve_items 8 (len colors);;
  allocate "native blank partition allocation failed";;
  let indexes := sort_by (fun index => (color_at colors index, index)) (seqZ 0 (len colors)) in
  reserve_items 24 (len colors);;
  allocate "native blank partition allocation failed";;
  for_each (join_partition colors) indexes [].

(** [clone_partitions] *)
Definition clone_partitions (partitions : list (list Z)) : M Session (list (list Z)) :=
  reserve_items 24 (len partitions);;
  allocate "native blank partition clone allocation failed";;
  for_each (fun partition result =>
    reserve_items 8 (len partition);;
    allocate "native blank partition clone allocation failed";;
    mret (result ++ [partition])) partitions [].

(** ** Candidate orders *)

(** [permutation_count] *)
Definition permutation_count (partitions : list (list Z)) (maximum consumed : Z) (details : NativeLimitDetails)
    : outcome Z :=
  let remaining := Z.max 0 (maximum - consumed) in
  ofor_each (fun partition count =>
    ofor_range (fun factor count =>
      factor ← usize_u64 factor "native blank permutation factor exceeds u64";
      fail_if (remaining / factor <? count)
        (resource_limit_with_details "max_canonical_work" (NativeNumber_integer (saturating_add U64_MAX maximum 1))
           (NativeNumber_integer maximum) details
           "native anonymous canonicalization exceeds max_canonical_work");;
      or_panic (checked_mul U64_MAX count factor)) 2 (length partition - 1) count) partitions 1.

(** [(first..=last).rev().find(p)], with the range as a list. *)
Definition rfind (p : Z -> outcome bool) (range : list Z) : outcome (option Z) :=
  ofor_each (fun index found =>
    match found with
    | Some _ => Ok found
    | None => holds ← p index; Ok (if holds : bool then Some index else None)
    end) (rev range) None.

(** [next_permutation]: whether there is one, and the values. *)
Definition next_permutation (values : list Z) : outcome (bool * list Z) :=
  pivot ← rfind (fun index => before ← index_at values (index - 1); at_ ← index_at values index;
                              Ok (before <? at_)) (seqZ 1 (len values - 1));
  match pivot with
  | None => Ok (false, values)
  | Some pivot =>
      let pivot := pivot - 1 in
      first ← index_at values pivot;
      swap ← rfind (fun index => at_ ← index_at values index; Ok (first <? at_))
               (seqZ (pivot + 1) (len values - (pivot + 1)));
      swap ← or_panic swap;
      second ← index_at values swap;
      let values := <[Z.to_nat pivot := second]> (<[Z.to_nat swap := first]> values) in
      Ok (true, take (Z.to_nat (pivot + 1)) values ++ rev (drop (Z.to_nat (pivot + 1)) values))
  end.

(** [advance_partition_product], from the last class to the first. *)
Fixpoint advance_partition_product (partitions : list (list Z)) : outcome (bool * list (list Z)) :=
  match partitions with
  | [] => Ok (false, [])
  | partition :: partitions =>
      '(moved, partitions) ← advance_partition_product partitions;
      if moved : bool then Ok (true, partition :: partitions) else
      '(moved, partition) ← next_permutation partition;
      if moved : bool then Ok (true, partition :: partitions)
      else Ok (false, sort_by (fun index => index) partition :: partitions)
  end.

(** ** The serialized graph *)

Section Graph.
Context (arcs : list BlankArc) (payloads : list bytes).

(** [*indexes.get_mut(label)? = index] for the labels of an order. *)
Definition invert_order (message : string) (order : list Z) (indexes : list Z) : outcome (list Z) :=
  '(_, indexes) ← ofor_each (fun label '(index, indexes) =>
    _ ← ok_or (get_at indexes label) (protocol message);
    Ok (index + 1, <[Z.to_nat label := index]> indexes)) order (0, indexes);
  Ok indexes.

(** One member of the serialized graph. *)
Definition graph_member (indexes : list Z) (arc : BlankArc) : M Session bytes :=
  payload ← lift (ok_or (get_at payloads (arc_payload arc)) (protocol "native blank graph payload is missing"));
  source ← lift (index_at indexes (arc_source arc));
  source ← lift (usize_u64 source "blank index exceeds u64");
  source ← append_varint source;
  role ← append_frame (role arc);
  target ← match arc_target arc with
           | None => push_byte 0
           | Some target =>
               first ← push_byte 1;
               target ← lift (index_at indexes target);
               target ← lift (usize_u64 target "blank target index exceeds u64");
               target ← append_varint target;
               mret (first ++ target)
           end;
  payload ← append_frame payload;
  mret (source ++ role ++ target ++ payload).

(** [serialize_graph] *)
Definition serialize_graph (order : list Z) : M Session bytes :=
  reserve_items 8 (len order);;
  allocate "native blank index allocation failed";;
  indexes ← lift (invert_order "native blank order is invalid" order (replicate (length order) 0));
  reserve_items 24 (len arcs);;
  allocate "native blank graph allocation failed";;
  members ← for_each (fun arc members =>
    member ← graph_member indexes arc; mret (members ++ [member])) arcs [];
  let members := vec_dedup (sort_by (fun member => member) members) in
  graph ← append_bytes BLANK_GRAPH_DOMAIN;
  order_count ← lift (usize_u64 (len order) "blank order exceeds u64");
  order_count ← append_varint order_count;
  member_count ← lift (usize_u64 (len members) "blank graph exceeds u64");
  member_count ← append_varint member_count;
  append_frames members (graph ++ order_count ++ member_count).

(** The loop over the candidate orders. *)
Fixpoint candidate_loop (fuel : nat) (label_count : Z) (choices : list (list Z)) (best : option (bytes * list Z))
    : M Session (option (bytes * list Z)) :=
  match fuel with
  | O => lift Panic
  | S fuel =>
      cancellation_checkpoint;;
      reserve_items 8 label_count;;
      allocate "native blank order allocation failed";;
      let order := concat choices in
      graph ← serialize_graph order;
      let best := match best with
                  | Some (best_graph, _) => if bytes_ltb graph best_graph then Some (graph, order) else best
                  | None => Some (graph, order)
                  end in
      '(moved, choices) ← lift (advance_partition_product choices);
      if moved : bool then candidate_loop fuel label_count choices best else mret best
  end.

(** ** Refinement *)

(** [enforce_work] *)
Definition enforce_work (work : Z) (limits : Limits) (details : NativeLimitDetails) : outcome unit :=
  fail_if (max_canonical_work limits <? work)
    (resource_limit_with_details "max_canonical_work" (NativeNumber_integer work)
       (NativeNumber_integer (max_canonical_work limits)) details
       "native anonymous canonicalization exceeds max_canonical_work").

(** [NativeLimitDetails { refinement_rounds: Some(rounds), work_term: Some(term), ..details }] *)
Definition with_work (rounds : Z) (term : string) (details : NativeLimitDetails) : NativeLimitDetails :=
  {| component_count := component_count details;
     largest_component_labels := largest_component_labels details;
     largest_component_arcs := largest_component_arcs details;
     refinement_rounds := Some rounds; work_term := Some term |}.

Definition work_overflow : NativeError := limit "native blank work overflow".
Definition work_add (left right : Z) : outcome Z := ok_or (checked_add U64_MAX left right) work_overflow.
Definition work_mul (left right : Z) : outcome Z := ok_or (checked_mul U64_MAX left right) work_overflow.

(** [signature = color, then the neighbourhood] *)
Definition color_signature (color : bytes) (neighborhood : list bytes) : M Session (list bytes) :=
  reserve_items 24 (saturating_add USIZE_MAX (len neighborhood) 1);;
  allocate "native blank signature allocation failed";;
  color ← copy_bytes color;
  mret (color :: neighborhood).

(** One round: the refined colours. *)
Definition refine_colors (label_count : Z) (colors : list bytes) : M Session (list bytes) :=
  neighborhoods ← neighborhoods payloads label_count arcs (Some colors);
  reserve_items 24 label_count;;
  allocate "native blank signature allocation failed";;
  signatures ← for_each (fun '(color, neighborhood) signatures =>
    signature ← color_signature color neighborhood; mret (signatures ++ [signature]))
    (zip colors neighborhoods) [];
  colors_from_signatures signatures.

(** The refinement loop: the stable colours, the number of rounds and the work. *)
Fixpoint refinement_loop (fuel : nat) (limits : Limits) (details : NativeLimitDetails)
    (label_count arc_count : Z) (colors : list bytes) (rounds work : Z) : M Session (list bytes * Z * Z) :=
  match fuel with
  | O => lift Panic
  | S fuel =>
      cancellation_checkpoint;;
      rounds ← lift (ok_or (checked_add USIZE_MAX rounds 1) (limit "native blank refinement overflow"));
      refined ← refine_colors label_count colors;
      twice_labels ← lift (work_mul label_count 2);
      twice_arcs ← lift (work_mul arc_count 2);
      round_work ← lift (work_add twice_labels twice_arcs);
      work ← lift (work_add work round_work);
      reported ← lift (usize_u64 rounds "native blank refinement rounds exceed u64");
      lift (enforce_work work limits (with_work reported "refinement" details));;
      same ← same_partition colors refined;
      if same : bool then mret (refined, rounds, work) else
      ensure_not (saturating_add USIZE_MAX label_count 1 <? rounds)
        (protocol "native blank-node partition refinement did not converge");;
      refinement_loop fuel limits details label_count arc_count refined rounds work
  end.

(** More rounds than labels, plus two, are refused. *)
Definition refinement_fuel (label_count : Z) : nat := S (S (Z.to_nat label_count)).

(** [alpha_order] *)
Definition alpha_order (label_count : Z) (limits : Limits) (details : NativeLimitDetails)
    : M Session AlphaResult :=
  terms ← lift (checked_add_u64 label_count (len arcs) "native blank term count overflow");
  ensure_not (max_terms limits <? terms)
    (resource_limit "max_terms" (NativeNumber_integer terms) (NativeNumber_integer (max_terms limits))
       "native anonymous canonicalization exceeds max_terms");;
  label_count ← lift (usize_u64 label_count "native blank label count exceeds u64");
  arc_count ← lift (usize_u64 (len arcs) "native blank arc count exceeds u64");
  twice_arcs ← lift (work_mul arc_count 2);
  setup_work ← lift (work_add label_count twice_arcs);
  lift (enforce_work setup_work limits (with_work 0 "setup" details));;
  signatures ← neighborhoods payloads label_count arcs None;
  colors ← colors_from_signatures signatures;
  '(colors, rounds, work) ←
    refinement_loop (refinement_fuel label_count) limits details label_count arc_count colors 0 setup_work;
  classes ← partitions colors;
  rounds ← lift (usize_u64 rounds "native blank refinement rounds exceed u64");
  let candidate_details := with_work rounds "candidate_orders" details in
  candidates ← lift (permutation_count classes (max_canonical_work limits) work candidate_details);
  unit_ ← lift (work_add label_count arc_count);
  candidate_order_work ← lift (work_mul candidates (Z.max unit_ 1));
  final_work ← lift (work_add work candidate_order_work);
  lift (enforce_work final_work limits candidate_details);;
  choices ← clone_partitions classes;
  best ← candidate_loop (Z.to_nat candidates) label_count choices None;
  '(graph, order) ← lift (ok_or best (protocol "native blank canonicalization produced no candidate"));
  refinement_work ← lift (ok_or (if setup_work <=? work then Some (work - setup_work) else None)
                            (protocol "native blank work accounting regressed"));
  mret {| order := order; graph := graph; setup_work := setup_work; refinement_work := refinement_work;
          candidate_order_work := candidate_order_work; result_rounds := rounds;
          permutations_examined := candidates |}.
End Graph.
