(* ===== verification/BlankGraph.v ===== *)
(** * The blank graph of a document ([native/src/parse/anonymous.rs])

    Every root contributes its skeleton and, for each occurrence of a blank
    label, the path through named fields that leads to it; the arcs of the
    graph are the occurrences and their pairs.  The graph splits into connected
    components, each of which [alpha_order] orders on its own. *)

From S2P Require Import Prelude Bytes Order Hash Error Machine Limits Session Decimal Codec CanonicalTree AlphaOrder.

(** ** Names *)

Definition constructor_ledger (tag : Z) : outcome (bytes * list bytes) :=
  match tag with
  | 1 => Ok (str "IRI", [str "value"])
  | 2 => Ok (str "Entity", [str "kind"; str "iri"])
  | 3 => Ok (str "AnonymousIndividual", [str "document_scope"; str "local_key"])
  | 4 => Ok (str "Literal", [str "lexical_form"; str "datatype"; str "language"])
  | 5 => Ok (str "Annotation", [str "property"; str "value"; str "annotations"])
  | 10 => Ok (str "ObjectInverseOf", [str "property"])
  | 11 => Ok (str "ObjectPropertyChain", [str "properties"])
  | 20 => Ok (str "FacetRestriction", [str "facet"; str "value"])
  | 21 => Ok (str "DataIntersectionOf", [str "operands"])
  | 22 => Ok (str "DataUnionOf", [str "operands"])
  | 23 => Ok (str "DataComplementOf", [str "operand"])
  | 24 => Ok (str "DataOneOf", [str "values"])
  | 25 => Ok (str "DatatypeRestriction", [str "datatype"; str "restrictions"])
  | 30 => Ok (str "ObjectIntersectionOf", [str "operands"])
  | 31 => Ok (str "ObjectUnionOf", [str "operands"])
  | 32 => Ok (str "ObjectComplementOf", [str "operand"])
  | 33 => Ok (str "ObjectOneOf", [str "individuals"])
  | 34 => Ok (str "ObjectSomeValuesFrom", [str "property"; str "filler"])
  | 35 => Ok (str "ObjectAllValuesFrom", [str "property"; str "filler"])
  | 36 => Ok (str "ObjectHasValue", [str "property"; str "value"])
  | 37 => Ok (str "ObjectHasSelf", [str "property"])
  | 38 => Ok (str "ObjectMinCardinality", [str "cardinality"; str "property"; str "filler"])
  | 39 => Ok (str "ObjectMaxCardinality", [str "cardinality"; str "property"; str "filler"])
  | 40 => Ok (str "ObjectExactCardinality", [str "cardinality"; str "property"; str "filler"])
  | 41 => Ok (str "DataSomeValuesFrom", [str "properties"; str "filler"])
  | 42 => Ok (str "DataAllValuesFrom", [str "properties"; str "filler"])
  | 43 => Ok (str "DataHasValue", [str "property"; str "value"])
  | 44 => Ok (str "DataMinCardinality", [str "cardinality"; str "property"; str "filler"])
  | 45 => Ok (str "DataMaxCardinality", [str "cardinality"; str "property"; str "filler"])
  | 46 => Ok (str "DataExactCardinality", [str "cardinality"; str "property"; str "filler"])
  | 60 => Ok (str "Declaration", [str "entity"; str "annotations"])
  | 61 => Ok (str "SubClassOf", [str "sub_class"; str "super_class"; str "annotations"])
  | 62 => Ok (str "EquivalentClasses", [str "expressions"; str "annotations"])
  | 63 => Ok (str "DisjointClasses", [str "expressions"; str "annotations"])
  | 64 => Ok (str "DisjointUnion", [str "defined_class"; str "expressions"; str "annotations"])
  | 70 => Ok (str "SubObjectPropertyOf", [str "sub_property"; str "super_property"; str "annotations"])
  | 71 => Ok (str "EquivalentObjectProperties", [str "properties"; str "annotations"])
  | 72 => Ok (str "DisjointObjectProperties", [str "properties"; str "annotations"])
  | 73 => Ok (str "InverseObjectProperties", [str "first"; str "second"; str "annotations"])
  | 74 => Ok (str "ObjectPropertyDomain", [str "property"; str "domain"; str "annotations"])
  | 75 => Ok (str "ObjectPropertyRange", [str "property"; str "range"; str "annotations"])
  | 76 => Ok (str "FunctionalObjectProperty", [str "property"; str "annotations"])
  | 77 => Ok (str "InverseFunctionalObjectProperty", [str "property"; str "annotations"])
  | 78 => Ok (str "ReflexiveObjectProperty", [str "property"; str "annotations"])
  | 79 => Ok (str "IrreflexiveObjectProperty", [str "property"; str "annotations"])
  | 80 => Ok (str "SymmetricObjectProperty", [str "property"; str "annotations"])
  | 81 => Ok (str "AsymmetricObjectProperty", [str "property"; str "annotations"])
  | 82 => Ok (str "TransitiveObjectProperty", [str "property"; str "annotations"])
  | 90 => Ok (str "SubDataPropertyOf", [str "sub_property"; str "super_property"; str "annotations"])
  | 91 => Ok (str "EquivalentDataProperties", [str "properties"; str "annotations"])
  | 92 => Ok (str "DisjointDataProperties", [str "properties"; str "annotations"])
  | 93 => Ok (str "DataPropertyDomain", [str "property"; str "domain"; str "annotations"])
  | 94 => Ok (str "DataPropertyRange", [str "property"; str "range"; str "annotations"])
  | 95 => Ok (str "FunctionalDataProperty", [str "property"; str "annotations"])
  | 100 => Ok (str "DatatypeDefinition", [str "datatype"; str "data_range"; str "annotations"])
  | 101 => Ok (str "HasKey", [str "class_expression"; str "object_properties"; str "data_properties"; str "annotations"])
  | 110 => Ok (str "SameIndividual", [str "individuals"; str "annotations"])
  | 111 => Ok (str "DifferentIndividuals", [str "individuals"; str "annotations"])
  | 112 => Ok (str "ClassAssertion", [str "class_expression"; str "individual"; str "annotations"])
  | 113 => Ok (str "ObjectPropertyAssertion", [str "property"; str "source"; str "target"; str "annotations"])
  | 114 => Ok (str "NegativeObjectPropertyAssertion", [str "property"; str "source"; str "target"; str "annotations"])
  | 115 => Ok (str "DataPropertyAssertion", [str "property"; str "source"; str "value"; str "annotations"])
  | 116 => Ok (str "NegativeDataPropertyAssertion", [str "property"; str "source"; str "value"; str "annotations"])
  | 120 => Ok (str "AnnotationAssertion", [str "property"; str "subject"; str "value"; str "annotations"])
  | 121 => Ok (str "SubAnnotationPropertyOf", [str "sub_property"; str "super_property"; str "annotations"])
  | 122 => Ok (str "AnnotationPropertyDomain", [str "property"; str "domain"; str "annotations"])
  | 123 => Ok (str "AnnotationPropertyRange", [str "property"; str "range"; str "annotations"])
  | 140 => Ok (str "Variable", [str "iri"])
  | 141 => Ok (str "ClassAtom", [str "predicate"; str "argument"])
  | 142 => Ok (str "DataRangeAtom", [str "predicate"; str "argument"])
  | 143 => Ok (str "ObjectPropertyAtom", [str "predicate"; str "source"; str "target"])
  | 144 => Ok (str "DataPropertyAtom", [str "predicate"; str "source"; str "target"])
  | 145 => Ok (str "BuiltInAtom", [str "predicate"; str "arguments"])
  | 146 => Ok (str "SameIndividualAtom", [str "first"; str "second"])
  | 147 => Ok (str "DifferentIndividualsAtom", [str "first"; str "second"])
  | 148 => Ok (str "SWRLRule", [str "body"; str "head"; str "annotations"])
  | _ => Err (protocol "native anonymous constructor ledger is incomplete")
  end.

(** [format!("{byte:02x}")] for every byte. *)
Definition hex_bytes (data : bytes) : bytes := flat_map (fun b => [hex_digit (b / 16); hex_digit (b mod 16)]) data.

(** [joined_path], [full_hex], [set_marker], [decimal_index] *)
Definition joined_path (prefix suffix : bytes) : M Session bytes :=
  reserve_bytes (saturating_add USIZE_MAX (saturating_add USIZE_MAX (len prefix) (len suffix)) 1);;
  allocate "native blank path allocation failed";;
  mret (prefix ++ str "/" ++ suffix).
Definition full_hex (digest : bytes) : M Session bytes :=
  reserve_bytes 64;;
  allocate "native blank marker allocation failed";;
  mret (hex_bytes digest).
Definition set_marker (value : bytes) : M Session bytes :=
  reserve_bytes (saturating_add USIZE_MAX (len value) 4);;
  allocate "native blank set marker allocation failed";;
  mret (str "set:" ++ value).
Definition decimal_index (value : Z) : M Session bytes :=
  reserve_bytes 64;;
  allocate "native blank index allocation failed";;
  mret (decimal value).

(** ** Skeletons *)

(** [skeleton_node] and [skeleton_field] *)
Fixpoint skeleton_node (n : CanonicalNode) {struct n} : M Session bytes :=
  match n with
  | mkCanonicalNode tag original fields anonymous =>
    if tag =? 3 then one_byte 66
    else if negb anonymous then
      first ← push_byte 67;
      framed ← append_frame original;
      mret (first ++ framed)
    else
      first ← push_byte 78;
      tag ← append_varint tag;
      for_each (fun field result =>
        member ← skeleton_field field;
        framed ← append_frame member;
        mret (result ++ framed)) fields (first ++ tag)
  end
with skeleton_field (field : CanonicalField) {struct field} : M Session bytes :=
  match field with
  | CNone => one_byte 48
  | CNode values =>
      match values with
      | [value] => skeleton_node value
      | _ => throw (protocol "native anonymous child field has invalid cardinality")
      end
  | CScalar marker value =>
      if marker =? 4 then
        first ← push_byte 73;
        value ← append_bytes value;
        mret (first ++ value)
      else if (marker =? 2) || (marker =? 5) then
        first ← push_byte 84;
        value ← append_frame value;
        mret (first ++ value)
      else throw (protocol "native blank skeleton contains an unsupported scalar field")
  | CSet values =>
      reserve_items 24 (len values);;
      allocate "native blank skeleton allocation failed";;
      members ← for_each (fun value members =>
        member ← skeleton_node value; mret (members ++ [member])) values [];
      let members := sort_by (fun member => member) members in
      first ← push_byte 83;
      count ← lift (usize_u64 (len members) "set size exceeds u64");
      count ← append_varint count;
      append_frames members (first ++ count)
  | CSequence values =>
      first ← push_byte 81;
      count ← lift (usize_u64 (len values) "sequence size exceeds u64");
      count ← append_varint count;
      for_each (fun value result =>
        member ← skeleton_node value;
        framed ← append_frame member;
        mret (result ++ framed)) values (first ++ count)
  end.

(** ** Occurrences *)

(** [labels.binary_search(&label)], on labels in strictly ascending order. *)
Definition binary_search (labels : list bytes) (label : bytes) : option Z :=
  '(index, _) ← list_find (fun other => other = label) labels; Some (Z.of_nat index).

(** An occurrence: the index of the label, and the path. *)
Notation occurrence := (Z * bytes)%type.

Section Occurrences.
Context (labels : list bytes).

(** [blank_occurrences]: the occurrences pushed to [output].  The members of a
    set are visited in the order of their skeletons, and of their rows among
    equal skeletons. *)
Fixpoint blank_occurrences (n : CanonicalNode) (path : bytes) (output : list occurrence) {struct n}
    : M Session (list occurrence) :=
  match n with
  | mkCanonicalNode tag _ fields _ =>
    if tag =? 3 then
      identity ← lift (anonymous_identity n);
      label ← lift (provisional_label identity);
      match label with
      | Some label =>
          index ← lift (ok_or (binary_search labels label) (protocol "native blank occurrence label is missing"));
          reserve_items 32 1;;
          allocate "native blank occurrence allocation failed";;
          mret (output ++ [(index, path)])
      | None => mret output
      end
    else
      '(_, names) ← lift (constructor_ledger tag);
      ensure_not (negb (len names =? len fields))
        (protocol "native anonymous constructor field ledger diverges");;
      '(_, output) ← for_each (fun field '(names, output) =>
          name ← lift (or_panic (head names));
          output ← field_occurrences field name path output;
          mret (tail names, output)) fields (names, output);
      mret output
  end
with field_occurrences (field : CanonicalField) (name path : bytes) (output : list occurrence) {struct field}
    : M Session (list occurrence) :=
  match field with
  | CNode values =>
      field_path ← joined_path path name;
      match values with
      | [value] => blank_occurrences value field_path output
      | _ => throw (protocol "native anonymous child field has invalid cardinality")
      end
  | CSet values =>
      field_path ← joined_path path name;
      reserve_items 32 (len values);;
      allocate "native blank set ordering allocation failed";;
      grouped ← for_each (fun value grouped =>
        skeleton ← skeleton_node value;
        mret (grouped ++ [((skeleton, original value), blank_occurrences value)])) values [];
      for_each (fun '((skeleton, _), visit) output =>
        marker ← full_hex (sha256 skeleton);
        marker ← set_marker marker;
        member_path ← joined_path field_path marker;
        visit member_path output) (sort_by fst grouped) output
  | CSequence values =>
      field_path ← joined_path path name;
      '(_, output) ← for_each (fun value '(index, output) =>
          index_text ← decimal_index index;
          member_path ← joined_path field_path index_text;
          output ← blank_occurrences value member_path output;
          mret (index + 1, output)) values (0, output);
      mret output
  | CNone | CScalar _ _ => _ ← joined_path path name; mret output
  end.

(** ** Arcs *)

(** [source_path.len().saturating_add(target_path.len()).saturating_add(2)] *)
Definition pair_role_size (source_path target_path : bytes) : Z :=
  saturating_add USIZE_MAX (saturating_add USIZE_MAX (len source_path) (len target_path)) 2.

(** The arc of one occurrence, and that of a pair. *)
Definition unary_arc (payload : Z) (occurrence : occurrence) : M Session BlankArc :=
  role ← owned_text occurrence.2;
  mret {| arc_source := occurrence.1; role := role; arc_target := None; arc_payload := payload |}.
Definition pair_arc (payload : Z) (source target : occurrence) : M Session BlankArc :=
  reserve_bytes (pair_role_size source.2 target.2);;
  allocate "native blank role allocation failed";;
  mret {| arc_source := source.1; role := source.2 ++ str "->" ++ target.2;
          arc_target := Some target.1; arc_payload := payload |}.

(** The pairs of each occurrence with the later ones. *)
Fixpoint pair_arcs (payload : Z) (occurrences : list occurrence) (arcs : list BlankArc) : M Session (list BlankArc) :=
  match occurrences with
  | [] => mret arcs
  | source :: occurrences =>
      arcs ← for_each (fun target arcs => arc ← pair_arc payload source target; mret (arcs ++ [arc])) occurrences arcs;
      pair_arcs payload occurrences arcs
  end.

(** [following]: the number of arcs with those of the next root. *)
Definition following_arcs (arcs occurrences : Z) : option Z :=
  value ← checked_add USIZE_MAX arcs occurrences;
  pairs ← checked_mul USIZE_MAX occurrences (Z.max 0 (occurrences - 1));
  checked_add USIZE_MAX value (pairs / 2).

(** One root: its skeleton becomes the next payload. *)
Definition root_arcs (limits : Limits) (root : CanonicalNode) (arcs : list BlankArc) (payloads : list bytes)
    : M Session (list BlankArc * list bytes) :=
  cancellation_checkpoint;;
  skeleton ← skeleton_node root;
  skeleton_work ← lift (usize_u64 (len skeleton) "blank skeleton exceeds u64");
  ensure_not (max_canonical_work limits <? skeleton_work)
    (resource_limit_with_details "max_canonical_work" (NativeNumber_integer skeleton_work)
       (NativeNumber_integer (max_canonical_work limits))
       {| component_count := None; largest_component_labels := None; largest_component_arcs := None;
          refinement_rounds := None; work_term := Some "setup"%string |}
       "native blank skeleton exceeds max_canonical_work");;
  let payload := len payloads in
  reserve_items 24 1;;
  allocate "native blank payload allocation failed";;
  let payloads := payloads ++ [skeleton] in
  '(name, _) ← lift (constructor_ledger (tree_tag root));
  path ← owned_text name;
  occurrences ← blank_occurrences root path [];
  following ← lift (ok_or (following_arcs (len arcs) (len occurrences)) (limit "native blank arc count overflow"));
  following_terms ← lift (checked_add_u64 (len labels) following "native blank document term count overflow");
  ensure_not (max_terms limits <? following_terms)
    (resource_limit "max_terms" (NativeNumber_integer following_terms) (NativeNumber_integer (max_terms limits))
       "native anonymous canonicalization exceeds max_terms");;
  reserve_items 56 (Z.max 0 (following - len arcs));;
  allocate "native blank arc allocation failed";;
  arcs ← for_each (fun occurrence arcs => arc ← unary_arc payload occurrence; mret (arcs ++ [arc])) occurrences arcs;
  arcs ← pair_arcs payload occurrences arcs;
  mret (arcs, payloads).

(** [blank_arcs] *)
Definition blank_arcs (roots : list (list CanonicalNode)) (limits : Limits)
    : M Session (list BlankArc * list bytes) :=
  for_each (fun root '(arcs, payloads) => root_arcs limits root arcs payloads) (concat roots) ([], []).
End Occurrences.

(** ** Connected components *)

(** The two loops of [find_component_root]; a path to a root is shorter than
    the table. *)
Fixpoint find_root (fuel : nat) (parents : list Z) (root : Z) : outcome Z :=
  match fuel with
  | O => Panic
  | S fuel =>
      parent ← index_at parents root;
      if parent =? root then Ok root else find_root fuel parents parent
  end.
Fixpoint compress_path (fuel : nat) (parents : list Z) (root value : Z) : outcome (list Z) :=
  match fuel with
  | O => Panic
  | S fuel =>
      next ← index_at parents value;
      if next =? value then Ok parents
      else compress_path fuel (<[Z.to_nat value := root]> parents) root next
  end.
Definition find_component_root (parents : list Z) (value : Z) : outcome (Z * list Z) :=
  root ← find_root (S (length parents)) parents value;
  parents ← compress_path (S (length parents)) parents root value;
  Ok (root, parents).

(** [union_component_labels] *)
Definition union_component_labels (parents sizes : list Z) (left right : Z) : outcome (list Z * list Z) :=
  '(left_root, parents) ← find_component_root parents left;
  '(right_root, parents) ← find_component_root parents right;
  if left_root =? right_root then Ok (parents, sizes) else
  left_size ← index_at sizes left_root;
  right_size ← index_at sizes right_root;
  let '(left_root, right_root) := if left_size <? right_size then (right_root, left_root) else (left_root, right_root) in
  _ ← index_at parents right_root;
  let parents := <[Z.to_nat right_root := left_root]> parents in
  left_size ← index_at sizes left_root;
  right_size ← index_at sizes right_root;
  total ← ok_or (checked_add USIZE_MAX left_size right_size) (limit "native blank component size overflow");
  Ok (parents, <[Z.to_nat left_root := total]> sizes).

Record BlankComponent := mkBlankComponent {
  global_labels : list Z;
  component_arcs : list BlankArc;
  alpha : AlphaResult
}.

(** The tables that number the components; [USIZE_MAX] marks a free slot. *)
Record Assignment := mkAssignment {
  a_parents : list Z;
  root_components : list Z;
  label_components : list Z;
  local_indexes : list Z;
  component_labels : list (list Z)
}.

Definition component_allocation_failed : string := "native blank component allocation failed".

(** One label finds its component, and its index there. *)
Definition assign_label (label : Z) (a : Assignment) : M Session Assignment :=
  '(root, parents) ← lift (find_component_root (a_parents a) label);
  known ← lift (index_at (root_components a) root);
  let fresh := known =? USIZE_MAX in
  let component := if fresh then len (component_labels a) else known in
  let root_components := if fresh then <[Z.to_nat root := component]> (root_components a) else root_components a in
  let component_labels := if fresh then component_labels a ++ [[]] else component_labels a in
  selected ← lift (ok_or (get_at component_labels component) (protocol "native blank component index is invalid"));
  reserve_items 8 1;;
  allocate component_allocation_failed;;
  _ ← lift (index_at (local_indexes a) label);
  _ ← lift (index_at (label_components a) label);
  mret {| a_parents := parents; root_components := root_components;
          label_components := <[Z.to_nat label := component]> (label_components a);
          local_indexes := <[Z.to_nat label := len selected]> (local_indexes a);
          component_labels := <[Z.to_nat component := selected ++ [label]]> component_labels |}.

(** One arc joins those of its component, with local indexes. *)
Definition assign_arc (a : Assignment) (arc : BlankArc) (component_arcs : list (list BlankArc))
    : M Session (list (list BlankArc)) :=
  cancellation_checkpoint;;
  component ← lift (ok_or (get_at (label_components a) (arc_source arc)) (protocol "native blank arc source is invalid"));
  target ← lift (match arc_target arc with
                 | None => Ok None
                 | Some target =>
                     fail_if (negb (bool_decide (get_at (label_components a) target = Some component)))
                       (protocol "native blank arc crosses canonical components");;
                     local ← ok_or (get_at (local_indexes a) target) (protocol "native blank arc target is invalid");
                     Ok (Some local)
                 end);
  role ← owned_text (role arc);
  source ← lift (ok_or (get_at (local_indexes a) (arc_source arc)) (protocol "native blank arc source is invalid"));
  selected ← lift (ok_or (get_at component_arcs component) (protocol "native blank component is invalid"));
  reserve_items 56 1;;
  allocate "native blank component arc allocation failed";;
  mret (<[Z.to_nat component := selected ++
           [{| arc_source := source; role := role; arc_target := target; arc_payload := arc_payload arc |}]]>
          component_arcs).

(** [values.iter().map(Vec::len).max().map_or(Ok(0), |value| usize_u64(value, message))] *)
Definition largest {A} (values : list (list A)) (message : string) : outcome Z :=
  usize_u64 (foldr Z.max 0 (map (fun value => len value) values)) message.

(** [canonical_components] *)
Definition canonical_components (label_count : Z) (arcs : list BlankArc) (payloads : list bytes) (limits : Limits)
    : M Session (list BlankComponent) :=
  label_index_slots ← lift (ok_or (checked_mul USIZE_MAX label_count 5)
                              (limit "native blank component index count overflow"));
  reserve_items 8 label_index_slots;;
  allocate component_allocation_failed;;
  let parents := seqZ 0 label_count in
  allocate component_allocation_failed;;
  let sizes := replicate (Z.to_nat label_count) 1 in
  '(parents, _) ← for_each (fun arc '(parents, sizes) =>
      cancellation_checkpoint;;
      match arc_target arc with
      | Some target => lift (union_component_labels parents sizes (arc_source arc) target)
      | None => mret (parents, sizes)
      end) arcs (parents, sizes);
  allocate component_allocation_failed;;
  allocate component_allocation_failed;;
  allocate component_allocation_failed;;
  let free := replicate (Z.to_nat label_count) USIZE_MAX in
  reserve_items 24 label_count;;
  allocate component_allocation_failed;;
  a ← for_range assign_label 0 (Z.to_nat label_count)
        {| a_parents := parents; root_components := free; label_components := free; local_indexes := free;
           component_labels := [] |};
  let component_labels := component_labels a in
  reserve_items 24 (len component_labels);;
  allocate component_allocation_failed;;
  component_arcs ← for_each (assign_arc a) arcs (replicate (length component_labels) []);
  count ← lift (usize_u64 (len component_labels) "native blank component count exceeds u64");
  most_labels ← lift (largest component_labels "native blank component label count exceeds u64");
  most_arcs ← lift (largest component_arcs "native blank component arc count exceeds u64");
  let limit_details :=
    {| component_count := Some count; largest_component_labels := Some most_labels;
       largest_component_arcs := Some most_arcs; refinement_rounds := None; work_term := None |} in
  reserve_items 136 (len component_labels);;
  allocate component_allocation_failed;;
  for_each (fun '(global_labels, local_arcs) result =>
    cancellation_checkpoint;;
    alpha ← alpha_order local_arcs payloads (len global_labels) limits limit_details;
    mret (result ++ [{| global_labels := global_labels; component_arcs := local_arcs; alpha := alpha |}]))
    (zip component_labels component_arcs) [].
