(* ===== verification/AnonymousRows.v ===== *)
(** * Scoping the anonymous individuals of a document ([native/src/parse/anonymous.rs])

    The graphs of the blank components make the document scope, the order of
    each component the keys.  The rows are written with these raw identities,
    fingerprinted, and written again with identities scoped to the snapshot. *)

From S2P Require Import Prelude Bytes Order Hash Error Machine Limits Session Varint Schema Scan Encode CanonicalTree AlphaOrder BlankGraph.

Definition DOCUMENT_SCOPE_DOMAIN : bytes := str "pyowl-core:document-scope:v2" ++ [0].
Definition SNAPSHOT_SCOPE_DOMAIN : bytes := str "pyowl-core:snapshot-document-scope:v2" ++ [0].
Definition ANONYMOUS_KEY_DOMAIN : bytes := str "pyowl-core:anonymous-key:v2" ++ [0].
Definition COMPONENT_CLASS_DOMAIN : bytes := str "pyowl-core:blank-component-class:v2" ++ [0].
Definition COMPONENT_MANIFEST_DOMAIN : bytes := str "pyowl-core:blank-component-manifest:v2" ++ [0].
Definition DOCUMENT_FINGERPRINT_DOMAIN_V2 : bytes := str "pyowl-core:document-fingerprint:v2" ++ [0].

(** A digest of the pieces, in their order. *)
Definition digest (pieces : list bytes) : bytes := Hash.finish (foldl update Sha256_new pieces).

(** ** The manifest of the components *)

(** [components[index].alpha.graph] *)
Definition graph_at (components : list BlankComponent) (index : Z) : outcome bytes :=
  component ← index_at components index; Ok (graph (alpha component)).

(** [sorted_component_indexes] *)
Definition component_key (components : list BlankComponent) (index : Z) : bytes * list Z :=
  match get_at components index with
  | Some component => (graph (alpha component), global_labels component)
  | None => ([], [])
  end.
Definition sorted_component_indexes (components : list BlankComponent) : M Session (list Z) :=
  reserve_items 8 (len components);;
  allocate "native blank component order allocation failed";;
  mret (sort_by (component_key components) (seqZ 0 (len components))).

(** [while end < indexes.len() && components[indexes[end]].alpha.graph == *graph] *)
Fixpoint class_length (components : list BlankComponent) (graph : bytes) (indexes : list Z) : outcome nat :=
  match indexes with
  | [] => Ok 0%nat
  | index :: indexes =>
      other ← graph_at components index;
      if bytes_eqb other graph then n ← class_length components graph indexes; Ok (S n) else Ok 0%nat
  end.

(** The loop over the classes of components with equal graphs. *)
Fixpoint for_each_class {X} (fuel : nat) (components : list BlankComponent)
    (body : bytes -> list Z -> X -> M Session X) (indexes : list Z) (x : X) : M Session X :=
  match indexes with
  | [] => mret x
  | first :: rest =>
      match fuel with
      | O => lift Panic
      | S fuel =>
          graph ← lift (graph_at components first);
          n ← lift (class_length components graph rest);
          x ← body graph (first :: take n rest) x;
          for_each_class fuel components body (drop n rest) x
      end
  end.

(** The number of distinct graphs among the sorted components. *)
Fixpoint distinct_graphs (components : list BlankComponent) (previous : option bytes) (indexes : list Z) : outcome Z :=
  match indexes with
  | [] => Ok 0
  | index :: indexes =>
      graph ← graph_at components index;
      n ← distinct_graphs components (Some graph) indexes;
      Ok (if bool_decide (previous = Some graph) then n else n + 1)
  end.

(** [component_manifest] *)
Definition component_manifest (components : list BlankComponent) : M Session bytes :=
  indexes ← sorted_component_indexes components;
  distinct ← lift (distinct_graphs components None indexes);
  manifest ← append_bytes COMPONENT_MANIFEST_DOMAIN;
  count ← lift (usize_u64 distinct "native blank component count exceeds u64");
  count ← append_varint count;
  for_each_class (length indexes) components (fun graph class manifest =>
    framed ← append_frame graph;
    multiplicity ← lift (usize_u64 (len class) "native blank component multiplicity exceeds u64");
    multiplicity ← append_varint multiplicity;
    mret (manifest ++ framed ++ multiplicity)) indexes (manifest ++ count).

(** [framed_digest] *)
Definition framed_digest (domain first second : bytes) : M Session bytes :=
  first ← append_frame first;
  second ← append_frame second;
  mret (digest [domain; first; second]).

(** ** Identities *)

(** [component_class] *)
Definition component_class (graph : bytes) : M Session bytes :=
  framed ← append_frame graph; mret (digest [COMPONENT_CLASS_DOMAIN; framed]).

(** The key of one canonical index. *)
Definition anonymous_key (scope class : bytes) (ordinal index : Z) : M Session bytes :=
  ordinal ← lift (usize_u64 ordinal "native blank component ordinal exceeds u64");
  ordinal ← append_varint ordinal;
  index ← lift (usize_u64 index "native blank canonical index exceeds u64");
  index ← append_varint index;
  mret (digest [ANONYMOUS_KEY_DOMAIN; scope; class; ordinal ++ index]).

(** [identities_for_order] *)
Definition identities_for_order (count : Z) (order : list Z) (scope class : bytes) (ordinal : Z)
    : M Session (list Identity) :=
  reserve_items 8 count;;
  allocate "native blank binding allocation failed";;
  indexes ← lift (invert_order "native blank binding order is invalid" order (replicate (Z.to_nat count) 0));
  reserve_items 64 count;;
  allocate "native blank identity allocation failed";;
  for_each (fun index result =>
    key ← anonymous_key scope class ordinal index;
    mret (result ++ [{| scope := scope; key := key |}])) indexes [].

(** The identities of one component fill the slots of its labels. *)
Definition bind_labels (global_labels : list Z) (local : list Identity) (result : list (option Identity))
    : outcome (list (option Identity)) :=
  '(_, result) ← ofor_each (fun label '(index, result) =>
    identity ← ok_or (get_at local index) (protocol "native blank component identity is missing");
    slot ← ok_or (get_at result label) (protocol "native blank component label is invalid");
    match slot with
    | Some _ => Err (protocol "native blank component identity is duplicated")
    | None => Ok (index + 1, <[Z.to_nat label := Some identity]> result)
    end) global_labels (0, result);
  Ok result.

(** [identities_for_components] *)
Definition identities_for_components (label_count : Z) (components : list BlankComponent) (scope : bytes)
    : M Session (list (option Identity)) :=
  reserve_items 65 label_count;;
  allocate "native blank identity allocation failed";;
  indexes ← sorted_component_indexes components;
  result ← for_each_class (length indexes) components (fun graph class result =>
      component_class ← component_class graph;
      '(_, result) ← for_each (fun component_index '(ordinal, result) =>
          component ← lift (index_at components component_index);
          local ← identities_for_order (len (global_labels component)) (order (alpha component))
                    scope component_class ordinal;
          result ← lift (bind_labels (global_labels component) local result);
          mret (ordinal + 1, result)) class (0, result);
      mret result) indexes (replicate (Z.to_nat label_count) None);
  ensure_not (existsb (fun slot => negb (is_some slot)) result)
    (protocol "native blank component identity ledger is incomplete");;
  mret result.

(** [rescope_identity] *)
Definition rescope_identity (identity : Identity) (snapshot_scope : bytes) : Identity :=
  {| scope := snapshot_scope;
     key := digest [ANONYMOUS_KEY_DOMAIN; snapshot_scope; scope identity; key identity] |}.

(** ** Digests of the document *)

(** [snapshot_scope]: the ordinal is zero. *)
Definition snapshot_scope (document_fingerprint : bytes) : bytes :=
  digest [SNAPSHOT_SCOPE_DOMAIN; document_fingerprint; [0]].

(** [structural_digest]: the model schema is two. *)
Definition structural_digest (row : bytes) : bytes :=
  digest [str "pyowl-core:structural-value:v1" ++ [0]; [2]; row].

(** [encode_iri_bytes] *)
Definition encode_iri_bytes (value : bytes) : M Session bytes :=
  tag ← append_varint 1;
  marker ← push_byte 2;
  framed ← append_frame value;
  mret (tag ++ marker ++ framed).

Definition ANONYMOUS_ONTOLOGY : bytes := str "anonymous-ontology".
Definition version_without_ontology : NativeError :=
  protocol "native anonymous scope has a version IRI without an ontology IRI".

(** [ontology_key_text] and [ontology_key_nodes] *)
Definition ontology_key_text (ontology_iri version_iri : option bytes) : M Session bytes :=
  match ontology_iri with
  | None => ensure_not (is_some version_iri) version_without_ontology;; copy_bytes ANONYMOUS_ONTOLOGY
  | Some ontology_iri =>
      result ← encode_iri_bytes ontology_iri;
      match version_iri with
      | None => mret result
      | Some version_iri =>
          version ← encode_iri_bytes version_iri;
          version ← append_bytes version;
          mret (result ++ version)
      end
  end.
Definition ontology_key_nodes (ontology_iri version_iri : option Node) : M Session bytes :=
  match ontology_iri with
  | None => ensure_not (is_some version_iri) version_without_ontology;; copy_bytes ANONYMOUS_ONTOLOGY
  | Some ontology_iri =>
      result ← copy_bytes (node_encoded ontology_iri);
      match version_iri with
      | None => mret result
      | Some version_iri => version ← append_bytes (node_encoded version_iri); mret (result ++ version)
      end
  end.

(** ** The document fingerprint ([native/src/parse/retained.rs]) *)

(** [MeasuredSha256] *)
Record MeasuredSha256 := mkMeasured { hasher : Sha256; measured : Z }.
Record FingerprintEvidenceV2 := mkFingerprint { preimage_bytes : Z; fingerprint_digest : bytes }.

Definition Measured_new : MeasuredSha256 := {| hasher := Sha256_new; measured := 0 |}.
Definition Measured_update (value : bytes) (m : MeasuredSha256) : outcome MeasuredSha256 :=
  size ← ok_or (try_from U64_MAX (len value)) (limit "native digest input exceeds u64");
  total ← ok_or (checked_add U64_MAX (measured m) size) (limit "native digest input size overflow");
  Ok {| hasher := update (hasher m) value; measured := total |}.

(** [encode_varint]: the used prefix of the ten-byte buffer. *)
Fixpoint encode_varint (n : nat) (value : Z) : outcome bytes :=
  match n with
  | O => Panic
  | S n =>
      let byte := Z.land value 0x7f in
      let value := Z.shiftr value 7 in
      if value =? 0 then Ok [Z.lor byte 0]
      else digits ← encode_varint n value; Ok (Z.lor byte 0x80 :: digits)
  end.
Definition Measured_varint (value : Z) (m : MeasuredSha256) : outcome MeasuredSha256 :=
  encoded ← encode_varint 10 value; Measured_update encoded m.
Definition Measured_frame (value : bytes) (m : MeasuredSha256) : outcome MeasuredSha256 :=
  size ← ok_or (try_from U64_MAX (len value)) (limit "native canonical frame exceeds u64");
  m ← Measured_varint size m; Measured_update value m.
Definition Measured_finish (m : MeasuredSha256) : FingerprintEvidenceV2 :=
  {| preimage_bytes := measured m; fingerprint_digest := Hash.finish (hasher m) |}.

Definition Measured_optional (value : option Node) (m : MeasuredSha256) : outcome MeasuredSha256 :=
  match value with
  | Some node => m ← Measured_update (str "1") m; Measured_frame (node_encoded node) m
  | None => Measured_update (str "0") m
  end.
(** The count of a list of rows and their frames. *)
Definition Measured_rows (message : string) (rows : list bytes) (m : MeasuredSha256) : outcome MeasuredSha256 :=
  count ← ok_or (try_from U64_MAX (len rows)) (limit message);
  m ← Measured_varint count m;
  ofor_each Measured_frame rows m.

(** [document_fingerprint_slices], which is [functional_document_fingerprint]. *)
Definition document_fingerprint_slices (ontology_iri version_iri : option Node) (imports : list Node)
    (rows : list (list bytes)) : outcome FingerprintEvidenceV2 :=
  m ← Measured_update DOCUMENT_FINGERPRINT_DOMAIN_V2 Measured_new;
  m ← Measured_optional ontology_iri m;
  m ← Measured_optional version_iri m;
  m ← Measured_rows "native import count exceeds u64" (map node_encoded imports) m;
  m ← ofor_each (Measured_rows "native root count exceeds u64") rows m;
  Ok (Measured_finish m).

Definition optional_iri (value : option bytes) : M World (option Node) :=
  match value with Some text => node ← iri_node text; mret (Some node) | None => mret None end.

(** [rdfxml_document_fingerprint] *)
Definition rdfxml_document_fingerprint (ontology_iri version_iri : option bytes) (imports : list bytes)
    (rows : list (list bytes)) : M World FingerprintEvidenceV2 :=
  ontology_node ← optional_iri ontology_iri;
  version_node ← optional_iri version_iri;
  import_nodes ← for_each (fun text nodes => node ← iri_node text; mret (nodes ++ [node])) imports [];
  let import_nodes := dedup (sort_by node_encoded import_nodes) in
  lift (document_fingerprint_slices ontology_node version_node import_nodes rows).

(** ** Collections of rows *)

(** [canonicalize_collections] *)
Definition canonicalize_collections (rows : list (list bytes)) : list (list bytes) :=
  map (fun values => vec_dedup (sort_by (fun row => row) values)) rows.

(** [rows.iter().try_fold(0, |total, values| total.checked_add(values.len()))] *)
Definition occurrence_total (rows : list (list bytes)) : outcome Z :=
  ofor_each (fun values total => ok_or (checked_add USIZE_MAX total (len values))
                                   (limit "native anonymous occurrence count overflow")) rows 0.

Definition root_order_overflow : NativeError := limit "native anonymous root order overflow".

(** The order of one collection: the index of one row of each group of equal rows. *)
Definition collection_order (values : list bytes) (base : Z) (result : list Z) : M Session (list Z) :=
  reserve_items 8 (len values);;
  allocate "native anonymous root order allocation failed";;
  let indices := sort_by (fun index => default [] (get_at values index)) (seqZ 0 (len values)) in
  '(_, result) ← lift (ofor_each (fun index '(previous, result) =>
      value ← index_at values index;
      if bool_decide (previous = Some value) then Ok (previous, result) else
      position ← ok_or (checked_add USIZE_MAX base index) root_order_overflow;
      Ok (Some value, result ++ [position])) indices (None, result));
  mret result.

(** [canonical_occurrence_order] *)
Definition canonical_occurrence_order (rows : list (list bytes)) : M Session (list Z) :=
  occurrence_count ← lift (occurrence_total rows);
  reserve_items 8 occurrence_count;;
  allocate "native anonymous root order allocation failed";;
  '(_, result) ← for_each (fun values '(base, result) =>
      result ← collection_order values base result;
      base ← lift (ok_or (checked_add USIZE_MAX base (len values)) root_order_overflow);
      mret (base, result)) rows (0, []);
  mret result.

(** ** Metrics *)

Record AnonymousCanonicalMetricsV2 := mkMetrics {
  m_component_count : Z;
  m_total_labels : Z;
  m_total_arcs : Z;
  m_largest_component_labels : Z;
  m_largest_component_arcs : Z;
  m_largest_component_roots : Z;
  m_maximum_root_interval_span : Z;
  m_maximum_open_root_intervals : Z;
  m_total_setup_work : Z;
  m_total_refinement_work : Z;
  m_total_candidate_order_work : Z;
  m_total_canonical_work : Z;
  m_largest_component_work : Z;
  m_maximum_refinement_rounds : Z;
  m_total_permutations_examined : Z;
  m_accounted_bytes : Z
}.

(** The roots of one component: the first, the last and their number; the arcs
    are in document order. *)
Definition component_roots (arcs : list BlankArc) : outcome (option Z * option Z * Z) :=
  ofor_each (fun arc '(first, previous, count) =>
    let payload := arc_payload arc in
    fail_if (match previous with Some p => payload <? p | None => false end)
      (protocol "native blank component roots are not in document order");;
    if bool_decide (previous = Some payload) then Ok (first, previous, count) else
    count ← ok_or (checked_add U64_MAX count 1) (limit "native blank root count overflow");
    Ok (match first with Some _ => first | None => Some payload end, Some payload, count)) arcs (None, None, 0).

Definition measure_add (left right : Z) (message : string) : outcome Z :=
  ok_or (checked_add U64_MAX left right) (limit message).

(** One round of the loop over the components: the metrics and the interval events. *)
Definition component_metrics (c : BlankComponent) (m : AnonymousCanonicalMetricsV2) (events : list (Z * Z))
    : outcome (AnonymousCanonicalMetricsV2 * list (Z * Z)) :=
  labels ← usize_u64 (len (global_labels c)) "native blank component label count exceeds u64";
  arcs ← usize_u64 (len (component_arcs c)) "native blank component arc count exceeds u64";
  total_setup ← measure_add (m_total_setup_work m) (setup_work (alpha c)) "native blank setup work overflow";
  total_refinement ← measure_add (m_total_refinement_work m) (refinement_work (alpha c))
                       "native blank refinement work overflow";
  total_candidate ← measure_add (m_total_candidate_order_work m) (candidate_order_work (alpha c))
                      "native blank candidate work overflow";
  component_work ← measure_add (setup_work (alpha c)) (refinement_work (alpha c)) "native blank component work overflow";
  component_work ← measure_add component_work (candidate_order_work (alpha c)) "native blank component work overflow";
  permutations ← measure_add (m_total_permutations_examined m) (permutations_examined (alpha c))
                   "native blank permutation count overflow";
  '(first_root, last_root, root_count) ← component_roots (component_arcs c);
  first_root ← ok_or first_root (protocol "native blank component contains no structural root");
  last_root ← or_panic last_root;
  span ← ok_or (if first_root <=? last_root then checked_add USIZE_MAX (last_root - first_root) 1 else None)
           (limit "native blank root interval overflow");
  span ← usize_u64 span "native blank root interval exceeds u64";
  after ← ok_or (checked_add USIZE_MAX last_root 1) (limit "native blank root interval overflow");
  Ok ({| m_component_count := m_component_count m; m_total_labels := m_total_labels m;
         m_total_arcs := m_total_arcs m;
         m_largest_component_labels := Z.max (m_largest_component_labels m) labels;
         m_largest_component_arcs := Z.max (m_largest_component_arcs m) arcs;
         m_largest_component_roots := Z.max (m_largest_component_roots m) root_count;
         m_maximum_root_interval_span := Z.max (m_maximum_root_interval_span m) span;
         m_maximum_open_root_intervals := m_maximum_open_root_intervals m;
         m_total_setup_work := total_setup; m_total_refinement_work := total_refinement;
         m_total_candidate_order_work := total_candidate; m_total_canonical_work := m_total_canonical_work m;
         m_largest_component_work := Z.max (m_largest_component_work m) component_work;
         m_maximum_refinement_rounds := Z.max (m_maximum_refinement_rounds m) (result_rounds (alpha c));
         m_total_permutations_examined := permutations; m_accounted_bytes := m_accounted_bytes m |},
      events ++ [(first_root, 1); (after, -1)]).

(** [i64::checked_add] *)
Definition checked_add_i64 (a b : Z) : option Z :=
  if (- 2 ^ 63 <=? a + b) && (a + b <? 2 ^ 63) then Some (a + b) else None.
Definition activity_overflow : NativeError := limit "native blank interval activity overflow".

(** The inner loop: the events at one position. *)
Fixpoint position_delta (position : Z) (events : list (Z * Z)) (delta : Z) : outcome (Z * list (Z * Z)) :=
  match events with
  | (at_, change) :: rest =>
      if at_ =? position then
        delta ← ok_or (checked_add_i64 delta change) activity_overflow; position_delta position rest delta
      else Ok (delta, events)
  | [] => Ok (delta, [])
  end.

(** The sweep over the events. *)
Fixpoint sweep (fuel : nat) (events : list (Z * Z)) (active maximum : Z) : outcome (Z * Z) :=
  match events with
  | [] => Ok (active, maximum)
  | (position, _) :: _ =>
      match fuel with
      | O => Panic
      | S fuel =>
          '(delta, events) ← position_delta position events 0;
          active ← ok_or (checked_add_i64 active delta) activity_overflow;
          fail_if (active <? 0) (protocol "native blank interval activity became negative");;
          sweep fuel events active (Z.max maximum active)
      end
  end.

(** [anonymous_metrics] *)
Definition anonymous_metrics (components : list BlankComponent) (total_labels total_arcs : Z)
    : M Session AnonymousCanonicalMetricsV2 :=
  component_count ← lift (usize_u64 (len components) "native blank component count exceeds u64");
  total_labels ← lift (usize_u64 total_labels "native blank label count exceeds u64");
  total_arcs ← lift (usize_u64 total_arcs "native blank arc count exceeds u64");
  event_count ← lift (ok_or (checked_mul USIZE_MAX (len components) 2) (limit "native blank interval count overflow"));
  reserve_items 16 event_count;;
  allocate "native blank interval allocation failed";;
  '(m, events) ← lift (ofor_each (fun c '(m, events) => component_metrics c m events) components
    ({| m_component_count := component_count; m_total_labels := total_labels; m_total_arcs := total_arcs;
        m_largest_component_labels := 0; m_largest_component_arcs := 0; m_largest_component_roots := 0;
        m_maximum_root_interval_span := 0; m_maximum_open_root_intervals := 0; m_total_setup_work := 0;
        m_total_refinement_work := 0; m_total_candidate_order_work := 0; m_total_canonical_work := 0;
        m_largest_component_work := 0; m_maximum_refinement_rounds := 0; m_total_permutations_examined := 0;
        m_accounted_bytes := 0 |}, []));
  canonical ← lift (measure_add (m_total_setup_work m) (m_total_refinement_work m)
                      "native blank total canonical work overflow");
  canonical ← lift (measure_add canonical (m_total_candidate_order_work m)
                      "native blank total canonical work overflow");
  let events := sort_by fst events in
  '(active, maximum_active) ← lift (sweep (length events) events 0 0);
  ensure_not (negb (active =? 0)) (protocol "native blank interval activity ledger is incomplete");;
  mret {| m_component_count := m_component_count m; m_total_labels := m_total_labels m;
          m_total_arcs := m_total_arcs m; m_largest_component_labels := m_largest_component_labels m;
          m_largest_component_arcs := m_largest_component_arcs m;
          m_largest_component_roots := m_largest_component_roots m;
          m_maximum_root_interval_span := m_maximum_root_interval_span m;
          m_maximum_open_root_intervals := maximum_active; m_total_setup_work := m_total_setup_work m;
          m_total_refinement_work := m_total_refinement_work m;
          m_total_candidate_order_work := m_total_candidate_order_work m;
          m_total_canonical_work := canonical; m_largest_component_work := m_largest_component_work m;
          m_maximum_refinement_rounds := m_maximum_refinement_rounds m;
          m_total_permutations_examined := m_total_permutations_examined m; m_accounted_bytes := 0 |}.

Definition with_accounted (bytes : Z) (m : AnonymousCanonicalMetricsV2) : AnonymousCanonicalMetricsV2 :=
  {| m_component_count := m_component_count m; m_total_labels := m_total_labels m;
     m_total_arcs := m_total_arcs m; m_largest_component_labels := m_largest_component_labels m;
     m_largest_component_arcs := m_largest_component_arcs m;
     m_largest_component_roots := m_largest_component_roots m;
     m_maximum_root_interval_span := m_maximum_root_interval_span m;
     m_maximum_open_root_intervals := m_maximum_open_root_intervals m;
     m_total_setup_work := m_total_setup_work m; m_total_refinement_work := m_total_refinement_work m;
     m_total_candidate_order_work := m_total_candidate_order_work m;
     m_total_canonical_work := m_total_canonical_work m; m_largest_component_work := m_largest_component_work m;
     m_maximum_refinement_rounds := m_maximum_refinement_rounds m;
     m_total_permutations_examined := m_total_permutations_examined m; m_accounted_bytes := bytes |}.

(** ** Scoping *)

Record ScopedAnonymousRowsV2 := mkScoped {
  raw : list (list bytes);
  effective : list (list bytes);
  effective_occurrence_digests : list bytes;
  source_occurrence_digests : list (bytes * bytes);
  scoped_metrics : AnonymousCanonicalMetricsV2
}.

(** Every row is scanned, then parsed. *)
Definition parse_row (limits : Limits) (row : bytes) : M Session CanonicalNode :=
  cancellation_checkpoint;;
  lift (fst (scan_canonical row (from_limits limits)));;
  parse_root row limits.
Definition parse_collections (rows : list (list bytes)) : M Session (list (list CanonicalNode)) :=
  s ← get;
  for_each (fun source parsed =>
    reserve_items 56 (len source);;
    allocate "native anonymous root allocation failed";;
    target ← for_each (fun row target => node ← parse_row (limits s) row; mret (target ++ [node])) source [];
    mret (parsed ++ [target])) rows [].

(** [rescope_anonymous_rows_v2] *)
Definition rescope_anonymous_rows_v2 (rows : list (list bytes)) (snapshot_scope : bytes)
    : M Session (list (list bytes)) :=
  parsed ← parse_collections rows;
  effective ← encode_collections (fun identity => Ok (Some (rescope_identity identity snapshot_scope))) parsed;
  let effective := canonicalize_collections effective in
  cancellation_checkpoint;;
  mret effective.

Section Identities.
Context (labels : list bytes) (raw_identities : list (option Identity)).

(** The raw identity of a label. *)
Definition label_identity (label : bytes) : option Identity :=
  index ← binary_search labels label; slot ← get_at raw_identities index; slot.

(** The replacement of an identity in the raw and in the effective rows. *)
Definition raw_replacement (identity : Identity) : outcome (option Identity) :=
  label ← provisional_label identity; Ok (label ≫= label_identity).
Definition effective_replacement (snapshot_scope : bytes) (identity : Identity) : outcome (option Identity) :=
  label ← provisional_label identity;
  Ok ((fun value => rescope_identity value snapshot_scope) <$>
      match label with Some label => label_identity label | None => Some identity end).
End Identities.

(** The labels of a document, in ascending order. *)
Definition document_labels (parsed : list (list CanonicalNode)) : M Session (list bytes) :=
  labels ← for_each collect_labels (concat parsed) [];
  let labels := vec_dedup (sort_by (fun label => label) labels) in
  ensure_not (bool_decide (labels = []))
    (protocol "native anonymous scoping received no provisional blank labels");;
  mret labels.

(** [scope_anonymous_rows_v2], up to the raw identities. *)
Definition raw_identities_of (parsed : list (list CanonicalNode)) (ontology_key : bytes)
    : M Session (list bytes * list (option Identity) * AnonymousCanonicalMetricsV2) :=
  s ← get;
  let limits := limits s in
  labels ← document_labels parsed;
  '(arcs, payloads) ← blank_arcs labels parsed limits;
  total_terms ← lift (checked_add_u64 (len labels) (len arcs) "native blank document term count overflow");
  ensure_not (max_terms limits <? total_terms)
    (resource_limit "max_terms" (NativeNumber_integer total_terms) (NativeNumber_integer (max_terms limits))
       "native anonymous canonicalization exceeds max_terms");;
  components ← canonical_components (len labels) arcs payloads limits;
  metrics ← anonymous_metrics components (len labels) (len arcs);
  manifest ← component_manifest components;
  document_scope ← framed_digest DOCUMENT_SCOPE_DOMAIN ontology_key manifest;
  raw_identities ← identities_for_components (len labels) components document_scope;
  mret (labels, raw_identities, metrics).

(** The digests of the effective rows in canonical order. *)
Definition ordered_digests (order : list Z) (digests : list (bytes * bytes)) : outcome (list bytes) :=
  ofor_each (fun index result =>
    pair ← ok_or (get_at digests index) (protocol "native anonymous root order is out of bounds");
    Ok (result ++ [pair.2])) order [].

(** [raw_values.len() != effective_values.len()] for some collection *)
Fixpoint cardinality_changed (raw effective : list (list bytes)) : bool :=
  match raw, effective with
  | r :: raw, e :: effective => negb (len r =? len e) || cardinality_changed raw effective
  | _, _ => false
  end.

(** [scope_anonymous_rows_v2] *)
Definition scope_anonymous_rows_v2 (rows : list (list bytes)) (ontology_key : bytes)
    (document_fingerprint : list (list bytes) -> M Session FingerprintEvidenceV2) : M Session ScopedAnonymousRowsV2 :=
  before ← get;
  parsed ← parse_collections rows;
  '(labels, raw_identities, metrics) ← raw_identities_of parsed ontology_key;
  raw ← encode_collections (raw_replacement labels raw_identities) parsed;
  occurrence_count ← lift (occurrence_total raw);
  reserve_items 32 occurrence_count;;
  allocate "native anonymous digest allocation failed";;
  let raw_source_digests := map structural_digest (concat raw) in
  canonical_order ← canonical_occurrence_order raw;
  reserve_items 64 occurrence_count;;
  allocate "native anonymous digest allocation failed";;
  let raw := canonicalize_collections raw in
  document ← document_fingerprint raw;
  let snapshot := snapshot_scope (fingerprint_digest document) in
  effective ← encode_collections (effective_replacement labels raw_identities snapshot) parsed;
  let source_digests := zip raw_source_digests (map structural_digest (concat effective)) in
  ensure_not (negb (len source_digests =? occurrence_count))
    (protocol "native anonymous occurrence digest count diverged");;
  reserve_items 32 (len canonical_order);;
  allocate "native anonymous digest allocation failed";;
  effective_digests ← lift (ordered_digests canonical_order source_digests);
  let effective := canonicalize_collections effective in
  ensure_not (cardinality_changed raw effective)
    (protocol "native anonymous scoping changed structural root cardinality");;
  after ← get;
  accounted ← lift (ok_or (if accounted_bytes before <=? accounted_bytes after
                           then Some (accounted_bytes after - accounted_bytes before) else None)
                      (protocol "native anonymous memory accounting regressed"));
  mret {| raw := raw; effective := effective; effective_occurrence_digests := effective_digests;
          source_occurrence_digests := source_digests; scoped_metrics := with_accounted accounted metrics |}.

(** [scope_rdfxml_anonymous_rows_v2] *)
Definition scope_rdfxml_anonymous_rows_v2 (ontology_iri version_iri : option bytes) (imports : list bytes)
    (rows : list (list bytes)) : M Session ScopedAnonymousRowsV2 :=
  ontology_key ← ontology_key_text ontology_iri version_iri;
  scope_anonymous_rows_v2 rows ontology_key (fun rows =>
    on_session_world (rdfxml_document_fingerprint ontology_iri version_iri imports rows)).

(** [scope_functional_anonymous_rows_v2] *)
Definition scope_functional_anonymous_rows_v2 (ontology_iri version_iri : option Node) (imports : list Node)
    (rows : list (list bytes)) : M Session ScopedAnonymousRowsV2 :=
  ontology_key ← ontology_key_nodes ontology_iri version_iri;
  scope_anonymous_rows_v2 rows ontology_key (fun rows =>
    lift (document_fingerprint_slices ontology_iri version_iri imports rows)).
