(* ===== verification/Charged.v ===== *)
(** * Charged computations

    [charged m o]: the session operation [m] computes [o], but for what it
    charges.  From any consistent session it does not panic; it returns the
    value of [o], or fails with the error of [o], or fails for want of
    resources.  The algorithms of anonymous scoping are related in this way to
    functions without a session. *)

From S2P Require Import Prelude Bytes Order Error Machine Atomic Limits Cancel Session Varint CanonicalTree.

(** Memory, work and nesting limits, cancellation and deadlines. *)
Definition resource_error (e : NativeError) : Prop :=
  In (code e) ["NATIVE_WIRE_LIMIT"; "NATIVE_CANCELLED"; "NATIVE_DEADLINE"]%string \/
  e = protocol "native deadline duration disappeared".

Lemma resource_limit_code e : code e = "NATIVE_WIRE_LIMIT"%string -> resource_error e.
Proof. intros E. left. rewrite E. by left. Qed.

#[export] Hint Resolve resource_limit_code : kernel.

(** The session runs on and is charged no less. *)
Definition proceeds (s s' : Session) : Prop := continues s s' /\ accounted_bytes s <= accounted_bytes s'.

Lemma proceeds_refl s : session_ok s -> proceeds s s.
Proof. intros Hs. split; [by apply continues_refl|done]. Qed.
Lemma proceeds_trans s s' s'' : proceeds s s' -> proceeds s' s'' -> proceeds s s''.
Proof. intros [H1 H2] [H3 H4]. split; [by eapply continues_trans|lia]. Qed.

Definition charged {A} (m : M Session A) (o : outcome A) : Prop := forall s, session_ok s ->
  wpx m (fun a s' => o = Ok a /\ proceeds s s') (fun e _ => resource_error e \/ o = Err e) s.

(** What a charged computation answers. *)
Lemma charged_answer {A} (m : M Session A) o s : charged m o -> session_ok s ->
  match fst (m s) with Ok a => o = Ok a | Err e => resource_error e \/ o = Err e | Panic => False end.
Proof. intros Hm Hs. specialize (Hm s Hs). unfold wpx in Hm. destruct (m s) as [[a|e|] s']; cbn [fst]; [tauto|done|done]. Qed.

Lemma charged_ret {A} (a : A) : charged (mret a) (Ok a).
Proof. intros s Hs. xstep. split; [done|by apply proceeds_refl]. Qed.

Lemma charged_bind {A B} (m : M Session A) (f : A -> M Session B) o g :
  charged m o -> (forall a, o = Ok a -> charged (f a) (g a)) -> charged (m ≫= f) (o ≫= g).
Proof.
  intros Hm Hf s Hs. xstep. eapply wpx_mono; [by apply Hm|..].
  - intros a s' [-> Hc]. pose proof Hc as [[Hs' _] _]. eapply wpx_mono; [by apply (Hf a)|..].
    + intros b s'' [E Hc']. split; [exact E|]. by eapply proceeds_trans.
    + by intros e s''.
  - intros e s' [He| ->]; [by left|by right].
Qed.

(** Sequencing after a computation of a known value. *)
Lemma charged_then {A B} (m : M Session A) (f : A -> M Session B) a o :
  charged m (Ok a) -> charged (f a) o -> charged (m ≫= f) o.
Proof. intros Hm Hf. change o with (Ok a ≫= (fun _ : A => o)). apply charged_bind; [done|]. by intros ? [= <-]. Qed.

Lemma charged_eq {A} (m : M Session A) o o' : charged m o -> o = o' -> charged m o'.
Proof. by intros ? <-. Qed.

Lemma charged_lift {A} (o : outcome A) : o <> Panic -> charged (lift o) o.
Proof. intros Hp s Hs. apply wpx_lift. destruct o; [by split; [|apply proceeds_refl]|by right|done]. Qed.

(** A value that is refused only for want of resources. *)
Definition bounded {A} (o : outcome A) (a : A) : Prop :=
  match o with Ok a' => a' = a | Err e => code e = "NATIVE_WIRE_LIMIT"%string | Panic => False end.

Lemma bounded_bind {A B} (o : outcome A) (f : A -> outcome B) a b : bounded o a -> bounded (f a) b -> bounded (o ≫= f) b.
Proof. unfold bounded. destruct o as [a'|e|]; [by intros ->|done|done]. Qed.

Lemma charged_lift_bound {A} (o : outcome A) a : bounded o a -> charged (lift o) (Ok a).
Proof.
  intros H s Hs. apply wpx_lift. unfold bounded in H. destruct o; [subst; by split; [|apply proceeds_refl]| |done].
  left. by apply resource_limit_code.
Qed.

Lemma charged_throw {A} e : charged (throw e : M Session A) (Err e).
Proof. intros s Hs. apply wpx_throw. by right. Qed.

Lemma charged_ensure_not c e : charged (ensure_not c e) (fail_if c e).
Proof. intros s Hs. apply wpx_ensure_not; intros ->; [by right|split; [done|by apply proceeds_refl]]. Qed.

(** A test that refuses only for want of resources. *)
Lemma charged_ensure_bound c e : code e = "NATIVE_WIRE_LIMIT"%string -> charged (ensure_not c e) (Ok tt).
Proof.
  intros He s Hs. apply wpx_ensure_not; intros ->; [left; by apply resource_limit_code|].
  split; [done|by apply proceeds_refl].
Qed.

Lemma charged_if {A} (c : bool) (m m' : M Session A) o o' :
  (c = true -> charged m o) -> (c = false -> charged m' o') ->
  charged (if c then m else m') (if c then o else o').
Proof. destruct c; auto. Qed.

Lemma charged_for_each {X Y} (body : Y -> X -> M Session X) (step : Y -> X -> outcome X) items x :
  (forall y x, In y items -> charged (body y x) (step y x)) ->
  charged (for_each body items x) (ofor_each step items x).
Proof.
  revert x. induction items as [|y items IH]; intros x H; cbn [for_each ofor_each]; [apply charged_ret|].
  apply charged_bind; [apply H; by left|]. intros x' _. apply IH. intros z x'' Hz. apply H. by right.
Qed.

(** A loop that keeps an invariant and whose rounds compute values. *)
Lemma charged_fold {X Y} (I : X -> Prop) (body : Y -> X -> M Session X) (step : Y -> X -> X) items x :
  I x -> (forall y x, In y items -> I x -> charged (body y x) (Ok (step y x)) /\ I (step y x)) ->
  charged (for_each body items x) (Ok (foldl (fun x y => step y x) x items)).
Proof.
  revert x. induction items as [|y items IH]; intros x Hx H; cbn [for_each foldl]; [apply charged_ret|].
  destruct (H y x) as [Hb Hi]; [by left|done|]. eapply charged_then; [exact Hb|].
  apply IH; [done|]. intros z x' Hz. apply H. by right.
Qed.

(** A loop that collects the values of its items. *)
Lemma charged_collect {A Y} (m : Y -> M Session A) (f : Y -> A) items done :
  (forall y, In y items -> charged (m y) (Ok (f y))) ->
  charged (for_each (fun y result => a ← m y; mret (result ++ [a])) items done) (Ok (done ++ map f items)).
Proof.
  revert done. induction items as [|y items IH]; intros done H; cbn [for_each map].
  - rewrite app_nil_r. apply charged_ret.
  - eapply charged_then; [eapply charged_then; [apply H; by left|apply charged_ret]|].
    replace (done ++ f y :: map f items) with ((done ++ [f y]) ++ map f items) by by rewrite <- app_assoc.
    apply IH. intros z Hz. apply H. by right.
Qed.

(** A loop that appends what its items are written as. *)
Lemma charged_concat {C Y} (m : Y -> M Session (list C)) (f : Y -> list C) items written :
  (forall y, In y items -> charged (m y) (Ok (f y))) ->
  charged (for_each (fun y output => a ← m y; mret (output ++ a)) items written)
    (Ok (written ++ concat (map f items))).
Proof.
  revert written. induction items as [|y items IH]; intros written H; cbn [for_each map concat].
  - rewrite app_nil_r. apply charged_ret.
  - eapply charged_then; [eapply charged_then; [apply H; by left|apply charged_ret]|].
    rewrite app_assoc. apply IH. intros z Hz. apply H. by right.
Qed.

Lemma charged_range {X} (I : Z -> X -> Prop) (body : Z -> X -> M Session X) start n x :
  I start x ->
  (forall i x, start <= i < start + Z.of_nat n -> I i x -> exists x', I (i + 1) x' /\ charged (body i x) (Ok x')) ->
  exists x', I (start + Z.of_nat n) x' /\ charged (for_range body start n x) (Ok x').
Proof.
  revert start x. induction n as [|n IH]; intros start x Hx Hb; cbn [for_range].
  - exists x. rewrite Z.add_0_r. split; [done|]. apply charged_ret.
  - destruct (Hb start x) as (x' & Hx' & Hc); [lia|done|].
    destruct (IH (start + 1) x') as (x'' & Hx'' & Hc'); [done| |].
    { intros i y Hi. apply Hb. lia. }
    exists x''. replace (start + Z.of_nat (S n)) with (start + 1 + Z.of_nat n) by lia.
    split; [done|]. by eapply charged_then.
Qed.
(** ** The primitive charges *)

Lemma resource_temporary bytes : 0 <= bytes -> charged (reserve_temporary_bytes bytes) (Ok tt).
Proof.
  intros Hb s Hs. destruct (Z.le_gt_cases bytes USIZE_MAX) as [Hle|Hgt].
  - pose proof (reserve_temporary_cases bytes s ltac:(split; done) Hs) as H.
    assert (limits (snd (reserve_temporary_bytes bytes s)) = limits s) as Hl.
    { unfold reserve_temporary_bytes, set_temporary_bytes, allocation_checkpoint. unfold_monad.
      repeat (case_match; simplify_eq/=; try done). }
    unfold wpx. destruct (reserve_temporary_bytes bytes s) as [[[]|e|] s']; [|left; apply resource_limit_code, H|done].
    destruct H as (_ & Hs' & _ & Ha). split; [done|]. split; [done|]. rewrite Ha. lia.
  - unfold reserve_temporary_bytes, wpx, mbind, M_bind, lift, try_from.
    rewrite (proj2 (Z.leb_gt _ _)) by ulia. left. by apply resource_limit_code.
Qed.

Lemma charged_reserve_bytes n : 0 <= n -> charged (reserve_bytes n) (Ok tt).
Proof. apply resource_temporary. Qed.

Lemma charged_reserve_items size n : 0 <= size -> 0 <= n -> charged (reserve_items size n) (Ok tt).
Proof.
  intros Hs Hn. unfold reserve_items. eapply (charged_then _ _ (n * size)); [|apply charged_reserve_bytes; by apply Z.mul_nonneg_nonneg].
  apply charged_lift_bound. unfold checked_mul, ok_or. by destruct (_ <=? _).
Qed.

Lemma charged_allocate msg : charged (allocate msg) (Ok tt).
Proof.
  intros s Hs. unfold allocate, wpx, zoom, try_reserve, look.
  destruct (obs_alloc _); cbn; [|left; by apply resource_limit_code].
  split; [done|]. split; [|done]. split; [|done]. by destruct Hs; constructor.
Qed.

Lemma fails_cancellation_checkpoint : fails_with resource_error cancellation_checkpoint.
Proof.
  unfold cancellation_checkpoint, checkpoint, load_cancelled, passed, elapsed, now.
  repeat fstep; try done; try (left; cbn; tauto). by right.
Qed.

Lemma charged_checkpoint : charged cancellation_checkpoint (Ok tt).
Proof.
  intros s Hs. pose proof (fails_cancellation_checkpoint s) as Hf.
  assert (wp cancellation_checkpoint (fun _ s' => proceeds s s') s) as Hw.
  { unfold cancellation_checkpoint. step. step. apply wp_checkpoint. intros w H1 H2.
    split; [split; [|done]|done]. by destruct Hs; constructor. }
  unfold wp, wpx in *. destruct (cancellation_checkpoint s) as [[[]|e|] s']; [done|by left|done].
Qed.

(** [charge] steps over the charges at the head of a program. *)
Ltac charge :=
  lazymatch goal with
  | |- charged (_ ≫= _) _ =>
      eapply charged_then; [first
        [ apply charged_reserve_bytes | apply charged_reserve_items | apply charged_allocate
        | apply charged_checkpoint ]; try done; try lia|cbv beta]
  end.
Ltac charges := repeat charge.

(** ** Writing *)

Lemma charged_usize_u64 v msg : charged (lift (usize_u64 v msg)) (Ok v).
Proof. apply charged_lift_bound. unfold usize_u64, try_from, ok_or. by destruct (_ <=? _). Qed.

Lemma charged_append_bytes x : charged (append_bytes x) (Ok x).
Proof. unfold append_bytes. charges. apply charged_ret. Qed.
Lemma charged_copy_bytes x : charged (copy_bytes x) (Ok x).
Proof. unfold copy_bytes. charges. apply charged_ret. Qed.
Lemma charged_owned_text x : charged (owned_text x) (Ok x).
Proof. unfold owned_text. charges. apply charged_ret. Qed.
Lemma charged_one_byte b : charged (one_byte b) (Ok [b]).
Proof. unfold one_byte. charges. apply charged_ret. Qed.
Lemma charged_push_byte b : charged (push_byte b) (Ok [b]).
Proof. unfold push_byte. charges. apply charged_ret. Qed.

Lemma varint_bytes_spec n v : 0 <= v < 128 ^ Z.of_nat (S n) -> varint_bytes (S n) v = Ok (varint v).
Proof.
  intros Hv. rewrite <- (encode_u64_loop_varint n) by done. revert v Hv.
  induction n as [|n IH]; intros v Hv; cbn -[Z.land Z.shiftr]; rewrite Z.shiftr_div_pow2 by done;
    change (2 ^ 7) with 128.
  - rewrite Z.div_small by done. done.
  - destruct (Z.eqb_spec (v / 128) 0) as [|Hd]; [done|].
    specialize (IH (v / 128)). cbn -[Z.land Z.shiftr] in IH. rewrite IH; [done|].
    split; [apply Z.div_pos; lia|]. apply Z.div_lt_upper_bound; [lia|].
    rewrite Nat2Z.inj_succ, Z.pow_succ_r in Hv by lia. lia.
Qed.

Lemma charged_append_varint v : is_u64 v -> charged (append_varint v) (Ok (varint v)).
Proof.
  intros Hv. unfold append_varint. rewrite varint_bytes_spec.
  - eapply charged_then; [by apply charged_lift|]. apply charged_append_bytes.
  - change (128 ^ Z.of_nat 10) with (2 ^ 70). ulia.
Qed.

(** A length is written in full, or too large to be written. *)
Lemma charged_length {A} v msg (f : Z -> M Session A) o :
  (is_u64 v -> charged (f v) o) -> 0 <= v -> charged (x ← lift (usize_u64 v msg); f x) o.
Proof.
  intros Hf Hv. unfold usize_u64, try_from. destruct (Z.leb_spec v U64_MAX).
  - eapply charged_then; [by apply charged_lift|]. apply Hf. ulia.
  - intros s Hs. xstep. apply wpx_lift. left. by apply resource_limit_code.
Qed.

Lemma charged_append_frame x : charged (append_frame x) (Ok (frame x)).
Proof.
  unfold append_frame. apply charged_length; [|lia]. intros Hx.
  eapply charged_then; [by apply charged_append_varint|].
  eapply charged_then; [apply charged_append_bytes|]. apply charged_ret.
Qed.

Lemma charged_append_frames xs written :
  charged (append_frames xs written) (Ok (written ++ concat (map frame xs))).
Proof. apply charged_concat. intros x _. apply charged_append_frame. Qed.

#[export] Hint Resolve charged_append_bytes charged_copy_bytes charged_owned_text charged_one_byte
  charged_push_byte charged_append_frame charged_append_frames charged_append_varint charged_ret : kernel.

(** [ch] runs one computation of a known value. *)
Ltac ch :=
  charges;
  lazymatch goal with
  | |- charged (mret _) _ => apply charged_ret
  | |- charged (lift (usize_u64 _ _) ≫= _) _ => apply charged_length; [intros ?|lia]
  | |- charged (_ ≫= _) _ => eapply charged_then; [solve [eauto with kernel]|cbv beta]
  end.
