(* ===== verification/TreeSound.v ===== *)
(** * The trees of canonical rows

    [tree] is the tree of a component; reading the row of a well-formed
    component yields its tree.  The readers of [CanonicalTree] agree with those
    of the scanner but for their messages. *)

From S2P Require Import Prelude Bytes Order Error Machine Atomic Limits Cancel Session Varint Schema Scan Component ScanSound ScanComplete Encode CanonicalTree Charged.

(** ** Trees of components *)

Fixpoint tree (c : component) : CanonicalNode :=
  match c with Component t ps => mkCanonicalNode t (encode c) (map tree_part ps) (has_tag 3 c) end
with tree_part (p : part) : CanonicalField :=
  match p with
  | PNull => CNone
  | PText text => CScalar 2 text
  | PBytes data => CScalar 3 data
  | PInteger value => CScalar 4 (varint value)
  | PKind kind => CScalar 5 (EntityKind_name kind)
  | PComponent c => CNode [tree c]
  | PSet cs => CSet (map tree cs)
  | PSequence cs => CSequence (map tree cs)
  end.

(** A property of the components nested in a part. *)
Definition on_part (P : component -> Prop) (p : part) : Prop :=
  match p with
  | PComponent c => P c
  | PSet cs | PSequence cs => Forall P cs
  | _ => True
  end.

(** Induction on the nesting of components. *)
Lemma component_nested (P : component -> Prop) :
  (forall t ps, Forall (on_part P) ps -> P (Component t ps)) -> forall c, P c.
Proof.
  intros H. fix IH 1. intros [t ps]. apply H. induction ps as [|p ps IHps]; constructor; [|exact IHps].
  assert (forall cs, Forall P cs) as Hall by (intros cs; induction cs; constructor; auto).
  destruct p; cbn [on_part]; auto.
Qed.

(** The components whose rows can be read: the tags and numbers of fields of
    the schema, and integers of a reasonable length. *)
Fixpoint readable (c : component) : Prop :=
  match c with
  | Component t ps => canonical_field_count t = Some (len ps) /\ fold_right and True (map readable_part ps)
  end
with readable_part (p : part) : Prop :=
  match p with
  | PInteger value => 0 <= value /\ len (varint value) <= 142858
  | PComponent c => readable c
  | PSet cs | PSequence cs => fold_right and True (map readable cs)
  | _ => True
  end.

Lemma fold_and_Forall {A} (P : A -> Prop) l : fold_right and True (map P l) <-> Forall P l.
Proof.
  induction l as [|x l IH]; cbn [map fold_right]; [by split; [intros; constructor|]|].
  rewrite Forall_cons. by rewrite IH.
Qed.

Lemma readable_parts t ps :
  readable (Component t ps) <-> canonical_field_count t = Some (len ps) /\ Forall readable_part ps.
Proof. cbn [readable]. by rewrite fold_and_Forall. Qed.

Lemma well_formed_readable b k c : well_formed b k c -> readable c.
Proof.
  revert c. induction k as [|k IH]; intros [t ps] Hwf; [done|]. cbn [well_formed ctag parts] in Hwf.
  destruct Hwf as (s & Hs & Hlen & Hfit & _). apply readable_parts. split.
  { unfold canonical_field_count. rewrite Hs. cbn. by rewrite Hlen. }
  apply Forall_lookup. intros i p Hp. destruct (Hfit i p Hp) as (rule & _ & Hr).
  destruct rule as [[]| | |], p; cbn [fits readable_part] in *; try done.
  - destruct Hr as [Hr _]. by apply IH.
  - destruct Hr as (_ & _ & Hr). apply fold_and_Forall. eapply Forall_impl; [exact Hr|]. intros c [[? _] _]. by apply IH.
  - destruct Hr as (_ & Hr). apply fold_and_Forall. eapply Forall_impl; [exact Hr|]. intros c [? _]. by apply IH.
Qed.

(** ** The readers *)

(** The same result, or an error for another reason. *)
Definition same_reading {A} (o o' : outcome A) : Prop :=
  match o with
  | Ok a => o' = Ok a
  | Err _ => exists message, o' = Err (protocol message)
  | Panic => o' = Panic
  end.

Lemma same_reading_bind {A B} (o o' : outcome A) (f g : A -> outcome B) :
  same_reading o o' -> (forall a, same_reading (f a) (g a)) -> same_reading (o ≫= f) (o' ≫= g).
Proof. intros Ho Hf. destruct o; cbn in Ho; [subst; apply Hf|by destruct Ho as [m ->]; exists m|by subst]. Qed.

Lemma same_reading_refl {A} (a : A) : same_reading (Ok a) (Ok a).
Proof. done. Qed.
Lemma same_reading_fail c m m' : same_reading (fail_if c (corrupt m)) (fail_if c (protocol m')).
Proof. destruct c; [by exists m'|done]. Qed.
Lemma same_reading_index {A} (l : list A) i : same_reading (index_at l i) (index_at l i).
Proof. unfold index_at, or_panic. by case_match. Qed.

Lemma read_varint_loop_same n data start cursor value shift :
  same_reading (bounded_loop n data start cursor value shift) (read_varint_loop n data start cursor value shift).
Proof.
  revert cursor value shift. induction n as [|n IH]; intros cursor value shift; cbn [bounded_loop read_varint_loop]; [by eexists|].
  apply same_reading_bind; [apply same_reading_index|]. intros byte.
  apply same_reading_bind; [apply same_reading_fail|]. intros _.
  apply same_reading_bind; [by destruct (shift <? 64)|]. intros shifted.
  destruct (_ =? 0); [|apply IH]. by apply same_reading_bind; [apply same_reading_fail|].
Qed.

Lemma read_any_loop_same n data start cursor :
  same_reading (any_loop n data start cursor) (read_any_loop n data start cursor).
Proof.
  revert cursor. induction n as [|n IH]; intros cursor; cbn [any_loop read_any_loop]; [by eexists|].
  apply same_reading_bind; [apply same_reading_index|]. intros byte.
  destruct (_ =? 0); [by apply same_reading_bind; [apply same_reading_fail|]|].
  apply same_reading_bind; [apply same_reading_fail|]. intros _. apply IH.
Qed.

Lemma read_varint_same data offset bound :
  same_reading (scan_bounded_varint data offset bound) (read_varint data offset bound).
Proof. apply read_varint_loop_same. Qed.

Lemma read_frame_same data offset bound :
  same_reading ('(start, end_, _) ← scan_frame data offset bound; Ok (start, end_)) (read_frame data offset bound).
Proof.
  unfold scan_frame, read_frame. pose proof (read_varint_same data offset bound) as H.
  destruct (scan_bounded_varint data offset bound) as [[n start]|e|]; cbn in H; [|by destruct H as [m ->]; eexists|by rewrite H].
  rewrite H. cbn. unfold try_from, checked_add. destruct (n <=? USIZE_MAX); cbn; [|by eexists].
  destruct (start + n <=? USIZE_MAX); cbn; [|by eexists].
  rewrite !Z.leb_antisym. destruct (bound <? start + n), (len data <? start + n); cbn; try done; by eexists.
Qed.

(** ** Reading a row *)

Lemma charged_guard {A} c e (f : unit -> M Session A) o :
  code e = "NATIVE_WIRE_LIMIT"%string -> (c = false -> charged (f tt) o) -> charged (ensure_not c e ≫= f) o.
Proof.
  intros He Hf s Hs. xstep. apply wpx_ensure_not; intros E; [left; by apply resource_limit_code|by apply Hf].
Qed.

Lemma charged_pass {A} c e (f : unit -> M Session A) o :
  c = false -> charged (f tt) o -> charged (ensure_not c e ≫= f) o.
Proof. intros -> Hf s Hs. xstep. apply wpx_ensure_not; [done|]. intros _. by apply Hf. Qed.

Lemma charged_outcome {A B} (o : outcome A) a (f : A -> M Session B) o' :
  o = Ok a -> charged (f a) o' -> charged (lift o ≫= f) o'.
Proof. intros -> Hf. eapply charged_then; [by apply charged_lift|done]. Qed.

Section Reading.
Context (data : bytes) (limits : Limits).
Hypothesis data_size : len data <= USIZE_MAX.
Notation stands := (stands data).

Lemma read_varint_stands a stop v : stands a stop (varint v) -> is_u64 v -> read_varint data a stop = Ok (v, a + len (varint v)).
Proof.
  intros (Hr & Hle & Hs) Hv. pose proof (read_varint_same data a stop) as H.
  by rewrite (scan_bounded_varint_complete _ _ _ v) in H.
Qed.

Lemma read_frame_stands a stop x : stands a stop (frame x) ->
  exists s, read_frame data a stop = Ok (s, a + len (frame x)) /\ 0 <= s /\ s + len x = a + len (frame x) /\
    get_range data s (a + len (frame x)) = Some x /\ stands s (a + len (frame x)) x.
Proof.
  intros Hst. pose proof (stands_nonneg _ _ _ _ Hst). pose proof Hst as (Hr & Hle & Hs).
  pose proof (read_frame_same data a stop) as H'. rewrite (scan_frame_complete _ _ _ x) in H' by done. cbn in H'.
  pose proof (length_frame x). exists (a + len (varint (len x))). unfold frame in Hst.
  apply stands_app in Hst as [_ (Hx & Hxl & _)]. split_and!; try done; try lia.
  - by replace (a + len (frame x)) with (a + len (varint (len x)) + len x) by lia.
  - split_and!; [done|lia|lia].
Qed.

Lemma read_any_stands a stop z : stands a stop (varint z) -> 0 <= z -> len (varint z) <= 142858 ->
  read_any_varint data a stop = Ok (a + len (varint z)).
Proof.
  intros (Hr & Hle & Hs) Hz Hl. pose proof (read_any_loop_same (Z.to_nat (stop - a)) data a a) as H.
  pose proof (scan_any_varint_complete data a stop z Hz Hl Hr Hle) as E. unfold scan_any_varint in E. by rewrite E in H.
Qed.

(** What a recursive call reads at a depth. *)
Definition reads_trees (recur : Z -> Z -> Z -> Z -> M Session (CanonicalNode * Z * Z)) (depth : Z) : Prop :=
  forall c start stop terms, readable c -> stands start stop (encode c) ->
    charged (recur start stop depth terms) (Ok (tree c, start + len (encode c), terms + size c)).

Section Fields.
Context (recur : Z -> Z -> Z -> Z -> M Session (CanonicalNode * Z * Z)) (depth : Z).
Hypothesis depth_small : depth < U32_MAX.
Hypothesis recur_reads : reads_trees recur (depth + 1).

Lemma contains_tree c : contains_anonymous (tree c) = has_tag 3 c.
Proof. by destruct c. Qed.

(** The progress after what stands at an offset. *)
Definition progress (offset terms : Z) (seen : bool) : Progress :=
  {| at_ := offset; seen_terms := terms; anonymous_seen := seen |}.

Lemma charged_parse_child bound message c offset terms seen :
  readable c -> stands offset bound (frame (encode c)) ->
  charged (parse_child recur data bound depth message (progress offset terms seen))
    (Ok (tree c, progress (offset + len (frame (encode c))) (terms + size c) (seen || has_tag 3 c))).
Proof.
  intros Hc Hst. destruct (read_frame_stands _ _ _ Hst) as (s & Hf & Hs0 & Hend & Hr & Hst').
  unfold parse_child. cbn [at_ progress]. eapply charged_outcome; [exact Hf|]. cbv beta iota.
  unfold saturating_add. replace (Z.min U32_MAX (depth + 1)) with (depth + 1) by lia.
  eapply charged_then; [by apply recur_reads|]. cbv beta iota. rewrite Hend.
  apply charged_pass; [by rewrite Z.eqb_refl|]. rewrite contains_tree. apply charged_ret.
Qed.

(** The members of a collection that stands at an offset. *)
Definition member_bytes (item_marker : bool) (c : component) : bytes :=
  (if item_marker then [1] else []) ++ frame (encode c).

Definition members_progress (marked : bool) (cs : list component) (offset terms : Z) (seen : bool) : Progress :=
  progress (offset + len (concat (map (member_bytes marked) cs))) (terms + sum (map size cs))
    (seen || existsb (has_tag 3) cs).

Lemma members_progress_snoc marked cs c offset terms seen :
  members_progress marked (cs ++ [c]) offset terms seen =
  progress (offset + len (concat (map (member_bytes marked) cs)) + len (member_bytes marked c))
    (terms + sum (map size cs) + size c) ((seen || existsb (has_tag 3) cs) || has_tag 3 c).
Proof.
  unfold members_progress, progress. rewrite map_snoc, concat_snoc, length_app, map_snoc, sum_app, existsb_snoc, orb_assoc.
  unfold sum at 2. cbn [foldr]. f_equal; lia.
Qed.

Lemma charged_parse_members bound marked message cs offset terms seen :
  Forall readable cs -> stands offset bound (concat (map (member_bytes marked) cs)) ->
  charged (parse_members recur data bound depth (len cs) marked message (progress offset terms seen))
    (Ok (map tree cs, members_progress marked cs offset terms seen)).
Proof.
  intros Hcs Hst. unfold parse_members.
  destruct (charged_range (fun i x => x = (map tree (take (Z.to_nat i) cs),
      members_progress marked (take (Z.to_nat i) cs) offset terms seen))
    (fun (_ : Z) '(values, p) =>
      p ← (if marked then
             ensure_not (negb (bool_decide (get_at data (at_ p) = Some 1)))
               (protocol "native anonymous sequence item marker is invalid");;
             mret (move_to (at_ p + 1) p)
           else mret p);
      '(child, p) ← parse_child recur data bound depth message p;
      mret (values ++ [child], p)) 0 (Z.to_nat (len cs)) ([], progress offset terms seen)) as (x & -> & Hx).
  - cbn [Z.to_nat take map]. unfold members_progress, progress. cbn. by rewrite !Z.add_0_r, orb_false_r.
  - intros i x Hi ->. eexists. split; [reflexivity|].
    destruct (lookup_lt_is_Some_2 cs (Z.to_nat i)) as [c Hc]; [lia|].
    destruct (member_stands data (member_bytes marked) _ _ _ _ _ Hst Hc) as (Htake & Hm & _ & _).
    assert (readable c) as Hrc by (by eapply Forall_lookup_1).
    replace (Z.to_nat (i + 1)) with (S (Z.to_nat i)) by lia. rewrite Htake, members_progress_snoc, map_snoc.
    cbv beta iota. set (pre := len (concat (map (member_bytes marked) (take (Z.to_nat i) cs)))) in *.
    destruct marked; cbn [member_bytes app] in Hm |- *.
    + apply stands_cons in Hm as [Hone Hm]. eapply charged_then.
      { apply charged_pass; [|apply charged_ret]. cbn [at_ members_progress progress]. unfold pre in Hone. by rewrite Hone. }
      unfold members_progress, move_to, progress at 1. cbn [at_ seen_terms anonymous_seen].
      eapply charged_then; [by apply charged_parse_child|]. cbv beta iota. fold pre.
      eapply charged_eq; [apply charged_ret|]. cbn [length]. unfold pre. do 3 f_equal. lia.
    + eapply charged_then; [apply charged_ret|]. unfold members_progress.
      eapply charged_then; [by apply charged_parse_child|]. cbv beta iota. apply charged_ret.
  - rewrite Z.add_0_l, Z2Nat.id, Nat2Z.id, firstn_all in Hx by lia. rewrite Nat2Z.id. exact Hx.
Qed.

(** What a field leaves behind. *)
Definition field_progress (p : part) (offset terms : Z) (seen : bool) : Progress :=
  progress (offset + len (encode_part p)) (terms + part_size p) (seen || part_has_tag 3 p).

Lemma read_scalar bound m x offset terms seen :
  (m = 2 \/ m = 3 \/ m = 5) -> stands offset bound (m :: frame x) ->
  charged (parse_field recur data bound depth (progress offset terms seen))
    (Ok (CScalar m x, progress (offset + len (m :: frame x)) terms seen)).
Proof.
  intros Hm Hst. pose proof Hst as (_ & Hle & _). apply stands_cons in Hst as [Hone Hst].
  unfold parse_field. cbn [at_ progress]. rewrite (proj2 (Z.ltb_lt _ _)) by (cbn [length] in Hle; lia).
  rewrite Hone. eapply charged_outcome; [done|]. cbn [move_to at_ seen_terms anonymous_seen].
  destruct (read_frame_stands _ _ _ Hst) as (s & Hf & Hs0 & Hend & Hr & Hst').
  assert (((m =? 0) || (m =? 1)) = false /\ ((m =? 2) || (m =? 3) || (m =? 5)) = true) as [E1 E2]
    by (destruct Hm as [-> | [-> | ->]]; done).
  apply orb_false_iff in E1 as [-> ->]. rewrite E2.
  eapply charged_outcome; [exact Hf|]. cbv beta iota.
  eapply charged_outcome; [unfold index_range; by rewrite Hr|]. eapply charged_eq; [apply charged_ret|].
  unfold progress, move_to. cbn [length seen_terms anonymous_seen]. do 3 f_equal. lia.
Qed.

Lemma members_filled marked cs : len cs <= len (concat (map (member_bytes marked) cs)).
Proof.
  induction cs as [|c cs IH]; cbn [map concat length]; [lia|]. unfold member_bytes at 1.
  rewrite !length_app. pose proof (length_frame (encode c)) as Hf.
  pose proof (varint_length_pos (len (encode c)) ltac:(lia)). lia.
Qed.

(** The members of a set or sequence, after its marker. *)
Lemma read_collection bound (marked : bool) cs offset terms seen :
  Forall readable cs ->
  stands offset bound ((if marked then 7 else 6) :: varint (len cs) ++ concat (map (member_bytes marked) cs)) ->
  charged (parse_field recur data bound depth (progress offset terms seen))
    (Ok (if marked then CSequence (map tree cs) else CSet (map tree cs),
         progress (offset + len ((if marked then 7 else 6) :: varint (len cs) ++ concat (map (member_bytes marked) cs)))
           (terms + sum (map size cs)) (seen || existsb (has_tag 3) cs))).
Proof.
  intros Hcs Hst. pose proof Hst as (_ & Hle & Hbound). apply stands_cons in Hst as [Hone Hst].
  pose proof (members_filled marked cs) as Hfill. cbn [length] in Hle. rewrite length_app in Hle.
  apply stands_nonneg in Hst as Hs0.
  unfold parse_field. cbn [at_ progress]. rewrite (proj2 (Z.ltb_lt _ _)) by lia.
  rewrite Hone. eapply charged_outcome; [done|]. cbn [move_to at_ seen_terms anonymous_seen].
  apply stands_app in Hst as [Hv Hst].
  assert (read_varint data (offset + 1) bound = Ok (len cs, offset + 1 + len (varint (len cs)))) as Hread
    by (apply read_varint_stands; [done|ulia]).
  replace ((if marked then 7 else 6) =? 0) with false by (by destruct marked).
  replace ((if marked then 7 else 6) =? 1) with false by (by destruct marked).
  replace (((if marked then 7 else 6) =? 2) || ((if marked then 7 else 6) =? 3) || ((if marked then 7 else 6) =? 5))
    with false by (by destruct marked).
  replace ((if marked then 7 else 6) =? 4) with false by (by destruct marked).
  replace (((if marked then 7 else 6) =? 6) || ((if marked then 7 else 6) =? 7)) with true by (by destruct marked).
  replace ((if marked then 7 else 6) =? 7) with marked by (by destruct marked).
  replace ((if marked then 7 else 6) =? 6) with (negb marked) by (by destruct marked).
  eapply charged_outcome; [exact Hread|]. cbv beta iota.
  eapply charged_outcome; [rewrite try_from_ok by ulia; done|].
  charges. eapply charged_then; [by apply charged_parse_members|]. cbv beta iota.
  eapply charged_eq; [apply charged_ret|]. unfold members_progress, progress. f_equal.
  destruct marked; cbn [negb length]; rewrite length_app; do 2 f_equal; lia.
Qed.

Lemma charged_parse_field bound p offset terms seen :
  readable_part p -> stands offset bound (encode_part p) ->
  charged (parse_field recur data bound depth (progress offset terms seen))
    (Ok (tree_part p, field_progress p offset terms seen)).
Proof.
  intros Hp Hst. unfold field_progress. destruct p as [|text|bs|value|kind|c|cs|cs];
    cbn [encode_part tree_part part_size part_has_tag existsb] in *; rewrite ?Z.add_0_r, ?orb_false_r.
  - pose proof Hst as (_ & Hle & _). apply stands_cons in Hst as [Hone _].
    unfold parse_field. cbn [at_ progress]. rewrite (proj2 (Z.ltb_lt _ _)) by (cbn [length] in Hle; lia).
    rewrite Hone. eapply charged_outcome; [done|]. apply charged_ret.
  - apply read_scalar; auto.
  - apply read_scalar; auto.
  - pose proof Hst as (_ & Hle & _). apply stands_cons in Hst as [Hone Hst].
    unfold parse_field. cbn [at_ progress]. rewrite (proj2 (Z.ltb_lt _ _)) by (cbn [length] in Hle; lia).
    rewrite Hone. eapply charged_outcome; [done|]. cbn -[Z.add Z.mul varint].
    destruct Hp as [Hz Hl]. eapply charged_outcome; [by apply (read_any_stands _ _ value)|].
    pose proof Hst as (Hr & _). eapply charged_outcome; [unfold index_range; by rewrite Hr|].
    eapply charged_eq; [apply charged_ret|]. unfold progress, move_to. cbn [seen_terms anonymous_seen].
    do 3 f_equal. cbn [length]. lia.
  - apply read_scalar; auto.
  - pose proof Hst as (_ & Hle & _). apply stands_cons in Hst as [Hone Hst].
    unfold parse_field. cbn [at_ progress]. rewrite (proj2 (Z.ltb_lt _ _)) by (cbn [length] in Hle; lia).
    rewrite Hone. eapply charged_outcome; [done|]. cbn -[Z.add Z.mul parse_child frame].
    eapply charged_then; [by apply charged_parse_child|]. cbv beta iota. charges.
    eapply charged_eq; [apply charged_ret|]. unfold progress. do 3 f_equal. lia.
  - apply (read_collection bound false); [by apply fold_and_Forall|done].
  - apply (read_collection bound true); [by apply fold_and_Forall|done].
Qed.
End Fields.

(** The body of a node reads its component, if its children do. *)
Lemma charged_parse_body recur depth c start stop terms :
  (depth <= Z.min (max_nesting_depth limits) 1024 -> reads_trees recur (depth + 1)) ->
  readable c -> stands start stop (encode c) ->
  charged (parse_node_body recur data limits start stop depth terms) (Ok (tree c, start + len (encode c), terms + size c)).
Proof.
  intros Hrec Hc Hst. destruct c as [t ps]. apply readable_parts in Hc as [Hcount Hps].
  assert (1 <= t <= 148) as Ht.
  { unfold canonical_field_count in Hcount. destruct (spec t) as [s|] eqn:E; [|done]. by apply spec_range in E. }
  unfold parse_node_body. charges.
  eapply (charged_then _ _ (terms + 1)); [apply charged_lift_bound; unfold checked_add, ok_or; by destruct (_ <=? _)|].
  apply charged_guard; [done|]. intros _. apply charged_guard; [done|]. intros Hd. bool_to_prop.
  assert (reads_trees recur (depth + 1)) as Hrec' by (apply Hrec; lia).
  cbn [encode] in Hst. pose proof Hst as (Hall & _). apply stands_app in Hst as [Htag Hst].
  eapply charged_outcome; [apply read_varint_stands; [done|ulia]|]. cbv beta iota.
  eapply charged_outcome; [rewrite try_from_ok by ulia; done|].
  eapply charged_outcome; [by rewrite Hcount|]. charges.
  destruct (charged_range (fun i x => x = (map tree_part (take (Z.to_nat i) ps),
      progress (start + len (varint t) + len (concat (map encode_part (take (Z.to_nat i) ps))))
        (terms + 1 + sum (map part_size (take (Z.to_nat i) ps)))
        ((t =? 3) || existsb (part_has_tag 3) (take (Z.to_nat i) ps))))
    (fun (_ : Z) '(fields, p) => '(field, p) ← parse_field recur data stop depth p; mret (fields ++ [field], p))
    0 (Z.to_nat (len ps)) ([], progress (start + len (varint t)) (terms + 1) (t =? 3))) as (x & -> & Hx).
  - cbn. by rewrite !Z.add_0_r, orb_false_r.
  - intros i x Hi ->. eexists. split; [reflexivity|].
    destruct (lookup_lt_is_Some_2 ps (Z.to_nat i)) as [p Hp]; [lia|].
    assert (take (S (Z.to_nat i)) ps = take (Z.to_nat i) ps ++ [p]) as Htake by by apply take_S_r.
    assert (stands (start + len (varint t) + len (concat (map encode_part (take (Z.to_nat i) ps)))) stop (encode_part p)) as Hstp.
    { rewrite <- (take_drop_middle ps _ p Hp), map_app, concat_app in Hst. cbn [map concat] in Hst.
      apply stands_app in Hst as [_ Hst]. by apply stands_app in Hst as [Hst _]. }
    cbv beta iota. eapply charged_then; [apply charged_parse_field; [ulia|done|by eapply Forall_lookup_1|done]|].
    cbv beta iota. eapply charged_eq; [apply charged_ret|].
    replace (Z.to_nat (i + 1)) with (S (Z.to_nat i)) by lia. rewrite Htake.
    unfold field_progress, progress. rewrite !map_snoc, concat_snoc, length_app, sum_app, existsb_snoc, orb_assoc.
    unfold sum at 3. cbn [foldr]. do 3 f_equal; lia.
  - rewrite Z.add_0_l, Z2Nat.id, Nat2Z.id, firstn_all in Hx by lia.
    rewrite Nat2Z.id. eapply charged_then; [exact Hx|]. cbv beta iota. cbn [progress at_ anonymous_seen seen_terms].
    replace (start + len (varint t) + len (concat (map encode_part ps)))
      with (start + len (varint t ++ concat (map encode_part ps))) by (rewrite length_app; lia).
    eapply charged_outcome; [by rewrite Hall|]. eapply charged_eq; [apply charged_ret|].
    cbn [tree encode has_tag size]. rewrite (Z.eqb_sym 3 t). do 2 f_equal. lia.
Qed.

Lemma charged_parse_node fuel depth :
  0 <= depth -> Z.min (max_nesting_depth limits) 1024 + 1 <= depth + Z.of_nat fuel ->
  reads_trees (parse_node (S fuel) data limits) depth.
Proof.
  revert depth. induction fuel as [|fuel IH]; intros depth H0 Hd c start stop terms Hc Hst.
  - apply charged_parse_body; [lia|done|done].
  - change (parse_node (S (S fuel)) data limits start stop depth terms)
      with (parse_node_body (parse_node (S fuel) data limits) data limits start stop depth terms).
    apply charged_parse_body; [|done|done]. intros _. apply IH; lia.
Qed.
End Reading.

(** Reading the row of a component yields its tree. *)
Lemma charged_parse_root c limits :
  readable c -> len (encode c) <= USIZE_MAX -> 0 <= max_nesting_depth limits ->
  charged (parse_root (encode c) limits) (Ok (tree c)).
Proof.
  intros Hc Hl Hd. unfold parse_root, parse_fuel.
  eapply charged_then.
  - apply (charged_parse_node (encode c) limits Hl); [lia|lia|exact Hc|].
    split; [by apply get_range_full|lia].
  - cbv beta iota. apply charged_pass; [|apply charged_ret]. rewrite Z.add_0_l. by rewrite Z.eqb_refl.
Qed.
