(* ===== verification/Renaming.v ===== *)
(** * Renaming the anonymous individuals of a component

    What the tree algorithms of anonymous scoping compute, over components:
    the identities of a component, its skeleton, and the component with other
    identities in canonical form. *)

From S2P Require Import Prelude Bytes Order Hash Error Machine Atomic Limits Cancel Session Schema Scan Component ScanSound ScanComplete Encode CanonicalTree BlankGraph Charged TreeSound Varint.

(** ** Components that can be scoped *)

Definition is_anonymous_parts (ps : list part) : Prop :=
  match ps with [PBytes s; PBytes k] => len s = 32 /\ k <> [] | _ => False end.
Definition not_bytes (p : part) : Prop := match p with PBytes _ => False | _ => True end.

(** Anonymous individuals have a scope and a key; the other constructors are in
    the ledger of field names, and have no byte strings. *)
Fixpoint scopable (c : component) : Prop :=
  match c with
  | Component t ps =>
      (t = 3 /\ is_anonymous_parts ps) \/
      (t <> 3 /\ is_u64 t /\ (exists name names, constructor_ledger t = Ok (name, names) /\ length names = length ps) /\
       Forall not_bytes ps /\ fold_right and True (map scopable_part ps))
  end
with scopable_part (p : part) : Prop :=
  match p with
  | PComponent c => scopable c
  | PSet cs | PSequence cs => fold_right and True (map scopable cs)
  | _ => True
  end.

Lemma scopable_parts t ps : t <> 3 -> scopable (Component t ps) ->
  is_u64 t /\ (exists name names, constructor_ledger t = Ok (name, names) /\ length names = length ps) /\
  Forall not_bytes ps /\ Forall scopable_part ps.
Proof. intros Ht [[? _]|(_ & H1 & H2 & H3 & H4)]; [done|]. by rewrite fold_and_Forall in H4. Qed.

(** The two ledgers of constructors agree. *)
Definition ledgers_agree (t : Z) : bool :=
  match spec t with
  | Some s =>
      match constructor_ledger t with
      | Ok (_, names) => len names =? fields s
      | _ => false
      end &&
      forallb (fun i => match field_rule t i with
                        | Some (FScalar (SBytesExact _ | SBytesNonempty)) => t =? 3
                        | _ => true
                        end) [0; 1; 2; 3]
  | None => true
  end.

Lemma ledgers_agree_all : forallb ledgers_agree (map Z.of_nat (List.seq 0 149)) = true.
Proof. vm_compute. reflexivity. Qed.

Lemma ledgers_agree_spec t s : spec t = Some s -> ledgers_agree t = true.
Proof.
  intros Hs. pose proof (spec_range _ _ Hs) as Ht. pose proof ledgers_agree_all as H.
  rewrite forallb_forall in H. apply H, in_map_iff. exists (Z.to_nat t). split; [lia|]. apply in_seq. lia.
Qed.

Lemma spec_names t s : spec t = Some s -> exists name names, constructor_ledger t = Ok (name, names) /\ len names = fields s.
Proof.
  intros Hs. pose proof (ledgers_agree_spec t s Hs) as H. unfold ledgers_agree in H. rewrite Hs in H.
  apply andb_true_iff in H as [H _]. destruct (constructor_ledger t) as [[name names]| |]; [|done|done].
  bool_to_prop. by exists name, names.
Qed.

Lemma bytes_rule_anonymous t i n :
  field_rule t i = Some (FScalar (SBytesExact n)) \/ field_rule t i = Some (FScalar SBytesNonempty) ->
  (exists s, spec t = Some s) -> t = 3.
Proof.
  intros Hr [s Hs]. pose proof (ledgers_agree_spec t s Hs) as H. unfold ledgers_agree in H. rewrite Hs in H.
  apply andb_true_iff in H as [_ H]. rewrite forallb_forall in H.
  assert (0 <= i <= 3) as Hi by (destruct Hr as [Hr|Hr]; by eapply field_rule_index).
  specialize (H i). assert (In i [0; 1; 2; 3]) as Hin by (cbn; lia). apply H in Hin.
  destruct Hr as [Hr|Hr]; rewrite Hr in Hin; by bool_to_prop.
Qed.

Lemma well_formed_scopable b k c : well_formed b k c -> scopable c.
Proof.
  revert c. induction k as [|k IH]; intros [t ps] Hwf; [done|]. cbn [well_formed ctag parts] in Hwf.
  destruct Hwf as (s & Hs & Hlen & Hfit & _). cbn [scopable]. destruct (Z.eq_dec t 3) as [->|Ht].
  - left. split; [done|]. injection Hs as <-. cbn in Hlen.
    destruct ps as [|p [|q [|]]]; cbn [length] in Hlen; try lia.
    destruct (Hfit 0%nat p eq_refl) as (r & Hr & Hp), (Hfit 1%nat q eq_refl) as (r' & Hr' & Hq).
    injection Hr as <-. injection Hr' as <-. by destruct p, q; cbn in Hp, Hq.
  - right. split; [done|]. pose proof (spec_range _ _ Hs). split; [ulia|].
    destruct (spec_names t s Hs) as (name & names & Hledger & Hn).
    split; [exists name, names; split; [done|lia]|]. rewrite fold_and_Forall, <- Forall_and.
    apply Forall_lookup. intros i p Hp. destruct (Hfit i p Hp) as (rule & Hrule & Hr).
    assert (forall n, rule <> FScalar (SBytesExact n)) as Hx.
    { intros n ->. apply Ht. eapply (bytes_rule_anonymous t _ n); eauto. }
    assert (rule <> FScalar SBytesNonempty) as Hy.
    { intros ->. apply Ht. eapply (bytes_rule_anonymous t _ 0); eauto. }
    destruct rule as [[]| | |], p; cbn [fits not_bytes scopable_part] in *; try done; try (by destruct (Hx size)).
    + split; [done|]. destruct Hr as [Hr _]. by apply IH.
    + split; [done|]. destruct Hr as (_ & _ & Hr). apply fold_and_Forall. eapply Forall_impl; [exact Hr|].
      intros c [[? _] _]. by apply IH.
    + split; [done|]. destruct Hr as (_ & Hr). apply fold_and_Forall. eapply Forall_impl; [exact Hr|].
      intros c [? _]. by apply IH.
Qed.

(** ** Identities *)

(** The anonymous individuals of a component, in document order. *)
Fixpoint identities_of (c : component) : list Identity :=
  match c with
  | Component t ps =>
      if t =? 3 then
        match ps with [PBytes s; PBytes k] => [{| scope := s; key := k |}] | _ => [] end
      else concat (map identities_of_part ps)
  end
with identities_of_part (p : part) : list Identity :=
  match p with
  | PComponent c => identities_of c
  | PSet cs | PSequence cs => concat (map identities_of cs)
  | _ => []
  end.

Lemma anonymous_identity_tree s k : len s = 32 -> k <> [] ->
  anonymous_identity (tree (Component 3 [PBytes s; PBytes k])) = Ok {| scope := s; key := k |}.
Proof.
  intros Hs Hk. unfold anonymous_identity. cbn [tree tree_fields map tree_part]. rewrite Hs.
  replace (bytes_eqb k []) with false; [done|]. symmetry. by apply bytes_eqb_neq.
Qed.

(** One label joins the collected ones. *)
Definition add_label (identity : Identity) (labels : list bytes) : outcome (list bytes) :=
  label ← provisional_label identity; Ok (labels ++ match label with Some l => [l] | None => [] end).

Lemma ofor_each_app {X Y} (body : Y -> X -> outcome X) xs ys x :
  ofor_each body (xs ++ ys) x = ofor_each body xs x ≫= ofor_each body ys.
Proof.
  revert x. induction xs as [|y xs IH]; intros x; cbn [ofor_each app]; [done|].
  unfold mbind, outcome_mbind. destruct (body y x); cbn [outcome_bind]; [apply IH|done|done].
Qed.

Lemma ofor_each_concat {X Y Z} (body : Y -> X -> outcome X) (f : Z -> list Y) zs x :
  ofor_each body (concat (map f zs)) x = ofor_each (fun z => ofor_each body (f z)) zs x.
Proof.
  revert x. induction zs as [|z zs IH]; intros x; cbn [map concat ofor_each]; [done|].
  rewrite ofor_each_app. unfold mbind, outcome_mbind. destruct (ofor_each body (f z) x); cbn [outcome_bind]; [apply IH|done|done].
Qed.

(** A key is split without a panic. *)
Lemma provisional_label_runs i : is_bytes (key i) -> len (key i) <= USIZE_MAX -> provisional_label i <> Panic.
Proof.
  intros Hb Hl. unfold provisional_label. destruct (_ || _) eqn:E; [done|]. apply orb_false_iff in E as [_ E].
  apply negb_false_iff in E. unfold starts_with in E. apply bytes_eqb_eq in E.
  assert (len LEXICAL_KEY <= len (key i)) as Hlen by (rewrite <- E at 1; rewrite length_take; lia).
  apply (owp_no_panic _ (fun _ => True)). step. apply owp_index_range; [lia|lia|]. intros payload Hp.
  assert (is_bytes payload) as Hbp by eauto with bytes.
  pose proof (get_range_length _ _ _ _ Hp) as (Hpl & _ & _).
  pose proof (read_varint_same payload 0 (len payload)) as Hsame. step.
  assert (owp (scan_bounded_varint payload 0 (len payload)) (fun '(v, next) => 0 <= v /\ 0 < next <= len payload)) as Hs.
  { apply scan_bounded_varint_sound; [done|lia|lia|]. intros v next _ Hv Hn. split; [ulia|done]. }
  destruct (scan_bounded_varint payload 0 (len payload)) as [[v next]|e|]; cbn in Hsame, Hs; [|by destruct Hsame as [m ->]|done].
  rewrite Hsame. cbv beta iota. step. step. step. conversions. step. step.
  match goal with H : _ = Some _ |- _ => rename H into Hend end.
  destruct (checked_add _ _ _) as [end_|] eqn:E2; [|done]. cbn in Hend.
  destruct (end_ =? len payload) eqn:E3; [|done]. injection Hend as <-. bool_to_prop.
  apply checked_add_Some in E2 as [-> E2]. step. apply owp_index_range; [lia|lia|].
  intros label _. by destruct (is_utf8 label).
Qed.

(** The keys of a component are byte strings that fit the address space. *)
Definition keys_fit (c : component) : Prop :=
  Forall (fun i => is_bytes (key i) /\ len (key i) <= USIZE_MAX) (identities_of c).

Lemma Forall_concat_map {A B} (P : B -> Prop) (f : A -> list B) l :
  Forall P (concat (map f l)) <-> Forall (fun x => Forall P (f x)) l.
Proof.
  induction l as [|x l IH]; cbn [map concat]; [by split; constructor|]. rewrite Forall_app, Forall_cons. by rewrite IH.
Qed.

Lemma identities_of_parts t ps : t <> 3 -> identities_of (Component t ps) = concat (map identities_of_part ps).
Proof. intros Ht. cbn [identities_of]. by rewrite (proj2 (Z.eqb_neq t 3)). Qed.

Lemma collect_labels_node t enc fields anonymous labels : t <> 3 ->
  collect_labels (mkCanonicalNode t enc fields anonymous) labels = for_each collect_field fields labels.
Proof. intros Ht. cbn [collect_labels]. by rewrite (proj2 (Z.eqb_neq t 3)). Qed.

Lemma charged_for_each_map {X Y Z} (body : Y -> X -> M Session X) (f : Z -> Y) (step : Z -> X -> outcome X) items x :
  Forall (fun z => forall x, charged (body (f z) x) (step z x)) items ->
  charged (for_each body (map f items) x) (ofor_each step items x).
Proof.
  intros H. revert x. induction H as [|z items Hz _ IH]; intros x; cbn [map for_each ofor_each]; [apply charged_ret|].
  apply charged_bind; [apply Hz|]. intros x' _. apply IH.
Qed.

Lemma charged_collect_labels c labels :
  scopable c -> keys_fit c -> charged (collect_labels (tree c) labels) (ofor_each add_label (identities_of c) labels).
Proof.
  revert labels. induction c as [t ps IH] using component_nested. intros labels Hc Hk.
  destruct (Z.eq_dec t 3) as [->|Ht].
  - destruct Hc as [[_ Hc]|[? _]]; [|done].
    destruct ps as [|[] [|[| |k| | | | |] [|]]]; try done. destruct Hc as [Hs Hkey].
    unfold keys_fit in Hk. cbn [identities_of Z.eqb Pos.eqb] in *. apply Forall_cons in Hk as [[Hb Hl] _]. cbn [key] in *.
    cbn [collect_labels tree Z.eqb Pos.eqb].
    eapply charged_outcome; [by apply anonymous_identity_tree|]. cbn [ofor_each].
    change (charged ?m (?o ≫= ?f)) with (charged m (add_label {| scope := data; key := k |} labels ≫= Ok)).
    unfold add_label.
    assert (forall o : outcome (list bytes), (o ≫= Ok) = o) as Hret by (by intros []). rewrite Hret.
    apply charged_bind; [by apply charged_lift, provisional_label_runs|].
    intros [label|] _; [|rewrite app_nil_r; apply charged_ret]. charges. apply charged_ret.
  - apply scopable_parts in Hc as (_ & _ & _ & Hps); [|done]. unfold keys_fit in Hk.
    rewrite identities_of_parts in Hk |- * by done. apply Forall_concat_map in Hk.
    cbn [tree]. rewrite collect_labels_node by done. rewrite ofor_each_concat.
    apply charged_for_each_map. apply Forall_forall. intros p Hp labels'.
    rewrite Forall_forall in IH, Hps, Hk. specialize (IH p Hp). specialize (Hps p Hp). specialize (Hk p Hp).
    destruct p as [|text|data|value|kind|c|cs|cs]; cbn [tree_part collect_field identities_of_part on_part scopable_part] in *;
      try apply charged_ret; [by apply IH|..].
    all: apply fold_and_Forall in Hps; apply Forall_concat_map in Hk; rewrite ofor_each_concat;
      apply charged_for_each_map; rewrite !Forall_forall in *; intros c Hc l; apply IH; [done|by apply Hps|by apply Hk].
Qed.

(** ** Skeletons *)

Fixpoint skeleton (c : component) : bytes :=
  match c with
  | Component t ps =>
      if t =? 3 then [66]
      else if negb (has_tag 3 c) then 67 :: frame (encode c)
      else 78 :: varint t ++ concat (map (fun p => frame (skeleton_part p)) ps)
  end
with skeleton_part (p : part) : bytes :=
  match p with
  | PNull => [48]
  | PText text => 84 :: frame text
  | PBytes data => []
  | PInteger value => 73 :: varint value
  | PKind kind => 84 :: frame (EntityKind_name kind)
  | PComponent c => skeleton c
  | PSet cs => 83 :: varint (len cs) ++ concat (map frame (sort_by (fun x => x) (map skeleton cs)))
  | PSequence cs => 81 :: varint (len cs) ++ concat (map (fun c => frame (skeleton c)) cs)
  end.

Lemma charged_collect_map {A Y Z} (m : Y -> M Session A) (f : Z -> Y) (g : Z -> A) items done :
  Forall (fun z => charged (m (f z)) (Ok (g z))) items ->
  charged (for_each (fun y result => a ← m y; mret (result ++ [a])) (map f items) done) (Ok (done ++ map g items)).
Proof.
  intros H. revert done. induction H as [|z items Hz _ IH]; intros done; cbn [map for_each].
  - rewrite app_nil_r. apply charged_ret.
  - eapply charged_then; [eapply charged_then; [exact Hz|apply charged_ret]|].
    replace (done ++ g z :: map g items) with ((done ++ [g z]) ++ map g items) by by rewrite <- app_assoc.
    apply IH.
Qed.

(** A loop that writes its items. *)
Lemma charged_write_map {Y Z C} (m : Y -> list C -> M Session (list C)) (f : Z -> Y) (g : Z -> list C) items written :
  Forall (fun z => forall written, charged (m (f z) written) (Ok (written ++ g z))) items ->
  charged (for_each m (map f items) written) (Ok (written ++ concat (map g items))).
Proof.
  intros H. revert written. induction H as [|z items Hz _ IH]; intros written; cbn [map concat for_each].
  - rewrite app_nil_r. apply charged_ret.
  - eapply charged_then; [apply Hz|]. rewrite app_assoc. apply IH.
Qed.

Lemma charged_skeleton c : scopable c -> charged (skeleton_node (tree c)) (Ok (skeleton c)).
Proof.
  induction c as [t ps IH] using component_nested. intros Hc. cbn [tree skeleton_node skeleton].
  destruct (Z.eqb_spec t 3) as [->|Ht]; [apply charged_one_byte|].
  apply scopable_parts in Hc as (Ht64 & _ & Hnb & Hps); [|done].
  destruct (has_tag 3 (Component t ps)); cbn [negb].
  2: { repeat ch. }
  ch. ch. eapply charged_eq.
  { apply (charged_write_map _ tree_part (fun p => frame (skeleton_part p))). apply Forall_forall. intros p Hp written.
    rewrite Forall_forall in IH, Hps, Hnb. specialize (IH p Hp). specialize (Hps p Hp). specialize (Hnb p Hp).
    eapply (charged_then _ _ (skeleton_part p)); [|repeat ch].
    destruct p as [|text|data|value|kind|c|cs|cs]; cbn [tree_part skeleton_field skeleton_part on_part scopable_part] in *;
      try done; cbn [Z.eqb Pos.eqb orb]; try (by repeat ch); [apply charged_one_byte|by apply IH|..];
      apply fold_and_Forall in Hps; rewrite Forall_forall in IH, Hps.
    - charges. eapply charged_then.
      { apply (charged_collect_map _ tree skeleton). apply Forall_forall. intros c Hc. by apply IH, Hps. }
      cbv beta. cbn [app]. ch. ch. rewrite length_sort_by, length_map in *. ch.
      eapply charged_eq; [apply charged_append_frames|]. by rewrite <- app_assoc.
    - ch. ch. rewrite length_map in *. ch.
      eapply charged_eq; [apply (charged_write_map _ tree (fun c => frame (skeleton c)))|by rewrite <- app_assoc].
      apply Forall_forall. intros c Hc written'. eapply charged_then; [by apply IH, Hps|]. repeat ch. }
  by rewrite <- app_assoc.
Qed.

(** ** Canonical members *)

Fixpoint dedup_encoded_after (kept : component) (cs : list component) : list component :=
  match cs with
  | [] => []
  | c :: cs =>
      if bool_decide (encode c = encode kept) then dedup_encoded_after kept cs else c :: dedup_encoded_after c cs
  end.
Definition dedup_encoded (cs : list component) : list component :=
  match cs with [] => [] | c :: cs => c :: dedup_encoded_after c cs end.

(** The distinct members of a set in the order of their rows. *)
Definition canonical_members (cs : list component) : list component := dedup_encoded (sort_by encode cs).

Lemma map_dedup_encoded_after kept cs :
  map encode (dedup_encoded_after kept cs) = vec_dedup_from (encode kept) (map encode cs).
Proof.
  revert kept. induction cs as [|c cs IH]; intros kept; cbn [dedup_encoded_after map vec_dedup_from]; [done|].
  destruct (decide (encode c = encode kept)) as [E|E].
  - by rewrite bool_decide_true.
  - rewrite bool_decide_false by done. cbn [map]. by rewrite IH.
Qed.

Lemma encode_canonical_members cs :
  map encode (canonical_members cs) = vec_dedup (sort_by (fun x => x) (map encode cs)).
Proof.
  unfold canonical_members. rewrite (sort_by_map_key (fun x => x) encode).
  unfold dedup_encoded. destruct (sort_by encode cs) as [|c l]; [done|]. cbn [map vec_dedup].
  by rewrite map_dedup_encoded_after.
Qed.

Lemma encode_members_map (f : bytes -> bytes) cs : map (fun c => f (encode c)) cs = map f (map encode cs).
Proof. by rewrite map_map. Qed.

Lemma dedup_after_ascending kept cs :
  ascending (encode kept :: map encode cs) -> dedup_encoded_after kept cs = cs.
Proof.
  revert kept. induction cs as [|c cs IH]; intros kept Ha; cbn [dedup_encoded_after]; [done|].
  apply StronglySorted_inv in Ha as [Ha Hk]. cbn [map] in *. apply Forall_inv in Hk.
  rewrite bool_decide_false; [by rewrite IH|]. intros E. rewrite E in Hk. by apply bytes_lt_le in Hk as [_ ?].
Qed.

Lemma ascending_ord rows : ascending rows <-> StronglySorted ord_lt rows.
Proof.
  assert (forall x y : bytes, bytes_lt x y <-> ord_lt x y) as Hiff.
  { intros x y. unfold bytes_lt, bytes_ltb, ord_lt, cmp. cbn. by destruct (bytes_compare x y). }
  unfold ascending. split; induction 1 as [|x l _ IH Hx]; constructor; try done;
    (eapply Forall_impl; [exact Hx|]); intros y; apply Hiff.
Qed.

Lemma canonical_members_id cs : ascending (map encode cs) -> canonical_members cs = cs.
Proof.
  intros Ha. unfold canonical_members.
  assert (sort_by encode cs = cs) as ->.
  { apply (keyed_ascending_unique encode).
    - apply sort_by_ascending. apply ascending_ord in Ha. by apply ascending_NoDup.
    - by apply ascending_ord.
    - intros c. apply In_sort_by. }
  destruct cs as [|c cs]; [done|]. cbn [dedup_encoded map] in *. by rewrite dedup_after_ascending.
Qed.

(** Every set of the component is in canonical order. *)
Fixpoint canonical_sets (c : component) : Prop :=
  match c with Component _ ps => fold_right and True (map canonical_sets_part ps) end
with canonical_sets_part (p : part) : Prop :=
  match p with
  | PComponent c => canonical_sets c
  | PSet cs => ascending (map encode cs) /\ fold_right and True (map canonical_sets cs)
  | PSequence cs => fold_right and True (map canonical_sets cs)
  | _ => True
  end.

Lemma canonical_sets_parts t ps : canonical_sets (Component t ps) <-> Forall canonical_sets_part ps.
Proof. cbn [canonical_sets]. by rewrite fold_and_Forall. Qed.

Lemma well_formed_canonical_sets b k c : well_formed b k c -> canonical_sets c.
Proof.
  revert c. induction k as [|k IH]; intros [t ps] Hwf; [done|]. cbn [well_formed ctag parts] in Hwf.
  destruct Hwf as (s & Hs & Hlen & Hfit & _). apply canonical_sets_parts, Forall_lookup.
  intros i p Hp. destruct (Hfit i p Hp) as (rule & _ & Hr).
  destruct rule as [[]| | |], p; cbn [fits canonical_sets_part] in *; try done.
  - destruct Hr as [Hr _]. by apply IH.
  - destruct Hr as (_ & Ha & Hr). split; [done|]. apply fold_and_Forall. eapply Forall_impl; [exact Hr|].
    intros c [[? _] _]. by apply IH.
  - destruct Hr as (_ & Hr). apply fold_and_Forall. eapply Forall_impl; [exact Hr|]. intros c [? _]. by apply IH.
Qed.

(** ** Renaming *)

Section Rename.
Context (g : Identity -> option Identity).

(** The individual with its new identity, if it has one. *)
Definition rename_individual (s k : bytes) : component :=
  match g {| scope := s; key := k |} with
  | Some i => Component 3 [PBytes (scope i); PBytes (key i)]
  | None => Component 3 [PBytes s; PBytes k]
  end.

Fixpoint rename (c : component) : component :=
  match c with
  | Component t ps =>
      if t =? 3 then match ps with [PBytes s; PBytes k] => rename_individual s k | _ => c end
      else Component t (map rename_part ps)
  end
with rename_part (p : part) : part :=
  match p with
  | PComponent c => PComponent (rename c)
  | PSet cs => PSet (canonical_members (map rename cs))
  | PSequence cs => PSequence (map rename cs)
  | _ => p
  end.

Lemma rename_parts t ps : t <> 3 -> rename (Component t ps) = Component t (map rename_part ps).
Proof. intros Ht. cbn [rename]. by rewrite (proj2 (Z.eqb_neq t 3)). Qed.

Lemma map_id_Forall {A} (f : A -> A) l : Forall (fun x => f x = x) l -> map f l = l.
Proof. induction 1 as [|x l Hx _ IH]; cbn [map]; [done|]. by rewrite Hx, IH. Qed.

Lemma existsb_false {A} (f : A -> bool) l : existsb f l = false <-> Forall (fun x => f x = false) l.
Proof.
  induction l as [|x l IH]; cbn [existsb]; [by split|]. rewrite orb_false_iff, Forall_cons. by rewrite IH.
Qed.

(** Without anonymous individuals nothing changes. *)
Lemma rename_named c : has_tag 3 c = false -> canonical_sets c -> rename c = c.
Proof.
  induction c as [t ps IH] using component_nested. intros Hn Hc. cbn [has_tag] in Hn.
  apply orb_false_iff in Hn as [Ht Hn]. rewrite Z.eqb_sym in Ht. apply Z.eqb_neq in Ht.
  rewrite rename_parts by done. f_equal. apply canonical_sets_parts in Hc. apply existsb_false in Hn.
  apply map_id_Forall. rewrite Forall_forall in *. intros p Hp.
  specialize (IH p Hp). specialize (Hn p Hp). specialize (Hc p Hp).
  destruct p as [|text|data|value|kind|c|cs|cs]; cbn [rename_part on_part part_has_tag canonical_sets_part] in *; try done.
  - by rewrite IH.
  - destruct Hc as [Ha Hc]. apply fold_and_Forall in Hc. apply existsb_false in Hn.
    rewrite map_id_Forall; [by rewrite canonical_members_id|].
    rewrite Forall_forall in *. auto.
  - apply fold_and_Forall in Hc. apply existsb_false in Hn. rewrite map_id_Forall; [done|].
    rewrite Forall_forall in *. auto.
Qed.

Context (f : Identity -> outcome (option Identity)).

(** [f] answers [g] on the identities of a component. *)
Definition answers (c : component) : Prop := Forall (fun i => f i = Ok (g i)) (identities_of c).

Lemma charged_encode_anonymous s k : charged (encode_anonymous s k) (Ok (encode (Component 3 [PBytes s; PBytes k]))).
Proof.
  unfold encode_anonymous. eapply charged_then; [apply charged_append_varint; ulia|]. cbv beta. repeat ch.
  eapply charged_eq; [apply charged_ret|]. cbn [encode map concat encode_part app]. by rewrite app_nil_r.
Qed.

Lemma charged_encode_replaced c :
  scopable c -> canonical_sets c -> answers c -> charged (encode_replaced f (tree c)) (Ok (encode (rename c))).
Proof.
  induction c as [t ps IH] using component_nested. intros Hc Hs Ha. cbn [tree encode_replaced].
  destruct (Z.eqb_spec t 3) as [->|Ht].
  - destruct Hc as [[_ Hc]|[? _]]; [|done].
    destruct ps as [|[] [|[| |k| | | | |] [|]]]; try done. destruct Hc as [Hlen Hkey].
    unfold answers in Ha. cbn [identities_of Z.eqb Pos.eqb] in Ha. apply Forall_inv in Ha.
    eapply charged_outcome; [by apply anonymous_identity_tree|].
    eapply charged_outcome; [exact Ha|]. cbn [rename Z.eqb Pos.eqb]. unfold rename_individual.
    destruct (g _); [apply charged_encode_anonymous|apply charged_copy_bytes].
  - destruct (has_tag 3 (Component t ps)) eqn:Htag; cbn [negb].
    2: { rewrite rename_named by done. apply charged_copy_bytes. }
    apply scopable_parts in Hc as (Ht64 & _ & _ & Hps); [|done]. apply canonical_sets_parts in Hs.
    unfold answers in Ha. rewrite identities_of_parts in Ha by done. apply Forall_concat_map in Ha.
    rewrite rename_parts by done. ch. cbn [encode]. rewrite map_map.
    apply (charged_write_map _ tree_part (fun p => encode_part (rename_part p))). apply Forall_forall.
    intros p Hp written. rewrite Forall_forall in IH, Hps, Hs, Ha.
    specialize (IH p Hp). specialize (Hps p Hp). specialize (Hs p Hp). specialize (Ha p Hp).
    eapply charged_then; [|apply charged_ret].
    destruct p as [|text|data|value|kind|c|cs|cs];
      cbn [tree_part encode_replaced_field rename_part encode_part on_part scopable_part canonical_sets_part
           identities_of_part] in *.
    + apply charged_push_byte.
    + ch. cbn [Z.eqb Pos.eqb]. repeat ch.
    + ch. cbn [Z.eqb Pos.eqb]. repeat ch.
    + ch. cbn [Z.eqb Pos.eqb]. repeat ch.
    + ch. cbn [Z.eqb Pos.eqb]. repeat ch.
    + ch. eapply charged_then; [by apply IH|]. repeat ch.
    + destruct Hs as [_ Hs]. apply fold_and_Forall in Hps, Hs. apply Forall_concat_map in Ha.
      ch. charges. eapply charged_then.
      { apply (charged_collect_map _ tree (fun c => encode (rename c))).
        rewrite !Forall_forall in *. intros c Hc. apply IH; auto. by apply Ha. }
      cbv beta. cbn [app]. ch. ch.
      eapply charged_eq; [apply charged_append_frames|]. cbn [app].
      rewrite (encode_members_map frame), encode_canonical_members, map_map.
      rewrite <- (length_map encode (canonical_members _)), encode_canonical_members, map_map. done.
    + apply fold_and_Forall in Hps, Hs. apply Forall_concat_map in Ha.
      ch. ch. rewrite length_map in *. ch. eapply charged_eq.
      { apply (charged_write_map _ tree (fun c => 1 :: frame (encode (rename c)))).
        rewrite !Forall_forall in *. intros c Hc written'. ch. eapply charged_then; [apply IH; auto; by apply Ha|].
        repeat ch. }
      cbn [app]. rewrite length_map, map_map. done.
Qed.
End Rename.
