(* ===== verification/BlankArcs.v ===== *)
(** * The arcs of a document, without charges

    The occurrences of blank labels in a component and the arcs of its root,
    as functions of components; [blank_arcs] computes them. *)

From S2P Require Import Prelude Bytes Order Hash Error Machine Atomic Limits Cancel Session Schema Scan Component ScanSound Encode Decimal CanonicalTree AlphaOrder BlankGraph Charged TreeSound Renaming Varint.

(** ** Paths *)

Definition join_path (prefix suffix : bytes) : bytes := prefix ++ str "/" ++ suffix.
(** The step into a set, to a member with the given skeleton. *)
Definition set_step (skeleton : bytes) : bytes := str "set:" ++ hex_bytes (sha256 skeleton).

Lemma charged_joined_path prefix suffix : charged (joined_path prefix suffix) (Ok (join_path prefix suffix)).
Proof. unfold joined_path, saturating_add. charges; [ulia|]. apply charged_ret. Qed.
Lemma charged_full_hex d : charged (full_hex d) (Ok (hex_bytes d)).
Proof. unfold full_hex. charges. apply charged_ret. Qed.
Lemma charged_set_marker v : charged (set_marker v) (Ok (str "set:" ++ v)).
Proof. unfold set_marker, saturating_add. charges; [ulia|]. apply charged_ret. Qed.
Lemma charged_decimal_index i : charged (decimal_index i) (Ok (decimal i)).
Proof. unfold decimal_index. charges. apply charged_ret. Qed.

#[export] Hint Resolve charged_joined_path charged_full_hex charged_set_marker charged_decimal_index : kernel.

(** ** Occurrences *)

Section Occurrences.
Context (labels : list bytes) (label_of : Identity -> option bytes).

(** The index of a label of the document. *)
Definition label_index (label : bytes) : Z := default 0 (binary_search labels label).

Fixpoint occurrences (c : component) (path : bytes) : list occurrence :=
  match c with
  | Component t ps =>
      if t =? 3 then
        match ps with
        | [PBytes s; PBytes k] =>
            match label_of {| scope := s; key := k |} with
            | Some label => [(label_index label, path)]
            | None => []
            end
        | _ => []
        end
      else
        match constructor_ledger t with
        | Ok (_, names) =>
            concat (zip_with (fun visit name => visit name path) (map occurrences_part ps) names)
        | _ => []
        end
  end
with occurrences_part (p : part) (name path : bytes) : list occurrence :=
  match p with
  | PComponent c => occurrences c (join_path path name)
  | PSet cs =>
      concat (map (fun '((skeleton, _), visit) => visit (join_path (join_path path name) (set_step skeleton)))
        (sort_by fst (map (fun c => ((skeleton c, encode c), occurrences c)) cs)))
  | PSequence cs =>
      concat (imap (fun i visit => visit (join_path (join_path path name) (decimal (Z.of_nat i)))) (map occurrences cs))
  | _ => []
  end.

(** The members of a set in the order of the visit. *)
Definition visit_order (cs : list component) : list component := sort_by (fun c => (skeleton c, encode c)) cs.

Lemma occurrences_set cs name path :
  occurrences_part (PSet cs) name path =
  concat (map (fun c => occurrences c (join_path (join_path path name) (set_step (skeleton c)))) (visit_order cs)).
Proof.
  cbn [occurrences_part]. rewrite (sort_by_map_key fst). cbn [fst]. by rewrite map_map.
Qed.

Lemma occurrences_sequence cs name path :
  occurrences_part (PSequence cs) name path =
  concat (imap (fun i c => occurrences c (join_path (join_path path name) (decimal (Z.of_nat i)))) cs).
Proof. cbn [occurrences_part]. change (map occurrences cs) with (occurrences <$> cs). by rewrite imap_fmap. Qed.

(** The labels of a component are known. *)
Definition known_labels (c : component) : Prop :=
  Forall (fun i => provisional_label i = Ok (label_of i) /\
                   forall l, label_of i = Some l -> is_Some (binary_search labels l)) (identities_of c).

Lemma charged_members path n cs output :
  Forall (fun c => forall path output, scopable c -> known_labels c ->
    charged (blank_occurrences labels (tree c) path output) (Ok (output ++ occurrences c path))) cs ->
  Forall scopable cs -> Forall known_labels cs ->
  charged (for_each (fun value '(index, output) =>
      index_text ← decimal_index index;
      member_path ← joined_path (join_path path n) index_text;
      output ← blank_occurrences labels value member_path output;
      mret (index + 1, output)) (map tree cs) (0, output))
    (Ok (len cs, output ++ concat (imap (fun i c =>
       occurrences c (join_path (join_path path n) (decimal (Z.of_nat i)))) cs))).
Proof.
  intros IH Hs Hk.
  assert (forall (i : nat) output, charged (for_each (fun value '(index, output) =>
      index_text ← decimal_index index;
      member_path ← joined_path (join_path path n) index_text;
      output ← blank_occurrences labels value member_path output;
      mret (index + 1, output)) (map tree cs) (Z.of_nat i, output))
    (Ok (Z.of_nat (i + length cs), output ++ concat (imap (fun j c =>
       occurrences c (join_path (join_path path n) (decimal (Z.of_nat (i + j))))) cs)))) as Hgen; [|by apply (Hgen 0%nat)].
  clear output. induction IH as [|c cs Hc _ IHcs]; intros i output; cbn [map for_each length].
  - rewrite Nat.add_0_r, app_nil_r. apply charged_ret.
  - apply Forall_cons in Hs as [Hsc Hs]. apply Forall_cons in Hk as [Hkc Hk].
    eapply charged_then; [by repeat ch|].
    eapply charged_eq; [replace (Z.of_nat i + 1) with (Z.of_nat (S i)) by lia; by apply IHcs|].
    rewrite imap_cons. cbn [concat]. rewrite Nat.add_0_r, app_assoc. f_equal. f_equal; [lia|].
    f_equal. f_equal. apply imap_ext. intros j x _. cbn. by replace (S (i + j)) with (i + S j)%nat by lia.
Qed.

Lemma concat_map_single {A B} (f : A -> B) l : concat (map (fun a => [f a]) l) = map f l.
Proof. induction l as [|a l IH]; cbn [map concat app]; [done|]. by rewrite IH. Qed.

Lemma charged_occurrences c path output :
  scopable c -> known_labels c ->
  charged (blank_occurrences labels (tree c) path output) (Ok (output ++ occurrences c path)).
Proof.
  revert path output. induction c as [t ps IH] using component_nested. intros path output Hc Hk.
  cbn [tree blank_occurrences occurrences]. destruct (Z.eqb_spec t 3) as [->|Ht].
  - destruct Hc as [[_ Hc]|[? _]]; [|done].
    destruct ps as [|[] [|[| |k| | | | |] [|]]]; try done. destruct Hc as [Hlen Hkey].
    unfold known_labels in Hk. cbn [identities_of Z.eqb Pos.eqb] in Hk. apply Forall_inv in Hk as [Hp Hl].
    eapply charged_outcome; [by apply anonymous_identity_tree|]. eapply charged_outcome; [exact Hp|].
    destruct (label_of _) as [label|]; [|rewrite app_nil_r; apply charged_ret].
    destruct (Hl label eq_refl) as [index Hi]. unfold label_index. rewrite Hi.
    eapply charged_outcome; [done|]. charges. apply charged_ret.
  - apply scopable_parts in Hc as (_ & (name & names & Hledger & Hn) & _ & Hps); [|done].
    unfold known_labels in Hk. rewrite identities_of_parts in Hk by done. apply Forall_concat_map in Hk.
    rewrite Hledger. eapply charged_outcome; [done|]. cbv beta iota.
    rewrite length_map. apply charged_pass; [by rewrite Hn, Z.eqb_refl|].
    eapply (charged_then _ _ ([], output ++ concat (zip_with (fun visit name => visit name path) (map occurrences_part ps) names)));
      [|cbv beta iota; apply charged_ret].
    clear Hledger. revert names output Hn.
    induction ps as [|p ps IHps]; intros [|n names] output Hn; cbn [length] in Hn; try lia; cbn [map zip_with concat for_each].
    + rewrite app_nil_r. apply charged_ret.
    + apply Forall_cons in IH as [IHp IH]. apply Forall_cons in Hps as [Hp Hps]. apply Forall_cons in Hk as [Hkp Hk].
      eapply (charged_then _ _ (names, output ++ occurrences_part p n path)).
      2: { rewrite app_assoc. apply IHps; try done. lia. }
      eapply charged_outcome; [done|]. cbv beta.
      eapply charged_then; [|apply charged_ret].
      clear IHps. destruct p as [|text|data|value|kind|c|cs|cs];
        cbn [tree_part field_occurrences on_part scopable_part identities_of_part] in *;
        try (cbn [occurrences_part]; rewrite app_nil_r; by repeat ch).
      * ch. by apply IHp.
      * rewrite occurrences_set. ch. charges.
        apply fold_and_Forall in Hp. apply Forall_concat_map in Hkp. rewrite Forall_forall in Hp, Hkp, IHp.
        eapply charged_then.
        { apply (charged_write_map _ tree (fun c => [((skeleton c, encode c), blank_occurrences labels (tree c))])).
          apply Forall_forall. intros c Hc grouped. eapply charged_then; [by apply charged_skeleton, Hp|].
          eapply charged_eq; [apply charged_ret|]. by destruct c. }
        cbv beta. cbn [app]. rewrite concat_map_single, (sort_by_map_key fst). cbn [fst]. fold (visit_order cs).
        apply (charged_write_map _ (fun c => ((skeleton c, encode c), blank_occurrences labels (tree c)))
          (fun c => occurrences c (join_path (join_path path n) (set_step (skeleton c))))).
        apply Forall_forall. intros c Hc%list_elem_of_In%In_sort_by%list_elem_of_In written. cbv beta iota. ch. ch. ch.
        apply IHp; [done|by apply Hp|by apply Hkp].
      * rewrite occurrences_sequence. ch.
        apply fold_and_Forall in Hp. apply Forall_concat_map in Hkp.
        eapply (charged_then _ _ (len cs, _)); [|cbv beta iota; apply charged_ret].
        apply (charged_members path n); try done.
Qed.
End Occurrences.

(** ** Arcs *)

Definition unary_arcs (payload : Z) (occurrences : list occurrence) : list BlankArc :=
  map (fun o : occurrence => {| arc_source := o.1; role := o.2; arc_target := None; arc_payload := payload |}) occurrences.

Definition arc_between (payload : Z) (source target : occurrence) : BlankArc :=
  {| arc_source := source.1; role := source.2 ++ str "->" ++ target.2; arc_target := Some target.1; arc_payload := payload |}.

Fixpoint binary_arcs (payload : Z) (occurrences : list occurrence) : list BlankArc :=
  match occurrences with
  | [] => []
  | source :: occurrences => map (arc_between payload source) occurrences ++ binary_arcs payload occurrences
  end.

(** The name of the constructor of a root, where the paths begin. *)
Definition root_name (c : component) : bytes :=
  match constructor_ledger (ctag c) with Ok (name, _) => name | _ => [] end.

Section Arcs.
Context (labels : list bytes) (label_of : Identity -> option bytes).

Definition root_occurrences (c : component) : list occurrence := occurrences labels label_of c (root_name c).

(** The arcs of one root, whose skeleton has the given index. *)
Definition arcs_of_root (payload : Z) (c : component) : list BlankArc :=
  unary_arcs payload (root_occurrences c) ++ binary_arcs payload (root_occurrences c).

Definition document_arcs (roots : list component) : list BlankArc :=
  concat (imap (fun i c => arcs_of_root (Z.of_nat i) c) roots).

(** A step that fails only for want of resources, whatever its value. *)
Lemma charged_any {A B} (o : outcome A) (f : A -> M Session B) o' :
  o <> Panic -> ofails_with (fun e => code e = "NATIVE_WIRE_LIMIT"%string) o -> (forall a, o = Ok a -> charged (f a) o') ->
  charged (lift o ≫= f) o'.
Proof.
  intros Hp He Hf. destruct o as [a|e|]; [|intros s Hs; xstep; apply wpx_lift; left; by apply resource_limit_code|done].
  eapply charged_then; [by apply charged_lift|]. by apply Hf.
Qed.

Lemma charged_limited {A B} (o : option A) msg (f : A -> M Session B) o' :
  (forall a, o = Some a -> charged (f a) o') -> charged (lift (ok_or o (limit msg)) ≫= f) o'.
Proof. intros Hf. apply charged_any; [by destruct o|by destruct o|]. destruct o; [|done]. intros a' [= <-]. by apply Hf. Qed.

Lemma checked_add_u64_limit a b msg :
  checked_add_u64 a b msg <> Panic /\ ofails_with (fun e => code e = "NATIVE_WIRE_LIMIT"%string) (checked_add_u64 a b msg).
Proof.
  unfold checked_add_u64, usize_u64, try_from, checked_add.
  destruct (a <=? U64_MAX), (b <=? U64_MAX); cbn; try done. by destruct (_ <=? _).
Qed.

Lemma charged_pair_arcs payload occurrences arcs :
  charged (pair_arcs payload occurrences arcs) (Ok (arcs ++ binary_arcs payload occurrences)).
Proof.
  revert arcs. induction occurrences as [|source occurrences IH]; intros arcs; cbn [pair_arcs binary_arcs].
  - rewrite app_nil_r. apply charged_ret.
  - eapply charged_then; [|rewrite app_assoc; apply IH].
    apply charged_collect. intros target _. unfold pair_arc, pair_role_size, saturating_add. charges; [ulia|]. apply charged_ret.
Qed.

Lemma scopable_ledger c : scopable c -> exists names, constructor_ledger (ctag c) = Ok (root_name c, names).
Proof.
  unfold root_name. destruct c as [t ps]. cbn [ctag]. intros Hc. destruct (Z.eq_dec t 3) as [->|Ht]; [by eexists|].
  apply scopable_parts in Hc as (_ & (name & names & -> & _) & _); [|done]. by exists names.
Qed.

Lemma charged_root_arcs limits c arcs payloads :
  scopable c -> known_labels labels label_of c ->
  charged (root_arcs labels limits (tree c) arcs payloads)
    (Ok (arcs ++ arcs_of_root (len payloads) c, payloads ++ [skeleton c])).
Proof.
  intros Hc Hk. unfold root_arcs. charges. eapply charged_then; [by apply charged_skeleton|].
  ch. apply charged_guard; [done|]. intros _. charges.
  assert (tree_tag (tree c) = ctag c) as -> by by destruct c.
  destruct (scopable_ledger c Hc) as [names Hledger]. eapply charged_outcome; [exact Hledger|]. cbv beta iota. ch.
  eapply charged_then; [by apply charged_occurrences|]. cbn [app]. fold (root_occurrences c).
  apply charged_limited. intros following Hfollowing.
  apply charged_any; [apply checked_add_u64_limit|apply checked_add_u64_limit|]. intros terms _.
  apply charged_guard; [done|]. intros _. charges.
  eapply charged_then.
  { apply (charged_collect (unary_arc (len payloads)) (fun o : occurrence =>
      {| arc_source := o.1; role := o.2; arc_target := None; arc_payload := len payloads |})).
    intros o _. unfold unary_arc. by repeat ch. }
  cbv beta. eapply charged_then; [apply charged_pair_arcs|].
  eapply charged_eq; [apply charged_ret|]. unfold arcs_of_root, unary_arcs. by rewrite app_assoc.
Qed.

Lemma charged_blank_arcs limits roots :
  Forall scopable (concat roots) -> Forall (known_labels labels label_of) (concat roots) ->
  charged (blank_arcs labels (map (map tree) roots) limits)
    (Ok (document_arcs (concat roots), map skeleton (concat roots))).
Proof.
  intros Hs Hk. unfold blank_arcs, document_arcs.
  assert (concat (map (map tree) roots) = map tree (concat roots)) as -> by by rewrite concat_map.
  revert Hs Hk. generalize (concat roots). clear roots. intros roots Hs Hk.
  assert (forall arcs payloads, charged
    (for_each (fun root '(arcs, payloads) => root_arcs labels limits root arcs payloads) (map tree roots) (arcs, payloads))
    (Ok (arcs ++ concat (imap (fun i c => arcs_of_root (Z.of_nat (length payloads + i)) c) roots),
         payloads ++ map skeleton roots))) as Hgen; [|by apply (Hgen [] [])].
  induction roots as [|c roots IH]; intros arcs payloads; cbn [map for_each].
  - rewrite !app_nil_r. apply charged_ret.
  - apply Forall_cons in Hs as [Hsc Hs]. apply Forall_cons in Hk as [Hkc Hk].
    eapply charged_then; [by apply charged_root_arcs|]. eapply charged_eq; [by apply IH|].
    rewrite imap_cons. cbn [concat]. rewrite Nat.add_0_r, <- !app_assoc. do 3 f_equal.
    f_equal. f_equal. apply imap_ext. intros i x _. cbn. f_equal. rewrite length_app. cbn [length]. lia.
Qed.
End Arcs.
