(* ===== verification/Neighborhoods.v ===== *)
(** * Refinement computes the stable colors

    The colors of [alpha_order] as functions of the arcs, without a session:
    the signature of an arc for a label, the neighbourhood of a label, one
    round of refinement, and the colors at which refinement stops. *)

From S2P Require Import Prelude Bytes Order Hash Error Machine Limits Session Varint CanonicalTree AlphaOrder Charged.

Section Signature.
Context (payloads : list bytes).

Definition neighbor_of (target : Z) (colors : option (list bytes)) : bytes :=
  match colors with None => [66] | Some colors => 67 :: color_at colors target end.

Definition payload_of (arc : BlankArc) : bytes := default [] (get_at payloads (arc_payload arc)).

(** What an arc says of one of its labels. *)
Definition signature (colors : option (list bytes)) (label : Z) (arc : BlankArc) : bytes :=
  let neighbor :=
    if arc_source arc =? label then
      match arc_target arc with
      | None => [78]
      | Some target => if target =? label then [76] else neighbor_of target colors
      end
    else neighbor_of (arc_source arc) colors in
  (if arc_source arc =? label then 83 else 84) :: frame (role arc) ++ neighbor ++ frame (payload_of arc).

Definition touches (label : Z) (arc : BlankArc) : Prop :=
  arc_source arc = label \/ arc_target arc = Some label.

#[global] Instance touches_dec label arc : Decision (touches label arc).
Proof. unfold touches. apply _. Defined.

(** The signatures of the arcs of a label, in canonical order. *)
Definition neighborhood (arcs : list BlankArc) (colors : option (list bytes)) (label : Z) : list bytes :=
  sort_by (fun value => value) (map (signature colors label) (filter (touches label) arcs)).

(** The arcs of a component name its labels and have payloads. *)
Definition arc_in (label_count : Z) (arc : BlankArc) : Prop :=
  0 <= arc_source arc < label_count /\ 0 <= arc_payload arc < len payloads /\
  forall target, arc_target arc = Some target -> 0 <= target < label_count.

Definition colors_in (label_count : Z) (colors : option (list bytes)) : Prop :=
  forall cs, colors = Some cs -> len cs = label_count.

Lemma get_at_payload label_count arc : arc_in label_count arc -> get_at payloads (arc_payload arc) = Some (payload_of arc).
Proof. intros (_ & Hp & _). unfold payload_of. by destruct (get_at_is_Some payloads (arc_payload arc) Hp) as [x ->]. Qed.

Lemma charged_neighbor_color n target colors : 0 <= target < n -> colors_in n colors ->
  charged (neighbor_color target colors) (Ok (neighbor_of target colors)).
Proof.
  intros Ht Hc. destruct colors as [cs|]; cbn [neighbor_color neighbor_of]; [|apply charged_one_byte].
  specialize (Hc cs eq_refl). unfold color_at. destruct (get_at_is_Some cs target ltac:(lia)) as [c ->].
  eapply charged_then; [by apply charged_lift|]. cbv beta. ch.
Qed.

Lemma charged_arc_signature n label arc colors : arc_in n arc -> touches label arc -> colors_in n colors ->
  charged (arc_signature payloads label arc colors) (Ok (signature colors label arc)).
Proof.
  intros Ha Ht Hc. unfold arc_signature, signature. rewrite (get_at_payload n arc Ha). destruct Ha as (Hs & _ & Htgt).
  assert (forall direction (neighbor : M Session (Z * bytes)) v, charged neighbor (Ok (direction, v)) ->
    charged ('(direction, neighbor) ← neighbor;
      payload ← lift (ok_or (Some (payload_of arc)) (protocol "native blank arc payload is missing"));
      first ← push_byte direction;
      role ← append_frame (role arc);
      neighbor ← append_bytes neighbor;
      payload ← append_frame payload;
      mret (first ++ role ++ neighbor ++ payload))
      (Ok (direction :: frame (role arc) ++ v ++ frame (payload_of arc)))) as Hrest.
  { intros direction neighbor v Hv. eapply charged_then; [exact Hv|]. cbv beta iota.
    eapply charged_then; [by apply charged_lift|]. cbv beta. ch. ch. ch. ch. apply charged_ret. }
  destruct (Z.eqb_spec (arc_source arc) label) as [El|Hne]; apply Hrest.
  - eapply charged_then; [|cbv beta; apply charged_ret]. destruct (arc_target arc) as [t|]; [|apply charged_one_byte].
    destruct (Z.eqb_spec t label); [apply charged_one_byte|]. apply (charged_neighbor_color n); auto.
  - destruct Ht as [?|Ht]; [done|]. rewrite bool_decide_true by done.
    eapply charged_then; [by apply (charged_neighbor_color n)|]. apply charged_ret.
Qed.

(** A table by label. *)
Definition table {A} (n : Z) (f : Z -> A) : list A := map f (seqZ 0 n).

Lemma lookup_table {A} n (f : Z -> A) i : table n f !! i = (if decide (Z.of_nat i < n) then Some (f (Z.of_nat i)) else None).
Proof.
  unfold table. rewrite list_lookup_fmap. case_decide.
  - rewrite lookup_seqZ_lt by lia. done.
  - rewrite lookup_seqZ_ge by lia. done.
Qed.

Lemma get_at_table {A} n (f : Z -> A) i : 0 <= i < n -> get_at (table n f) i = Some (f i).
Proof. intros Hi. apply get_at_Some. split; [lia|]. rewrite lookup_table, decide_True by lia. f_equal. f_equal. lia. Qed.

Lemma len_table {A} n (f : Z -> A) : 0 <= n -> len (table n f) = n.
Proof. intros. unfold table. rewrite length_map, length_seqZ. lia. Qed.

Lemma table_ext {A} n (f g : Z -> A) : (forall i, 0 <= i < n -> f i = g i) -> table n f = table n g.
Proof. intros H. apply map_ext_in. intros i Hi%list_elem_of_In%elem_of_seqZ. apply H. lia. Qed.

Lemma insert_table {A} n (f : Z -> A) i x : 0 <= i < n ->
  <[Z.to_nat i := x]> (table n f) = table n (fun j => if decide (j = i) then x else f j).
Proof.
  intros Hi. apply list_eq. intros j. destruct (decide (j = Z.to_nat i)) as [->|Hne].
  - rewrite list_lookup_insert_eq by (pose proof (len_table n f); lia). rewrite lookup_table, !decide_True by lia. done.
  - rewrite list_lookup_insert_ne, !lookup_table by done. case_decide; [|done]. by rewrite decide_False by lia.
Qed.

Lemma zip_table {A B} n (f : Z -> A) (g : Z -> B) : zip (table n f) (table n g) = table n (fun i => (f i, g i)).
Proof. unfold table. induction (seqZ 0 n); cbn; [done|]. f_equal. done. Qed.

Lemma map_table {A B} (h : A -> B) n (f : Z -> A) : map h (table n f) = table n (fun i => h (f i)).
Proof. unfold table. by rewrite map_map. Qed.

Lemma charged_gather n label arc colors f : arc_in n arc -> touches label arc -> colors_in n colors -> 0 <= label < n ->
  charged (gather payloads label arc colors (table n f))
    (Ok (table n (fun j => f j ++ (if decide (j = label) then [signature colors label arc] else [])))).
Proof.
  intros Ha Ht Hc Hl. unfold gather. charges. unfold index_at. rewrite get_at_table by done.
  eapply charged_then; [by apply charged_lift|]. cbv beta. charges.
  eapply charged_then; [by apply (charged_arc_signature n)|]. cbv beta. eapply charged_eq; [apply charged_ret|].
  f_equal. rewrite insert_table by done. apply table_ext. intros j _. case_decide; [by subst|by rewrite app_nil_r].
Qed.

Lemma charged_gather_all n arcs colors f :
  (forall arc, In arc arcs -> arc_in n arc) -> colors_in n colors ->
  charged (for_each (fun arc gathered =>
    cancellation_checkpoint;;
    gathered ← gather payloads (arc_source arc) arc colors gathered;
    match arc_target arc with
    | Some target => if target =? arc_source arc then mret gathered else gather payloads target arc colors gathered
    | None => mret gathered
    end) arcs (table n f))
    (Ok (table n (fun j => f j ++ map (signature colors j) (filter (touches j) arcs)))).
Proof.
  intros Ha Hc. revert f. induction arcs as [|arc arcs IH]; intros f; cbn [for_each].
  { eapply charged_eq; [apply charged_ret|]. f_equal. apply table_ext. intros j _. by rewrite filter_nil, app_nil_r. }
  assert (arc_in n arc) as Har by (apply Ha; by left). pose proof Har as (Hs & _ & Htgt).
  eapply charged_then; [|eapply charged_eq; [apply IH; intros ? ?; apply Ha; by right|]].
  - charges. eapply charged_then; [apply charged_gather; try done; by left|]. cbv beta.
    instantiate (1 := fun j => f j ++ (if decide (touches j arc) then [signature colors j arc] else [])).
    assert (forall j, touches j arc <-> j = arc_source arc \/ arc_target arc = Some j) as Ht.
    { intros j. unfold touches. naive_solver. }
    destruct (arc_target arc) as [t|] eqn:Et.
    + destruct (Z.eqb_spec t (arc_source arc)) as [->|Hne].
      * eapply charged_eq; [apply charged_ret|]. f_equal. apply table_ext. intros j _. f_equal. specialize (Ht j).
        repeat case_decide; subst; try done; exfalso; naive_solver.
      * eapply charged_eq; [apply charged_gather; try done; [by right|by apply Htgt]|]. f_equal. apply table_ext.
        intros j _. rewrite <- app_assoc. f_equal. specialize (Ht j).
        repeat case_decide; subst; rewrite ?app_nil_r; try done; exfalso; naive_solver.
    + eapply charged_eq; [apply charged_ret|]. f_equal. apply table_ext. intros j _. f_equal. specialize (Ht j).
      repeat case_decide; subst; try done; exfalso; naive_solver.
  - f_equal. apply table_ext. intros j _. cbv beta. rewrite filter_cons, <- app_assoc. f_equal.
    by case_decide.
Qed.

Lemma charged_neighborhoods n arcs colors : 0 <= n ->
  (forall arc, In arc arcs -> arc_in n arc) -> colors_in n colors ->
  charged (neighborhoods payloads n arcs colors) (Ok (table n (neighborhood arcs colors))).
Proof.
  intros Hn Ha Hc. unfold neighborhoods. charges.
  replace (replicate (Z.to_nat n) ([] : list bytes)) with (table n (fun _ => @nil bytes)).
  - eapply charged_then; [by apply charged_gather_all|]. cbv beta. eapply charged_eq; [apply charged_ret|].
    by rewrite map_table.
  - apply list_eq. intros i. rewrite lookup_table. symmetry. case_decide.
    + by rewrite lookup_replicate_2 by lia.
    + apply lookup_ge_None. rewrite length_replicate. lia.
Qed.
End Signature.

(** * Colors and their classes

    The color of a signature, when two colorings make the same classes of
    labels, and the classes that [partitions] lists. *)

(** ** The digest of a signature *)

Definition color_of (signature : list bytes) : bytes :=
  Hash.finish (foldl (fun hasher item => update hasher (frame item)) (update Sha256_new BLANK_COLOR_DOMAIN) signature).

Lemma foldl_snoc {A B} (f : A -> B) items result : foldl (fun result item => result ++ [f item]) result items = result ++ map f items.
Proof. revert result. induction items as [|a items IH]; intros result; cbn; [by rewrite app_nil_r|]. by rewrite IH, <- app_assoc. Qed.

Lemma charged_colors signatures : charged (colors_from_signatures signatures) (Ok (map color_of signatures)).
Proof.
  unfold colors_from_signatures. charges.
  eapply charged_eq; [apply (charged_fold (fun _ => True) _ (fun signature result => result ++ [color_of signature])); [done|]|].
  - intros signature result _ _. split; [|done]. eapply charged_then; [|cbv beta; apply charged_ret].
    apply (charged_fold (fun _ => True) _ (fun item hasher => update hasher (frame item))); [done|].
    intros item hasher _ _. split; [|done]. ch. apply charged_ret.
  - by rewrite foldl_snoc.
Qed.

(** ** The same classes *)

(** Entries in the order of a key agree on a value wherever their keys agree, if neighbours do. *)
Lemma any_window_false {A B C} `{Ord B} (key : A -> B) (value : A -> C) (f : A -> A -> bool) l :
  (forall x y, f x y = false <-> (key x = key y -> value x = value y)) ->
  StronglySorted ord_le (map key l) ->
  any_window f l = false <-> forall x y, In x l -> In y l -> key x = key y -> value x = value y.
Proof.
  intros Hf Hs. split; [|intros Hall].
  - intros Hw. induction l as [|a l IH]; [by intros ? ? []|].
    cbn [map] in Hs. apply StronglySorted_inv in Hs as [Hs Ha]. rewrite List.Forall_forall in Ha.
    assert (any_window f l = false) as Hw'.
    { destruct l; [done|]. cbn [any_window] in Hw. by apply orb_false_iff in Hw as [_ ?]. }
    assert (forall y, In y l -> key a = key y -> value a = value y) as Hhead.
    { intros y Hy E. destruct l as [|b l]; [done|]. cbn [any_window] in Hw. apply orb_false_iff in Hw as [Hab _].
      assert (key a = key b) as Eb.
      { apply cmp_eq. pose proof (Ha (key b) (or_introl eq_refl)) as Hle. apply ord_le_lt in Hle as [Hlt| ->]; [|apply cmp_refl].
        exfalso. destruct Hy as [->|Hy]; [rewrite E in Hlt; by apply ord_lt_irrefl in Hlt|].
        apply StronglySorted_inv in Hs as [_ Hb]. rewrite List.Forall_forall in Hb.
        specialize (Hb (key y) (in_map _ _ _ Hy)). rewrite E in Hlt. apply ord_le_lt in Hb as [Hb|Hb].
        - apply (ord_lt_irrefl (key y)). by transitivity (key b).
        - rewrite Hb in Hlt. by apply ord_lt_irrefl in Hlt. }
      rewrite (proj1 (Hf a b) Hab Eb). destruct Hy as [->|Hy]; [done|]. apply (IH Hs Hw'); [by left|by right|congruence]. }
    intros x y [->|Hx] [->|Hy] E; [done|by apply Hhead|symmetry; by apply Hhead|by apply IH].
  - clear Hs. induction l as [|a [|b l] IH]; cbn [any_window]; [done..|]. apply orb_false_iff. split.
    + apply Hf, Hall; [by left|right; by left].
    + apply IH. intros x y Hx Hy. apply Hall; by right.
Qed.

(** Two colorings make the same classes. *)
Definition agree (first second : list bytes) : Prop :=
  forall x y, In x (zip first second) -> In y (zip first second) -> x.1 = y.1 <-> x.2 = y.2.

Definition same_partition_of (first second : list bytes) : bool :=
  let pairs := sort_by (fun pair => pair) (zip first second) in
  negb (any_window (fun x y => bytes_eqb x.1 y.1 && negb (bytes_eqb x.2 y.2)) pairs) &&
  negb (any_window (fun x y => bytes_eqb x.2 y.2 && negb (bytes_eqb x.1 y.1)) (sort_by (fun pair => (pair.2, pair.1)) pairs)).

Lemma charged_same_partition first second : len first = len second ->
  charged (same_partition first second) (Ok (same_partition_of first second)).
Proof.
  intros E. unfold same_partition, same_partition_of. rewrite E, Z.eqb_refl. cbn [negb]. charges.
  destruct (any_window _ _); cbn [negb andb]; apply charged_ret.
Qed.

Lemma pair_sorted {B C D} `{Ord B, Ord C} (f : D -> B) (g : D -> C) (l : list D) :
  StronglySorted ord_le (map (fun x => (f x, g x)) l) -> StronglySorted ord_le (map f l).
Proof.
  intros Hs. induction l as [|x l IH]; cbn in *; [constructor|].
  apply StronglySorted_inv in Hs as [Hs Hx]. constructor; [by apply IH|].
  rewrite List.Forall_forall in *. intros b [y [<- Hy]]%in_map_iff. specialize (Hx _ (in_map _ _ _ Hy)).
  intros E. apply Hx. change (pair_compare (f x, g x) (f y, g y) = Gt). unfold pair_compare. cbn. by rewrite E.
Qed.

Lemma same_partition_of_spec first second : same_partition_of first second = true <-> agree first second.
Proof.
  unfold same_partition_of, agree. set (pairs := zip first second).
  rewrite andb_true_iff, !negb_true_iff.
  rewrite (any_window_false fst snd), (any_window_false snd fst).
  - repeat setoid_rewrite In_sort_by. split.
    + intros [H1 H2] x y Hx Hy. split; auto.
    + intros H. split; intros x y Hx Hy E; by apply (H x y).
  - intros x y. rewrite andb_false_iff, bytes_eqb_neq, negb_false_iff, bytes_eqb_eq. destruct (decide (x.2 = y.2)); tauto.
  - apply (pair_sorted snd fst), sort_by_sorted.
  - intros x y. rewrite andb_false_iff, bytes_eqb_neq, negb_false_iff, bytes_eqb_eq. destruct (decide (x.1 = y.1)); tauto.
  - apply (pair_sorted fst snd). pose proof (sort_by_sorted (fun pair : bytes * bytes => pair) pairs) as H.
    rewrite (map_ext (fun pair : bytes * bytes => (pair.1, pair.2)) (fun pair => pair)); [exact H|by intros []].
Qed.

(** ** The classes *)

Definition class_color (colors : list bytes) (class : list Z) : bytes :=
  match class with [] => [] | index :: _ => color_at colors index end.

(** The classes in the order of their colors, each listing all labels of its color. *)
Record color_classes (colors : list bytes) (indexes : list Z) (classes : list (list Z)) : Prop := {
  classes_cover : concat classes = indexes;
  classes_uniform : forall class, In class classes ->
    class <> [] /\ StronglySorted Z.lt class /\ forall index, In index class -> color_at colors index = class_color colors class;
  classes_ordered : StronglySorted ord_lt (map (class_color colors) classes)
}.

Lemma index_at_color colors i : 0 <= i < len colors -> index_at colors i = Ok (color_at colors i).
Proof. intros H. unfold index_at, color_at. by destruct (get_at_is_Some colors i H) as [c ->]. Qed.

Lemma StronglySorted_snoc {A} (R : A -> A -> Prop) l x :
  StronglySorted R l -> Forall (fun y => R y x) l -> StronglySorted R (l ++ [x]).
Proof.
  induction 1 as [|y l Hl IH Hy]; intros H; cbn; [by repeat constructor|].
  apply Forall_cons in H as [? H]. constructor; [by apply IH|]. apply Forall_app. by repeat constructor.
Qed.

Definition index_lt (colors : list bytes) (i j : Z) : Prop :=
  ord_lt (color_at colors i) (color_at colors j) \/ (color_at colors i = color_at colors j /\ i < j).

Section Join.
Context (colors : list bytes) (indexes : list Z) (index : Z).
Hypothesis Hlt : forall i, In i indexes -> index_lt colors i index.

(** Another label of the last color. *)
Lemma classes_extend classes first class :
  color_classes colors indexes (classes ++ [first :: class]) -> color_at colors first = color_at colors index ->
  color_classes colors (indexes ++ [index]) (classes ++ [(first :: class) ++ [index]]).
Proof using Hlt.
  intros [Hcov Huni Hord] E. rewrite concat_app in Hcov. cbn [concat] in Hcov. rewrite app_nil_r in Hcov.
  destruct (Huni (first :: class)) as (Hne & Hs & Hu); [apply in_app_iff; right; by left|]. constructor.
  - rewrite concat_app. cbn [concat]. by rewrite <- Hcov, app_nil_r, app_assoc.
  - intros c [Hc|[<-|[]]]%in_app_iff; [apply Huni, in_app_iff; by left|]. split; [done|]. split.
    + apply StronglySorted_snoc; [done|]. apply List.Forall_forall. intros i Hic.
      destruct (Hlt i) as [Hl|[_ Hl]]; [rewrite <- Hcov; apply in_app_iff; by right| |done].
      rewrite (Hu i Hic) in Hl. cbn [class_color] in Hl. rewrite E in Hl. by apply ord_lt_irrefl in Hl.
    + intros i [Hic|[<-|[]]]%in_app_iff; [by apply Hu|done].
  - rewrite map_app in Hord |- *. exact Hord.
Qed.

(** The first label of a new color. *)
Lemma classes_open classes first class :
  color_classes colors indexes (classes ++ [first :: class]) -> color_at colors first <> color_at colors index ->
  color_classes colors (indexes ++ [index]) ((classes ++ [first :: class]) ++ [[index]]).
Proof using Hlt.
  intros [Hcov Huni Hord] E.
  assert (forall i c, In i c -> In c (classes ++ [first :: class]) -> In i indexes) as Hsub.
  { intros i c Hi Hc. rewrite <- Hcov. apply in_concat. eauto. }
  assert (ord_lt (color_at colors first) (color_at colors index)) as Hfi.
  { destruct (Hlt first) as [|[? _]]; [|done|done]. apply (Hsub first (first :: class)); [by left|].
    apply in_app_iff. right. by left. }
  constructor.
  - rewrite concat_app. cbn [concat]. by rewrite Hcov.
  - intros c [Hc|[<-|[]]]%in_app_iff; [by apply Huni|]. split; [done|]. split; [repeat constructor|]. by intros i [<-|[]].
  - rewrite map_app. apply StronglySorted_snoc; [done|]. apply Forall_map, List.Forall_forall. intros c Hc. cbn [class_color].
    rewrite map_app in Hord. apply StronglySorted_app in Hord as (Hcross & _ & _).
    apply in_app_iff in Hc as [Hc|[<-|[]]]; [|done].
    transitivity (color_at colors first); [|done]. apply Hcross; [|by left]. apply list_elem_of_In, in_map_iff. by exists c.
Qed.

Lemma charged_join classes :
  color_classes colors indexes classes -> (forall i, In i indexes -> 0 <= i < len colors) -> 0 <= index < len colors ->
  exists classes', charged (join_partition colors index classes) (Ok classes') /\ color_classes colors (indexes ++ [index]) classes'.
Proof using Hlt.
  intros Hcl Hin Hi. unfold join_partition. rewrite index_at_color by done.
  destruct classes as [|class classes _] using rev_ind.
  - exists [[index]]. split.
    + eapply charged_then; [by apply charged_lift|]. cbn. eapply charged_then; [by apply charged_lift|]. cbn. charges.
      eapply charged_then; [by apply charged_lift|]. charges. apply charged_ret.
    + rewrite <- (classes_cover _ _ _ Hcl). constructor; [done| |repeat constructor]. intros c [<-|[]]. split; [done|].
      split; [repeat constructor|]. by intros i [<-|[]].
  - destruct (classes_uniform _ _ _ Hcl class) as (Hne & _ & _); [apply in_app_iff; right; by left|].
    destruct class as [|first class]; [done|].
    assert (0 <= first < len colors) as Hf.
    { apply Hin. rewrite <- (classes_cover _ _ _ Hcl), concat_app. apply in_app_iff. right. by left. }
    exists (if decide (color_at colors first = color_at colors index) then classes ++ [(first :: class) ++ [index]]
            else (classes ++ [first :: class]) ++ [[index]]). split.
    + eapply charged_then; [by apply charged_lift|]. rewrite last_snoc. cbn [mbind option_bind head].
      rewrite index_at_color by done. cbn. eapply charged_then; [by apply charged_lift|].
      case_decide as E; [rewrite E, bytes_eqb_refl|rewrite (proj2 (bytes_eqb_neq _ _) E)]; cbn [negb].
      all: charges; rewrite last_snoc; eapply charged_then; [by apply charged_lift|]; charges; eapply charged_eq; [apply charged_ret|].
      all: rewrite length_app; cbn [length]; rewrite Nat.add_1_r; cbn [pred]; by rewrite insert_app_r_alt, Nat.sub_diag by lia.
    + case_decide; [by apply classes_extend|by apply classes_open].
Qed.
End Join.

(** The labels in the order of their colors. *)
Definition indexes_by_color (colors : list bytes) : list Z :=
  sort_by (fun index => (color_at colors index, index)) (seqZ 0 (len colors)).

Lemma indexes_by_color_lt colors before i after :
  indexes_by_color colors = before ++ i :: after -> forall j, In j before -> index_lt colors j i.
Proof.
  intros E j Hj. pose proof (sort_by_ascending (fun index => (color_at colors index, index)) (seqZ 0 (len colors))) as Hs.
  fold (indexes_by_color colors) in Hs. rewrite E, map_app in Hs.
  assert (StronglySorted ord_lt (map (fun index => (color_at colors index, index)) before ++
            map (fun index => (color_at colors index, index)) (i :: after))) as H.
  { apply Hs. apply NoDup_fmap_2; [by intros x y [= _ ?]|apply NoDup_seqZ]. }
  apply StronglySorted_app in H as (H & _ & _). specialize (H (color_at colors j, j) (color_at colors i, i)).
  assert (ord_lt (color_at colors j, j) (color_at colors i, i)) as Hlt.
  { apply H; [|by left]. apply list_elem_of_In, in_map_iff. by exists j. }
  unfold ord_lt in Hlt. change (pair_compare (color_at colors j, j) (color_at colors i, i) = Lt) in Hlt.
  unfold pair_compare in Hlt. cbn [fst snd] in Hlt. destruct (cmp (color_at colors j) (color_at colors i)) eqn:Ec; [|by left|done].
  right. split; [by apply cmp_eq|]. by apply Z.compare_lt_iff.
Qed.

Lemma charged_partitions colors :
  exists classes, charged (partitions colors) (Ok classes) /\ color_classes colors (indexes_by_color colors) classes.
Proof.
  unfold partitions. fold (indexes_by_color colors).
  assert (forall before after classes, indexes_by_color colors = before ++ after -> color_classes colors before classes ->
    exists classes', charged (for_each (join_partition colors) after classes) (Ok classes') /\
      color_classes colors (indexes_by_color colors) classes') as Hloop.
  { intros before after. revert before. induction after as [|i after IH]; intros before classes E Hc; cbn [for_each].
    - exists classes. rewrite E, app_nil_r. split; [apply charged_ret|done].
    - assert (forall j, In j (before ++ i :: after) -> 0 <= j < len colors) as Hin.
      { intros j Hj. rewrite <- E in Hj. apply In_sort_by, list_elem_of_In, elem_of_seqZ in Hj. lia. }
      destruct (charged_join colors before i (indexes_by_color_lt _ _ _ _ E) classes) as (classes' & H1 & H2); [done|..].
      { intros j Hj. apply Hin, in_app_iff. by left. }
      { apply Hin, in_app_iff. right. by left. }
      destruct (IH (before ++ [i]) classes') as (classes'' & H3 & H4); [by rewrite <- app_assoc|done|].
      exists classes''. split; [|done]. by eapply charged_then. }
  destruct (Hloop [] (indexes_by_color colors) []) as (classes & H1 & H2); [done|by constructor; [|intros ? []|constructor]|].
  exists classes. split; [|done]. by charges.
Qed.
