(* ===== verification/Permutations.v ===== *)
(** * Permutations in lexicographic order

    [next_permutation] is the lexicographic successor, and
    [advance_partition_product] the successor among the lists of classes, each
    permuted on its own.  Lists of labels are compared as byte strings are,
    element by element. *)

From S2P Require Import Prelude Bytes Order Error Machine AlphaOrder.

Notation lex_lt := bytes_lt.
Notation lex_le := bytes_le.

Lemma lex_compare x y : lex_lt x y \/ x = y \/ lex_lt y x.
Proof.
  unfold bytes_lt, bytes_ltb. rewrite (bytes_compare_antisym x y).
  destruct (bytes_compare x y) eqn:E; [right; left; by apply bytes_compare_eq|by left|by right; right].
Qed.

Lemma lex_le_cases x y : lex_le x y <-> lex_lt x y \/ x = y.
Proof. rewrite bytes_lt_le. split; [intros H; destruct (decide (x = y)); auto|intros [[? _]| ->]; [done|]]. unfold bytes_le, bytes_leb. by rewrite (proj2 (bytes_compare_eq y y) eq_refl). Qed.

Lemma lex_le_refl x : lex_le x x.
Proof. apply lex_le_cases. by right. Qed.

Lemma lex_not_lt x y : ~ lex_lt x y <-> lex_le y x.
Proof.
  rewrite lex_le_cases. destruct (lex_compare x y) as [H|[->|H]]; split; try tauto.
  - intros [H'| ->]; intros _; [by apply (irreflexivity bytes_lt x); transitivity y|by apply (irreflexivity bytes_lt x)].
  - intros _ H. by apply (irreflexivity bytes_lt y) in H.
  - intros _ H'. apply (irreflexivity bytes_lt x). by transitivity y.
Qed.

Lemma lex_lt_cons a b x y : lex_lt (a :: x) (b :: y) <-> a < b \/ (a = b /\ lex_lt x y).
Proof.
  unfold bytes_lt, bytes_ltb. cbn [bytes_compare]. destruct (Z.compare_spec a b) as [->|H|H]; split; try lia; try tauto; try naive_solver lia.
Qed.

Lemma lex_le_cons a b x y : lex_le (a :: x) (b :: y) <-> a < b \/ (a = b /\ lex_le x y).
Proof. rewrite !lex_le_cases, lex_lt_cons. naive_solver. Qed.

Lemma lex_lt_app p x y : lex_lt (p ++ x) (p ++ y) <-> lex_lt x y.
Proof.
  induction p as [|a p IH]; cbn [app]; [done|]. rewrite lex_lt_cons, IH. split; [intros [?|[_ ?]]; [lia|done]|by right].
Qed.
Lemma lex_le_app p x y : lex_le (p ++ x) (p ++ y) <-> lex_le x y.
Proof. rewrite !lex_le_cases, lex_lt_app. naive_solver. Qed.

(** Lists with first parts of the same length compare these parts first. *)
Lemma lex_lt_parts p q x y : length p = length q ->
  lex_lt (p ++ x) (q ++ y) <-> lex_lt p q \/ (p = q /\ lex_lt x y).
Proof.
  revert q. induction p as [|a p IH]; intros [|b q] Hl; cbn [length] in Hl; try lia; cbn [app].
  - split; [by right|intros [H|[_ H]]; [done|done]].
  - rewrite !lex_lt_cons, IH by lia. naive_solver.
Qed.
Lemma lex_le_parts p q x y : length p = length q ->
  lex_le (p ++ x) (q ++ y) <-> lex_lt p q \/ (p = q /\ lex_le x y).
Proof.
  intros Hl. rewrite !lex_le_cases, lex_lt_parts by done. split.
  - intros [[?|[? ?]]|E]; auto. apply app_inj_1 in E as [-> ->]; [by right; split; [|right]|done].
  - intros [?|[-> [?| ->]]]; auto.
Qed.

(** ** Sorted lists are the extreme permutations *)

Lemma ascending_least l r : StronglySorted Z.le l -> r ≡ₚ l -> lex_le l r.
Proof.
  intros Hl. revert r. induction Hl as [|a l Hl IH Ha]; intros r Hr.
  - apply Permutation_nil_r in Hr as ->. apply lex_le_refl.
  - destruct r as [|b r]; [by apply Permutation_nil_l in Hr|]. apply lex_le_cons.
    assert (b ∈ a :: l) as Hb by (rewrite <- Hr; by left).
    apply elem_of_cons in Hb as [->|Hb].
    + right. split; [done|]. apply IH. by apply Permutation_cons_inv in Hr.
    + rewrite List.Forall_forall in Ha. apply list_elem_of_In, Ha in Hb.
      destruct (Z.eq_dec a b) as [->|]; [|left; lia]. right. split; [done|]. apply IH. by apply Permutation_cons_inv in Hr.
Qed.

Lemma descending_greatest l r : StronglySorted Z.ge l -> r ≡ₚ l -> lex_le r l.
Proof.
  intros Hl. revert r. induction Hl as [|a l Hl IH Ha]; intros r Hr.
  - apply Permutation_nil_r in Hr as ->. apply lex_le_refl.
  - destruct r as [|b r]; [by apply Permutation_nil_l in Hr|]. apply lex_le_cons.
    assert (b ∈ a :: l) as Hb by (rewrite <- Hr; by left).
    apply elem_of_cons in Hb as [->|Hb].
    + right. split; [done|]. apply IH. by apply Permutation_cons_inv in Hr.
    + rewrite List.Forall_forall in Ha. apply list_elem_of_In, Ha in Hb.
      destruct (Z.eq_dec a b) as [->|]; [|left; lia]. right. split; [done|]. apply IH. by apply Permutation_cons_inv in Hr.
Qed.

Lemma StronglySorted_rev {A} (R : A -> A -> Prop) l : StronglySorted R l -> StronglySorted (flip R) (rev l).
Proof.
  induction 1 as [|a l Hl IH Ha]; cbn [rev]; [constructor|].
  apply StronglySorted_app_2; [|done|by repeat constructor].
  intros x y Hx Hy. apply list_elem_of_singleton in Hy as ->. rewrite List.Forall_forall in Ha. cbn. apply Ha.
  apply list_elem_of_In in Hx. by apply in_rev.
Qed.

(** ** The successor of a permutation *)

(** The permutation [x ++ a :: d1 ++ b :: d2], in which the elements behind [a]
    descend and [b] is the last that is greater than [a]. *)
Lemma successor x a d1 b d2 r :
  StronglySorted Z.ge (d1 ++ b :: d2) -> a < b -> Forall (fun c => c <= a) d2 ->
  r ≡ₚ x ++ a :: d1 ++ b :: d2 -> lex_lt (x ++ a :: d1 ++ b :: d2) r ->
  lex_le (x ++ b :: rev (d1 ++ a :: d2)) r.
Proof.
  intros Hd Hab Hd2. revert r. induction x as [|y x IH]; cbn [app]; intros [|c r] Hr Hlt; try done.
  - apply lex_lt_cons in Hlt. apply lex_le_cons.
    assert (StronglySorted Z.le (rev (d1 ++ a :: d2))) as Hasc.
    { assert (StronglySorted Z.ge (d1 ++ a :: d2)) as Hs.
      { apply StronglySorted_app in Hd as (Hc & H1 & H2). apply StronglySorted_inv in H2 as [H2 Hb].
        apply StronglySorted_app_2; [|done|].
        - intros u v Hu [->|Hv]%elem_of_cons; [specialize (Hc u b Hu ltac:(by left)); lia|].
          apply Hc; [done|by right].
        - constructor; [done|]. eapply Forall_impl; [exact Hd2|]. cbn. lia. }
      apply StronglySorted_rev in Hs. clear -Hs. induction Hs as [|u l _ IH Hu]; constructor; [done|].
      eapply List.Forall_impl; [|exact Hu]. cbn. lia. }
    destruct Hlt as [Hlt|[-> Hlt]].
    + assert (c ∈ d1 ++ b :: d2) as Hc.
      { assert (c ∈ a :: d1 ++ b :: d2) as Hc by (rewrite <- Hr; by left). apply elem_of_cons in Hc as [->|]; [lia|done]. }
      assert (b <= c) as Hbc.
      { apply elem_of_app in Hc as [Hc|[->|Hc]%elem_of_cons]; [|lia|].
        - apply StronglySorted_app in Hd as (Hge & _). specialize (Hge c b Hc ltac:(by left)). lia.
        - rewrite Forall_forall in Hd2. specialize (Hd2 c Hc). lia. }
      destruct (Z.eq_dec b c) as [<-|]; [|left; lia]. right. split; [done|].
      apply ascending_least; [done|]. rewrite <- Permutation_rev.
      apply (Permutation_cons_inv (a := b)). rewrite Hr. rewrite <- !Permutation_middle.
      constructor.
    + exfalso. apply (proj2 (lex_not_lt (d1 ++ b :: d2) r)); [|done]. apply descending_greatest; [done|].
      by apply Permutation_cons_inv in Hr.
  - apply lex_le_cons. apply lex_lt_cons in Hlt as [Hlt|[-> Hlt]]; [by left|]. right. split; [done|].
    apply IH; [|done]. by apply Permutation_cons_inv in Hr.
Qed.

(** ** [next_permutation] *)

Lemma rfind_spec p q range :
  (forall i, In i range -> p i = Ok (q i)) -> rfind p range = Ok (find q (rev range)).
Proof.
  unfold rfind. intros Hp. assert (forall i, In i (rev range) -> p i = Ok (q i)) as Hr.
  { intros i Hi. apply Hp. by apply in_rev. }
  clear Hp. generalize dependent (rev range). clear range. intros l Hp.
  assert (forall l (i : Z), ofor_each (fun index found => match found with
      | Some _ => Ok found
      | None => holds ← p index; Ok (if holds : bool then Some index else None) end) l (Some i) = Ok (Some i)) as Hdone.
  { clear. induction l as [|j l IH]; intros i; cbn; [done|apply IH]. }
  induction l as [|i l IH]; cbn [ofor_each find]; [done|]. rewrite Hp by (by left). cbn.
  destruct (q i); [apply Hdone|]. apply IH. intros j Hj. apply Hp. by right.
Qed.

Lemma find_rev_seqZ q a n : 0 <= n ->
  match find q (rev (seqZ a n)) with
  | Some i => a <= i < a + n /\ q i = true /\ forall j, i < j < a + n -> q j = false
  | None => forall j, a <= j < a + n -> q j = false
  end.
Proof.
  intros Hn. pattern n. apply natlike_ind; [|clear n Hn|done].
  - cbn. intros j. lia.
  - intros n Hn IH. unfold Z.succ. rewrite seqZ_app by lia. cbn [seqZ]. 
    assert (seqZ (a + n) 1 = [a + n]) as -> by (unfold seqZ; cbn; f_equal; lia).
    rewrite rev_app_distr. cbn [rev app find]. destruct (q (a + n)) eqn:E.
    + split; [lia|]. split; [done|]. intros j. lia.
    + destruct (find q (rev (seqZ a n))) as [i|].
      * destruct IH as (Hi & Hq & Hj). split; [lia|]. split; [done|]. intros j Hj'.
        destruct (Z.eq_dec j (a + n)) as [->|]; [done|]. apply Hj. lia.
      * intros j Hj. destruct (Z.eq_dec j (a + n)) as [->|]; [done|]. apply IH. lia.
Qed.

Lemma adjacent_sorted (R : Z -> Z -> Prop) l :
  (forall i x y, l !! i = Some x -> l !! S i = Some y -> R x y) -> Sorted R l.
Proof.
  induction l as [|a l IH]; intros H; [constructor|]. constructor.
  - apply IH. intros i x y Hx Hy. by apply (H (S i)).
  - destruct l as [|b l]; constructor. by apply (H 0%nat).
Qed.

Lemma descending_sorted l :
  (forall i x y, l !! i = Some x -> l !! S i = Some y -> x >= y) -> StronglySorted Z.ge l.
Proof.
  intros H. apply Sorted_StronglySorted; [|by apply adjacent_sorted]. intros x y z. lia.
Qed.

(** The value at an index. *)
Notation at_index l i := (default 0 (l !! Z.to_nat i)).

Lemma index_at_value l i : 0 <= i < len l -> index_at l i = Ok (at_index l i).
Proof.
  intros Hi. unfold index_at, get_at. rewrite (proj2 (Z.leb_le 0 i)), (proj2 (Z.ltb_lt i (len l))) by lia. cbn.
  destruct (lookup_lt_is_Some_2 l (Z.to_nat i)) as [x ->]; [lia|done].
Qed.

(** A list without an ascent descends; otherwise it splits at the last ascent
    and at the last greater element behind it. *)
Lemma last_ascent values :
  match find (fun i => at_index values (i - 1) <? at_index values i) (rev (seqZ 1 (len values - 1))) with
  | None => StronglySorted Z.ge values
  | Some i => exists x a d1 b d2, values = x ++ a :: d1 ++ b :: d2 /\ i = len x + 1 /\
      StronglySorted Z.ge (d1 ++ b :: d2) /\ a < b /\ Forall (fun c => c <= a) d2 /\
      find (fun j => a <? at_index values j) (rev (seqZ i (len values - i))) = Some (i + len d1)
  end.
Proof.
  destruct (decide (values = [])) as [->|Hne]; [constructor|].
  assert (1 <= len values) as Hlen by (destruct values; [done|cbn [length]; lia]).
  pose proof (find_rev_seqZ (fun i => at_index values (i - 1) <? at_index values i) 1 (len values - 1) ltac:(lia)) as H.
  destruct (find _ _) as [i|].
  - destruct H as (Hi & Hasc & Hdesc). apply Z.ltb_lt in Hasc.
    set (a := at_index values (i - 1)) in *.
    assert (values = take (Z.to_nat (i - 1)) values ++ a :: drop (Z.to_nat i) values) as Hsplit.
    { destruct (lookup_lt_is_Some_2 values (Z.to_nat (i - 1))) as [y Hy]; [lia|].
      rewrite <- (take_drop_middle values (Z.to_nat (i - 1)) y Hy) at 1. unfold a. rewrite Hy. cbn [from_option id].
      by replace (S (Z.to_nat (i - 1))) with (Z.to_nat i) by lia. }
    set (d := drop (Z.to_nat i) values) in *.
    assert (forall j, values !! (Z.to_nat i + j)%nat = d !! j) as Hd by (intros j; unfold d; by rewrite lookup_drop).
    assert (StronglySorted Z.ge d) as Hsorted.
    { apply descending_sorted. intros j x y Hx Hy. rewrite <- Hd in Hx, Hy.
      specialize (Hdesc (i + Z.of_nat j + 1)). pose proof (lookup_lt_Some _ _ _ Hy).
      replace (Z.to_nat (i + Z.of_nat j + 1 - 1)) with (Z.to_nat i + j)%nat in Hdesc by lia.
      replace (Z.to_nat (i + Z.of_nat j + 1)) with (Z.to_nat i + S j)%nat in Hdesc by lia.
      rewrite Hx, Hy in Hdesc. cbn [from_option id] in Hdesc. specialize (Hdesc ltac:(lia)). bool_to_prop. lia. }
    pose proof (find_rev_seqZ (fun j => a <? at_index values j) i (len values - i) ltac:(lia)) as Hswap.
    destruct (find (fun j => a <? at_index values j) _) as [j|] eqn:Efind.
    2: { specialize (Hswap i ltac:(lia)). bool_to_prop. lia. }
    destruct Hswap as (Hj & Hgt & Hle). apply Z.ltb_lt in Hgt.
    destruct (lookup_lt_is_Some_2 values (Z.to_nat j)) as [b Hb]; [lia|]. rewrite Hb in Hgt. cbn [from_option id] in Hgt.
    assert (d !! Z.to_nat (j - i) = Some b) as Hdb by (rewrite <- Hd, <- Hb; f_equal; lia).
    exists (take (Z.to_nat (i - 1)) values), a, (take (Z.to_nat (j - i)) d), b, (drop (S (Z.to_nat (j - i))) d).
    rewrite (take_drop_middle d _ b Hdb). split; [exact Hsplit|]. rewrite !length_take.
    assert (length d = (length values - Z.to_nat i)%nat) as Hdl by (unfold d; by rewrite length_drop).
    split; [lia|]. split; [done|]. split; [done|]. split; [|rewrite Efind; f_equal; lia].
    apply Forall_lookup. intros k c Hc. rewrite lookup_drop, <- Hd in Hc. pose proof (lookup_lt_Some _ _ _ Hc).
    specialize (Hle (j + 1 + Z.of_nat k) ltac:(lia)).
    replace (Z.to_nat (j + 1 + Z.of_nat k)) with (Z.to_nat i + (S (Z.to_nat (j - i)) + k))%nat in Hle by lia.
    rewrite Hc in Hle. cbn [from_option id] in Hle. bool_to_prop. lia.
  - apply descending_sorted. intros i x y Hx Hy. pose proof (lookup_lt_Some _ _ _ Hy).
    specialize (H (Z.of_nat i + 1) ltac:(lia)). replace (Z.to_nat (Z.of_nat i + 1 - 1)) with i in H by lia.
    replace (Z.to_nat (Z.of_nat i + 1)) with (S i) in H by lia. rewrite Hx, Hy in H. cbn [from_option id] in H.
    bool_to_prop. lia.
Qed.

Lemma insert_middle {A} (x : list A) a b y n : n = length x -> <[n := b]> (x ++ a :: y) = x ++ b :: y.
Proof. intros ->. induction x as [|c x IH]; cbn; [done|]. f_equal. exact IH. Qed.

Lemma next_permutation_swap (x : list Z) a d1 b d2 :
  let values := x ++ a :: d1 ++ b :: d2 in
  let swapped := <[length x := b]> (<[(length x + 1 + length d1)%nat := a]> values) in
  take (length x + 1) swapped ++ rev (drop (length x + 1) swapped) = x ++ b :: rev (d1 ++ a :: d2).
Proof.
  cbv zeta. change (x ++ a :: d1 ++ b :: d2) with (x ++ (a :: d1) ++ b :: d2). rewrite app_assoc.
  rewrite insert_middle by (rewrite length_app; cbn [length]; lia).
  rewrite <- app_assoc. cbn [app]. rewrite insert_middle by done.
  replace (length x + 1)%nat with (length (x ++ [b])) by (rewrite length_app; done).
  change (x ++ b :: d1 ++ a :: d2) with (x ++ [b] ++ d1 ++ a :: d2). rewrite app_assoc.
  rewrite take_app_length, drop_app_length. by rewrite <- app_assoc.
Qed.

(** The lexicographic successor, if there is one. *)
Lemma next_permutation_spec values :
  match next_permutation values with
  | Ok (true, next) => next ≡ₚ values /\ lex_lt values next /\
      forall r, r ≡ₚ values -> lex_lt values r -> lex_le next r
  | Ok (false, next) => next = values /\ forall r, r ≡ₚ values -> lex_le r values
  | _ => False
  end.
Proof.
  unfold next_permutation, mbind, outcome_mbind. pose proof (last_ascent values) as H.
  rewrite (rfind_spec _ (fun i => at_index values (i - 1) <? at_index values i)).
  2: { intros i Hi%list_elem_of_In%elem_of_seqZ. rewrite !index_at_value by lia. done. }
  destruct (find _ _) as [i|]; cbn [outcome_bind].
  - destruct H as (x & a & d1 & b & d2 & E & -> & Hd & Hab & Hd2 & Hswap).
    assert (length values = (length x + 1 + length d1 + 1 + length d2)%nat) as Hlen.
    { rewrite E. rewrite !length_app. cbn [length]. rewrite length_app. cbn [length]. lia. }
    replace (len x + 1 - 1) with (len x) by lia.
    rewrite (index_at_value values (len x)) by lia. cbn [outcome_bind].
    assert (at_index values (len x) = a) as ->.
    { rewrite Nat2Z.id, E. rewrite lookup_app_r by lia. by rewrite Nat.sub_diag. }
    rewrite (rfind_spec _ (fun j => a <? at_index values j)).
    2: { intros i Hi%list_elem_of_In%elem_of_seqZ. rewrite index_at_value by lia. done. }
    rewrite Hswap. cbn [outcome_bind or_panic].
    rewrite index_at_value by lia. cbn [outcome_bind].
    assert (at_index values (len x + 1 + len d1) = b) as ->.
    { rewrite E. change (x ++ a :: d1 ++ b :: d2) with (x ++ (a :: d1) ++ b :: d2).
      rewrite app_assoc, list_lookup_middle; [done|]. rewrite length_app. cbn [length]. lia. }
    rewrite Nat2Z.id. replace (Z.to_nat (len x + 1 + len d1)) with (length x + 1 + length d1)%nat by lia.
    replace (Z.to_nat (len x + 1)) with (length x + 1)%nat by lia.
    rewrite E, next_permutation_swap. split_and!.
    + rewrite <- Permutation_rev. rewrite <- !Permutation_middle. do 2 constructor. 
    + apply lex_lt_app, lex_lt_cons. by left.
    + intros r Hr Hlt. by apply successor.
  - split; [done|]. intros r Hr. by apply descending_greatest.
Qed.

(** ** Products of permutations *)

(** The classes, each permuted on its own. *)
Notation same_classes := (Forall2 (fun p q : list Z => p ≡ₚ q)).

Lemma same_classes_refl ps : same_classes ps ps.
Proof. induction ps; by constructor. Qed.

Lemma same_classes_trans ps qs rs : same_classes ps qs -> same_classes qs rs -> same_classes ps rs.
Proof.
  intros H. revert rs. induction H as [|p q ps qs Hp _ IH]; intros rs Hr; inversion Hr; subst; constructor; eauto.
  by etrans.
Qed.

Lemma same_classes_sym ps qs : same_classes ps qs -> same_classes qs ps.
Proof. induction 1; constructor; [by symmetry|done]. Qed.

Definition sort_class (p : list Z) : list Z := sort_by (fun index => index) p.

Lemma sort_class_perm p : sort_class p ≡ₚ p.
Proof. apply sort_by_perm. Qed.

Lemma sort_class_least p r : r ≡ₚ p -> lex_le (sort_class p) r.
Proof.
  intros Hr. apply ascending_least; [|by rewrite sort_class_perm].
  pose proof (sort_by_sorted (fun i : Z => i) p) as Hs. rewrite map_id in Hs. fold (sort_class p) in Hs.
  clear -Hs. induction Hs as [|a l _ IH Ha]; constructor; [done|]. eapply List.Forall_impl; [|exact Ha].
  intros b. unfold ord_le, cmp. cbn. rewrite Z.compare_ngt_iff || idtac. lia.
Qed.

(** [advance_partition_product] steps to the next product, and to the first
    one behind the last. *)
Lemma advance_spec ps :
  match advance_partition_product ps with
  | Ok (true, next) => same_classes next ps /\ lex_lt (concat ps) (concat next) /\
      forall rs, same_classes rs ps -> lex_lt (concat ps) (concat rs) -> lex_le (concat next) (concat rs)
  | Ok (false, next) => next = map sort_class ps /\ forall rs, same_classes rs ps -> lex_le (concat rs) (concat ps)
  | _ => False
  end.
Proof.
  induction ps as [|p ps IH]; cbn [advance_partition_product].
  { split; [done|]. intros rs Hrs. inversion Hrs. apply lex_le_refl. }
  unfold mbind, outcome_mbind. destruct (advance_partition_product ps) as [[[] qs]|e|]; cbn [outcome_bind]; try done.
  - destruct IH as (Hqs & Hlt & Hleast). split; [by constructor|]. cbn [concat]. split; [by apply lex_lt_app|].
    intros rs Hrs. inversion Hrs as [|r ? rs' ? Hr Hrs']; subst. cbn [concat]. apply Permutation_length in Hr.
    rewrite lex_lt_parts, lex_le_parts by done. intros [?|[-> ?]]; [by left|]. right. split; [done|]. by apply Hleast.
  - destruct IH as [-> Hmax]. pose proof (next_permutation_spec p) as Hnext.
    destruct (next_permutation p) as [[[] q]|e|]; cbn [outcome_bind]; try done.
    + destruct Hnext as (Hq & Hlt & Hleast). split_and!.
      * constructor; [done|]. clear. induction ps as [|p ps IH]; constructor; [apply sort_class_perm|done].
      * cbn [concat]. apply lex_lt_parts; [by apply Permutation_length|]. by left.
      * intros rs Hrs. inversion Hrs as [|r ? rs' ? Hr Hrs']; subst. cbn [concat].
        pose proof (Permutation_length Hr) as Hlen. pose proof (Permutation_length Hq) as Hlen'.
        rewrite lex_lt_parts, lex_le_parts by congruence. intros [Hlt'|[-> Hlt']].
        -- specialize (Hleast r Hr Hlt'). apply lex_le_cases in Hleast as [?| ->]; [by left|]. right. split; [done|].
           clear -Hrs'. induction Hrs' as [|r p rs ps Hr Hrs IH]; cbn [map concat]; [apply lex_le_refl|].
           apply lex_le_parts; [by rewrite sort_class_perm, Hr|].
           destruct (proj1 (lex_le_cases _ _) (sort_class_least p r Hr)) as [?|E]; [by left|]. by right.
        -- exfalso. apply (proj2 (lex_not_lt _ _) (Hmax rs' Hrs')) in Hlt'. done.
    + destruct Hnext as [-> Hmaxp]. split; [done|]. intros rs Hrs.
      inversion Hrs as [|r ? rs' ? Hr Hrs']; subst. cbn [concat]. apply lex_le_parts; [by apply Permutation_length|].
      destruct (proj1 (lex_le_cases _ _) (Hmaxp r Hr)) as [?| ->]; [by left|]. right. split; [done|]. by apply Hmax.
Qed.

(** The products of some classes, and how many there are. *)
Fixpoint products (ps : list (list Z)) : list (list (list Z)) :=
  match ps with
  | [] => [[]]
  | p :: ps => flat_map (fun q => map (cons q) (products ps)) (permutations p)
  end.

Lemma in_products ps qs : same_classes qs ps -> In qs (products ps).
Proof.
  induction 1 as [|q p qs ps Hq _ IH]; cbn [products]; [by left|].
  apply in_flat_map. exists q. split; [by apply list_elem_of_In, permutations_Permutation|]. by apply in_map.
Qed.

Fixpoint factorial (n : nat) : Z := match n with O => 1 | S n => Z.of_nat (S n) * factorial n end.

Lemma factorial_pos n : 1 <= factorial n.
Proof. induction n as [|n IH]; cbn [factorial]; lia. Qed.

Definition product_count (ps : list (list Z)) : Z := foldr (fun p n => factorial (length p) * n) 1 ps.

Lemma product_count_pos ps : 1 <= product_count ps.
Proof. induction ps as [|p ps IH]; cbn [product_count foldr]; [done|]. fold (product_count ps). pose proof (factorial_pos (length p)). nia. Qed.

Lemma length_interleave {A} (x : A) l : length (interleave x l) = S (length l).
Proof. induction l as [|y l IH]; cbn; [done|]. by rewrite length_fmap, IH. Qed.

Lemma interleave_lengths {A} (x : A) l l' : l' ∈ interleave x l -> length l' = S (length l).
Proof. intros H%interleave_Permutation. by rewrite H. Qed.

Lemma length_bind_const {A B} (f : A -> list B) l n : (forall a, a ∈ l -> length (f a) = n) -> length (l ≫= f) = (length l * n)%nat.
Proof.
  induction l as [|a l IH]; intros H; cbn; [done|]. rewrite length_app, IH, H; [done|by left|]. intros b Hb. apply H. by right.
Qed.

Lemma length_permutations {A} (l : list A) : Z.of_nat (length (permutations l)) = factorial (length l).
Proof.
  induction l as [|x l IH]; cbn [permutations length]; [done|].
  rewrite (length_bind_const _ _ (S (length l))).
  - cbn [factorial]. lia.
  - intros p Hp. rewrite length_interleave. apply permutations_Permutation in Hp. by rewrite Hp.
Qed.

Lemma length_products ps : Z.of_nat (length (products ps)) = product_count ps.
Proof.
  induction ps as [|p ps IH]; cbn [products product_count foldr]; [done|]. fold (product_count ps).
  rewrite <- (length_permutations p), <- IH, <- Nat2Z.inj_mul. f_equal.
  induction (permutations p) as [|q l IHl]; cbn [flat_map length]; [done|]. rewrite length_app, length_map, IHl. lia.
Qed.

(** The number of products behind a given one. *)
Definition behind (ps current : list (list Z)) : nat :=
  length (filter (fun rs => bytes_ltb (concat current) (concat rs) = true) (products ps)).

Lemma filter_fewer {A} (P Q : A -> Prop) `{forall x, Decision (P x), forall x, Decision (Q x)} l x :
  (forall y, P y -> Q y) -> In x l -> Q x -> ~ P x -> (length (filter P l) < length (filter Q l))%nat.
Proof.
  intros HPQ. assert (forall l, (length (filter P l) <= length (filter Q l))%nat) as Hle.
  { clear -HPQ. induction l as [|y l IH]; [done|]. rewrite !filter_cons. repeat case_decide; cbn [length]; try lia. naive_solver. }
  induction l as [|y l IH]; [done|]. intros [->|Hin] HQ HP; rewrite !filter_cons.
  - rewrite decide_False, decide_True by done. cbn [length]. specialize (Hle l). lia.
  - specialize (IH Hin HQ HP). repeat case_decide; cbn [length]; try lia. naive_solver.
Qed.

Lemma behind_next ps current next :
  same_classes next ps -> lex_lt (concat current) (concat next) -> (behind ps next < behind ps current)%nat.
Proof.
  intros Hn Hlt. apply (filter_fewer _ _ _ next); [|by apply in_products|exact Hlt|].
  - intros rs H. exact (transitivity (R:=bytes_lt) Hlt H).
  - intros H. exact (irreflexivity bytes_lt (concat next) H).
Qed.

Lemma behind_all ps current : same_classes current ps -> (behind ps current < length (products ps))%nat.
Proof.
  intros Hc. unfold behind.
  assert (forall l, In current l -> (length (filter (fun rs => bytes_ltb (concat current) (concat rs) = true) l) < length l)%nat) as H.
  { clear Hc. induction l as [|y l IH]; [done|]. intros Hin. rewrite filter_cons. pose proof (length_filter (fun rs => bytes_ltb (concat current) (concat rs) = true) l).
    destruct Hin as [->|Hin].
    - rewrite decide_False; [cbn [length]; lia|]. intros E. exact (irreflexivity bytes_lt (concat current) E).
    - specialize (IH Hin). case_decide; cbn [length]; lia. }
  apply H. by apply in_products.
Qed.
