(* ===== verification/AlphaSound.v ===== *)
(** * The loops of [alpha_order]

    Refinement reaches the stable colors or is refused for not converging; the
    number of candidate orders is the number of products; and the serialized
    graph of an order is written as [graph_of] says. *)

From S2P Require Import Prelude Bytes Order Hash Error Machine Limits Session Varint CanonicalTree AlphaOrder Charged Neighborhoods Permutations.

(** ** Refinement *)

Lemma table_colors colors : colors = table (len colors) (color_at colors).
Proof.
  apply list_eq. intros i. rewrite lookup_table. case_decide as H.
  - unfold color_at. destruct (get_at_is_Some colors (Z.of_nat i)) as [c E]; [lia|]. rewrite E.
    apply get_at_Some in E as [_ E]. by rewrite Nat2Z.id in E.
  - apply lookup_ge_None. lia.
Qed.

Definition did_not_converge : NativeError := protocol "native blank-node partition refinement did not converge".

Section Refinement.
Context (payloads : list bytes) (arcs : list BlankArc) (label_count : Z).

(** The colors before refinement, and those of the next round. *)
Definition first_colors : list bytes := table label_count (fun label => color_of (neighborhood payloads arcs None label)).
Definition refined (colors : list bytes) : list bytes :=
  table label_count (fun label => color_of (color_at colors label :: neighborhood payloads arcs (Some colors) label)).

(** The colors at which the classes stop changing, and the number of rounds. *)
Fixpoint stable_colors (fuel : nat) (colors : list bytes) (rounds : Z) : option (list bytes * Z) :=
  match fuel with
  | O => None
  | S fuel =>
      let rounds := rounds + 1 in
      if same_partition_of colors (refined colors) then Some (refined colors, rounds)
      else if label_count + 1 <? rounds then None else stable_colors fuel (refined colors) rounds
  end.

Hypothesis Hn : 0 <= label_count < USIZE_MAX.
Hypothesis Harcs : forall arc, In arc arcs -> arc_in payloads label_count arc.

Lemma charged_refine_colors colors : len colors = label_count ->
  charged (refine_colors arcs payloads label_count colors) (Ok (refined colors)).
Proof using Hn Harcs.
  intros Hl. unfold refine_colors.
  eapply charged_then; [apply charged_neighborhoods; [lia|done|by intros cs [= <-]]|]. cbv beta. charges.
  rewrite (table_colors colors) at 1. rewrite Hl, zip_table.
  eapply (charged_then _ _ (map (fun pair => pair.1 :: pair.2) _)).
  - eapply charged_eq; [apply (charged_fold (fun _ => True) _ (fun pair signatures => signatures ++ [pair.1 :: pair.2])); [done|]|].
    + intros [color neighborhood] signatures _ _. split; [|done]. eapply charged_then; [|apply charged_ret].
      unfold color_signature. charges; [unfold saturating_add; lia|]. ch. apply charged_ret.
    + by rewrite (foldl_snoc (fun pair => pair.1 :: pair.2)).
  - eapply charged_eq; [apply charged_colors|]. f_equal. unfold refined. by rewrite !map_table.
Qed.

Lemma len_refined colors : len (refined colors) = label_count.
Proof using Hn. apply len_table. lia. Qed.

Lemma work_add_bound a b : match work_add a b with Ok x => x = a + b | Err e => code e = "NATIVE_WIRE_LIMIT"%string | Panic => False end.
Proof. clear. unfold work_add, checked_add, ok_or. by destruct (_ <=? _). Qed.
Lemma work_mul_bound a b : match work_mul a b with Ok x => x = a * b | Err e => code e = "NATIVE_WIRE_LIMIT"%string | Panic => False end.
Proof. clear. unfold work_mul, checked_mul, ok_or. by destruct (_ <=? _). Qed.

Lemma charged_enforce_work work limits details : charged (lift (enforce_work work limits details)) (Ok tt).
Proof. clear. apply charged_lift_bound. unfold enforce_work, fail_if. by destruct (_ <? _). Qed.

Lemma charged_refinement_loop fuel limits details arc_count colors rounds work :
  len colors = label_count -> 0 <= rounds <= label_count + 1 -> label_count + 2 <= Z.of_nat fuel + rounds ->
  charged (refinement_loop arcs payloads fuel limits details label_count arc_count colors rounds work)
    (match stable_colors fuel colors rounds with
     | Some (colors', rounds') => Ok (colors', rounds', work + (rounds' - rounds) * (label_count * 2 + arc_count * 2))
     | None => Err did_not_converge
     end).
Proof using Hn Harcs.
  revert colors rounds work. induction fuel as [|fuel IH]; intros colors rounds work Hl Hr Hf; cbn [refinement_loop stable_colors]; [lia|].
  charges. eapply (charged_then _ _ (rounds + 1)).
  { apply charged_lift_bound. unfold checked_add, ok_or. by destruct (_ <=? _). }
  eapply charged_then; [by apply charged_refine_colors|]. cbv beta.
  eapply charged_then; [apply charged_lift_bound, work_mul_bound|].
  eapply charged_then; [apply charged_lift_bound, work_mul_bound|].
  eapply charged_then; [apply charged_lift_bound, work_add_bound|].
  eapply charged_then; [apply charged_lift_bound, work_add_bound|]. cbv beta.
  eapply charged_then; [apply charged_usize_u64|].
  eapply charged_then; [apply charged_enforce_work|]. cbv beta.
  eapply charged_then; [apply charged_same_partition; by rewrite len_refined|]. cbv beta.
  destruct (same_partition_of colors (refined colors)).
  { eapply charged_eq; [apply charged_ret|]. f_equal. f_equal. lia. }
  replace (saturating_add USIZE_MAX label_count 1) with (label_count + 1) by (unfold saturating_add; lia).
  destruct (Z.ltb_spec (label_count + 1) (rounds + 1)) as [Hlt|Hge].
  - apply (charged_eq _ (fail_if true did_not_converge ≫= fun _ : unit => Panic)); [|done].
    apply charged_bind; [apply charged_ensure_not|done].
  - eapply charged_then; [apply (charged_ensure_not false)|]. cbv beta.
    eapply charged_eq; [apply IH; [by rewrite len_refined|lia|lia]|].
    destruct (stable_colors _ _ _) as [[colors' rounds']|]; [|done]. f_equal. f_equal. nia.
Qed.

Lemma stable_colors_rounds fuel colors rounds colors' rounds' :
  stable_colors fuel colors rounds = Some (colors', rounds') -> rounds < rounds' <= rounds + Z.of_nat fuel /\ len colors' = label_count.
Proof using Hn.
  revert colors rounds. induction fuel as [|fuel IH]; intros colors rounds; cbn [stable_colors]; [done|].
  destruct (same_partition_of _ _); [intros [= <- <-]; rewrite len_refined; lia|].
  destruct (_ <? _); [done|]. intros H%IH. lia.
Qed.
End Refinement.

(** ** How many orders there are *)

Lemma permutation_count_bounded classes maximum consumed details :
  0 <= consumed -> maximum <= U64_MAX -> bounded (permutation_count classes maximum consumed details) (product_count classes).
Proof.
  intros Hc Hm. unfold permutation_count.
  set (remaining := Z.max 0 (maximum - consumed)).
  assert (forall n start count, 2 <= start -> 1 <= count ->
    bounded (ofor_range (fun factor count =>
      factor ← usize_u64 factor "native blank permutation factor exceeds u64";
      fail_if (remaining / factor <? count)
        (resource_limit_with_details "max_canonical_work" (NativeNumber_integer (saturating_add U64_MAX maximum 1))
           (NativeNumber_integer maximum) details
           "native anonymous canonicalization exceeds max_canonical_work");;
      or_panic (checked_mul U64_MAX count factor)) start n (count * factorial (Z.to_nat (start - 1))))
      (count * factorial (n + Z.to_nat (start - 1)))) as Hrange.
  { induction n as [|n IH]; intros start count Hs Hcount; cbn [ofor_range]; [done|].
    pose proof (factorial_pos (Z.to_nat (start - 1))) as Hp.
    apply (bounded_bind _ _ (count * factorial (Z.to_nat (start - 1)) * start)).
    - apply (bounded_bind _ _ start). { unfold bounded, usize_u64, try_from, ok_or. by destruct (_ <=? _). }
      unfold fail_if. destruct (Z.ltb_spec (remaining / start) (count * factorial (Z.to_nat (start - 1)))) as [|Hle]; [done|].
      cbn. unfold checked_mul. rewrite (proj2 (Z.leb_le _ _)); [done|].
      assert (count * factorial (Z.to_nat (start - 1)) * start <= remaining); [|lia].
      rewrite Z.mul_comm. transitivity (start * (remaining / start)); [nia|]. apply Z.mul_div_le. lia.
    - replace (count * factorial (Z.to_nat (start - 1)) * start) with (count * factorial (Z.to_nat (start + 1 - 1))).
      + replace (S n + Z.to_nat (start - 1))%nat with (n + Z.to_nat (start + 1 - 1))%nat by lia. apply IH; lia.
      + replace (Z.to_nat (start + 1 - 1)) with (S (Z.to_nat (start - 1))) by lia. cbn [factorial].
        replace (Z.of_nat (S (Z.to_nat (start - 1)))) with start by lia. lia. }
  assert (forall count, 1 <= count -> bounded (ofor_each (fun partition count => ofor_range (fun factor count =>
      factor ← usize_u64 factor "native blank permutation factor exceeds u64";
      fail_if (remaining / factor <? count)
        (resource_limit_with_details "max_canonical_work" (NativeNumber_integer (saturating_add U64_MAX maximum 1))
           (NativeNumber_integer maximum) details
           "native anonymous canonicalization exceeds max_canonical_work");;
      or_panic (checked_mul U64_MAX count factor)) 2 (length partition - 1) count) classes count) (count * product_count classes)) as H.
  { induction classes as [|p classes IH]; intros count Hcount; cbn [ofor_each product_count foldr]; [cbn; lia|].
    fold (product_count classes). apply (bounded_bind _ _ (count * factorial (length p))).
    - pose proof (Hrange (length p - 1)%nat 2 count ltac:(lia) Hcount) as Hr. change (Z.to_nat (2 - 1)) with 1%nat in Hr.
      cbn [factorial] in Hr. change (Z.of_nat 1 * 1) with 1 in Hr. rewrite Z.mul_1_r in Hr. destruct p as [|a p]; [exact Hr|].
      cbn [length] in Hr |- *. replace (S (length p) - 1 + 1)%nat with (S (length p)) in Hr by lia. exact Hr.
    - replace (count * (factorial (length p) * product_count classes)) with (count * factorial (length p) * product_count classes) by lia.
      apply IH. pose proof (factorial_pos (length p)). nia. }
  specialize (H 1 ltac:(lia)). rewrite Z.mul_1_l in H. exact H.
Qed.

(** * [alpha_order] finds the least graph of the stable color classes

    The serialized graph of an order as a function, the loop over the
    candidate orders, and the order that [alpha_order] returns. *)

(** The place of a label in an order. *)
Fixpoint position (order : list Z) (label : Z) : Z :=
  match order with
  | [] => 0
  | first :: order => if decide (first = label) then 0 else 1 + position order label
  end.

Lemma position_nonneg order label : 0 <= position order label.
Proof. induction order as [|first order IH]; cbn [position]; [done|]. case_decide; lia. Qed.

Lemma position_middle before label after : ~ In label before -> position (before ++ label :: after) label = len before.
Proof.
  induction before as [|first before IH]; intros Hn; cbn [app position length].
  - by rewrite decide_True.
  - rewrite decide_False by (intros ->; apply Hn; by left). rewrite IH by (intros ?; apply Hn; by right). lia.
Qed.

Section Graph.
Context (payloads : list bytes) (arcs : list BlankArc).

(** A member of the graph: an arc, its labels replaced by their places. *)
Definition member_of (order : list Z) (arc : BlankArc) : bytes :=
  varint (position order (arc_source arc)) ++ frame (role arc) ++
  match arc_target arc with None => [0] | Some target => 1 :: varint (position order target) end ++
  frame (payload_of payloads arc).

Definition members_of (order : list Z) : list bytes :=
  vec_dedup (sort_by (fun member => member) (map (member_of order) arcs)).

Definition graph_of (order : list Z) : bytes :=
  BLANK_GRAPH_DOMAIN ++ varint (len order) ++ varint (len (members_of order)) ++ concat (map frame (members_of order)).

Context (label_count : Z).
Hypothesis Hn : 0 <= label_count < USIZE_MAX.
Hypothesis Harcs : forall arc, In arc arcs -> arc_in payloads label_count arc.

Lemma invert_order_spec message order : order ≡ₚ seqZ 0 label_count ->
  invert_order message order (replicate (length order) 0) = Ok (table label_count (position order)).
Proof using Hn.
  intros Hp. pose proof (NoDup_seqZ 0 label_count) as Hnd. rewrite <- Hp in Hnd.
  assert (forall label, In label order -> 0 <= label < label_count) as Hin.
  { intros label Hl%list_elem_of_In. rewrite Hp in Hl. apply elem_of_seqZ in Hl. lia. }
  unfold invert_order.
  replace (replicate (length order) 0) with (table label_count (fun label => if decide (label ∈ @nil Z) then position order label else 0)).
  2:{ rewrite Hp, length_seqZ. apply list_eq. intros i. rewrite lookup_table. symmetry. case_decide.
      - rewrite decide_False by apply not_elem_of_nil. apply lookup_replicate_2. lia.
      - apply lookup_ge_None. rewrite length_replicate. lia. }
  assert (forall before after, order = before ++ after ->
    ofor_each (fun label '(index, indexes) =>
      _ ← ok_or (get_at indexes label) (protocol message);
      Ok (index + 1, <[Z.to_nat label := index]> indexes)) after
      (len before, table label_count (fun label => if decide (label ∈ before) then position order label else 0)) =
    Ok (len order, table label_count (fun label => if decide (label ∈ order) then position order label else 0))) as Hloop.
  { intros before after. revert before. induction after as [|label after IH]; intros before E; cbn [ofor_each].
    - rewrite app_nil_r in E. by subst.
    - assert (In label order) as Hl by (rewrite E; apply in_app_iff; right; by left).
      rewrite get_at_table by by apply Hin. cbn [ok_or mbind outcome_mbind outcome_bind].
      rewrite insert_table by by apply Hin. specialize (IH (before ++ [label])). rewrite length_app, Nat2Z.inj_add in IH.
      cbn [length] in IH. change (Z.of_nat 1) with 1 in IH. rewrite <- IH by by rewrite <- app_assoc.
      do 2 f_equal. apply table_ext. intros j _. rewrite E in Hnd. apply NoDup_app in Hnd as (_ & Hd & _).
      assert (position order label = len before) as Epos.
      { rewrite E. apply position_middle. intros Hb%list_elem_of_In. apply (Hd label Hb). by left. }
      destruct (decide (j = label)) as [->|Hne].
      + rewrite decide_True by (apply elem_of_app; right; by left). done.
      + assert (j ∈ before ++ [label] <-> j ∈ before) as Hiff.
        { rewrite elem_of_app, list_elem_of_singleton. tauto. }
        repeat case_decide; tauto || done. }
  specialize (Hloop [] order eq_refl). change (len (@nil Z)) with 0 in Hloop. rewrite Hloop. cbn [mbind outcome_mbind outcome_bind]. f_equal. apply table_ext. intros j Hj.
  rewrite decide_True; [done|]. rewrite Hp. apply elem_of_seqZ. lia.
Qed.

Lemma charged_graph_member order arc : order ≡ₚ seqZ 0 label_count -> In arc arcs ->
  charged (graph_member payloads (table label_count (position order)) arc) (Ok (member_of order arc)).
Proof using Hn Harcs.
  intros Hp Ha. specialize (Harcs arc Ha). unfold graph_member. rewrite (get_at_payload payloads label_count arc) by done.
  destruct Harcs as (Hs & _ & Ht). eapply charged_then; [by apply charged_lift|]. cbv beta. unfold index_at.
  rewrite get_at_table by done. eapply charged_then; [by apply charged_lift|]. cbv beta.
  pose proof (position_nonneg order (arc_source arc)).
  apply charged_length; [intros ?|done]. ch. ch.
  eapply (charged_then _ _ (match arc_target arc with None => [0] | Some target => 1 :: varint (position order target) end)).
  - destruct (arc_target arc) as [t|]; [|apply charged_push_byte]. ch. rewrite get_at_table by by apply Ht.
    eapply charged_then; [by apply charged_lift|]. cbv beta. pose proof (position_nonneg order t).
    apply charged_length; [intros ?|done]. ch. apply charged_ret.
  - ch. apply charged_ret.
Qed.

Lemma charged_serialize_graph order : order ≡ₚ seqZ 0 label_count ->
  charged (serialize_graph arcs payloads order) (Ok (graph_of order)).
Proof using Hn Harcs.
  intros Hp. unfold serialize_graph. charges. rewrite invert_order_spec by done.
  eapply charged_then; [by apply charged_lift|]. cbv beta. charges.
  eapply charged_then; [apply (charged_collect _ (member_of order) arcs []); intros arc Ha; by apply charged_graph_member|].
  cbn [app]. fold (members_of order). ch. ch. ch. ch. ch. eapply charged_eq; [apply charged_append_frames|].
  unfold graph_of. by rewrite <- !app_assoc.
Qed.

(** ** The candidate orders *)

(** An order lists the classes one after another, each in any order. *)
Definition candidate (classes : list (list Z)) (order : list Z) : Prop :=
  exists choices, same_classes choices classes /\ order = concat choices.

(** The first candidate order among those of the least graph. *)
Definition least_order (classes : list (list Z)) (order : list Z) : Prop :=
  candidate classes order /\ forall order', candidate classes order' ->
    bytes_lt (graph_of order) (graph_of order') \/ (graph_of order = graph_of order' /\ lex_le order order').

Lemma concat_same_classes choices classes : same_classes choices classes -> concat choices ≡ₚ concat classes.
Proof. clear. induction 1 as [|p q ps qs Hp _ IH]; cbn; [done|]. by rewrite Hp, IH. Qed.

Lemma classes_least classes choices :
  Forall (StronglySorted Z.lt) classes -> same_classes choices classes -> lex_le (concat classes) (concat choices).
Proof.
  clear. intros Hs Hc. induction Hc as [|p q ps qs Hp _ IH]; cbn [concat]; [apply lex_le_refl|].
  apply Forall_cons in Hs as [Hq Hs]. apply lex_le_parts; [by rewrite Hp|].
  assert (lex_le q p) as Hqp.
  { apply ascending_least; [|done]. clear -Hq. induction Hq as [|a l _ IH Ha]; constructor; [done|].
    eapply List.Forall_impl; [|exact Ha]. cbn. lia. }
  apply lex_le_cases in Hqp as [?| ->]; [by left|]. right. split; [done|by apply IH].
Qed.

(** The best order so far is the least of those before the current one. *)
Definition best_before (classes : list (list Z)) (current : list Z) (best : option (bytes * list Z)) : Prop :=
  match best with
  | None => forall order, candidate classes order -> ~ lex_lt order current
  | Some (graph, order) => graph = graph_of order /\ candidate classes order /\ lex_lt order current /\
      forall order', candidate classes order' -> lex_lt order' current ->
        bytes_lt graph (graph_of order') \/ (graph = graph_of order' /\ lex_le order order')
  end.

Definition better (graph : bytes) (order : list Z) (best : option (bytes * list Z)) : option (bytes * list Z) :=
  match best with
  | Some (best_graph, _) => if bytes_ltb graph best_graph then Some (graph, order) else best
  | None => Some (graph, order)
  end.

(** The best order up to the current one. *)
Lemma better_least classes current best order :
  best_before classes current best -> candidate classes current ->
  better (graph_of current) current best = Some order ->
  order.1 = graph_of order.2 /\ candidate classes order.2 /\ lex_le order.2 current /\
  forall order', candidate classes order' -> lex_le order' current ->
    bytes_lt order.1 (graph_of order') \/ (order.1 = graph_of order' /\ lex_le order.2 order').
Proof.
  clear. intros Hb Hc E. destruct best as [[graph best]|]; cbn [better best_before] in *.
  - destruct Hb as (-> & Hcb & Hlt & Hleast). destruct (bytes_ltb (graph_of current) (graph_of best)) eqn:Eg; injection E as <-; cbn [fst snd].
    + split_and!; [done|done|apply lex_le_refl|]. intros order' Hc' [Hlt'| ->]%lex_le_cases; [|right; split; [done|apply lex_le_refl]].
      left. destruct (Hleast order' Hc' Hlt') as [H|[<- _]]; [|done]. by transitivity (graph_of best).
    + split_and!; [done|done|apply lex_le_cases; by left|]. intros order' Hc' [Hlt'| ->]%lex_le_cases; [by apply Hleast|].
      assert (lex_le (graph_of best) (graph_of current)) as Hge.
      { apply lex_not_lt. unfold bytes_lt. by rewrite Eg. }
      apply lex_le_cases in Hge as [?|?]; [by left|]. right. split; [done|]. apply lex_le_cases. by left.
  - injection E as <-. cbn [fst snd]. split_and!; [done|done|apply lex_le_refl|].
    intros order' Hc' [Hlt'| ->]%lex_le_cases; [by apply Hb in Hc'|]. right. split; [done|apply lex_le_refl].
Qed.

Lemma charged_candidate_loop classes fuel choices best :
  concat classes ≡ₚ seqZ 0 label_count -> same_classes choices classes -> (behind classes choices < fuel)%nat ->
  best_before classes (concat choices) best ->
  exists order, charged (candidate_loop arcs payloads fuel label_count choices best) (Ok (Some (graph_of order, order))) /\ least_order classes order.
Proof using Hn Harcs.
  intros Hp. revert choices best. induction fuel as [|fuel IH]; intros choices best Hc Hf Hb; [lia|]. cbn [candidate_loop].
  assert (candidate classes (concat choices)) as Hcand by by exists choices.
  assert (concat choices ≡ₚ seqZ 0 label_count) as Hpc by by rewrite (concat_same_classes choices classes).
  destruct (better (graph_of (concat choices)) (concat choices) best) as [[graph order]|] eqn:Eb.
  2:{ unfold better in Eb. destruct best as [[? ?]|]; [by destruct (bytes_ltb _ _)|done]. }
  pose proof (better_least classes _ best (graph, order) Hb Hcand Eb) as (Eg & Hco & Hle & Hleast). cbn [fst snd] in *. subst graph.
  pose proof (advance_spec choices) as Hadv.
  destruct (advance_partition_product choices) as [[[] next]|e|] eqn:Ea; [|..|done]; [| |done].
  - destruct Hadv as (Hnext & Hlt & Hnext_least).
    assert (same_classes next classes) as Hnc by by eapply same_classes_trans.
    destruct (IH next (Some (graph_of order, order))) as (o & H1 & H2); [done| | |].
    + pose proof (behind_next classes choices next Hnc Hlt). lia.
    + cbn [best_before]. split_and!; [done|done| |].
      * apply lex_le_cases in Hle as [Hle| ->]; [by transitivity (concat choices)|done].
      * intros order' Hc' Hlt'. apply Hleast; [done|]. apply lex_not_lt. intros Hgt.
        destruct Hc' as (rs & Hrs & ->). apply (proj2 (lex_not_lt (concat rs) (concat next))); [|done].
        apply Hnext_least; [|done]. eapply same_classes_trans; [done|by apply same_classes_sym].
    + exists o. split; [|done]. charges. eapply charged_then; [by apply charged_serialize_graph|]. cbv beta zeta.
      fold (better (graph_of (concat choices)) (concat choices) best). rewrite Eb.
      eapply charged_then; [by apply charged_lift|]. exact H1.
  - destruct Hadv as [_ Hmax]. exists order. split.
    + charges. eapply charged_then; [by apply charged_serialize_graph|]. cbv beta zeta.
      fold (better (graph_of (concat choices)) (concat choices) best). rewrite Eb.
      eapply charged_then; [by apply charged_lift|]. apply charged_ret.
    + split; [done|]. intros order' Hc'. apply Hleast; [done|]. destruct Hc' as (rs & Hrs & ->).
      apply Hmax. eapply same_classes_trans; [done|by apply same_classes_sym].
Qed.
End Graph.

(** ** The canonical order *)

(** The colors at which refinement stops, and after how many rounds. *)
Definition settled (payloads : list bytes) (arcs : list BlankArc) (label_count : Z) : option (list bytes * Z) :=
  stable_colors payloads arcs label_count (refinement_fuel label_count) (first_colors payloads arcs label_count) 0.

(** The canonical order of a component. *)
Definition canonical_result (payloads : list bytes) (arcs : list BlankArc) (label_count : Z) (result : AlphaResult) : Prop :=
  exists colors rounds classes, settled payloads arcs label_count = Some (colors, rounds) /\
    color_classes colors (indexes_by_color colors) classes /\
    least_order payloads arcs classes (order result) /\ graph result = graph_of payloads arcs (order result) /\
    result_rounds result = rounds /\ permutations_examined result = product_count classes.

Lemma charged_clone classes : charged (clone_partitions classes) (Ok classes).
Proof.
  unfold clone_partitions. charges.
  eapply charged_eq; [apply (charged_fold (fun _ => True) _ (fun partition result => result ++ [partition])); [done|]|].
  - intros partition result _ _. split; [|done]. charges. apply charged_ret.
  - by rewrite (foldl_snoc (fun partition => partition)), map_id.
Qed.

Lemma charged_bounded {A} (o : outcome A) a : bounded o a -> charged (lift o) (Ok a).
Proof. apply charged_lift_bound. Qed.

Section Alpha.
Context (payloads : list bytes) (arcs : list BlankArc) (label_count : Z) (limits : Limits) (details : NativeLimitDetails).
Hypothesis Hn : 0 <= label_count < USIZE_MAX.
Hypothesis Harcs : forall arc, In arc arcs -> arc_in payloads label_count arc.

(** The part before refinement. *)
Lemma charged_setup {A} (k : Z -> Z -> Z -> list bytes -> M Session A) o :
  charged (k label_count (len arcs) (label_count + len arcs * 2) (first_colors payloads arcs label_count)) o ->
  charged (
    terms ← lift (checked_add_u64 label_count (len arcs) "native blank term count overflow");
    ensure_not (max_terms limits <? terms)
      (resource_limit "max_terms" (NativeNumber_integer terms) (NativeNumber_integer (max_terms limits))
         "native anonymous canonicalization exceeds max_terms");;
    label_count ← lift (usize_u64 label_count "native blank label count exceeds u64");
    arc_count ← lift (usize_u64 (len arcs) "native blank arc count exceeds u64");
    twice_arcs ← lift (work_mul arc_count 2);
    setup_work ← lift (work_add label_count twice_arcs);
    lift (enforce_work setup_work limits (with_work 0 "setup" details));;
    signatures ← neighborhoods payloads label_count arcs None;
    colors ← colors_from_signatures signatures;
    k label_count arc_count setup_work colors) o.
Proof using Hn Harcs.
  intros Hk. eapply (charged_then _ _ (label_count + len arcs)).
  { apply charged_lift_bound. unfold checked_add_u64, checked_add, usize_u64, try_from, ok_or.
    repeat (destruct (_ <=? _); cbn; try done). }
  eapply charged_then; [by apply charged_ensure_bound|]. cbv beta.
  eapply charged_then; [apply charged_usize_u64|]. eapply charged_then; [apply charged_usize_u64|].
  eapply charged_then; [apply charged_lift_bound, work_mul_bound|].
  eapply charged_then; [apply charged_lift_bound, work_add_bound|].
  eapply charged_then; [apply charged_enforce_work|]. cbv beta.
  eapply charged_then; [apply charged_neighborhoods; [lia|done|done]|]. cbv beta.
  eapply charged_then; [apply charged_colors|]. cbv beta. by rewrite map_table.
Qed.

Lemma charged_alpha_order :
  max_canonical_work limits <= U64_MAX ->
  match settled payloads arcs label_count with
  | None => charged (alpha_order arcs payloads label_count limits details) (Err did_not_converge)
  | Some _ => exists result,
      charged (alpha_order arcs payloads label_count limits details) (Ok result) /\ canonical_result payloads arcs label_count result
  end.
Proof using Hn Harcs.
  intros Hm. unfold canonical_result, settled. set (setup := label_count + len arcs * 2).
  pose proof (charged_refinement_loop payloads arcs label_count Hn Harcs (refinement_fuel label_count) limits details (len arcs)
    (first_colors payloads arcs label_count) 0 setup) as Hloop.
  unfold first_colors in Hloop at 1. rewrite len_table in Hloop by lia.
  specialize (Hloop eq_refl ltac:(lia) ltac:(unfold refinement_fuel; lia)).
  pose proof (stable_colors_rounds payloads arcs label_count Hn (refinement_fuel label_count) (first_colors payloads arcs label_count) 0) as Hrounds.
  destruct (stable_colors _ _ _ _ _ _) as [[colors rounds]|].
  2:{ apply charged_setup. eapply (charged_bind _ _ _ (fun _ => Panic)) in Hloop; [exact Hloop|done]. }
  specialize (Hrounds colors rounds eq_refl) as [Hr Hlen].
  destruct (charged_partitions colors) as (classes & Hparts & Hclasses).
  assert (concat classes ≡ₚ seqZ 0 label_count) as Hperm.
  { rewrite (classes_cover _ _ _ Hclasses), <- Hlen. apply sort_by_perm. }
  destruct (charged_candidate_loop payloads arcs label_count Hn Harcs classes (Z.to_nat (product_count classes)) classes None)
    as (best & Hcand & Hbest); [done|apply same_classes_refl| | |].
  { rewrite <- length_products, Nat2Z.id. apply behind_all, same_classes_refl. }
  { cbn [best_before]. intros o (rs & Hrs & ->). apply lex_not_lt. apply classes_least; [|done].
    apply List.Forall_forall. intros c Hc. by apply (classes_uniform _ _ _ Hclasses). }
  eexists. split.
  - apply charged_setup. eapply charged_then; [exact Hloop|]. cbv beta iota.
    eapply charged_then; [exact Hparts|]. eapply charged_then; [apply charged_usize_u64|]. cbv beta zeta.
    eapply charged_then; [apply charged_bounded, permutation_count_bounded; [nia|done]|].
    eapply charged_then; [apply charged_lift_bound, work_add_bound|].
    eapply charged_then; [apply charged_lift_bound, work_mul_bound|].
    eapply charged_then; [apply charged_lift_bound, work_add_bound|].
    eapply charged_then; [apply charged_enforce_work|]. cbv beta.
    eapply charged_then; [apply charged_clone|]. eapply charged_then; [exact Hcand|]. cbv beta.
    eapply charged_then; [by apply charged_lift|]. cbv beta iota.
    eapply charged_then; [|apply charged_ret]. rewrite (proj2 (Z.leb_le _ _)) by nia. by apply charged_lift.
  - exists colors, rounds, classes. cbn. split_and!; done.
Qed.
End Alpha.
