(* ===== verification/AlphaInvariant.v ===== *)
(** * The graph of a component does not depend on its labels

    Two components are isomorphic when a renaming of the labels takes the arcs
    of one to those of the other, in any order.  Refinement colors them alike,
    their classes correspond, and the graphs of their canonical orders are the
    same. *)

From S2P Require Import Prelude Bytes Order Hash Error Machine Limits Session Varint CanonicalTree AlphaOrder Charged Neighborhoods Permutations AlphaSound.

(** ** Lists up to order *)

Lemma sort_by_Permutation `{Ord A} (x y : list A) : x ≡ₚ y -> sort_by (fun a => a) x = sort_by (fun a => a) y.
Proof.
  intros Hp. apply (StronglySorted_unique ord_le).
  - pose proof (sort_by_sorted (fun a : A => a) x) as Hs. by rewrite map_id in Hs.
  - pose proof (sort_by_sorted (fun a : A => a) y) as Hs. by rewrite map_id in Hs.
  - by rewrite !sort_by_perm.
Qed.

(** ** Isomorphic components *)

Definition relabelled (payloads payloads' : list bytes) (rename : Z -> Z) (arc arc' : BlankArc) : Prop :=
  arc_source arc' = rename (arc_source arc) /\ role arc' = role arc /\
  arc_target arc' = rename <$> arc_target arc /\ payload_of payloads' arc' = payload_of payloads arc.

Record isomorphic (label_count : Z) (payloads payloads' : list bytes) (rename : Z -> Z) (arcs arcs' : list BlankArc) : Prop := {
  rename_in : forall label, 0 <= label < label_count -> 0 <= rename label < label_count;
  rename_inj : forall label other, 0 <= label < label_count -> 0 <= other < label_count ->
    rename label = rename other -> label = other;
  arcs_match : exists arcs'', Forall2 (relabelled payloads payloads' rename) arcs arcs'' /\ arcs'' ≡ₚ arcs'
}.

Section Invariance.
Context (n : Z) (payloads payloads' : list bytes) (rename : Z -> Z) (arcs arcs' : list BlankArc).
Hypothesis Hn : 0 <= n < USIZE_MAX.
Hypothesis Harcs : forall arc, In arc arcs -> arc_in payloads n arc.
Hypothesis Harcs' : forall arc, In arc arcs' -> arc_in payloads' n arc.
Hypothesis Hiso : isomorphic n payloads payloads' rename arcs arcs'.

Lemma in_seqZ label : label ∈ seqZ 0 n <-> 0 <= label < n.
Proof. clear. rewrite elem_of_seqZ. lia. Qed.

Lemma map_rename_perm : map rename (seqZ 0 n) ≡ₚ seqZ 0 n.
Proof using Hiso.
  apply submseteq_length_Permutation; [|by rewrite length_map]. apply NoDup_submseteq.
  - apply (NoDup_fmap_2_strong rename); [|apply NoDup_seqZ]. intros x y Hx%in_seqZ Hy%in_seqZ. by apply (rename_inj _ _ _ _ _ _ Hiso).
  - intros x [y [<- Hin]]%list_elem_of_In%in_map_iff. apply in_seqZ, (rename_in _ _ _ _ _ _ Hiso), in_seqZ. by apply list_elem_of_In.
Qed.

Lemma rename_onto label : 0 <= label < n -> exists source, 0 <= source < n /\ rename source = label.
Proof using Hiso.
  intros H. apply in_seqZ in H. rewrite <- map_rename_perm in H. apply list_elem_of_fmap in H as (source & -> & Hs).
  exists source. split; [by apply in_seqZ|done].
Qed.

(** Colors that the renaming takes to each other. *)
Definition alike (colors colors' : list bytes) : Prop :=
  len colors = n /\ len colors' = n /\ forall label, 0 <= label < n -> color_at colors' (rename label) = color_at colors label.

Definition alike_opt (colors colors' : option (list bytes)) : Prop := option_Forall2 alike colors colors'.

Lemma touches_rename label arc arc' : 0 <= label < n -> arc_in payloads n arc -> relabelled payloads payloads' rename arc arc' ->
  touches (rename label) arc' <-> touches label arc.
Proof using Hiso.
  intros Hl (Hs & _ & Ht) (Es & _ & Et & _). unfold touches. rewrite Es, Et. split.
  - intros [E|E]; [left; by apply (rename_inj _ _ _ _ _ _ Hiso)|right]. apply fmap_Some in E as (t & Et' & E). rewrite Et'. f_equal.
    symmetry. apply (rename_inj _ _ _ _ _ _ Hiso); auto.
  - intros [-> | ->]; [by left|by right].
Qed.

Lemma neighbor_rename colors colors' target : 0 <= target < n -> alike_opt colors colors' ->
  neighbor_of (rename target) colors' = neighbor_of target colors.
Proof. clear. intros Ht. destruct 1 as [cs cs' (_ & _ & H)|]; cbn; [by rewrite H|done]. Qed.

Lemma signature_rename colors colors' label arc arc' : 0 <= label < n -> alike_opt colors colors' ->
  arc_in payloads n arc -> relabelled payloads payloads' rename arc arc' ->
  signature payloads' colors' (rename label) arc' = signature payloads colors label arc.
Proof using Hiso.
  intros Hl Hc (Hs & _ & Ht) (Es & Er & Et & Ep). unfold signature. rewrite Es, Er, Et, Ep.
  assert (forall other, 0 <= other < n -> (rename other =? rename label) = (other =? label)) as Heq.
  { intros other Ho. destruct (Z.eqb_spec other label) as [->|Hne]; [by rewrite Z.eqb_refl|]. apply Z.eqb_neq. intros E.
    by apply (rename_inj _ _ _ _ _ _ Hiso) in E. }
  rewrite Heq by done. destruct (arc_source arc =? label).
  - destruct (arc_target arc) as [t|]; cbn [fmap option_fmap option_map]; [|done]. rewrite Heq by by apply Ht.
    destruct (t =? label); [done|]. by rewrite (neighbor_rename colors colors') by (try done; by apply Ht).
  - by rewrite (neighbor_rename colors colors').
Qed.

Lemma neighborhood_rename colors colors' label : 0 <= label < n -> alike_opt colors colors' ->
  neighborhood payloads' arcs' colors' (rename label) = neighborhood payloads arcs colors label.
Proof using Hn Harcs Hiso.
  intros Hl Hc. destruct (arcs_match _ _ _ _ _ _ Hiso) as (arcs'' & Hm & Hp). unfold neighborhood. symmetry.
  apply sort_by_Permutation. rewrite <- Hp. clear Hp.
  enough (map (signature payloads colors label) (filter (touches label) arcs) =
          map (signature payloads' colors' (rename label)) (filter (touches (rename label)) arcs'')) as -> by done.
  assert (forall some some', Forall2 (relabelled payloads payloads' rename) some some' -> (forall arc, In arc some -> arc_in payloads n arc) ->
    map (signature payloads colors label) (filter (touches label) some) =
    map (signature payloads' colors' (rename label)) (filter (touches (rename label)) some')) as H; [|by apply H].
  induction 1 as [|arc arc' some some' Harc _ IH]; intros Hin; [done|].
  assert (arc_in payloads n arc) as Ha by (apply Hin; by left).
  pose proof (touches_rename label arc arc' Hl Ha Harc) as Ht. rewrite !filter_cons.
  specialize (IH (fun a Ha => Hin a (or_intror Ha))).
  repeat case_decide; try tauto. cbn [map]. rewrite IH. f_equal. symmetry. by apply signature_rename.
Qed.

Lemma color_at_table (f : Z -> bytes) label : 0 <= label < n -> color_at (table n f) label = f label.
Proof. clear. intros Hl. unfold color_at. by rewrite get_at_table. Qed.

Lemma alike_table (f f' : Z -> bytes) : (forall label, 0 <= label < n -> f' (rename label) = f label) -> alike (table n f) (table n f').
Proof using Hn Hiso.
  intros H. unfold alike. rewrite !len_table by lia. split_and!; [done..|]. intros label Hl.
  rewrite !color_at_table by (try done; by apply (rename_in _ _ _ _ _ _ Hiso)). by apply H.
Qed.

Lemma first_colors_alike : alike (first_colors payloads arcs n) (first_colors payloads' arcs' n).
Proof using Hn Harcs Hiso. apply alike_table. intros label Hl. f_equal. apply neighborhood_rename; [done|constructor]. Qed.

Lemma refined_alike colors colors' : alike colors colors' -> alike (refined payloads arcs n colors) (refined payloads' arcs' n colors').
Proof using Hn Harcs Hiso.
  intros Hc. apply alike_table. intros label Hl. f_equal. f_equal; [by apply Hc|]. apply neighborhood_rename; [done|by constructor].
Qed.

(** Agreement by label. *)
Lemma agree_labels first second : len first = n -> len second = n ->
  agree first second <-> forall label other, 0 <= label < n -> 0 <= other < n ->
    color_at first label = color_at first other <-> color_at second label = color_at second other.
Proof using Hn.
  intros Ef Es. unfold agree.
  assert (zip first second = table n (fun i => (color_at first i, color_at second i))) as ->.
  { rewrite (table_colors first) at 1. rewrite (table_colors second) at 1. by rewrite Ef, Es, zip_table. }
  unfold table.
  setoid_rewrite in_map_iff. split.
  - intros H label other Hl Ho. apply (H (_, _) (_, _)); [exists label|exists other]; (split; [done|]); by apply list_elem_of_In, in_seqZ.
  - intros H x y (label & <- & Hl%list_elem_of_In%in_seqZ) (other & <- & Ho%list_elem_of_In%in_seqZ). by apply H.
Qed.

Lemma same_partition_alike first second first' second' : alike first first' -> alike second second' ->
  same_partition_of first' second' = same_partition_of first second.
Proof using Hn Hiso.
  intros (E1 & E1' & H1) (E2 & E2' & H2). apply eq_iff_eq_true. rewrite !same_partition_of_spec, !agree_labels by done. split.
  - intros H label other Hl Ho. rewrite <- !H1, <- !H2 by done. by apply H; apply (rename_in _ _ _ _ _ _ Hiso).
  - intros H label other Hl Ho. destruct (rename_onto label Hl) as (l & Hl' & <-), (rename_onto other Ho) as (o & Ho' & <-).
    rewrite !H1, !H2 by done. by apply H.
Qed.

(** Both components settle after the same rounds, on colors alike. *)
Lemma stable_colors_alike fuel colors colors' rounds : alike colors colors' ->
  option_Forall2 (fun settled settled' => alike settled.1 settled'.1 /\ settled.2 = settled'.2)
    (stable_colors payloads arcs n fuel colors rounds) (stable_colors payloads' arcs' n fuel colors' rounds).
Proof using Hn Harcs Hiso.
  revert colors colors' rounds. induction fuel as [|fuel IH]; intros colors colors' rounds Hc; cbn [stable_colors]; [constructor|].
  rewrite (same_partition_alike colors (refined payloads arcs n colors) colors' (refined payloads' arcs' n colors')) by (try done; by apply refined_alike).
  destruct (same_partition_of _ _); [constructor; split; [by apply refined_alike|done]|].
  destruct (_ <? _); [constructor|]. apply IH. by apply refined_alike.
Qed.

Lemma settled_alike :
  option_Forall2 (fun settled settled' => alike settled.1 settled'.1 /\ settled.2 = settled'.2)
    (settled payloads arcs n) (settled payloads' arcs' n).
Proof using Hn Harcs Hiso. apply stable_colors_alike, first_colors_alike. Qed.

(** ** Corresponding classes and orders *)

Lemma class_of_color colors classes class class' : color_classes colors (indexes_by_color colors) classes ->
  In class classes -> In class' classes -> class_color colors class = class_color colors class' -> class = class'.
Proof.
  clear. intros Hc [i Hi]%list_elem_of_In%list_elem_of_lookup [j Hj]%list_elem_of_In%list_elem_of_lookup E.
  pose proof (classes_ordered _ _ _ Hc) as Hs. apply ascending_NoDup in Hs.
  assert (i = j) as ->; [|congruence]. apply (NoDup_lookup _ i j (class_color colors class) Hs); rewrite list_lookup_fmap; [by rewrite Hi|].
  by rewrite Hj, E.
Qed.

Lemma class_member colors classes class label : color_classes colors (indexes_by_color colors) classes -> len colors = n -> In class classes ->
  label ∈ class <-> 0 <= label < n /\ color_at colors label = class_color colors class.
Proof.
  clear. intros Hc Hl Hin.
  assert (label ∈ concat classes <-> 0 <= label < n) as Hcov.
  { rewrite (classes_cover _ _ _ Hc). unfold indexes_by_color. rewrite sort_by_perm, Hl. apply in_seqZ. }
  destruct (classes_uniform _ _ _ Hc class Hin) as (_ & _ & Hu). split.
  - intros Hlab. split; [|by apply Hu, list_elem_of_In]. apply Hcov, list_elem_of_In, in_concat. exists class. split; [done|by apply list_elem_of_In].
  - intros [Hr E]. apply Hcov, list_elem_of_In, in_concat in Hr as (class' & Hin' & Hlab).
    destruct (classes_uniform _ _ _ Hc class' Hin') as (_ & _ & Hu'). rewrite (Hu' label Hlab) in E.
    rewrite <- (class_of_color colors classes class' class) by done. by apply list_elem_of_In.
Qed.

Lemma class_NoDup colors classes class : color_classes colors (indexes_by_color colors) classes -> In class classes -> NoDup class.
Proof. clear. intros Hc Hin. apply ascending_NoDup. destruct (classes_uniform _ _ _ Hc class Hin) as (_ & Hs & _). exact Hs. Qed.

(** The colors of the classes are the colors of the labels. *)
Lemma class_colors colors classes color : color_classes colors (indexes_by_color colors) classes -> len colors = n ->
  In color (map (class_color colors) classes) <-> exists label, 0 <= label < n /\ color_at colors label = color.
Proof.
  clear. intros Hc Hl. rewrite in_map_iff. split.
  - intros (class & <- & Hin). destruct (classes_uniform _ _ _ Hc class Hin) as (Hne & _ & _). destruct class as [|label class]; [done|].
    exists label. split; [|done]. apply (class_member colors classes (label :: class) label Hc Hl Hin). by left.
  - intros (label & Hr & <-).
    assert (label ∈ concat classes) as Hlab.
    { rewrite (classes_cover _ _ _ Hc). unfold indexes_by_color. rewrite sort_by_perm, Hl. by apply in_seqZ. }
    apply list_elem_of_In, in_concat in Hlab as (class & Hin & Hlab). exists class. split; [|done].
    destruct (classes_uniform _ _ _ Hc class Hin) as (_ & _ & Hu). by rewrite (Hu label).
Qed.

Lemma classes_alike colors colors' classes classes' : alike colors colors' ->
  color_classes colors (indexes_by_color colors) classes -> color_classes colors' (indexes_by_color colors') classes' ->
  same_classes classes' (map (map rename) classes).
Proof using Hn Harcs Hiso.
  intros (El & El' & Hcol) Hc Hc'.
  assert (map (class_color colors) classes = map (class_color colors') classes') as Ecol.
  { apply ascending_unique; [apply Hc|apply Hc'|]. intros color. rewrite (class_colors colors), (class_colors colors') by done. split.
    - intros (label & Hr & <-). exists (rename label). split; [by apply (rename_in _ _ _ _ _ _ Hiso)|by apply Hcol].
    - intros (label & Hr & <-). destruct (rename_onto label Hr) as (source & Hs & <-). exists source. split; [done|]. by rewrite Hcol. }
  apply Forall2_same_length_lookup_2.
  { rewrite length_map, <- (length_map (class_color colors')), <- Ecol. by rewrite length_map. }
  intros k class' class Hk' Hk. rewrite list_lookup_fmap in Hk. apply fmap_Some in Hk as (class0 & Hk & ->).
  assert (class_color colors class0 = class_color colors' class') as E.
  { assert (map (class_color colors) classes !! k = map (class_color colors') classes' !! k) as E by by rewrite Ecol.
    rewrite !list_lookup_fmap, Hk, Hk' in E. by injection E. }
  apply list_elem_of_lookup_2, list_elem_of_In in Hk, Hk'. apply NoDup_Permutation.
  - by apply (class_NoDup colors' classes').
  - apply (NoDup_fmap_2_strong rename); [|by apply (class_NoDup colors classes)]. intros x y Hx Hy.
    apply (class_member colors classes) in Hx as [Hx _], Hy as [Hy _]; try done. by apply (rename_inj _ _ _ _ _ _ Hiso).
  - intros label. rewrite (class_member colors' classes') by done. split.
    + intros [Hr Elab]. destruct (rename_onto label Hr) as (source & Hs & <-). apply (list_elem_of_fmap_2 rename).
      apply (class_member colors classes); try done. split; [done|]. by rewrite <- Hcol, Elab by done.
    + intros (source & -> & Hs)%list_elem_of_fmap. apply (class_member colors classes) in Hs as [Hs Es]; try done.
      split; [by apply (rename_in _ _ _ _ _ _ Hiso)|]. by rewrite Hcol, Es.
Qed.

(** The graph of a renamed order. *)
Lemma position_rename order label : (forall other, In other order -> 0 <= other < n) -> 0 <= label < n ->
  position (map rename order) (rename label) = position order label.
Proof using Hiso.
  intros Ho Hl. induction order as [|first order IH]; cbn [map position]; [done|].
  rewrite IH by (intros other Hin; apply Ho; by right).
  destruct (decide (first = label)) as [->|Hne]; [by rewrite decide_True|]. rewrite decide_False; [done|].
  intros E. apply Hne, (rename_inj _ _ _ _ _ _ Hiso); [apply Ho; by left|done|done].
Qed.

Lemma member_rename order arc arc' : (forall other, In other order -> 0 <= other < n) -> arc_in payloads n arc ->
  relabelled payloads payloads' rename arc arc' -> member_of payloads' (map rename order) arc' = member_of payloads order arc.
Proof using Hiso.
  intros Ho (Hs & _ & Ht) (Es & Er & Et & Ep). unfold member_of. rewrite Es, Er, Et, Ep, position_rename by done.
  destruct (arc_target arc) as [t|]; cbn [fmap option_fmap option_map]; [|done]. by rewrite position_rename by (try done; by apply Ht).
Qed.

Lemma graph_rename order : (forall other, In other order -> 0 <= other < n) ->
  graph_of payloads' arcs' (map rename order) = graph_of payloads arcs order.
Proof using Hn Harcs Hiso.
  intros Ho. destruct (arcs_match _ _ _ _ _ _ Hiso) as (arcs'' & Hm & Hp).
  assert (members_of payloads' arcs' (map rename order) = members_of payloads arcs order) as E.
  { unfold members_of. f_equal. symmetry. apply sort_by_Permutation. rewrite <- Hp.
    enough (map (member_of payloads order) arcs = map (member_of payloads' (map rename order)) arcs'') as -> by done.
    assert (forall some some', Forall2 (relabelled payloads payloads' rename) some some' -> (forall arc, In arc some -> arc_in payloads n arc) ->
      map (member_of payloads order) some = map (member_of payloads' (map rename order)) some') as H; [|by apply H].
    induction 1 as [|arc arc' some some' Harc _ IH]; intros Hin; cbn [map]; [done|].
    rewrite IH by (intros ? ?; apply Hin; by right). f_equal. symmetry. apply member_rename; [done|apply Hin; by left|done]. }
  unfold graph_of. by rewrite E, length_map.
Qed.

(** The least graphs of corresponding classes are equal. *)
Lemma candidate_rename classes classes' order : same_classes classes' (map (map rename) classes) ->
  candidate classes order -> candidate classes' (map rename order).
Proof.
  clear. intros Hs (choices & Hc & ->). exists (map (map rename) choices). split; [|by rewrite concat_map].
  eapply same_classes_trans; [|by apply same_classes_sym]. clear Hs.
  induction Hc; constructor; [by apply fmap_Permutation|done].
Qed.

Lemma candidate_unrename classes classes' order : same_classes classes' (map (map rename) classes) ->
  candidate classes' order -> exists source, candidate classes source /\ order = map rename source.
Proof.
  clear. intros Hs (choices & Hc & ->). pose proof (same_classes_trans _ _ _ Hc Hs) as H. clear Hs Hc.
  assert (exists choices0, same_classes choices0 classes /\ choices = map (map rename) choices0) as (choices0 & H0 & ->).
  { revert choices H. induction classes as [|class classes IH]; intros choices H; cbn [map] in H.
    - inversion H. by exists [].
    - inversion H as [|p ? ps ? Hp Hps]; subst. destruct (IH ps Hps) as (ps0 & H0 & ->).
      apply Permutation_map_inv in Hp as (p0 & -> & Hp). exists (p0 :: ps0). split; [|done]. constructor; [by symmetry|done]. }
  exists (concat choices0). split; [by exists choices0|]. by rewrite concat_map.
Qed.

Lemma least_graph_rename classes classes' order order' : same_classes classes' (map (map rename) classes) ->
  (forall label, In label (concat classes) -> 0 <= label < n) ->
  least_order payloads arcs classes order -> least_order payloads' arcs' classes' order' ->
  graph_of payloads' arcs' order' = graph_of payloads arcs order.
Proof using Hn Harcs Hiso.
  intros Hs Hin [Hc Hleast] [Hc' Hleast'].
  assert (forall order, candidate classes order -> graph_of payloads' arcs' (map rename order) = graph_of payloads arcs order) as Hg.
  { intros o (rs & Hrs & ->). apply graph_rename. intros label Hlab%list_elem_of_In. apply Hin, list_elem_of_In.
    by rewrite <- (concat_same_classes rs classes). }
  destruct (candidate_unrename _ _ _ Hs Hc') as (source & Hsource & ->). rewrite Hg by done.
  specialize (Hleast source Hsource). specialize (Hleast' (map rename order) (candidate_rename _ _ _ Hs Hc)).
  rewrite !Hg in Hleast' by done.
  destruct Hleast as [Hlt|[E _]]; [|done]. destruct Hleast' as [Hlt'|[E _]]; [|done].
  exfalso. apply (irreflexivity bytes_lt (graph_of payloads arcs order)). by transitivity (graph_of payloads arcs source).
Qed.

Lemma product_count_alike classes classes' : same_classes classes' (map (map rename) classes) -> product_count classes' = product_count classes.
Proof.
  clear. revert classes'. induction classes as [|class classes IH]; intros classes' H; inversion H as [|p ? ps ? Hp Hps]; subst; [done|].
  cbn [product_count foldr]. fold (product_count ps) (product_count classes). rewrite (IH ps Hps). do 2 f_equal.
  by rewrite Hp, length_map.
Qed.
End Invariance.

(** * Refinement converges

    A round whose signatures are told apart by their digests separates the
    labels it separated before; so a round that is not stable has more colors,
    and there are at most as many colors as labels. *)

(** The signatures that a round of refinement digests. *)
Definition round_signature (payloads : list bytes) (arcs : list BlankArc) (colors : list bytes) (label : Z) : list bytes :=
  color_at colors label :: neighborhood payloads arcs (Some colors) label.

(** The digests of a round tell its signatures apart. *)
Definition told_apart (payloads : list bytes) (arcs : list BlankArc) (n : Z) (colors : list bytes) : Prop :=
  forall label other, 0 <= label < n -> 0 <= other < n ->
    color_of (round_signature payloads arcs colors label) = color_of (round_signature payloads arcs colors other) ->
    round_signature payloads arcs colors label = round_signature payloads arcs colors other.

(** The colors after some rounds. *)
Definition colors_after (payloads : list bytes) (arcs : list BlankArc) (n : Z) (rounds : nat) : list bytes :=
  Nat.iter rounds (refined payloads arcs n) (first_colors payloads arcs n).

Section Separation.
Context (n : Z).

(** At least so many labels are told apart. *)
Definition separates (f : Z -> bytes) (m : nat) : Prop :=
  exists labels, length labels = m /\ (forall label, In label labels -> 0 <= label < n) /\ NoDup (map f labels).

Lemma separates_bound f m : separates f m -> Z.of_nat m <= Z.max 0 n.
Proof.
  intros (labels & <- & Hin & Hnd). apply NoDup_fmap_1 in Hnd.
  assert (labels ⊆+ seqZ 0 n) as H.
  { apply NoDup_submseteq; [done|]. intros label Hl%list_elem_of_In%Hin. apply elem_of_seqZ. lia. }
  apply submseteq_length in H. rewrite length_seqZ in H. lia.
Qed.

Lemma separates_more f g m i j : (forall label other, 0 <= label < n -> 0 <= other < n -> g label = g other -> f label = f other) ->
  0 <= i < n -> 0 <= j < n -> f i = f j -> g i <> g j -> separates f m -> separates g (S m).
Proof.
  intros Hg Hi Hj Ef Eg (labels & Hm & Hin & Hnd).
  assert (forall k, 0 <= k < n -> g k ∉ map g labels -> separates g (S m)) as Hadd.
  { intros k Hk Hnew. exists (k :: labels). split_and!; [cbn; congruence|by intros label [<-|Hl]; [|apply Hin]|].
    cbn [map]. apply NoDup_cons. split; [done|].
    clear Hnew Hm. induction labels as [|label labels IH]; [constructor|]. cbn [map] in *. apply NoDup_cons in Hnd as [Hnot Hnd].
    apply NoDup_cons. split; [|apply IH; [|done]; intros other Ho; apply Hin; by right].
    intros (other & E & Ho)%list_elem_of_fmap. apply Hnot. apply list_elem_of_fmap. exists other. split; [|done].
    apply Hg; [apply Hin; by left|apply Hin; right; by apply list_elem_of_In|done]. }
  assert (forall k, 0 <= k < n -> g k ∈ map g labels -> exists label, In label labels /\ g label = g k) as Hsome.
  { intros k _ (label & E & Hl)%list_elem_of_fmap. exists label. split; [by apply list_elem_of_In|done]. }
  destruct (decide (g i ∈ map g labels)) as [Hgi|Hgi]; [|by apply (Hadd i)].
  destruct (decide (g j ∈ map g labels)) as [Hgj|Hgj]; [|by apply (Hadd j)].
  destruct (Hsome i Hi Hgi) as (a & Ha & Ea), (Hsome j Hj Hgj) as (b & Hb & Eb).
  exfalso. assert (a = b) as ->; [|congruence].
  assert (f a = f b) as Eab by (rewrite (Hg a i), (Hg b j) by (try done; by apply Hin); done).
  apply list_elem_of_In, list_elem_of_lookup in Ha as [k Ha], Hb as [l Hb].
  assert (k = l) as ->; [|congruence]. apply (NoDup_lookup (map f labels) k l (f a)); [done|..].
  - rewrite list_lookup_fmap. by rewrite Ha.
  - rewrite list_lookup_fmap, Hb. cbn. by rewrite Eab.
Qed.
End Separation.

Section Converge.
Context (payloads : list bytes) (arcs : list BlankArc) (n : Z).
Hypothesis Hn : 0 <= n < USIZE_MAX.
Hypothesis Hapart : forall rounds, (rounds <= Z.to_nat n)%nat -> told_apart payloads arcs n (colors_after payloads arcs n rounds).

Lemma len_colors_after rounds : len (colors_after payloads arcs n rounds) = n.
Proof using Hn. destruct rounds; apply len_table; lia. Qed.

Lemma refined_separates colors label other : told_apart payloads arcs n colors -> 0 <= label < n -> 0 <= other < n ->
  color_at (refined payloads arcs n colors) label = color_at (refined payloads arcs n colors) other ->
  color_at colors label = color_at colors other.
Proof.
  clear. intros Hap Hl Ho. unfold refined.
  assert (forall f k, 0 <= k < n -> color_at (table n f) k = f k) as Ht by (intros f k Hk; unfold color_at; by rewrite get_at_table).
  rewrite !Ht by done. intros E%Hap; [|done..]. by injection E.
Qed.

Lemma not_agree first second : len first = n -> len second = n ->
  (forall label other, 0 <= label < n -> 0 <= other < n -> color_at second label = color_at second other -> color_at first label = color_at first other) ->
  same_partition_of first second = false ->
  exists i j, 0 <= i < n /\ 0 <= j < n /\ color_at first i = color_at first j /\ color_at second i <> color_at second j.
Proof using Hn.
  intros E1 E2 Hsep Hno.
  destruct (decide (Exists (fun i => Exists (fun j => color_at first i = color_at first j /\ color_at second i <> color_at second j) (seqZ 0 n)) (seqZ 0 n))) as [H|H].
  - apply Exists_exists in H as (i & Hi%elem_of_seqZ & (j & Hj%elem_of_seqZ & H)%Exists_exists). exists i, j. split_and!; try lia; apply H.
  - exfalso. enough (same_partition_of first second = true) by congruence. apply same_partition_of_spec. intros x y Hx Hy.
    assert (forall p, In p (zip first second) -> exists i, 0 <= i < n /\ p = (color_at first i, color_at second i)) as Hzip.
    { intros p Hp. rewrite (table_colors first), (table_colors second), E1, E2, zip_table in Hp.
      apply in_map_iff in Hp as (i & <- & Hi%list_elem_of_In%elem_of_seqZ). exists i. split; [lia|done]. }
    apply Hzip in Hx as (i & Hi & ->), Hy as (j & Hj & ->). cbn [fst snd]. split; [|by apply Hsep].
    intros Ef. destruct (decide (color_at second i = color_at second j)); [done|]. exfalso. apply H.
    apply Exists_exists. exists i. split; [apply elem_of_seqZ; lia|]. apply Exists_exists. exists j. split; [apply elem_of_seqZ; lia|done].
Qed.

Lemma converges fuel rounds : (rounds <= Z.to_nat n)%nat -> n + 2 <= Z.of_nat fuel + Z.of_nat rounds ->
  separates n (color_at (colors_after payloads arcs n rounds)) rounds ->
  exists colors rounds', stable_colors payloads arcs n fuel (colors_after payloads arcs n rounds) (Z.of_nat rounds) = Some (colors, rounds') /\
    rounds' <= n + 1.
Proof using Hn Hapart.
  revert rounds. induction fuel as [|fuel IH]; intros rounds Hr Hf Hs; [lia|]. cbn [stable_colors].
  change (refined payloads arcs n (colors_after payloads arcs n rounds)) with (colors_after payloads arcs n (S rounds)).
  destruct (same_partition_of _ _) eqn:Esame; [eexists _, _; split; [done|lia]|].
  assert (separates n (color_at (colors_after payloads arcs n (S rounds))) (S rounds)) as Hs'.
  { apply not_agree in Esame as (i & j & Hi & Hj & Ef & Eg); [|apply len_colors_after|apply len_colors_after|].
    - apply (separates_more n (color_at (colors_after payloads arcs n rounds)) _ _ i j); try done. intros label other. by apply refined_separates, Hapart.
    - intros label other. by apply refined_separates, Hapart. }
  pose proof (separates_bound _ _ _ Hs') as Hb. rewrite (proj2 (Z.ltb_ge _ _)) by lia.
  replace (Z.of_nat rounds + 1) with (Z.of_nat (S rounds)) by lia. apply IH; [lia|lia|done].
Qed.

Lemma settles : exists colors rounds, settled payloads arcs n = Some (colors, rounds) /\ rounds <= n + 1.
Proof using Hn Hapart.
  apply (converges (refinement_fuel n) 0); [lia|unfold refinement_fuel; lia|]. exists []. split_and!; [done|by intros ? []|constructor].
Qed.
End Converge.
