(* ===== verification/BlankComponents.v ===== *)
(** * The union-find forest of [canonical_components]

    A table of parents is a forest when every label has a representative.
    Finding a representative ends within the table, compressing a path keeps
    all representatives, and a union joins exactly two classes; so two labels
    have the same representative after the loop over the arcs exactly when the
    arcs connect them. *)

From S2P Require Import Prelude Bytes Order Hash Error Machine Limits Session Varint CanonicalTree AlphaOrder BlankGraph Charged Neighborhoods Permutations AlphaSound.

Definition is_root (parents : list Z) (x : Z) : Prop := get_at parents x = Some x.

(** [x] reaches the root [r] in so many steps. *)
Inductive reaches (parents : list Z) : nat -> Z -> Z -> Prop :=
| reaches_root x : get_at parents x = Some x -> reaches parents 0 x x
| reaches_step k x y r : get_at parents x = Some y -> y <> x -> reaches parents k y r -> reaches parents (S k) x r.

Definition represents (parents : list Z) (x r : Z) : Prop := exists k, reaches parents k x r.

Lemma reaches_functional parents k k' x r r' : reaches parents k x r -> reaches parents k' x r' -> k = k' /\ r = r'.
Proof.
  intros H. revert k' r'. induction H as [x Hx|k x y r Hx Hne _ IH]; intros k' r' H'; inversion H' as [z Hz|j z w s Hz Hne' Hs]; subst.
  - done.
  - rewrite Hx in Hz. by injection Hz as <-.
  - rewrite Hx in Hz. by injection Hz as ->.
  - rewrite Hx in Hz. injection Hz as ->. by destruct (IH _ _ Hs) as [-> ->].
Qed.

Lemma represents_functional parents x r r' : represents parents x r -> represents parents x r' -> r = r'.
Proof. intros [k H] [k' H']. by apply (reaches_functional _ _ _ _ _ _ H H'). Qed.

Lemma reaches_is_root parents k x r : reaches parents k x r -> is_root parents r.
Proof. by induction 1. Qed.

Lemma root_represents parents r : is_root parents r -> represents parents r r.
Proof. intros H. exists 0%nat. by constructor. Qed.

(** The labels on the way are distinct. *)
Lemma reaches_path parents k x r : reaches parents k x r ->
  exists path, length path = S k /\ NoDup path /\ forall y, y ∈ path -> 0 <= y < len parents /\ exists j, (j <= k)%nat /\ reaches parents j y r.
Proof.
  induction 1 as [x Hx|k x y r Hx Hne Hr (path & Hl & Hnd & Hp)].
  - exists [x]. split_and!; [done|apply NoDup_singleton|]. intros y ->%list_elem_of_singleton.
    split; [by apply get_at_lt in Hx|]. exists 0%nat. split; [done|by constructor].
  - assert (reaches parents (S k) x r) as Hxr by by econstructor.
    exists (x :: path). split_and!; [cbn; congruence| |].
    + constructor; [|done]. intros (_ & j & Hj & Hjr)%Hp. destruct (reaches_functional _ _ _ _ _ _ Hxr Hjr) as [<- _]. lia.
    + intros z [->|Hz]%elem_of_cons.
      * split; [by apply get_at_lt in Hx|]. exists (S k). done.
      * destruct (Hp z Hz) as (? & j & Hj & ?). split; [done|]. exists j. split; [lia|done].
Qed.

Lemma reaches_bound parents k x r : reaches parents k x r -> (k < length parents)%nat.
Proof.
  intros (path & Hl & Hnd & Hp)%reaches_path.
  assert (path ⊆+ seqZ 0 (len parents)) as H.
  { apply NoDup_submseteq; [done|]. intros y Hy. apply elem_of_seqZ. destruct (Hp y Hy). lia. }
  apply submseteq_length in H. rewrite length_seqZ in H. lia.
Qed.

Lemma find_root_reaches parents k x r fuel : reaches parents k x r -> (k < fuel)%nat -> find_root fuel parents x = Ok r.
Proof.
  intros H. revert fuel. induction H as [x Hx|k x y r Hx Hne _ IH]; intros [|fuel] Hf; try lia; cbn [find_root]; unfold index_at; rewrite Hx; cbn.
  - by rewrite Z.eqb_refl.
  - rewrite (proj2 (Z.eqb_neq y x)) by done. apply IH. lia.
Qed.

Lemma get_at_insert {A} (l : list A) x y (a : A) : 0 <= x < len l -> get_at (<[Z.to_nat x := a]> l) y = (if decide (y = x) then Some a else get_at l y).
Proof.
  intros Hx. unfold get_at. rewrite length_insert. destruct (decide (y = x)) as [->|Hne].
  - rewrite (proj2 (Z.leb_le 0 x)), (proj2 (Z.ltb_lt x _)) by lia. cbn [andb]. by rewrite list_lookup_insert_eq by lia.
  - destruct (Z.leb_spec 0 y); [|done]. cbn [andb]. destruct (_ <? _); [|done]. by rewrite list_lookup_insert_ne by lia.
Qed.

(** Pointing a label at its root. *)
Lemma reaches_compress parents k x r : reaches parents (S k) x r ->
  forall j y s, reaches parents j y s -> exists j', reaches (<[Z.to_nat x := r]> parents) j' y s /\ ((j < S k)%nat -> j' = j).
Proof.
  intros Hxr. pose proof (reaches_is_root _ _ _ _ Hxr) as Hroot.
  assert (0 <= x < len parents /\ r <> x) as [Hx Hne].
  { inversion Hxr as [|? ? y ? Hxy Hyx]; subst. split; [by apply get_at_lt in Hxy|]. intros ->. rewrite Hroot in Hxy. congruence. }
  assert (reaches (<[Z.to_nat x := r]> parents) 0 r r) as Hr.
  { constructor. rewrite get_at_insert, decide_False by done. exact Hroot. }
  induction 1 as [y Hy|j y z s Hy Hyz Hzs (j' & Hj' & Hlt)].
  - exists 0%nat. split; [|done]. constructor. rewrite get_at_insert by done. case_decide as E; [|done]. subst y.
    inversion Hxr as [|? ? w ? Hxw Hwx]; subst. rewrite Hy in Hxw. congruence.
  - destruct (decide (y = x)) as [->|Hyx].
    + assert (reaches parents (S j) x s) as Hs by by econstructor.
      destruct (reaches_functional _ _ _ _ _ _ Hxr Hs) as [[= <-] <-]. exists 1%nat. split; [|lia].
      apply (reaches_step _ _ _ r); [by rewrite get_at_insert, decide_True|done|done].
    + exists (S j'). split; [|intros H; by rewrite Hlt by lia].
      apply (reaches_step _ _ _ z); [by rewrite get_at_insert, decide_False|done|done].
Qed.

(** Tables with the same representatives. *)
Definition keeps (parents parents' : list Z) : Prop :=
  length parents' = length parents /\ forall x r, represents parents x r -> represents parents' x r.

Lemma keeps_refl parents : keeps parents parents.
Proof. by split. Qed.
Lemma keeps_trans p q r : keeps p q -> keeps q r -> keeps p r.
Proof. intros [H1 H2] [H3 H4]. split; [congruence|auto]. Qed.

Lemma compress_path_keeps parents k x r fuel : reaches parents k x r -> (k < fuel)%nat ->
  exists parents', compress_path fuel parents r x = Ok parents' /\ keeps parents parents'.
Proof.
  revert parents k x. induction fuel as [|fuel IH]; intros parents k x H Hf; [lia|]. cbn [compress_path]. unfold index_at.
  inversion H as [y Hy|j y z s Hy Hne Hz]; subst.
  - rewrite Hy. cbn. rewrite Z.eqb_refl. exists parents. split; [done|apply keeps_refl].
  - rewrite Hy. cbn. rewrite (proj2 (Z.eqb_neq z x)) by done.
    destruct (reaches_compress _ _ _ _ H _ _ _ Hz) as (j' & Hj' & Hlt). rewrite Hlt in Hj' by lia.
    destruct (IH _ _ _ Hj') as (parents' & E & Hk); [lia|]. exists parents'. split; [done|].
    eapply keeps_trans; [|exact Hk]. split; [apply length_insert|]. intros w s [i Hi].
    destruct (reaches_compress _ _ _ _ H _ _ _ Hi) as (i' & Hi' & _). by exists i'.
Qed.

Section Forest.
Context (n : Z).

Definition forest (parents : list Z) : Prop := len parents = n /\ forall x, 0 <= x < n -> exists r, represents parents x r.

Definition linked (parents : list Z) (x y : Z) : Prop := exists r, represents parents x r /\ represents parents y r.

Lemma keeps_forest parents parents' : keeps parents parents' -> forest parents -> forest parents'.
Proof. intros [Hl Hk] [Hn Hr]. split; [lia|]. intros x Hx. destruct (Hr x Hx) as [r H]. exists r. auto. Qed.

Lemma represents_in parents x r : represents parents x r -> len parents = n -> 0 <= x < n /\ 0 <= r < n.
Proof.
  intros [k H] Hl. split; [inversion H as [? E|? ? ? ? E]; subst|apply reaches_is_root in H as E]; apply get_at_lt in E; lia.
Qed.

Lemma keeps_represents parents parents' x r : keeps parents parents' -> forest parents -> represents parents' x r -> represents parents x r.
Proof.
  intros Hk Hf Hr. pose proof (keeps_forest _ _ Hk Hf) as [Hl' _]. destruct (represents_in _ _ _ Hr Hl') as [Hx _].
  destruct (proj2 Hf x Hx) as [s Hs]. by rewrite (represents_functional _ _ _ _ Hr (proj2 Hk _ _ Hs)).
Qed.

Lemma keeps_linked parents parents' x y : keeps parents parents' -> forest parents -> linked parents' x y <-> linked parents x y.
Proof.
  intros Hk Hf. split; intros (r & Hx & Hy); exists r.
  - split; by eapply keeps_represents.
  - split; by apply Hk.
Qed.

Lemma find_component_root_spec parents x : forest parents -> 0 <= x < n ->
  exists r parents', find_component_root parents x = Ok (r, parents') /\ represents parents x r /\ keeps parents parents'.
Proof.
  intros [Hl Hr] Hx. destruct (Hr x Hx) as [r [k Hk]]. pose proof (reaches_bound _ _ _ _ Hk) as Hb.
  destruct (compress_path_keeps parents k x r (S (length parents)) Hk) as (parents' & E & Hkeep); [lia|].
  exists r, parents'. split; [|split; [by exists k|done]]. unfold find_component_root.
  rewrite (find_root_reaches parents k x r) by (done || lia). cbn [mbind outcome_mbind outcome_bind]. by rewrite E.
Qed.

(** Joining two roots. *)
Lemma reaches_join parents a b x r k : is_root parents a -> is_root parents b -> a <> b -> reaches parents k x r ->
  represents (<[Z.to_nat b := a]> parents) x (if decide (r = b) then a else r).
Proof.
  intros Ha Hb Hne. pose proof (get_at_lt _ _ _ Hb) as Hbl. induction 1 as [y Hy|j y z s Hy Hyz Hzs [i IH]].
  - case_decide as E.
    + subst. exists 1%nat. apply (reaches_step _ _ _ a); [by rewrite get_at_insert, decide_True|done|].
      constructor. by rewrite get_at_insert, decide_False.
    + exists 0%nat. constructor. by rewrite get_at_insert, decide_False.
  - exists (S i). apply (reaches_step _ _ _ z); [|done|done]. rewrite get_at_insert by done.
    destruct (decide (y = b)) as [->|]; [|done]. rewrite Hb in Hy. congruence.
Qed.

(** What a union does to the classes of the labels. *)
Definition joins (parents parents' : list Z) (left right : Z) : Prop :=
  forest parents' /\ forall x y, linked parents' x y <->
    linked parents x y \/ (linked parents x left /\ linked parents y right) \/ (linked parents x right /\ linked parents y left).

Lemma linked_sym parents x y : linked parents x y -> linked parents y x.
Proof. intros (r & ? & ?). by exists r. Qed.
Lemma linked_trans parents x y z : linked parents x y -> linked parents y z -> linked parents x z.
Proof. intros (r & ? & Hy) (s & Hy' & ?). rewrite (represents_functional _ _ _ _ Hy' Hy) in *. by exists r. Qed.

Lemma linked_represents parents x y r : represents parents y r -> linked parents x y <-> represents parents x r.
Proof.
  intros Hy. split; [|intros Hx; by exists r]. intros (s & Hx & Hs). by rewrite (represents_functional _ _ _ _ Hy Hs).
Qed.

Lemma join_roots parents a b left right : forest parents -> a <> b -> represents parents left a -> represents parents right b ->
  joins parents (<[Z.to_nat b := a]> parents) left right.
Proof.
  intros Hf Hne Ha Hb.
  assert (is_root parents a) as Hra by (destruct Ha; by eapply reaches_is_root).
  assert (is_root parents b) as Hrb by (destruct Hb; by eapply reaches_is_root).
  assert (forall x r, represents parents x r -> represents (<[Z.to_nat b := a]> parents) x (if decide (r = b) then a else r)) as Hj.
  { intros x r [k Hk]. by eapply reaches_join. }
  assert (forest (<[Z.to_nat b := a]> parents)) as Hf'.
  { split; [rewrite length_insert; apply Hf|]. intros x Hx. destruct (proj2 Hf x Hx) as [r Hr]. eauto. }
  split; [done|]. intros x y.
  rewrite (linked_represents _ x left a), (linked_represents _ x right b), (linked_represents _ y left a), (linked_represents _ y right b) by done.
  split.
  - intros (s & Hx & Hy). destruct (represents_in _ _ _ Hx (proj1 Hf')) as [Hxn _], (represents_in _ _ _ Hy (proj1 Hf')) as [Hyn _].
    destruct (proj2 Hf x Hxn) as [r Hr], (proj2 Hf y Hyn) as [r' Hr'].
    pose proof (represents_functional _ _ _ _ Hx (Hj _ _ Hr)) as E. rewrite (represents_functional _ _ _ _ Hy (Hj _ _ Hr')) in E.
    repeat case_decide; subst; auto; left; eexists; eauto.
  - intros [(r & Hx & Hy)|[[Hx Hy]|[Hx Hy]]].
    + eexists; split; by apply Hj.
    + exists a. apply Hj in Hx, Hy. rewrite decide_False in Hx by done. by rewrite decide_True in Hy.
    + exists a. apply Hj in Hx, Hy. rewrite decide_False in Hy by done. by rewrite decide_True in Hx.
Qed.

Lemma joins_keeps parents p p' left right : forest parents -> keeps parents p -> joins p p' left right -> joins parents p' left right.
Proof.
  intros Hf Hk [Hf' Hj]. split; [done|]. intros x y. rewrite Hj. by rewrite !(keeps_linked parents p) by done.
Qed.

Lemma joins_sym parents p' left right : joins parents p' left right -> joins parents p' right left.
Proof. intros [Hf Hj]. split; [done|]. intros x y. rewrite Hj. tauto. Qed.

Lemma union_spec parents sizes left right :
  forest parents -> len sizes = n -> 0 <= left < n -> 0 <= right < n ->
  exists parents' sizes', bounded (union_component_labels parents sizes left right) (parents', sizes') /\
    joins parents parents' left right /\ len sizes' = n.
Proof.
  intros Hf Hs Hl Hr. unfold union_component_labels.
  destruct (find_component_root_spec parents left Hf Hl) as (a & p1 & -> & Ha & Hk1). cbn [mbind outcome_mbind outcome_bind].
  pose proof (keeps_forest _ _ Hk1 Hf) as Hf1.
  destruct (find_component_root_spec p1 right Hf1 Hr) as (b & p2 & -> & Hb & Hk2). cbn [mbind outcome_mbind outcome_bind].
  pose proof (keeps_trans _ _ _ Hk1 Hk2) as Hk. pose proof (keeps_forest _ _ Hk Hf) as Hf2.
  assert (represents p2 left a) as Ha2 by by apply Hk. assert (represents p2 right b) as Hb2 by by apply Hk2.
  destruct (Z.eqb_spec a b) as [->|Hne].
  { exists p2, sizes. split; [done|]. split; [|done]. split; [done|]. intros x y. rewrite (keeps_linked parents p2) by done. split; [by left|].
    assert (linked parents left right) as Hlr.
    { apply (keeps_linked parents p2); [done..|]. by exists b. }
    intros [H|[[H1 H2]|[H1 H2]]]; [done| |].
    - eapply linked_trans; [exact H1|]. eapply linked_trans; [exact Hlr|by apply linked_sym].
    - eapply linked_trans; [exact H1|]. eapply linked_trans; [apply linked_sym, Hlr|by apply linked_sym]. }
  destruct (represents_in _ _ _ Ha2 (proj1 Hf2)) as [_ Han], (represents_in _ _ _ Hb2 (proj1 Hf2)) as [_ Hbn].
  assert (forall A (l : list A) i, 0 <= i < len l -> exists x, index_at l i = Ok x) as Hat.
  { intros A l i Hi. destruct (get_at_is_Some l i Hi) as [x E]. exists x. unfold index_at. by rewrite E. }
  destruct (Hat _ sizes a) as [sa Esa]; [lia|]. destruct (Hat _ sizes b) as [sb Esb]; [lia|].
  destruct (Hat _ p2 a) as [pa Epa]; [rewrite (proj1 Hf2); lia|]. destruct (Hat _ p2 b) as [pb Epb]; [rewrite (proj1 Hf2); lia|].
  rewrite Esa, Esb. cbn [mbind outcome_mbind outcome_bind].
  unfold bounded, checked_add, ok_or. destruct (sa <? sb); cbn [mbind outcome_mbind outcome_bind].
  - rewrite Epa, Esa, Esb. cbn [mbind outcome_mbind outcome_bind].
    eexists _, (<[Z.to_nat b := _]> sizes). split; [by destruct (_ <=? _)|].
    split; [|by rewrite length_insert]. eapply joins_keeps; [done..|]. apply joins_sym, join_roots; done || congruence.
  - rewrite Epb, Esa, Esb. cbn [mbind outcome_mbind outcome_bind].
    eexists _, (<[Z.to_nat a := _]> sizes). split; [by destruct (_ <=? _)|].
    split; [|by rewrite length_insert]. eapply joins_keeps; [done..|]. by apply join_roots.
Qed.
End Forest.

(** * The components of a document

    [canonical_components] splits the labels into the connected components of
    the arcs, lists the labels of each in ascending order, gives each the arcs
    between its labels with local numbers, and finds its canonical order. *)

(** ** Connected labels *)

(** An arc joins its labels. *)
Definition edge (arcs : list BlankArc) (x y : Z) : Prop :=
  exists arc, In arc arcs /\ arc_source arc = x /\ arc_target arc = Some y.
Definition connected (arcs : list BlankArc) : Z -> Z -> Prop := rtsc (edge arcs).

Lemma connected_mono arcs arcs' x y : incl arcs arcs' -> connected arcs x y -> connected arcs' x y.
Proof.
  intros Hi H. induction H as [x|x y z Hxy _ IH]; [apply rtc_refl|]. eapply rtc_l; [|exact IH].
  destruct Hxy as [(arc & Ha & H)|(arc & Ha & H)]; [left|right]; exists arc; (split; [by apply Hi|done]).
Qed.

Lemma connected_edge arcs x y : edge arcs x y -> connected arcs x y.
Proof. intros H. apply rtc_once. by left. Qed.
Lemma connected_sym arcs x y : connected arcs x y -> connected arcs y x.
Proof. intros H. by symmetry. Qed.
Lemma connected_trans arcs x y z : connected arcs x y -> connected arcs y z -> connected arcs x z.
Proof. intros ? ?. by transitivity y. Qed.

Section Components.
Context (n : Z) (payloads : list bytes) (arcs : list BlankArc).
Hypothesis Hn : 0 <= n < USIZE_MAX.
Hypothesis Harcs : forall arc, In arc arcs -> arc_in payloads n arc.

Definition follows (some : list BlankArc) (parents : list Z) : Prop :=
  forest n parents /\ forall x y, 0 <= x < n -> 0 <= y < n -> linked parents x y <-> connected some x y.

Lemma connected_in some x y : incl some arcs -> connected some x y -> 0 <= x < n -> 0 <= y < n.
Proof using Harcs.
  intros Hi. induction 1 as [x|x y z Hxy _ IH]; [done|]. intros Hx. apply IH.
  destruct Hxy as [(arc & Ha & Hs & Ht)|(arc & Ha & Hs & Ht)]; destruct (Harcs arc (Hi arc Ha)) as (Hsrc & _ & Htgt); [by apply Htgt|by subst].
Qed.

Lemma follows_arc some parents parents' arc target :
  incl (some ++ [arc]) arcs -> arc_target arc = Some target -> follows some parents -> joins n parents parents' (arc_source arc) target ->
  follows (some ++ [arc]) parents'.
Proof using Harcs.
  intros Hi Ht [Hf Hl] [Hf' Hj]. split; [done|].
  assert (incl some (some ++ [arc])) as Hsome by (intros a Ha; apply in_app_iff; by left).
  assert (edge (some ++ [arc]) (arc_source arc) target) as Hedge.
  { exists arc. split; [apply in_app_iff; right; by left|done]. }
  destruct (Harcs arc) as (Hsrc & _ & Htgt); [apply Hi, in_app_iff; right; by left|]. specialize (Htgt target Ht).
  assert (forall x y, 0 <= x < n -> 0 <= y < n -> linked parents x y -> connected (some ++ [arc]) x y) as Hold.
  { intros x y Hx Hy H. eapply connected_mono; [exact Hsome|]. by apply Hl. }
  intros x y Hx Hy. split.
  - intros [H|[[H1 H2]|[H1 H2]]]%Hj; [by apply Hold| |].
    + eapply connected_trans; [by apply Hold; [..|exact H1]|]. eapply connected_trans; [by apply connected_edge|].
      apply connected_sym. by apply Hold.
    + eapply connected_trans; [by apply Hold; [..|exact H1]|]. eapply connected_trans; [apply connected_sym; by apply connected_edge|].
      apply connected_sym. by apply Hold.
  - intros H. revert Hx. induction H as [x|x z y Hxz Hzy IH]; intros Hx.
    { destruct (proj2 Hf' x Hx) as [r Hr]. by exists r. }
    assert (0 <= z < n) as Hz by (eapply connected_in; [exact Hi|apply rtc_once; exact Hxz|done]).
    eapply linked_trans; [|by apply IH]. clear IH Hzy.
    assert (forall u v, 0 <= u < n -> 0 <= v < n -> edge (some ++ [arc]) u v -> linked parents' u v) as Hone.
    { intros u v Hu Hv (a & [Ha|[<-|[]]]%in_app_iff & Es & Et); apply Hj.
      - left. apply Hl; [done..|]. apply connected_edge. by exists a.
      - right. left. rewrite Ht in Et. injection Et as <-. subst u.
        destruct (proj2 Hf (arc_source arc) Hu) as [r Hr], (proj2 Hf target Hv) as [r' Hr']. split; [by exists r|by exists r']. }
    destruct Hxz as [H|H]; [by apply Hone|apply linked_sym; by apply Hone].
Qed.

Lemma represents_identity x r : represents (seqZ 0 n) x r -> x = r.
Proof.
  clear. intros [k H]. induction H as [|k x y r Hx Hne _ _]; [done|]. exfalso. apply get_at_Some in Hx as [H0 Hx].
  apply lookup_seqZ in Hx. lia.
Qed.

Lemma follows_none : follows [] (seqZ 0 n).
Proof using Hn.
  assert (forall x, 0 <= x < n -> represents (seqZ 0 n) x x) as Hr.
  { intros x Hx. apply root_represents. apply get_at_Some. split; [lia|]. apply lookup_seqZ. lia. }
  split; [split; [rewrite length_seqZ; lia|eauto]|]. intros x y Hx Hy. split.
  - intros (r & H1%represents_identity & H2%represents_identity). subst. apply rtc_refl.
  - intros H. assert (x = y) as ->; [|exists y; auto]. induction H as [|x z y Hxz _ _]; [done|]. by destruct Hxz as [(? & [] & _)|(? & [] & _)].
Qed.

Lemma charged_unions before after parents sizes : arcs = before ++ after -> follows before parents -> len sizes = n ->
  exists parents' sizes', charged (for_each (fun arc '(parents, sizes) =>
      cancellation_checkpoint;;
      match arc_target arc with
      | Some target => lift (union_component_labels parents sizes (arc_source arc) target)
      | None => mret (parents, sizes)
      end) after (parents, sizes)) (Ok (parents', sizes')) /\ follows arcs parents'.
Proof using Harcs.
  revert before parents sizes. induction after as [|arc after IH]; intros before parents sizes E Hf Hs; cbn [for_each].
  { exists parents, sizes. rewrite E, app_nil_r. split; [apply charged_ret|done]. }
  assert (exists parents' sizes', charged (match arc_target arc with
      | Some target => lift (union_component_labels parents sizes (arc_source arc) target)
      | None => mret (parents, sizes)
      end) (Ok (parents', sizes')) /\ follows (before ++ [arc]) parents' /\ len sizes' = n) as (p & z & Hc & Hf' & Hz).
  { assert (In arc arcs) as Ha by (rewrite E; apply in_app_iff; right; by left).
    destruct (Harcs arc Ha) as (Hsrc & _ & Htgt). destruct (arc_target arc) as [t|] eqn:Et.
    - destruct (union_spec n parents sizes (arc_source arc) t (proj1 Hf) Hs Hsrc (Htgt t eq_refl)) as (p & z & Hb & Hj & Hz).
      exists p, z. split; [by apply charged_lift_bound|]. split; [|done]. apply (follows_arc before parents p arc t); [|done..].
      rewrite E. intros a [Hin|[<-|[]]]%in_app_iff; apply in_app_iff; [by left|right; by left].
    - exists parents, sizes. split; [apply charged_ret|]. split; [|done]. destruct Hf as [Hf Hl]. split; [done|].
      intros x y Hx Hy. rewrite Hl by done. split; [apply connected_mono; intros a ?; apply in_app_iff; by left|].
      apply rtc_subrel. intros u v [(a & [Hin|[<-|[]]]%in_app_iff & Es & E')|(a & [Hin|[<-|[]]]%in_app_iff & Es & E')];
        [left; by exists a|congruence|right; by exists a|congruence]. }
  destruct (IH (before ++ [arc]) p z) as (p' & z' & Hc' & Hf''); [by rewrite <- app_assoc|done|done|].
  exists p', z'. split; [|done]. eapply charged_then; [|exact Hc']. charges. exact Hc.
Qed.
End Components.

(** ** Numbering the components *)

Lemma get_at_snoc_iff {A} (l : list A) (x : A) i y : get_at (l ++ [x]) i = Some y <-> get_at l i = Some y \/ (i = len l /\ y = x).
Proof.
  rewrite !get_at_Some, lookup_app_Some. split.
  - intros [Hi [H|[Hge H]]]; [by left|]. right. apply list_lookup_singleton_Some in H as [H ->]. split; [lia|done].
  - intros [[Hi H]|[-> ->]]; [by split; [|left]|]. split; [lia|]. right. split; [lia|]. apply list_lookup_singleton_Some. split; [lia|done].
Qed.

Lemma elem_of_get_at {A} (l : list A) x : x ∈ l <-> exists i, get_at l i = Some x.
Proof.
  rewrite list_elem_of_lookup. split.
  - intros [i Hi]. exists (Z.of_nat i). apply get_at_Some. split; [lia|]. by rewrite Nat2Z.id.
  - intros [i [_ Hi]%get_at_Some]. by eexists.
Qed.

Lemma concat_insert {A} (ls : list (list A)) c l x : get_at ls c = Some l -> concat (<[Z.to_nat c := l ++ [x]]> ls) ≡ₚ concat ls ++ [x].
Proof.
  intros [_ H]%get_at_Some. revert H. generalize (Z.to_nat c). clear c. intros c. revert c.
  induction ls as [|k ls IH]; intros [|c] H; try done; cbn [concat] in *.
  - injection H as ->. cbn. rewrite <- !app_assoc. apply Permutation_app_head, Permutation_app_comm.
  - cbn. rewrite <- app_assoc. apply Permutation_app_head. by apply IH.
Qed.

Section Numbering.
Context (n : Z) (parents : list Z).
Hypothesis Hn : 0 <= n < USIZE_MAX.
Hypothesis Hforest : forest n parents.

(** The lists of labels hold the labels before [i], two of them in one list
    exactly when they are linked; the tables say where. *)
Record listed (i : Z) (lists : list (list Z)) (components locals : list Z) : Prop := {
  listed_cover : concat lists ≡ₚ seqZ 0 i;
  listed_sorted : forall c l, get_at lists c = Some l -> StronglySorted Z.lt l;
  listed_linked : forall c c' l l' x y, get_at lists c = Some l -> get_at lists c' = Some l' -> x ∈ l -> y ∈ l' ->
    linked parents x y <-> c = c';
  listed_places : forall c l j x, get_at lists c = Some l -> get_at l j = Some x ->
    get_at components x = Some c /\ get_at locals x = Some j
}.

Lemma listed_before i lists components locals c l x : listed i lists components locals -> get_at lists c = Some l -> x ∈ l -> 0 <= x < i.
Proof.
  clear. intros H Hl Hx. assert (x ∈ concat lists) as Hc.
  { apply list_elem_of_In, in_concat. exists l. split; [|by apply list_elem_of_In]. apply list_elem_of_In, elem_of_get_at. by exists c. }
  rewrite (listed_cover _ _ _ _ H) in Hc. apply elem_of_seqZ in Hc. lia.
Qed.

(** Another label joins the list of the labels it is linked to. *)
Lemma listed_step i lists components locals c l :
  listed i lists components locals -> 0 <= i < n -> len components = n -> len locals = n -> get_at lists c = Some l ->
  (forall c' l' y, get_at lists c' = Some l' -> y ∈ l' -> linked parents i y <-> c' = c) ->
  listed (i + 1) (<[Z.to_nat c := l ++ [i]]> lists) (<[Z.to_nat i := c]> components) (<[Z.to_nat i := len l]> locals).
Proof using Hforest.
  intros H Hi Hc Hloc Hl Hlink. pose proof (get_at_lt _ _ _ Hl) as Hcl.
  assert (linked parents i i) as Hii by (destruct (proj2 Hforest i Hi) as [r Hr]; by exists r).
  assert (forall c' l' y, get_at lists c' = Some l' -> y ∈ l' -> y <> i) as Hnew.
  { intros c' l' y Hl' Hy ->. pose proof (listed_before _ _ _ _ _ _ _ H Hl' Hy). lia. }
  constructor.
  - rewrite concat_insert, (listed_cover _ _ _ _ H) by done. rewrite (seqZ_app 0 i 1) by lia. done.
  - intros c' l'. rewrite get_at_insert by done. case_decide; [|by apply (listed_sorted _ _ _ _ H)]. intros [= <-].
    apply StronglySorted_snoc; [by apply (listed_sorted _ _ _ _ H c)|]. apply Forall_forall. intros x Hx.
    pose proof (listed_before _ _ _ _ _ _ _ H Hl Hx). lia.
  - assert (forall c' l' x, get_at (<[Z.to_nat c := l ++ [i]]> lists) c' = Some l' -> x ∈ l' ->
      (x = i /\ c' = c) \/ (exists l'', get_at lists c' = Some l'' /\ x ∈ l'')) as Hcase.
    { intros c' l' x. rewrite get_at_insert by done. case_decide as E; [|by right; eauto]. intros [= <-]. subst c'.
      rewrite elem_of_app, list_elem_of_singleton. intros [Hx| ->]; [right; by exists l|by left]. }
    intros c1 c2 l1 l2 x y H1 H2 Hx Hy.
    destruct (Hcase _ _ _ H1 Hx) as [[-> ->]|(m1 & Hm1 & Hx1)], (Hcase _ _ _ H2 Hy) as [[-> ->]|(m2 & Hm2 & Hy2)].
    + by split.
    + rewrite (Hlink c2 m2 y) by done. split; congruence.
    + rewrite <- (Hlink c1 m1 x) by done. split; apply linked_sym.
    + by apply (listed_linked _ _ _ _ H c1 c2 m1 m2).
  - intros c' l' j x. rewrite get_at_insert by done. rewrite !get_at_insert by lia. case_decide as E.
    + intros [= <-] [Hx|[-> ->]]%get_at_snoc_iff; subst c'; [|by rewrite !decide_True].
      rewrite !decide_False by (apply (Hnew c l); [done|apply elem_of_get_at; by exists j]). by apply (listed_places _ _ _ _ H c l).
    + intros Hl' Hx. rewrite !decide_False by (apply (Hnew c' l'); [done|apply elem_of_get_at; by exists j]).
      by apply (listed_places _ _ _ _ H c' l').
Qed.

(** A root names the list of its labels, or is free. *)
Definition root_names (roots : list Z) (lists : list (list Z)) (r : Z) : Prop :=
  (exists c l y, get_at roots r = Some c /\ get_at lists c = Some l /\ y ∈ l /\ represents parents y r) \/
  (get_at roots r = Some USIZE_MAX /\ forall c l y, get_at lists c = Some l -> y ∈ l -> ~ represents parents y r).

Record numbered (i : Z) (a : Assignment) : Prop := {
  num_parents : keeps parents (a_parents a);
  num_roots : len (root_components a) = n;
  num_components : len (label_components a) = n;
  num_locals : len (local_indexes a) = n;
  num_lists : len (component_labels a) <= i;
  num_nonempty : forall c l, get_at (component_labels a) c = Some l -> l <> [];
  num_listed : listed i (component_labels a) (label_components a) (local_indexes a);
  num_named : forall r, is_root parents r -> root_names (root_components a) (component_labels a) r
}.

Lemma root_names_step roots lists r i c l c0 :
  (forall r', is_root parents r' -> root_names roots lists r') -> 0 <= r < len roots -> represents parents i r ->
  get_at lists c = Some l -> (forall c' l' y, get_at lists c' = Some l' -> y ∈ l' -> linked parents i y <-> c' = c) ->
  c0 = c -> forall r', is_root parents r' -> root_names (<[Z.to_nat r := c0]> roots) (<[Z.to_nat c := l ++ [i]]> lists) r'.
Proof.
  clear. intros Hnamed Hr Hi Hl Hlink -> r' Hr'. pose proof (get_at_lt _ _ _ Hl) as Hcl.
  destruct (decide (r' = r)) as [->|Hne].
  - left. exists c, (l ++ [i]), i. rewrite !get_at_insert, !decide_True by done. split_and!; [done|done| |done].
    apply elem_of_app. right. by apply list_elem_of_singleton.
  - destruct (Hnamed r' Hr') as [(c' & l' & y & H1 & H2 & Hy & Hrep)|[H1 Hfree]].
    + left. exists c', l', y. rewrite !get_at_insert by done. rewrite decide_False by done.
      rewrite decide_False; [done|]. intros E. apply (Hlink c' l' y H2 Hy) in E as (s & Hs1 & Hs2).
      apply Hne. rewrite (represents_functional _ _ _ _ Hrep Hs2). by apply (represents_functional parents i).
    + right. rewrite get_at_insert, decide_False by done. split; [done|]. intros c' l' y. rewrite get_at_insert by done.
      case_decide; [|by apply Hfree]. intros [= <-] [Hy| ->%list_elem_of_singleton]%elem_of_app; [by apply (Hfree c l)|].
      intros Hrep. apply Hne. by apply (represents_functional parents i).
Qed.

Lemma charged_assign_label i a : numbered i a -> 0 <= i < n ->
  exists a', charged (assign_label i a) (Ok a') /\ numbered (i + 1) a'.
Proof using Hn Hforest.
  intros Ha Hi. pose proof Ha as [Hk Hlr Hlc Hll Hlen Hne Hlist Hnamed]. unfold assign_label.
  pose proof (keeps_forest n _ _ Hk Hforest) as Hf.
  destruct (find_component_root_spec n (a_parents a) i Hf Hi) as (r & p & E & Hrep & Hkp). rewrite E.
  assert (represents parents i r) as Hir by by apply (keeps_represents n parents (a_parents a)).
  assert (is_root parents r) as Hroot by (destruct Hir; by eapply reaches_is_root).
  assert (0 <= r < n) as Hr by (apply get_at_lt in Hroot; rewrite (proj1 Hforest) in Hroot; lia).
  destruct (get_at_is_Some (root_components a) r) as [known Eknown]; [lia|].
  set (fresh := known =? USIZE_MAX). set (c := if fresh then len (component_labels a) else known).
  set (lists := if fresh then component_labels a ++ [[]] else component_labels a).
  assert (exists l, get_at lists c = Some l /\
    (forall c' l' y, get_at lists c' = Some l' -> y ∈ l' -> linked parents i y <-> c' = c) /\
    listed i lists (label_components a) (local_indexes a) /\ len lists <= i + 1 /\ (forall c' l', get_at lists c' = Some l' -> c' <> c -> l' <> []) /\
    (forall r', is_root parents r' -> root_names (root_components a) lists r')) as (l & Hl & Hlink & Hlisted & Hlists & Hnonempty & Hnames).
  { subst lists c fresh. destruct (Hnamed r Hroot) as [(c & l & y & H1 & H2 & Hy & Hyr)|[H1 Hfree]].
    - rewrite H1 in Eknown. injection Eknown as <-. pose proof (get_at_lt _ _ _ H2).
      rewrite (proj2 (Z.eqb_neq c USIZE_MAX)) by lia. exists l. split_and!; [done| |done|lia| |done].
      + intros c' l' z Hl' Hz. assert (linked parents i y) as Hiy by by exists r.
        transitivity (linked parents y z).
        * split; intros; [eapply linked_trans; [by apply linked_sym|done]|by eapply linked_trans].
        * rewrite (listed_linked _ _ _ _ Hlist c c' l l' y z) by done. split; congruence.
      + intros c' l' Hl' _. by eapply Hne.
    - rewrite H1 in Eknown. injection Eknown as <-. rewrite Z.eqb_refl. exists [].
      assert (forall c l x, get_at (component_labels a ++ [[]]) c = Some l -> x ∈ l -> get_at (component_labels a) c = Some l) as Hold.
      { intros c l x [?|[_ ->]]%get_at_snoc_iff Hx; [done|]. by apply not_elem_of_nil in Hx. }
      split_and!.
      + apply get_at_snoc_iff. by right.
      + intros c' l' y Hl' Hy. apply (Hold c' l' y) in Hl'; [|done]. pose proof (get_at_lt _ _ _ Hl'). split; [|lia].
        intros (s & Hs & Hys). exfalso. rewrite (represents_functional _ _ _ _ Hs Hir) in Hys. by apply (Hfree c' l' y).
      + constructor.
        * rewrite concat_app. cbn [concat]. rewrite !app_nil_r. apply Hlist.
        * intros c l [Hl|[_ ->]]%get_at_snoc_iff; [by apply (listed_sorted _ _ _ _ Hlist c)|constructor].
        * intros c c' l l' x y Hl Hl' Hx Hy. apply (listed_linked _ _ _ _ Hlist c c' l l'); eauto.
        * intros c l j x Hl Hx. assert (x ∈ l) by (apply elem_of_get_at; by exists j). apply (listed_places _ _ _ _ Hlist c l); eauto.
      + rewrite length_app. cbn [length]. lia.
      + intros c' l' [Hl'|[-> _]]%get_at_snoc_iff; [by eauto|done].
      + intros r' Hr'. destruct (Hnamed r' Hr') as [(c & l & y & H2 & H3 & Hy & Hyr)|[H2 Hfree']].
        * left. exists c, l, y. split_and!; [done|apply get_at_snoc_iff; by left|done|done].
        * right. split; [done|]. intros c l y Hl Hy. apply (Hfree' c l y); eauto. }
  eexists. split.
  - eapply charged_then; [by apply charged_lift|]. cbv beta iota. unfold index_at. rewrite Eknown.
    eapply charged_then; [by apply charged_lift|]. cbv beta zeta. fold fresh. fold c. fold lists. rewrite Hl.
    eapply charged_then; [by apply charged_lift|]. cbv beta. charges.
    destruct (get_at_is_Some (local_indexes a) i) as [? ->]; [lia|]. destruct (get_at_is_Some (label_components a) i) as [? ->]; [lia|].
    eapply charged_then; [by apply charged_lift|]. eapply charged_then; [by apply charged_lift|]. apply charged_ret.
  - pose proof (get_at_lt _ _ _ Hl) as Hcl. constructor; cbn [a_parents root_components label_components local_indexes component_labels].
    + by eapply keeps_trans.
    + destruct fresh; by rewrite ?length_insert.
    + by rewrite length_insert.
    + by rewrite length_insert.
    + by rewrite length_insert.
    + intros c' l'. rewrite get_at_insert by done. case_decide as Ec; [|intros; by eapply Hnonempty]. intros [= <-]. by destruct l.
    + by apply listed_step.
    + replace (if fresh then <[Z.to_nat r := c]> (root_components a) else root_components a) with (<[Z.to_nat r := c]> (root_components a)).
      * apply (root_names_step _ _ _ _ _ _ c); try done. lia.
      * destruct fresh eqn:Ef; [done|]. subst c. apply get_at_Some in Eknown as [_ Eknown]. by rewrite list_insert_id.
Qed.

Lemma charged_assign_labels a : numbered 0 a -> exists a', charged (for_range assign_label 0 (Z.to_nat n) a) (Ok a') /\ numbered n a'.
Proof using Hn Hforest.
  intros Ha. destruct (charged_range numbered assign_label 0 (Z.to_nat n) a Ha) as (a' & H1 & H2).
  - intros i b Hi Hb. destruct (charged_assign_label i b Hb) as (b' & ? & ?); [lia|]. by exists b'.
  - exists a'. split; [done|]. by replace (0 + Z.of_nat (Z.to_nat n)) with n in H1 by lia.
Qed.
End Numbering.
