(* ===== verification/ComponentsSound.v ===== *)
(** * [canonical_components] returns the canonical components *)

From S2P Require Import Prelude Bytes Order Hash Error Machine Limits Session Varint CanonicalTree AlphaOrder BlankGraph Charged Neighborhoods Permutations AlphaSound AlphaInvariant BlankComponents.

(** An arc with the places of its labels in a list. *)
Definition localized (labels : list Z) (arc : BlankArc) : BlankArc :=
  {| arc_source := position labels (arc_source arc); role := role arc;
     arc_target := position labels <$> arc_target arc; arc_payload := arc_payload arc |}.

(** The arcs between the labels of a list. *)
Definition local_arcs (arcs : list BlankArc) (labels : list Z) : list BlankArc :=
  map (localized labels) (filter (fun arc => arc_source arc ∈ labels) arcs).

Definition canonical_component (payloads : list bytes) (arcs : list BlankArc) (c : BlankComponent) : Prop :=
  StronglySorted Z.lt (global_labels c) /\ component_arcs c = local_arcs arcs (global_labels c) /\
  canonical_result payloads (component_arcs c) (len (global_labels c)) (alpha c).

(** The components of a document are the connected components of its arcs. *)
Record components_of (n : Z) (payloads : list bytes) (arcs : list BlankArc) (components : list BlankComponent) : Prop := {
  components_cover : concat (map global_labels components) ≡ₚ seqZ 0 n;
  components_connected : forall i j c c' x y, components !! i = Some c -> components !! j = Some c' ->
    x ∈ global_labels c -> y ∈ global_labels c' -> connected arcs x y <-> i = j;
  components_canonical : Forall (canonical_component payloads arcs) components;
  components_nonempty : Forall (fun c => global_labels c <> []) components
}.

Lemma position_get_at labels x : NoDup labels -> forall j, get_at labels j = Some x -> position labels x = j.
Proof.
  intros Hnd j [Hj Hx]%get_at_Some. apply list_elem_of_split_length in Hx as (before & after & -> & Hl).
  rewrite position_middle; [lia|]. intros Hin%list_elem_of_In. apply NoDup_app in Hnd as (_ & Hd & _). apply (Hd x Hin). by left.
Qed.

Section Arcs.
Context (n : Z) (payloads : list bytes) (arcs : list BlankArc) (parents : list Z) (a : Assignment).
Hypothesis Hn : 0 <= n < USIZE_MAX.
Hypothesis Harcs : forall arc, In arc arcs -> arc_in payloads n arc.
Hypothesis Hfollows : follows n arcs parents.
Hypothesis Ha : numbered n parents n a.

Notation lists := (component_labels a).

Definition list_at (c : Z) : list Z := default [] (get_at lists c).

Lemma list_at_get c l : get_at lists c = Some l -> list_at c = l.
Proof. clear. unfold list_at. by intros ->. Qed.

Lemma list_NoDup c l : get_at lists c = Some l -> NoDup l.
Proof using Ha. intros Hl. apply ascending_NoDup. exact (listed_sorted _ _ _ _ _ (num_listed _ _ _ _ Ha) c l Hl). Qed.

Lemma list_in c l x : get_at lists c = Some l -> x ∈ l -> 0 <= x < n.
Proof using Ha. intros Hl Hx. eapply listed_before; [exact (num_listed _ _ _ _ Ha)|done..]. Qed.

Lemma placed x : 0 <= x < n -> exists c l, get_at lists c = Some l /\ x ∈ l.
Proof using Ha.
  intros Hx. assert (x ∈ concat lists) as H.
  { rewrite (listed_cover _ _ _ _ _ (num_listed _ _ _ _ Ha)). apply elem_of_seqZ. lia. }
  apply list_elem_of_In, in_concat in H as (l & Hl & H). apply list_elem_of_In, elem_of_get_at in Hl as [c Hc].
  exists c, l. split; [done|by apply list_elem_of_In].
Qed.

Lemma place_of c l x : get_at lists c = Some l -> x ∈ l ->
  get_at (label_components a) x = Some c /\ get_at (local_indexes a) x = Some (position l x).
Proof using Ha.
  intros Hl Hx. apply elem_of_get_at in Hx as [j Hj]. rewrite (position_get_at l x (list_NoDup c l Hl) j Hj).
  exact (listed_places _ _ _ _ _ (num_listed _ _ _ _ Ha) c l j x Hl Hj).
Qed.

Lemma lists_connected c c' l l' x y : get_at lists c = Some l -> get_at lists c' = Some l' -> x ∈ l -> y ∈ l' ->
  connected arcs x y <-> c = c'.
Proof using Ha Hfollows.
  intros Hl Hl' Hx Hy. pose proof (list_in c l x Hl Hx). pose proof (list_in c' l' y Hl' Hy). rewrite <- (proj2 Hfollows) by done.
  exact (listed_linked _ _ _ _ _ (num_listed _ _ _ _ Ha) c c' l l' x y Hl Hl' Hx Hy).
Qed.

Lemma charged_assign_arc arc f : In arc arcs ->
  charged (assign_arc a arc (table (len lists) f))
    (Ok (table (len lists) (fun c => f c ++ (if decide (arc_source arc ∈ list_at c) then [localized (list_at c) arc] else [])))).
Proof using Hn Harcs Hfollows Ha.
  intros Hin. destruct (Harcs arc Hin) as (Hs & _ & Ht). destruct (placed _ Hs) as (c & l & Hl & Hsl).
  destruct (place_of c l _ Hl Hsl) as [Ec Eloc]. pose proof (get_at_lt _ _ _ Hl) as Hc. unfold assign_arc. charges.
  rewrite Ec. eapply charged_then; [by apply charged_lift|]. cbv beta.
  eapply (charged_then _ _ (position l <$> arc_target arc)).
  { destruct (arc_target arc) as [t|] eqn:Et; [|by apply charged_lift]. specialize (Ht t eq_refl).
    destruct (placed t Ht) as (c' & l' & Hl' & Htl).
    assert (c = c') as <-.
    { apply (lists_connected c c' l l' (arc_source arc) t); try done. apply connected_edge. by exists arc. }
    rewrite Hl in Hl'. injection Hl' as <-. destruct (place_of c l t Hl Htl) as [-> ->].
    rewrite bool_decide_true by done. by apply charged_lift. }
  ch. rewrite Eloc. eapply charged_then; [by apply charged_lift|]. cbv beta. rewrite get_at_table by done.
  eapply charged_then; [by apply charged_lift|]. cbv beta. charges. eapply charged_eq; [apply charged_ret|]. f_equal.
  rewrite insert_table by done. apply table_ext. intros c' Hc'.
  destruct (decide (c' = c)) as [->|Hne].
  - rewrite (list_at_get c l) by done. rewrite decide_True by done. done.
  - destruct (get_at_is_Some lists c' Hc') as [l' Hl']. rewrite (list_at_get c' l') by done. rewrite decide_False; [by rewrite app_nil_r|].
    intros Hsl'. apply Hne. apply (lists_connected c' c l' l (arc_source arc) (arc_source arc)); done || reflexivity.
Qed.

Lemma charged_assign_arcs some f : incl some arcs ->
  charged (for_each (assign_arc a) some (table (len lists) f)) (Ok (table (len lists) (fun c => f c ++ local_arcs some (list_at c)))).
Proof using Hn Harcs Hfollows Ha.
  revert f. induction some as [|arc some IH]; intros f Hi; cbn [for_each].
  - eapply charged_eq; [apply charged_ret|]. f_equal. apply table_ext. intros c _. unfold local_arcs. by rewrite filter_nil, app_nil_r.
  - eapply charged_then; [apply charged_assign_arc, Hi; by left|]. eapply charged_eq; [apply IH; intros x Hx; apply Hi; by right|].
    f_equal. apply table_ext. intros c _. rewrite <- app_assoc. f_equal. unfold local_arcs. rewrite filter_cons. by case_decide.
Qed.

(** The arcs of a list of labels are arcs between its places. *)
Lemma position_in c l x : get_at lists c = Some l -> x ∈ l -> 0 <= position l x < len l.
Proof using Ha. intros Hl Hx. destruct (place_of c l x Hl Hx) as [_ H].
  apply elem_of_get_at in Hx as [j Hj]. rewrite (position_get_at l x (list_NoDup c l Hl) j Hj). by apply get_at_lt in Hj.
Qed.

Lemma local_arcs_in c l arc : get_at lists c = Some l -> In arc (local_arcs arcs l) -> arc_in payloads (len l) arc.
Proof using Harcs Hfollows Ha.
  intros Hl Hin. apply in_map_iff in Hin as (arc0 & <- & Hin). apply list_elem_of_In, list_elem_of_filter in Hin as [Hs Hin].
  apply list_elem_of_In in Hin. destruct (Harcs arc0 Hin) as (_ & Hp & Ht). unfold arc_in, localized. cbn.
  split; [by apply (position_in c l)|]. split; [done|].
  intros t Et. apply fmap_Some in Et as (t0 & Et & ->). destruct (placed t0 (Ht t0 Et)) as (c' & l' & Hl' & Htl).
  assert (c = c') as <-.
  { apply (lists_connected c c' l l' (arc_source arc0) t0); try done. apply connected_edge. by exists arc0. }
  rewrite Hl in Hl'. injection Hl' as <-. by apply (position_in c).
Qed.
End Arcs.

Section Canonical.
Context (payloads : list bytes) (limits : Limits) (details : NativeLimitDetails).
Hypothesis Hwork : max_canonical_work limits <= U64_MAX.

(** What the last loop makes of the labels and the arcs of a component. *)
Definition describes (item : list Z * list BlankArc) (c : BlankComponent) : Prop :=
  global_labels c = item.1 /\ component_arcs c = item.2 /\ canonical_result payloads item.2 (len item.1) (alpha c).

Lemma charged_canonical items done :
  (forall item, In item items -> len item.1 < USIZE_MAX /\ forall arc, In arc item.2 -> arc_in payloads (len item.1) arc) ->
  exists o, charged (for_each (fun '(global_labels, local_arcs) result =>
      cancellation_checkpoint;;
      alpha ← alpha_order local_arcs payloads (len global_labels) limits details;
      mret (result ++ [{| global_labels := global_labels; component_arcs := local_arcs; alpha := alpha |}])) items done) o /\
    ((o = Err did_not_converge /\ Exists (fun item => settled payloads item.2 (len item.1) = None) items) \/
     exists components, o = Ok (done ++ components) /\ Forall2 describes items components).
Proof using Hwork.
  revert done. induction items as [|[labels local] items IH]; intros done Hin; cbn [for_each].
  { exists (Ok done). split; [apply charged_ret|]. right. exists []. rewrite app_nil_r. by split; [|constructor]. }
  destruct (Hin (labels, local) (or_introl eq_refl)) as [Hl Hlocal]. cbn [fst snd] in *.
  pose proof (charged_alpha_order payloads local (len labels) limits details ltac:(lia) Hlocal Hwork) as Halpha.
  destruct (settled payloads local (len labels)) as [[colors rounds]|] eqn:Es.
  - destruct Halpha as (result & Hc & Hresult).
    destruct (IH (done ++ [{| global_labels := labels; component_arcs := local; alpha := result |}])) as (o & Ho & Hcases).
    { intros item Hi. apply Hin. by right. }
    exists o. split.
    + eapply charged_then; [|exact Ho]. charges. eapply charged_then; [exact Hc|]. apply charged_ret.
    + destruct Hcases as [[-> He]|(components & -> & Hd)]; [left; split; [reflexivity|by right]|]. right.
      eexists. split; [by rewrite <- app_assoc|]. constructor; [|exact Hd]. split_and!; [reflexivity..|exact Hresult].
  - exists (Err did_not_converge). split; [|left; split; [reflexivity|by left]].
    assert (charged (cancellation_checkpoint;;
      alpha ← alpha_order local payloads (len labels) limits details;
      mret (done ++ [{| global_labels := labels; component_arcs := local; alpha := alpha |}])) (Err did_not_converge)) as H.
    { charges. eapply (charged_bind _ _ _ (fun _ => Panic)) in Halpha; [exact Halpha|discriminate]. }
    eapply (charged_bind _ _ _ (fun _ => Panic)) in H; [exact H|discriminate].
Qed.
End Canonical.

(** ** All components *)

Lemma numbered_start n parents : 0 <= n -> forest n parents ->
  numbered n parents 0
    {| a_parents := parents; root_components := replicate (Z.to_nat n) USIZE_MAX; label_components := replicate (Z.to_nat n) USIZE_MAX;
       local_indexes := replicate (Z.to_nat n) USIZE_MAX; component_labels := [] |}.
Proof.
  intros Hn Hf.
  assert (len (replicate (Z.to_nat n) USIZE_MAX) = n) as Hl by (rewrite length_replicate; lia).
  constructor; cbn [a_parents root_components label_components local_indexes component_labels]; try done.
  - intros c l H. by apply get_at_lt in H; cbn in H; lia.
  - constructor; [done| | |]; intros; exfalso; match goal with H : get_at [] _ = Some _ |- _ => apply get_at_lt in H; cbn in H; lia end.
  - intros r Hr. right. apply get_at_lt in Hr. rewrite (proj1 Hf) in Hr. split.
    + apply get_at_Some. split; [lia|]. apply lookup_replicate_2. lia.
    + intros c l y H. apply get_at_lt in H. cbn in H. lia.
Qed.

Lemma Forall2_table {A B} (R : A -> B -> Prop) n f bs : Forall2 R (table n f) bs ->
  forall i b, bs !! i = Some b -> Z.of_nat i < n /\ R (f (Z.of_nat i)) b.
Proof.
  intros H i b Hb. destruct (Forall2_lookup_r _ _ _ _ _ H Hb) as (x & Hx & HR). rewrite lookup_table in Hx. case_decide; [|done].
  injection Hx as <-. by split.
Qed.

Lemma get_at_nat {A} (l : list A) i x : l !! i = Some x <-> get_at l (Z.of_nat i) = Some x.
Proof. rewrite get_at_Some, Nat2Z.id. split; [intros ?; split; [lia|done]|by intros [_ ?]]. Qed.

Lemma component_labels_table a : component_labels a = table (len (component_labels a)) (list_at a).
Proof.
  apply list_eq. intros i. rewrite lookup_table. unfold list_at. case_decide.
  - destruct (lookup_lt_is_Some_2 (component_labels a) i) as [l E]; [lia|]. rewrite E. by rewrite (proj1 (get_at_nat _ _ _) E).
  - apply lookup_ge_None. lia.
Qed.

Lemma charged_bounded_largest {A} (values : list (list A)) message : charged (lift (largest values message)) (Ok (foldr Z.max 0 (map (fun value => len value) values))).
Proof. apply charged_usize_u64. Qed.

Lemma described_components n payloads arcs parents a components :
  follows n arcs parents -> numbered n parents n a ->
  Forall2 (describes payloads) (table (len (component_labels a)) (fun c => (list_at a c, local_arcs arcs (list_at a c)))) components ->
  components_of n payloads arcs components.
Proof.
  intros Hf Ha Hd.
  assert (forall i c, components !! i = Some c -> get_at (component_labels a) (Z.of_nat i) = Some (global_labels c) /\
    component_arcs c = local_arcs arcs (global_labels c) /\ canonical_result payloads (component_arcs c) (len (global_labels c)) (alpha c)) as Hat.
  { intros i c Hc. destruct (Forall2_table _ _ _ _ Hd i c Hc) as (Hi & El & Ea & Hr). cbn [fst snd] in *.
    rewrite El, Ea. split_and!; [|done|done]. unfold list_at. destruct (get_at_is_Some (component_labels a) (Z.of_nat i)) as [l ->]; [lia|done]. }
  constructor.
  - rewrite <- (listed_cover _ _ _ _ _ (num_listed _ _ _ _ Ha)). f_equiv. clear Hat.
    rewrite (component_labels_table a).
    remember (table (len (component_labels a)) (fun c => (list_at a c, local_arcs arcs (list_at a c)))) as items eqn:Ei.
    assert (table (len (component_labels a)) (list_at a) = map fst items) as -> by (subst; by rewrite map_table).
    clear Ei. induction Hd as [|[l x] c items components [Hl _] _ IH]; cbn [map]; [done|]. by rewrite IH, Hl.
  - intros i j c c' x y Hc Hc' Hx Hy. destruct (Hat i c Hc) as [Hl _], (Hat j c' Hc') as [Hl' _].
    rewrite (lists_connected n arcs parents a Hf Ha _ _ _ _ x y Hl Hl' Hx Hy). lia.
  - apply Forall_lookup. intros i c Hc. destruct (Hat i c Hc) as (Hl & Ea & Hr). split_and!; [|done|done].
    exact (listed_sorted _ _ _ _ _ (num_listed _ _ _ _ Ha) _ _ Hl).
  - apply Forall_lookup. intros i c Hc. destruct (Hat i c Hc) as (Hl & _). by eapply (num_nonempty _ _ _ _ Ha).
Qed.

Lemma charged_canonical_components n payloads arcs limits :
  0 <= n < USIZE_MAX -> (forall arc, In arc arcs -> arc_in payloads n arc) -> max_canonical_work limits <= U64_MAX ->
  exists o, charged (canonical_components n arcs payloads limits) o /\
    (o = Err did_not_converge \/ exists components, o = Ok components /\ components_of n payloads arcs components).
Proof.
  intros Hn Harcs Hwork.
  destruct (charged_unions n payloads arcs Harcs [] arcs (seqZ 0 n) (replicate (Z.to_nat n) 1)) as (parents & sizes & Hunions & Hfollows);
    [done|by apply follows_none|rewrite length_replicate; lia|].
  destruct (charged_assign_labels n parents Hn (proj1 Hfollows) _ (numbered_start n parents ltac:(lia) (proj1 Hfollows))) as (a & Hlabels & Ha).
  pose proof (charged_assign_arcs n payloads arcs parents a Hn Harcs Hfollows Ha arcs (fun _ => []) (incl_refl _)) as Hassign.
  set (items := table (len (component_labels a)) (fun c => (list_at a c, local_arcs arcs (list_at a c)))).
  assert (exists details, forall o, charged (for_each (fun '(global_labels, local_arcs) result =>
      cancellation_checkpoint;;
      alpha ← alpha_order local_arcs payloads (len global_labels) limits details;
      mret (result ++ [{| global_labels := global_labels; component_arcs := local_arcs; alpha := alpha |}])) items []) o ->
    charged (canonical_components n arcs payloads limits) o) as [details Hstart].
  { eexists. intros o Ho. unfold canonical_components. cbv zeta. eapply charged_then.
    { apply charged_lift_bound. instantiate (1 := n * 5). unfold bounded, checked_mul, ok_or. by destruct (_ <=? _). }
    charges. eapply charged_then; [exact Hunions|]. cbv beta iota. charges.
    eapply charged_then; [exact Hlabels|]. cbv beta. charges.
    replace (replicate (length (component_labels a)) ([] : list BlankArc)) with (table (len (component_labels a)) (fun _ : Z => @nil BlankArc)).
    2:{ apply list_eq. intros i. rewrite lookup_table. symmetry. case_decide; [apply lookup_replicate_2; lia|]. apply lookup_ge_None. rewrite length_replicate. lia. }
    eapply charged_then; [exact Hassign|]. cbv beta.
    eapply charged_then; [apply charged_usize_u64|]. eapply charged_then; [apply charged_bounded_largest|].
    eapply charged_then; [apply charged_bounded_largest|]. cbv beta. charges.
    rewrite (component_labels_table a) at 1. rewrite zip_table. exact Ho. }
  destruct (charged_canonical payloads limits details Hwork items []) as (o & Ho & Hcases).
  { intros [labels local] Hin. apply in_map_iff in Hin as (c & [= <- <-] & Hc%list_elem_of_In%elem_of_seqZ). cbn [fst snd].
    destruct (get_at_is_Some (component_labels a) c) as [l Hl]; [lia|]. rewrite (list_at_get a c l Hl). split.
    - pose proof (list_NoDup n parents a Ha c l Hl) as Hnd.
      assert (l ⊆+ seqZ 0 n) as Hsub.
      { apply NoDup_submseteq; [done|]. intros x Hx. apply elem_of_seqZ. pose proof (list_in n parents a Ha c l x Hl Hx). lia. }
      apply submseteq_length in Hsub. rewrite length_seqZ in Hsub. lia.
    - intros arc Harc. by eapply local_arcs_in. }
  exists o. split; [by apply Hstart|]. destruct Hcases as [[-> _]|(components & -> & Hd)]; [by left|]. right.
  exists components. split; [done|]. by eapply described_components.
Qed.

(** * The components of isomorphic documents

    A renaming of the labels of a document takes its components to those of
    the renamed document, and their canonical graphs are the same. *)

(** The canonical results of isomorphic components agree but for the order. *)
Lemma canonical_result_invariant n payloads payloads' rename arcs arcs' result result' :
  0 <= n < USIZE_MAX -> (forall arc, In arc arcs -> arc_in payloads n arc) -> isomorphic n payloads payloads' rename arcs arcs' ->
  canonical_result payloads arcs n result -> canonical_result payloads' arcs' n result' ->
  graph result' = graph result /\ result_rounds result' = result_rounds result /\
  permutations_examined result' = permutations_examined result.
Proof.
  intros Hn Ha Hiso (colors & rounds & classes & Es & Hc & Hlo & Hg & Hr & Hp) (colors' & rounds' & classes' & Es' & Hc' & Hlo' & Hg' & Hr' & Hp').
  pose proof (settled_alike n payloads payloads' rename arcs arcs' Hn Ha Hiso) as Hs. rewrite Es, Es' in Hs.
  inversion Hs as [? ? [Hcol Hrounds]|]; subst. cbn [fst snd] in *.
  pose proof (classes_alike n payloads payloads' rename arcs arcs' Hn Ha Hiso colors colors' classes classes' Hcol Hc Hc') as Hsame.
  rewrite Hg, Hg', Hp, Hp'. split_and!; [|congruence|by eapply product_count_alike].
  eapply (least_graph_rename n payloads payloads' rename arcs arcs'); try done.
  intros label Hl. rewrite (classes_cover _ _ _ Hc) in Hl. apply In_sort_by, list_elem_of_In, elem_of_seqZ in Hl.
  destruct Hcol as (El & _). lia.
Qed.

Section Documents.
Context (n : Z) (payloads payloads' : list bytes) (rename : Z -> Z) (arcs arcs' : list BlankArc).
Hypothesis Hn : 0 <= n < USIZE_MAX.
Hypothesis Harcs : forall arc, In arc arcs -> arc_in payloads n arc.
Hypothesis Hiso : isomorphic n payloads payloads' rename arcs arcs'.

Lemma edge_rename x y : edge arcs x y -> edge arcs' (rename x) (rename y).
Proof using Hiso.
  intros (arc & Ha & Hs & Ht). destruct (arcs_match _ _ _ _ _ _ Hiso) as (arcs'' & Hm & Hp).
  apply list_elem_of_In, list_elem_of_lookup in Ha as [i Hi]. destruct (Forall2_lookup_l _ _ _ _ _ Hm Hi) as (arc' & Hi' & (Es & _ & Et & _)).
  exists arc'. split; [|split; [by rewrite Es, Hs|by rewrite Et, Ht]].
  apply list_elem_of_In. rewrite <- Hp. by eapply list_elem_of_lookup_2.
Qed.

Lemma edge_unrename u v : edge arcs' u v -> exists x y, edge arcs x y /\ u = rename x /\ v = rename y.
Proof using Hiso.
  intros (arc' & Ha & Hs & Ht). destruct (arcs_match _ _ _ _ _ _ Hiso) as (arcs'' & Hm & Hp).
  apply list_elem_of_In in Ha. rewrite <- Hp in Ha. apply list_elem_of_lookup in Ha as [i Hi].
  destruct (Forall2_lookup_r _ _ _ _ _ Hm Hi) as (arc & Hi' & (Es & _ & Et & _)).
  rewrite Ht in Et. symmetry in Et. apply fmap_Some in Et as (y & Et & ->). exists (arc_source arc), y. split; [|split; [congruence|done]].
  exists arc. split; [by eapply list_elem_of_In, list_elem_of_lookup_2|done].
Qed.

Lemma edge_in x y : edge arcs x y -> 0 <= x < n /\ 0 <= y < n.
Proof using Harcs. intros (arc & Ha & <- & Ht). destruct (Harcs arc Ha) as (? & _ & Htgt). auto. Qed.

Lemma connected_rename x y : 0 <= x < n -> 0 <= y < n -> connected arcs' (rename x) (rename y) <-> connected arcs x y.
Proof using Harcs Hiso.
  intros Hx Hy. split.
  - intros H. remember (rename x) as u eqn:Eu. remember (rename y) as v eqn:Ev. revert x Hx Eu.
    induction H as [u|u w v Huw _ IH]; intros x Hx Eu.
    + assert (x = y) as ->; [|reflexivity]. apply (rename_inj _ _ _ _ _ _ Hiso); [done|done|congruence].
    + destruct Huw as [H|H]; apply edge_unrename in H as (a & b & H & Ea & Eb); destruct (edge_in a b H) as [Hai Hbi].
      * rewrite Eu in Ea. apply (rename_inj _ _ _ _ _ _ Hiso) in Ea as <-; [|done..]. eapply connected_trans; [by apply connected_edge|by apply IH].
      * rewrite Eu in Eb. apply (rename_inj _ _ _ _ _ _ Hiso) in Eb as <-; [|done..].
        eapply connected_trans; [by apply connected_sym, connected_edge|by apply IH].
  - intros H. apply (rtsc_congruence rename (edge arcs')) in H; [done|]. intros a b. apply edge_rename.
Qed.

Section Component.
Context (components components' : list BlankComponent).
Hypothesis Hcomponents : components_of n payloads arcs components.
Hypothesis Hcomponents' : components_of n payloads' arcs' components'.

Lemma component_of_label p a (cs : list BlankComponent) x : components_of n p a cs -> 0 <= x < n -> exists i c, cs !! i = Some c /\ x ∈ global_labels c.
Proof.
  clear. intros Hc Hx. assert (x ∈ concat (map global_labels cs)) as H.
  { rewrite (components_cover _ _ _ _ Hc). apply elem_of_seqZ. lia. }
  apply list_elem_of_In, in_concat in H as (l & Hl & Hxl). apply in_map_iff in Hl as (c & <- & Hin).
  apply list_elem_of_In, list_elem_of_lookup in Hin as [i Hi]. exists i, c. split; [done|by apply list_elem_of_In].
Qed.

Lemma component_labels_in p a cs i c x : components_of n p a cs -> cs !! i = Some c -> x ∈ global_labels c -> 0 <= x < n.
Proof.
  clear. intros Hc Hi Hx. enough (x ∈ seqZ 0 n) as H by (apply elem_of_seqZ in H; lia).
  rewrite <- (components_cover _ _ _ _ Hc). apply list_elem_of_In, in_concat. exists (global_labels c).
  split; [|by apply list_elem_of_In]. apply in_map, list_elem_of_In. by eapply list_elem_of_lookup_2.
Qed.

Lemma component_sorted p a cs i c : components_of n p a cs -> cs !! i = Some c -> NoDup (global_labels c).
Proof.
  clear. intros Hc Hi. pose proof (components_canonical _ _ _ _ Hc) as H. rewrite Forall_lookup in H.
  destruct (H i c Hi) as (Hs & _). apply ascending_NoDup. exact Hs.
Qed.

(** The renamed labels of a component are those of a component. *)
Notation corresponds c c' := (global_labels c' ≡ₚ map rename (global_labels c)).

Lemma corresponding i c : components !! i = Some c -> exists j c', components' !! j = Some c' /\ corresponds c c'.
Proof using Harcs Hiso Hcomponents Hcomponents' Hn.
  intros Hi. pose proof (components_nonempty _ _ _ _ Hcomponents) as Hne. rewrite Forall_lookup in Hne. specialize (Hne i c Hi).
  assert (exists x, x ∈ global_labels c) as [x Hx] by (destruct (global_labels c) as [|x ?]; [done|exists x; by left]).
  pose proof (component_labels_in _ _ _ _ _ _ Hcomponents Hi Hx) as Hxn.
  destruct (component_of_label _ _ _ (rename x) Hcomponents') as (j & c' & Hj & Hxc'); [by apply (rename_in _ _ _ _ _ _ Hiso)|].
  exists j, c'. split; [done|]. apply NoDup_Permutation.
  - by apply (component_sorted _ _ _ _ _ Hcomponents' Hj).
  - apply (NoDup_fmap_2_strong rename); [|by apply (component_sorted _ _ _ _ _ Hcomponents Hi)]. intros a b Ha Hb.
    apply (rename_inj _ _ _ _ _ _ Hiso); by apply (component_labels_in _ _ _ _ _ _ Hcomponents Hi).
  - intros y. rewrite list_elem_of_fmap. split.
    + intros Hy. pose proof (component_labels_in _ _ _ _ _ _ Hcomponents' Hj Hy) as Hyn.
      destruct (rename_onto n payloads payloads' rename arcs arcs' Hiso y Hyn) as (z & Hz & <-). exists z. split; [done|].
      destruct (component_of_label _ _ _ z Hcomponents Hz) as (k & d & Hk & Hzd).
      assert (i = k) as <-.
      { apply (components_connected _ _ _ _ Hcomponents i k c d x z); try done. apply connected_rename; try done.
        by apply (components_connected _ _ _ _ Hcomponents' j j c' c' (rename x) (rename z)). }
      rewrite Hi in Hk. by injection Hk as <-.
    + intros (z & -> & Hz). pose proof (component_labels_in _ _ _ _ _ _ Hcomponents Hi Hz) as Hzn.
      destruct (component_of_label _ _ _ (rename z) Hcomponents') as (k & d & Hk & Hzd); [by apply (rename_in _ _ _ _ _ _ Hiso)|].
      assert (j = k) as <-.
      { apply (components_connected _ _ _ _ Hcomponents' j k c' d (rename x) (rename z)); try done. apply connected_rename; try done.
        by apply (components_connected _ _ _ _ Hcomponents i i c c x z). }
      rewrite Hj in Hk. by injection Hk as <-.
Qed.

Lemma len_component p a cs i c : components_of n p a cs -> cs !! i = Some c -> len (global_labels c) <= Z.max 0 n.
Proof.
  clear. intros Hc Hi. assert (global_labels c ⊆+ seqZ 0 n) as H.
  { apply NoDup_submseteq; [by eapply component_sorted|]. intros x Hx. apply elem_of_seqZ. pose proof (component_labels_in _ _ _ _ _ _ Hc Hi Hx). lia. }
  apply submseteq_length in H. rewrite length_seqZ in H. lia.
Qed.

(** The local renaming between corresponding components. *)
Definition local_rename (labels labels' : list Z) (i : Z) : Z := position labels' (rename (default 0 (get_at labels i))).

Lemma position_spec labels x : NoDup labels -> x ∈ labels -> get_at labels (position labels x) = Some x.
Proof. clear. intros Hnd [j Hj]%elem_of_get_at. by rewrite (position_get_at labels x Hnd j Hj). Qed.

Lemma arcs_localized some some' labels labels' :
  NoDup labels -> (forall x, x ∈ labels -> 0 <= x < n) -> labels' ≡ₚ map rename labels ->
  (forall arc, In arc some -> arc_in payloads n arc) ->
  (forall arc target, In arc some -> arc_source arc ∈ labels -> arc_target arc = Some target -> target ∈ labels) ->
  Forall2 (relabelled payloads payloads' rename) some some' ->
  Forall2 (relabelled payloads payloads' (local_rename labels labels')) (local_arcs some labels) (local_arcs some' labels').
Proof using Hn Hiso.
  intros Hnd Hin Hp Hsome Hclosed H. unfold local_arcs. induction H as [|arc arc' some some' Harc _ IH]; [constructor|].
  specialize (IH (fun a Ha => Hsome a (or_intror Ha)) (fun a t Ha => Hclosed a t (or_intror Ha))).
  destruct (Hsome arc (or_introl eq_refl)) as (Hs & Hpay & Ht). specialize (Hclosed arc).
  assert (forall x, 0 <= x < n -> rename x ∈ labels' <-> x ∈ labels) as Hmem.
  { intros x Hx. rewrite Hp, list_elem_of_fmap. split; [|by exists x]. intros (y & E & Hy).
    apply (rename_inj _ _ _ _ _ _ Hiso) in E; [by subst|done|by apply Hin]. }
  destruct Harc as (Es & Er & Et & Ep). rewrite !filter_cons. rewrite Es.
  pose proof (Hmem (arc_source arc) Hs) as Hiff.
  repeat case_decide; try (exfalso; tauto); cbn [map]; [|done]. constructor; [|done].
  assert (forall x, x ∈ labels -> position labels' (rename x) = local_rename labels labels' (position labels x)) as Hpos.
  { intros x Hx. unfold local_rename. by rewrite position_spec. }
  unfold relabelled, localized. cbn. split_and!; [rewrite Es; by apply Hpos|done| |done].
  rewrite Et. destruct (arc_target arc) as [t|]; cbn; [|done]. f_equal. apply Hpos. apply (Hclosed t); [by left|done|done].
Qed.

Lemma local_isomorphic i c j c' : components !! i = Some c -> components' !! j = Some c' -> corresponds c c' ->
  isomorphic (len (global_labels c)) payloads payloads' (local_rename (global_labels c) (global_labels c')) (component_arcs c) (component_arcs c').
Proof using Harcs Hiso Hcomponents Hcomponents' Hn.
  intros Hi Hj Hc. pose proof (component_sorted _ _ _ _ _ Hcomponents Hi) as Hnd. pose proof (component_sorted _ _ _ _ _ Hcomponents' Hj) as Hnd'.
  pose proof (fun x => component_labels_in _ _ _ _ _ x Hcomponents Hi) as Hin.
  assert (len (global_labels c') = len (global_labels c)) as Elen by by rewrite Hc, length_map.
  assert (forall k, 0 <= k < len (global_labels c) -> exists x, get_at (global_labels c) k = Some x /\ x ∈ global_labels c /\
    get_at (global_labels c') (local_rename (global_labels c) (global_labels c') k) = Some (rename x)) as Hlocal.
  { intros k Hk. destruct (get_at_is_Some _ _ Hk) as [x Hx]. exists x. assert (x ∈ global_labels c) by (apply elem_of_get_at; by exists k).
    split_and!; [done|done|]. unfold local_rename. rewrite Hx. cbn. apply position_spec; [done|]. rewrite Hc. by apply (list_elem_of_fmap_2 rename). }
  constructor.
  - intros k Hk. destruct (Hlocal k Hk) as (x & _ & _ & H%get_at_lt). lia.
  - intros k l Hk Hl E. destruct (Hlocal k Hk) as (x & Hx & Hxc & H), (Hlocal l Hl) as (y & Hy & Hyc & H').
    rewrite E, H' in H. injection H as Exy. apply (rename_inj _ _ _ _ _ _ Hiso) in Exy; [|by apply Hin..]. subst y.
    apply get_at_Some in Hx as [? Hx], Hy as [? Hy]. pose proof (NoDup_lookup _ _ _ _ Hnd Hx Hy). lia.
  - destruct (arcs_match _ _ _ _ _ _ Hiso) as (arcs'' & Hm & Hp).
    pose proof (components_canonical _ _ _ _ Hcomponents) as Hcan. pose proof (components_canonical _ _ _ _ Hcomponents') as Hcan'.
    rewrite Forall_lookup in Hcan, Hcan'. destruct (Hcan i c Hi) as (_ & -> & _), (Hcan' j c' Hj) as (_ & -> & _).
    exists (local_arcs arcs'' (global_labels c')). split; [|unfold local_arcs; by rewrite Hp].
    apply arcs_localized; try done. intros arc t Ha Hs Ht.
    destruct (Harcs arc Ha) as (Hsn & _ & Htn). destruct (component_of_label _ _ _ t Hcomponents (Htn t Ht)) as (k & d & Hk & Htd).
    assert (i = k) as <-; [|congruence]. apply (components_connected _ _ _ _ Hcomponents i k c d (arc_source arc) t); try done.
    apply connected_edge. by exists arc.
Qed.

Lemma component_arcs_in i c arc : components !! i = Some c -> In arc (component_arcs c) -> arc_in payloads (len (global_labels c)) arc.
Proof using Harcs Hcomponents.
  intros Hi Ha. pose proof (components_canonical _ _ _ _ Hcomponents) as Hcan. rewrite Forall_lookup in Hcan. destruct (Hcan i c Hi) as (_ & E & _).
  rewrite E in Ha. apply in_map_iff in Ha as (arc0 & <- & Ha). apply list_elem_of_In, list_elem_of_filter in Ha as [Hs Ha]. apply list_elem_of_In in Ha.
  destruct (Harcs arc0 Ha) as (_ & Hp & Ht).
  assert (forall x, x ∈ global_labels c -> 0 <= position (global_labels c) x < len (global_labels c)) as Hpos.
  { intros x Hx. pose proof (position_spec _ x (component_sorted _ _ _ _ _ Hcomponents Hi) Hx) as H. by apply get_at_lt in H. }
  unfold arc_in, localized. cbn. split; [by apply Hpos|]. split; [done|].
  intros t (t0 & Et & ->)%fmap_Some. apply Hpos. destruct (component_of_label _ _ _ t0 Hcomponents (Ht t0 Et)) as (k & d & Hk & Htd).
  assert (i = k) as <-; [|congruence]. apply (components_connected _ _ _ _ Hcomponents i k c d (arc_source arc0) t0); try done.
  apply connected_edge. by exists arc0.
Qed.

Lemma corresponding_graph i c j c' : components !! i = Some c -> components' !! j = Some c' -> corresponds c c' ->
  graph (alpha c') = graph (alpha c).
Proof using Harcs Hiso Hcomponents Hcomponents' Hn.
  intros Hi Hj Hc. pose proof (components_canonical _ _ _ _ Hcomponents) as Hcan. pose proof (components_canonical _ _ _ _ Hcomponents') as Hcan'.
  rewrite Forall_lookup in Hcan, Hcan'. destruct (Hcan i c Hi) as (_ & _ & Hr), (Hcan' j c' Hj) as (_ & _ & Hr').
  assert (len (global_labels c') = len (global_labels c)) as Elen by by rewrite Hc, length_map. rewrite Elen in Hr'.
  eapply (canonical_result_invariant (len (global_labels c)) payloads payloads' _ (component_arcs c) (component_arcs c')); [| | |exact Hr|exact Hr'].
  - pose proof (len_component _ _ _ _ _ Hcomponents Hi). lia.
  - intros arc. by eapply component_arcs_in.
  - by apply (local_isomorphic i c j c').
Qed.

(** The graphs of the components are the same, with their multiplicities. *)
Lemma graphs_invariant : map (fun c => graph (alpha c)) components' ≡ₚ map (fun c => graph (alpha c)) components.
Proof using Harcs Hiso Hcomponents Hcomponents' Hn.
  assert (exists images, Forall2 (fun c c' => (exists j, components' !! j = Some c') /\ corresponds c c' /\ graph (alpha c') = graph (alpha c)) components images)
    as (images & Himages).
  { assert (forall c, In c components -> exists c', (exists j, components' !! j = Some c') /\ corresponds c c' /\ graph (alpha c') = graph (alpha c)) as H.
    { intros c [i Hi]%list_elem_of_In%list_elem_of_lookup. destruct (corresponding i c Hi) as (j & c' & Hj & Hc). exists c'.
      split_and!; [by exists j|done|by eapply corresponding_graph]. }
    clear -H. induction components as [|c cs IH]; [exists []; constructor|]. destruct (H c) as [c' Hc]; [by left|].
    destruct IH as [images IH]; [intros d Hd; apply H; by right|]. exists (c' :: images). by constructor. }
  assert (map (fun c => graph (alpha c)) components = map (fun c => graph (alpha c)) images) as ->.
  { clear -Himages. induction Himages as [|c c' cs cs' (_ & _ & E) _ IH]; cbn [map]; [done|]. by rewrite E, IH. }
  apply fmap_Permutation. symmetry. apply NoDup_Permutation.
  - apply NoDup_alt. intros i j c' Hi Hj.
    destruct (Forall2_lookup_r _ _ _ _ _ Himages Hi) as (c & Hci & _ & Hc & _), (Forall2_lookup_r _ _ _ _ _ Himages Hj) as (d & Hdj & _ & Hd & _).
    pose proof (components_nonempty _ _ _ _ Hcomponents) as Hne. rewrite Forall_lookup in Hne. specialize (Hne i c Hci).
    assert (exists x, x ∈ global_labels c) as [x Hx] by (destruct (global_labels c) as [|x ?]; [done|exists x; by left]).
    assert (rename x ∈ map rename (global_labels d)) as (y & E & Hy)%list_elem_of_fmap.
    { rewrite <- Hd, Hc. by apply (list_elem_of_fmap_2 rename). }
    apply (rename_inj _ _ _ _ _ _ Hiso) in E; [|exact (component_labels_in _ _ _ _ _ _ Hcomponents Hci Hx)|exact (component_labels_in _ _ _ _ _ _ Hcomponents Hdj Hy)]. subst y.
    apply (components_connected _ _ _ _ Hcomponents i j c d x x); done || reflexivity.
  - apply NoDup_alt. intros i j c' Hi Hj. pose proof (components_nonempty _ _ _ _ Hcomponents') as Hne. rewrite Forall_lookup in Hne.
    specialize (Hne i c' Hi).
    assert (exists x, x ∈ global_labels c') as [x Hx] by (destruct (global_labels c') as [|x ?]; [done|exists x; by left]).
    apply (components_connected _ _ _ _ Hcomponents' i j c' c' x x); done || reflexivity.
  - intros c'. split.
    + intros [i Hi]%list_elem_of_lookup. destruct (Forall2_lookup_r _ _ _ _ _ Himages Hi) as (c & _ & [j Hj] & _). by eapply list_elem_of_lookup_2.
    + intros [j Hj]%list_elem_of_lookup. pose proof (components_nonempty _ _ _ _ Hcomponents') as Hne. rewrite Forall_lookup in Hne.
      specialize (Hne j c' Hj). assert (exists y, y ∈ global_labels c') as [y Hy] by (destruct (global_labels c') as [|y ?]; [done|exists y; by left]).
      destruct (rename_onto n payloads payloads' rename arcs arcs' Hiso y) as (x & Hx & <-); [exact (component_labels_in _ _ _ _ _ _ Hcomponents' Hj Hy)|].
      destruct (component_of_label _ _ _ x Hcomponents Hx) as (i & c & Hi & Hxc).
      destruct (Forall2_lookup_l _ _ _ _ _ Himages Hi) as (d & Hd & [k Hk] & Hcd & _).
      assert (rename x ∈ global_labels d) as Hxd by (rewrite Hcd; by apply (list_elem_of_fmap_2 rename)).
      assert (j = k) as <-.
      { apply (components_connected _ _ _ _ Hcomponents' j k c' d (rename x) (rename x)); done || reflexivity. }
      rewrite Hj in Hk. injection Hk as <-. by eapply list_elem_of_lookup_2.
Qed.
End Component.
End Documents.
