(* ===== verification/IdentitiesSound.v ===== *)
(** * The manifest of the components and the identities of the labels *)

From S2P Require Import Prelude Bytes Order Hash Error Machine Limits Session Varint Schema Scan CanonicalTree AlphaOrder BlankGraph AnonymousRows Charged Neighborhoods Permutations AlphaSound AlphaInvariant BlankComponents ComponentsSound.

Section Classes.
Context (components : list BlankComponent).

Definition graph_of_index (i : Z) : bytes := match get_at components i with Some c => graph (alpha c) | None => [] end.
Definition valid_index (i : Z) : Prop := 0 <= i < len components.

Lemma graph_at_valid i : valid_index i -> graph_at components i = Ok (graph_of_index i).
Proof. intros Hi. unfold graph_at, graph_of_index, index_at. by destruct (get_at_is_Some components i Hi) as [c ->]. Qed.

(** The components in the order of their graphs. *)
Definition sorted_indexes : list Z := sort_by (component_key components) (seqZ 0 (len components)).

Lemma charged_sorted_indexes : charged (sorted_component_indexes components) (Ok sorted_indexes).
Proof. unfold sorted_component_indexes. charges. apply charged_ret. Qed.

Lemma sorted_indexes_valid i : i ∈ sorted_indexes -> valid_index i.
Proof. unfold sorted_indexes. rewrite sort_by_perm, elem_of_seqZ. unfold valid_index. lia. Qed.

Lemma sorted_indexes_graphs : StronglySorted ord_le (map graph_of_index sorted_indexes).
Proof.
  pose proof (sort_by_sorted (component_key components) (seqZ 0 (len components))) as Hs. fold sorted_indexes in Hs.
  assert (map (component_key components) sorted_indexes =
    map (fun i => (graph_of_index i, match get_at components i with Some c => global_labels c | None => [] end)) sorted_indexes) as E.
  { apply map_ext. intros i. unfold component_key, graph_of_index. by destruct (get_at components i). }
  rewrite E in Hs. by apply pair_sorted in Hs.
Qed.

(** A class: components of one graph, before components of other graphs. *)
Definition class_before (graph : bytes) (class rest : list Z) : Prop :=
  class <> [] /\ Forall (fun i => graph_of_index i = graph) class /\ forall i, head rest = Some i -> graph_of_index i <> graph.

Lemma class_length_spec g indexes : Forall valid_index indexes ->
  exists n, class_length components g indexes = Ok n /\ (n <= length indexes)%nat /\
    Forall (fun i => graph_of_index i = g) (take n indexes) /\ forall i, head (drop n indexes) = Some i -> graph_of_index i <> g.
Proof.
  induction 1 as [|i indexes Hi Hv (n & E & Hn & Hall & Hhead)]; cbn [class_length].
  - exists 0%nat. split_and!; [done|lia|constructor|done].
  - rewrite graph_at_valid by done. cbn [mbind outcome_mbind outcome_bind]. destruct (bytes_eqb (graph_of_index i) g) eqn:Eg.
    + apply bytes_eqb_eq in Eg. rewrite E. exists (S n). cbn. split_and!; [done|lia|by constructor|done].
    + apply bytes_eqb_neq in Eg. exists 0%nat. cbn. split_and!; [done|lia|constructor|]. by intros ? [= <-].
Qed.

(** The loop over the classes, with what is left of the indexes. *)
Lemma charged_for_each_class {X} (P : list Z -> X -> Prop) (body : bytes -> list Z -> X -> M Session X) fuel indexes x :
  Forall valid_index indexes -> (length indexes <= fuel)%nat -> P indexes x ->
  (forall g class rest x, Forall valid_index (class ++ rest) -> class_before g class rest -> P (class ++ rest) x ->
    exists x', charged (body g class x) (Ok x') /\ P rest x') ->
  exists x', charged (for_each_class fuel components body indexes x) (Ok x') /\ P [] x'.
Proof.
  intros Hv Hf HP Hbody. revert indexes x Hv Hf HP. induction fuel as [|fuel IH]; intros indexes x Hv Hf HP.
  - destruct indexes; [|cbn in Hf; lia]. exists x. split; [apply charged_ret|done].
  - destruct indexes as [|first rest]; [exists x; split; [apply charged_ret|done]|]. cbn [for_each_class].
    pose proof Hv as [Hfirst Hrest]%Forall_cons. cbn [length] in Hf.
    destruct (class_length_spec (graph_of_index first) rest Hrest) as (n & En & Hn & Hall & Hhead).
    destruct (Hbody (graph_of_index first) (first :: take n rest) (drop n rest) x) as (x1 & H1 & HP1).
    { cbn [app]. by rewrite take_drop. }
    { split_and!; [done|by constructor|done]. }
    { cbn [app]. by rewrite take_drop. }
    destruct (IH (drop n rest) x1) as (x2 & H2 & HP2); [by apply Forall_drop|rewrite length_drop; lia|done|].
    exists x2. split; [|done]. rewrite graph_at_valid by done. eapply charged_then; [by apply charged_lift|]. cbv beta. rewrite En.
    eapply charged_then; [by apply charged_lift|]. eapply charged_then; [exact H1|]. exact H2.
Qed.

(** ** The manifest *)

(** The runs of equal graphs, with their lengths. *)
Fixpoint runs (graphs : list bytes) : list (bytes * Z) :=
  match graphs with
  | [] => []
  | graph :: graphs =>
      match runs graphs with
      | (other, n) :: rest => if decide (graph = other) then (graph, n + 1) :: rest else (graph, 1) :: (other, n) :: rest
      | [] => [(graph, 1)]
      end
  end.

Lemma runs_head graphs g n rest : runs graphs = (g, n) :: rest -> head graphs = Some g.
Proof.
  destruct graphs as [|graph graphs]; cbn [runs head]; [done|]. destruct (runs graphs) as [|[other m] others]; [by intros [= -> _ _]|].
  case_decide; by intros [= -> _ _].
Qed.

Lemma runs_class g class rest : class <> [] -> Forall (eq g) class -> (forall other, head rest = Some other -> other <> g) ->
  runs (class ++ rest) = (g, len class) :: runs rest.
Proof.
  intros Hne Hall Hrest. induction Hall as [|h class <- Hall IH]; [done|]. clear Hne. cbn [app runs length].
  destruct class as [|h class].
  - cbn [app length]. destruct (runs rest) as [|[other m] others] eqn:E; [done|]. rewrite decide_False; [done|].
    apply runs_head in E. intros <-. by apply (Hrest g).
  - rewrite IH by done. rewrite decide_True by done. f_equal. f_equal. cbn [length]. lia.
Qed.

Definition run_bytes (run : bytes * Z) : bytes := frame run.1 ++ varint run.2.
Definition manifest_of (graphs : list bytes) : bytes :=
  let rs := runs (sort_by (fun graph => graph) graphs) in COMPONENT_MANIFEST_DOMAIN ++ varint (len rs) ++ concat (map run_bytes rs).

Lemma sorted_graphs : map graph_of_index sorted_indexes = sort_by (fun graph => graph) (map (fun c => graph (alpha c)) components).
Proof.
  apply (StronglySorted_unique ord_le); [apply sorted_indexes_graphs| |].
  - pose proof (sort_by_sorted (fun g : bytes => g) (map (fun c => graph (alpha c)) components)) as Hs. by rewrite map_id in Hs.
  - rewrite sort_by_perm. unfold sorted_indexes. rewrite sort_by_perm. apply reflexive_eq.
    apply list_eq. intros i. rewrite !list_lookup_fmap. destruct (decide (i < length components)%nat) as [Hi|Hi].
    + rewrite lookup_seqZ_lt by lia. cbn. destruct (lookup_lt_is_Some_2 components i Hi) as [c Hc]. rewrite Hc. cbn.
      unfold graph_of_index. rewrite Z.add_0_l. by rewrite (proj1 (get_at_nat _ _ _) Hc).
    + rewrite lookup_seqZ_ge by lia. by rewrite (proj2 (lookup_ge_None components i)) by lia.
Qed.

Lemma distinct_graphs_spec previous indexes : Forall valid_index indexes ->
  distinct_graphs components previous indexes =
  Ok (len (runs (map graph_of_index indexes)) - (if decide (previous <> None /\ previous = head (map graph_of_index indexes)) then 1 else 0)).
Proof.
  intros Hv. revert previous. induction Hv as [|i indexes Hi _ IH]; intros previous; cbn [distinct_graphs map head].
  - rewrite decide_False by (intros [H ->]; done). done.
  - rewrite graph_at_valid by done. cbn [mbind outcome_mbind outcome_bind]. rewrite IH. cbn [mbind outcome_mbind outcome_bind]. f_equal.
    cbn [runs]. set (rest := map graph_of_index indexes).
    assert (len (match runs rest with
                 | (other, n) :: others => if decide (graph_of_index i = other) then (graph_of_index i, n + 1) :: others else (graph_of_index i, 1) :: (other, n) :: others
                 | [] => [(graph_of_index i, 1)] end) =
            len (runs rest) - (if decide (Some (graph_of_index i) <> None /\ Some (graph_of_index i) = head rest) then 1 else 0) + 1) as ->.
    { destruct (runs rest) as [|[other n] others] eqn:E.
      - assert (rest = []) as ->; [|by rewrite decide_False by (intros [_ ?]; done)].
        destruct rest as [|g rest]; [done|]. cbn [runs] in E. destruct (runs rest) as [|[? ?] ?]; [done|]. by case_decide.
      - apply runs_head in E. rewrite E. destruct (decide (graph_of_index i = other)) as [->|Hne].
        + rewrite decide_True by done. cbn [length]. lia.
        + rewrite decide_False by (intros [_ [= ?]]; done). cbn [length]. lia. }
    destruct (decide (previous = Some (graph_of_index i))) as [->|Hne].
    + rewrite bool_decide_true, (decide_True (P:=Some (graph_of_index i) <> None /\ Some (graph_of_index i) = Some (graph_of_index i))) by done. lia.
    + rewrite bool_decide_false, (decide_False (P:=previous <> None /\ previous = Some (graph_of_index i))) by tauto. lia.
Qed.

Lemma charged_manifest : charged (component_manifest components) (Ok (manifest_of (map (fun c => graph (alpha c)) components))).
Proof.
  unfold component_manifest, manifest_of. rewrite <- sorted_graphs.
  assert (Forall valid_index sorted_indexes) as Hv by (apply Forall_forall; apply sorted_indexes_valid).
  eapply charged_then; [apply charged_sorted_indexes|]. cbv beta. rewrite distinct_graphs_spec by done.
  rewrite decide_False by (intros [? _]; done). rewrite Z.sub_0_r. eapply charged_then; [by apply charged_lift|]. cbv beta. ch. ch. ch.
  destruct (charged_for_each_class
    (fun rest written => COMPONENT_MANIFEST_DOMAIN ++ varint (len (runs (map graph_of_index sorted_indexes))) ++
       concat (map run_bytes (runs (map graph_of_index sorted_indexes))) = written ++ concat (map run_bytes (runs (map graph_of_index rest))))
    (fun graph class manifest =>
      framed ← append_frame graph;
      multiplicity ← lift (usize_u64 (len class) "native blank component multiplicity exceeds u64");
      multiplicity ← append_varint multiplicity;
      mret (manifest ++ framed ++ multiplicity)) (length sorted_indexes) sorted_indexes
    (COMPONENT_MANIFEST_DOMAIN ++ varint (len (runs (map graph_of_index sorted_indexes))))) as (written & Hw & HP); [done|done|by rewrite <- app_assoc| |].
  - intros g class rest x _ (Hne & Hall & Hhead) HP. eexists. split.
    + ch. ch. ch. apply charged_ret.
    + rewrite HP, map_app, (runs_class g).
      * rewrite length_map. cbn [map concat]. unfold run_bytes at 1. cbn [fst snd]. by rewrite <- !app_assoc.
      * by destruct class.
      * apply Forall_map. eapply Forall_impl; [exact Hall|]. by intros i ->.
      * intros other. destruct rest as [|i rest]; [done|]. cbn. intros [= <-]. by apply (Hhead i).
  - cbn [map runs concat] in HP. rewrite app_nil_r in HP. rewrite HP. exact Hw.
Qed.
End Classes.

(** The manifest does not depend on the order of the components. *)
Lemma manifest_of_Permutation graphs graphs' : graphs ≡ₚ graphs' -> manifest_of graphs = manifest_of graphs'.
Proof. intros Hp. unfold manifest_of. by rewrite (sort_by_Permutation _ _ Hp). Qed.

(** * The identities of the labels

    Every label gets the key of its component class, the ordinal of its
    component among those of the same graph, and its place in the canonical
    order; and distinct labels get distinct keys as long as the digests that
    are taken tell their preimages apart. *)

(** ** Keys *)

Definition class_of (graph : bytes) : bytes := digest [COMPONENT_CLASS_DOMAIN; frame graph].
Definition key_of (scope class : bytes) (ordinal index : Z) : bytes :=
  digest [ANONYMOUS_KEY_DOMAIN; scope; class; varint ordinal ++ varint index].

Lemma charged_component_class graph : charged (component_class graph) (Ok (class_of graph)).
Proof. unfold component_class, class_of. ch. apply charged_ret. Qed.

Lemma charged_anonymous_key scope class ordinal index : 0 <= ordinal -> 0 <= index ->
  charged (anonymous_key scope class ordinal index) (Ok (key_of scope class ordinal index)).
Proof. intros Ho Hi. unfold anonymous_key, key_of. ch. ch. ch. ch. apply charged_ret. Qed.

Lemma charged_identities_for_order count order scope class ordinal :
  0 <= count < USIZE_MAX -> order ≡ₚ seqZ 0 count -> 0 <= ordinal ->
  charged (identities_for_order count order scope class ordinal)
    (Ok (table count (fun i => {| scope := scope; key := key_of scope class ordinal (position order i) |}))).
Proof.
  intros Hn Hp Ho. unfold identities_for_order. charges.
  replace (replicate (Z.to_nat count) 0) with (replicate (length order) 0) by (rewrite Hp, length_seqZ; done).
  rewrite (invert_order_spec count Hn) by done. eapply charged_then; [by apply charged_lift|]. cbv beta. charges.
  assert (forall items done, Forall (fun i => 0 <= i) items ->
    charged (for_each (fun index result =>
      key ← anonymous_key scope class ordinal index;
      mret (result ++ [{| scope := scope; key := key |}])) items done)
      (Ok (done ++ map (fun i => {| scope := scope; key := key_of scope class ordinal i |}) items))) as Hloop.
  { induction items as [|i items IH]; intros done Hi; cbn [for_each map]; [rewrite app_nil_r; apply charged_ret|].
    apply Forall_cons in Hi as [Hi Hitems]. eapply charged_then; [eapply charged_then; [by apply charged_anonymous_key|apply charged_ret]|].
    specialize (IH (done ++ [{| scope := scope; key := key_of scope class ordinal i |}]) Hitems). by rewrite <- app_assoc in IH. }
  eapply charged_eq; [apply Hloop|].
  - apply Forall_map, Forall_forall. intros i _. apply position_nonneg.
  - cbn [app]. by rewrite map_table.
Qed.

(** ** Binding labels *)

Lemma position_nth_app (before : list Z) label after : NoDup (before ++ label :: after) -> position (before ++ label :: after) label = len before.
Proof. intros Hnd. apply position_middle. intros Hin%list_elem_of_In. apply NoDup_app in Hnd as (_ & Hd & _). apply (Hd label Hin). by left. Qed.

Lemma bind_labels_spec n labels local f : NoDup labels -> (forall x, x ∈ labels -> 0 <= x < n) -> len local = len labels ->
  (forall x, x ∈ labels -> f x = None) ->
  bind_labels labels local (table n f) = Ok (table n (fun x => if decide (x ∈ labels) then get_at local (position labels x) else f x)).
Proof.
  intros Hnd Hin Hl Hfree. unfold bind_labels.
  assert (forall before after, labels = before ++ after ->
    ofor_each (fun label '(index, result) =>
      identity ← ok_or (get_at local index) (protocol "native blank component identity is missing");
      slot ← ok_or (get_at result label) (protocol "native blank component label is invalid");
      match slot with
      | Some _ => Err (protocol "native blank component identity is duplicated")
      | None => Ok (index + 1, <[Z.to_nat label := Some identity]> result)
      end) after (len before, table n (fun x => if decide (x ∈ before) then get_at local (position labels x) else f x)) =
    Ok (len labels, table n (fun x => if decide (x ∈ labels) then get_at local (position labels x) else f x))) as Hloop.
  { intros before after. revert before. induction after as [|label after IH]; intros before E; cbn [ofor_each].
    - rewrite app_nil_r in E. by subst before.
    - assert (position labels label = len before) as Epos by (rewrite E; apply position_nth_app; by rewrite <- E).
      assert (label ∈ labels) as Hlab by (rewrite E; apply elem_of_app; right; by left).
      assert (label ∉ before) as Hnot.
      { rewrite E in Hnd. apply NoDup_app in Hnd as (_ & Hd & _). intros H. apply (Hd label H). by left. }
      destruct (get_at_is_Some local (len before)) as [identity Ei].
      { rewrite Hl, E, length_app. cbn [length]. lia. }
      rewrite Ei. cbn [ok_or mbind outcome_mbind outcome_bind]. rewrite get_at_table by by apply Hin.
      cbn [ok_or mbind outcome_mbind outcome_bind]. rewrite decide_False by done. rewrite Hfree by done.
      cbn [outcome_bind]. rewrite insert_table by by apply Hin. specialize (IH (before ++ [label])).
      rewrite length_app, Nat2Z.inj_add in IH. cbn [length] in IH. change (Z.of_nat 1) with 1 in IH.
      rewrite <- IH by by rewrite <- app_assoc. clear IH.
      match goal with |- context [table n ?g] => enough (table n g = table n (fun x => if decide (x ∈ before ++ [label]) then get_at local (position labels x) else f x)) as -> by reflexivity end.
      apply table_ext. intros x _.
      destruct (decide (x = label)) as [->|Hne].
      + rewrite (decide_True (P:=label ∈ before ++ [label])) by (apply elem_of_app; right; by left). by rewrite Epos, Ei.
      + assert (x ∈ before ++ [label] <-> x ∈ before) as Hiff by (rewrite elem_of_app, list_elem_of_singleton; tauto).
        repeat case_decide; tauto || done. }
  assert (table n f = table n (fun x => if decide (x ∈ @nil Z) then get_at local (position labels x) else f x)) as ->.
  { apply table_ext. intros x _. by rewrite decide_False by apply not_elem_of_nil. }
  specialize (Hloop [] labels eq_refl). change (len (@nil Z)) with 0 in Hloop. by rewrite Hloop.
Qed.

Section Identities.
Context (n : Z) (payloads : list bytes) (arcs : list BlankArc) (components : list BlankComponent) (document_scope : bytes).
Hypothesis Hn : 0 <= n < USIZE_MAX.
Hypothesis Hcomponents : components_of n payloads arcs components.

(** The place of a component among those of its graph. *)
Definition class_ordinal (k : Z) : Z :=
  position (filter (fun j => graph_of_index components j = graph_of_index components k) (sorted_indexes components)) k.

Definition identity_of (k : Z) (c : BlankComponent) (x : Z) : Identity :=
  {| scope := document_scope;
     key := key_of document_scope (class_of (graph (alpha c))) (class_ordinal k) (position (order (alpha c)) (position (global_labels c) x)) |}.

Lemma canonical_order_perm k c : get_at components k = Some c -> order (alpha c) ≡ₚ seqZ 0 (len (global_labels c)).
Proof using Hcomponents Hn.
  intros [_ Hk]%get_at_Some. pose proof (components_canonical _ _ _ _ Hcomponents) as H. rewrite Forall_lookup in H.
  destruct (H _ _ Hk) as (_ & _ & (colors & rounds & classes & Es & Hc & [Hcand _] & _)).
  destruct Hcand as (choices & Hsame & ->). rewrite (concat_same_classes _ _ Hsame), (classes_cover _ _ _ Hc).
  unfold indexes_by_color. rewrite sort_by_perm.
  pose proof (len_component n payloads arcs components _ c Hcomponents Hk) as Hlen.
  assert (0 <= len (global_labels c) < USIZE_MAX) as Hr by lia.
  destruct (stable_colors_rounds _ _ _ Hr _ _ _ _ _ Es) as [_ ->]. done.
Qed.

(** The labels of one component. *)
Lemma component_one k k' c c' x : get_at components k = Some c -> get_at components k' = Some c' ->
  x ∈ global_labels c -> x ∈ global_labels c' -> k = k'.
Proof using Hcomponents.
  intros [? Hk]%get_at_Some [? Hk']%get_at_Some Hx Hx'.
  assert (Z.to_nat k = Z.to_nat k') as E; [|lia].
  apply (components_connected _ _ _ _ Hcomponents _ _ c c' x x Hk Hk' Hx Hx'). reflexivity.
Qed.

(** The slots of the components that are bound, those of the others free. *)
Definition bound (rest : list Z) (f : Z -> option Identity) : Prop :=
  forall k c x, get_at components k = Some c -> x ∈ global_labels c ->
    f x = if decide (k ∈ rest) then None else Some (identity_of k c x).

Lemma charged_bind_component g k rest f ordinal :
  NoDup (k :: rest) -> valid_index components k -> graph_of_index components k = g -> bound (k :: rest) f -> ordinal = class_ordinal k ->
  exists f', charged (component ← lift (index_at components k);
      local ← identities_for_order (len (global_labels component)) (order (alpha component)) document_scope (class_of g) ordinal;
      result ← lift (bind_labels (global_labels component) local (table n f));
      mret (ordinal + 1, result)) (Ok (ordinal + 1, table n f')) /\ bound rest f'.
Proof using Hcomponents Hn.
  intros Hnd Hk Hg Hb ->. destruct (get_at_is_Some components k Hk) as [c Hc].
  assert (graph (alpha c) = g) as Hgc by (rewrite <- Hg; unfold graph_of_index; by rewrite Hc).
  pose proof Hc as [_ Hc']%get_at_Some. pose proof (len_component n payloads arcs components _ c Hcomponents Hc') as Hlen.
  eexists. split.
  - unfold index_at. rewrite Hc. eapply charged_then; [by apply charged_lift|]. cbv beta.
    eapply charged_then; [apply charged_identities_for_order; [lia|by eapply canonical_order_perm|apply position_nonneg]|]. cbv beta.
    rewrite bind_labels_spec.
    + eapply charged_then; [by apply charged_lift|]. apply charged_ret.
    + by eapply component_sorted.
    + intros x Hx. by eapply component_labels_in.
    + apply len_table. lia.
    + intros x Hx. rewrite (Hb k c x Hc Hx). rewrite decide_True; [done|by left].
  - intros k' c' x Hk' Hx. cbv beta. apply NoDup_cons in Hnd as [Hnot _]. destruct (decide (x ∈ global_labels c)) as [Hxc|Hxc].
    + pose proof (component_one k k' c c' x Hc Hk' Hxc Hx) as <-. rewrite Hc in Hk'. injection Hk' as <-.
      rewrite (decide_False (P:=k ∈ rest)) by done.
      assert (0 <= position (global_labels c) x < len (global_labels c)) as Hpos.
      { pose proof (position_spec _ x (component_sorted n payloads arcs components _ c Hcomponents Hc') Hx) as H. by apply get_at_lt in H. }
      rewrite get_at_table by done. unfold identity_of. by rewrite Hgc.
    + rewrite (Hb k' c' x Hk' Hx). assert (k' <> k) as Hne by (intros ->; rewrite Hc in Hk'; injection Hk' as <-; done).
      destruct (decide (k' ∈ rest)) as [H|H]; [rewrite decide_True; [done|by right]|].
      rewrite decide_False; [done|]. intros [->|?]%elem_of_cons; done.
Qed.

Lemma charged_bind_class g class rest f :
  NoDup (class ++ rest) -> Forall (valid_index components) class -> Forall (fun k => graph_of_index components k = g) class ->
  (forall before k after, class = before ++ k :: after -> class_ordinal k = len before) -> bound (class ++ rest) f ->
  exists f' m, charged (for_each (fun component_index '(ordinal, result) =>
      component ← lift (index_at components component_index);
      local ← identities_for_order (len (global_labels component)) (order (alpha component)) document_scope (class_of g) ordinal;
      result ← lift (bind_labels (global_labels component) local result);
      mret (ordinal + 1, result)) class (0, table n f)) (Ok (m, table n f')) /\ bound rest f'.
Proof using Hcomponents Hn.
  intros Hnd Hv Hg Hord. change 0 with (len (@nil Z)).
  assert (forall before after f, class = before ++ after -> bound (after ++ rest) f ->
    exists f' m, charged (for_each (fun component_index '(ordinal, result) =>
      component ← lift (index_at components component_index);
      local ← identities_for_order (len (global_labels component)) (order (alpha component)) document_scope (class_of g) ordinal;
      result ← lift (bind_labels (global_labels component) local result);
      mret (ordinal + 1, result)) after (len before, table n f)) (Ok (m, table n f')) /\ bound rest f') as Hloop; [|by apply Hloop].
  intros before after. revert before. induction after as [|k after IH]; intros before f0 E Hb; cbn [for_each].
  - exists f0, (len before). split; [apply charged_ret|done].
  - rewrite E in Hnd, Hv, Hg. apply Forall_app in Hv as [_ [Hk _]%Forall_cons], Hg as [_ [Hgk _]%Forall_cons].
    rewrite <- app_assoc in Hnd. apply NoDup_app in Hnd as (_ & _ & Hnd).
    destruct (charged_bind_component g k (after ++ rest) f0 (len before)) as (f1 & H1 & Hb1); [done..|by rewrite (Hord before k after)|].
    destruct (IH (before ++ [k]) f1) as (f' & m & H2 & Hb2); [by rewrite <- app_assoc|done|].
    exists f', m. split; [|done]. eapply charged_then; [exact H1|]. rewrite length_app, Nat2Z.inj_add in H2. exact H2.
Qed.

(** A class of the sorted components holds all components of its graph. *)
Lemma class_is_filter before g class rest :
  sorted_indexes components = before ++ class ++ rest -> class_before components g class rest ->
  (forall i j, i ∈ before -> j ∈ class ++ rest -> graph_of_index components i <> graph_of_index components j) ->
  filter (fun j => graph_of_index components j = g) (sorted_indexes components) = class /\
  forall i j, i ∈ class -> j ∈ rest -> graph_of_index components i <> graph_of_index components j.
Proof.
  clear. intros E (Hne & Hall & Hhead) Hbefore. rewrite Forall_forall in Hall.
  assert (forall j, j ∈ rest -> graph_of_index components j <> g) as Hrest.
  { intros j Hj. pose proof (sorted_indexes_graphs components) as Hs. rewrite E, !map_app in Hs.
    apply StronglySorted_app in Hs as (_ & _ & Hs). apply StronglySorted_app in Hs as (Hcross & _ & Hs).
    destruct rest as [|i rest]; [by apply not_elem_of_nil in Hj|]. specialize (Hhead i eq_refl).
    destruct class as [|k class]; [done|]. assert (graph_of_index components k = g) as Hkg by (apply Hall; by left).
    cbn [map] in Hs, Hcross. apply StronglySorted_inv in Hs as [_ Hi]. rewrite List.Forall_forall in Hi.
    assert (ord_le g (graph_of_index components i)) as Hgi by (rewrite <- Hkg; apply Hcross; by left).
    apply elem_of_cons in Hj as [->|Hj]; [done|]. intros Ej. apply Hhead. apply (anti_symm ord_le); [|done].
    rewrite <- Ej. apply Hi, in_map. by apply list_elem_of_In. }
  split.
  - rewrite E, !filter_app.
    assert (forall l, (forall j, j ∈ l -> graph_of_index components j <> g) -> filter (fun j => graph_of_index components j = g) l = []) as Hnone.
    { induction l as [|j l IH]; intros H; [done|]. rewrite filter_cons_False by (apply H; by left). apply IH. intros i Hi. apply H. by right. }
    rewrite (Hnone before), (Hnone rest), app_nil_r; cbn [app].
    + clear -Hall. induction class as [|k class IH]; [done|]. rewrite filter_cons_True by (apply Hall; by left). f_equal. apply IH. intros i Hi. apply Hall. by right.
    + done.
    + intros j Hj. destruct class as [|k class]; [done|]. rewrite <- (Hall k) by by left. apply Hbefore; [done|]. apply elem_of_app. left. by left.
  - intros i j Hi Hj. rewrite (Hall i Hi). intros Eg. by apply (Hrest j Hj).
Qed.

Lemma charged_identities : exists f,
  charged (identities_for_components n components document_scope) (Ok (table n f)) /\
  forall k c x, get_at components k = Some c -> x ∈ global_labels c -> f x = Some (identity_of k c x).
Proof using Hcomponents Hn.
  assert (NoDup (sorted_indexes components)) as Hnd by (unfold sorted_indexes; rewrite sort_by_perm; apply NoDup_seqZ).
  assert (Forall (valid_index components) (sorted_indexes components)) as Hv by (apply Forall_forall; apply sorted_indexes_valid).
  destruct (charged_for_each_class components
    (fun rest result => exists before f, sorted_indexes components = before ++ rest /\ result = table n f /\ bound rest f /\
       forall i j, i ∈ before -> j ∈ rest -> graph_of_index components i <> graph_of_index components j)
    (fun graph class result =>
      component_class ← component_class graph;
      '(_, result) ← for_each (fun component_index '(ordinal, result) =>
          component ← lift (index_at components component_index);
          local ← identities_for_order (len (global_labels component)) (order (alpha component)) document_scope component_class ordinal;
          result ← lift (bind_labels (global_labels component) local result);
          mret (ordinal + 1, result)) class (0, result);
      mret result) (length (sorted_indexes components)) (sorted_indexes components) (table n (fun _ => None)))
    as (result & Hloop & before & f & E & -> & Hb & _); [done|done| | |].
  - exists [], (fun _ => None). split_and!; [done|done| |by intros ? ? ?%not_elem_of_nil]. intros k c x Hk _.
    rewrite decide_True; [done|]. unfold sorted_indexes. rewrite sort_by_perm. apply elem_of_seqZ. apply get_at_lt in Hk. lia.
  - intros g class rest result Hvc Hclass (before & f & E & -> & Hb & Hsep).
    destruct (class_is_filter before g class rest E Hclass Hsep) as [Hfilter Hsep'].
    assert (NoDup (class ++ rest)) as Hndc by (rewrite E in Hnd; by apply NoDup_app in Hnd as (_ & _ & ?)).
    pose proof Hclass as (_ & Hall & _). pose proof Hvc as [Hvclass _]%Forall_app.
    destruct (charged_bind_class g class rest f Hndc Hvclass Hall) as (f' & m & H1 & Hb'); [|done|].
    { intros bef k aft Ec. unfold class_ordinal. rewrite Ec, Forall_app, Forall_cons in Hall. destruct Hall as (_ & -> & _).
      rewrite Hfilter, Ec. apply position_nth_app. rewrite <- Ec. by apply NoDup_app in Hndc as (? & _ & _). }
    exists (table n f'). split.
    + eapply charged_then; [apply charged_component_class|]. cbv beta. eapply charged_then; [exact H1|]. apply charged_ret.
    + exists (before ++ class), f'. split_and!; [by rewrite <- app_assoc|done|done|].
      intros i j [Hi|Hi]%elem_of_app Hj; [|by apply Hsep']. apply Hsep; [done|]. apply elem_of_app. by right.
  - exists f. assert (forall k c x, get_at components k = Some c -> x ∈ global_labels c -> f x = Some (identity_of k c x)) as Hf.
    { intros k c x Hk Hx. rewrite (Hb k c x Hk Hx). by rewrite decide_False by apply not_elem_of_nil. }
    split; [|done]. unfold identities_for_components. charges.
    eapply charged_then; [apply charged_sorted_indexes|]. cbv beta.
    replace (replicate (Z.to_nat n) (@None Identity)) with (table n (fun _ : Z => @None Identity)).
    2:{ apply list_eq. intros i. rewrite lookup_table. symmetry. case_decide; [apply lookup_replicate_2; lia|]. apply lookup_ge_None. rewrite length_replicate. lia. }
    eapply charged_then; [exact Hloop|]. cbv beta.
    assert (existsb (fun slot => negb (is_some slot)) (table n f) = false) as ->.
    { apply not_true_iff_false. intros (slot & Hin & Hs)%existsb_exists. apply in_map_iff in Hin as (x & <- & Hx%list_elem_of_In%elem_of_seqZ).
      destruct (component_of_label n payloads arcs components x Hcomponents) as (i & c & Hi & Hxc); [lia|].
      apply get_at_nat in Hi. by rewrite (Hf _ c x Hi Hxc) in Hs. }
    eapply charged_then; [apply (charged_ensure_not false)|]. apply charged_ret.
Qed.
End Identities.
