(* ===== verification/ScopingSound.v ===== *)
(** * Scoping a document, without charges

    What [scope_anonymous_rows_v2] computes from the components that its rows
    stand for: the labels in order, a new identity for each label, and the rows
    with their individuals renamed. *)

From S2P Require Import Prelude Bytes Order Hash Error Machine Atomic Limits Cancel Session Varint Schema Scan Component ScanSound ScanComplete Decimal Encode Grammar Denotes Parses CanonicalTree AlphaOrder BlankGraph AnonymousRows Charged TreeSound Renaming BlankArcs Neighborhoods Permutations AlphaSound AlphaInvariant BlankComponents ComponentsSound IdentitiesSound.

(** ** Computations under given limits *)

(** In a session of the given limits that was charged a given amount at least,
    [m] obtains a value with [P], or fails for want of resources or with [E]. *)
Definition obtains {A} (l : Limits * Z) (E : NativeError -> Prop) (m : M Session A) (P : A -> Prop) : Prop :=
  forall s, session_ok s -> limits s = l.1 /\ l.2 <= accounted_bytes s -> wpx m (fun a s' => P a /\ proceeds s s') (fun e _ => resource_error e \/ E e) s.

Lemma obtains_bind {A B} l E (m : M Session A) (f : A -> M Session B) P Q :
  obtains l E m P -> (forall a, P a -> obtains l E (f a) Q) -> obtains l E (m ≫= f) Q.
Proof.
  intros Hm Hf s Hs Hl. xstep. eapply wpx_mono; [by apply Hm|..].
  - intros a s' [HP Hp]. pose proof Hp as [[Hs' Hl'] Ha]. destruct Hl as [Hl Hfloor].
    eapply wpx_mono; [apply (Hf a HP); [done|split; [congruence|lia]]|..].
    + intros b s'' [HQ Hp']. split; [exact HQ|]. by eapply proceeds_trans.
    + by intros e s''.
  - by intros e s'.
Qed.

Lemma obtains_ret {A} l E (a : A) (P : A -> Prop) : P a -> obtains l E (mret a) P.
Proof. intros HP s Hs _. xstep. split; [done|by apply proceeds_refl]. Qed.

Lemma obtains_mono {A} l E (m : M Session A) (P Q : A -> Prop) : obtains l E m P -> (forall a, P a -> Q a) -> obtains l E m Q.
Proof. intros Hm HPQ s Hs Hl. eapply wpx_mono; [by apply Hm|..]; [|done]. intros a s' [? ?]. split; [by apply HPQ|done]. Qed.

Lemma obtains_charged {A} l (E : NativeError -> Prop) (m : M Session A) o (P : A -> Prop) :
  charged m o -> match o with Ok a => P a | Err e => E e | Panic => False end -> obtains l E m P.
Proof.
  intros Hm HP s Hs _. eapply wpx_mono; [by apply Hm|..].
  - intros a s' [-> Hp]. by split.
  - intros e s' [He| ->]; [by left|by right].
Qed.

(** After a computation of a known value. *)
Lemma obtains_then {A B} l E (m : M Session A) (f : A -> M Session B) a Q :
  charged m (Ok a) -> obtains l E (f a) Q -> obtains l E (m ≫= f) Q.
Proof. intros Hm Hf. eapply obtains_bind; [by apply (obtains_charged _ _ _ _ (eq a) Hm)|]. by intros ? <-. Qed.

Lemma obtains_limits {B} l E (f : Session -> M Session B) Q : (forall s, limits s = l.1 -> l.2 <= accounted_bytes s -> obtains l E (f s) Q) -> obtains l E (get ≫= f) Q.
Proof. intros Hf s Hs [Hl Ha]. xstep. by apply Hf. Qed.

Lemma obtains_guard {A} l E c e (f : unit -> M Session A) Q : (c = true -> resource_error e \/ E e) ->
  (c = false -> obtains l E (f tt) Q) -> obtains l E (ensure_not c e ≫= f) Q.
Proof. intros He Hf s Hs Hl. xstep. apply wpx_ensure_not; intros Ec; [by apply He|]. by apply Hf. Qed.

(** A value with [P], or a limit. *)
Definition limited {A} (o : outcome A) (P : A -> Prop) : Prop :=
  match o with Ok a => P a | Err e => code e = "NATIVE_WIRE_LIMIT"%string | Panic => False end.

Lemma limited_bind {A B} (o : outcome A) (f : A -> outcome B) P Q :
  limited o P -> (forall a, P a -> limited (f a) Q) -> limited (o ≫= f) Q.
Proof. unfold limited. destruct o as [a|e|]; [intros HP H; by apply H|done|done]. Qed.

Lemma limited_ok_or {A} (o : option A) msg (P : A -> Prop) : (forall a, o = Some a -> P a) -> limited (ok_or o (limit msg)) P.
Proof. destruct o; [|done]. intros H. by apply H. Qed.

Lemma limited_mono {A} (o : outcome A) (P Q : A -> Prop) : limited o P -> (forall a, P a -> Q a) -> limited o Q.
Proof. destruct o; [|done|done]. intros H HPQ. by apply HPQ. Qed.

Lemma obtains_lift {A B} l E (o : outcome A) (f : A -> M Session B) P Q :
  limited o P -> (forall a, P a -> obtains l E (f a) Q) -> obtains l E (lift o ≫= f) Q.
Proof.
  intros Ho Hf. eapply obtains_bind; [|exact Hf]. intros s Hs _. apply wpx_lift. unfold limited in Ho.
  destruct o as [a|e|]; [split; [done|by apply proceeds_refl]|left; by apply resource_limit_code|done].
Qed.

(** ** The components of a document *)

Section Documents.
Context (limits : Limits).

(** The rows of a document stand for these components. *)
Definition documents (rows : list (list bytes)) (docs : list (list component)) : Prop :=
  Forall2 (Forall2 (canonical_row (from_limits limits))) rows docs.

Definition row_fits (row : bytes) : Prop := is_bytes row /\ len row <= USIZE_MAX.

Hypothesis depth_ok : 0 <= max_nesting_depth limits.
Hypothesis terms_ok : 0 <= max_terms limits <= U64_MAX.

(** A row is parsed to the tree of its component, or refused. *)
Lemma charged_parse_row row : row_fits row -> exists o, charged (parse_row limits row) o /\
  ((exists c, canonical_row (from_limits limits) row c /\ o = Ok (tree c)) \/
   (exists e, o = Err e /\ forall c, ~ canonical_row (from_limits limits) row c)).
Proof using depth_ok terms_ok.
  intros [Hb Hl].
  assert (forall category, fst (scan_canonical row (from_limits limits)) <> Panic /\
    (fst (scan_canonical row (from_limits limits)) = Ok category <-> exists c, canonical_row (from_limits limits) row c /\ component_category c = category)) as Hscan.
  { intros category. apply scan_canonical_cases; try done; [apply from_limits_ok; lia|cbn; lia]. }
  unfold parse_row. destruct (fst (scan_canonical row (from_limits limits))) as [category|e|] eqn:E.
  - destruct (proj1 (proj2 (Hscan category)) eq_refl) as (c & Hc & _). exists (Ok (tree c)).
    split; [|left; by exists c]. pose proof Hc as [-> Hwf _ _]. charges. eapply charged_then; [by apply charged_lift|].
    apply charged_parse_root; [by eapply well_formed_readable|done|done].
  - exists (Err e). split.
    + charges. eapply charged_eq; [apply (charged_bind _ _ (Err e) (fun _ => Panic)); [by apply charged_lift|done]|done].
    + right. exists e. split; [done|]. intros c Hc. destruct (Hscan (component_category c)) as [_ Hd'].
      discriminate (proj2 Hd' (ex_intro _ c (conj Hc eq_refl))).
  - by destruct (Hscan CIri) as [? _].
Qed.

(** The same for a loop that collects what its items are read as. *)
Lemma charged_read_all {X C Y} (body : X -> list Y -> M Session (list Y)) (f : C -> Y) (R : X -> C -> Prop) items read :
  (forall x, In x items -> exists o, (forall result, charged (body x result) (y ← o; Ok (result ++ [y]))) /\
    ((exists c, R x c /\ o = Ok (f c)) \/ (exists e, o = Err e /\ forall c, ~ R x c))) ->
  exists o, charged (for_each body items read) o /\
    ((exists cs, Forall2 R items cs /\ o = Ok (read ++ map f cs)) \/ (exists e, o = Err e /\ forall cs, ~ Forall2 R items cs)).
Proof using.
  revert read. induction items as [|x items IH]; intros read Hm; cbn [for_each].
  - exists (Ok read). split; [apply charged_ret|]. left. exists []. by rewrite app_nil_r.
  - destruct (Hm x) as (o & Ho & [(c & Hc & ->)|(e & -> & Hno)]); [by left|..].
    + destruct (IH (read ++ [f c])) as (o' & Ho' & Hcases'); [intros y Hy; apply Hm; by right|].
      exists o'. split; [eapply charged_then; [exact (Ho read)|exact Ho']|].
      destruct Hcases' as [(cs & Hcs & ->)|(e & -> & Hno)].
      * left. exists (c :: cs). split; [by constructor|]. by rewrite <- app_assoc.
      * right. exists e. split; [done|]. intros [|d cs] H; inversion H; subst. by eapply Hno.
    + exists (Err e). split.
      * eapply charged_eq; [apply (charged_bind _ _ (Err e) (fun _ => Panic)); [exact (Ho read)|done]|done].
      * right. exists e. split; [done|]. intros [|d cs] H; inversion H; subst. by eapply Hno.
Qed.

Lemma obtains_parsed (E : NativeError -> Prop) floor rows : Forall (Forall row_fits) rows ->
  (forall e, (forall docs, ~ documents rows docs) -> E e) ->
  obtains (limits, floor) E (parse_collections rows) (fun parsed => exists docs, documents rows docs /\ parsed = map (map tree) docs).
Proof using depth_ok terms_ok.
  intros Hrows HE. unfold parse_collections.
  destruct (charged_read_all (fun source parsed =>
      reserve_items 56 (len source);;
      allocate "native anonymous root allocation failed";;
      target ← for_each (fun row target => node ← parse_row limits row; mret (target ++ [node])) source [];
      mret (parsed ++ [target]))
    (map tree) (Forall2 (canonical_row (from_limits limits))) rows []) as (o & Ho & Hcases).
  { intros source Hin%list_elem_of_In. rewrite Forall_forall in Hrows. specialize (Hrows source Hin).
    destruct (charged_read_all (fun row target => node ← parse_row limits row; mret (target ++ [node])) tree
      (canonical_row (from_limits limits)) source []) as (o & Ho & Hcases).
    - intros row Hr%list_elem_of_In. rewrite Forall_forall in Hrows. destruct (charged_parse_row row (Hrows row Hr)) as (o & Ho & Hc).
      exists o. split; [|done]. intros result. apply charged_bind; [done|]. intros; apply charged_ret.
    - exists o. split; [|done]. intros result. charges. apply charged_bind; [done|]. intros; apply charged_ret. }
  apply obtains_limits. intros s Es _. cbn [fst] in Es. rewrite Es. eapply obtains_charged; [exact Ho|].
  destruct Hcases as [(docs & Hd & ->)|(e & -> & Hno)]; [by exists docs|]. by apply HE.
Qed.
End Documents.

(** ** The labels of a document *)

Definition label_of (i : Identity) : option bytes := match provisional_label i with Ok label => label | _ => None end.

(** The anonymous individuals of a document. *)
Definition individuals (docs : list (list component)) : list Identity := concat (map identities_of (concat docs)).

(** No individual has a provisional scope and a key that frames no label. *)
Definition labelled (docs : list (list component)) : Prop :=
  Forall (fun i => exists label, provisional_label i = Ok label) (individuals docs).

Definition labels_of (docs : list (list component)) : list bytes :=
  vec_dedup (sort_by (fun label => label) (omap label_of (individuals docs))).

(** What the rows of a document give to the algorithms. *)
Definition ready (c : component) : Prop := scopable c /\ canonical_sets c /\ keys_fit c.

Lemma is_bytes_concat_map {A} (f : A -> bytes) l : is_bytes (concat (map f l)) -> Forall (fun x => is_bytes (f x)) l.
Proof. induction l as [|x l IH]; cbn [map concat]; [constructor|]. intros [H1 H2]%is_bytes_app. constructor; [done|by apply IH]. Qed.

Lemma len_concat_map {A} (f : A -> bytes) l x : x ∈ l -> len (f x) <= len (concat (map f l)).
Proof.
  induction 1 as [x l|x y l _ IH]; cbn [map concat]; rewrite length_app; lia.
Qed.

(** The keys of a row are part of it. *)
Lemma keys_in_row : forall c, is_bytes (encode c) -> Forall (fun i => is_bytes (key i) /\ len (key i) <= len (encode c)) (identities_of c).
Proof.
  assert (forall cs (f : component -> bytes), Forall (fun c => is_bytes (encode c) -> Forall (fun i => is_bytes (key i) /\ len (key i) <= len (encode c)) (identities_of c)) cs ->
    is_bytes (concat (map f cs)) -> (forall c, is_bytes (f c) -> is_bytes (encode c)) -> (forall c, len (encode c) <= len (f c)) ->
    Forall (fun i => is_bytes (key i) /\ len (key i) <= len (concat (map f cs))) (concat (map identities_of cs))) as Hmembers.
  { intros cs f IH Hb Hf Hl. apply Forall_concat_map. apply is_bytes_concat_map in Hb. rewrite Forall_forall in *. intros c Hc.
    eapply Forall_impl; [exact (IH c Hc (Hf c (Hb c Hc)))|]. intros i [? ?]. split; [done|].
    pose proof (len_concat_map f cs c Hc). specialize (Hl c). lia. }
  assert (forall x, is_bytes (frame x) -> is_bytes x) as Hframe by (by intros x [_ ?]%is_bytes_app).
  intros c. induction c as [t ps IH] using component_nested. intros Hb. destruct (Z.eq_dec t 3) as [->|Ht].
  - cbn [identities_of Z.eqb Pos.eqb]. destruct ps as [|[] [|[| |k| | | | |] [|]]]; try apply Forall_nil_2.
    apply Forall_cons. split; [|apply Forall_nil_2]. cbn [key encode map concat encode_part] in *. rewrite app_nil_r in *.
    apply is_bytes_app in Hb as [_ Hb]. apply is_bytes_app in Hb as [_ Hb]. apply Forall_cons in Hb as [_ Hb].
    split; [by apply Hframe|]. pose proof (length_frame k). rewrite !length_app. cbn [length]. lia.
  - rewrite identities_of_parts by done. cbn [encode] in *. apply is_bytes_app in Hb as [_ Hb]. apply is_bytes_concat_map in Hb.
    apply Forall_concat_map. rewrite Forall_forall in *. intros p Hp. specialize (IH p Hp). specialize (Hb p Hp). cbv beta in Hb.
    pose proof (len_concat_map encode_part ps p Hp) as Hlen.
    assert (Forall (fun i => is_bytes (key i) /\ len (key i) <= len (encode_part p)) (identities_of_part p)) as H.
    2: { eapply Forall_impl; [exact H|]. intros i [? ?]. split; [done|]. rewrite length_app. lia. }
    destruct p as [|text|data|value|kind|c|cs|cs]; cbn [identities_of_part encode_part on_part] in *; try apply Forall_nil_2.
    + apply Forall_cons in Hb as [_ Hb]. pose proof (length_frame (encode c)). eapply Forall_impl; [apply IH, Hframe, Hb|].
      intros i [? ?]. split; [done|]. cbn [length]. lia.
    + apply Forall_cons in Hb as [_ Hb]. apply is_bytes_app in Hb as [_ Hb].
      eapply Forall_impl; [apply (Hmembers cs (fun c => frame (encode c)) IH Hb)|].
      * intros c. apply Hframe.
      * intros c. pose proof (length_frame (encode c)). lia.
      * intros i [? ?]. split; [done|]. cbn [length]. rewrite length_app. lia.
    + apply Forall_cons in Hb as [_ Hb]. apply is_bytes_app in Hb as [_ Hb].
      eapply Forall_impl; [apply (Hmembers cs (fun c => 1 :: frame (encode c)) IH Hb)|].
      * intros c Hc. apply Forall_cons in Hc as [_ Hc]. by apply Hframe.
      * intros c. pose proof (length_frame (encode c)). cbn [length]. lia.
      * intros i [? ?]. split; [done|]. cbn [length]. rewrite length_app. lia.
Qed.

Lemma documents_ready limits rows docs : Forall (Forall row_fits) rows -> documents limits rows docs -> Forall ready (concat docs).
Proof.
  intros Hrows Hd. induction Hd as [|source doc rows docs Hdoc _ IH]; cbn [concat]; [constructor|].
  apply Forall_cons in Hrows as [Hsource Hrows]. apply Forall_app. split; [|by apply IH]. clear IH.
  induction Hdoc as [|row c source doc Hc _ IH]; [constructor|]. apply Forall_cons in Hsource as [[Hb Hl] Hsource].
  constructor; [|by apply IH]. destruct Hc as [-> Hwf _ _]. split_and!; [by eapply well_formed_scopable|by eapply well_formed_canonical_sets|].
  eapply Forall_impl; [by apply keys_in_row|]. intros i [? ?]. split; [done|lia].
Qed.

(** Collecting labels. *)
Lemma add_labels ids labels : Forall (fun i => exists label, provisional_label i = Ok label) ids ->
  ofor_each add_label ids labels = Ok (labels ++ omap label_of ids).
Proof.
  intros H. revert labels. induction H as [|i ids [label Hi] _ IH]; intros labels; cbn [ofor_each omap list_omap]; [by rewrite app_nil_r|].
  assert (add_label i labels = Ok (labels ++ match label with Some l => [l] | None => [] end)) as -> by (unfold add_label; by rewrite Hi).
  cbn [mbind outcome_mbind outcome_bind]. rewrite IH. unfold label_of at 2. rewrite Hi.
  destruct label; [by rewrite <- app_assoc|by rewrite app_nil_r].
Qed.

Lemma add_labels_fails ids labels : Forall (fun i => provisional_label i <> Panic) ids ->
  (exists e, ofor_each add_label ids labels = Err e) \/ Forall (fun i => exists label, provisional_label i = Ok label) ids.
Proof.
  intros H. revert labels. induction H as [|i ids Hi _ IH]; intros labels; cbn [ofor_each]; [by right|].
  destruct (provisional_label i) as [label|e|] eqn:E; [| |done].
  2: { left. exists e. assert (add_label i labels = Err e) as -> by (unfold add_label; by rewrite E). done. }
  assert (add_label i labels = Ok (labels ++ match label with Some l => [l] | None => [] end)) as -> by (unfold add_label; by rewrite E).
  cbn [mbind outcome_mbind outcome_bind]. destruct (IH (labels ++ match label with Some l => [l] | None => [] end)) as [[e He]|H]; [left; by exists e|].
  right. constructor; [by exists label|done].
Qed.

Lemma charged_document_labels docs : Forall ready (concat docs) -> exists o, charged (document_labels (map (map tree) docs)) o /\
  ((labelled docs /\ labels_of docs <> [] /\ o = Ok (labels_of docs)) \/
   (exists e, o = Err e /\ (labelled docs -> labels_of docs = []))).
Proof.
  intros Hready. assert (charged (for_each collect_labels (concat (map (map tree) docs)) []) (ofor_each add_label (individuals docs) [])) as H.
  { unfold individuals. rewrite ofor_each_concat, <- concat_map. apply charged_for_each_map. eapply Forall_impl; [exact Hready|].
    intros c (? & _ & ?) labels. by apply charged_collect_labels. }
  unfold document_labels.
  destruct (add_labels_fails (individuals docs) []) as [[e He]|Hlabelled].
  { unfold individuals. apply Forall_concat_map. eapply Forall_impl; [exact Hready|]. intros c (_ & _ & Hk).
    eapply Forall_impl; [exact Hk|]. intros i [? ?]. by apply provisional_label_runs. }
  - rewrite He in H. exists (Err e). split; [eapply charged_eq; [apply (charged_bind _ _ (Err e) (fun _ => Panic)); [exact H|done]|done]|].
    right. exists e. split; [done|]. intros Hl. by rewrite add_labels in He.
  - rewrite add_labels in H by done. cbn [app] in H. fold (labels_of docs).
    destruct (decide (labels_of docs = [])) as [E|E].
    + set (none := protocol "native anonymous scoping received no provisional blank labels"). exists (Err none).
      split; [|right; exists none; by split]. eapply charged_then; [exact H|]. cbv zeta. fold (labels_of docs).
      rewrite bool_decide_true by done.
      eapply charged_eq; [apply (charged_bind _ _ (Err none) (fun _ => Panic)); [apply (charged_ensure_not true)|done]|done].
    + exists (Ok (labels_of docs)). split; [|by left]. eapply charged_then; [exact H|]. cbv zeta. fold (labels_of docs).
      apply charged_pass; [by rewrite bool_decide_false|apply charged_ret].
Qed.

(** The index of a label. *)
Lemma binary_search_Some labels l index : binary_search labels l = Some index -> get_at labels index = Some l.
Proof.
  unfold binary_search. destruct (list_find _ labels) as [[i x]|] eqn:E; [|done]. cbn. intros [= <-].
  apply list_find_Some in E as (Hi & -> & _). by apply get_at_nat.
Qed.

Lemma binary_search_In labels l : l ∈ labels -> is_Some (binary_search labels l).
Proof.
  intros Hl. unfold binary_search. destruct (list_find_elem_of (fun other => other = l) labels l) as [[i x] ->]; [done|done|].
  by eexists.
Qed.

Lemma labels_of_spec docs : NoDup (labels_of docs) /\ forall l, l ∈ labels_of docs <-> exists i, i ∈ individuals docs /\ label_of i = Some l.
Proof.
  unfold labels_of. set (ls := omap label_of (individuals docs)).
  destruct (vec_dedup_spec (fun l : bytes => l) (sort_by (fun l => l) ls)) as [Hs Hin]; [by intros|by apply sort_by_sorted|]. split.
  - rewrite map_id in Hs. by apply ascending_NoDup.
  - intros l. rewrite list_elem_of_In, Hin, In_sort_by, <- list_elem_of_In. subst ls. by rewrite list_elem_of_omap.
Qed.

(** ** The arcs of the labels *)

Section Labelled.
Context (labels : list bytes) (label_of : Identity -> option bytes).

(** The labels of a component, by index. *)
Definition label_indexes (c : component) : list Z := map (label_index labels) (omap label_of (identities_of c)).

(** Every occurrence of a label is visited once. *)
Lemma occurrences_labels c path : scopable c -> map fst (occurrences labels label_of c path) ≡ₚ label_indexes c.
Proof.
  assert (forall {A} (f : A -> list Identity) l, map (label_index labels) (omap label_of (concat (map f l))) =
    concat (map (fun x => map (label_index labels) (omap label_of (f x))) l)) as Hconcat.
  { intros A f l. induction l as [|x l IH]; cbn [map concat]; [done|]. by rewrite omap_app, map_app, IH. }
  revert path. induction c as [t ps IH] using component_nested. intros path Hc. unfold label_indexes. destruct (Z.eq_dec t 3) as [->|Ht].
  - destruct Hc as [[_ Hc]|[? _]]; [|done]. destruct ps as [|[] [|[| |k| | | | |] [|]]]; try done.
    cbn [occurrences identities_of Z.eqb Pos.eqb omap list_omap]. by destruct (label_of _).
  - apply scopable_parts in Hc as (_ & (name & names & Hledger & Hn) & _ & Hps); [|done].
    rewrite identities_of_parts, Hconcat by done. cbn [occurrences]. rewrite (proj2 (Z.eqb_neq t 3) Ht), Hledger. clear Hledger.
    revert names Hn. induction ps as [|p ps IHps]; intros [|name' names] Hn; try done. cbn [map zip_with concat length] in *.
    apply Forall_cons in IH as [IHp IH]. apply Forall_cons in Hps as [Hp Hps]. rewrite map_app. apply Permutation_app; [|apply IHps; [done|done|lia]].
    clear IHps IH Hps. assert (forall cs (paths : component -> bytes), Forall (fun c => forall path, scopable c -> map fst (occurrences labels label_of c path) ≡ₚ label_indexes c) cs ->
      Forall scopable cs -> map fst (concat (map (fun c => occurrences labels label_of c (paths c)) cs)) ≡ₚ concat (map label_indexes cs)) as Hmembers.
    { intros cs paths H Hs. induction H as [|c cs Hc _ IHcs]; cbn [map concat]; [done|]. apply Forall_cons in Hs as [Hsc Hs].
      rewrite map_app. apply Permutation_app; [by apply Hc|by apply IHcs]. }
    destruct p as [|text|data|value|kind|c|cs|cs]; cbn [occurrences_part identities_of_part on_part scopable_part] in *; try done.
    + by apply IHp.
    + fold (occurrences_part labels label_of (PSet cs) name' path). rewrite occurrences_set, Hconcat. apply fold_and_Forall in Hp.
      rewrite (Hmembers (visit_order cs) (fun c => join_path (join_path path name') (set_step (skeleton c)))).
      * rewrite <- !flat_map_concat_map. apply Permutation_flat_map. unfold visit_order. apply sort_by_perm.
      * rewrite !Forall_forall in *. intros c Hc%list_elem_of_In%In_sort_by%list_elem_of_In. by apply IHp.
      * rewrite !Forall_forall in *. intros c Hc%list_elem_of_In%In_sort_by%list_elem_of_In. by apply Hp.
    + fold (occurrences_part labels label_of (PSequence cs) name' path). rewrite occurrences_sequence, Hconcat. apply fold_and_Forall in Hp.
      assert (forall step : nat -> bytes, map fst (concat (imap (fun i c => occurrences labels label_of c (step i)) cs)) ≡ₚ concat (map label_indexes cs))
        as Hsteps; [|exact (Hsteps (fun i => join_path (join_path path name') (decimal (Z.of_nat i))))].
      induction IHp as [|c cs Hc _ IHcs]; intros step; cbn [map concat]; [done|]. rewrite imap_cons. cbn [concat].
      apply Forall_cons in Hp as [Hsc Hp]. rewrite map_app. apply Permutation_app; [by apply Hc|].
      apply (IHcs Hp (fun i => step (S i))).
Qed.

Lemma arcs_of_root_in payload c arc : In arc (arcs_of_root labels label_of payload c) ->
  arc_payload arc = payload /\ arc_source arc ∈ map fst (root_occurrences labels label_of c) /\
  forall target, arc_target arc = Some target -> target ∈ map fst (root_occurrences labels label_of c).
Proof.
  unfold arcs_of_root. generalize (root_occurrences labels label_of c). intros os [H|H]%in_app_iff.
  - apply in_map_iff in H as (o & <- & Ho%list_elem_of_In). cbn. split; [done|]. split; [by apply list_elem_of_fmap_2|done].
  - induction os as [|o os IH]; [done|]. cbn [binary_arcs map] in *. apply in_app_iff in H as [H|H].
    + apply in_map_iff in H as (o' & <- & Ho%list_elem_of_In). cbn. split; [done|]. split; [by left|]. intros ? [= <-].
      right. by apply list_elem_of_fmap_2.
    + destruct (IH H) as (? & ? & Ht). split; [done|]. split; [by right|]. intros t Et. right. by apply Ht.
Qed.

Lemma document_arcs_in roots arc : In arc (document_arcs labels label_of roots) ->
  exists i c, roots !! i = Some c /\ In arc (arcs_of_root labels label_of (Z.of_nat i) c).
Proof.
  unfold document_arcs. intros (l & Hl & Harc)%in_concat. apply list_elem_of_In, elem_of_lookup_imap in Hl as (i & c & -> & Hc). by exists i, c.
Qed.

(** The arcs are in the order of their roots. *)
Lemma document_arcs_sorted roots : StronglySorted Z.le (map arc_payload (document_arcs labels label_of roots)).
Proof.
  unfold document_arcs. assert (forall k, StronglySorted Z.le (map arc_payload (concat (imap (fun i c => arcs_of_root labels label_of (Z.of_nat (k + i)) c) roots))) /\
    Forall (fun p => Z.of_nat k <= p) (map arc_payload (concat (imap (fun i c => arcs_of_root labels label_of (Z.of_nat (k + i)) c) roots)))) as H; [|apply (H 0%nat)].
  induction roots as [|c roots IH]; intros k; [split; constructor|]. rewrite imap_cons. cbn [concat]. rewrite map_app.
  assert (imap ((fun i c => arcs_of_root labels label_of (Z.of_nat (k + i)) c) ∘ S) roots = imap (fun i c => arcs_of_root labels label_of (Z.of_nat (S k + i)) c) roots) as ->.
  { apply imap_ext. intros i x _. cbn. by replace (k + S i)%nat with (S (k + i)) by lia. }
  destruct (IH (S k)) as [Hs Hge]. rewrite Nat.add_0_r.
  assert (Forall (eq (Z.of_nat k)) (map arc_payload (arcs_of_root labels label_of (Z.of_nat k) c))) as Hk.
  { apply Forall_map, Forall_forall. intros arc Harc%list_elem_of_In. by destruct (arcs_of_root_in _ _ _ Harc) as [-> _]. }
  split.
  - induction Hk as [|p ps <- Hps IHps]; cbn [app]; [done|]. constructor; [done|]. apply Forall_app. split.
    + eapply Forall_impl; [exact Hps|]. by intros p <-.
    + eapply Forall_impl; [exact Hge|]. intros p Hp. cbv beta in Hp. lia.
  - apply Forall_app. split; (eapply Forall_impl; [eassumption|]; intros p Hp; cbv beta in Hp; lia).
Qed.
End Labelled.

Section Document.
Context (docs : list (list component)).
Hypothesis Hready : Forall ready (concat docs).
Hypothesis Hlabelled : labelled docs.

Notation labels := (labels_of docs).

(** The arcs of a document and the skeletons of its rows. *)
Definition arcs_of : list BlankArc := document_arcs labels label_of (concat docs).
Definition skeletons : list bytes := map skeleton (concat docs).

Lemma individual_of c i : c ∈ concat docs -> i ∈ identities_of c -> i ∈ individuals docs.
Proof using.
  intros Hc Hi. apply list_elem_of_In, in_concat. exists (identities_of c). split; [|by apply list_elem_of_In].
  apply in_map, list_elem_of_In, Hc.
Qed.

Lemma document_known : Forall (known_labels labels label_of) (concat docs).
Proof using Hlabelled.
  apply Forall_forall. intros c Hc. apply Forall_forall. intros i Hi. pose proof (individual_of c i Hc Hi) as Hd.
  unfold labelled in Hlabelled. rewrite Forall_forall in Hlabelled. destruct (Hlabelled i Hd) as [label E]. unfold label_of. rewrite E.
  split; [done|]. intros l ->. apply binary_search_In, labels_of_spec. exists i. split; [done|]. unfold label_of. by rewrite E.
Qed.

Lemma label_index_in l : l ∈ labels -> get_at labels (label_index labels l) = Some l.
Proof using.
  intros Hl. destruct (binary_search_In labels l Hl) as [index E]. unfold label_index. rewrite E. by apply binary_search_Some.
Qed.

Lemma label_index_at x l : get_at labels x = Some l -> x = label_index labels l.
Proof using.
  intros Hl. assert (l ∈ labels) as Hin by (apply elem_of_get_at; by exists x).
  pose proof (label_index_in l Hin) as Hl'. apply get_at_Some in Hl as [Hx Hl], Hl' as [Hy Hl'].
  destruct (labels_of_spec docs) as [Hnd _]. pose proof (NoDup_lookup _ _ _ _ Hnd Hl Hl'). lia.
Qed.

Lemma root_labels c x : c ∈ concat docs -> x ∈ map fst (root_occurrences labels label_of c) ->
  exists i l, i ∈ identities_of c /\ label_of i = Some l /\ x = label_index labels l /\ l ∈ labels.
Proof using Hready.
  intros Hc. rewrite Forall_forall in Hready. destruct (Hready c Hc) as (Hs & _). unfold root_occurrences.
  rewrite (occurrences_labels labels label_of c _ Hs). unfold label_indexes.
  intros (l & -> & (i & Hi & El)%list_elem_of_omap)%list_elem_of_fmap. exists i, l. split_and!; [done..|].
  apply labels_of_spec. exists i. split; [by eapply individual_of|done].
Qed.

Lemma arcs_fit arc : In arc arcs_of -> arc_in skeletons (len labels) arc.
Proof using Hready.
  intros (k & c & Hk & Harc)%document_arcs_in. destruct (arcs_of_root_in _ _ _ _ _ Harc) as (Ep & Hs & Ht).
  assert (c ∈ concat docs) as Hc by by eapply list_elem_of_lookup_2.
  assert (forall x, x ∈ map fst (root_occurrences labels label_of c) -> 0 <= x < len labels) as Hin.
  { intros x Hx. destruct (root_labels c x Hc Hx) as (i & l & _ & _ & -> & Hl). apply label_index_in, get_at_lt in Hl. done. }
  split; [by apply Hin|]. split; [|intros t Et; by apply Hin, Ht].
  rewrite Ep. unfold skeletons. rewrite length_map. apply lookup_lt_Some in Hk. lia.
Qed.

Lemma label_has_arc x : 0 <= x < len labels -> exists arc, In arc arcs_of /\ arc_source arc = x.
Proof using Hready Hlabelled.
  intros Hx. destruct (get_at_is_Some labels x Hx) as [l Hl].
  assert (l ∈ labels) as Hin by (apply elem_of_get_at; by exists x). pose proof Hin as Hin'.
  apply labels_of_spec in Hin as (i & Hi & El). unfold individuals in Hi.
  apply list_elem_of_In, in_concat in Hi as (is_ & His & Hi). apply in_map_iff in His as (c & <- & Hc%list_elem_of_In).
  assert (x ∈ map fst (root_occurrences labels label_of c)) as Ho.
  { pose proof Hready as Hall. rewrite Forall_forall in Hall. destruct (Hall c Hc) as (Hs & _). unfold root_occurrences.
    rewrite (occurrences_labels labels label_of c _ Hs). unfold label_indexes. apply list_elem_of_fmap. exists l. split.
    - by apply label_index_at.
    - apply list_elem_of_omap. exists i. split; [by apply list_elem_of_In|done]. }
  apply list_elem_of_fmap in Ho as (o & -> & Ho). apply list_elem_of_lookup in Hc as [k Hk].
  exists {| arc_source := o.1; role := o.2; arc_target := None; arc_payload := Z.of_nat k |}. split; [|done].
  unfold arcs_of, document_arcs. apply in_concat. exists (arcs_of_root labels label_of (Z.of_nat k) c). split.
  - apply list_elem_of_In, elem_of_lookup_imap. by exists k, c.
  - unfold arcs_of_root. apply in_app_iff. left. apply in_map_iff. exists o. split; [done|by apply list_elem_of_In].
Qed.

Context (components : list BlankComponent).
Hypothesis Hcomponents : components_of (len labels) skeletons arcs_of components.

(** Every component has a root, and its arcs are in the order of the roots. *)
Lemma component_arcs_roots c : c ∈ components ->
  component_arcs c <> [] /\ StronglySorted Z.le (map arc_payload (component_arcs c)) /\
  Forall (fun p => 0 <= p < len (concat docs)) (map arc_payload (component_arcs c)).
Proof using Hready Hlabelled Hcomponents.
  intros Hc. pose proof (components_canonical _ _ _ _ Hcomponents) as Hcan. rewrite Forall_forall in Hcan.
  destruct (Hcan c Hc) as (_ & -> & _). clear Hcan. unfold local_arcs. rewrite map_map. cbn [localized arc_payload].
  pose proof (components_nonempty _ _ _ _ Hcomponents) as Hne. rewrite Forall_forall in Hne. specialize (Hne c Hc). split; [|split].
  - destruct (global_labels c) as [|x ls] eqn:El; [done|].
    assert (0 <= x < len labels) as Hx.
    { assert (x ∈ concat (map global_labels components)) as Hin.
      { apply list_elem_of_In, in_concat. exists (global_labels c). split; [by apply in_map, list_elem_of_In|]. rewrite El. by left. }
      rewrite (components_cover _ _ _ _ Hcomponents), elem_of_seqZ in Hin. lia. }
    destruct (label_has_arc x Hx) as (arc & Harc & Es). intros E%map_eq_nil.
    apply (filter_nil_not_elem_of (fun arc => arc_source arc ∈ x :: ls) arcs_of arc); [done| |by apply list_elem_of_In].
    rewrite Es. by left.
  - pose proof (document_arcs_sorted labels label_of (concat docs)) as Hs. fold arcs_of in Hs.
    revert Hs. generalize arcs_of, (global_labels c). clear. intros arcs ls Hs. induction arcs as [|arc arcs IH]; [constructor|]. inversion Hs as [|? ? Hs' Hall]; subst. rewrite filter_cons. case_decide; [|by apply IH].
    cbn [map]. constructor; [by apply IH|]. rewrite Forall_map, Forall_forall in Hall |- *. intros y [_ Hy]%list_elem_of_filter. by apply Hall.
  - apply Forall_map, Forall_forall. intros arc [_ Harc]%list_elem_of_filter. cbn.
    apply list_elem_of_In, arcs_fit in Harc as (_ & Hp & _). unfold skeletons in Hp. by rewrite length_map in Hp.
Qed.
End Document.

(** ** The metrics *)

Lemma limited_usize_u64 v msg : limited (usize_u64 v msg) (eq v).
Proof. unfold usize_u64, try_from, ok_or. by destruct (_ <=? _). Qed.
Lemma limited_measure_add a b msg : limited (measure_add a b msg) (fun _ => True).
Proof. unfold measure_add, ok_or. by destruct (checked_add _ _ _). Qed.

(** [lim] runs a fallible step whose value does not matter. *)
Ltac lim := first
  [ eapply limited_bind; [apply limited_measure_add|intros ? _]
  | eapply limited_bind; [apply limited_usize_u64|intros ? <-] ].

Lemma component_roots_spec arcs bound :
  arcs <> [] -> StronglySorted Z.le (map arc_payload arcs) -> Forall (fun p => 0 <= p < bound) (map arc_payload arcs) ->
  limited (component_roots arcs) (fun '(first, last, _) => exists a b, first = Some a /\ last = Some b /\ 0 <= a <= b /\ b < bound).
Proof.
  intros Hne Hs Hb. unfold component_roots.
  assert (forall arcs first previous count,
    StronglySorted Z.le (map arc_payload arcs) -> Forall (fun p => 0 <= p < bound) (map arc_payload arcs) ->
    (first = None /\ previous = None /\ arcs <> [] \/
     exists a b, first = Some a /\ previous = Some b /\ 0 <= a <= b /\ b < bound /\ Forall (Z.le b) (map arc_payload arcs)) ->
    limited (ofor_each (fun arc '(first, previous, count) =>
      let payload := arc_payload arc in
      fail_if (match previous with Some p => payload <? p | None => false end)
        (protocol "native blank component roots are not in document order");;
      if bool_decide (previous = Some payload) then Ok (first, previous, count) else
      count ← ok_or (checked_add U64_MAX count 1) (limit "native blank root count overflow");
      Ok (match first with Some _ => first | None => Some payload end, Some payload, count)) arcs (first, previous, count))
    (fun '(first, last, _) => exists a b, first = Some a /\ last = Some b /\ 0 <= a <= b /\ b < bound)) as Hgen.
  2: { apply Hgen; [done|done|by left]. }
  clear. intros arcs. induction arcs as [|arc arcs IH]; intros first previous count Hs Hb Hcases; cbn [ofor_each].
  - destruct Hcases as [(_ & _ & ?)|(a & b & -> & -> & ? & ? & _)]; [done|]. cbn. by exists a, b.
  - inversion Hs as [|? ? Hs' Hall]; subst. apply Forall_cons in Hb as [Hp Hb]. cbv zeta.
    assert (match previous with Some p => arc_payload arc <? p | None => false end = false) as ->.
    { destruct Hcases as [(_ & -> & _)|(a & b & _ & -> & _ & _ & Hle)]; [done|]. apply Forall_cons in Hle as [? _]. apply Z.ltb_ge. lia. }
    eapply (limited_bind _ _ (fun '(first', previous', _) => exists a b, first' = Some a /\ previous' = Some b /\ 0 <= a <= b /\ b < bound /\
      Forall (Z.le b) (map arc_payload arcs))); [|intros [[first' previous'] count'] H; apply IH; [done|done|by right]].
    cbn [fail_if mbind outcome_mbind outcome_bind]. case_bool_decide as E.
    + cbn [limited]. destruct Hcases as [(_ & -> & _)|(a & b & -> & -> & ? & ? & Hle)]; [done|].
      apply Forall_cons in Hle as [_ Hle]. by exists a, b.
    + eapply (limited_bind _ _ (fun _ => True)); [by apply limited_ok_or|]. intros count' _. cbn [limited].
      destruct Hcases as [(-> & -> & _)|(a & b & -> & -> & ? & ? & Hle)].
      * exists (arc_payload arc), (arc_payload arc). split_and!; try done; lia.
      * apply Forall_cons in Hle as [? _]. exists a, (arc_payload arc). split_and!; try done; lia.
Qed.

(** The counts of a document in its metrics. *)
Definition counts (m : AnonymousCanonicalMetricsV2) : Z * Z * Z := (m_component_count m, m_total_labels m, m_total_arcs m).

Definition interval_events (intervals : list (Z * Z)) : list (Z * Z) := concat (map (fun '(first, after) => [(first, 1); (after, -1)]) intervals).

Lemma component_metrics_spec c m events bound :
  component_arcs c <> [] -> StronglySorted Z.le (map arc_payload (component_arcs c)) ->
  Forall (fun p => 0 <= p < bound) (map arc_payload (component_arcs c)) ->
  limited (component_metrics c m events) (fun '(m', events') => counts m' = counts m /\
    exists first after, first < after /\ events' = events ++ [(first, 1); (after, -1)]).
Proof.
  intros Hne Hs Hb. unfold component_metrics. do 8 lim.
  eapply limited_bind; [by apply component_roots_spec|]. intros [[first last] count] (lo & hi & -> & -> & Hab & Hbb).
  cbn [ok_or or_panic mbind outcome_mbind outcome_bind]. rewrite (proj2 (Z.leb_le lo hi)) by lia.
  eapply (limited_bind _ _ (fun _ => True)); [by apply limited_ok_or|]. intros span _. lim.
  eapply (limited_bind _ _ (eq (hi + 1))); [apply limited_ok_or; by intros v [-> _]%checked_add_Some|]. intros after <-.
  cbn. split; [done|]. exists lo, (hi + 1). split; [lia|done].
Qed.

(** The sum of the changes up to a position. *)
Definition activity (p : Z) (events : list (Z * Z)) : Z := sum (map snd (filter (fun e => e.1 <= p) events)).

Lemma activity_app p xs ys : activity p (xs ++ ys) = activity p xs + activity p ys.
Proof. unfold activity. by rewrite filter_app, map_app, sum_app. Qed.

Lemma activity_all p events : Forall (fun e => e.1 <= p) events -> activity p events = sum (map snd events).
Proof.
  unfold activity. induction 1 as [|e events He _ IH]; [done|]. rewrite filter_cons, decide_True by done. cbn [map sum foldr] in *. 
  unfold sum in *. cbn [foldr]. lia.
Qed.

Lemma activity_none p events : Forall (fun e => p < e.1) events -> activity p events = 0.
Proof.
  unfold activity. induction 1 as [|e events He _ IH]; [done|]. by rewrite filter_cons, decide_False by lia.
Qed.

Lemma activity_Permutation p xs ys : xs ≡ₚ ys -> activity p xs = activity p ys.
Proof.
  intros H. unfold activity. assert (forall l l' : list Z, l ≡ₚ l' -> sum l = sum l') as Hsum.
  { unfold sum. induction 1; cbn [foldr]; lia. }
  apply Hsum. by rewrite H.
Qed.

Lemma activity_intervals p intervals : Forall (fun '(first, after) => first < after) intervals -> 0 <= activity p (interval_events intervals).
Proof.
  unfold interval_events. induction 1 as [|[first after] intervals Hlt _ IH]; [done|]. cbn [map concat]. rewrite activity_app.
  assert (0 <= activity p [(first, 1); (after, -1)]); [|lia]. unfold activity. rewrite !filter_cons, filter_nil. cbn [fst].
  repeat case_decide; unfold sum; cbn [map snd foldr]; lia.
Qed.

Lemma intervals_total intervals : sum (map snd (interval_events intervals)) = 0.
Proof.
  unfold interval_events. induction intervals as [|[first after] intervals IH]; [done|]. cbn [map concat]. rewrite map_app, sum_app, IH. done.
Qed.

Lemma position_delta_spec p events delta :
  limited (position_delta p events delta) (fun '(d, rest) => exists pre, events = pre ++ rest /\ Forall (fun e => e.1 = p) pre /\
    d = delta + sum (map snd pre) /\ match rest with (q, _) :: _ => q <> p | [] => True end).
Proof.
  revert delta. induction events as [|[q change] events IH]; intros delta; cbn [position_delta].
  - exists []. split_and!; [done|constructor|unfold sum; cbn; lia|done].
  - destruct (Z.eqb_spec q p) as [->|Hq].
    + eapply (limited_bind _ _ (eq (delta + change))).
      { apply limited_ok_or. unfold checked_add_i64. intros v. by destruct (_ && _); [intros [= <-]|]. }
      intros d <-. eapply limited_mono; [apply IH|]. intros [d rest] (pre & -> & Hpre & -> & Hrest).
      exists ((p, change) :: pre). split_and!; [done|by constructor|unfold sum; cbn [map snd foldr]; lia|done].
    + cbn. exists []. split_and!; [done|constructor|unfold sum; cbn; lia|done].
Qed.

Lemma sweep_spec fuel events active maximum :
  StronglySorted (fun e e' : Z * Z => e.1 <= e'.1) events -> (length events <= fuel)%nat -> (forall p, 0 <= active + activity p events) ->
  limited (sweep fuel events active maximum) (fun '(a, _) => a = active + sum (map snd events)).
Proof.
  revert events active maximum. induction fuel as [|fuel IH]; intros [|[p change] events] active maximum Hs Hf Hact; cbn [sweep length] in *; try lia.
  1,2: cbn; unfold sum; cbn; lia.
  pose proof (position_delta_spec p ((p, change) :: events) 0) as Hdelta.
  eapply limited_bind; [exact Hdelta|]. intros [delta rest] (pre & E & Hpre & -> & Hrest).
  assert (Forall (fun e => p < e.1) rest) as Hafter.
  { destruct rest as [|[q c] rest]; [constructor|]. destruct pre as [|[q' c'] pre]; [by injection E as <- <- <-|].
    injection E as <- <- E. inversion Hs as [|? ? Hs' Hall]; subst. rewrite Forall_app, Forall_cons in Hall. destruct Hall as (_ & Hq & _). cbn [fst] in Hq.
    assert (p < q) by lia. constructor; [done|].
    assert (StronglySorted (fun e e' : Z * Z => e.1 <= e'.1) ((q, c) :: rest)) as Hs''.
    { clear -Hs'. induction pre as [|e pre IH]; [done|]. apply IH. by inversion Hs'. }
    inversion Hs'' as [|? ? _ Hall]; subst. eapply Forall_impl; [exact Hall|]. intros [q' c''] Hq'. cbn in *. lia. }
  eapply (limited_bind _ _ (eq (active + (0 + sum (map snd pre))))).
  { apply limited_ok_or. unfold checked_add_i64. intros v. by destruct (_ && _); [intros [= <-]|]. }
  intros active' <-. rewrite E in Hact.
  assert (forall q, p <= q -> activity q pre = sum (map snd pre)) as Hpreq.
  { intros q Hq. apply activity_all. eapply Forall_impl; [exact Hpre|]. intros e He. cbv beta in He. lia. }
  assert (0 <= active + sum (map snd pre)) as Hnow.
  { specialize (Hact p). rewrite activity_app, Hpreq, (activity_none p rest) in Hact by (done || lia). lia. }
  rewrite (proj2 (Z.ltb_ge _ _)) by lia. cbn [fail_if mbind outcome_mbind outcome_bind].
  eapply limited_mono; [apply IH|].
  - clear -Hs E. rewrite E in Hs. clear E. induction pre as [|e pre IH]; [done|]. apply IH. by inversion Hs.
  - assert (pre <> []) as Hne.
    { intros ->. cbn [app] in E. rewrite <- E in Hrest. done. }
    apply (f_equal length) in E. cbn [length] in E. rewrite length_app in E. destruct pre; [done|]. cbn [length] in E. lia.
  - intros q. destruct (Z.le_gt_cases p q) as [Hq|Hq].
    + specialize (Hact q). rewrite activity_app, Hpreq in Hact by done. lia.
    + rewrite (activity_none q rest); [lia|]. eapply Forall_impl; [exact Hafter|]. intros e He. cbv beta in He. lia.
  - intros [a m] ->. rewrite E, map_app, sum_app. lia.
Qed.

Lemma obtains_metrics l E components total_labels total_arcs bound :
  Forall (fun c => component_arcs c <> [] /\ StronglySorted Z.le (map arc_payload (component_arcs c)) /\
    Forall (fun p => 0 <= p < bound) (map arc_payload (component_arcs c))) components ->
  obtains l E (anonymous_metrics components total_labels total_arcs) (fun m => counts m = (len components, total_labels, total_arcs)).
Proof.
  intros Hcs. unfold anonymous_metrics.
  do 3 (eapply obtains_lift; [apply limited_usize_u64|intros ? <-]).
  eapply (obtains_lift _ _ _ _ (fun n => 0 <= n)).
  { apply limited_ok_or. intros n [-> _]%checked_mul_Some. lia. }
  intros events_count Hn.
  eapply obtains_then; [by apply charged_reserve_items|]. eapply obtains_then; [apply charged_allocate|].
  assert (forall cs m events, Forall (fun c => component_arcs c <> [] /\ StronglySorted Z.le (map arc_payload (component_arcs c)) /\
    Forall (fun p => 0 <= p < bound) (map arc_payload (component_arcs c))) cs ->
    limited (ofor_each (fun c '(m, events) => component_metrics c m events) cs (m, events)) (fun '(m', events') => counts m' = counts m /\
      exists intervals, Forall (fun '(first, after) => first < after) intervals /\ events' = events ++ interval_events intervals)) as Hloop.
  { clear. induction cs as [|c cs IH]; intros m events Hcs; cbn [ofor_each].
    - split; [done|]. exists []. split; [constructor|]. by rewrite app_nil_r.
    - apply Forall_cons in Hcs as [(H1 & H2 & H3) Hcs]. eapply limited_bind; [by eapply component_metrics_spec|].
      intros [m' events'] (Em & first & after & Hlt & ->). eapply limited_mono; [by apply IH|].
      intros [m'' events''] (Em' & intervals & Hi & ->). split; [congruence|]. exists ((first, after) :: intervals).
      split; [by constructor|]. by rewrite <- app_assoc. }
  eapply obtains_lift; [by apply Hloop|]. intros [m events] (Em & intervals & Hi & ->). cbn [app].
  do 2 (eapply obtains_lift; [apply limited_measure_add|intros ? _]).
  set (events := sort_by fst (interval_events intervals)).
  assert (events ≡ₚ interval_events intervals) as Hperm by apply sort_by_perm.
  eapply obtains_lift.
  - apply sweep_spec; [|done|].
    + pose proof (sort_by_sorted fst (interval_events intervals)) as Hs. fold events in Hs.
      clear -Hs. induction events as [|e es IH]; [constructor|]. cbn [map] in Hs. inversion Hs as [|? ? Hs' Hall]; subst.
      constructor; [by apply IH|]. rewrite Forall_map in Hall. eapply Forall_impl; [exact Hall|]. intros e' He. exact He.
    + intros p. rewrite (activity_Permutation p _ _ Hperm). by apply activity_intervals.
  - intros [active maximum] ->. rewrite Z.add_0_l.
    assert (sum (map snd events) = 0) as ->.
    { assert (forall l l' : list Z, l ≡ₚ l' -> sum l = sum l') as Hsum by (unfold sum; induction 1; cbn [foldr]; lia).
      rewrite (Hsum _ (map snd (interval_events intervals))) by by rewrite Hperm. apply intervals_total. }
    apply obtains_guard; [done|]. intros _. apply obtains_ret. unfold counts in *. cbn in *. congruence.
Qed.

(** ** The order of the occurrences *)

(** A row stands at an index. *)
Definition row_at (rows : list bytes) (row : bytes) (index : Z) : Prop := get_at rows index = Some row.

Lemma row_index_at (values : list bytes) index : 0 <= index < len values ->
  index_at values index = Ok (default [] (get_at values index)) /\ get_at values index = Some (default [] (get_at values index)).
Proof. intros Hi. unfold index_at. by destruct (get_at_is_Some values index Hi) as [v ->]. Qed.

(** The indexes of a list of rows, in the order of the rows. *)
Definition row_order (values : list bytes) : list Z := sort_by (fun index => default [] (get_at values index)) (seqZ 0 (len values)).

Lemma row_order_values values : map (fun index => default [] (get_at values index)) (row_order values) = sort_by (fun row => row) values.
Proof.
  apply (StronglySorted_unique ord_le); [apply sort_by_sorted| |].
  - pose proof (sort_by_sorted (fun row : bytes => row) values) as Hs. by rewrite map_id in Hs.
  - rewrite sort_by_perm. unfold row_order. rewrite sort_by_perm. apply reflexive_eq. apply list_eq. intros i.
    rewrite list_lookup_fmap. destruct (decide (i < length values)%nat) as [Hi|Hi].
    + rewrite lookup_seqZ_lt by lia. cbn. rewrite Z.add_0_l. destruct (lookup_lt_is_Some_2 values i Hi) as [v Hv].
      by rewrite Hv, (proj1 (get_at_nat _ _ _) Hv).
    + rewrite lookup_seqZ_ge by lia. symmetry. apply lookup_ge_None. lia.
Qed.

Lemma collection_loop values base indexes previous result :
  Forall (fun index => 0 <= index < len values) indexes ->
  limited (ofor_each (fun index '(previous, result) =>
      value ← index_at values index;
      if bool_decide (previous = Some value) then Ok (previous, result) else
      position ← ok_or (checked_add USIZE_MAX base index) root_order_overflow;
      Ok (Some value, result ++ [position])) indexes (previous, result))
    (fun '(_, result') => exists order, result' = result ++ map (Z.add base) order /\
      let sorted := map (fun index => default [] (get_at values index)) indexes in
      Forall2 (row_at values) (match previous with Some p => vec_dedup_from p sorted | None => vec_dedup sorted end) order).
Proof.
  intros Hi. revert previous result. induction Hi as [|index indexes Hindex _ IH]; intros previous result; cbn [ofor_each map].
  - cbn [limited]. exists []. rewrite app_nil_r. split; [done|]. destruct previous; constructor.
  - destruct (row_index_at values index Hindex) as [-> Hget]. set (value := default [] (get_at values index)) in *.
    cbn [mbind outcome_mbind outcome_bind].
    destruct (decide (previous = Some value)) as [->|Hne].
    + rewrite bool_decide_true by done. eapply limited_mono; [apply IH|]. intros [p r] (order & -> & H). exists order. split; [done|].
      cbn [vec_dedup_from]. by rewrite decide_True.
    + rewrite bool_decide_false by done.
      eapply (limited_bind _ _ (fun '(p, r) => p = Some value /\ r = result ++ [base + index])).
      { eapply (limited_bind _ _ (eq (base + index))); [|by intros ? <-]. apply limited_ok_or. by intros v [-> _]%checked_add_Some. }
      intros [p r] [-> ->]. eapply limited_mono; [apply IH|]. intros [p r] (order & -> & H). exists (index :: order).
      rewrite <- app_assoc. split; [done|]. cbv zeta.
      assert (match previous with
              | Some p0 => vec_dedup_from p0 (value :: map (fun i => default [] (get_at values i)) indexes)
              | None => vec_dedup (value :: map (fun i => default [] (get_at values i)) indexes)
              end = value :: vec_dedup_from value (map (fun i => default [] (get_at values i)) indexes)) as ->.
      { destruct previous as [q|]; [|done]. cbn [vec_dedup_from]. rewrite decide_False; [done|]. intros ->. done. }
      by constructor.
Qed.

Lemma obtains_collection_order l E values base result :
  obtains l E (collection_order values base result) (fun result' => exists order, result' = result ++ map (Z.add base) order /\
    Forall2 (row_at values) (vec_dedup (sort_by (fun row => row) values)) order).
Proof.
  unfold collection_order. eapply obtains_then; [apply charged_reserve_items; lia|]. eapply obtains_then; [apply charged_allocate|].
  fold (row_order values). cbv zeta. eapply obtains_lift.
  - apply collection_loop. apply Forall_forall. intros index Hin. unfold row_order in Hin. rewrite sort_by_perm, elem_of_seqZ in Hin. lia.
  - intros [p r] (order & -> & H). apply obtains_ret. exists order. split; [done|]. cbv zeta in H. by rewrite row_order_values in H.
Qed.

Lemma row_at_app before values row index : row_at values row index -> row_at (before ++ values) row (len before + index).
Proof.
  unfold row_at. intros [Hi Hv]%get_at_Some. apply get_at_Some. split; [lia|].
  rewrite Z2Nat.inj_add, Nat2Z.id by lia. by rewrite lookup_app_r, Nat.add_comm, Nat.add_sub by lia.
Qed.

Lemma row_at_before before values row index : row_at before row index -> row_at (before ++ values) row index.
Proof. unfold row_at. intros [Hi Hv]%get_at_Some. apply get_at_Some. split; [done|]. by apply lookup_app_l_Some. Qed.

Lemma limited_occurrence_total rows : limited (occurrence_total rows) (fun total => total = len (concat rows)).
Proof.
  unfold occurrence_total. assert (forall start, limited (ofor_each (fun values total => ok_or (checked_add USIZE_MAX total (len values))
    (limit "native anonymous occurrence count overflow")) rows start) (fun total => total = start + len (concat rows))) as H; [|apply (H 0)].
  induction rows as [|values rows IH]; intros start; cbn [ofor_each concat]; [cbn; lia|].
  eapply (limited_bind _ _ (eq (start + len values))); [apply limited_ok_or; by intros v [-> _]%checked_add_Some|].
  intros ? <-. eapply limited_mono; [apply IH|]. intros total ->. rewrite length_app. lia.
Qed.

(** One index for every row of the canonical collections. *)
Lemma obtains_occurrence_order l E rows :
  obtains l E (canonical_occurrence_order rows) (Forall2 (row_at (concat rows)) (concat (canonicalize_collections rows))).
Proof.
  unfold canonical_occurrence_order. eapply obtains_lift; [apply limited_occurrence_total|]. intros total ->.
  eapply obtains_then; [apply charged_reserve_items; lia|]. eapply obtains_then; [apply charged_allocate|].
  eapply (obtains_bind _ _ _ _ (fun '(_, result) => Forall2 (row_at (concat rows)) (concat (canonicalize_collections rows)) result));
    [|intros [base result] H; by apply obtains_ret].
  assert (forall before done result, Forall2 (row_at before) done result ->
    obtains l E (for_each (fun values '(base, result) =>
        result ← collection_order values base result;
        base ← lift (ok_or (checked_add USIZE_MAX base (len values)) root_order_overflow);
        mret (base, result)) rows (len before, result))
      (fun '(_, result) => Forall2 (row_at (before ++ concat rows)) (done ++ concat (canonicalize_collections rows)) result)) as H; [|by apply (H [] [] [])].
  induction rows as [|values rows IH]; intros before done result Hdone; cbn [for_each concat canonicalize_collections map].
  - rewrite !app_nil_r. by apply obtains_ret.
  - eapply (obtains_bind _ _ _ _ (fun '(base, result') => base = len before + len values /\ exists order, result' = result ++ map (Z.add (len before)) order /\
      Forall2 (row_at values) (vec_dedup (sort_by (fun row => row) values)) order)).
    + eapply obtains_bind; [apply obtains_collection_order|]. intros result' H.
      eapply (obtains_lift _ _ _ _ (eq (len before + len values))); [apply limited_ok_or; by intros v [-> _]%checked_add_Some|].
      intros base <-. by apply obtains_ret.
    + intros [base result'] (-> & order & -> & Horder). rewrite !app_assoc.
      replace (len before + len values) with (len (before ++ values)) by (rewrite length_app; lia). apply IH.
      apply Forall2_app.
      * eapply Forall2_impl; [exact Hdone|]. intros row index. apply row_at_before.
      * apply Forall2_fmap_r. eapply Forall2_impl; [exact Horder|]. intros row index. apply row_at_app.
Qed.

(** ** The document fingerprint *)

Definition optional_bytes (row : option bytes) : bytes := match row with Some row => str "1" ++ frame row | None => str "0" end.
Definition rows_bytes (rows : list bytes) : bytes := varint (len rows) ++ concat (map frame rows).

(** What is digested for a document, from the rows of its IRIs. *)
Definition fingerprint_preimage (ontology_iri version_iri : option bytes) (imports : list bytes) (rows : list (list bytes)) : bytes :=
  DOCUMENT_FINGERPRINT_DOMAIN_V2 ++ optional_bytes ontology_iri ++ optional_bytes version_iri ++
  rows_bytes imports ++ concat (map rows_bytes rows).

(** The digest so far is that of the bytes so far. *)
Definition digests (written : bytes) (m : MeasuredSha256) : Prop := absorbed (hasher m) written /\ measured m = len written.

Lemma limited_update value m written : digests written m -> limited (Measured_update value m) (digests (written ++ value)).
Proof.
  intros [Hh Hm]. unfold Measured_update. eapply (limited_bind _ _ (eq (len value))).
  { apply limited_ok_or. by intros v [-> _]%try_from_Some. }
  intros ? <-. eapply (limited_bind _ _ (eq (measured m + len value))); [apply limited_ok_or; by intros v [-> _]%checked_add_Some|].
  intros ? <-. cbn [limited]. split; cbn [hasher measured]; [by apply update_absorbed|]. rewrite Hm, length_app. lia.
Qed.

Lemma encode_varint_spec n v : 0 <= v < 128 ^ Z.of_nat (S n) -> encode_varint (S n) v = Ok (varint v).
Proof.
  intros Hv. rewrite <- (varint_bytes_spec n v Hv). generalize (S n). clear. intros n. revert v.
  induction n as [|n IH]; intros v; cbn [encode_varint varint_bytes]; [done|]. rewrite Z.lor_0_r. cbv zeta.
  destruct (_ =? 0); [done|]. by rewrite IH.
Qed.

Lemma limited_varint v m written : is_u64 v -> digests written m -> limited (Measured_varint v m) (digests (written ++ varint v)).
Proof.
  intros Hv Hm. unfold Measured_varint. rewrite encode_varint_spec by (change (128 ^ Z.of_nat 10) with (2 ^ 70); ulia).
  cbn [mbind outcome_mbind outcome_bind]. by apply limited_update.
Qed.

(** A length is measured, or too large. *)
Lemma limited_size (v : Z) msg : 0 <= v -> limited (ok_or (try_from U64_MAX v) (limit msg)) (fun x => x = v /\ is_u64 v).
Proof. intros Hv. apply limited_ok_or. intros x [-> Hx]%try_from_Some. split; [done|]. ulia. Qed.

Lemma limited_frame value m written : digests written m -> limited (Measured_frame value m) (digests (written ++ frame value)).
Proof.
  intros Hm. unfold Measured_frame. eapply limited_bind; [apply limited_size; lia|]. intros ? [-> Hv].
  eapply limited_bind; [by apply limited_varint|]. intros m' Hm'. eapply limited_mono; [by apply limited_update|].
  intros m'' H. unfold frame. by rewrite app_assoc.
Qed.

Lemma limited_optional value m written : digests written m -> limited (Measured_optional value m) (digests (written ++ optional_bytes (node_encoded <$> value))).
Proof.
  intros Hm. destruct value as [node|]; cbn [Measured_optional optional_bytes fmap option_fmap option_map]; [|by apply limited_update].
  eapply limited_bind; [by apply limited_update|]. intros m' Hm'. eapply limited_mono; [by apply limited_frame|].
  intros m'' H. by rewrite app_assoc.
Qed.

Lemma limited_each {Y} (body : Y -> MeasuredSha256 -> outcome MeasuredSha256) (f : Y -> bytes) items m written :
  (forall y m written, digests written m -> limited (body y m) (digests (written ++ f y))) ->
  digests written m -> limited (ofor_each body items m) (digests (written ++ concat (map f items))).
Proof.
  intros Hbody. revert m written. induction items as [|y items IH]; intros m written Hm; cbn [ofor_each map concat].
  - by rewrite app_nil_r.
  - eapply limited_bind; [by apply Hbody|]. intros m' Hm'. rewrite app_assoc. by apply IH.
Qed.

Lemma limited_rows msg rows m written : digests written m -> limited (Measured_rows msg rows m) (digests (written ++ rows_bytes rows)).
Proof.
  intros Hm. unfold Measured_rows, rows_bytes. eapply limited_bind; [apply limited_size; lia|]. intros ? [-> Hv].
  eapply limited_bind; [by apply limited_varint|]. intros m' Hm'. rewrite app_assoc. apply limited_each; [|done].
  intros. by apply limited_frame.
Qed.

Lemma fingerprint_spec ontology_iri version_iri imports rows :
  limited (document_fingerprint_slices ontology_iri version_iri imports rows) (fun evidence => fingerprint_digest evidence =
    sha256 (fingerprint_preimage (node_encoded <$> ontology_iri) (node_encoded <$> version_iri) (map node_encoded imports) rows)).
Proof.
  unfold document_fingerprint_slices. eapply limited_bind.
  { apply (limited_update _ _ []). split; [apply absorbed_new|done]. }
  intros m0 H0. eapply limited_bind; [by apply limited_optional|]. intros m1 H1.
  eapply limited_bind; [by apply limited_optional|]. intros m2 H2.
  eapply limited_bind; [by apply limited_rows|]. intros m3 H3.
  eapply limited_bind; [apply (limited_each _ rows_bytes); [intros; by apply limited_rows|exact H3]|].
  intros m4 [Hh Hm]. cbn [limited Measured_finish fingerprint_digest preimage_bytes].
  unfold fingerprint_preimage. rewrite <- !app_assoc in Hh. rewrite sha256_is_spec. by apply finish_absorbed.
Qed.

(** ** The rows of the scoped document *)

(** The rows of a document with other individuals. *)
Definition renamed (g : Identity -> option Identity) (docs : list (list component)) : list (list bytes) :=
  map (map (fun c => encode (rename g c))) docs.

Lemma charged_renamed g f docs : Forall ready (concat docs) -> Forall (answers g f) (concat docs) ->
  charged (encode_collections f (map (map tree) docs)) (Ok (renamed g docs)).
Proof.
  intros Hr Ha. unfold encode_collections, renamed.
  assert (forall written, charged (for_each (fun source result =>
      reserve_items 24 (len source);;
      allocate "native scoped row allocation failed";;
      target ← for_each (fun node target => encoded ← encode_replaced f node; mret (target ++ [encoded])) source [];
      mret (result ++ [target])) (map (map tree) docs) written) (Ok (written ++ renamed g docs))) as H; [|apply (H [])].
  induction docs as [|doc docs IH]; intros written; cbn [map for_each renamed concat] in *; [rewrite app_nil_r; apply charged_ret|].
  apply Forall_app in Hr as [Hrd Hr], Ha as [Had Ha].
  eapply charged_then.
  - charges. eapply charged_then; [|apply charged_ret].
    apply (charged_collect_map _ tree (fun c => encode (rename g c))). rewrite !Forall_forall in *. intros c Hc.
    destruct (Hrd c Hc) as (? & ? & _). apply charged_encode_replaced; [done|done|by apply Had].
  - cbn [app]. eapply charged_eq; [by apply IH|]. by rewrite <- app_assoc.
Qed.

(** The new identity of an individual in the raw and in the effective rows,
    when labels have the given identities. *)
Definition raw_name (names : bytes -> option Identity) (i : Identity) : option Identity := label_of i ≫= names.
Definition effective_name (names : bytes -> option Identity) (snapshot : bytes) (i : Identity) : option Identity :=
  (fun named => rescope_identity named snapshot) <$> match label_of i with Some label => names label | None => Some i end.

Lemma raw_answers docs labels ids : labelled docs ->
  Forall (answers (raw_name (label_identity labels ids)) (raw_replacement labels ids)) (concat docs).
Proof.
  intros Hl. apply Forall_concat_map, (Forall_impl _ _ _ Hl). intros i [label E].
  unfold raw_replacement, raw_name, label_of. by rewrite E.
Qed.

Lemma effective_answers docs labels ids snapshot : labelled docs ->
  Forall (answers (effective_name (label_identity labels ids) snapshot) (effective_replacement labels ids snapshot)) (concat docs).
Proof.
  intros Hl. apply Forall_concat_map, (Forall_impl _ _ _ Hl). intros i [label E].
  unfold effective_replacement, effective_name, label_of. by rewrite E.
Qed.

Lemma concat_renamed g docs : concat (renamed g docs) = map (fun c => encode (rename g c)) (concat docs).
Proof. unfold renamed. by rewrite concat_map. Qed.

(** The canonical collection: the distinct rows in ascending order. *)
Lemma canonical_collection rows : StronglySorted ord_lt (vec_dedup (sort_by (fun row : bytes => row) rows)) /\
  forall row, row ∈ vec_dedup (sort_by (fun row : bytes => row) rows) <-> row ∈ rows.
Proof.
  destruct (vec_dedup_spec (fun row : bytes => row) (sort_by (fun row => row) rows)) as [Hs Hin]; [by intros|by apply sort_by_sorted|].
  rewrite map_id in Hs. split; [done|]. intros row. by rewrite list_elem_of_In, Hin, In_sort_by, <- list_elem_of_In.
Qed.

(** The digests of the effective rows at some indexes. *)
Lemma ordered_digests_spec order digests : Forall (fun index => 0 <= index < len digests) order ->
  exists result, ordered_digests order digests = Ok result /\
    Forall2 (fun index digest => exists pair, get_at digests index = Some pair /\ digest = pair.2) order result.
Proof.
  intros H. unfold ordered_digests.
  assert (forall written, exists result, ofor_each (fun index result =>
    pair ← ok_or (get_at digests index) (protocol "native anonymous root order is out of bounds");
    Ok (result ++ [pair.2])) order written = Ok (written ++ result) /\
    Forall2 (fun index digest => exists pair, get_at digests index = Some pair /\ digest = pair.2) order result) as Hgen; [|apply (Hgen [])].
  induction H as [|index order Hi _ IH]; intros written; cbn [ofor_each].
  - exists []. by rewrite app_nil_r.
  - destruct (get_at_is_Some digests index Hi) as [pair Hp]. rewrite Hp. cbn [ok_or mbind outcome_mbind outcome_bind].
    destruct (IH (written ++ [pair.2])) as (result & E & HR). exists (pair.2 :: result). rewrite E, <- app_assoc. split; [done|].
    constructor; [by exists pair|done].
Qed.

Lemma cardinality_unchanged raw effective : length raw = length effective -> cardinality_changed raw effective = false ->
  Forall2 (fun rows rows' => len rows = len rows') raw effective.
Proof.
  revert effective. induction raw as [|r raw IH]; intros [|e effective] Hl H; try done; cbn [cardinality_changed] in H; constructor.
  - apply orb_false_iff in H as [H _]. by apply negb_false_iff, Z.eqb_eq in H.
  - apply orb_false_iff in H as [_ H]. apply IH; [by injection Hl|done].
Qed.

(** ** The whole operation *)

Definition document_scope (ontology_key : bytes) (components : list BlankComponent) : bytes :=
  digest [DOCUMENT_SCOPE_DOMAIN; frame ontology_key; frame (manifest_of (map (fun c => graph (alpha c)) components))].

(** The labels of a document have the identities of their places in the
    canonical components of the document. *)
Definition named (docs : list (list component)) (ontology_key : bytes) (names : bytes -> option Identity)
    (m : AnonymousCanonicalMetricsV2) : Prop :=
  exists components, components_of (len (labels_of docs)) (skeletons docs) (arcs_of docs) components /\
    (forall x label, get_at (labels_of docs) x = Some label -> exists k c, get_at components k = Some c /\ x ∈ global_labels c /\
       names label = Some (identity_of components (document_scope ontology_key components) k c x)) /\
    counts m = (len components, len (labels_of docs), len (arcs_of docs)).

Lemma charged_framed_digest domain first second : charged (framed_digest domain first second) (Ok (digest [domain; frame first; frame second])).
Proof. unfold framed_digest. repeat ch. Qed.

Lemma label_identity_at docs n (f : Z -> option Identity) x label : n = len (labels_of docs) -> get_at (labels_of docs) x = Some label ->
  label_identity (labels_of docs) (table n f) label = f x.
Proof.
  intros -> Hx. pose proof (label_index_at docs x label Hx) as Ex. unfold label_identity.
  assert (label ∈ labels_of docs) as Hin by (apply elem_of_get_at; by exists x).
  destruct (binary_search_In _ _ Hin) as [index Ei]. unfold label_index in Ex. rewrite Ei in Ex. cbn in Ex. subst index. rewrite Ei. cbn.
  rewrite get_at_table by (by apply get_at_lt in Hx). by cbn.
Qed.

Section Scoping.
Context (limits : Limits) (floor : Z) (E : NativeError -> Prop) (docs : list (list component)) (ontology_key : bytes).
Hypothesis Hready : Forall ready (concat docs).
Hypothesis Hterms : max_terms limits <= U64_MAX.
Hypothesis Hwork : max_canonical_work limits <= U64_MAX.
Hypothesis unlabelled_refused : forall e, (labelled docs -> labels_of docs = []) -> E e.
Hypothesis diverging_refused : E did_not_converge.

Lemma obtains_raw_identities : obtains (limits, floor) E (raw_identities_of (map (map tree) docs) ontology_key)
  (fun '(labels, ids, m) => labelled docs /\ labels = labels_of docs /\ named docs ontology_key (label_identity labels ids) m).
Proof using All.
  unfold raw_identities_of. apply obtains_limits. intros s Es _. cbn [fst] in Es. rewrite Es.
  destruct (charged_document_labels docs Hready) as (o & Ho & Hcases).
  eapply (obtains_bind _ _ _ _ (fun labels => labelled docs /\ labels_of docs <> [] /\ labels = labels_of docs)).
  { eapply obtains_charged; [exact Ho|]. destruct Hcases as [(? & ? & ->)|(e & -> & He)]; [done|]. by apply unlabelled_refused. }
  intros ? (Hlabelled & Hne & ->).
  eapply obtains_then; [apply charged_blank_arcs; [|by apply document_known]|].
  { eapply Forall_impl; [exact Hready|]. by intros c [? _]. }
  cbv beta iota. fold (arcs_of docs) (skeletons docs).
  eapply (obtains_lift _ _ _ _ (fun total => total = len (labels_of docs) + len (arcs_of docs))).
  { unfold checked_add_u64. eapply limited_bind; [apply limited_usize_u64|]. intros ? <-. eapply limited_bind; [apply limited_usize_u64|]. intros ? <-.
    apply limited_ok_or. by intros v [-> _]%checked_add_Some. }
  intros total ->. apply obtains_guard; [intros _; left; by apply resource_limit_code|]. intros Htotal%Z.ltb_ge.
  assert (0 < len (labels_of docs)) as Hpos by (destruct (labels_of docs); [done|cbn [length]; lia]).
  assert (0 < len (arcs_of docs)) as Harcs.
  { destruct (label_has_arc docs Hready Hlabelled 0) as (arc & Harc & _); [lia|]. destruct (arcs_of docs); [done|cbn [length]; lia]. }
  assert (0 <= len (labels_of docs) < USIZE_MAX) as Hn by ulia.
  destruct (charged_canonical_components (len (labels_of docs)) (skeletons docs) (arcs_of docs) limits Hn (arcs_fit docs Hready) Hwork)
    as (oc & Hoc & Hcomponents).
  eapply (obtains_bind _ _ _ _ (components_of (len (labels_of docs)) (skeletons docs) (arcs_of docs))).
  { eapply obtains_charged; [exact Hoc|]. destruct Hcomponents as [->|(components & -> & Hc)]; done. }
  intros components Hc.
  eapply obtains_bind; [apply (obtains_metrics _ _ _ _ _ (len (concat docs))); apply Forall_forall; intros c Hin; by eapply component_arcs_roots|].
  intros m Hm. eapply obtains_then; [apply charged_manifest|]. eapply obtains_then; [apply charged_framed_digest|].
  fold (document_scope ontology_key components).
  destruct (charged_identities (len (labels_of docs)) (skeletons docs) (arcs_of docs) components (document_scope ontology_key components) Hn Hc) as (f & Hf & Hplaces).
  eapply obtains_then; [exact Hf|]. apply obtains_ret. split; [done|]. split; [done|]. exists components. split; [done|]. split; [|done].
  intros x label Hx. rewrite (label_identity_at docs _ f x label) by done.
  destruct (component_of_label _ _ _ _ x Hc) as (k & c & Hk & Hxc); [by apply get_at_lt in Hx|]. apply get_at_nat in Hk.
  exists (Z.of_nat k), c. split; [done|]. split; [done|]. by apply Hplaces.
Qed.

(** A canonical collection holds the rows of its components, renamed. *)
Definition holds (g : Identity -> option Identity) (doc : list component) (rows : list bytes) : Prop :=
  StronglySorted ord_lt rows /\ forall row, row ∈ rows <-> exists c, c ∈ doc /\ row = encode (rename g c).

Lemma canonical_holds g : Forall2 (holds g) docs (canonicalize_collections (renamed g docs)).
Proof using.
  unfold renamed, canonicalize_collections. rewrite map_map. apply Forall2_fmap_r, Forall_Forall2_diag, Forall_forall. intros doc _.
  unfold holds. destruct (canonical_collection (map (fun c => encode (rename g c)) doc)) as [Hs Hin]. split; [done|].
  intros row. rewrite Hin, list_elem_of_fmap. naive_solver.
Qed.

(** What scoping a document returns. *)
Record scopes (fingerprint : list (list bytes) -> bytes) (names : bytes -> option Identity) (r : ScopedAnonymousRowsV2) : Prop := {
  scopes_named : named docs ontology_key names (scoped_metrics r);
  scopes_raw : Forall2 (holds (raw_name names)) docs (raw r);
  scopes_effective : Forall2 (holds (effective_name names (snapshot_scope (fingerprint (raw r))))) docs (effective r);
  scopes_cardinality : Forall2 (fun rows rows' => len rows = len rows') (raw r) (effective r);
  scopes_sources : source_occurrence_digests r =
    map (fun c => (structural_digest (encode (rename (raw_name names) c)),
                   structural_digest (encode (rename (effective_name names (snapshot_scope (fingerprint (raw r)))) c)))) (concat docs);
  scopes_occurrences : Forall2 (fun row d => exists c, c ∈ concat docs /\ row = encode (rename (raw_name names) c) /\
      d = structural_digest (encode (rename (effective_name names (snapshot_scope (fingerprint (raw r)))) c)))
    (concat (raw r)) (effective_occurrence_digests r)
}.

Definition cardinality_error : NativeError := protocol "native anonymous scoping changed structural root cardinality".
Hypothesis collapsing_refused : E cardinality_error.

(** The last step: what was charged. *)
Lemma obtains_accounted {A} (f : Z -> A) (P : A -> Prop) : (forall n, P (f n)) ->
  obtains (limits, floor) E (after ← get;
    accounted ← lift (ok_or (if floor <=? accounted_bytes after then Some (accounted_bytes after - floor) else None)
                        (protocol "native anonymous memory accounting regressed"));
    mret (f accounted)) P.
Proof using.
  intros HP. apply obtains_limits. intros s _ Ha. cbn [snd] in Ha. rewrite (proj2 (Z.leb_le _ _)) by done.
  eapply obtains_then; [by apply charged_lift|]. by apply obtains_ret.
Qed.

Lemma counts_accounted n m : counts (with_accounted n m) = counts m.
Proof using. done. Qed.

Context (document_fingerprint : list (list bytes) -> M Session FingerprintEvidenceV2) (fingerprint : list (list bytes) -> bytes).
Hypothesis fingerprint_computes : forall rows,
  obtains (limits, floor) E (document_fingerprint rows) (fun evidence => fingerprint_digest evidence = fingerprint rows).

Lemma obtains_scoped parsed : parsed = map (map tree) docs -> obtains (limits, floor) E (
  '(labels, raw_identities, metrics) ← raw_identities_of parsed ontology_key;
  raw ← encode_collections (raw_replacement labels raw_identities) parsed;
  occurrence_count ← lift (occurrence_total raw);
  reserve_items 32 occurrence_count;;
  allocate "native anonymous digest allocation failed";;
  let raw_source_digests := map structural_digest (concat raw) in
  canonical_order ← canonical_occurrence_order raw;
  reserve_items 64 occurrence_count;;
  allocate "native anonymous digest allocation failed";;
  let raw := canonicalize_collections raw in
  document ← document_fingerprint raw;
  let snapshot := snapshot_scope (fingerprint_digest document) in
  effective ← encode_collections (effective_replacement labels raw_identities snapshot) parsed;
  let source_digests := zip raw_source_digests (map structural_digest (concat effective)) in
  ensure_not (negb (len source_digests =? occurrence_count))
    (protocol "native anonymous occurrence digest count diverged");;
  reserve_items 32 (len canonical_order);;
  allocate "native anonymous digest allocation failed";;
  effective_digests ← lift (ordered_digests canonical_order source_digests);
  let effective := canonicalize_collections effective in
  ensure_not (cardinality_changed raw effective) cardinality_error;;
  after ← get;
  accounted ← lift (ok_or (if floor <=? accounted_bytes after then Some (accounted_bytes after - floor) else None)
                      (protocol "native anonymous memory accounting regressed"));
  mret {| raw := raw; effective := effective; effective_occurrence_digests := effective_digests;
          source_occurrence_digests := source_digests; scoped_metrics := with_accounted accounted metrics |})
  (fun r => exists names, scopes fingerprint names r).
Proof using All.
  intros ->. eapply obtains_bind; [exact obtains_raw_identities|]. intros [[? ids] m] (Hlabelled & -> & Hnamed).
  set (names := label_identity (labels_of docs) ids) in *. set (g := raw_name names).
  eapply obtains_then; [apply (charged_renamed g _ docs Hready); by apply raw_answers|].
  eapply obtains_lift; [apply limited_occurrence_total|]. intros total ->.
  eapply obtains_then; [apply charged_reserve_items; lia|]. eapply obtains_then; [apply charged_allocate|]. cbv zeta.
  eapply obtains_bind; [apply obtains_occurrence_order|]. intros canonical_order Horder.
  eapply obtains_then; [apply charged_reserve_items; lia|]. eapply obtains_then; [apply charged_allocate|]. cbv zeta.
  eapply obtains_bind; [apply fingerprint_computes|]. intros evidence Hevidence. cbv zeta. rewrite Hevidence. clear evidence Hevidence.
  set (snapshot := snapshot_scope (fingerprint (canonicalize_collections (renamed g docs)))).
  set (h := effective_name names snapshot).
  eapply obtains_then; [apply (charged_renamed h _ docs Hready); by apply effective_answers|]. cbv zeta.
  assert (zip (map structural_digest (concat (renamed g docs))) (map structural_digest (concat (renamed h docs))) =
    map (fun c => (structural_digest (encode (rename g c)), structural_digest (encode (rename h c)))) (concat docs)) as ->.
  { rewrite !concat_renamed, !map_map. generalize (concat docs). clear. intros cs.
    induction cs as [|c cs IH]; [done|]. cbn [map]. by rewrite <- IH. }
  rewrite concat_renamed, !length_map, Z.eqb_refl.
  apply obtains_guard; [done|]. intros _.
  eapply obtains_then; [apply charged_reserve_items; lia|]. eapply obtains_then; [apply charged_allocate|].
  set (digests := map (fun c => (structural_digest (encode (rename g c)), structural_digest (encode (rename h c)))) (concat docs)).
  rewrite concat_renamed in Horder.
  assert (Forall (fun index => 0 <= index < len digests) canonical_order) as Hrange.
  { apply Forall_forall. intros index Hin. apply list_elem_of_lookup in Hin as [j Hj].
    destruct (Forall2_lookup_r _ _ _ _ _ Horder Hj) as (row & _ & Hrow). unfold row_at in Hrow. apply get_at_lt in Hrow.
    unfold digests. by rewrite length_map in *. }
  destruct (ordered_digests_spec canonical_order digests Hrange) as (effective_digests & Ed & Hdigests). rewrite Ed.
  eapply obtains_then; [by apply charged_lift|]. cbv zeta.
  apply obtains_guard; [intros _; by right|]. intros Hsame.
  apply obtains_accounted. intros n. exists names. constructor; cbn [scoped_metrics raw effective source_occurrence_digests effective_occurrence_digests].
  - exact Hnamed.
  - apply canonical_holds.
  - apply canonical_holds.
  - apply cardinality_unchanged; [|exact Hsame]. unfold renamed, canonicalize_collections. by rewrite !length_map.
  - done.
  - clear -Horder Hdigests. revert Hdigests. generalize effective_digests. clear effective_digests.
    induction Horder as [|row index rows order Hrow _ IH]; intros ds Hds; inversion Hds as [|? d ? ds' (pair & Hpair & ->) Hds']; subst; constructor; [|by apply IH].
    unfold row_at in Hrow. apply get_at_Some in Hrow as [Hi Hrow], Hpair as [_ Hpair]. unfold digests in Hpair.
    apply list_lookup_fmap_Some in Hrow as (c & -> & Hc). apply list_lookup_fmap_Some in Hpair as (c' & -> & Hc').
    rewrite Hc in Hc'. injection Hc' as <-.
    exists c. split; [by eapply list_elem_of_lookup_2|done].
Qed.
End Scoping.

(** Why a document is refused, but for want of resources. *)
Inductive refusal (limits : Limits) (rows : list (list bytes)) : NativeError -> Prop :=
| refused_diverging : refusal limits rows did_not_converge
| refused_collapsing : refusal limits rows cardinality_error
| refused_rows e : (forall docs, ~ documents limits rows docs) -> refusal limits rows e
| refused_labels docs e : documents limits rows docs -> (labelled docs -> labels_of docs = []) -> refusal limits rows e.

Lemma scoping_obtains limits floor rows ontology_key document_fingerprint fingerprint :
  0 <= max_nesting_depth limits -> 0 <= max_terms limits <= U64_MAX -> max_canonical_work limits <= U64_MAX ->
  Forall (Forall row_fits) rows ->
  (forall rows', obtains (limits, floor) (refusal limits rows) (document_fingerprint rows') (fun evidence => fingerprint_digest evidence = fingerprint rows')) ->
  forall s, session_ok s -> limits = Session.limits s -> floor = accounted_bytes s ->
  wpx (scope_anonymous_rows_v2 rows ontology_key document_fingerprint)
    (fun r _ => exists docs names, documents limits rows docs /\ scopes docs ontology_key fingerprint names r)
    (fun e _ => resource_error e \/ refusal limits rows e) s.
Proof.
  intros Hd Ht Hw Hrows Hfp s Hs Hl Hfloor. unfold scope_anonymous_rows_v2. xstep. xstep. rewrite <- Hfloor.
  match goal with |- wpx ?m _ _ _ => assert (obtains (limits, floor) (refusal limits rows) m
    (fun r => exists docs names, documents limits rows docs /\ scopes docs ontology_key fingerprint names r)) as H end.
  2: { eapply wpx_mono; [apply H; [exact Hs|by subst]|..]; [|done]. by intros r s' [? _]. }
  eapply obtains_bind; [apply obtains_parsed; [exact Hd|exact Ht|exact Hrows|apply refused_rows]|].
  intros parsed (docs & Hdocs & E). eapply obtains_mono.
  - apply (obtains_scoped limits floor (refusal limits rows) docs ontology_key); try done.
    + by eapply documents_ready.
    + lia.
    + intros e He. by eapply refused_labels.
    + apply refused_diverging.
    + apply refused_collapsing.
  - intros r [names Hr]. by exists docs, names.
Qed.

(** ** The header of the document *)

(** The row of an IRI. *)
Definition iri_row (text : bytes) : bytes := encode (iri_component text).

(** The key of the ontology, from the rows of its IRIs. *)
Definition key_of_ontology (ontology_iri version_iri : option bytes) : bytes :=
  match ontology_iri with Some row => row ++ default [] version_iri | None => ANONYMOUS_ONTOLOGY end.

Definition headless (ontology_iri version_iri : option bytes) : Prop := ontology_iri = None /\ version_iri <> None.

Lemma charged_encode_iri text : charged (encode_iri_bytes text) (Ok (iri_row text)).
Proof.
  unfold encode_iri_bytes. eapply charged_then; [apply charged_append_varint; ulia|]. cbv beta. repeat ch.
  eapply charged_eq; [apply charged_ret|]. unfold iri_row, iri_component. cbn [encode map concat encode_part app]. by rewrite app_nil_r.
Qed.

#[local] Opaque iri_row ANONYMOUS_ONTOLOGY.

(** A version IRI needs an ontology IRI. *)
Definition key_or_refused (ontology_iri version_iri : option bytes) : outcome bytes :=
  match ontology_iri, version_iri with None, Some _ => Err version_without_ontology | _, _ => Ok (key_of_ontology ontology_iri version_iri) end.

Lemma charged_key_text ontology_iri version_iri :
  charged (ontology_key_text ontology_iri version_iri) (key_or_refused (iri_row <$> ontology_iri) (iri_row <$> version_iri)).
Proof.
  unfold ontology_key_text, key_or_refused. destruct ontology_iri as [o|], version_iri as [v|]; cbn [fmap option_fmap option_map is_some key_of_ontology default].
  - eapply charged_then; [apply charged_encode_iri|]. eapply charged_then; [apply charged_encode_iri|]. repeat ch.
  - eapply charged_then; [apply charged_encode_iri|]. rewrite app_nil_r. apply charged_ret.
  - eapply charged_eq; [apply (charged_bind _ _ (Err version_without_ontology) (fun _ => Panic)); [apply (charged_ensure_not true)|done]|done].
  - apply charged_pass; [done|]. apply charged_copy_bytes.
Qed.

Lemma charged_key_nodes ontology_iri version_iri :
  charged (ontology_key_nodes ontology_iri version_iri) (key_or_refused (node_encoded <$> ontology_iri) (node_encoded <$> version_iri)).
Proof.
  unfold ontology_key_nodes, key_or_refused. destruct ontology_iri as [o|], version_iri as [v|]; cbn [fmap option_fmap option_map is_some key_of_ontology default].
  - repeat ch.
  - rewrite app_nil_r. repeat ch.
  - eapply charged_eq; [apply (charged_bind _ _ (Err version_without_ontology) (fun _ => Panic)); [apply (charged_ensure_not true)|done]|done].
  - apply charged_pass; [done|]. apply charged_copy_bytes.
Qed.

(** Nodes are built, or the allocator refuses. *)
Definition built {A} (m : M World A) (P : A -> Prop) : Prop := forall w, wpx m (fun a _ => P a) (fun e _ => code e = "NATIVE_WIRE_LIMIT"%string) w.

Lemma built_iri text : built (iri_node text) (fun node => node_encoded node = iri_row text).
Proof.
  intros w. pose proof (wpx_iri_node text w) as H.
  assert (fails_with (fun e => code e = "NATIVE_WIRE_LIMIT"%string) (iri_node text)) as Hf.
  { unfold iri_node, Node_build. cbn [for_each encode_field]. unfold encode_frame. repeat fstep; done. }
  specialize (Hf w). unfold wpx in *. destruct (iri_node text w) as [[node|e|] w']; [by apply denotes_renders in H|exact Hf|done].
Qed.

Lemma built_optional value : built (optional_iri value) (fun node => node_encoded <$> node = iri_row <$> value).
Proof.
  intros w. destruct value as [text|]; cbn [optional_iri]; [|by xstep]. xstep. eapply wpx_mono; [apply built_iri|..]; [|done].
  intros node w' E. xstep. cbn. by rewrite E.
Qed.

Lemma built_iris texts nodes : built (for_each (fun text nodes => node ← iri_node text; mret (nodes ++ [node])) texts nodes)
  (fun nodes' => map node_encoded nodes' = map node_encoded nodes ++ map iri_row texts).
Proof.
  revert nodes. induction texts as [|text texts IH]; intros nodes w; cbn [for_each map].
  - xstep. by rewrite app_nil_r.
  - xstep. xstep. eapply wpx_mono; [apply built_iri|..]; [|done]. intros node w' E. xstep.
    eapply wpx_mono; [apply IH|..]; [|done]. intros nodes' w'' ->. rewrite map_app, <- app_assoc. cbn [map app]. by rewrite E.
Qed.

(** Sorting and deduplicating nodes does so with their rows. *)
Lemma dedup_rows nodes : map node_encoded (dedup (sort_by node_encoded nodes)) = vec_dedup (sort_by (fun row => row) (map node_encoded nodes)).
Proof.
  rewrite (sort_by_map_key (fun row => row) node_encoded). unfold dedup. destruct (sort_by node_encoded nodes) as [|node l]; [done|].
  cbn [map vec_dedup]. f_equal. revert node. induction l as [|n l IH]; intros node; cbn [dedup_after map vec_dedup_from]; [done|].
  destruct (decide (node_encoded n = node_encoded node)) as [E|E].
  - rewrite E, bytes_eqb_refl. by rewrite IH.
  - apply bytes_eqb_neq in E. rewrite E. cbn [map]. by rewrite IH.
Qed.

Lemma obtains_rdfxml_fingerprint l E ontology_iri version_iri imports rows :
  obtains l E (on_session_world (rdfxml_document_fingerprint ontology_iri version_iri imports rows)) (fun evidence => fingerprint_digest evidence =
    sha256 (fingerprint_preimage (iri_row <$> ontology_iri) (iri_row <$> version_iri) (vec_dedup (sort_by (fun row => row) (map iri_row imports))) rows)).
Proof.
  intros s Hs Hl. xstep. unfold rdfxml_document_fingerprint.
  assert (forall w, proceeds s {| s_ctx := {| world := w; guard := guard (s_ctx s) |}; limits := limits s;
                       memory := memory s; temporary_bytes := temporary_bytes s; work := work s |}) as Hp.
  { intros w. split; [|done]. split; [|done]. by destruct Hs; constructor. }
  xstep. eapply wpx_mono; [apply built_optional|..]; [|intros e w He; left; by apply resource_limit_code]. intros o w1 Eo.
  xstep. eapply wpx_mono; [apply built_optional|..]; [|intros e w He; left; by apply resource_limit_code]. intros v w2 Ev.
  xstep. eapply wpx_mono; [apply built_iris|..]; [|intros e w He; left; by apply resource_limit_code]. intros nodes w3 En.
  apply wpx_lift. pose proof (fingerprint_spec o v (dedup (sort_by node_encoded nodes)) rows) as H. rewrite Eo, Ev, dedup_rows, En in H.
  destruct (document_fingerprint_slices _ _ _ _) as [evidence|e|]; [by split|left; by apply resource_limit_code|done].
Qed.

Lemma obtains_functional_fingerprint l E ontology_iri version_iri imports rows :
  obtains l E (lift (document_fingerprint_slices ontology_iri version_iri imports rows)) (fun evidence => fingerprint_digest evidence =
    sha256 (fingerprint_preimage (node_encoded <$> ontology_iri) (node_encoded <$> version_iri) (map node_encoded imports) rows)).
Proof.
  intros s Hs _. apply wpx_lift. pose proof (fingerprint_spec ontology_iri version_iri imports rows) as H.
  destruct (document_fingerprint_slices _ _ _ _) as [evidence|e|]; [|left; by apply resource_limit_code|done].
  split; [exact H|by apply proceeds_refl].
Qed.
