(* ===== verification/AnonymousTheorems.v ===== *)
(** * Blank components on concrete data: the vectors of the repository's tests

    The vectors are those of the unit tests in [native/src/parse/anonymous.rs]. *)

From S2P Require Import Prelude Bytes Order Hash Error Machine Atomic Limits Cancel Session Varint Schema Scan Component ScanSound ScanComplete Encode Grammar CanonicalTree AlphaOrder BlankGraph AnonymousRows Charged TreeSound Renaming Neighborhoods Permutations AlphaSound AlphaInvariant BlankComponents ComponentsSound IdentitiesSound ScopingSound.

(** A calm session with the default limits. *)
Definition blank_session : Session :=
  {| s_ctx := s_ctx sample_session; limits := Limits_default;
     memory := {| maximum := None; used := 0 |}; temporary_bytes := 0; work := 0 |}.
Definition result_of {A} (m : M Session A) : outcome A := fst (m blank_session).
Definition hex (data : bytes) : bytes := hex_bytes data.

Definition edge (payload : Z) : BlankArc :=
  {| arc_source := 0; role := str "edge"; arc_target := Some 1; arc_payload := payload |}.
Definition sample_payloads : list bytes := [str "payload"; str "payload"].
Definition sample_component (labels : list Z) (payload : Z) : M Session BlankComponent :=
  alpha ← alpha_order [edge payload] sample_payloads 2 Limits_default NativeLimitDetails_default;
  mret {| global_labels := labels; component_arcs := [edge payload]; alpha := alpha |}.

Example alpha_vector :
  match result_of (sample_component [0; 1] 0) with
  | Ok c => (hex (graph (alpha c)), (setup_work (alpha c), refinement_work (alpha c), candidate_order_work (alpha c)),
             (result_rounds (alpha c), permutations_examined (alpha c)))
  | _ => ([], (0, 0, 0), (0, 0))
  end = (str "70796f776c2d636f72653a626c616e6b2d67726170683a7632000201100004656467650101077061796c6f6164",
         (4, 6, 3), (1, 1)).
Proof. vm_compute. reflexivity. Qed.

Definition sample_identities : M Session (bytes * list bytes * AnonymousCanonicalMetricsV2) :=
  first ← sample_component [0; 1] 0;
  second ← sample_component [2; 3] 1;
  let components := [first; second] in
  manifest ← component_manifest components;
  document_scope ← framed_digest DOCUMENT_SCOPE_DOMAIN (str "ontology-key") manifest;
  identities ← identities_for_components 4 components document_scope;
  metrics ← anonymous_metrics components 4 2;
  mret (document_scope, map (fun slot => match slot with Some i => key i | None => [] end) identities, metrics).

Example identities_vector :
  match result_of sample_identities with
  | Ok (document_scope, keys, m) =>
      (hex document_scope, map hex keys,
       [m_component_count m; m_largest_component_labels m; m_largest_component_arcs m; m_largest_component_roots m;
        m_maximum_root_interval_span m; m_maximum_open_root_intervals m; m_total_setup_work m;
        m_total_refinement_work m; m_total_candidate_order_work m; m_total_canonical_work m])
  | _ => ([], [], [])
  end =
  (str "8d1c3f2c1068788506082f3c597048d2d934dfad530d6c864d708bb5b8c0c0a9",
   [str "b22b8089f9ef61ea37d482f355e714bae2c0cf3dd3e6738bfb70c7d3c69c8c73";
    str "193b7a5768e93a443b8fca99d386985997d3a1dd0b83f84d76bd1725a4f5236b";
    str "71d226d29151745d047295d1573b190764da7c9ae38af5678fae7e05c2855a3e";
    str "bdac8436947fc21f5b4aa132835300787003bba6914114624f69578a80751373"],
   [2; 2; 1; 1; 1; 1; 8; 12; 6; 26]).
Proof. vm_compute. reflexivity. Qed.

(** ** A document: [SameIndividual(_:a _:b)] and a class assertion on one of them. *)

Definition blank (label : string) : component :=
  Component 3 [PBytes PROVISIONAL_SCOPE; PBytes (LEXICAL_KEY ++ Varint.frame (str label))].
Definition class_c : component := Component 2 [PKind KClass; PComponent (Component 1 [PText (str "urn:C")])].
Definition same_individual (a b : string) : component :=
  Component 110 [PSet [blank a; blank b]; PSet []].
Definition class_assertion (a : string) : component :=
  Component 112 [PComponent class_c; PComponent (blank a); PSet []].
Definition document_rows (a : string) : list (list bytes) :=
  [[]; [encode (same_individual "a" "b"); encode (class_assertion a)]; []].

Definition scoped (a : string) : outcome ScopedAnonymousRowsV2 :=
  result_of (scope_rdfxml_anonymous_rows_v2 (Some (str "urn:o")) None [] (document_rows a)).

(** * Anonymous scoping: its theorems *)

(** ** The canonical order of a component *)

(** What [alpha_order] may answer. *)
Definition orders (payloads : list bytes) (arcs : list BlankArc) (n : Z) (r : outcome AlphaResult) : Prop :=
  match r with
  | Ok result => canonical_result payloads arcs n result
  | Err e => resource_error e \/ (e = did_not_converge /\ settled payloads arcs n = None)
  | Panic => False
  end.

Lemma alpha_order_answers payloads arcs n limits details s :
  session_ok s -> 0 <= n < USIZE_MAX -> (forall arc, In arc arcs -> arc_in payloads n arc) ->
  max_canonical_work limits <= U64_MAX -> orders payloads arcs n (fst (alpha_order arcs payloads n limits details s)).
Proof.
  intros Hs Hn Ha Hm. pose proof (charged_alpha_order payloads arcs n limits details Hn Ha Hm) as H.
  unfold orders. destruct (settled payloads arcs n) as [p|].
  - destruct H as (result & H & Hr). pose proof (charged_answer _ _ s H Hs) as H'.
    destruct (fst (alpha_order arcs payloads n limits details s)) as [r|e|]; [by injection H' as <-|left; by destruct H'|done].
  - pose proof (charged_answer _ _ s H Hs) as H'.
    destruct (fst (alpha_order arcs payloads n limits details s)) as [r|e|]; [done| |done]. destruct H' as [?|[= <-]]; [by left|by right].
Qed.

(** C8: The canonical order of a component lists its color classes one after
    another, in the order of their colors, and its graph is the least among
    the graphs of all orders that do; the number of examined permutations is
    the number of these orders.  The search never panics, and fails only for
    want of resources or because refinement does not converge. *)
Theorem alpha_order_returns_the_least_graph payloads arcs n limits details s :
  session_ok s -> 0 <= n < USIZE_MAX -> (forall arc, In arc arcs -> arc_in payloads n arc) ->
  max_canonical_work limits <= U64_MAX -> orders payloads arcs n (fst (alpha_order arcs payloads n limits details s)).
Proof. apply alpha_order_answers. Qed.

Definition sample_arcs : list BlankArc := [edge 0].

Lemma sample_arcs_in arc : In arc sample_arcs -> arc_in sample_payloads 2 arc.
Proof. intros [<-|[]]. unfold arc_in. cbn. split; [lia|]. split; [lia|]. intros t [= <-]. lia. Qed.

Lemma blank_session_ok : session_ok blank_session.
Proof. constructor; try done; vm_compute; try (split; discriminate); discriminate. Qed.

Lemma alpha_order_returns_the_least_graph_witness : exists result,
  fst (alpha_order sample_arcs sample_payloads 2 Limits_default NativeLimitDetails_default blank_session) = Ok result /\
  canonical_result sample_payloads sample_arcs 2 result.
Proof.
  pose proof (alpha_order_returns_the_least_graph sample_payloads sample_arcs 2 Limits_default NativeLimitDetails_default blank_session
    blank_session_ok ltac:(split; reflexivity || discriminate) sample_arcs_in ltac:(vm_compute; discriminate)) as H.
  assert (match fst (alpha_order sample_arcs sample_payloads 2 Limits_default NativeLimitDetails_default blank_session) with Ok _ => true | _ => false end = true)
    as Hn by (vm_compute; reflexivity).
  destruct (fst (alpha_order sample_arcs sample_payloads 2 Limits_default NativeLimitDetails_default blank_session)) as [r|e|]; [|discriminate Hn..].
  exists r. split; [reflexivity|exact H].
Defined.

(** ** The graph does not depend on the labels *)

(** Two answers about isomorphic components. *)
Definition same_form (r r' : outcome AlphaResult) : Prop :=
  match r, r' with
  | Ok a, Ok b => graph a = graph b /\ result_rounds a = result_rounds b /\ permutations_examined a = permutations_examined b
  | Ok _, Err e | Err e, Ok _ => resource_error e
  | Err e, Err e' => resource_error e \/ resource_error e' \/ e = e'
  | _, _ => False
  end.

(** C14: Renaming the labels of a component and reordering its arcs changes
    neither its canonical graph nor the number of refinement rounds or of
    examined permutations. *)
Theorem canonical_graph_is_invariant payloads payloads' rename arcs arcs' n limits details s s' :
  session_ok s -> session_ok s' -> 0 <= n < USIZE_MAX -> max_canonical_work limits <= U64_MAX ->
  (forall arc, In arc arcs -> arc_in payloads n arc) -> (forall arc, In arc arcs' -> arc_in payloads' n arc) ->
  isomorphic n payloads payloads' rename arcs arcs' ->
  same_form (fst (alpha_order arcs payloads n limits details s)) (fst (alpha_order arcs' payloads' n limits details s')).
Proof.
  intros Hs Hs' Hn Hm Ha Ha' Hiso.
  pose proof (alpha_order_answers payloads arcs n limits details s Hs Hn Ha Hm) as H.
  pose proof (alpha_order_answers payloads' arcs' n limits details s' Hs' Hn Ha' Hm) as H'.
  pose proof (settled_alike n payloads payloads' rename arcs arcs' Hn Ha Hiso) as Hsettled.
  unfold orders in H, H'. unfold same_form.
  destruct (fst (alpha_order arcs payloads n limits details s)) as [a|e|], (fst (alpha_order arcs' payloads' n limits details s')) as [b|e'|]; try done.
  - destruct (canonical_result_invariant n payloads payloads' rename arcs arcs' a b Hn Ha Hiso H H') as (? & ? & ?). done.
  - destruct H' as [?|[-> E]]; [done|]. destruct H as (colors & rounds & classes & Es & _). rewrite Es, E in Hsettled. by inversion Hsettled.
  - destruct H as [?|[-> E]]; [done|]. destruct H' as (colors & rounds & classes & Es & _). rewrite Es, E in Hsettled. by inversion Hsettled.
  - destruct H as [?|[-> _]]; [by left|]. destruct H' as [?|[-> _]]; [by right; left|]. by right; right.
Qed.

Definition swap (x : Z) : Z := 1 - x.
Definition swapped_arcs : list BlankArc :=
  [{| arc_source := 1; role := str "edge"; arc_target := Some 0; arc_payload := 0 |}].

Lemma swapped_arcs_in arc : In arc swapped_arcs -> arc_in sample_payloads 2 arc.
Proof. intros [<-|[]]. unfold arc_in. cbn. split; [lia|]. split; [lia|]. intros t [= <-]. lia. Qed.

Lemma swapped_isomorphic : isomorphic 2 sample_payloads sample_payloads swap sample_arcs swapped_arcs.
Proof.
  unfold swap. constructor; [intros; lia|intros; lia|]. exists swapped_arcs. split; [|done].
  apply Forall2_cons. split; [|by apply Forall2_nil]. unfold relabelled. cbn. split; [done|]. split; [done|]. split; done.
Qed.

Lemma canonical_graph_is_invariant_witness :
  same_form (fst (alpha_order sample_arcs sample_payloads 2 Limits_default NativeLimitDetails_default blank_session))
    (fst (alpha_order swapped_arcs sample_payloads 2 Limits_default NativeLimitDetails_default blank_session)).
Proof.
  exact (canonical_graph_is_invariant sample_payloads sample_payloads swap sample_arcs swapped_arcs 2 Limits_default NativeLimitDetails_default
    blank_session blank_session blank_session_ok blank_session_ok ltac:(split; reflexivity || discriminate) ltac:(vm_compute; discriminate)
    sample_arcs_in swapped_arcs_in swapped_isomorphic).
Defined.

(** ** Refinement ends *)

(** The answer after so many rounds at most. *)
Definition within_rounds (bound : Z) (r : outcome AlphaResult) : Prop :=
  match r with Ok result => 1 <= result_rounds result <= bound | Err e => resource_error e | Panic => False end.

(** C39: When the digests of the rounds tell their signatures apart, refinement
    is stable after one round more than there are labels at most, and the
    error for refinement that does not converge is not reported. *)
Theorem refinement_converges payloads arcs n limits details s :
  session_ok s -> 0 <= n < USIZE_MAX -> (forall arc, In arc arcs -> arc_in payloads n arc) ->
  max_canonical_work limits <= U64_MAX ->
  (forall rounds, (rounds <= Z.to_nat n)%nat -> told_apart payloads arcs n (colors_after payloads arcs n rounds)) ->
  within_rounds (n + 1) (fst (alpha_order arcs payloads n limits details s)).
Proof.
  intros Hs Hn Ha Hm Hapart. pose proof (alpha_order_answers payloads arcs n limits details s Hs Hn Ha Hm) as H.
  destruct (settles payloads arcs n Hn Hapart) as (colors & rounds & Es & Hr).
  unfold orders in H. unfold within_rounds.
  destruct (fst (alpha_order arcs payloads n limits details s)) as [a|e|]; [|destruct H as [?|[_ E]]; [done|congruence]|done].
  destruct H as (colors' & rounds' & classes & Es' & _ & _ & _ & -> & _). rewrite Es in Es'. injection Es' as <- <-.
  pose proof (stable_colors_rounds payloads arcs n Hn _ _ _ _ _ Es). lia.
Qed.

(** Deciding [told_apart] on a list of colors. *)
Definition told_apart_by (payloads : list bytes) (arcs : list BlankArc) (n : Z) (colors : list bytes) : bool :=
  forallb (fun label => forallb (fun other =>
    negb (bytes_eqb (color_of (round_signature payloads arcs colors label)) (color_of (round_signature payloads arcs colors other))) ||
    bool_decide (round_signature payloads arcs colors label = round_signature payloads arcs colors other)) (seqZ 0 n)) (seqZ 0 n).

Lemma told_apart_by_spec payloads arcs n colors : told_apart_by payloads arcs n colors = true -> told_apart payloads arcs n colors.
Proof.
  unfold told_apart_by. rewrite forallb_forall. intros H label other Hl Ho E.
  assert (forall x, 0 <= x < n -> In x (seqZ 0 n)) as Hin by (intros x Hx; apply list_elem_of_In, elem_of_seqZ; lia).
  specialize (H label (Hin label Hl)). rewrite forallb_forall in H. specialize (H other (Hin other Ho)).
  rewrite E, bytes_eqb_refl in H. cbn [negb orb] in H. by apply bool_decide_eq_true in H.
Qed.

Lemma refinement_converges_witness :
  within_rounds 3 (fst (alpha_order sample_arcs sample_payloads 2 Limits_default NativeLimitDetails_default blank_session)).
Proof.
  refine (refinement_converges sample_payloads sample_arcs 2 Limits_default NativeLimitDetails_default blank_session
    blank_session_ok ltac:(split; reflexivity || discriminate) sample_arcs_in ltac:(vm_compute; discriminate) _).
  intros [|[|[|rounds]]] Hr; [apply told_apart_by_spec; vm_compute; reflexivity..|]. exfalso. cbn in Hr. lia.
Defined.

(** ** The components of a document *)

Definition refused (e : NativeError) : Prop := resource_error e \/ e = did_not_converge.

Definition splits (n : Z) (payloads : list bytes) (arcs : list BlankArc) (r : outcome (list BlankComponent)) : Prop :=
  match r with Ok components => components_of n payloads arcs components | Err e => refused e | Panic => False end.

Lemma canonical_components_answers payloads arcs n limits s :
  session_ok s -> 0 <= n < USIZE_MAX -> (forall arc, In arc arcs -> arc_in payloads n arc) ->
  max_canonical_work limits <= U64_MAX -> splits n payloads arcs (fst (canonical_components n arcs payloads limits s)).
Proof.
  intros Hs Hn Ha Hm. destruct (charged_canonical_components n payloads arcs limits Hn Ha Hm) as (o & Ho & Hcases).
  pose proof (charged_answer _ _ s Ho Hs) as H. unfold splits.
  destruct (fst (canonical_components n arcs payloads limits s)) as [cs|e|]; [| |done].
  - destruct Hcases as [-> |(components & -> & Hc)]; [done|]. by injection H as <-.
  - destruct H as [?| ->]; [by left|]. destruct Hcases as [[= ->]|(components & ? & _)]; [by right|done].
Qed.

(** C10: [canonical_components] splits the labels of a document into the
    connected components of its arcs: every label is in one component, two
    labels are in the same one exactly when arcs connect them, each component
    lists its labels in ascending order with the arcs between them, and its
    order is the canonical one.  The union-find loops always end. *)
Theorem components_are_the_connected_components payloads arcs n limits s :
  session_ok s -> 0 <= n < USIZE_MAX -> (forall arc, In arc arcs -> arc_in payloads n arc) ->
  max_canonical_work limits <= U64_MAX -> splits n payloads arcs (fst (canonical_components n arcs payloads limits s)).
Proof. apply canonical_components_answers. Qed.

(** Three labels, two of them connected. *)
Definition three_arcs : list BlankArc :=
  [{| arc_source := 2; role := str "edge"; arc_target := Some 0; arc_payload := 0 |};
   {| arc_source := 1; role := str "type"; arc_target := None; arc_payload := 1 |}].

Lemma three_arcs_in arc : In arc three_arcs -> arc_in sample_payloads 3 arc.
Proof. intros [<-|[<-|[]]]; unfold arc_in; cbn; (split; [lia|]; split; [lia|]; intros t; try done; intros [= <-]; lia). Qed.

Lemma components_are_the_connected_components_witness : exists components,
  fst (canonical_components 3 three_arcs sample_payloads Limits_default blank_session) = Ok components /\
  map global_labels components = [[0; 2]; [1]] /\ components_of 3 sample_payloads three_arcs components.
Proof.
  pose proof (components_are_the_connected_components sample_payloads three_arcs 3 Limits_default blank_session
    blank_session_ok ltac:(split; reflexivity || discriminate) three_arcs_in ltac:(vm_compute; discriminate)) as H.
  assert (match fst (canonical_components 3 three_arcs sample_payloads Limits_default blank_session) with
          | Ok cs => bool_decide (map global_labels cs = [[0; 2]; [1]]) | _ => false end = true) as Hn by (vm_compute; reflexivity).
  destruct (fst (canonical_components 3 three_arcs sample_payloads Limits_default blank_session)) as [cs|e|]; [|discriminate Hn..].
  exists cs. split; [reflexivity|]. split; [exact (proj1 (bool_decide_eq_true _) Hn)|exact H].
Defined.

(** ** The manifest *)

(** The manifest of a document, from which its scope is derived. *)
Definition document_manifest (n : Z) (arcs : list BlankArc) (payloads : list bytes) (limits : Limits) : M Session bytes :=
  components ← canonical_components n arcs payloads limits; component_manifest components.

Definition same_or_refused (r r' : outcome bytes) : Prop :=
  match r, r' with
  | Ok m, Ok m' => m = m'
  | Ok _, Err e | Err e, Ok _ => refused e
  | Err e, Err e' => refused e /\ refused e'
  | _, _ => False
  end.

Lemma document_manifest_answers payloads arcs n limits s :
  session_ok s -> 0 <= n < USIZE_MAX -> (forall arc, In arc arcs -> arc_in payloads n arc) -> max_canonical_work limits <= U64_MAX ->
  match fst (document_manifest n arcs payloads limits s) with
  | Ok m => exists components, components_of n payloads arcs components /\ m = manifest_of (map (fun c => graph (alpha c)) components)
  | Err e => refused e
  | Panic => False
  end.
Proof.
  intros Hs Hn Ha Hm. destruct (charged_canonical_components n payloads arcs limits Hn Ha Hm) as (o & Ho & Hcases).
  destruct Hcases as [-> |(components & -> & Hc)].
  - assert (charged (document_manifest n arcs payloads limits) (Err did_not_converge)) as H.
    { eapply (charged_bind _ _ _ (fun _ => Panic)) in Ho; [exact Ho|done]. }
    pose proof (charged_answer _ _ s H Hs) as H'. destruct (fst (document_manifest n arcs payloads limits s)) as [m|e|]; [done| |done].
    destruct H' as [?|[= <-]]; [by left|by right].
  - assert (charged (document_manifest n arcs payloads limits) (Ok (manifest_of (map (fun c => graph (alpha c)) components)))) as H.
    { eapply charged_then; [exact Ho|]. apply charged_manifest. }
    pose proof (charged_answer _ _ s H Hs) as H'. destruct (fst (document_manifest n arcs payloads limits s)) as [m|e|]; [| |done].
    + exists components. split; [done|]. by injection H' as <-.
    + destruct H' as [?|?]; [by left|done].
Qed.

(** C13: Isomorphic lists of arcs have the same manifest: when a renaming of
    the labels takes the arcs of one document to those of another, in whatever
    order either lists them, the manifests of their components, from which the
    document scopes are digested, are equal unless one is refused.  The
    condition is on arcs: exchanging the labels of a document need not exchange
    its arcs (see [scoping_depends_on_labels_of_similar_set_members]). *)
Theorem manifest_is_invariant payloads payloads' rename arcs arcs' n limits s s' :
  session_ok s -> session_ok s' -> 0 <= n < USIZE_MAX -> max_canonical_work limits <= U64_MAX ->
  (forall arc, In arc arcs -> arc_in payloads n arc) -> (forall arc, In arc arcs' -> arc_in payloads' n arc) ->
  isomorphic n payloads payloads' rename arcs arcs' ->
  same_or_refused (fst (document_manifest n arcs payloads limits s)) (fst (document_manifest n arcs' payloads' limits s')).
Proof.
  intros Hs Hs' Hn Hm Ha Ha' Hiso.
  pose proof (document_manifest_answers payloads arcs n limits s Hs Hn Ha Hm) as H.
  pose proof (document_manifest_answers payloads' arcs' n limits s' Hs' Hn Ha' Hm) as H'. unfold same_or_refused.
  destruct (fst (document_manifest n arcs payloads limits s)) as [m|e|], (fst (document_manifest n arcs' payloads' limits s')) as [m'|e'|]; try done.
  destruct H as (components & Hc & ->), H' as (components' & Hc' & ->). symmetry.
  by apply manifest_of_Permutation, (graphs_invariant n payloads payloads' rename arcs arcs').
Qed.

Definition rotate (x : Z) : Z := if x =? 0 then 2 else x - 1.
Definition rotated_arcs : list BlankArc :=
  [{| arc_source := 0; role := str "type"; arc_target := None; arc_payload := 1 |};
   {| arc_source := 1; role := str "edge"; arc_target := Some 2; arc_payload := 0 |}].

Lemma rotated_arcs_in arc : In arc rotated_arcs -> arc_in sample_payloads 3 arc.
Proof. intros [<-|[<-|[]]]; unfold arc_in; cbn; (split; [lia|]; split; [lia|]; intros t; try done; intros [= <-]; lia). Qed.

Lemma rotated_isomorphic : isomorphic 3 sample_payloads sample_payloads rotate three_arcs rotated_arcs.
Proof.
  constructor.
  - intros x Hx. unfold rotate. destruct (Z.eqb_spec x 0); lia.
  - intros x y Hx Hy. unfold rotate. destruct (Z.eqb_spec x 0), (Z.eqb_spec y 0); lia.
  - exists (reverse rotated_arcs). split; [|apply reverse_Permutation]. unfold reverse, rotated_arcs. cbn.
    apply Forall2_cons. split; [|apply Forall2_cons; split; [|by apply Forall2_nil]]; unfold relabelled; cbn; (split; [done|]; split; [done|]; split; done).
Qed.

Lemma manifest_is_invariant_witness : exists m,
  fst (document_manifest 3 three_arcs sample_payloads Limits_default blank_session) = Ok m /\
  fst (document_manifest 3 rotated_arcs sample_payloads Limits_default blank_session) = Ok m.
Proof.
  pose proof (manifest_is_invariant sample_payloads sample_payloads rotate three_arcs rotated_arcs 3 Limits_default blank_session blank_session
    blank_session_ok blank_session_ok ltac:(split; reflexivity || discriminate) ltac:(vm_compute; discriminate)
    three_arcs_in rotated_arcs_in rotated_isomorphic) as H.
  assert (match fst (document_manifest 3 three_arcs sample_payloads Limits_default blank_session),
                fst (document_manifest 3 rotated_arcs sample_payloads Limits_default blank_session) with
          | Ok _, Ok _ => true | _, _ => false end = true) as Hn by (vm_compute; reflexivity).
  destruct (fst (document_manifest 3 three_arcs sample_payloads Limits_default blank_session)) as [m|e|],
    (fst (document_manifest 3 rotated_arcs sample_payloads Limits_default blank_session)) as [m'|e'|]; try discriminate Hn.
  exists m. split; [reflexivity|]. cbn in H. by rewrite H.
Defined.

(** ** Identities *)

(** What is digested for the keys of a document. *)
Definition class_preimage (graph : bytes) : bytes := COMPONENT_CLASS_DOMAIN ++ frame graph.
Definition key_preimage (scope class : bytes) (ordinal index : Z) : bytes :=
  ANONYMOUS_KEY_DOMAIN ++ scope ++ class ++ varint ordinal ++ varint index.

Lemma digest_spec pieces : digest pieces = sha256 (concat pieces).
Proof.
  rewrite sha256_is_spec. apply finish_absorbed, streaming_absorbed.
Qed.

Lemma class_of_spec graph : class_of graph = sha256 (class_preimage graph).
Proof.
  refine (eq_trans (digest_spec _) (f_equal sha256 _)). unfold class_preimage. cbn [concat]. by rewrite app_nil_r.
Qed.

Lemma key_of_spec scope class ordinal index : key_of scope class ordinal index = sha256 (key_preimage scope class ordinal index).
Proof.
  refine (eq_trans (digest_spec _) (f_equal sha256 _)). unfold key_preimage. cbn [concat]. by rewrite app_nil_r.
Qed.

(** The labels of a document with their components. *)
Definition label_places (components : list BlankComponent) : list (Z * BlankComponent * Z) :=
  concat (imap (fun k c => map (fun x => (Z.of_nat k, c, x)) (global_labels c)) components).

Definition digested (components : list BlankComponent) (scope : bytes) : list bytes :=
  map (fun c => class_preimage (graph (alpha c))) components ++
  map (fun '(k, c, x) => key_preimage scope (class_of (graph (alpha c))) (class_ordinal components k)
         (position (order (alpha c)) (position (global_labels c) x))) (label_places components).

(** SHA-256 tells some messages apart. *)
Definition collision_free (messages : list bytes) : Prop :=
  forall p q, In p messages -> In q messages -> sha256 p = sha256 q -> p = q.

(** Every label has an identity of the document scope, and no two the same. *)
Definition identifies (n : Z) (scope : bytes) (r : outcome (list (option Identity))) : Prop :=
  match r with
  | Ok identities => exists f, identities = table n (fun x => Some (f x)) /\
      (forall x, 0 <= x < n -> CanonicalTree.scope (f x) = scope) /\
      (forall x y, 0 <= x < n -> 0 <= y < n -> f x = f y -> x = y)
  | Err e => resource_error e
  | Panic => False
  end.

Lemma label_places_in components k c x : get_at components k = Some c -> x ∈ global_labels c -> In (k, c, x) (label_places components).
Proof.
  intros [Hk Hc]%get_at_Some Hx. unfold label_places. apply in_concat. exists (map (fun x => (k, c, x)) (global_labels c)). split.
  - apply list_elem_of_In. apply list_elem_of_lookup. exists (Z.to_nat k). rewrite list_lookup_imap, Hc. cbn. by rewrite Z2Nat.id.
  - apply in_map_iff. exists x. split; [done|by apply list_elem_of_In].
Qed.

#[local] Opaque sha256 digest class_of key_of.

(** Distinct places have distinct preimages. *)
Lemma identity_injective n payloads arcs components scope k c x k' c' x' :
  0 <= n < USIZE_MAX -> components_of n payloads arcs components -> collision_free (digested components scope) ->
  get_at components k = Some c -> x ∈ global_labels c -> get_at components k' = Some c' -> x' ∈ global_labels c' ->
  identity_of components scope k c x = identity_of components scope k' c' x' -> x = x'.
Proof.
  intros Hn Hcs Hfree Hk Hx Hk' Hx' E. apply (f_equal CanonicalTree.key) in E. unfold identity_of in E. cbn [CanonicalTree.key] in E.
  rewrite !key_of_spec in E.
  assert (forall k c x, get_at components k = Some c -> x ∈ global_labels c ->
    In (key_preimage scope (class_of (graph (alpha c))) (class_ordinal components k) (position (order (alpha c)) (position (global_labels c) x))) (digested components scope)) as Hkey.
  { intros l d y Hl Hy. unfold digested. apply in_app_iff. right. apply in_map_iff. exists (l, d, y). split; [done|]. by apply label_places_in. }
  apply Hfree in E; [|by apply Hkey..]. unfold key_preimage in E. apply app_inv_head, app_inv_head in E.
  apply app_inj_1 in E as [Eclass E]; [|by rewrite !class_of_spec, !length_sha256].
  pose proof (position_nonneg (filter (fun j => graph_of_index components j = graph_of_index components k) (sorted_indexes components)) k) as Hp1.
  pose proof (position_nonneg (filter (fun j => graph_of_index components j = graph_of_index components k') (sorted_indexes components)) k') as Hp2.
  apply varint_app_inj in E as [Eord Eidx]; [|exact Hp1|exact Hp2].
  apply varint_inj in Eidx; [|apply position_nonneg..].
  rewrite !class_of_spec in Eclass. apply Hfree in Eclass.
  2,3: unfold digested; apply in_app_iff; left; apply in_map_iff; eexists; (split; [reflexivity|]); apply list_elem_of_In, elem_of_get_at; eauto.
  unfold class_preimage in Eclass. apply app_inv_head in Eclass. unfold frame in Eclass.
  apply varint_app_inj in Eclass as [_ Egraph]; [|lia|lia].
  assert (graph_of_index components k = graph_of_index components k') as Eg by (unfold graph_of_index; by rewrite Hk, Hk').
  assert (forall l d, get_at components l = Some d -> l ∈ filter (fun j => graph_of_index components j = graph_of_index components l) (sorted_indexes components)) as Hmem.
  { intros l d Hl. apply list_elem_of_filter. split; [done|]. unfold sorted_indexes. rewrite sort_by_perm. apply elem_of_seqZ. apply get_at_lt in Hl. lia. }
  assert (NoDup (filter (fun j => graph_of_index components j = graph_of_index components k') (sorted_indexes components))) as Hnd.
  { apply NoDup_filter. unfold sorted_indexes. rewrite sort_by_perm. apply NoDup_seqZ. }
  pose proof (Hmem k c Hk) as Hm. pose proof (Hmem k' c' Hk') as Hm'. unfold class_ordinal in Eord. rewrite Eg in Eord, Hm.
  pose proof (position_spec _ _ Hnd Hm) as H1. pose proof (position_spec _ _ Hnd Hm') as H2. rewrite Eord, H2 in H1. injection H1 as <-.
  rewrite Hk in Hk'. injection Hk' as <-. pose proof Hk as [_ Hc]%get_at_Some.
  pose proof (component_sorted n payloads arcs components _ c Hcs Hc) as Hndl.
  pose proof (canonical_order_perm n payloads arcs components Hn Hcs k' c Hk) as Hperm.
  assert (NoDup (order (alpha c))) as Hndo by (rewrite Hperm; apply NoDup_seqZ).
  pose proof (position_spec _ _ Hndl Hx) as Hpx. pose proof (position_spec _ _ Hndl Hx') as Hpx'.
  assert (position (global_labels c) x = position (global_labels c) x') as Epos.
  { assert (forall y, get_at (global_labels c) (position (global_labels c) y) = Some y -> position (global_labels c) y ∈ order (alpha c)) as Hin.
    { intros y Hy. rewrite Hperm. apply elem_of_seqZ. apply get_at_lt in Hy. lia. }
    pose proof (position_spec _ _ Hndo (Hin x Hpx)) as Hq1. pose proof (position_spec _ _ Hndo (Hin x' Hpx')) as Hq2.
    rewrite Eidx, Hq2 in Hq1. by injection Hq1. }
  rewrite Epos, Hpx' in Hpx. by injection Hpx.
Qed.

(** C15: Every label of a document gets an identity in the document scope, and
    distinct labels get distinct identities unless SHA-256 collides on one of
    the classes and keys that are digested; the consistency checks of the
    identity ledger never fire. *)
Theorem labels_get_distinct_identities n payloads arcs components scope s :
  session_ok s -> 0 <= n < USIZE_MAX -> components_of n payloads arcs components ->
  collision_free (digested components scope) ->
  identifies n scope (fst (identities_for_components n components scope s)).
Proof.
  intros Hs Hn Hc Hfree. destruct (charged_identities n payloads arcs components scope Hn Hc) as (f & Hf & Hid).
  pose proof (charged_answer _ _ s Hf Hs) as H. unfold identifies.
  destruct (fst (identities_for_components n components scope s)) as [ids|e|]; [|by destruct H|done]. injection H as <-.
  assert (forall x, 0 <= x < n -> exists k c, get_at components k = Some c /\ x ∈ global_labels c /\ f x = Some (identity_of components scope k c x)) as Hplace.
  { intros x Hx. destruct (component_of_label n payloads arcs components x Hc Hx) as (i & c & Hi & Hxc). apply get_at_nat in Hi.
    exists (Z.of_nat i), c. split; [done|]. split; [done|]. by apply Hid. }
  exists (fun x => default {| CanonicalTree.scope := []; key := [] |} (f x)). split; [|split].
  - apply table_ext. intros x Hx. by destruct (Hplace x Hx) as (k & c & _ & _ & ->).
  - intros x Hx. by destruct (Hplace x Hx) as (k & c & _ & _ & ->).
  - intros x y Hx Hy E. destruct (Hplace x Hx) as (k & c & Hk & Hxc & Ex), (Hplace y Hy) as (k' & c' & Hk' & Hyc & Ey).
    rewrite Ex, Ey in E. cbn in E. by apply (identity_injective n payloads arcs components scope k c x k' c' y).
Qed.

Definition three_components : list BlankComponent :=
  match fst (canonical_components 3 three_arcs sample_payloads Limits_default blank_session) with Ok components => components | _ => [] end.

Lemma three_components_of : components_of 3 sample_payloads three_arcs three_components.
Proof.
  pose proof (canonical_components_answers sample_payloads three_arcs 3 Limits_default blank_session
    blank_session_ok ltac:(split; reflexivity || discriminate) three_arcs_in ltac:(vm_compute; discriminate)) as H.
  unfold three_components.
  assert (match fst (canonical_components 3 three_arcs sample_payloads Limits_default blank_session) with Ok _ => true | _ => false end = true) as Hn by (vm_compute; reflexivity).
  destruct (fst (canonical_components 3 three_arcs sample_payloads Limits_default blank_session)) as [cs|e|]; [exact H|discriminate Hn..].
Qed.

(** Deciding [collision_free]. *)
Definition collision_free_by (messages : list bytes) : bool :=
  forallb (fun p => forallb (fun q => negb (bytes_eqb (sha256 p) (sha256 q)) || bytes_eqb p q) messages) messages.

Lemma collision_free_by_spec messages : collision_free_by messages = true -> collision_free messages.
Proof.
  unfold collision_free_by. rewrite forallb_forall. intros H p q Hp Hq E. specialize (H p Hp). rewrite forallb_forall in H.
  specialize (H q Hq). rewrite E, bytes_eqb_refl in H. cbn [negb orb] in H. by apply bytes_eqb_eq in H.
Qed.

Lemma labels_get_distinct_identities_witness : exists f,
  fst (identities_for_components 3 three_components (sha256 []) blank_session) = Ok (table 3 (fun x => Some (f x))) /\
  forall x y, 0 <= x < 3 -> 0 <= y < 3 -> f x = f y -> x = y.
Proof.
  pose proof (labels_get_distinct_identities 3 sample_payloads three_arcs three_components (sha256 []) blank_session blank_session_ok
    ltac:(split; reflexivity || discriminate) three_components_of ltac:(apply collision_free_by_spec; vm_compute; reflexivity)) as H.
  assert (match fst (identities_for_components 3 three_components (sha256 []) blank_session) with Ok _ => true | _ => false end = true)
    as Hn by (vm_compute; reflexivity).
  destruct (fst (identities_for_components 3 three_components (sha256 []) blank_session)) as [ids|e|]; [|discriminate Hn..].
  destruct H as (f & -> & _ & H). exists f. split; [reflexivity|exact H].
Defined.

(** ** Rows *)

(** A row is scanned, read, and written again with some identities replaced. *)
Definition rewrite_row (limits : Limits) (g : Identity -> option Identity) (row : bytes) : M Session bytes :=
  node ← parse_row limits row; encode_replaced (fun identity => Ok (g identity)) node.

(** What comes of a row. *)
Definition rewritten (limits : Limits) (g : Identity -> option Identity) (row : bytes) (r : outcome bytes) : Prop :=
  match r with
  | Ok out => exists c, canonical_row (from_limits limits) row c /\ out = encode (rename g c) /\ ((forall i, g i = None) -> out = row)
  | Err e => resource_error e \/ forall c, ~ canonical_row (from_limits limits) row c
  | Panic => False
  end.

Lemma rename_none g c : (forall i, g i = None) -> canonical_sets c -> rename g c = c.
Proof.
  intros Hg. induction c as [t ps IH] using component_nested. intros Hc. destruct (Z.eq_dec t 3) as [->|Ht].
  - cbn [rename Z.eqb Pos.eqb]. destruct ps as [|[] [|[] [|]]]; try done. unfold rename_individual. by rewrite Hg.
  - rewrite rename_parts by done. f_equal. apply canonical_sets_parts in Hc. apply map_id_Forall. rewrite Forall_forall in *.
    intros p Hp. specialize (IH p Hp). specialize (Hc p Hp).
    destruct p as [|text|data|value|kind|c|cs|cs]; cbn [rename_part on_part canonical_sets_part] in *; try done.
    + by rewrite IH.
    + destruct Hc as [Ha Hc]. apply fold_and_Forall in Hc. rewrite map_id_Forall; [by rewrite canonical_members_id|].
      rewrite Forall_forall in *. auto.
    + apply fold_and_Forall in Hc. rewrite map_id_Forall; [done|]. rewrite Forall_forall in *. auto.
Qed.

Lemma rewrite_row_answers limits g row s :
  is_bytes row -> len row <= USIZE_MAX -> session_ok s -> 0 <= max_nesting_depth limits -> 0 <= max_terms limits <= U64_MAX ->
  rewritten limits g row (fst (rewrite_row limits g row s)).
Proof.
  intros Hb Hl Hs Hd Ht.
  assert (forall category, fst (scan_canonical row (from_limits limits)) <> Panic /\
    (fst (scan_canonical row (from_limits limits)) = Ok category <-> exists c, canonical_row (from_limits limits) row c /\ component_category c = category)) as Hscan.
  { intros category. apply scan_canonical_cases; try done; [apply from_limits_ok; lia|cbn; lia]. }
  destruct (fst (scan_canonical row (from_limits limits))) as [category|e|] eqn:E.
  - destruct (proj1 (proj2 (Hscan category)) eq_refl) as (c & Hc & _).
    assert (charged (rewrite_row limits g row) (Ok (encode (rename g c)))) as H.
    { pose proof Hc as [-> Hwf _ _]. unfold rewrite_row, parse_row. eapply (charged_then _ _ (tree c)).
      - charges. rewrite E. eapply charged_then; [by apply charged_lift|]. apply charged_parse_root; [by eapply well_formed_readable|done|done].
      - apply charged_encode_replaced; [by eapply well_formed_scopable|by eapply well_formed_canonical_sets|].
        unfold answers. by apply Forall_forall. }
    pose proof (charged_answer _ _ s H Hs) as H'. unfold rewritten.
    destruct (fst (rewrite_row limits g row s)) as [out|e|]; [|left; by destruct H'|done]. injection H' as <-.
    exists c. split; [done|]. split; [done|]. intros Hg. pose proof Hc as [-> Hwf _ _]. by rewrite rename_none by (done || by eapply well_formed_canonical_sets).
  - assert (charged (rewrite_row limits g row) (Err e)) as H.
    { unfold rewrite_row, parse_row. eapply charged_eq; [apply (charged_bind _ _ (Err e) (fun _ => Panic)); [|done]|done].
      charges. rewrite E. eapply charged_eq; [apply (charged_bind _ _ (Err e) (fun _ => Panic)); [by apply charged_lift|done]|done]. }
    pose proof (charged_answer _ _ s H Hs) as H'. unfold rewritten.
    destruct (fst (rewrite_row limits g row s)) as [out|e'|]; [done| |done]. right. intros c Hc.
    destruct (Hscan (component_category c)) as [_ Hd']. discriminate (proj2 Hd' (ex_intro _ c (conj Hc eq_refl))).
  - by destruct (Hscan CIri) as [? _].
Qed.

(** Reading a row and writing it again with some of its anonymous
    individuals replaced gives the canonical row of the renamed component, its
    sets in canonical order again; without replacements it is the same row.
    Rows that are not canonical are refused, and nothing panics. *)
Theorem rows_are_rewritten_canonically limits g row s :
  is_bytes row -> len row <= USIZE_MAX -> session_ok s -> 0 <= max_nesting_depth limits -> 0 <= max_terms limits <= U64_MAX ->
  rewritten limits g row (fst (rewrite_row limits g row s)).
Proof. apply rewrite_row_answers. Qed.

Definition to_named (i : Identity) : option Identity :=
  if bool_decide (key i = LEXICAL_KEY ++ frame (str "a")) then Some {| scope := sha256 []; key := sha256 [1] |} else None.

Lemma rows_are_rewritten_canonically_witness : exists out c,
  fst (rewrite_row Limits_default to_named (encode (same_individual "a" "b")) blank_session) = Ok out /\
  canonical_row (from_limits Limits_default) (encode (same_individual "a" "b")) c /\ out = encode (rename to_named c) /\
  out <> encode (same_individual "a" "b").
Proof.
  pose proof (rows_are_rewritten_canonically Limits_default to_named (encode (same_individual "a" "b")) blank_session
    ltac:(apply is_bytesb_true; vm_compute; reflexivity) ltac:(vm_compute; discriminate) blank_session_ok
    ltac:(vm_compute; discriminate) ltac:(split; vm_compute; discriminate)) as H.
  assert (match fst (rewrite_row Limits_default to_named (encode (same_individual "a" "b")) blank_session) with
          | Ok out => negb (bytes_eqb out (encode (same_individual "a" "b"))) | _ => false end = true) as Hn by (vm_compute; reflexivity).
  destruct (fst (rewrite_row Limits_default to_named (encode (same_individual "a" "b")) blank_session)) as [out|e|]; [|discriminate Hn..].
  destruct H as (c & Hc & E & _). exists out, c. split; [reflexivity|]. split; [exact Hc|]. split; [exact E|].
  apply negb_true_iff in Hn. exact (proj1 (bytes_eqb_neq _ _) Hn).
Defined.

(** ** Scoping a document *)

Definition limits_fit (limits : Limits) : Prop :=
  0 <= max_nesting_depth limits /\ 0 <= max_terms limits <= U64_MAX /\ max_canonical_work limits <= U64_MAX.

(** What comes of a document with the given rows of its header: it is scoped,
    with some identities for its labels, or refused. *)
Definition scoped_or_refused (limits : Limits) (ontology_iri version_iri : option bytes) (imports : list bytes)
    (rows : list (list bytes)) (r : outcome ScopedAnonymousRowsV2) : Prop :=
  match r with
  | Ok out => exists docs names, documents limits rows docs /\
      scopes docs (key_of_ontology ontology_iri version_iri)
        (fun rows => sha256 (fingerprint_preimage ontology_iri version_iri imports rows)) names out
  | Err e => resource_error e \/ refusal limits rows e \/ (e = version_without_ontology /\ headless ontology_iri version_iri)
  | Panic => False
  end.

Lemma scoping_answers limits ontology_iri version_iri imports rows s (ontology_key : M Session bytes) document_fingerprint :
  limits_fit limits -> Forall (Forall row_fits) rows -> session_ok s -> Session.limits s = limits ->
  charged ontology_key (key_or_refused ontology_iri version_iri) ->
  (forall l E rows', obtains l E (document_fingerprint rows') (fun evidence => fingerprint_digest evidence =
    sha256 (fingerprint_preimage ontology_iri version_iri imports rows'))) ->
  scoped_or_refused limits ontology_iri version_iri imports rows
    (fst ((key ← ontology_key; scope_anonymous_rows_v2 rows key document_fingerprint) s)).
Proof.
  intros (Hd & Ht & Hw) Hrows Hs Hl Hkey Hfp.
  assert (wpx (key ← ontology_key; scope_anonymous_rows_v2 rows key document_fingerprint)
    (fun r _ => scoped_or_refused limits ontology_iri version_iri imports rows (Ok r))
    (fun e _ => scoped_or_refused limits ontology_iri version_iri imports rows (Err e)) s) as H.
  { xstep. eapply wpx_mono; [by apply Hkey|..].
    - intros key s1 [Ek [[Hs1 Hl1] _]].
      assert (key = key_of_ontology ontology_iri version_iri) as ->.
      { unfold key_or_refused in Ek. destruct ontology_iri, version_iri; try discriminate Ek; by injection Ek. }
      eapply wpx_mono; [apply (scoping_obtains limits (accounted_bytes s1)); try done; try congruence; intros; apply Hfp|..].
      + intros r s2 H. exact H.
      + intros e s2 [H|H]; [by left|by right; left].
    - intros e s1 [H|H]; [by left|]. right. right. unfold key_or_refused in H.
      destruct ontology_iri, version_iri; try done. injection H as <-. by split. }
  unfold wpx in H. destruct ((key ← ontology_key; scope_anonymous_rows_v2 rows key document_fingerprint) s) as [[r|e|] s']; exact H.
Qed.

(** C4: Scoping a document whose header is text: either it is refused, because
    a row is not canonical, no label is found, refinement does not converge, two
    rows collapse or resources run out, or every row is a component whose
    labels were replaced by the identities of their places in the canonical
    components of the document.  The raw collections are exactly the distinct
    renamed rows in ascending order, the effective ones those with every
    individual moved to the scope of the snapshot that the fingerprint of the
    raw rows determines, and the digests pair the rows of each occurrence. *)
Theorem rdfxml_scoping_renames_the_document ontology_iri version_iri imports rows s :
  limits_fit (limits s) -> Forall (Forall row_fits) rows -> session_ok s ->
  scoped_or_refused (limits s) (iri_row <$> ontology_iri) (iri_row <$> version_iri)
    (vec_dedup (sort_by (fun row => row) (map iri_row imports))) rows
    (fst (scope_rdfxml_anonymous_rows_v2 ontology_iri version_iri imports rows s)).
Proof.
  intros Hl Hr Hs. apply scoping_answers; try done; [apply charged_key_text|]. intros. apply obtains_rdfxml_fingerprint.
Qed.

(** Deciding that every row is in range. *)
Lemma rows_fit rows : forallb (forallb (fun row => is_bytesb row && (len row <=? USIZE_MAX))) rows = true -> Forall (Forall row_fits) rows.
Proof.
  rewrite forallb_forall. intros H. apply List.Forall_forall. intros doc Hd. specialize (H doc Hd). rewrite forallb_forall in H.
  apply List.Forall_forall. intros row Hr. specialize (H row Hr). apply andb_true_iff in H as [Hb%is_bytesb_true Hl%Z.leb_le]. by split.
Qed.

Lemma default_limits_fit : limits_fit Limits_default.
Proof. unfold limits_fit. split_and!; vm_compute; discriminate. Qed.

Lemma sample_rows_fit : Forall (Forall row_fits) (document_rows "a").
Proof. apply rows_fit. vm_compute. reflexivity. Qed.

Definition scope_sample : outcome ScopedAnonymousRowsV2 :=
  fst (scope_rdfxml_anonymous_rows_v2 (Some (str "urn:o")) None [] (document_rows "a") blank_session).

Lemma rdfxml_scoping_renames_the_document_witness :
  (exists out, scope_sample = Ok out) /\
  scoped_or_refused Limits_default (iri_row <$> Some (str "urn:o")) (iri_row <$> None)
    (vec_dedup (sort_by (fun row => row) (map iri_row []))) (document_rows "a") scope_sample.
Proof.
  split.
  - assert (match scope_sample with Ok _ => true | _ => false end = true) as H by (vm_compute; reflexivity).
    destruct scope_sample as [out|e|]; [by exists out|discriminate H..].
  - exact (rdfxml_scoping_renames_the_document (Some (str "urn:o")) None [] (document_rows "a") blank_session
      default_limits_fit sample_rows_fit blank_session_ok).
Defined.

(** C38: The same for a document whose header is nodes, with the rows of the
    nodes. *)
Theorem functional_scoping_renames_the_document ontology_iri version_iri imports rows s :
  limits_fit (limits s) -> Forall (Forall row_fits) rows -> session_ok s ->
  scoped_or_refused (limits s) (node_encoded <$> ontology_iri) (node_encoded <$> version_iri) (map node_encoded imports) rows
    (fst (scope_functional_anonymous_rows_v2 ontology_iri version_iri imports rows s)).
Proof.
  intros Hl Hr Hs. apply scoping_answers; try done; [apply charged_key_nodes|]. intros. apply obtains_functional_fingerprint.
Qed.

Definition scope_nodes_sample : outcome ScopedAnonymousRowsV2 :=
  fst (scope_functional_anonymous_rows_v2 None None [] (document_rows "a") blank_session).

Lemma functional_scoping_renames_the_document_witness :
  (exists out, scope_nodes_sample = Ok out) /\
  scoped_or_refused Limits_default (node_encoded <$> None) (node_encoded <$> None) (map node_encoded []) (document_rows "a") scope_nodes_sample.
Proof.
  split.
  - assert (match scope_nodes_sample with Ok _ => true | _ => false end = true) as H by (vm_compute; reflexivity).
    destruct scope_nodes_sample as [out|e|]; [by exists out|discriminate H..].
  - exact (functional_scoping_renames_the_document None None [] (document_rows "a") blank_session
      default_limits_fit sample_rows_fit blank_session_ok).
Defined.

(** ** Set members that differ in their labels alone *)

(** The labels [a] and [b] exchanged. *)
Definition exchange_labels (i : Identity) : option Identity :=
  if bool_decide (key i = LEXICAL_KEY ++ frame (str "a")) then Some {| scope := scope i; key := LEXICAL_KEY ++ frame (str "b") |}
  else if bool_decide (key i = LEXICAL_KEY ++ frame (str "b")) then Some {| scope := scope i; key := LEXICAL_KEY ++ frame (str "a") |}
  else None.

(** The rows of a scoped document. *)
Definition raw_rows (r : outcome ScopedAnonymousRowsV2) : option (list (list bytes)) :=
  match r with Ok scoped => Some (raw scoped) | _ => None end.

(** Exchanging the labels of a document can change its scoped rows: with
    [SameIndividual(_:a _:b)] the members of the set have equal skeletons, so
    their order, and with it the direction of the arc between them, is that of
    the labels; a class assertion on [_:a] or on [_:b] then scopes to different
    rows, though the documents differ in the names of their labels alone. *)
Theorem scoping_depends_on_labels_of_similar_set_members :
  rename exchange_labels (same_individual "a" "b") = same_individual "a" "b" /\
  rename exchange_labels (class_assertion "a") = class_assertion "b" /\
  exists rows rows', raw_rows (scoped "a") = Some rows /\ raw_rows (scoped "b") = Some rows' /\ rows <> rows'.
Proof.
  split; [vm_compute; reflexivity|]. split; [vm_compute; reflexivity|].
  assert (match raw_rows (scoped "a"), raw_rows (scoped "b") with
          | Some rows, Some rows' => negb (bool_decide (rows = rows')) | _, _ => false end = true) as H by (vm_compute; reflexivity).
  destruct (raw_rows (scoped "a")) as [rows|], (raw_rows (scoped "b")) as [rows'|]; try discriminate H.
  exists rows, rows'. split; [reflexivity|]. split; [reflexivity|]. apply negb_true_iff in H. by apply bool_decide_eq_false in H.
Qed.
