(* ===== verification/Wire.v ===== *)
(** * PYOCORE framing ([native/src/wire/mod.rs], first half)

    The fixed header, the section directory, the physical layout, the digests
    and the offset tables of a wire file.  The second half, the row-level
    semantics, is in [WireRows]; [WireValidate] composes them. *)

From S2P Require Import Prelude Bytes Hash Error Machine Limits Cancel Reader.

Definition MAGIC : bytes := str "PYOCORE" ++ [0].
Definition HEADER_BYTES : Z := 96.
Definition DIRECTORY_BYTES : Z := 72.
Definition WIRE_MAJOR : Z := 1.
Definition MODEL_SCHEMA : Z := 2.
Definition CANONICAL_PROFILE : Z := 1.
Definition FEATURE_SWRL : Z := 1.
Definition SECTION_REQUIRED : Z := 1.
Definition SECTION_OPTIONAL : Z := 2.
Definition SWRL_KIND : Z := 0x8001.
Definition VIEW_PROVENANCE_KIND : Z := 0x8002.
Definition ENCODED_STRUCTURAL_V1_KIND : Z := 0x8003.
Definition ENCODED_STRUCTURAL_V2_KIND : Z := 0x8004.
Definition NONE_U64 : Z := U64_MAX.
Definition HASH_CHUNK : nat := N.to_nat 65536.
Definition RECEIPT_MAGIC : bytes := str "PYNVAL1" ++ [0].
Definition RECEIPT_BYTES : Z := 76.
(** [crate::ABI_VERSION] *)
Definition ABI_VERSION : Z := 3.

(** ** Scalars *)

(** [usize_from_u64] *)
Definition usize_from_u64 (value : Z) : outcome Z :=
  ok_or (try_from USIZE_MAX value) (corrupt "wire scalar exceeds address space").

(** [array_from_slice]: [value.try_into()]. *)
Definition array_from_slice (value : bytes) : outcome bytes :=
  if len value =? 32 then mret value else Err (corrupt "wire digest has invalid width").

(** [array_32] *)
Definition array_32 (data : bytes) (offset : Z) : outcome bytes :=
  stop ← usize_add offset 32;
  value ← ok_or (get_range data offset stop) (corrupt "truncated wire digest");
  array_from_slice value.

(** [bump] *)
Definition bump (work amount : Z) : outcome Z :=
  ok_or (checked_add U64_MAX work amount) (limit "native work counter overflow").

(** ** Sections and tables *)

Record Entry := mkEntry {
  e_kind : Z;
  e_flags : Z;
  e_schema : Z;
  e_offset : Z;
  stored_length : Z;
  decoded_length : Z;
  row_count : Z;
  e_digest : bytes
}.

(** [size_of::<Entry>()] on a 64-bit target: five u64, two u16, a u32 and 32 bytes. *)
Definition ENTRY_BYTES : Z := 72.

(** [Entry::end] *)
Definition Entry_end (e : Entry) : outcome Z :=
  ok_or (checked_add U64_MAX (e_offset e) (stored_length e)) (corrupt "wire section range overflow").

Record Table := mkTable {
  t_kind : Z;
  t_count : Z;
  section_start : Z;
  section_end : Z;
  payload_start : Z;
  t_digest : bytes
}.

(** [size_of::<Table>()]: four 8-byte words, a u16 and 32 bytes, padded. *)
Definition TABLE_BYTES : Z := 72.

(** [Table::row] *)
Definition Table_row (t : Table) (data : bytes) (index : Z) : outcome bytes :=
  fail_if (t_count t <=? index) (corrupt "wire table row reference exceeds bounds");;
  index ← ok_or (try_from USIZE_MAX index) (corrupt "wire row index exceeds address space");
  section ← ok_or (get_range data (section_start t) (section_end t))
              (corrupt "wire table section exceeds bounds");
  scaled ← usize_mul index 8;
  at_start ← usize_add 8 scaled;
  at_end ← usize_add 16 scaled;
  start ← u64_at section at_start;
  start ← usize_from_u64 start;
  end_ ← u64_at section at_end;
  end_ ← usize_from_u64 end_;
  absolute_start ← ok_or (checked_add USIZE_MAX (payload_start t) start) (corrupt "wire row start overflow");
  absolute_end ← ok_or (checked_add USIZE_MAX (payload_start t) end_) (corrupt "wire row end overflow");
  ok_or (get_range data absolute_start absolute_end) (corrupt "wire table row exceeds bounds").

(** [find_table], [required_table] *)
Definition find_table (tables : list Table) (kind : Z) : option Table :=
  List.find (fun t => t_kind t =? kind) tables.
Definition required_table (tables : list Table) (kind : Z) : outcome Table :=
  ok_or (find_table tables kind) (version "required PYOCORE table is unavailable").

(** ** Validation receipts *)

Record Validation := mkValidation {
  minor : Z;
  feature_flags : Z;
  total_length : Z;
  file_digest : bytes;
  section_count : Z;
  total_rows : Z
}.

(** [Validation::receipt]: the bytes it appends, and the reservation before. *)
Definition receipt_bytes (v : Validation) : bytes :=
  RECEIPT_MAGIC ++ to_le_bytes 4 ABI_VERSION ++ to_le_bytes 4 MODEL_SCHEMA ++
  to_le_bytes 2 WIRE_MAJOR ++ to_le_bytes 2 (minor v) ++ to_le_bytes 4 (feature_flags v) ++
  to_le_bytes 8 (total_length v) ++ file_digest v ++ to_le_bytes 4 (section_count v) ++
  to_le_bytes 8 (total_rows v).
Definition receipt (v : Validation) : M World bytes :=
  try_reserve "native receipt allocation failed";; mret (receipt_bytes v).

(** ** The state of a validation: guard, work counter and memory budget *)

Record WireState := mkWireState { w_ctx : Ctx; w_work : Z; w_memory : MemoryBudget }.

Definition guard_check (force : bool) : M WireState unit :=
  s ← get;
  zoom w_ctx (fun c s => {| w_ctx := c; w_work := w_work s; w_memory := w_memory s |})
    (check (w_work s) force).

(** [work = bump(work, amount)?] *)
Definition bump_work (amount : Z) : M WireState unit :=
  s ← get;
  work ← lift (bump (w_work s) amount);
  put {| w_ctx := w_ctx s; w_work := work; w_memory := w_memory s |}.

(** [checkpoint] *)
Definition wire_checkpoint : M WireState unit := bump_work 1;; guard_check false.

(** [memory.reserve::<T>(count)?] followed by [try_reserve_exact]. *)
Definition reserve_vec (size_of_T count : Z) (message : string) : M WireState unit :=
  zoom w_memory (fun m s => {| w_ctx := w_ctx s; w_work := w_work s; w_memory := m |})
    (reserve size_of_T count);;
  zoom (fun s => world (w_ctx s))
    (fun w s => {| w_ctx := {| world := w; guard := guard (w_ctx s) |}; w_work := w_work s;
                   w_memory := w_memory s |})
    (try_reserve message).

(** [data.chunks(n)] *)
Fixpoint chunks (fuel n : nat) (data : bytes) : list bytes :=
  match fuel, data with
  | S fuel, _ :: _ => take n data :: chunks fuel n (drop n data)
  | _, _ => []
  end.

(** [hash_update_checked] *)
Definition hash_update_checked (hasher : Sha256) (data : bytes) : M WireState Sha256 :=
  for_each (fun chunk hasher =>
      let hasher := update hasher chunk in
      amount ← lift (ok_or (try_from U64_MAX (len chunk)) (limit "native hash work counter overflow"));
      bump_work amount;;
      guard_check false;;
      mret hasher)
    (chunks (length data) HASH_CHUNK data) hasher.

(** [hash_checked] *)
Definition hash_checked (data : bytes) : M WireState bytes :=
  hasher ← hash_update_checked Sha256_new data; mret (finish hasher).

(** ** The header *)

Record Header := mkHeader {
  h_major : Z; h_minor : Z; header_length : Z; h_feature_flags : Z; h_section_count : Z;
  h_model_schema : Z; h_profile : Z; h_total_length : Z; directory_offset : Z;
  directory_length : Z; h_file_digest : bytes; header_crc : Z; reserved : Z
}.

(** The reads at the top of [validate_with_allocations]. *)
Definition read_header (data : bytes) : outcome Header :=
  fail_if (len data <? HEADER_BYTES) (corrupt "wire file is shorter than the fixed header");;
  fail_if (negb (bool_decide (get_range data 0 8 = Some MAGIC))) (corrupt "invalid PYOCORE magic");;
  major ← u16_at data 8;
  minor ← u16_at data 10;
  header_length ← u32_at data 12;
  feature_flags ← u32_at data 16;
  section_count ← u32_at data 20;
  model_schema ← u32_at data 24;
  profile ← u32_at data 28;
  total_length ← u64_at data 32;
  directory_offset ← u64_at data 40;
  directory_length ← u64_at data 48;
  file_digest ← array_32 data 56;
  header_crc ← u32_at data 88;
  reserved ← u32_at data 92;
  mret {| h_major := major; h_minor := minor; header_length := header_length;
          h_feature_flags := feature_flags; h_section_count := section_count;
          h_model_schema := model_schema; h_profile := profile; h_total_length := total_length;
          directory_offset := directory_offset; directory_length := directory_length;
          h_file_digest := file_digest; header_crc := header_crc; reserved := reserved |}.

(** [zeroed_header]: the header with its digest and CRC fields cleared. *)
Definition zeroed_header (data : bytes) : bytes :=
  take 56 data ++ replicate 36 0 ++ take 4 (drop 92 data).

(** The header checks; the result is [directory_end]. *)
Definition check_header (data : bytes) (limits : Limits) (h : Header) : outcome Z :=
  fail_if (negb (h_major h =? WIRE_MAJOR)) (version "unsupported PYOCORE major version");;
  fail_if (negb (header_length h =? HEADER_BYTES)) (version "unsupported PYOCORE header layout");;
  fail_if (negb (h_model_schema h =? MODEL_SCHEMA)) (version "unsupported PYOCORE model schema");;
  fail_if (negb (h_profile h =? CANONICAL_PROFILE)) (version "unsupported PYOCORE canonical profile");;
  fail_if (negb (Z.land (h_feature_flags h) (U32_MAX - FEATURE_SWRL) =? 0))
    (version "unknown required PYOCORE feature");;
  fail_if (negb (reserved h =? 0)) (version "nonzero reserved PYOCORE header field");;
  total ← usize_from_u64 (h_total_length h);
  fail_if (negb (total =? len data)) (corrupt "wire total length does not match input");;
  fail_if (max_wire_rows limits <? h_section_count h)
    (Limits_resource_limit limits MaxWireRows (h_section_count h)
       "wire section count exceeds max_wire_rows");;
  expected_directory ← ok_or (checked_mul U64_MAX (h_section_count h) DIRECTORY_BYTES)
                         (corrupt "wire directory length overflow");
  fail_if (negb (directory_offset h =? HEADER_BYTES) || negb (directory_length h =? expected_directory))
    (corrupt "wire directory metadata is invalid");;
  directory_end ← ok_or (checked_add U64_MAX (directory_offset h) (directory_length h))
                    (corrupt "wire directory range overflow");
  fail_if (h_total_length h <? directory_end) (corrupt "wire directory exceeds file bounds");;
  fail_if (negb (crc32c (zeroed_header data) =? header_crc h)) (corrupt "wire header CRC32C mismatch");;
  mret directory_end.

(** ** The directory *)

(** The reads of one directory record. *)
Definition read_entry (data : bytes) (index : Z) : outcome Entry :=
  scaled ← ok_or (checked_mul USIZE_MAX index DIRECTORY_BYTES) (corrupt "wire directory index overflow");
  offset ← ok_or (checked_add USIZE_MAX HEADER_BYTES scaled) (corrupt "wire directory offset overflow");
  kind ← u16_at data offset;
  at2 ← usize_add offset 2;
  flags ← u16_at data at2;
  at4 ← usize_add offset 4;
  schema ← u32_at data at4;
  at8 ← usize_add offset 8;
  section_offset ← u64_at data at8;
  at16 ← usize_add offset 16;
  stored_length ← u64_at data at16;
  at24 ← usize_add offset 24;
  decoded_length ← u64_at data at24;
  at32 ← usize_add offset 32;
  row_count ← u64_at data at32;
  at40 ← usize_add offset 40;
  digest ← array_32 data at40;
  mret {| e_kind := kind; e_flags := flags; e_schema := schema; e_offset := section_offset;
          stored_length := stored_length; decoded_length := decoded_length;
          row_count := row_count; e_digest := digest |}.

(** [(1..=14).contains(&kind)] *)
Definition required_kind (kind : Z) : bool := in_range 1 14 kind.

(** [supported_schema] *)
Definition supported_schema (kind : Z) : option Z :=
  if required_kind kind || ((kind =? SWRL_KIND) || (kind =? VIEW_PROVENANCE_KIND) ||
                            (kind =? ENCODED_STRUCTURAL_V1_KIND)) then Some 1
  else if kind =? ENCODED_STRUCTURAL_V2_KIND then Some 2
  else None.

(** The order, flag and version checks of one record; the result is the mask
    of required kinds with this one's bit. *)
Definition check_entry_kind (minor index previous_kind required_mask : Z) (e : Entry) : outcome Z :=
  let kind := e_kind e in
  fail_if (negb (index =? 0) && (kind <=? previous_kind))
    (corrupt "wire directory kinds are not strictly ordered");;
  fail_if (negb (e_flags e =? SECTION_REQUIRED) && negb (e_flags e =? SECTION_OPTIONAL))
    (version "unknown PYOCORE section flags");;
  required_mask ←
    (if e_flags e =? SECTION_REQUIRED then
       fail_if (negb (required_kind kind)) (version "unknown required PYOCORE section");;
       Ok (Z.lor required_mask (Z.shiftl 1 (kind - 1)))
     else
       fail_if (required_kind kind) (version "required PYOCORE section is marked optional");;
       Ok required_mask);
  fail_if (match supported_schema kind with Some supported => negb (e_schema e =? supported) | None => false end)
    (version "unsupported PYOCORE section schema");;
  fail_if (((kind =? VIEW_PROVENANCE_KIND) || (kind =? ENCODED_STRUCTURAL_V1_KIND)) && (minor <? 1))
    (version "optional PYOCORE section requires minor 1");;
  fail_if ((kind =? ENCODED_STRUCTURAL_V2_KIND) && (minor <? 2))
    (version "ENCODED_STRUCTURAL_V2 requires PYOCORE minor 2");;
  fail_if (kind =? ENCODED_STRUCTURAL_V1_KIND)
    (version "ENCODED_STRUCTURAL_V1 is incompatible with model schema 2");;
  mret required_mask.

(** The range and row-count checks of one record; the result is the new total. *)
Definition check_entry_range (limits : Limits) (total_length directory_end total_rows : Z) (e : Entry)
    : outcome Z :=
  fail_if (negb (decoded_length e =? stored_length e)) (version "unsupported PYOCORE section encoding");;
  fail_if (negb (e_offset e mod 8 =? 0) || (e_offset e <? directory_end))
    (corrupt "invalid PYOCORE section alignment");;
  end_ ← Entry_end e;
  fail_if (total_length <? end_) (corrupt "PYOCORE section exceeds file bounds");;
  fail_if (max_wire_rows limits <? row_count e)
    (Limits_resource_limit limits MaxWireRows (row_count e) "PYOCORE row count exceeds max_wire_rows");;
  fail_if (U32_MAX <? row_count e) (corrupt "PYOCORE row count exceeds the wire ID space");;
  ok_or (checked_add U64_MAX total_rows (row_count e)) (limit "PYOCORE total row count overflow").

(** The loop-carried variables of the directory loop. *)
Record Directory := mkDirectory {
  entries : list Entry;
  previous_kind : Z;
  required_mask : Z;
  d_total_rows : Z
}.
Definition Directory_empty : Directory :=
  {| entries := []; previous_kind := 0; required_mask := 0; d_total_rows := 0 |}.

(** One round of the directory loop. *)
Definition directory_step (data : bytes) (limits : Limits) (h : Header) (directory_end index : Z)
    (d : Directory) : M WireState Directory :=
  wire_checkpoint;;
  e ← lift (read_entry data index);
  mask ← lift (check_entry_kind (h_minor h) index (previous_kind d) (required_mask d) e);
  total ← lift (check_entry_range limits (h_total_length h) directory_end (d_total_rows d) e);
  mret {| entries := entries d ++ [e]; previous_kind := e_kind e; required_mask := mask;
          d_total_rows := total |}.

(** The directory loop and the check that all fourteen kinds are there. *)
Definition read_directory (data : bytes) (limits : Limits) (h : Header) (directory_end : Z)
    : M WireState Directory :=
  entry_capacity ← lift (ok_or (try_from USIZE_MAX (h_section_count h))
                           (limit "wire section count exceeds address space"));
  reserve_vec ENTRY_BYTES entry_capacity "wire directory allocation failed";;
  d ← for_range (directory_step data limits h directory_end) 0 (Z.to_nat (h_section_count h))
        Directory_empty;
  ensure_not (negb (required_mask d =? 0x3fff)) (version "missing required PYOCORE section");;
  mret d.

(** ** The layout *)

Definition offset_le (x y : Entry) : Prop := e_offset x <= e_offset y.
#[export] Instance offset_le_dec : RelDecision offset_le.
Proof. intros x y. unfold offset_le. apply _. Defined.

Definition all_zero (l : bytes) : bool := forallb (fun b => b =? 0) l.

(** One section of the padding loop, which carries [cursor]. *)
Definition check_padding (data : bytes) (e : Entry) (cursor : Z) : outcome Z :=
  fail_if (e_offset e <? cursor) (corrupt "PYOCORE sections overlap");;
  from ← usize_from_u64 cursor;
  to ← usize_from_u64 (e_offset e);
  padding ← ok_or (get_range data from to) (corrupt "PYOCORE padding exceeds bounds");
  fail_if (negb (all_zero padding)) (corrupt "PYOCORE alignment padding is nonzero");;
  Entry_end e.

(** Sections in offset order are disjoint and everything between them is zero.
    [sort_unstable_by_key] may permute sections with equal offsets, which
    [merge_sort] keeps in directory order. *)
Definition check_layout (data : bytes) (directory_end : Z) (entries : list Entry) : M WireState unit :=
  reserve_vec ENTRY_BYTES (len entries) "wire range validation allocation failed";;
  let by_offset := merge_sort offset_le entries in
  cursor ← lift (ofor_each (check_padding data) by_offset directory_end);
  cursor ← lift (usize_from_u64 cursor);
  trailing ← lift (ok_or (get_from data cursor) (corrupt "PYOCORE trailing range exceeds bounds"));
  ensure_not (negb (all_zero trailing)) (corrupt "PYOCORE trailing padding is nonzero").

(** ** Tables *)

(** The loop-carried variables of the offset loop. *)
Record OffsetLoop := mkOffsetLoop { previous_offset : Z; previous_row : option bytes }.

(** One round of the offset loop of [validate_table]. *)
Definition table_step (section : bytes) (header_bytes payload_size count index : Z) (l : OffsetLoop)
    : M WireState OffsetLoop :=
  wire_checkpoint;;
  index ← lift (usize_from_u64 index);
  scaled ← lift (usize_mul index 8);
  at_offset ← lift (usize_add 8 scaled);
  offset ← lift (u64_at section at_offset);
  ensure_not (((index =? 0) && negb (offset =? 0)) || (offset <? previous_offset l) ||
              (payload_size <? offset))
    (corrupt "wire table row offsets are invalid");;
  count ← lift (usize_from_u64 count);
  previous ←
    (if index <? count then
       at_next ← lift (usize_add 16 scaled);
       following ← lift (u64_at section at_next);
       ensure_not (following <? offset) (corrupt "wire table has a reversed row slice");;
       offset ← lift (usize_from_u64 offset);
       start ← lift (usize_add header_bytes offset);
       following ← lift (usize_from_u64 following);
       stop ← lift (usize_add header_bytes following);
       row ← lift (ok_or (get_range section start stop) (corrupt "wire table row exceeds payload"));
       ensure_not (match previous_row l with Some previous => bytes_leb row previous | None => false end)
         (corrupt "wire table rows are not strictly canonical");;
       mret (Some row)
     else mret (previous_row l));
  mret {| previous_offset := offset; previous_row := previous |}.

(** [validate_table] *)
Definition validate_table (data : bytes) (e : Entry) : M WireState Table :=
  section_start ← lift (usize_from_u64 (e_offset e));
  end_ ← lift (Entry_end e);
  section_end ← lift (usize_from_u64 end_);
  section ← lift (ok_or (get_range data section_start section_end)
                    (corrupt "wire table exceeds section bounds"));
  ensure_not (len section <? 16) (corrupt "wire table count/header mismatch");;
  announced ← lift (u64_at section 0);
  ensure_not (negb (announced =? row_count e)) (corrupt "wire table count/header mismatch");;
  words ← lift (ok_or (checked_add U64_MAX (row_count e) 2) (corrupt "wire table offset header overflow"));
  header_bytes ← lift (ok_or (checked_mul U64_MAX words 8) (corrupt "wire table offset header overflow"));
  header_bytes ← lift (usize_from_u64 header_bytes);
  ensure_not (len section <? header_bytes) (corrupt "wire table offset header exceeds section");;
  payload_size ← lift (usize_sub (len section) header_bytes);
  l ← for_range (table_step section header_bytes payload_size (row_count e)) 0
        (Z.to_nat (row_count e + 1)) {| previous_offset := 0; previous_row := None |};
  ensure_not (negb (previous_offset l =? payload_size))
    (corrupt "wire table offsets do not cover payload exactly");;
  payload_start ← lift (usize_add section_start header_bytes);
  mret {| t_kind := e_kind e; t_count := row_count e; section_start := section_start;
          section_end := section_end; payload_start := payload_start; t_digest := e_digest e |}.

(** The kinds with an offset table. *)
Definition has_table (kind : Z) : bool :=
  required_kind kind ||
  ((kind =? SWRL_KIND) || (kind =? VIEW_PROVENANCE_KIND) || (kind =? ENCODED_STRUCTURAL_V2_KIND)).

(** One section: its digest, and its table if the kind has one. *)
Definition check_section (data : bytes) (e : Entry) (tables : list Table) : M WireState (list Table) :=
  start ← lift (usize_from_u64 (e_offset e));
  end_ ← lift (Entry_end e);
  stop ← lift (usize_from_u64 end_);
  section ← lift (ok_or (get_range data start stop) (corrupt "PYOCORE section exceeds bounds"));
  digest ← hash_checked section;
  ensure_not (negb (bytes_eqb digest (e_digest e))) (corrupt "PYOCORE section SHA-256 mismatch");;
  if has_table (e_kind e) then table ← validate_table data e; mret (tables ++ [table])
  else mret tables.

Definition check_sections (data : bytes) (entries : list Entry) : M WireState (list Table) :=
  reserve_vec TABLE_BYTES 17 "wire table ledger allocation failed";;
  for_each (check_section data) entries [].

(** The optional digest of the whole file, over the header with cleared fields. *)
Definition check_file_digest (data : bytes) (limits : Limits) (h : Header) : M WireState unit :=
  if verify_file_digest limits then
    head ← lift (index_range data 0 56);
    hasher ← hash_update_checked Sha256_new head;
    let hasher := update hasher (replicate 36 0) in
    tail ← lift (index_range data 92 (len data));
    hasher ← hash_update_checked hasher tail;
    ensure_not (negb (bytes_eqb (finish hasher) (h_file_digest h))) (corrupt "PYOCORE file SHA-256 mismatch")
  else mret tt.
