(* ===== verification/WireTable.v ===== *)
(** * Offset tables: what [validate_table] accepts

    The state a wire validation threads, and the refinement of the offset
    table: an accepted section is the encoding of a list of strictly ascending
    rows, every such encoding is accepted, and [Table_row] then returns the
    i-th row of the list. *)

From S2P Require Import Prelude Bytes Hash Error Machine Limits Cancel Reader Component Wire.

(** ** The state of a validation *)

Record ws_ok (s : WireState) : Prop := {
  ws_guard : guard_ok (guard (w_ctx s));
  ws_work : is_u64 (w_work s);
  ws_memory : Limits.budget_ok (w_memory s)
}.

Lemma wp_guard_check force (Q : unit -> WireState -> Prop) s :
  ws_ok s -> (forall s', ws_ok s' -> Q tt s') -> wp (guard_check force) Q s.
Proof.
  intros [[Hs Hn] Hw Hm] HQ. unfold guard_check. step. step. step. apply wp_check.
  - intros _ _. apply HQ. by destruct s.
  - intros w Hdue _ _. apply HQ. constructor; cbn; [|done..].
    destruct force; [done|]. destruct Hdue as [|[? ?]]; [done|]. split; cbn; ulia.
Qed.

Lemma wp_bump_work amount (Q : unit -> WireState -> Prop) s :
  0 <= amount -> ws_ok s -> (forall s', ws_ok s' -> Q tt s') -> wp (bump_work amount) Q s.
Proof.
  intros Ha [Hg Hw Hm] HQ. unfold bump_work, bump. repeat step.
  apply checked_add_Some in H as [-> ?]. apply HQ. constructor; cbn; [done|ulia|done].
Qed.

Lemma wp_wire_checkpoint (Q : unit -> WireState -> Prop) s :
  ws_ok s -> (forall s', ws_ok s' -> Q tt s') -> wp wire_checkpoint Q s.
Proof.
  intros Hs HQ. unfold wire_checkpoint. step. apply wp_bump_work; [lia|done|]. intros s' Hs'.
  by apply wp_guard_check.
Qed.

Lemma wp_reserve_vec size_of_T count msg (Q : unit -> WireState -> Prop) s :
  0 <= size_of_T -> 0 <= count -> ws_ok s -> (forall s', ws_ok s' -> Q tt s') ->
  wp (reserve_vec size_of_T count msg) Q s.
Proof.
  intros Hz Hc [Hg Hw Hm] HQ. unfold reserve_vec. step. step. apply wp_reserve; [done..|].
  intros b Hb _ _. cbn -[wp]. step. apply wp_try_reserve. cbn. by apply HQ.
Qed.

Lemma concat_chunks fuel n data :
  (0 < n)%nat -> (length data <= fuel)%nat -> concat (chunks fuel n data) = data.
Proof.
  intros Hn. revert data. induction fuel as [|fuel IH]; intros [|b data] Hl; cbn [length] in Hl; try (done || lia).
  cbn [chunks concat]. rewrite IH, take_drop; [done|]. rewrite length_drop. cbn [length]. lia.
Qed.

Lemma chunk_length fuel n data c : In c (chunks fuel n data) -> (length c <= length data)%nat.
Proof.
  revert data. induction fuel as [|fuel IH]; intros [|b data]; try done.
  cbn [chunks In]. intros [<-|H%IH]; rewrite ?length_take, ?length_drop in *; lia.
Qed.

Lemma wp_hash_update h m data (Q : Sha256 -> WireState -> Prop) s :
  absorbed h m -> len data <= USIZE_MAX -> ws_ok s ->
  (forall h' s', ws_ok s' -> absorbed h' (m ++ data) -> Q h' s') ->
  wp (hash_update_checked h data) Q s.
Proof.
  intros Hh Hl Hs HQ. unfold hash_update_checked.
  eapply wp_mono; [apply (wp_for_each _ (fun rest h' s' => ws_ok s' /\
    exists done, absorbed h' (m ++ done) /\ done ++ concat rest = data /\
      Forall (fun c => len c <= USIZE_MAX) rest))|].
  - split; [done|]. exists []. rewrite app_nil_r. split; [done|]. split.
    + apply concat_chunks; [unfold HASH_CHUNK; lia|lia].
    + apply List.Forall_forall. intros c Hc%chunk_length. lia.
  - clear h s Hh Hs HQ. intros c rest h s (Hs & d & Hd & Hdata & Hc). apply Forall_cons in Hc as [Hc Hrest].
    step. step. step. apply try_from_Some in H as [-> ?]. step. apply wp_bump_work; [lia|done|].
    intros s1 Hs1. step. apply wp_guard_check; [done|]. intros s2 Hs2. step. split; [done|].
    exists (d ++ c). cbn [concat] in Hdata. rewrite !app_assoc in *. splits; [|done..].
    by apply update_absorbed.
  - cbn. intros h' s' (Hs' & d & Hd & Hdata & _). rewrite app_nil_r in Hdata. subst. by apply HQ.
Qed.

Lemma wp_hash_checked data (Q : bytes -> WireState -> Prop) s :
  len data <= USIZE_MAX -> ws_ok s -> (forall s', ws_ok s' -> Q (sha256_spec data) s') ->
  wp (hash_checked data) Q s.
Proof.
  intros Hl Hs HQ. unfold hash_checked. step.
  apply (wp_hash_update _ []); [apply absorbed_new|done..|]. intros h s' Hs' Hh. step.
  rewrite (finish_absorbed h data) by done. by apply HQ.
Qed.

#[export] Hint Resolve wp_wire_checkpoint : kernel.

(** ** Tables of rows *)

Definition entry_ok (e : Entry) : Prop :=
  is_u64 (e_offset e) /\ is_u64 (stored_length e) /\ is_u64 (row_count e).

(** The offsets of consecutive rows, with the end of the last one. *)
Fixpoint row_offsets (start : Z) (rows : list bytes) : list Z :=
  start :: match rows with [] => [] | row :: rows => row_offsets (start + len row) rows end.

Definition table_header (rows : list bytes) : bytes :=
  to_le_bytes 8 (len rows) ++ words_bytes 8 (row_offsets 0 rows).

(** The section that holds [rows]: the count, the offsets and the rows. *)
Definition encode_table (rows : list bytes) : bytes := table_header rows ++ concat rows.

Record table_rows (data : bytes) (t : Table) (rows : list bytes) : Prop := {
  table_count : t_count t = len rows;
  table_section : get_range data (section_start t) (section_end t) = Some (encode_table rows);
  table_payload : payload_start t = section_start t + 8 * (len rows + 2);
  table_ascending : ascending rows
}.

Lemma length_row_offsets start rows : length (row_offsets start rows) = S (length rows).
Proof. revert start. induction rows as [|row rows IH]; intros start; cbn [row_offsets length]; [done|]. by rewrite IH. Qed.

Lemma row_offsets_lookup start rows j :
  (j <= length rows)%nat ->
  row_offsets start rows !! j = Some (start + len (concat (take j rows))).
Proof.
  revert start j. induction rows as [|row rows IH]; intros start [|j] Hj; cbn [length] in Hj; try lia.
  - cbn. f_equal. lia.
  - cbn. f_equal. lia.
  - cbn [row_offsets take concat]. change ((?a :: ?l) !! S ?j) with (l !! j).
    rewrite IH by lia. f_equal. rewrite length_app. lia.
Qed.

Lemma row_offsets_snoc start rows row :
  row_offsets start (rows ++ [row]) =
  row_offsets start rows ++ [start + len (concat rows) + len row].
Proof.
  revert start. induction rows as [|r rows IH]; intros start.
  - cbn. f_equal. f_equal. lia.
  - cbn [app row_offsets]. rewrite IH. cbn [concat]. cbn [app]. do 2 f_equal. rewrite length_app. f_equal. lia.
Qed.

Lemma length_table_header rows : len (table_header rows) = 8 * (len rows + 2).
Proof.
  unfold table_header. rewrite length_app, length_to_le_bytes, length_words_bytes, length_row_offsets. lia.
Qed.

Lemma words_bytes_app n vs ws : words_bytes n (vs ++ ws) = words_bytes n vs ++ words_bytes n ws.
Proof. unfold words_bytes. by rewrite map_app, concat_app. Qed.

(** The j-th word of an array of words. *)
Lemma u64_at_word p ws q j v offset :
  ws !! j = Some v -> is_u64 v -> len (p ++ words_bytes 8 ws ++ q) <= USIZE_MAX ->
  offset = len p + 8 * Z.of_nat j -> u64_at (p ++ words_bytes 8 ws ++ q) offset = Ok v.
Proof.
  intros (l1 & l2 & -> & ->)%list_elem_of_split_length Hv Hl ->. rewrite words_bytes_app in *.
  change (words_bytes 8 (v :: l2)) with (to_le_bytes 8 v ++ words_bytes 8 l2) in *.
  rewrite <- !app_assoc in *. rewrite (app_assoc p) in *. apply scalar_at_mid; [by apply reads_u64|done|].
  rewrite length_app, length_words_bytes. lia.
Qed.

Lemma concat_take_le (rows : list bytes) j : len (concat (take j rows)) <= len (concat rows).
Proof. rewrite <- (take_drop j rows) at 2. rewrite concat_app, length_app. lia. Qed.

Section EncodedTable.
Context (rows : list bytes) (Hlen : len (encode_table rows) <= USIZE_MAX).

Lemma encode_table_length : len (encode_table rows) = 8 * (len rows + 2) + len (concat rows).
Proof. unfold encode_table. rewrite length_app, <- length_table_header. lia. Qed.

Lemma encoded_count : u64_at (encode_table rows) 0 = Ok (len rows).
Proof.
  pose proof encode_table_length. unfold encode_table, table_header in *. rewrite <- app_assoc in *.
  apply (scalar_at_mid 8 []); [apply reads_u64; ulia|done|done].
Qed.

(** The j-th offset is the length of the first j rows. *)
Lemma encoded_offset j offset :
  (j <= length rows)%nat -> offset = 8 + 8 * Z.of_nat j ->
  u64_at (encode_table rows) offset = Ok (len (concat (take j rows))).
Proof.
  intros Hj ->. pose proof encode_table_length. pose proof (concat_take_le rows j).
  unfold encode_table, table_header in *. rewrite <- app_assoc in *.
  apply (u64_at_word _ _ _ j); [|ulia|done|rewrite length_to_le_bytes; lia].
  rewrite row_offsets_lookup by done. f_equal.
Qed.

Lemma encoded_row j row a b :
  rows !! j = Some row ->
  a = 8 * (len rows + 2) + len (concat (take j rows)) -> b = a + len row ->
  get_range (encode_table rows) a b = Some row.
Proof.
  intros Hj -> ->. unfold encode_table.
  assert (concat rows = concat (take j rows) ++ row ++ concat (drop (S j) rows)) as ->.
  { rewrite <- (take_drop_middle rows j row Hj) at 1. by rewrite concat_app. }
  rewrite app_assoc. apply get_range_mid; [|lia]. rewrite length_app, Nat2Z.inj_add, length_table_header. lia.
Qed.

Lemma encoded_next_offset j row :
  rows !! j = Some row -> len (concat (take (S j) rows)) = len (concat (take j rows)) + len row.
Proof. intros Hj. rewrite (take_S_r _ _ _ Hj), concat_app. cbn. rewrite app_nil_r, length_app. lia. Qed.
End EncodedTable.

(** ** Looking rows up *)

Lemma table_length data t rows :
  len data <= USIZE_MAX -> table_rows data t rows ->
  len (encode_table rows) <= USIZE_MAX /\ 0 <= section_start t /\
  section_end t = section_start t + len (encode_table rows) /\ section_end t <= len data.
Proof.
  intros Hl [_ Hsec _ _]. apply get_range_length in Hsec as (H1 & H2 & H3). lia.
Qed.

Lemma Table_row_cases data t rows i :
  len data <= USIZE_MAX -> table_rows data t rows -> 0 <= i ->
  match rows !! Z.to_nat i with
  | Some row => Table_row t data i = Ok row
  | None => exists e, Table_row t data i = Err e /\ code e = "NATIVE_WIRE_CORRUPTION"%string
  end.
Proof.
  intros Hl Ht Hi. destruct (table_length _ _ _ Hl Ht) as (Hs & Hs0 & Hse & Hd).
  destruct Ht as [Hc Hsec Hp Ha].
  pose proof (encode_table_length rows). unfold Table_row. rewrite Hc. destruct (rows !! Z.to_nat i) as [row|] eqn:Hrow.
  - pose proof (lookup_lt_Some _ _ _ Hrow) as Hlt.
    pose proof (encoded_next_offset rows _ _ Hrow) as Hnext.
    pose proof (concat_take_le rows (S (Z.to_nat i))) as Hle.
    destruct (Z.leb_spec (len rows) i); [lia|]. unfold usize_mul, usize_add, usize_from_u64. unfold_monad.
    rewrite try_from_ok by lia. cbn [ok_or]. rewrite Hsec. cbn [ok_or].
    rewrite checked_mul_ok by lia. cbn [or_panic]. rewrite !checked_add_ok by lia. cbn [or_panic].
    rewrite (encoded_offset rows Hs (Z.to_nat i)) by lia.
    rewrite (encoded_offset rows Hs (S (Z.to_nat i))) by lia.
    rewrite !try_from_ok by lia. cbn [ok_or]. rewrite !checked_add_ok by lia. cbn [ok_or].
    pose proof (encoded_row rows _ _ _ _ Hrow eq_refl eq_refl) as Hr.
    apply get_range_Some in Hsec as (_ & p & q & -> & Hpl & _).
    apply get_range_Some in Hr as (_ & p' & q' & E & Hpl' & _). rewrite E.
    replace (p ++ (p' ++ row ++ q') ++ q) with ((p ++ p') ++ row ++ (q' ++ q)) by (by rewrite <- !app_assoc).
    rewrite get_range_mid; [done|rewrite length_app; lia|lia].
  - apply lookup_ge_None in Hrow. destruct (Z.leb_spec (len rows) i); [|lia].
    cbn. eexists. split; [reflexivity|done].
Qed.

Lemma owp_Table_row data t rows i (Q : bytes -> Prop) :
  len data <= USIZE_MAX -> table_rows data t rows -> 0 <= i ->
  (forall row, rows !! Z.to_nat i = Some row -> Q row) -> owp (Table_row t data i) Q.
Proof.
  intros Hl Ht Hi HQ. pose proof (Table_row_cases data t rows i Hl Ht Hi) as H.
  destruct (rows !! _); [rewrite H; by apply HQ|]. by destruct H as (e & -> & _).
Qed.

(** ** Every accepted section is a table *)

(** The offsets and rows read so far, at the head of the section. *)
Record table_prefix (section : bytes) (header_bytes : Z) (rows : list bytes) : Prop := {
  prefix_offsets :
    get_range section 8 (8 + 8 * (len rows + 1)) = Some (words_bytes 8 (row_offsets 0 rows));
  prefix_rows :
    get_range section header_bytes (header_bytes + len (concat rows)) = Some (concat rows);
  prefix_ascending : ascending rows
}.

(** The loop invariant of [validate_table] before the round [index]. *)
Definition table_invariant (section : bytes) (header_bytes : Z) (count index : Z) (l : OffsetLoop) : Prop :=
  (index = 0 /\ l = {| previous_offset := 0; previous_row := None |}) \/
  exists rows, len rows = Z.min index count /\ table_prefix section header_bytes rows /\
    if index <=? count
    then exists rows' row, rows = rows' ++ [row] /\ previous_row l = Some row
    else previous_offset l = len (concat rows).

Lemma word_at section a n v w :
  get_range section a (a + Z.of_nat n) = Some (to_le_bytes n v) ->
  get_range section a (a + Z.of_nat n) = Some (to_le_bytes n w) ->
  0 <= v < 256 ^ Z.of_nat n -> 0 <= w < 256 ^ Z.of_nat n -> v = w.
Proof.
  intros H1 H2 Hv Hw. rewrite H1 in H2. injection H2 as E.
  rewrite <- (from_to_le n v), <- (from_to_le n w), E by done. done.
Qed.

Lemma u64_bound v : is_u64 v <-> 0 <= v < 256 ^ Z.of_nat 8.
Proof. change (256 ^ Z.of_nat 8) with (U64_MAX + 1). unfold is_u64. lia. Qed.

Lemma sub_range {A} (l : list A) a b x p y q c d :
  get_range l a b = Some x -> x = p ++ y ++ q -> c = a + len p -> d = c + len y ->
  get_range l c d = Some y.
Proof.
  intros (? & p' & q' & -> & Hp & Hx)%get_range_Some -> -> ->.
  replace (p' ++ (p ++ y ++ q) ++ q') with ((p' ++ p) ++ y ++ (q ++ q')) by (by rewrite <- !app_assoc).
  apply get_range_mid; rewrite ?length_app; lia.
Qed.

(** The word after the offsets read so far is the end of the last row. *)
Lemma prefix_offset section header_bytes rows v :
  table_prefix section header_bytes rows -> len (concat rows) <= U64_MAX ->
  get_range section (8 + 8 * len rows) (8 + 8 * len rows + 8) = Some (to_le_bytes 8 v) -> is_u64 v ->
  v = len (concat rows).
Proof.
  intros [Ho _ _] Hl Hw Hv. assert (exists ws, row_offsets 0 rows = ws ++ [len (concat rows)] /\ len ws = len rows) as (ws & E & Hws).
  { destruct rows as [|row rows _] using rev_ind; [by exists []|].
    exists (row_offsets 0 rows). rewrite row_offsets_snoc, length_row_offsets, concat_app, !length_app. cbn.
    rewrite app_nil_r. split; [|lia]. do 2 f_equal. lia. }
  rewrite E, words_bytes_app in Ho. apply (word_at section (8 + 8 * len rows) 8).
  - done.
  - change (Z.of_nat 8) with 8.
    eapply (sub_range _ _ _ _ (words_bytes 8 ws) (to_le_bytes 8 (len (concat rows))) []);
      [exact Ho|unfold words_bytes at 2; cbn [map concat]; by rewrite app_nil_r| |];
      rewrite ?length_words_bytes, ?length_to_le_bytes; lia.
  - by apply u64_bound.
  - apply u64_bound. ulia.
Qed.

(** One more offset and row. *)
Lemma prefix_snoc section header_bytes rows row v :
  table_prefix section header_bytes rows ->
  get_range section (8 + 8 * (len rows + 1)) (8 + 8 * (len rows + 1) + 8) = Some (to_le_bytes 8 v) ->
  get_range section (header_bytes + len (concat rows)) (header_bytes + v) = Some row ->
  (match last rows with Some previous => bytes_leb row previous | None => false end) = false ->
  table_prefix section header_bytes (rows ++ [row]).
Proof.
  intros [Ho Hr Ha] Hv Hrow Hlast. pose proof (get_range_length _ _ _ _ Hrow) as (Hn & _ & _).
  assert (concat (rows ++ [row]) = concat rows ++ row) as E.
  { rewrite concat_app. cbn. by rewrite app_nil_r. }
  constructor.
  - rewrite row_offsets_snoc, words_bytes_app, length_app.
    replace (8 + 8 * (Z.of_nat (length rows + length [row]) + 1)) with (8 + 8 * (len rows + 1) + 8) by (cbn; lia).
    eapply get_range_app; [exact Ho|]. rewrite Hv. unfold words_bytes. cbn [map concat]. rewrite app_nil_r.
    do 2 f_equal. lia.
  - rewrite E. eapply get_range_app; [exact Hr|]. rewrite <- Hrow. f_equal. rewrite length_app. lia.
  - apply sorted_snoc; [apply _|done|]. intros y Hy. rewrite Hy, bytes_leb_ltb in Hlast.
    by apply negb_false_iff in Hlast.
Qed.

Lemma prefix_fits section header_bytes rows :
  0 <= header_bytes -> table_prefix section header_bytes rows ->
  header_bytes + len (concat rows) <= len section.
Proof. intros H [_ Hr _]. apply get_range_length in Hr. lia. Qed.

(** A round starts by reading the end of the rows read so far. *)
Lemma round_start section header_bytes count index l v :
  len section <= USIZE_MAX -> header_bytes = 8 * (count + 2) -> header_bytes <= len section ->
  0 <= index <= count -> table_invariant section header_bytes count index l ->
  get_range section (8 + index * 8) (8 + index * 8 + 8) = Some (to_le_bytes 8 v) -> is_u64 v ->
  (index = 0 -> v = 0) ->
  exists rows, len rows = index /\ table_prefix section header_bytes rows /\
    v = len (concat rows) /\ previous_row l = last rows.
Proof.
  intros Hl Hh Hfit Hi Hinv Hw Hv H0. destruct Hinv as [[-> ->]|(rows & Hlen & Hp & Hif)].
  - exists []. rewrite H0 in * by done. splits; [done| |done|done].
    constructor; [exact Hw| |constructor]. apply get_range_Some. split; [lia|].
    destruct (split_at section header_bytes) as (x & y & -> & Hx); [lia|].
    exists x, y. cbn [concat length]. splits; [done|lia|lia].
  - destruct (Z.leb_spec index count); [|lia]. destruct Hif as (rows' & row & -> & Hrow).
    exists (rows' ++ [row]). pose proof (prefix_fits section header_bytes _ ltac:(lia) Hp).
    splits; [lia|done| |by rewrite last_snoc].
    apply (prefix_offset section header_bytes); [done|ulia| |done].
    rewrite Hlen, Z.min_l by lia. by rewrite Z.mul_comm.
Qed.

Lemma owp_usize_from_u64 v (Q : Z -> Prop) :
  (v <= USIZE_MAX -> Q v) -> owp (usize_from_u64 v) Q.
Proof. intros HQ. unfold usize_from_u64. step. apply try_from_Some in H as [-> ?]. by apply HQ. Qed.

(** A row offset so large that the end of the row is not an address: the sum
    [header_bytes + usize_from_u64(next)?] of [validate_table] overflows. *)
Definition overflowing_offset (data : bytes) (e : Entry) : Prop :=
  exists section index next,
    get_range data (e_offset e) (e_offset e + stored_length e) = Some section /\
    0 < index <= row_count e /\
    get_range section (8 + 8 * index) (8 + 8 * index + 8) = Some (to_le_bytes 8 next) /\
    is_u64 next /\ USIZE_MAX < 8 * (row_count e + 2) + next.

Lemma wpp_table_step (P : Prop) section header_bytes payload_size count index l s :
  is_bytes section -> len section <= USIZE_MAX -> header_bytes = 8 * (count + 2) ->
  header_bytes + payload_size = len section -> 0 <= payload_size ->
  (forall i u, 0 < i <= count -> is_u64 u ->
     get_range section (8 + 8 * i) (8 + 8 * i + 8) = Some (to_le_bytes 8 u) ->
     USIZE_MAX < header_bytes + u -> P) ->
  0 <= index <= count -> table_invariant section header_bytes count index l -> ws_ok s ->
  wpp P (table_step section header_bytes payload_size count index l)
    (fun l' s' => table_invariant section header_bytes count (index + 1) l' /\ ws_ok s') s.
Proof.
  intros Hb Hl Hh Hp Hp0 HP Hi Hinv Hs. unfold table_step.
  apply wpp_bind, wpp_of_wp, wp_wire_checkpoint; [done|]. clear s Hs. intros s Hs.
  apply wpp_bind, wpp_of_wp. step. apply owp_usize_from_u64. intros _.
  apply wpp_bind, wpp_of_wp. step. apply owp_usize_mul; [lia|].
  apply wpp_bind, wpp_of_wp. step. apply owp_usize_add; [lia|].
  apply wpp_bind, wpp_of_wp. step. apply owp_u64_at; [done|done|lia|]. intros v Hv Hv64.
  apply wpp_bind, wpp_of_wp. step. bool_to_prop.
  apply wpp_bind, wpp_of_wp. step. apply owp_usize_from_u64. intros _.
  destruct (round_start section header_bytes count index l v) as (rows & Hrows & Hpre & -> & Hlast);
    [done|done|lia|done|done|done|done| |].
  { intros ->. cbn in H. by apply negb_false_iff, Z.eqb_eq in H. }
  pose proof (prefix_fits section header_bytes rows ltac:(lia) Hpre).
  apply wpp_bind. destruct (Z.ltb_spec index count).
  - apply wpp_bind, wpp_of_wp. step. apply owp_usize_add; [lia|].
    apply wpp_bind, wpp_of_wp. step. apply owp_u64_at; [done|done|lia|]. intros u Hu Hu64.
    replace (16 + index * 8) with (8 + 8 * (len rows + 1)) in Hu by lia.
    apply wpp_bind, wpp_of_wp. step. bool_to_prop.
    apply wpp_bind, wpp_of_wp. step. apply owp_usize_from_u64. intros _.
    apply wpp_bind, wpp_of_wp. step. apply owp_usize_add; [lia|].
    apply wpp_bind, wpp_of_wp. step. apply owp_usize_from_u64. intros _.
    apply wpp_bind, wpp_usize_add; [intros _|intros; by apply (HP (len rows + 1) u); [lia|..]].
    apply wpp_bind, wpp_of_wp. step. step. rename a into row.
    apply wpp_bind, wpp_of_wp. step. rewrite Hlast in *.
    apply wpp_ret, wpp_ret. split; [|done]. right. exists (rows ++ [row]).
    splits; [rewrite length_app; cbn; lia|by apply (prefix_snoc _ _ _ _ u)|].
    destruct (Z.leb_spec (index + 1) count); [|lia]. by exists rows, row.
  - apply wpp_ret, wpp_ret. split; [|done]. right. exists rows.
    splits; [lia|done|]. destruct (Z.leb_spec (index + 1) count); [lia|done].
Qed.

Lemma table_complete section header_bytes rows :
  u64_at section 0 = Ok (len rows) -> is_bytes section -> len section <= USIZE_MAX ->
  header_bytes = 8 * (len rows + 2) ->
  table_prefix section header_bytes rows -> header_bytes + len (concat rows) = len section ->
  section = encode_table rows.
Proof.
  intros Hc Hb Hl -> [Ho Hr _] Hend.
  pose proof (owp_u64_at section 0 (fun v => get_range section 0 8 = Some (to_le_bytes 8 v)) Hb Hl ltac:(lia)
    ltac:(done)) as H0. rewrite Hc in H0. cbn [owp] in H0.
  pose proof (get_range_app _ _ _ _ _ _ H0 Ho) as H1.
  replace (8 + 8 * (len rows + 1)) with (8 * (len rows + 2)) in H1 by lia.
  pose proof (get_range_app _ _ _ _ _ _ H1 Hr) as H2. rewrite Hend, get_range_full in H2. by simplify_eq.
Qed.

Definition table_of (e : Entry) (t : Table) : Prop :=
  t_kind t = e_kind e /\ t_count t = row_count e /\ t_digest t = e_digest e /\
  section_start t = e_offset e /\ section_end t = e_offset e + stored_length e.

Lemma wpp_validate_table data e (Q : Table -> WireState -> Prop) s :
  is_bytes data -> len data <= USIZE_MAX -> entry_ok e -> ws_ok s ->
  (forall t rows s', ws_ok s' -> table_rows data t rows -> table_of e t -> Q t s') ->
  wpp (overflowing_offset data e) (validate_table data e) Q s.
Proof.
  intros Hb Hl (He1 & He2 & He3) Hs HQ. unfold validate_table.
  apply wpp_bind, wpp_of_wp. step. apply owp_usize_from_u64. intros _.
  apply wpp_bind, wpp_of_wp. step. unfold Entry_end. step. apply checked_add_Some in H as [-> _].
  apply wpp_bind, wpp_of_wp. step. apply owp_usize_from_u64. intros _.
  apply wpp_bind, wpp_of_wp. step. step. rename a into section, H into Hsec.
  pose proof (get_range_length _ _ _ _ Hsec) as (Hlen & _ & Hend).
  assert (is_bytes section) as Hbs by eauto with bytes.
  assert (len section <= USIZE_MAX) as Hls by (destruct He1; lia).
  apply wpp_bind, wpp_of_wp. step. bool_to_prop.
  apply wpp_bind, wpp_of_wp. step. apply owp_intro; [|intros n Hn].
  { eapply owp_no_panic, (owp_u64_at section 0 (fun _ => True)); done. }
  apply wpp_bind, wpp_of_wp. step. bool_to_prop. subst n.
  apply wpp_bind, wpp_of_wp. step. step. apply checked_add_Some in H0 as [-> _].
  apply wpp_bind, wpp_of_wp. step. step. apply checked_mul_Some in H0 as [-> _].
  apply wpp_bind, wpp_of_wp. step. apply owp_usize_from_u64. intros _.
  apply wpp_bind, wpp_of_wp. step. bool_to_prop.
  apply wpp_bind, wpp_of_wp. step. apply owp_usize_sub; [lia|].
  set (hb := (row_count e + 2) * 8) in *.
  apply wpp_bind. eapply wpp_mono.
  { apply (wpp_for_range _ _ (fun i l s' => table_invariant section hb (row_count e) i l /\ ws_ok s')).
    - split; [by left|done].
    - intros i l s' Hi [Hinv Hs']. apply wpp_table_step; try done; try lia.
      intros j u Hj Hu Hw Hover. exists section, j, u. splits; [done|lia|lia|done|done|lia]. }
  cbn beta. intros l s' [Hinv Hs']. destruct He1 as [He1 _], He3 as [He3 _].
  apply wpp_bind, wpp_of_wp. step. bool_to_prop. rename H1 into Hcover.
  apply wpp_bind, wpp_of_wp. step. apply owp_usize_add; [lia|]. apply wpp_ret.
  destruct Hinv as [[? _]|(rows & Hrows & Hpre & Hif)]; [lia|].
  destruct (Z.leb_spec (0 + Z.of_nat (Z.to_nat (row_count e + 1))) (row_count e)); [lia|].
  assert (len rows = row_count e) as Hcount by lia.
  apply (HQ _ rows); [done| |by repeat split].
  constructor; cbn [t_count section_start section_end payload_start]; [done| |lia|by destruct Hpre].
  rewrite Hsec. f_equal. apply (table_complete section hb); try done; [by rewrite Hcount|lia|lia].
Qed.

(** ** Every table is accepted *)

(** A validation nothing interferes with, with room for [k] more units of work. *)
Record ws_calm (k : Z) (s : WireState) : Prop := {
  calm_world_ok : is_calm (world (w_ctx s));
  calm_guard : quiet (guard (w_ctx s));
  calm_stride : stride (guard (w_ctx s)) <= U32_MAX;
  calm_work : w_work s + k + U32_MAX <= U64_MAX
}.

Lemma runs_checkpoint (Q : unit -> WireState -> Prop) k s :
  ws_calm (k + 1) s -> 0 <= k -> (forall s', ws_calm k s' -> Q tt s') -> runs wire_checkpoint Q s.
Proof.
  intros [Hw Hg Hs Hk] Hk0 HQ. unfold wire_checkpoint, bump_work, bump, guard_check. repeat run.
  { by apply checked_add_ok; ulia. }
  repeat run. cbn [w_ctx w_work w_memory].
  destruct (check_calm (w_work s + 1) (w_ctx s) Hw Hg) as (w & Hw' & E); [ulia|].
  unfold runs. rewrite E. apply HQ. constructor; cbn; [done|by case_match..|lia].
Qed.

Lemma ascending_lookup rows i x y :
  ascending rows -> rows !! i = Some x -> rows !! S i = Some y -> bytes_leb y x = false.
Proof.
  intros Ha Hx Hy. rewrite bytes_leb_ltb. apply negb_false_iff.
  pose proof (take_drop_middle rows i x Hx) as E. rewrite <- E in Ha.
  apply StronglySorted_app in Ha as (_ & _ & Ha). inversion Ha as [|? ? _ Hall]; subst.
  rewrite List.Forall_forall in Hall. apply Hall. apply list_elem_of_In.
  apply (list_elem_of_lookup_2 _ 0%nat). rewrite lookup_drop, Nat.add_0_r. done.
Qed.

Section Accepts.
Context (rows : list bytes) (Hlen : len (encode_table rows) <= USIZE_MAX) (Hasc : ascending rows).

(** The loop variables before the round [i]. *)
Definition loop_at (i : Z) : OffsetLoop :=
  {| previous_offset := len (concat (take (Z.to_nat (i - 1)) rows));
     previous_row := last (take (Z.to_nat i) rows) |}.

Lemma runs_table_step k i s :
  0 <= i <= len rows -> 0 <= k -> ws_calm (k + 1) s ->
  runs (table_step (encode_table rows) (8 * (len rows + 2)) (len (concat rows)) (len rows) i (loop_at i))
    (fun l s' => l = loop_at (i + 1) /\ ws_calm k s') s.
Proof.
  intros Hi Hk Hs. pose proof (encode_table_length rows) as Hl.
  assert (exists j, i = Z.of_nat j /\ (j <= length rows)%nat) as (j & -> & Hj) by (exists (Z.to_nat i); lia).
  pose proof (concat_take_le rows j). unfold table_step, usize_from_u64, usize_mul, usize_add, loop_at.
  assert (len (concat (take (Z.to_nat (Z.of_nat j - 1)) rows)) <= len (concat (take j rows))) as Hprev.
  { replace (Z.to_nat (Z.of_nat j - 1)) with (j - 1)%nat by lia.
    rewrite <- (Nat.min_l (j - 1) j) at 1 by lia. rewrite <- take_take. apply concat_take_le. }
  run. eapply runs_checkpoint; [done|lia|]. clear s Hs. intros s Hs.
  repeat run; try (apply try_from_ok; lia); try (apply checked_mul_ok; lia); try (apply checked_add_ok; lia).
  eapply oruns_Ok; [apply (encoded_offset _ Hlen j); lia|]. repeat run.
  { cbn [previous_offset]. repeat (apply orb_false_iff; split); [|by apply Z.ltb_ge; lia..].
    destruct (Z.eqb_spec (Z.of_nat j) 0); [|done]. by replace j with 0%nat by lia. }
  { apply try_from_ok. lia. }
  rewrite Nat2Z.id. replace (Z.to_nat (Z.of_nat j + 1)) with (S j) by lia.
  replace (Z.to_nat (Z.of_nat j + 1 - 1)) with j by lia.
  destruct (Z.ltb_spec (Z.of_nat j) (len rows)).
  - destruct (lookup_lt_is_Some_2 rows j) as [row Hrow]; [lia|].
    pose proof (encoded_next_offset rows j row Hrow) as Hnext. pose proof (concat_take_le rows (S j)).
    repeat run; try (apply checked_add_ok; lia).
    eapply oruns_Ok; [apply (encoded_offset _ Hlen (S j)); lia|]. repeat run; try (apply try_from_ok; lia);
      try (apply checked_add_ok; lia).
    { apply Z.ltb_ge. lia. }
    { apply (encoded_row rows j); [done|done|lia]. }
    { cbn [previous_row]. destruct j as [|j]; [done|].
      destruct (lookup_lt_is_Some_2 rows j) as [previous Hp]; [lia|].
      rewrite (take_S_r _ _ _ Hp), last_snoc. by eapply ascending_lookup. }
    split; [|done]. by rewrite (take_S_r _ _ _ Hrow), last_snoc.
  - repeat run. split; [|done]. cbn [previous_row]. do 2 f_equal. rewrite !take_ge by lia. done.
Qed.

Lemma runs_validate_table data e s :
  entry_ok e -> len data <= USIZE_MAX -> row_count e = len rows ->
  get_range data (e_offset e) (e_offset e + stored_length e) = Some (encode_table rows) ->
  ws_calm (len rows + 1) s ->
  runs (validate_table data e) (fun t _ => table_rows data t rows) s.
Proof.
  intros He Hd Hrc Hsec Hs. pose proof (encode_table_length rows) as Hl.
  pose proof (get_range_length _ _ _ _ Hsec) as (Hsl & Hse & Hend).
  unfold validate_table, usize_from_u64, Entry_end, usize_sub, usize_add. rewrite Hrc.
  repeat run; try (apply try_from_ok; lia); try (apply checked_add_ok; ulia); [exact Hsec| |].
  { apply Z.ltb_ge. lia. }
  eapply oruns_Ok; [apply (encoded_count _ Hlen)|]. repeat run; try (apply checked_add_ok; ulia);
    try (apply checked_mul_ok; ulia); try (apply try_from_ok; lia).
  { by rewrite Z.eqb_refl. }
  { apply Z.ltb_ge. lia. }
  rewrite (proj2 (Z.leb_le _ _)) by lia. repeat run.
  replace ((len rows + 2) * 8) with (8 * (len rows + 2)) by lia.
  replace (len (encode_table rows) - 8 * (len rows + 2)) with (len (concat rows)) by lia.
  eapply runs_mono.
  { apply (runs_for_range _ (fun i l s => l = loop_at i /\ ws_calm (len rows + 1 - i) s)).
    - split; [done|]. by rewrite Z.sub_0_r.
    - intros i l s' Hi [-> Hs']. eapply runs_mono; [apply (runs_table_step (len rows - i)); [lia|lia|]|].
      + by replace (len rows - i + 1) with (len rows + 1 - i) by lia.
      + cbn beta. intros l' t [-> Ht]. split; [done|]. by replace (len rows + 1 - (i + 1)) with (len rows - i) by lia. }
  cbn beta. intros l s' [-> _]. repeat run; [|apply checked_add_ok; lia|].
  { cbn [previous_offset loop_at]. rewrite take_ge by lia. by rewrite Z.eqb_refl. }
  constructor; cbn [t_count section_start section_end payload_start]; done.
Qed.
End Accepts.

(** C11: [validate_table] accepts a section, when nothing interferes with it,
    exactly when the section is the encoding of a list of strictly ascending
    rows whose number is the announced row count. *)
Theorem validate_table_accepts_exactly_sorted_tables data e s :
  is_bytes data -> len data <= USIZE_MAX -> entry_ok e -> ws_ok s -> ws_calm (row_count e + 1) s ->
  (exists t s', validate_table data e s = (Ok t, s')) <->
  (exists rows, get_range data (e_offset e) (e_offset e + stored_length e) = Some (encode_table rows) /\
                ascending rows /\ row_count e = len rows).
Proof.
  intros Hb Hl He Hs Hcalm. split.
  - intros (t & s' & E).
    pose proof (wpp_validate_table data e (fun t _ => exists rows, table_rows data t rows /\ table_of e t) s
                  Hb Hl He Hs) as H.
    unfold wpp in H. rewrite E in H. destruct H as (rows & [Hc Hsec Hp Ha] & _ & Hn & _ & H1 & H2); [by eauto|].
    exists rows. rewrite <- H2, <- H1, <- Hn. done.
  - intros (rows & Hsec & Ha & Hn). rewrite Hn in Hcalm.
    assert (len (encode_table rows) <= USIZE_MAX) as Hlen.
    { apply get_range_length in Hsec as (H1 & H2 & H3). lia. }
    pose proof (runs_validate_table rows Hlen Ha data e s He Hl Hn Hsec Hcalm) as H. unfold runs in H.
    destruct (validate_table data e s) as [[t|e'|] s']; [by eauto|done|done].
Qed.

(** The rows of an accepted table are found by their index: [Table::row]
    returns the i-th row of the encoded list, and past the end it reports a
    corrupt reference.  So an accepted table panics on no lookup. *)
Theorem accepted_table_returns_its_rows data e s t s' :
  is_bytes data -> len data <= USIZE_MAX -> entry_ok e -> ws_ok s ->
  validate_table data e s = (Ok t, s') ->
  exists rows,
    get_range data (e_offset e) (e_offset e + stored_length e) = Some (encode_table rows) /\ ascending rows /\
    (forall i, 0 <= i ->
       match rows !! Z.to_nat i with
       | Some row => Table_row t data i = Ok row
       | None => exists e, Table_row t data i = Err e /\ code e = "NATIVE_WIRE_CORRUPTION"%string
       end).
Proof.
  intros Hb Hl He Hs E.
  pose proof (wpp_validate_table data e (fun t _ => exists rows, table_rows data t rows /\ table_of e t) s
                Hb Hl He Hs) as H.
  unfold wpp in H. rewrite E in H. destruct H as (rows & Hr & _ & _ & _ & H1 & H2); [by eauto|].
  exists rows. rewrite <- H2, <- H1. pose proof Hr as [_ Hsec _ Ha]. splits; [done|done|].
  intros i Hi. by apply Table_row_cases.
Qed.

(** C27: [validate_table] adds the end offset of a row to the header size before
    it compares either with the section: an offset within the header size of
    2^64 overflows that addition, which panics (overflow checks are on) instead
    of reporting a corrupt table. *)
Theorem oversized_row_offset_panics data e s next rest :
  len data <= USIZE_MAX -> entry_ok e -> ws_calm 1 s -> row_count e = 1 ->
  get_range data (e_offset e) (e_offset e + stored_length e) =
    Some (to_le_bytes 8 1 ++ to_le_bytes 8 0 ++ to_le_bytes 8 next ++ rest) ->
  is_u64 next -> USIZE_MAX < 24 + next ->
  fst (validate_table data e s) = Panic.
Proof.
  intros Hl He Hs Hn Hsec Hnext Hover.
  assert (runs wire_checkpoint (fun _ s' => ws_calm 0 s') s) as Hcheck.
  { by apply (runs_checkpoint _ 0); [|lia|]. }
  set (section := to_le_bytes 8 1 ++ _) in *.
  pose proof (get_range_length _ _ _ _ Hsec) as (Hlen & Hpos & Hend).
  assert (len section = 24 + len rest) as Hsl by (unfold section; rewrite !length_app, !length_to_le_bytes; lia).
  assert (u64_at section 0 = Ok 1) as H0.
  { apply (scalar_at_mid 8 []); [apply reads_u64; ulia|change (len section <= USIZE_MAX); lia|done]. }
  assert (u64_at section 8 = Ok 0) as H8.
  { apply (scalar_at_mid 8 (to_le_bytes 8 1)); [apply reads_u64; ulia|change (len section <= USIZE_MAX); lia|done]. }
  assert (u64_at section 16 = Ok next) as H16.
  { unfold section. rewrite app_assoc.
    apply (scalar_at_mid 8 (to_le_bytes 8 1 ++ to_le_bytes 8 0)); [by apply reads_u64| |done].
    change (len ((to_le_bytes 8 1 ++ to_le_bytes 8 0) ++ to_le_bytes 8 next ++ rest) <= USIZE_MAX).
    rewrite <- app_assoc. fold section. lia. }
  unfold validate_table, Entry_end, usize_sub, usize_from_u64, usize_add. unfold_monad. rewrite Hn.
  rewrite try_from_ok by ulia. cbn [ok_or]. rewrite checked_add_ok by ulia. cbn [ok_or].
  rewrite try_from_ok by lia. cbn [ok_or]. rewrite Hsec. cbn [ok_or]. rewrite (proj2 (Z.ltb_ge (len section) 16)) by lia. rewrite H0. cbn beta iota.
  rewrite Z.eqb_refl. cbn [negb]. rewrite checked_add_ok by ulia. cbn [ok_or].
  rewrite checked_mul_ok by ulia. cbn [ok_or]. rewrite try_from_ok by ulia. cbn [ok_or].
  change ((1 + 2) * 8) with 24. rewrite (proj2 (Z.ltb_ge (len section) 24)) by lia.
  rewrite (proj2 (Z.leb_le 24 (len section))) by lia.
  change (Z.to_nat (1 + 1)) with 2%nat. cbn [for_range]. unfold_monad. unfold table_step at 1.
  unfold_monad. unfold runs in Hcheck. destruct (wire_checkpoint s) as [[[]|e'|] s']; [|done|done].
  unfold usize_from_u64, usize_mul, usize_add. rewrite try_from_ok by ulia. cbn [ok_or].
  rewrite checked_mul_ok by ulia. cbn [or_panic]. rewrite checked_add_ok by ulia. cbn [or_panic].
  rewrite Z.mul_0_l, Z.add_0_r. rewrite H8. cbn beta iota.
  cbn [previous_offset]. rewrite Z.eqb_refl, Z.ltb_irrefl. cbn [negb andb orb].
  rewrite (proj2 (Z.ltb_ge (len section - 24) 0)) by lia. rewrite try_from_ok by ulia. cbn [ok_or].
  change (0 <? 1) with true. rewrite checked_add_ok by ulia. cbn [or_panic].
  change (16 + 0) with 16. rewrite H16. cbn beta iota.
  rewrite (proj2 (Z.ltb_ge next 0)) by (destruct Hnext; lia).
  rewrite (try_from_ok USIZE_MAX 0) by ulia. cbn [ok_or].
  rewrite (checked_add_ok USIZE_MAX 24 0) by ulia. cbn [or_panic].
  rewrite (try_from_ok USIZE_MAX next) by ulia. cbn [ok_or].
  unfold checked_add at 1. rewrite (proj2 (Z.leb_gt _ _)) by lia. done.
Qed.

(** ** A table to try *)

Definition sample_state : WireState :=
  {| w_ctx := {| world := calm_world;
                 guard := sample_guard {| cancelled_flag := false; started := 0; duration := None;
                                          shared_deadline := None |} |};
     w_work := 0; w_memory := {| maximum := None; used := 0 |} |}.

Lemma sample_state_ok : ws_ok sample_state.
Proof. repeat split; cbn; ulia. Qed.

Lemma sample_state_calm k : k <= 1000 -> ws_calm k sample_state.
Proof. intros. repeat split; cbn; ulia. Qed.

Definition sample_rows : list bytes := [str "a"; str "bc"].
Definition sample_entry (section : bytes) (count : Z) : Entry :=
  {| e_kind := 1; e_flags := 1; e_schema := 1; e_offset := 0; stored_length := len section;
     decoded_length := len section; row_count := count; e_digest := replicate 32 0 |}.

Lemma sample_table_ok : is_bytes (encode_table sample_rows) /\
  entry_ok (sample_entry (encode_table sample_rows) 2).
Proof. split; [by apply is_bytesb_true|]. repeat split; cbn; ulia. Qed.

Lemma validate_table_accepts_exactly_sorted_tables_witness :
  exists t s', validate_table (encode_table sample_rows)
                 (sample_entry (encode_table sample_rows) 2) sample_state = (Ok t, s').
Proof.
  destruct sample_table_ok as [Hb He].
  apply validate_table_accepts_exactly_sorted_tables; [done|vm_compute; discriminate|done| | |].
  - apply sample_state_ok.
  - apply sample_state_calm. vm_compute. discriminate.
  - exists sample_rows. split; [reflexivity|]. split; [|reflexivity].
    repeat constructor.
Defined.

Lemma accepted_table_returns_its_rows_witness :
  exists t s' rows,
    validate_table (encode_table sample_rows) (sample_entry (encode_table sample_rows) 2) sample_state
      = (Ok t, s') /\
    get_range (encode_table sample_rows) 0 (len (encode_table sample_rows)) = Some (encode_table rows) /\
    ascending rows /\
    match rows !! 1%nat with
    | Some row => Table_row t (encode_table sample_rows) 1 = Ok row
    | None => exists e, Table_row t (encode_table sample_rows) 1 = Err e /\
                        code e = "NATIVE_WIRE_CORRUPTION"%string
    end.
Proof.
  destruct sample_table_ok as [Hb He].
  destruct (validate_table (encode_table sample_rows) (sample_entry (encode_table sample_rows) 2)
              sample_state) as [[t|e|] s'] eqn:E; [|vm_compute in E; discriminate..].
  destruct (accepted_table_returns_its_rows (encode_table sample_rows)
              (sample_entry (encode_table sample_rows) 2) sample_state t s')
    as (rows & Hsec & Ha & Hrow); [done|vm_compute; discriminate|done|apply sample_state_ok|done|].
  exists t, s', rows. split; [done|]. split; [exact Hsec|]. split; [done|by apply (Hrow 1)].
Defined.

(** A section of 24 bytes whose only row ends at 2^64 - 1. *)
Lemma oversized_row_offset_panics_witness :
  fst (validate_table (to_le_bytes 8 1 ++ to_le_bytes 8 0 ++ to_le_bytes 8 U64_MAX ++ [])
         (sample_entry (replicate 24 0) 1) sample_state) = Panic.
Proof.
  apply (oversized_row_offset_panics _ _ _ U64_MAX []).
  - vm_compute. discriminate.
  - repeat split; cbn; ulia.
  - apply sample_state_calm. lia.
  - reflexivity.
  - reflexivity.
  - ulia.
  - ulia.
Defined.
