(* ===== verification/WireFraming.v ===== *)
(** * Framing: what an accepted header, directory and layout say

    The fixed layouts of the header and of a directory record, and the
    properties of the sections of an accepted file: ordered kinds, all required
    kinds present, disjoint ranges, zero padding, matching digests, tables. *)

From S2P Require Import Prelude Bytes Hash Error Machine Limits Cancel Reader Component Wire WireTable.

(** ** Layouts *)

Definition encode_header (h : Header) : bytes :=
  MAGIC ++ to_le_bytes 2 (h_major h) ++ to_le_bytes 2 (h_minor h) ++ to_le_bytes 4 (header_length h) ++
  to_le_bytes 4 (h_feature_flags h) ++ to_le_bytes 4 (h_section_count h) ++
  to_le_bytes 4 (h_model_schema h) ++ to_le_bytes 4 (h_profile h) ++ to_le_bytes 8 (h_total_length h) ++
  to_le_bytes 8 (directory_offset h) ++ to_le_bytes 8 (directory_length h) ++ h_file_digest h ++
  to_le_bytes 4 (header_crc h) ++ to_le_bytes 4 (reserved h).

Definition encode_entry (e : Entry) : bytes :=
  to_le_bytes 2 (e_kind e) ++ to_le_bytes 2 (e_flags e) ++ to_le_bytes 4 (e_schema e) ++
  to_le_bytes 8 (e_offset e) ++ to_le_bytes 8 (stored_length e) ++ to_le_bytes 8 (decoded_length e) ++
  to_le_bytes 8 (row_count e) ++ e_digest e.

Record header_range (h : Header) : Prop := {
  range_minor : is_u16 (h_minor h);
  range_flags : is_u32 (h_feature_flags h);
  range_count : is_u32 (h_section_count h);
  range_total : is_u64 (h_total_length h);
  range_crc : is_u32 (header_crc h);
  range_digest : len (h_file_digest h) = 32
}.

Lemma owp_array_32 data offset (Q : bytes -> Prop) :
  0 <= offset -> offset + 32 <= USIZE_MAX ->
  (forall x, get_range data offset (offset + 32) = Some x -> len x = 32 -> Q x) ->
  owp (array_32 data offset) Q.
Proof.
  intros Ho Hm HQ. unfold array_32, array_from_slice. step. apply owp_usize_add; [lia|].
  step. step. step; [|done]. bool_to_prop. cbn. by apply HQ.
Qed.

Lemma owp_read_header data (Q : Header -> Prop) :
  is_bytes data -> len data <= USIZE_MAX ->
  (forall h, header_range h -> get_range data 0 96 = Some (encode_header h) -> Q h) ->
  owp (read_header data) Q.
Proof.
  intros Hb Hl HQ. unfold read_header. step. step. bool_to_prop. step. step.
  rename H0 into Hmagic. apply negb_false_iff in Hmagic as Hmagic%bool_decide_eq_true.
  unfold HEADER_BYTES in *.
  step. apply owp_u16_at; [done|done|lia|]. intros major G1 _.
  step. apply owp_u16_at; [done|done|lia|]. intros minor G2 ?.
  step. apply owp_u32_at; [done|done|lia|]. intros hlen G3 _.
  step. apply owp_u32_at; [done|done|lia|]. intros flags G4 ?.
  step. apply owp_u32_at; [done|done|lia|]. intros count G5 ?.
  step. apply owp_u32_at; [done|done|lia|]. intros schema G6 _.
  step. apply owp_u32_at; [done|done|lia|]. intros profile G7 _.
  step. apply owp_u64_at; [done|done|lia|]. intros total G8 ?.
  step. apply owp_u64_at; [done|done|lia|]. intros doff G9 _.
  step. apply owp_u64_at; [done|done|lia|]. intros dlen G10 _.
  step. apply owp_array_32; [lia|ulia|]. intros digest G11 ?.
  step. apply owp_u32_at; [done|done|lia|]. intros crc G12 ?.
  step. apply owp_u32_at; [done|done|lia|]. intros res G13 _.
  step. apply HQ; [by constructor|].
  unfold encode_header. cbn [h_major h_minor header_length h_feature_flags h_section_count h_model_schema
    h_profile h_total_length directory_offset directory_length h_file_digest header_crc reserved].
  repeat (eapply get_range_app; [eassumption|]). done.
Qed.

Lemma owp_read_entry data index (Q : Entry -> Prop) :
  is_bytes data -> len data <= USIZE_MAX -> 0 <= index -> 96 + 72 * (index + 1) <= len data ->
  (forall e, entry_ok e -> len (e_digest e) = 32 ->
     get_range data (96 + 72 * index) (96 + 72 * (index + 1)) = Some (encode_entry e) -> Q e) ->
  owp (read_entry data index) Q.
Proof.
  intros Hb Hl Hi Hfit HQ. unfold read_entry, DIRECTORY_BYTES, HEADER_BYTES. step. step.
  apply checked_mul_Some in H as [-> _]. step. step. apply checked_add_Some in H as [-> _].
  replace (96 + index * 72) with (96 + 72 * index) by lia. set (o := 96 + 72 * index) in *.
  step. apply owp_u16_at; [done|done|lia|]. intros kind G1 _.
  step. apply owp_usize_add; [lia|]. step. apply owp_u16_at; [done|done|lia|]. intros flags G2 _.
  step. apply owp_usize_add; [lia|]. step. apply owp_u32_at; [done|done|lia|]. intros schema G3 _.
  step. apply owp_usize_add; [lia|]. step. apply owp_u64_at; [done|done|lia|]. intros offset G4 ?.
  step. apply owp_usize_add; [lia|]. step. apply owp_u64_at; [done|done|lia|]. intros stored G5 ?.
  step. apply owp_usize_add; [lia|]. step. apply owp_u64_at; [done|done|lia|]. intros decoded G6 _.
  step. apply owp_usize_add; [lia|]. step. apply owp_u64_at; [done|done|lia|]. intros rows G7 ?.
  step. apply owp_usize_add; [lia|]. step. apply owp_array_32; [lia|lia|]. intros digest G8 ?.
  step. apply HQ; [done|done|]. unfold encode_entry.
  cbn [e_kind e_flags e_schema e_offset stored_length decoded_length row_count e_digest].
  rewrite <- Z.add_assoc in G2, G3, G4, G5, G6, G7, G8. cbn in G2, G3, G4, G5, G6, G7, G8.
  replace (96 + 72 * (index + 1)) with (o + 72) by lia.
  repeat (eapply get_range_app; [eassumption|]). done.
Qed.

(** ** The header *)

Record header_accepted (data : bytes) (limits : Limits) (h : Header) : Prop := {
  accepted_major : h_major h = WIRE_MAJOR;
  accepted_layout : header_length h = HEADER_BYTES;
  accepted_schema : h_model_schema h = MODEL_SCHEMA;
  accepted_profile : h_profile h = CANONICAL_PROFILE;
  accepted_features : h_feature_flags h = 0 \/ h_feature_flags h = FEATURE_SWRL;
  accepted_reserved : reserved h = 0;
  accepted_total : h_total_length h = len data;
  accepted_count : h_section_count h <= max_wire_rows limits;
  accepted_offset : directory_offset h = HEADER_BYTES;
  accepted_length : directory_length h = 72 * h_section_count h;
  accepted_bounds : 96 + 72 * h_section_count h <= len data;
  accepted_crc : header_crc h = crc32c (zeroed_header data)
}.

Lemma unknown_features flags :
  is_u32 flags -> Z.land flags (U32_MAX - FEATURE_SWRL) = 0 -> flags = 0 \/ flags = FEATURE_SWRL.
Proof.
  intros Hf H. assert (Z.shiftr flags 1 = 0) as Hq.
  { pose proof (Z.shiftr_land flags (U32_MAX - FEATURE_SWRL) 1) as E. rewrite H, Z.shiftr_0_l in E.
    change (Z.shiftr (U32_MAX - FEATURE_SWRL) 1) with (Z.ones 31) in E.
    rewrite Z.land_ones, Z.shiftr_div_pow2 in E by lia. rewrite Z.shiftr_div_pow2 by lia.
    change (2 ^ 1) with 2 in *. change (2 ^ 31) with 2147483648 in E. unfold_ranges.
    Z.div_mod_to_equations. lia. }
  rewrite Z.shiftr_div_pow2 in Hq by lia. change (2 ^ 1) with 2 in Hq. unfold FEATURE_SWRL.
  unfold_ranges. Z.div_mod_to_equations. lia.
Qed.

Lemma owp_check_header data limits h (Q : Z -> Prop) :
  len data <= USIZE_MAX -> header_range h ->
  (header_accepted data limits h -> Q (96 + 72 * h_section_count h)) ->
  owp (check_header data limits h) Q.
Proof.
  intros Hl [Hmi Hfl Hco Hto _ _] HQ. unfold check_header, DIRECTORY_BYTES.
  step. step. step. step. step. step. step. step. step. step. step. step.
  step. apply owp_usize_from_u64. intros _. step. step. step. step. step. step.
  apply checked_mul_Some in H7 as [-> _]. step. step. bool_to_prop. step. step.
  apply checked_add_Some in H9 as [-> _]. step. step. bool_to_prop. step. step. bool_to_prop. cbn [owp].
  unfold HEADER_BYTES in *. replace (directory_offset h + directory_length h) with (96 + 72 * h_section_count h) by lia.
  apply HQ. constructor; try done; try lia. by apply unknown_features.
Qed.

(** ** The directory *)

Definition Entry_stop (e : Entry) : Z := e_offset e + stored_length e.

Record entry_accepted (limits : Limits) (minor total directory_end : Z) (e : Entry) : Prop := {
  entry_fields : entry_ok e;
  entry_flags :
    (e_flags e = SECTION_REQUIRED /\ required_kind (e_kind e) = true) \/
    (e_flags e = SECTION_OPTIONAL /\ required_kind (e_kind e) = false);
  entry_schema : forall v, supported_schema (e_kind e) = Some v -> e_schema e = v;
  entry_minor_1 : e_kind e = VIEW_PROVENANCE_KIND -> 1 <= minor;
  entry_minor_2 : e_kind e = ENCODED_STRUCTURAL_V2_KIND -> 2 <= minor;
  entry_not_v1 : e_kind e <> ENCODED_STRUCTURAL_V1_KIND;
  entry_decoded : decoded_length e = stored_length e;
  entry_aligned : e_offset e mod 8 = 0;
  entry_after_directory : directory_end <= e_offset e;
  entry_bounds : Entry_stop e <= total;
  entry_rows : row_count e <= max_wire_rows limits /\ row_count e <= U32_MAX
}.

(** The directory records read so far and what they add up to. *)
Record directory_invariant (data : bytes) (limits : Limits) (h : Header) (directory_end : Z) (d : Directory)
  : Prop := {
  inv_encoding : get_range data 96 (96 + 72 * len (entries d)) = Some (concat (map encode_entry (entries d)));
  inv_accepted : Forall (entry_accepted limits (h_minor h) (h_total_length h) directory_end) (entries d);
  inv_kinds : StronglySorted Z.lt (map e_kind (entries d));
  inv_previous : forall e, last (entries d) = Some e -> previous_kind d = e_kind e;
  inv_mask : forall k, 0 <= k -> Z.testbit (required_mask d) k = true ->
               exists e, In e (entries d) /\ e_kind e = k + 1;
  inv_total : d_total_rows d = sum (map row_count (entries d)) /\ is_u64 (d_total_rows d);
  inv_records : Forall (fun e => exists index, 0 <= index /\ read_entry data index = Ok e) (entries d)
}.

Lemma owp_check_entry_kind minor index previous mask e (Q : Z -> Prop) :
  (forall mask',
     (index <> 0 -> previous < e_kind e) ->
     (e_flags e = SECTION_REQUIRED /\ required_kind (e_kind e) = true /\
        mask' = Z.lor mask (Z.shiftl 1 (e_kind e - 1)) \/
      e_flags e = SECTION_OPTIONAL /\ required_kind (e_kind e) = false /\ mask' = mask) ->
     (forall v, supported_schema (e_kind e) = Some v -> e_schema e = v) ->
     (e_kind e = VIEW_PROVENANCE_KIND -> 1 <= minor) ->
     (e_kind e = ENCODED_STRUCTURAL_V2_KIND -> 2 <= minor) ->
     e_kind e <> ENCODED_STRUCTURAL_V1_KIND -> Q mask') ->
  owp (check_entry_kind minor index previous mask e) Q.
Proof.
  intros HQ. unfold check_entry_kind. step. step. step. step. step.
  assert (owp (if e_flags e =? SECTION_REQUIRED then
       fail_if (negb (required_kind (e_kind e))) (version "unknown required PYOCORE section");;
       Ok (Z.lor mask (Z.shiftl 1 (e_kind e - 1)))
     else fail_if (required_kind (e_kind e)) (version "required PYOCORE section is marked optional");; Ok mask)
    (fun mask' => e_flags e = SECTION_REQUIRED /\ required_kind (e_kind e) = true /\
        mask' = Z.lor mask (Z.shiftl 1 (e_kind e - 1)) \/
      e_flags e = SECTION_OPTIONAL /\ required_kind (e_kind e) = false /\ mask' = mask)) as Hmask.
  { destruct (Z.eqb_spec (e_flags e) SECTION_REQUIRED).
    - step. step. step. left. by apply negb_false_iff in H1.
    - step. step. step. right. splits; [|done|done]. cbn in H0. by apply negb_false_iff, Z.eqb_eq in H0. }
  eapply owp_mono; [|exact Hmask]. cbn beta. intros mask' Hm.
  step. step. step. step. step. step. step. step. step.
  apply HQ; [| done | | | |].
  - intros Hi. destruct (Z.eqb_spec index 0); [done|]. cbn in H. by apply Z.leb_gt in H.
  - intros v Hv. rewrite Hv in H1. by apply negb_false_iff, Z.eqb_eq in H1.
  - intros E. rewrite E in H2. cbn in H2. by apply Z.ltb_ge in H2.
  - intros E. rewrite E in H3. cbn in H3. by apply Z.ltb_ge in H3.
  - by apply Z.eqb_neq.
Qed.

Lemma owp_check_entry_range limits total directory_end rows e (Q : Z -> Prop) :
  (decoded_length e = stored_length e -> e_offset e mod 8 = 0 -> directory_end <= e_offset e ->
   Entry_stop e <= total -> row_count e <= max_wire_rows limits /\ row_count e <= U32_MAX ->
   rows + row_count e <= U64_MAX -> Q (rows + row_count e)) ->
  owp (check_entry_range limits total directory_end rows e) Q.
Proof.
  intros HQ. unfold check_entry_range, Entry_end. repeat step; bool_to_prop.
  apply checked_add_Some in H1 as [-> ?], H5 as [-> ?]. by apply HQ.
Qed.

Lemma directory_snoc data limits h directory_end d mask' e :
  let index := len (entries d) in
  directory_invariant data limits h directory_end d -> entry_accepted limits (h_minor h) (h_total_length h) directory_end e ->
  read_entry data index = Ok e ->
  get_range data (96 + 72 * index) (96 + 72 * (index + 1)) = Some (encode_entry e) ->
  (index <> 0 -> previous_kind d < e_kind e) ->
  (e_flags e = SECTION_REQUIRED /\ required_kind (e_kind e) = true /\
     mask' = Z.lor (required_mask d) (Z.shiftl 1 (e_kind e - 1)) \/
   e_flags e = SECTION_OPTIONAL /\ required_kind (e_kind e) = false /\ mask' = required_mask d) ->
  d_total_rows d + row_count e <= U64_MAX ->
  directory_invariant data limits h directory_end
    {| entries := entries d ++ [e]; previous_kind := e_kind e; required_mask := mask';
       d_total_rows := d_total_rows d + row_count e |}.
Proof.
  intros index [Henc Hacc Hkinds Hprev Hmask [Htotal Ht64] Hrec] He Hread Hrange Hlt Hmask' Hrows.
  constructor; cbn [entries previous_kind required_mask d_total_rows].
  - rewrite map_app, concat_app, length_app. cbn [map concat length].
    rewrite app_nil_r, Nat2Z.inj_add. eapply get_range_app; [exact Henc|exact Hrange].
  - apply Forall_app. split; [done|]. constructor; [done|constructor].
  - rewrite map_app. apply sorted_snoc; [apply _|done|]. intros y Hy. change (last (e_kind <$> entries d) = Some y) in Hy. rewrite fmap_last in Hy.
    destruct (last (entries d)) as [p|] eqn:E; [|done]. injection Hy as <-. rewrite <- (Hprev p) by done.
    apply Hlt. unfold index. destruct (entries d); [done|cbn [length]; lia].
  - intros p. rewrite last_snoc. by intros [= <-].
  - intros k Hk Hbit. destruct Hmask' as [(_ & Hreq & ->)|(_ & _ & ->)].
    + rewrite Z.lor_spec in Hbit. apply orb_true_iff in Hbit as [Hbit|Hbit].
      * destruct (Hmask k Hk Hbit) as (p & Hp & Hkind). exists p. rewrite in_app_iff. auto.
      * rewrite Z.shiftl_spec in Hbit by done. exists e. rewrite in_app_iff. split; [right; by left|].
        unfold required_kind, in_range in Hreq. bool_to_prop.
        destruct (Z.eq_dec (k - (e_kind e - 1)) 0); [lia|]. exfalso.
        destruct (Z.lt_ge_cases (k - (e_kind e - 1)) 0).
        -- by rewrite Z.testbit_neg_r in Hbit.
        -- rewrite (Z.bits_above_log2 1) in Hbit; [done|done|cbn; lia].
    + destruct (Hmask k Hk Hbit) as (p & Hp & Hkind). exists p. rewrite in_app_iff. auto.
  - rewrite map_app, sum_app. cbn [map sum foldr]. destruct He as [(_ & _ & Hr) _ _ _ _ _ _ _ _ _ _]. ulia.
  - apply Forall_app. split; [done|]. constructor; [|constructor]. exists index. split; [lia|done].
Qed.

Lemma wp_directory_step data limits h index d s :
  is_bytes data -> len data <= USIZE_MAX -> header_range h -> ws_ok s ->
  0 <= index < h_section_count h -> 96 + 72 * h_section_count h <= len data ->
  len (entries d) = index -> directory_invariant data limits h (96 + 72 * h_section_count h) d ->
  wp (directory_step data limits h (96 + 72 * h_section_count h) index d)
    (fun d' s' => ws_ok s' /\ len (entries d') = index + 1 /\
       directory_invariant data limits h (96 + 72 * h_section_count h) d') s.
Proof.
  intros Hb Hl Hh Hs Hi Hfit <- Hinv. unfold directory_step.
  step. apply wp_wire_checkpoint; [done|]. intros s' Hs'. step. step.
  apply owp_eq, owp_read_entry; [done|done|lia|lia|]. intros e He Hdigest Hrange Hread.
  step. step. apply owp_check_entry_kind. intros mask' Hlt Hmask' Hschema Hm1 Hm2 Hv1.
  step. step. apply owp_check_entry_range. intros Hdec Hal Hafter Hbound Hrows Htotal.
  step. split; [done|]. split; [cbn [entries]; rewrite length_app; cbn; lia|].
  apply directory_snoc; try done. constructor; try done. destruct Hmask' as [(? & ? & _)|(? & ? & _)]; auto.
Qed.

Lemma all_kinds mask :
  mask = 0x3fff -> forall kind, required_kind kind = true -> Z.testbit mask (kind - 1) = true.
Proof.
  intros -> kind Hk. unfold required_kind, in_range in Hk. bool_to_prop.
  change 0x3fff with (Z.ones 14). apply Z.ones_spec_low. lia.
Qed.

(** What an accepted directory says. *)
Record directory_accepted (data : bytes) (limits : Limits) (h : Header) (d : Directory) : Prop := {
  directory_encoding :
    get_range data 96 (96 + 72 * h_section_count h) = Some (concat (map encode_entry (entries d)));
  directory_count : len (entries d) = h_section_count h;
  directory_entries :
    Forall (entry_accepted limits (h_minor h) (h_total_length h) (96 + 72 * h_section_count h)) (entries d);
  directory_kinds : StronglySorted Z.lt (map e_kind (entries d));
  directory_required : forall kind, required_kind kind = true -> exists e, In e (entries d) /\ e_kind e = kind;
  directory_total : d_total_rows d = sum (map row_count (entries d)) /\ is_u64 (d_total_rows d);
  directory_records : Forall (fun e => exists index, 0 <= index /\ read_entry data index = Ok e) (entries d)
}.

Lemma wp_read_directory data limits h (Q : Directory -> WireState -> Prop) s :
  is_bytes data -> len data <= USIZE_MAX -> header_range h -> ws_ok s ->
  96 + 72 * h_section_count h <= len data ->
  (forall d s', ws_ok s' -> directory_accepted data limits h d -> Q d s') ->
  wp (read_directory data limits h (96 + 72 * h_section_count h)) Q s.
Proof.
  intros Hb Hl Hh Hs Hfit HQ. unfold read_directory. pose proof (range_count h Hh) as Hc. unfold is_u32 in Hc.
  step. step. step. apply try_from_Some in H as [-> _]. step. apply wp_reserve_vec; [done|lia|done|].
  intros s' Hs'. step. eapply wp_mono.
  { apply (wp_for_range _ (fun i d s => ws_ok s /\ len (entries d) = i /\
             directory_invariant data limits h (96 + 72 * h_section_count h) d)).
    - split; [done|]. split; [done|]. constructor; cbn; try done; try (by constructor).
      + apply get_range_Some. split; [done|]. destruct (split_at data 96) as (x & y & -> & Hx); [lia|].
        exists x, y. cbn. repeat split; [done|lia].
      + intros k Hk. by rewrite Z.bits_0.
    - intros i d t Hi (Ht & Hd & Hinv). apply wp_directory_step; try done. lia. }
  cbn beta. intros d t (Ht & Hlen & [H1 H2 H3 H4 H5 H6 H7]). rewrite Z.add_0_l, Z2Nat.id in Hlen by lia.
  step. step. step. apply negb_false_iff, Z.eqb_eq in H. apply HQ; [done|].
  rewrite Hlen in H1. constructor; try done.
  intros kind Hk. destruct (H5 (kind - 1)) as (e & He & E).
  - unfold required_kind, in_range in Hk. bool_to_prop. lia.
  - by apply all_kinds.
  - exists e. split; [done|lia].
Qed.

(** ** The layout *)

(** Two sections share no byte. *)
Definition disjoint (x y : Entry) : Prop := Entry_stop x <= e_offset y \/ Entry_stop y <= e_offset x.

#[export] Instance disjoint_symmetric : Symmetric disjoint.
Proof. intros x y [H|H]; [by right|by left]. Qed.

Definition outside (i : Z) (e : Entry) : Prop := i < e_offset e \/ Entry_stop e <= i.

Record layout_accepted (data : bytes) (directory_end : Z) (es : list Entry) : Prop := {
  layout_disjoint : StronglySorted disjoint es;
  layout_padding : forall i, directory_end <= i < len data -> Forall (outside i) es -> get_at data i = Some 0
}.

(** Pairwise relations that are symmetric do not depend on the order. *)
Lemma pairwise_permutation {A} (R : relation A) `{!Symmetric R} l l' :
  l ≡ₚ l' -> StronglySorted R l -> StronglySorted R l'.
Proof.
  induction 1 as [|x l l' Hp IH|x y l|l l' l'' _ IH1 _ IH2]; intros Hs; [done| | |by auto].
  - inversion Hs; subst. constructor; [by auto|]. by rewrite <- Hp.
  - inversion Hs as [|? ? Hs' Hy]; subst. inversion Hs' as [|? ? Hs'' Hx]; subst.
    inversion Hy; subst. repeat constructor; auto.
Qed.

Lemma all_zero_at data a b padding :
  get_range data a b = Some padding -> all_zero padding = true ->
  forall i, a <= i < b -> get_at data i = Some 0.
Proof.
  intros Hr Hz i Hi. pose proof (get_range_length _ _ _ _ Hr) as (Hl & _ & _).
  pose proof (get_range_at data a b padding (i - a) Hr ltac:(lia)) as E.
  replace (a + (i - a)) with i in E by lia. rewrite <- E.
  destruct (get_at_is_Some padding (i - a)) as [x Hx]; [lia|]. rewrite Hx. f_equal.
  apply get_at_Some in Hx as [_ Hx]. unfold all_zero in Hz. rewrite forallb_forall in Hz.
  apply Z.eqb_eq, Hz. apply list_elem_of_In. by eapply list_elem_of_lookup_2.
Qed.

(** The cursor of the padding loop: everything before it is accounted for. *)
Record layout_invariant (data : bytes) (directory_end cursor : Z) (seen : list Entry) : Prop := {
  cursor_range : directory_end <= cursor;
  cursor_after : Forall (fun e => Entry_stop e <= cursor) seen;
  cursor_disjoint : StronglySorted disjoint seen;
  cursor_padding : forall i, directory_end <= i < cursor -> Forall (outside i) seen -> get_at data i = Some 0
}.

Lemma owp_check_padding data directory_end e cursor seen :
  len data <= USIZE_MAX -> 0 <= directory_end -> entry_ok e -> layout_invariant data directory_end cursor seen ->
  owp (check_padding data e cursor) (fun cursor' => layout_invariant data directory_end cursor' (seen ++ [e])).
Proof.
  intros Hl Hd (_ & [Hs _] & _) [H1 H2 H3 H4]. unfold check_padding, Entry_end. step. step. bool_to_prop.
  step. apply owp_usize_from_u64. intros _. step. apply owp_usize_from_u64. intros _.
  step. step. rename a into padding. step. step. apply negb_false_iff in H5.
  step. apply checked_add_Some in H6 as [-> _]. fold (Entry_stop e).
  assert (e_offset e <= Entry_stop e) by (unfold Entry_stop; lia).
  constructor; [lia| | |].
  - apply Forall_app. split; [|by repeat constructor]. eapply Forall_impl; [exact H2|]. cbn. intros x Hx. lia.
  - apply StronglySorted_app. split; [|split; [done|by repeat constructor]].
    intros x y Hx ->%list_elem_of_singleton. left. rewrite Forall_forall in H2. specialize (H2 x Hx). lia.
  - intros i Hi [Hseen He]%Forall_app. apply Forall_inv in He.
    destruct (Z.lt_ge_cases i cursor) as [Hlt|Hge]; [apply H4; [lia|done]|].
    destruct He as [He|He]; [|lia]. apply (all_zero_at data cursor (e_offset e) padding); [done|done|lia].
Qed.

Lemma wp_check_layout data directory_end es (Q : unit -> WireState -> Prop) s :
  len data <= USIZE_MAX -> 0 <= directory_end -> Forall entry_ok es -> ws_ok s ->
  (forall s', ws_ok s' -> layout_accepted data directory_end es -> Q tt s') ->
  wp (check_layout data directory_end es) Q s.
Proof.
  intros Hl Hd Hes Hs HQ. unfold check_layout. step. apply wp_reserve_vec; [done|lia|done|]. intros s' Hs'.
  pose proof (merge_sort_Permutation offset_le es) as Hperm. set (sorted := merge_sort offset_le es) in *.
  assert (Forall entry_ok sorted) as Hsorted by (by rewrite Hperm).
  step. step. eapply owp_mono.
  2:{ apply (owp_for_each _ (fun rest cursor => exists seen, seen ++ rest = sorted /\
        layout_invariant data directory_end cursor seen)).
      - exists []. split; [done|]. constructor; [lia|by constructor|by constructor|lia].
      - intros e rest cursor (seen & E & Hinv). rewrite <- E in Hsorted.
        apply Forall_app in Hsorted as [_ He]. apply Forall_inv in He.
        eapply owp_mono; [|by apply (owp_check_padding data directory_end e cursor seen)]. cbn beta.
        intros cursor' Hinv'. exists (seen ++ [e]). by rewrite <- app_assoc. }
  cbn beta. intros cursor (seen & E & [H1 H2 H3 H4]). rewrite app_nil_r in E. subst seen.
  step. step. apply owp_usize_from_u64. intros _. step. step. step. rename a into trailing.
  step. apply negb_false_iff in H0. apply HQ; [done|]. constructor.
  - exact (pairwise_permutation disjoint sorted es Hperm H3).
  - intros i Hi Hout. rewrite <- Hperm in Hout. destruct (Z.lt_ge_cases i cursor); [apply H4; [lia|done]|].
    apply (all_zero_at data cursor (len data) trailing); [done|done|lia].
Qed.

(** ** Sections *)

(** A section whose digest and, for a kind with a table, whose rows are as announced. *)
Definition section_accepted (data : bytes) (e : Entry) : Prop :=
  exists section, get_range data (e_offset e) (Entry_stop e) = Some section /\
    e_digest e = sha256_spec section /\
    (has_table (e_kind e) = true ->
       exists rows, section = encode_table rows /\ ascending rows /\ row_count e = len rows).

(** The tables of the sections with one, in order. *)
Definition tables_of (data : bytes) (es : list Entry) (tables : list Table) : Prop :=
  Forall2 (fun e t => table_of e t /\ exists rows, table_rows data t rows)
    (List.filter (fun e => has_table (e_kind e)) es) tables.

Lemma wpp_check_section data e tables (Q : list Table -> WireState -> Prop) s :
  is_bytes data -> len data <= USIZE_MAX -> entry_ok e -> ws_ok s ->
  (forall s' new, ws_ok s' -> section_accepted data e -> tables_of data [e] new -> Q (tables ++ new) s') ->
  wpp (overflowing_offset data e) (check_section data e tables) Q s.
Proof.
  intros Hb Hl He Hs HQ. unfold check_section, Entry_end. pose proof He as ([He1 _] & [He2 _] & _).
  apply wpp_bind, wpp_of_wp. step. apply owp_usize_from_u64. intros _.
  apply wpp_bind, wpp_of_wp. step. step. apply checked_add_Some in H as [-> _].
  apply wpp_bind, wpp_of_wp. step. apply owp_usize_from_u64. intros _.
  apply wpp_bind, wpp_of_wp. step. step. rename a into section, H into Hsec.
  pose proof (get_range_length _ _ _ _ Hsec) as (Hlen & _ & Hend).
  apply wpp_bind, wpp_of_wp. apply wp_hash_checked; [lia|done|]. intros s1 Hs1.
  apply wpp_bind, wpp_of_wp. step. apply negb_false_iff, bytes_eqb_eq in H.
  destruct (has_table (e_kind e)) eqn:Htable.
  - apply wpp_bind, wpp_validate_table; [done|done|done|done|]. intros t rows s2 Hs2 Ht Hof.
    apply wpp_ret, HQ; [done| |].
    + exists section. splits; [done|done|]. intros _. exists rows.
      destruct Ht as [Hc Hr _ Ha]. destruct Hof as (_ & Hn & _ & H1 & H2).
      rewrite H1, H2, Hsec in Hr. injection Hr as ->. rewrite <- Hn. done.
    + unfold tables_of. cbn. rewrite Htable. constructor; [|constructor]. by eauto.
  - apply wpp_ret. rewrite <- (app_nil_r tables). apply HQ; [done| |].
    + exists section. splits; [done|done|congruence].
    + unfold tables_of. cbn. rewrite Htable. constructor.
Qed.

Lemma wpp_check_sections data es (Q : list Table -> WireState -> Prop) s :
  is_bytes data -> len data <= USIZE_MAX -> Forall entry_ok es -> ws_ok s ->
  (forall tables s', ws_ok s' -> Forall (section_accepted data) es -> tables_of data es tables -> Q tables s') ->
  wpp (Exists (overflowing_offset data) es) (check_sections data es) Q s.
Proof.
  intros Hb Hl Hes Hs HQ. unfold check_sections.
  apply wpp_bind, wpp_of_wp, wp_reserve_vec; [done|lia|done|]. intros s' Hs'.
  eapply wpp_mono.
  { apply (wpp_for_each _ _ (fun rest tables t => ws_ok t /\ exists seen, seen ++ rest = es /\
      Forall (section_accepted data) seen /\ tables_of data seen tables)).
    - split; [done|]. exists []. repeat split; constructor.
    - intros e rest tables t (Ht & seen & E & Hseen & Htables).
      assert (entry_ok e) as He by (rewrite <- E, Forall_app in Hes; by destruct Hes as [_ Hes%Forall_inv]).
      apply (wpp_weaken _ (overflowing_offset data e)); [|intros Hover].
      + apply wpp_check_section; [done..|]. intros t' new Ht' Hsec Hnew. split; [done|].
        exists (seen ++ [e]). rewrite <- app_assoc. split; [done|]. split.
        * apply Forall_app. split; [done|]. constructor; [done|constructor].
        * unfold tables_of. rewrite List.filter_app. by apply Forall2_app.
      + rewrite <- E. apply Exists_app. right. by left. }
  cbn beta. intros tables t (Ht & seen & E & Hseen & Htables). rewrite app_nil_r in E. subst. by apply HQ.
Qed.

(** ** The digest of the file *)

Definition zeroed_file (data : bytes) : bytes := take 56 data ++ replicate 36 0 ++ drop 92 data.

Lemma wp_check_file_digest data limits h (Q : unit -> WireState -> Prop) s :
  96 <= len data <= USIZE_MAX -> ws_ok s ->
  (forall s', ws_ok s' ->
     (verify_file_digest limits = true -> h_file_digest h = sha256_spec (zeroed_file data)) -> Q tt s') ->
  wp (check_file_digest data limits h) Q s.
Proof.
  intros Hl Hs HQ. unfold check_file_digest. step; [|by step; apply HQ; [|congruence]].
  step. step. apply owp_index_range; [lia|lia|]. intros head Hhead. step.
  pose proof (get_range_length _ _ _ _ Hhead) as (Hh & _ & _).
  apply (wp_hash_update _ []); [apply absorbed_new|lia|done|]. intros h1 s1 Hs1 Hh1. cbn [app] in Hh1.
  step. step. apply owp_index_range; [lia|lia|]. intros tail Htail. step.
  pose proof (get_range_length _ _ _ _ Htail) as (Ht & _ & _).
  apply (wp_hash_update _ (head ++ replicate 36 0)); [by apply update_absorbed|lia|done|].
  intros h2 s2 Hs2 Hh2. step. apply negb_false_iff, bytes_eqb_eq in H. apply HQ; [done|]. intros _.
  rewrite <- H. rewrite (finish_absorbed _ _ Hh2), <- app_assoc. unfold zeroed_file. f_equal.
  unfold get_range in Hhead, Htail. case_match; [|done]. case_match; [|done].
  injection Hhead as <-. injection Htail as <-. rewrite drop_0. do 2 f_equal.
  apply take_ge. rewrite length_drop. lia.
Qed.
