(* ===== verification/WireRows.v ===== *)
(** * PYOCORE row semantics ([native/src/wire/mod.rs], second half)

    What every table's rows must say: canonical model rows, digest vectors,
    the document records and their single root, the import edges, the view, the
    optional identity and column sections, the origins, and the footer ledger
    that repeats the directory. *)

From S2P Require Import Prelude Bytes Hash Error Machine Limits Cancel Reader Lexical Schema Scan Wire.

Definition ENCODED_STRUCTURAL_V2_MAGIC : bytes := str "PYOCEV2" ++ [0].
Definition ENCODED_STRUCTURAL_V2_DESCRIPTOR_SHA256 : bytes :=
  [ 0xc5; 0x1d; 0x0e; 0xb7; 0xec; 0xf6; 0xf2; 0x9a; 0xd3; 0x49; 0x5f; 0xe7; 0xc4; 0x0a; 0x2e; 0xa6;
    0x74; 0x1c; 0xf0; 0x3a; 0x7c; 0xf1; 0x94; 0xd5; 0x14; 0x17; 0xbb; 0x81; 0x0d; 0xf9; 0x0f; 0x51 ].

(** ** Scalars of a row *)

(** [enum_u8], [required_ref], [optional_ref] *)
Definition enum_u8 (value minimum maximum : Z) : outcome Z :=
  if in_range minimum maximum value then Ok value else Err (corrupt "unknown wire enum tag").
Definition required_ref (value target_rows : Z) : outcome Z :=
  if negb (value =? 0) && (value <=? target_rows) then Ok value
  else Err (corrupt "invalid required wire reference").
Definition optional_ref (value target_rows : Z) : outcome Z :=
  if value <=? target_rows then Ok value else Err (corrupt "invalid optional wire reference").

(** The same, applied to the next scalar of the reader. *)
Definition read_enum (minimum maximum : Z) : M Reader Z :=
  value ← Reader_u8; lift (enum_u8 value minimum maximum).
Definition read_required (target_rows : Z) : M Reader Z :=
  value ← Reader_u32; lift (required_ref value target_rows).
Definition read_optional (target_rows : Z) : M Reader Z :=
  value ← Reader_u32; lift (optional_ref value target_rows).

(** One reference of [read_refs]. *)
Definition read_ref_step (target_rows : Z) (_ previous : Z) : M Reader Z :=
  value ← Reader_u32;
  ensure_not ((value <=? previous) || (target_rows <? value))
    (corrupt "wire reference list is not canonical");;
  mret value.

(** [read_refs] *)
Definition read_refs (limits : Limits) (key : LimitKey) (target_rows : Z) : M Reader Z :=
  count ← Reader_u64;
  ensure_not (value limits key <? count)
    (Limits_resource_limit limits key count "wire reference count exceeds its configured limit");;
  remaining ← Reader_remaining;
  ensure_not (remaining / 4 <? count) (corrupt "wire reference count exceeds row bounds");;
  for_range (read_ref_step target_rows) 0 (Z.to_nat count) 0;;
  mret count.

(** [read_fingerprint] *)
Definition read_fingerprint : M Reader bytes :=
  schema ← Reader_u32;
  ensure_not (schema =? 0) (corrupt "wire fingerprint schema is invalid");;
  digest ← Reader_take 32;
  mret (to_le_bytes 4 schema ++ digest).

(** [(span[index] != NONE_U64).then_some(span[index])] *)
Definition span_value (x : Z) : option Z := if x =? NONE_U64 then None else Some x.

(** [(a, b) < (c, d)] on pairs. *)
Definition pair_ltb (a b c d : Z) : bool := (a <? c) || ((a =? c) && (b <? d)).

(** [validate_span] *)
Definition validate_span (span : list Z) : outcome unit :=
  let value (index : nat) := span_value (nth index span 0) in
  let zero (index : nat) := match value index with Some n => n =? 0 | None => false end in
  fail_if
    (zero 2%nat || zero 3%nat || zero 4%nat || zero 5%nat ||
     match value 0%nat, value 1%nat with Some start, Some end_ => end_ <? start | _, _ => false end ||
     match value 2%nat, value 4%nat with
     | Some start_line, Some end_line =>
         pair_ltb end_line (default 1 (value 5%nat)) start_line (default 1 (value 3%nat))
     | _, _ => false
     end)
    (corrupt "ORIGINS source span is invalid").

(** [diagnostic_code] *)
Definition diagnostic_code (value : bytes) : bool :=
  match value with b :: _ => is_ascii_uppercase b | [] => false end &&
  forallb (fun b => is_ascii_uppercase b || is_ascii_digit b || (b =? 95)) value.

(** [a.cmp(&b).then_with(...)] over lists of the same length. *)
Fixpoint compare_list (x y : list Z) : comparison :=
  match x, y with
  | a :: x, b :: y => match a ?= b with Eq => compare_list x y | c => c end
  | [], [] => Eq
  | [], _ => Lt
  | _, [] => Gt
  end.

(** [compare_origin], on [(document, occurrence, span)]. *)
Definition compare_origin (left right : Z * Z * list Z) : comparison :=
  let '(d, o, s) := left in
  let '(d', o', s') := right in
  match d ?= d' with
  | Eq => match o ?= o' with Eq => compare_list s s' | c => c end
  | c => c
  end.

(** [key_ids.binary_search(&x).is_ok()], on a sorted vector. *)
Definition contains_key (key_ids : list Z) (x : Z) : bool := existsb (Z.eqb x) key_ids.

(** A parser that also polls the guard: the wire state and a reader. *)
Notation on_wire m := (zoom fst (fun (w : WireState) (s : WireState * Reader) => (w, snd s)) m).
Notation on_reader m := (zoom snd (fun (r : Reader) (s : WireState * Reader) => (fst s, r)) m).
Definition with_row {A} (row : bytes) (m : M (WireState * Reader) A) : M WireState A := fun w =>
  let '(r, (w', _)) := m (w, Reader_new row) in (r, w').

(** ** Model rows and strings *)

(** [validate_model_table] *)
Definition model_row (data : bytes) (t : Table) (expected : Category) (limits : Limits) (index : Z)
    (_ : unit) : M WireState unit :=
  wire_checkpoint;;
  row ← lift (Table_row t data index);
  category ← lift (fst (scan_canonical row (from_limits limits)));
  ensure_not (negb (bool_decide (category = expected)))
    (corrupt "canonical model row is in the wrong PYOCORE section").
Definition validate_model_table (data : bytes) (t : Table) (expected : Category) (limits : Limits)
    : M WireState unit :=
  for_range (model_row data t expected limits) 0 (Z.to_nat (t_count t)) tt.

(** The UTF-8 loop over STRINGS. *)
Definition string_row (data : bytes) (strings : Table) (index : Z) (_ : unit) : M WireState unit :=
  wire_checkpoint;;
  row ← lift (Table_row strings data index);
  ensure_not (negb (is_utf8 row)) (corrupt "STRINGS row is not valid UTF-8").
Definition validate_strings (data : bytes) (strings : Table) : M WireState unit :=
  for_range (string_row data strings) 0 (Z.to_nat (t_count strings)) tt.

(** One row of [validate_sequences]. *)
Definition sequence_row (limits : Limits) : M Reader unit :=
  kind ← Reader_u8;
  ensure_not (negb ((kind =? 1) || (kind =? 2))) (corrupt "unknown SEQUENCES collection kind");;
  count ← Reader_u64;
  ensure_not (max_sequence_arity limits <? count)
    (Limits_resource_limit limits MaxSequenceArity count "SEQUENCES arity exceeds max_sequence_arity");;
  bytes ← lift (ok_or (checked_mul U64_MAX count 32) (corrupt "SEQUENCES byte count overflow"));
  size ← lift (usize_from_u64 bytes);
  remaining ← Reader_remaining;
  ensure_not (negb (size =? remaining)) (corrupt "invalid SEQUENCES digest vector");;
  _ ← Reader_take size;
  Reader_finish.

(** [validate_sequences] *)
Definition sequence_step (data : bytes) (t : Table) (limits : Limits) (index : Z) (_ : unit)
    : M WireState unit :=
  wire_checkpoint;;
  row ← lift (Table_row t data index);
  lift (with_reader (Reader_new row) (sequence_row limits)).
Definition validate_sequences (data : bytes) (t : Table) (limits : Limits) : M WireState unit :=
  for_range (sequence_step data t limits) 0 (Z.to_nat (t_count t)) tt.

(** ** Documents *)

Record Documents := mkDocuments { key_ids : list Z; root_key_id : Z; total_source_bytes : Z }.

(** The tables a document record refers to. *)
Record DocumentTables := mkDocumentTables {
  dt_strings : Table; dt_iris : Table; dt_annotations : Table; dt_axioms : Table; dt_extensions : Z
}.

(** The key and the ontology identity of a record: the key. *)
Definition document_identity (data : bytes) (ts : DocumentTables) : M Reader Z :=
  key ← read_required (t_count (dt_strings ts));
  key_bytes ← lift (Table_row (dt_strings ts) data (key - 1));
  ensure_not ((len key_bytes =? 0) || negb (is_ascii key_bytes))
    (corrupt "DOCUMENTS key must be nonempty ASCII");;
  document_ontology ← read_optional (t_count (dt_iris ts));
  document_version ← read_optional (t_count (dt_iris ts));
  _ ← read_optional (t_count (dt_iris ts));
  record_ontology ← read_optional (t_count (dt_iris ts));
  record_version ← read_optional (t_count (dt_iris ts));
  _ ← read_optional (t_count (dt_iris ts));
  ensure_not ((negb (document_version =? 0) && (document_ontology =? 0)) ||
              (negb (record_version =? 0) && (record_ontology =? 0)))
    (corrupt "DOCUMENTS version IRI has no ontology IRI");;
  mret key.

(** The source metadata: the status and the byte length. *)
Definition document_source (ts : DocumentTables) (limits : Limits) : M Reader (Z * Z) :=
  _ ← Reader_take 32;
  _ ← read_fingerprint;
  _ ← read_enum 1 4;
  status ← read_enum 1 2;
  _ ← Reader_take 32;
  _ ← read_enum 1 2;
  byte_length ← Reader_u64;
  ensure_not (max_source_bytes limits <? byte_length)
    (Limits_resource_limit limits MaxSourceBytes byte_length "DOCUMENTS source exceeds max_source_bytes");;
  _ ← Reader_u64;
  _ ← read_optional (t_count (dt_iris ts));
  _ ← read_enum 1 4;
  _ ← read_enum 1 4;
  digest ← Reader_boolean;
  (if (digest : bool) then _ ← Reader_take 32; mret tt else mret tt);;
  mret (status, byte_length).

(** The parser metadata and the reference lists, up to the end of the row. *)
Definition document_lists (data : bytes) (ts : DocumentTables) (limits : Limits) : M Reader unit :=
  parser ← read_required (t_count (dt_strings ts));
  backend ← read_required (t_count (dt_strings ts));
  parser_text ← lift (Table_row (dt_strings ts) data (parser - 1));
  empty ← (if len parser_text =? 0 then mret true else
           backend_text ← lift (Table_row (dt_strings ts) data (backend - 1));
           mret (len backend_text =? 0));
  ensure_not empty (corrupt "DOCUMENTS parser/backend metadata is empty");;
  _ ← Reader_u16;
  _ ← Reader_u16;
  schema ← Reader_u32;
  ensure_not (negb (schema =? MODEL_SCHEMA)) (version "DOCUMENTS model schema is unsupported");;
  _ ← read_refs limits MaxWireRows (t_count (dt_iris ts));
  _ ← read_refs limits MaxAnnotations (t_count (dt_annotations ts));
  _ ← read_refs limits MaxAxioms (t_count (dt_axioms ts));
  _ ← read_refs limits MaxWireRows (dt_extensions ts);
  _ ← read_refs limits MaxAnnotations (t_count (dt_annotations ts));
  _ ← read_refs limits MaxAxioms (t_count (dt_axioms ts));
  _ ← read_refs limits MaxWireRows (dt_extensions ts);
  Reader_finish.

(** One record: its key, status and byte length. *)
Definition document_row (data : bytes) (ts : DocumentTables) (limits : Limits) : M Reader (Z * Z * Z) :=
  key ← document_identity data ts;
  '(status, byte_length) ← document_source ts limits;
  document_lists data ts limits;;
  mret (key, status, byte_length).

(** The loop-carried variables of [validate_documents]. *)
Record DocumentLoop := mkDocumentLoop {
  l_key_ids : list Z; l_root_key_id : Z; l_root_count : Z; l_total : Z
}.

Definition document_step (data : bytes) (t : Table) (ts : DocumentTables) (limits : Limits)
    (index : Z) (l : DocumentLoop) : M WireState DocumentLoop :=
  wire_checkpoint;;
  row ← lift (Table_row t data index);
  '(key, status, byte_length) ← lift (with_reader (Reader_new row) (document_row data ts limits));
  total ← lift (ok_or (checked_add U64_MAX (l_total l) byte_length)
                  (limit "DOCUMENTS source byte count overflow"));
  ensure_not (max_total_source_bytes limits <? total)
    (Limits_resource_limit limits MaxTotalSourceBytes total
       "DOCUMENTS sources exceed max_total_source_bytes");;
  mret {| l_key_ids := l_key_ids l ++ [key];
          l_root_key_id := if status =? 1 then key else l_root_key_id l;
          l_root_count := if status =? 1 then l_root_count l + 1 else l_root_count l;
          l_total := total |}.

(** [windows(2).any(|pair| pair[0] == pair[1])] *)
Fixpoint adjacent_equal (l : list Z) : bool :=
  match l with
  | a :: l' => match l' with b :: _ => (a =? b) || adjacent_equal l' | [] => false end
  | [] => false
  end.

(** [find_table(tables, SWRL_KIND).map_or(0, |value| value.count)] *)
Definition extension_count (tables : list Table) : Z :=
  match find_table tables SWRL_KIND with Some t => t_count t | None => 0 end.

(** [validate_documents] *)
Definition validate_documents (data : bytes) (tables : list Table) (limits : Limits)
    : M WireState Documents :=
  t ← lift (required_table tables 10);
  ensure_not (max_documents limits <? t_count t)
    (Limits_resource_limit limits MaxDocuments (t_count t) "DOCUMENTS count exceeds max_documents");;
  strings ← lift (required_table tables 1);
  iris ← lift (required_table tables 2);
  annotations ← lift (required_table tables 7);
  axioms ← lift (required_table tables 9);
  let ts := {| dt_strings := strings; dt_iris := iris; dt_annotations := annotations;
               dt_axioms := axioms; dt_extensions := extension_count tables |} in
  count ← lift (usize_from_u64 (t_count t));
  reserve_vec 4 count "DOCUMENTS key ledger allocation failed";;
  l ← for_range (document_step data t ts limits) 0 (Z.to_nat (t_count t))
        {| l_key_ids := []; l_root_key_id := 0; l_root_count := 0; l_total := 0 |};
  let sorted := merge_sort Z.le (l_key_ids l) in
  ensure_not (adjacent_equal sorted) (corrupt "duplicate DOCUMENTS key");;
  ensure_not (negb (l_root_count l =? 1)) (corrupt "DOCUMENTS must contain exactly one root");;
  mret {| key_ids := sorted; root_key_id := l_root_key_id l; total_source_bytes := l_total l |}.

(** ** Imports *)

(** The canonical rank of an import status. *)
Definition status_rank (status : Z) : outcome Z :=
  if status =? 4 then Ok 0 else if status =? 5 then Ok 1 else if status =? 3 then Ok 2 else
  if status =? 1 then Ok 3 else if status =? 2 then Ok 4 else Panic.

(** [key < value] on [(u32, u32, u8, u32)]. *)
Definition edge_ltb (x y : list Z) : bool := match compare_list x y with Lt => true | _ => false end.

(** One edge; the loop carries the previous key. *)
Definition import_edge (data : bytes) (strings iris : Table) (documents : Documents)
    (_ : Z) (previous : option (list Z)) : M (WireState * Reader) (option (list Z)) :=
  on_wire wire_checkpoint;;
  importer ← on_reader (read_required (t_count strings));
  ensure_not (negb (contains_key (key_ids documents) importer))
    (corrupt "IMPORTS importer is absent from DOCUMENTS");;
  iri ← on_reader (read_required (t_count iris));
  status ← on_reader (read_enum 1 5);
  target ← on_reader (read_optional (t_count strings));
  _ ← on_reader (read_optional (t_count strings));
  diagnostic ← on_reader (read_optional (t_count strings));
  ensure_not (((status =? 1) && ((target =? 0) || negb (contains_key (key_ids documents) target))) ||
              (negb (status =? 1) && negb (target =? 0)))
    (corrupt "IMPORTS target/status relationship is invalid");;
  (if negb (diagnostic =? 0) then
     code ← lift (Table_row strings data (diagnostic - 1));
     ensure_not (negb (diagnostic_code code)) (corrupt "IMPORTS diagnostic code is invalid")
   else mret tt);;
  rank ← lift (status_rank status);
  let key := [importer; iri; rank; target] in
  ensure_not (match previous with Some value => edge_ltb key value | None => false end)
    (corrupt "IMPORTS edges are not canonical");;
  mret (Some key).

(** [validate_imports] *)
Definition validate_imports (data : bytes) (tables : list Table) (documents : Documents)
    (limits : Limits) : M WireState unit :=
  t ← lift (required_table tables 11);
  ensure_not (negb (t_count t =? 1)) (corrupt "IMPORTS must contain exactly one row");;
  strings ← lift (required_table tables 1);
  iris ← lift (required_table tables 2);
  row ← lift (Table_row t data 0);
  with_row row
    (_ ← on_reader (read_enum 1 4);
     _ ← on_reader Reader_boolean;
     _ ← on_reader (Reader_take 32);
     count ← on_reader Reader_u64;
     ensure_not (max_wire_rows limits <? count)
       (Limits_resource_limit limits MaxWireRows count "IMPORTS edge count exceeds max_wire_rows");;
     remaining ← on_reader Reader_remaining;
     ensure_not (remaining / 21 <? count) (corrupt "IMPORTS edge count exceeds row bounds");;
     _ ← for_range (import_edge data strings iris documents) 0 (Z.to_nat count) None;
     on_reader Reader_finish).

(** ** The view *)

(** [matches!((context_tag, context_count), (0, 0) | (1, 1) | (2, 2..))] *)
Definition context_ok (tag count : Z) : bool :=
  ((tag =? 0) && (count =? 0)) || ((tag =? 1) && (count =? 1)) || ((tag =? 2) && (2 <=? count)).

(** One fingerprint of the structural context. *)
Definition context_step (_ : Z) (_ : unit) : M Reader unit := _ ← read_fingerprint; mret tt.

(** The row of [validate_view]: its three fingerprints. *)
Definition view_row (tables_strings : Z) (annotations axioms extensions : Z) (documents : Documents)
    (limits : Limits) : M Reader (list bytes) :=
  root ← read_required tables_strings;
  ensure_not (negb (contains_key (key_ids documents) root) || negb (root =? root_key_id documents))
    (corrupt "VIEW root key is invalid");;
  _ ← Reader_boolean;
  context_tag ← Reader_u8;
  context_count ← Reader_u32;
  ensure_not (max_composite_members limits <? context_count)
    (Limits_resource_limit limits MaxCompositeMembers context_count
       "VIEW context count exceeds max_composite_members");;
  ensure_not (negb (context_ok context_tag context_count)) (corrupt "VIEW structural context is invalid");;
  for_range context_step 0 (Z.to_nat context_count) tt;;
  first ← read_fingerprint;
  second ← read_fingerprint;
  third ← read_fingerprint;
  document_count ← Reader_u64;
  ensure_not (max_documents limits <? document_count)
    (Limits_resource_limit limits MaxDocuments document_count "VIEW document count exceeds max_documents");;
  ensure_not (negb (document_count =? len (key_ids documents)))
    (corrupt "VIEW document count disagrees with DOCUMENTS");;
  effective_axiom_count ← Reader_u64;
  ensure_not (max_axioms limits <? effective_axiom_count)
    (Limits_resource_limit limits MaxAxioms effective_axiom_count "VIEW axiom count exceeds max_axioms");;
  _ ← read_refs limits MaxAnnotations annotations;
  axiom_postings ← read_refs limits MaxAxioms axioms;
  _ ← read_refs limits MaxWireRows extensions;
  Reader_finish;;
  ensure_not (negb (axiom_postings =? effective_axiom_count))
    (corrupt "VIEW axiom count disagrees with postings");;
  mret [first; second; third].

(** [validate_view] *)
Definition validate_view (data : bytes) (tables : list Table) (documents : Documents) (limits : Limits)
    : outcome (list bytes) :=
  t ← required_table tables 12;
  fail_if (negb (t_count t =? 1)) (corrupt "VIEW must contain exactly one row");;
  strings ← required_table tables 1;
  annotations ← required_table tables 7;
  axioms ← required_table tables 9;
  row ← Table_row t data 0;
  with_reader (Reader_new row)
    (view_row (t_count strings) (t_count annotations) (t_count axioms) (extension_count tables)
       documents limits).

(** ** View provenance *)

(** [read_identity_text] *)
Definition read_identity_text : M Reader bytes :=
  length_ ← Reader_u64;
  length_ ← lift (usize_from_u64 length_);
  Reader_take length_.

(** [read_identity_iri] *)
Definition read_identity_iri (limits : Limits) : M Reader bool :=
  present ← Reader_boolean;
  if negb present then mret false else
  value ← read_identity_text;
  ensure_not (max_iri_bytes limits <? len value)
    (Limits_resource_limit limits MaxIriBytes (len value) "VIEW_PROVENANCE IRI exceeds max_iri_bytes");;
  ensure_not (negb (is_utf8 value)) (corrupt "VIEW_PROVENANCE IRI is not UTF-8");;
  lift (validate_iri value);;
  mret true.

(** One document of [validate_view_provenance]; the loop carries the previous key. *)
Definition provenance_step (limits : Limits) (_ : Z) (previous_key : option bytes)
    : M (WireState * Reader) (option bytes) :=
  on_wire wire_checkpoint;;
  key ← on_reader read_identity_text;
  ensure_not ((len key =? 0) || negb (is_utf8 key) ||
              match previous_key with Some previous => bytes_leb key previous | None => false end)
    (corrupt "VIEW_PROVENANCE document keys are not canonical");;
  has_ontology ← on_reader (read_identity_iri limits);
  has_version ← on_reader (read_identity_iri limits);
  ensure_not (has_version && negb has_ontology) (corrupt "VIEW_PROVENANCE version IRI has no ontology IRI");;
  mret (Some key).

(** [validate_view_provenance] *)
Definition validate_view_provenance (data : bytes) (tables : list Table) (limits : Limits)
    : M WireState unit :=
  match find_table tables VIEW_PROVENANCE_KIND with
  | None => mret tt
  | Some t =>
      ensure_not (negb (t_count t =? 1)) (corrupt "VIEW_PROVENANCE must contain exactly one row");;
      row ← lift (Table_row t data 0);
      with_row row
        (_ ← on_reader (Reader_take 32);
         _ ← on_reader (Reader_take 32);
         count ← on_reader Reader_u64;
         ensure_not (value limits MaxIndexRows <? count)
           (Limits_resource_limit limits MaxIndexRows count
              "VIEW_PROVENANCE document count exceeds max_index_rows");;
         remaining ← on_reader Reader_remaining;
         ensure_not ((count =? 0) || (remaining / 11 <? count))
           (corrupt "VIEW_PROVENANCE document count exceeds row bounds");;
         _ ← for_range (provenance_step limits) 0 (Z.to_nat count) None;
         on_reader Reader_finish)
  end.
