(* ===== verification/WireRefs.v ===== *)
(** * References inside rows: enumerations, references and reference lists

    What the scalar readers of the row validators accept, and the exact
    language of [read_refs]: a count and that many strictly ascending,
    in-range references. *)

From S2P Require Import Prelude Bytes Error Machine Limits Reader Wire WireTable WireRows.

Lemma wp_read_enum lo hi (Q : Z -> Reader -> Prop) r :
  reader_ok r ->
  (forall v r', advanced r [v] r' -> is_u8 v -> lo <= v <= hi -> Q v r') -> wp (read_enum lo hi) Q r.
Proof.
  intros Hr HQ. unfold read_enum, enum_u8, in_range. step. apply wp_u8; [done|]. intros v r' Hv Hv8. step.
  step; bool_to_prop; cbn; [by apply HQ|done].
Qed.

Lemma wp_read_required n (Q : Z -> Reader -> Prop) r :
  reader_ok r ->
  (forall v r', advanced r (to_le_bytes 4 v) r' -> is_u32 v -> 1 <= v <= n -> Q v r') ->
  wp (read_required n) Q r.
Proof.
  intros Hr HQ. unfold read_required, required_ref. step. apply wp_u32; [done|]. intros v r' Hv [Hv0 Hv1]. step.
  step; bool_to_prop; cbn; [|done]. apply HQ; [done|done|lia].
Qed.

Lemma wp_read_optional n (Q : Z -> Reader -> Prop) r :
  reader_ok r ->
  (forall v r', advanced r (to_le_bytes 4 v) r' -> 0 <= v <= n -> Q v r') -> wp (read_optional n) Q r.
Proof.
  intros Hr HQ. unfold read_optional, optional_ref. step. apply wp_u32; [done|]. intros v r' Hv [Hv0 Hv1]. step.
  step; bool_to_prop; cbn; [|done]. by apply HQ.
Qed.

(** A fingerprint: a positive schema and a digest. *)
Definition is_fingerprint (x : bytes) : Prop :=
  exists schema digest, x = to_le_bytes 4 schema ++ digest /\ 0 < schema <= U32_MAX /\ len digest = 32.

Lemma wp_read_fingerprint (Q : bytes -> Reader -> Prop) r :
  reader_ok r -> (forall x r', advanced r x r' -> is_fingerprint x -> Q x r') -> wp read_fingerprint Q r.
Proof.
  intros Hr HQ. unfold read_fingerprint. step. apply wp_u32; [done|]. intros v r1 Hv [Hv0 Hv1]. step. step. bool_to_prop.
  step. apply wp_take; [by eauto with kernel|lia|]. intros x r2 Hx _ Hlen. step.
  apply HQ; [by eauto with kernel|]. exists v, x. split; [done|]. split; [lia|done].
Qed.

(** ** Reference lists *)

(** Strictly ascending references to rows [1..n]. *)
Definition canonical_refs (n : Z) (refs : list Z) : Prop :=
  StronglySorted Z.lt refs /\ Forall (fun v => 1 <= v <= n) refs.

Definition encode_refs (refs : list Z) : bytes := to_le_bytes 8 (len refs) ++ words_bytes 4 refs.

Lemma canonical_refs_snoc n refs v :
  canonical_refs n refs -> (forall p, last refs = Some p -> p < v) -> 1 <= v <= n ->
  canonical_refs n (refs ++ [v]).
Proof.
  intros [Hs Hn] Hp Hv. split; [by apply sorted_snoc; [apply _|..]|].
  apply Forall_app. split; [done|]. constructor; [done|constructor].
Qed.

Lemma wp_read_refs limits key n (Q : Z -> Reader -> Prop) r :
  reader_ok r ->
  (forall refs r', advanced r (encode_refs refs) r' -> canonical_refs n refs ->
     len refs <= value limits key -> Q (len refs) r') ->
  wp (read_refs limits key n) Q r.
Proof.
  intros Hr HQ. unfold read_refs. step. apply wp_u64; [done|]. intros count r1 H1 [Hc _].
  step. step. bool_to_prop. step. apply wp_remaining; [by eauto with kernel|]. step. step. step.
  eapply wp_mono.
  { apply (wp_for_range _ (fun i previous r' => exists refs, len refs = i /\
      advanced r1 (words_bytes 4 refs) r' /\ canonical_refs n refs /\ previous = default 0 (last refs))).
    - exists []. split; [done|]. split; [by apply advanced_refl; eauto with kernel|]. split; [|done].
      split; constructor.
    - intros i previous r2 Hi (refs & Hlen & H2 & Hrefs & ->). unfold read_ref_step.
      step. apply wp_u32; [by eauto with kernel|]. intros v r3 H3 [Hv _]. step. step. bool_to_prop. step.
      exists (refs ++ [v]). rewrite length_app, last_snoc, words_bytes_app. splits; [cbn; lia| | |done].
      + eapply advanced_trans; [exact H2|]. unfold words_bytes. cbn [map concat]. by rewrite app_nil_r.
      + pose proof Hrefs as [_ Hpos]. apply canonical_refs_snoc; [done| |].
        * intros p Hp. rewrite Hp in *. cbn in *. lia.
        * destruct (last refs) as [p|] eqn:Hp; cbn in *; [|lia].
          rewrite Forall_forall in Hpos. specialize (Hpos p ltac:(by apply last_Some_elem_of)). lia. }
  cbn beta. intros previous r2 (refs & Hlen & H2 & Hrefs & _). rewrite Z.add_0_l, Z2Nat.id in Hlen by lia.
  step. subst count. apply HQ; [|done|done]. by eapply advanced_trans.
Qed.

(** ** Every canonical list is read *)

Lemma encode_refs_length refs : len (encode_refs refs) = 8 + 4 * len refs.
Proof. unfold encode_refs. rewrite length_app, length_to_le_bytes, length_words_bytes. lia. Qed.

(** A run of [read_ref_step] over the rest of a canonical list. *)
Lemma reads_refs_loop n start refs previous :
  StronglySorted Z.lt refs -> Forall (fun v => previous < v <= n) refs -> n <= U32_MAX -> 0 <= previous ->
  reads (for_range (read_ref_step n) start (length refs) previous) (words_bytes 4 refs)
    (default previous (last refs)).
Proof.
  revert start previous. induction refs as [|v refs IH]; intros start previous Hs Hn Hmax Hp; cbn [for_range length].
  - apply reads_ret.
  - apply StronglySorted_cons in Hs as [Hv Hs]. apply Forall_cons in Hn as [Hvn Hn].
    unfold words_bytes. cbn [map concat]. eapply reads_bind.
    + unfold read_ref_step. rewrite <- (app_nil_r (to_le_bytes 4 v)).
      eapply reads_bind; [apply reads_u32; ulia|]. rewrite <- (app_nil_r []).
      eapply reads_bind; [apply reads_ensure_not|apply reads_ret].
      apply orb_false_iff. split; [apply Z.leb_gt|apply Z.ltb_ge]; lia.
    + replace (default previous (last (v :: refs))) with (default v (last refs)).
      * apply IH; [done| |done|lia]. rewrite Forall_forall in *. intros w Hw.
        specialize (Hv w Hw). specialize (Hn w Hw). lia.
      * rewrite last_cons. by destruct (last refs).
Qed.

(** A parser that first asks how many bytes remain. *)
Lemma reads_remaining {B} (f : Z -> M Reader B) y w :
  (forall remaining, len y <= remaining -> reads (f remaining) y w) ->
  reads (remaining ← Reader_remaining; f remaining) y w.
Proof.
  intros Hf p q Hl. unfold Reader_remaining, usize_sub. unfold_monad. cbn [r_data r_offset].
  rewrite !length_app in *. rewrite (proj2 (Z.leb_le _ _)) by lia. apply Hf; [lia|]. by rewrite !length_app.
Qed.

Lemma reads_read_refs limits key n refs :
  canonical_refs n refs -> n <= U32_MAX -> len refs <= value limits key -> len refs <= U64_MAX ->
  reads (read_refs limits key n) (encode_refs refs) (len refs).
Proof.
  intros [Hs Hn] Hmax Hlimit Hlen. unfold read_refs, encode_refs.
  eapply reads_bind; [apply reads_u64; ulia|]. rewrite <- (app_nil_l (words_bytes 4 refs)).
  eapply reads_bind; [apply reads_ensure_not; by apply Z.ltb_ge|]. apply reads_remaining.
  intros remaining Hrem. rewrite length_words_bytes in Hrem. rewrite <- (app_nil_l (words_bytes 4 refs)).
  eapply reads_bind; [apply reads_ensure_not; apply Z.ltb_ge; Z.div_mod_to_equations; lia|].
  rewrite <- (app_nil_r (words_bytes 4 refs)). eapply reads_bind; [|apply reads_ret].
  rewrite Nat2Z.id. apply reads_refs_loop; [done| |done|lia].
  eapply Forall_impl; [exact Hn|]. cbn. lia.
Qed.

(** A row that consists of one reference list. *)
Definition refs_row (limits : Limits) (key : LimitKey) (n : Z) : M Reader Z :=
  count ← read_refs limits key n; Reader_finish;; mret count.

(** A reference list is accepted exactly when it is a count followed by that
    many strictly ascending references to rows of the target table, within the
    configured limit; everything else is an error, and nothing panics. *)
Theorem read_refs_accepts_exactly_ascending_references limits key n data count :
  is_bytes data -> len data <= USIZE_MAX -> n <= U32_MAX ->
  fst (refs_row limits key n (Reader_new data)) <> Panic /\
  (fst (refs_row limits key n (Reader_new data)) = Ok count <->
   exists refs, data = encode_refs refs /\ canonical_refs n refs /\ len refs = count /\
                count <= value limits key).
Proof.
  intros Hb Hl Hmax.
  assert (wp (refs_row limits key n) (fun c _ => exists refs, data = encode_refs refs /\ canonical_refs n refs /\
            len refs = c /\ c <= value limits key) (Reader_new data)) as Hwp.
  { unfold refs_row. step. apply wp_read_refs; [by apply reader_new_ok|]. intros refs r Hr Hrefs Hlimit.
    step. apply wp_finish; [by eauto with kernel|]. intros Hend. step. exists refs.
    split; [symmetry; eapply advanced_all; [exact Hr|]|done].
    destruct Hr as (_ & Hd & _). cbn in Hd. by rewrite <- Hd. }
  split; [by eapply wp_no_panic|]. split.
  - intros E. unfold wp in Hwp. destruct (refs_row limits key n (Reader_new data)) as [o r]. cbn in E. by subst o.
  - intros (refs & -> & Hrefs & <- & Hlimit). pose proof (encode_refs_length refs). unfold refs_row.
    unfold mbind at 1, M_bind at 1.
    rewrite (reads_row _ (encode_refs refs) (len refs)); [|apply reads_read_refs; try done; ulia|done].
    unfold_monad. by rewrite finish_at_end.
Qed.

Lemma read_refs_accepts_exactly_ascending_references_witness :
  fst (refs_row Limits_default MaxAxioms 9 (Reader_new (encode_refs [2; 5; 9]))) = Ok 3.
Proof.
  apply (read_refs_accepts_exactly_ascending_references Limits_default MaxAxioms 9 (encode_refs [2; 5; 9]) 3).
  - by apply is_bytesb_true.
  - vm_compute. discriminate.
  - ulia.
  - exists [2; 5; 9]. repeat split; try (repeat constructor; lia). vm_compute. discriminate.
Defined.
