(* ===== verification/WireColumns.v ===== *)
(** * The encoded structural columns ([native/src/wire/mod.rs]) *)

From S2P Require Import Prelude Bytes Error Machine Limits Reader Wire WireRows.

Definition BUFFER_COUNT : Z := 11.
Definition COLUMN_HEADER_BYTES : Z := 80.
Definition COLUMN_DIRECTORY_BYTES : Z := 16.
Definition PREFIX_BYTES : Z := COLUMN_HEADER_BYTES + BUFFER_COUNT * COLUMN_DIRECTORY_BYTES.
Definition WIDTHS : list Z := [1; 4; 2; 8; 1; 8; 8; 1; 8; 8; 1].

(** [value & !7] *)
Definition align_down (value : Z) : Z := Z.land value (USIZE_MAX - 7).

(** The descriptor check, its disjuncts evaluated left to right. *)
Definition descriptor_invalid (row : bytes) : outcome bool :=
  if len row <? PREFIX_BYTES then mret true else
  if negb (bool_decide (get_range row 0 8 = Some ENCODED_STRUCTURAL_V2_MAGIC)) then mret true else
  major ← u16_at row 8;
  if negb (major =? 2) then mret true else
  schema ← u16_at row 10;
  if negb (schema =? 2) then mret true else
  count ← u32_at row 12;
  if negb (count =? BUFFER_COUNT) then mret true else
  mret (negb (bool_decide (get_range row 16 48 = Some ENCODED_STRUCTURAL_V2_DESCRIPTOR_SHA256))).

(** The loop-carried variables of the buffer directory. *)
Record BufferLoop := mkBufferLoop { buffers : list bytes; b_cursor : Z; total_bytes : Z }.

(** One buffer of the directory; [index] and [width] come from [enumerate]. *)
Definition buffer_step (row : bytes) (iw : Z * Z) (l : BufferLoop) : outcome BufferLoop :=
  let '(index, width) := iw in
  scaled ← usize_mul index COLUMN_DIRECTORY_BYTES;
  at_offset ← usize_add COLUMN_HEADER_BYTES scaled;
  offset ← u64_at row at_offset;
  offset ← usize_from_u64 offset;
  at_length ← usize_add at_offset 8;
  length_ ← u64_at row at_length;
  length_ ← usize_from_u64 length_;
  expected ← ok_or (align_down <$> checked_add USIZE_MAX (b_cursor l) 7)
               (corrupt "encoded column alignment overflow");
  end_ ← ok_or (checked_add USIZE_MAX offset length_) (corrupt "encoded column range overflow");
  fail_if (negb (offset =? expected) || (len row <? end_) ||
           (negb (index =? BUFFER_COUNT - 1) && negb (length_ mod width =? 0)) ||
           match get_range row (b_cursor l) offset with
           | Some padding => negb (all_zero padding)
           | None => true
           end)
    (corrupt "ENCODED_STRUCTURAL_V2 buffer directory is invalid");;
  buffer ← ok_or (get_range row offset end_) (corrupt "encoded column exceeds row bounds");
  total ← ok_or (checked_add U64_MAX (total_bytes l) length_) (limit "encoded column byte count overflow");
  mret {| buffers := buffers l ++ [buffer]; b_cursor := end_; total_bytes := total |}.

(** [WIDTHS.into_iter().enumerate()] *)
Definition enumerated_widths : list (Z * Z) := zip (map Z.of_nat (List.seq 0 11)) WIDTHS.

(** The buffer directory of a row: the eleven buffers. *)
Definition read_buffers (row : bytes) (limits : Limits) : outcome (list bytes) :=
  l ← ofor_each (buffer_step row) enumerated_widths
        {| buffers := []; b_cursor := PREFIX_BYTES; total_bytes := 0 |};
  fail_if (negb (b_cursor l =? len row)) (corrupt "ENCODED_STRUCTURAL_V2 row has trailing bytes");;
  fail_if (value limits MaxIndexBytes <? total_bytes l)
    (Limits_resource_limit limits MaxIndexBytes (total_bytes l) "encoded columns exceed max_index_bytes");;
  mret (buffers l).

(** [validate_encoded_leaf]: the next scalar cursor. *)
Definition validate_encoded_leaf (kind value length_ node_count : Z) (scalar_bytes : bytes)
    (scalar_cursor : Z) : outcome Z :=
  let invalid := Err (corrupt "encoded structural component kind is invalid") in
  if kind =? 0 then
    if (value =? 0) && (length_ =? 0) then Ok scalar_cursor else invalid
  else if kind =? 1 then
    if (length_ =? 0) && negb (value =? 0) && (value <=? node_count) then Ok scalar_cursor else invalid
  else if in_range 2 5 kind then
    start ← usize_from_u64 value;
    length_ ← usize_from_u64 length_;
    end_ ← ok_or (checked_add USIZE_MAX start length_) (corrupt "encoded scalar range overflow");
    payload ← ok_or (get_range scalar_bytes start end_) (corrupt "encoded scalar exceeds arena bounds");
    fail_if (negb (start =? scalar_cursor) ||
             ((kind =? 2) && negb (is_utf8 payload)) ||
             ((kind =? 5) && negb (is_ascii payload)) ||
             ((kind =? 4) && ((len payload =? 0) ||
                ((1 <? len payload) && bool_decide (last payload = Some 0)))))
      (corrupt "encoded structural scalar is invalid");;
    mret end_
  else invalid.

(** [buffers[i]] *)
Definition buffer (buffers : list bytes) (i : nat) : bytes := nth i buffers [].

(** The length relations between the columns. *)
Definition column_lengths_disagree (bs : list bytes) (root_count node_count field_count item_count : Z)
    : bool :=
  negb (len (buffer bs 1) =? saturating_mul USIZE_MAX root_count 4) ||
  negb (len (buffer bs 3) =? saturating_mul USIZE_MAX (saturating_add USIZE_MAX node_count 1) 8) ||
  negb (len (buffer bs 5) =? saturating_mul USIZE_MAX field_count 8) ||
  negb (len (buffer bs 6) =? saturating_mul USIZE_MAX field_count 8) ||
  negb (len (buffer bs 8) =? saturating_mul USIZE_MAX item_count 8) ||
  negb (len (buffer bs 9) =? saturating_mul USIZE_MAX item_count 8).

(** One field offset; the loop carries the previous one. *)
Definition field_offset_step (offsets : bytes) (field_count index previous : Z) : outcome Z :=
  scaled ← usize_mul index 8;
  current ← u64_at offsets scaled;
  fail_if ((current <? previous) || (field_count <? current))
    (corrupt "encoded structural field offsets are invalid");;
  mret current.

(** One root: its kind and its node. *)
Definition root_step (bs : list bytes) (node_count index : Z) (_ : unit) : outcome unit :=
  kind ← index_at (buffer bs 0) index;
  fail_if (negb (in_range 1 3 kind)) (corrupt "encoded structural root kind is invalid");;
  scaled ← usize_mul index 4;
  node_id ← u32_at (buffer bs 1) scaled;
  fail_if ((node_id =? 0) || (node_count <? node_id)) (corrupt "encoded structural root ID is invalid").

(** One item of a collection field; the loop carries the scalar cursor. *)
Definition item_step (bs : list bytes) (node_count item_index scalar_cursor : Z) : outcome Z :=
  kind ← index_at (buffer bs 7) item_index;
  scaled ← usize_mul item_index 8;
  value ← u64_at (buffer bs 8) scaled;
  length_ ← u64_at (buffer bs 9) scaled;
  validate_encoded_leaf kind value length_ node_count (buffer bs 10) scalar_cursor.

(** One field; the loop carries the item and scalar cursors. *)
Definition column_field_step (bs : list bytes) (node_count item_count index : Z) (cursors : Z * Z)
    : outcome (Z * Z) :=
  let '(item_cursor, scalar_cursor) := cursors in
  kind ← index_at (buffer bs 4) index;
  scaled ← usize_mul index 8;
  value ← u64_at (buffer bs 5) scaled;
  length_ ← u64_at (buffer bs 6) scaled;
  if (kind =? 6) || (kind =? 7) then
    start ← usize_from_u64 value;
    count ← usize_from_u64 length_;
    end_ ← ok_or (checked_add USIZE_MAX start count) (corrupt "encoded item range overflow");
    fail_if (negb (start =? item_cursor) || (item_count <? end_))
      (corrupt "encoded structural item range is invalid");;
    scalar_cursor ← ofor_range (item_step bs node_count) start (Z.to_nat count) scalar_cursor;
    mret (end_, scalar_cursor)
  else
    scalar_cursor ← validate_encoded_leaf kind value length_ node_count (buffer bs 10) scalar_cursor;
    mret (item_cursor, scalar_cursor).

(** [validate_encoded_column_shapes] *)
Definition validate_encoded_column_shapes (bs : list bytes) (limits : Limits) : outcome unit :=
  let root_count := len (buffer bs 0) in
  let node_count := len (buffer bs 2) / 2 in
  let field_count := len (buffer bs 4) in
  let item_count := len (buffer bs 7) in
  fail_if (column_lengths_disagree bs root_count node_count field_count item_count)
    (corrupt "encoded structural column lengths disagree");;
  let maximum_rows := Z.max (Z.max (Z.max root_count node_count) field_count) item_count in
  fail_if (max_terms limits <? node_count)
    (Limits_resource_limit limits MaxTerms node_count "encoded structural nodes exceed max_terms");;
  fail_if (value limits MaxIndexRows <? maximum_rows)
    (Limits_resource_limit limits MaxIndexRows maximum_rows "encoded structural rows exceed max_index_rows");;
  first ← u64_at (buffer bs 3) 0;
  invalid ← (if negb (first =? 0) then mret true else
             at_last ← usize_mul node_count 8;
             last_ ← u64_at (buffer bs 3) at_last;
             mret (negb (last_ =? field_count)));
  fail_if invalid (corrupt "encoded structural field offsets are invalid");;
  _ ← ofor_range (field_offset_step (buffer bs 3) field_count) 1 (Z.to_nat node_count) 0;
  _ ← ofor_range (root_step bs node_count) 0 (Z.to_nat root_count) tt;
  '(item_cursor, scalar_cursor) ←
    ofor_range (column_field_step bs node_count item_count) 0 (Z.to_nat field_count) (0, 0);
  fail_if (negb (item_cursor =? item_count) || negb (scalar_cursor =? len (buffer bs 10)))
    (corrupt "encoded structural arenas are not exactly covered").

(** [validate_encoded_structural] *)
Definition validate_encoded_structural (data : bytes) (tables : list Table) (limits : Limits)
    : outcome unit :=
  match find_table tables ENCODED_STRUCTURAL_V2_KIND with
  | None => mret tt
  | Some t =>
      fail_if (negb (t_count t =? 1)) (corrupt "ENCODED_STRUCTURAL_V2 must contain exactly one row");;
      row ← Table_row t data 0;
      invalid ← descriptor_invalid row;
      fail_if invalid (corrupt "ENCODED_STRUCTURAL_V2 descriptor metadata is invalid");;
      bs ← read_buffers row limits;
      validate_encoded_column_shapes bs limits
  end.
