(* ===== verification/WireValidate.v ===== *)
(** * Origins, footer and the whole validation ([native/src/wire/mod.rs]) *)

From S2P Require Import Prelude Bytes Hash Error Machine Limits Cancel Reader Schema Scan Wire WireRows WireColumns.

(** ** Origins *)

(** One occurrence; the loop carries the previous key. *)
Definition origin_entry (data : bytes) (strings : Table) (_ : Z) (previous : option (Z * Z * list Z))
    : M Reader (option (Z * Z * list Z)) :=
  document ← read_required (t_count strings);
  text ← lift (Table_row strings data (document - 1));
  ensure_not (len text =? 0) (corrupt "ORIGINS document key is invalid");;
  occurrence ← Reader_u64;
  a ← Reader_u64; b ← Reader_u64; c ← Reader_u64; d ← Reader_u64; e ← Reader_u64; f ← Reader_u64;
  let span := [a; b; c; d; e; f] in
  lift (validate_span span);;
  let key := (document, occurrence, span) in
  ensure_not (match previous with
              | Some value => match compare_origin key value with Gt => false | _ => true end
              | None => false end)
    (corrupt "ORIGINS occurrences are not canonical");;
  mret (Some key).

(** The loop-carried variables of [validate_origins]. *)
Record OriginLoop := mkOriginLoop { o_total : Z; o_previous : option bytes }.

(** One row of ORIGINS. *)
Definition origin_row (data : bytes) (strings : Table) (limits : Limits) (l : OriginLoop)
    : M Reader OriginLoop :=
  digest ← Reader_take 32;
  digest ← lift (array_from_slice digest);
  ensure_not (match o_previous l with Some value => bytes_leb digest value | None => false end)
    (corrupt "ORIGINS digests are not canonical");;
  count ← Reader_u64;
  total ← lift (ok_or (checked_add U64_MAX (o_total l) count) (limit "ORIGINS count overflow"));
  ensure_not (max_origin_entries limits <? total)
    (Limits_resource_limit limits MaxOriginEntries total "ORIGINS entries exceed max_origin_entries");;
  ensure_not (max_source_map_entries limits <? total)
    (Limits_resource_limit limits MaxSourceMapEntries total "ORIGINS entries exceed max_source_map_entries");;
  remaining ← Reader_remaining;
  ensure_not (remaining / 60 <? count) (corrupt "ORIGINS entries exceed row bounds");;
  _ ← for_range (origin_entry data strings) 0 (Z.to_nat count) None;
  Reader_finish;;
  mret {| o_total := total; o_previous := Some digest |}.

Definition origin_step (data : bytes) (t strings : Table) (limits : Limits) (index : Z) (l : OriginLoop)
    : M WireState OriginLoop :=
  wire_checkpoint;;
  row ← lift (Table_row t data index);
  lift (with_reader (Reader_new row) (origin_row data strings limits l)).

(** [validate_origins] *)
Definition validate_origins (data : bytes) (tables : list Table) (limits : Limits) : M WireState unit :=
  t ← lift (required_table tables 13);
  strings ← lift (required_table tables 1);
  _ ← for_range (origin_step data t strings limits) 0 (Z.to_nat (t_count t))
        {| o_total := 0; o_previous := None |};
  mret tt.

(** ** The footer *)

(** [for expected in &view.fingerprints] *)
Definition footer_fingerprint (expected : bytes) (_ : unit) : M Reader unit :=
  fingerprint ← read_fingerprint;
  ensure_not (negb (bytes_eqb fingerprint expected)) (corrupt "FOOTER fingerprints disagree with VIEW").

(** One ledger line. *)
Definition footer_line (tables : list Table) (kind : Z) (_ : unit) : M Reader unit :=
  actual ← Reader_u16;
  ensure_not (negb (actual =? kind)) (corrupt "FOOTER section kinds are not canonical");;
  rows ← Reader_u64;
  digest ← Reader_take 32;
  digest ← lift (array_from_slice digest);
  expected ← lift (required_table tables kind);
  ensure_not (negb (rows =? t_count expected) || negb (bytes_eqb digest (t_digest expected)))
    (corrupt "FOOTER ledger disagrees with directory").

Definition footer_row (tables : list Table) (fingerprints : list bytes) : M Reader unit :=
  for_each footer_fingerprint fingerprints tt;;
  count ← Reader_u16;
  ensure_not (negb (count =? 13)) (corrupt "FOOTER section count is invalid");;
  for_range (footer_line tables) 1 13 tt;;
  Reader_finish.

(** [validate_footer] *)
Definition validate_footer (data : bytes) (tables : list Table) (fingerprints : list bytes) : outcome unit :=
  t ← required_table tables 14;
  fail_if (negb (t_count t =? 1)) (corrupt "FOOTER must contain exactly one row");;
  row ← Table_row t data 0;
  with_reader (Reader_new row) (footer_row tables fingerprints).

(** ** The semantic pass *)

(** The feature bit and the row-count limits. *)
Definition check_counts (tables : list Table) (feature_flags : Z) (limits : Limits)
    : outcome (option Table * Table) :=
  let swrl := find_table tables SWRL_KIND in
  fail_if (negb (Bool.eqb (is_some swrl) (negb (Z.land feature_flags FEATURE_SWRL =? 0))))
    (version "SWRL feature/section capability mismatch");;
  strings ← required_table tables 1;
  annotations ← required_table tables 7;
  axioms ← required_table tables 9;
  fail_if (max_strings limits <? t_count strings)
    (Limits_resource_limit limits MaxStrings (t_count strings) "STRINGS count exceeds max_strings");;
  fail_if (max_annotations limits <? t_count annotations)
    (Limits_resource_limit limits MaxAnnotations (t_count annotations)
       "ANNOTATIONS count exceeds max_annotations");;
  fail_if (max_axioms limits <? t_count axioms)
    (Limits_resource_limit limits MaxAxioms (t_count axioms) "AXIOMS count exceeds max_axioms");;
  mret (swrl, strings).

(** One required model table. *)
Definition required_model (data : bytes) (tables : list Table) (limits : Limits) (kind : Z)
    (category : Category) : M WireState unit :=
  t ← lift (required_table tables kind);
  validate_model_table data t category limits.

(** The model tables, in order. *)
Definition validate_models (data : bytes) (tables : list Table) (limits : Limits) (swrl : option Table)
    : M WireState unit :=
  required_model data tables limits 2 CIri;;
  required_model data tables limits 3 CEntity;;
  required_model data tables limits 4 CLiteral;;
  required_model data tables limits 5 CAnonymous;;
  (t ← lift (required_table tables 6); validate_sequences data t limits);;
  required_model data tables limits 7 CAnnotation;;
  required_model data tables limits 8 CTerm;;
  required_model data tables limits 9 CAxiom;;
  match swrl with
  | Some t => validate_model_table data t CSwrl limits
  | None => mret tt
  end.

(** [validate_semantics] *)
Definition validate_semantics (data : bytes) (tables : list Table) (feature_flags : Z) (limits : Limits)
    : M WireState unit :=
  '(swrl, strings) ← lift (check_counts tables feature_flags limits);
  validate_strings data strings;;
  validate_models data tables limits swrl;;
  docs ← validate_documents data tables limits;
  validate_imports data tables docs limits;;
  view ← lift (validate_view data tables docs limits);
  lift (validate_encoded_structural data tables limits);;
  validate_view_provenance data tables limits;;
  validate_origins data tables limits;;
  lift (validate_footer data tables view).

(** ** The whole validation *)

(** Everything after the memory budget exists. *)
Definition validate_file (data : bytes) (limits : Limits) : M WireState Validation :=
  h ← lift (read_header data);
  directory_end ← lift (check_header data limits h);
  d ← read_directory data limits h directory_end;
  check_layout data directory_end (entries d);;
  tables ← check_sections data (entries d);
  check_file_digest data limits h;;
  validate_semantics data tables (h_feature_flags h) limits;;
  guard_check true;;
  mret {| minor := h_minor h; feature_flags := h_feature_flags h; total_length := h_total_length h;
          file_digest := h_file_digest h; section_count := h_section_count h;
          total_rows := d_total_rows d |}.

(** [validate] *)
Definition validate (data : bytes) (limits : Limits) : M Ctx Validation :=
  check 0 true;;
  lift (check_source_size limits (len data));;
  memory ← lift (MemoryBudget_new limits (len data));
  zoom (fun c => {| w_ctx := c; w_work := 0; w_memory := memory |}) (fun s _ => w_ctx s)
    (validate_file data limits).

(** [WireArena::decode], [WireArena::encode] *)
Record WireArena := mkWireArena { arena_bytes : bytes; validation : Validation }.
Definition WireArena_decode (bytes : bytes) (limits : Limits) : M Ctx WireArena :=
  validation ← validate bytes limits;
  mret {| arena_bytes := bytes; validation := validation |}.
Definition WireArena_encode (arena : WireArena) : bytes := arena_bytes arena.
