(* ===== verification/WireRowsSound.v ===== *)
(** * What accepted rows say

    For each group of rows of [WireRows] and [WireValidate]: the validator does
    not panic, and what it accepts satisfies the specification of the group. *)

From S2P Require Import Prelude Bytes Error Machine Limits Cancel Reader Schema Lexical Scan Component ScanSound ScanComplete Wire WireTable WireFraming WireRows WireRefs WireColumns WireValidate.

(** Limits as [Limits::decode] makes them. *)
Definition limits_ok (limits : Limits) : Prop :=
  0 <= max_nesting_depth limits /\ is_u64 (max_terms limits).

(** ** Rows of a table *)

Lemma table_row_bytes data t rows row :
  is_bytes data -> len data <= USIZE_MAX -> table_rows data t rows -> In row rows ->
  is_bytes row /\ len row <= USIZE_MAX.
Proof.
  intros Hb Hl Ht Hin. pose proof (table_length _ _ _ Hl Ht) as (H1 & _). destruct Ht as [_ Hsec _ _].
  assert (is_bytes (encode_table rows)) as Hbe by eauto with bytes.
  pose proof (encode_table_length rows) as H2. unfold encode_table in Hbe. apply is_bytes_app in Hbe as [_ Hbe].
  apply in_split in Hin as (l1 & l2 & ->). rewrite concat_app in *. cbn [concat] in *.
  apply is_bytes_app in Hbe as [_ Hbe]. apply is_bytes_app in Hbe as [Hbe _]. split; [done|].
  rewrite !length_app in H2. lia.
Qed.

(** A loop over the rows of a table: [I] holds of the rows seen and the loop variable. *)
Lemma wp_table_loop {X} data t rows (body : Z -> X -> M WireState X) (I : list bytes -> X -> Prop)
    (Q : X -> WireState -> Prop) x s :
  is_bytes data -> len data <= USIZE_MAX -> table_rows data t rows -> ws_ok s ->
  I [] x ->
  (forall i seen row rest x s, ws_ok s -> rows = seen ++ row :: rest -> 0 <= i ->
     Table_row t data i = Ok row -> is_bytes row -> len row <= USIZE_MAX -> I seen x ->
     wp (body i x) (fun x' s' => ws_ok s' /\ I (seen ++ [row]) x') s) ->
  (forall x' s', ws_ok s' -> I rows x' -> Q x' s') ->
  wp (for_range body 0 (Z.to_nat (t_count t)) x) Q s.
Proof.
  intros Hb Hl Ht Hs H0 Hbody HQ. pose proof Ht as [Hc _ _ _]. rewrite Hc, Nat2Z.id.
  eapply wp_mono.
  { apply (wp_for_range body (fun i x s => ws_ok s /\ exists seen rest, rows = seen ++ rest /\ len seen = i /\ I seen x)).
    - split; [done|]. by exists [], rows.
    - intros i y s' Hi (Hs' & seen & rest & E & Hseen & HI).
      destruct rest as [|row rest].
      { exfalso. rewrite app_nil_r in E. subst seen. lia. }
      eapply wp_mono.
      + pose proof (Table_row_cases data t rows i Hl Ht ltac:(lia)) as Hrow. rewrite E in Hrow.
        rewrite lookup_app_r in Hrow by lia. replace (Z.to_nat i - length seen)%nat with 0%nat in Hrow by lia.
        destruct (table_row_bytes data t rows row Hb Hl Ht) as [Hrb Hrl]; [rewrite E, in_app_iff; right; by left|].
        apply (Hbody i seen row rest y s' Hs' E ltac:(lia) Hrow Hrb Hrl HI).
      + cbn beta. intros y' t' (Ht' & HI'). split; [done|]. exists (seen ++ [row]), rest.
        rewrite <- app_assoc, length_app. splits; [done|cbn; lia|done]. }
  cbn beta. intros x' s' (Hs' & seen & rest & E & Hseen & HI). apply HQ; [done|].
  assert (rest = []) as ->; [|by rewrite E, app_nil_r].
  apply nil_length_inv. rewrite E, length_app in Hseen. lia.
Qed.

Lemma owp_required_table tables kind t (Q : Table -> Prop) :
  find_table tables kind = Some t -> Q t -> owp (required_table tables kind) Q.
Proof. unfold required_table. by intros -> HQ. Qed.

(** ** Model rows, strings and sequences *)

Definition model_row_ok (limits : Limits) (expected : Category) (row : bytes) : Prop :=
  exists c, canonical_row (from_limits limits) row c /\ component_category c = expected.

Lemma wp_validate_model_table data t rows expected limits (Q : unit -> WireState -> Prop) s :
  is_bytes data -> len data <= USIZE_MAX -> limits_ok limits -> table_rows data t rows -> ws_ok s ->
  (forall s', ws_ok s' -> Forall (model_row_ok limits expected) rows -> Q tt s') ->
  wp (validate_model_table data t expected limits) Q s.
Proof.
  intros Hb Hl [Hd Hm] Ht Hs HQ. unfold validate_model_table.
  apply (wp_table_loop data t rows _ (fun seen _ => Forall (model_row_ok limits expected) seen));
    [done..|constructor| |by intros []; auto].
  intros i seen row rest [] s' Hs' _ _ Hrow Hrb Hrl Hseen. unfold model_row.
  step. apply wp_wire_checkpoint; [done|]. intros s1 Hs1. step. rewrite Hrow. step. cbn [owp]. step. step.
  destruct Hm as [Hm0 Hm]. pose proof (from_limits_ok limits Hd Hm) as Hok.
  apply owp_intro; [by apply (scan_canonical_cases row _ CIri)|]. intros category Hcat.
  apply (scan_canonical_cases row _ category) in Hcat as (c & Hc & Hcc); [|done..].
  step. apply negb_false_iff, bool_decide_eq_true in H. split; [done|].
  apply Forall_app. split; [done|]. constructor; [|constructor]. exists c. by rewrite Hcc.
Qed.

Lemma wp_validate_strings data t rows (Q : unit -> WireState -> Prop) s :
  is_bytes data -> len data <= USIZE_MAX -> table_rows data t rows -> ws_ok s ->
  (forall s', ws_ok s' -> Forall (fun row => is_utf8 row = true) rows -> Q tt s') ->
  wp (validate_strings data t) Q s.
Proof.
  intros Hb Hl Ht Hs HQ. unfold validate_strings.
  apply (wp_table_loop data t rows _ (fun seen _ => Forall (fun row => is_utf8 row = true) seen));
    [done..|constructor| |by intros []; auto].
  intros i seen row rest [] s' Hs' _ _ Hrow Hrb Hrl Hseen. unfold string_row.
  step. apply wp_wire_checkpoint; [done|]. intros s1 Hs1. step. rewrite Hrow. step. cbn [owp]. step.
  apply negb_false_iff in H. split; [done|]. apply Forall_app. split; [done|]. constructor; [done|constructor].
Qed.

(** A sequence row: its kind, its arity and one digest per member. *)
Definition sequence_row_ok (limits : Limits) (row : bytes) : Prop :=
  exists kind count digests, row = [kind] ++ to_le_bytes 8 count ++ digests /\
    (kind = 1 \/ kind = 2) /\ len digests = 32 * count /\ count <= max_sequence_arity limits.

Lemma wp_sequence_row limits row (Q : unit -> Reader -> Prop) :
  is_bytes row -> len row <= USIZE_MAX ->
  (forall r, sequence_row_ok limits row -> Q tt r) ->
  wp (sequence_row limits) Q (Reader_new row).
Proof.
  intros Hb Hl HQ. unfold sequence_row. step. apply wp_u8; [by apply reader_new_ok|]. intros kind r1 H1 _.
  step. step. apply negb_false_iff, orb_true_iff in H. step. apply wp_u64; [by eauto with kernel|].
  intros count r2 H2 [Hc _]. step. step. bool_to_prop. step. step. step.
  apply checked_mul_Some in H3 as [-> _]. step. step. apply owp_usize_from_u64. intros _.
  step. apply wp_remaining; [by eauto with kernel|]. step. step. bool_to_prop. step.
  apply wp_take; [by eauto with kernel|lia|]. intros x r3 H4 _ Hlen.
  apply wp_finish; [by eauto with kernel|]. intros Hend. apply HQ. exists kind, count, x.
  splits; [|destruct H as [H|H]; apply Z.eqb_eq in H; auto|lia|done].
  symmetry. eapply advanced_all; [by eauto with kernel|]. rewrite Hend.
  destruct H1 as (_ & E1 & _), H2 as (_ & E2 & _), H4 as (_ & E4 & _). cbn in E1. congruence.
Qed.

Lemma wp_validate_sequences data t rows limits (Q : unit -> WireState -> Prop) s :
  is_bytes data -> len data <= USIZE_MAX -> table_rows data t rows -> ws_ok s ->
  (forall s', ws_ok s' -> Forall (sequence_row_ok limits) rows -> Q tt s') ->
  wp (validate_sequences data t limits) Q s.
Proof.
  intros Hb Hl Ht Hs HQ. unfold validate_sequences.
  apply (wp_table_loop data t rows _ (fun seen _ => Forall (sequence_row_ok limits) seen));
    [done..|constructor| |by intros []; auto].
  intros i seen row rest [] s' Hs' _ _ Hrow Hrb Hrl Hseen. unfold sequence_step.
  step. apply wp_wire_checkpoint; [done|]. intros s1 Hs1. step. rewrite Hrow. step. cbn [owp]. step.
  apply owp_with_reader, wp_sequence_row; [done|done|]. intros r Hok. split; [done|].
  apply Forall_app. split; [done|]. constructor; [done|constructor].
Qed.

(** ** Documents *)

(** A document key: a reference to a nonempty ASCII string. *)
Definition document_key_ok (strings : list bytes) (key : Z) : Prop :=
  1 <= key /\ exists text, strings !! Z.to_nat (key - 1) = Some text /\ text <> [] /\ is_ascii text = true.

Section DocumentRow.
Context (data : bytes) (ts : DocumentTables) (limits : Limits) (strings : list bytes).
Context (Hl : len data <= USIZE_MAX) (Hstrings : table_rows data (dt_strings ts) strings).

Lemma wp_document_identity (Q : Z -> Reader -> Prop) r :
  reader_ok r -> (forall key r', reader_ok r' -> document_key_ok strings key -> Q key r') ->
  wp (document_identity data ts) Q r.
Proof.
  intros Hr HQ. unfold document_identity. step. apply wp_read_required; [done|]. intros key r1 H1 _ Hk.
  step. step. apply (owp_Table_row _ _ strings); [done|done|lia|]. intros text Htext. step. step.
  bool_to_prop.
  step. apply wp_read_optional; [by eauto with kernel|]. intros ? r2 H2 _.
  step. apply wp_read_optional; [by eauto with kernel|]. intros ? r3 H3 _.
  step. apply wp_read_optional; [by eauto with kernel|]. intros ? r4 H4 _.
  step. apply wp_read_optional; [by eauto with kernel|]. intros ? r5 H5 _.
  step. apply wp_read_optional; [by eauto with kernel|]. intros ? r6 H6 _.
  step. apply wp_read_optional; [by eauto with kernel|]. intros ? r7 H7 _.
  step. step. step. apply HQ; [by eauto with kernel|]. split; [lia|]. exists text. splits; [done| |done].
  by intros ->.
Qed.

Lemma wp_document_source (Q : Z * Z -> Reader -> Prop) r :
  reader_ok r ->
  (forall status n r', reader_ok r' -> 1 <= status <= 2 -> 0 <= n <= max_source_bytes limits -> Q (status, n) r') ->
  wp (document_source ts limits) Q r.
Proof.
  intros Hr HQ. unfold document_source.
  step. apply wp_take; [done|lia|]. intros ? r1 H1 _ _.
  step. apply wp_read_fingerprint; [by eauto with kernel|]. intros ? r2 H2 _.
  step. apply wp_read_enum; [by eauto with kernel|]. intros ? r3 H3 _ _.
  step. apply wp_read_enum; [by eauto with kernel|]. intros status r4 H4 _ Hstatus.
  step. apply wp_take; [by eauto with kernel|lia|]. intros ? r5 H5 _ _.
  step. apply wp_read_enum; [by eauto with kernel|]. intros ? r6 H6 _ _.
  step. apply wp_u64; [by eauto with kernel|]. intros n r7 H7 [Hn _]. step. step. bool_to_prop.
  step. apply wp_u64; [by eauto with kernel|]. intros ? r8 H8 _.
  step. apply wp_read_optional; [by eauto with kernel|]. intros ? r9 H9 _.
  step. apply wp_read_enum; [by eauto with kernel|]. intros ? r10 H10 _ _.
  step. apply wp_read_enum; [by eauto with kernel|]. intros ? r11 H11 _ _.
  step. apply wp_boolean; [by eauto with kernel|]. intros digest r12 H12. step. destruct digest.
  - step. apply wp_take; [by eauto with kernel|lia|]. intros ? r13 H13 _ _. step. step.
    apply HQ; [by eauto with kernel|done|lia].
  - step. step. apply HQ; [by eauto with kernel|done|lia].
Qed.

Lemma wp_document_lists (Q : unit -> Reader -> Prop) r :
  reader_ok r -> (forall r', reader_ok r' -> Q tt r') -> wp (document_lists data ts limits) Q r.
Proof.
  intros Hr HQ. unfold document_lists.
  step. apply wp_read_required; [done|]. intros parser r1 H1 _ Hp.
  step. apply wp_read_required; [by eauto with kernel|]. intros backend r2 H2 _ Hbk.
  step. step. apply (owp_Table_row _ _ strings); [done|done|lia|]. intros text Htext. step.
  assert (forall (P : bool -> Reader -> Prop), (forall b, P b r2) ->
    wp (if len text =? 0 then mret true else
         backend_text ← lift (Table_row (dt_strings ts) data (backend - 1)); mret (len backend_text =? 0)) P r2)
    as Hempty.
  { intros P HP. step; [by step|]. step. step. apply (owp_Table_row _ _ strings); [done|done|lia|].
    intros text' _. by step. }
  apply Hempty. intros empty. step. step.
  step. apply wp_u16; [by eauto with kernel|]. intros ? r3 H3 _.
  step. apply wp_u16; [by eauto with kernel|]. intros ? r4 H4 _.
  step. apply wp_u32; [by eauto with kernel|]. intros ? r5 H5 _. step. step.
  step. apply wp_read_refs; [by eauto with kernel|]. intros ? r6 H6 _ _.
  step. apply wp_read_refs; [by eauto with kernel|]. intros ? r7 H7 _ _.
  step. apply wp_read_refs; [by eauto with kernel|]. intros ? r8 H8 _ _.
  step. apply wp_read_refs; [by eauto with kernel|]. intros ? r9 H9 _ _.
  step. apply wp_read_refs; [by eauto with kernel|]. intros ? r10 H10 _ _.
  step. apply wp_read_refs; [by eauto with kernel|]. intros ? r11 H11 _ _.
  step. apply wp_read_refs; [by eauto with kernel|]. intros ? r12 H12 _ _.
  apply wp_finish; [by eauto with kernel|]. intros _. apply HQ. by eauto with kernel.
Qed.

(** The key, status and source length of a record. *)
Lemma wp_document_row (Q : Z * Z * Z -> Reader -> Prop) r :
  reader_ok r ->
  (forall key status n r', document_key_ok strings key -> 1 <= status <= 2 ->
     0 <= n <= max_source_bytes limits -> Q (key, status, n) r') ->
  wp (document_row data ts limits) Q r.
Proof.
  intros Hr HQ. unfold document_row. step. apply wp_document_identity; [done|]. intros key r1 H1 Hkey.
  step. apply wp_document_source; [done|]. intros status n r2 H2 Hstatus Hn.
  step. apply wp_document_lists; [done|]. intros r3 H3. step. by apply HQ.
Qed.
End DocumentRow.

(** What [validate_documents] has checked of the rows of DOCUMENTS, whose
    [records] are their keys, statuses and source lengths. *)
Record documents_accepted (data : bytes) (ts : DocumentTables) (limits : Limits) (strings rows : list bytes)
    (docs : Documents) (records : list (Z * Z * Z)) : Prop := {
  documents_records :
    Forall2 (fun row record => with_reader (Reader_new row) (document_row data ts limits) = Ok record) rows records;
  documents_keys : key_ids docs ≡ₚ map (fun r => fst (fst r)) records;
  documents_unique : StronglySorted Z.lt (key_ids docs);
  documents_valid : Forall (document_key_ok strings) (key_ids docs);
  documents_root :
    exists n, List.filter (fun r => snd (fst r) =? 1) records = [(root_key_id docs, 1, n)];
  documents_bytes : total_source_bytes docs = sum (map snd records) /\
                    total_source_bytes docs <= max_total_source_bytes limits
}.

(** The loop of [validate_documents] after the rows [seen]. *)
Record documents_invariant (data : bytes) (ts : DocumentTables) (limits : Limits) (strings seen : list bytes)
    (l : DocumentLoop) (records : list (Z * Z * Z)) : Prop := {
  loop_records :
    Forall2 (fun row record => with_reader (Reader_new row) (document_row data ts limits) = Ok record) seen records;
  loop_keys : l_key_ids l = map (fun r => fst (fst r)) records;
  loop_valid : Forall (document_key_ok strings) (l_key_ids l);
  loop_count : l_root_count l = len (List.filter (fun r => snd (fst r) =? 1) records);
  loop_root : forall r, last (List.filter (fun r => snd (fst r) =? 1) records) = Some r ->
                l_root_key_id l = fst (fst r) /\ snd (fst r) = 1;
  loop_total : l_total l = sum (map snd records) /\ 0 <= l_total l
}.

Lemma wp_document_step data t ts limits strings seen row l records index s :
  len data <= USIZE_MAX -> table_rows data (dt_strings ts) strings -> ws_ok s ->
  Table_row t data index = Ok row -> is_bytes row -> len row <= USIZE_MAX ->
  documents_invariant data ts limits strings seen l records ->
  wp (document_step data t ts limits index l)
    (fun l' s' => ws_ok s' /\ (l_total l' <= max_total_source_bytes limits /\ exists records',
       documents_invariant data ts limits strings (seen ++ [row]) l' records')) s.
Proof.
  intros Hl Hst Hs Hrow Hb Hlr [H1 H2 H3 H4 H5 [H6 H7]]. unfold document_step.
  step. apply wp_wire_checkpoint; [done|]. intros s1 Hs1. step. rewrite Hrow. step. cbn [owp]. step. step.
  apply owp_eq, owp_with_reader, (wp_document_row data ts limits strings); [done|done|by apply reader_new_ok|].
  intros key status n r Hkey Hstatus Hn Hrec. step. step. step. apply checked_add_Some in H as [-> ?].
  step. step. bool_to_prop. step. split; [done|]. cbn [l_total]. split; [done|].
  exists (records ++ [(key, status, n)]).
  constructor; cbn [l_key_ids l_root_key_id l_root_count l_total].
  - apply Forall2_app; [done|]. constructor; [done|constructor].
  - by rewrite map_app, H2.
  - apply Forall_app. split; [done|]. constructor; [done|constructor].
  - rewrite List.filter_app, length_app. cbn. destruct (status =? 1); cbn; lia.
  - intros p. rewrite List.filter_app. cbn. destruct (Z.eqb_spec status 1) as [->|].
    + rewrite last_snoc. by intros [= <-].
    + rewrite app_nil_r. apply H5.
  - rewrite map_app, sum_app. cbn. lia.
Qed.

Lemma adjacent_unique l : StronglySorted Z.le l -> adjacent_equal l = false -> StronglySorted Z.lt l.
Proof.
  induction l as [|a l IH]; intros Hs Ha; [constructor|].
  apply StronglySorted_cons in Hs as [Hal Hs].
  assert (adjacent_equal l = false) as Htl.
  { cbn in Ha. destruct l; [done|]. by apply orb_false_iff in Ha as [_ Ha]. }
  specialize (IH Hs Htl). constructor; [done|]. destruct l as [|b l]; [constructor|].
  apply orb_false_iff in Ha as [Ha _]. apply Z.eqb_neq in Ha. apply Forall_cons in Hal as [Hab _].
  apply StronglySorted_cons in IH as [Hb _]. constructor; [lia|]. eapply Forall_impl; [exact Hb|]. cbn. lia.
Qed.

Lemma wp_validate_documents data tables limits t rows st strings ia an ax (Q : Documents -> WireState -> Prop) s :
  let ts := {| dt_strings := st; dt_iris := ia; dt_annotations := an; dt_axioms := ax;
               dt_extensions := extension_count tables |} in
  is_bytes data -> len data <= USIZE_MAX -> ws_ok s ->
  find_table tables 10 = Some t -> table_rows data t rows ->
  find_table tables 1 = Some st -> table_rows data st strings ->
  find_table tables 2 = Some ia -> find_table tables 7 = Some an -> find_table tables 9 = Some ax ->
  (forall docs records s', ws_ok s' -> documents_accepted data ts limits strings rows docs records -> Q docs s') ->
  wp (validate_documents data tables limits) Q s.
Proof.
  intros ts Hb Hl Hs Ht Hrows Hst Hstrings Hia Han Hax HQ. pose proof Hrows as [Hc _ _ _].
  unfold validate_documents. step. step. apply (owp_required_table _ _ t); [done|]. step. step. bool_to_prop.
  step. step. apply (owp_required_table _ _ st); [done|]. step. step. apply (owp_required_table _ _ ia); [done|].
  step. step. apply (owp_required_table _ _ an); [done|]. step. step. apply (owp_required_table _ _ ax); [done|].
  step. step. apply owp_usize_from_u64. intros _. step. apply wp_reserve_vec; [lia|lia|done|]. intros s1 Hs1.
  step.
  apply (wp_table_loop data t rows _ (fun seen l => (seen = [] \/ l_total l <= max_total_source_bytes limits) /\
           exists records, documents_invariant data ts limits strings seen l records)); [done..| | |].
  - split; [by left|]. exists []. by constructor.
  - intros i seen row rest l s2 Hs2 _ _ Hrow Hrb Hrl [_ [records Hinv]].
    eapply wp_mono; [by apply (wp_document_step data t ts limits strings seen row l records)|].
    cbn beta. intros l' s3 (Hs3 & Htot & Hex). split; [done|]. split; [by right|done].
  - intros l s2 Hs2 [Htot [records [H1 H2 H3 H4 H5 [H6 H7]]]].
    pose proof (merge_sort_Permutation Z.le (l_key_ids l)) as Hperm.
    assert (StronglySorted Z.le (merge_sort Z.le (l_key_ids l))) as Hsorted
      by (apply StronglySorted_merge_sort; [apply _|]; intros x y; lia).
    step. step. step. step. apply negb_false_iff, Z.eqb_eq in H8. step.
    apply (HQ _ records); [done|]. constructor; cbn [key_ids root_key_id total_source_bytes]; [done| | | | |].
    + by rewrite Hperm, H2.
    + by apply adjacent_unique.
    + by rewrite Hperm.
    + rewrite H8 in H4. destruct (List.filter _ records) as [|[[key status] n] [|? ?]]; cbn [length] in H4; try lia.
      destruct (H5 (key, status, n) eq_refl) as [-> E]. cbn in E. subst. by exists n.
    + split; [done|]. destruct Htot as [->|]; [|done]. exfalso.
      apply Forall2_nil_inv_l in H1 as ->. cbn in H4. lia.
Qed.

(** * What accepted IMPORTS, VIEW_PROVENANCE and ORIGINS rows say *)

(** ** Parsers that poll the guard *)

Lemma wp_on_wire_checkpoint (Q : unit -> WireState * Reader -> Prop) w r :
  ws_ok w -> (forall w', ws_ok w' -> Q tt (w', r)) -> wp (on_wire wire_checkpoint) Q (w, r).
Proof. intros Hw HQ. step. cbn [fst snd]. by apply wp_wire_checkpoint. Qed.

Lemma wp_on_reader {A} (m : M Reader A) (Q : A -> WireState * Reader -> Prop) w r :
  wp m (fun a r' => Q a (w, r')) r -> wp (on_reader m) Q (w, r).
Proof. intros H. step. exact H. Qed.

Lemma wp_with_row {A} row (m : M (WireState * Reader) A) (Q : A -> WireState -> Prop) w :
  wp m (fun a p => Q a (fst p)) (w, Reader_new row) -> wp (with_row row m) Q w.
Proof. unfold wp, with_row. by destruct (m (w, Reader_new row)) as [[a|e|] [w' r]]. Qed.

(** ** Imports *)

Record Import := mkImport {
  i_importer : Z; i_iri : Z; i_status : Z; i_target : Z; i_location : Z; i_diagnostic : Z
}.

Definition encode_import (i : Import) : bytes :=
  to_le_bytes 4 (i_importer i) ++ to_le_bytes 4 (i_iri i) ++ [i_status i] ++ to_le_bytes 4 (i_target i) ++
  to_le_bytes 4 (i_location i) ++ to_le_bytes 4 (i_diagnostic i).

(** The key by which edges are ordered. *)
Definition import_key (i : Import) : list Z :=
  [i_importer i; i_iri i; match status_rank (i_status i) with Ok rank => rank | _ => 0 end; i_target i].

(** An edge between documents: only a loaded import (status 1) has a target. *)
Record import_ok (keys : list Z) (strings : list bytes) (iris : Z) (i : Import) : Prop := {
  import_importer : In (i_importer i) keys;
  import_iri : 1 <= i_iri i <= iris;
  import_status : 1 <= i_status i <= 5;
  import_loaded : i_status i = 1 -> In (i_target i) keys;
  import_unloaded : i_status i <> 1 -> i_target i = 0;
  import_diagnostic : i_diagnostic i = 0 \/
    exists code, strings !! Z.to_nat (i_diagnostic i - 1) = Some code /\ diagnostic_code code = true
}.

(** Consecutive edges are in order. *)
Definition imports_ordered (edges : list Import) : Prop :=
  Sorted (fun x y => edge_ltb (import_key y) (import_key x) = false) edges.

Lemma contains_key_In keys x : contains_key keys x = true <-> In x keys.
Proof.
  unfold contains_key. rewrite existsb_exists. split.
  - intros (y & Hy & ->%Z.eqb_eq). done.
  - intros H. exists x. by rewrite Z.eqb_refl.
Qed.

Lemma sorted_snoc_local {A} (R : relation A) l x :
  Sorted R l -> (forall y, last l = Some y -> R y x) -> Sorted R (l ++ [x]).
Proof.
  induction 1 as [|a l Hl IH Ha]; intros Hx; [by repeat constructor|]. cbn. constructor.
  - apply IH. intros y Hy. apply Hx. rewrite last_cons. by rewrite Hy.
  - destruct l as [|b l]; cbn; constructor; [by apply Hx|]. by inversion Ha.
Qed.

Lemma wp_import_edge data strings rows iris docs index previous edges (Q : _ -> _ -> Prop) w r :
  len data <= USIZE_MAX -> table_rows data strings rows -> ws_ok w -> reader_ok r ->
  previous = import_key <$> last edges ->
  (forall i w' r', ws_ok w' -> advanced r (encode_import i) r' ->
     import_ok (key_ids docs) rows (t_count iris) i ->
     (forall p, last edges = Some p -> edge_ltb (import_key i) (import_key p) = false) ->
     Q (Some (import_key i)) (w', r')) ->
  wp (import_edge data strings iris docs index previous) Q (w, r).
Proof.
  intros Hl Hst Hw Hr -> HQ. unfold import_edge.
  step. apply wp_on_wire_checkpoint; [done|]. intros w1 Hw1.
  step. apply wp_on_reader, wp_read_required; [done|]. intros importer r1 H1 _ Himp. step. step.
  apply negb_false_iff, contains_key_In in H.
  step. apply wp_on_reader, wp_read_required; [by eauto with kernel|]. intros iri r2 H2 _ Hiri.
  step. apply wp_on_reader, wp_read_enum; [by eauto with kernel|]. intros status r3 H3 _ Hstatus.
  step. apply wp_on_reader, wp_read_optional; [by eauto with kernel|]. intros target r4 H4 Htarget.
  step. apply wp_on_reader, wp_read_optional; [by eauto with kernel|]. intros location r5 H5 _.
  step. apply wp_on_reader, wp_read_optional; [by eauto with kernel|]. intros diagnostic r6 H6 Hdiag.
  step. step. apply orb_false_iff in H0 as [Hloaded Hunloaded]. step.
  assert (forall P : unit -> _ -> Prop,
    ((diagnostic = 0 \/ exists code, rows !! Z.to_nat (diagnostic - 1) = Some code /\ diagnostic_code code = true) ->
       P tt (w1, r6)) ->
    wp (if negb (diagnostic =? 0) then
          code ← lift (Table_row strings data (diagnostic - 1));
          ensure_not (negb (diagnostic_code code)) (corrupt "IMPORTS diagnostic code is invalid")
        else mret tt) P (w1, r6)) as Hcode.
  { intros P HP. destruct (Z.eqb_spec diagnostic 0); cbn [negb]; [step; apply HP; by left|].
    step. step. apply (owp_Table_row _ _ rows); [done|done|lia|]. intros code Hc. step.
    apply HP. right. exists code. split; [done|]. by apply negb_false_iff. }
  apply Hcode. clear Hcode. intros Hcode.
  step. step. apply owp_intro.
  { unfold status_rank. repeat (case_match; [done|]). bool_to_prop. lia. }
  intros rank Hrank. step. step. step.
  set (i := {| i_importer := importer; i_iri := iri; i_status := status; i_target := target;
               i_location := location; i_diagnostic := diagnostic |}).
  assert ([importer; iri; rank; target] = import_key i) as E by (unfold import_key; cbn; by rewrite Hrank).
  rewrite E in *. apply (HQ i); [done| | |].
  - unfold encode_import. cbn [i i_importer i_iri i_status i_target i_location i_diagnostic]. by eauto 10 with kernel.
  - constructor; cbn [i i_importer i_iri i_status i_target i_location i_diagnostic]; try done.
    + intros ->. cbn in Hloaded. apply orb_false_iff in Hloaded as [_ Hc].
      by apply negb_false_iff, contains_key_In in Hc.
    + intros Hne. apply Z.eqb_neq in Hne. rewrite Hne in Hunloaded. cbn in Hunloaded.
      by apply negb_false_iff, Z.eqb_eq in Hunloaded.
  - intros p Hp. by rewrite Hp in H0.
Qed.

(** The IMPORTS row: the closure status, a flag, a digest and the edges. *)
Definition imports_row_ok (keys : list Z) (strings : list bytes) (iris : Z) (limits : Limits) (row : bytes) : Prop :=
  exists status complete digest edges,
    row = [status] ++ [Z.b2z complete] ++ digest ++ to_le_bytes 8 (len edges) ++ concat (map encode_import edges) /\
    len digest = 32 /\ Forall (import_ok keys strings iris) edges /\ imports_ordered edges /\
    len edges <= max_wire_rows limits.

Lemma advanced_row row x r :
  advanced (Reader_new row) x r -> r_offset r = len (r_data r) -> row = x.
Proof.
  intros H Hend. symmetry. eapply advanced_all; [exact H|]. destruct H as (_ & Hd & _). cbn in Hd. by rewrite <- Hd.
Qed.

Lemma wp_validate_imports data tables docs limits t rows st strings ia (Q : unit -> WireState -> Prop) s :
  is_bytes data -> len data <= USIZE_MAX -> ws_ok s ->
  find_table tables 11 = Some t -> table_rows data t rows ->
  find_table tables 1 = Some st -> table_rows data st strings -> find_table tables 2 = Some ia ->
  (forall s' row, ws_ok s' -> rows = [row] ->
     imports_row_ok (key_ids docs) strings (t_count ia) limits row -> Q tt s') ->
  wp (validate_imports data tables docs limits) Q s.
Proof.
  intros Hb Hl Hs Ht Hrows Hst Hstrings Hia HQ. pose proof Hrows as [Hc _ _ _]. unfold validate_imports.
  step. step. apply (owp_required_table _ _ t); [done|]. step. step. apply negb_false_iff, Z.eqb_eq in H.
  step. step. apply (owp_required_table _ _ st); [done|]. step. step. apply (owp_required_table _ _ ia); [done|].
  destruct rows as [|row [|? ?]]; cbn [length] in Hc; try lia. clear Hc.
  step. step. apply (owp_Table_row _ _ [row]); [done|done|lia|]. intros row' [= <-].
  destruct (table_row_bytes data t [row] row Hb Hl Hrows ltac:(by left)) as [Hrb Hrl]. apply wp_with_row.
  step. apply wp_on_reader, wp_read_enum; [by apply reader_new_ok|]. intros status r1 H1 _ _.
  step. apply wp_on_reader, wp_boolean; [by eauto with kernel|]. intros complete r2 H2.
  step. apply wp_on_reader, wp_take; [by eauto with kernel|lia|]. intros digest r3 H3 _ Hdigest.
  step. apply wp_on_reader, wp_u64; [by eauto with kernel|]. intros count r4 H4 [Hcount _]. step. step. bool_to_prop.
  step. apply wp_on_reader, wp_remaining; [by eauto with kernel|]. step. step. step.
  eapply wp_mono.
  { apply (wp_for_range _ (fun i previous p => ws_ok (fst p) /\ exists edges, len edges = i /\
      advanced r4 (concat (map encode_import edges)) (snd p) /\ previous = import_key <$> last edges /\
      Forall (import_ok (key_ids docs) strings (t_count ia)) edges /\ imports_ordered edges)).
    - split; [done|]. exists []. splits; [done|by eauto with kernel|done|constructor|constructor].
    - intros i previous [w r] Hi (Hw & edges & Hlen & Hadv & Hprev & Hok & Hord). cbn [fst snd] in *.
      apply (wp_import_edge _ _ strings _ _ _ _ edges); [done|done|done|by eauto with kernel|done|].
      intros e w' r' Hw' Hadv' He Hle. split; [done|]. exists (edges ++ [e]). cbn [snd].
      rewrite length_app, map_app, concat_app, last_snoc. cbn [map concat]. rewrite app_nil_r.
      splits; [cbn; lia|by eauto with kernel|done| |].
      + apply Forall_app. split; [done|]. constructor; [done|constructor].
      + apply sorted_snoc_local; [done|]. by apply Hle. }
  cbn beta. intros previous [w r] (Hw & edges & Hlen & Hadv & _ & Hok & Hord). cbn [fst snd] in *.
  rewrite Z.add_0_l, Z2Nat.id in Hlen by lia. subst count.
  apply wp_on_reader, wp_finish; [by eauto with kernel|]. intros Hend. cbn [fst].
  apply (HQ _ row); [done|done|]. exists status, complete, digest, edges. splits; [|done|done|done|done].
  eapply advanced_row; [by eauto 10 with kernel|done].
Qed.

(** ** View provenance *)

Record Identity := mkIdentity { id_key : bytes; id_ontology : option bytes; id_version : option bytes }.

Definition encode_text (text : bytes) : bytes := to_le_bytes 8 (len text) ++ text.
Definition encode_optional (text : option bytes) : bytes :=
  match text with None => [0] | Some text => [1] ++ encode_text text end.
Definition encode_identity (i : Identity) : bytes :=
  encode_text (id_key i) ++ encode_optional (id_ontology i) ++ encode_optional (id_version i).

(** An absent IRI, or a valid absolute one within the limit. *)
Definition optional_iri_ok (limits : Limits) (text : option bytes) : Prop :=
  match text with
  | None => True
  | Some text => len text <= max_iri_bytes limits /\ is_utf8 text = true /\ valid_iri text
  end.

Record identity_ok (limits : Limits) (i : Identity) : Prop := {
  identity_key : id_key i <> [] /\ is_utf8 (id_key i) = true;
  identity_ontology : optional_iri_ok limits (id_ontology i);
  identity_version : optional_iri_ok limits (id_version i);
  identity_versioned : id_version i <> None -> id_ontology i <> None
}.

Lemma wp_read_identity_text (Q : bytes -> Reader -> Prop) r :
  reader_ok r -> (forall x r', advanced r (encode_text x) r' -> Q x r') -> wp read_identity_text Q r.
Proof.
  intros Hr HQ. unfold read_identity_text. step. apply wp_u64; [done|]. intros n r1 H1 [Hn _].
  step. step. apply owp_usize_from_u64. intros _. apply wp_take; [by eauto with kernel|done|].
  intros x r2 H2 _ <-. apply HQ. by eauto with kernel.
Qed.

Lemma wp_read_identity_iri limits (Q : bool -> Reader -> Prop) r :
  reader_ok r ->
  (forall text r', advanced r (encode_optional text) r' -> optional_iri_ok limits text ->
     Q (is_some text) r') ->
  wp (read_identity_iri limits) Q r.
Proof.
  intros Hr HQ. unfold read_identity_iri. step. apply wp_boolean; [done|]. intros present r1 H1.
  destruct present; cbn [negb]; [|step; by apply (HQ None)].
  step. apply wp_read_identity_text; [by eauto with kernel|]. intros x r2 H2.
  step. step. bool_to_prop. step. step. apply negb_false_iff in H0. step. step.
  apply owp_validate_iri; [done|]. intros Hiri. step. apply (HQ (Some x)); [|done]. by eauto with kernel.
Qed.

Lemma wp_provenance_step limits index previous ids (Q : _ -> _ -> Prop) w r :
  ws_ok w -> reader_ok r -> previous = id_key <$> last ids ->
  (forall i w' r', ws_ok w' -> advanced r (encode_identity i) r' -> identity_ok limits i ->
     (forall p, last ids = Some p -> bytes_lt (id_key p) (id_key i)) -> Q (Some (id_key i)) (w', r')) ->
  wp (provenance_step limits index previous) Q (w, r).
Proof.
  intros Hw Hr -> HQ. unfold provenance_step.
  step. apply wp_on_wire_checkpoint; [done|]. intros w1 Hw1.
  step. apply wp_on_reader, wp_read_identity_text; [done|]. intros key r1 H1. step. step.
  apply orb_false_iff in H as [H Hord]. apply orb_false_iff in H as [Hne Hutf]. apply negb_false_iff in Hutf.
  step. apply wp_on_reader, wp_read_identity_iri; [by eauto with kernel|]. intros ontology r2 H2 Hon.
  step. apply wp_on_reader, wp_read_identity_iri; [by eauto with kernel|]. intros version r3 H3 Hver.
  step. step. step. apply (HQ {| id_key := key; id_ontology := ontology; id_version := version |}); [done| | |].
  - unfold encode_identity. cbn [id_key id_ontology id_version]. by eauto with kernel.
  - constructor; cbn [id_key id_ontology id_version]; [|done|done|].
    + split; [|done]. intros ->. done.
    + intros Hv Ho. subst. by destruct version.
  - cbn [id_key]. intros p Hp. rewrite Hp in Hord. cbn in Hord. rewrite bytes_leb_ltb in Hord.
    by apply negb_false_iff in Hord.
Qed.

(** The VIEW_PROVENANCE row: two digests and the identities of the documents. *)
Definition provenance_row_ok (limits : Limits) (row : bytes) : Prop :=
  exists first second ids,
    row = first ++ second ++ to_le_bytes 8 (len ids) ++ concat (map encode_identity ids) /\
    len first = 32 /\ len second = 32 /\ ids <> [] /\ len ids <= value limits MaxIndexRows /\
    Forall (identity_ok limits) ids /\ StronglySorted bytes_lt (map id_key ids).

Lemma wp_validate_view_provenance data tables limits (Q : unit -> WireState -> Prop) s :
  is_bytes data -> len data <= USIZE_MAX -> ws_ok s ->
  (forall t, find_table tables VIEW_PROVENANCE_KIND = Some t -> exists rows, table_rows data t rows) ->
  (forall s', ws_ok s' ->
     (forall t, find_table tables VIEW_PROVENANCE_KIND = Some t ->
        exists row, table_rows data t [row] /\ provenance_row_ok limits row) -> Q tt s') ->
  wp (validate_view_provenance data tables limits) Q s.
Proof.
  intros Hb Hl Hs Hfound HQ. unfold validate_view_provenance.
  destruct (find_table tables VIEW_PROVENANCE_KIND) as [t|] eqn:E; [|step; by apply HQ].
  destruct (Hfound t eq_refl) as [rows Hrows]. pose proof Hrows as [Hc _ _ _].
  step. step. apply negb_false_iff, Z.eqb_eq in H.
  destruct rows as [|row [|? ?]]; cbn [length] in Hc; try lia. clear Hc.
  step. step. apply (owp_Table_row _ _ [row]); [done|done|lia|]. intros row' [= <-].
  destruct (table_row_bytes data t [row] row Hb Hl Hrows ltac:(by left)) as [Hrb Hrl]. apply wp_with_row.
  step. apply wp_on_reader, wp_take; [by apply reader_new_ok|lia|]. intros first r1 H1 _ Hfirst.
  step. apply wp_on_reader, wp_take; [by eauto with kernel|lia|]. intros second r2 H2 _ Hsecond.
  step. apply wp_on_reader, wp_u64; [by eauto with kernel|]. intros count r3 H3 [Hcount _]. step. step. bool_to_prop.
  step. apply wp_on_reader, wp_remaining; [by eauto with kernel|]. step. step.
  apply orb_false_iff in H4 as [Hne%Z.eqb_neq _]. step.
  eapply wp_mono.
  { apply (wp_for_range _ (fun i previous p => ws_ok (fst p) /\ exists ids, len ids = i /\
      advanced r3 (concat (map encode_identity ids)) (snd p) /\ previous = id_key <$> last ids /\
      Forall (identity_ok limits) ids /\ StronglySorted bytes_lt (map id_key ids))).
    - split; [done|]. exists []. splits; [done|by eauto with kernel|done|constructor|constructor].
    - intros i previous [w r] Hi (Hw & ids & Hlen & Hadv & Hprev & Hok & Hord). cbn [fst snd] in *.
      apply (wp_provenance_step _ _ _ ids); [done|by eauto with kernel|done|].
      intros e w' r' Hw' Hadv' He Hlt. split; [done|]. exists (ids ++ [e]). cbn [snd].
      rewrite length_app, !map_app, concat_app, last_snoc. cbn [map concat]. rewrite app_nil_r.
      splits; [cbn; lia|by eauto with kernel|done| |].
      + apply Forall_app. split; [done|]. constructor; [done|constructor].
      + apply sorted_snoc; [apply _|done|]. intros y Hy.
        change (last (id_key <$> ids) = Some y) in Hy. rewrite fmap_last in Hy.
        destruct (last ids); [|done]. injection Hy as <-. by apply Hlt. }
  cbn beta. intros previous [w r] (Hw & ids & Hlen & Hadv & _ & Hok & Hord). cbn [fst snd] in *.
  rewrite Z.add_0_l, Z2Nat.id in Hlen by lia. subst count.
  apply wp_on_reader, wp_finish; [by eauto with kernel|]. intros Hend. cbn [fst].
  apply HQ; [done|]. intros t' [= <-]. exists row. split; [done|].
  exists first, second, ids. splits; [|done|done|by intros ->|done|done|done].
  eapply advanced_row; [by eauto 10 with kernel|done].
Qed.
