(* ===== verification/WireFooter.v ===== *)
(** * What accepted VIEW, ORIGINS and FOOTER rows say *)

From S2P Require Import Prelude Bytes Hash Error Machine Limits Cancel Reader Wire WireTable WireFraming WireRows WireRefs WireColumns WireValidate WireRowsSound.

(** ** The view *)

Record View := mkView {
  v_root : Z; v_flag : bool; v_context_tag : Z; v_contexts : list bytes;
  v_first : bytes; v_second : bytes; v_third : bytes; v_documents : Z;
  v_annotations : list Z; v_axioms : list Z; v_extensions : list Z
}.

Definition encode_view (v : View) : bytes :=
  to_le_bytes 4 (v_root v) ++ [Z.b2z (v_flag v)] ++ [v_context_tag v] ++ to_le_bytes 4 (len (v_contexts v)) ++
  concat (v_contexts v) ++ v_first v ++ v_second v ++ v_third v ++ to_le_bytes 8 (v_documents v) ++
  to_le_bytes 8 (len (v_axioms v)) ++ encode_refs (v_annotations v) ++ encode_refs (v_axioms v) ++
  encode_refs (v_extensions v).

Record view_ok (docs : Documents) (annotations axioms extensions : Z) (v : View) : Prop := {
  view_root : v_root v = root_key_id docs;
  view_contexts : context_ok (v_context_tag v) (len (v_contexts v)) = true /\ Forall is_fingerprint (v_contexts v);
  view_fingerprints : Forall is_fingerprint [v_first v; v_second v; v_third v];
  view_documents : v_documents v = len (key_ids docs);
  view_annotations : canonical_refs annotations (v_annotations v);
  view_axioms : canonical_refs axioms (v_axioms v);
  view_extensions : canonical_refs extensions (v_extensions v)
}.

Lemma wp_view_row strings annotations axioms extensions docs limits row (Q : list bytes -> Reader -> Prop) :
  is_bytes row -> len row <= USIZE_MAX ->
  (forall v r, row = encode_view v -> view_ok docs annotations axioms extensions v ->
     Q [v_first v; v_second v; v_third v] r) ->
  wp (view_row strings annotations axioms extensions docs limits) Q (Reader_new row).
Proof.
  intros Hb Hl HQ. unfold view_row.
  step. apply wp_read_required; [by apply reader_new_ok|]. intros root r1 H1 _ _. step. step.
  apply orb_false_iff in H as [_ Hroot]. apply negb_false_iff, Z.eqb_eq in Hroot.
  step. apply wp_boolean; [by eauto with kernel|]. intros flag r2 H2.
  step. apply wp_u8; [by eauto with kernel|]. intros tag r3 H3 _.
  step. apply wp_u32; [by eauto with kernel|]. intros count r4 H4 [Hcount _]. step. step. step. step.
  apply negb_false_iff in H0. step.
  eapply wp_mono.
  { apply (wp_for_range _ (fun i _ r => exists contexts, len contexts = i /\
      advanced r4 (concat contexts) r /\ Forall is_fingerprint contexts)).
    - exists []. splits; [done|by eauto with kernel|constructor].
    - intros i [] r Hi (contexts & Hlen & Hadv & Hok). unfold context_step. step.
      apply wp_read_fingerprint; [by eauto with kernel|]. intros x r' Hx Hf. step.
      exists (contexts ++ [x]). rewrite length_app, concat_app. cbn [concat]. rewrite app_nil_r.
      splits; [cbn; lia|by eauto with kernel|]. apply Forall_app. split; [done|]. constructor; [done|constructor]. }
  cbn beta. intros [] r5 (contexts & Hlen & H5 & Hcontexts). rewrite Z.add_0_l, Z2Nat.id in Hlen by lia. subst count.
  step. apply wp_read_fingerprint; [by eauto with kernel|]. intros f1 r6 H6 Hf1.
  step. apply wp_read_fingerprint; [by eauto with kernel|]. intros f2 r7 H7 Hf2.
  step. apply wp_read_fingerprint; [by eauto with kernel|]. intros f3 r8 H8 Hf3.
  step. apply wp_u64; [by eauto with kernel|]. intros documents r9 H9 _. step. step. step. step.
  apply negb_false_iff, Z.eqb_eq in H11.
  step. apply wp_u64; [by eauto with kernel|]. intros effective r10 H12 _. step. step.
  step. apply wp_read_refs; [by eauto with kernel|]. intros an r11 H14 Han _.
  step. apply wp_read_refs; [by eauto with kernel|]. intros ax r12 H15 Hax _.
  step. apply wp_read_refs; [by eauto with kernel|]. intros ex r13 H16 Hex _.
  step. apply wp_finish; [by eauto with kernel|]. intros Hend. step. step.
  apply negb_false_iff, Z.eqb_eq in H17. subst effective. step.
  apply (HQ {| v_root := root; v_flag := flag; v_context_tag := tag; v_contexts := contexts; v_first := f1;
               v_second := f2; v_third := f3; v_documents := documents; v_annotations := an; v_axioms := ax;
               v_extensions := ex |}).
  - unfold encode_view. cbn [v_root v_flag v_context_tag v_contexts v_first v_second v_third v_documents
      v_annotations v_axioms v_extensions]. eapply advanced_row; [|exact Hend].
    repeat (eapply advanced_trans; [eassumption|]). done.
  - constructor; try done. by repeat constructor.
Qed.

Lemma owp_validate_view data tables docs limits t rows st an ax (Q : list bytes -> Prop) :
  is_bytes data -> len data <= USIZE_MAX ->
  find_table tables 12 = Some t -> table_rows data t rows ->
  find_table tables 1 = Some st -> find_table tables 7 = Some an -> find_table tables 9 = Some ax ->
  (forall v, rows = [encode_view v] ->
     view_ok docs (t_count an) (t_count ax) (extension_count tables) v -> Q [v_first v; v_second v; v_third v]) ->
  owp (validate_view data tables docs limits) Q.
Proof.
  intros Hb Hl Ht Hrows Hst Han Hax HQ. pose proof Hrows as [Hc _ _ _]. unfold validate_view.
  step. apply (owp_required_table _ _ t); [done|]. step. step. apply negb_false_iff, Z.eqb_eq in H.
  step. apply (owp_required_table _ _ st); [done|]. step. apply (owp_required_table _ _ an); [done|].
  step. apply (owp_required_table _ _ ax); [done|].
  destruct rows as [|row [|? ?]]; cbn [length] in Hc; try lia.
  step. apply (owp_Table_row _ _ [row]); [done|done|lia|]. intros row' [= <-].
  destruct (table_row_bytes data t [row] row Hb Hl Hrows ltac:(by left)) as [Hrb Hrl].
  apply owp_with_reader, wp_view_row; [done|done|]. intros v r -> Hv. by apply HQ.
Qed.

(** ** Origins *)

Record Origin := mkOrigin { o_document : Z; o_occurrence : Z; o_span : list Z }.

Definition encode_origin (o : Origin) : bytes :=
  to_le_bytes 4 (o_document o) ++ to_le_bytes 8 (o_occurrence o) ++ words_bytes 8 (o_span o).
Definition origin_key (o : Origin) : Z * Z * list Z := (o_document o, o_occurrence o, o_span o).

Record origin_ok (strings : list bytes) (o : Origin) : Prop := {
  origin_document : 1 <= o_document o /\
    exists text, strings !! Z.to_nat (o_document o - 1) = Some text /\ text <> [];
  origin_span : length (o_span o) = 6%nat /\ validate_span (o_span o) = Ok tt
}.

(** The occurrences of one component, in strictly ascending order. *)
Definition origin_row_ok (strings : list bytes) (row : bytes) (digest : bytes) (origins : list Origin) : Prop :=
  row = digest ++ to_le_bytes 8 (len origins) ++ concat (map encode_origin origins) /\ len digest = 32 /\
  Forall (origin_ok strings) origins /\
  Sorted (fun x y => compare_origin (origin_key y) (origin_key x) = Gt) origins.

Lemma validate_span_Ok span : validate_span span <> Panic.
Proof. unfold validate_span, fail_if. by case_match. Qed.

Lemma wp_origin_entry data st strings index previous seen (Q : _ -> _ -> Prop) r :
  len data <= USIZE_MAX -> table_rows data st strings -> reader_ok r -> previous = origin_key <$> last seen ->
  (forall o r', advanced r (encode_origin o) r' -> origin_ok strings o ->
     (forall p, last seen = Some p -> compare_origin (origin_key o) (origin_key p) = Gt) ->
     Q (Some (origin_key o)) r') ->
  wp (origin_entry data st index previous) Q r.
Proof.
  intros Hl Hst Hr -> HQ. unfold origin_entry.
  step. apply wp_read_required; [done|]. intros document r1 H1 _ Hdoc.
  step. step. apply (owp_Table_row _ _ strings); [done|done|lia|]. intros text Htext. step. step. bool_to_prop.
  step. apply wp_u64; [by eauto with kernel|]. intros occurrence r2 H2 _.
  step. apply wp_u64; [by eauto with kernel|]. intros a r3 H3 _.
  step. apply wp_u64; [by eauto with kernel|]. intros b r4 H4 _.
  step. apply wp_u64; [by eauto with kernel|]. intros c r5 H5 _.
  step. apply wp_u64; [by eauto with kernel|]. intros d r6 H6 _.
  step. apply wp_u64; [by eauto with kernel|]. intros e r7 H7 _.
  step. apply wp_u64; [by eauto with kernel|]. intros f r8 H8 _.
  step. step. apply owp_intro; [apply validate_span_Ok|]. intros [] Hspan. step. step. step.
  apply (HQ {| o_document := document; o_occurrence := occurrence; o_span := [a; b; c; d; e; f] |}).
  - unfold encode_origin. cbn [o_document o_occurrence o_span]. unfold words_bytes. cbn [map concat].
    do 2 (eapply advanced_trans; [eassumption|]).
    repeat (eapply advanced_trans; [eassumption|]). by eauto with kernel.
  - constructor; cbn [o_document o_span]; [|done]. split; [lia|]. exists text. split; [done|]. by intros ->.
  - intros p Hp. rewrite Hp in H0. cbn [fmap option_fmap option_map] in H0. unfold origin_key. cbn [o_document o_occurrence o_span].
    unfold origin_key in H0. by destruct (compare_origin _ _).
Qed.

Definition origins_invariant (strings : list bytes) (limits : Limits) (seen : list bytes) (l : OriginLoop) : Prop :=
  exists parsed,
    Forall2 (fun row p => origin_row_ok strings row (fst p) (snd p)) seen parsed /\
    StronglySorted bytes_lt (map fst parsed) /\ o_previous l = last (map fst parsed) /\
    o_total l = sum (map (fun p => len (snd p)) parsed) /\
    (seen = [] \/ o_total l <= max_origin_entries limits /\ o_total l <= max_source_map_entries limits).

Lemma wp_origin_row data st strings limits seen row l (Q : OriginLoop -> Reader -> Prop) :
  len data <= USIZE_MAX -> table_rows data st strings -> is_bytes row -> len row <= USIZE_MAX ->
  origins_invariant strings limits seen l ->
  (forall l' r, origins_invariant strings limits (seen ++ [row]) l' -> Q l' r) ->
  wp (origin_row data st limits l) Q (Reader_new row).
Proof.
  intros Hl Hst Hb Hlr (parsed & Hrows & Hsorted & Hprev & Htotal & _) HQ. unfold origin_row.
  step. apply wp_take; [by apply reader_new_ok|lia|]. intros digest r1 H1 _ Hdigest.
  step. step. unfold array_from_slice. rewrite Hdigest. cbn [Z.eqb Pos.eqb owp mret outcome_ret].
  step. step. rewrite Hprev in H.
  step. apply wp_u64; [by eauto with kernel|]. intros count r2 H2 [Hcount _].
  step. step. step. apply checked_add_Some in H0 as [-> _]. step. step. step. step. bool_to_prop.
  step. apply wp_remaining; [by eauto with kernel|]. step. step. step.
  eapply wp_mono.
  { apply (wp_for_range _ (fun i previous r => exists origins, len origins = i /\
      advanced r2 (concat (map encode_origin origins)) r /\ previous = origin_key <$> last origins /\
      Forall (origin_ok strings) origins /\
      Sorted (fun x y => compare_origin (origin_key y) (origin_key x) = Gt) origins)).
    - exists []. splits; [done|by eauto with kernel|done|constructor|constructor].
    - intros i previous r Hi (origins & Hlen & Hadv & Hp & Hok & Hord).
      apply (wp_origin_entry _ _ strings _ _ origins); [done|done|by eauto with kernel|done|].
      intros o r' Hadv' Ho Hgt. exists (origins ++ [o]).
      rewrite length_app, map_app, concat_app, last_snoc. cbn [map concat]. rewrite app_nil_r.
      splits; [cbn; lia|by eauto with kernel|done| |by apply sorted_snoc_local].
      apply Forall_app. split; [done|]. constructor; [done|constructor]. }
  cbn beta. intros previous r3 (origins & Hlen & Hadv & _ & Hok & Hord).
  rewrite Z.add_0_l, Z2Nat.id in Hlen by lia. subst count.
  step. apply wp_finish; [by eauto with kernel|]. intros Hend. step. apply HQ.
  exists (parsed ++ [(digest, origins)]). rewrite !map_app. cbn [map fst snd o_total o_previous].
  rewrite last_snoc, sum_app.
  splits; [| |done|cbn [sum foldr]; lia|right; lia].
  - apply Forall2_app; [done|]. constructor; [|constructor]. cbn [fst snd].
    split; [|done]. eapply advanced_row; [by eauto with kernel|done].
  - apply sorted_snoc; [apply _|done|]. intros y Hy. rewrite Hy, bytes_leb_ltb in H. by apply negb_false_iff in H.
Qed.

Lemma wp_validate_origins data tables limits t rows st strings (Q : unit -> WireState -> Prop) s :
  is_bytes data -> len data <= USIZE_MAX -> ws_ok s ->
  find_table tables 13 = Some t -> table_rows data t rows ->
  find_table tables 1 = Some st -> table_rows data st strings ->
  (forall s' l, ws_ok s' -> origins_invariant strings limits rows l -> Q tt s') ->
  wp (validate_origins data tables limits) Q s.
Proof.
  intros Hb Hl Hs Ht Hrows Hst Hstrings HQ. unfold validate_origins.
  step. step. apply (owp_required_table _ _ t); [done|]. step. step. apply (owp_required_table _ _ st); [done|].
  step. apply (wp_table_loop data t rows _ (origins_invariant strings limits)); [done..| | |].
  - exists []. splits; [constructor|constructor|done|done|by left].
  - intros i seen row rest l s1 Hs1 _ _ Hrow Hrb Hrl Hinv. unfold origin_step.
    step. apply wp_wire_checkpoint; [done|]. intros s2 Hs2. step. rewrite Hrow. step. cbn [owp]. step.
    apply owp_with_reader, (wp_origin_row data st strings limits seen row l); [done..|]. intros l' r Hinv'. done.
  - intros l s1 Hs1 Hinv. step. by eapply HQ.
Qed.

(** * The footer ledger, and the encoded columns

    A footer row is accepted exactly when it repeats the fingerprints of the
    view and the directory's row counts and digests.  The optional encoded
    columns never make the validation panic, and an accepted column row is
    exactly covered by its buffers. *)

(** ** Loops over what they read *)

Fixpoint concat_range (enc : Z -> bytes) (start : Z) (n : nat) : bytes :=
  match n with O => [] | S n => enc start ++ concat_range enc (start + 1) n end.

Lemma concat_range_snoc enc start n :
  concat_range enc start (S n) = concat_range enc start n ++ enc (start + Z.of_nat n).
Proof.
  revert start. induction n as [|n IH]; intros start.
  - cbn. by rewrite app_nil_r, Z.add_0_r.
  - change (concat_range enc start (S (S n))) with (enc start ++ concat_range enc (start + 1) (S n)).
    rewrite IH. cbn [concat_range]. rewrite <- app_assoc. do 3 f_equal. lia.
Qed.

Lemma reads_for_each {A} (body : A -> unit -> M Reader unit) enc items :
  (forall y, In y items -> reads (body y tt) (enc y) tt) ->
  reads (for_each body items tt) (concat (map enc items)) tt.
Proof.
  induction items as [|y items IH]; intros H; cbn [for_each map concat]; [apply reads_ret|].
  eapply reads_bind; [apply H; by left|]. apply IH. intros z Hz. apply H. by right.
Qed.

Lemma reads_for_range (body : Z -> unit -> M Reader unit) enc start n :
  (forall i, start <= i < start + Z.of_nat n -> reads (body i tt) (enc i) tt) ->
  reads (for_range body start n tt) (concat_range enc start n) tt.
Proof.
  revert start. induction n as [|n IH]; intros start H; cbn [for_range concat_range]; [apply reads_ret|].
  eapply reads_bind; [apply H; lia|]. apply IH. intros i Hi. apply H. lia.
Qed.

(** ** The footer *)

Definition ledger_line (tables : list Table) (kind : Z) : bytes :=
  match find_table tables kind with
  | Some t => to_le_bytes 2 kind ++ to_le_bytes 8 (t_count t) ++ t_digest t
  | None => []
  end.

Definition encode_footer (tables : list Table) (fingerprints : list bytes) : bytes :=
  concat fingerprints ++ to_le_bytes 2 13 ++ concat_range (ledger_line tables) 1 13.

(** The tables of a complete directory. *)
Definition footer_ledger_ok (tables : list Table) : Prop :=
  forall kind, 1 <= kind <= 13 ->
    exists t, find_table tables kind = Some t /\ is_u64 (t_count t) /\ len (t_digest t) = 32.

Lemma wp_footer_line tables kind (Q : unit -> Reader -> Prop) r :
  footer_ledger_ok tables -> 1 <= kind <= 13 -> reader_ok r ->
  (forall r', advanced r (ledger_line tables kind) r' -> Q tt r') ->
  wp (footer_line tables kind tt) Q r.
Proof.
  intros Hok Hk Hr HQ. destruct (Hok kind Hk) as (t & Ht & _ & _). unfold footer_line.
  step. apply wp_u16; [done|]. intros actual r1 H1 _. step. step. apply negb_false_iff, Z.eqb_eq in H. subst actual.
  step. apply wp_u64; [by eauto with kernel|]. intros rows r2 H2 _.
  step. apply wp_take; [by eauto with kernel|lia|]. intros digest r3 H3 _ Hlen.
  step. step. unfold array_from_slice. rewrite Hlen. cbn [Z.eqb Pos.eqb owp mret outcome_ret].
  step. step. apply (owp_required_table _ _ t); [done|]. step. apply orb_false_iff in H as [Hn Hd].
  apply negb_false_iff, Z.eqb_eq in Hn. apply negb_false_iff, bytes_eqb_eq in Hd. subst.
  apply HQ. unfold ledger_line. rewrite Ht. by eauto with kernel.
Qed.

Lemma wp_footer_row tables fingerprints row (Q : unit -> Reader -> Prop) :
  footer_ledger_ok tables -> is_bytes row -> len row <= USIZE_MAX ->
  (forall r, row = encode_footer tables fingerprints -> Q tt r) ->
  wp (footer_row tables fingerprints) Q (Reader_new row).
Proof.
  intros Hok Hb Hl HQ. unfold footer_row. pose proof (reader_new_ok row Hb Hl) as Hr. step.
  eapply wp_mono.
  { apply (wp_for_each _ (fun rest _ r => exists seen, seen ++ rest = fingerprints /\
      advanced (Reader_new row) (concat seen) r)).
    - exists []. split; [done|by eauto with kernel].
    - intros y rest [] r (seen & <- & Hadv). unfold footer_fingerprint.
      step. apply wp_read_fingerprint; [by eauto with kernel|]. intros x r' Hx _. step.
      apply negb_false_iff, bytes_eqb_eq in H. subst x. exists (seen ++ [y]). rewrite <- app_assoc. split; [done|].
      rewrite concat_app. cbn. rewrite app_nil_r. by eauto with kernel. }
  cbn beta. intros [] r1 (seen & E & H1). rewrite app_nil_r in E. subst seen.
  step. apply wp_u16; [by eauto with kernel|]. intros count r2 H2 _. step. step.
  apply negb_false_iff, Z.eqb_eq in H. subst count. step.
  eapply wp_mono.
  { apply (wp_for_range _ (fun i _ r => advanced r2 (concat_range (ledger_line tables) 1 (Z.to_nat (i - 1))) r)).
    - by eauto with kernel.
    - intros i [] r Hi Hadv. apply wp_footer_line; [done|lia|by eauto with kernel|]. intros r' Hadv'.
      replace (Z.to_nat (i + 1 - 1)) with (S (Z.to_nat (i - 1))) by lia. rewrite concat_range_snoc.
      replace (1 + Z.of_nat (Z.to_nat (i - 1))) with i by lia. by eauto with kernel. }
  cbn beta. intros [] r3 H3. change (Z.to_nat (1 + Z.of_nat 13 - 1)) with 13%nat in H3.
  apply wp_finish; [by eauto with kernel|]. intros Hend. apply HQ. unfold encode_footer.
  eapply advanced_row; [|exact Hend]. by eauto with kernel.
Qed.

Lemma owp_validate_footer data tables fingerprints t rows (Q : unit -> Prop) :
  is_bytes data -> len data <= USIZE_MAX ->
  find_table tables 14 = Some t -> table_rows data t rows -> footer_ledger_ok tables ->
  (rows = [encode_footer tables fingerprints] -> Q tt) ->
  owp (validate_footer data tables fingerprints) Q.
Proof.
  intros Hb Hl Ht Hrows Hok HQ. pose proof Hrows as [Hc _ _ _]. unfold validate_footer.
  step. apply (owp_required_table _ _ t); [done|]. step. step. apply negb_false_iff, Z.eqb_eq in H.
  destruct rows as [|row [|? ?]]; cbn [length] in Hc; try lia.
  step. apply (owp_Table_row _ _ [row]); [done|done|lia|]. intros row' [= <-].
  destruct (table_row_bytes data t [row] row Hb Hl Hrows ltac:(by left)) as [Hrb Hrl].
  apply owp_with_reader, wp_footer_row; [done|done|done|]. intros _ ->. by apply HQ.
Qed.

Lemma reads_fingerprint x : is_fingerprint x -> reads read_fingerprint x x.
Proof.
  intros (schema & digest & -> & Hs & Hd). unfold read_fingerprint.
  eapply reads_bind; [apply reads_u32; ulia|]. rewrite <- (app_nil_l digest) at 1.
  eapply reads_bind; [apply reads_ensure_not; apply Z.eqb_neq; lia|]. rewrite <- (app_nil_r digest) at 1.
  eapply reads_bind; [by apply reads_take|]. apply reads_ret.
Qed.

Lemma reads_footer_line tables kind :
  footer_ledger_ok tables -> 1 <= kind <= 13 -> reads (footer_line tables kind tt) (ledger_line tables kind) tt.
Proof.
  intros Hok Hk. destruct (Hok kind Hk) as (t & Ht & Hc & Hd). unfold footer_line, ledger_line. rewrite Ht.
  eapply reads_bind; [apply reads_u16; ulia|]. rewrite <- (app_nil_l (to_le_bytes 8 _ ++ _)).
  eapply reads_bind; [apply reads_ensure_not; by rewrite Z.eqb_refl|].
  eapply reads_bind; [by apply reads_u64|]. rewrite <- (app_nil_r (t_digest t)) at 1.
  eapply reads_bind; [by apply reads_take|]. rewrite <- (app_nil_l []).
  eapply reads_bind; [apply reads_lift; unfold array_from_slice; by rewrite Hd|]. rewrite <- (app_nil_l []).
  eapply reads_bind; [apply reads_lift; unfold required_table; by rewrite Ht|].
  apply reads_ensure_not. by rewrite Z.eqb_refl, bytes_eqb_refl.
Qed.

(** C22: A footer row is accepted exactly when it is the ledger: the fingerprints
    of the view, the number of sections, and for each of them its kind, its row
    count and its digest, as the directory has them. *)
Theorem footer_is_exactly_the_ledger tables fingerprints row :
  footer_ledger_ok tables -> Forall is_fingerprint fingerprints -> is_bytes row -> len row <= USIZE_MAX ->
  with_reader (Reader_new row) (footer_row tables fingerprints) <> Panic /\
  (with_reader (Reader_new row) (footer_row tables fingerprints) = Ok tt <->
   row = encode_footer tables fingerprints).
Proof.
  intros Hok Hf Hb Hl.
  assert (owp (with_reader (Reader_new row) (footer_row tables fingerprints))
            (fun _ => row = encode_footer tables fingerprints)) as H.
  { apply owp_with_reader, wp_footer_row; [done..|]. done. }
  split; [by eapply owp_no_panic|]. split; [intros E; exact (owp_Ok _ _ _ H E)|].
  intros ->. apply reads_to_end_row; [|done]. unfold footer_row, encode_footer.
  eapply reads_to_end_bind.
  { rewrite <- (map_id fingerprints) at 2. apply (reads_for_each _ (fun x => x)). intros y Hy.
    unfold footer_fingerprint. rewrite <- (app_nil_r y) at 1. rewrite List.Forall_forall in Hf.
    eapply reads_bind; [by apply reads_fingerprint, Hf|]. apply reads_ensure_not. by rewrite bytes_eqb_refl. }
  eapply reads_to_end_bind; [apply reads_u16; ulia|]. rewrite <- (app_nil_l (concat_range _ _ _)).
  eapply reads_to_end_bind; [by apply reads_ensure_not|]. rewrite <- (app_nil_r (concat_range _ _ _)).
  eapply reads_to_end_bind; [|apply reads_to_end_finish].
  apply reads_for_range. intros i Hi. apply reads_footer_line; [done|lia].
Qed.
