(* ===== verification/WireColumnsSound.v ===== *)
(** * Encoded columns: the buffers of an accepted row tile it

    An accepted column row is the fixed prefix followed by eleven aligned
    buffers with zero padding between them and nothing after them; the checks
    on the shapes of the columns never panic. *)

From S2P Require Import Prelude Bytes Lexical Error Machine Limits Reader Wire WireTable WireFraming WireRows WireRefs WireColumns WireRowsSound.

(** ** Alignment *)

Definition align_up (value : Z) : Z := value + 7 - (value + 7) mod 8.

Lemma align_down_mod x : is_u64 x -> align_down x = x - x mod 8.
Proof.
  intros Hx. unfold align_down. change (USIZE_MAX - 7) with (Z.shiftl (Z.ones 61) 3).
  assert (Z.land x (Z.shiftl (Z.ones 61) 3) = Z.shiftl (Z.land (Z.shiftr x 3) (Z.ones 61)) 3) as ->.
  { apply Z.bits_inj'. intros n Hn. rewrite Z.land_spec. destruct (Z.lt_ge_cases n 3).
    - rewrite !Z.shiftl_spec_low by lia. apply andb_false_r.
    - rewrite !Z.shiftl_spec by lia. rewrite Z.land_spec, Z.shiftr_spec by lia. f_equal. f_equal. lia. }
  rewrite Z.land_ones, Z.shiftr_div_pow2, Z.shiftl_mul_pow2 by lia. change (2 ^ 3) with 8.
  rewrite Z.mod_small; [|change (2 ^ 61) with 2305843009213693952; unfold_ranges; Z.div_mod_to_equations; lia].
  Z.div_mod_to_equations. lia.
Qed.

Lemma align_up_bounds value : value <= align_up value <= value + 7 /\ align_up value mod 8 = 0.
Proof. unfold align_up. Z.div_mod_to_equations. lia. Qed.

(** ** Tiling *)

(** From [cursor] on, the row is the buffers, each at the next multiple of 8
    with zeros before it. *)
Fixpoint buffers_tile (row : bytes) (cursor : Z) (buffers : list bytes) (stop : Z) : Prop :=
  match buffers with
  | [] => cursor = stop
  | buffer :: buffers =>
      (forall i, cursor <= i < align_up cursor -> get_at row i = Some 0) /\
      get_range row (align_up cursor) (align_up cursor + len buffer) = Some buffer /\
      buffers_tile row (align_up cursor + len buffer) buffers stop
  end.

Lemma buffers_tile_snoc row cursor bs stop buffer :
  buffers_tile row cursor bs stop ->
  (forall i, stop <= i < align_up stop -> get_at row i = Some 0) ->
  get_range row (align_up stop) (align_up stop + len buffer) = Some buffer ->
  buffers_tile row cursor (bs ++ [buffer]) (align_up stop + len buffer).
Proof.
  revert cursor. induction bs as [|b bs IH]; intros cursor; cbn [buffers_tile app].
  - by intros -> Hz Hb.
  - intros (H1 & H2 & H3) Hz Hb. by auto.
Qed.

Lemma buffers_tile_fits row cursor bs stop :
  0 <= cursor -> buffers_tile row cursor bs stop -> stop <= len row ->
  Forall (fun b => len b <= len row - cursor) bs.
Proof.
  revert cursor. induction bs as [|b bs IH]; intros cursor Hc Ht Hs; [constructor|].
  destruct Ht as (_ & Hb & Ht). pose proof (align_up_bounds cursor) as [Ha _].
  pose proof (get_range_length _ _ _ _ Hb) as (_ & _ & Hend). constructor; [lia|].
  apply IH in Ht; [|lia|done]. eapply Forall_impl; [exact Ht|]. cbn. lia.
Qed.

Lemma owp_buffer_step row index width l seen :
  is_bytes row -> len row <= USIZE_MAX -> 0 <= index < 11 -> 0 <= b_cursor l <= len row ->
  buffers l = seen -> buffers_tile row PREFIX_BYTES seen (b_cursor l) ->
  owp (buffer_step row (index, width) l)
    (fun l' => b_cursor l <= b_cursor l' <= len row /\ len (buffers l') = len seen + 1 /\
               buffers_tile row PREFIX_BYTES (buffers l') (b_cursor l')).
Proof.
  intros Hb Hl Hi Hc <- Ht. unfold buffer_step, COLUMN_DIRECTORY_BYTES, COLUMN_HEADER_BYTES.
  step. apply owp_usize_mul; [ulia|]. step. apply owp_usize_add; [ulia|].
  step. apply owp_u64_at; [done|done|lia|]. intros offset _ [Ho _]. step. apply owp_usize_from_u64. intros _.
  step. apply owp_usize_add; [ulia|]. step. apply owp_u64_at; [done|done|lia|]. intros n _ [Hn _].
  step. apply owp_usize_from_u64. intros _.
  step. step. rename H into Halign. apply fmap_Some in Halign as (c & Hadd & ->).
  apply checked_add_Some in Hadd as [-> Hmax].
  rewrite align_down_mod by ulia. fold (align_up (b_cursor l)).
  step. step. apply checked_add_Some in H as [-> _]. step. step.
  repeat (apply orb_false_iff in H as [H ?]). apply negb_false_iff, Z.eqb_eq in H. subst offset.
  apply Z.ltb_ge in H2. destruct (get_range row (b_cursor l) (align_up (b_cursor l))) as [padding|] eqn:Hpad; [|done].
  apply negb_false_iff in H0. step. step. rename a into buffer, H into Hbuf. step. step. step.
  pose proof (get_range_length _ _ _ _ Hbuf) as (Hlen & _ & _). cbn [buffers b_cursor].
  pose proof (align_up_bounds (b_cursor l)) as [Ha _].
  split; [lia|]. split; [rewrite length_app; cbn; lia|].
  replace (align_up (b_cursor l) + n) with (align_up (b_cursor l) + len buffer) by lia.
  apply buffers_tile_snoc; [done| |by replace (align_up (b_cursor l) + len buffer) with (align_up (b_cursor l) + n) by lia].
  intros i Hi'. by apply (all_zero_at row (b_cursor l) (align_up (b_cursor l)) padding).
Qed.

Lemma owp_read_buffers row limits (Q : list bytes -> Prop) :
  is_bytes row -> PREFIX_BYTES <= len row <= USIZE_MAX ->
  (forall bs, len bs = 11 -> buffers_tile row PREFIX_BYTES bs (len row) -> Q bs) ->
  owp (read_buffers row limits) Q.
Proof.
  intros Hb Hl HQ. unfold read_buffers. step. eapply owp_mono.
  2:{ apply (owp_for_each _ (fun rest l => exists k, (k <= 11)%nat /\ rest = drop k enumerated_widths /\
        len (buffers l) = Z.of_nat k /\ PREFIX_BYTES <= b_cursor l <= len row /\
        buffers_tile row PREFIX_BYTES (buffers l) (b_cursor l))).
      - exists 0%nat. splits; [lia|done|done|done|cbn; lia|done].
      - intros [index width] rest l (k & Hk & Hrest & Hlen & Hc & Ht).
        assert (enumerated_widths !! k = Some (index, width)) as Hkth.
        { rewrite <- (Nat.add_0_r k), <- lookup_drop, <- Hrest. done. }
        assert (index = Z.of_nat k /\ (k < 11)%nat) as [-> Hk11].
        { do 11 (destruct k as [|k]; [by injection Hkth as <- _; split; [done|lia]|]). done. }
        eapply owp_mono; [|apply (owp_buffer_step row (Z.of_nat k) width l (buffers l)); try done; [lia|lia|]].
        2:{ unfold PREFIX_BYTES, COLUMN_HEADER_BYTES, BUFFER_COUNT, COLUMN_DIRECTORY_BYTES in Hc. lia. }
        cbn beta. intros l' (Hc' & Hlen' & Ht'). exists (S k). splits; [lia| |lia|lia|lia|done].
        rewrite <- Nat.add_1_r, <- drop_drop, <- Hrest. done. }
  cbn beta. intros l (k & Hk & Hrest & Hlen & Hc & Ht). step. step. apply negb_false_iff, Z.eqb_eq in H.
  step. step. step. apply HQ; [|by rewrite <- H].
  assert (k = 11)%nat; [|lia]. apply Nat.le_antisymm; [done|].
  apply Nat.nlt_ge. intros Hlt. assert (length (drop k enumerated_widths) = 0)%nat as E by (by rewrite <- Hrest).
  rewrite length_drop in E. change (length enumerated_widths) with 11%nat in E. lia.
Qed.

(** ** Shapes *)

Lemma owp_leaf kind value length_ node_count scalars cursor (Q : Z -> Prop) :
  (forall c, 0 <= value -> 0 <= length_ -> 0 <= cursor -> 0 <= c -> Q c) ->
  0 <= value -> 0 <= length_ -> 0 <= cursor ->
  owp (validate_encoded_leaf kind value length_ node_count scalars cursor) Q.
Proof.
  intros HQ Hv Hl Hc. unfold validate_encoded_leaf.
  step; [step; [by apply HQ|done]|]. step; [step; [by apply HQ|done]|]. step; [|done].
  step. apply owp_usize_from_u64. intros _. step. apply owp_usize_from_u64. intros _.
  step. step. apply checked_add_Some in H as [-> _]. step. step. step. step. step. apply HQ; [done..|lia].
Qed.

Section Shapes.
Context (bs : list bytes) (Hsmall : Forall (fun b => is_bytes b /\ len b < USIZE_MAX) bs).

Lemma buffer_small i : is_bytes (buffer bs i) /\ len (buffer bs i) < USIZE_MAX.
Proof.
  unfold buffer. destruct (nth_in_or_default i bs []) as [Hin| ->].
  - rewrite List.Forall_forall in Hsmall. by apply Hsmall.
  - split; [constructor|cbn; ulia].
Qed.

Lemma buffer_bytes i : is_bytes (buffer bs i).
Proof. apply buffer_small. Qed.
Lemma buffer_length i : len (buffer bs i) <= USIZE_MAX.
Proof. pose proof (buffer_small i). lia. Qed.

Lemma owp_buffer_u64 i index (Q : Z -> Prop) :
  0 <= index -> (forall v, is_u64 v -> Q v) -> owp (u64_at (buffer bs i) index) Q.
Proof. intros Hi HQ. apply owp_u64_at; [apply buffer_bytes|apply buffer_length|done|auto]. Qed.

Context (roots nodes fields items : Z).
Context (Hlens : column_lengths_disagree bs roots nodes fields items = false).

Lemma saturated i n k : len (buffer bs i) = saturating_mul USIZE_MAX n k -> n * k = len (buffer bs i).
Proof. pose proof (buffer_small i) as [_ H]. unfold saturating_mul. lia. Qed.

Lemma column_lengths :
  roots * 4 = len (buffer bs 1) /\ (nodes + 1) * 8 = len (buffer bs 3) /\
  fields * 8 = len (buffer bs 5) /\ fields * 8 = len (buffer bs 6) /\
  items * 8 = len (buffer bs 8) /\ items * 8 = len (buffer bs 9).
Proof.
  unfold column_lengths_disagree in Hlens. repeat (apply orb_false_iff in Hlens as [Hlens ?]).
  repeat match goal with H : negb _ = false |- _ => apply negb_false_iff, Z.eqb_eq in H end.
  pose proof (buffer_small 3) as [_ Hb3].
  assert (len (buffer bs 3) = saturating_mul USIZE_MAX (nodes + 1) 8) by (unfold saturating_mul, saturating_add in *; ulia).
  splits; by apply saturated.
Qed.

Lemma owp_root_step index u :
  0 <= index < roots -> roots = len (buffer bs 0) -> owp (root_step bs nodes index u) (fun _ => True).
Proof.
  intros Hi Hr. pose proof column_lengths as (H1 & _). pose proof (buffer_length 1).
  unfold root_step. step. apply owp_index_at; [lia|]. intros kind _. step. step.
  step. apply owp_usize_mul; [lia|]. step.
  apply owp_u32_at; [apply buffer_bytes|done|lia|]. intros node _ _. by step.
Qed.

Lemma owp_item_step index cursor :
  0 <= index < items -> items = len (buffer bs 7) -> 0 <= cursor ->
  owp (item_step bs nodes index cursor) (fun c => 0 <= c).
Proof.
  intros Hi Hr Hc. pose proof column_lengths as (_ & _ & _ & _ & H8 & _). pose proof (buffer_length 8).
  unfold item_step. step. apply owp_index_at; [lia|]. intros kind _.
  step. apply owp_usize_mul; [lia|]. step. apply owp_buffer_u64; [lia|]. intros v [Hv _].
  step. apply owp_buffer_u64; [lia|]. intros n [Hn _]. by apply owp_leaf.
Qed.

Lemma owp_column_field_step index cursors :
  0 <= index < fields -> fields = len (buffer bs 4) -> items = len (buffer bs 7) ->
  0 <= fst cursors -> 0 <= snd cursors ->
  owp (column_field_step bs nodes items index cursors) (fun c => 0 <= fst c /\ 0 <= snd c).
Proof.
  intros Hi Hf Hit Hc1 Hc2. destruct cursors as [item scalar]. cbn [fst snd] in *.
  pose proof column_lengths as (_ & _ & H5 & _). pose proof (buffer_length 5).
  unfold column_field_step. step. apply owp_index_at; [lia|]. intros kind _.
  step. apply owp_usize_mul; [lia|]. step. apply owp_buffer_u64; [lia|]. intros v [Hv _].
  step. apply owp_buffer_u64; [lia|]. intros n [Hn _]. step.
  - step. apply owp_usize_from_u64. intros _. step. apply owp_usize_from_u64. intros _.
    step. apply owp_ok_or. intros stop [-> _]%checked_add_Some.
    step. apply owp_fail_if. intros [_ Hstop%Z.ltb_ge]%orb_false_iff. step. eapply owp_mono.
    2:{ apply (owp_for_range _ (fun _ c => 0 <= c)); [done|].
        intros i c Hi' Hc. apply owp_item_step; [lia|done|done]. }
    cbn beta. intros c Hc. step. cbn. lia.
  - step. apply owp_leaf; [|done..]. intros c _ _ _ Hc. step. cbn. lia.
Qed.
End Shapes.

Lemma owp_validate_encoded_column_shapes bs limits (Q : unit -> Prop) :
  Forall (fun b => is_bytes b /\ len b < USIZE_MAX) bs -> Q tt ->
  owp (validate_encoded_column_shapes bs limits) Q.
Proof.
  intros Hsmall HQ. unfold validate_encoded_column_shapes. step. step. rename H into Hlens.
  pose proof (column_lengths bs Hsmall _ _ _ _ Hlens) as (H1 & H3 & _).
  pose proof (buffer_length bs Hsmall 3) as Hl3.
  step. step. step. step. step. apply owp_buffer_u64; [done|lia|]. intros first _.
  assert (forall P : bool -> Prop, (forall b, P b) ->
    owp (if negb (first =? 0) then mret true else
           at_last ← usize_mul (len (buffer bs 2) / 2) 8; last_ ← u64_at (buffer bs 3) at_last;
           mret (negb (last_ =? len (buffer bs 4)))) P) as Hlast.
  { intros P HP. step; [step; apply HP|]. step. apply owp_usize_mul; [lia|].
    step. apply owp_buffer_u64; [done|Z.div_mod_to_equations; lia|]. intros last_ _. step. apply HP. }
  step. apply Hlast. intros invalid. step. step.
  step. eapply owp_mono.
  2:{ apply (owp_for_range _ (fun _ _ => True)); [done|]. intros i previous Hi _. unfold field_offset_step.
      step. apply owp_usize_mul; [Z.div_mod_to_equations; lia|]. step. apply owp_buffer_u64; [done|lia|]. intros c _.
      step. step. done. }
  cbn beta. intros _ _. step. eapply owp_mono.
  2:{ apply (owp_for_range _ (fun _ _ => True)); [done|]. intros i u Hi _.
      eapply owp_root_step; [done|exact Hlens|lia|done]. }
  cbn beta. intros _ _. step. eapply owp_mono.
  2:{ apply (owp_for_range _ (fun _ c => 0 <= fst c /\ 0 <= snd c)); [done|]. intros i c Hi [Hc1 Hc2].
      eapply owp_column_field_step; [done|exact Hlens|lia|done|done|done|done]. }
  cbn beta. intros [item scalar] _. step. exact HQ.
Qed.

(** ** The row *)

(** The prefix of a column row, and the buffers that tile it. *)
Definition columns_row_ok (row : bytes) : Prop :=
  get_range row 0 8 = Some ENCODED_STRUCTURAL_V2_MAGIC /\
  get_range row 16 48 = Some ENCODED_STRUCTURAL_V2_DESCRIPTOR_SHA256 /\
  exists bs, len bs = 11 /\ buffers_tile row PREFIX_BYTES bs (len row).

Lemma owp_descriptor_invalid row (Q : bool -> Prop) :
  is_bytes row -> len row <= USIZE_MAX ->
  (forall b, (b = false -> PREFIX_BYTES <= len row /\ get_range row 0 8 = Some ENCODED_STRUCTURAL_V2_MAGIC /\
       get_range row 16 48 = Some ENCODED_STRUCTURAL_V2_DESCRIPTOR_SHA256) -> Q b) ->
  owp (descriptor_invalid row) Q.
Proof.
  intros Hb Hl HQ. unfold descriptor_invalid.
  step; [step; by apply HQ|]. step; [step; by apply HQ|]. bool_to_prop.
  step. apply owp_u16_at; [done|done|lia|]. intros major _ _. step; [step; by apply HQ|].
  step. apply owp_u16_at; [done|done|lia|]. intros schema _ _. step; [step; by apply HQ|].
  step. apply owp_u32_at; [done|done|lia|]. intros count _ _. step; [step; by apply HQ|].
  step. apply HQ. intros Hd. apply negb_false_iff, bool_decide_eq_true in Hd.
  apply bool_decide_eq_true in Heqb0. done.
Qed.

Lemma buffers_tile_bytes row cursor bs stop :
  is_bytes row -> buffers_tile row cursor bs stop -> Forall is_bytes bs.
Proof.
  intros Hb. revert cursor. induction bs as [|b bs IH]; intros cursor Ht; [constructor|].
  destruct Ht as (_ & Hr & Ht). constructor; [by eapply is_bytes_range|by eapply IH].
Qed.

Lemma owp_validate_encoded_structural data tables limits (Q : unit -> Prop) :
  is_bytes data -> len data <= USIZE_MAX ->
  (forall t, find_table tables ENCODED_STRUCTURAL_V2_KIND = Some t -> exists rows, table_rows data t rows) ->
  ((forall t, find_table tables ENCODED_STRUCTURAL_V2_KIND = Some t ->
      exists row, table_rows data t [row] /\ columns_row_ok row) -> Q tt) ->
  owp (validate_encoded_structural data tables limits) Q.
Proof.
  intros Hb Hl Hfound HQ. unfold validate_encoded_structural.
  destruct (find_table tables ENCODED_STRUCTURAL_V2_KIND) as [t|] eqn:E; [|step; by apply HQ].
  destruct (Hfound t eq_refl) as [rows Hrows]. pose proof Hrows as [Hc _ _ _].
  step. step. apply negb_false_iff, Z.eqb_eq in H.
  destruct rows as [|row [|? ?]]; cbn [length] in Hc; try lia.
  step. apply (owp_Table_row _ _ [row]); [done|done|lia|]. intros row' [= <-].
  destruct (table_row_bytes data t [row] row Hb Hl Hrows ltac:(by left)) as [Hrb Hrl].
  step. apply owp_descriptor_invalid; [done|done|]. intros invalid Hinv. step. step. subst invalid.
  destruct (Hinv eq_refl) as (Hlen & Hmagic & Hdesc).
  step. apply owp_read_buffers; [done|done|]. intros bs Hn Ht.
  apply owp_validate_encoded_column_shapes.
  - pose proof (buffers_tile_bytes _ _ _ _ Hrb Ht) as Hbb.
    assert (Forall (fun b => len b <= len row - PREFIX_BYTES) bs) as Hfit by (by eapply buffers_tile_fits).
    rewrite Forall_forall in *. intros b Hin. split; [by apply Hbb|]. specialize (Hfit b Hin).
    change PREFIX_BYTES with 256 in Hfit. cbn beta in Hfit. lia.
  - apply HQ. intros t' [= <-]. exists row. split; [done|]. split; [done|]. split; [done|]. by exists bs.
Qed.
