(* ===== verification/WireFile.v ===== *)
(** * Whole files: what [validate] accepts, and when it panics

    The specification of an accepted PYOCORE file puts the framing and the row
    specifications together; [validate] accepts nothing else, and the only way
    to make it panic is a row offset next to 2^64. *)

From S2P Require Import Prelude Bytes Hash Error Machine Limits Cancel Reader Varint Schema Lexical Component ScanComplete Wire WireTable WireFraming WireRows WireRefs WireColumns WireValidate WireRowsSound WireFooter WireColumnsSound.

(** ** The tables of a directory *)

(** The section of [kind] is the table of [rows]. *)
Definition table_at (data : bytes) (tables : list Table) (kind : Z) (rows : list bytes) : Prop :=
  exists t, find_table tables kind = Some t /\ table_rows data t rows.

Lemma find_table_of data es tables kind t :
  tables_of data es tables -> find_table tables kind = Some t ->
  exists e, In e es /\ e_kind e = kind /\ has_table kind = true /\ table_of e t /\ exists rows, table_rows data t rows.
Proof.
  unfold tables_of. intros H Ht. apply find_some in Ht as [Hin Hk%Z.eqb_eq].
  apply list_elem_of_In, list_elem_of_lookup in Hin as [i Hi].
  destruct (Forall2_lookup_r _ _ _ _ _ H Hi) as (e & He & Hof & Hrows). exists e.
  apply list_elem_of_lookup_2, list_elem_of_In, filter_In in He as [He Htab].
  pose proof Hof as [E _]. rewrite <- Hk, E. done.
Qed.

Lemma table_found data es tables kind e :
  tables_of data es tables -> In e es -> e_kind e = kind -> has_table kind = true ->
  exists t rows, find_table tables kind = Some t /\ table_rows data t rows.
Proof.
  intros H He <- Htab. destruct (find_table tables (e_kind e)) as [t|] eqn:E.
  - destruct (find_table_of _ _ _ _ _ H E) as (_ & _ & _ & _ & _ & rows & Hrows). by exists t, rows.
  - exfalso. pose proof H as H'. unfold tables_of in H'.
    assert (In e (List.filter (fun e => has_table (e_kind e)) es)) as Hin by (by apply filter_In).
    apply list_elem_of_In, list_elem_of_lookup in Hin as [i Hi].
    destruct (Forall2_lookup_l _ _ _ _ _ H' Hi) as (t & Ht & [Hk _] & _).
    assert (In t tables) as Hin by (apply list_elem_of_In; by eapply list_elem_of_lookup_2).
    pose proof (find_none _ _ E t Hin) as Hnone. cbn beta in Hnone. by rewrite Hk, Z.eqb_refl in Hnone.
Qed.

(** What the directory and the sections give the row validators. *)
Record tables_ok (data : bytes) (tables : list Table) : Prop := {
  tables_required : forall kind, required_kind kind = true ->
    exists t rows, find_table tables kind = Some t /\ table_rows data t rows;
  tables_found : forall kind t, find_table tables kind = Some t -> exists rows, table_rows data t rows;
  tables_ledger : footer_ledger_ok tables
}.

Lemma required_in_range kind : 1 <= kind <= 14 -> required_kind kind = true.
Proof. intros. unfold required_kind, in_range. apply andb_true_iff. split; apply Z.leb_le; lia. Qed.

Lemma required_has_table kind : required_kind kind = true -> has_table kind = true.
Proof. unfold has_table. by intros ->. Qed.

Lemma directory_tables_ok data limits h d tables :
  directory_accepted data limits h d -> Forall (section_accepted data) (entries d) ->
  tables_of data (entries d) tables -> tables_ok data tables.
Proof.
  intros [_ _ Hentries _ Hreq _ _] Hsec Htab. constructor.
  - intros kind Hk. destruct (Hreq kind Hk) as (e & He & Hke).
    apply (table_found data (entries d) tables kind e); try done. by apply required_has_table.
  - intros kind t Ht. destruct (find_table_of _ _ _ _ _ Htab Ht) as (_ & _ & _ & _ & _ & Hrows). done.
  - intros kind Hk. pose proof (required_in_range kind ltac:(lia)) as Hkind.
    destruct (Hreq kind Hkind) as (e & He & Hke).
    destruct (table_found data (entries d) tables kind e Htab He Hke (required_has_table _ Hkind))
      as (t & rows & Ht & _).
    exists t. split; [done|]. destruct (find_table_of _ _ _ _ _ Htab Ht) as (e' & He' & _ & _ & Hof & _).
    destruct Hof as (_ & -> & -> & _). rewrite List.Forall_forall in Hentries, Hsec.
    destruct (Hentries e' He') as [(_ & _ & Hr) _ _ _ _ _ _ _ _ _ _]. split; [done|].
    destruct (Hsec e' He') as (section & _ & -> & _). by rewrite length_sha256_spec.
Qed.

(** ** The rows of an accepted file *)

(** The section of [kind] is a table of rows with the property [P]. *)
Definition section_has (data : bytes) (tables : list Table) (kind : Z) (P : list bytes -> Prop) : Prop :=
  exists t rows, find_table tables kind = Some t /\ table_rows data t rows /\ P rows.

(** So it is, if the section is there. *)
Definition optional_section_has (data : bytes) (tables : list Table) (kind : Z) (P : list bytes -> Prop) : Prop :=
  forall t, find_table tables kind = Some t -> exists rows, table_rows data t rows /\ P rows.

(** The required model sections and the category of their rows. *)
Definition model_sections : list (Z * Category) :=
  [(2, CIri); (3, CEntity); (4, CLiteral); (5, CAnonymous); (7, CAnnotation); (8, CTerm); (9, CAxiom)].

(** The rows that refer to each other: documents, imports, view, origins, footer. *)
Definition records_accepted (data : bytes) (tables : list Table) (limits : Limits) : Prop :=
  exists st ia an ax strings docs v,
    (find_table tables 1 = Some st /\ table_rows data st strings) /\
    (find_table tables 2 = Some ia /\ find_table tables 7 = Some an /\ find_table tables 9 = Some ax) /\
    section_has data tables 10 (fun rows => exists records,
      documents_accepted data {| dt_strings := st; dt_iris := ia; dt_annotations := an; dt_axioms := ax;
                                 dt_extensions := extension_count tables |} limits strings rows docs records) /\
    section_has data tables 11 (fun rows => exists row, rows = [row] /\
      imports_row_ok (key_ids docs) strings (t_count ia) limits row) /\
    section_has data tables 12 (fun rows => rows = [encode_view v] /\
      view_ok docs (t_count an) (t_count ax) (extension_count tables) v) /\
    section_has data tables 13 (fun rows => exists l, origins_invariant strings limits rows l) /\
    section_has data tables 14 (fun rows => rows = [encode_footer tables [v_first v; v_second v; v_third v]]).

Record semantics_accepted (data : bytes) (tables : list Table) (flags : Z) (limits : Limits) : Prop := {
  accepted_swrl : is_some (find_table tables SWRL_KIND) = negb (Z.land flags FEATURE_SWRL =? 0);
  accepted_strings :
    section_has data tables 1 (fun rows => Forall (fun row => is_utf8 row = true) rows /\ len rows <= max_strings limits);
  accepted_models : forall kind category, In (kind, category) model_sections ->
    section_has data tables kind (Forall (model_row_ok limits category));
  accepted_rules : optional_section_has data tables SWRL_KIND (Forall (model_row_ok limits CSwrl));
  accepted_sequences : section_has data tables 6 (Forall (sequence_row_ok limits));
  accepted_records : records_accepted data tables limits;
  accepted_columns : optional_section_has data tables ENCODED_STRUCTURAL_V2_KIND
    (fun rows => exists row, rows = [row] /\ columns_row_ok row);
  accepted_provenance : optional_section_has data tables VIEW_PROVENANCE_KIND
    (fun rows => exists row, rows = [row] /\ provenance_row_ok limits row)
}.

Section Semantics.
Context (data : bytes) (tables : list Table) (limits : Limits).
Context (Hb : is_bytes data) (Hl : len data <= USIZE_MAX) (Hlim : limits_ok limits).
Context (Htab : tables_ok data tables).

Lemma wp_required_model kind category (Q : unit -> WireState -> Prop) s :
  ws_ok s -> required_kind kind = true ->
  (forall s', ws_ok s' -> section_has data tables kind (Forall (model_row_ok limits category)) -> Q tt s') ->
  wp (required_model data tables limits kind category) Q s.
Proof.
  intros Hs Hk HQ. destruct (tables_required _ _ Htab kind Hk) as (t & rows & Ht & Hrows).
  unfold required_model. step. step. apply (owp_required_table _ _ t); [done|].
  apply (wp_validate_model_table data t rows category limits); [done..|]. intros s' Hs' Hok. apply HQ; [done|].
  by exists t, rows.
Qed.

Lemma wp_validate_models swrl (Q : unit -> WireState -> Prop) s :
  ws_ok s -> swrl = find_table tables SWRL_KIND ->
  (forall s', ws_ok s' ->
     (forall kind category, In (kind, category) model_sections ->
        section_has data tables kind (Forall (model_row_ok limits category))) ->
     section_has data tables 6 (Forall (sequence_row_ok limits)) ->
     optional_section_has data tables SWRL_KIND (Forall (model_row_ok limits CSwrl)) -> Q tt s') ->
  wp (validate_models data tables limits swrl) Q s.
Proof.
  intros Hs -> HQ. unfold validate_models.
  step. apply wp_required_model; [done|done|]. intros s2 Hs2 H2.
  step. apply wp_required_model; [done|done|]. intros s3 Hs3 H3.
  step. apply wp_required_model; [done|done|]. intros s4 Hs4 H4.
  step. apply wp_required_model; [done|done|]. intros s5 Hs5 H5.
  destruct (tables_required _ _ Htab 6 eq_refl) as (t6 & rows6 & Ht6 & Hrows6).
  step. step. step. apply (owp_required_table _ _ t6); [done|].
  apply (wp_validate_sequences data t6 rows6 limits); [done..|]. intros s6 Hs6 H6.
  step. apply wp_required_model; [done|done|]. intros s7 Hs7 H7.
  step. apply wp_required_model; [done|done|]. intros s8 Hs8 H8.
  step. apply wp_required_model; [done|done|]. intros s9 Hs9 H9.
  assert (forall kind category, In (kind, category) model_sections ->
            section_has data tables kind (Forall (model_row_ok limits category))) as Hmodels.
  { intros kind category Hin. cbn in Hin.
    repeat (destruct Hin as [Hin|Hin]; [injection Hin as <- <-; assumption|]). done. }
  assert (section_has data tables 6 (Forall (sequence_row_ok limits))) as Hseq by (by exists t6, rows6).
  destruct (find_table tables SWRL_KIND) as [t|] eqn:E.
  - destruct (tables_found _ _ Htab _ t E) as [rows Hrows].
    apply (wp_validate_model_table data t rows CSwrl limits); [done..|]. intros s' Hs' Hok.
    apply HQ; [done..|]. intros t' Ht'. rewrite E in Ht'. injection Ht' as <-. by exists rows.
  - step. apply HQ; [done..|]. intros t' Ht'. congruence.
Qed.

Lemma owp_check_counts flags (Q : option Table * Table -> Prop) :
  (forall st strings, find_table tables 1 = Some st -> table_rows data st strings ->
     is_some (find_table tables SWRL_KIND) = negb (Z.land flags FEATURE_SWRL =? 0) ->
     len strings <= max_strings limits -> Q (find_table tables SWRL_KIND, st)) ->
  owp (check_counts tables flags limits) Q.
Proof.
  intros HQ. unfold check_counts.
  destruct (tables_required _ _ Htab 1 eq_refl) as (st & strings & Hst & Hstrings).
  destruct (tables_required _ _ Htab 7 eq_refl) as (an & ? & Han & _).
  destruct (tables_required _ _ Htab 9 eq_refl) as (ax & ? & Hax & _).
  step. step. apply negb_false_iff, Bool.eqb_prop in H.
  step. apply (owp_required_table _ _ st); [done|]. step. apply (owp_required_table _ _ an); [done|].
  step. apply (owp_required_table _ _ ax); [done|]. step. step. apply Z.ltb_ge in H0. step. step. step. step. step.
  apply (HQ st strings); try done. destruct Hstrings as [Hc _ _ _]. lia.
Qed.

Lemma wp_validate_semantics flags (Q : unit -> WireState -> Prop) s :
  ws_ok s -> (forall s', ws_ok s' -> semantics_accepted data tables flags limits -> Q tt s') ->
  wp (validate_semantics data tables flags limits) Q s.
Proof.
  intros Hs HQ. unfold validate_semantics.
  step. step. apply owp_check_counts. intros st strings Hst Hstrings Hswrl Hcount.
  step. apply (wp_validate_strings data st strings); [done..|]. intros s1 Hs1 Hutf.
  step. apply wp_validate_models; [done|done|]. intros s2 Hs2 Hmodels Hseq Hrules.
  destruct (tables_required _ _ Htab 2 eq_refl) as (ia & ? & Hia & _).
  destruct (tables_required _ _ Htab 7 eq_refl) as (an & ? & Han & _).
  destruct (tables_required _ _ Htab 9 eq_refl) as (ax & ? & Hax & _).
  destruct (tables_required _ _ Htab 10 eq_refl) as (t10 & rows10 & Ht10 & Hr10).
  destruct (tables_required _ _ Htab 11 eq_refl) as (t11 & rows11 & Ht11 & Hr11).
  destruct (tables_required _ _ Htab 12 eq_refl) as (t12 & rows12 & Ht12 & Hr12).
  destruct (tables_required _ _ Htab 13 eq_refl) as (t13 & rows13 & Ht13 & Hr13).
  destruct (tables_required _ _ Htab 14 eq_refl) as (t14 & rows14 & Ht14 & Hr14).
  step. eapply (wp_validate_documents data tables limits t10 rows10 st strings ia an ax); [done..|].
  intros docs records s3 Hs3 Hdocs.
  step. apply (wp_validate_imports data tables docs limits t11 rows11 st strings ia); [done..|].
  intros s4 imports Hs4 E11 Himports.
  step. step. apply (owp_validate_view data tables docs limits t12 rows12 st an ax); [done..|].
  intros v E12 Hview.
  step. step. apply owp_validate_encoded_structural; [done|done|by apply (tables_found data tables Htab)|].
  intros Hcolumns.
  step. apply wp_validate_view_provenance; [done|done|done|by apply (tables_found data tables Htab)|].
  intros s5 Hs5 Hprovenance.
  step. apply (wp_validate_origins data tables limits t13 rows13 st strings); [done..|].
  intros s6 l Hs6 Horigins.
  step. eapply (owp_validate_footer data tables _ t14 rows14); [done..|by apply Htab|]. intros E14.
  apply HQ; [done|]. constructor; [done| |done|done|done| | |].
  - by exists st, strings.
  - exists st, ia, an, ax, strings, docs, v. splits; try done.
    + exists t10, rows10. splits; [done|done|]. by exists records.
    + exists t11, rows11. splits; [done|done|]. by exists imports.
    + by exists t12, rows12.
    + exists t13, rows13. splits; [done|done|]. by exists l.
    + by exists t14, rows14.
  - intros t Ht. destruct (Hcolumns t Ht) as (row & Hrow & Hok). exists [row]. split; [done|]. by exists row.
  - intros t Ht. destruct (Hprovenance t Ht) as (row & Hrow & Hok). exists [row]. split; [done|]. by exists row.
Qed.
End Semantics.

(** ** Accepted files *)

(** The header, the directory, the layout and the sections of a file. *)
Record framing_accepted (data : bytes) (limits : Limits) (h : Header) (d : Directory) : Prop := {
  framing_encoding : get_range data 0 96 = Some (encode_header h);
  framing_range : header_range h;
  framing_header : header_accepted data limits h;
  framing_directory : directory_accepted data limits h d;
  framing_layout : layout_accepted data (96 + 72 * h_section_count h) (entries d);
  framing_sections : Forall (section_accepted data) (entries d);
  framing_digest : verify_file_digest limits = true -> h_file_digest h = sha256_spec (zeroed_file data)
}.

(** A file that [validate] may accept, with the summary it then returns. *)
Definition wire_file (data : bytes) (limits : Limits) (v : Validation) : Prop :=
  exists h d tables,
    framing_accepted data limits h d /\ tables_of data (entries d) tables /\
    semantics_accepted data tables (h_feature_flags h) limits /\
    v = {| minor := h_minor h; feature_flags := h_feature_flags h; total_length := len data;
           file_digest := h_file_digest h; section_count := len (entries d);
           total_rows := sum (map row_count (entries d)) |}.

(** A directory record announces a table with an oversized row offset. *)
Definition oversized_table (data : bytes) : Prop :=
  exists index e, 0 <= index /\ read_entry data index = Ok e /\ overflowing_offset data e.

Lemma wpp_validate_file data limits (Q : Validation -> WireState -> Prop) s :
  is_bytes data -> len data <= USIZE_MAX -> limits_ok limits -> ws_ok s ->
  (forall v s', ws_ok s' -> wire_file data limits v -> Q v s') ->
  wpp (oversized_table data) (validate_file data limits) Q s.
Proof.
  intros Hb Hl Hlim Hs HQ. unfold validate_file.
  apply wpp_bind, wpp_of_wp. step. apply owp_read_header; [done|done|]. intros h Hrange Henc.
  apply wpp_bind, wpp_of_wp. step. apply owp_check_header; [done|done|]. intros Hh.
  pose proof Hh as [_ _ _ _ _ _ Htotal _ _ _ Hfit _]. pose proof (range_count h Hrange) as [Hcount _].
  apply wpp_bind, wpp_of_wp, wp_read_directory; [done|done|done|done|done|]. intros d s1 Hs1 Hd.
  pose proof Hd as [_ Hlen Hentries _ _ [Hrows _] Hrecords].
  assert (Forall entry_ok (entries d)) as Hok by (eapply Forall_impl; [exact Hentries|]; by intros e []).
  apply wpp_bind, wpp_of_wp, wp_check_layout; [done|lia|done|done|]. intros s2 Hs2 Hlayout.
  apply wpp_bind, (wpp_weaken _ (Exists (overflowing_offset data) (entries d))).
  2:{ intros [e [He Hover]]%Exists_exists. rewrite Forall_forall in Hrecords.
      destruct (Hrecords e He) as (index & Hi & Hread). by exists index, e. }
  apply wpp_check_sections; [done..|]. intros tables s3 Hs3 Hsections Htables.
  pose proof (directory_tables_ok data limits h d tables Hd Hsections Htables) as Htab.
  apply (wpp_weaken _ False); [|done].
  apply wpp_bind, wpp_of_wp, wp_check_file_digest; [lia|done|]. intros s4 Hs4 Hdigest.
  apply wpp_bind, wpp_of_wp, wp_validate_semantics; [done..|]. intros s5 Hs5 Hsem.
  apply wpp_bind, wpp_of_wp, wp_guard_check; [done|]. intros s6 Hs6.
  apply wpp_ret, HQ; [done|]. exists h, d, tables. split; [by constructor|]. split; [done|]. split; [done|].
  by rewrite Htotal, Hlen, Hrows.
Qed.

Lemma owp_check_source_size limits size (Q : unit -> Prop) :
  Q tt -> owp (check_source_size limits size) Q.
Proof. intros HQ. unfold check_source_size. by repeat step. Qed.

Lemma wpp_validate data limits c (Q : Validation -> Ctx -> Prop) :
  is_bytes data -> len data <= USIZE_MAX -> limits_ok limits -> guard_ok (guard c) ->
  (forall v c', wire_file data limits v -> Q v c') ->
  wpp (oversized_table data) (validate data limits) Q c.
Proof.
  intros Hb Hl Hlim Hg HQ. unfold validate. apply wpp_bind, wpp_of_wp, wp_check; [done|]. intros w _ _ _.
  apply wpp_bind, wpp_of_wp. step. apply owp_check_source_size.
  apply wpp_bind, wpp_of_wp. step.
  eapply owp_mono; [|apply budget_new_ok; ulia]. cbn beta. intros memory (Hm & _ & _).
  apply wpp_zoom, wpp_validate_file; [done..| |].
  - constructor; cbn [w_ctx w_work w_memory]; [done|ulia|done].
  - intros v s' _ Hv. by apply HQ.
Qed.

(** C1: [validate] accepts nothing but PYOCORE files.  If it returns a summary,
    then the data is an encoded header and directory with the supported
    versions, ordered kinds, all required sections, disjoint aligned ranges,
    zero padding and matching digests; every table is the encoding of strictly
    ascending rows; the model rows are canonical components of their section's
    category; and the documents, imports, view, origins and footer rows refer to
    each other as they must.  The summary is that of the header and directory. *)
Theorem validate_accepts_only_wire_files data limits c v c' :
  is_bytes data -> len data <= USIZE_MAX -> limits_ok limits -> guard_ok (guard c) ->
  validate data limits c = (Ok v, c') -> wire_file data limits v.
Proof.
  intros Hb Hl Hlim Hg E.
  pose proof (wpp_validate data limits c (fun v _ => wire_file data limits v) Hb Hl Hlim Hg ltac:(done)) as H.
  unfold wpp in H. by rewrite E in H.
Qed.

(** C16: [validate] panics on no input but one with an oversized row offset: if
    it panics, a directory record announces a table in which the end of some
    row is within the table's header size of 2^64. *)
Theorem validate_panics_only_on_oversized_row_offsets data limits c :
  is_bytes data -> len data <= USIZE_MAX -> limits_ok limits -> guard_ok (guard c) ->
  fst (validate data limits c) = Panic -> oversized_table data.
Proof.
  intros Hb Hl Hlim Hg E.
  pose proof (wpp_validate data limits c (fun _ _ => True) Hb Hl Hlim Hg ltac:(done)) as H.
  unfold wpp in H. destruct (validate data limits c) as [[v|e|] c']; [done|done|exact H].
Qed.

(** ** Corrupted headers *)

Lemma header_crc_field h x :
  is_u32 (header_crc h) -> len (h_file_digest h) = 32 ->
  get_range (encode_header h) 88 92 = Some x -> header_crc h = from_le_bytes x.
Proof.
  intros Hc Hd Hx. unfold encode_header in Hx. rewrite !app_assoc in Hx. rewrite <- (app_assoc _ (to_le_bytes 4 (header_crc h))) in Hx.
  rewrite get_range_mid in Hx.
  - assert (to_le_bytes 4 (header_crc h) = x) as <- by congruence. rewrite from_to_le; [done|]. change (256 ^ Z.of_nat 4) with (U32_MAX + 1). ulia.
  - rewrite !length_app, !length_to_le_bytes. cbn. lia.
  - rewrite length_to_le_bytes. done.
Qed.

(** The checksum that an accepted header must have, from the bytes alone. *)
Lemma accepted_header_crc data limits v :
  len data <= USIZE_MAX -> wire_file data limits v ->
  exists x, get_range data 88 92 = Some x /\ from_le_bytes x = crc32c (zeroed_header data).
Proof.
  intros Hl (h & d & tables & [Henc Hr [_ _ _ _ _ _ _ _ _ _ _ Hcrc] _ _ _ _] & _).
  pose proof (get_range_length _ _ _ _ Henc) as (H1 & _ & H2).
  destruct (get_range_is_Some data 88 92) as [x Hx]; [lia|lia|]. exists x. split; [done|].
  rewrite <- Hcrc. symmetry. apply header_crc_field; [apply Hr|apply Hr|].
  apply get_range_Some in Henc as (_ & p & q & E & Hp & _). destruct p; [|cbn [length] in Hp; lia].
  cbn [app] in E. rewrite E in Hx. apply get_range_Some in Hx as (_ & p' & q' & E' & Hp' & Hx').
  apply get_range_Some. split; [done|]. exists p', (take (96 - 92) q').
  splits; [|done|done]. apply (f_equal (take 96)) in E'. rewrite take_app_le, take_ge in E' by lia.
  rewrite E', !take_app. rewrite (take_ge p') by lia. f_equal. rewrite (take_ge x) by lia. f_equal. f_equal. lia.
Qed.

(** Changing bytes of the header fields changes neither the stored checksum nor
    the shape of the header the checksum is computed over. *)
Lemma zeroed_header_splice p u q n :
  length u = n -> len p + Z.of_nat n <= 56 ->
  zeroed_header (p ++ u ++ q) =
  p ++ u ++ (take (56 - length p - n) q ++ replicate 36 0 ++ take 4 (drop (92 - length p - n) q)).
Proof.
  intros <- Hfit. unfold zeroed_header. rewrite !take_app, !drop_app.
  rewrite (take_ge p), (take_ge u), (drop_ge p), (drop_ge u) by lia. by rewrite <- !app_assoc.
Qed.

Lemma header_crc_splice (p u q : bytes) n :
  length u = n -> len p + Z.of_nat n <= 56 ->
  get_range (p ++ u ++ q) 88 92 = get_range q (88 - len p - Z.of_nat n) (92 - len p - Z.of_nat n).
Proof.
  intros <- Hfit. unfold get_range. rewrite !length_app.
  replace (88 <=? 92) with true by done. replace (0 <=? 88) with true by done.
  rewrite (proj2 (Z.leb_le 0 (88 - _ - _))) by lia. rewrite (proj2 (Z.leb_le (88 - _ - _) _)) by lia.
  cbn [andb]. replace (92 - len p - len u <=? len q) with (92 <=? Z.of_nat (length p + (length u + length q))).
  - rewrite !drop_app, (drop_ge p), (drop_ge u) by lia. cbn [app].
    replace (Z.to_nat (92 - len p - len u - (88 - len p - len u))) with (Z.to_nat (92 - 88)) by lia.
    by replace (Z.to_nat (88 - len p - len u)) with (Z.to_nat 88 - length p - length u)%nat by lia.
  - apply eq_true_iff_eq. rewrite !Z.leb_le. lia.
Qed.

(** Some run of [validate] accepts [data]. *)
Definition accepts_file (data : bytes) : Prop :=
  exists limits c result c', limits_ok limits /\ guard_ok (guard c) /\
    validate data limits c = (Ok result, c').

Lemma accepts_file_crc data :
  is_bytes data -> len data <= USIZE_MAX -> accepts_file data ->
  exists x, get_range data 88 92 = Some x /\ from_le_bytes x = crc32c (zeroed_header data).
Proof.
  intros Hb Hl (limits & c & result & c' & Hlim & Hg & E).
  pose proof (wpp_validate data limits c (fun r _ => wire_file data limits r) Hb Hl Hlim Hg ltac:(done)) as H.
  unfold wpp in H. rewrite E in H. by eapply accepted_header_crc.
Qed.

(** C19: A corrupted header is always detected: of two files that differ only
    inside a window of at most four bytes of the header fields (everything but
    the stored digest and checksum), at most one is accepted, under whatever
    limits and in whatever state each is validated. *)
Theorem corrupted_headers_are_rejected p w v q :
  is_bytes (p ++ w ++ q) -> is_bytes (p ++ v ++ q) -> len (p ++ w ++ q) <= USIZE_MAX ->
  length w = length v -> (length w <= 4)%nat -> w <> v -> len p + len w <= 56 ->
  accepts_file (p ++ w ++ q) -> ~ accepts_file (p ++ v ++ q).
Proof.
  intros Hw Hv Hl Hlen H4 Hne Hfit Aw Av. apply Hne.
  assert (len (p ++ v ++ q) <= USIZE_MAX) as Hl' by (rewrite !length_app in *; lia).
  apply accepts_file_crc in Aw as (x & Hx & Hxc); [|done..].
  apply accepts_file_crc in Av as (x' & Hx' & Hxc'); [|done..].
  rewrite (header_crc_splice _ _ _ _ eq_refl Hfit) in Hx.
  rewrite (header_crc_splice _ _ _ _ (eq_sym Hlen) Hfit), Hx in Hx'. injection Hx' as <-.
  rewrite (zeroed_header_splice _ _ _ _ eq_refl Hfit) in Hxc.
  rewrite (zeroed_header_splice _ _ _ _ (eq_sym Hlen) Hfit) in Hxc'.
  apply is_bytes_app in Hw as [Hp Hwq]. apply is_bytes_app in Hwq as [Hw Hq].
  apply is_bytes_app in Hv as [_ Hvq]. apply is_bytes_app in Hvq as [Hv _].
  refine (crc32c_window p w v _ Hp Hw Hv _ Hlen H4 (eq_trans (eq_sym Hxc) Hxc')).
  unfold is_bytes in *. rewrite !Forall_app. splits; [by apply Forall_take| |by apply Forall_take, Forall_drop].
  apply Forall_replicate. ulia.
Qed.

(** ** Receipts *)

Record validation_ok (v : Validation) : Prop := {
  validation_minor : is_u16 (minor v);
  validation_flags : is_u32 (feature_flags v);
  validation_length : is_u64 (total_length v);
  validation_digest : len (file_digest v) = 32;
  validation_sections : is_u32 (section_count v);
  validation_rows : is_u64 (total_rows v)
}.

Lemma words_inj n z w x y :
  to_le_bytes n z ++ x = to_le_bytes n w ++ y -> 0 <= z < 256 ^ Z.of_nat n -> 0 <= w < 256 ^ Z.of_nat n ->
  z = w /\ x = y.
Proof.
  intros H Hz Hw. apply app_inj_1 in H as [E ->]; [|by rewrite !length_to_le_bytes].
  split; [|done]. by rewrite <- (from_to_le n z), <- (from_to_le n w), E.
Qed.

Lemma receipt_Ok v w r s : receipt v w = (Ok r, s) -> r = receipt_bytes v.
Proof.
  unfold receipt, try_reserve. unfold_monad. destruct (look w) as [o t]. destruct (obs_alloc o); [|done].
  set (x := receipt_bytes v). by intros [= <- _].
Qed.

(** A receipt has 76 bytes and identifies the validation it was issued for:
    validations with the same receipt are the same. *)
Theorem receipts_identify_validations v v' w w' s s' r :
  validation_ok v -> validation_ok v' ->
  receipt v w = (Ok r, s) -> receipt v' w' = (Ok r, s') -> len r = RECEIPT_BYTES /\ v = v'.
Proof.
  intros [H1 H2 H3 H4 H5 H6] [K1 K2 K3 K4 K5 K6] ->%receipt_Ok E%receipt_Ok. split.
  { unfold receipt_bytes. rewrite !length_app, !length_to_le_bytes, !Nat2Z.inj_add, H4. done. }
  unfold receipt_bytes in E. destruct v as [a b c d e f], v' as [a' b' c' d' e' f'].
  cbn [minor feature_flags total_length file_digest section_count total_rows] in *.
  do 4 apply app_inv_head in E.
  apply words_inj in E as [-> E]; [|change (256 ^ Z.of_nat 2) with (U16_MAX + 1); ulia..].
  apply words_inj in E as [-> E]; [|change (256 ^ Z.of_nat 4) with (U32_MAX + 1); ulia..].
  apply words_inj in E as [-> E]; [|by apply u64_bound..].
  apply app_inj_1 in E as [-> E]; [|lia].
  apply words_inj in E as [-> E]; [|change (256 ^ Z.of_nat 4) with (U32_MAX + 1); ulia..].
  rewrite <- (app_nil_r (to_le_bytes 8 f')), <- (app_nil_r (to_le_bytes 8 f)) in E.
  apply words_inj in E as [-> _]; [done|by apply u64_bound..].
Qed.

(** * Sample files

    A small writer of PYOCORE files, in the layout the specifications
    describe, and two files: one that [validate] accepts and one with an
    oversized row offset.  They show that the hypotheses of the theorems about
    whole files can hold. *)

Record Section_ := mkSection { s_kind : Z; s_payload : bytes; s_rows : Z }.

Definition table_section (kind : Z) (rows : list bytes) : Section_ :=
  {| s_kind := kind; s_payload := encode_table rows; s_rows := len rows |}.

Definition padding_to_8 (n : Z) : Z := (- n) mod 8.

(** The records of the sections laid out from [offset] on. *)
Fixpoint directory_of (offset : Z) (sections : list Section_) : list Entry :=
  match sections with
  | [] => []
  | s :: sections =>
      {| e_kind := s_kind s; e_flags := if required_kind (s_kind s) then SECTION_REQUIRED else SECTION_OPTIONAL;
         e_schema := default 1 (supported_schema (s_kind s)); e_offset := offset;
         stored_length := len (s_payload s); decoded_length := len (s_payload s); row_count := s_rows s;
         e_digest := sha256 (s_payload s) |}
      :: directory_of (offset + len (s_payload s) + padding_to_8 (len (s_payload s))) sections
  end.

Definition body_of (sections : list Section_) : bytes :=
  concat (map (fun s => s_payload s ++ replicate (Z.to_nat (padding_to_8 (len (s_payload s)))) 0) sections).

Definition write_file (sections : list Section_) : bytes :=
  let directory := concat (map encode_entry (directory_of (96 + 72 * len sections) sections)) in
  let rest := directory ++ body_of sections in
  let header (digest : bytes) (crc : Z) :=
    encode_header {| h_major := 1; h_minor := 2; header_length := 96; h_feature_flags := 0;
                     h_section_count := len sections; h_model_schema := 2; h_profile := 1;
                     h_total_length := 96 + len rest; directory_offset := 96;
                     directory_length := 72 * len sections; h_file_digest := digest; header_crc := crc;
                     reserved := 0 |} in
  let zeroed := header (replicate 32 0) 0 in
  header (sha256 (zeroed ++ rest)) (crc32c zeroed) ++ rest.

(** ** The rows of the sample *)

Definition zeros (n : nat) : bytes := replicate n 0.
Definition sample_fingerprint : bytes := to_le_bytes 4 2 ++ zeros 32.

Definition sample_document : bytes :=
  to_le_bytes 4 1 ++ concat (replicate 6 (to_le_bytes 4 0)) ++      (* key, identities *)
  zeros 32 ++ sample_fingerprint ++ [1; 1] ++ zeros 32 ++ [1] ++    (* digests, status: root *)
  to_le_bytes 8 100 ++ to_le_bytes 8 0 ++ to_le_bytes 4 0 ++ [1; 1; 0] ++
  to_le_bytes 4 1 ++ to_le_bytes 4 1 ++ to_le_bytes 2 0 ++ to_le_bytes 2 0 ++ to_le_bytes 4 MODEL_SCHEMA ++
  encode_refs [] ++ encode_refs [] ++ encode_refs [1] ++ encode_refs [] ++ encode_refs [] ++ encode_refs [1] ++
  encode_refs [].

Definition sample_imports : bytes := [1; 1] ++ zeros 32 ++ to_le_bytes 8 0.

Definition sample_view : View :=
  {| v_root := 1; v_flag := true; v_context_tag := 0; v_contexts := []; v_first := sample_fingerprint;
     v_second := sample_fingerprint; v_third := sample_fingerprint; v_documents := 1; v_annotations := [];
     v_axioms := [1]; v_extensions := [] |}.

Definition sample_origins : bytes :=
  sha256 (encode sample_axiom) ++ to_le_bytes 8 1 ++
  encode_origin {| o_document := 1; o_occurrence := 0; o_span := [0; 9; 1; 1; 1; 10] |}.

Definition sample_iri (name : string) : component := Component 1 [PText (str name)].

Definition ledger_sections (strings : Section_) : list Section_ :=
  [strings; table_section 2 [encode (sample_iri "urn:a")];
   table_section 3 [encode (sample_class "urn:a"); encode (sample_class "urn:b")];
   table_section 4 []; table_section 5 []; table_section 6 []; table_section 7 []; table_section 8 [];
   table_section 9 [encode sample_axiom]; table_section 10 [sample_document];
   table_section 11 [sample_imports]; table_section 12 [encode_view sample_view];
   table_section 13 [sample_origins]].

(** The table a reader of the directory makes of a section, as far as the footer needs it. *)
Definition ledger_table (s : Section_) : Table :=
  {| t_kind := s_kind s; t_count := s_rows s; section_start := 0; section_end := 0; payload_start := 0;
     t_digest := sha256 (s_payload s) |}.

Definition sample_sections (strings : Section_) : list Section_ :=
  let sections := ledger_sections strings in
  sections ++ [table_section 14 [encode_footer (map ledger_table sections)
                                   [v_first sample_view; v_second sample_view; v_third sample_view]]].

Definition sample_file : bytes :=
  Eval vm_compute in write_file (sample_sections (table_section 1 [str "doc"])).

(** A file whose STRINGS table has one row that ends at 2^64 - 1. *)
Definition oversized_section : Section_ :=
  {| s_kind := 1; s_payload := to_le_bytes 8 1 ++ to_le_bytes 8 0 ++ to_le_bytes 8 U64_MAX; s_rows := 1 |}.
Definition oversized_file : bytes := Eval vm_compute in write_file (sample_sections oversized_section).

(** The default limits, without the digest of the whole file. *)
Definition sample_limits : Limits := from_values default_values 0.

Lemma sample_limits_ok : limits_ok sample_limits.
Proof. split; [vm_compute; discriminate|]. split; vm_compute; discriminate. Qed.

Lemma sample_guard_ok : guard_ok (guard (w_ctx sample_state)).
Proof. split; cbn; ulia. Qed.

Definition sample_validation : Validation :=
  {| minor := 2; feature_flags := 0; total_length := len sample_file;
     file_digest := take 32 (drop 56 sample_file); section_count := 14; total_rows := 10 |}.

Lemma sample_file_accepted :
  fst (validate sample_file sample_limits (w_ctx sample_state)) = Ok sample_validation.
Proof. vm_compute. reflexivity. Qed.

Lemma sample_file_bytes : is_bytes sample_file /\ len sample_file <= USIZE_MAX.
Proof. split; [apply is_bytesb_true; vm_compute; reflexivity|vm_compute; discriminate]. Qed.

(** ** Witnesses *)

Lemma validate_accepts_only_wire_files_witness : wire_file sample_file sample_limits sample_validation.
Proof.
  pose proof sample_file_accepted as H.
  destruct (validate sample_file sample_limits (w_ctx sample_state)) as [o c] eqn:E. cbn [fst] in H. subst o.
  apply (validate_accepts_only_wire_files sample_file sample_limits (w_ctx sample_state) sample_validation c).
  - apply sample_file_bytes.
  - apply sample_file_bytes.
  - apply sample_limits_ok.
  - apply sample_guard_ok.
  - exact E.
Defined.

Lemma validate_panics_only_on_oversized_row_offsets_witness : oversized_table oversized_file.
Proof.
  apply (validate_panics_only_on_oversized_row_offsets oversized_file sample_limits (w_ctx sample_state)).
  - apply is_bytesb_true. vm_compute. reflexivity.
  - vm_compute. discriminate.
  - apply sample_limits_ok.
  - apply sample_guard_ok.
  - vm_compute. reflexivity.
Defined.

(** The sample with the minor version of its header changed from 2 to 1. *)
Lemma corrupted_headers_are_rejected_witness :
  ~ accepts_file (take 10 sample_file ++ [1; 0] ++ drop 12 sample_file).
Proof.
  assert (take 10 sample_file ++ [2; 0] ++ drop 12 sample_file = sample_file) as Hsame by (vm_compute; reflexivity).
  apply (corrupted_headers_are_rejected (take 10 sample_file) [2; 0] [1; 0] (drop 12 sample_file)).
  - rewrite Hsame. apply sample_file_bytes.
  - apply is_bytesb_true. vm_compute. reflexivity.
  - rewrite Hsame. apply sample_file_bytes.
  - reflexivity.
  - cbn. lia.
  - discriminate.
  - vm_compute. discriminate.
  - rewrite Hsame. pose proof sample_file_accepted as H.
    destruct (validate sample_file sample_limits (w_ctx sample_state)) as [o c] eqn:E. cbn [fst] in H. subst o.
    exists sample_limits, (w_ctx sample_state), sample_validation, c.
    split; [apply sample_limits_ok|]. split; [apply sample_guard_ok|exact E].
Defined.

Lemma receipts_identify_validations_witness :
  exists r s, receipt sample_validation calm_world = (Ok r, s) /\ len r = RECEIPT_BYTES.
Proof.
  assert (validation_ok sample_validation) as Hok.
  { constructor; split; vm_compute; discriminate. }
  assert (receipt sample_validation calm_world = (Ok (receipt_bytes sample_validation), snd (look calm_world))) as E
    by reflexivity.
  exists (receipt_bytes sample_validation), (snd (look calm_world)). split; [exact E|].
  exact (proj1 (receipts_identify_validations sample_validation sample_validation calm_world calm_world
                  _ _ _ Hok Hok E E)).
Defined.

Lemma footer_ledger_ok_of_bool tables :
  forallb (fun kind => match find_table tables kind with
     | Some t => (0 <=? t_count t) && (t_count t <=? U64_MAX) && (len (t_digest t) =? 32)
     | None => false end) (map Z.of_nat (seq 1 13)) = true ->
  footer_ledger_ok tables.
Proof.
  intros H kind Hk. rewrite forallb_forall in H. specialize (H kind).
  destruct (find_table tables kind) as [t|].
  - assert (In kind (map Z.of_nat (seq 1 13))) as Hin.
    { apply in_map_iff. exists (Z.to_nat kind). split; [lia|]. apply in_seq. lia. }
    specialize (H Hin). cbn beta iota in H. rewrite !andb_true_iff in H. exists t. unfold is_u64. split; [done|lia].
  - assert (In kind (map Z.of_nat (seq 1 13))) as Hin.
    { apply in_map_iff. exists (Z.to_nat kind). split; [lia|]. apply in_seq. lia. }
    specialize (H Hin). cbn beta iota in H. discriminate.
Qed.

Definition sample_tables : list Table :=
  Eval vm_compute in map ledger_table (ledger_sections (table_section 1 [str "doc"])).

Lemma footer_is_exactly_the_ledger_witness :
  with_reader (Reader_new (encode_footer sample_tables [sample_fingerprint]))
    (footer_row sample_tables [sample_fingerprint]) = Ok tt.
Proof.
  apply (footer_is_exactly_the_ledger sample_tables [sample_fingerprint]
           (encode_footer sample_tables [sample_fingerprint])).
  - apply footer_ledger_ok_of_bool. vm_compute. reflexivity.
  - apply List.Forall_cons; [|apply List.Forall_nil]. unfold is_fingerprint.
    eexists 2, (drop 4 sample_fingerprint). split; [vm_compute; reflexivity|]. split; [ulia|vm_compute; reflexivity].
  - apply is_bytesb_true. vm_compute. reflexivity.
  - vm_compute. discriminate.
  - reflexivity.
Defined.
